(* ===== verification/_CoqProject ===== *)
-Q . S2P
Prelude.v
Json.v
State.v
Edge.v
Checkpoint.v
MemCheckpointer.v
FileCheckpointer.v
FileCheckpointerFacts.v
FileRefinement.v
FileSamples.v
Decorators.v
Node.v
Graph.v
Validate.v
Builder.v
Routing.v
Merge.v
Engine.v
EngineFacts.v
Safety.v
Stream.v
Parallel.v
Resume.v
Transparency.v
Subgraph.v
Samples.v
Persistence.v
Message.v
Memory.v
Session.v
Replay.v
ReplayFacts.v
EventLog.v
EventStoreMem.v
SessionCheckpoint.v
EventManager.v
EventManagerFacts.v
SessionTheorems.v
Recovery.v
LegacySession.v
Agreement.v
SessionSamples.v
TemplateParser.v
PromptTemplate.v
PromptFacts.v
SummaryMemory.v
ContextWindow.v
PromptRegistry.v
FewShot.v
PromptSamples.v
Process.v
Pool.v
AgentTypes.v
ToolGate.v
Batch.v
AgentExecutor.v
AgentFacts.v
ResumeFacts.v
AgentStream.v
StreamFacts.v
AgentSamples.v
TextSplitter.v
Runnable.v
Lcel.v
LcelMaps.v
Retry.v
LcelFacts.v
LcelPools.v
LcelSamples.v
WithHistory.v
JsonRepair.v
JsonRepairFacts.v
A2aProtocol.v
A2aStore.v
A2aServer.v
A2aFacts.v
A2aSamples.v
McpProtocol.v
McpServer.v
McpFacts.v
