(* ===== verification/Prelude.v ===== *)
(** * The graph engine, the sessions, the prompts, the agents, the runnables and the
      agent server of langchainrust, verified

    langchainrust is a Rust workspace for language-model applications.  Several of its
    subsystems carry logic of their own rather than calls to services: the graph
    engine of [src/crates/lc-langgraph] (a state graph is built and validated,
    compiled, and run step by step over a shared state, with fan-out and join,
    recursion limits, interrupts, checkpoints, resume and time travel); the
    conversation sessions of [src/crates/lc-sessions] with the messages and memories
    under them ([lc-schema], [lc-memory]): an event log per conversation, replayed
    into turns, compacted, forked, checkpointed and recovered; the prompts of
    [lc-prompts] (templates, strict formatting, a versioned registry, few-shot
    selection); the agent executor of [lc-agents] (the plan-act-observe loop with
    its tool gate, budgets, parallel batches, approvals and resumption); the runnables of
    [lc-core] (pipelines, fallbacks, retries, concurrent calls, streams); the text
    splitter of [lc-shared]; the repair of the JSON that models write; and the server of the
    agent-to-agent protocol of [lc-a2a] (tasks behind a request handler, run by background
    workers).  This library models them and proves what makes them correct.

    ** The parts and their files

    [Prelude] (this file): [result] for Rust's [Result]; [Act], a total
    state-and-error computation, for an async method; [Run], the same with fuel
    ([None] is running out of it), for a loop that may not end; the order [⊑ᵣ] "more
    fuel, same answers"; weakest preconditions [wp] and total-correctness triples;
    strings; stable sorting.

    The graph engine ([lc-langgraph]):

    - [Json], [State] ([state.rs], [errors.rs]): [serde_json::Value], the error
      enum, [StateSchema], state updates, the reducers, [AgentState].
    - [Edge] ([edge.rs]), [Node] ([node.rs]): edge kinds; node kinds and routers.
      [GraphCode] is the interface (the traits [GraphNode] and [ConditionalEdge])
      that the engine is written and proved against.
    - [Checkpoint], [MemCheckpointer], [FileCheckpointer], [Decorators]
      ([checkpointer.rs]): the [Checkpointer] trait as a record of operations with
      its default bodies, the retention policy, the in-memory and file backends, the
      retention and territory decorators.  [ThreadedStore] and [LineageStore] are
      what a backend promises: the memory backend and the decorators are instances,
      and decorators, resume and forks are proved from the promise alone.
      [FileCheckpointerFacts] is the theory of the disk, [FileRefinement]
      simulates the file backend by the memory backend.
    - [Graph] ([compiled/graph.rs], [compiled/types.rs]): [CompiledGraph], and
      [Env], the state its clones share: runtime nodes, edges and routers, the
      task inbox, the checkpoint store and the outside world.
    - [Validate] ([compiled/validate.rs]), [Builder] ([graph.rs]): the checks with
      their two traversals; the builder and [compile].
    - [Routing] ([compiled/stream.rs]), [Merge] ([compiled/parallel.rs]): the
      successor, fan-out and fan-in lookups; the field-by-field merge of branches.
    - [Engine] ([compiled/invoke.rs]): [invoke_with_config], [invoke_with_execution]
      and [invoke_from_node_with_count], each loop a fixpoint on fuel built from
      the shared steps [step_node], [run_fan_out] and [save_step].
    - [Stream] ([compiled/stream.rs]), [Parallel] ([compiled/parallel.rs]), [Resume]
      ([compiled/graph.rs]), [Subgraph] ([subgraph.rs]): the other entry points.
    - [EngineFacts], [Safety], [Transparency]: the theory of the loops.
    - [Persistence] ([persistence.rs], [compiled/visualize.rs]): the export of a compiled
      graph as a definition, its serde encoding, drawings and stores, with their theory.
    - [Samples], [FileSamples]: concrete graphs and disks, and the properties applied
      to them.

    A run goes [Builder.compile] -> [Validate.validate] -> [Engine.invoke]; each
    iteration executes a node ([Node.execute]), folds its update with the graph's
    reducer ([State]), looks for a fan-out and otherwise a successor ([Routing]),
    runs and merges the branches ([Merge]) and saves ([Checkpoint]).

    The sessions ([lc-sessions], [lc-memory], [lc-schema]):

    - [Message] ([messages/message.rs]), [Memory] ([base.rs], [buffer.rs],
      [window.rs], [history.rs]): chat messages; the [BaseMemory] trait as a record
      of operations, the buffer and window memories.
    - [Session], [Replay] ([session.rs], [events/model.rs], [events/replay.rs]):
      sessions, events and errors; replay, merging, compaction.  [ReplayFacts] has
      the closed form of a replay.
    - [EventLog], [EventStoreMem] ([events/store.rs]): the [EventStore] trait, its
      specification [LogSpec] on plain per-branch logs, the class [EventLog] of
      stores that keep it, and the in-memory store, which does.
    - [SessionCheckpoint] ([events/checkpoint.rs]): the
      checkpoint trait, the class [CheckpointStore], the file checkpoint.
    - [EventManager] ([events/manager.rs]): every operation of the event-sourced
      manager, over a [World] that its forks and sibling managers share.
      [EventManagerFacts] says what each operation does to the logs
      (a [log_move]) from the class [EventLog] alone; [SessionTheorems] and
      [Recovery] prove the properties, the second by induction on the [step]s of any
      number of managers over one world.
    - [LegacySession] ([manager.rs], [memory_store.rs], [session_runnable.rs]): the
      mutable-history manager; [Agreement] relates the two managers.
    - [SessionSamples]: worlds on which the properties are applied.
    - [SummaryMemory] ([summary.rs], [summary_buffer.rs]): the memories that ask a model for a
      summary, through a prompt template, and what becomes of their turns.
    - [ContextWindow] ([context_window/], [context_manager.rs], [lc-core]'s token counters):
      fitting a conversation in a token budget, by truncation or summaries; the class
      [Additive] of what token counters promise; the manager composed of strategies.
    - [WithHistory] ([with_history.rs]): a model with a memory per session, its cache of
      sessions, and schedules of its calls.

    A chat reads the log and projects it ([Replay.project]) into the model's context
    through the window and the memory ([Memory]), asks the model, saves the turn in
    the memory, appends the user and reply events ([EventLog]) and compacts the log
    when it is over budget.  A recovery merges a checkpoint ([SessionCheckpoint])
    with the events after it.

    The prompts ([lc-prompts]):

    - [TemplateParser] ([template_parser.rs], [validation.rs]), [PromptTemplate]
      ([prompt_template.rs], [chat_prompt_template.rs], [template_diff.rs]): scanning,
      rendering, strict formatting, the cache of shared instances; the first has the
      theory of the scanner, [PromptFacts] that of the templates.
    - [PromptRegistry] ([registry.rs]) and [FewShot] ([few_shot.rs]), each with its theory;
      [PromptSamples] applies the properties.

    The agents ([lc-agents]):

    - [Process]: an async function is a [Proc], its steps are what another task or a
      crash sees.  [Pool]: a [JoinSet] of such tasks under a semaphore and any schedule;
      when two processes are the same ([≡ₚᵣ]).
    - [AgentTypes] ([types.rs], [policy.rs], [executor/budget.rs],
      [executor/compaction.rs]): the data, the budget gates, the tool policy.
    - [ToolGate] ([executor/tool_gate.rs], [executor/tools.rs]): the chain of one tool
      call, [execute_one]; [Batch]: the parallel batch, [execute_many], over the class
      [Runtime] of what tokio promises.
    - [AgentExecutor] ([executor/engine.rs], [executor/agent_loop.rs]): planning with
      its cache, the loop, [invoke] and [resume]; [AgentStream] ([executor/stream.rs]).
    - [AgentFacts], [ResumeFacts], [StreamFacts]: the theory; [AgentSamples] applies it.

    A run plans ([plan_cached]), gates the budget, sends each action through the gate
    (hooks, approval, lookup, policy, rule of two, tool, callbacks) and plans again on
    the observations.

    The runnables ([lc-core/src/runnables]) and the splitter ([lc-shared]):

    - [Runnable] ([runnable_trait.rs], [any.rs], [config.rs]): the trait with its default
      bodies, boxed values, streams, configurations.  [Lcel] ([sequence.rs], [branch.rs],
      [fallback.rs], [lambda.rs], [passthrough.rs]), [LcelMaps] ([parallel.rs], [assign.rs],
      [pick.rs], [binding.rs], [configurable.rs]), [Retry] ([retry.rs]): the combinators.
    - [LcelFacts] (pipelines), [LcelPools] (concurrent calls, fallbacks, retries, layers of
      configuration); [LcelSamples] applies the properties.
    - [TextSplitter] ([splitter_types.rs]), with its theory.
    - [JsonRepair] ([json_repair.rs], [json_parse.rs], [structured_output/parser.rs],
      [output_parsers]): the repair passes, the incremental parser; [JsonRepairFacts].

    A pipeline erases its steps to [RunnableAny] and hands each the boxed output of the one
    before; streamed, each step maps the lazily read stream of the one before; [batch] and
    [RunnableParallel] run their calls in a pool ([Pool]).

    The agent server ([lc-a2a]):

    - [A2aProtocol] ([protocol/task.rs], [protocol/model.rs]): tasks and their state machine,
      requests, answers, notifications.  [A2aStore] ([store.rs]): the trait [TaskStore], the
      class [AtomicStore] of what an atomic backend promises, the in-memory store.
    - [A2aServer] ([server/], [rate_limiter.rs]): every handler, worker and sweep as a
      [Proc] whose calls are its accesses to what the server shares.
    - The second half of [Process] says what a process guarantees, call by call, to the tasks
      it runs among.  [A2aFacts]: the system, in which requests arrive and any process takes the next turn,
      and its properties; [A2aSamples] applies them and has the schedules of the races.

    A request is authenticated, resolved to an owner and dispatched; a send stores a task,
    takes a permit and spawns the worker that runs the chain and moves the task through its
    statuses with compare-and-update; a cancel, a resume and a sweep move it too.

    The tool server ([lc-mcp]):

    - [McpProtocol] ([protocol.rs], [types.rs], [logging.rs], [subscriptions.rs], [sampling.rs]
      and the files of the resources, prompts, completions, tasks and elicitations): the data
      with its JSON, version negotiation, the round trips of a stateless request, the guard of
      nested sampling calls and the registry of subscriptions, these two with their theory.
    - [McpServer] ([server.rs]): the server, every handler as a [Proc] over what the tasks
      share (the table of cancellations, tokio's [Notify], the clock, the host), a tool call
      with its [select!], the stdio loop, a connection of the HTTP loop.  [mcp_step] is the
      scheduler: a message arrives, a task takes a turn, or time passes.
    - [McpFacts]: the properties and their samples.

    A message is decoded and dispatched; a tool call registers a signal under its session and
    id and waits for the tool, the signal or its deadline, whichever a random poll finds ready
    first; a notification fires the signal of its own session; the entry is removed before the
    answer.  The class [McpHost] has what the server calls (tools, providers, sinks), [McpWire]
    the decoding of a message.

    ** What is shown of the graph engine

    - Validation accepts exactly the well-formed graphs ([validate_ok_iff]); what
      compiles is well formed ([compile_ok]); on such a graph routing always finds a
      registered successor ([routing_progress]) and a run can only end with a result
      inside the limit or one of the errors of [run_error] ([validated_run_safe]), unless a
      node is registered under START ([start_node_loops]).
    - Every run ends ([invoke_terminates], [resume_terminates], [subgraph_bounded]),
      and interrupting and resuming does not buy steps.
    - The entry points agree: [stream_is_invoke], [parallel_is_invoke],
      [dynamic_is_invoke], and [checkpointing_transparent] (a simulation between a
      graph and the same graph without its checkpointer).
    - Merging: [merge_parallel_states_spec], [merge_order_irrelevant],
      [merge_reducer_fieldwise].
    - Interrupts and time travel: [interrupt_resume_exact] (on a checkpointer that keeps its
      threads apart, for a payload that is an object and a node whose name does not begin with
      [after_]; [scalar_payload_resumes_other] and [after_name_skipped] are what happens
      otherwise), [fork_from_spec], [subgraph_suspension_passes], [submitted_tasks_planned].
    - The exported definition of a graph reads back as it was ([export_roundtrip]), its JSON
      drawing shows exactly its structure ([drawing_exact]), and a directory of definitions
      answers as the store in memory ([directory_refines_map]).
    - Checkpoint stores: [memory_store_invariant] (by induction over every sequence
      of operations), [memory_save_load], [memory_last_is_newest],
      [memory_update_exclusive], [retention_policy], [retaining_save_bounded],
      [retaining_no_policy_transparent], [territories_isolated].
    - The file backend: it answers every session as the memory backend does, except that it
      finds no checkpoint to edit outside the default thread
      ([file_backend_refines_memory]), and a save is all or nothing on a disk that
      may fail at any point ([file_save_atomic]).
    - Where the code departs from its documentation:
      [territory_resume_ignores_checkpoint], and the runs [twice_parallel_remerges],
      [one_decision_answers_all], [reopened_out_of_order],
      [dot_thread_breaks_history] and [suffix_deletes].

    ** What is shown of the sessions

    - The in-memory event store refines its specification
      ([memory_event_store_refines]) and keeps every event under its own key
      ([event_store_typed]).
    - Recovery from a checkpoint is the replay of the whole log, in every world reachable by
      operations one after the other with forks into branches without events
      ([recover_refines_replay]); [merge_projections_exact] says exactly when
      merging a tail is projecting the whole.
    - In every such world each tool result follows its call ([tool_results_paired]);
      [fork_over_orphans_result] and [deletion_orphans_result] are runs beyond it.
    - A chat appends its two events or leaves the log alone ([chat_appends_turn]); a
      retried chat saves its turn in the memory once ([chat_retry_saves_once]); the
      context is the window ([context_window]).
    - Compaction bounds the turns kept ([compaction_bounded]) but the collection of
      an idle session never settles ([gc_never_settles]); a fork and its trunk do not
      see each other's events ([fork_isolated]).
    - A file checkpoint survives any failure of a save ([file_checkpoint_durable]); a
      memory that fails to save is left as documented or not ([memory_save_context]).
    - The two managers hold the same conversation ([managers_agree]).
    - However its model fails, a summary memory whose prompt uses its variables quotes every
      turn to it or keeps it ([summary_lossless]) and a
      summary buffer stays within its budget up to a few turns ([summary_buffer_bounded]);
      [unformatted_prompt_loses_lines], [huge_window_keeps_nothing] and [window_tools_lost] are
      what they do lose.
    - What a context window gives back over an additive counter, whatever its strategy
      ([fit_outcome]); [outgrown_summary_loses_messages] is what a large summary costs, and
      [newest_tool_emptied] a history that truncation empties.
    - In every schedule of calls on the sessions of a model with memories (any that keep turns,
      the class [KeepsTurns], made by any factory that makes a new one per call) a turn sees
      the turns of its own session on its memory, in order, and nothing else
      ([sessions_keep_history]).

    ** What is shown of the prompts

    - Parsing and printing are inverse on normal templates ([template_roundtrip]);
      strict formatting is lenient formatting behind its checks ([strict_formatting]);
      template diffs announce exactly the breaking changes ([diff_breaking_iff]).
    - The registry refines the append-only log of published texts
      ([registry_refines_log]) and never changes what a pinned reference means
      ([registered_is_pinned]).
    - Few-shot templates format when validation passes ([validated_few_shot_formats]);
      the selector keeps its budget ([length_selector_budget]).

    ** What is shown of the agents

    - A run stays within its iterations, its tool calls and its tokens, whatever agent,
      tools and runtime do ([run_within_limits]).
    - A batch, under every schedule, answers ordered observations or aborts for a cause
      ([batch_outcome], [overloaded_batch_aborts]) and comes to its end ([batch_ends]).
    - Refused tools have no influence on any run ([blocked_tool_never_runs], an equality
      of processes); a crash finds the pending call ([crash_keeps_checkpoint]); a stream
      ends as [invoke] does when nothing observes or limits the run but its budgets
      ([stream_agrees_with_invoke], [policy_before_lookup_only_when_streaming]).
    - What is kept: [compaction_keeps_recent], [put_ok].

    ** What is shown of the runnables, the splitter and the JSON repair

    - A pipeline is the composition of its typed steps, invoked, batched or streamed, and
      its downcasts never fail ([sequence_composes]); streaming steps that do not override
      [stream] is invoking them ([plain_stream_invokes]).
    - Fallbacks and retries make the calls they document and no others ([fallback_outcome],
      [retry_outcome]).
    - Concurrent calls come to results in the order of the inputs, under every schedule
      ([default_batch_outcome], [parallel_outcome], [batch_as_completed_outcome]).
    - Layers of configuration associate, and which one wins ([merge_layers],
      [binding_precedence]).
    - The splitter's chunks are bounded and lossless ([splitter_chunks]); its spans are
      exact as long as no part needs a second separator ([spans_exact]).
    - Repair leaves valid JSON alone and takes it out of prose and of fences whose text holds no
      other fence ([repair_keeps_valid], [fence_in_string_cuts]); partial JSON is closed
      ([partial_repair_closes]); the value of the incremental parser, or that there is none,
      does not depend on the tokens ([chunking_irrelevant]), the report of its errors does
      ([report_depends_on_cut]).

    ** What is shown of the agent server

    - In every schedule a task follows its state machine and a terminal task stays as it is
      ([task_lifecycle]), where no resume or re-run of the task and no sweep takes part: these write without
      comparing, and [resume_revives_cancelled] and [sweep_clobbers_completed] are schedules
      in which a terminal task is lost.
    - Workers are bounded by permits, which all come back ([inflight_bounded]), and the
      server drains ([server_drains]), over any store at all.
    - Nobody is shown the task of another owner, except by a cancel that read a task of the
      caller and then lost its race for it
      ([answers_owned], [cancel_shows_other_owner]); the pages of a listing enumerate
      it ([pages_enumerate]).

    ** What is shown of the tool server

    - A call is only answered as cancelled when its own session cancelled it
      ([cancel_stays_in_session]); with a deadline every request is answered, whatever its tool
      does ([requests_answered]); the table of cancellations holds the calls in flight and
      nothing else ([table_drains]).
    - Over stdio the answers come in the order of the lines, one each
      ([stdio_answers_in_order]), and nothing is ever cancelled ([stdio_never_cancels]); a line
      is read whole whatever its chunks ([line_framed]), unless it is not ASCII
      ([split_character_lost]) or too long ([overlong_rest_read]).
    - The sampling guard keeps its depth and its budget in every schedule
      ([sampling_bounded]), for sums below the width of a [usize]; [budget_overflow_admits]
      and [release_race_wraps] are runs beyond it.  The registry of subscriptions is a set of
      pairs ([subscriptions_refine_pairs]).
    - The pages of tools enumerate them ([tools_enumerate]), what is not declared is not found
      ([undeclared_not_found]), and a server with a validator handles nothing without an
      accepted token ([http_needs_token]).

    ** Fuel and bounds

    One unit of fuel is one iteration of a loop; a branch of a fan-out runs on the
    fuel left.  Every iteration but the one at the virtual START consumes a step of
    the recursion limit, so [limit + 2] (from the entry point) and [limit + 1] (a
    resume) are enough for every input; more fuel never changes an answer.  The work
    lists of [Validate] run on fuel computed from the edge list and are proved
    total.  [usize] counters are bounded by the recursion limit and are [nat];
    the sequence numbers and versions of the in-memory backend grow by one per
    operation and are [N]; the counter of the file backend wraps at 64 bits, and the
    simulation is about sessions with fewer requests.  The event ids of the sessions
    are 64 bits wide and wrap as in a release build ([u64_add]); the theorems about
    chats say how much room they need below the maximum.  Timestamps compared by
    retention are [Z] with the saturating subtraction of [i64] written out.

    ** What is assumed or left out

    - User closures (nodes, routers, reducers, mappers, planners) and language models
      are arbitrary functions; they answer.  [Uuid::new_v4] and [chrono::Utc::now]
      are parameters; theorems that need distinct ids or a clock that does not go
      back say so.  serde's encodings, chrono's formatting and the operating system
      are parameters too: the documented round trip is a hypothesis where it is used,
      and any I/O operation may fail unless the theorem says that the disk works.
    - Branches of a fan-out run one after the other, the behaviour of
      [max_concurrency = Some(1)]; interleavings at await points, lock contention
      and cancellation are not modelled.  The striped locks of the sessions make the
      operations of one session run one after the other, which is how operations run
      here.  A stream's consumer reads to the end.
    - In the agents, hooks, handlers, tools and agents are arbitrary processes that make
      finitely many calls; they do not panic.  Token and call counts are sums over one
      run and unbounded.  A batch has its permits to itself.
    - Of a runnable's streams, a consumer may stop anywhere, but the streams end; a task
      that panics and the wake-ups of a cancellation token are not modelled.
    - A call of a chain is one step of its worker, and comes to an end; what a chain does between its
      start and a cancel that stops it is not seen.  The order in which a [HashMap] is
      iterated is a parameter.
    - A subdirectory of a file checkpointer's thread directory, and file names that
      are not Unicode, are not modelled.
    - A tool's future is polled: it is ready or not, and may change the host; providers answer
      in one step.  Of the HTTP server a connection is modelled, not the loop that accepts it.
    - The database checkpointers and stores, the persistent and vector memories, the planners
      of the agents, the clients and the fleet of [lc-a2a], the clients, the streamable
      transport and the gateway of [lc-mcp], and the other crates (model providers, chains,
      retrieval, tools, guardrails) are not modelled: they call services or compute with
      floating-point similarities, or nothing of their own logic has been reached yet.
      Next in line: the sequential and document chains, the gateway of [lc-mcp], the clients
      of [lc-a2a]. *)

From stdpp Require Import base gmap strings list fin_maps countable pretty sorting.
From Stdlib Require Import Ascii.
From Stdlib Require Export Lia Sorted.
From stdpp Require Export ssreflect.

(** ** Results: Rust's [Result<A, E>] *)

Inductive result (E A : Type) : Type :=
| Ok (a : A)
| Err (e : E).
Arguments Ok {E A} _.
Arguments Err {E A} _.

Global Instance result_eq_dec {E A} `{EqDecision E, EqDecision A} :
  EqDecision (result E A).
Proof. solve_decision. Defined.

Global Instance result_ret {E} : MRet (result E) := fun A a => Ok a.
Global Instance result_bind {E} : MBind (result E) :=
  fun A B f m => match m with Ok a => f a | Err e => Err e end.
Global Instance result_fmap {E} : FMap (result E) :=
  fun A B f m => match m with Ok a => Ok (f a) | Err e => Err e end.

(** [Result::map_err] *)
Definition map_err {E F A} (f : E -> F) (m : result E A) : result F A :=
  match m with Ok a => Ok a | Err e => Err (f e) end.

(** [Option::ok_or] *)
Definition ok_or {E A} (o : option A) (e : E) : result E A :=
  match o with Some a => Ok a | None => Err e end.

(** [Result::ok] *)
Definition ok {E A} (m : result E A) : option A :=
  match m with Ok a => Some a | Err _ => None end.

(** ** Two effect monads

    [Act W E A] is one total operation on a shared store [W] that may fail with
    an [E]; the store survives the failure, as a Rust [&self] method on a
    mutex-guarded map leaves its writes behind when it returns [Err].

    [Run W E A] adds fuel exhaustion ([None]) on top, for the execution loops. *)

Definition Act (W E A : Type) : Type := W -> result E A * W.
Definition Run (W E A : Type) : Type := W -> option (result E A * W).

Global Instance act_ret {W E} : MRet (Act W E) := fun A a w => (Ok a, w).
Global Instance act_bind {W E} : MBind (Act W E) := fun A B f m w =>
  match m w with
  | (Ok a, w') => f a w'
  | (Err e, w') => (Err e, w')
  end.

Global Instance run_ret {W E} : MRet (Run W E) := fun A a w => Some (Ok a, w).
Global Instance run_bind {W E} : MBind (Run W E) := fun A B f m w =>
  match m w with
  | Some (Ok a, w') => f a w'
  | Some (Err e, w') => Some (Err e, w')
  | None => None
  end.

Definition act_fail {W E A} (e : E) : Act W E A := fun w => (Err e, w).
Definition act_get {W E} : Act W E W := fun w => (Ok w, w).
Definition act_of_result {W E A} (r : result E A) : Act W E A := fun w => (r, w).

Definition run_fail {W E A} (e : E) : Run W E A := fun w => Some (Err e, w).
Definition run_of_result {W E A} (r : result E A) : Run W E A := fun w => Some (r, w).
Definition out_of_fuel {W E A} : Run W E A := fun _ => None.

(** A total operation used inside a loop. *)
Definition lift {W E A} (m : Act W E A) : Run W E A := fun w => Some (m w).

(** Run [m] and hand its result over as a value (the caller inspects it). *)
Definition try_run {W E A} (m : Run W E A) : Run W E (result E A) := fun w =>
  match m w with
  | Some (r, w') => Some (Ok r, w')
  | None => None
  end.

Definition try_act {W E A} (m : Act W E A) : Act W E (result E A) := fun w =>
  let '(r, w') := m w in (Ok r, w').

(** The store an operation leaves behind; [runs] splits a run into its two halves. *)
Definition after {W E A} (m : Act W E A) (w : W) : W := (m w).2.

Lemma runs {W E A} (m : Act W E A) (w : W) r : (m w).1 = r -> m w = (r, after m w).
Proof. intros <-. apply surjective_pairing. Qed.

(** Rust's [?] after [.ok()] / a discarded error: [None] on failure. *)
Definition act_ok {W E A} (m : Act W E A) : Act W E (option A) := fun w =>
  let '(r, w') := m w in (Ok (ok r), w').

(** An operation on a component [C] of the store [W]. *)
Definition act_zoom {W C E A} (get : W -> C) (set : C -> W -> W) (m : Act C E A) : Act W E A :=
  fun w => let '(r, c) := m (get w) in (r, set c w).

(** Sequential [for] loop over a list, threading the store. *)
Fixpoint act_iter {W E A} (f : A -> Act W E ()) (l : list A) : Act W E () :=
  match l with
  | [] => mret ()
  | x :: l' => f x ;; act_iter f l'
  end.

(** What the operating system answers to an I/O operation: a failure carries its
    message, and the bytes a write that failed left in the file. *)
Inductive IoResult : Type :=
| IoDone
| IoFails (msg : string) (left_behind : string).

(** ** Monad laws and inversion *)

Lemma run_bind_some {W E A B} (m : Run W E A) (f : A -> Run W E B) w r w' :
  (m ≫= f) w = Some (r, w') <->
  (exists a w1, m w = Some (Ok a, w1) /\ f a w1 = Some (r, w')) \/
  (exists e, m w = Some (Err e, w') /\ r = Err e).
Proof.
  unfold mbind, run_bind. destruct (m w) as [[[a|e] w1]|]; naive_solver.
Qed.

Lemma result_bind_ok {E A B} (m : result E A) (f : A -> result E B) b :
  m ≫= f = Ok b <-> exists a, m = Ok a /\ f a = Ok b.
Proof. destruct m; unfold mbind, result_bind; naive_solver. Qed.

(** ** The fuel order: more fuel only turns [None] into an answer *)

Definition run_le {W E A} (m1 m2 : Run W E A) : Prop :=
  forall w r, m1 w = Some r -> m2 w = Some r.

Declare Scope lc_scope.
Delimit Scope lc_scope with lc.
Infix "⊑ᵣ" := run_le (at level 70, no associativity) : lc_scope.
#[global] Open Scope lc_scope.

Global Instance run_le_preorder {W E A} : PreOrder (@run_le W E A).
Proof. split; [by intros m w r|]. intros m1 m2 m3 H1 H2 w r Hr. auto. Qed.

Lemma run_le_bind {W E A B} (m1 m2 : Run W E A) (f1 f2 : A -> Run W E B) :
  m1 ⊑ᵣ m2 -> (forall a, f1 a ⊑ᵣ f2 a) -> m1 ≫= f1 ⊑ᵣ m2 ≫= f2.
Proof.
  intros Hm Hf w [r w']. rewrite !run_bind_some.
  intros [(a & w1 & H1 & H2)|(e & H1 & ->)].
  - left. exists a, w1. split; [by apply Hm | by apply Hf].
  - right. exists e. split; [by apply Hm | done].
Qed.

Global Instance run_bind_proper {W E A B} :
  Proper (pointwise_relation A (@run_le W E B) ==> run_le ==> run_le)
    (@mbind (Run W E) _ A B).
Proof. intros f1 f2 Hf m1 m2 Hm. by apply run_le_bind. Qed.

Lemma run_le_out_of_fuel {W E A} (m : Run W E A) : out_of_fuel ⊑ᵣ m.
Proof. done. Qed.

Lemma run_le_try {W E A} (m1 m2 : Run W E A) : m1 ⊑ᵣ m2 -> try_run m1 ⊑ᵣ try_run m2.
Proof.
  intros Hm w r. unfold try_run. destruct (m1 w) as [[r1 w1]|] eqn:E1; [|done].
  by rewrite (Hm _ _ E1).
Qed.

Create HintDb lc_run.
#[export] Hint Resolve run_le_bind run_le_out_of_fuel run_le_try : lc_run.
#[export] Hint Extern 1 (run_le ?m ?m) => reflexivity : lc_run.

(** ** Strings *)

Notation "a =ₛ b" := (bool_decide (a =@{string} b)) (at level 70) : lc_scope.

(** Rust's [str::strip_prefix]. *)
Fixpoint strip_prefix (p s : string) : option string :=
  match p, s with
  | EmptyString, _ => Some s
  | String a p', String b s' => if bool_decide (a = b) then strip_prefix p' s' else None
  | String _ _, EmptyString => None
  end.

(** Rust's [str::starts_with]. *)
Definition starts_with (p s : string) : bool :=
  match strip_prefix p s with Some _ => true | None => false end.

Lemma strip_prefix_app p s : strip_prefix p (p +:+ s) = Some s.
Proof. induction p as [|a p IH]; simpl; [done|]. by rewrite bool_decide_true. Qed.

(** Rust's [str::contains] on a string. *)
Fixpoint str_contains (p s : string) : bool :=
  starts_with p s || match s with EmptyString => false | String _ s' => str_contains p s' end.

(** Rust's [str::strip_suffix] and [str::ends_with]. *)
Fixpoint strip_suffix (q s : string) : option string :=
  if s =ₛ q then Some EmptyString
  else match s with EmptyString => None | String c s' => String c <$> strip_suffix q s' end.

Definition ends_with (q s : string) : bool :=
  match strip_suffix q s with Some _ => true | None => false end.

Definition newline : string := String "010"%char EmptyString.

Fixpoint last_char (s : string) : option ascii :=
  match s with
  | EmptyString => None
  | String c EmptyString => Some c
  | String _ s' => last_char s'
  end.

Lemma last_char_app s c : last_char (s +:+ String c EmptyString) = Some c.
Proof.
  induction s as [|a s IH]; [done|]. destruct s; [done|]. exact IH.
Qed.

Lemma last_char_app_r s t : t <> EmptyString -> last_char (s +:+ t) = last_char t.
Proof.
  intros Ht. induction s as [|a s IH]; [done|]. destruct s; [by destruct t|]. exact IH.
Qed.

Lemma string_app_assoc (a b c : string) : (a +:+ b) +:+ c = a +:+ (b +:+ c).
Proof. induction a as [|x a IH]; [done|]. exact (f_equal (String x) IH). Qed.

Lemma string_app_nil_r (s : string) : s +:+ "" = s.
Proof. induction s as [|c s IH]; [done|]. exact (f_equal (String c) IH). Qed.

Lemma length_string_app (a b : string) :
  String.length (a +:+ b) = String.length a + String.length b.
Proof. induction a as [|c a IH]; [done|]. exact (f_equal Datatypes.S IH). Qed.

(** Suffixes of the same length can be read off. *)
Lemma string_app_inj_r (a a' b b' : string) :
  String.length b = String.length b' -> a +:+ b = a' +:+ b' -> a = a' /\ b = b'.
Proof.
  intros Hl. revert a'. induction a as [|c a IH]; intros [|c' a'] H.
  - done.
  - exfalso. apply (f_equal String.length) in H. change (EmptyString +:+ b) with b in H.
    rewrite length_string_app Hl in H. cbn in H. lia.
  - exfalso. apply (f_equal String.length) in H. change (EmptyString +:+ b') with b' in H.
    rewrite length_string_app Hl in H. cbn in H. lia.
  - change (String c (a +:+ b) = String c' (a' +:+ b')) in H. injection H as -> H.
    by destruct (IH a' H) as [-> ->].
Qed.

Lemma strip_suffix_Some q s r : strip_suffix q s = Some r <-> s = r +:+ q.
Proof.
  split.
  - revert r. induction s as [|c s IH]; intros r; cbn [strip_suffix]; case_bool_decide as Hq.
    + intros [= <-]. by subst.
    + done.
    + intros [= <-]. by subst.
    + destruct (strip_suffix q s) as [r'|]; [|done]. intros [= <-].
      exact (f_equal (String c) (IH r' eq_refl)).
  - intros ->. induction r as [|c r IH].
    + change (EmptyString +:+ q) with q. destruct q; cbn [strip_suffix]; by rewrite bool_decide_true.
    + change (strip_suffix q (String c (r +:+ q)) = Some (String c r)). cbn [strip_suffix].
      rewrite bool_decide_false ?IH //. intros H%(f_equal String.length). cbn in H.
      rewrite length_string_app in H. lia.
Qed.

Lemma ends_with_true q s : ends_with q s = true <-> exists r, s = r +:+ q.
Proof.
  unfold ends_with. split.
  - destruct (strip_suffix q s) as [r|] eqn:E; [|done]. intros _. exists r. by apply strip_suffix_Some.
  - intros [r H%strip_suffix_Some]. by rewrite H.
Qed.

(** *** Characters and numbers in strings *)

Definition in_range (lo hi : nat) (c : ascii) : bool :=
  (lo <=? nat_of_ascii c) && (nat_of_ascii c <=? hi).

(** [char::is_ascii_alphanumeric] and [char::is_ascii_hexdigit]; a byte of a longer
    character is neither. *)
Definition is_ascii_alphanumeric (c : ascii) : bool :=
  in_range 48 57 c || in_range 65 90 c || in_range 97 122 c.
Definition is_ascii_hexdigit (c : ascii) : bool :=
  in_range 48 57 c || in_range 65 70 c || in_range 97 102 c.

Fixpoint str_forall (P : ascii -> bool) (s : string) : bool :=
  match s with EmptyString => true | String c s' => P c && str_forall P s' end.

Lemma str_forall_app P s t : str_forall P (s +:+ t) = str_forall P s && str_forall P t.
Proof. 
  induction s as [|c s IH]; [done|]. change (P c && str_forall P (s +:+ t) = (P c && str_forall P s) && str_forall P t).
  by rewrite IH andb_assoc. Qed.

(** [str::split_once] and [str::rsplit_once] at a character. *)
Fixpoint split_once (sep : ascii) (s : string) : option (string * string) :=
  match s with
  | EmptyString => None
  | String c s' =>
      if Ascii.eqb c sep then Some ("", s')
      else '(before, after) ← split_once sep s'; Some (String c before, after)
  end.

Fixpoint rsplit_once (sep : ascii) (s : string) : option (string * string) :=
  match s with
  | EmptyString => None
  | String c s' =>
      match rsplit_once sep s' with
      | Some (before, after) => Some (String c before, after)
      | None => if Ascii.eqb c sep then Some ("", s') else None
      end
  end.

(** [str::split] at a character: never empty. *)
Fixpoint split_at (sep : ascii) (s : string) : list string :=
  match s with
  | EmptyString => [""]
  | String c s' =>
      if Ascii.eqb c sep then "" :: split_at sep s'
      else match split_at sep s' with
           | segment :: segments => String c segment :: segments
           | [] => []
           end
  end.

Definition digit_value (c : ascii) : option N :=
  let n := N_of_ascii c in
  if ((48 <=? n) && (n <=? 57))%N then Some (n - 48)%N else None.

Fixpoint parse_digits (width acc : N) (s : string) : option N :=
  match s with
  | EmptyString => Some acc
  | String c s' =>
      d ← digit_value c;
      let acc := (acc * 10 + d)%N in
      if (acc <? 2 ^ width)%N then parse_digits width acc s' else None
  end.

(** [str::parse] to an unsigned integer: an optional plus sign, then at least one digit. *)
Definition parse_unsigned (width : N) (s : string) : option N :=
  let digits := default s (strip_prefix "+" s) in
  if digits =ₛ "" then None else parse_digits width 0 digits.

Definition hex_digit (n : N) : ascii :=
  match n with
  | 0 => "0" | 1 => "1" | 2 => "2" | 3 => "3" | 4 => "4" | 5 => "5" | 6 => "6" | 7 => "7"
  | 8 => "8" | 9 => "9" | 10 => "a" | 11 => "b" | 12 => "c" | 13 => "d" | 14 => "e" | _ => "f"
  end%N%char.

(** The [k] hexadecimal digits of [n], padded with zeros. *)
Fixpoint hex_digits (k : nat) (n : N) : string :=
  match k with
  | 0 => EmptyString
  | S k' => String (hex_digit (N.shiftr n (4 * N.of_nat k') mod 16)) (hex_digits k' n)
  end.

(** [parts.join(sep)] *)
Fixpoint str_join (sep : string) (l : list string) : string :=
  match l with
  | [] => ""
  | [x] => x
  | x :: l' => x +:+ sep +:+ str_join sep l'
  end.

(** [Vec::contains] on strings. *)
Definition contains (x : string) (l : list string) : bool := bool_decide (x ∈ l).

Lemma contains_true x l : contains x l = true <-> x ∈ l.
Proof. unfold contains. by rewrite bool_decide_eq_true. Qed.

(** ** Lists *)

Lemma filter_out {A} (P : A -> Prop) `{!forall x, Decision (P x)} (l : list A) :
  (forall x, x ∈ l -> ~ P x) -> filter P l = [].
Proof.
  induction l as [|x l IH]; intros Hl; [done|]. rewrite filter_cons decide_False.
  - apply IH. intros y Hy. apply Hl. by apply list_elem_of_further.
  - apply Hl, list_elem_of_here.
Qed.

Lemma filter_all {A} (P : A -> Prop) `{!forall x, Decision (P x)} (l : list A) :
  (forall x, x ∈ l -> P x) -> filter P l = l.
Proof.
  induction l as [|x l IH]; intros Hl; [done|]. rewrite filter_cons decide_True.
  - f_equal. apply IH. intros y Hy. apply Hl. by apply list_elem_of_further.
  - apply Hl, list_elem_of_here.
Qed.

Lemma filter_ext_elem {A} (P Q : A -> Prop) `{!forall x, Decision (P x)}
    `{!forall x, Decision (Q x)} (l : list A) :
  (forall x, x ∈ l -> (P x <-> Q x)) -> filter P l = filter Q l.
Proof.
  induction l as [|x l IH]; intros Hl; [done|]. rewrite !filter_cons.
  assert (P x <-> Q x) as Hx by (apply Hl, list_elem_of_here).
  assert (filter P l = filter Q l) as ->.
  { apply IH. intros y Hy. apply Hl. by apply list_elem_of_further. }
  destruct (decide (P x)), (decide (Q x)); naive_solver.
Qed.

Lemma NoDup_fmap_elem_inj {A B} (f : A -> B) (l : list A) x y :
  NoDup (f <$> l) -> x ∈ l -> y ∈ l -> f x = f y -> x = y.
Proof.
  intros Hnd [i Hi]%list_elem_of_lookup [j Hj]%list_elem_of_lookup Hf.
  assert (i = j) as ->; [|congruence].
  apply (NoDup_lookup (f <$> l) i j (f x)); [done|..]; rewrite list_lookup_fmap.
  - by rewrite Hi.
  - by rewrite Hj Hf.
Qed.

(** ** Stable sorting and maxima by a boolean total preorder

    [sort_by le] is Rust's stable [sort_by_key] for the key order [le];
    [max_by le] is [Iterator::max_by_key], where the last of equal maxima wins. *)

Section sorting.
Context {A : Type} (le : A -> A -> bool).

Fixpoint insert_by (x : A) (l : list A) : list A :=
  match l with
  | [] => [x]
  | y :: l' => if le x y then x :: y :: l' else y :: insert_by x l'
  end.

Definition sort_by (l : list A) : list A := foldr insert_by [] l.

Fixpoint max_by (l : list A) : option A :=
  match l with
  | [] => None
  | x :: l' =>
      match max_by l' with
      | None => Some x
      | Some y => Some (if le x y then y else x)
      end
  end.

Definition le_prop (x y : A) : Prop := le x y = true.

Lemma insert_by_perm x l : insert_by x l ≡ₚ x :: l.
Proof.
  induction l as [|y l IH]; simpl; [done|]. destruct (le x y); [done|].
  rewrite IH. apply Permutation_swap.
Qed.

Lemma sort_by_perm l : sort_by l ≡ₚ l.
Proof. induction l as [|x l IH]; simpl; [done|]. by rewrite insert_by_perm IH. Qed.

Hypothesis le_total : forall x y, le x y = true \/ le y x = true.
Hypothesis le_trans : forall x y z, le x y = true -> le y z = true -> le x z = true.

Lemma insert_by_sorted x l :
  StronglySorted le_prop l -> StronglySorted le_prop (insert_by x l).
Proof.
  induction 1 as [|y l Hl IH Hy]; simpl; [repeat constructor|].
  destruct (le x y) eqn:Exy.
  - constructor; [by constructor|]. constructor; [done|].
    apply (Forall_impl _ _ _ Hy). intros z Hz. by apply (le_trans _ y).
  - constructor; [done|]. rewrite insert_by_perm. constructor; [|done].
    destruct (le_total x y); [congruence|done].
Qed.

Lemma sort_by_sorted l : StronglySorted le_prop (sort_by l).
Proof. induction l; simpl; [constructor|by apply insert_by_sorted]. Qed.

Lemma insert_by_head x l :
  Forall (le_prop x) l -> insert_by x l = x :: l.
Proof. destruct l as [|y l]; [done|]. intros [Hy _]%Forall_cons. simpl. by rewrite Hy. Qed.

Lemma filter_insert_by (P : A -> Prop) `{!forall x, Decision (P x)} x l :
  StronglySorted le_prop l ->
  filter P (insert_by x l) = if decide (P x) then insert_by x (filter P l) else filter P l.
Proof.
  induction 1 as [|y l Hl IH Hy]; simpl.
  - by rewrite filter_cons.
  - destruct (le x y) eqn:Exy.
    + rewrite filter_cons. case_decide; [|done]. rewrite (insert_by_head x); [done|].
      apply Forall_forall. intros z [_ Hz]%list_elem_of_filter.
      apply elem_of_cons in Hz as [->|Hz]; [done|].
      rewrite Forall_forall in Hy. apply (le_trans _ y); [done|by apply Hy].
    + rewrite !filter_cons IH. repeat case_decide; try done. simpl. by rewrite Exy.
Qed.

Lemma filter_sort_by (P : A -> Prop) `{!forall x, Decision (P x)} l :
  filter P (sort_by l) = sort_by (filter P l).
Proof.
  induction l as [|x l IH]; simpl; [done|].
  rewrite filter_insert_by; last apply sort_by_sorted. rewrite filter_cons IH. by case_decide.
Qed.

Lemma last_insert_by x l :
  StronglySorted le_prop l ->
  last (insert_by x l) =
  Some (match last l with None => x | Some y => if le x y then y else x end).
Proof.
  induction 1 as [|y l Hl IH Hy]; [done|]. simpl insert_by. destruct (le x y) eqn:Exy.
  - rewrite !last_cons. destruct (last l) as [z|] eqn:Ez; simpl; [|by rewrite Exy].
    rewrite Forall_forall in Hy. rewrite (le_trans x y z); [done|done|].
    by apply Hy, last_Some_elem_of.
  - rewrite !last_cons IH. destruct (last l) as [z|]; simpl; [done|by rewrite Exy].
Qed.

Lemma last_sort_by l : last (sort_by l) = max_by l.
Proof.
  induction l as [|x l IH]; simpl; [done|].
  rewrite last_insert_by; last apply sort_by_sorted. rewrite IH.
  by destruct (max_by l).
Qed.

(** Inserting an element no smaller than the others puts it last. *)
Lemma sort_by_snoc_max l x :
  Forall (fun y => le y x = true /\ le x y = false) l -> sort_by (l ++ [x]) = sort_by l ++ [x].
Proof.
  induction l as [|y l IH]; [done|]. intros [[Hyx Hxy] Hl]%Forall_cons. simpl.
  rewrite (IH Hl). generalize (sort_by l). intros l'.
  induction l' as [|z l' IH']; simpl; [by rewrite Hyx|].
  destruct (le y z); [done|]. by rewrite IH'.
Qed.

End sorting.

Lemma sort_by_fmap {A B} (leA : A -> A -> bool) (leB : B -> B -> bool) (f : A -> B) (l : list A) :
  (forall x y, leB (f x) (f y) = leA x y) -> sort_by leB (f <$> l) = f <$> sort_by leA l.
Proof.
  intros Hf. induction l as [|x l IH]; simpl; [done|]. rewrite IH.
  generalize (sort_by leA l). intros l'. induction l' as [|y l' IH']; simpl; [done|].
  rewrite Hf. destruct (leA x y); [done|]. simpl. by rewrite IH'.
Qed.

(** Two orders that agree on every pair of the list, taken in list order, sort it
    the same way. *)
Lemma insert_by_ext {A} (le le' : A -> A -> bool) x l :
  (forall y, y ∈ l -> le x y = le' x y) -> insert_by le x l = insert_by le' x l.
Proof.
  induction l as [|y l IH]; intros Hl; [done|]. cbn. rewrite (Hl y (list_elem_of_here _ _)).
  destruct (le' x y); [done|]. rewrite IH //. intros z Hz. apply Hl. by right.
Qed.

Lemma sort_by_ext {A} (le le' : A -> A -> bool) l :
  StronglySorted (fun x y => le x y = le' x y) l -> sort_by le l = sort_by le' l.
Proof.
  induction 1 as [|x l Hl IH Hx]; [done|].
  change (insert_by le x (sort_by le l) = insert_by le' x (sort_by le' l)).
  rewrite IH. apply insert_by_ext.
  intros y Hy. rewrite sort_by_perm in Hy. by rewrite Forall_forall in Hx; apply Hx.
Qed.

(** A sorted permutation is the sort, when equal keys are equal elements. *)
Lemma sort_by_canonical {A} (le : A -> A -> bool) (l l' : list A) :
  (forall x y, le x y = true \/ le y x = true) ->
  (forall x y z, le x y = true -> le y z = true -> le x z = true) ->
  (forall x y, x ∈ l -> y ∈ l -> le x y = true -> le y x = true -> x = y) ->
  StronglySorted (le_prop le) l' -> l ≡ₚ l' -> sort_by le l = l'.
Proof.
  intros Htot Htr Has Hl' Hp. apply (StronglySorted_unique_strong (le_prop le)).
  - intros x y Hx Hy. rewrite sort_by_perm in Hx. rewrite -Hp in Hy. by apply Has.
  - by apply sort_by_sorted.
  - done.
  - by rewrite sort_by_perm.
Qed.

Lemma string_leb_trans a b c : String.leb a b = true -> String.leb b c = true -> String.leb a c = true.
Proof.
  intros Hab%Is_true_true Hbc%Is_true_true. apply Is_true_true.
  exact (transitivity (R := String.le) Hab Hbc).
Qed.

Lemma StronglySorted_mono {A} (R R' : A -> A -> Prop) l :
  (forall x y, R x y -> R' x y) -> StronglySorted R l -> StronglySorted R' l.
Proof.
  intros H. induction 1 as [|x l Hl IH Hx]; constructor; [done|]. by eapply Forall_impl; [|intros; apply H].
Qed.

Lemma StronglySorted_filter {A} (R : A -> A -> Prop) (P : A -> Prop) `{!forall x, Decision (P x)} l :
  StronglySorted R l -> StronglySorted R (filter P l).
Proof.
  induction 1 as [|y l Hl IH Hy]; [constructor|]. rewrite filter_cons.
  case_decide; [|done]. constructor; [done|]. rewrite !Forall_forall in Hy |- *.
  intros z [_ Hz]%list_elem_of_filter. by apply Hy.
Qed.

Lemma StronglySorted_map {A B} (R : B -> B -> Prop) (f : A -> B) l :
  StronglySorted (fun x y => R (f x) (f y)) l -> StronglySorted R (f <$> l).
Proof. induction 1; constructor; [done|]. by apply Forall_fmap. Qed.

Lemma NoDup_pairs {A B} (f : A -> B) l :
  NoDup (f <$> l) -> StronglySorted (fun x y => f x <> f y) l.
Proof.
  induction l as [|x l IH]; [constructor|]. intros [Hx Hl]%NoDup_cons. constructor; [by apply IH|].
  apply Forall_forall. intros y Hy E. apply Hx. rewrite E. by apply list_elem_of_fmap_2.
Qed.

Lemma filter_fmap_list {A B} (f : A -> B) (P : B -> Prop) `{!forall x, Decision (P x)} (l : list A) :
  filter P (f <$> l) = f <$> filter (fun x => P (f x)) l.
Proof. induction l as [|x l IH]; simpl; [done|]. rewrite !filter_cons IH. by case_decide. Qed.

(** The [fix]-free form of the trait's loops: a list of fallible reads. *)
Fixpoint act_map {W E A B} (f : A -> Act W E B) (l : list A) : Act W E (list B) :=
  match l with
  | [] => mret []
  | x :: l' => y ← f x; ys ← act_map f l'; mret (y :: ys)
  end.

(** A Rust [for] loop whose body may return early with an error. *)
Fixpoint res_iter {E A} (f : A -> result E ()) (l : list A) : result E () :=
  match l with
  | [] => Ok ()
  | x :: l' => f x ;; res_iter f l'
  end.

Lemma res_seq_ok {E B} (m : result E ()) (k : result E B) b :
  (m ;; k) = Ok b <-> m = Ok () /\ k = Ok b.
Proof. destruct m as [[]|]; unfold mbind, result_bind; naive_solver. Qed.

Lemma res_iter_ok {E A} (f : A -> result E ()) (l : list A) :
  res_iter f l = Ok () <-> forall x, x ∈ l -> f x = Ok ().
Proof.
  induction l as [|x l IH]; simpl.
  - split; [by intros _ x ?%elem_of_nil|done].
  - rewrite res_seq_ok IH. setoid_rewrite elem_of_cons. naive_solver.
Qed.

(** [if bad { return Err(e) }] *)
Definition reject_if {E} (bad : bool) (e : E) : result E () := if bad then Err e else Ok ().

Lemma reject_if_ok {E} bad (e : E) : reject_if bad e = Ok () <-> bad = false.
Proof. by destruct bad. Qed.

Lemma size_list_to_set_le (l : list string) : size (list_to_set l : gset string) <= length l.
Proof.
  induction l as [|x l IH]; [done|]. cbn [list_to_set length].
  rewrite size_union_alt size_singleton.
  assert (size ((list_to_set l : gset string) ∖ {[x]}) <= size (list_to_set l : gset string)).
  { apply subseteq_size. set_solver. }
  cbn [Nat.add]. lia.
Qed.

(** ** Weakest preconditions of operations

    [wp m w Q]: what [m] returns from the store [w], and the store it leaves,
    satisfy [Q]. *)

Definition wp {W E A} (m : Act W E A) (w : W) (Q : result E A -> W -> Prop) : Prop :=
  Q (m w).1 (m w).2.

Lemma wp_intro {W E A} (m : Act W E A) w Q :
  (forall r w', m w = (r, w') -> Q r w') -> wp m w Q.
Proof. intros H. apply H. by destruct (m w). Qed.

Lemma wp_elim {W E A} (m : Act W E A) w Q r w' : wp m w Q -> m w = (r, w') -> Q r w'.
Proof. unfold wp. intros H Hm. by rewrite Hm in H. Qed.

Lemma wp_mono {W E A} (m : Act W E A) w (Q Q' : result E A -> W -> Prop) :
  wp m w Q -> (forall r w', Q r w' -> Q' r w') -> wp m w Q'.
Proof. unfold wp. auto. Qed.

Lemma wp_bind {W E A B} (m : Act W E A) (f : A -> Act W E B) w Q :
  wp m w (fun r w' => match r with Ok a => wp (f a) w' Q | Err e => Q (Err e) w' end) ->
  wp (m ≫= f) w Q.
Proof. unfold wp, mbind, act_bind. by destruct (m w) as [[a|e] w']. Qed.

Lemma wp_ret {W E A} (a : A) (w : W) (Q : result E A -> W -> Prop) : Q (Ok a) w -> wp (mret a) w Q.
Proof. done. Qed.

Lemma wp_fail {W E A} (e : E) (w : W) (Q : result E A -> W -> Prop) :
  Q (Err e) w -> wp (act_fail e) w Q.
Proof. done. Qed.

Lemma wp_of_result {W E A} (r : result E A) (w : W) (Q : result E A -> W -> Prop) :
  Q r w -> wp (act_of_result r) w Q.
Proof. done. Qed.

Lemma wp_get {W E} (w : W) (Q : result E W -> W -> Prop) : Q (Ok w) w -> wp act_get w Q.
Proof. done. Qed.

Lemma wp_try {W E A} (m : Act W E A) w (Q : result E (result E A) -> W -> Prop) :
  wp m w (fun r w' => Q (Ok r) w') -> wp (try_act m) w Q.
Proof. unfold wp, try_act. by destruct (m w). Qed.

(** One step of a program: run the head of a bind, then go on. *)
Ltac wp_step :=
  apply wp_bind;
  lazymatch goal with
  | |- wp (act_of_result _) _ _ => apply wp_of_result
  | |- wp act_get _ _ => apply wp_get
  | _ => idtac
  end.

(** ** Total-correctness triples for runs

    From a store satisfying [P] the run answers, with a value satisfying [Q] or an
    error satisfying [F], both in the store it ends in. *)

Definition triple {W E A} (P : W -> Prop) (m : Run W E A) (Q : A -> W -> Prop)
    (F : E -> W -> Prop) : Prop :=
  forall w, P w -> match m w with
                   | Some (Ok a, w') => Q a w'
                   | Some (Err e, w') => F e w'
                   | None => False
                   end.

Lemma triple_bind {W E A B} (P : W -> Prop) (Q : A -> W -> Prop) (Q' : B -> W -> Prop)
    (F : E -> W -> Prop) (m : Run W E A) (f : A -> Run W E B) :
  triple P m Q F -> (forall a, triple (Q a) (f a) Q' F) -> triple P (m ≫= f) Q' F.
Proof.
  intros Hm Hf w Hw. specialize (Hm w Hw). unfold mbind, run_bind.
  destruct (m w) as [[[a|e] w']|]; [by apply Hf|done|done].
Qed.

Lemma triple_ret {W E A} (P : W -> Prop) (Q : A -> W -> Prop) (F : E -> W -> Prop) (a : A) :
  (forall w, P w -> Q a w) -> triple P (mret a : Run W E A) Q F.
Proof. intros H w Hw. by apply H. Qed.

Lemma triple_fail {W E A} (P : W -> Prop) (Q : A -> W -> Prop) (F : E -> W -> Prop) (e : E) :
  (forall w, P w -> F e w) -> triple P (run_fail e : Run W E A) Q F.
Proof. intros H w Hw. by apply H. Qed.

Lemma triple_lift {W E A} (P : W -> Prop) (Q : A -> W -> Prop) (F : E -> W -> Prop)
    (m : Act W E A) :
  (forall w, P w -> match m w with (Ok a, w') => Q a w' | (Err e, w') => F e w' end) ->
  triple P (lift m) Q F.
Proof. intros H w Hw. specialize (H w Hw). unfold lift. by destruct (m w) as [[a|e] w']. Qed.

Lemma triple_of_result {W E A} (P : W -> Prop) (Q : A -> W -> Prop) (F : E -> W -> Prop)
    (r : result E A) :
  (forall w, P w -> match r with Ok a => Q a w | Err e => F e w end) ->
  triple P (run_of_result r) Q F.
Proof. intros H w Hw. specialize (H w Hw). unfold run_of_result. by destruct r. Qed.

Lemma triple_try {W E A} (P : W -> Prop) (Q : A -> W -> Prop) (F F' : E -> W -> Prop)
    (m : Run W E A) :
  triple P m Q F ->
  triple P (try_run m) (fun r w => match r with Ok a => Q a w | Err e => F e w end) F'.
Proof.
  intros H w Hw. specialize (H w Hw). unfold try_run. by destruct (m w) as [[[a|e] w']|].
Qed.

Lemma triple_weaken {W E A} (P P' : W -> Prop) (Q Q' : A -> W -> Prop) (F F' : E -> W -> Prop)
    (m : Run W E A) :
  triple P m Q F -> (forall w, P' w -> P w) -> (forall a w, Q a w -> Q' a w) ->
  (forall e w, F e w -> F' e w) -> triple P' m Q' F'.
Proof.
  intros H HP HQ HF w Hw. specialize (H w (HP w Hw)).
  destruct (m w) as [[[a|e] w']|]; auto.
Qed.

(** A precondition that does not depend on the store can be taken out. *)
Lemma triple_pure {W E A} (P : W -> Prop) (R : Prop) (Q : A -> W -> Prop) (F : E -> W -> Prop)
    (m : Run W E A) :
  (R -> triple P m Q F) -> triple (fun w => P w /\ R) m Q F.
Proof. intros H w [Hw HR]. by apply H. Qed.

Lemma triple_pre {W E A} (P P' : W -> Prop) (Q : A -> W -> Prop) (F : E -> W -> Prop)
    (m : Run W E A) :
  triple P m Q F -> (forall w, P' w -> P w) -> triple P' m Q F.
Proof. intros H HP w Hw. by apply H, HP. Qed.

Lemma triple_post {W E A} (P : W -> Prop) (Q Q' : A -> W -> Prop) (F : E -> W -> Prop)
    (m : Run W E A) :
  triple P m Q F -> (forall a w, Q a w -> Q' a w) -> triple P m Q' F.
Proof. intros H HQ w Hw. specialize (H w Hw). destruct (m w) as [[[a|e] w']|]; auto. Qed.

(** Reading the store: the run goes on from that very store. *)
Lemma triple_get {W E B} (P : W -> Prop) (Q : B -> W -> Prop) (F : E -> W -> Prop)
    (f : W -> Run W E B) :
  (forall w0, P w0 -> triple (fun w => w = w0) (f w0) Q F) -> triple P (lift act_get ≫= f) Q F.
Proof. intros H w Hw. unfold mbind, run_bind, lift, act_get. by apply (H w Hw). Qed.

(** ** One step of a run *)

Lemma run_bind_step {W E A B} (m : Run W E A) (f : A -> Run W E B) w :
  (m ≫= f) w = match m w with
               | Some (Ok a, w') => f a w'
               | Some (Err e, w') => Some (Err e, w')
               | None => None
               end.
Proof. done. Qed.
Lemma lift_step {W E A} (m : Act W E A) w : lift m w = Some (m w).
Proof. done. Qed.
Lemma get_step {W E B} (f : W -> Run W E B) w : (lift act_get ≫= f) w = f w w.
Proof. done. Qed.
Lemma try_step {W E A} (m : Run W E A) w :
  try_run m w = match m w with Some (r, w') => Some (Ok r, w') | None => None end.
Proof. done. Qed.
