(* ===== verification/Json.v ===== *)
(** * JSON values ([serde_json::Value]) and graph errors

    [JsonValue] is [serde_json::Value]; an object is a finite map, because no
    code modelled here observes the order of its keys.  [GraphError] is
    [crates/lc-langgraph/src/errors.rs], constructor by constructor, with the
    [Display] text its [#[error]] attributes give.

    Value equality is Leibniz equality: it agrees with Rust's [==] on every
    value but the pair of floats [0.0] and [-0.0], which Rust identifies. *)

From S2P Require Import Prelude.
From stdpp Require Import gmap strings list pretty.
From Stdlib Require Import SpecFloat.

(** [serde_json::Number] *)
Inductive Number : Type :=
| PosInt (n : N)
| NegInt (z : Z)
| Float (f : spec_float).

Inductive JsonValue : Type :=
| JNull
| JBool (b : bool)
| JNumber (n : Number)
| JString (s : string)
| JArray (l : list JsonValue)
| JObject (m : gmap string JsonValue).

Global Instance spec_float_eq_dec : EqDecision spec_float.
Proof. solve_decision. Defined.
Global Instance Number_eq_dec : EqDecision Number.
Proof. solve_decision. Defined.
Global Instance JsonValue_eq_dec : EqDecision JsonValue.
Proof.
  refine (fix go v1 v2 :=
    let _ : EqDecision JsonValue := go in
    match v1, v2 with
    | JNull, JNull => left eq_refl
    | JBool a, JBool b => cast_if (decide (a = b))
    | JNumber a, JNumber b => cast_if (decide (a = b))
    | JString a, JString b => cast_if (decide (a = b))
    | JArray a, JArray b => cast_if (decide (a = b))
    | JObject a, JObject b => cast_if (decide (a = b))
    | _, _ => right _
    end); congruence.
Defined.
Global Instance JsonValue_inhabited : Inhabited JsonValue := populate JNull.

(** [Value::as_object], [Value::as_array], [Value::as_str] *)
Definition as_object (v : JsonValue) : option (gmap string JsonValue) :=
  match v with JObject m => Some m | _ => None end.
Definition as_array (v : JsonValue) : option (list JsonValue) :=
  match v with JArray l => Some l | _ => None end.
Definition as_str (v : JsonValue) : option string :=
  match v with JString s => Some s | _ => None end.

(** [Value::get] with a string key *)
Definition json_get (v : JsonValue) (k : string) : option JsonValue :=
  match v with JObject m => m !! k | _ => None end.

(** [as_object_mut] followed by [insert]: nothing happens on a non-object. *)
Definition json_insert (k : string) (x v : JsonValue) : JsonValue :=
  match v with JObject m => JObject (<[k := x]> m) | _ => v end.

Lemma as_array_Some v l : as_array v = Some l <-> v = JArray l.
Proof. destruct v; naive_solver. Qed.

(** ** Graph errors *)

Inductive GraphError : Type :=
| ValidationError (msg : string)
| ExecutionError (msg : string)
| RoutingError (msg : string)
| RecursionLimitReached (limit : nat)
| NodeError (msg : string)
| CheckpointError (msg : string)
| CheckpointVersionConflict (checkpoint_id : string) (expected actual : N)
| StateError (msg : string)
| ExecutionInterrupted (msg : string)
| ResumeError (msg : string)
| InfiniteCycleError (msg : string)
| OrphanNodeError (msg : string)
| DuplicateEdgeError (msg : string)
| MissingRouteTargetError (msg : string)
| RuntimeError (msg : string)
| InterruptRequest (payload : JsonValue)
| DynamicInterrupt (node : string) (payload : JsonValue).

Global Instance GraphError_eq_dec : EqDecision GraphError.
Proof. solve_decision. Defined.

Notation GraphResult := (result GraphError).

(** The [#[error("...")]] display strings. *)
Definition error_to_string (e : GraphError) : string :=
  match e with
  | ValidationError m => "Validation error: " +:+ m
  | ExecutionError m => "Execution error: " +:+ m
  | RoutingError m => "Routing error: " +:+ m
  | RecursionLimitReached n => "Recursion limit reached: " +:+ pretty n
  | NodeError m => "Node error: " +:+ m
  | CheckpointError m => "Checkpoint error: " +:+ m
  | CheckpointVersionConflict id e a =>
      "Checkpoint version conflict on '" +:+ id +:+ "': expected " +:+ pretty e +:+
      ", found " +:+ pretty a
  | StateError m => "State error: " +:+ m
  | ExecutionInterrupted m => "Execution interrupted: " +:+ m
  | ResumeError m => "Resume error: " +:+ m
  | InfiniteCycleError m => "Graph contains infinite cycle: " +:+ m
  | OrphanNodeError m => "Orphan node detected: " +:+ m
  | DuplicateEdgeError m => "Duplicate edge: " +:+ m
  | MissingRouteTargetError m => "Missing route target: " +:+ m
  | RuntimeError m => "Runtime error: " +:+ m
  | InterruptRequest _ => "node requested a runtime interrupt"
  | DynamicInterrupt node _ =>
      "node '" +:+ node +:+ "' suspended execution with a runtime interrupt"
  end.
