(* ===== verification/State.v ===== *)
(** * Graph states, updates and reducers ([crates/lc-langgraph/src/state.rs])

    [StateSchema] is the trait: a state type with the serde conversions the
    derive macros generate for it, which are operations of the class.
    [AgentState] is the state type the crate ships, with the conversions its
    derived [Serialize]/[Deserialize] perform on objects. *)

From S2P Require Import Prelude Json.
From stdpp Require Import gmap strings list.

(** ** The trait *)

Class StateSchema (S : Type) := {
  (** [serde_json::to_value] *)
  to_value : S -> result string JsonValue;
  (** [serde_json::from_value] *)
  from_value : JsonValue -> result string S;
}.

Definition from_input {S} (input : S) : S := input.

Definition to_json {S} `{StateSchema S} (s : S) : GraphResult JsonValue :=
  map_err (fun e => StateError ("Failed to serialize state to JSON: " +:+ e)) (to_value s).

(** The contract serde's derive macros give: every state serializes, and
    deserializing what was serialized gives the state back. *)
Class StateRoundtrip (S : Type) `{StateSchema S} := {
  state_obj : S -> gmap string JsonValue;
  to_value_obj : forall s, to_value s = Ok (JObject (state_obj s));
  from_to_value : forall s, from_value (JObject (state_obj s)) = Ok s;
}.

(** ** State updates *)

Record StateUpdate (S : Type) := mkStateUpdate {
  update : option S;
  metadata : gmap string JsonValue;
}.
Arguments mkStateUpdate {S} _ _.
Arguments update {S} _.
Arguments metadata {S} _.

Module StateUpdate.

Definition full {S} (state : S) : StateUpdate S := mkStateUpdate (Some state) ∅.
Definition with_metadata {S} (state : S) (m : gmap string JsonValue) : StateUpdate S :=
  mkStateUpdate (Some state) m.
Definition unchanged {S} : StateUpdate S := mkStateUpdate None ∅.
Definition add_metadata {S} (u : StateUpdate S) (key : string) (value : JsonValue)
    : StateUpdate S :=
  mkStateUpdate (update u) (<[key := value]> (metadata u)).

End StateUpdate.

(** ** Reducers *)

Definition Reducer (S : Type) : Type := S -> S -> S.

Definition ReplaceReducer {S} : Reducer S := fun _current update => update.

Section MergeReducer.
Context {S : Type} `{StateSchema S}.

(** [MergeReducer::legacy_chain] *)
Definition legacy_chain (fields : list (string * Reducer S)) (current merged : S) : S :=
  fold_left (fun merged '(_, reducer) => reducer current merged) fields merged.

(** The loop of [MergeReducer::reduce] over the registered fields. *)
Fixpoint merge_fields (current upd : S) (fields : list (string * Reducer S))
    (merged : S) (merged_value : JsonValue) : S * JsonValue :=
  match fields with
  | [] => (merged, merged_value)
  | (field, reducer) :: fields' =>
      let out := reducer current upd in
      let out_value := match to_value out with Ok v => v | Err _ => JNull end in
      let patch := as_object out_value ≫= (fun m => m !! field) in
      match as_object merged_value with
      | None => (merged, merged_value)
      | Some merged_map =>
          match patch with
          | Some p => merge_fields current upd fields' merged (JObject (<[field := p]> merged_map))
          | None =>
              let merged := match from_value merged_value with Ok s => s | Err _ => merged end in
              let next := reducer current merged in
              let merged_value :=
                match to_value next with Ok v => v | Err _ => merged_value end in
              merge_fields current upd fields' merged merged_value
          end
      end
  end.

(** [MergeReducer::reduce] *)
Definition MergeReducer (fallback : Reducer S) (fields : list (string * Reducer S)) : Reducer S :=
  fun current upd =>
    let merged := fallback current upd in
    match fields with
    | [] => merged
    | _ =>
        match to_value merged with
        | Ok (JObject m) =>
            let '(merged, merged_value) := merge_fields current upd fields merged (JObject m) in
            match from_value merged_value with Ok s => s | Err _ => merged end
        | _ => legacy_chain fields current merged
        end
    end.

(** [AppendReducer]: the field is reached through an accessor and a mutator. *)
Definition AppendReducer {T} (field_accessor : S -> list T) (field_mutator : S -> list T -> S)
    : Reducer S :=
  fun current upd => field_mutator current (field_accessor current ++ field_accessor upd).

End MergeReducer.

(** ** [AgentState] *)

Inductive MessageRole := System | Human | AI | Tool.
Global Instance MessageRole_eq_dec : EqDecision MessageRole.
Proof. solve_decision. Defined.

Record MessageEntry := mkMessageEntry { role : MessageRole; content : string }.
Record StepEntry := mkStepEntry { action : string; observation : string }.
Global Instance MessageEntry_eq_dec : EqDecision MessageEntry.
Proof. solve_decision. Defined.
Global Instance StepEntry_eq_dec : EqDecision StepEntry.
Proof. solve_decision. Defined.

Module MessageEntry.
Definition human (content : string) : MessageEntry := mkMessageEntry Human content.
Definition ai (content : string) : MessageEntry := mkMessageEntry AI content.
Definition system (content : string) : MessageEntry := mkMessageEntry System content.
Definition tool (content : string) : MessageEntry := mkMessageEntry Tool content.
End MessageEntry.

Module StepEntry.
Definition new (action observation : string) : StepEntry := mkStepEntry action observation.
End StepEntry.

Record AgentState := mkAgentState {
  input : string;
  messages : list MessageEntry;
  steps : list StepEntry;
  output : option string;
}.
Global Instance AgentState_eq_dec : EqDecision AgentState.
Proof. solve_decision. Defined.

Module AgentState.
Definition new (i : string) : AgentState := mkAgentState i [MessageEntry.human i] [] None.
Definition add_message (s : AgentState) (m : MessageEntry) : AgentState :=
  mkAgentState (input s) (messages s ++ [m]) (steps s) (output s).
Definition add_step (s : AgentState) (t : StepEntry) : AgentState :=
  mkAgentState (input s) (messages s) (steps s ++ [t]) (output s).
Definition set_output (s : AgentState) (o : string) : AgentState :=
  mkAgentState (input s) (messages s) (steps s) (Some o).
End AgentState.

Definition AppendMessagesReducer : Reducer AgentState := fun current upd =>
  mkAgentState (input upd) (messages current ++ messages upd) (steps upd) (output upd).

Definition AppendStepsReducer : Reducer AgentState := fun current upd =>
  mkAgentState (input upd) (messages upd) (steps current ++ steps upd) (output upd).

(** *** The conversions of the derived [Serialize] / [Deserialize] *)

Definition role_to_value (r : MessageRole) : JsonValue :=
  JString match r with System => "System" | Human => "Human" | AI => "AI" | Tool => "Tool" end.
Definition role_of_value (v : JsonValue) : option MessageRole :=
  match v with
  | JString s =>
      if s =ₛ "System" then Some System else if s =ₛ "Human" then Some Human
      else if s =ₛ "AI" then Some AI else if s =ₛ "Tool" then Some Tool else None
  | _ => None
  end.

Definition message_to_value (m : MessageEntry) : JsonValue :=
  JObject (<["role" := role_to_value (role m)]> {["content" := JString (content m)]}).
Definition message_of_value (v : JsonValue) : option MessageEntry :=
  m ← as_object v;
  r ← (m !! "role" ≫= role_of_value);
  c ← (m !! "content" ≫= as_str);
  Some (mkMessageEntry r c).

Definition step_to_value (t : StepEntry) : JsonValue :=
  JObject (<["action" := JString (action t)]> {["observation" := JString (observation t)]}).
Definition step_of_value (v : JsonValue) : option StepEntry :=
  m ← as_object v;
  a ← (m !! "action" ≫= as_str);
  o ← (m !! "observation" ≫= as_str);
  Some (mkStepEntry a o).

Definition option_str_to_value (o : option string) : JsonValue :=
  match o with Some s => JString s | None => JNull end.
(** A missing [Option] field and [null] both deserialize to [None]. *)
Definition option_str_of_value (v : option JsonValue) : option (option string) :=
  match v with
  | None | Some JNull => Some None
  | Some (JString s) => Some (Some s)
  | Some _ => None
  end.

Definition agent_state_obj (s : AgentState) : gmap string JsonValue :=
  <["input" := JString (input s)]>
  (<["messages" := JArray (message_to_value <$> messages s)]>
  (<["steps" := JArray (step_to_value <$> steps s)]>
  {["output" := option_str_to_value (output s)]})).

Definition agent_state_of_obj (m : gmap string JsonValue) : option AgentState :=
  i ← (m !! "input" ≫= as_str);
  ms ← ((m !! "messages" ≫= as_array) ≫= mapM message_of_value);
  ss ← ((m !! "steps" ≫= as_array) ≫= mapM step_of_value);
  o ← option_str_of_value (m !! "output");
  Some (mkAgentState i ms ss o).

Global Instance AgentState_schema : StateSchema AgentState := {
  to_value s := Ok (JObject (agent_state_obj s));
  from_value v := ok_or (as_object v ≫= agent_state_of_obj) "invalid AgentState";
}.

Lemma message_roundtrip m : message_of_value (message_to_value m) = Some m.
Proof. by destruct m as [[] ?]. Qed.
Lemma step_roundtrip t : step_of_value (step_to_value t) = Some t.
Proof. by destruct t. Qed.
Lemma mapM_roundtrip {A B} (f : A -> B) (g : B -> option A) (l : list A) :
  (forall x, g (f x) = Some x) -> mapM g (f <$> l) = Some l.
Proof. intros Hg. induction l as [|x l IH]; simpl; [done|]. by rewrite Hg /= IH. Qed.

Lemma agent_state_roundtrip s : agent_state_of_obj (agent_state_obj s) = Some s.
Proof.
  unfold agent_state_of_obj, agent_state_obj. simplify_map_eq.
  rewrite (mapM_roundtrip _ _ _ message_roundtrip) /= (mapM_roundtrip _ _ _ step_roundtrip) /=.
  by destruct s as [? ? ? []].
Qed.

Global Program Instance AgentState_roundtrip : StateRoundtrip AgentState := {
  state_obj := agent_state_obj;
}.
Next Obligation. done. Qed.
Next Obligation. intros s. simpl. by rewrite agent_state_roundtrip. Qed.

(** ** What the composed reducer computes on [AgentState] *)

Lemma agent_obj_input s : agent_state_obj s !! "input" = Some (JString (input s)).
Proof. done. Qed.
Lemma agent_obj_messages s :
  agent_state_obj s !! "messages" = Some (JArray (message_to_value <$> messages s)).
Proof. done. Qed.
Lemma agent_obj_steps s :
  agent_state_obj s !! "steps" = Some (JArray (step_to_value <$> steps s)).
Proof. done. Qed.
Lemma agent_obj_output s :
  agent_state_obj s !! "output" = Some (option_str_to_value (output s)).
Proof. done. Qed.
Create HintDb lc_agent.
#[export] Hint Rewrite agent_obj_input agent_obj_messages agent_obj_steps agent_obj_output : lc_agent.

(** Two object maps with the same four fields are the same [AgentState] object. *)
Lemma agent_obj_insert_messages s ms :
  <["messages" := JArray (message_to_value <$> ms)]> (agent_state_obj s) =
  agent_state_obj (mkAgentState (input s) ms (steps s) (output s)).
Proof.
  unfold agent_state_obj; simpl. by rewrite insert_insert_ne // insert_insert_eq.
Qed.
Lemma agent_obj_insert_steps s ss :
  <["steps" := JArray (step_to_value <$> ss)]> (agent_state_obj s) =
  agent_state_obj (mkAgentState (input s) (messages s) ss (output s)).
Proof.
  unfold agent_state_obj; simpl. by rewrite insert_insert_ne.
Qed.

(** Whatever the order the two append reducers are registered in, the composed
    reducer accumulates both histories and takes the other fields from the update. *)
Lemma merge_append_reducers_agent (order : bool) (current upd : AgentState) :
  MergeReducer ReplaceReducer
    (if order
     then [("messages", AppendMessagesReducer); ("steps", AppendStepsReducer)]
     else [("steps", AppendStepsReducer); ("messages", AppendMessagesReducer)])
    current upd =
  mkAgentState (input upd) (messages current ++ messages upd)
    (steps current ++ steps upd) (output upd).
Proof.
  unfold MergeReducer, ReplaceReducer. destruct order; cbn [to_value AgentState_schema].
  all: cbn [merge_fields to_value AgentState_schema as_object mbind option_bind].
  all: autorewrite with lc_agent; cbn [mbind option_bind].
  all: rewrite ?agent_obj_insert_messages ?agent_obj_insert_steps.
  all: rewrite ?agent_obj_insert_messages ?agent_obj_insert_steps; cbn.
  all: by rewrite agent_state_roundtrip.
Qed.
