(* ===== verification/Edge.v ===== *)
(** * Graph edges ([crates/lc-langgraph/src/edge.rs])

    [GraphEdge] is the enum; a conditional edge's [HashMap<String, String>] of
    routes is a finite map.  Iterating over such a map follows the order of
    [map_to_list]; Rust leaves the order unspecified, and no theorem of the
    development depends on it. *)

From S2P Require Import Prelude Json.
From stdpp Require Import gmap strings list.

(** The sentinel node names of [graph.rs]. *)
Definition START : string := "__start__".
Definition END : string := "__end__".

Module EdgeTarget.
Inductive t := Fixed (node : string) | Conditional (router : string).
Definition to (node : string) : t := Fixed node.
Definition conditional (router : string) : t := Conditional router.
End EdgeTarget.

Inductive GraphEdge : Type :=
| Fixed (source target : string)
| Conditional (source router_name : string) (targets : gmap string string)
    (default_target : option string)
| FanOut (source : string) (targets : list string)
| FanIn (sources : list string) (target : string).

Global Instance GraphEdge_eq_dec : EqDecision GraphEdge.
Proof. solve_decision. Defined.

Module GraphEdge.

Definition fixed (source target : string) : GraphEdge := Fixed source target.
Definition conditional (source router_name : string) (targets : gmap string string)
    (default : option string) : GraphEdge := Conditional source router_name targets default.
Definition fan_out (source : string) (targets : list string) : GraphEdge := FanOut source targets.
Definition fan_in (sources : list string) (target : string) : GraphEdge := FanIn sources target.

(** [GraphEdge::source]: a fan-in edge has no single source. *)
Definition source (e : GraphEdge) : string :=
  match e with
  | Fixed s _ => s
  | Conditional s _ _ _ => s
  | FanOut s _ => s
  | FanIn _ _ => "__fanin__"
  end.

Definition fixed_target (e : GraphEdge) : option string :=
  match e with
  | Fixed _ t => Some t
  | Conditional _ _ _ _ => None
  | FanOut _ _ => None
  | FanIn _ t => Some t
  end.

Definition fan_out_targets (e : GraphEdge) : option (list string) :=
  match e with FanOut _ ts => Some ts | _ => None end.

Definition fan_in_sources (e : GraphEdge) : option (list string) :=
  match e with FanIn ss _ => Some ss | _ => None end.

End GraphEdge.

(** [targets.values()] *)
Definition map_values (m : gmap string string) : list string := (map_to_list m).*2.

Lemma elem_of_map_values m t : t ∈ map_values m <-> exists k, m !! k = Some t.
Proof.
  unfold map_values. rewrite list_elem_of_fmap. split.
  - intros ([k v] & -> & Hk%elem_of_map_to_list). by exists k.
  - intros [k Hk]. exists (k, t). by rewrite elem_of_map_to_list.
Qed.
