(* ===== verification/Checkpoint.v ===== *)
(** * The [Checkpointer] trait ([crates/lc-langgraph/src/checkpointer.rs], first part)

    A [Checkpointer S C] is the trait object: one operation per trait method, over
    a store [C].  The methods the trait gives a default body are the
    [Default.*] definitions, which an implementation that does not override
    them uses.  [retention_trim_ids] is the pure pruning policy.

    [u64] sequence numbers and versions grow by one per operation and are [N];
    [i64] time differences saturate as [saturating_sub] does. *)

From S2P Require Import Prelude Json State.
From stdpp Require Import gmap strings list.

Definition DEFAULT_THREAD : string := "default".

(** ** Stored data *)

Record CheckpointInfo (S : Type) := mkCheckpointInfo {
  ci_id : string;
  ci_timestamp : Z;
  ci_seq : N;
  ci_recursion_count : nat;
  ci_state : S;
  ci_parent : option string;
}.
Arguments mkCheckpointInfo {S} _ _ _ _ _ _.
Arguments ci_id {S} _.
Arguments ci_timestamp {S} _.
Arguments ci_seq {S} _.
Arguments ci_recursion_count {S} _.
Arguments ci_state {S} _.
Arguments ci_parent {S} _.

Record CheckpointData (S : Type) := mkCheckpointData {
  cd_id : string;
  cd_state : S;
  cd_timestamp : Z;
  cd_metadata : gmap string JsonValue;
  cd_seq : N;
  cd_recursion_count : nat;
  cd_version : N;
  cd_thread_id : option string;
  cd_parent_id : option string;
}.
Arguments mkCheckpointData {S} _ _ _ _ _ _ _ _ _.
Arguments cd_id {S} _.
Arguments cd_state {S} _.
Arguments cd_timestamp {S} _.
Arguments cd_metadata {S} _.
Arguments cd_seq {S} _.
Arguments cd_recursion_count {S} _.
Arguments cd_version {S} _.
Arguments cd_thread_id {S} _.
Arguments cd_parent_id {S} _.

Definition initial_version : N := 1.

Module CheckpointData.

(** [CheckpointData::new]: the fresh id and the wall clock are inputs. *)
Definition new {S} (id : string) (now : Z) (state : S) : CheckpointData S :=
  mkCheckpointData id state now ∅ 0 0 initial_version None None.

(** [CheckpointData::with_progress] *)
Definition with_progress {S} (id : string) (now : Z) (state : S) (seq : N) (recursion_count : nat)
    : CheckpointData S :=
  let data := new id now state in
  mkCheckpointData (cd_id data) (cd_state data) (cd_timestamp data) (cd_metadata data)
    seq recursion_count (cd_version data) (cd_thread_id data) (cd_parent_id data).

Definition set_lineage {S} (thread_id parent_id : option string) (d : CheckpointData S)
    : CheckpointData S :=
  mkCheckpointData (cd_id d) (cd_state d) (cd_timestamp d) (cd_metadata d) (cd_seq d)
    (cd_recursion_count d) (cd_version d) thread_id parent_id.

(** The in-place edit of an optimistic update: new state, version bumped. *)
Definition edit {S} (state : S) (d : CheckpointData S) : CheckpointData S :=
  mkCheckpointData (cd_id d) state (cd_timestamp d) (cd_metadata d) (cd_seq d)
    (cd_recursion_count d) (cd_version d + 1) (cd_thread_id d) (cd_parent_id d).

End CheckpointData.

Definition checkpoint_info_from_data {S} (d : CheckpointData S) : CheckpointInfo S :=
  mkCheckpointInfo (cd_id d) (cd_timestamp d) (cd_seq d) (cd_recursion_count d)
    (cd_state d) (cd_parent_id d).

(** ** Retention *)

Record CheckpointRetention := mkRetention {
  max_checkpoints : option nat;
  max_age_secs : option Z;
}.

Module CheckpointRetention.
Definition default : CheckpointRetention := mkRetention None None.
Definition max_checkpoints (max : nat) : CheckpointRetention := mkRetention (Some max) None.
Definition ttl (secs : Z) : CheckpointRetention := mkRetention None (Some secs).
End CheckpointRetention.

Definition i64_min : Z := - 2 ^ 63.
Definition i64_max : Z := 2 ^ 63 - 1.
(** [i64::saturating_sub] *)
Definition saturating_sub_i64 (a b : Z) : Z := Z.max i64_min (Z.min i64_max (a - b)).

(** [retention_trim_ids]: mark the oldest excess, mark the expired, collect the marked. *)
Definition mark_excess (n : nat) (max_count : option nat) : list bool :=
  let marked := replicate n false in
  match max_count with
  | Some max =>
      let excess := n - max in
      ((fun _ => true) <$> take excess marked) ++ drop excess marked
  | None => marked
  end.

Definition mark_expired (ordered : list (string * Z)) (max_age_secs : option Z) (now : Z)
    (marked : list bool) : list bool :=
  match max_age_secs with
  | Some age =>
      zip_with (fun '(_, ts) m => if bool_decide (age < saturating_sub_i64 now ts)%Z then true else m)
        ordered marked
  | None => marked
  end.

Definition retention_trim_ids (ordered : list (string * Z)) (max_count : option nat)
    (max_age_secs : option Z) (now : Z) : list string :=
  let marked := mark_expired ordered max_age_secs now (mark_excess (length ordered) max_count) in
  omap (fun '((id, _), m) => if (m : bool) then Some id else None) (zip ordered marked).

(** ** The trait object *)

Record Checkpointer (S C : Type) := mkCheckpointer {
  save : S -> nat -> Act C GraphError string;
  load : string -> Act C GraphError S;
  list_ids : Act C GraphError (list string);
  delete : string -> Act C GraphError ();
  last : Act C GraphError (option (S * nat));
  snapshots : Act C GraphError (list (CheckpointInfo S));
  update_state : string -> S -> N -> Act C GraphError N;
  save_threaded : string -> S -> nat -> Act C GraphError string;
  save_fork_threaded : option string -> string -> S -> nat -> Act C GraphError string;
  load_threaded : string -> string -> Act C GraphError S;
  list_threaded : string -> Act C GraphError (list string);
  delete_threaded : string -> string -> Act C GraphError ();
  last_threaded : string -> Act C GraphError (option (S * nat));
  snapshots_threaded : string -> Act C GraphError (list (CheckpointInfo S));
  checkpoint_lineage : string -> Act C GraphError (option (string * option string));
  prune : string -> option nat -> option Z -> Z -> Act C GraphError nat;
  snapshots_page_threaded :
    string -> option string -> nat -> Act C GraphError (list (CheckpointInfo S));
  snapshots_page : option string -> nat -> Act C GraphError (list (CheckpointInfo S));
}.
Arguments mkCheckpointer {S C} _ _ _ _ _ _ _ _ _ _ _ _ _ _ _ _ _ _.
Arguments save {S C} _ _ _.
Arguments load {S C} _ _.
Arguments list_ids {S C} _.
Arguments delete {S C} _ _.
Arguments last {S C} _.
Arguments snapshots {S C} _.
Arguments update_state {S C} _ _ _ _.
Arguments save_threaded {S C} _ _ _ _.
Arguments save_fork_threaded {S C} _ _ _ _ _.
Arguments load_threaded {S C} _ _ _.
Arguments list_threaded {S C} _ _.
Arguments delete_threaded {S C} _ _ _.
Arguments last_threaded {S C} _ _.
Arguments snapshots_threaded {S C} _ _.
Arguments checkpoint_lineage {S C} _ _.
Arguments prune {S C} _ _ _ _ _.
Arguments snapshots_page_threaded {S C} _ _ _ _.
Arguments snapshots_page {S C} _ _ _.

(** The wall clock ([chrono::Utc::now]) a store can read. *)
Class Clock (C : Type) := utc_now : Act C GraphError Z.

(** ** Default method bodies *)

Module Default.
Section defaults.
Context {S C : Type}.

(** [snapshots]: a state-only history, ordering keys and budget reported as 0. *)
Definition snapshots (list_ids : Act C GraphError (list string))
    (load : string -> Act C GraphError S) : Act C GraphError (list (CheckpointInfo S)) :=
  ids ← list_ids;
  act_map (fun id => state ← load id; mret (mkCheckpointInfo id 0 0 0 state None)) ids.

Definition update_state (checkpoint_id : string) (state : S) (expected_version : N)
    : Act C GraphError N :=
  act_fail (CheckpointError ("update_state is not supported on checkpoint '" +:+ checkpoint_id
    +:+ "' by this checkpointer")).

Definition save_threaded (save : S -> nat -> Act C GraphError string)
    (thread : string) (state : S) (recursion_count : nat) : Act C GraphError string :=
  save state recursion_count.

Definition save_fork_threaded (save_threaded : string -> S -> nat -> Act C GraphError string)
    (parent_id : option string) (thread : string) (state : S) (recursion_count : nat)
    : Act C GraphError string :=
  save_threaded thread state recursion_count.

Definition checkpoint_lineage (checkpoint_id : string)
    : Act C GraphError (option (string * option string)) := mret None.

(** [prune]: read the ordered snapshots, compute the ids to drop, delete them one by one. *)
Definition prune (snapshots_threaded : string -> Act C GraphError (list (CheckpointInfo S)))
    (delete_threaded : string -> string -> Act C GraphError ())
    (thread : string) (max_count : option nat) (max_age_secs : option Z) (now : Z)
    : Act C GraphError nat :=
  snaps ← snapshots_threaded thread;
  let ordered := (fun s => (ci_id s, ci_timestamp s)) <$> snaps in
  let to_delete := retention_trim_ids ordered max_count max_age_secs now in
  act_iter (fun id => delete_threaded thread id) to_delete;;
  mret (length to_delete).

(** [snapshots_page_threaded] *)
Definition position (p : string) {S'} (l : list (CheckpointInfo S')) : option nat :=
  fst <$> list_find (fun s => ci_id s = p) l.

Definition page {S'} (all : list (CheckpointInfo S')) (after_id : option string) (limit : nat)
    : list (CheckpointInfo S') :=
  match limit with
  | 0 => []
  | _ =>
      let skip := match after_id with
                  | Some aid => match position aid all with
                                | Some p => p + 1
                                | None => length all
                                end
                  | None => 0
                  end in
      take limit (drop skip all)
  end.

Definition snapshots_page_threaded
    (snapshots_threaded : string -> Act C GraphError (list (CheckpointInfo S)))
    (thread : string) (after_id : option string) (limit : nat)
    : Act C GraphError (list (CheckpointInfo S)) :=
  all ← snapshots_threaded thread;
  mret (page all after_id limit).

Definition snapshots_page
    (snapshots_page_threaded :
       string -> option string -> nat -> Act C GraphError (list (CheckpointInfo S)))
    (after_id : option string) (limit : nat) : Act C GraphError (list (CheckpointInfo S)) :=
  snapshots_page_threaded DEFAULT_THREAD after_id limit.

End defaults.
End Default.

(** ** Retention facts *)

(** How many of the oldest entries exceed the cap, and whether an entry is past its time. *)
Definition excess (n : nat) (max_count : option nat) : nat :=
  match max_count with Some max => n - max | None => 0 end.
Definition expired (max_age_secs : option Z) (now : Z) (x : string * Z) : Prop :=
  match max_age_secs with
  | Some age => (age < saturating_sub_i64 now x.2)%Z
  | None => False
  end.
Global Instance expired_dec ma now x : Decision (expired ma now x).
Proof. unfold expired. destruct ma; apply _. Defined.

(** What the policy keeps: the newest [max_count] entries that have not expired. *)
Definition retained (ordered : list (string * Z)) (max_count : option nat)
    (max_age_secs : option Z) (now : Z) : list (string * Z) :=
  filter (fun x => ~ expired max_age_secs now x) (drop (excess (length ordered) max_count) ordered).

Lemma mark_excess_eq n mc :
  mark_excess n mc = replicate (excess n mc) true ++ replicate (n - excess n mc) false.
Proof.
  unfold mark_excess, excess. destruct mc as [max|]; [|by rewrite Nat.sub_0_r].
  rewrite take_replicate drop_replicate fmap_replicate Nat.min_l //. lia.
Qed.

Definition trim_marked (ordered : list (string * Z)) (marked : list bool) : list string :=
  omap (fun '((id, _), m) => if (m : bool) then Some id else None) (zip ordered marked).

Lemma trim_marked_app o1 o2 m1 m2 :
  length o1 = length m1 ->
  trim_marked (o1 ++ o2) (m1 ++ m2) = trim_marked o1 m1 ++ trim_marked o2 m2.
Proof. intros Hl. unfold trim_marked. by rewrite zip_with_app // omap_app. Qed.

Lemma trim_marked_cons id ts o (m : bool) ms :
  trim_marked ((id, ts) :: o) (m :: ms) = (if m then [id] else []) ++ trim_marked o ms.
Proof. by destruct m. Qed.

Lemma mark_expired_cons x o ma now (m : bool) ms :
  mark_expired (x :: o) ma now (m :: ms) =
  (if decide (expired ma now x) then true else m) :: mark_expired o ma now ms.
Proof.
  destruct ma as [age|], x as [id ts]; cbn -[decide]; [|done].
  f_equal. case_bool_decide; case_decide; done.
Qed.

Lemma trim_marked_all_true ordered ma now :
  trim_marked ordered (mark_expired ordered ma now (replicate (length ordered) true)) = ordered.*1.
Proof.
  induction ordered as [|[id ts] o IH]; [by destruct ma|].
  cbn [length replicate]. rewrite mark_expired_cons trim_marked_cons IH. by case_decide.
Qed.

Lemma trim_marked_all_false ordered ma now :
  trim_marked ordered (mark_expired ordered ma now (replicate (length ordered) false)) =
  (filter (expired ma now) ordered).*1.
Proof.
  induction ordered as [|[id ts] o IH]; [by destruct ma|].
  cbn [length replicate]. rewrite mark_expired_cons trim_marked_cons IH filter_cons.
  by case_decide.
Qed.

Lemma mark_expired_app o1 o2 ma now m1 m2 :
  length o1 = length m1 ->
  mark_expired (o1 ++ o2) ma now (m1 ++ m2) =
  mark_expired o1 ma now m1 ++ mark_expired o2 ma now m2.
Proof. intros Hl. unfold mark_expired. destruct ma; [by rewrite zip_with_app|done]. Qed.

Lemma length_mark_expired o ma now m :
  length o = length m -> length (mark_expired o ma now m) = length o.
Proof. intros Hl. unfold mark_expired. destruct ma; [rewrite length_zip_with; lia|done]. Qed.

(** The policy in closed form: all of the excess, then whatever else has expired. *)
Lemma retention_trim_ids_eq ordered mc ma now :
  retention_trim_ids ordered mc ma now =
  (take (excess (length ordered) mc) ordered).*1 ++
  (filter (expired ma now) (drop (excess (length ordered) mc) ordered)).*1.
Proof.
  unfold retention_trim_ids. fold (trim_marked ordered
    (mark_expired ordered ma now (mark_excess (length ordered) mc))).
  set (e := excess (length ordered) mc).
  assert (e <= length ordered) as He by (subst e; unfold excess; destruct mc; lia).
  rewrite mark_excess_eq -/e.
  rewrite -{1 2}(take_drop e ordered).
  assert (length (take e ordered) = e) as Ht by (rewrite length_take; lia).
  rewrite mark_expired_app; last by rewrite Ht length_replicate.
  rewrite trim_marked_app; last by rewrite length_mark_expired Ht ?length_replicate.
  f_equal.
  - pose proof (trim_marked_all_true (take e ordered) ma now) as Htrue.
    by rewrite Ht in Htrue.
  - pose proof (trim_marked_all_false (drop e ordered) ma now) as Hfalse.
    by rewrite length_drop in Hfalse.
Qed.

(** Trimmed and retained ids split the history. *)
Lemma retention_split ordered mc ma now :
  retention_trim_ids ordered mc ma now ++ (retained ordered mc ma now).*1 ≡ₚ ordered.*1.
Proof.
  rewrite retention_trim_ids_eq /retained -app_assoc -fmap_app.
  by rewrite filter_app_complement -fmap_app take_drop.
Qed.

Lemma retained_length ordered max ma now :
  length (retained ordered (Some max) ma now) <= max.
Proof.
  unfold retained. etrans; [apply length_filter|]. rewrite length_drop. simpl. lia.
Qed.

Lemma retained_fresh ordered mc age now id ts :
  (id, ts) ∈ retained ordered mc (Some age) now -> (saturating_sub_i64 now ts <= age)%Z.
Proof. unfold retained. intros [Hx _]%list_elem_of_filter. simpl in Hx. lia. Qed.

(** When ids are distinct, removing the trimmed ids leaves exactly the retained entries. *)
Lemma retained_is_rest ordered mc ma now :
  NoDup ordered.*1 ->
  filter (fun x => x.1 ∉ retention_trim_ids ordered mc ma now) ordered =
  retained ordered mc ma now.
Proof.
  intros Hnd. rewrite retention_trim_ids_eq /retained.
  set (e := excess _ _). clearbody e.
  pose proof (take_drop e ordered) as Hsplit.
  set (T := take e ordered) in *. set (D := drop e ordered) in *. clearbody T D.
  set (F := (filter (expired ma now) D).*1).
  subst ordered. rewrite fmap_app in Hnd. apply NoDup_app in Hnd as (_ & Hdisj & Hnd).
  rewrite filter_app (filter_out _ T) /=; last first.
  { intros x Hx Hn. apply Hn, elem_of_app. left. by apply list_elem_of_fmap_2. }
  apply filter_ext_elem. intros x Hx. rewrite not_elem_of_app. split.
  - intros [_ Hn] Hexp. apply Hn. apply list_elem_of_fmap_2, list_elem_of_filter. done.
  - intros Hn. split.
    + intros Ht. apply (Hdisj x.1 Ht). by apply list_elem_of_fmap_2.
    + intros (y & Hy & [Hey Hyd]%list_elem_of_filter)%list_elem_of_fmap.
      apply Hn. by rewrite (NoDup_fmap_elem_inj _ _ _ _ Hnd Hx Hyd Hy).
Qed.

(** what the retention policy trims is the excess and the expired, and nothing
    else: on a history with distinct ids, oldest first, what is left has at most
    [max_count] entries, none of them older than [max_age_secs] (the age saturates
    at the 64-bit bounds), in the order they had; and every trimmed entry had
    expired or was among the oldest ones beyond the cap. *)
Theorem retention_policy ordered mc ma now :
  NoDup ordered.*1 ->
  let kept := filter (fun x => x.1 ∉ retention_trim_ids ordered mc ma now) ordered in
  (forall max, mc = Some max -> length kept <= max) /\
  (forall age x, ma = Some age -> x ∈ kept -> (saturating_sub_i64 now x.2 <= age)%Z) /\
  (forall i x, ordered !! i = Some x -> x ∉ kept ->
     expired ma now x \/ exists max, mc = Some max /\ i + max < length ordered).
Proof.
  intros Hnd kept. subst kept. rewrite retained_is_rest //. split_and!.
  - intros max ->. apply retained_length.
  - intros age [id ts] -> Hx. by eapply retained_fresh.
  - intros i x Hi Hx. destruct (decide (expired ma now x)) as [|Hexp]; [by left|right].
    destruct (decide (i < excess (length ordered) mc)) as [Hlt|Hge].
    + destruct mc as [max|]; simpl in Hlt; [|lia]. exists max. split; [done|].
      apply lookup_lt_Some in Hi. lia.
    + destruct Hx. apply list_elem_of_filter. split; [done|].
      apply (list_elem_of_lookup_2 _ (i - excess (length ordered) mc)).
      rewrite lookup_drop -Hi. f_equal. lia.
Qed.

Lemma retention_policy_witness :
  filter (fun x => x.1 ∉ retention_trim_ids [("a", 10); ("b", 20); ("c", 30)]%Z (Some 2) (Some 5%Z) 31%Z)
    [("a", 10); ("b", 20); ("c", 30)]%Z = [("c", 30)%Z] /\ length [("c", 30)%Z] <= 2.
Proof.
  assert (filter (fun x => x.1 ∉ retention_trim_ids [("a", 10); ("b", 20); ("c", 30)]%Z
    (Some 2) (Some 5%Z) 31%Z) [("a", 10); ("b", 20); ("c", 30)]%Z = [("c", 30)%Z]) as E
    by (by vm_compute).
  split; [exact E|]. rewrite -E.
  apply (retention_policy [("a", 10); ("b", 20); ("c", 30)]%Z (Some 2) (Some 5%Z) 31%Z);
    [|reflexivity].
  repeat (apply NoDup_cons; split; [cbn; rewrite ?elem_of_cons elem_of_nil; naive_solver|]).
  apply NoDup_nil_2.
Defined.

(** ** The contract of a threaded store

    [view c t] is the history of thread [t], oldest first.  The operations of
    the trait are specified by what they do to the view; a client of the trait
    (the retention decorator, resume and fork) is proved against this class, and
    each backend discharges it. *)

Definition ids {S} (l : list (CheckpointInfo S)) : list string := ci_id <$> l.

Definition find_id {S} (id : string) (l : list (CheckpointInfo S)) : option (CheckpointInfo S) :=
  snd <$> list_find (fun s => ci_id s = id) l.

Definition not_found (id : string) : GraphError :=
  CheckpointError ("Checkpoint '" +:+ id +:+ "' not found").

Section added.
Context {S C : Type} (inv : C -> Prop) (view : C -> string -> list (CheckpointInfo S)).

(** [c'] is [c] with the one new entry [info] in thread [t]. *)
Definition added (c : C) (t : string) (info : CheckpointInfo S) (c' : C) : Prop :=
  inv c' /\ view c' t ≡ₚ info :: view c t /\
  (forall t', ci_id info ∉ ids (view c t')) /\
  (forall t', t' <> t -> view c' t' = view c t').
End added.

Class ThreadedStore {S C : Type} (cp : Checkpointer S C) := {
  ts_inv : C -> Prop;
  view : C -> string -> list (CheckpointInfo S);
  view_nodup c t : ts_inv c -> NoDup (ids (view c t));
  snapshots_law c t : ts_inv c -> snapshots_threaded cp t c = (Ok (view c t), c);
  list_law c t : ts_inv c -> list_threaded cp t c = (Ok (ids (view c t)), c);
  last_law c t : ts_inv c ->
    last_threaded cp t c =
    (Ok ((fun s => (ci_state s, ci_recursion_count s)) <$> list.last (view c t)), c);
  load_law c t id : ts_inv c ->
    load_threaded cp t id c = (ok_or (ci_state <$> find_id id (view c t)) (not_found id), c);
  save_law c t s rc : ts_inv c ->
    exists info c', save_threaded cp t s rc c = (Ok (ci_id info), c') /\
      added ts_inv view c t info c' /\ ci_state info = s /\ ci_recursion_count info = rc /\
      ci_parent info = None;
  save_fork_law c p t s rc : ts_inv c ->
    exists info c', save_fork_threaded cp p t s rc c = (Ok (ci_id info), c') /\
      added ts_inv view c t info c' /\ ci_state info = s /\ ci_recursion_count info = rc /\
      ci_parent info = p;
  delete_law c t id : ts_inv c ->
    exists c', delete_threaded cp t id c = (Ok (), c') /\ ts_inv c' /\
      view c' t = filter (fun s => ci_id s <> id) (view c t) /\
      (forall t', t' <> t -> view c' t' = view c t');
}.

(** A backend that can also say which thread an id lives in, and whose
    thread-agnostic operations act on the default thread. *)
Class LineageStore {S C : Type} (cp : Checkpointer S C) `{!ThreadedStore cp} := {
  lineage_law c t s id : ts_inv c -> find_id id (view c t) = Some s ->
    checkpoint_lineage cp id c = (Ok (Some (t, ci_parent s)), c);
  snapshots_default c : snapshots cp c = snapshots_threaded cp DEFAULT_THREAD c;
  save_default c s rc : save cp s rc c = save_threaded cp DEFAULT_THREAD s rc c;
  last_default c : last cp c = last_threaded cp DEFAULT_THREAD c;
  load_default c id : load cp id c = load_threaded cp DEFAULT_THREAD id c;
}.

(** The pruning operation is the trait's default body. *)
Class DefaultPrune {S C : Type} (cp : Checkpointer S C) : Prop :=
  prune_default : prune cp = Default.prune (snapshots_threaded cp) (delete_threaded cp).

(** *** Facts about lookups by id *)

Lemma find_id_Some {S} id (l : list (CheckpointInfo S)) s :
  find_id id l = Some s -> s ∈ l /\ ci_id s = id.
Proof.
  unfold find_id. intros ([i x] & H & ->)%fmap_Some.
  apply list_find_Some in H as (Hi & Hid & _). split; [by eapply list_elem_of_lookup_2|done].
Qed.

Lemma find_id_None {S} id (l : list (CheckpointInfo S)) :
  find_id id l = None <-> id ∉ ids l.
Proof.
  unfold find_id, ids. rewrite fmap_None list_find_None Forall_forall list_elem_of_fmap.
  naive_solver.
Qed.

Lemma find_id_elem {S} (l : list (CheckpointInfo S)) s :
  NoDup (ids l) -> s ∈ l -> find_id (ci_id s) l = Some s.
Proof.
  intros Hnd Hs. destruct (find_id (ci_id s) l) as [x|] eqn:E.
  - apply find_id_Some in E as [Hx Hid]. f_equal.
    by apply (NoDup_fmap_elem_inj ci_id l).
  - apply find_id_None in E. destruct E. by apply list_elem_of_fmap_2.
Qed.

Lemma find_id_perm {S} id (l l' : list (CheckpointInfo S)) :
  NoDup (ids l) -> l ≡ₚ l' -> find_id id l = find_id id l'.
Proof.
  intros Hnd Hp. assert (NoDup (ids l')) as Hnd' by (by rewrite /ids -Hp).
  destruct (find_id id l) as [x|] eqn:E.
  - apply find_id_Some in E as [Hx <-]. symmetry. apply find_id_elem; [done|by rewrite -Hp].
  - symmetry. apply find_id_None. apply find_id_None in E. by rewrite /ids -Hp.
Qed.

Lemma find_id_added {S C} inv (view : C -> string -> list (CheckpointInfo S)) c t info c' t' id :
  added inv view c t info c' -> (forall t, NoDup (ids (view c' t))) ->
  find_id id (view c' t') =
  if decide (id = ci_id info /\ t' = t) then Some info else find_id id (view c t').
Proof.
  intros (_ & Hp & Hfresh & Hframe) Hnd. case_decide as Hd.
  - destruct Hd as [-> ->]. apply find_id_elem; [apply Hnd|]. rewrite Hp. apply list_elem_of_here.
  - destruct (decide (t' = t)) as [->|Ht]; [|by rewrite Hframe].
    rewrite (find_id_perm id _ _ (Hnd t) Hp). unfold find_id. simpl.
    rewrite decide_False; [by destruct (list_find _ _) as [[]|]|]. intros <-. by apply Hd.
Qed.

(** *** Pruning through the contract *)

(** The [(id, timestamp)] pairs [prune] orders its policy on. *)
Definition stamps {S} (l : list (CheckpointInfo S)) : list (string * Z) :=
  (fun s => (ci_id s, ci_timestamp s)) <$> l.

Section prune.
Context {S C : Type} (cp : Checkpointer S C) `{!ThreadedStore cp}.

Lemma delete_all_law t dl c :
  ts_inv c -> exists c', act_iter (fun id => delete_threaded cp t id) dl c = (Ok (), c') /\
    ts_inv c' /\ view c' t = filter (fun s => ci_id s ∉ dl) (view c t) /\
    (forall t', t' <> t -> view c' t' = view c t').
Proof.
  revert c. induction dl as [|id dl IH]; intros c Hi; simpl.
  - exists c. split; [done|]. split; [done|]. split; [|done]. symmetry. apply filter_all.
    intros s _ Hs. by apply elem_of_nil in Hs.
  - destruct (delete_law c t id Hi) as (c1 & E1 & Hi1 & Hv1 & Hf1).
    destruct (IH c1 Hi1) as (c2 & E2 & Hi2 & Hv2 & Hf2).
    exists c2. unfold mbind, act_bind. rewrite E1 E2. split; [done|]. split; [done|]. split.
    + rewrite Hv2 Hv1 list_filter_filter. apply filter_ext_elem. intros s _.
      rewrite not_elem_of_cons. naive_solver.
    + intros t' Ht. by rewrite Hf2 // Hf1.
Qed.

Lemma prune_law `{!DefaultPrune cp} t mc ma now c :
  ts_inv c -> exists n c', prune cp t mc ma now c = (Ok n, c') /\
    ts_inv c' /\ stamps (view c' t) = retained (stamps (view c t)) mc ma now /\
    view c' t `sublist_of` view c t /\
    n + length (view c' t) = length (view c t) /\
    (forall t', t' <> t -> view c' t' = view c t').
Proof.
  intros Hi. rewrite prune_default. unfold Default.prune, mbind, act_bind.
  rewrite snapshots_law //. fold (stamps (view c t)).
  set (dl := retention_trim_ids (stamps (view c t)) mc ma now).
  destruct (delete_all_law t dl c Hi) as (c' & E & Hi' & Hv & Hf). rewrite E.
  exists (length dl), c'. split; [done|]. split; [done|].
  assert ((stamps (view c t)).*1 = ids (view c t)) as Hids.
  { unfold stamps, ids. by rewrite -list_fmap_compose. }
  assert (stamps (view c' t) = retained (stamps (view c t)) mc ma now) as Hret.
  { rewrite -retained_is_rest; last by rewrite Hids; apply view_nodup.
    rewrite Hv /stamps filter_fmap_list. done. }
  split; [done|]. split; [rewrite Hv; apply sublist_filter|]. split; [|done].
  assert (length (view c' t) = length (retained (stamps (view c t)) mc ma now)) as ->.
  { rewrite -Hret. unfold stamps. by rewrite length_fmap. }
  pose proof (retention_split (stamps (view c t)) mc ma now) as Hsplit%Permutation_length.
  rewrite length_app !length_fmap in Hsplit. done.
Qed.
End prune.
