(* ===== verification/MemCheckpointer.v ===== *)
(** * The in-memory checkpointers ([checkpointer.rs], second part)

    One [ThreadStore] per thread holds the checkpoints in arrival order and the
    thread's sequence counter.  [Uuid::new_v4] and [chrono::Utc::now] are the
    parameters [uuid] and [clock], read in order at each tick of the store's
    own counter.  [MemoryCheckpointer] and [ThreadSafeMemoryCheckpointer] are
    the same bodies over the same map in the source, and the same definition
    here.

    The store satisfies the [ThreadedStore] and [LineageStore] contracts as soon
    as [uuid] never repeats; nothing depends on the clock. *)

From stdpp Require Import gmap strings list pretty.
From S2P Require Import Prelude Json State Checkpoint.

Record ThreadStore (S : Type) := mkThreadStore {
  items : list (CheckpointData S);
  next_seq : N;
}.
Arguments mkThreadStore {S} _ _.
Arguments items {S} _.
Arguments next_seq {S} _.

(** [(d.timestamp, d.seq)] compared lexicographically. *)
Definition key_le {S} (a b : CheckpointData S) : bool :=
  (cd_timestamp a <? cd_timestamp b)%Z ||
  ((cd_timestamp a =? cd_timestamp b)%Z && (cd_seq a <=? cd_seq b)%N).

Module ThreadStore.

Definition new {S} : ThreadStore S := mkThreadStore [] 0.

Definition find {S} (st : ThreadStore S) (id : string) : option (CheckpointData S) :=
  snd <$> list_find (fun d => cd_id d = id) (items st).

(** The write through [find_mut]: the first entry with that id is replaced. *)
Definition edit_first {S} (st : ThreadStore S) (id : string)
    (f : CheckpointData S -> CheckpointData S) : ThreadStore S :=
  match list_find (fun d => cd_id d = id) (items st) with
  | Some (i, d) => mkThreadStore (<[i := f d]> (items st)) (next_seq st)
  | None => st
  end.

Definition sorted {S} (st : ThreadStore S) : list (CheckpointData S) := sort_by key_le (items st).

Definition last {S} (st : ThreadStore S) : option (CheckpointData S) := max_by key_le (items st).

End ThreadStore.

(** The mutex-guarded map, with the counter that numbers the calls to the id
    generator and the clock. *)
Record MemStore (S : Type) := mkMemStore {
  threads : gmap string (ThreadStore S);
  tick : nat;
}.
Arguments mkMemStore {S} _ _.
Arguments threads {S} _.
Arguments tick {S} _.

Section mem.
Context {S : Type} (uuid : nat -> string) (clock : nat -> Z).

Definition mem_empty : MemStore S := mkMemStore ∅ 0.

Definition mem_entry (c : MemStore S) (thread : string) : ThreadStore S :=
  default ThreadStore.new (threads c !! thread).

Definition mem_save (thread : string) (state : S) (recursion_count : nat)
    : Act (MemStore S) GraphError string := fun c =>
  let store := mem_entry c thread in
  let data := CheckpointData.set_lineage (Some thread) None
    (CheckpointData.with_progress (uuid (tick c)) (clock (tick c)) state (next_seq store)
       recursion_count) in
  let store := mkThreadStore (items store ++ [data]) (next_seq store + 1) in
  (Ok (cd_id data), mkMemStore (<[thread := store]> (threads c)) (tick c + 1)).

Definition mem_save_fork (parent_id : option string) (thread : string) (state : S)
    (recursion_count : nat) : Act (MemStore S) GraphError string := fun c =>
  let store := mem_entry c thread in
  let data := CheckpointData.set_lineage (Some thread) parent_id
    (CheckpointData.with_progress (uuid (tick c)) (clock (tick c)) state (next_seq store)
       recursion_count) in
  let store := mkThreadStore (items store ++ [data]) (next_seq store + 1) in
  (Ok (cd_id data), mkMemStore (<[thread := store]> (threads c)) (tick c + 1)).

Definition mem_load (thread checkpoint_id : string) : Act (MemStore S) GraphError S := fun c =>
  match threads c !! thread with
  | None => (Err (not_found checkpoint_id), c)
  | Some store =>
      (ok_or (cd_state <$> ThreadStore.find store checkpoint_id) (not_found checkpoint_id), c)
  end.

Definition mem_list (thread : string) : Act (MemStore S) GraphError (list string) := fun c =>
  (Ok (default [] ((fun s => cd_id <$> ThreadStore.sorted s) <$> threads c !! thread)), c).

Definition mem_snapshots (thread : string)
    : Act (MemStore S) GraphError (list (CheckpointInfo S)) := fun c =>
  (Ok (default []
    ((fun s => checkpoint_info_from_data <$> ThreadStore.sorted s) <$> threads c !! thread)), c).

Definition mem_last (thread : string) : Act (MemStore S) GraphError (option (S * nat)) := fun c =>
  (Ok ((fun d => (cd_state d, cd_recursion_count d)) <$>
        (threads c !! thread ≫= ThreadStore.last)), c).

Definition mem_delete (thread checkpoint_id : string) : Act (MemStore S) GraphError () := fun c =>
  match threads c !! thread with
  | Some store =>
      let store := mkThreadStore (filter (fun d => cd_id d <> checkpoint_id) (items store))
                     (next_seq store) in
      (Ok (), mkMemStore (<[thread := store]> (threads c)) (tick c))
  | None => (Ok (), c)
  end.

(** The loops over [guard.values_mut()] and [guard.iter()]: the first thread
    whose store has the id, with the entry found there. *)
Fixpoint find_thread (entries : list (string * ThreadStore S)) (id : string)
    : option (string * CheckpointData S) :=
  match entries with
  | [] => None
  | (thread, store) :: entries' =>
      match ThreadStore.find store id with
      | Some d => Some (thread, d)
      | None => find_thread entries' id
      end
  end.

Definition update_locked (checkpoint_id : string) (state : S) (expected_version : N)
    : Act (MemStore S) GraphError N := fun c =>
  match find_thread (map_to_list (threads c)) checkpoint_id with
  | Some (thread, data) =>
      if negb (cd_version data =? expected_version)%N
      then (Err (CheckpointVersionConflict checkpoint_id expected_version (cd_version data)), c)
      else
        let store := ThreadStore.edit_first (mem_entry c thread) checkpoint_id
                       (CheckpointData.edit state) in
        (Ok (cd_version data + 1)%N,
         mkMemStore (<[thread := store]> (threads c)) (tick c))
  | None => (Err (not_found checkpoint_id), c)
  end.

Definition mem_checkpoint_lineage (checkpoint_id : string)
    : Act (MemStore S) GraphError (option (string * option string)) := fun c =>
  match find_thread (map_to_list (threads c)) checkpoint_id with
  | Some (thread, d) => (Ok (Some (thread, cd_parent_id d)), c)
  | None => (Ok None, c)
  end.

Definition MemoryCheckpointer : Checkpointer S (MemStore S) := {|
  save := mem_save DEFAULT_THREAD;
  load := mem_load DEFAULT_THREAD;
  list_ids := mem_list DEFAULT_THREAD;
  delete := mem_delete DEFAULT_THREAD;
  last := mem_last DEFAULT_THREAD;
  snapshots := mem_snapshots DEFAULT_THREAD;
  update_state := update_locked;
  save_threaded := mem_save;
  save_fork_threaded := mem_save_fork;
  load_threaded := mem_load;
  list_threaded := mem_list;
  delete_threaded := mem_delete;
  last_threaded := mem_last;
  snapshots_threaded := mem_snapshots;
  checkpoint_lineage := mem_checkpoint_lineage;
  prune := Default.prune mem_snapshots mem_delete;
  snapshots_page_threaded := Default.snapshots_page_threaded mem_snapshots;
  snapshots_page := Default.snapshots_page (Default.snapshots_page_threaded mem_snapshots);
|}.

Definition ThreadSafeMemoryCheckpointer : Checkpointer S (MemStore S) := {|
  save := mem_save DEFAULT_THREAD;
  load := mem_load DEFAULT_THREAD;
  list_ids := mem_list DEFAULT_THREAD;
  delete := mem_delete DEFAULT_THREAD;
  last := mem_last DEFAULT_THREAD;
  snapshots := mem_snapshots DEFAULT_THREAD;
  update_state := update_locked;
  save_threaded := mem_save;
  save_fork_threaded := mem_save_fork;
  load_threaded := mem_load;
  list_threaded := mem_list;
  delete_threaded := mem_delete;
  last_threaded := mem_last;
  snapshots_threaded := mem_snapshots;
  checkpoint_lineage := mem_checkpoint_lineage;
  prune := Default.prune mem_snapshots mem_delete;
  snapshots_page_threaded := Default.snapshots_page_threaded mem_snapshots;
  snapshots_page := Default.snapshots_page (Default.snapshots_page_threaded mem_snapshots);
|}.

(** [utc_now]: one more reading of the clock. *)
Global Instance mem_clock : Clock (MemStore S) := fun c =>
  (Ok (clock (tick c)), mkMemStore (threads c) (tick c + 1)).

End mem.

(** ** The sort key is a total order *)

Lemma key_le_spec {S} (a b : CheckpointData S) :
  key_le a b = true <->
  (cd_timestamp a < cd_timestamp b)%Z \/
  (cd_timestamp a = cd_timestamp b /\ (cd_seq a <= cd_seq b)%N).
Proof.
  unfold key_le. rewrite orb_true_iff andb_true_iff Z.ltb_lt Z.eqb_eq N.leb_le. done.
Qed.
Lemma key_le_total {S} (a b : CheckpointData S) : key_le a b = true \/ key_le b a = true.
Proof. rewrite !key_le_spec. lia. Qed.
Lemma key_le_trans {S} (a b c : CheckpointData S) :
  key_le a b = true -> key_le b c = true -> key_le a c = true.
Proof. rewrite !key_le_spec. lia. Qed.

Lemma store_find_Some {S} (st : ThreadStore S) id d :
  ThreadStore.find st id = Some d -> d ∈ items st /\ cd_id d = id.
Proof.
  unfold ThreadStore.find. intros ([i x] & H & ->)%fmap_Some.
  apply list_find_Some in H as (Hi & Hid & _). split; [by eapply list_elem_of_lookup_2|done].
Qed.

Lemma store_find_elem {S} (st : ThreadStore S) d :
  NoDup (cd_id <$> items st) -> d ∈ items st -> ThreadStore.find st (cd_id d) = Some d.
Proof.
  intros Hnd Hd. unfold ThreadStore.find.
  destruct (list_find_elem_of (fun x => cd_id x = cd_id d) (items st) d Hd eq_refl) as [[i x] E].
  rewrite E /=. apply list_find_Some in E as (Hi & Hid & _). f_equal.
  apply (NoDup_fmap_elem_inj cd_id (items st)); try done. by eapply list_elem_of_lookup_2.
Qed.

(** ** The invariant of the store *)

Section mem_facts.
Context {S : Type} (uuid : nat -> string) (clock : nat -> Z).
Context (uuid_fresh : Inj (=) (=) uuid).

Record mem_inv (c : MemStore S) : Prop := {
  mi_issued t d : d ∈ items (mem_entry c t) ->
    exists k, k < tick c /\ cd_id d = uuid k /\ cd_timestamp d = clock k;
  mi_nodup t : NoDup (cd_id <$> items (mem_entry c t));
  mi_disjoint t1 t2 d1 d2 : d1 ∈ items (mem_entry c t1) -> d2 ∈ items (mem_entry c t2) ->
    cd_id d1 = cd_id d2 -> t1 = t2;
  mi_seq t d : d ∈ items (mem_entry c t) -> (cd_seq d < next_seq (mem_entry c t))%N;
  mi_thread t d : d ∈ items (mem_entry c t) -> cd_thread_id d = Some t;
}.

Definition mem_view (c : MemStore S) (t : string) : list (CheckpointInfo S) :=
  checkpoint_info_from_data <$> ThreadStore.sorted (mem_entry c t).

Lemma mem_entry_insert (m : gmap string (ThreadStore S)) n t st t' :
  mem_entry (mkMemStore (<[t := st]> m) n) t' =
  if decide (t = t') then st else mem_entry (mkMemStore m n) t'.
Proof.
  unfold mem_entry; simpl. case_decide as Ht.
  - subst. by rewrite lookup_insert_eq.
  - by rewrite lookup_insert_ne.
Qed.

Lemma mem_inv_empty : mem_inv mem_empty.
Proof.
  split; intros t; unfold mem_entry, mem_empty; simpl; rewrite ?lookup_empty /=.
  all: try (by intros ? ?%elem_of_nil).
  - constructor.
  - intros ? ? ? ?%elem_of_nil. done.
Qed.

Lemma ids_view c t : ids (mem_view c t) = cd_id <$> ThreadStore.sorted (mem_entry c t).
Proof. unfold ids, mem_view. rewrite -list_fmap_compose. done. Qed.

Lemma ids_view_perm c t : ids (mem_view c t) ≡ₚ cd_id <$> items (mem_entry c t).
Proof. rewrite ids_view. unfold ThreadStore.sorted. by rewrite sort_by_perm. Qed.

Lemma view_perm c t : mem_view c t ≡ₚ checkpoint_info_from_data <$> items (mem_entry c t).
Proof. unfold mem_view, ThreadStore.sorted. by rewrite sort_by_perm. Qed.

(** *** Saving *)

Definition saved_data (c : MemStore S) (parent : option string) (t : string) (s : S) (rc : nat)
    : CheckpointData S :=
  CheckpointData.set_lineage (Some t) parent
    (CheckpointData.with_progress (uuid (tick c)) (clock (tick c)) s
       (next_seq (mem_entry c t)) rc).

Definition mem_push (c : MemStore S) (t : string) (d : CheckpointData S) : MemStore S :=
  mkMemStore (<[t := mkThreadStore (items (mem_entry c t) ++ [d])
                      (next_seq (mem_entry c t) + 1)]> (threads c)) (tick c + 1).

Lemma mem_save_fork_eq p t s rc c :
  mem_save_fork uuid clock p t s rc c =
  (Ok (uuid (tick c)), mem_push c t (saved_data c p t s rc)).
Proof. done. Qed.
Lemma mem_save_eq t s rc c :
  mem_save uuid clock t s rc c = (Ok (uuid (tick c)), mem_push c t (saved_data c None t s rc)).
Proof. done. Qed.

Lemma mem_entry_push c t d t' :
  mem_entry (mem_push c t d) t' =
  if decide (t = t')
  then mkThreadStore (items (mem_entry c t) ++ [d]) (next_seq (mem_entry c t) + 1)
  else mem_entry c t'.
Proof. unfold mem_push. by rewrite mem_entry_insert. Qed.

Lemma elem_of_push c t d t' x :
  x ∈ items (mem_entry (mem_push c t d) t') <->
  x ∈ items (mem_entry c t') \/ (t = t' /\ x = d).
Proof.
  rewrite mem_entry_push. case_decide as Ht; simpl; [subst|naive_solver].
  rewrite elem_of_app list_elem_of_singleton. naive_solver.
Qed.

Lemma uuid_not_issued c t d :
  mem_inv c -> d ∈ items (mem_entry c t) -> cd_id d <> uuid (tick c).
Proof.
  intros Hi Hd Heq. destruct (mi_issued c Hi t d Hd) as (k & Hk & Hid & _).
  rewrite Hid in Heq. apply uuid_fresh in Heq. lia.
Qed.

Lemma mem_inv_push c p t s rc :
  mem_inv c -> mem_inv (mem_push c t (saved_data c p t s rc)).
Proof.
  intros Hi. split.
  - intros t' d [Hd|[<- ->]]%elem_of_push; simpl.
    + destruct (mi_issued c Hi t' d Hd) as (k & Hk & ? & ?). exists k. split; [lia|done].
    + exists (tick c). split; [lia|done].
  - intros t'. rewrite mem_entry_push. case_decide as Ht; [subst|apply Hi].
    simpl. rewrite fmap_app. apply NoDup_app. split; [apply Hi|]. split; [|apply NoDup_singleton].
    intros x (d & -> & Hd)%list_elem_of_fmap. simpl. rewrite list_elem_of_singleton.
    by eapply uuid_not_issued.
  - intros t1 t2 d1 d2 [H1|[<- ->]]%elem_of_push [H2|[<- ->]]%elem_of_push Heq.
    + by eapply mi_disjoint.
    + by destruct (uuid_not_issued c t1 d1).
    + by destruct (uuid_not_issued c t2 d2).
    + done.
  - intros t' d [Hd|[<- ->]]%elem_of_push; rewrite mem_entry_push.
    + pose proof (mi_seq c Hi t' d Hd). case_decide; [subst; simpl; lia|done].
    + rewrite decide_True //=. lia.
  - intros t' d [Hd|[<- ->]]%elem_of_push; [by eapply mi_thread|done].
Qed.

Lemma mem_added c p t s rc :
  mem_inv c ->
  added mem_inv mem_view c t (checkpoint_info_from_data (saved_data c p t s rc))
    (mem_push c t (saved_data c p t s rc)).
Proof.
  intros Hi. split_and!.
  - by apply mem_inv_push.
  - rewrite !view_perm mem_entry_push decide_True //=. rewrite fmap_app Permutation_app_comm.
    done.
  - intros t'. rewrite ids_view_perm. simpl. intros (d & Heq & Hd)%list_elem_of_fmap.
    by eapply uuid_not_issued.
  - intros t' Ht. unfold mem_view. rewrite mem_entry_push decide_False //.
Qed.

(** *** Deleting *)

Definition mem_drop (c : MemStore S) (t id : string) : MemStore S :=
  (mem_delete t id c).2.

Lemma mem_entry_drop c t id t' :
  mem_entry (mem_drop c t id) t' =
  if decide (t = t')
  then mkThreadStore (filter (fun d => cd_id d <> id) (items (mem_entry c t)))
         (next_seq (mem_entry c t))
  else mem_entry c t'.
Proof.
  unfold mem_drop, mem_delete. destruct (threads c !! t) as [st|] eqn:E; simpl.
  - rewrite mem_entry_insert. by unfold mem_entry; rewrite E.
  - case_decide; [subst|done]. unfold mem_entry. by rewrite E.
Qed.

Lemma elem_of_drop c t id t' x :
  x ∈ items (mem_entry (mem_drop c t id) t') -> x ∈ items (mem_entry c t').
Proof.
  rewrite mem_entry_drop. case_decide; [subst; simpl|done]. by intros [_ ?]%list_elem_of_filter.
Qed.

Lemma mem_inv_drop c t id : mem_inv c -> mem_inv (mem_drop c t id).
Proof.
  intros Hi.
  assert (tick (mem_drop c t id) = tick c) as Ht.
  { unfold mem_drop, mem_delete. by case_match. }
  split.
  - intros t' d Hd%elem_of_drop. rewrite Ht. by eapply mi_issued.
  - intros t'. rewrite mem_entry_drop. case_decide; [subst; simpl|by apply Hi].
    eapply sublist_NoDup; [by apply (mi_nodup c Hi t')|]. apply fmap_sublist, sublist_filter.
  - intros t1 t2 d1 d2 H1%elem_of_drop H2%elem_of_drop. by eapply mi_disjoint.
  - intros t' d Hd. assert (next_seq (mem_entry (mem_drop c t id) t') = next_seq (mem_entry c t'))
      as -> by (rewrite mem_entry_drop; case_decide; by subst).
    apply (mi_seq c Hi). by eapply elem_of_drop.
  - intros t' d Hd%elem_of_drop. by eapply mi_thread.
Qed.

Lemma mem_view_drop c t id :
  mem_view (mem_drop c t id) t = filter (fun s => ci_id s <> id) (mem_view c t).
Proof.
  unfold mem_view, ThreadStore.sorted. rewrite mem_entry_drop decide_True //=.
  rewrite -(filter_sort_by key_le key_le_total key_le_trans) filter_fmap_list. done.
Qed.

Lemma mem_view_drop_ne c t id t' : t' <> t -> mem_view (mem_drop c t id) t' = mem_view c t'.
Proof. intros Ht. unfold mem_view. by rewrite mem_entry_drop decide_False. Qed.

(** *** Reading *)

Lemma mem_find_view c t id :
  mem_inv c ->
  find_id id (mem_view c t) = checkpoint_info_from_data <$> ThreadStore.find (mem_entry c t) id.
Proof.
  intros Hi. destruct (ThreadStore.find (mem_entry c t) id) as [d|] eqn:E; simpl.
  - apply store_find_Some in E as [Hd <-].
    change (cd_id d) with (ci_id (checkpoint_info_from_data d)).
    apply find_id_elem; [rewrite ids_view_perm; apply Hi|].
    rewrite view_perm. by apply list_elem_of_fmap_2.
  - apply find_id_None. rewrite ids_view_perm. intros (d & -> & Hd)%list_elem_of_fmap.
    by rewrite store_find_elem in E; [..|apply Hi|].
Qed.

Lemma mem_snapshots_eq c t : mem_snapshots t c = (Ok (mem_view c t), c).
Proof. unfold mem_snapshots, mem_view, mem_entry. by destruct (threads c !! t). Qed.

Lemma mem_list_eq c t : mem_list t c = (Ok (ids (mem_view c t)), c).
Proof.
  rewrite ids_view. unfold mem_list, mem_entry. by destruct (threads c !! t).
Qed.

Lemma mem_last_eq c t :
  mem_last t c =
  (Ok ((fun s => (ci_state s, ci_recursion_count s)) <$> list.last (mem_view c t)), c).
Proof.
  unfold mem_last, mem_view, ThreadStore.sorted. rewrite fmap_last.
  rewrite (last_sort_by key_le key_le_total key_le_trans).
  rewrite -option_fmap_compose. unfold mem_entry, ThreadStore.last.
  by destruct (threads c !! t).
Qed.

Lemma mem_load_eq c t id :
  mem_inv c ->
  mem_load t id c = (ok_or (ci_state <$> find_id id (mem_view c t)) (not_found id), c).
Proof.
  intros Hi. rewrite mem_find_view // -option_fmap_compose. unfold mem_load, mem_entry.
  by destruct (threads c !! t).
Qed.

Global Program Instance memory_threaded_store :
    ThreadedStore (MemoryCheckpointer (S:=S) uuid clock) :=
  {| ts_inv := mem_inv; view := mem_view |}.
Next Obligation. intros c t Hi. rewrite ids_view_perm. apply Hi. Qed.
Next Obligation. intros c t Hi. apply mem_snapshots_eq. Qed.
Next Obligation. intros c t Hi. apply mem_list_eq. Qed.
Next Obligation. intros c t Hi. apply mem_last_eq. Qed.
Next Obligation. intros c t id Hi. by apply mem_load_eq. Qed.
Next Obligation.
  intros c t s rc Hi. exists (checkpoint_info_from_data (saved_data c None t s rc)). eexists.
  split; [apply mem_save_eq|]. split; [by apply mem_added|done].
Qed.
Next Obligation.
  intros c p t s rc Hi. exists (checkpoint_info_from_data (saved_data c p t s rc)). eexists.
  split; [apply mem_save_fork_eq|]. split; [by apply mem_added|done].
Qed.
Next Obligation.
  intros c t id Hi. exists (mem_drop c t id). split_and!.
  - unfold mem_drop; simpl. unfold mem_delete. by case_match.
  - by apply mem_inv_drop.
  - apply mem_view_drop.
  - intros t'. apply mem_view_drop_ne.
Qed.

(** *** Searching every thread *)

Lemma find_thread_Some (l : list (string * ThreadStore S)) id t d :
  find_thread l id = Some (t, d) -> exists st, (t, st) ∈ l /\ ThreadStore.find st id = Some d.
Proof.
  induction l as [|[t' st] l IH]; simpl; [done|]. case_match eqn:E.
  - intros [= -> ->]. exists st. split; [apply list_elem_of_here|done].
  - intros (st' & Hin & Hf)%IH. exists st'. split; [by apply list_elem_of_further|done].
Qed.

Lemma find_thread_None (l : list (string * ThreadStore S)) id t st :
  find_thread l id = None -> (t, st) ∈ l -> ThreadStore.find st id = None.
Proof.
  induction l as [|[t' st'] l IH]; simpl; [by intros _ ?%elem_of_nil|]. case_match eqn:E; [done|].
  intros Hn [[= -> ->]|Hin]%elem_of_cons; [done|by apply IH].
Qed.

Lemma entry_lookup c t (d : CheckpointData S) :
  d ∈ items (mem_entry c t) -> exists st, threads c !! t = Some st /\ mem_entry c t = st.
Proof.
  unfold mem_entry. destruct (threads c !! t) as [st|]; [by exists st|]. by intros ?%elem_of_nil.
Qed.

Lemma lookup_entry c t (st : ThreadStore S) : threads c !! t = Some st -> mem_entry c t = st.
Proof. unfold mem_entry. by intros ->. Qed.

Lemma find_thread_spec c id t d :
  mem_inv c ->
  find_thread (map_to_list (threads c)) id = Some (t, d) <->
  d ∈ items (mem_entry c t) /\ cd_id d = id.
Proof.
  intros Hi. split.
  - intros (st & Hst%elem_of_map_to_list & Hf)%find_thread_Some.
    apply lookup_entry in Hst as <-. by apply store_find_Some.
  - intros [Hd <-]. destruct (find_thread _ _) as [[t' d']|] eqn:E.
    + apply find_thread_Some in E as (st & Hst%elem_of_map_to_list & Hf).
      apply lookup_entry in Hst as <-. apply store_find_Some in Hf as [Hd' Hid].
      assert (t = t') as <- by (by eapply mi_disjoint). f_equal. f_equal.
      by apply (NoDup_fmap_elem_inj cd_id (items (mem_entry c t))); [apply Hi|..].
    + destruct (entry_lookup c t d Hd) as (st & Hst & <-).
      apply (find_thread_None _ _ t (mem_entry c t)) in E; [|by apply elem_of_map_to_list].
      rewrite store_find_elem in E; [done|apply Hi|done].
Qed.

Global Program Instance memory_lineage_store :
  LineageStore (MemoryCheckpointer (S:=S) uuid clock).
Next Obligation.
  intros c t s id Hi. simpl in *. rewrite mem_find_view //.
  intros (d & [Hd Hid]%store_find_Some & ->)%fmap_Some.
  unfold mem_checkpoint_lineage.
  by rewrite (proj2 (find_thread_spec c id t d Hi) (conj Hd Hid)).
Qed.
Next Obligation. done. Qed.
Next Obligation. done. Qed.
Next Obligation. done. Qed.
Next Obligation. done. Qed.

Global Instance memory_default_prune : DefaultPrune (MemoryCheckpointer (S:=S) uuid clock).
Proof. done. Qed.

(** *** Optimistic updates *)

Lemma edit_first_items (st : ThreadStore S) d f :
  NoDup (cd_id <$> items st) -> d ∈ items st ->
  items (ThreadStore.edit_first st (cd_id d) f) =
  (fun x => if decide (cd_id x = cd_id d) then f x else x) <$> items st.
Proof.
  intros Hnd Hd. unfold ThreadStore.edit_first.
  destruct (list_find_elem_of (fun x => cd_id x = cd_id d) (items st) d Hd eq_refl) as [[i x] E].
  rewrite E /=. apply list_find_Some in E as (Hi & Hid & _).
  apply list_eq. intros j. rewrite list_lookup_fmap.
  destruct (decide (i = j)) as [<-|Hij].
  - rewrite list_lookup_insert_eq; [|by eapply lookup_lt_Some]. by rewrite Hi /= decide_True.
  - rewrite list_lookup_insert_ne //. destruct (items st !! j) as [y|] eqn:Ej; [|done]. simpl.
    rewrite decide_False //. intros Hy. apply Hij.
    apply (NoDup_lookup _ i j (cd_id d) Hnd); by rewrite list_lookup_fmap ?Hi ?Ej /= ?Hid ?Hy.
Qed.

Definition edited (id : string) (s : S) (d : CheckpointData S) : CheckpointData S :=
  if decide (cd_id d = id) then CheckpointData.edit s d else d.

Lemma edited_fields id s d :
  cd_id (edited id s d) = cd_id d /\ cd_seq (edited id s d) = cd_seq d /\
  cd_timestamp (edited id s d) = cd_timestamp d /\ cd_thread_id (edited id s d) = cd_thread_id d.
Proof. unfold edited. by case_decide. Qed.

(** What a granted update does: every thread keeps its entries in order, and the
    one with the id gets the state and the next version. *)
Definition updated (c : MemStore S) (id : string) (s : S) (c' : MemStore S) : Prop :=
  tick c' = tick c /\
  forall t, items (mem_entry c' t) = edited id s <$> items (mem_entry c t) /\
    next_seq (mem_entry c' t) = next_seq (mem_entry c t).

Lemma mem_inv_updated c id s c' : mem_inv c -> updated c id s c' -> mem_inv c'.
Proof.
  intros Hi [Htick He]. 
  assert (forall t d, d ∈ items (mem_entry c' t) ->
    exists d0, d0 ∈ items (mem_entry c t) /\ d = edited id s d0) as Hinv.
  { intros t d. destruct (He t) as [-> _]. intros (d0 & -> & ?)%list_elem_of_fmap. by exists d0. }
  split.
  - intros t d (d0 & Hd & ->)%Hinv. destruct (edited_fields id s d0) as (-> & _ & -> & _).
    rewrite Htick. by eapply mi_issued.
  - intros t. destruct (He t) as [-> _]. rewrite -list_fmap_compose.
    rewrite (list_fmap_ext _ cd_id); [apply Hi|]. intros ? d _. apply edited_fields.
  - intros t1 t2 d1 d2 (e1 & H1 & ->)%Hinv (e2 & H2 & ->)%Hinv.
    destruct (edited_fields id s e1) as (-> & _), (edited_fields id s e2) as (-> & _).
    by eapply mi_disjoint.
  - intros t d (d0 & Hd & ->)%Hinv. destruct (edited_fields id s d0) as (_ & -> & _).
    destruct (He t) as [_ ->]. by eapply mi_seq.
  - intros t d (d0 & Hd & ->)%Hinv. destruct (edited_fields id s d0) as (_ & _ & _ & ->).
    by eapply mi_thread.
Qed.

(** The update of an entry that is there, and of one that is not. *)
Lemma update_locked_found c t d s ev :
  mem_inv c -> d ∈ items (mem_entry c t) ->
  if decide (cd_version d = ev)
  then exists c', update_locked (cd_id d) s ev c = (Ok (ev + 1)%N, c') /\ updated c (cd_id d) s c'
  else update_locked (cd_id d) s ev c =
         (Err (CheckpointVersionConflict (cd_id d) ev (cd_version d)), c).
Proof.
  intros Hi Hd. unfold update_locked.
  rewrite (proj2 (find_thread_spec c (cd_id d) t d Hi) (conj Hd eq_refl)).
  case_decide as Hv; [subst ev|by rewrite (proj2 (N.eqb_neq _ _))].
  rewrite N.eqb_refl. eexists. split; [done|]. split; [done|]. intros t'.
  rewrite mem_entry_insert. case_decide as Ht; [subst t'|].
  - rewrite edit_first_items; [|apply Hi|done]. split; [done|].
    unfold ThreadStore.edit_first. by repeat case_match.
  - split; [|done]. rewrite -{1}(list_fmap_id (items (mem_entry c t'))).
    apply list_fmap_ext. intros i x Hx%list_elem_of_lookup_2. unfold edited.
    rewrite decide_False //. intros Hid. apply Ht. by eapply (mi_disjoint c Hi).
Qed.

Lemma update_locked_missing c id s ev :
  mem_inv c -> (forall t, id ∉ ids (mem_view c t)) ->
  update_locked id s ev c = (Err (not_found id), c).
Proof.
  intros Hi Hn. unfold update_locked.
  destruct (find_thread _ _) as [[t d]|] eqn:E; [|done].
  apply find_thread_spec in E as [Hd <-]; [|done]. destruct (Hn t).
  rewrite ids_view_perm. by apply list_elem_of_fmap_2.
Qed.

(** ** The store as a state machine *)

Let M : Checkpointer S (MemStore S) := MemoryCheckpointer uuid clock.

(** One call of a state-changing operation of the trait, or one reading of the clock. *)
Inductive mem_step (c : MemStore S) : MemStore S -> Prop :=
| step_save t s rc : mem_step c (save_threaded M t s rc c).2
| step_fork p t s rc : mem_step c (save_fork_threaded M p t s rc c).2
| step_delete t id : mem_step c (delete_threaded M t id c).2
| step_update id s ev : mem_step c (update_state M id s ev c).2
| step_prune t mc ma now : mem_step c (prune M t mc ma now c).2
| step_clock : mem_step c (@utc_now _ (mem_clock clock) c).2.

Definition mem_reachable (c : MemStore S) : Prop := rtc mem_step mem_empty c.

Lemma update_locked_cases c id :
  mem_inv c ->
  (exists t d, d ∈ items (mem_entry c t) /\ cd_id d = id) \/ (forall t, id ∉ ids (mem_view c t)).
Proof.
  intros Hi. destruct (find_thread (map_to_list (threads c)) id) as [[t d]|] eqn:E.
  - left. exists t, d. by apply find_thread_spec in E.
  - right. intros t. rewrite ids_view_perm. intros (d & -> & Hd)%list_elem_of_fmap.
    by rewrite (proj2 (find_thread_spec c _ t d Hi) (conj Hd eq_refl)) in E.
Qed.

Lemma mem_inv_update c id s ev : mem_inv c -> mem_inv (update_locked id s ev c).2.
Proof.
  intros Hi. destruct (update_locked_cases c id Hi) as [(t & d & Hd & <-)|Hn].
  - pose proof (update_locked_found c t d s ev Hi Hd) as H. case_decide.
    + destruct H as (c' & -> & Hu). by eapply mem_inv_updated.
    + by rewrite H.
  - by rewrite update_locked_missing.
Qed.

Lemma mem_inv_clock c n : mem_inv c -> tick c <= n -> mem_inv (mkMemStore (threads c) n).
Proof.
  intros Hi Hn. split; try (by intros; eapply Hi).
  intros t d Hd. destruct (mi_issued c Hi t d Hd) as (k & Hk & ?). exists k. split; [simpl; lia|done].
Qed.

Lemma mem_step_inv c c' : mem_inv c -> mem_step c c' -> mem_inv c'.
Proof.
  intros Hi []; simpl.
  - by apply mem_inv_push.
  - by apply mem_inv_push.
  - by apply (mem_inv_drop c t id).
  - by apply mem_inv_update.
  - destruct (prune_law (MemoryCheckpointer uuid clock) t mc ma now c) as (n & c1 & E & H1 & _); [exact Hi|]. simpl in E. by rewrite E.
  - apply mem_inv_clock; [done|simpl; lia].
Qed.

Lemma mem_reachable_inv c : mem_reachable c -> mem_inv c.
Proof.
  unfold mem_reachable. intros H. pose proof mem_inv_empty as Hi. revert Hi.
  induction H; [done|]. intros Hi. by apply IHrtc, (mem_step_inv x).
Qed.

Lemma mem_view_sorted c t :
  StronglySorted (fun a b => (ci_timestamp a < ci_timestamp b)%Z \/
    (ci_timestamp a = ci_timestamp b /\ (ci_seq a <= ci_seq b)%N)) (mem_view c t).
Proof.
  unfold mem_view, ThreadStore.sorted.
  pose proof (sort_by_sorted key_le key_le_total key_le_trans (items (mem_entry c t))) as H.
  induction H as [|x l Hl IH Hx]; simpl; constructor; [done|].
  apply Forall_fmap. apply (Forall_impl _ _ _ Hx). intros y Hy. by apply key_le_spec in Hy.
Qed.

(** With a clock that does not go back, a new entry sorts after the old ones. *)
Lemma mem_view_push_monotone c p t s rc :
  (forall i j, i <= j -> (clock i <= clock j)%Z) -> mem_inv c ->
  mem_view (mem_push c t (saved_data c p t s rc)) t =
  mem_view c t ++ [checkpoint_info_from_data (saved_data c p t s rc)].
Proof.
  intros Hclock Hi. unfold mem_view, ThreadStore.sorted. rewrite mem_entry_push decide_True //=.
  rewrite sort_by_snoc_max ?fmap_app //. apply Forall_forall. intros d Hd.
  destruct (mi_issued c Hi t d Hd) as (k & Hk & _ & Hts). pose proof (mi_seq c Hi t d Hd) as Hs.
  assert (clock k <= clock (tick c))%Z by (apply Hclock; lia).
  rewrite -not_true_iff_false !key_le_spec. simpl. lia.
Qed.

End mem_facts.

(** ** What an optimistic update does to a history *)

Definition edited_info {S} (id : string) (s : S) (i : CheckpointInfo S) : CheckpointInfo S :=
  if decide (ci_id i = id)
  then mkCheckpointInfo (ci_id i) (ci_timestamp i) (ci_seq i) (ci_recursion_count i) s (ci_parent i)
  else i.

Lemma mem_view_updated {S} (c : MemStore S) id s c' t :
  updated c id s c' -> mem_view c' t = edited_info id s <$> mem_view c t.
Proof.
  intros [_ He]. unfold mem_view, ThreadStore.sorted. destruct (He t) as [-> _].
  rewrite (sort_by_fmap key_le).
  - rewrite -!list_fmap_compose. apply list_fmap_ext. intros _ d _. simpl.
    unfold edited, edited_info. simpl. by case_decide.
  - intros x y. unfold key_le.
    destruct (edited_fields id s x) as (_ & -> & -> & _).
    by destruct (edited_fields id s y) as (_ & -> & -> & _).
Qed.

(** ** Properties *)

Section properties.
Context {S : Type} (uuid : nat -> string) (clock : nat -> Z).
Notation M := (MemoryCheckpointer (S:=S) uuid clock).

(** whatever sequence of saves, forks, deletions, optimistic updates, prunings
    and clock readings a memory checkpointer goes through, in every reachable
    store each thread's history lists distinct ids, no id belongs to two
    threads, and the history is ordered by (timestamp, sequence number). *)
Theorem memory_store_invariant (c : MemStore S) :
  Inj (=) (=) uuid -> mem_reachable uuid clock c ->
  (forall t, snapshots_threaded M t c = (Ok (mem_view c t), c)) /\
  (forall t, NoDup (ids (mem_view c t))) /\
  (forall t1 t2 id, id ∈ ids (mem_view c t1) -> id ∈ ids (mem_view c t2) -> t1 = t2) /\
  (forall t, StronglySorted (fun a b => (ci_timestamp a < ci_timestamp b)%Z \/
    (ci_timestamp a = ci_timestamp b /\ (ci_seq a <= ci_seq b)%N)) (mem_view c t)).
Proof.
  intros Hu Hi%mem_reachable_inv; [|done]. split_and!.
  - intros t. apply mem_snapshots_eq.
  - intros t. rewrite ids_view_perm. apply Hi.
  - intros t1 t2 id. rewrite !ids_view_perm.
    intros (d1 & -> & H1)%list_elem_of_fmap (d2 & Heq & H2)%list_elem_of_fmap.
    by eapply mi_disjoint.
  - apply mem_view_sorted.
Qed.

(** a checkpoint saved on a thread can be read back by its id, in that thread,
    its lineage names the thread, and the save changes no other checkpoint and no
    other thread's history. *)
Theorem memory_save_load (c : MemStore S) t s rc :
  Inj (=) (=) uuid -> mem_reachable uuid clock c ->
  exists id c', save_threaded M t s rc c = (Ok id, c') /\
    load_threaded M t id c' = (Ok s, c') /\
    checkpoint_lineage M id c' = (Ok (Some (t, None)), c') /\
    (forall t' id', ~ (id' = id /\ t' = t) ->
       (load_threaded M t' id' c').1 = (load_threaded M t' id' c).1) /\
    (forall t', t' <> t -> (snapshots_threaded M t' c').1 = (snapshots_threaded M t' c).1).
Proof.
  intros Hu Hi%mem_reachable_inv; [|done].
  pose proof (Hi : ts_inv (cp := M) c) as Hts.
  destruct (save_law (cp := M) c t s rc Hts) as (info & c' & E & Ha & Hs & _ & Hp).
  pose proof Ha as (Hi' & _ & _ & Hframe). exists (ci_id info), c'.
  pose proof (fun t' id => find_id_added _ _ _ _ _ _ t' id Ha
                (fun t => view_nodup (cp := M) c' t Hi')) as Hfind.
  split; [done|]. split; [|split; [|split]].
  - rewrite (load_law (cp := M)) // Hfind decide_True //=. by rewrite Hs.
  - rewrite (lineage_law (cp := M) c' t info) ?Hp // Hfind decide_True //.
  - intros t' id' Hne. rewrite !(load_law (cp := M)) // Hfind decide_False //.
  - intros t' Ht. rewrite !(snapshots_law (cp := M)) // Hframe //.
Qed.

(** When the clock does not go back, a save is the newest entry of its thread:
    it is appended to the history and [last] returns its state and step count. *)
Theorem memory_last_is_newest (c : MemStore S) t s rc :
  Inj (=) (=) uuid -> (forall i j, i <= j -> (clock i <= clock j)%Z) ->
  mem_reachable uuid clock c ->
  exists info c', save_threaded M t s rc c = (Ok (ci_id info), c') /\
    snapshots_threaded M t c' = (Ok (mem_view c t ++ [info]), c') /\
    last_threaded M t c' = (Ok (Some (s, rc)), c').
Proof.
  intros Hu Hclock Hi%mem_reachable_inv; [|done].
  pose proof (mem_view_push_monotone uuid clock c None t s rc Hclock Hi) as Hv.
  eexists (checkpoint_info_from_data (saved_data uuid clock c None t s rc)), _.
  split; [apply mem_save_eq|]. cbn [snapshots_threaded last_threaded MemoryCheckpointer].
  rewrite mem_snapshots_eq mem_last_eq Hv last_snoc. done.
Qed.

(** optimistic concurrency: an update that is granted bumps the version by one
    and changes that checkpoint's state in place, and a second update made
    against the same version is refused with the version it lost to, leaving the
    store as it is. *)
Theorem memory_update_exclusive (c c1 : MemStore S) id s1 v v1 :
  Inj (=) (=) uuid -> mem_reachable uuid clock c ->
  update_state M id s1 v c = (Ok v1, c1) ->
  v1 = (v + 1)%N /\
  (forall t, mem_view c1 t = edited_info id s1 <$> mem_view c t) /\
  (exists t, load_threaded M t id c1 = (Ok s1, c1)) /\
  forall s2, update_state M id s2 v c1 = (Err (CheckpointVersionConflict id v (v + 1)), c1).
Proof.
  intros Hu Hi%mem_reachable_inv; [|done]. cbn [update_state MemoryCheckpointer]. intros E.
  destruct (update_locked_cases uuid clock c id Hi) as [(t & d & Hd & <-)|Hn]; last first.
  { by rewrite (update_locked_missing uuid clock) in E. }
  pose proof (update_locked_found uuid clock c t d s1 v Hi Hd) as H.
  case_decide as Hv; [|by rewrite H in E].
  destruct H as (c' & H & Hup). rewrite H in E. injection E as <- <-.
  assert (mem_inv uuid clock c') as Hi' by (by eapply mem_inv_updated).
  assert (CheckpointData.edit s1 d ∈ items (mem_entry c' t)) as Hd'.
  { destruct Hup as [_ Hup]. destruct (Hup t) as [-> _]. apply list_elem_of_fmap. exists d.
    unfold edited. by rewrite decide_True. }
  split; [done|]. split; [intros t'; by apply mem_view_updated|]. split.
  - exists t. cbn [load_threaded MemoryCheckpointer]. rewrite (mem_load_eq uuid clock) // (mem_find_view uuid clock) //.
    change (cd_id d) with (cd_id (CheckpointData.edit s1 d)).
    rewrite store_find_elem //. apply Hi'.
  - intros s2. pose proof (update_locked_found uuid clock c' t _ s2 v Hi' Hd') as H2.
    simpl in H2. subst v. rewrite decide_False in H2; [|lia]. done.
Qed.
End properties.

(** ** The properties at concrete stores *)

Definition demo_uuid (n : nat) : string := "id-" +:+ pretty n.
Definition demo_clock (n : nat) : Z := Z.of_nat (n / 2).

Global Instance demo_uuid_inj : Inj (=) (=) demo_uuid.
Proof. intros m n H. unfold demo_uuid in H. simpl in H. by simplify_eq. Qed.

Lemma demo_clock_monotone i j : i <= j -> (demo_clock i <= demo_clock j)%Z.
Proof. intros H. unfold demo_clock. apply inj_le. by apply Nat.Div0.div_le_mono. Qed.

(** Two threads, three saves and an update. *)
Definition demo_store : MemStore nat :=
  let c1 := (mem_save demo_uuid demo_clock "a" 10 1 mem_empty).2 in
  let c2 := (mem_save demo_uuid demo_clock "b" 20 1 c1).2 in
  (mem_save demo_uuid demo_clock "a" 30 2 c2).2.

Lemma demo_store_reachable : mem_reachable demo_uuid demo_clock demo_store.
Proof.
  eapply rtc_l; [apply (step_save _ _ _ "a" 10 1)|].
  eapply rtc_l; [apply (step_save _ _ _ "b" 20 1)|].
  eapply rtc_l; [apply (step_save _ _ _ "a" 30 2)|]. apply rtc_refl.
Qed.

Lemma memory_store_invariant_witness :
  NoDup (ids (mem_view demo_store "a")) /\ ids (mem_view demo_store "a") = ["id-0"; "id-2"].
Proof.
  split; [|by vm_compute].
  apply (memory_store_invariant demo_uuid demo_clock demo_store
           demo_uuid_inj demo_store_reachable).
Defined.

Lemma memory_save_load_witness :
  exists id c', save_threaded (MemoryCheckpointer demo_uuid demo_clock) "b" 40 5 demo_store =
    (Ok id, c') /\ load_threaded (MemoryCheckpointer demo_uuid demo_clock) "b" id c' = (Ok 40, c').
Proof.
  destruct (memory_save_load demo_uuid demo_clock demo_store "b" 40 5
              demo_uuid_inj demo_store_reachable) as (id & c' & H1 & H2 & _).
  exists id, c'. by split.
Defined.

Lemma memory_last_is_newest_witness :
  exists (info : CheckpointInfo nat) c', save_threaded (MemoryCheckpointer demo_uuid demo_clock) "a" 40 5 demo_store =
    (Ok (ci_id info), c') /\
    last_threaded (MemoryCheckpointer demo_uuid demo_clock) "a" c' = (Ok (Some (40, 5)), c').
Proof.
  destruct (memory_last_is_newest demo_uuid demo_clock demo_store "a" 40 5
              demo_uuid_inj demo_clock_monotone demo_store_reachable) as (info & c' & H1 & _ & H2).
  exists info, c'. by split.
Defined.

Lemma memory_update_exclusive_witness :
  let M := MemoryCheckpointer demo_uuid demo_clock in
  let c1 := (update_state M "id-1" 99 1 demo_store).2 in
  update_state M "id-1" 100 1 c1 = (Err (CheckpointVersionConflict "id-1" 1 2), c1).
Proof.
  intros M c1.
  apply (memory_update_exclusive demo_uuid demo_clock demo_store c1 "id-1" 99 1 2
           demo_uuid_inj demo_store_reachable). by vm_compute.
Defined.
