(* ===== verification/FileCheckpointer.v ===== *)
(** * The file checkpointer ([checkpointer.rs], third part)

    A [FileStore] is the checkpointer with its disk: the base directory (files, and
    one level of thread subdirectories that hold files), the shared sequence
    counter, the counter that numbers the calls to [Uuid::new_v4] and to the clock,
    and the number of I/O operations so far.

    [io] is the operating system: at each I/O operation it lets the operation run or
    makes it fail; a failing write leaves any bytes behind.  [order] is the order in
    which [read_dir] lists a directory.  [to_string_pretty] and [from_str] are
    serde_json on a checkpoint.  Path names are those of a Unix file system. *)

From stdpp Require Import gmap strings list pretty.
From Stdlib Require Import Ascii.
From S2P Require Import Prelude Json State Checkpoint MemCheckpointer.

(** ** Paths and names *)

(** [validate_segment] *)
Definition validate_segment (seg : string) : result GraphError () :=
  if seg =ₛ "" then Err (CheckpointError "checkpoint path segment must not be empty")
  else if str_contains ".." seg || str_contains "/" seg || str_contains "\" seg then
    Err (CheckpointError ("Invalid checkpoint identifier '" +:+ seg +:+ "': path traversal detected"))
  else if starts_with "/" seg then
    Err (CheckpointError ("Invalid checkpoint identifier '" +:+ seg +:+ "': absolute path not allowed"))
  else Ok ().

(** A directory the checkpointer looks into: the base or a subdirectory of it. *)
Inductive DirRef : Type :=
| BaseDir
| SubDir (name : string).
Global Instance dirref_eq_dec : EqDecision DirRef.
Proof. solve_decision. Defined.

Definition FilePath : Type := DirRef * string.

(** [self.directory.join(thread)]: joining "." stays in the base directory. *)
Definition join_base (name : string) : DirRef :=
  if name =ₛ "." then BaseDir else SubDir name.

(** The stem of a name whose [Path::extension] is "json" (a name that is nothing but
    an extension has none). *)
Definition json_stem (name : string) : option string :=
  match strip_suffix ".json" name with
  | Some "" => None
  | stem => stem
  end.
Definition is_json (name : string) : bool :=
  match json_stem name with Some _ => true | None => false end.

(** [path.with_extension("json.tmp")] on a ".json" name. *)
Definition tmp_name (name : string) : string := default name (json_stem name) +:+ ".json.tmp".

(** [format!("{seq}-{id}.json")] *)
Definition file_name (seq : N) (id : string) : string :=
  pretty seq +:+ "-" +:+ id +:+ ".json".

(** ** The sequence counter on disk *)

Definition parse_u64 (s : string) : option N := parse_unsigned 64 s.

(** [&name[..name.find('-')?]] *)
Fixpoint before_dash (s : string) : option string :=
  match s with
  | EmptyString => None
  | String c s' => if bool_decide (c = "-"%char) then Some "" else String c <$> before_dash s'
  end.

Definition seq_of_name (name : string) : option N := before_dash name ≫= parse_u64.

(** The closure [scan] over the names of one directory. *)
Definition scan (names : list string) (max_seq : N) : N :=
  foldl (fun max_seq name => match seq_of_name name with
                             | Some seq => N.max max_seq seq
                             | None => max_seq
                             end) max_seq names.

(** [AtomicU64::fetch_add] wraps. *)
Definition fetch_add_1 (n : N) : N := ((n + 1) mod 2 ^ 64)%N.

(** ** The disk *)

Inductive BaseEntry : Type :=
| BFile (content : string)
| BDir (files : gmap string string).

Record FileStore := mkFileStore {
  fc_base : gmap string BaseEntry;
  fc_next_seq : N;
  fc_tick : nat;
  fc_io : N;
}.

Inductive FileOp : Type :=
| OpMkdir (d : DirRef)
| OpReadDir (d : DirRef)
| OpNextEntry (d : DirRef)
| OpCreate (p : FilePath)
| OpWrite (p : FilePath)
| OpFsync (p : FilePath)
| OpRename (p q : FilePath)
| OpSyncDir (d : DirRef)
| OpRead (p : FilePath)
| OpRemove (p : FilePath).

Definition os_not_found : string := "No such file or directory (os error 2)".
Definition os_exists : string := "File exists (os error 17)".
Definition os_not_dir : string := "Not a directory (os error 20)".
Definition os_is_dir : string := "Is a directory (os error 21)".

(** A directory's names, each with the content of a file or [None] for a directory. *)
Definition entries (d : DirRef) (base : gmap string BaseEntry)
    : option (gmap string (option string)) :=
  match d with
  | BaseDir => Some ((fun e => match e with BFile b => Some b | BDir _ => None end) <$> base)
  | SubDir t =>
      match base !! t with
      | Some (BDir files) => Some (Some <$> files)
      | _ => None
      end
  end.

Definition entry (p : FilePath) (base : gmap string BaseEntry) : option (option string) :=
  entries p.1 base ≫= (.!! p.2).

(** [dir.exists()]: a file of that name exists too. *)
Definition dir_exists (d : DirRef) (base : gmap string BaseEntry) : bool :=
  match d with BaseDir => true | SubDir t => bool_decide (is_Some (base !! t)) end.
Definition path_exists (p : FilePath) (base : gmap string BaseEntry) : bool :=
  bool_decide (is_Some (entry p base)).
Definition is_file (p : FilePath) (base : gmap string BaseEntry) : bool :=
  match entry p base with Some (Some _) => true | _ => false end.

(** The content of a file. *)
Definition get_file (base : gmap string BaseEntry) (p : FilePath) : option string :=
  match entry p base with Some (Some b) => Some b | _ => None end.

(** The base directory after a file is put at, or removed from, a path whose
    directory exists. *)
Definition alter_file (f : gmap string string -> gmap string string)
    (g : gmap string BaseEntry -> gmap string BaseEntry) (d : DirRef)
    (base : gmap string BaseEntry) : gmap string BaseEntry :=
  match d with
  | BaseDir => g base
  | SubDir t =>
      match base !! t with
      | Some (BDir files) => <[t := BDir (f files)]> base
      | _ => base
      end
  end.
Definition put_file (p : FilePath) (bytes : string) : gmap string BaseEntry -> gmap string BaseEntry :=
  alter_file <[p.2 := bytes]> <[p.2 := BFile bytes]> p.1.
Definition drop_file (p : FilePath) : gmap string BaseEntry -> gmap string BaseEntry :=
  alter_file (base.delete p.2) (base.delete p.2) p.1.

(** Putting a file at a path: its directory must exist and the name not be taken by a
    directory. *)
Definition can_put (p : FilePath) (base : gmap string BaseEntry) : option string :=
  match entries p.1 base with
  | None => Some (if dir_exists p.1 base then os_not_dir else os_not_found)
  | Some names => match names !! p.2 with Some None => Some os_is_dir | _ => None end
  end.

(** The base directory after [create_dir_all], which refuses a name a file has. *)
Definition make_dir (d : DirRef) (base : gmap string BaseEntry)
    : result string (gmap string BaseEntry) :=
  match d with
  | BaseDir => Ok base
  | SubDir t =>
      match base !! t with
      | None => Ok (<[t := BDir ∅]> base)
      | Some (BDir _) => Ok base
      | Some (BFile _) => Err os_exists
      end
  end.

(** ** The operations *)

Section file.
Context {S : Type} (uuid : nat -> string) (clock : nat -> Z).
Context (to_string_pretty : CheckpointData S -> result string string).
Context (from_str : string -> result string (CheckpointData S)).
Context (io : N -> FileOp -> IoResult) (order : N -> list string -> list string).

Definition set_base (base : gmap string BaseEntry) (fs : FileStore) : FileStore :=
  mkFileStore base (fc_next_seq fs) (fc_tick fs) (fc_io fs + 1).

(** One I/O operation: it fails by itself ([io]), or because of what is on the disk. *)
Definition disk_op {A} (op : FileOp) (msg : string)
    (run : gmap string BaseEntry -> result string (A * gmap string BaseEntry))
    (broken : string -> gmap string BaseEntry -> gmap string BaseEntry)
    : Act FileStore GraphError A := fun fs =>
  match io (fc_io fs) op with
  | IoFails e left_behind =>
      (Err (CheckpointError (msg +:+ e)), set_base (broken left_behind (fc_base fs)) fs)
  | IoDone =>
      match run (fc_base fs) with
      | Ok (a, base) => (Ok a, set_base base fs)
      | Err e => (Err (CheckpointError (msg +:+ e)), set_base (fc_base fs) fs)
      end
  end.

Definition read_op {A} (op : FileOp) (msg : string)
    (run : gmap string BaseEntry -> result string A) : Act FileStore GraphError A :=
  disk_op op msg (fun base => a ← run base; Ok (a, base)) (fun _ base => base).

Definition read_dir (d : DirRef) (msg : string) : Act FileStore GraphError (list string) := fun fs =>
  read_op (OpReadDir d) msg (fun base =>
    match entries d base with
    | Some names => Ok (order (fc_io fs) (map_to_list names).*1)
    | None => Err (if dir_exists d base then os_not_dir else os_not_found)
    end) fs.

Definition next_entry (d : DirRef) : Act FileStore GraphError () :=
  read_op (OpNextEntry d) "Read dir entry error: " (fun _ => Ok ()).

Definition read_to_string (p : FilePath) : Act FileStore GraphError string :=
  read_op (OpRead p) "Read error: " (fun base =>
    match entry p base with
    | Some (Some bytes) => Ok bytes
    | Some None => Err os_is_dir
    | None => Err os_not_found
    end).

(** The creation, the write and the fsync of a file, each of which may fail. *)
Definition write_op (op : FileOp) (msg : string) (p : FilePath) (bytes : string)
    : Act FileStore GraphError () :=
  disk_op op msg
    (fun base => match can_put p base with
                 | Some e => Err e
                 | None => Ok ((), put_file p bytes base)
                 end)
    (fun left_behind base => match can_put p base with
                             | Some _ => base
                             | None => put_file p left_behind base
                             end).

Definition create_dir_all (d : DirRef) : Act FileStore GraphError () :=
  disk_op (OpMkdir d) "Create dir error: " (fun base => base' ← make_dir d base; Ok ((), base'))
    (fun _ base => base).

Definition rename (p q : FilePath) : Act FileStore GraphError () :=
  disk_op (OpRename p q) "Atomic rename error: " (fun base =>
    match get_file base p, can_put q base with
    | Some bytes, None => Ok ((), put_file q bytes (drop_file p base))
    | None, _ => Err os_not_found
    | Some _, Some e => Err e
    end) (fun _ base => base).

Definition remove_file (msg : string) (p : FilePath) : Act FileStore GraphError () :=
  disk_op (OpRemove p) msg (fun base =>
    match entry p base with
    | Some (Some _) => Ok ((), drop_file p base)
    | Some None => Err os_is_dir
    | None => Err os_not_found
    end) (fun _ base => base).

(** A test on the disk, which does not fail. *)
Definition test {A} (f : gmap string BaseEntry -> A) : Act FileStore GraphError A := fun fs =>
  (Ok (f (fc_base fs)), fs).

Definition checked {A} (r : result GraphError A) : Act FileStore GraphError A := act_of_result r.

(** *** Opening *)

(** [entries.flatten()]: an entry whose reading fails is skipped. *)
Fixpoint flatten_entries (d : DirRef) (names : list string)
    : Act FileStore GraphError (list string) :=
  match names with
  | [] => mret []
  | name :: names' =>
      read ← act_ok (next_entry d);
      rest ← flatten_entries d names';
      mret (match read with Some _ => name :: rest | None => rest end)
  end.

Definition scan_dir (d : DirRef) (max_seq : N) : Act FileStore GraphError N :=
  listed ← act_ok (read_dir d "");
  match listed with
  | None => mret max_seq
  | Some names => names ← flatten_entries d names; mret (scan names max_seq)
  end.

Fixpoint scan_threads (names : list string) (max_seq : N) : Act FileStore GraphError N :=
  match names with
  | [] => mret max_seq
  | name :: names' =>
      dir ← test (fun base => match base !! name with Some (BDir _) => true | _ => false end);
      max_seq ← (if dir : bool then scan_dir (SubDir name) max_seq else mret max_seq);
      scan_threads names' max_seq
  end.

Definition seed_seq_from_dir : Act FileStore GraphError N :=
  max_seq ← scan_dir BaseDir 0;
  listed ← act_ok (read_dir BaseDir "");
  match listed with
  | None => mret max_seq
  | Some names => names ← flatten_entries BaseDir names; scan_threads names max_seq
  end.

(** [FileCheckpointer::new] on a directory that may not exist yet; [tick] and [io0]
    number the calls made before. *)
Definition new (directory : option (gmap string BaseEntry)) (dir_name : string) (tick : nat) (io0 : N)
    : result GraphError FileStore :=
  fs ← (match directory with
        | Some base => Ok (mkFileStore base 0 tick io0)
        | None =>
            match io io0 (OpMkdir BaseDir) with
            | IoFails e _ =>
                Err (CheckpointError ("Failed to create directory '" +:+ dir_name +:+ "': " +:+ e))
            | IoDone => Ok (mkFileStore ∅ 0 tick (io0 + 1))
            end
        end);
  match seed_seq_from_dir fs with
  | (Ok seq, fs) => Ok (mkFileStore (fc_base fs) seq (fc_tick fs) (fc_io fs))
  | (Err e, _) => Err e
  end.

(** *** Finding *)

Definition legacy_flat_path (id : string) : result GraphError FilePath :=
  validate_segment id ;; Ok (BaseDir, id +:+ ".json").

Definition thread_dir (thread : string) : result GraphError DirRef :=
  validate_segment thread ;; Ok (join_base thread).

Definition names_id (id name : string) : bool :=
  match json_stem name with Some stem => ends_with ("-" +:+ id) stem | None => false end.

(** The loop of [find_file]: the read of the end of the listing may fail too. *)
Fixpoint find_entry (d : DirRef) (id : string) (names : list string)
    : Act FileStore GraphError (option FilePath) :=
  next_entry d ;;
  match names with
  | [] => mret None
  | name :: names' => if names_id id name then mret (Some (d, name)) else find_entry d id names'
  end.

Definition find_file (d : DirRef) (id : string) : Act FileStore GraphError (option FilePath) :=
  found ← test (dir_exists d);
  if negb found then mret None
  else names ← read_dir d "Read dir error: "; find_entry d id names.

Definition read_data (p : FilePath) : Act FileStore GraphError (CheckpointData S) :=
  json ← read_to_string p;
  checked (map_err (fun e => CheckpointError ("Deserialize error: " +:+ e)) (from_str json)).

Definition resolve_data (thread id : string)
    : Act FileStore GraphError (option (FilePath * CheckpointData S)) :=
  checked (validate_segment id) ;;
  checked (validate_segment thread) ;;
  legacy ← (if thread =ₛ DEFAULT_THREAD then
              legacy ← checked (legacy_flat_path id);
              there ← test (path_exists legacy);
              mret (if there : bool then Some legacy else None)
            else mret None);
  match legacy with
  | Some legacy => data ← read_data legacy; mret (Some (legacy, data))
  | None =>
      dir ← checked (thread_dir thread);
      found ← find_file dir id;
      match found with
      | Some path => data ← read_data path; mret (Some (path, data))
      | None => mret None
      end
  end.

(** *** Writing *)

(** [atomic_write]; the fsync of the parent directory is best effort. *)
Definition atomic_write (path : FilePath) (json : string) : Act FileStore GraphError () :=
  let tmp_path := (path.1, tmp_name path.2) in
  write_op (OpCreate tmp_path) "Create error: " tmp_path "" ;;
  write_op (OpWrite tmp_path) "Write error: " tmp_path json ;;
  write_op (OpFsync tmp_path) "Fsync error: " tmp_path json ;;
  rename tmp_path path ;;
  act_ok (read_op (OpSyncDir path.1) "" (fun _ => Ok ())) ;;
  mret ().

(** [self.next_seq.fetch_add(1)] *)
Definition fetch_seq : Act FileStore GraphError N := fun fs =>
  (Ok (fc_next_seq fs),
   mkFileStore (fc_base fs) (fetch_add_1 (fc_next_seq fs)) (fc_tick fs) (fc_io fs)).

(** [CheckpointData::with_progress]: a fresh id and the time. *)
Definition fresh_data (state : S) (seq : N) (recursion_count : nat)
    : Act FileStore GraphError (CheckpointData S) := fun fs =>
  (Ok (CheckpointData.with_progress (uuid (fc_tick fs)) (clock (fc_tick fs)) state seq recursion_count),
   mkFileStore (fc_base fs) (fc_next_seq fs) (fc_tick fs + 1) (fc_io fs)).

Definition serialize (data : CheckpointData S) : Act FileStore GraphError string :=
  checked (map_err (fun e => CheckpointError ("Serialize error: " +:+ e)) (to_string_pretty data)).

Definition file_save_threaded (thread : string) (state : S) (recursion_count : nat)
    : Act FileStore GraphError string :=
  checked (validate_segment thread) ;;
  seq ← fetch_seq;
  data ← fresh_data state seq recursion_count;
  let data := CheckpointData.set_lineage (Some thread) (cd_parent_id data) data in
  let id := cd_id data in
  dir ← checked (thread_dir thread);
  create_dir_all dir ;;
  let path := (dir, file_name seq id) in
  json ← serialize data;
  atomic_write path json ;;
  mret id.

Definition file_save_fork_threaded (parent_id : option string) (thread : string) (state : S)
    (recursion_count : nat) : Act FileStore GraphError string :=
  checked (validate_segment thread) ;;
  seq ← fetch_seq;
  data ← fresh_data state seq recursion_count;
  let data := CheckpointData.set_lineage (Some thread) parent_id data in
  let id := cd_id data in
  dir ← checked (thread_dir thread);
  create_dir_all dir ;;
  let path := (dir, file_name seq id) in
  json ← serialize data;
  atomic_write path json ;;
  mret id.

(** *** Listing *)

Definition SortKey : Type := Z * N * string.

(** The derived order of the tuple [(i64, u64, String)]. *)
Definition sort_key_le (a b : SortKey) : bool :=
  let '(ta, sa, ia) := a in
  let '(tb, sb, ib) := b in
  (ta <? tb)%Z || ((ta =? tb)%Z && ((sa <? sb)%N || ((sa =? sb)%N && String.leb ia ib))).

Fixpoint collect_keys (d : DirRef) (names : list string) : Act FileStore GraphError (list SortKey) :=
  next_entry d ;;
  match names with
  | [] => mret []
  | name :: names' =>
      file ← test (is_file (d, name));
      if negb file || negb (is_json name) then collect_keys d names'
      else
        data ← read_data (d, name);
        items ← collect_keys d names';
        mret ((cd_timestamp data, cd_seq data, cd_id data) :: items)
  end.

Fixpoint collect_dirs (dirs : list DirRef) : Act FileStore GraphError (list SortKey) :=
  match dirs with
  | [] => mret []
  | d :: dirs' =>
      found ← test (dir_exists d);
      if negb found then collect_dirs dirs'
      else
        names ← read_dir d "Read dir error: ";
        items ← collect_keys d names;
        rest ← collect_dirs dirs';
        mret (items ++ rest)
  end.

Definition sorted_ids (thread : string) : Act FileStore GraphError (list SortKey) :=
  checked (validate_segment thread) ;;
  dir ← checked (thread_dir thread);
  items ← collect_dirs ((if thread =ₛ DEFAULT_THREAD then [BaseDir] else []) ++ [dir]);
  mret (sort_by sort_key_le items).

Definition found_or {A} (checkpoint_id : string) (o : option A) : Act FileStore GraphError A :=
  checked (ok_or o (not_found checkpoint_id)).

Definition file_load_threaded (thread checkpoint_id : string) : Act FileStore GraphError S :=
  resolved ← resolve_data thread checkpoint_id;
  data ← found_or checkpoint_id resolved;
  mret (cd_state data.2).

Definition file_list_threaded (thread : string) : Act FileStore GraphError (list string) :=
  items ← sorted_ids thread;
  mret (snd <$> items).

Definition file_last_threaded (thread : string) : Act FileStore GraphError (option (S * nat)) :=
  items ← sorted_ids thread;
  match list.last items with
  | None => mret None
  | Some (_, last_id) =>
      resolved ← resolve_data thread last_id;
      data ← found_or last_id resolved;
      mret (Some (cd_state data.2, cd_recursion_count data.2))
  end.

Definition file_snapshots_threaded (thread : string)
    : Act FileStore GraphError (list (CheckpointInfo S)) :=
  ids ← sorted_ids thread;
  act_map (fun key : SortKey =>
    resolved ← resolve_data thread key.2;
    data ← found_or key.2 resolved;
    mret (checkpoint_info_from_data data.2)) ids.

(** *** Deleting, pruning, editing *)

Definition file_delete_threaded (thread checkpoint_id : string) : Act FileStore GraphError () :=
  checked (validate_segment thread) ;;
  checked (validate_segment checkpoint_id) ;;
  (if thread =ₛ DEFAULT_THREAD then
     legacy ← checked (legacy_flat_path checkpoint_id);
     there ← test (path_exists legacy);
     if there : bool then remove_file "Delete error: " legacy else mret ()
   else mret ()) ;;
  dir ← checked (thread_dir thread);
  found ← find_file dir checkpoint_id;
  match found with
  | Some path => remove_file "Delete error: " path
  | None => mret ()
  end.

Definition file_prune (thread : string) (max_count : option nat) (max_age_secs : option Z) (now : Z)
    : Act FileStore GraphError nat :=
  ids ← sorted_ids thread;
  let ordered := (fun key : SortKey => (key.2, key.1.1)) <$> ids in
  let to_delete := retention_trim_ids ordered max_count max_age_secs now in
  act_iter (fun id => file_delete_threaded thread id) to_delete ;;
  mret (length to_delete).

Definition file_update_state (checkpoint_id : string) (state : S) (expected_version : N)
    : Act FileStore GraphError N :=
  resolved ← resolve_data DEFAULT_THREAD checkpoint_id;
  found ← found_or checkpoint_id resolved;
  let '(resolved_path, data) := found in
  if negb (cd_version data =? expected_version)%N then
    act_fail (CheckpointVersionConflict checkpoint_id expected_version (cd_version data))
  else
    let data := CheckpointData.edit state data in
    dir ← checked (thread_dir DEFAULT_THREAD);
    let path := (dir, file_name (cd_seq data) checkpoint_id) in
    json ← serialize data;
    atomic_write path json ;;
    legacy ← checked (legacy_flat_path checkpoint_id);
    (if bool_decide (resolved_path = legacy)
     then remove_file "Delete legacy file: " resolved_path else mret ()) ;;
    mret (cd_version data).

(** *** Lineage *)

(** The directories of the base, up to the first entry that cannot be read. *)
Fixpoint thread_candidates (names : list string) : Act FileStore GraphError (list string) :=
  match names with
  | [] => mret []
  | name :: names' =>
      read ← act_ok (next_entry BaseDir);
      match read with
      | None => mret []
      | Some _ =>
          dir ← test (fun base => match base !! name with Some (BDir _) => true | _ => false end);
          rest ← thread_candidates names';
          mret (if dir : bool then name :: rest else rest)
      end
  end.

Fixpoint probe_threads (checkpoint_id : string) (candidates : list string)
    : Act FileStore GraphError (option (string * option string)) :=
  match candidates with
  | [] => mret None
  | thread :: candidates' =>
      resolved ← resolve_data thread checkpoint_id;
      match resolved with
      | Some (_, data) => mret (Some (thread, cd_parent_id data))
      | None => probe_threads checkpoint_id candidates'
      end
  end.

Definition file_checkpoint_lineage (checkpoint_id : string)
    : Act FileStore GraphError (option (string * option string)) :=
  listed ← act_ok (read_dir BaseDir "");
  candidates ← match listed with Some names => thread_candidates names | None => mret [] end;
  probe_threads checkpoint_id (DEFAULT_THREAD :: candidates).

(** *** The trait object *)

Definition FileCheckpointer : Checkpointer S FileStore := {|
  save := file_save_threaded DEFAULT_THREAD;
  load := file_load_threaded DEFAULT_THREAD;
  list_ids := file_list_threaded DEFAULT_THREAD;
  delete := file_delete_threaded DEFAULT_THREAD;
  last := file_last_threaded DEFAULT_THREAD;
  snapshots := file_snapshots_threaded DEFAULT_THREAD;
  update_state := file_update_state;
  save_threaded := file_save_threaded;
  save_fork_threaded := file_save_fork_threaded;
  load_threaded := file_load_threaded;
  list_threaded := file_list_threaded;
  delete_threaded := file_delete_threaded;
  last_threaded := file_last_threaded;
  snapshots_threaded := file_snapshots_threaded;
  checkpoint_lineage := file_checkpoint_lineage;
  prune := file_prune;
  snapshots_page_threaded := Default.snapshots_page_threaded file_snapshots_threaded;
  snapshots_page := Default.snapshots_page (Default.snapshots_page_threaded file_snapshots_threaded);
|}.

(** [chrono::Utc::now]: one more reading of the clock. *)
Global Instance file_clock : Clock FileStore := fun fs =>
  (Ok (clock (fc_tick fs)),
   mkFileStore (fc_base fs) (fc_next_seq fs) (fc_tick fs + 1) (fc_io fs)).

End file.
