(* ===== verification/FileCheckpointerFacts.v ===== *)
(** * The file checkpointer's disk

    Names: a checkpoint's file is recognised by its id ([names_id_file_name]) and a
    temporary file is never taken for a checkpoint ([tmp_not_json]).  Writing: what
    [atomic_write] leaves on the disk whatever the operating system does
    ([atomic_write_spec]), and what it does when nothing fails ([atomic_write_quiet]). *)

From stdpp Require Import gmap strings list pretty.
From S2P Require Import Prelude Json State Checkpoint MemCheckpointer FileCheckpointer.

(** ** Names *)

Lemma json_stem_Some name st : json_stem name = Some st <-> name = st +:+ ".json" /\ st <> "".
Proof.
  unfold json_stem. destruct (strip_suffix ".json" name) as [r|] eqn:E.
  - apply strip_suffix_Some in E as ->. destruct r as [|c r].
    + split; [done|]. intros [H Hne]. by apply (string_app_inj_r "" st) in H as [<- _].
    + split; [by intros [= <-]|]. intros [H _]. apply string_app_inj_r in H as [-> _]; done.
  - split; [done|]. intros [H _]. apply strip_suffix_Some in H. congruence.
Qed.

Lemma is_json_spec name : is_json name = true <-> exists st, json_stem name = Some st.
Proof. unfold is_json. destruct (json_stem name); naive_solver. Qed.

Lemma json_stem_file_name seq id :
  json_stem (file_name seq id) = Some (pretty seq +:+ "-" +:+ id).
Proof.
  apply json_stem_Some. split; [unfold file_name; by rewrite !string_app_assoc|].
  intros H%(f_equal String.length). rewrite !length_string_app in H. cbn in H. lia.
Qed.

Lemma is_json_file_name seq id : is_json (file_name seq id) = true.
Proof. unfold is_json. by rewrite json_stem_file_name. Qed.

Lemma names_id_file_name id seq id' :
  String.length id = String.length id' -> names_id id (file_name seq id') = bool_decide (id' = id).
Proof.
  intros Hl. unfold names_id. rewrite json_stem_file_name. apply eq_bool_prop_intro.
  rewrite bool_decide_spec. split.
  - intros [r H]%Is_true_true%ends_with_true.
    apply string_app_inj_r in H as [_ H]; [|by rewrite !length_string_app Hl].
    by apply (string_app_inj_r "-" "-") in H as [_ ->].
  - intros ->. apply Is_true_true, ends_with_true. by exists (pretty seq).
Qed.

Lemma file_name_id seq id seq' id' :
  String.length id = String.length id' -> file_name seq id = file_name seq' id' -> id = id'.
Proof.
  intros Hl H. pose proof (names_id_file_name id seq' id' Hl) as Hn.
  rewrite -H names_id_file_name // bool_decide_true // in Hn. symmetry in Hn.
  by apply bool_decide_eq_true in Hn.
Qed.

Lemma tmp_not_json name : is_json (tmp_name name) = false.
Proof.
  apply not_true_is_false. intros [st [H _]%json_stem_Some]%is_json_spec.
  apply (f_equal last_char) in H. unfold tmp_name in H.
  by rewrite !last_char_app_r in H.
Qed.

(** ** Files after a write *)

Lemma can_put_None p base :
  can_put p base = None <->
  exists names, entries p.1 base = Some names /\ names !! p.2 <> Some None.
Proof.
  unfold can_put. destruct (entries p.1 base) as [names|].
  - split; [|intros (? & [= <-] & Hn); by destruct (names !! p.2) as [[b|]|]].
    intros H. exists names. split; [done|]. by destruct (names !! p.2) as [[b|]|].
  - split; [done|]. by intros (? & ? & _).
Qed.

Lemma get_file_Some base p bytes :
  get_file base p = Some bytes <->
  exists names, entries p.1 base = Some names /\ names !! p.2 = Some (Some bytes).
Proof.
  unfold get_file, entry. destruct (entries p.1 base) as [names|]; cbn.
  - split; [|by intros (? & [= <-] & ->)]. intros H. exists names. split; [done|].
    destruct (names !! p.2) as [[b|]|]; congruence.
  - split; [done|]. by intros (? & ? & _).
Qed.

Lemma entries_put p bytes base d :
  can_put p base = None ->
  entries d (put_file p bytes base) =
  if bool_decide (d = p.1) then <[p.2 := Some bytes]> <$> entries d base else entries d base.
Proof.
  rewrite can_put_None. destruct p as [[|t] n]; cbn; intros (names & E & Hn).
  - injection E as <-. destruct d as [|t']; cbn.
    + by rewrite fmap_insert.
    + rewrite bool_decide_false //. destruct (decide (t' = n)) as [->|Ht].
      * rewrite lookup_insert_eq. rewrite lookup_fmap in Hn. by destruct (base !! n) as [[]|].
      * by rewrite lookup_insert_ne.
  - destruct (base !! t) as [[|files]|] eqn:Et; try done. destruct d as [|t']; cbn.
    + rewrite bool_decide_false // fmap_insert insert_id //. by rewrite lookup_fmap Et.
    + destruct (decide (t' = t)) as [->|Ht].
      * rewrite lookup_insert_eq bool_decide_true // Et /=. by rewrite fmap_insert.
      * rewrite lookup_insert_ne // bool_decide_false //. congruence.
Qed.

Lemma entries_drop p bytes base d :
  get_file base p = Some bytes ->
  entries d (drop_file p base) =
  if bool_decide (d = p.1) then base.delete p.2 <$> entries d base else entries d base.
Proof.
  rewrite get_file_Some. destruct p as [[|t] n]; cbn; intros (names & E & Hn).
  - injection E as <-. destruct d as [|t']; cbn.
    + by rewrite fmap_delete.
    + rewrite bool_decide_false //. destruct (decide (t' = n)) as [->|Ht].
      * rewrite lookup_delete_eq. rewrite lookup_fmap in Hn. by destruct (base !! n) as [[]|].
      * by rewrite lookup_delete_ne.
  - destruct (base !! t) as [[|files]|] eqn:Et; try done. destruct d as [|t']; cbn.
    + rewrite bool_decide_false // fmap_insert insert_id //. by rewrite lookup_fmap Et.
    + destruct (decide (t' = t)) as [->|Ht].
      * rewrite lookup_insert_eq bool_decide_true // Et /=. by rewrite fmap_delete.
      * rewrite lookup_insert_ne // bool_decide_false //. congruence.
Qed.

Lemma get_file_put p bytes base q :
  can_put p base = None ->
  get_file (put_file p bytes base) q = if bool_decide (q = p) then Some bytes else get_file base q.
Proof.
  intros Hp. unfold get_file, entry. rewrite entries_put //. destruct p as [d n], q as [d' n']; cbn.
  case_bool_decide as Hd; [subst d'|rewrite bool_decide_false //; congruence].
  apply can_put_None in Hp as (names & E & _). cbn in E. rewrite E /=.
  destruct (decide (n' = n)) as [->|Hn].
  - by rewrite lookup_insert_eq bool_decide_true.
  - rewrite lookup_insert_ne // bool_decide_false //. congruence.
Qed.

Lemma get_file_drop p bytes base q :
  get_file base p = Some bytes ->
  get_file (drop_file p base) q = if bool_decide (q = p) then None else get_file base q.
Proof.
  intros Hp. unfold get_file, entry. rewrite (entries_drop _ bytes) //.
  destruct p as [d n], q as [d' n']; cbn.
  case_bool_decide as Hd; [subst d'|rewrite bool_decide_false //; congruence].
  apply get_file_Some in Hp as (names & E & _). cbn in E. rewrite E /=.
  destruct (decide (n' = n)) as [->|Hn].
  - by rewrite lookup_delete_eq bool_decide_true.
  - rewrite lookup_delete_ne // bool_decide_false //. congruence.
Qed.

Lemma can_put_put p bytes base : can_put p base = None -> can_put p (put_file p bytes base) = None.
Proof.
  intros Hp. apply can_put_None. rewrite entries_put // bool_decide_true //.
  apply can_put_None in Hp as (names & -> & _). eexists. split; [done|]. by rewrite lookup_insert_eq.
Qed.

Lemma can_put_drop p bytes q base :
  get_file base p = Some bytes -> can_put q base = None -> can_put q (drop_file p base) = None.
Proof.
  intros Hp (names & E & Hn)%can_put_None. apply can_put_None.
  rewrite (entries_drop _ bytes) // E. case_bool_decide as Hd; [|by eauto].
  eexists. split; [done|]. destruct (decide (q.2 = p.2)) as [->|Hq].
  - by rewrite lookup_delete_eq.
  - by rewrite lookup_delete_ne.
Qed.

Lemma get_file_make_dir d base base' q :
  make_dir d base = Ok base' -> get_file base' q = get_file base q.
Proof.
  destruct d as [|t]; cbn; [by intros [= <-]|].
  destruct (base !! t) as [[|]|] eqn:E; intros [= <-]; [done|].
  unfold get_file, entry. destruct q as [[|t'] n]; cbn.
  - rewrite !lookup_fmap. destruct (decide (n = t)) as [->|Hn].
    + by rewrite lookup_insert_eq E.
    + by rewrite lookup_insert_ne.
  - destruct (decide (t' = t)) as [->|Ht].
    + by rewrite lookup_insert_eq E /= fmap_empty lookup_empty.
    + by rewrite lookup_insert_ne.
Qed.

(** ** Writing, whatever the operating system does *)

(** No file that a reader takes for a checkpoint has changed. *)
Definition same_checkpoints (base base' : gmap string BaseEntry) : Prop :=
  forall q, is_json q.2 = true -> get_file base' q = get_file base q.

Global Instance same_checkpoints_preorder : PreOrder same_checkpoints.
Proof. split; [by intros b q|]. intros b1 b2 b3 H1 H2 q Hq. by rewrite H2 // H1. Qed.

Section facts.
Context {S : Type} (uuid : nat -> string) (clock : nat -> Z).
Context (to_string_pretty : CheckpointData S -> result string string).
Context (from_str : string -> result string (CheckpointData S)).
Context (io : N -> FileOp -> IoResult) (order : N -> list string -> list string).

Lemma wp_disk_op {A} op msg (run : gmap string BaseEntry -> result string (A * gmap string BaseEntry))
    broken fs (Q : result GraphError A -> FileStore -> Prop) :
  (forall a base, run (fc_base fs) = Ok (a, base) -> Q (Ok a) (set_base base fs)) ->
  (forall e left_behind, Q (Err (CheckpointError e)) (set_base (broken left_behind (fc_base fs)) fs)) ->
  (forall e, Q (Err (CheckpointError e)) (set_base (fc_base fs) fs)) ->
  wp (disk_op io op msg run broken) fs Q.
Proof.
  intros Hok Hio Herr. unfold wp, disk_op. destruct (io _ _); [|apply Hio].
  destruct (run (fc_base fs)) as [[a base]|e] eqn:E; cbn; [by apply Hok|apply Herr].
Qed.

Lemma write_op_spec op msg p bytes fs :
  wp (write_op io op msg p bytes) fs (fun r fs' =>
    (r = Ok () -> get_file (fc_base fs') p = Some bytes) /\
    forall q, q <> p -> get_file (fc_base fs') q = get_file (fc_base fs) q).
Proof.
  assert (forall b q, can_put p (fc_base fs) = None -> q <> p ->
    get_file (put_file p b (fc_base fs)) q = get_file (fc_base fs) q) as Hput.
  { intros b q Hp Hq. by rewrite get_file_put // bool_decide_false. }
  apply wp_disk_op; cbn.
  - intros [] base. destruct (can_put p _) eqn:Hp; [done|]. intros [= <-].
    split; [|by auto]. intros _. by rewrite get_file_put // bool_decide_true.
  - intros e lb. split; [done|]. destruct (can_put p _) eqn:Hp; auto.
  - done.
Qed.

Lemma rename_spec p q fs :
  wp (rename io p q) fs (fun r fs' =>
    match r with
    | Ok _ => exists bytes, get_file (fc_base fs) p = Some bytes /\
        get_file (fc_base fs') q = Some bytes /\
        forall x, x <> p -> x <> q -> get_file (fc_base fs') x = get_file (fc_base fs) x
    | Err _ => fc_base fs' = fc_base fs
    end).
Proof.
  apply wp_disk_op; cbn; [|done..]. intros [] base.
  destruct (get_file (fc_base fs) p) as [bytes|] eqn:Hp; [|done].
  destruct (can_put q (fc_base fs)) eqn:Hq; [done|]. intros [= <-].
  assert (can_put q (drop_file p (fc_base fs)) = None) as Hq' by by apply (can_put_drop _ bytes).
  exists bytes. split; [done|]. split; [by rewrite get_file_put // bool_decide_true|].
  intros x Hxp Hxq. rewrite get_file_put // bool_decide_false // (get_file_drop _ bytes) //.
  by rewrite bool_decide_false.
Qed.

(** Whatever fails, the only checkpoint file [atomic_write] touches is its target, and
    that one only when it succeeds. *)
Lemma atomic_write_spec p json fs :
  is_json p.2 = true ->
  wp (atomic_write io p json) fs (fun r fs' =>
    match r with
    | Ok _ => get_file (fc_base fs') p = Some json /\
        forall q, is_json q.2 = true -> q <> p -> get_file (fc_base fs') q = get_file (fc_base fs) q
    | Err _ => same_checkpoints (fc_base fs) (fc_base fs')
    end).
Proof.
  intros Hp. set (tmp := (p.1, tmp_name p.2)).
  assert (forall q, is_json q.2 = true -> q <> tmp) as Htmp.
  { intros q Hq ->. cbn in Hq. by rewrite tmp_not_json in Hq. }
  unfold atomic_write. fold tmp.
  wp_step. eapply wp_mono; [apply write_op_spec|]. intros [[]|e] fs1 [_ H1]; [|by intros q Hq; auto].
  wp_step. eapply wp_mono; [apply write_op_spec|].
  intros [[]|e] fs2 [_ H2]; [|by intros q Hq; rewrite H2 ?H1; auto].
  wp_step. eapply wp_mono; [apply write_op_spec|].
  intros [[]|e] fs3 [Hw H3]; [|by intros q Hq; rewrite H3 ?H2 ?H1; auto].
  wp_step. eapply wp_mono; [apply rename_spec|].
  intros [[]|e] fs4; [|intros -> q Hq; by rewrite H3 ?H2 ?H1; auto].
  intros (bytes & Hb & Hr & H4). rewrite (Hw eq_refl) in Hb. injection Hb as <-.
  wp_step. unfold act_ok. apply wp_intro. intros r fs5.
  unfold read_op, disk_op, mret, act_ret, wp. cbn.
  assert (forall fs6, fc_base fs6 = fc_base fs4 ->
    get_file (fc_base fs6) p = Some json /\
    forall q, is_json q.2 = true -> q <> p -> get_file (fc_base fs6) q = get_file (fc_base fs) q) as Hend.
  { intros fs6 ->. split; [done|]. intros q Hq Hqp. rewrite H4 ?H3 ?H2 ?H1; auto. }
  destruct (io (fc_io fs4) _); intros [= <- <-]; by apply Hend.
Qed.

(** [save_threaded] is [save_fork_threaded] without a parent. *)
Lemma file_save_is_fork t s rc :
  file_save_threaded uuid clock to_string_pretty io t s rc =
  file_save_fork_threaded uuid clock to_string_pretty io None t s rc.
Proof. done. Qed.

(** The checkpoint a save writes, the file it writes it to, and its number. *)
Definition checkpoint_of (parent : option string) (t : string) (s : S) (rc : nat) (fs : FileStore)
    : CheckpointData S :=
  CheckpointData.set_lineage (Some t) parent
    (CheckpointData.with_progress (uuid (fc_tick fs)) (clock (fc_tick fs)) s (fc_next_seq fs) rc).

Definition checkpoint_path (t : string) (d : CheckpointData S) : FilePath :=
  (join_base t, file_name (cd_seq d) (cd_id d)).

Lemma save_fork_atomic_wp parent t s rc fs :
  wp (file_save_fork_threaded uuid clock to_string_pretty io parent t s rc) fs (fun r fs' =>
    let d := checkpoint_of parent t s rc fs in
    match r with
    | Ok id => id = cd_id d /\
        (exists json, to_string_pretty d = Ok json /\
           get_file (fc_base fs') (checkpoint_path t d) = Some json) /\
        forall q, is_json q.2 = true -> q <> checkpoint_path t d ->
          get_file (fc_base fs') q = get_file (fc_base fs) q
    | Err _ => same_checkpoints (fc_base fs) (fc_base fs')
    end).
Proof.
  unfold file_save_fork_threaded. wp_step. destruct (validate_segment t) as [[]|e] eqn:Hv; [|done].
  wp_step. unfold wp at 1; cbn [fst snd fetch_seq].
  wp_step. unfold wp at 1; cbn [fst snd fresh_data].
  set (d := CheckpointData.set_lineage _ _ _). wp_step.
  unfold thread_dir. rewrite Hv. cbn.
  wp_step. unfold create_dir_all. apply wp_disk_op; cbn; [|done..].
  intros [] base. destruct (make_dir (join_base t) (fc_base fs)) as [base'|] eqn:Hm; [|done].
  intros [= <-]. wp_step. unfold serialize, checked. apply wp_of_result.
  assert (same_checkpoints (fc_base fs) base') as Hsame.
  { intros q _. by rewrite (get_file_make_dir _ _ _ _ Hm). }
  destruct (to_string_pretty d) as [json|e] eqn:Hj; cbn; [|done].
  wp_step. eapply wp_mono; [apply atomic_write_spec, is_json_file_name|]. intros [[]|e] fs'; cbn.
  - intros [Hw Ho]. split; [done|]. split; [by exists json|].
    intros q Hq Hne. by rewrite Ho // Hsame.
  - intros H. by etrans.
Qed.

(** C38: A save is all or nothing on disk, whatever the operating system does: any of
    its I/O operations may fail and a failing write may leave any bytes.  If the save
    answers [Err], every file a reader takes for a checkpoint is unchanged.  If it
    answers [Ok id], the file of the new checkpoint holds its complete encoding and
    every other checkpoint file is unchanged.  So no reader ever sees a torn file. *)
Theorem file_save_atomic parent t s rc fs r fs' :
  file_save_fork_threaded uuid clock to_string_pretty io parent t s rc fs = (r, fs') ->
  match r with
  | Ok id =>
      let d := checkpoint_of parent t s rc fs in
      id = cd_id d /\
      (exists json, to_string_pretty d = Ok json /\
         get_file (fc_base fs') (checkpoint_path t d) = Some json) /\
      forall q, is_json q.2 = true -> q <> checkpoint_path t d ->
        get_file (fc_base fs') q = get_file (fc_base fs) q
  | Err _ => same_checkpoints (fc_base fs) (fc_base fs')
  end.
Proof. exact (wp_elim _ _ _ r fs' (save_fork_atomic_wp parent t s rc fs)). Qed.

End facts.
