(* ===== verification/FileRefinement.v ===== *)
(** * Requests to a checkpointer, and reading a disk

    [serve] runs one request of a client against any backend and [answers] a whole
    session.  [plain_thread] and [plain_id] are the names that mean the same to the
    file and in-memory backends.  [reads base op P] is a weakest precondition for
    the operations of the file checkpointer that leave the disk [base] alone. *)

From stdpp Require Import gmap strings list.
From S2P Require Import Prelude Json State Checkpoint MemCheckpointer FileCheckpointer.
From stdpp Require Import pretty sorting.
From S2P Require Import FileCheckpointerFacts.

(** ** Requests, served by any backend *)

Inductive Request (S : Type) : Type :=
| RSave (thread : string) (state : S) (recursion_count : nat)
| RSaveFork (parent_id : option string) (thread : string) (state : S) (recursion_count : nat)
| RLoad (thread id : string)
| RList (thread : string)
| RLast (thread : string)
| RSnapshots (thread : string)
| RDelete (thread id : string)
| RPrune (thread : string) (max_count : option nat) (max_age_secs : option Z) (now : Z)
| RUpdate (id : string) (state : S) (expected_version : N)
| RLineage (id : string).
Arguments RSave {S} _ _ _.
Arguments RSaveFork {S} _ _ _ _.
Arguments RLoad {S} _ _.
Arguments RList {S} _.
Arguments RLast {S} _.
Arguments RSnapshots {S} _.
Arguments RDelete {S} _ _.
Arguments RPrune {S} _ _ _ _.
Arguments RUpdate {S} _ _ _.
Arguments RLineage {S} _.

Inductive Answer (S : Type) : Type :=
| AId (id : string)
| AState (state : S)
| AIds (ids : list string)
| ALast (last : option (S * nat))
| ASnapshots (snaps : list (CheckpointInfo S))
| ADone
| ACount (n : nat)
| AVersion (v : N)
| ALineage (l : option (string * option string)).
Arguments AId {S} _.
Arguments AState {S} _.
Arguments AIds {S} _.
Arguments ALast {S} _.
Arguments ASnapshots {S} _.
Arguments ADone {S}.
Arguments ACount {S} _.
Arguments AVersion {S} _.
Arguments ALineage {S} _.

Definition act_fmap {W E A B} (f : A -> B) (m : Act W E A) : Act W E B := a ← m; mret (f a).

Definition serve {S C} (cp : Checkpointer S C) (r : Request S) : Act C GraphError (Answer S) :=
  match r with
  | RSave t s rc => act_fmap AId (save_threaded cp t s rc)
  | RSaveFork p t s rc => act_fmap AId (save_fork_threaded cp p t s rc)
  | RLoad t id => act_fmap AState (load_threaded cp t id)
  | RList t => act_fmap AIds (list_threaded cp t)
  | RLast t => act_fmap ALast (last_threaded cp t)
  | RSnapshots t => act_fmap ASnapshots (snapshots_threaded cp t)
  | RDelete t id => act_fmap (fun _ => ADone) (delete_threaded cp t id)
  | RPrune t mc ma now => act_fmap ACount (prune cp t mc ma now)
  | RUpdate id s v => act_fmap AVersion (update_state cp id s v)
  | RLineage id => act_fmap ALineage (checkpoint_lineage cp id)
  end.

(** The answers to a sequence of requests, errors included. *)
Fixpoint answers {S C} (cp : Checkpointer S C) (rs : list (Request S)) (c : C)
    : list (result GraphError (Answer S)) :=
  match rs with
  | [] => []
  | r :: rs' => let '(a, c') := serve cp r c in a :: answers cp rs' c'
  end.

(** An answer without the sequence numbers. *)
Definition unnumbered_info {S} (i : CheckpointInfo S) : CheckpointInfo S :=
  mkCheckpointInfo (ci_id i) (ci_timestamp i) 0 (ci_recursion_count i) (ci_state i) (ci_parent i).
Definition unnumbered {S} (a : Answer S) : Answer S :=
  match a with ASnapshots snaps => ASnapshots (unnumbered_info <$> snaps) | a => a end.

Definition observed {S} (a : result GraphError (Answer S)) : result GraphError (Answer S) :=
  unnumbered <$> a.

(** ** Names that mean the same to both backends *)

(** A hyphenated UUID is 36 characters long. *)
Definition plain_id (id : string) : Prop :=
  validate_segment id = Ok () /\ String.length id = 36.
Definition plain_thread (thread : string) : Prop :=
  validate_segment thread = Ok () /\ thread <> "." /\ is_json thread = false.
Global Instance plain_id_dec id : Decision (plain_id id).
Proof.
  unfold plain_id. destruct (validate_segment id) as [[]|]; [|right; naive_solver].
  destruct (decide (String.length id = 36)); [left|right]; naive_solver.
Defined.
Global Instance plain_thread_dec t : Decision (plain_thread t).
Proof.
  unfold plain_thread. destruct (validate_segment t) as [[]|]; [|right; naive_solver].
  destruct (decide (t <> "." /\ is_json t = false)); [left|right]; naive_solver.
Defined.

(** Requests with plain names. *)
Definition plain_request {S} (r : Request S) : Prop :=
  match r with
  | RSave t _ _ | RSaveFork _ t _ _ | RList t | RLast t | RSnapshots t | RPrune t _ _ _ => plain_thread t
  | RLoad t id | RDelete t id => plain_thread t /\ plain_id id
  | RUpdate id _ _ | RLineage id => plain_id id
  end.
Global Instance plain_request_dec {S} (r : Request S) : Decision (plain_request r).
Proof. destruct r; apply _. Defined.

(** The file backend edits checkpoints of the default thread only. *)
Definition in_default {S} (m : MemStore S) (id : string) : Prop :=
  map_Forall (fun t st => t = DEFAULT_THREAD \/ id ∉ cd_id <$> items st) (threads m).
Global Instance in_default_dec {S} (m : MemStore S) id : Decision (in_default m id).
Proof. unfold in_default. apply _. Defined.

(** No edit of a session names a checkpoint of another thread. *)
Fixpoint edits_default {S} (cp : Checkpointer S (MemStore S)) (m : MemStore S) (rs : list (Request S)) : Prop :=
  match rs with
  | [] => True
  | r :: rs' => match r with RUpdate id _ _ => in_default m id | _ => True end /\ edits_default cp (serve cp r m).2 rs'
  end.
Global Instance edits_default_dec {S} (cp : Checkpointer S (MemStore S)) m rs : Decision (edits_default cp m rs).
Proof. revert m. induction rs as [|r rs IH]; intros m; cbn; [|destruct r]; apply _. Defined.

Lemma plain_default : plain_thread DEFAULT_THREAD.
Proof. by vm_compute; split_and!. Qed.

Lemma join_base_plain t : plain_thread t -> join_base t = SubDir t.
Proof. intros (_ & Ht & _). unfold join_base. by rewrite bool_decide_false. Qed.

(** ** Operations that leave the disk alone *)

Definition moved (fs : FileStore) (k : N) : FileStore :=
  mkFileStore (fc_base fs) (fc_next_seq fs) (fc_tick fs) k.

Definition reads {A} (base : gmap string BaseEntry) (m : Act FileStore GraphError A)
    (P : result GraphError A -> Prop) : Prop :=
  forall fs, fc_base fs = base -> exists r k, m fs = (r, moved fs k) /\ P r.

Lemma reads_mono {A} base (m : Act FileStore GraphError A) (P Q : result GraphError A -> Prop) :
  reads base m P -> (forall r, P r -> Q r) -> reads base m Q.
Proof. intros H HPQ fs Hb. destruct (H fs Hb) as (r & k & E & Hr). eauto 6. Qed.

Lemma reads_bind {A B} base (m : Act FileStore GraphError A) (f : A -> Act FileStore GraphError B) P :
  reads base m (fun r => match r with Ok a => reads base (f a) P | Err e => P (Err e) end) ->
  reads base (m ≫= f) P.
Proof.
  intros H fs Hb. destruct (H fs Hb) as (r & k & E & Hr). unfold mbind, act_bind. rewrite E.
  destruct r as [a|e]; [|by eauto]. exact (Hr (moved fs k) Hb).
Qed.

Lemma reads_ret {A} base (a : A) (P : result GraphError A -> Prop) :
  P (Ok a) -> reads base (mret a) P.
Proof. intros H fs <-. exists (Ok a), (fc_io fs). by destruct fs. Qed.

Lemma reads_checked {A} base (r : result GraphError A) (P : result GraphError A -> Prop) :
  P r -> reads base (checked r) P.
Proof. intros H fs <-. exists r, (fc_io fs). by destruct fs. Qed.

Lemma reads_test {A} base (f : gmap string BaseEntry -> A) (P : result GraphError A -> Prop) :
  P (Ok (f base)) -> reads base (test f) P.
Proof. intros H fs <-. exists (Ok (f (fc_base fs))), (fc_io fs). by destruct fs. Qed.

Lemma reads_act_ok {A} base (m : Act FileStore GraphError A) P :
  reads base m (fun r => P (Ok (ok r))) -> reads base (act_ok m) P.
Proof.
  intros H fs Hb. destruct (H fs Hb) as (r & k & E & Hr). unfold act_ok. rewrite E. eauto.
Qed.

(** * The file checkpointer refines the in-memory one

    On a disk that works, opened empty, with plain thread names and ids, the file
    checkpointer answers every sequence of requests as the in-memory checkpointer
    does ([file_backend_refines_memory]); only the sequence numbers differ, which the
    file backend draws from one counter for all threads.

    [represents] ties a thread's files to a list of checkpoints; [refines] is the
    simulation relation. *)

Section quiet.
Context {S : Type} (uuid : nat -> string) (clock : nat -> Z).
Context (to_string_pretty : CheckpointData S -> result string string).
Context (from_str : string -> result string (CheckpointData S)).
Context (io : N -> FileOp -> IoResult) (order : N -> list string -> list string).
(** The disk works, and [read_dir] lists every entry once, in any order. *)
Hypothesis io_quiet : forall n op, io n op = IoDone.
Hypothesis order_perm : forall n l, order n l ≡ₚ l.

Lemma reads_read_dir base d msg names P :
  entries d base = Some names ->
  (forall l, l ≡ₚ (map_to_list names).*1 -> P (Ok l)) -> reads base (read_dir io order d msg) P.
Proof.
  intros E H fs <-. exists (Ok (order (fc_io fs) (map_to_list names).*1)), (fc_io fs + 1)%N.
  unfold read_dir, read_op, disk_op. rewrite io_quiet E. split; [done|]. by apply H.
Qed.

Lemma reads_next_entry base d (P : result GraphError () -> Prop) :
  P (Ok ()) -> reads base (next_entry io d) P.
Proof.
  intros H fs <-. exists (Ok ()), (fc_io fs + 1)%N.
  unfold next_entry, read_op, disk_op. rewrite io_quiet. done.
Qed.

Lemma reads_read_to_string base p bytes (P : result GraphError string -> Prop) :
  get_file base p = Some bytes -> P (Ok bytes) -> reads base (read_to_string io p) P.
Proof.
  intros E H fs <-. exists (Ok bytes), (fc_io fs + 1)%N.
  unfold read_to_string, read_op, disk_op. rewrite io_quiet. unfold get_file in E.
  destruct (entry p (fc_base fs)) as [[b|]|]; [|done..]. by injection E as ->.
Qed.

(** Writing a file over a working disk. *)
Lemma atomic_write_quiet t name json fs files :
  fc_base fs !! t = Some (BDir files) -> is_json name = true -> files !! tmp_name name = None ->
  exists k, atomic_write io (SubDir t, name) json fs =
    (Ok (), mkFileStore (<[t := BDir (<[name := json]> files)]> (fc_base fs))
              (fc_next_seq fs) (fc_tick fs) k).
Proof.
  intros Ht Hn Htmp. set (tmp := tmp_name name) in *.
  assert (tmp <> name) as Hne by by intros H; rewrite -H /tmp tmp_not_json in Hn.
  assert (forall base op msg files' bytes fs, fc_base fs = <[t := BDir files']> base ->
    (files' : gmap string string) !! tmp = None \/ (exists b, files' !! tmp = Some b) ->
    write_op io op msg (SubDir t, tmp) bytes fs =
      (Ok (), set_base (<[t := BDir (<[tmp := bytes]> files')]> base) fs)) as Hw.
  { intros base op msg files' bytes fs' Hb Hf. unfold write_op, disk_op. rewrite io_quiet Hb.
    unfold can_put, put_file. cbn. rewrite !lookup_insert_eq lookup_fmap.
    destruct Hf as [->|[b ->]]; cbn; by rewrite insert_insert_eq. }
  assert (fc_base fs = <[t := BDir files]> (fc_base fs)) as Hb0 by by rewrite insert_id.
  unfold atomic_write. fold tmp. unfold mbind, act_bind. cbn [fst snd].
  rewrite (Hw (fc_base fs) _ _ files) //; [|by left].
  rewrite (Hw (fc_base fs) _ _ (<[tmp:="" ]> files)) //; [|right; eexists; by rewrite lookup_insert_eq].
  rewrite insert_insert_eq.
  rewrite (Hw (fc_base fs) _ _ (<[tmp:=json]> files)) //; [|right; eexists; by rewrite lookup_insert_eq].
  rewrite insert_insert_eq. unfold rename, disk_op. rewrite io_quiet. cbn.
  unfold get_file, entry, can_put, drop_file, put_file. cbn.
  rewrite !lookup_insert_eq /= lookup_fmap lookup_insert_eq /=.
  rewrite lookup_fmap. rewrite lookup_insert_ne //. destruct (files !! name) eqn:En; rewrite ?En /=.
  all: rewrite !insert_insert_eq; fold tmp; rewrite delete_insert_eq delete_id //.
  all: unfold act_ok, read_op, disk_op; rewrite io_quiet; cbn; by eexists.
Qed.

(** ** The checkpoints a thread's files hold *)

Definition thread_files (base : gmap string BaseEntry) (t : string) : gmap string string :=
  match base !! t with Some (BDir files) => files | _ => ∅ end.

Definition data_name (d : CheckpointData S) : string := file_name (cd_seq d) (cd_id d).

Definition represents (files : gmap string string) (l : list (CheckpointData S)) : Prop :=
  forall n b, files !! n = Some b <-> exists d, d ∈ l /\ n = data_name d /\ to_string_pretty d = Ok b.

(** Only plain subdirectories, so no legacy file. *)
Definition plain_base (base : gmap string BaseEntry) : Prop :=
  forall n e, base !! n = Some e -> plain_thread n /\ exists files, e = BDir files.

(** A checkpoint the backend wrote, and its encoding: serde round trips on it. *)
Hypothesis serializes : forall d, cd_metadata d = ∅ ->
  exists json, to_string_pretty d = Ok json /\ from_str json = Ok d.

Definition written (d : CheckpointData S) : Prop := cd_metadata d = ∅ /\ plain_id (cd_id d).

Record thread_ok (base : gmap string BaseEntry) (t : string) (l : list (CheckpointData S)) : Prop := {
  to_files : represents (thread_files base t) l;
  to_written d : d ∈ l -> written d;
  to_nodup : NoDup (cd_id <$> l);
  to_seq : NoDup (cd_seq <$> l);
}.

Definition find_by (id : string) (l : list (CheckpointData S)) : option (CheckpointData S) :=
  snd <$> list_find (fun d => cd_id d = id) l.

Lemma find_by_Some id l d : find_by id l = Some d -> d ∈ l /\ cd_id d = id.
Proof.
  intros ([i x] & (Hi & Hid & _)%list_find_Some & ->)%fmap_Some.
  split; [by eapply list_elem_of_lookup_2|done].
Qed.

Lemma find_by_None id l : find_by id l = None <-> forall d, d ∈ l -> cd_id d <> id.
Proof. unfold find_by. by rewrite fmap_None list_find_None Forall_forall. Qed.

Lemma find_by_elem l d : NoDup (cd_id <$> l) -> d ∈ l -> find_by (cd_id d) l = Some d.
Proof.
  intros Hnd Hd. destruct (find_by (cd_id d) l) as [x|] eqn:E.
  - apply find_by_Some in E as [Hx Hid]. f_equal. by apply (NoDup_fmap_elem_inj cd_id l).
  - by destruct (proj1 (find_by_None _ _) E d Hd).
Qed.

Lemma data_name_inj base t l d d' :
  thread_ok base t l -> d ∈ l -> d' ∈ l -> data_name d = data_name d' -> d = d'.
Proof.
  intros Hl Hd Hd' H. apply (NoDup_fmap_elem_inj cd_id l); [apply (to_nodup _ _ _ Hl)|done..|].
  apply file_name_id in H; [done|].
  destruct (to_written _ _ _ Hl d Hd) as [_ [_ ->]], (to_written _ _ _ Hl d' Hd') as [_ [_ ->]]. done.
Qed.

(** The names of the directory are the names of the checkpoints, in some order. *)
Lemma listing_of base t l names :
  thread_ok base t l -> names ≡ₚ (map_to_list (thread_files base t)).*1 ->
  exists l', l ≡ₚ l' /\ names = data_name <$> l'.
Proof.
  intros Hl Hn. destruct (Permutation_map_inv data_name (l1 := names) l) as (l' & -> & H).
  - rewrite Hn. apply NoDup_Permutation.
    + apply NoDup_fst_map_to_list.
    + apply (NoDup_fmap_2_strong data_name); [|by eapply NoDup_fmap_1, to_nodup].
      intros d d' Hd Hd'. by apply (data_name_inj base t l).
    + intros n. rewrite !list_elem_of_fmap. split.
      * intros ([n' b] & -> & (d & Hd & -> & _)%elem_of_map_to_list%(to_files _ _ _ Hl)). by exists d.
      * intros (d & -> & Hd). destruct (serializes d) as (json & Hj & _); [by eapply to_written|].
        exists (data_name d, json). split; [done|].
        apply elem_of_map_to_list, (to_files _ _ _ Hl). eauto.
  - exists l'. done.
Qed.

Lemma thread_entries base t l :
  thread_ok base t l -> plain_base base ->
  (dir_exists (SubDir t) base = false /\ l = []) \/
  (dir_exists (SubDir t) base = true /\ exists names, entries (SubDir t) base = Some names /\
     (map_to_list names).*1 = (map_to_list (thread_files base t)).*1).
Proof.
  intros Hl Hb. unfold thread_files. cbn. destruct (base !! t) as [e|] eqn:E.
  - right. split; [by rewrite bool_decide_true|]. destruct (Hb t e E) as [_ [files ->]].
    eexists. split; [done|]. rewrite map_to_list_fmap -list_fmap_compose.
    by apply list_fmap_ext; intros ? [].
  - left. split; [rewrite bool_decide_false //; by intros [? ?]|].
    destruct l as [|d l]; [done|]. exfalso. pose proof (to_files _ _ _ Hl) as Hf.
    unfold thread_files in Hf. rewrite E in Hf.
    destruct (serializes d) as (json & Hj & _); [eapply to_written; [done|]; apply list_elem_of_here|].
    specialize (Hf (data_name d) json). rewrite lookup_empty in Hf.
    destruct Hf as [_ Hf]. discriminate Hf. exists d. split; [apply list_elem_of_here|done].
Qed.

Lemma thread_read base t l d :
  thread_ok base t l -> d ∈ l ->
  exists json, get_file base (SubDir t, data_name d) = Some json /\ from_str json = Ok d.
Proof.
  intros Hl Hd. destruct (serializes d) as (json & Hj & Hf); [by eapply to_written|].
  exists json. split; [|done]. apply get_file_Some. cbn.
  assert (thread_files base t !! data_name d = Some json) as Hn by (apply (to_files _ _ _ Hl); eauto).
  unfold thread_files in Hn. destruct (base !! t) as [[|files]|]; [done| |done].
  eexists. split; [done|]. by rewrite lookup_fmap Hn.
Qed.

Lemma reads_read_data base p json d (P : result GraphError (CheckpointData S) -> Prop) :
  get_file base p = Some json -> from_str json = Ok d -> P (Ok d) -> reads base (read_data from_str io p) P.
Proof.
  intros Hj Hf HP. unfold read_data. apply reads_bind. eapply reads_read_to_string; [done|].
  apply reads_checked. by rewrite Hf.
Qed.

(** ** Finding a checkpoint *)

Lemma reads_find_entry base t l' id (P : result GraphError (option FilePath) -> Prop) :
  (forall d, d ∈ l' -> plain_id (cd_id d)) -> plain_id id ->
  P (Ok ((fun d => (SubDir t, data_name d)) <$> find_by id l')) ->
  reads base (find_entry io (SubDir t) id (data_name <$> l')) P.
Proof.
  intros Hl Hid. induction l' as [|d l' IH]; intros HP; cbn [find_entry fmap list_fmap].
  - apply reads_bind, reads_next_entry, reads_ret, HP.
  - apply reads_bind, reads_next_entry.
    rewrite /data_name names_id_file_name; last first.
    { destruct Hid as [_ ->]. by destruct (Hl d (list_elem_of_here _ _)) as [_ ->]. }
    unfold find_by in HP. cbn in HP. case_bool_decide as Hd.
    + apply reads_ret. by rewrite decide_True in HP.
    + rewrite decide_False // in HP. apply IH; [intros d' Hd'; apply Hl; by right|].
      unfold find_by. by destruct (list_find _ l') as [[]|].
Qed.

Lemma find_by_perm id l l' : NoDup (cd_id <$> l) -> l ≡ₚ l' -> find_by id l' = find_by id l.
Proof.
  intros Hnd Hp. assert (NoDup (cd_id <$> l')) as Hnd' by by rewrite -Hp.
  destruct (find_by id l) as [d|] eqn:E.
  - apply find_by_Some in E as [Hd <-]. apply find_by_elem; [done|]. by rewrite -Hp.
  - apply find_by_None. intros d Hd. rewrite -Hp in Hd. by eapply find_by_None.
Qed.

Notation path_of t := (fun d => (SubDir t, data_name d)).

Lemma reads_find_file base t l id (P : result GraphError (option FilePath) -> Prop) :
  thread_ok base t l -> plain_base base -> plain_id id ->
  P (Ok (path_of t <$> find_by id l)) -> reads base (find_file io order (SubDir t) id) P.
Proof.
  intros Hl Hb Hid HP. unfold find_file. apply reads_bind, reads_test.
  destruct (thread_entries base t l Hl Hb) as [[-> ->]|[-> (names & En & Hn)]]; cbn.
  { apply reads_ret, HP. }
  apply reads_bind. eapply reads_read_dir; [done|]. intros ns Hns. rewrite Hn in Hns.
  destruct (listing_of base t l ns Hl Hns) as (l' & Hp & ->).
  apply reads_find_entry; [|done|].
  - intros d Hd. rewrite -Hp in Hd. by eapply to_written.
  - rewrite (find_by_perm id l) //. by eapply to_nodup.
Qed.

Lemma legacy_absent base id : plain_base base -> id <> "" -> path_exists (BaseDir, id +:+ ".json") base = false.
Proof.
  intros Hb Hid. unfold path_exists, entry. cbn. rewrite lookup_fmap.
  destruct (base !! (id +:+ ".json")) as [e|] eqn:E; [|by rewrite bool_decide_false; [|intros [? ?]]].
  exfalso. destruct (Hb _ _ E) as [(_ & _ & Hj) _].
  rewrite (proj2 (is_json_spec _)) in Hj; [done|]. exists id. by apply json_stem_Some.
Qed.

Lemma plain_id_ne id : plain_id id -> id <> "".
Proof. by intros [_ Hl] ->. Qed.

Lemma reads_resolve base t l id P :
  thread_ok base t l -> plain_base base -> plain_thread t -> plain_id id ->
  P (Ok ((fun d => (SubDir t, data_name d, d)) <$> find_by id l)) ->
  reads base (resolve_data from_str io order t id) P.
Proof.
  intros Hl Hb Ht Hid HP. unfold resolve_data.
  apply reads_bind, reads_checked. rewrite (proj1 Hid).
  apply reads_bind, reads_checked. rewrite (proj1 Ht).
  apply reads_bind. apply (reads_mono _ _ (fun r => r = Ok None)).
  { case_bool_decide; [|by apply reads_ret].
    apply reads_bind, reads_checked. unfold legacy_flat_path. rewrite (proj1 Hid). cbn.
    apply reads_bind, reads_test. rewrite legacy_absent //; [by apply reads_ret|].
    by apply plain_id_ne. }
  intros _ ->. apply reads_bind, reads_checked. unfold thread_dir. rewrite (proj1 Ht).
  cbn. rewrite join_base_plain //. apply reads_bind. apply (reads_find_file base t l); [done..|].
  destruct (find_by id l) as [d|] eqn:E; cbn; [|by apply reads_ret].
  apply find_by_Some in E as [Hd _]. destruct (thread_read base t l d Hl Hd) as (json & Hj & Hf).
  apply reads_bind. eapply reads_read_data; [done|done|]. by apply reads_ret.
Qed.

(** ** Listing *)

Definition key_of (d : CheckpointData S) : SortKey := (cd_timestamp d, cd_seq d, cd_id d).

Lemma reads_collect base t l' P :
  (forall d, d ∈ l' -> exists json, get_file base (SubDir t, data_name d) = Some json /\
                                    from_str json = Ok d) ->
  P (Ok (key_of <$> l')) -> reads base (collect_keys from_str io (SubDir t) (data_name <$> l')) P.
Proof.
  revert P. induction l' as [|d l' IH]; intros P Hl HP; cbn [collect_keys fmap list_fmap].
  - apply reads_bind, reads_next_entry, reads_ret, HP.
  - apply reads_bind, reads_next_entry, reads_bind, reads_test.
    destruct (Hl d (list_elem_of_here _ _)) as (json & Hj & Hf).
    assert (is_file (SubDir t, data_name d) base = true) as ->.
    { revert Hj. unfold get_file, is_file. by destruct (entry _ _) as [[]|]. }
    rewrite /data_name is_json_file_name. cbn [negb orb].
    apply reads_bind. eapply reads_read_data; [done|done|]. apply reads_bind.
    apply IH; [intros d' Hd'; apply Hl; by right|]. by apply reads_ret.
Qed.

Lemma reads_collect_base base names P :
  plain_base base -> (forall n, n ∈ names -> is_Some (base !! n)) ->
  P (Ok []) -> reads base (collect_keys from_str io BaseDir names) P.
Proof.
  intros Hb. induction names as [|n names IH]; intros Hn HP; cbn [collect_keys].
  - apply reads_bind, reads_next_entry, reads_ret, HP.
  - apply reads_bind, reads_next_entry, reads_bind, reads_test.
    destruct (Hn n (list_elem_of_here _ _)) as [e E]. destruct (Hb n e E) as [_ [files ->]].
    assert (is_file (BaseDir, n) base = false) as ->.
    { unfold is_file, entry. cbn. by rewrite lookup_fmap E. }
    cbn. apply IH; [|done]. intros n' Hn'. apply Hn. by right.
Qed.

Lemma reads_collect_thread base t l P :
  thread_ok base t l -> plain_base base ->
  (forall l', l ≡ₚ l' -> P (Ok (key_of <$> l'))) ->
  reads base (collect_dirs from_str io order [SubDir t]) P.
Proof.
  intros Hl Hb HP. cbn [collect_dirs]. apply reads_bind, reads_test.
  destruct (thread_entries base t l Hl Hb) as [[-> ->]|[-> (names & En & Hn)]]; cbn [negb].
  { apply reads_ret, (HP []). done. }
  apply reads_bind. eapply reads_read_dir; [done|]. intros ns Hns. rewrite Hn in Hns.
  destruct (listing_of base t l ns Hl Hns) as (l' & Hp & ->).
  apply reads_bind, reads_collect.
  - intros d Hd. rewrite -Hp in Hd. by eapply thread_read.
  - apply reads_bind, reads_ret, reads_ret. rewrite app_nil_r. by apply HP.
Qed.

Lemma reads_collect_dirs base t l P :
  thread_ok base t l -> plain_base base -> plain_thread t ->
  (forall l', l ≡ₚ l' -> P (Ok (key_of <$> l'))) ->
  reads base (collect_dirs from_str io order
    ((if t =ₛ DEFAULT_THREAD then [BaseDir] else []) ++ [SubDir t])) P.
Proof.
  intros Hl Hb Ht HP. case_bool_decide; [|by eapply reads_collect_thread].
  change ([BaseDir] ++ ?l) with (BaseDir :: l). cbn [collect_dirs].
  apply reads_bind, reads_test. cbn [dir_exists negb].
  apply reads_bind. eapply reads_read_dir; [done|]. intros ns Hns.
  apply reads_bind, reads_collect_base; [done| |].
  - intros n Hn. rewrite Hns in Hn. apply list_elem_of_fmap in Hn as ([n' c] & -> & Hn).
    apply elem_of_map_to_list in Hn. rewrite lookup_fmap in Hn. cbn.
    destruct (base !! n'); [done|discriminate Hn].
  - apply reads_bind. eapply reads_collect_thread; [done..|]. intros l' Hp.
    apply reads_ret. by apply HP.
Qed.

(** The order of the tuples is that of the checkpoints as soon as the sequence numbers
    differ. *)
Definition key_pair_le (a b : SortKey) : bool :=
  (a.1.1 <? b.1.1)%Z || ((a.1.1 =? b.1.1)%Z && (a.1.2 <=? b.1.2)%N).

Lemma sort_keys l l' :
  NoDup (cd_seq <$> l) -> l ≡ₚ l' -> sort_by sort_key_le (key_of <$> l') = key_of <$> sort_by key_le l.
Proof.
  intros Hnd Hp. assert (NoDup (cd_seq <$> l')) as Hnd' by by rewrite -Hp.
  rewrite (sort_by_ext sort_key_le key_pair_le).
  - rewrite (sort_by_fmap key_le key_pair_le key_of) //. f_equal.
    apply (StronglySorted_unique_strong (le_prop key_le)).
    + intros x y. rewrite !sort_by_perm. intros Hx Hy Hxy Hyx.
      apply (NoDup_fmap_elem_inj cd_seq l'); [done..|by rewrite -Hp|].
      unfold le_prop in *. rewrite !key_le_spec in Hxy, Hyx. lia.
    + apply sort_by_sorted; [apply key_le_total|apply key_le_trans].
    + apply sort_by_sorted; [apply key_le_total|apply key_le_trans].
    + by rewrite !sort_by_perm Hp.
  - apply StronglySorted_map. apply NoDup_pairs in Hnd'. revert Hnd'. apply StronglySorted_mono.
    intros x y Hxy. unfold sort_key_le, key_pair_le, key_of. cbn. f_equal. f_equal.
    destruct (N.ltb_spec (cd_seq x) (cd_seq y)), (N.leb_spec (cd_seq x) (cd_seq y)),
      (N.eqb_spec (cd_seq x) (cd_seq y)); cbn; lia || done.
Qed.

Lemma reads_sorted base t l P :
  thread_ok base t l -> plain_base base -> plain_thread t ->
  P (Ok (key_of <$> sort_by key_le l)) -> reads base (sorted_ids from_str io order t) P.
Proof.
  intros Hl Hb Ht HP. unfold sorted_ids. apply reads_bind, reads_checked. rewrite (proj1 Ht).
  apply reads_bind, reads_checked. unfold thread_dir. rewrite (proj1 Ht). cbn.
  rewrite join_base_plain //. apply reads_bind. apply (reads_collect_dirs base t l); [done..|].
  intros l' Hp. apply reads_ret. rewrite (sort_keys l l') //. by eapply to_seq.
Qed.

(** ** The reading operations *)

Section reading.
Context (base : gmap string BaseEntry) (t : string) (l : list (CheckpointData S)).
Context (Hl : thread_ok base t l) (Hb : plain_base base) (Ht : plain_thread t).

Lemma reads_load id (P : result GraphError S -> Prop) : plain_id id ->
  P (ok_or (cd_state <$> find_by id l) (not_found id)) ->
  reads base (file_load_threaded from_str io order t id) P.
Proof.
  intros Hid HP. unfold file_load_threaded. apply reads_bind. apply (reads_resolve base t l); [done..|].
  apply reads_bind, reads_checked. destruct (find_by id l) as [d|]; cbn in *; [by apply reads_ret|done].
Qed.

Lemma reads_list (P : result GraphError (list string) -> Prop) :
  P (Ok (cd_id <$> sort_by key_le l)) -> reads base (file_list_threaded from_str io order t) P.
Proof.
  intros HP. unfold file_list_threaded. apply reads_bind. apply (reads_sorted base t l); [done..|].
  apply reads_ret. by rewrite -list_fmap_compose.
Qed.

Lemma sorted_find d : d ∈ sort_by key_le l -> plain_id (cd_id d) /\ find_by (cd_id d) l = Some d.
Proof.
  rewrite sort_by_perm. intros Hd. split; [by eapply to_written|].
  apply find_by_elem; [by eapply to_nodup|done].
Qed.

Lemma reads_last (P : result GraphError (option (S * nat)) -> Prop) :
  P (Ok ((fun d => (cd_state d, cd_recursion_count d)) <$> list.last (sort_by key_le l))) ->
  reads base (file_last_threaded from_str io order t) P.
Proof.
  intros HP. unfold file_last_threaded. apply reads_bind. apply (reads_sorted base t l); [done..|].
  rewrite fmap_last. destruct (list.last (sort_by key_le l)) as [d|] eqn:E; cbn; [|by apply reads_ret].
  destruct (sorted_find d) as [Hid Hd]; [by apply last_Some_elem_of|].
  apply reads_bind, (reads_resolve base t l); [done..|]. rewrite Hd. cbn.
  apply reads_bind, reads_checked, reads_ret, HP.
Qed.

Lemma reads_snapshots (P : result GraphError (list (CheckpointInfo S)) -> Prop) :
  P (Ok (checkpoint_info_from_data <$> sort_by key_le l)) ->
  reads base (file_snapshots_threaded from_str io order t) P.
Proof.
  intros HP. unfold file_snapshots_threaded. apply reads_bind. apply (reads_sorted base t l); [done..|].
  assert (forall l', (forall d, d ∈ l' -> d ∈ sort_by key_le l) -> forall P,
    P (Ok (checkpoint_info_from_data <$> l')) ->
    reads base (act_map (fun key : SortKey =>
      resolved ← resolve_data from_str io order t key.2;
      data ← found_or key.2 resolved; mret (checkpoint_info_from_data data.2)) (key_of <$> l')) P) as Hmap.
  { clear P HP. induction l' as [|d l' IH]; intros Hin P HP; [by apply reads_ret|].
    cbn [act_map fmap list_fmap]. destruct (sorted_find d) as [Hid Hd]; [apply Hin; by left|].
    apply reads_bind, reads_bind, (reads_resolve base t l); [done..|]. rewrite Hd. cbn.
    apply reads_bind, reads_checked, reads_ret, reads_bind, IH; [by intros; apply Hin; right|].
    by apply reads_ret. }
  by apply Hmap.
Qed.

End reading.

(** ** The simulation relation *)

(** A checkpoint without its sequence number. *)
Definition unnumber (d : CheckpointData S) : CheckpointData S :=
  mkCheckpointData (cd_id d) (cd_state d) (cd_timestamp d) (cd_metadata d) 0
    (cd_recursion_count d) (cd_version d) (cd_thread_id d) (cd_parent_id d).

Definition seq_lt (a b : CheckpointData S) : Prop := (cd_seq a < cd_seq b)%N.

(** The documented shape of [Uuid::new_v4().to_string()], for as many ids as a session
    of [limit] requests can draw, and no id twice. *)
Context (limit : nat) (limit_u64 : (N.of_nat limit < 2 ^ 64)%N).
Context (uuid_fresh : Inj (=) (=) uuid) (uuid_plain : forall n, n < limit -> plain_id (uuid n)).

(** [F t]: the checkpoints of thread [t] on the disk, in arrival order. *)
Record refines (fs : FileStore) (m : MemStore S) (F : string -> list (CheckpointData S)) : Prop := {
  rf_count : fc_next_seq fs = N.of_nat (tick m);
  rf_tick : fc_tick fs = tick m;
  rf_base : plain_base (fc_base fs);
  rf_files t : represents (thread_files (fc_base fs) t) (F t);
  rf_meta t d : d ∈ F t -> cd_metadata d = ∅;
  rf_same t : unnumber <$> F t = unnumber <$> items (mem_entry m t);
  rf_seqs t : StronglySorted seq_lt (F t);
  rf_next t d : d ∈ F t -> (cd_seq d < fc_next_seq fs)%N;
  rf_mseqs t : StronglySorted seq_lt (items (mem_entry m t));
  rf_mem : mem_inv uuid clock m;
  rf_limit : tick m <= limit;
}.

Lemma refines_moved fs m F k : refines fs m F -> refines (moved fs k) m F.
Proof. intros []. by split. Qed.

Lemma seq_lt_nodup l : StronglySorted seq_lt l -> NoDup (cd_seq <$> l).
Proof.
  induction 1 as [|d l Hl IH Hd]; [constructor|]. apply NoDup_cons. split; [|done].
  intros (d' & E & Hd')%list_elem_of_fmap. rewrite Forall_forall in Hd.
  specialize (Hd d' Hd'). unfold seq_lt in Hd. lia.
Qed.

Section relation.
Context (fs : FileStore) (m : MemStore S) (F : string -> list (CheckpointData S)).
Context (R : refines fs m F).

Lemma same_ids t : cd_id <$> F t = cd_id <$> items (mem_entry m t).
Proof.
  pose proof (rf_same _ _ _ R t) as H. apply (f_equal (fmap cd_id)) in H.
  by rewrite -!list_fmap_compose in H.
Qed.

Lemma file_written t d : d ∈ F t -> written d.
Proof.
  intros Hd. split; [by eapply rf_meta|].
  assert (cd_id d ∈ cd_id <$> items (mem_entry m t)) as (d' & -> & Hd')%list_elem_of_fmap.
  { rewrite -same_ids. by apply list_elem_of_fmap_2. }
  destruct (mi_issued _ _ _ (rf_mem _ _ _ R) t d' Hd') as (k & Hk & -> & _).
  apply uuid_plain. pose proof (rf_limit _ _ _ R). lia.
Qed.

Lemma refines_thread t : thread_ok (fc_base fs) t (F t).
Proof.
  split; [apply R|apply file_written| |].
  - rewrite same_ids. apply (rf_mem _ _ _ R).
  - apply seq_lt_nodup, R.
Qed.

Definition ts_le (a b : CheckpointData S) : bool := (cd_timestamp a <=? cd_timestamp b)%Z.

Lemma sort_by_arrival l : StronglySorted seq_lt l -> sort_by key_le l = sort_by ts_le l.
Proof.
  intros H. apply sort_by_ext. revert H. apply StronglySorted_mono. intros x y Hxy.
  unfold seq_lt in Hxy. unfold key_le, ts_le.
  destruct (Z.ltb_spec (cd_timestamp x) (cd_timestamp y)), (Z.leb_spec (cd_timestamp x) (cd_timestamp y)),
    (Z.eqb_spec (cd_timestamp x) (cd_timestamp y)), (N.leb_spec (cd_seq x) (cd_seq y)); cbn; lia || done.
Qed.

Lemma same_sorted t :
  unnumber <$> sort_by key_le (F t) = unnumber <$> sort_by key_le (items (mem_entry m t)).
Proof.
  rewrite !sort_by_arrival; [|apply R..].
  rewrite -!(sort_by_fmap ts_le ts_le unnumber) //. by rewrite (rf_same _ _ _ R).
Qed.

Lemma find_by_unnumber id l : unnumber <$> find_by id l = find_by id (unnumber <$> l).
Proof.
  unfold find_by. induction l as [|d l IH]; [done|]. cbn. case_decide; [done|].
  destruct (list_find _ l) as [[]|], (list_find _ (unnumber <$> l)) as [[]|]; cbn in *; congruence.
Qed.

Lemma same_find t id :
  unnumber <$> find_by id (F t) = unnumber <$> find_by id (items (mem_entry m t)).
Proof. by rewrite !find_by_unnumber (rf_same _ _ _ R). Qed.

(** A field that does not depend on the sequence number is the same on both sides. *)
Lemma same_fmap {B} (f : CheckpointData S -> B) (l l' : list (CheckpointData S)) :
  (forall d, f (unnumber d) = f d) -> unnumber <$> l = unnumber <$> l' -> f <$> l = f <$> l'.
Proof.
  intros Hf H. apply (f_equal (fmap f)) in H. rewrite -!list_fmap_compose in H.
  rewrite (list_fmap_ext (f ∘ unnumber) f) in H; [|intros; apply Hf].
  by rewrite (list_fmap_ext (f ∘ unnumber) f) in H; [|intros; apply Hf].
Qed.

Lemma same_fmap_option {B} (f : CheckpointData S -> B) (o o' : option (CheckpointData S)) :
  (forall d, f (unnumber d) = f d) -> unnumber <$> o = unnumber <$> o' -> f <$> o = f <$> o'.
Proof.
  intros Hf. destruct o as [d|], o' as [d'|]; cbn; try done. intros [= H]. f_equal.
  rewrite -(Hf d) -(Hf d'). unfold unnumber. congruence.
Qed.

End relation.

(** One operation on each side: the same answer up to [h], and stores in relation. *)
Definition simulates {A B} (h : A -> B) (op : Act FileStore GraphError A)
    (op' : Act (MemStore S) GraphError A) (fs : FileStore) (m : MemStore S) : Prop :=
  exists a b fs' m' F', op fs = (a, fs') /\ op' m = (b, m') /\ h <$> a = h <$> b /\
    refines fs' m' F' /\ tick m <= tick m' <= tick m + 1.

Lemma simulates_reads {A B} (h : A -> B) op op' fs m F (b : result GraphError A) :
  refines fs m F -> op' m = (b, m) ->
  reads (fc_base fs) op (fun a => h <$> a = h <$> b) -> simulates h op op' fs m.
Proof.
  intros HR Hm Hr. destruct (Hr fs eq_refl) as (a & k & E & Ha).
  exists a, b, (moved fs k), m, F. split_and!; try done; [by apply refines_moved|lia].
Qed.

(** ** Reading *)

Section reads_agree.
Context (fs : FileStore) (m : MemStore S) (F : string -> list (CheckpointData S)).
Context (R : refines fs m F) (t : string) (Ht : plain_thread t).

Lemma load_agrees id : plain_id id ->
  simulates (fun x => x) (file_load_threaded from_str io order t id) (mem_load t id) fs m.
Proof.
  intros Hid. eapply simulates_reads; [done| |].
  { unfold mem_load. instantiate (1 := ok_or (cd_state <$> find_by id (items (mem_entry m t))) (not_found id)).
    unfold mem_entry. by destruct (threads m !! t). }
  eapply reads_load; [by eapply refines_thread|apply R|done|done|].
  f_equal. f_equal. apply same_fmap_option; [done|]. by apply (same_find fs m F).
Qed.

Lemma list_agrees :
  simulates (fun x => x) (file_list_threaded from_str io order t) (mem_list t) fs m.
Proof.
  eapply simulates_reads; [done| |].
  { rewrite mem_list_eq ids_view. done. }
  eapply reads_list; [by eapply refines_thread|apply R|done|]. do 2 f_equal.
  apply same_fmap; [done|]. by apply (same_sorted fs m F).
Qed.

Lemma last_agrees :
  simulates (fun x => x) (file_last_threaded from_str io order t) (mem_last t) fs m.
Proof.
  eapply simulates_reads; [done| |].
  { rewrite mem_last_eq. unfold mem_view, ThreadStore.sorted. rewrite fmap_last -option_fmap_compose. done. }
  eapply reads_last; [by eapply refines_thread|apply R|done|]. do 2 f_equal.
  apply same_fmap_option; [done|]. rewrite -!fmap_last. f_equal. by apply (same_sorted fs m F).
Qed.

Lemma snapshots_agree :
  simulates (fmap unnumbered_info) (file_snapshots_threaded from_str io order t) (mem_snapshots t) fs m.
Proof.
  eapply simulates_reads; [done|apply mem_snapshots_eq|].
  eapply reads_snapshots; [by eapply refines_thread|apply R|done|]. cbn. f_equal.
  unfold mem_view, ThreadStore.sorted. rewrite -!list_fmap_compose.
  apply same_fmap; [done|]. by apply (same_sorted fs m F).
Qed.

End reads_agree.

(** ** Writing *)

Lemma thread_files_insert base t files t' :
  thread_files (<[t := BDir files]> base) t' = if bool_decide (t' = t) then files else thread_files base t'.
Proof.
  unfold thread_files. case_bool_decide as Ht.
  - by rewrite Ht lookup_insert_eq.
  - by rewrite lookup_insert_ne.
Qed.

Lemma plain_base_insert base t files :
  plain_base base -> plain_thread t -> plain_base (<[t := BDir files]> base).
Proof.
  intros Hb Ht n e [[<- <-]|[_ He]]%lookup_insert_Some; [by eauto|by apply Hb].
Qed.

Lemma represents_put files l d json :
  represents files l -> to_string_pretty d = Ok json ->
  (forall d', d' ∈ l -> data_name d' <> data_name d) -> represents (<[data_name d := json]> files) (l ++ [d]).
Proof.
  intros Hf Hj Hd n b. destruct (decide (n = data_name d)) as [->|Hn].
  - rewrite lookup_insert_eq. split.
    + intros [= <-]. exists d. split_and!; [|done..]. apply elem_of_app. right. by left.
    + intros (d' & [Hd'|[<-|?%elem_of_nil]%elem_of_cons]%elem_of_app & En & Hj'); [|congruence|done].
      by destruct (Hd d' Hd').
  - rewrite lookup_insert_ne // Hf. split.
    + intros (d' & Hd' & ?). exists d'. split; [|done]. apply elem_of_app. by left.
    + intros (d' & [Hd'|[<-|?%elem_of_nil]%elem_of_cons]%elem_of_app & En & ?); [by eauto|done|done].
Qed.

Lemma represents_drop files l d :
  represents files l -> NoDup (cd_id <$> l) ->
  (forall d', d' ∈ l -> data_name d' = data_name d -> d' = d) -> d ∈ l ->
  represents (base.delete (data_name d) files) (filter (fun x => cd_id x <> cd_id d) l).
Proof.
  intros Hf Hnd Hinj Hd n b. rewrite lookup_delete_Some Hf. split.
  - intros (Hn & d' & Hd' & -> & Hj). exists d'. split; [|done]. apply list_elem_of_filter.
    split; [|done]. intros Hid. apply Hn. f_equal. symmetry.
    by apply (NoDup_fmap_elem_inj cd_id l).
  - intros (d' & [Hid Hd']%list_elem_of_filter & -> & Hj). split; [|by eauto].
    intros En. by rewrite (Hinj d' Hd' (eq_sym En)) in Hid.
Qed.

Lemma represents_edit files l d e json :
  represents files l -> d ∈ l -> NoDup (cd_id <$> l) -> cd_id e = cd_id d -> cd_seq e = cd_seq d ->
  (forall d', d' ∈ l -> data_name d' = data_name d -> d' = d) -> to_string_pretty e = Ok json ->
  represents (<[data_name d := json]> files)
    ((fun x => if decide (cd_id x = cd_id d) then e else x) <$> l).
Proof.
  intros Hf Hd Hnd Hid Hseq Hinj Hj n b.
  assert (data_name e = data_name d) as He by by rewrite /data_name Hid Hseq.
  destruct (decide (n = data_name d)) as [->|Hn].
  - rewrite lookup_insert_eq. split.
    + intros [= <-]. exists e. split; [|done]. apply list_elem_of_fmap. exists d.
      by rewrite decide_True.
    + intros (x & (x0 & -> & Hx0)%list_elem_of_fmap & En & Hb). case_decide as Hx; [congruence|].
      by rewrite (Hinj x0 Hx0) in Hx.
  - rewrite lookup_insert_ne // Hf. split.
    + intros (x & Hx & -> & Hb). exists x. split; [|done]. apply list_elem_of_fmap. exists x.
      rewrite decide_False //. intros Hx'. apply Hn. f_equal. by apply (NoDup_fmap_elem_inj cd_id l).
    + intros (x & (x0 & -> & Hx0)%list_elem_of_fmap & -> & Hb). case_decide; [congruence|]. by eauto.
Qed.

Lemma create_dir_quiet t fs :
  plain_base (fc_base fs) ->
  create_dir_all io (SubDir t) fs =
  (Ok (), set_base (<[t := BDir (thread_files (fc_base fs) t)]> (fc_base fs)) fs).
Proof.
  intros Hb. unfold create_dir_all, disk_op. rewrite io_quiet. cbn. unfold thread_files.
  destruct (fc_base fs !! t) as [e|] eqn:E; [|done].
  destruct (Hb t e E) as [_ [files ->]]. cbn. by rewrite insert_id.
Qed.

(** No temporary file is left in a thread's directory. *)
Lemma no_tmp files l name : represents files l -> files !! tmp_name name = None.
Proof.
  intros Hf. destruct (files !! _) as [b|] eqn:E; [|done].
  apply Hf in E as (d & _ & E & _). pose proof (tmp_not_json name) as Hn.
  by rewrite E is_json_file_name in Hn.
Qed.

Lemma save_quiet parent t s rc fs m F :
  refines fs m F -> plain_thread t ->
  let d := checkpoint_of uuid clock parent t s rc fs in
  exists json k, to_string_pretty d = Ok json /\
    file_save_fork_threaded uuid clock to_string_pretty io parent t s rc fs =
    (Ok (cd_id d),
     mkFileStore (<[t := BDir (<[data_name d := json]> (thread_files (fc_base fs) t))]> (fc_base fs))
       (fetch_add_1 (fc_next_seq fs)) (fc_tick fs + 1) k).
Proof.
  intros R Ht d. destruct (serializes d eq_refl) as (json & Hj & _). exists json.
  unfold file_save_fork_threaded. unfold mbind, act_bind. rewrite (proj1 Ht). cbn.
  fold d. change (checkpoint_of uuid clock parent t s rc fs) with d.
  unfold thread_dir. rewrite (proj1 Ht). cbn. rewrite join_base_plain //.
  rewrite create_dir_quiet; [|apply R]. cbn.
  unfold serialize, checked, act_of_result.
  change (CheckpointData.set_lineage (Some t) parent
    (CheckpointData.with_progress (uuid (fc_tick fs)) (clock (fc_tick fs)) s (fc_next_seq fs) rc)) with d.
  rewrite Hj. cbn.
  change (file_name (fc_next_seq fs) (uuid (fc_tick fs))) with (data_name d).
  set (fs1 := set_base _ _).
  destruct (atomic_write_quiet t (data_name d) json fs1 (thread_files (fc_base fs) t)) as [k E].
  - apply lookup_insert_eq.
  - apply is_json_file_name.
  - eapply no_tmp, R.
  - exists k. split; [done|]. rewrite E. cbn. by rewrite insert_insert_eq.
Qed.

(** Both backends change one thread. *)
Lemma refines_change fs m F t files l m' n k :
  refines fs m F -> plain_thread t -> represents files l ->
  (forall d, d ∈ l -> cd_metadata d = ∅) ->
  unnumber <$> l = unnumber <$> items (mem_entry m' t) ->
  StronglySorted seq_lt l -> (forall d, d ∈ l -> (cd_seq d < n)%N) ->
  StronglySorted seq_lt (items (mem_entry m' t)) ->
  (forall t', t' <> t -> items (mem_entry m' t') = items (mem_entry m t')) ->
  mem_inv uuid clock m' -> tick m' <= limit -> n = N.of_nat (tick m') -> (fc_next_seq fs <= n)%N ->
  refines (mkFileStore (<[t := BDir files]> (fc_base fs)) n (tick m') k) m'
    (fun t' => if bool_decide (t' = t) then l else F t').
Proof.
  intros R Ht Hf Hm Hs Hl Hn Hml Hother Hi Hlim -> Hle. split; cbn [fc_base fc_next_seq fc_tick]; try done.
  - by apply plain_base_insert; [apply R|].
  - intros t'. rewrite thread_files_insert. case_bool_decide; [done|apply R].
  - intros t' d. case_bool_decide; [apply Hm|apply R].
  - intros t'. case_bool_decide as E; [by subst|]. rewrite Hother //. apply R.
  - intros t'. case_bool_decide; [done|apply R].
  - intros t' d. case_bool_decide; [apply Hn|]. intros Hd. pose proof (rf_next _ _ _ R t' d Hd). lia.
  - intros t'. destruct (decide (t' = t)) as [->|E]; [done|]. rewrite Hother //. apply R.
Qed.

Lemma seq_lt_snoc l d :
  StronglySorted seq_lt l -> (forall x, x ∈ l -> (cd_seq x < cd_seq d)%N) -> StronglySorted seq_lt (l ++ [d]).
Proof.
  induction 1 as [|x l Hl IH Hx]; intros Hd; [by repeat constructor|]. cbn. constructor.
  - apply IH. intros y Hy. apply Hd. by right.
  - apply Forall_app. split; [done|]. constructor; [|done]. apply Hd. by left.
Qed.

Lemma fork_agrees parent t s rc fs m F :
  refines fs m F -> plain_thread t -> tick m < limit ->
  simulates (fun x => x) (file_save_fork_threaded uuid clock to_string_pretty io parent t s rc)
    (mem_save_fork uuid clock parent t s rc) fs m.
Proof.
  intros R Ht Hroom. destruct (save_quiet parent t s rc fs m F R Ht) as (json & k & Hj & E).
  set (d := checkpoint_of _ _ _ _ _ _ fs) in *.
  pose proof (rf_mem _ _ _ R) as Hi. pose proof (rf_tick _ _ _ R) as Htick.
  pose proof (rf_count _ _ _ R) as Hcount.
  assert (cd_id d = uuid (tick m)) as Hid by by rewrite -Htick.
  assert (fetch_add_1 (fc_next_seq fs) = N.of_nat (tick m + 1)) as Hnext.
  { unfold fetch_add_1. rewrite Hcount N.mod_small; lia. }
  do 5 eexists. split; [exact E|]. split; [apply mem_save_fork_eq|]. split; [by rewrite Hid|].
  split; [|cbn; lia]. rewrite Htick.
  set (m' := mem_push m t _). change (tick m + 1) with (tick m').
  apply (refines_change fs m F t _ (F t ++ [d])); try done; subst m'.
  - apply represents_put; [apply R|done|]. intros d' Hd' Hn.
    assert (cd_id d' = cd_id d) as Hc.
    { eapply file_name_id; [|exact Hn]. destruct (file_written _ _ _ R t d' Hd') as [_ [_ ->]].
      rewrite Hid. by destruct (uuid_plain (tick m) Hroom) as [_ ->]. }
    assert (cd_id d' ∈ cd_id <$> items (mem_entry m t)) as (d'' & Heq & Hd'')%list_elem_of_fmap.
    { rewrite -(same_ids _ _ _ R). by apply list_elem_of_fmap_2. }
    apply (uuid_not_issued uuid clock uuid_fresh m t d'' Hi Hd''). congruence.
  - intros x [Hx|[->|?%elem_of_nil]%elem_of_cons]%elem_of_app; [by eapply rf_meta|done|done].
  - rewrite mem_entry_push decide_True //= !fmap_app (rf_same _ _ _ R). f_equal. cbn.
    unfold unnumber. cbn. by rewrite Htick.
  - apply seq_lt_snoc; [apply R|]. intros x Hx. by apply (rf_next _ _ _ R t).
  - intros x [Hx|[->|?%elem_of_nil]%elem_of_cons]%elem_of_app; [|cbn; lia|done].
    pose proof (rf_next _ _ _ R t x Hx). cbn in *. lia.
  - rewrite mem_entry_push decide_True //=. apply seq_lt_snoc; [apply R|].
    intros x Hx. by apply (mi_seq _ _ _ Hi).
  - intros t' Hne. by rewrite mem_entry_push decide_False.
  - by apply mem_inv_push.
  - cbn. lia.
  - rewrite Hnext Hcount. lia.
Qed.

(** ** Deleting and pruning *)

Lemma seq_lt_filter (P : CheckpointData S -> Prop) `{!forall d, Decision (P d)} l :
  StronglySorted seq_lt l -> StronglySorted seq_lt (filter P l).
Proof.
  induction 1 as [|x l Hl IH Hx]; [constructor|]. rewrite filter_cons. case_decide; [|done].
  constructor; [done|]. apply Forall_forall. intros y [_ Hy]%list_elem_of_filter.
  rewrite Forall_forall in Hx. by apply Hx.
Qed.

Lemma delete_quiet t id fs m F :
  refines fs m F -> plain_thread t -> plain_id id ->
  exists fs', file_delete_threaded io order t id fs = (Ok (), fs') /\
    match find_by id (F t) with
    | Some d => exists k, fs' = mkFileStore
        (<[t := BDir (base.delete (data_name d) (thread_files (fc_base fs) t))]> (fc_base fs))
        (fc_next_seq fs) (fc_tick fs) k
    | None => exists k, fs' = moved fs k
    end.
Proof.
  intros R Ht Hid. unfold file_delete_threaded, mbind, act_bind.
  rewrite (proj1 Ht) (proj1 Hid). cbn. unfold thread_dir. rewrite (proj1 Ht).
  assert (forall k, exists k', (if t =ₛ DEFAULT_THREAD
     then (legacy ← checked (legacy_flat_path id); there ← test (path_exists legacy);
           if there : bool then remove_file io "Delete error: " legacy else mret ())
     else mret ()) (moved fs k) = (Ok (), moved fs k')) as Hleg.
  { intros k. exists k. case_bool_decide; [|done]. unfold mbind, act_bind, legacy_flat_path.
    rewrite (proj1 Hid). cbn. rewrite legacy_absent //; [apply R|by apply plain_id_ne]. }
  destruct (Hleg (fc_io fs)) as [k0 E0]. unfold mbind, act_bind in E0.
  assert (moved fs (fc_io fs) = fs) as Hmv by by destruct fs. rewrite Hmv in E0. rewrite E0. cbn.
  rewrite join_base_plain //.
  destruct (reads_find_file (fc_base fs) t (F t) id
    (fun r => r = Ok (path_of t <$> find_by id (F t))) (refines_thread _ _ _ R t) (rf_base _ _ _ R) Hid eq_refl
    (moved fs k0) eq_refl) as (r & k & E & ->).
  rewrite E. destruct (find_by id (F t)) as [d|] eqn:Ed; cbn; [|eexists; split; [done|]; by exists k].
  apply find_by_Some in Ed as [Hd _].
  destruct (thread_read _ _ _ _ (refines_thread _ _ _ R t) Hd) as (json & Hj & _).
  unfold remove_file, disk_op. rewrite io_quiet. cbn.
  change (fc_base fs) with (fc_base (moved fs k)) in Hj. revert Hj. unfold get_file.
  destruct (entry (SubDir t, data_name d) (fc_base (moved fs k))) as [[b|]|] eqn:En; [|done..]. intros _.
  cbn in En. rewrite En. eexists. split; [done|]. exists (k + 1)%N.
  unfold entry in En. cbn in En. unfold drop_file, thread_files. cbn.
  destruct (fc_base fs !! t) as [[|files]|]; done.
Qed.

Lemma refines_same_items fs m F m' k :
  refines fs m F -> (forall t, items (mem_entry m' t) = items (mem_entry m t)) -> tick m' = tick m ->
  mem_inv uuid clock m' -> refines (moved fs k) m' F.
Proof.
  intros R He Ht Hi. split; cbn; try apply R; try done.
  - rewrite Ht. apply R.
  - rewrite Ht. apply R.
  - intros t. rewrite He. apply R.
  - intros t. rewrite He. apply R.
  - rewrite Ht. apply R.
Qed.

Lemma delete_step t id fs m F :
  refines fs m F -> plain_thread t -> plain_id id ->
  exists fs' F', file_delete_threaded io order t id fs = (Ok (), fs') /\
    mem_delete t id m = (Ok (), mem_drop m t id) /\ refines fs' (mem_drop m t id) F' /\
    tick (mem_drop m t id) = tick m.
Proof.
  intros R Ht Hid. destruct (delete_quiet t id fs m F R Ht Hid) as (fs' & E & Hfs').
  assert (tick (mem_drop m t id) = tick m) as Htick.
  { unfold mem_drop, mem_delete. by destruct (threads m !! t). }
  assert (mem_inv uuid clock (mem_drop m t id)) as Hi by by apply mem_inv_drop, (rf_mem _ _ _ R).
  assert (mem_delete t id m = (Ok (), mem_drop m t id)) as Em.
  { unfold mem_drop, mem_delete. by destruct (threads m !! t). }
  destruct (find_by id (F t)) as [d|] eqn:Ed.
  - destruct Hfs' as [k ->]. apply find_by_Some in Ed as [Hd <-]. do 2 eexists. split_and!; try done.
    replace (fc_tick fs) with (tick (mem_drop m t (cd_id d))) by (rewrite Htick; symmetry; apply R).
    apply (refines_change fs m F t _ (filter (fun x => cd_id x <> cd_id d) (F t))); try done.
    + apply represents_drop; [apply R|by eapply to_nodup, (refines_thread fs m F)| |done].
      intros d' Hd' Hn. by eapply (data_name_inj _ t (F t)); [by eapply refines_thread|..].
    + intros x [_ Hx]%list_elem_of_filter. by eapply rf_meta.
    + rewrite mem_entry_drop decide_True //=.
      assert (forall l : list (CheckpointData S), unnumber <$> filter (fun x => cd_id x <> cd_id d) l =
        filter (fun x => cd_id x <> cd_id d) (unnumber <$> l)) as Hcomm
        by (intros l; by rewrite filter_fmap_list).
      by rewrite !Hcomm (rf_same _ _ _ R).
    + apply seq_lt_filter, R.
    + intros x [_ Hx]%list_elem_of_filter. by apply (rf_next _ _ _ R t).
    + rewrite mem_entry_drop decide_True //=. apply seq_lt_filter, R.
    + intros t' Hne. by rewrite mem_entry_drop decide_False.
    + rewrite Htick. apply R.
    + rewrite Htick. apply R.
  - destruct Hfs' as [k ->]. do 2 eexists. split_and!; try done.
    apply (refines_same_items fs m F); try done. intros t'. rewrite mem_entry_drop.
    case_decide as E'; [subst t'; cbn|done]. apply filter_all. intros x Hx Hxid.
    assert (cd_id x ∈ cd_id <$> F t) as (x' & E' & Hx')%list_elem_of_fmap.
    { rewrite (same_ids _ _ _ R). by apply list_elem_of_fmap_2. }
    by apply (proj1 (find_by_None _ _) Ed x' Hx'); rewrite -E'.
Qed.

Lemma delete_agrees t id fs m F :
  refines fs m F -> plain_thread t -> plain_id id ->
  simulates (fun x => x) (file_delete_threaded io order t id) (mem_delete t id) fs m.
Proof.
  intros R Ht Hid. destruct (delete_step t id fs m F R Ht Hid) as (fs' & F' & E & Em & R' & Htick).
  do 5 eexists. split_and!; [exact E|exact Em|done|exact R'|lia|lia].
Qed.

Lemma delete_all t ids fs m F :
  refines fs m F -> plain_thread t -> Forall plain_id ids ->
  exists fs' m' F', act_iter (fun id => file_delete_threaded io order t id) ids fs = (Ok (), fs') /\
    act_iter (fun id => mem_delete t id) ids m = (Ok (), m') /\ refines fs' m' F' /\ tick m' = tick m.
Proof.
  intros R Ht Hids. revert fs m F R. induction Hids as [|id ids Hid Hids IH]; intros fs m F R.
  - by exists fs, m, F.
  - destruct (delete_step t id fs m F R Ht Hid) as (fs1 & F1 & E & Em & R1 & Htick).
    destruct (IH fs1 _ F1 R1) as (fs2 & m2 & F2 & E2 & Em2 & R2 & Htick2).
    exists fs2, m2, F2. cbn [act_iter]. unfold mbind, act_bind. rewrite E Em.
    split_and!; [done..|congruence].
Qed.

Lemma prune_agrees t mc ma now fs m F :
  refines fs m F -> plain_thread t ->
  simulates (fun x => x) (file_prune from_str io order t mc ma now)
    (Default.prune mem_snapshots mem_delete t mc ma now) fs m.
Proof.
  intros R Ht. set (ordered := (fun d => (cd_id d, cd_timestamp d)) <$> sort_by key_le (F t)).
  destruct (reads_sorted (fc_base fs) t (F t) (fun r => r = Ok (key_of <$> sort_by key_le (F t)))
    (refines_thread _ _ _ R t) (rf_base _ _ _ R) Ht eq_refl fs eq_refl) as (r & k & E & ->).
  assert (Forall plain_id (retention_trim_ids ordered mc ma now)) as Hplain.
  { apply Forall_forall. intros id Hid.
    assert (id ∈ ordered.*1) as Hin.
    { rewrite -(retention_split ordered mc ma now). apply elem_of_app. by left. }
    unfold ordered in Hin. rewrite -list_fmap_compose in Hin.
    apply list_elem_of_fmap in Hin as (d & -> & Hd). rewrite sort_by_perm in Hd.
    by destruct (file_written _ _ _ R t d Hd). }
  destruct (delete_all t _ (moved fs k) m F (refines_moved _ _ _ k R) Ht Hplain)
    as (fs' & m' & F' & E1 & E2 & R' & Htick).
  exists (Ok (length (retention_trim_ids ordered mc ma now))),
    (Ok (length (retention_trim_ids ordered mc ma now))), fs', m', F'.
  split; [|split; [|split; [done|split; [done|lia]]]].
  - unfold file_prune, mbind, act_bind. rewrite E -list_fmap_compose.
    change ((fun key : SortKey => (key.2, key.1.1)) ∘ key_of)
      with (fun d : CheckpointData S => (cd_id d, cd_timestamp d)). fold ordered. by rewrite E1.
  - unfold Default.prune, mbind, act_bind. rewrite mem_snapshots_eq.
    assert ((fun s : CheckpointInfo S => (ci_id s, ci_timestamp s)) <$> mem_view m t = ordered) as ->.
    { unfold mem_view, ThreadStore.sorted, ordered. rewrite -list_fmap_compose. symmetry.
      apply same_fmap; [done|]. by apply (same_sorted fs m F). }
    by rewrite E2.
Qed.

(** ** Editing *)

Lemma unnumber_edited id s (l : list (CheckpointData S)) :
  unnumber <$> (edited id s <$> l) = edited id s <$> (unnumber <$> l).
Proof.
  rewrite -!list_fmap_compose. apply list_fmap_ext. intros _ d _.
  unfold edited, unnumber, CheckpointData.edit. cbn. by case_decide.
Qed.

Lemma seq_lt_edited id s l : StronglySorted seq_lt l -> StronglySorted seq_lt (edited id s <$> l).
Proof.
  intros H. apply StronglySorted_map. revert H. apply StronglySorted_mono. intros x y.
  unfold seq_lt. by rewrite !(proj1 (proj2 (edited_fields id s _))).
Qed.

(** The default thread has the checkpoint on both sides, or on neither. *)
Lemma find_both t id fs m F :
  refines fs m F ->
  match find_by id (F t) with
  | Some d => d ∈ F t /\ cd_id d = id /\
      exists d', d' ∈ items (mem_entry m t) /\ unnumber d = unnumber d'
  | None => forall d', d' ∈ items (mem_entry m t) -> cd_id d' <> id
  end.
Proof.
  intros R. pose proof (same_find fs m F R t id) as H. destruct (find_by id (F t)) as [d|] eqn:E.
  - apply find_by_Some in E as [Hd Hid]. split_and!; [done..|].
    destruct (find_by id (items (mem_entry m t))) as [d'|] eqn:E'; [|done].
    apply find_by_Some in E' as [Hd' _]. exists d'. split; [done|]. exact (inj Some _ _ H).
  - destruct (find_by id (items (mem_entry m t))) eqn:E'; [done|]. by apply find_by_None.
Qed.

Lemma update_quiet d s fs m F :
  refines fs m F -> d ∈ F DEFAULT_THREAD ->
  exists json k, to_string_pretty (CheckpointData.edit s d) = Ok json /\
    file_update_state to_string_pretty from_str io order (cd_id d) s (cd_version d) fs =
    (Ok (cd_version d + 1)%N,
     mkFileStore (<[DEFAULT_THREAD := BDir (<[data_name d := json]>
                     (thread_files (fc_base fs) DEFAULT_THREAD))]> (fc_base fs))
       (fc_next_seq fs) (fc_tick fs) k).
Proof.
  intros R Hd. destruct (serializes (CheckpointData.edit s d)) as (json & Hj & _).
  { exact (rf_meta _ _ _ R _ _ Hd). }
  exists json. destruct (file_written _ _ _ R _ _ Hd) as [_ Hid].
  assert (find_by (cd_id d) (F DEFAULT_THREAD) = Some d) as Hf.
  { apply find_by_elem; [by eapply to_nodup, (refines_thread fs m F)|done]. }
  destruct (reads_resolve (fc_base fs) DEFAULT_THREAD _ (cd_id d) _ (refines_thread _ _ _ R _)
    (rf_base _ _ _ R) plain_default Hid eq_refl fs eq_refl) as (r & k & E & <-).
  unfold file_update_state, mbind, act_bind. rewrite E Hf. cbn. rewrite N.eqb_refl. cbn.
  unfold serialize, checked, act_of_result. rewrite Hj. cbn.
  destruct (atomic_write_quiet DEFAULT_THREAD (data_name d) json (moved fs k)
    (thread_files (fc_base fs) DEFAULT_THREAD)) as [k' E'].
  - cbn. destruct (thread_read _ _ _ _ (refines_thread _ _ _ R _) Hd) as (b & Hb & _).
    apply get_file_Some in Hb as (names & Hn & _). cbn in Hn. unfold thread_files.
    by destruct (fc_base fs !! DEFAULT_THREAD) as [[|]|].
  - apply is_json_file_name.
  - eapply no_tmp, R.
  - exists k'. split; [done|].
    change (thread_dir DEFAULT_THREAD) with (@Ok GraphError _ (SubDir DEFAULT_THREAD)). cbv iota.
    change (file_name (cd_seq d) (cd_id d)) with (data_name d). rewrite E'. cbn.
    unfold legacy_flat_path. by rewrite (proj1 Hid).
Qed.

Lemma edited_as_replace d s (l : list (CheckpointData S)) :
  NoDup (cd_id <$> l) -> d ∈ l ->
  edited (cd_id d) s <$> l =
  (fun x => if decide (cd_id x = cd_id d) then CheckpointData.edit s d else x) <$> l.
Proof.
  intros Hnd Hd. apply list_fmap_ext. intros i x Hx%list_elem_of_lookup_2. unfold edited.
  case_decide as Hx'; [|done]. f_equal. by apply (NoDup_fmap_elem_inj cd_id l).
Qed.

(** The edit, once it is granted. *)
Lemma refines_edited d s fs m F m' json k :
  refines fs m F -> d ∈ F DEFAULT_THREAD -> to_string_pretty (CheckpointData.edit s d) = Ok json ->
  updated m (cd_id d) s m' -> mem_inv uuid clock m' ->
  (forall t d', d' ∈ items (mem_entry m t) -> cd_id d' = cd_id d -> t = DEFAULT_THREAD) ->
  refines (mkFileStore (<[DEFAULT_THREAD := BDir (<[data_name d := json]>
             (thread_files (fc_base fs) DEFAULT_THREAD))]> (fc_base fs)) (fc_next_seq fs) (tick m') k) m'
    (fun t' => if bool_decide (t' = DEFAULT_THREAD)
               then edited (cd_id d) s <$> F DEFAULT_THREAD else F t').
Proof.
  intros R Hd Hj [Htick Hitems] Hi Honly. pose proof (refines_thread fs m F R DEFAULT_THREAD) as Hok.
  apply (refines_change fs m F); try done.
  - rewrite edited_as_replace; [|apply Hok|done].
    apply represents_edit; [apply R|done|apply Hok|done|done| |done].
    intros x Hx Hn. by eapply data_name_inj.
  - intros x (x0 & -> & Hx0)%list_elem_of_fmap. pose proof (rf_meta _ _ _ R _ _ Hx0).
    unfold edited. by case_decide.
  - rewrite unnumber_edited (rf_same _ _ _ R) -unnumber_edited. by rewrite (proj1 (Hitems _)).
  - apply seq_lt_edited, R.
  - intros x (x0 & -> & Hx0)%list_elem_of_fmap.
    destruct (edited_fields (cd_id d) s x0) as (_ & -> & _). by apply (rf_next _ _ _ R DEFAULT_THREAD).
  - rewrite (proj1 (Hitems _)). apply seq_lt_edited, R.
  - intros t' Hne. rewrite (proj1 (Hitems _)). rewrite -{2}(list_fmap_id (items (mem_entry m t'))).
    apply list_fmap_ext. intros i x Hx%list_elem_of_lookup_2. unfold edited.
    rewrite decide_False //. intros Hxid. by apply Hne, (Honly t' x).
  - rewrite Htick. apply R.
  - rewrite Htick. apply R.
Qed.

Lemma update_agrees id s v fs m F :
  refines fs m F -> plain_id id ->
  (forall t d, d ∈ items (mem_entry m t) -> cd_id d = id -> t = DEFAULT_THREAD) ->
  simulates (fun x => x) (file_update_state to_string_pretty from_str io order id s v)
    (update_locked id s v) fs m.
Proof.
  intros R Hid Honly. pose proof (rf_mem _ _ _ R) as Hi.
  pose proof (find_both DEFAULT_THREAD id fs m F R) as Hf.
  destruct (reads_resolve (fc_base fs) DEFAULT_THREAD _ id _ (refines_thread _ _ _ R _)
    (rf_base _ _ _ R) plain_default Hid eq_refl fs eq_refl) as (r & k & E & <-).
  destruct (find_by id (F DEFAULT_THREAD)) as [d|] eqn:Ed.
  2:{ exists (Err (not_found id)), (Err (not_found id)), (moved fs k), m, F.
      split_and!; [by unfold file_update_state, mbind, act_bind; rewrite E| |done|by apply refines_moved|lia|lia].
      apply (update_locked_missing uuid clock); [done|]. intros t. rewrite ids_view_perm.
      intros (d & -> & Hd)%list_elem_of_fmap. pose proof (Honly t d Hd eq_refl) as ->. by apply (Hf d Hd). }
  destruct Hf as (Hd & <- & d' & Hd' & Hdd). assert (cd_id d' = cd_id d) as Hid' by (unfold unnumber in Hdd; congruence).
  assert (cd_version d' = cd_version d) as Hv by (unfold unnumber in Hdd; congruence).
  pose proof (update_locked_found uuid clock m DEFAULT_THREAD d' s v Hi Hd') as Hu.
  rewrite Hid' Hv in Hu. case_decide as Hdec.
  - subst v. destruct Hu as (m' & Em & Hupd).
    destruct (update_quiet d s fs m F R Hd) as (json & k' & Hj & E').
    exists (Ok (cd_version d + 1)%N), (Ok (cd_version d + 1)%N). do 3 eexists.
    split; [exact E'|]. split; [exact Em|]. split; [done|]. split; [|rewrite (proj1 Hupd); lia].
    replace (fc_tick fs) with (tick m') by (rewrite (proj1 Hupd); symmetry; apply R).
    apply (refines_edited d s fs m F); try done. by eapply mem_inv_updated.
  - exists (Err (CheckpointVersionConflict (cd_id d) v (cd_version d))),
      (Err (CheckpointVersionConflict (cd_id d) v (cd_version d))), (moved fs k), m, F.
    split_and!; [|done|done|by apply refines_moved|lia|lia].
    unfold file_update_state, mbind, act_bind. rewrite E. cbn.
    by rewrite (proj2 (N.eqb_neq _ _) Hdec).
Qed.

(** ** Lineage *)

Lemma reads_candidates base names P :
  plain_base base -> (forall n, n ∈ names -> is_Some (base !! n)) -> P (Ok names) ->
  reads base (thread_candidates io names) P.
Proof.
  intros Hb. revert P. induction names as [|n names IH]; intros P Hn HP; cbn [thread_candidates].
  - by apply reads_ret.
  - apply reads_bind, reads_act_ok, reads_next_entry. cbn. apply reads_bind, reads_test.
    destruct (Hn n (list_elem_of_here _ _)) as [e E]. destruct (Hb n e E) as [_ [files ->]].
    rewrite E. apply reads_bind, IH; [intros; apply Hn; by right|]. by apply reads_ret.
Qed.

(** The first candidate whose files name the id. *)
Fixpoint first_thread (F : string -> list (CheckpointData S)) (id : string) (ts : list string)
    : option (string * option string) :=
  match ts with
  | [] => None
  | t :: ts' => match find_by id (F t) with
                | Some d => Some (t, cd_parent_id d)
                | None => first_thread F id ts'
                end
  end.

Lemma reads_probe fs m F id ts P :
  refines fs m F -> plain_id id -> Forall plain_thread ts -> P (Ok (first_thread F id ts)) ->
  reads (fc_base fs) (probe_threads from_str io order id ts) P.
Proof.
  intros R Hid Hts. induction Hts as [|t ts Ht Hts IH]; intros HP; cbn [probe_threads].
  - by apply reads_ret.
  - apply reads_bind, (reads_resolve _ t (F t)); [by apply (refines_thread fs m F)|apply R|done..|].
    cbn in HP. destruct (find_by id (F t)) as [d|]; cbn; [by apply reads_ret|by apply IH].
Qed.

Lemma first_thread_unique (F : string -> list (CheckpointData S)) id t d ts :
  find_by id (F t) = Some d -> t ∈ ts ->
  (forall t', is_Some (find_by id (F t')) -> t' = t) -> first_thread F id ts = Some (t, cd_parent_id d).
Proof.
  intros Hf Hin Hu. induction ts as [|t' ts IH]; [by apply elem_of_nil in Hin|]. cbn.
  destruct (find_by id (F t')) as [d'|] eqn:E.
  - assert (t' = t) as -> by (apply Hu; rewrite E; by eexists). congruence.
  - apply IH. apply elem_of_cons in Hin as [->|Hin]; [congruence|done].
Qed.

Lemma first_thread_none (F : string -> list (CheckpointData S)) id ts :
  (forall t, find_by id (F t) = None) -> first_thread F id ts = None.
Proof. intros H. induction ts as [|t ts IH]; [done|]. cbn. by rewrite H. Qed.

Lemma thread_on_disk fs m F t d :
  refines fs m F -> d ∈ F t -> is_Some (fc_base fs !! t).
Proof.
  intros R Hd. destruct (thread_read _ _ _ _ (refines_thread fs m F R t) Hd) as (b & Hb & _).
  apply get_file_Some in Hb as (names & Hn & _). cbn in Hn. by destruct (fc_base fs !! t).
Qed.

(** Probing the default thread and then every directory finds what the scan of the
    in-memory map finds. *)
Lemma first_thread_spec fs m F id names :
  refines fs m F -> names ≡ₚ (map_to_list (fc_base fs)).*1 ->
  mem_checkpoint_lineage id m = (Ok (first_thread F id (DEFAULT_THREAD :: names)), m).
Proof.
  intros R Hn. pose proof (rf_mem _ _ _ R) as Hi. unfold mem_checkpoint_lineage.
  destruct (find_thread (map_to_list (threads m)) id) as [[t d']|] eqn:E.
  - apply (find_thread_spec uuid clock) in E as [Hd' <-]; [|done].
    pose proof (find_both t (cd_id d') fs m F R) as Hf.
    destruct (find_by (cd_id d') (F t)) as [d|] eqn:Ed; [|by destruct (Hf d' Hd')].
    destruct Hf as (Hd & Hid & d'' & Hd'' & Hdd).
    assert (d'' = d') as ->.
    { apply (NoDup_fmap_elem_inj cd_id (items (mem_entry m t))); [apply Hi|done..|].
      unfold unnumber in Hdd. congruence. }
    rewrite (first_thread_unique F _ t d); [|done| |].
    + unfold unnumber in Hdd. by injection Hdd as ? ? ? ? ? ? ? ->.
    + right. rewrite Hn. destruct (thread_on_disk fs m F t d R Hd) as [e He].
      apply list_elem_of_fmap. exists (t, e). split; [done|]. by apply elem_of_map_to_list.
    + intros t' [x Hx]. pose proof (find_both t' (cd_id d') fs m F R) as Hf'. rewrite Hx in Hf'.
      destruct Hf' as (_ & Hxid & x' & Hx' & Hxx). eapply (mi_disjoint _ _ _ Hi); [done..|].
      unfold unnumber in Hxx. congruence.
  - rewrite first_thread_none //. intros t. pose proof (find_both t id fs m F R) as Hf.
    destruct (find_by id (F t)) as [d|]; [|done]. exfalso.
    destruct Hf as (_ & <- & d' & Hd' & Hdd).
    assert (cd_id d' = cd_id d) as Heq by (unfold unnumber in Hdd; congruence).
    rewrite (proj2 (find_thread_spec uuid clock m (cd_id d) t d' Hi) (conj Hd' Heq)) in E. done.
Qed.

Lemma lineage_agrees id fs m F :
  refines fs m F -> plain_id id ->
  simulates (fun x => x) (file_checkpoint_lineage from_str io order id) (mem_checkpoint_lineage id) fs m.
Proof.
  intros R Hid.
  assert (exists names, names ≡ₚ (map_to_list (fc_base fs)).*1 /\
    reads (fc_base fs) (file_checkpoint_lineage from_str io order id)
      (fun r => exists names', names' ≡ₚ names /\ r = Ok (first_thread F id (DEFAULT_THREAD :: names'))))
    as (names & Hn & Hr).
  { exists (map_to_list (fc_base fs)).*1. split; [done|]. unfold file_checkpoint_lineage.
    apply reads_bind, reads_act_ok. eapply reads_read_dir; [done|]. intros l Hl.
    assert ((map_to_list ((fun e => match e with BFile b => Some b | BDir _ => None end) <$> fc_base fs)).*1
      = (map_to_list (fc_base fs)).*1) as Hfst.
    { rewrite map_to_list_fmap -list_fmap_compose. by apply list_fmap_ext; intros ? []. }
    rewrite Hfst in Hl. cbn [ok]; cbv iota.
    assert (forall n, n ∈ l -> is_Some (fc_base fs !! n)) as Hin.
    { intros n Hnl. rewrite Hl in Hnl. apply list_elem_of_fmap in Hnl as ([n' e] & -> & Hne).
      apply elem_of_map_to_list in Hne. by exists e. }
    apply reads_bind, reads_candidates; [apply R|done|]. apply (reads_probe fs m F); [done..| |by exists l].
    constructor; [apply plain_default|]. apply Forall_forall. intros n Hnl.
    destruct (Hin n Hnl) as [e He]. by destruct (rf_base _ _ _ R n e He). }
  destruct (Hr fs eq_refl) as (r & k & E & names' & Hn' & ->).
  exists (Ok (first_thread F id (DEFAULT_THREAD :: names'))), (Ok (first_thread F id (DEFAULT_THREAD :: names'))).
  exists (moved fs k), m, F. split_and!; [done| |done|by apply refines_moved|lia|lia].
  apply (first_thread_spec fs); [done|]. by rewrite Hn'.
Qed.

(** ** A whole session *)

Notation FileCp := (FileCheckpointer uuid clock to_string_pretty from_str io order).
Notation MemCp := (ThreadSafeMemoryCheckpointer (S:=S) uuid clock).

Lemma simulates_fmap {A B} (h : A -> B) (f : A -> Answer S) op op' fs m :
  (forall a a', h a = h a' -> unnumbered (f a) = unnumbered (f a')) ->
  simulates h op op' fs m -> simulates unnumbered (act_fmap f op) (act_fmap f op') fs m.
Proof.
  intros Hf (a & b & fs' & m' & F' & E & E' & Hab & HR & Ht).
  exists (f <$> a), (f <$> b), fs', m', F'. unfold act_fmap, mbind, act_bind. rewrite E E'.
  destruct a as [a|e], b as [b|e']; try done.
  - split_and!; try done; try lia. cbn. f_equal. apply Hf. by injection Hab.
  - split_and!; try done; try lia. cbn in *. congruence.
Qed.

(** The in-memory backend, with edits of the default thread only. *)
Definition edit_default (id : string) (s : S) (v : N) : Act (MemStore S) GraphError N := fun m =>
  if decide (in_default m id) then update_locked id s v m else (Err (not_found id), m).
Definition DefaultEdits : Checkpointer S (MemStore S) :=
  mkCheckpointer (save MemCp) (load MemCp) (list_ids MemCp) (Checkpoint.delete MemCp) (Checkpoint.last MemCp) (snapshots MemCp)
    edit_default (save_threaded MemCp) (save_fork_threaded MemCp) (load_threaded MemCp) (list_threaded MemCp)
    (delete_threaded MemCp) (last_threaded MemCp) (snapshots_threaded MemCp) (checkpoint_lineage MemCp) (prune MemCp)
    (snapshots_page_threaded MemCp) (snapshots_page MemCp).

Lemma serve_default r m : match r with RUpdate id _ _ => in_default m id | _ => True end ->
  serve DefaultEdits r m = serve MemCp r m.
Proof.
  destruct r; try done. intros Hd. unfold serve, act_fmap, mbind, act_bind. cbn [update_state DefaultEdits ThreadSafeMemoryCheckpointer].
  unfold edit_default. by rewrite decide_True.
Qed.

Lemma answers_default rs m : edits_default MemCp m rs -> answers DefaultEdits rs m = answers MemCp rs m.
Proof.
  revert m. induction rs as [|r rs IH]; intros m; [done|]. cbn [answers edits_default]. intros [Hr Hrs].
  rewrite (serve_default r m Hr). destruct (serve MemCp r m) as [a m']. f_equal. by apply IH.
Qed.

(** An id is in one thread only. *)
Lemma edit_agrees id s v fs m F :
  refines fs m F -> plain_id id ->
  simulates (fun x => x) (file_update_state to_string_pretty from_str io order id s v) (edit_default id s v) fs m.
Proof.
  intros R Hid. destruct (decide (in_default m id)) as [Hd|Hd].
  { destruct (update_agrees id s v fs m F R Hid) as (a & b & fs' & m' & F' & E & E' & H).
    - intros t d Hin Heq. destruct (entry_lookup m t d Hin) as (st & Hst & Hm).
      destruct (Hd t st Hst) as [|Hn]; [done|]. destruct Hn. rewrite -Hm -Heq. by apply list_elem_of_fmap_2.
    - exists a, b, fs', m', F'. split; [done|]. split; [|done]. unfold edit_default. by rewrite decide_True. }
  assert (exists t d, t <> DEFAULT_THREAD /\ d ∈ items (mem_entry m t) /\ cd_id d = id) as (t & d & Ht & Hin & Heq).
  { apply map_not_Forall in Hd as (t & st & Hst & Hn); [|apply _]. apply Decidable.not_or in Hn as [Ht Hn].
    apply dec_stable, list_elem_of_fmap in Hn as (d & -> & Hin). exists t, d. split_and!; [done| |done].
    by rewrite (lookup_entry _ _ _ Hst). }
  pose proof (find_both DEFAULT_THREAD id fs m F R) as Hf.
  destruct (reads_resolve (fc_base fs) DEFAULT_THREAD _ id _ (refines_thread _ _ _ R _)
    (rf_base _ _ _ R) plain_default Hid eq_refl fs eq_refl) as (r & k & E & <-).
  destruct (find_by id (F DEFAULT_THREAD)) as [d0|] eqn:Ed.
  { exfalso. destruct Hf as (_ & Hd0 & d' & Hd' & Hu). assert (cd_id d' = id) as Hid' by (unfold unnumber in Hu; congruence).
    pose proof (find_thread_spec uuid clock m id) as Hs. pose proof (rf_mem _ _ _ R) as Hi.
    pose proof (proj2 (Hs t d Hi) (conj Hin Heq)) as E1. pose proof (proj2 (Hs _ d' Hi) (conj Hd' Hid')) as E2. congruence. }
  exists (Err (not_found id)), (Err (not_found id)), (moved fs k), m, F.
  split_and!; [by unfold file_update_state, mbind, act_bind; rewrite E|unfold edit_default; by rewrite decide_False|done|by apply refines_moved|lia|lia].
Qed.

Lemma serve_agrees r fs m F :
  refines fs m F -> plain_request r -> tick m < limit ->
  simulates unnumbered (serve FileCp r) (serve DefaultEdits r) fs m.
Proof.
  intros R Hp Hroom. destruct r; cbn in Hp |- *.
  - eapply (simulates_fmap (fun x => x)); [by intros ? ? ->|]. by eapply (fork_agrees None).
  - eapply (simulates_fmap (fun x => x)); [by intros ? ? ->|]. by eapply fork_agrees.
  - destruct Hp. eapply (simulates_fmap (fun x => x)); [by intros ? ? ->|]. by eapply load_agrees.
  - eapply (simulates_fmap (fun x => x)); [by intros ? ? ->|]. by eapply list_agrees.
  - eapply (simulates_fmap (fun x => x)); [by intros ? ? ->|]. by eapply last_agrees.
  - eapply simulates_fmap; [|by eapply snapshots_agree]. cbn. by intros a a' ->.
  - destruct Hp. eapply (simulates_fmap (fun x => x)); [by intros ? ? ->|]. by eapply delete_agrees.
  - eapply (simulates_fmap (fun x => x)); [by intros ? ? ->|]. by eapply prune_agrees.
  - eapply (simulates_fmap (fun x => x)); [by intros ? ? ->|]. by eapply edit_agrees.
  - eapply (simulates_fmap (fun x => x)); [by intros ? ? ->|]. by eapply lineage_agrees.
Qed.

Lemma answers_agree rs fs m F :
  refines fs m F -> Forall plain_request rs -> tick m + length rs <= limit ->
  observed <$> answers FileCp rs fs = observed <$> answers DefaultEdits rs m.
Proof.
  revert fs m F. induction rs as [|r rs IH]; intros fs m F R Hp Hroom; [done|].
  cbn [answers length] in *. apply Forall_cons in Hp as [Hr Hrs].
  destruct (serve_agrees r fs m F R Hr) as (a & b & fs' & m' & F' & E & E' & Hab & R' & Ht); [lia|].
  rewrite E E'. cbn [fmap list_fmap]. f_equal; [done|].
  apply (IH fs' m' F'); [done..|lia].
Qed.

(** *** Opening *)

Lemma new_quiet dir_name io0 :
  exists k, new io order None dir_name 0 io0 = Ok (mkFileStore ∅ 0 0 k).
Proof.
  assert (forall fs, fc_base fs = ∅ -> exists k, seed_seq_from_dir io order fs = (Ok 0%N, moved fs k)) as Hseed.
  { intros fs Hb.
    assert (reads (∅ : gmap string BaseEntry) (seed_seq_from_dir io order) (fun r => r = Ok 0%N)) as Hr.
    { assert (forall d, reads (∅ : gmap string BaseEntry) (act_ok (read_dir io order BaseDir d))
        (fun r => r = Ok (Some []))) as Hlist.
      { intros d. apply reads_act_ok. eapply reads_read_dir; [done|]. intros l Hl.
        rewrite fmap_empty map_to_list_empty in Hl. cbn in Hl.
        apply Permutation_nil_r in Hl as ->. done. }
      unfold seed_seq_from_dir, scan_dir. apply reads_bind, reads_bind.
      eapply reads_mono; [apply Hlist|]. intros _ ->.
      apply reads_bind, reads_ret, reads_ret, reads_bind.
      eapply reads_mono; [apply Hlist|]. intros _ ->. by apply reads_bind, reads_ret, reads_ret. }
    destruct (Hr fs Hb) as (r & k & E & ->). by exists k. }
  destruct (Hseed (mkFileStore ∅ 0 0 (io0 + 1)%N) eq_refl) as [k E]. exists k.
  unfold new. rewrite io_quiet. unfold mbind, result_bind. by rewrite E.
Qed.

Lemma refines_new k : refines (mkFileStore ∅ 0 0 k) mem_empty (fun _ => []).
Proof.
  split; cbn; try done.
  - intros t n b. unfold thread_files. rewrite lookup_empty lookup_empty.
    split; [done|]. by intros (d & ?%elem_of_nil & _).
  - by intros t d ?%elem_of_nil.
  - intros t. constructor.
  - by intros t d ?%elem_of_nil.
  - intros t. unfold mem_entry. cbn. rewrite lookup_empty. constructor.
  - apply mem_inv_empty.
  - lia.
Qed.

(** C8: The file backend and the in-memory backend are interchangeable, but for edits of
    checkpoints outside the default thread.  On a disk
    that works, whatever order it lists its directories in, a file checkpointer
    opened on a new directory answers any sequence of saves, forks, loads, listings,
    deletions, prunings, edits and lineage queries with plain thread names and ids
    exactly as the in-memory checkpointer does that finds no checkpoint to edit outside the
    default thread, errors included; only the sequence
    numbers shown in snapshots differ.  Where no edit names another thread's checkpoint, these
    are the answers of the in-memory checkpointer. *)
Theorem file_backend_refines_memory rs dir_name io0 :
  Forall plain_request rs -> length rs <= limit ->
  exists fs0, new io order None dir_name 0 io0 = Ok fs0 /\
    observed <$> answers FileCp rs fs0 = observed <$> answers DefaultEdits rs mem_empty /\
    (edits_default MemCp mem_empty rs -> answers DefaultEdits rs mem_empty = answers MemCp rs mem_empty).
Proof.
  intros Hp Hroom. destruct (new_quiet dir_name io0) as [k E]. eexists. split; [exact E|]. split.
  - apply (answers_agree _ _ _ (fun _ => [])); [apply refines_new|done|done].
  - apply answers_default.
Qed.

End quiet.
