(* ===== verification/FileSamples.v ===== *)
(** * The file checkpointer at work

    A serializer that round trips, a disk that works, and the properties of the file
    checkpointer applied to a session on it.  [reopened_out_of_order] and
    [dot_thread_breaks_history] run the two defects of the names on the disk. *)

From stdpp Require Import gmap strings list pretty.
From Stdlib Require Import Ascii.
From S2P Require Import Prelude Json State Checkpoint MemCheckpointer.
From S2P Require Import FileCheckpointer FileCheckpointerFacts FileRefinement.

(** ** A serializer *)

Fixpoint bits_of (p : positive) : string :=
  match p with
  | xH => ""
  | xO p' => String "0"%char (bits_of p')
  | xI p' => String "1"%char (bits_of p')
  end.
Fixpoint of_bits (s : string) : option positive :=
  match s with
  | EmptyString => Some xH
  | String c s' =>
      p ← of_bits s';
      if bool_decide (c = "0"%char) then Some (xO p)
      else if bool_decide (c = "1"%char) then Some (xI p) else None
  end.

Lemma of_bits_of p : of_bits (bits_of p) = Some p.
Proof. induction p as [p IH|p IH|]; cbn; [| |done]; by rewrite IH. Qed.

Definition Fields : Type :=
  string * nat * Z * N * nat * N * option string * option string.
Definition fields_of (d : CheckpointData nat) : Fields :=
  (cd_id d, cd_state d, cd_timestamp d, cd_seq d, cd_recursion_count d, cd_version d,
   cd_thread_id d, cd_parent_id d).
Definition of_fields (f : Fields) : CheckpointData nat :=
  let '(id, s, ts, seq, rc, v, t, p) := f in mkCheckpointData id s ts ∅ seq rc v t p.

(** Checkpoints with metadata are refused; the file checkpointer writes none. *)
Definition demo_to_string (d : CheckpointData nat) : result string string :=
  if bool_decide (cd_metadata d = ∅) then Ok (bits_of (encode (fields_of d)))
  else Err "metadata".
Definition demo_from_str (s : string) : result string (CheckpointData nat) :=
  match of_bits s ≫= decode with
  | Some f => Ok (of_fields f)
  | None => Err "expected value at line 1 column 1"
  end.

Lemma demo_serializes d : cd_metadata d = ∅ ->
  exists json, demo_to_string d = Ok json /\ demo_from_str json = Ok d.
Proof.
  intros Hd. eexists. unfold demo_to_string. rewrite bool_decide_true //. split; [done|].
  unfold demo_from_str. rewrite of_bits_of. cbn -[encode decode]. rewrite decode_encode.
  destruct d; cbn in *. by subst.
Qed.

(** Ids of 36 characters for a session of at most ten requests, a clock that ticks
    every other call, a disk that works and lists some directories backwards. *)
Definition demo_id (n : nat) : string :=
  (if n <? 10 then "00000000-0000-4000-8000-00000000000" else "not drawn in a session: ") +:+ pretty n.
Definition two_calls (n : nat) : Z := Z.of_nat (n / 2).
Definition working (n : N) (op : FileOp) : IoResult := IoDone.
Definition some_order (n : N) (l : list string) : list string := if N.odd n then rev l else l.

Lemma demo_id_plain n : n < 10 -> plain_id (demo_id n).
Proof.
  intros Hn. do 10 (destruct n as [|n]; [by vm_compute|]). lia.
Qed.

Global Instance demo_id_inj : Inj (=) (=) demo_id.
Proof.
  intros i j. unfold demo_id. destruct (i <? 10), (j <? 10); intros E; try done.
  all: apply (inj (String.append _)) in E; by apply (inj pretty) in E.
Qed.

Lemma some_order_perm n l : some_order n l ≡ₚ l.
Proof. unfold some_order. destruct (N.odd n); [|done]. symmetry. apply Permutation_rev. Qed.

Notation demo_file := (FileCheckpointer demo_id two_calls demo_to_string demo_from_str working some_order).
Notation demo_memory := (ThreadSafeMemoryCheckpointer (S:=nat) demo_id two_calls).

(** ** A session *)

Definition demo_session : list (Request nat) :=
  [RSave "alice" 10 1; RSave DEFAULT_THREAD 20 1; RSaveFork (Some (demo_id 0)) "alice" 11 2;
   RUpdate (demo_id 1) 21 1; RUpdate (demo_id 1) 22 1; RLineage (demo_id 2);
   RSnapshots "alice"; RDelete "alice" (demo_id 0); RList "alice"; RLast DEFAULT_THREAD].

(** The last edit names a checkpoint of alice's, which the file backend does not find. *)
Definition edited_session : list (Request nat) := take 9 demo_session ++ [RUpdate (demo_id 2) 12 1].

Lemma file_backend_witness :
  Forall plain_request edited_session /\ edits_default demo_memory mem_empty demo_session /\
  observed <$> answers demo_memory edited_session mem_empty =
    [Ok (AId (demo_id 0)); Ok (AId (demo_id 1)); Ok (AId (demo_id 2)); Ok (AVersion 2);
     Err (CheckpointVersionConflict (demo_id 1) 1 2);
     Ok (ALineage (Some ("alice", Some (demo_id 0))));
     Ok (ASnapshots [mkCheckpointInfo (demo_id 0) 0 0 1 10 None;
                     mkCheckpointInfo (demo_id 2) 1 0 2 11 (Some (demo_id 0))]);
     Ok ADone; Ok (AIds [demo_id 2]); Ok (AVersion 2)] /\
  (exists fs0, new working some_order None "/var/checkpoints" 0 0 = Ok fs0 /\
    observed <$> answers demo_file demo_session fs0 = observed <$> answers demo_memory demo_session mem_empty) /\
  exists fs0, new working some_order None "/var/checkpoints" 0 0 = Ok fs0 /\
    (observed <$> answers demo_file edited_session fs0) !! 9 = Some (Err (not_found (demo_id 2))).
Proof.
  pose proof (fun rs Hp Hl => file_backend_refines_memory demo_id two_calls demo_to_string demo_from_str working some_order
      (fun _ _ => eq_refl) some_order_perm demo_serializes 10 eq_refl demo_id_inj demo_id_plain rs "/var/checkpoints" 0 Hp Hl) as H.
  assert (Forall plain_request edited_session) as Hp by (apply (bool_decide_eq_true_1 _); by vm_compute).
  assert (edits_default demo_memory mem_empty demo_session) as Hd by (apply (bool_decide_eq_true_1 _); by vm_compute).
  split; [exact Hp|]. split; [exact Hd|]. split; [by vm_compute|]. split.
  - destruct (H demo_session) as (fs0 & E & Ha & Hm); [apply (bool_decide_eq_true_1 _); by vm_compute|by vm_compute|].
    exists fs0. split; [exact E|]. by rewrite Ha Hm.
  - destruct (H edited_session Hp) as (fs0 & E & Ha & _); [by vm_compute|]. exists fs0. split; [exact E|]. rewrite Ha. by vm_compute.
Defined.

(** ** A disk that fails *)

(** Writes fail after the first fifteen operations, and leave half a file. *)
Definition filling (n : N) (op : FileOp) : IoResult :=
  match op with
  | OpWrite _ => if (15 <? n)%N then IoFails "No space left on device (os error 28)" "{ id: " else IoDone
  | _ => IoDone
  end.

Definition opened (io : N -> FileOp -> IoResult) : FileStore :=
  match new io some_order None "/var/checkpoints" 0 0 with Ok fs => fs | Err _ => mkFileStore ∅ 0 0 0 end.

Notation filling_save := (file_save_fork_threaded demo_id two_calls demo_to_string filling None DEFAULT_THREAD).
Definition two_saves : FileStore := after (filling_save 2 0) (after (filling_save 1 0) (opened filling)).

Local Strategy 1000 [after two_saves].

Lemma file_save_atomic_witness :
  (filling_save 3 0 two_saves).1 = Err (CheckpointError "Write error: No space left on device (os error 28)") /\
  get_file (fc_base (after (filling_save 3 0) two_saves))
    (SubDir DEFAULT_THREAD, tmp_name (file_name 2 (demo_id 2))) = Some "{ id: " /\
  same_checkpoints (fc_base two_saves) (fc_base (after (filling_save 3 0) two_saves)).
Proof.
  assert ((filling_save 3 0 two_saves).1 =
    Err (CheckpointError "Write error: No space left on device (os error 28)")) as E by by vm_compute.
  split; [exact E|]. split; [by vm_compute|].
  exact (file_save_atomic demo_id two_calls demo_to_string filling None DEFAULT_THREAD 3 0 two_saves _ _
    (runs _ _ _ E)).
Defined.

(** ** Defects of the names on the disk *)

(** [reopen]: another process opens the same directory. *)
Definition reopen (fs : FileStore) : FileStore :=
  match new working some_order (Some (fc_base fs)) "/var/checkpoints" (fc_tick fs) (fc_io fs) with
  | Ok fs => fs | Err _ => fs
  end.

(** The counter of a reopened directory restarts at the largest number on the disk, not
    after it: two checkpoints of the same second share their number, the id decides,
    and [last] may answer the older one. *)
Definition falling_id (n : nat) : string := demo_id (9 - n).
Notation falling_save := (file_save_threaded falling_id (fun _ => 0%Z) demo_to_string working DEFAULT_THREAD).

Example reopened_out_of_order :
  let fs := after (falling_save 1 0) (opened working) in
  fc_next_seq fs = 1%N /\ fc_next_seq (reopen fs) = 0%N /\
  (file_last_threaded demo_from_str working some_order DEFAULT_THREAD (after (falling_save 2 0) fs)).1 =
    Ok (Some (2, 0)) /\
  (file_last_threaded demo_from_str working some_order DEFAULT_THREAD (after (falling_save 2 0) (reopen fs))).1 =
    Ok (Some (1, 0)).
Proof. by vm_compute. Qed.

(** The thread "." passes [validate_segment] and is the base directory: its checkpoints
    are listed in the default thread, whose history can then not be read. *)
Example dot_thread_breaks_history :
  answers demo_file [RSave "." 1 0; RList DEFAULT_THREAD; RSnapshots DEFAULT_THREAD] (opened working) =
  [Ok (AId (demo_id 0)); Ok (AIds [demo_id 0]); Err (not_found (demo_id 0))].
Proof. by vm_compute. Qed.

(** A dash-separated suffix of an id names the checkpoint too. *)
Example suffix_deletes :
  answers demo_file [RSave "alice" 1 0; RDelete "alice" "000000000000"; RList "alice"] (opened working) =
    [Ok (AId (demo_id 0)); Ok ADone; Ok (AIds [])] /\
  answers demo_memory [RSave "alice" 1 0; RDelete "alice" "000000000000"; RList "alice"] mem_empty =
    [Ok (AId (demo_id 0)); Ok ADone; Ok (AIds [demo_id 0])].
Proof. by vm_compute. Qed.
