(* ===== verification/Decorators.v ===== *)
(** * Checkpointer decorators ([checkpointer.rs], last part)

    [RetainingCheckpointer] and [TerritoryCheckpointer] map a [Checkpointer] to a
    [Checkpointer] over the same store.  A method the source does not override
    is the trait's default body ([Default.*]), not a forward to the wrapped
    object: [update_state] of the retaining decorator, and [snapshots] and
    [snapshots_page] of the territory decorator, are such methods.
    Without a policy the retention decorator keeps the contract of the store it
    wraps; a territory always does. *)

From stdpp Require Import gmap strings list pretty.
From Stdlib Require Import Ascii.
From S2P Require Import Prelude Json State Checkpoint MemCheckpointer.

(** ** [RetainingCheckpointer] *)

Module RetainingCheckpointer.
Section retaining.
Context {S C : Type} `{Clock C} (inner : Checkpointer S C) (retention : CheckpointRetention).

(** [prune_after_save]: prune the thread the lineage of the new id names. *)
Definition prune_after_save (checkpoint_id : string) : Act C GraphError () :=
  match max_checkpoints retention, max_age_secs retention with
  | None, None => mret ()
  | _, _ =>
      now ← utc_now;
      lineage ← checkpoint_lineage inner checkpoint_id;
      let thread := default DEFAULT_THREAD (fst <$> lineage) in
      prune inner thread (max_checkpoints retention) (max_age_secs retention) now;;
      mret ()
  end.

Definition save (state : S) (recursion_count : nat) : Act C GraphError string :=
  id ← save inner state recursion_count;
  prune_after_save id;;
  mret id.

Definition save_threaded (thread : string) (state : S) (recursion_count : nat)
    : Act C GraphError string :=
  id ← save_threaded inner thread state recursion_count;
  prune_after_save id;;
  mret id.

Definition save_fork_threaded (parent_id : option string) (thread : string) (state : S)
    (recursion_count : nat) : Act C GraphError string :=
  id ← save_fork_threaded inner parent_id thread state recursion_count;
  prune_after_save id;;
  mret id.

Definition new : Checkpointer S C := {|
  Checkpoint.save := save;
  load := load inner;
  list_ids := list_ids inner;
  Checkpoint.delete := Checkpoint.delete inner;
  Checkpoint.last := Checkpoint.last inner;
  snapshots := snapshots inner;
  update_state := Default.update_state;
  Checkpoint.save_threaded := save_threaded;
  Checkpoint.save_fork_threaded := save_fork_threaded;
  load_threaded := load_threaded inner;
  list_threaded := list_threaded inner;
  delete_threaded := delete_threaded inner;
  last_threaded := last_threaded inner;
  snapshots_threaded := snapshots_threaded inner;
  checkpoint_lineage := checkpoint_lineage inner;
  prune := prune inner;
  snapshots_page_threaded := snapshots_page_threaded inner;
  snapshots_page := snapshots_page inner;
|}.

End retaining.
End RetainingCheckpointer.

(** ** [TerritoryCheckpointer] *)

Module TerritoryCheckpointer.
Section territory.
Context {S C : Type} (inner : Checkpointer S C) (namespace : string).

Definition ns_default : string := namespace +:+ "::" +:+ DEFAULT_THREAD.
Definition ns_thread (thread : string) : string := namespace +:+ "::" +:+ thread.

Definition list_ids : Act C GraphError (list string) := list_threaded inner ns_default.
Definition load (checkpoint_id : string) : Act C GraphError S :=
  load_threaded inner ns_default checkpoint_id.
Definition snapshots_threaded (thread : string) : Act C GraphError (list (CheckpointInfo S)) :=
  snapshots_threaded inner (ns_thread thread).
Definition snapshots_page_threaded (thread : string) (after_id : option string) (limit : nat)
    : Act C GraphError (list (CheckpointInfo S)) :=
  snapshots_page_threaded inner (ns_thread thread) after_id limit.

Definition new : Checkpointer S C := {|
  save := fun state recursion_count => save_threaded inner ns_default state recursion_count;
  Checkpoint.load := load;
  Checkpoint.list_ids := list_ids;
  Checkpoint.delete := fun checkpoint_id => delete_threaded inner ns_default checkpoint_id;
  Checkpoint.last := last_threaded inner ns_default;
  snapshots := Default.snapshots list_ids load;
  update_state := update_state inner;
  save_threaded := fun thread => save_threaded inner (ns_thread thread);
  save_fork_threaded := fun parent_id thread => save_fork_threaded inner parent_id (ns_thread thread);
  load_threaded := fun thread => load_threaded inner (ns_thread thread);
  list_threaded := fun thread => list_threaded inner (ns_thread thread);
  delete_threaded := fun thread => delete_threaded inner (ns_thread thread);
  last_threaded := fun thread => last_threaded inner (ns_thread thread);
  Checkpoint.snapshots_threaded := snapshots_threaded;
  checkpoint_lineage := checkpoint_lineage inner;
  prune := fun thread => prune inner (ns_thread thread);
  Checkpoint.snapshots_page_threaded := snapshots_page_threaded;
  snapshots_page := Default.snapshots_page snapshots_page_threaded;
|}.

End territory.
End TerritoryCheckpointer.

(** ** Retention through the contract *)

Section retention.
Context {S C : Type} `{Clock C} (cp : Checkpointer S C).
Context `{!ThreadedStore cp, !LineageStore cp, !DefaultPrune cp}.

(** The clock reading the decorator makes does not touch the histories. *)
Definition clock_silent : Prop :=
  forall c, ts_inv c -> exists now c', utc_now c = (Ok now, c') /\ ts_inv c' /\
    forall t, view c' t = view c t.

(** Any save of the wrapped store that adds one entry to [t], followed by the
    decorator's pruning, prunes exactly [t]. *)
Lemma prune_after_save_law r c t info c1 :
  clock_silent -> added ts_inv view c t info c1 ->
  (max_checkpoints r <> None \/ max_age_secs r <> None) ->
  exists now c', RetainingCheckpointer.prune_after_save cp r (ci_id info) c1 = (Ok (), c') /\
    ts_inv c' /\
    stamps (view c' t) = retained (stamps (view c1 t)) (max_checkpoints r) (max_age_secs r) now /\
    view c' t `sublist_of` view c1 t /\
    (forall t', t' <> t -> view c' t' = view c t').
Proof.
  intros Hclk (Hi1 & Hp & Hfresh & Hframe) Hr.
  destruct (Hclk c1 Hi1) as (now & c2 & E2 & Hi2 & Hv2).
  destruct (prune_law cp t (max_checkpoints r) (max_age_secs r) now c2 Hi2)
    as (n & c3 & E3 & Hi3 & Hs & Hsub & _ & Hf3).
  exists now, c3. rewrite Hv2 in Hs Hsub. split_and!; try done.
  - assert (find_id (ci_id info) (view c2 t) = Some info) as Hfind.
    { rewrite Hv2. apply find_id_elem; [by apply view_nodup|].
      rewrite Hp. apply list_elem_of_here. }
    pose proof (lineage_law c2 t info (ci_id info) Hi2 Hfind) as Hl.
    unfold RetainingCheckpointer.prune_after_save.
    destruct (max_checkpoints r), (max_age_secs r); try (by destruct Hr).
    all: unfold mbind, act_bind; rewrite E2 Hl /= E3; done.
  - intros t' Ht. by rewrite Hf3 // Hv2 Hframe.
Qed.

(** with a cap of [max] checkpoints, a save through the retaining decorator
    leaves at most [max] checkpoints on the thread, all of them among the ones
    the wrapped store held, and does not touch any other thread. *)
Theorem retaining_save_bounded max ma c t s rc :
  clock_silent -> ts_inv c ->
  exists id c', save_threaded (RetainingCheckpointer.new cp (mkRetention (Some max) ma)) t s rc c =
      (Ok id, c') /\ ts_inv c' /\ length (view c' t) <= max /\
    (forall i, i ∈ view c' t -> i ∈ view c t \/ (ci_id i = id /\ ci_state i = s)) /\
    (forall t', t' <> t -> view c' t' = view c t').
Proof.
  intros Hclk Hi. destruct (save_law c t s rc Hi) as (info & c1 & E1 & Ha & Hst & _).
  destruct (prune_after_save_law (mkRetention (Some max) ma) c t info c1 Hclk Ha)
    as (now & c' & E & Hi' & Hs & Hsub & Hframe); [by left|].
  exists (ci_id info), c'. split_and!; try done.
  - cbn [save_threaded RetainingCheckpointer.new]. unfold RetainingCheckpointer.save_threaded.
    unfold mbind, act_bind. by rewrite E1 E.
  - rewrite -(length_fmap (fun s => (ci_id s, ci_timestamp s))).
    fold (stamps (view c' t)). rewrite Hs. apply retained_length.
  - intros i Hin. assert (i ∈ view c1 t) as Hin1.
    { apply (sublist_subseteq _ _ Hsub). done. }
    destruct Ha as (_ & Hp & _). rewrite Hp in Hin1.
    apply elem_of_cons in Hin1 as [->|?]; [by right|by left].
Qed.

End retention.

(** A graph's checkpointer is always wrapped for retention; without a policy the
    wrapper satisfies the contract of what it wraps. *)
Section retaining_store.
Context {S C : Type} `{Clock C} (cp : Checkpointer S C) `{!ThreadedStore cp}.
Notation wrapped := (RetainingCheckpointer.new cp CheckpointRetention.default).

Lemma retaining_save_plain s rc c : save wrapped s rc c = save cp s rc c.
Proof.
  cbn. unfold RetainingCheckpointer.save, mbind, act_bind. simpl.
  by destruct (save cp s rc c) as [[?|?] ?].
Qed.
Lemma retaining_save_threaded_plain t s rc c :
  save_threaded wrapped t s rc c = save_threaded cp t s rc c.
Proof.
  cbn. unfold RetainingCheckpointer.save_threaded, mbind, act_bind. simpl.
  by destruct (save_threaded cp t s rc c) as [[?|?] ?].
Qed.
Lemma retaining_save_fork_plain p t s rc c :
  save_fork_threaded wrapped p t s rc c = save_fork_threaded cp p t s rc c.
Proof.
  cbn. unfold RetainingCheckpointer.save_fork_threaded, mbind, act_bind. simpl.
  by destruct (save_fork_threaded cp p t s rc c) as [[?|?] ?].
Qed.

Global Program Instance retaining_threaded_store : ThreadedStore wrapped :=
  {| ts_inv := ts_inv (cp := cp); view := view (cp := cp) |}.
Next Obligation. intros c t Hi. by apply view_nodup. Qed.
Next Obligation. intros c t Hi. by apply (snapshots_law (cp := cp)). Qed.
Next Obligation. intros c t Hi. by apply (list_law (cp := cp)). Qed.
Next Obligation. intros c t Hi. by apply (last_law (cp := cp)). Qed.
Next Obligation. intros c t id Hi. by apply (load_law (cp := cp)). Qed.
Next Obligation.
  intros c t s rc Hi. rewrite retaining_save_threaded_plain. by apply (save_law (cp := cp)).
Qed.
Next Obligation.
  intros c p t s rc Hi. rewrite retaining_save_fork_plain. by apply (save_fork_law (cp := cp)).
Qed.
Next Obligation. intros c t id Hi. by apply (delete_law (cp := cp)). Qed.

Global Program Instance retaining_lineage_store `{!LineageStore cp} : LineageStore wrapped.
Next Obligation. intros Hl c t s id. apply (lineage_law (cp := cp)). Qed.
Next Obligation. intros Hl c. apply (snapshots_default (cp := cp)). Qed.
Next Obligation.
  intros Hl c s rc. rewrite retaining_save_plain retaining_save_threaded_plain. apply save_default.
Qed.
Next Obligation. intros Hl c. apply (last_default (cp := cp)). Qed.
Next Obligation. intros Hl c id. apply (load_default (cp := cp)). Qed.
End retaining_store.

(** Without a policy the retaining decorator is transparent: its saves are the
    wrapped store's saves, and it reads, deletes and pages as the wrapped store
    does; only [update_state] is the trait's refusal instead of a forward. *)
Theorem retaining_no_policy_transparent {S C} `{Clock C} (cp : Checkpointer S C) c :
  let r := RetainingCheckpointer.new cp CheckpointRetention.default in
  (forall s rc, save r s rc c = save cp s rc c) /\
  (forall t s rc, save_threaded r t s rc c = save_threaded cp t s rc c) /\
  (forall p t s rc, save_fork_threaded r p t s rc c = save_fork_threaded cp p t s rc c) /\
  snapshots r = snapshots cp /\ load r = load cp /\ last r = last cp /\
  (forall id s v, exists e, update_state r id s v c = (Err e, c)).
Proof.
  split_and!; try done.
  - intros s rc. apply retaining_save_plain.
  - intros t s rc. apply retaining_save_threaded_plain.
  - intros p t s rc. apply retaining_save_fork_plain.
  - intros id s v. by eexists.
Qed.

(** ** Territories through the contract *)

Lemma ns_thread_inj ns : Inj (=) (=) (TerritoryCheckpointer.ns_thread ns).
Proof.
  intros t1 t2. unfold TerritoryCheckpointer.ns_thread. intros H.
  by apply (inj (String.append ns)), (inj (String.append "::")) in H.
Qed.

(** The territory's threads satisfy the contract the wrapped store satisfies. *)
Section territory_store.
Context {S C : Type} (cp : Checkpointer S C) `{!ThreadedStore cp} (ns : string).
Let inside (t : string) : string := TerritoryCheckpointer.ns_thread ns t.

Lemma added_inside c t info c' :
  added ts_inv view c (inside t) info c' ->
  added ts_inv (fun c t => view c (inside t)) c t info c'.
Proof.
  intros (Hi & Hp & Hfresh & Hframe). split_and!; try done.
  intros t' Ht. apply Hframe. intros H. by apply ns_thread_inj in H.
Qed.

Global Program Instance territory_threaded_store :
    ThreadedStore (TerritoryCheckpointer.new cp ns) :=
  {| ts_inv := ts_inv (cp := cp); view := fun c t => view c (inside t) |}.
Next Obligation. intros c t Hi. by apply view_nodup. Qed.
Next Obligation. intros c t Hi. by apply (snapshots_law (cp := cp)). Qed.
Next Obligation. intros c t Hi. by apply (list_law (cp := cp)). Qed.
Next Obligation. intros c t Hi. by apply (last_law (cp := cp)). Qed.
Next Obligation. intros c t id Hi. by apply (load_law (cp := cp)). Qed.
Next Obligation.
  intros c t s rc Hi. destruct (save_law c (inside t) s rc Hi) as (info & c' & E & Ha & H).
  exists info, c'. split; [done|]. split; [by apply added_inside|done].
Qed.
Next Obligation.
  intros c p t s rc Hi.
  destruct (save_fork_law c p (inside t) s rc Hi) as (info & c' & E & Ha & H).
  exists info, c'. split; [done|]. split; [by apply added_inside|done].
Qed.
Next Obligation.
  intros c t id Hi. destruct (delete_law c (inside t) id Hi) as (c' & E & Hi' & Hv & Hf).
  exists c'. split_and!; try done. intros t' Ht. apply Hf. intros H. by apply ns_thread_inj in H.
Qed.
End territory_store.

(** *** Two territories over one store *)

Fixpoint has_colon (s : string) : bool :=
  match s with
  | EmptyString => false
  | String a s' => bool_decide (a = ":"%char) || has_colon s'
  end.

Lemma ns_thread_disjoint ns1 ns2 t1 t2 :
  has_colon ns1 = false -> has_colon ns2 = false ->
  TerritoryCheckpointer.ns_thread ns1 t1 = TerritoryCheckpointer.ns_thread ns2 t2 ->
  ns1 = ns2 /\ t1 = t2.
Proof.
  unfold TerritoryCheckpointer.ns_thread. revert ns2.
  induction ns1 as [|a ns1 IH]; intros [|b ns2]; simpl.
  - intros _ _ H. split; [done|]. by simplify_eq.
  - rewrite orb_false_iff bool_decide_eq_false. intros _ [Hb _] [= H _]. done.
  - rewrite orb_false_iff bool_decide_eq_false. intros [Ha _] _ [= H _]. done.
  - rewrite !orb_false_iff. intros [_ H1] [_ H2] [= -> H].
    destruct (IH ns2 H1 H2 H) as [-> ->]. done.
Qed.

(** two graphs attached to one store under different territories whose names
    have no colon cannot see or move each other: a save, a fork or a deletion
    made through one leaves every thread of the other, read through the other, as
    it was. *)
Theorem territories_isolated {S C} (cp : Checkpointer S C) `{!ThreadedStore cp}
    ns1 ns2 t1 t2 s rc id p c :
  ns1 <> ns2 -> has_colon ns1 = false -> has_colon ns2 = false -> ts_inv c ->
  let a := TerritoryCheckpointer.new cp ns1 in
  let b := TerritoryCheckpointer.new cp ns2 in
  let same c' := (snapshots_threaded b t2 c').1 = (snapshots_threaded b t2 c).1 /\
    (last_threaded b t2 c').1 = (last_threaded b t2 c).1 /\
    (forall i, (load_threaded b t2 i c').1 = (load_threaded b t2 i c).1) in
  same (save_threaded a t1 s rc c).2 /\ same (save_fork_threaded a p t1 s rc c).2 /\
  same (delete_threaded a t1 id c).2 /\ same (save a s rc c).2.
Proof.
  intros Hne Hc1 Hc2 Hi a b same.
  assert (forall c', ts_inv c' ->
    (forall t', t' <> TerritoryCheckpointer.ns_thread ns1 t1 -> view c' t' = view c t') \/
    (forall t', t' <> TerritoryCheckpointer.ns_thread ns1 DEFAULT_THREAD -> view c' t' = view c t') ->
    same c') as Hsame.
  { intros c' Hi' Hframe.
    assert (view c' (TerritoryCheckpointer.ns_thread ns2 t2) =
            view c (TerritoryCheckpointer.ns_thread ns2 t2)) as Hv.
    { destruct Hframe as [Hf|Hf]; apply Hf; intros Heq;
        by apply ns_thread_disjoint in Heq as [-> _]. }
    unfold same. cbn. unfold TerritoryCheckpointer.snapshots_threaded.
    rewrite !snapshots_law // !last_law // Hv. split_and!; try done.
    intros i. by rewrite !load_law // Hv. }
  split_and!; cbn.
  - destruct (save_law c (TerritoryCheckpointer.ns_thread ns1 t1) s rc Hi)
      as (info & c' & -> & (Hi' & _ & _ & Hf) & _). apply Hsame; auto.
  - destruct (save_fork_law c p (TerritoryCheckpointer.ns_thread ns1 t1) s rc Hi)
      as (info & c' & -> & (Hi' & _ & _ & Hf) & _). apply Hsame; auto.
  - destruct (delete_law c (TerritoryCheckpointer.ns_thread ns1 t1) id Hi)
      as (c' & -> & Hi' & _ & Hf). apply Hsame; auto.
  - destruct (save_law c (TerritoryCheckpointer.ns_default ns1) s rc Hi)
      as (info & c' & -> & (Hi' & _ & _ & Hf) & _). apply Hsame; auto.
Qed.

(** ** The decorators over the memory store *)

Lemma memory_clock_silent {S} uuid clock `{!Inj (=) (=) uuid} :
  @clock_silent S _ (mem_clock clock) (MemoryCheckpointer uuid clock) _.
Proof.
  intros c Hi. exists (clock (tick c)), (mkMemStore (threads c) (tick c + 1)).
  split; [done|]. split; [|done]. apply mem_inv_clock; [exact Hi|lia].
Qed.

Lemma retaining_save_bounded_witness :
  let cp := MemoryCheckpointer (S:=nat) demo_uuid demo_clock in
  let r := @RetainingCheckpointer.new _ _ (mem_clock demo_clock) cp (mkRetention (Some 2) None) in
  exists id c', save_threaded r "a" 40 5 demo_store = (Ok id, c') /\
    length (mem_view c' "a") <= 2 /\ ids (mem_view c' "a") = ["id-2"; "id-3"].
Proof.
  intros cp r.
  destruct (@retaining_save_bounded _ _ (mem_clock demo_clock) cp _ _ _ 2 None demo_store "a" 40 5
    (memory_clock_silent demo_uuid demo_clock)
    (mem_reachable_inv demo_uuid demo_clock _ _ demo_store_reachable))
    as (id & c' & E & _ & Hlen & _).
  exists id, c'. split; [exact E|]. split; [exact Hlen|].
  replace c' with (save_threaded r "a" 40 5 demo_store).2 by (unfold r; by rewrite E).
  by vm_compute.
Defined.

Lemma territories_isolated_witness :
  let cp := MemoryCheckpointer (S:=nat) demo_uuid demo_clock in
  let a := TerritoryCheckpointer.new cp "left" in
  let b := TerritoryCheckpointer.new cp "right" in
  let c := (save b 50 1 demo_store).2 in
  (last_threaded b DEFAULT_THREAD (save a 60 1 c).2).1 = Ok (Some (50, 1)).
Proof.
  intros cp a b c.
  assert (@ts_inv _ _ cp _ c) as Hi.
  { apply (mem_inv_push demo_uuid demo_clock _ demo_store None "right::default" 50 1).
    exact (mem_reachable_inv demo_uuid demo_clock _ _ demo_store_reachable). }
  destruct (territories_isolated cp "left" "right" DEFAULT_THREAD DEFAULT_THREAD 60 1
    "x" None c ltac:(done) ltac:(done) ltac:(done) Hi) as (_ & _ & _ & _ & Hlast & _).
  transitivity ((last_threaded b DEFAULT_THREAD c).1); [exact Hlast|by vm_compute].
Defined.
