(* ===== verification/Node.v ===== *)
(** * Nodes and routers ([crates/lc-langgraph/src/node.rs], [edge.rs])

    The engine sees a node through two operations, [execute] and [name], and a
    router through [route]; [GraphCode] is that interface, and the engine is
    written and verified against it.  User closures are code the library does
    not contain: they are arbitrary functions that may read and change the
    shared environment [E].

    [GraphNode] gives the node kinds the crate ships, as closures over an
    outside world [X]. *)

From stdpp Require Import gmap strings list.
From S2P Require Import Prelude Json State Edge.

Definition INTERRUPT_RESUME_KEY : string := "__lc_interrupt_resume".

Record NodeConfig := mkNodeConfig {
  nc_recursion_limit : nat;
  nc_metadata : gmap string JsonValue;
  nc_debug : bool;
}.

Module NodeConfig.
Definition default : NodeConfig := mkNodeConfig 0 ∅ false.
End NodeConfig.

(** The traits [GraphNode] and [ConditionalEdge], for handles [N] and [R]. *)
Class GraphCode (S N R E : Type) := {
  execute : N -> S -> option NodeConfig -> Act E GraphError (StateUpdate S);
  node_name : N -> string;
  route : R -> S -> Act E GraphError string;
}.

(** ** The node kinds of the crate *)

Inductive GraphNode (S X : Type) : Type :=
| SyncNode (name : string) (func : S -> result GraphError (StateUpdate S))
| AsyncNode (name : string) (func : S -> Act X GraphError (StateUpdate S))
| FunctionNode (name : string) (func : S -> Act X GraphError (StateUpdate S))
| InterruptibleNode (name : string)
    (func : S -> option JsonValue -> Act X GraphError (StateUpdate S))
| SentinelNode (name : string).
Arguments SyncNode {S X} _ _.
Arguments AsyncNode {S X} _ _.
Arguments FunctionNode {S X} _ _.
Arguments InterruptibleNode {S X} _ _.
Arguments SentinelNode {S X} _.

Module SentinelNode.
Definition start {S X} : GraphNode S X := SentinelNode START.
Definition end_ {S X} : GraphNode S X := SentinelNode END.
Definition custom {S X} (name : string) : GraphNode S X := SentinelNode name.
End SentinelNode.

Module GraphNode.
Section node.
Context {S X : Type}.

(** The resume decision an [InterruptibleNode] reads from its configuration. *)
Definition resume_value (config : option NodeConfig) : option JsonValue :=
  config ≫= (fun c => nc_metadata c !! INTERRUPT_RESUME_KEY).

Definition execute (n : GraphNode S X) (state : S) (config : option NodeConfig)
    : Act X GraphError (StateUpdate S) :=
  match n with
  | SyncNode _ func => act_of_result (func state)
  | AsyncNode _ func => func state
  | FunctionNode _ func => func state
  | InterruptibleNode _ func => func state (resume_value config)
  | SentinelNode _ => mret StateUpdate.unchanged
  end.

Definition name (n : GraphNode S X) : string :=
  match n with
  | SyncNode name _ | AsyncNode name _ | FunctionNode name _ | InterruptibleNode name _
  | SentinelNode name => name
  end.

End node.
End GraphNode.

(** [FunctionRouter] *)
Inductive FunctionRouter (S : Type) : Type := mkFunctionRouter (func : S -> string).
Arguments mkFunctionRouter {S} _.

Module FunctionRouter.
Definition new {S} (func : S -> string) : FunctionRouter S := mkFunctionRouter func.
Definition route {S E} (r : FunctionRouter S) (state : S) : Act E GraphError string :=
  match r with mkFunctionRouter func => mret (func state) end.
End FunctionRouter.
