(* ===== verification/Graph.v ===== *)
(** * Compiled graphs and their shared state ([compiled/graph.rs], [compiled/types.rs])

    A [CompiledGraph] is the immutable part of the struct.  The parts behind
    [Arc<RwLock>] and [Arc<Mutex>], which every clone of a graph shares, are the
    [Env] the operations thread: the runtime nodes, edges and routers, the task
    inbox, the checkpoint store, and the outside world the user's closures act
    on. *)

From stdpp Require Import gmap strings list.
From S2P Require Import Prelude Json State Edge Checkpoint Decorators Node.

(** ** Results of a run *)

Inductive ExecutionStep : Type :=
| StepNode (name : string) (metadata : gmap string JsonValue)
| StepCheckpoint (id next_node : string)
| StepParallelNode (branch : string) (metadata : gmap string JsonValue).

Module ExecutionStep.
Definition node (name : string) (metadata : gmap string JsonValue) : ExecutionStep :=
  StepNode name metadata.
Definition checkpoint (id next_node : string) : ExecutionStep := StepCheckpoint id next_node.
Definition parallel_node (branch : string) (metadata : gmap string JsonValue) : ExecutionStep :=
  StepParallelNode branch metadata.
End ExecutionStep.

Record GraphInvocation (S : Type) := mkInvocation {
  final_state : S;
  inv_steps : list ExecutionStep;
  recursion_count : nat;
}.
Arguments mkInvocation {S} _ _ _.
Arguments final_state {S} _.
Arguments inv_steps {S} _.
Arguments recursion_count {S} _.

Record ParallelBranch (S : Type) := mkBranch {
  branch_name : string;
  branch_state : S;
  branch_steps : list ExecutionStep;
}.
Arguments mkBranch {S} _ _ _.
Arguments branch_name {S} _.
Arguments branch_state {S} _.
Arguments branch_steps {S} _.

Record ParallelInvocation (S : Type) := mkParallelInvocation {
  par_final_state : S;
  par_steps : list ExecutionStep;
  par_recursion_count : nat;
  par_branches : list (ParallelBranch S);
}.
Arguments mkParallelInvocation {S} _ _ _ _.
Arguments par_final_state {S} _.
Arguments par_steps {S} _.
Arguments par_recursion_count {S} _.
Arguments par_branches {S} _.

Inductive StreamEvent (S : Type) : Type :=
| EvStart (s : S)
| EvEnterNode (name : string) (s : S)
| EvNodeComplete (name : string) (u : StateUpdate S)
| EvStateUpdate (s : S)
| EvEnd (s : S)
| EvNodeInterrupt (name : string) (payload : JsonValue)
| EvResumed (name : string) (decision : JsonValue).
Arguments EvStart {S} _.
Arguments EvEnterNode {S} _ _.
Arguments EvNodeComplete {S} _ _.
Arguments EvStateUpdate {S} _.
Arguments EvEnd {S} _.
Arguments EvNodeInterrupt {S} _ _.
Arguments EvResumed {S} _ _.

Record PendingInterrupt := mkPending { pi_id : string; pi_value : JsonValue }.

Record GraphExecution (S : Type) := mkExecution {
  ex_state : S;
  ex_current_node : string;
  ex_steps : list ExecutionStep;
  ex_recursion_count : nat;
  ex_interrupted_at : string;
  ex_pending_interrupt : option PendingInterrupt;
}.
Arguments mkExecution {S} _ _ _ _ _ _.
Arguments ex_state {S} _.
Arguments ex_current_node {S} _.
Arguments ex_steps {S} _.
Arguments ex_recursion_count {S} _.
Arguments ex_interrupted_at {S} _.
Arguments ex_pending_interrupt {S} _.

Module GraphExecution.
Definition new {S} (state : S) (current_node interrupted_at : string) : GraphExecution S :=
  mkExecution state current_node [] 0 interrupted_at None.
End GraphExecution.

(** ** Dynamic extension *)

Record DynamicTask := mkTask { task_id : string; description : string }.

Record DynamicInjection (N : Type) := mkInjection {
  inj_nodes : list (string * N);
  inj_edges : list GraphEdge;
}.
Arguments mkInjection {N} _ _.
Arguments inj_nodes {N} _.
Arguments inj_edges {N} _.

(** ** The shared state *)

Record Env (N R C X : Type) := mkEnv {
  runtime_nodes : gmap string N;
  runtime_edges : list GraphEdge;
  runtime_conditional_routers : gmap string R;
  task_inbox : list DynamicTask;
  store : C;
  world : X;
}.
Arguments mkEnv {N R C X} _ _ _ _ _ _.
Arguments runtime_nodes {N R C X} _.
Arguments runtime_edges {N R C X} _.
Arguments runtime_conditional_routers {N R C X} _.
Arguments task_inbox {N R C X} _.
Arguments store {N R C X} _.
Arguments world {N R C X} _.

Definition set_store {N R C X} (c : C) (e : Env N R C X) : Env N R C X :=
  mkEnv (runtime_nodes e) (runtime_edges e) (runtime_conditional_routers e) (task_inbox e)
    c (world e).
Definition set_world {N R C X} (x : X) (e : Env N R C X) : Env N R C X :=
  mkEnv (runtime_nodes e) (runtime_edges e) (runtime_conditional_routers e) (task_inbox e)
    (store e) x.
Definition set_inbox {N R C X} (l : list DynamicTask) (e : Env N R C X) : Env N R C X :=
  mkEnv (runtime_nodes e) (runtime_edges e) (runtime_conditional_routers e) l
    (store e) (world e).
Definition set_runtime_nodes {N R C X} (m : gmap string N) (e : Env N R C X) : Env N R C X :=
  mkEnv m (runtime_edges e) (runtime_conditional_routers e) (task_inbox e) (store e) (world e).
Definition set_runtime_edges {N R C X} (l : list GraphEdge) (e : Env N R C X) : Env N R C X :=
  mkEnv (runtime_nodes e) l (runtime_conditional_routers e) (task_inbox e) (store e) (world e).

(** An operation of the attached checkpointer, inside the environment. *)
Definition with_store {N R C X A} (m : Act C GraphError A) : Act (Env N R C X) GraphError A :=
  act_zoom store set_store m.

(** The node kinds of the crate, and function routers, as graph code. *)
Global Instance basic_graph_code {S C X} :
    GraphCode S (GraphNode S X) (FunctionRouter S)
      (Env (GraphNode S X) (FunctionRouter S) C X) := {
  execute n s config := act_zoom world set_world (GraphNode.execute n s config);
  node_name := GraphNode.name;
  route := FunctionRouter.route;
}.

(** ** The graph *)

Record CompiledGraph (S N R C : Type) := mkGraph {
  nodes : gmap string N;
  edges : list GraphEdge;
  entry_point : string;
  default_reducer : Reducer S;
  field_reducers : list (string * Reducer S);
  conditional_routers : gmap string R;
  checkpointer : option (Checkpointer S C);
  territory : option string;
  retention : CheckpointRetention;
  recursion_limit : nat;
  max_concurrency : option nat;
  interrupt_before : list string;
  interrupt_after : list string;
}.
Arguments mkGraph {S N R C} _ _ _ _ _ _ _ _ _ _ _ _ _.
Arguments nodes {S N R C} _.
Arguments edges {S N R C} _.
Arguments entry_point {S N R C} _.
Arguments default_reducer {S N R C} _.
Arguments field_reducers {S N R C} _.
Arguments conditional_routers {S N R C} _.
Arguments checkpointer {S N R C} _.
Arguments territory {S N R C} _.
Arguments retention {S N R C} _.
Arguments recursion_limit {S N R C} _.
Arguments max_concurrency {S N R C} _.
Arguments interrupt_before {S N R C} _.
Arguments interrupt_after {S N R C} _.

Module CompiledGraph.
Section graph.
Context {S N R C : Type}.
Notation G := (CompiledGraph S N R C).

Definition new (nodes : gmap string N) (edges : list GraphEdge) (entry_point : string)
    (default_reducer : Reducer S) (field_reducers : list (string * Reducer S)) : G :=
  mkGraph nodes edges entry_point default_reducer field_reducers ∅ None None
    CheckpointRetention.default 25 None [] [].

Definition set_routers (rs : gmap string R) (g : G) : G :=
  mkGraph (nodes g) (edges g) (entry_point g) (default_reducer g) (field_reducers g) rs
    (checkpointer g) (territory g) (retention g) (recursion_limit g) (max_concurrency g)
    (interrupt_before g) (interrupt_after g).

Definition set_persistence (cp : option (Checkpointer S C)) (ns : option string)
    (r : CheckpointRetention) (g : G) : G :=
  mkGraph (nodes g) (edges g) (entry_point g) (default_reducer g) (field_reducers g)
    (conditional_routers g) cp ns r (recursion_limit g) (max_concurrency g)
    (interrupt_before g) (interrupt_after g).

Definition set_bounds (limit : nat) (concurrency : option nat) (before after : list string)
    (g : G) : G :=
  mkGraph (nodes g) (edges g) (entry_point g) (default_reducer g) (field_reducers g)
    (conditional_routers g) (checkpointer g) (territory g) (retention g)
    limit concurrency before after.

Definition add_router (name : string) (router : R) (g : G) : G :=
  set_routers (<[name := router]> (conditional_routers g)) g.

(** The attached checkpointer is always wrapped for retention, and then in the
    territory set so far, if there is one. *)
Definition with_checkpointer `{Clock C} (cp : Checkpointer S C) (g : G) : G :=
  let wrapped := RetainingCheckpointer.new cp (retention g) in
  let wrapped := match territory g with
                 | Some ns => TerritoryCheckpointer.new wrapped ns
                 | None => wrapped
                 end in
  set_persistence (Some wrapped) (territory g) (retention g) g.

Definition with_territory (namespace : string) (g : G) : G :=
  set_persistence ((fun cp => TerritoryCheckpointer.new cp namespace) <$> checkpointer g)
    (Some namespace) (retention g) g.

Definition with_checkpoint_retention `{Clock C} (r : CheckpointRetention) (g : G) : G :=
  set_persistence ((fun cp => RetainingCheckpointer.new cp r) <$> checkpointer g)
    (territory g) r g.

Definition with_recursion_limit (limit : nat) (g : G) : G :=
  set_bounds limit (max_concurrency g) (interrupt_before g) (interrupt_after g) g.

(** [(n > 0).then_some(n)] *)
Definition with_max_concurrency (n : nat) (g : G) : G :=
  set_bounds (recursion_limit g) (if 0 <? n then Some n else None)
    (interrupt_before g) (interrupt_after g) g.

Definition with_interrupt_before (names : list string) (g : G) : G :=
  set_bounds (recursion_limit g) (max_concurrency g) names (interrupt_after g) g.

Definition with_interrupt_after (names : list string) (g : G) : G :=
  set_bounds (recursion_limit g) (max_concurrency g) (interrupt_before g) names g.

Definition node_names (g : G) : list string := (map_to_list (nodes g)).*1.

End graph.

(** *** Operations on the shared state *)

Section runtime.
Context {S N R C X : Type}.
Notation G := (CompiledGraph S N R C).
Notation E := (Env N R C X).

(** [get_node]: a static node shadows a runtime node of the same name. *)
Definition get_node (g : G) (name : string) : Act E GraphError N := fun e =>
  match nodes g !! name with
  | Some node => (Ok node, e)
  | None =>
      match runtime_nodes e !! name with
      | Some node => (Ok node, e)
      | None => (Err (ExecutionError ("Node '" +:+ name +:+ "' not found")), e)
      end
  end.

(** [submit_task]: [busy] is the failure of [try_lock]; the id is [Uuid::new_v4]. *)
Definition submit_task (busy : bool) (id description : string) : Act E GraphError () := fun e =>
  if busy
  then (Err (ExecutionError "dynamic task inbox is busy; task refused (not silently dropped)"), e)
  else (Ok (), set_inbox (task_inbox e ++ [mkTask id description]) e).

Definition inject_node (name : string) (node : N) : Act E GraphError () := fun e =>
  (Ok (), set_runtime_nodes (<[name := node]> (runtime_nodes e)) e).

Definition inject_edge (source target : string) : Act E GraphError () := fun e =>
  (Ok (), set_runtime_edges (runtime_edges e ++ [GraphEdge.fixed source target]) e).

End runtime.
End CompiledGraph.
