(* ===== verification/Validate.v ===== *)
(** * Compile-time validation ([compiled/validate.rs])

    [validate] checks the references of every edge, duplicate edges, unreachable
    nodes and nodes that cannot reach [END].  The two traversals are loops over a
    work list and a "changed" flag; they run on fuel bounded by the size of the
    edge list, which [compute_reachable_total] and [compute_end_reachable_total]
    show is enough, and compute the inductive relations [Reach] and [EndReach]. *)

From stdpp Require Import gmap strings list.
From S2P Require Import Prelude Json State Edge Checkpoint Node Graph.

Section validate.
Context {S N R C : Type}.
Notation G := (CompiledGraph S N R C).
Implicit Types g : G.

Definition has_node g (n : string) : bool := bool_decide (is_Some (nodes g !! n)).
Definition has_router g (r : string) : bool := bool_decide (is_Some (conditional_routers g !! r)).

(** ** References *)

Definition check_source g (what s : string) : GraphResult () :=
  reject_if (negb (s =ₛ START) && negb (has_node g s))
    (ValidationError (what +:+ " '" +:+ s +:+ "' not found")).
Definition check_target g (what t : string) : GraphResult () :=
  reject_if (negb (t =ₛ END) && negb (has_node g t))
    (ValidationError (what +:+ " '" +:+ t +:+ "' not found")).

Definition validate_edge g (e : GraphEdge) : GraphResult () :=
  match e with
  | Fixed source target =>
      check_source g "Source node" source;;
      check_target g "Target node" target;;
      reject_if (target =ₛ START) (ValidationError "Edge cannot target START node")
  | Conditional source router_name targets default_target =>
      check_source g "Source node" source;;
      reject_if (negb (has_router g router_name))
        (ValidationError ("Router '" +:+ router_name +:+ "' not found"));;
      res_iter (fun '(route, target) =>
        reject_if (negb (target =ₛ END) && negb (has_node g target))
          (ValidationError ("Target '" +:+ target +:+ "' for route '" +:+ route
             +:+ "' not found"));;
        reject_if (target =ₛ START)
          (ValidationError "Conditional edge cannot target START node"))
        (map_to_list targets);;
      match default_target with
      | Some default => check_target g "Default target" default
      | None => Ok ()
      end
  | FanOut source targets =>
      check_source g "FanOut source node" source;;
      res_iter (check_target g "FanOut target node") targets
  | FanIn sources target =>
      res_iter (check_source g "FanIn source node") sources;;
      check_target g "FanIn target node" target
  end.

(** [validate_duplicate_edges]: fixed edges only. *)
Fixpoint duplicate_edges (seen : list (string * string)) (es : list GraphEdge) : GraphResult () :=
  match es with
  | [] => Ok ()
  | Fixed source target :: es' =>
      if bool_decide ((source, target) ∈ seen)
      then Err (DuplicateEdgeError ("Duplicate edge: " +:+ source +:+ " -> " +:+ target))
      else duplicate_edges ((source, target) :: seen) es'
  | _ :: es' => duplicate_edges seen es'
  end.

Definition validate_duplicate_edges g : GraphResult () := duplicate_edges [] (edges g).

(** ** Reachability from the entry point *)

(** Every target an edge names. *)
Definition edge_targets (e : GraphEdge) : list string :=
  match e with
  | Fixed _ target => [target]
  | Conditional _ _ targets default_target =>
      map_values targets ++ match default_target with Some d => [d] | None => [] end
  | FanOut _ targets => targets
  | FanIn _ target => [target]
  end.

(** What visiting [current] pushes for one edge. *)
Definition edge_pushes (reachable : gset string) (current : string) (e : GraphEdge)
    : list string :=
  let fresh t := t ∉ reachable /\ t <> END in
  match e with
  | FanIn sources target =>
      if forallb (fun s => bool_decide (s ∈ reachable)) sources
      then filter fresh [target] else []
  | _ => if GraphEdge.source e =ₛ current then filter fresh (edge_targets e) else []
  end.

Fixpoint visit (es : list GraphEdge) (fuel : nat) (reachable : gset string)
    (to_visit : list string) : option (gset string) :=
  match to_visit with
  | [] => Some reachable
  | current :: to_visit' =>
      match fuel with
      | 0 => None
      | Datatypes.S fuel' =>
          if bool_decide (current ∈ reachable) || (current =ₛ END)
          then visit es fuel' reachable to_visit'
          else
            let reachable' := {[current]} ∪ reachable in
            visit es fuel' reachable'
              (rev (es ≫= edge_pushes reachable' current) ++ to_visit')
      end
  end.

Definition all_targets (es : list GraphEdge) : list string := es ≫= edge_targets.

(** Enough for every visit: one pop for the entry, and one per target pushed by
    each of the names that can be visited. *)
Definition reach_fuel (es : list GraphEdge) : nat :=
  1 + (1 + length (all_targets es)) * length (all_targets es).

Definition compute_reachable_nodes g : gset string :=
  default ∅ (visit (edges g) (reach_fuel (edges g)) ∅ [entry_point g]).

Definition validate_unreachable_nodes g : GraphResult () :=
  let reachable := compute_reachable_nodes g in
  res_iter (fun node_name =>
    reject_if (negb (bool_decide (node_name ∈ reachable)))
      (OrphanNodeError ("Unreachable node: " +:+ node_name)))
    (CompiledGraph.node_names g).

(** ** Nodes that can reach [END] *)

(** One edge of the inner loop: what it adds to the set. *)
Definition end_step (acc : gset string) (e : GraphEdge) : gset string :=
  let mem t := bool_decide (t ∈ acc) in
  match e with
  | Fixed source target => if mem target then {[source]} ∪ acc else acc
  | Conditional source _ targets default_target =>
      if existsb mem (map_values targets) ||
         match default_target with Some d => mem d | None => false end
      then {[source]} ∪ acc else acc
  | FanOut source targets => if forallb mem targets then {[source]} ∪ acc else acc
  | FanIn sources target => if mem target then list_to_set sources ∪ acc else acc
  end.

Definition end_pass (es : list GraphEdge) (acc : gset string) : gset string :=
  fold_left end_step es acc.

(** [changed] is whether the pass grew the set. *)
Fixpoint end_loop (es : list GraphEdge) (fuel : nat) (acc : gset string) : option (gset string) :=
  match fuel with
  | 0 => None
  | Datatypes.S fuel' =>
      let acc' := end_pass es acc in
      if bool_decide (acc' = acc) then Some acc' else end_loop es fuel' acc'
  end.

Definition edge_sources (e : GraphEdge) : list string :=
  match e with
  | Fixed source _ | Conditional source _ _ _ | FanOut source _ => [source]
  | FanIn sources _ => sources
  end.
Definition all_sources (es : list GraphEdge) : list string := es ≫= edge_sources.

Definition end_fuel (es : list GraphEdge) : nat := 2 + length (all_sources es).

Definition compute_end_reachable_nodes g : gset string :=
  default ∅ (end_loop (edges g) (end_fuel (edges g)) {[END]}).

Definition validate_cycles g : GraphResult () :=
  let reachable := compute_reachable_nodes g in
  let end_reachable := compute_end_reachable_nodes g in
  res_iter (fun node =>
    reject_if (negb (bool_decide (node ∈ end_reachable)))
      (InfiniteCycleError ("Node '" +:+ node +:+ "' in cycle with no path to END")))
    (elements reachable).

Definition validate g : GraphResult () :=
  res_iter (validate_edge g) (edges g);;
  validate_duplicate_edges g;;
  validate_unreachable_nodes g;;
  validate_cycles g.

End validate.

(** ** Reachability: the traversal computes the relation *)

Definition is_fan_in (e : GraphEdge) : bool := match e with FanIn _ _ => true | _ => false end.

Inductive Reach (es : list GraphEdge) (entry : string) : string -> Prop :=
| reach_entry : entry <> END -> Reach es entry entry
| reach_edge e t : e ∈ es -> is_fan_in e = false -> Reach es entry (GraphEdge.source e) ->
    t ∈ edge_targets e -> t <> END -> Reach es entry t
| reach_join ss t : FanIn ss t ∈ es -> Reach es entry entry ->
    (forall s, s ∈ ss -> Reach es entry s) -> t <> END -> Reach es entry t.

Section visit_facts.
Context (es : list GraphEdge) (entry : string).
Implicit Types (R : gset string) (st : list string).

Definition universe : gset string := list_to_set (entry :: all_targets es).

Lemma forallb_bool_decide (P : string -> Prop) `{!forall x, Decision (P x)} (l : list string) :
  forallb (fun s => bool_decide (P s)) l = true <-> forall s, s ∈ l -> P s.
Proof.
  rewrite forallb_forall. setoid_rewrite list_elem_of_In.
  split; intros Hall s Hs; apply (bool_decide_eq_true (P s)); auto.
Qed.

Lemma elem_of_edge_pushes R n e t :
  t ∈ edge_pushes R n e <->
  t ∈ edge_targets e /\ t ∉ R /\ t <> END /\
  match e with
  | FanIn ss _ => forall s, s ∈ ss -> s ∈ R
  | _ => GraphEdge.source e = n
  end.
Proof.
  unfold edge_pushes. destruct e as [s d|s r ts d|s ts|ss d]; simpl GraphEdge.source.
  4: { rewrite -(forallb_bool_decide (fun s => s ∈ R)).
       destruct (forallb _ _); [rewrite list_elem_of_filter; simpl; naive_solver|].
       rewrite elem_of_nil. naive_solver. }
  all: case_bool_decide; [rewrite list_elem_of_filter; naive_solver|
    rewrite elem_of_nil; naive_solver].
Qed.

Lemma edge_pushes_length R n e : length (edge_pushes R n e) <= length (edge_targets e).
Proof.
  unfold edge_pushes. destruct e; try case_bool_decide; try case_match.
  all: try apply length_filter; simpl; lia.
Qed.

Lemma pushes_length R n : length (es ≫= edge_pushes R n) <= length (all_targets es).
Proof.
  unfold all_targets. clear. induction es as [|e es' IH]; [done|].
  rewrite !bind_cons !length_app. pose proof (edge_pushes_length R n e). lia.
Qed.

Lemma elem_of_pushes R n t :
  t ∈ es ≫= edge_pushes R n <-> exists e, e ∈ es /\ t ∈ edge_pushes R n e.
Proof. rewrite list_elem_of_bind. naive_solver. Qed.

Lemma pushes_universe R n t : t ∈ es ≫= edge_pushes R n -> t ∈ universe.
Proof.
  intros (e & He & (Ht & _)%elem_of_edge_pushes)%elem_of_pushes. unfold universe.
  apply elem_of_list_to_set, elem_of_cons. right. apply list_elem_of_bind. eauto.
Qed.

Lemma visit_total fuel R st :
  R ⊆ universe -> (forall t, t ∈ st -> t ∈ universe) ->
  length st + (size universe - size R) * length (all_targets es) <= fuel ->
  is_Some (visit es fuel R st).
Proof.
  revert R st. induction fuel as [|fuel IH]; intros R [|n st] HR Hst Hf;
    cbn [visit length] in *; [by eexists|nia|by eexists|].
  destruct (bool_decide (n ∈ R) || (n =ₛ END)) eqn:E.
  { apply IH; [done| |nia]. intros t Ht. apply Hst. by apply list_elem_of_further. }
  apply orb_false_iff in E as [HnR%bool_decide_eq_false _].
  assert (n ∈ universe) as Hn by (apply Hst, list_elem_of_here).
  assert (size ({[n]} ∪ R) = 1 + size R) as Hsize.
  { rewrite size_union; [by rewrite size_singleton|set_solver]. }
  assert (size ({[n]} ∪ R) <= size universe) by (apply subseteq_size; set_solver).
  apply IH.
  - set_solver.
  - intros t [Ht|Ht]%elem_of_app; [|apply Hst; by apply list_elem_of_further].
    apply list_elem_of_In, in_rev, list_elem_of_In in Ht. by eapply pushes_universe.
  - rewrite length_app length_rev. pose proof (pushes_length ({[n]} ∪ R) n).
    rewrite Hsize in H |- *.
    replace (size universe - size R) with (Datatypes.S (size universe - (1 + size R))) in Hf by lia.
    nia.
Qed.

(** The traversal's invariant: what has been visited is reachable, and everything
    one edge away is visited, on the stack, or [END]. *)
Record visit_inv R st : Prop := {
  vi_sound t : t ∈ R \/ (t ∈ st /\ t <> END) -> Reach es entry t;
  vi_entry : entry <> END -> entry ∈ R \/ entry ∈ st;
  vi_edge e t : e ∈ es -> is_fan_in e = false -> GraphEdge.source e ∈ R ->
    t ∈ edge_targets e -> t <> END -> t ∈ R \/ t ∈ st;
  vi_join ss t : FanIn ss t ∈ es -> entry ∈ R -> (forall s, s ∈ ss -> s ∈ R) ->
    t <> END -> t ∈ R \/ t ∈ st;
}.

Lemma visit_inv_skip R n st :
  visit_inv R (n :: st) -> n ∈ R \/ n = END -> visit_inv R st.
Proof.
  intros [H1 H2 H3 H4] Hn. split.
  - intros t [Ht|[Ht Hte]]; apply H1; [by left|]. right. split; [|done].
    by apply list_elem_of_further.
  - intros He. destruct (H2 He) as [?|[->|?]%elem_of_cons]; naive_solver.
  - intros e t He Hf Hs Ht Hte. destruct (H3 e t He Hf Hs Ht Hte) as [?|[->|?]%elem_of_cons];
      naive_solver.
  - intros ss t He Hen Hs Hte. destruct (H4 ss t He Hen Hs Hte) as [?|[->|?]%elem_of_cons];
      naive_solver.
Qed.

Lemma edge_source_or_join e R n :
  is_fan_in e = false ->
  match e with FanIn ss _ => forall s, s ∈ ss -> s ∈ R | _ => GraphEdge.source e = n end =
  (GraphEdge.source e = n).
Proof. by destruct e. Qed.

Lemma visit_inv_visit R n st :
  visit_inv R (n :: st) -> n ∉ R -> n <> END ->
  visit_inv ({[n]} ∪ R) (rev (es ≫= edge_pushes ({[n]} ∪ R) n) ++ st).
Proof.
  intros [H1 H2 H3 H4] HnR Hne. set (R' := {[n]} ∪ R).
  assert (Reach es entry n) as Hrn by (apply H1; right; split; [apply list_elem_of_here|done]).
  assert (forall t, t ∈ R' -> Reach es entry t) as HR'.
  { intros t [->%elem_of_singleton|Ht]%elem_of_union; [done|]. apply H1. by left. }
  assert (forall t, t ∈ rev (es ≫= edge_pushes R' n) ++ st <->
    (exists e, e ∈ es /\ t ∈ edge_pushes R' n e) \/ t ∈ st) as Hst.
  { intros t. rewrite elem_of_app list_elem_of_In -in_rev -list_elem_of_In elem_of_pushes. done. }
  assert (forall t, t ∈ R \/ t ∈ n :: st -> t ∈ R' \/ t ∈ rev (es ≫= edge_pushes R' n) ++ st)
    as Hkeep.
  { intros t [Ht|[->|Ht]%elem_of_cons]; [left; set_solver|left; set_solver|].
    right. apply Hst. by right. }
  assert (Reach es entry entry) as Hent.
  { clear -Hrn. induction Hrn; [by apply reach_entry|done|done]. }
  split.
  - intros t [Ht|[[(e & He & Ht)|Ht]%Hst Hte]]; [by apply HR'| |].
    + apply elem_of_edge_pushes in Ht as (Ht & _ & _ & Hsrc).
      destruct (is_fan_in e) eqn:Ef.
      * destruct e as [| | |ss d]; try done. apply list_elem_of_singleton in Ht as ->.
        apply (reach_join _ _ ss); auto.
      * rewrite edge_source_or_join // in Hsrc. subst n. by apply (reach_edge _ _ e).
    + apply H1. right. split; [by apply list_elem_of_further|done].
  - intros He. by apply Hkeep, H2.
  - intros e t He Hf Hs Ht Hte. destruct (decide (t ∈ R')) as [|Ht']; [by left|].
    apply elem_of_union in Hs as [Hs%elem_of_singleton|Hs]; [|by apply Hkeep, (H3 e)].
    right. apply Hst. left. exists e. split; [done|].
    apply elem_of_edge_pushes. rewrite edge_source_or_join //.
  - intros ss t He _ Hs Hte. destruct (decide (t ∈ R')) as [|Ht']; [by left|].
    right. apply Hst. left. exists (FanIn ss t). split; [done|].
    apply elem_of_edge_pushes. split; [apply list_elem_of_here|done].
Qed.

Lemma visit_correct fuel R st R' :
  visit_inv R st -> visit es fuel R st = Some R' -> visit_inv R' [].
Proof.
  revert R st. induction fuel as [|fuel IH]; intros R [|n st] Hinv; cbn [visit]; try congruence.
  destruct (bool_decide (n ∈ R) || (n =ₛ END)) eqn:E; intros Hv.
  - eapply IH; [|exact Hv]. eapply visit_inv_skip; [done|].
    apply orb_true_iff in E as [?%bool_decide_eq_true|?%bool_decide_eq_true]; auto.
  - eapply IH; [|exact Hv].
    apply orb_false_iff in E as [?%bool_decide_eq_false ?%bool_decide_eq_false].
    by apply visit_inv_visit.
Qed.

Lemma visit_inv_init : visit_inv ∅ [entry].
Proof.
  split.
  - intros t [?%elem_of_empty|[->%list_elem_of_singleton ?]]; [done|by apply reach_entry].
  - intros _. right. by apply list_elem_of_singleton.
  - intros e t _ _ ?%elem_of_empty. done.
  - intros ss t _ ?%elem_of_empty. done.
Qed.

Lemma reach_visited R t : visit_inv R [] -> Reach es entry t -> t ∈ R.
Proof.
  intros [H1 H2 H3 H4]. assert (forall x, x ∈ R \/ x ∈ @nil string -> x ∈ R) as Hnil.
  { intros x [?|?%elem_of_nil]; done. }
  induction 1 as [|e t He Hf Hr IH Ht Hte|ss t He Hr IH Hs IHs Hte]; apply Hnil; eauto.
Qed.

Lemma compute_reachable_total :
  exists R, visit es (reach_fuel es) ∅ [entry] = Some R /\ forall t, t ∈ R <-> Reach es entry t.
Proof.
  destruct (visit_total (reach_fuel es) ∅ [entry]) as [R HR].
  - set_solver.
  - intros t ->%list_elem_of_singleton. unfold universe. set_solver.
  - assert (size universe <= 1 + length (all_targets es)) as Hu.
    { unfold universe. etrans; [apply size_list_to_set_le|]. done. }
    rewrite size_empty. unfold reach_fuel. simpl length. nia.
  - exists R. split; [done|]. pose proof (visit_correct _ _ _ _ visit_inv_init HR) as Hi.
    intros t. split; [|by apply reach_visited]. intros Ht. apply (vi_sound _ _ Hi). by left.
Qed.
End visit_facts.

(** ** Reaching [END]: the fixpoint computes the relation *)

Inductive EndReach (es : list GraphEdge) : string -> Prop :=
| end_end : EndReach es END
| end_fixed s t : Fixed s t ∈ es -> EndReach es t -> EndReach es s
| end_conditional s r ts d t : Conditional s r ts d ∈ es ->
    t ∈ edge_targets (Conditional s r ts d) -> EndReach es t -> EndReach es s
| end_fan_out s ts : FanOut s ts ∈ es -> (forall t, t ∈ ts -> EndReach es t) -> EndReach es s
| end_fan_in ss s t : FanIn ss t ∈ es -> s ∈ ss -> EndReach es t -> EndReach es s.

Section end_facts.
Context (es : list GraphEdge).
Implicit Types acc : gset string.

(** When the loop's test for one edge succeeds, and what it then adds. *)
Definition end_ready acc (e : GraphEdge) : Prop :=
  match e with
  | Fixed _ t => t ∈ acc
  | Conditional _ _ _ _ => exists t, t ∈ edge_targets e /\ t ∈ acc
  | FanOut _ ts => forall t, t ∈ ts -> t ∈ acc
  | FanIn _ t => t ∈ acc
  end.

Lemma end_step_spec acc e x :
  x ∈ end_step acc e <-> x ∈ acc \/ (end_ready acc e /\ x ∈ edge_sources e).
Proof.
  destruct e as [s t|s r ts d|s ts|ss t]; cbn [end_step end_ready edge_sources].
  - case_bool_decide; set_solver.
  - set (b := existsb _ _ || _).
    assert (b = true <-> exists t, t ∈ edge_targets (Conditional s r ts d) /\ t ∈ acc) as Hb.
    { unfold b. rewrite orb_true_iff existsb_exists. cbn [edge_targets].
      setoid_rewrite elem_of_app. setoid_rewrite list_elem_of_In. split.
      - intros [(t & Ht & Hin%bool_decide_eq_true)|Hd]; [eauto|].
        destruct d as [d|]; [|done]. apply bool_decide_eq_true in Hd. exists d. set_solver.
      - intros (t & [Ht|Ht] & Hin); [left; exists t; by rewrite bool_decide_eq_true|].
        destruct d as [d|]; [|by apply in_nil in Ht]. destruct Ht as [<-|[]]. right.
        by apply bool_decide_eq_true. }
    destruct b; set_solver.
  - set (b := forallb _ _).
    assert (b = true <-> forall t, t ∈ ts -> t ∈ acc) as Hb
      by apply (forallb_bool_decide (fun t => t ∈ acc)).
    destruct b; set_solver.
  - case_bool_decide; set_solver.
Qed.

Lemma end_pass_extensive l acc : acc ⊆ end_pass l acc.
Proof.
  unfold end_pass. revert acc. induction l as [|e l IH]; intros acc; simpl; [done|].
  etrans; [|apply IH]. intros x Hx. apply end_step_spec. by left.
Qed.

Lemma end_pass_fixed l acc e : end_pass l acc = acc -> e ∈ l -> end_step acc e = acc.
Proof.
  unfold end_pass. revert e. induction l as [|e' l IH]; intros e Hfix He; [by apply elem_of_nil in He|].
  simpl in Hfix. assert (acc ⊆ end_step acc e') as Hext.
  { intros x Hx. apply end_step_spec. by left. }
  pose proof (end_pass_extensive l (end_step acc e')) as Hext'.
  unfold end_pass in Hext'. rewrite Hfix in Hext'.
  assert (end_step acc e' = acc) as Heq by (apply (anti_symm (⊆)); done).
  apply elem_of_cons in He as [->|He]; [done|]. apply IH; [by rewrite Heq in Hfix|done].
Qed.

Lemma end_step_sound acc e :
  e ∈ es -> (forall x, x ∈ acc -> EndReach es x) ->
  forall x, x ∈ end_step acc e -> EndReach es x.
Proof.
  intros He Hacc x [?|[Hr Hx]]%end_step_spec; [auto|].
  destruct e as [s t|s r ts d|s ts|ss t]; cbn in *.
  - apply list_elem_of_singleton in Hx as ->. eapply end_fixed; eauto.
  - apply list_elem_of_singleton in Hx as ->. destruct Hr as (t & Ht & Hta).
    eapply end_conditional; eauto.
  - apply list_elem_of_singleton in Hx as ->. eapply end_fan_out; eauto.
  - eapply end_fan_in; eauto.
Qed.

Lemma end_pass_sound l acc :
  (forall e, e ∈ l -> e ∈ es) -> (forall x, x ∈ acc -> EndReach es x) ->
  forall x, x ∈ end_pass l acc -> EndReach es x.
Proof.
  unfold end_pass. revert acc. induction l as [|e l IH]; intros acc Hl Hacc; [done|]. simpl.
  apply IH; [intros e' He'; apply Hl; by apply list_elem_of_further|].
  apply end_step_sound; [apply Hl, list_elem_of_here|done].
Qed.

Lemma end_step_universe acc e :
  e ∈ es -> acc ⊆ list_to_set (END :: all_sources es) ->
  end_step acc e ⊆ list_to_set (END :: all_sources es).
Proof.
  intros He Hacc x [?|[_ Hx]]%end_step_spec; [by apply Hacc|].
  apply elem_of_list_to_set, elem_of_cons. right. apply list_elem_of_bind. eauto.
Qed.

Lemma end_pass_universe l acc :
  (forall e, e ∈ l -> e ∈ es) -> acc ⊆ list_to_set (END :: all_sources es) ->
  end_pass l acc ⊆ list_to_set (END :: all_sources es).
Proof.
  unfold end_pass. revert acc. induction l as [|e l IH]; intros acc Hl Hacc; [done|]. simpl.
  apply IH; [intros e' He'; apply Hl; by apply list_elem_of_further|].
  apply end_step_universe; [apply Hl, list_elem_of_here|done].
Qed.

Lemma end_loop_total fuel acc :
  acc ⊆ list_to_set (END :: all_sources es) ->
  size (list_to_set (END :: all_sources es) : gset string) - size acc < fuel ->
  exists acc', end_loop es fuel acc = Some acc' /\ end_pass es acc' = acc' /\ acc ⊆ acc' /\
    ((forall x, x ∈ acc -> EndReach es x) -> forall x, x ∈ acc' -> EndReach es x).
Proof.
  revert acc. induction fuel as [|fuel IH]; intros acc Hacc Hf; [lia|]. cbn [end_loop].
  pose proof (end_pass_extensive es acc) as Hext.
  case_bool_decide as Heq.
  - exists (end_pass es acc). rewrite Heq. split; [done|]. split; [done|]. split; [done|auto].
  - assert (size acc < size (end_pass es acc)) by (apply subset_size; set_solver).
    pose proof (end_pass_universe es acc (fun _ H => H) Hacc) as Hu.
    pose proof (subseteq_size _ _ Hu).
    destruct (IH (end_pass es acc)) as (acc' & E & Hfix & Hsub & Hs); [done|lia|].
    exists acc'. split; [done|]. split; [done|]. split; [by etrans|].
    intros Hsound. apply Hs. by apply end_pass_sound.
Qed.

Lemma compute_end_reachable_total :
  exists acc, end_loop es (end_fuel es) {[END]} = Some acc /\ forall x, x ∈ acc <-> EndReach es x.
Proof.
  destruct (end_loop_total (end_fuel es) {[END]}) as (acc & E & Hfix & Hsub & Hs).
  - set_solver.
  - pose proof (size_list_to_set_le (END :: all_sources es)) as Hu. cbn [length] in Hu.
    unfold end_fuel. lia.
  - exists acc. split; [done|]. intros x. split.
    { apply Hs. intros y ->%elem_of_singleton. apply end_end. }
    assert (forall e y, e ∈ es -> end_ready acc e -> y ∈ edge_sources e -> y ∈ acc) as Hclosed.
    { intros e y He Hr Hy. rewrite -(end_pass_fixed es acc e Hfix He).
      apply end_step_spec. by right. }
    induction 1 as [|s t He Hr IH|s r ts d t He Ht Hr IH|s ts He Hr IH|ss s t He Hs' Hr IH].
    + set_solver.
    + by apply (Hclosed _ s He); [|apply list_elem_of_singleton].
    + apply (Hclosed _ s He); [by exists t|by apply list_elem_of_singleton].
    + by apply (Hclosed _ s He); [|apply list_elem_of_singleton].
    + by apply (Hclosed _ s He).
Qed.
End end_facts.

(** ** What validation accepts *)

Section well_formed.
Context {S N R C : Type}.
Implicit Types g : CompiledGraph S N R C.

Definition known_node g (n : string) : Prop := is_Some (nodes g !! n).

Definition edge_ok g (e : GraphEdge) : Prop :=
  (forall s, s ∈ edge_sources e -> s = START \/ known_node g s) /\
  (forall t, t ∈ edge_targets e -> t = END \/ known_node g t) /\
  match e with
  | Fixed _ t => t <> START
  | Conditional _ r ts _ =>
      is_Some (conditional_routers g !! r) /\ forall t, t ∈ map_values ts -> t <> START
  | _ => True
  end.

Fixpoint fixed_pairs (es : list GraphEdge) : list (string * string) :=
  match es with
  | [] => []
  | Fixed s t :: es' => (s, t) :: fixed_pairs es'
  | _ :: es' => fixed_pairs es'
  end.

Record WellFormed g : Prop := {
  wf_edges e : e ∈ edges g -> edge_ok g e;
  wf_fixed_nodup : NoDup (fixed_pairs (edges g));
  wf_reachable n : known_node g n -> Reach (edges g) (entry_point g) n;
  wf_reaches_end n : Reach (edges g) (entry_point g) n -> EndReach (edges g) n;
}.

Lemma check_source_ok g what s : check_source g what s = Ok () <-> s = START \/ known_node g s.
Proof.
  unfold check_source, has_node, known_node. rewrite reject_if_ok andb_false_iff.
  rewrite !negb_false_iff !bool_decide_eq_true. done.
Qed.
Lemma check_target_ok g what s : check_target g what s = Ok () <-> s = END \/ known_node g s.
Proof.
  unfold check_target, has_node, known_node. rewrite reject_if_ok andb_false_iff.
  rewrite !negb_false_iff !bool_decide_eq_true. done.
Qed.

Lemma elem_of_map_pairs (m : gmap string string) t :
  t ∈ map_values m <-> exists k, (k, t) ∈ map_to_list m.
Proof. rewrite elem_of_map_values. setoid_rewrite elem_of_map_to_list. done. Qed.

Lemma validate_edge_ok g e : validate_edge g e = Ok () <-> edge_ok g e.
Proof.
  unfold edge_ok. destruct e as [s t|s r ts d|s ts|ss t]; cbn [validate_edge edge_sources edge_targets].
  - rewrite !res_seq_ok check_source_ok check_target_ok reject_if_ok bool_decide_eq_false.
    setoid_rewrite list_elem_of_singleton. naive_solver.
  - rewrite !res_seq_ok check_source_ok reject_if_ok negb_false_iff bool_decide_eq_true res_iter_ok.
    assert ((forall x, x ∈ map_to_list ts -> (let '(route, target) := x in
        reject_if (negb (target =ₛ END) && negb (has_node g target))
          (ValidationError ("Target '" +:+ target +:+ "' for route '" +:+ route
             +:+ "' not found"));;
        reject_if (target =ₛ START)
          (ValidationError "Conditional edge cannot target START node")) = Ok ()) <->
      forall t, t ∈ map_values ts -> (t = END \/ known_node g t) /\ t <> START) as ->.
    { setoid_rewrite elem_of_map_pairs. split.
      - intros H t (k & Hk%H). rewrite res_seq_ok !reject_if_ok in Hk.
        by rewrite andb_false_iff !negb_false_iff !bool_decide_eq_true bool_decide_eq_false in Hk.
      - intros H [k t] Hk. rewrite res_seq_ok !reject_if_ok.
        rewrite andb_false_iff !negb_false_iff !bool_decide_eq_true bool_decide_eq_false. eauto. }
    setoid_rewrite elem_of_app. setoid_rewrite list_elem_of_singleton. destruct d as [d|].
    + rewrite check_target_ok. setoid_rewrite list_elem_of_singleton. naive_solver.
    + setoid_rewrite elem_of_nil. naive_solver.
  - rewrite !res_seq_ok check_source_ok res_iter_ok. setoid_rewrite check_target_ok.
    setoid_rewrite list_elem_of_singleton. naive_solver.
  - rewrite !res_seq_ok check_target_ok res_iter_ok. setoid_rewrite check_source_ok.
    setoid_rewrite list_elem_of_singleton. naive_solver.
Qed.

Lemma duplicate_edges_ok seen es :
  duplicate_edges seen es = Ok () <->
  NoDup (fixed_pairs es) /\ forall p, p ∈ fixed_pairs es -> p ∉ seen.
Proof.
  revert seen. induction es as [|e es IH]; intros seen; simpl.
  { split; [|done]. intros _. split; [constructor|]. by intros p ?%elem_of_nil. }
  destruct e as [s t| | |]; try apply IH. case_bool_decide as Hin.
  - split; [done|]. intros [_ H]. destruct (H (s, t)); [apply list_elem_of_here|done].
  - rewrite IH NoDup_cons. setoid_rewrite elem_of_cons.
    naive_solver.
Qed.

Lemma compute_reachable_spec g n :
  n ∈ compute_reachable_nodes g <-> Reach (edges g) (entry_point g) n.
Proof.
  unfold compute_reachable_nodes.
  by destruct (compute_reachable_total (edges g) (entry_point g)) as (R' & -> & H).
Qed.

Lemma compute_end_reachable_spec g n :
  n ∈ compute_end_reachable_nodes g <-> EndReach (edges g) n.
Proof.
  unfold compute_end_reachable_nodes.
  by destruct (compute_end_reachable_total (edges g)) as (R' & -> & H).
Qed.

Lemma elem_of_node_names g n : n ∈ CompiledGraph.node_names g <-> known_node g n.
Proof.
  unfold CompiledGraph.node_names, known_node. rewrite list_elem_of_fmap. split.
  - intros ([k v] & -> & Hk%elem_of_map_to_list). by exists v.
  - intros [v Hv]. exists (n, v). by rewrite elem_of_map_to_list.
Qed.

(** What [validate] has checked when it accepts. *)
Lemma validate_checks g :
  validate g = Ok () <->
  (forall e, e ∈ edges g -> edge_ok g e) /\ NoDup (fixed_pairs (edges g)) /\
  (forall n, known_node g n -> Reach (edges g) (entry_point g) n) /\
  (forall n, Reach (edges g) (entry_point g) n -> EndReach (edges g) n).
Proof.
  unfold validate. rewrite !res_seq_ok res_iter_ok.
  unfold validate_duplicate_edges, validate_unreachable_nodes, validate_cycles.
  rewrite duplicate_edges_ok !res_iter_ok.
  setoid_rewrite validate_edge_ok. setoid_rewrite reject_if_ok.
  setoid_rewrite negb_false_iff. setoid_rewrite bool_decide_eq_true.
  setoid_rewrite elem_of_node_names. setoid_rewrite (elem_of_elements (C := gset string)).
  setoid_rewrite compute_reachable_spec. setoid_rewrite compute_end_reachable_spec.
  split.
  - by intros (H1 & [H2 _] & H3 & H4).
  - intros (H1 & H2 & H3 & H4). split_and!; try done. intros p _ ?%elem_of_nil. done.
Qed.

Lemma accepted_wf g : validate g = Ok () -> WellFormed g.
Proof. intros (H1 & H2 & H3 & H4)%validate_checks. by split. Qed.

(** C1: validation accepts exactly the well-formed graphs: every edge names known
    nodes and routers and none leads back to START by a fixed or routed target,
    no fixed edge is repeated, every node is reachable from the entry point
    (fan-ins by their last source), and every reachable node can reach END. *)
Theorem validate_ok_iff g : validate g = Ok () <-> WellFormed g.
Proof.
  split; [apply accepted_wf|]. intros [H1 H2 H3 H4]. by apply validate_checks.
Qed.
End well_formed.
