(* ===== verification/Builder.v ===== *)
(** * Building and compiling a graph ([graph.rs])

    [StateGraph] is the mutable builder, one function per method, returning the
    new builder; [GraphBuilder] is its fluent wrapper. [compile] resolves the
    entry point, composes the registered reducers, and validates. *)

From stdpp Require Import gmap strings list.
From S2P Require Import Prelude Json State Edge Checkpoint Node Graph Validate.

Record StateGraph (S N R : Type) := mkStateGraph {
  sg_nodes : gmap string N;
  sg_edges : list GraphEdge;
  sg_entry_point : option string;
  sg_reducers : list (string * Reducer S);
  sg_default_reducer : Reducer S;
  sg_routers : gmap string R;
}.
Arguments mkStateGraph {S N R} _ _ _ _ _ _.
Arguments sg_nodes {S N R} _.
Arguments sg_edges {S N R} _.
Arguments sg_entry_point {S N R} _.
Arguments sg_reducers {S N R} _.
Arguments sg_default_reducer {S N R} _.
Arguments sg_routers {S N R} _.

Module StateGraph.
Section builder.
Context {S N R : Type}.
Notation SG := (StateGraph S N R).

Definition new : SG := mkStateGraph ∅ [] None [] ReplaceReducer ∅.

Definition insert_node (name : string) (node : N) (g : SG) : SG :=
  mkStateGraph (<[name := node]> (sg_nodes g)) (sg_edges g) (sg_entry_point g)
    (sg_reducers g) (sg_default_reducer g) (sg_routers g).

Definition add_node {E} `{!GraphCode S N R E} (node : N) (g : SG) : SG :=
  insert_node (node_name (E := E) node) node g.

Definition push_edge (edge : GraphEdge) (g : SG) : SG :=
  mkStateGraph (sg_nodes g) (sg_edges g ++ [edge]) (sg_entry_point g)
    (sg_reducers g) (sg_default_reducer g) (sg_routers g).

Definition add_edge (source target : string) (g : SG) : SG :=
  push_edge (GraphEdge.fixed source target) g.
Definition add_conditional_edges (source router_name : string) (targets : gmap string string)
    (default : option string) (g : SG) : SG :=
  push_edge (GraphEdge.conditional source router_name targets default) g.
Definition add_fan_out (source : string) (targets : list string) (g : SG) : SG :=
  push_edge (GraphEdge.fan_out source targets) g.
Definition add_fan_in (sources : list string) (target : string) (g : SG) : SG :=
  push_edge (GraphEdge.fan_in sources target) g.

Definition set_conditional_router (name : string) (router : R) (g : SG) : SG :=
  mkStateGraph (sg_nodes g) (sg_edges g) (sg_entry_point g) (sg_reducers g)
    (sg_default_reducer g) (<[name := router]> (sg_routers g)).

Definition set_entry_point (node : string) (g : SG) : SG :=
  mkStateGraph (sg_nodes g) (sg_edges g) (Some node) (sg_reducers g)
    (sg_default_reducer g) (sg_routers g).

(** A reducer for a field that already has one takes its slot. *)
Fixpoint replace_reducer (field : string) (reducer : Reducer S)
    (rs : list (string * Reducer S)) : list (string * Reducer S) :=
  match rs with
  | [] => [(field, reducer)]
  | (f, r) :: rs' =>
      if f =ₛ field then (f, reducer) :: rs' else (f, r) :: replace_reducer field reducer rs'
  end.

Definition set_reducer (field : string) (reducer : Reducer S) (g : SG) : SG :=
  mkStateGraph (sg_nodes g) (sg_edges g) (sg_entry_point g)
    (replace_reducer field reducer (sg_reducers g)) (sg_default_reducer g) (sg_routers g).

Fixpoint first_after_start (es : list GraphEdge) : option string :=
  match es with
  | [] => None
  | edge :: es' =>
      if GraphEdge.source edge =ₛ START then
        match GraphEdge.fixed_target edge with
        | Some target => Some target
        | None => first_after_start es'
        end
      else first_after_start es'
  end.

Definition find_first_node_after_start (g : SG) : option string := first_after_start (sg_edges g).

Definition compile {C} `{StateSchema S} (g : SG) : GraphResult (CompiledGraph S N R C) :=
  if bool_decide (sg_nodes g = ∅) then Err (ValidationError "Graph has no nodes") else
  entry ← ok_or (match sg_entry_point g with
                 | Some entry => Some entry
                 | None => find_first_node_after_start g
                 end) (ValidationError "No entry point defined");
  if negb (bool_decide (is_Some (sg_nodes g !! entry))) && negb (entry =ₛ START)
  then Err (ValidationError ("Entry point '" +:+ entry +:+ "' not found")) else
  let merge_reducer :=
    match sg_reducers g with
    | [] => sg_default_reducer g
    | _ => MergeReducer (sg_default_reducer g) (sg_reducers g)
    end in
  let compiled :=
    CompiledGraph.new (sg_nodes g) (sg_edges g) entry merge_reducer (sg_reducers g) in
  let compiled :=
    fold_left (fun c '(name, router) => CompiledGraph.add_router name router c)
      (map_to_list (sg_routers g)) compiled in
  validate compiled;;
  Ok compiled.

End builder.

Section functions.
Context {S R X : Type}.

Definition add_node_fn (name : string) (func : S -> result GraphError (StateUpdate S))
    (g : StateGraph S (GraphNode S X) R) : StateGraph S (GraphNode S X) R :=
  let node := SyncNode name func in
  insert_node (GraphNode.name node) node g.

Definition add_async_node (name : string) (func : S -> Act X GraphError (StateUpdate S))
    (g : StateGraph S (GraphNode S X) R) : StateGraph S (GraphNode S X) R :=
  let node := AsyncNode name func in
  insert_node (GraphNode.name node) node g.

End functions.
End StateGraph.

(** ** The fluent wrapper *)

Record GraphBuilder (S N R : Type) := mkBuilder { graph : StateGraph S N R }.
Arguments mkBuilder {S N R} _.
Arguments graph {S N R} _.

Module GraphBuilder.
Section fluent.
Context {S N R : Type}.
Notation B := (GraphBuilder S N R).

Definition new : B := mkBuilder StateGraph.new.
Definition over (f : StateGraph S N R -> StateGraph S N R) (b : B) : B := mkBuilder (f (graph b)).
Definition add_node {E} `{!GraphCode S N R E} (node : N) : B -> B :=
  over (StateGraph.add_node (E := E) node).
Definition add_edge (source target : string) : B -> B := over (StateGraph.add_edge source target).
Definition add_conditional_edges (source router_name : string) (targets : gmap string string)
    (default : option string) : B -> B :=
  over (StateGraph.add_conditional_edges source router_name targets default).
Definition add_fan_out (source : string) (targets : list string) : B -> B :=
  over (StateGraph.add_fan_out source targets).
Definition add_fan_in (sources : list string) (target : string) : B -> B :=
  over (StateGraph.add_fan_in sources target).
Definition set_entry_point (node : string) : B -> B := over (StateGraph.set_entry_point node).
Definition compile {C} `{StateSchema S} (b : B) : GraphResult (CompiledGraph S N R C) :=
  StateGraph.compile (graph b).
Definition build (b : B) : StateGraph S N R := graph b.
End fluent.

Section functions.
Context {S R X : Type}.
Definition add_node_fn (name : string) (func : S -> result GraphError (StateUpdate S))
    : GraphBuilder S (GraphNode S X) R -> GraphBuilder S (GraphNode S X) R :=
  over (StateGraph.add_node_fn name func).
Definition add_async_node (name : string) (func : S -> Act X GraphError (StateUpdate S))
    : GraphBuilder S (GraphNode S X) R -> GraphBuilder S (GraphNode S X) R :=
  over (StateGraph.add_async_node name func).
End functions.
End GraphBuilder.

(** ** What [compile] gives *)

Section compile_facts.
Context {S N R C : Type} `{StateSchema S}.
Implicit Types (sg : StateGraph S N R) (g : CompiledGraph S N R C).

Lemma add_routers_fields (l : list (string * R)) g :
  fold_left (fun c '(name, router) => CompiledGraph.add_router name router c) l g =
  CompiledGraph.set_routers
    (fold_left (fun m '(name, router) => <[name := router]> m) l (conditional_routers g)) g.
Proof.
  revert g. induction l as [|[n r] l IH]; intros g; simpl; [by destruct g|]. by rewrite IH.
Qed.

Lemma fold_insert_list (l : list (string * R)) (m : gmap string R) k :
  NoDup l.*1 ->
  fold_left (fun m '(name, router) => <[name := router]> m) l m !! k =
  match list_to_map (M := gmap string R) l !! k with Some r => Some r | None => m !! k end.
Proof.
  revert m. induction l as [|[n r] l IH]; intros m Hnd; cbn [fold_left].
  { by rewrite lookup_empty. }
  apply NoDup_cons in Hnd as [Hn Hnd]. rewrite IH //. cbn [list_to_map foldr uncurry].
  destruct (decide (k = n)) as [->|Hk].
  - rewrite lookup_insert_eq. simpl. rewrite lookup_insert_eq.
    by rewrite (not_elem_of_list_to_map_1 l n Hn).
  - simpl. by rewrite !lookup_insert_ne.
Qed.

Lemma compile_routers (m : gmap string R) :
  fold_left (fun m '(name, router) => <[name := router]> m) (map_to_list m) ∅ = m.
Proof.
  apply map_eq. intros k. rewrite fold_insert_list; last apply NoDup_fst_map_to_list.
  rewrite list_to_map_to_list lookup_empty. by destruct (m !! k).
Qed.

(** A graph that compiles is well formed, has the builder's nodes, edges and
    routers, an entry point that is a registered node or START, a limit of 25
    steps, no checkpointer and no interrupts; its reducer is the builder's default
    when no field has a reducer of its own. *)
Theorem compile_ok sg g :
  StateGraph.compile sg = Ok g ->
  WellFormed g /\ nodes g = sg_nodes sg /\ edges g = sg_edges sg /\
  conditional_routers g = sg_routers sg /\ nodes g <> ∅ /\
  (known_node g (entry_point g) \/ entry_point g = START) /\
  recursion_limit g = 25 /\ checkpointer g = None /\ interrupt_before g = [] /\
  interrupt_after g = [] /\
  (sg_reducers sg = [] -> default_reducer g = sg_default_reducer sg) /\
  field_reducers g = sg_reducers sg.
Proof.
  unfold StateGraph.compile. case_bool_decide as Hne; [done|].
  intros (entry & Hentry & Hg)%result_bind_ok.
  destruct (negb _ && negb _) eqn:Eentry; [done|].
  apply res_seq_ok in Hg as [Hv [= Hg]]. rewrite Hg in Hv. apply accepted_wf in Hv.
  rewrite add_routers_fields in Hg. subst g. split; [done|].
  cbn [CompiledGraph.set_routers CompiledGraph.new nodes edges conditional_routers entry_point
    recursion_limit checkpointer interrupt_before interrupt_after default_reducer field_reducers].
  rewrite compile_routers. split_and!; try done.
  - unfold known_node. simpl. apply andb_false_iff in Eentry.
    rewrite !negb_false_iff !bool_decide_eq_true in Eentry. done.
  - by intros ->.
Qed.
End compile_facts.
