(* ===== verification/Routing.v ===== *)
(** * Routing ([compiled/stream.rs], second half)

    Given the node that just ran, the engine looks for fan-out targets first and
    for a single successor otherwise.  Runtime edges come before static ones.
    [try_read] on the runtime routers never fails here, because the model runs
    one operation at a time. *)

From stdpp Require Import gmap strings list.
From S2P Require Import Prelude Json State Edge Checkpoint Node Graph Validate.

Section routing.
Context {S N R C X : Type}.
Notation E := (Env N R C X).
Notation G := (CompiledGraph S N R C).
Context `{!GraphCode S N R E}.
Implicit Types g : G.

(** [re.iter().find(|e| e.source() == current)] *)
Definition find_edge (es : list GraphEdge) (current : string) : option GraphEdge :=
  snd <$> list_find (fun e => GraphEdge.source e = current) es.

Definition find_router g (e : E) (name : string) : option R :=
  match conditional_routers g !! name with
  | Some r => Some r
  | None => runtime_conditional_routers e !! name
  end.

Definition fan_out_error (current : string) : GraphError :=
  RoutingError ("FanOut edge from '" +:+ current +:+
    "' reached find_next_node; fan-out must be handled by the caller").

(** Route a conditional edge; [suffix] is the marker of the runtime messages. *)
Definition follow_conditional g (suffix router_name : string) (targets : gmap string string)
    (default_target : option string) (state : S) : Act E GraphError string := fun e =>
  match find_router g e router_name with
  | None => (Err (ExecutionError ("Router '" +:+ router_name +:+ "' not found" +:+ suffix)), e)
  | Some router =>
      (route_key ← route router state;
       act_of_result (ok_or
         (match targets !! route_key with Some t => Some t | None => default_target end)
         (RoutingError ("No target for route '" +:+ route_key +:+ "'" +:+ suffix)))) e
  end.

(** The loop over the static edges, and what follows it. *)
Fixpoint next_static g (es : list GraphEdge) (current : string) (state : S)
    : option (Act E GraphError string) :=
  match es with
  | [] => None
  | edge :: es' =>
      if GraphEdge.source edge =ₛ current then
        match edge with
        | Fixed _ target => Some (mret target)
        | Conditional _ router_name targets default_target =>
            Some (follow_conditional g "" router_name targets default_target state)
        | FanOut _ [] => Some (act_fail (RoutingError "FanOut has no targets"))
        | FanOut _ _ => Some (act_fail (fan_out_error current))
        | FanIn _ _ => next_static g es' current state
        end
      else next_static g es' current state
  end.

(** The runtime edge, when there is one and it decides. *)
Definition next_runtime g (e : E) (current : string) (state : S)
    : option (Act E GraphError string) :=
  match find_edge (runtime_edges e) current with
  | Some (Fixed _ target) => Some (mret target)
  | Some (Conditional _ router_name targets default_target) =>
      Some (follow_conditional g " (runtime)" router_name targets default_target state)
  | Some (FanOut _ []) => Some (act_fail (RoutingError "FanOut has no targets (runtime)"))
  | Some (FanOut _ _) => Some (act_fail (fan_out_error current))
  | Some (FanIn _ _) | None => None
  end.

Definition in_fan_in (node : string) (edge : GraphEdge) : bool :=
  match edge with FanIn sources _ => contains node sources | _ => false end.

Definition is_fan_in_source g (e : E) (node : string) : bool :=
  existsb (in_fan_in node) (runtime_edges e) || existsb (in_fan_in node) (edges g).

Definition find_next_node g (current : string) (state : S) : Act E GraphError string := fun e =>
  match next_runtime g e current state with
  | Some act => act e
  | None =>
      match next_static g (edges g) current state with
      | Some act => act e
      | None =>
          if (current =ₛ entry_point g) && (size (nodes g) =? 1)
          then (Ok END, e)
          else if is_fan_in_source g e current then (Ok END, e)
          else (Err (RoutingError ("No outgoing edge from node '" +:+ current +:+ "'")), e)
      end
  end.

Fixpoint static_fan_out (es : list GraphEdge) (current : string) : option (list string) :=
  match es with
  | [] => None
  | edge :: es' =>
      if GraphEdge.source edge =ₛ current then
        match edge with
        | FanOut _ targets => Some targets
        | _ => static_fan_out es' current
        end
      else static_fan_out es' current
  end.

Definition find_fan_out_targets g (e : E) (current : string) : option (list string) :=
  match find_edge (runtime_edges e) current with
  | Some (FanOut _ targets) => Some targets
  | _ => static_fan_out (edges g) current
  end.

Definition joins (sources : list string) (edge_sources : list string) : bool :=
  forallb (fun s => contains s sources) edge_sources.

Fixpoint static_fan_in (es : list GraphEdge) (sources : list string) : option string :=
  match es with
  | [] => None
  | FanIn edge_sources target :: es' =>
      if joins sources edge_sources then Some target else static_fan_in es' sources
  | _ :: es' => static_fan_in es' sources
  end.

(** Only the first runtime fan-in is considered, then every static one. *)
Definition find_fan_in_target g (e : E) (sources : list string) : option string :=
  match list_find (fun edge => is_fan_in edge = true) (runtime_edges e) with
  | Some (_, FanIn edge_sources target) =>
      if joins sources edge_sources then Some target else static_fan_in (edges g) sources
  | _ => static_fan_in (edges g) sources
  end.

End routing.

(** ** Routing on a validated graph *)

Section routing_facts.
Context {S N R C X : Type}.
Notation E := (Env N R C X).
Context `{!GraphCode S N R E}.
Implicit Types (g : CompiledGraph S N R C) (e : E).

(** The edge the static loop acts on, the first that leaves [current] and is not a
    fan-in, and what it does with it. *)
Definition static_outcome g (current : string) (state : S) (edge : GraphEdge)
    (act : Act E GraphError string) : Prop :=
  match edge with
  | Fixed _ t => act = mret t
  | Conditional _ r ts d => act = follow_conditional g "" r ts d state
  | FanOut _ [] => act = act_fail (RoutingError "FanOut has no targets")
  | FanOut _ _ => act = act_fail (fan_out_error current)
  | FanIn _ _ => False
  end.

Definition static_spec g (es : list GraphEdge) (current : string) (state : S)
    (r : option (Act E GraphError string)) : Prop :=
  match r with
  | None => forall edge, edge ∈ es -> GraphEdge.source edge = current -> is_fan_in edge = true
  | Some act => exists edge, edge ∈ es /\ GraphEdge.source edge = current /\
      static_outcome g current state edge act
  end.

Lemma next_static_spec g es current state :
  static_spec g es current state (next_static g es current state).
Proof.
  induction es as [|edge es IH]; cbn [next_static]; [by intros edge ?%elem_of_nil|].
  assert ((GraphEdge.source edge = current -> is_fan_in edge = true) ->
    static_spec g (edge :: es) current state (next_static g es current state)) as Hskip.
  { destruct (next_static g es current state); simpl in *.
    - destruct IH as (e' & He' & H). intros _. exists e'. split; [by apply list_elem_of_further|done].
    - intros He e' [->|He']%elem_of_cons; auto. }
  case_bool_decide as Hs; [|by apply Hskip].
  destruct edge as [s t|s r ts d|s [|t ts]|ss t];
    try (eexists; split; [apply list_elem_of_here|done]).
  by apply Hskip.
Qed.

Lemma static_fan_out_None es current edge :
  static_fan_out es current = None -> edge ∈ es -> GraphEdge.source edge = current ->
  match edge with FanOut _ _ => False | _ => True end.
Proof.
  induction es as [|e' es IH]; cbn [static_fan_out]; [by intros _ ?%elem_of_nil|].
  intros Hn [->|He]%elem_of_cons Hs.
  - rewrite bool_decide_true // in Hn. by destruct e'.
  - destruct (_ =ₛ _); [|by apply IH]. destruct e'; try done; by apply IH.
Qed.

Lemma static_fan_out_Some es current ts :
  static_fan_out es current = Some ts -> FanOut current ts ∈ es.
Proof.
  induction es as [|e es IH]; cbn [static_fan_out]; [done|].
  case_bool_decide as Hs.
  - destruct e; try (intros ?; by apply list_elem_of_further, IH).
    intros [= ->]. simpl in Hs. subst. apply list_elem_of_here.
  - intros ?. by apply list_elem_of_further, IH.
Qed.

Lemma static_fan_in_Some es sources t :
  static_fan_in es sources = Some t ->
  exists ss, FanIn ss t ∈ es /\ forall s, s ∈ ss -> s ∈ sources.
Proof.
  induction es as [|e es IH]; cbn [static_fan_in]; [done|].
  assert (static_fan_in es sources = Some t ->
    exists ss, FanIn ss t ∈ e :: es /\ forall s, s ∈ ss -> s ∈ sources) as Hskip.
  { intros (ss & Hin & Hs)%IH. exists ss. split; [by apply list_elem_of_further|done]. }
  destruct e as [| | |ss t']; try done. destruct (joins sources ss) eqn:Ej; [|done].
  intros [= ->]. exists ss. split; [apply list_elem_of_here|].
  unfold joins in Ej. by rewrite (forallb_bool_decide (fun s => s ∈ sources)) in Ej.
Qed.

(** In a graph without runtime edges, a node that can reach [END] has a way on. *)
Lemma end_reach_successor g current :
  EndReach (edges g) current -> current <> END ->
  (exists edge, edge ∈ edges g /\ is_fan_in edge = false /\ GraphEdge.source edge = current) \/
  existsb (in_fan_in current) (edges g) = true.
Proof.
  intros [|s t He|s r ts d t He|s ts He|ss s t He Hs] Hne; try done.
  1-3: left; eexists; split; [exact He|done].
  right. apply existsb_exists. exists (FanIn ss t). rewrite -list_elem_of_In. split; [done|].
  by apply contains_true.
Qed.

(** Where [find_next_node] can go in a well-formed graph, and how it can fail. *)
Lemma routing_cases g current state e :
  WellFormed g -> runtime_edges e = [] -> current <> END ->
  Reach (edges g) (entry_point g) current -> find_fan_out_targets g e current = None ->
  (exists n e', find_next_node g current state e = (Ok n, e') /\
     (n = END \/ (Reach (edges g) (entry_point g) n /\ known_node g n))) \/
  (exists r ts d router, Conditional current r ts d ∈ edges g /\
     conditional_routers g !! r = Some router /\
     ((exists err e', route router state e = (Err err, e') /\
         find_next_node g current state e = (Err err, e')) \/
      (exists key e', route router state e = (Ok key, e') /\ ts !! key = None /\ d = None /\
         find_next_node g current state e =
         (Err (RoutingError ("No target for route '" +:+ key +:+ "'")), e')))).
Proof.
  intros Hwf Hre Hne Hreach Hfo.
  unfold find_fan_out_targets in Hfo. rewrite Hre in Hfo. simpl in Hfo.
  unfold find_next_node, next_runtime. rewrite Hre. simpl.
  pose proof (next_static_spec g (edges g) current state) as Hn.
  destruct (next_static g (edges g) current state) as [act|].
  - destruct Hn as (edge & He & Hs & Hact).
    pose proof (static_fan_out_None _ _ _ Hfo He Hs) as Hnfo.
    destruct (wf_edges g Hwf edge He) as (_ & Ht & Hr).
    assert (forall t, t ∈ edge_targets edge -> is_fan_in edge = false ->
      t = END \/ (Reach (edges g) (entry_point g) t /\ known_node g t)) as Hsucc.
    { intros t Htin Hf. destruct (decide (t = END)) as [|Hte]; [by left|]. right.
      destruct (Ht t Htin) as [|]; [done|]. split; [|done].
      apply (reach_edge _ _ edge); try done. by rewrite Hs. }
    destruct edge as [s t|s r ts d|s ts|ss t]; cbn [static_outcome] in Hact; try done.
    + left. subst act. exists t, e. split; [done|]. apply Hsucc; [apply list_elem_of_here|done].
    + subst act. simpl in Hs. subst s. destruct Hr as [[router Hrt] _].
      unfold follow_conditional, find_router. rewrite Hrt.
      unfold mbind, act_bind. destruct (route router state e) as [[key|err] e'] eqn:Er.
      * destruct (ts !! key) as [t|] eqn:Ek; [|destruct d as [t|]].
        -- left. exists t, e'. split; [done|]. apply Hsucc; [|done].
           cbn [edge_targets]. apply elem_of_app. left. apply elem_of_map_values. by exists key.
        -- left. exists t, e'. split; [done|]. apply Hsucc; [|done].
           cbn [edge_targets]. apply elem_of_app. right. by apply list_elem_of_singleton.
        -- right. exists r, ts, None, router. split; [done|]. split; [done|]. right.
           exists key, e'. done.
      * right. exists r, ts, d, router. split; [done|]. split; [done|]. left.
        exists err, e'. done.
  - left. destruct (_ && _); [by exists END, e; split; [|left]|].
    destruct (end_reach_successor g current) as [(edge & He & Hf & Hs)|Hin]; [|done| |].
    + by apply (wf_reaches_end g Hwf).
    + by rewrite (Hn edge He Hs) in Hf.
    + unfold is_fan_in_source. rewrite Hin orb_true_r. exists END, e. by split; [|left].
Qed.

(** C2: routing makes progress in a validated graph: from a reachable node that is
    not a fan-out source, [find_next_node] answers END or a node that is again
    reachable and registered; the only failures are the router's own error and a
    conditional edge without default whose router returned an unknown key. It
    never reports a missing edge, a missing router or an unhandled fan-out. *)
Theorem routing_progress g current state e :
  validate g = Ok () -> runtime_edges e = [] -> current <> END ->
  Reach (edges g) (entry_point g) current -> find_fan_out_targets g e current = None ->
  (exists n e', find_next_node g current state e = (Ok n, e') /\
     (n = END \/ (Reach (edges g) (entry_point g) n /\ known_node g n))) \/
  (exists r ts d router, Conditional current r ts d ∈ edges g /\
     conditional_routers g !! r = Some router /\
     ((exists err e', route router state e = (Err err, e') /\
         find_next_node g current state e = (Err err, e')) \/
      (exists key e', route router state e = (Ok key, e') /\ ts !! key = None /\ d = None /\
         find_next_node g current state e =
         (Err (RoutingError ("No target for route '" +:+ key +:+ "'")), e')))).
Proof. intros Hwf%accepted_wf. by apply routing_cases. Qed.

(** The branches of a fan-out and its join are registered. *)
Lemma fan_out_targets_known g current e ts t :
  WellFormed g -> runtime_edges e = [] ->
  find_fan_out_targets g e current = Some ts -> t ∈ ts -> t = END \/ known_node g t.
Proof.
  intros Hwf Hre Hfo Ht. unfold find_fan_out_targets in Hfo. rewrite Hre in Hfo. simpl in Hfo.
  apply static_fan_out_Some in Hfo as He. by destruct (wf_edges g Hwf _ He) as (_ & Hts & _); apply Hts.
Qed.

Lemma fan_in_target_known g e ts t :
  WellFormed g -> runtime_edges e = [] -> find_fan_in_target g e ts = Some t ->
  t = END \/ known_node g t.
Proof.
  intros Hwf Hre Hfi. unfold find_fan_in_target in Hfi. rewrite Hre in Hfi. simpl in Hfi.
  apply static_fan_in_Some in Hfi as (ss & He & _).
  destruct (wf_edges g Hwf _ He) as (_ & Ht & _). apply Ht, list_elem_of_here.
Qed.
End routing_facts.
