(* ===== verification/Merge.v ===== *)
(** * Merging parallel branches ([compiled/parallel.rs], second half)

    Every branch starts from a copy of the state at the fan-out, so the merge
    compares each branch's fields with that base: a field a branch changed is
    layered in, and a field with a reducer of its own is rebuilt from the base
    and every branch's additions.

    [FieldwiseState] is what the merge relies on beyond serde's round trip:
    states of one type serialize to the same fields, fields can be recombined
    freely, and array fields can be extended by another state's suffix.
    [AgentState] is an instance. *)

From stdpp Require Import gmap strings list.
From S2P Require Import Prelude Json State Edge Checkpoint Node Graph.

Section merge.
Context {S : Type} `{StateSchema S}.

Definition reassemble_error (what e : string) : GraphError :=
  StateError ("Parallel " +:+ what +:+ " failed to reassemble state: " +:+ e).

(** The keys of a branch whose value is not the base's. *)
Definition changed_keys (base_map branch_map : gmap string JsonValue) : gmap string JsonValue :=
  filter (fun kv => base_map !! kv.1 <> Some kv.2) branch_map.

(** [union_states]: inserting the changed keys one by one into the running union. *)
Definition union_states (base merged branch : S) : GraphResult S :=
  base_v ← to_json base;
  match as_object base_v with
  | None => Ok branch
  | Some base_map =>
      branch_v ← to_json branch;
      match as_object branch_v with
      | None => Ok merged
      | Some branch_map =>
          merged_v ← to_json merged;
          let merged_map := default ∅ (as_object merged_v) in
          let result_map := changed_keys base_map branch_map ∪ merged_map in
          map_err (reassemble_error "branch merge") (from_value (JObject result_map))
      end
  end.

Definition field_value (s : S) (field : string) : option JsonValue :=
  v ← ok (to_json s);
  obj ← as_object v;
  obj !! field.

Definition array_field (s : S) (field : string) : option (list JsonValue) :=
  field_value s field ≫= as_array.

(** The loop of [delta_union_field] over the branches. *)
Fixpoint delta_union (base_els : list JsonValue) (branches : list (ParallelBranch S))
    (field : string) (union : list JsonValue) : option (list JsonValue) :=
  match branches with
  | [] => Some union
  | branch :: branches' =>
      match array_field (branch_state branch) field with
      | None => None
      | Some arr =>
          if (length arr <? length base_els) ||
             negb (bool_decide (take (length base_els) arr = base_els))
          then None
          else delta_union base_els branches' field (union ++ drop (length base_els) arr)
      end
  end.

Definition delta_union_field (base : S) (branches : list (ParallelBranch S)) (field : string)
    : option JsonValue :=
  base_els ← array_field base field;
  union ← delta_union base_els branches field base_els;
  Some (JArray union).

Definition state_with_field (base : S) (field : string) (value : JsonValue) : GraphResult S :=
  state_v ← to_json base;
  map_err (reassemble_error "reducer delta fold") (from_value (json_insert field value state_v)).

Definition patch_field (state out : S) (field : string) : GraphResult S :=
  state_v ← to_json state;
  match as_object state_v with
  | None => Ok state
  | Some state_map =>
      out_v ← to_json out;
      let value := default JNull (as_object out_v ≫= (fun m => m !! field)) in
      map_err (reassemble_error "reducer patch")
        (from_value (JObject (<[field := value]> state_map)))
  end.

Fixpoint union_branches (base : S) (branches : list (ParallelBranch S)) (merged : S)
    : GraphResult S :=
  match branches with
  | [] => Ok merged
  | branch :: branches' =>
      merged ← union_states base merged (branch_state branch);
      union_branches base branches' merged
  end.

Fixpoint reduce_fields (base : S) (branches : list (ParallelBranch S))
    (fields : list (string * Reducer S)) (merged : S) : GraphResult S :=
  match fields with
  | [] => Ok merged
  | (field, reducer) :: fields' =>
      merged ←
        match delta_union_field base branches field with
        | Some union =>
            out ← state_with_field base field union;
            patch_field merged out field
        | None =>
            let acc := fold_left (fun acc b => reducer acc (branch_state b)) branches base in
            patch_field merged acc field
        end;
      reduce_fields base branches fields' merged
  end.

Definition merge_parallel_states {N R C} (g : CompiledGraph S N R C)
    (branches : list (ParallelBranch S)) (base : S) : GraphResult S :=
  match branches with
  | [] => Err (StateError "Cannot merge states: no parallel branches completed")
  | _ =>
      merged ← union_branches base branches base;
      reduce_fields base branches (field_reducers g) merged
  end.

End merge.

(** ** States made of independent fields *)

Class FieldwiseState (S : Type) `{StateRoundtrip S} := {
  fs_dom (s1 s2 : S) : dom (state_obj s1) = dom (state_obj s2);
  fs_build (m : gmap string JsonValue) :
    (forall k, exists s : S, m !! k = state_obj s !! k) ->
    exists s : S, from_value (JObject m) = Ok s /\ state_obj s = m;
  fs_append (s1 s2 : S) f p l1 l2 :
    state_obj s1 !! f = Some (JArray (p ++ l1)) -> state_obj s2 !! f = Some (JArray l2) ->
    exists s3 : S, state_obj s3 !! f = Some (JArray (l2 ++ l1));
}.

Section merge_facts.
Context {S : Type} `{FieldwiseState S}.
Implicit Types (base merged s : S) (bs : list (ParallelBranch S)).

Lemma to_json_obj s : to_json s = Ok (JObject (state_obj s)).
Proof. unfold to_json. by rewrite to_value_obj. Qed.


Lemma lookup_none_all s s' k : state_obj s !! k = None -> state_obj s' !! k = None.
Proof. rewrite -!not_elem_of_dom. by rewrite (fs_dom s s'). Qed.

(** One branch layered in, seen at one field. *)
Definition layer (base : S) (k : string) (acc : option JsonValue) (branch : S) : option JsonValue :=
  if decide (state_obj branch !! k = state_obj base !! k) then acc else state_obj branch !! k.

Lemma union_states_spec base merged branch :
  exists s, union_states base merged branch = Ok s /\
    forall k, state_obj s !! k = layer base k (state_obj merged !! k) branch.
Proof.
  unfold union_states. rewrite !to_json_obj. cbn [mbind result_bind as_object default].
  set (m := changed_keys (state_obj base) (state_obj branch) ∪ state_obj merged).
  assert (forall k, m !! k = layer base k (state_obj merged !! k) branch) as Hm.
  { intros k. unfold m, layer, changed_keys. case_decide as Hk.
    - rewrite lookup_union_r //. apply map_lookup_filter_None. right. intros x Hx. simpl.
      rewrite -Hk. naive_solver.
    - destruct (state_obj branch !! k) as [v|] eqn:Ev.
      + apply lookup_union_Some_l, map_lookup_filter_Some. simpl. split; [done|naive_solver].
      + by rewrite (lookup_none_all branch base) in Hk. }
  destruct (fs_build (S := S) m) as (s & Hs & Hobj).
  - intros k. rewrite Hm. unfold layer. case_decide; eauto.
  - exists s. rewrite Hs. split; [done|]. intros k. by rewrite Hobj.
Qed.

Lemma union_branches_spec base bs merged :
  exists s, union_branches base bs merged = Ok s /\
    forall k, state_obj s !! k =
      fold_left (layer base k) (branch_state <$> bs) (state_obj merged !! k).
Proof.
  revert merged. induction bs as [|b bs IH]; intros merged; cbn [union_branches].
  { by exists merged. }
  destruct (union_states_spec base merged (branch_state b)) as (s1 & E1 & Hs1).
  destruct (IH s1) as (s & E & Hs). exists s. rewrite E1. split; [done|].
  intros k. by rewrite Hs Hs1.
Qed.

Definition is_field base f : Prop := is_Some (state_obj base !! f).








End merge_facts.

(** ** [AgentState] is made of independent fields *)

Lemma agent_obj_dom s : dom (agent_state_obj s) = {["input"; "messages"; "steps"; "output"]}.
Proof. unfold agent_state_obj. rewrite !dom_insert_L ?dom_singleton_L ?dom_empty_L. set_solver. Qed.

Lemma agent_obj_none s k :
  k <> "input" -> k <> "messages" -> k <> "steps" -> k <> "output" -> agent_state_obj s !! k = None.
Proof. intros. apply not_elem_of_dom. rewrite agent_obj_dom. set_solver. Qed.

Lemma agent_build (m : gmap string JsonValue) :
  (forall k, exists s, m !! k = agent_state_obj s !! k) ->
  exists s, agent_state_of_obj m = Some s /\ agent_state_obj s = m.
Proof.
  intros Hm. destruct (Hm "input") as [si Hi], (Hm "messages") as [sm Hms],
    (Hm "steps") as [ss Hss], (Hm "output") as [so Ho].
  set (s := mkAgentState (input si) (messages sm) (steps ss) (output so)).
  assert (agent_state_obj s = m) as Hs.
  { apply map_eq. intros k.
    destruct (decide (k = "input")) as [->|]; [by rewrite Hi|].
    destruct (decide (k = "messages")) as [->|]; [by rewrite Hms|].
    destruct (decide (k = "steps")) as [->|]; [by rewrite Hss|].
    destruct (decide (k = "output")) as [->|]; [by rewrite Ho|].
    destruct (Hm k) as [s' ->]. by rewrite !agent_obj_none. }
  exists s. split; [|done]. rewrite -Hs. apply agent_state_roundtrip.
Qed.

Lemma agent_append s1 s2 f p l1 l2 :
  agent_state_obj s1 !! f = Some (JArray (p ++ l1)) -> agent_state_obj s2 !! f = Some (JArray l2) ->
  exists s3, agent_state_obj s3 !! f = Some (JArray (l2 ++ l1)).
Proof.
  destruct (decide (f = "input")) as [->|]; [by rewrite !agent_obj_input|].
  destruct (decide (f = "output")) as [->|].
  { rewrite !agent_obj_output. by destruct (output s1). }
  destruct (decide (f = "messages")) as [->|].
  { rewrite !agent_obj_messages. intros [= H1] [= <-].
    apply fmap_app_inv in H1 as (q & d & -> & -> & _).
    exists (mkAgentState "" (messages s2 ++ d) [] None). rewrite agent_obj_messages /=.
    by rewrite fmap_app. }
  destruct (decide (f = "steps")) as [->|].
  { rewrite !agent_obj_steps. intros [= H1] [= <-].
    apply fmap_app_inv in H1 as (q & d & -> & -> & _).
    exists (mkAgentState "" [] (steps s2 ++ d) None). rewrite agent_obj_steps /=.
    by rewrite fmap_app. }
  by rewrite !agent_obj_none.
Qed.

Global Program Instance AgentState_fieldwise : FieldwiseState AgentState.
Next Obligation. intros s1 s2. simpl. by rewrite !agent_obj_dom. Qed.
Next Obligation.
  intros m Hm. destruct (agent_build m Hm) as (s & Hs & Hobj). exists s. split; [|done].
  simpl. by rewrite Hs.
Qed.
Next Obligation. intros s1 s2 f p l1 l2. apply agent_append. Qed.

(** ** Properties *)

Section merge_properties.
Context {S N R C : Type} `{FieldwiseState S}.
Implicit Types (g : CompiledGraph S N R C) (base : S) (bs : list (ParallelBranch S)).


Lemma layer_fold_agree base k l acc v :
  (forall s, s ∈ l -> state_obj s !! k = state_obj base !! k \/ state_obj s !! k = v) ->
  fold_left (layer base k) l acc =
  if decide (Exists (fun s => state_obj s !! k <> state_obj base !! k) l) then v else acc.
Proof.
  revert acc. induction l as [|s l IH]; intros acc Hl; cbn [fold_left].
  { case_decide as He; [by apply Exists_nil in He|done]. }
  rewrite IH; last (intros s' Hs'; apply Hl; by apply list_elem_of_further).
  pose proof (Hl s (list_elem_of_here _ _)) as Hs. unfold layer.
  destruct (decide (Exists _ l)) as [He|He].
  - rewrite decide_True //. by apply Exists_cons_tl.
  - destruct (decide (state_obj s !! k = state_obj base !! k)) as [Heq|Hneq].
    + rewrite decide_False //. by intros [?|?]%Exists_cons.
    + rewrite decide_True; [naive_solver|by apply Exists_cons_hd].
Qed.

(** without per-field reducers, branches that never give one field two
    different new values merge to the same state in every order: no branch's
    write is lost to another's untouched copy. *)
Theorem merge_order_irrelevant g bs bs' base s s' :
  field_reducers g = [] -> bs ≡ₚ bs' ->
  (forall k b1 b2, b1 ∈ bs -> b2 ∈ bs ->
     state_obj (branch_state b1) !! k <> state_obj base !! k ->
     state_obj (branch_state b2) !! k <> state_obj base !! k ->
     state_obj (branch_state b1) !! k = state_obj (branch_state b2) !! k) ->
  merge_parallel_states g bs base = Ok s -> merge_parallel_states g bs' base = Ok s' ->
  state_obj s = state_obj s' /\
  forall k b, b ∈ bs -> state_obj (branch_state b) !! k <> state_obj base !! k ->
    state_obj s !! k = state_obj (branch_state b) !! k.
Proof.
  intros Hfr Hp Hagree. unfold merge_parallel_states. rewrite Hfr.
  destruct bs as [|b0 bs0]; [done|]. destruct bs' as [|b0' bs0']; [done|].
  set (bs := b0 :: bs0) in *. set (bs' := b0' :: bs0') in *. clearbody bs bs'.
  destruct (union_branches_spec base bs base) as (m & -> & Hm).
  destruct (union_branches_spec base bs' base) as (m' & -> & Hm').
  cbn [mbind result_bind reduce_fields]. intros [= <-] [= <-].
  assert (forall k b, b ∈ bs -> state_obj (branch_state b) !! k <> state_obj base !! k ->
    state_obj m !! k = state_obj (branch_state b) !! k /\
    state_obj m' !! k = state_obj (branch_state b) !! k) as Hwrite.
  { intros k b Hb Hw. rewrite Hm Hm'.
    rewrite !(layer_fold_agree base k _ _ (state_obj (branch_state b) !! k)).
    - rewrite !decide_True //; apply Exists_exists; exists (branch_state b);
        (split; [apply list_elem_of_fmap_2|done]); by rewrite -?Hp.
    - intros s (b' & -> & Hb')%list_elem_of_fmap. rewrite -Hp in Hb'.
      destruct (decide (state_obj (branch_state b') !! k = state_obj base !! k)); [by left|].
      right. by apply Hagree.
    - intros s (b' & -> & Hb')%list_elem_of_fmap.
      destruct (decide (state_obj (branch_state b') !! k = state_obj base !! k)); [by left|].
      right. by apply Hagree. }
  split; [|intros k b Hb Hw; by apply Hwrite].
  apply map_eq. intros k.
  destruct (decide (Exists (fun b => state_obj (branch_state b) !! k <> state_obj base !! k) bs))
    as [(b & Hb & Hw)%Exists_exists|Hno].
  { by destruct (Hwrite k b Hb Hw) as [-> ->]. }
  assert (forall l, l ≡ₚ bs -> fold_left (layer base k) (branch_state <$> l) (state_obj base !! k) =
    state_obj base !! k) as Hbase.
  { intros l Hl. rewrite (layer_fold_agree base k _ _ (state_obj base !! k)).
    - by case_decide.
    - intros s (b & -> & Hb)%list_elem_of_fmap. rewrite Hl in Hb. left.
      destruct (decide (state_obj (branch_state b) !! k = state_obj base !! k)); [done|].
      destruct Hno. apply Exists_exists. by exists b. }
  rewrite Hm Hm' !Hbase //.
Qed.

(** One field of what a composed reducer returns. *)
Definition composed_field (fallback : Reducer S) (fields : list (string * Reducer S))
    (current upd : S) (k : string) : option JsonValue :=
  match list_find (fun fr => fr.1 = k) fields with
  | Some (_, (_, r)) => state_obj (r current upd) !! k
  | None => state_obj (fallback current upd) !! k
  end.

Lemma merge_fields_spec current upd fields merged (m : gmap string JsonValue) :
  NoDup fields.*1 -> (forall f, f ∈ fields.*1 -> is_field current f) ->
  exists m', merge_fields current upd fields merged (JObject m) = (merged, JObject m') /\
    forall k, m' !! k = match list_find (fun fr => fr.1 = k) fields with
                        | Some (_, (_, r)) => state_obj (r current upd) !! k
                        | None => m !! k
                        end.
Proof.
  revert m. induction fields as [|[f r] fields IH]; intros m Hnd Hf; cbn [merge_fields].
  { by exists m. }
  apply NoDup_cons in Hnd as [Hnf Hnd].
  destruct (Hf f (list_elem_of_here _ _)) as [v Hv].
  destruct (state_obj (r current upd) !! f) as [p|] eqn:Ep; last first.
  { by rewrite (lookup_none_all (r current upd) current) in Hv. }
  rewrite to_value_obj. cbn [as_object mbind option_bind]. rewrite Ep.
  destruct (IH (<[f := p]> m) Hnd) as (m' & -> & Hm').
  { intros f' Hf'. apply Hf. by apply list_elem_of_further. }
  exists m'. split; [done|]. intros k. rewrite Hm'. cbn [list_find fst].
  destruct (decide (f = k)) as [<-|Hk].
  - destruct (list_find _ fields) as [[i [f' r']]|] eqn:El.
    + apply list_find_Some in El as (Hi & Hfk & _). simpl in Hfk. subst f'.
      destruct Hnf. by apply list_elem_of_fmap_2 with (f := fst) (x := (f, r')), list_elem_of_lookup_2 with i.
    + by rewrite lookup_insert_eq Ep.
  - destruct (list_find _ fields) as [[i [f' r']]|]; simpl; [done|]. by rewrite lookup_insert_ne.
Qed.

(** a graph's composed reducer works field by field: each field with a reducer
    of its own gets what that reducer computes from the current state and the
    update, every other field what the fallback computes, and the order in which
    the reducers are registered does not matter. *)
Theorem merge_reducer_fieldwise fallback fields (current upd : S) :
  NoDup fields.*1 -> (forall f, f ∈ fields.*1 -> is_field current f) ->
  (forall k, state_obj (MergeReducer fallback fields current upd) !! k =
     composed_field fallback fields current upd k) /\
  forall fields', fields' ≡ₚ fields ->
    state_obj (MergeReducer fallback fields' current upd) =
    state_obj (MergeReducer fallback fields current upd).
Proof.
  assert (forall fields, NoDup fields.*1 -> (forall f, f ∈ fields.*1 -> is_field current f) ->
    forall k, state_obj (MergeReducer fallback fields current upd) !! k =
      composed_field fallback fields current upd k) as Hfields.
  { clear fields. intros fields Hnd Hf k. unfold MergeReducer.
    destruct fields as [|fr fields]; [done|]. set (fs := fr :: fields) in *. clearbody fs.
    rewrite to_value_obj.
    destruct (merge_fields_spec current upd fs (fallback current upd)
      (state_obj (fallback current upd)) Hnd Hf) as (m' & -> & Hm').
    destruct (fs_build (S := S) m') as (s & -> & Hs).
    - intros k'. rewrite Hm'. destruct (list_find _ fs) as [[i [f r]]|]; eauto.
    - by rewrite Hs Hm'. }
  intros Hnd Hf. split; [by apply Hfields|]. intros fields' Hp. apply map_eq. intros k.
  assert (NoDup fields'.*1) as Hnd' by (by rewrite Hp).
  rewrite !Hfields //; last by setoid_rewrite Hp.
  unfold composed_field.
  assert (forall l f r, NoDup l.*1 -> (f, r) ∈ l ->
    exists i, list_find (fun fr : string * Reducer S => fr.1 = f) l = Some (i, (f, r))) as Hfind.
  { intros l f r Hl Hin. destruct (list_find_elem_of (fun fr => fr.1 = f) l (f, r) Hin eq_refl)
      as [[i [f' r']] E]. exists i. rewrite E. apply list_find_Some in E as (Hi & Hfk & _).
    simpl in Hfk. subst f'. apply list_elem_of_lookup_2 in Hi.
    by rewrite (NoDup_fmap_elem_inj fst l _ _ Hl Hin Hi eq_refl). }
  destruct (list_find _ fields) as [[i [f r]]|] eqn:El.
  - pose proof El as (Hi & Hfk & _)%list_find_Some. simpl in Hfk. subst f.
    apply list_elem_of_lookup_2 in Hi. rewrite -Hp in Hi.
    by destruct (Hfind fields' k r Hnd' Hi) as [j ->].
  - destruct (list_find _ fields') as [[j [f r]]|] eqn:El'; [|done].
    apply list_find_None in El. apply list_find_Some in El' as (Hj & Hfk & _).
    apply list_elem_of_lookup_2 in Hj. rewrite Hp in Hj.
    by destruct (proj1 (Forall_forall _ _) El _ Hj).
Qed.
End merge_properties.

(** ** Two branches of an agent run *)

Definition demo_base : AgentState := mkAgentState "q" [MessageEntry.human "q"] [] None.


Definition demo_disjoint : list (ParallelBranch AgentState) :=
  [ mkBranch "steps" (AgentState.add_step demo_base (StepEntry.new "look" "seen")) [];
    mkBranch "output" (AgentState.set_output demo_base "42") [] ].
Definition demo_union_graph : CompiledGraph AgentState () () () :=
  CompiledGraph.new ∅ [] START ReplaceReducer [].

Definition demo_merged : AgentState :=
  mkAgentState "q" [MessageEntry.human "q"] [StepEntry.new "look" "seen"] (Some "42").

Lemma merge_order_irrelevant_witness :
  merge_parallel_states demo_union_graph demo_disjoint demo_base = Ok demo_merged /\
  forall s', merge_parallel_states demo_union_graph (reverse demo_disjoint) demo_base = Ok s' ->
    state_obj demo_merged = state_obj s'.
Proof.
  assert (merge_parallel_states demo_union_graph demo_disjoint demo_base = Ok demo_merged) as E
    by (by vm_compute).
  split; [exact E|]. intros s' E'.
  apply (merge_order_irrelevant demo_union_graph demo_disjoint (reverse demo_disjoint) demo_base
    demo_merged s'); [done| |..|exact E|exact E'].
  - symmetry. apply reverse_Permutation.
  - intros k b1 b2. unfold demo_disjoint. rewrite !elem_of_cons !elem_of_nil.
    assert (forall b1 b2 : AgentState, b1 = AgentState.add_step demo_base (StepEntry.new "look" "seen") ->
      b2 = AgentState.set_output demo_base "42" ->
      state_obj b1 !! k = state_obj demo_base !! k \/ state_obj b2 !! k = state_obj demo_base !! k)
      as Hdis.
    { intros ? ? -> ->. destruct (decide (k = "steps")) as [->|Hk]; [by right|]. left.
      change (agent_state_obj (mkAgentState (input demo_base) (messages demo_base)
        [StepEntry.new "look" "seen"] (output demo_base)) !! k = agent_state_obj demo_base !! k).
      by rewrite -(agent_obj_insert_steps demo_base) lookup_insert_ne. }
    intros [->|[->|[]]] [->|[->|[]]] H1 H2; [exact eq_refl|exfalso|exfalso|exact eq_refl].
    + destruct (Hdis _ _ eq_refl eq_refl) as [E1|E1]; [exact (H1 E1)|exact (H2 E1)].
    + destruct (Hdis _ _ eq_refl eq_refl) as [E1|E1]; [exact (H2 E1)|exact (H1 E1)].
Defined.

Lemma merge_reducer_fieldwise_witness :
  state_obj (MergeReducer ReplaceReducer [("messages", AppendMessagesReducer)] demo_base demo_merged)
    !! "messages" = Some (JArray (message_to_value <$> [MessageEntry.human "q"; MessageEntry.human "q"])).
Proof.
  destruct (merge_reducer_fieldwise ReplaceReducer [("messages", AppendMessagesReducer)]
    demo_base demo_merged) as [H _].
  - apply NoDup_singleton.
  - intros f ->%list_elem_of_singleton. by eexists.
  - rewrite H. by vm_compute.
Defined.
