(* ===== verification/Engine.v ===== *)
(** * The execution loops ([compiled/invoke.rs], [execute_parallel_branches])

    The Rust loops [invoke_with_config], [invoke_with_execution] and
    [invoke_from_node_with_count] are the three fixpoints of this file.  They
    share one fuel, spent once per loop iteration and handed on to the branches of
    a fan-out; [None] is running out of it.  [invoke_terminates] and
    [resume_terminates] in [EngineFacts] give the fuel that is always enough.

    The branches of a fan-out run here one after the other, in declaration
    order, all of them before the first error is returned.  That is the exact
    behaviour of [max_concurrency = Some(1)]; with a larger bound tokio may
    interleave the branches at their await points, which only nodes that share
    mutable state outside the graph state can observe. *)

From stdpp Require Import gmap strings list.
From S2P Require Import Prelude Json State Edge Checkpoint Node Graph Validate Routing Merge.

Section engine.
Context {S N R C X : Type} `{StateSchema S}.
Notation E := (Env N R C X).
Context `{!GraphCode S N R E}.
Implicit Types g : CompiledGraph S N R C.

Definition effective_limit g (config : NodeConfig) : nat :=
  match nc_recursion_limit config with
  | 0 => recursion_limit g
  | caller => caller `min` recursion_limit g
  end.

Definition node_config (limit : nat) (base : NodeConfig) (resume : option JsonValue)
    : NodeConfig :=
  let metadata := match resume with
                  | Some value => <[INTERRUPT_RESUME_KEY := value]> (nc_metadata base)
                  | None => nc_metadata base
                  end in
  mkNodeConfig limit metadata (nc_debug base).

(** [if let Some(ref checkpointer) = self.checkpointer { ... save ... push step }] *)
Definition save_step g (state : S) (count : nat) (next : string) (steps : list ExecutionStep)
    : Act E GraphError (list ExecutionStep) :=
  match checkpointer g with
  | Some cp =>
      checkpoint_id ← with_store (save cp state count);
      mret (steps ++ [ExecutionStep.checkpoint checkpoint_id next])
  | None => mret steps
  end.

Definition run_node g (state : S) (current_node : string) (count : nat) (config : NodeConfig)
    : Act E GraphError (StateUpdate S) :=
  node ← CompiledGraph.get_node g current_node;
  result ← try_act (execute node state (Some config));
  match result with
  | Err (InterruptRequest payload) =>
      match checkpointer g with
      | Some cp =>
          checkpoint_id ← with_store (save cp state (count - 1));
          act_fail (DynamicInterrupt current_node
            (json_insert "__checkpoint_id" (JString checkpoint_id) payload))
      | None => act_fail (DynamicInterrupt current_node payload)
      end
  | other => act_of_result other
  end.

Definition apply_update g (state : S) (u : StateUpdate S) : S :=
  match update u with
  | Some new_state => default_reducer g state new_state
  | None => state
  end.

(** One node of a loop: run it, fold its update, record the step, and stop after
    it (with the state saved) when it is an [interrupt_after] node. *)
Definition step_node g (config : NodeConfig) (current_node : string) (state : S)
    (steps : list ExecutionStep) (count : nat) : Act E GraphError (S * list ExecutionStep) :=
  u ← run_node g state current_node count config;
  let state := apply_update g state u in
  let steps := steps ++ [ExecutionStep.node current_node (metadata u)] in
  if contains current_node (interrupt_after g) then
    save_step g state count ("after_" +:+ current_node) steps;;
    act_fail (ExecutionInterrupted ("after_" +:+ current_node))
  else mret (state, steps).

(** ** Fan-out *)

Definition Branch : Type := string -> S -> nat -> Run E GraphError (GraphInvocation S).

Fixpoint run_branches (branch : Branch) (targets : list string) (state : S) (count : nat)
    : Run E GraphError (list (string * result GraphError (GraphInvocation S))) :=
  match targets with
  | [] => mret []
  | target :: targets' =>
      r ← try_run (branch target state count);
      rs ← run_branches branch targets' state count;
      mret ((target, r) :: rs)
  end.

(** The results in order, or the first error. *)
Fixpoint collect_branches (results : list (string * result GraphError (GraphInvocation S)))
    : GraphResult (list (string * GraphInvocation S)) :=
  match results with
  | [] => Ok []
  | (name, r) :: results' =>
      inv ← r;
      successful ← collect_branches results';
      Ok ((name, inv) :: successful)
  end.

Definition execute_parallel_branches (branch : Branch) (targets : list string) (state : S)
    (count : nat) : Run E GraphError (list (string * GraphInvocation S)) :=
  results ← run_branches branch (filter (fun t => t <> END) targets) state count;
  run_of_result (collect_branches results).

Definition to_branch (r : string * GraphInvocation S) : ParallelBranch S :=
  mkBranch r.1 (final_state r.2) (inv_steps r.2).

(** The fan-out block of every loop: run the branches, record them after the
    [prior] ones, merge on top of the state, and move to the fan-in or [END]. *)
Definition run_fan_out g (branch : Branch) (prior : list (ParallelBranch S))
    (targets : list string) (state : S) (steps : list ExecutionStep) (count : nat)
    : Run E GraphError (S * string * list ExecutionStep * list (ParallelBranch S)) :=
  branch_results ← execute_parallel_branches branch targets state count;
  let parallel_branches := prior ++ (to_branch <$> branch_results) in
  let steps := steps ++ ((fun r => StepParallelNode r.1 ∅) <$> branch_results) in
  e ← lift act_get;
  merged ← run_of_result (merge_parallel_states g parallel_branches state);
  mret (merged, default END (find_fan_in_target g e targets), steps, parallel_branches).

(** ** The loops *)

(** [invoke_from_node_with_count]: no checkpoint per step. *)
Fixpoint from_node_loop (fuel : nat) g (current_node : string) (state : S)
    (steps : list ExecutionStep) (count : nat) : Run E GraphError (GraphInvocation S) :=
  match fuel with
  | 0 => out_of_fuel
  | Datatypes.S fuel' =>
      if current_node =ₛ END then mret (mkInvocation state steps count) else
      if recursion_limit g <=? count
      then run_fail (RecursionLimitReached (recursion_limit g)) else
      if contains current_node (interrupt_before g)
      then run_fail (ExecutionInterrupted current_node) else
      let count := count + 1 in
      '(state, steps) ← lift (step_node g (node_config (recursion_limit g) NodeConfig.default None)
                                current_node state steps count);
      e ← lift act_get;
      match find_fan_out_targets g e current_node with
      | Some targets =>
          let count := count + 1 in
          '(state, next, steps, _) ←
            run_fan_out g (fun t s c => from_node_loop fuel' g t s [] c) [] targets state steps count;
          from_node_loop fuel' g next state steps count
      | None =>
          next ← lift (find_next_node g current_node state);
          from_node_loop fuel' g next state steps count
      end
  end.

Definition invoke_from_node_with_count (fuel : nat) g (start_node : string) (input : S)
    (count : nat) : Run E GraphError (GraphInvocation S) :=
  from_node_loop fuel g start_node input [] count.

Definition invoke_from_node (fuel : nat) g (start_node : string) (input : S)
    : Run E GraphError (GraphInvocation S) :=
  invoke_from_node_with_count fuel g start_node input 0.

(** [invoke_with_config]'s loop. *)
Fixpoint invoke_loop (fuel : nat) g (limit : nat) (config : NodeConfig) (current_node : string)
    (state : S) (steps : list ExecutionStep) (count : nat)
    : Run E GraphError (GraphInvocation S) :=
  match fuel with
  | 0 => out_of_fuel
  | Datatypes.S fuel' =>
      if current_node =ₛ END then mret (mkInvocation state steps count) else
      if limit <=? count then run_fail (RecursionLimitReached limit) else
      if contains current_node (interrupt_before g)
      then run_fail (ExecutionInterrupted current_node) else
      '(state, steps, count) ←
        (if current_node =ₛ START then mret (state, steps, count)
         else
           let count := count + 1 in
           '(state, steps) ← lift (step_node g (node_config limit config None)
                                     current_node state steps count);
           mret (state, steps, count));
      e ← lift act_get;
      match find_fan_out_targets g e current_node with
      | Some targets =>
          let count := count + 1 in
          '(state, next, steps, _) ←
            run_fan_out g (invoke_from_node_with_count fuel' g) [] targets state steps count;
          steps ← lift (save_step g state count next steps);
          invoke_loop fuel' g limit config next state steps count
      | None =>
          next ← lift (find_next_node g current_node state);
          steps ← lift (save_step g state count next steps);
          invoke_loop fuel' g limit config next state steps count
      end
  end.

Definition invoke_with_config (fuel : nat) g (input : S) (config : NodeConfig)
    : Run E GraphError (GraphInvocation S) :=
  let limit := effective_limit g config in
  steps ← lift (save_step g input 0 (entry_point g) []);
  invoke_loop fuel g limit config (entry_point g) input steps 0.

Definition invoke (fuel : nat) g (input : S) : Run E GraphError (GraphInvocation S) :=
  invoke_with_config fuel g input NodeConfig.default.

(** [invoke_with_execution]'s loop: the resume value goes to the first node run. *)
Fixpoint execution_loop (fuel : nat) g (first_node : string) (rerun_interrupted : bool)
    (resume_value : option JsonValue) (current_node : string) (state : S)
    (steps : list ExecutionStep) (count : nat) : Run E GraphError (GraphInvocation S) :=
  match fuel with
  | 0 => out_of_fuel
  | Datatypes.S fuel' =>
      if current_node =ₛ END then mret (mkInvocation state steps count) else
      if recursion_limit g <=? count
      then run_fail (RecursionLimitReached (recursion_limit g)) else
      if (negb (current_node =ₛ first_node) || negb rerun_interrupted) &&
         contains current_node (interrupt_before g)
      then run_fail (ExecutionInterrupted current_node) else
      let count := count + 1 in
      '(state, steps) ← lift (step_node g
          (node_config (recursion_limit g) NodeConfig.default resume_value)
          current_node state steps count);
      e ← lift act_get;
      match find_fan_out_targets g e current_node with
      | Some targets =>
          let count := count + 1 in
          '(state, next, steps, _) ←
            run_fan_out g (invoke_from_node_with_count fuel' g) [] targets state steps count;
          steps ← lift (save_step g state count next steps);
          execution_loop fuel' g first_node rerun_interrupted None next state steps count
      | None =>
          next ← lift (find_next_node g current_node state);
          steps ← lift (save_step g state count next steps);
          execution_loop fuel' g first_node rerun_interrupted None next state steps count
      end
  end.

(** Where an execution re-enters the graph: the interrupted node itself, or, after
    an [after_] interrupt, its successor (running its fan-out first). *)
Definition reentry (fuel : nat) g (execution : GraphExecution S) (rerun_interrupted : bool)
    : Run E GraphError (string * S * list ExecutionStep * nat) :=
  let state := ex_state execution in
  let steps := ex_steps execution in
  let count := ex_recursion_count execution in
  if rerun_interrupted then mret (ex_current_node execution, state, steps, count) else
  e ← lift act_get;
  match find_fan_out_targets g e (ex_current_node execution) with
  | Some targets =>
      let count := count + 1 in
      '(state, next, steps, _) ←
        run_fan_out g (invoke_from_node_with_count fuel g) [] targets state steps count;
      mret (next, state, steps, count)
  | None =>
      next ← lift (find_next_node g (ex_current_node execution) state);
      mret (next, state, steps, count)
  end.

Definition invoke_with_execution (fuel : nat) g (execution : GraphExecution S)
    : Run E GraphError (GraphInvocation S) :=
  let rerun_interrupted :=
    match ex_pending_interrupt execution with Some _ => true | None => false end ||
    negb (starts_with "after_" (ex_interrupted_at execution)) in
  let resume_value := pi_value <$> ex_pending_interrupt execution in
  '(current_node, state, steps, count) ← reentry fuel g execution rerun_interrupted;
  execution_loop fuel g current_node rerun_interrupted resume_value current_node state steps count.

Definition resume (fuel : nat) g (execution : GraphExecution S)
    : Run E GraphError (GraphInvocation S) :=
  invoke_with_execution fuel g execution.

End engine.
