(* ===== verification/EngineFacts.v ===== *)
(** * Termination and bounds of the execution loops

    More fuel never changes an answer; [limit + 2 - count] units are always enough,
    whatever the nodes do, as long as nothing leads back to the virtual START
    node; and a successful run never reports more steps than its limit. *)

From stdpp Require Import gmap strings list.
From S2P Require Import Prelude Json State Edge Checkpoint Node Graph Validate Routing Merge Engine.

Section fuel.
Context {S N R C X : Type} `{StateSchema S}.
Notation E := (Env N R C X).
Context `{!GraphCode S N R E}.
Implicit Types g : CompiledGraph S N R C.

(** ** More fuel *)

Notation BranchE := (string -> S -> nat -> Run E GraphError (GraphInvocation S)).

Lemma run_branches_mono (b1 b2 : BranchE) targets s c :
  (forall t s c, b1 t s c ⊑ᵣ b2 t s c) ->
  run_branches b1 targets s c ⊑ᵣ run_branches b2 targets s c.
Proof.
  intros Hb. induction targets as [|t ts IH]; cbn [run_branches]; [reflexivity|].
  apply run_le_bind; [by apply run_le_try|]. intros r. by apply run_le_bind.
Qed.

Lemma run_fan_out_mono g (b1 b2 : BranchE) prior targets s steps c :
  (forall t s c, b1 t s c ⊑ᵣ b2 t s c) ->
  run_fan_out g b1 prior targets s steps c ⊑ᵣ run_fan_out g b2 prior targets s steps c.
Proof.
  intros Hb. unfold run_fan_out, execute_parallel_branches.
  apply run_le_bind; [|reflexivity]. apply run_le_bind; [by apply run_branches_mono|reflexivity].
Qed.

(** Continue a monotonicity proof through the shared shape of a loop body. *)
Ltac run_mono IH :=
  repeat first
    [ solve [auto with lc_run]
    | apply IH
    | apply run_fan_out_mono; intros ? ? ?
    | apply run_le_bind; [|intros ?]
    | case_match ].

Lemma from_node_loop_mono fuel fuel' g cur s steps c :
  fuel <= fuel' -> from_node_loop fuel g cur s steps c ⊑ᵣ from_node_loop fuel' g cur s steps c.
Proof.
  revert fuel' cur s steps c. induction fuel as [|fuel IH]; intros fuel' cur s steps c Hf; [done|].
  destruct fuel' as [|fuel']; [lia|]. cbn [from_node_loop].
  assert (forall cur s steps c,
    from_node_loop fuel g cur s steps c ⊑ᵣ from_node_loop fuel' g cur s steps c) as IH'
    by (intros; apply IH; lia).
  run_mono IH'.
Qed.

Lemma invoke_loop_mono fuel fuel' g limit config cur s steps c :
  fuel <= fuel' ->
  invoke_loop fuel g limit config cur s steps c ⊑ᵣ invoke_loop fuel' g limit config cur s steps c.
Proof.
  revert fuel' cur s steps c. induction fuel as [|fuel IH]; intros fuel' cur s steps c Hf; [done|].
  destruct fuel' as [|fuel']; [lia|]. cbn [invoke_loop].
  assert (forall cur s steps c, invoke_loop fuel g limit config cur s steps c ⊑ᵣ
    invoke_loop fuel' g limit config cur s steps c) as IH' by (intros; apply IH; lia).
  assert (forall t s c, invoke_from_node_with_count fuel g t s c ⊑ᵣ
    invoke_from_node_with_count fuel' g t s c) as Hb by (intros; apply from_node_loop_mono; lia).
  run_mono IH'; apply Hb.
Qed.

Lemma execution_loop_mono fuel fuel' g first rerun rv cur s steps c :
  fuel <= fuel' ->
  execution_loop fuel g first rerun rv cur s steps c ⊑ᵣ
  execution_loop fuel' g first rerun rv cur s steps c.
Proof.
  revert fuel' rv cur s steps c.
  induction fuel as [|fuel IH]; intros fuel' rv cur s steps c Hf; [done|].
  destruct fuel' as [|fuel']; [lia|]. cbn [execution_loop].
  assert (forall rv cur s steps c, execution_loop fuel g first rerun rv cur s steps c ⊑ᵣ
    execution_loop fuel' g first rerun rv cur s steps c) as IH' by (intros; apply IH; lia).
  assert (forall t s c, invoke_from_node_with_count fuel g t s c ⊑ᵣ
    invoke_from_node_with_count fuel' g t s c) as Hb by (intros; apply from_node_loop_mono; lia).
  run_mono IH'; apply Hb.
Qed.
End fuel.

(** ** Termination *)

(** Nothing routes to START: not a static edge, not a runtime edge, and the nodes
    and routers of the program do not add such an edge while they run. *)
Definition no_start (es : list GraphEdge) : Prop := forall edge, edge ∈ es -> START ∉ edge_targets edge.

Class KeepsEnv {S N R E : Type} `{!GraphCode S N R E} (P : E -> Prop) : Prop := {
  keeps_execute n (s : S) config e : P e -> P (execute n s config e).2;
  keeps_route r (s : S) e : P e -> P (route r s e).2;
}.

(** A predicate that ignores the checkpoint store. *)
Class IgnoresStore {N R C X : Type} (P : Env N R C X -> Prop) : Prop :=
  ignores_store c e : P e -> P (set_store c e).

Definition start_free {N R C X : Type} (e : Env N R C X) : Prop := no_start (runtime_edges e).

Global Instance start_free_ignores_store {N R C X} : IgnoresStore (@start_free N R C X).
Proof. intros c e He. exact He. Qed.

Section keeps.
Context {S N R C X : Type} `{StateSchema S}.
Notation E := (Env N R C X).
Context `{!GraphCode S N R E} (P : E -> Prop) `{!KeepsEnv P, !IgnoresStore P}.
Implicit Types g : CompiledGraph S N R C.

(** The total operations of the loops keep [P]. *)
Lemma keeps_with_store {A} (m : Act C GraphError A) e : P e -> P (with_store m e).2.
Proof.
  intros He. unfold with_store, act_zoom. destruct (m (store e)) as [r c]. by apply ignores_store.
Qed.

Lemma keeps_bind {A B} (m : Act E GraphError A) (f : A -> Act E GraphError B) :
  (forall e, P e -> P (m e).2) -> (forall a e, P e -> P (f a e).2) ->
  forall e, P e -> P ((m ≫= f) e).2.
Proof.
  intros Hm Hf e He. specialize (Hm e He). unfold mbind, act_bind.
  destruct (m e) as [[a|err] e']; [by apply Hf|done].
Qed.

Lemma keeps_save_step g s c next steps e : P e -> P (save_step g s c next steps e).2.
Proof.
  unfold save_step. destruct (checkpointer g); [|done]. revert e. apply keeps_bind; [|done].
  intros e. apply keeps_with_store.
Qed.

Lemma keeps_run_node g s cur c config e : P e -> P (run_node g s cur c config e).2.
Proof.
  revert e. unfold run_node. apply keeps_bind.
  { intros e He. unfold CompiledGraph.get_node. by repeat case_match. }
  intros n. apply keeps_bind.
  { intros e He. unfold try_act. pose proof (keeps_execute n s (Some config) e He) as Hk.
    by destruct (execute n s (Some config) e). }
  intros [u|[]]; try done. destruct (checkpointer g); [|done].
  apply keeps_bind; [|done]. intros e. apply keeps_with_store.
Qed.

Lemma keeps_step_node g config cur s steps c e : P e -> P (step_node g config cur s steps c e).2.
Proof.
  revert e. unfold step_node. apply keeps_bind; [intros e; apply keeps_run_node|].
  intros u. case_match; [|done]. apply keeps_bind; [|done]. intros e. apply keeps_save_step.
Qed.

Lemma keeps_find_next_node g cur s e : P e -> P (find_next_node g cur s e).2.
Proof.
  assert (forall sfx r ts d e, P e -> P (follow_conditional g sfx r ts d s e).2) as Hc.
  { intros sfx r ts d e' He. unfold follow_conditional. destruct (find_router g e' r); [|done].
    revert e' He. apply keeps_bind; [intros e'; apply keeps_route|done]. }
  intros He. unfold find_next_node, next_runtime.
  assert (P (match next_static g (edges g) cur s with
    | Some act => act e
    | None => if (cur =ₛ entry_point g) && (size (nodes g) =? 1) then (Ok END, e)
              else if is_fan_in_source g e cur then (Ok END, e)
              else (Err (RoutingError ("No outgoing edge from node '" +:+ cur +:+ "'")), e)
    end).2) as Hstatic.
  { pose proof (next_static_spec g (edges g) cur s) as Hn.
    destruct (next_static g (edges g) cur s) as [act|]; [|by repeat case_match].
    destruct Hn as (edge & _ & _ & Ho).
    destruct edge as [| |s' [|t ts]|]; cbn [static_outcome] in Ho; subst; try done. by apply Hc. }
  destruct (find_edge (runtime_edges e) cur) as [[s' t|s' r ts d|s' [|t ts]|ss t]|]; try done.
  by apply Hc.
Qed.
End keeps.

(** ** One induction for the loops

    [P] is kept by everything a run does to the environment, [V] holds of every
    node a run moves to, and [Fe] of every error it can end with.  From these the
    loops terminate, keep [P], and stay within the limit. *)

Section loops.
Context {S N R C X : Type} `{StateSchema S}.
Notation E := (Env N R C X).
Context `{!GraphCode S N R E}.
Context (g : CompiledGraph S N R C) (P : E -> Prop) (V : string -> Prop) (Fe : GraphError -> Prop).

Definition answers {A} (Q : A -> Prop) (r : result GraphError A * E) : Prop :=
  match r with (Ok a, e) => P e /\ Q a | (Err err, e) => P e /\ Fe err end.

(** The virtual START, which only a run that starts there visits. *)
Definition virtual (cur : string) : Prop := cur = START /\ entry_point g = START.

Record loop_inv : Prop := {
  li_end : V END;
  li_limit n : Fe (RecursionLimitReached n);
  li_interrupt n : contains n (interrupt_before g) = true -> Fe (ExecutionInterrupted n);
  li_merge bs s err : merge_parallel_states g bs s = Err err -> Fe err;
  li_save s c next steps e : P e -> answers (fun _ => True) (save_step g s c next steps e);
  li_step config cur s steps c e : P e -> V cur -> cur <> END ->
    answers (fun _ => True) (step_node g config cur s steps c e);
  li_next cur s e : P e -> V cur \/ virtual cur -> cur <> END ->
    find_fan_out_targets g e cur = None -> answers V (find_next_node g cur s e);
  li_fan_out cur e ts t : P e -> V cur \/ virtual cur ->
    find_fan_out_targets g e cur = Some ts -> t ∈ ts -> t <> END -> V t;
  li_fan_in cur e e' ts t : P e -> V cur \/ virtual cur ->
    find_fan_out_targets g e cur = Some ts -> P e' ->
    find_fan_in_target g e' ts = Some t -> V t;
}.

Notation Err_ := (fun err e => P e /\ Fe err).

Lemma triple_answers {A} (Q : A -> Prop) (m : Act E GraphError A) :
  (forall e, P e -> answers Q (m e)) -> triple P (lift m) (fun a e => P e /\ Q a) Err_.
Proof. intros Hm. apply triple_lift. intros e He. specialize (Hm e He). by destruct (m e) as [[] ?]. Qed.

Lemma triple_stop {A} (Q : A -> E -> Prop) err : Fe err -> triple P (run_fail err) Q Err_.
Proof. intros Herr. apply triple_fail. by intros e He. Qed.

Lemma run_branches_total (branch : string -> S -> nat -> Run E GraphError (GraphInvocation S))
    targets s c (Rb : Prop) :
  (forall t, t ∈ targets -> triple P (branch t s c) (fun _ e => P e /\ Rb) Err_) ->
  triple P (run_branches branch targets s c)
    (fun rs e => P e /\ forall n r, (n, r) ∈ rs -> match r with Ok _ => Rb | Err err => Fe err end)
    Err_.
Proof.
  induction targets as [|t ts IH]; intros Hb; cbn [run_branches].
  { apply triple_ret. intros e He. split; [done|]. by intros ? ? ?%elem_of_nil. }
  eapply triple_bind.
  { apply (triple_try P (fun _ e => P e /\ Rb) Err_). apply Hb, list_elem_of_here. }
  intros r. apply (triple_pre (fun e => P e /\ match r with Ok _ => Rb | Err err => Fe err end));
    [|intros e; by destruct r].
  apply triple_pure. intros Hr. eapply triple_bind.
  - apply IH. intros t' Ht'. apply Hb. by apply list_elem_of_further.
  - intros rs. apply triple_ret. intros e [He Hrs]. split; [done|].
    intros n r' [[= -> ->]|Hin]%elem_of_cons; [done|by eapply Hrs].
Qed.

Lemma collect_branches_cases rs (Rb : Prop) :
  (forall n (r : result GraphError (GraphInvocation S)), (n, r) ∈ rs ->
     match r with Ok _ => Rb | Err err => Fe err end) ->
  match collect_branches rs with Ok l => l <> [] -> Rb | Err err => Fe err end.
Proof.
  induction rs as [|[n r] rs IH]; intros Hrs; cbn [collect_branches]; [done|].
  pose proof (Hrs n r (list_elem_of_here _ _)) as Hr. destruct r as [inv|err]; [|done].
  cbn [mbind result_bind]. specialize (IH (fun n r Hin => Hrs n r (list_elem_of_further _ _ _ Hin))).
  destruct (collect_branches rs); [intros _; exact Hr|exact IH].
Qed.

Hypothesis Hinv : loop_inv.

Lemma run_fan_out_total branch targets s steps c (Rb : Prop) cur e0 :
  P e0 -> V cur \/ virtual cur -> find_fan_out_targets g e0 cur = Some targets ->
  (forall t, V t -> t <> END -> triple P (branch t s c) (fun _ e => P e /\ Rb) Err_) ->
  triple P (run_fan_out g branch [] targets s steps c)
    (fun '(_, next, _, _) e => P e /\ Rb /\ V next) Err_.
Proof.
  intros He0 Hcur Hfo Hb. unfold run_fan_out, execute_parallel_branches.
  eapply triple_bind with (Q := fun l e => P e /\ (l <> [] -> Rb)).
  { eapply triple_bind.
    - apply run_branches_total. intros t [Hte Ht]%list_elem_of_filter.
      apply Hb; [|done]. by apply (li_fan_out Hinv cur e0 targets).
    - intros rs. apply triple_of_result. intros e [He Hrs].
      pose proof (collect_branches_cases rs Rb Hrs). by destruct (collect_branches rs). }
  intros l. apply triple_get. intros e1 [He1 Hl].
  eapply triple_bind with (Q := fun _ e => P e /\ Rb).
  { apply triple_of_result. intros e ->.
    destruct (merge_parallel_states g ([] ++ (to_branch <$> l)) s) as [m|err] eqn:Em.
    - split; [done|]. apply Hl. by intros ->.
    - split; [done|]. by eapply li_merge. }
  intros m. apply triple_ret. intros e [He HR]. split; [done|]. split; [done|].
  destruct (find_fan_in_target g e1 targets) as [t|] eqn:Et; simpl; [|apply Hinv].
  by apply (li_fan_in Hinv cur e0 e1 targets).
Qed.

(** What a run that answers says about its step count. *)
Definition counted (limit c : nat) (cur : string) (inv : GraphInvocation S) : Prop :=
  c <= recursion_count inv /\ recursion_count inv <= c `max` limit /\ (cur <> END -> c < limit).

Lemma from_node_loop_total fuel cur s steps c :
  V cur -> recursion_limit g - c < fuel ->
  triple P (from_node_loop fuel g cur s steps c)
    (fun inv e => P e /\ counted (recursion_limit g) c cur inv) Err_.
Proof.
  revert cur s steps c. induction fuel as [|fuel IH]; intros cur s steps c Hcur Hf; [lia|].
  cbn [from_node_loop]. case_bool_decide as Hend.
  { apply triple_ret. intros e He. split; [done|]. unfold counted. simpl. split; [lia|].
    split; [lia|done]. }
  destruct (recursion_limit g <=? c) eqn:El.
  { apply triple_stop, Hinv. }
  apply Nat.leb_gt in El. destruct (contains cur (interrupt_before g)) eqn:Ei.
  { by apply triple_stop, Hinv. }
  eapply triple_bind; [apply (triple_answers (fun _ => True)); intros e He; by apply Hinv|].
  intros [s1 steps1]. apply triple_get. intros e1 [He1 _].
  destruct (find_fan_out_targets g e1 cur) as [ts|] eqn:Efo.
  - eapply triple_bind.
    { eapply triple_pre; [|by intros e ->; exact He1].
      apply (run_fan_out_total _ ts s1 steps1 (c + 1 + 1) (c + 1 + 1 < recursion_limit g) cur e1);
        [done|by left|done|].
      intros t Ht Hte. eapply triple_post; [apply (IH t s1 [] (c + 1 + 1)); [done|lia]|].
      intros inv e [He (_ & _ & Hlt)]. split; [done|by apply Hlt]. }
    intros [[[s2 next] steps2] brs]. apply triple_pure. intros [Hlt Hnext].
    eapply triple_post; [apply (IH next s2 steps2 (c + 1 + 1)); [done|lia]|].
    intros inv e [He (Hc1 & Hc2 & _)]. split; [done|]. unfold counted. split; [lia|]. split; [lia|done].
  - eapply triple_bind with (Q := fun n e => P e /\ V n).
    { apply triple_lift. intros e ->.
      apply (li_next Hinv cur s1 e1 He1); [by left|done|done]. }
    intros next. apply triple_pure. intros Hnext.
    eapply triple_post; [apply (IH next s1 steps1 (c + 1)); [done|lia]|].
    intros inv e [He (Hc1 & Hc2 & _)]. split; [done|]. unfold counted. split; [lia|]. split; [lia|done].
Qed.
Definition start_cost (cur : string) : nat := if cur =ₛ START then 1 else 0.

(** The top-level loop: the virtual START costs one iteration and no step. *)
Lemma invoke_loop_total fuel limit config cur s steps c :
  (forall n, V n -> n <> START) -> V cur \/ virtual cur -> limit <= recursion_limit g ->
  recursion_limit g - c + start_cost cur < fuel ->
  triple P (invoke_loop fuel g limit config cur s steps c)
    (fun inv e => P e /\ c <= recursion_count inv <= c `max` ((limit + 1) `min` recursion_limit g))
    Err_.
Proof.
  intros HVS. revert cur s steps c.
  induction fuel as [|fuel IH]; intros cur s steps c Hcur Hlim Hf; [lia|].
  cbn [invoke_loop]. case_bool_decide as Hend.
  { apply triple_ret. intros e He. split; [done|]. simpl. lia. }
  destruct (limit <=? c) eqn:El.
  { apply triple_stop, Hinv. }
  apply Nat.leb_gt in El. destruct (contains cur (interrupt_before g)) eqn:Ei.
  { by apply triple_stop, Hinv. }
  eapply triple_bind with (Q := fun '(_, _, c') e => P e /\
    (c <= c' /\ c' <= c + 1 /\ recursion_limit g - c' < fuel)).
  { unfold start_cost in Hf. case_bool_decide as Hst.
    - apply triple_ret. intros e He. split; [done|]. lia.
    - eapply triple_bind.
      { apply (triple_answers (fun _ => True)). intros e He. apply Hinv; [done| |done].
        by destruct Hcur as [|[? _]]. }
      intros [s1 steps1]. apply triple_ret. intros e [He _]. split; [done|]. lia. }
  intros [[s1 steps1] c1]. apply triple_pure. intros (Hc1 & Hc2 & Hf1).
  apply triple_get. intros e1 He1.
  assert (forall n s steps c', V n -> c' <= c1 + 1 -> c1 <= c' -> (c' <= limit \/ c' < recursion_limit g) ->
    triple P (steps ← lift (save_step g s c' n steps); invoke_loop fuel g limit config n s steps c')
      (fun inv e => P e /\ c <= recursion_count inv <= c `max` ((limit + 1) `min` recursion_limit g))
      Err_) as Hgo.
  { intros n s2 steps2 c' Hn Hle Hge Hb.
    eapply triple_bind; [apply (triple_answers (fun _ => True)); intros e He; by apply Hinv|].
    intros steps3. eapply triple_pre; [|by intros e [He _]].
    assert (start_cost n = 0) as Hn0.
    { unfold start_cost. rewrite bool_decide_false //. by apply HVS. }
    eapply triple_post; [apply (IH n s2 steps3 c'); [by left|done|lia]|].
    intros inv e [He Hr]. split; [done|]. lia. }
  destruct (find_fan_out_targets g e1 cur) as [ts|] eqn:Efo.
  - eapply triple_bind.
    { eapply triple_pre; [|by intros e ->; exact He1].
      apply (run_fan_out_total _ ts s1 steps1 (c1 + 1) (c1 + 1 < recursion_limit g) cur e1);
        [done|done|done|].
      intros t Ht Hte. eapply triple_post; [apply (from_node_loop_total fuel t s1 [] (c1 + 1)); [done|lia]|].
      intros inv e [He (_ & _ & Hlt)]. split; [done|by apply Hlt]. }
    intros [[[s2 next] steps2] brs]. apply triple_pure. intros [Hlt Hnext].
    apply Hgo; [done|lia..].
  - eapply triple_bind with (Q := fun n e => P e /\ V n).
    { apply triple_lift. intros e ->. by apply (li_next Hinv cur s1 e1 He1). }
    intros next. apply triple_pure. intros Hnext. apply Hgo; [done|lia..].
Qed.

Lemma execution_loop_total fuel first rerun rv cur s steps c :
  V cur -> recursion_limit g - c < fuel ->
  triple P (execution_loop fuel g first rerun rv cur s steps c)
    (fun inv e => P e /\ c <= recursion_count inv <= c `max` recursion_limit g) Err_.
Proof.
  revert rv cur s steps c. induction fuel as [|fuel IH]; intros rv cur s steps c Hcur Hf; [lia|].
  cbn [execution_loop]. case_bool_decide as Hend.
  { apply triple_ret. intros e He. split; [done|]. simpl. lia. }
  destruct (recursion_limit g <=? c) eqn:El.
  { apply triple_stop, Hinv. }
  apply Nat.leb_gt in El. destruct (_ && contains cur (interrupt_before g)) eqn:Ei.
  { apply andb_true_iff in Ei as [_ Ei]. by apply triple_stop, Hinv. }
  eapply triple_bind; [apply (triple_answers (fun _ => True)); intros e He; by apply Hinv|].
  intros [s1 steps1]. apply triple_get. intros e1 [He1 _].
  assert (forall n s steps c', V n -> c + 1 <= c' -> c' <= recursion_limit g ->
    triple P (steps ← lift (save_step g s c' n steps);
              execution_loop fuel g first rerun None n s steps c')
      (fun inv e => P e /\ c <= recursion_count inv <= c `max` recursion_limit g) Err_) as Hgo.
  { intros n s2 steps2 c' Hn Hge Hle.
    eapply triple_bind; [apply (triple_answers (fun _ => True)); intros e He; by apply Hinv|].
    intros steps3. eapply triple_pre; [|by intros e [He _]].
    eapply triple_post; [apply (IH None n s2 steps3 c'); [done|lia]|].
    intros inv e [He Hr]. split; [done|]. lia. }
  destruct (find_fan_out_targets g e1 cur) as [ts|] eqn:Efo.
  - eapply triple_bind.
    { eapply triple_pre; [|by intros e ->; exact He1].
      apply (run_fan_out_total _ ts s1 steps1 (c + 1 + 1) (c + 1 + 1 < recursion_limit g) cur e1);
        [done|by left|done|].
      intros t Ht Hte. eapply triple_post; [apply (from_node_loop_total fuel t s1 [] (c + 1 + 1)); [done|lia]|].
      intros inv e [He (_ & _ & Hlt)]. split; [done|by apply Hlt]. }
    intros [[[s2 next] steps2] brs]. apply triple_pure. intros [Hlt Hnext].
    apply Hgo; [done|lia..].
  - eapply triple_bind with (Q := fun n e => P e /\ V n).
    { apply triple_lift. intros e ->. apply (li_next Hinv cur s1 e1 He1); [by left|done|done]. }
    intros next. apply triple_pure. intros Hnext. apply Hgo; [done|lia..].
Qed.

Lemma effective_limit_le config : effective_limit g config <= recursion_limit g.
Proof. unfold effective_limit. case_match; lia. Qed.

Lemma invoke_with_config_total fuel input config :
  (forall n, V n -> n <> START) -> V (entry_point g) \/ virtual (entry_point g) ->
  recursion_limit g + 2 <= fuel ->
  triple P (invoke_with_config fuel g input config)
    (fun inv e => P e /\
       recursion_count inv <= (effective_limit g config + 1) `min` recursion_limit g) Err_.
Proof.
  intros HVS Hentry Hf. unfold invoke_with_config.
  eapply triple_bind; [apply (triple_answers (fun _ => True)); intros e He; by apply Hinv|].
  intros steps. eapply triple_pre; [|by intros e [He _]].
  eapply triple_post; [apply (invoke_loop_total fuel (effective_limit g config) config); try done|].
  - apply effective_limit_le.
  - unfold start_cost. case_bool_decide; lia.
  - intros inv e [He Hr]. split; [done|]. lia.
Qed.

End loops.

(** ** The runs terminate *)

Section terminate.
Context {S N R C X : Type} `{StateSchema S}.
Notation E := (Env N R C X).
Context `{!GraphCode S N R E}.
Implicit Types g : CompiledGraph S N R C.

(** Where routing can lead from [cur]: [END], or a target an edge from [cur] names. *)
Definition named_target g (e : E) (cur n : string) : Prop :=
  n = END \/ exists edge, edge ∈ runtime_edges e ++ edges g /\ is_fan_in edge = false /\
    GraphEdge.source edge = cur /\ n ∈ edge_targets edge.

Lemma find_edge_Some es cur edge :
  find_edge es cur = Some edge -> edge ∈ es /\ GraphEdge.source edge = cur.
Proof.
  unfold find_edge. intros ([i x] & Hf & ->)%fmap_Some.
  apply list_find_Some in Hf as (Hi & Hs & _). split; [by eapply list_elem_of_lookup_2|done].
Qed.

Lemma follow_conditional_target g sfx r src ts d s (e : E) n e' :
  follow_conditional g sfx r ts d s e = (Ok n, e') -> n ∈ edge_targets (Conditional src r ts d).
Proof.
  unfold follow_conditional. case_match; [|done]. unfold mbind, act_bind.
  destruct (route _ s e) as [[key|?] e1]; [|done]. unfold act_of_result. intros [= Hn _].
  cbn [edge_targets]. rewrite elem_of_app. destruct (ts !! key) as [t|] eqn:Ek.
  - injection Hn as ->. left. apply elem_of_map_values. by exists key.
  - destruct d as [t|]; [|done]. injection Hn as ->. right. by apply list_elem_of_singleton.
Qed.

Lemma find_next_node_target g cur s (e : E) n e' :
  find_next_node g cur s e = (Ok n, e') -> named_target g e cur n.
Proof.
  unfold find_next_node, next_runtime, named_target.
  assert (match next_static g (edges g) cur s with
    | Some act => act e
    | None => if (cur =ₛ entry_point g) && (size (nodes g) =? 1) then (Ok END, e)
              else if is_fan_in_source g e cur then (Ok END, e)
              else (Err (RoutingError ("No outgoing edge from node '" +:+ cur +:+ "'")), e)
    end = (Ok n, e') -> named_target g e cur n) as Hstatic.
  { pose proof (next_static_spec g (edges g) cur s) as Hn.
    destruct (next_static g (edges g) cur s) as [act|].
    - destruct Hn as (edge & Hin & Hsrc & Ho). intros Hact. right. exists edge.
      split; [apply elem_of_app; by right|].
      destruct edge as [s' t|s' r ts d|s' [|t ts]|]; cbn [static_outcome] in Ho; try done; subst act; try done;
        (split; [done|]; split; [done|]).
      + injection Hact as -> _. apply list_elem_of_here.
      + by eapply follow_conditional_target.
    - repeat case_match; intros Heq; try done; injection Heq as <- _; by left. }
  destruct (find_edge (runtime_edges e) cur) as [edge|] eqn:Ee; [|done].
  apply find_edge_Some in Ee as [Hin Hsrc].
  destruct edge as [s' t|s' r ts d|s' [|t ts]|ss t]; try done; intros Hact; right.
  - exists (Fixed s' t). split; [apply elem_of_app; by left|]. injection Hact as -> _.
    split; [done|]. split; [done|]. apply list_elem_of_here.
  - exists (Conditional s' r ts d). split; [apply elem_of_app; by left|].
    split; [done|]. split; [done|]. by eapply follow_conditional_target.
Qed.

Lemma find_fan_out_targets_edge g (e : E) cur ts :
  find_fan_out_targets g e cur = Some ts -> exists src, FanOut src ts ∈ runtime_edges e ++ edges g.
Proof.
  unfold find_fan_out_targets. setoid_rewrite elem_of_app.
  assert (static_fan_out (edges g) cur = Some ts ->
    exists src, FanOut src ts ∈ runtime_edges e \/ FanOut src ts ∈ edges g) as Hs.
  { intros Hs%static_fan_out_Some. eauto. }
  destruct (find_edge (runtime_edges e) cur) as [[| |src ts'|]|] eqn:Ee; try done.
  intros [= ->]. apply find_edge_Some in Ee as [Hin _]. eauto.
Qed.

Lemma find_fan_in_target_edge g (e : E) ts t :
  find_fan_in_target g e ts = Some t -> exists ss, FanIn ss t ∈ runtime_edges e ++ edges g.
Proof.
  unfold find_fan_in_target. setoid_rewrite elem_of_app.
  assert (static_fan_in (edges g) ts = Some t ->
    exists ss, FanIn ss t ∈ runtime_edges e \/ FanIn ss t ∈ edges g) as Hs.
  { intros (ss & Hin & _)%static_fan_in_Some. eauto. }
  destruct (list_find _ (runtime_edges e)) as [[i [| | |ss t']]|] eqn:Ee; try done.
  destruct (joins ts ss); [|done]. intros [= ->].
  apply list_find_Some in Ee as (Hi & _). exists ss. left. by eapply list_elem_of_lookup_2.
Qed.

Lemma no_start_app es1 es2 : no_start es1 -> no_start es2 -> no_start (es1 ++ es2).
Proof. intros H1 H2 edge [He|He]%elem_of_app; [by apply H1|by apply H2]. Qed.

Lemma answers_intro {A} (P : E -> Prop) (Q : A -> Prop) (r : result GraphError A * E) :
  P r.2 -> (forall a, r.1 = Ok a -> Q a) -> answers P (fun _ => True) Q r.
Proof. destruct r as [[a|err] e]; simpl; auto. Qed.

(** The two instances of the induction: any graph for the loops that never meet a
    virtual START, and graphs free of edges into START for the top-level loop. *)
Lemma loop_inv_any g : loop_inv g (fun _ => True) (fun _ => True) (fun _ => True).
Proof. split; try done; intros; by apply answers_intro. Qed.

Lemma loop_inv_keeps g (P : E -> Prop) `{!KeepsEnv (S := S) P, !IgnoresStore P} :
  loop_inv g P (fun _ => True) (fun _ => True).
Proof.
  split; try done; intros; apply answers_intro; try done.
  - by apply (keeps_save_step P).
  - by apply (keeps_step_node P).
  - by apply (keeps_find_next_node P).
Qed.

(** A fan-out that answers keeps what every step keeps, whatever its fuel. *)
Lemma run_fan_out_keeps g (P : E -> Prop) `{!KeepsEnv (S := S) P, !IgnoresStore P}
    fuel cur ts s steps c (e e' : E) r :
  find_fan_out_targets g e cur = Some ts -> P e ->
  run_fan_out g (invoke_from_node_with_count fuel g) [] ts s steps c e = Some (r, e') -> P e'.
Proof.
  intros Hfo He Hr.
  pose proof (loop_inv_keeps g P) as Hinv.
  pose proof (run_fan_out_total g P _ _ Hinv
    (invoke_from_node_with_count (fuel + recursion_limit g + 1) g) ts s steps c True cur e
    He (or_introl I) Hfo) as Ht.
  specialize (Ht ltac:(intros t _ _; eapply triple_post;
    [apply (from_node_loop_total g P _ _ Hinv); [done|lia]|intros inv w [Hw _]; done]) e He).
  rewrite (run_fan_out_mono g (invoke_from_node_with_count fuel g)
    (invoke_from_node_with_count (fuel + recursion_limit g + 1) g) [] ts s steps c
    ltac:(intros; apply from_node_loop_mono; lia) e (r, e') Hr) in Ht.
  destruct r as [[[[m next] steps'] bs]|err]; apply Ht.
Qed.

Lemma loop_inv_start_free g :
  KeepsEnv (S := S) (start_free (N := N) (R := R) (C := C) (X := X)) -> no_start (edges g) ->
  loop_inv g start_free (fun n => n <> START) (fun _ => True).
Proof.
  intros Hk Hg. split; try done.
  - intros s c next steps e He. apply answers_intro; [|done]. by apply (keeps_save_step start_free).
  - intros config cur s steps c e He _ _. apply answers_intro; [|done]. by apply (keeps_step_node start_free).
  - intros cur s e He _ _ _. apply answers_intro; [by apply (keeps_find_next_node start_free)|].
    intros n Hn. destruct (find_next_node g cur s e) as [r e'] eqn:En. simpl in Hn. subst r.
    apply find_next_node_target in En as [->|(edge & Hin & _ & _ & Ht)]; [done|]. intros ->.
    by apply (no_start_app _ _ He Hg edge Hin).
  - intros cur e ts t He _ Hfo Ht _ ->.
    apply find_fan_out_targets_edge in Hfo as (src & Hin).
    by apply (no_start_app _ _ He Hg _ Hin).
  - intros cur e e' ts t _ _ _ He' Hfi ->.
    apply find_fan_in_target_edge in Hfi as (ss & Hin).
    apply (no_start_app _ _ He' Hg _ Hin). apply list_elem_of_here.
Qed.

Lemma run_answer_unique {A} (m : nat -> Run E GraphError A) k e :
  (forall f f', f <= f' -> m f ⊑ᵣ m f') -> is_Some (m k e) ->
  exists r, forall f, k <= f -> m f e = Some r.
Proof. intros Hmono [r Hr]. exists r. intros f Hf. by apply (Hmono k f Hf). Qed.

Lemma invoke_with_config_mono f f' g input config :
  f <= f' -> invoke_with_config f g input config ⊑ᵣ invoke_with_config f' g input config.
Proof.
  intros Hf. unfold invoke_with_config. apply run_le_bind; [reflexivity|]. intros steps.
  by apply invoke_loop_mono.
Qed.

Lemma invoke_with_execution_mono f f' g ex :
  f <= f' -> invoke_with_execution f g ex ⊑ᵣ invoke_with_execution f' g ex.
Proof.
  intros Hf. unfold invoke_with_execution. generalize (match ex_pending_interrupt ex with
    | Some _ => true | None => false end || negb (starts_with "after_" (ex_interrupted_at ex))).
  intros rerun. apply run_le_bind.
  - unfold reentry. destruct rerun; [reflexivity|]. apply run_le_bind; [reflexivity|]. intros e.
    destruct (find_fan_out_targets g e _); [|reflexivity]. apply run_le_bind; [|intros [[[? ?] ?] ?]; reflexivity].
    apply run_fan_out_mono. intros t s c. by apply from_node_loop_mono.
  - intros [[[cur s] steps] c]. by apply execution_loop_mono.
Qed.

(** A resumed run keeps what had been used and stays within the limit, unless the
    interrupted run was already past it. *)
Definition within_budget g (used : nat) (inv : GraphInvocation S) : Prop :=
  used <= recursion_count inv <= used `max` recursion_limit g.

Lemma resume_total g (ex : GraphExecution S) :
  let c := ex_recursion_count ex in
  triple (fun _ : E => True) (invoke_with_execution (recursion_limit g + 1) g ex)
    (fun inv _ => within_budget g c inv) (fun _ _ => True).
Proof.
  intros c. unfold within_budget, invoke_with_execution, reentry. fold c.
  set (rerun := _ || _). clearbody rerun.
  pose proof (loop_inv_any g) as Hinv.
  eapply triple_bind with (Q := fun '(_, _, _, c') _ => c <= c' /\ c' <= c `max` recursion_limit g).
  - destruct rerun; [apply triple_ret; intros _ _; lia|].
    apply triple_get. intros e0 _. destruct (find_fan_out_targets g e0 _) as [ts|] eqn:Efo.
    + eapply triple_bind.
      * eapply triple_weaken.
        -- apply (run_fan_out_total g _ _ _ Hinv _ ts _ _ (c + 1) (c + 1 < recursion_limit g)
             (ex_current_node ex) e0);
             [done|by left|exact Efo|].
           intros t _ Hte. eapply triple_post; [apply (from_node_loop_total g _ _ _ Hinv); [done|lia]|].
           intros inv e [_ (_ & _ & Hlt)]. split; [done|by apply Hlt].
        -- done.
        -- intros a w Ha. exact Ha.
        -- done.
      * intros [[[s next] steps] brs]. apply triple_ret. intros e (_ & Hlt & _). lia.
    + eapply triple_bind with (Q := fun _ _ => True).
      * apply triple_lift. intros e _. by destruct (find_next_node g _ _ e) as [[] ?].
      * intros next. apply triple_ret. intros _ _. lia.
  - intros [[[cur s] steps] c']. 
    apply (triple_pre (fun _ => True /\ (c <= c' /\ c' <= c `max` recursion_limit g))); [|done].
    apply triple_pure. intros Hc'.
    eapply triple_weaken; [apply (execution_loop_total g _ _ _ Hinv); [done|lia]|done| |done].
    intros inv e [_ Hr]. lia.
Qed.

(** C3: a run from the entry point always ends: when no edge leads back to the
    virtual START, and the program's nodes and routers add none, [limit + 2]
    iterations are enough for every input, and more fuel changes nothing. A run
    that succeeds has consumed at most the graph's recursion limit. *)
Theorem invoke_terminates g input config (e : E) :
  KeepsEnv (S := S) (start_free (N := N) (R := R) (C := C) (X := X)) ->
  no_start (edges g) -> start_free e ->
  exists r e', (forall fuel, recursion_limit g + 2 <= fuel ->
                  invoke_with_config fuel g input config e = Some (r, e')) /\
    forall inv, r = Ok inv -> recursion_count inv <= recursion_limit g.
Proof.
  intros Hk Hg He.
  pose proof (invoke_with_config_total g _ _ _ (loop_inv_start_free g Hk Hg)
    (recursion_limit g + 2) input config (fun n Hn => Hn)) as Htotal.
  specialize (Htotal ltac:(unfold virtual; destruct (decide (entry_point g = START)); auto) (Nat.le_refl _) e He).
  destruct (run_answer_unique (fun f => invoke_with_config f g input config)
    (recursion_limit g + 2) e) as [[r e'] Hr].
  { intros f f'. apply invoke_with_config_mono. }
  { by destruct (invoke_with_config _ g input config e). }
  exists r, e'. split; [done|]. intros inv ->. rewrite (Hr _ (Nat.le_refl _)) in Htotal.
  destruct Htotal as [_ Hc]. lia.
Qed.

(** resuming an interrupted execution always ends, for every graph and every
    program, within [limit + 1] iterations, and keeps charging the budget the
    interrupted run had used: a resume that succeeds ends between the count it
    started from and the recursion limit, so interrupting and resuming cannot
    buy a run more steps. *)
Theorem resume_terminates g (ex : GraphExecution S) (e : E) :
  exists r e', (forall fuel, recursion_limit g + 1 <= fuel ->
                  invoke_with_execution fuel g ex e = Some (r, e')) /\
    forall inv, r = Ok inv -> within_budget g (ex_recursion_count ex) inv.
Proof.
  pose proof (resume_total g ex) as Htotal. specialize (Htotal e I).
  destruct (run_answer_unique (fun f => invoke_with_execution f g ex) (recursion_limit g + 1) e) as [[r e'] Hr].
  { intros f f'. apply invoke_with_execution_mono. }
  { by destruct (invoke_with_execution _ g ex e). }
  exists r, e'. split; [done|]. intros inv ->. by rewrite (Hr _ (Nat.le_refl _)) in Htotal.
Qed.
End terminate.
