(* ===== verification/Safety.v ===== *)
(** * What a run of a compiled graph can end with

    On a graph that validation accepts, and that is not extended while it runs, the
    loops never meet the errors that stand for a broken graph: an unknown node or
    router, a missing edge, a fan-out routed as a single edge.  [run_error] lists
    the errors that are left; the theorem is an instance of the loops' shared
    induction ([loop_inv]). *)

From stdpp Require Import gmap strings list.
From S2P Require Import Prelude Json State Edge Checkpoint Node Graph Validate Builder Routing.
From S2P Require Import Merge Engine EngineFacts.

Section safety.
Context {S N R C X : Type} `{StateSchema S}.
Notation E := (Env N R C X).
Context `{!GraphCode S N R E}.
Implicit Types g : CompiledGraph S N R C.

Definition no_runtime_edges (e : E) : Prop := runtime_edges e = [].

Global Instance no_runtime_edges_ignores_store : IgnoresStore no_runtime_edges.
Proof. intros c e He. exact He. Qed.

(** An error a registered node's code returned when it ran. *)
Definition node_failed g (n : string) (err : GraphError) : Prop :=
  exists node s config (e : E), nodes g !! n = Some node /\
    (execute node s (Some config) e).1 = Err err.

Inductive run_error g : GraphError -> Prop :=
| err_limit n : run_error g (RecursionLimitReached n)
| err_interrupt_before n : n ∈ interrupt_before g -> run_error g (ExecutionInterrupted n)
| err_interrupt_after n : n ∈ interrupt_after g ->
    run_error g (ExecutionInterrupted ("after_" +:+ n))
| err_suspended n payload payload' : node_failed g n (InterruptRequest payload) ->
    run_error g (DynamicInterrupt n payload')
| err_node n err : node_failed g n err -> run_error g err
| err_router r router s (e : E) err : conditional_routers g !! r = Some router ->
    (route router s e).1 = Err err -> run_error g err
| err_route cur r ts key : Conditional cur r ts None ∈ edges g -> ts !! key = None ->
    run_error g (RoutingError ("No target for route '" +:+ key +:+ "'"))
| err_save cp s c st err : checkpointer g = Some cp -> (save cp s c st).1 = Err err ->
    run_error g err
| err_merge bs s err : merge_parallel_states g bs s = Err err -> run_error g err.

Notation answers g := (answers no_runtime_edges (run_error g)).

Lemma answers_bind {A B} g (Q : A -> Prop) (Q' : B -> Prop) (m : Act E GraphError A)
    (f : A -> Act E GraphError B) e :
  answers g Q (m e) -> (forall a e', no_runtime_edges e' -> Q a -> answers g Q' (f a e')) ->
  answers g Q' ((m ≫= f) e).
Proof.
  intros Hm Hf. unfold mbind, act_bind. destruct (m e) as [[a|err] e1]; [|exact Hm].
  destruct Hm. by apply Hf.
Qed.

Lemma answers_store_save g cp s c (e : E) :
  checkpointer g = Some cp -> no_runtime_edges e ->
  answers g (fun _ => True) (with_store (save cp s c) e).
Proof.
  intros Hcp He. unfold with_store, act_zoom.
  destruct (save cp s c (store e)) as [[id|err] st] eqn:Es; (split; [exact He|]); [done|].
  apply (err_save g cp s c (store e)); [exact Hcp|by rewrite Es].
Qed.

Lemma answers_save_step g s c next steps (e : E) :
  no_runtime_edges e -> answers g (fun _ => True) (save_step g s c next steps e).
Proof.
  intros He. unfold save_step. destruct (checkpointer g) as [cp|] eqn:Hcp; [|done].
  eapply answers_bind; [by apply answers_store_save|done].
Qed.

Context `{!KeepsEnv (S := S) no_runtime_edges}.

Lemma answers_run_node g s cur c config (e : E) :
  no_runtime_edges e -> known_node g cur ->
  answers g (fun _ => True) (run_node g s cur c config e).
Proof.
  intros He [node Hnode]. unfold run_node, CompiledGraph.get_node, mbind at 1, act_bind at 1.
  rewrite Hnode. unfold mbind at 1, act_bind at 1, try_act.
  pose proof (keeps_execute node s (Some config) e He) as Hk.
  destruct (execute node s (Some config) e) as [r e1] eqn:Ex. simpl in Hk.
  assert (forall err, r = Err err -> node_failed g cur err) as Hfail.
  { intros err ->. exists node, s, config, e. by rewrite Ex. }
  destruct r as [u|err]; [done|]. specialize (Hfail err eq_refl).
  destruct err; try (split; [done|by eapply err_node]).
  destruct (checkpointer g) as [cp|] eqn:Hcp.
  - eapply answers_bind; [by apply answers_store_save|].
    intros id e' He' _. split; [done|by eapply err_suspended].
  - split; [done|by eapply err_suspended].
Qed.

Lemma answers_step_node g config cur s steps c (e : E) :
  no_runtime_edges e -> known_node g cur ->
  answers g (fun _ => True) (step_node g config cur s steps c e).
Proof.
  intros He Hcur. unfold step_node. eapply answers_bind; [by apply answers_run_node|].
  intros u e1 He1 _. destruct (contains cur (interrupt_after g)) eqn:Ei; [|done].
  eapply answers_bind; [by apply answers_save_step|].
  intros _ e2 He2 _. split; [done|]. apply err_interrupt_after. by apply contains_true.
Qed.

(** ** The loops *)

Context (g : CompiledGraph S N R C) (Hwf : WellFormed g) (Hstart : nodes g !! START = None).

(** Everywhere a run can stand. *)
Definition on_graph (n : string) : Prop := n = END \/ known_node g n.

Lemma on_graph_start n : on_graph n -> n <> START.
Proof using Hstart.
  intros [->|Hn]; [done|]. intros ->. destruct Hn as [x Hx]. by rewrite Hstart in Hx.
Qed.

Lemma loop_inv_compiled : loop_inv g no_runtime_edges on_graph (run_error g).
Proof using Hwf KeepsEnv0.
  assert (forall cur, on_graph cur \/ virtual g cur -> cur <> END ->
    Reach (edges g) (entry_point g) cur) as Hreach.
  { intros cur [[->|Hk]|[-> Hs]] Hne; [done|by apply (wf_reachable g Hwf)|].
    rewrite -Hs. apply reach_entry. by rewrite Hs. }
  split.
  - by left.
  - apply err_limit.
  - intros n Hn. apply err_interrupt_before. by apply contains_true.
  - intros bs s err Hm. by eapply err_merge.
  - intros s c next steps e He. by apply answers_save_step.
  - intros config cur s steps c e He [->|Hk] Hne; [done|]. by apply answers_step_node.
  - intros cur s e He Hcur Hne Hfo.
    pose proof (keeps_find_next_node no_runtime_edges g cur s e He) as Hk.
    destruct (routing_cases g cur s e Hwf He Hne (Hreach cur Hcur Hne) Hfo)
      as [(n & e' & E & Hn)|(r & ts & d & router & Hedge & Hr & [(err & e' & Ho & E)|(key & e' & _ & Hts & -> & E)])];
      rewrite E in Hk |- *; (split; [exact Hk|]).
    + destruct Hn as [->|[_ Hn]]; [by left|by right].
    + apply (err_router g r router s e); [exact Hr|by rewrite Ho].
    + by eapply err_route.
  - intros cur e ts t He Hcur Hfo Ht _. by eapply fan_out_targets_known.
  - intros cur e e' ts t _ _ _ He' Hfi. by eapply fan_in_target_known.
Qed.
End safety.

Section compiled_runs.
Context {S N R C X : Type} `{StateSchema S}.
Notation E := (Env N R C X).
Context `{!GraphCode S N R E}.
Implicit Types g : CompiledGraph S N R C.

(** C17: a run of a validated graph that is not extended while it runs, has no node registered
    under the name of [START] ([start_node_loops]) and starts at a node of it or at [START],
    always ends within [limit + 2] iterations, and what it ends with is a result within the
    recursion limit, or one of: the limit, an interrupt the graph asks for, a
    suspension of one of its nodes, an error of a registered node, router,
    checkpoint store or state merge, or a route key the conditional edge has no
    target for. The engine's own errors about the graph (unknown node or router,
    missing edge, fan-out met as a single edge) do not occur. *)
Theorem validated_run_safe g input config (e : E) :
  KeepsEnv (S := S) (no_runtime_edges (N := N) (R := R) (C := C) (X := X)) ->
  validate g = Ok () -> nodes g !! START = None ->
  known_node g (entry_point g) \/ entry_point g = START -> no_runtime_edges e ->
  exists r e', (forall fuel, recursion_limit g + 2 <= fuel ->
                  invoke_with_config fuel g input config e = Some (r, e')) /\
    no_runtime_edges e' /\
    match r with
    | Ok inv => recursion_count inv <= (effective_limit g config + 1) `min` recursion_limit g
    | Err err => run_error (X := X) g err
    end.
Proof.
  intros Hk Hwf%accepted_wf Hs Hentry He.
  pose proof (invoke_with_config_total g _ _ _ (loop_inv_compiled g Hwf)
    (recursion_limit g + 2) input config (on_graph_start g Hs)) as Htotal.
  specialize (Htotal ltac:(unfold virtual, on_graph; naive_solver) (Nat.le_refl _) e He).
  destruct (run_answer_unique (fun f => invoke_with_config f g input config)
    (recursion_limit g + 2) e) as [[r e'] Hr].
  { intros f f'. apply invoke_with_config_mono. }
  { by destruct (invoke_with_config _ g input config e). }
  exists r, e'. split; [done|]. rewrite (Hr _ (Nat.le_refl _)) in Htotal. by destruct r.
Qed.
End compiled_runs.
