(* ===== verification/Stream.v ===== *)
(** * Streaming ([compiled/stream.rs], first half)

    [stream] sends its events down a channel while it runs.  The channel is the
    list of the items sent so far, for a consumer that reads to the end; a
    producer that returns early leaves the list as it is at that point.

    The stream's loop is written apart from [invoke]'s in the source; the theorem
    of this file is that it is the same run: same answer, same environment, and
    one completion event per node and branch that [invoke] records. *)

From stdpp Require Import gmap strings list.
From S2P Require Import Prelude Json State Edge Checkpoint Node Graph Validate Routing Merge Engine.

Section stream.
Context {S N R C X : Type} `{StateSchema S}.
Notation E := (Env N R C X).
Context `{!GraphCode S N R E}.
Implicit Types g : CompiledGraph S N R C.

Definition Item : Type := result GraphError (StreamEvent S).

(** Either the loop goes on with a value, or the producer has returned. *)
Inductive flow (A : Type) : Type :=
| Continue (a : A)
| Return (sent : list Item).
Arguments Continue {A} _.
Arguments Return {A} _.

Definition send (sent : list Item) (ev : StreamEvent S) : list Item := sent ++ [Ok ev].
Definition stop {A} (sent : list Item) (err : GraphError) : flow A := Return (sent ++ [Err err]).

(** [if let Some(ref checkpointer) = graph.checkpointer { if let Err(e) = ... } }] *)
Definition stream_save g (state : S) (count : nat) : Act E GraphError (option string) :=
  match checkpointer g with
  | Some cp => id ← with_store (save cp state count); mret (Some id)
  | None => mret None
  end.

(** Running one node. *)
Definition stream_execute g (state : S) (current_node : string) (count : nat)
    : Act E GraphError (StateUpdate S) :=
  node ← CompiledGraph.get_node g current_node;
  result ← try_act (execute node state (Some (mkNodeConfig (recursion_limit g) ∅ false)));
  match result with
  | Ok u => mret u
  | Err (InterruptRequest payload) =>
      id ← stream_save g state (count - 1);
      let payload := match id with
                     | Some id => json_insert "__checkpoint_id" (JString id) payload
                     | None => payload
                     end in
      act_fail (DynamicInterrupt current_node payload)
  | Err err => act_fail err
  end.

Definition stream_node g (current_node : string) (state : S) (count : nat) (sent : list Item)
    : Act E GraphError (flow (S * list Item)) :=
  let sent := send sent (EvEnterNode current_node state) in
  r ← try_act (stream_execute g state current_node count);
  match r with
  | Err err => mret (stop sent err)
  | Ok u =>
      let sent := send sent (EvNodeComplete current_node u) in
      let state' := apply_update g state u in
      let sent := match update u with
                  | Some _ => send sent (EvStateUpdate state')
                  | None => sent
                  end in
      if contains current_node (interrupt_after g) then
        saved ← try_act (stream_save g state' count);
        match saved with
        | Err err => mret (stop sent err)
        | Ok _ => mret (stop sent (ExecutionInterrupted ("after_" +:+ current_node)))
        end
      else mret (Continue (state', sent))
  end.

Definition branch_events (results : list (string * GraphInvocation S)) : list (StreamEvent S) :=
  (fun r => EvNodeComplete r.1 (mkStateUpdate (Some (final_state r.2)) ∅)) <$> results.

(** The fan-out block of the stream's loop, up to the merged state. *)
Definition stream_fan_out (fuel : nat) g (targets : list string) (state : S) (count : nat)
    (sent : list Item) : Run E GraphError (flow (S * string * list Item)) :=
  r ← try_run (execute_parallel_branches (invoke_from_node_with_count fuel g) targets state count);
  match r with
  | Err err => mret (stop sent err)
  | Ok results =>
      let sent := sent ++ (Ok <$> branch_events results) in
      match merge_parallel_states g (to_branch <$> results) state with
      | Err err => mret (stop sent err)
      | Ok merged =>
          let sent := send sent (EvStateUpdate merged) in
          e ← lift act_get;
          mret (Continue (merged, default END (find_fan_in_target g e targets), sent))
      end
  end.

(** Save and go on, or report the failed save. *)
Definition stream_continue g (state : S) (count : nat) (sent : list Item)
    (k : Run E GraphError (list Item)) : Run E GraphError (list Item) :=
  saved ← try_run (lift (stream_save g state count));
  match saved with
  | Err err => mret (sent ++ [Err err])
  | Ok _ => k
  end.

Fixpoint stream_loop (fuel : nat) g (current_node : string) (state : S) (count : nat)
    (sent : list Item) : Run E GraphError (list Item) :=
  match fuel with
  | 0 => out_of_fuel
  | Datatypes.S fuel' =>
      if negb (current_node =ₛ END) && (count <? recursion_limit g) then
        if contains current_node (interrupt_before g)
        then mret (sent ++ [Err (ExecutionInterrupted current_node)]) else
        ran ←
          (if current_node =ₛ START then mret (Continue (state, sent, count))
           else
             let count := count + 1 in
             r ← lift (stream_node g current_node state count sent);
             mret match r with
                  | Continue (state, sent) => Continue (state, sent, count)
                  | Return items => Return items
                  end);
        match ran with
        | Return items => mret items
        | Continue (state, sent, count) =>
            e ← lift act_get;
            match find_fan_out_targets g e current_node with
            | Some targets =>
                let count := count + 1 in
                r ← stream_fan_out fuel' g targets state count sent;
                match r with
                | Return items => mret items
                | Continue (state, next, sent) =>
                    stream_continue g state count sent (stream_loop fuel' g next state count sent)
                end
            | None =>
                r ← try_run (lift (find_next_node g current_node state));
                match r with
                | Err err => mret (sent ++ [Err err])
                | Ok next =>
                    stream_continue g state count sent (stream_loop fuel' g next state count sent)
                end
            end
        end
      else if negb (current_node =ₛ END)
      then mret (sent ++ [Err (RecursionLimitReached (recursion_limit g))])
      else mret (send sent (EvEnd state))
  end.

Definition stream (fuel : nat) g (input : S) : Run E GraphError (list Item) :=
  let sent := send [] (EvStart input) in
  saved ← try_run (lift (stream_save g input 0));
  match saved with
  | Err err => mret (sent ++ [Err err])
  | Ok _ => stream_loop fuel g (entry_point g) input 0 sent
  end.

(** [stream_collected]: the events, or the first error among the items. *)
Fixpoint collect_items (items : list Item) : GraphResult (list (StreamEvent S)) :=
  match items with
  | [] => Ok []
  | item :: items' =>
      ev ← item;
      evs ← collect_items items';
      Ok (ev :: evs)
  end.

Definition stream_collected (fuel : nat) g (input : S) : Run E GraphError (list (StreamEvent S)) :=
  items ← stream fuel g input;
  run_of_result (collect_items items).

End stream.
Arguments flow S A : clear implicits.
Arguments Continue {S A} _.
Arguments Return {S A} _.
Arguments Item S : clear implicits.

(** ** The stream is the run *)

Section stream_facts.
Context {S N R C X : Type} `{StateSchema S}.
Notation E := (Env N R C X).
Context `{!GraphCode S N R E}.
Implicit Types (g : CompiledGraph S N R C) (evs : list (StreamEvent S)).

(** The nodes and branches a run completed, as events and as recorded steps. *)
Definition completed evs : list string :=
  omap (fun ev => match ev with EvNodeComplete n _ => Some n | _ => None end) evs.
Definition step_names (steps : list ExecutionStep) : list string :=
  omap (fun st => match st with
                  | StepNode n _ | StepParallelNode n _ => Some n
                  | StepCheckpoint _ _ => None
                  end) steps.

Lemma completed_app e1 e2 : completed (e1 ++ e2) = completed e1 ++ completed e2.
Proof. apply omap_app. Qed.
Lemma step_names_app s1 s2 : step_names (s1 ++ s2) = step_names s1 ++ step_names s2.
Proof. apply omap_app. Qed.

Lemma send_app (sent : list (Item S)) evs ev :
  send (sent ++ (Ok <$> evs)) ev = sent ++ (Ok <$> (evs ++ [ev])).
Proof. unfold send. by rewrite fmap_app -app_assoc. Qed.
Lemma send_one (sent : list (Item S)) ev : send sent ev = sent ++ (Ok <$> [ev]).
Proof. done. Qed.

(** The items of a run that fails, and of one that ends. *)
Definition failed (sent : list (Item S)) (err : GraphError) (items : list (Item S)) : Prop :=
  exists evs, items = sent ++ (Ok <$> evs) ++ [Err err].
Definition finished (sent : list (Item S)) (steps : list ExecutionStep)
    (inv : GraphInvocation S) (items : list (Item S)) : Prop :=
  exists evs new, items = sent ++ (Ok <$> evs) ++ [Ok (EvEnd (final_state inv))] /\
    inv_steps inv = steps ++ new /\ completed evs = step_names new.

Definition same_run (sent : list (Item S)) (steps : list ExecutionStep)
    (run : option (result GraphError (GraphInvocation S) * E))
    (str : option (result GraphError (list (Item S)) * E)) : Prop :=
  match run with
  | None => str = None
  | Some (Ok inv, e) => exists items, str = Some (Ok items, e) /\ finished sent steps inv items
  | Some (Err err, e) => exists items, str = Some (Ok items, e) /\ failed sent err items
  end.

Lemma failed_stop (sent : list (Item S)) err : failed sent err (sent ++ [Err err]).
Proof. by exists []. Qed.
Lemma failed_more (sent : list (Item S)) evs err items :
  failed (sent ++ (Ok <$> evs)) err items -> failed sent err items.
Proof.
  intros [evs' ->]. exists (evs ++ evs'). rewrite fmap_app. by rewrite -!app_assoc.
Qed.
Lemma same_run_more (sent : list (Item S)) steps evs new run str :
  completed evs = step_names new ->
  same_run (sent ++ (Ok <$> evs)) (steps ++ new) run str -> same_run sent steps run str.
Proof.
  intros Hc. destruct run as [[[inv|err] e]|]; [| |done].
  - intros (items & -> & evs' & new' & -> & Hst & Hc'). eexists. split; [done|].
    exists (evs ++ evs'), (new ++ new'). rewrite completed_app step_names_app Hc Hc'.
    rewrite fmap_app Hst. by rewrite -!app_assoc.
  - intros (items & -> & Hf). eexists. split; [done|]. by eapply failed_more.
Qed.

Lemma same_run_stop (sent : list (Item S)) steps err (e : E) :
  same_run sent steps (Some (Err err, e)) (Some (Ok (sent ++ [Err err]), e)).
Proof. eexists. split; [done|]. apply failed_stop. Qed.

(** Saving, with and without recording the step. *)
Lemma stream_save_step g s c next steps (e : E) :
  match save_step g s c next steps e with
  | (Ok steps', e') => exists id new, stream_save g s c e = (Ok id, e') /\
      steps' = steps ++ new /\ step_names new = []
  | (Err err, e') => stream_save g s c e = (Err err, e')
  end.
Proof.
  unfold save_step, stream_save. destruct (checkpointer g) as [cp|].
  - unfold mbind, act_bind. destruct (with_store (save cp s c) e) as [[id|err] e']; [|done].
    exists (Some id), [ExecutionStep.checkpoint id next]. done.
  - exists None, []. by rewrite app_nil_r.
Qed.

Lemma stream_execute_run_node g s cur c (e : E) :
  stream_execute g s cur c e =
  run_node g s cur c (node_config (recursion_limit g) NodeConfig.default None) e.
Proof.
  unfold stream_execute, run_node, node_config, stream_save. simpl nc_metadata. simpl nc_debug.
  unfold mbind, act_bind, try_act.
  destruct (CompiledGraph.get_node g cur e) as [[n|err] e1]; [|done].
  destruct (execute n s _ e1) as [r e2]. destruct r as [u|[]]; try done.
  destruct (checkpointer g) as [cp|]; [|done].
  by destruct (with_store (save cp s (c - 1)) e2) as [[id|err] e3].
Qed.

Lemma stream_node_step g cur s steps c sent (e : E) :
  match step_node g (node_config (recursion_limit g) NodeConfig.default None) cur s steps c e with
  | (Ok (s', steps'), e') => exists evs md,
      stream_node g cur s c sent e = (Ok (Continue (s', sent ++ (Ok <$> evs))), e') /\
      steps' = steps ++ [StepNode cur md] /\ completed evs = [cur]
  | (Err err, e') => exists items,
      stream_node g cur s c sent e = (Ok (Return items), e') /\ failed sent err items
  end.
Proof.
  unfold step_node, stream_node. unfold mbind, act_bind, try_act.
  rewrite stream_execute_run_node.
  destruct (run_node g s cur c _ e) as [[u|err] e1].
  2: { eexists. split; [done|]. rewrite send_one. eapply failed_more, failed_stop. }
  set (s' := apply_update g s u).
  set (evs := [EvEnterNode cur s; EvNodeComplete cur u] ++
    match update u with Some _ => [EvStateUpdate s'] | None => [] end).
  assert (match update u with
    | Some _ => send (send (send sent (EvEnterNode cur s)) (EvNodeComplete cur u)) (EvStateUpdate s')
    | None => send (send sent (EvEnterNode cur s)) (EvNodeComplete cur u)
    end = sent ++ (Ok <$> evs)) as ->.
  { unfold evs. destruct (update u); rewrite (send_one sent) !send_app; done. }
  assert (completed evs = [cur]) as Hc by (unfold evs; by destruct (update u)).
  destruct (contains cur (interrupt_after g)).
  - pose proof (stream_save_step g s' c ("after_" +:+ cur)
      (steps ++ [ExecutionStep.node cur (metadata u)]) e1) as Hsave.
    destruct (save_step g s' c _ _ e1) as [[steps'|err] e2].
    + destruct Hsave as (id & new & -> & _). eexists. split; [done|].
      eapply failed_more, failed_stop.
    + rewrite Hsave. eexists. split; [done|]. eapply failed_more, failed_stop.
  - exists evs, (metadata u). done.
Qed.

Lemma completed_branches (l : list (string * GraphInvocation S)) :
  completed (branch_events l) = step_names ((fun r => StepParallelNode r.1 ∅) <$> l).
Proof. induction l as [|r l IH]; [done|]. cbn. f_equal. exact IH. Qed.

Lemma stream_fan_out_run fuel g targets s steps c sent (e : E) :
  match run_fan_out g (invoke_from_node_with_count fuel g) [] targets s steps c e with
  | None => stream_fan_out fuel g targets s c sent e = None
  | Some (Ok (m, next, steps', _), e') => exists evs new,
      stream_fan_out fuel g targets s c sent e =
        Some (Ok (Continue (m, next, sent ++ (Ok <$> evs))), e') /\
      steps' = steps ++ new /\ completed evs = step_names new
  | Some (Err err, e') => exists items,
      stream_fan_out fuel g targets s c sent e = Some (Ok (Return items), e') /\
      failed sent err items
  end.
Proof.
  unfold run_fan_out, stream_fan_out. unfold mbind, run_bind, try_run, lift, act_get, run_of_result.
  destruct (execute_parallel_branches _ targets s c e) as [[[l|err] e1]|]; [| |done].
  2: { eexists. split; [done|]. apply failed_stop. }
  cbn [app]. destruct (merge_parallel_states g (to_branch <$> l) s) as [m|err].
  - exists (branch_events l ++ [EvStateUpdate m]), ((fun r => StepParallelNode r.1 ∅) <$> l).
    rewrite send_app completed_app app_nil_r completed_branches. done.
  - eexists. split; [done|]. eapply failed_more, failed_stop.
Qed.

(** Saving between two steps, on both sides. *)
Lemma stream_continue_run g s c next steps sent run str (e : E) :
  (forall steps' e', same_run sent steps' (run steps' e') (str e')) ->
  same_run sent steps ((steps' ← lift (save_step g s c next steps); run steps') e)
    (stream_continue g s c sent str e).
Proof.
  intros Hrun. unfold stream_continue. unfold mbind, run_bind, try_run, lift.
  pose proof (stream_save_step g s c next steps e) as Hsave.
  destruct (save_step g s c next steps e) as [[steps'|err] e'].
  - destruct Hsave as (id & new & -> & -> & Hnew).
    apply (same_run_more sent steps [] new); [done|]. simpl. rewrite app_nil_r. apply Hrun.
  - rewrite Hsave. eexists. split; [done|]. apply failed_stop.
Qed.

(** What follows a node, on both sides, from equal loops on what remains. *)
Lemma stream_tail_run fuel g cur s steps c sent (e : E) :
  (forall cur s steps c sent e, same_run sent steps
    (invoke_loop fuel g (recursion_limit g) NodeConfig.default cur s steps c e)
    (stream_loop fuel g cur s c sent e)) ->
  same_run sent steps
    ((e0 ← lift act_get;
      match find_fan_out_targets g e0 cur with
      | Some targets =>
          '(state, next, steps, _) ←
            run_fan_out g (invoke_from_node_with_count fuel g) [] targets s steps (c + 1);
          steps ← lift (save_step g state (c + 1) next steps);
          invoke_loop fuel g (recursion_limit g) NodeConfig.default next state steps (c + 1)
      | None =>
          next ← lift (find_next_node g cur s);
          steps ← lift (save_step g s c next steps);
          invoke_loop fuel g (recursion_limit g) NodeConfig.default next s steps c
      end) e)
    ((e0 ← lift act_get;
      match find_fan_out_targets g e0 cur with
      | Some targets =>
          r ← stream_fan_out fuel g targets s (c + 1) sent;
          match r with
          | Return items => mret items
          | Continue (state, next, sent) =>
              stream_continue g state (c + 1) sent (stream_loop fuel g next state (c + 1) sent)
          end
      | None =>
          r ← try_run (lift (find_next_node g cur s));
          match r with
          | Err err => mret (sent ++ [Err err])
          | Ok next => stream_continue g s c sent (stream_loop fuel g next s c sent)
          end
      end) e).
Proof.
  intros IH. rewrite !get_step.
  destruct (find_fan_out_targets g e cur) as [ts|]; rewrite !run_bind_step ?try_step ?lift_step.
  - pose proof (stream_fan_out_run fuel g ts s steps (c + 1) sent e) as Hfo.
    destruct (run_fan_out _ _ _ ts s steps (c + 1) e) as [[[[[[m next] steps'] brs]|err] e1]|].
    + destruct Hfo as (evs & new & -> & -> & Hc). apply (same_run_more sent steps evs new); [done|].
      apply stream_continue_run. intros steps' e'. apply IH.
    + destruct Hfo as (items & -> & Hf). by exists items.
    + by rewrite Hfo.
  - destruct (find_next_node g cur s e) as [[next|err] e1].
    + apply stream_continue_run. intros steps' e'. apply IH.
    + apply same_run_stop.
Qed.

Lemma stream_loop_run fuel g cur s steps c sent (e : E) :
  same_run sent steps
    (invoke_loop fuel g (recursion_limit g) NodeConfig.default cur s steps c e)
    (stream_loop fuel g cur s c sent e).
Proof.
  revert cur s steps c sent e. induction fuel as [|fuel IH]; intros cur s steps c sent e; [done|].
  cbn [invoke_loop stream_loop]. destruct (cur =ₛ END); cbn [negb andb].
  { eexists. split; [done|]. exists [], []. rewrite app_nil_r. done. }
  rewrite (Nat.leb_antisym c (recursion_limit g)).
  destruct (c <? recursion_limit g); cbn [negb].
  2: { apply same_run_stop. }
  destruct (contains cur (interrupt_before g)).
  { apply same_run_stop. }
  destruct (cur =ₛ START); [by apply stream_tail_run|]. rewrite !run_bind_step !lift_step.
  pose proof (stream_node_step g cur s steps (c + 1) sent e) as Hnode.
  destruct (step_node g _ cur s steps (c + 1) e) as [[[s1 steps1]|err] e1].
  - destruct Hnode as (evs & md & -> & -> & Hc).
    apply (same_run_more sent steps evs [StepNode cur md]); [done|]. by apply stream_tail_run.
  - destruct Hnode as (items & -> & Hf). by exists items.
Qed.

Lemma collect_items_ok evs : collect_items (Ok <$> evs) = Ok (evs : list (StreamEvent S)).
Proof. induction evs as [|ev evs IH]; [done|]. cbn. unfold fmap in IH. by rewrite IH. Qed.
Lemma collect_items_err evs err (l : list (Item S)) :
  collect_items ((Ok <$> evs) ++ Err err :: l) = Err err.
Proof. induction evs as [|ev evs IH]; [done|]. cbn. unfold fmap in IH. by rewrite IH. Qed.

(** C20: streaming a run is invoking it: with the same fuel, [stream] ends exactly
    when [invoke] does, in the same environment (the same checkpoints saved, the
    same effects). When [invoke] succeeds the stream is its events, opening with
    Start, closing with End and the final state, and completing exactly the nodes
    and branches [invoke] records, in order; when [invoke] fails the stream's last
    item is that error. [stream_collected] succeeds or fails accordingly. *)
Theorem stream_is_invoke fuel g (input : S) (e : E) :
  match invoke fuel g input e with
  | None => stream fuel g input e = None
  | Some (Ok inv, e') => exists evs,
      let all := EvStart input :: evs ++ [EvEnd (final_state inv)] in
      stream fuel g input e = Some (Ok (Ok <$> all), e') /\
      stream_collected fuel g input e = Some (Ok all, e') /\
      completed evs = step_names (inv_steps inv)
  | Some (Err err, e') => exists evs,
      stream fuel g input e = Some (Ok ((Ok <$> (EvStart input :: evs)) ++ [Err err]), e') /\
      stream_collected fuel g input e = Some (Err err, e')
  end.
Proof.
  assert (same_run [Ok (EvStart input)] [] (invoke fuel g input e) (stream fuel g input e)) as Hrun.
  { unfold invoke, invoke_with_config, stream. apply stream_continue_run.
    intros steps' e'. apply stream_loop_run. }
  unfold stream_collected. rewrite run_bind_step.
  destruct (invoke fuel g input e) as [[[inv|err] e']|]; [| |done].
  - destruct Hrun as (items & -> & evs & new & -> & Hst & Hc).
    exists evs. split; [|split].
    + by rewrite fmap_cons fmap_app.
    + unfold run_of_result. rewrite -(fmap_app _ evs [EvEnd (final_state inv)]).
      rewrite -(fmap_app _ [EvStart input]). by rewrite collect_items_ok.
    + by rewrite Hst Hc.
  - destruct Hrun as (items & -> & evs & ->). exists evs. split; [done|].
    unfold run_of_result. rewrite app_assoc -(fmap_app _ [EvStart input]) collect_items_err. done.
Qed.
End stream_facts.
