(* ===== verification/Parallel.v ===== *)
(** * Parallel and dynamic entry points ([compiled/parallel.rs], first half)

    [invoke_parallel] is [invoke] with the branches of every fan-out kept in the
    result; [invoke_dynamic] also drains the task inbox before each step and lets
    a planner inject nodes and edges.  The planner is user code: a parameter.
    Both are proved equal to [invoke] where they should be. *)

From stdpp Require Import gmap strings list.
From S2P Require Import Prelude Json State Edge Checkpoint Node Graph Validate Builder Routing Merge.
From S2P Require Import Engine EngineFacts Safety.

Section parallel.
Context {S N R C X : Type} `{StateSchema S}.
Notation E := (Env N R C X).
Context `{!GraphCode S N R E}.
Implicit Types g : CompiledGraph S N R C.

(** [invoke_parallel]'s loop.  [parallel_branches] lives outside the loop in the
    source: each fan-out appends to it and merges all of it. *)
Fixpoint parallel_loop (fuel : nat) g (current_node : string) (state : S)
    (steps : list ExecutionStep) (count : nat) (parallel_branches : list (ParallelBranch S))
    : Run E GraphError (ParallelInvocation S) :=
  match fuel with
  | 0 => out_of_fuel
  | Datatypes.S fuel' =>
      if current_node =ₛ END then mret (mkParallelInvocation state steps count parallel_branches) else
      if recursion_limit g <=? count
      then run_fail (RecursionLimitReached (recursion_limit g)) else
      if contains current_node (interrupt_before g)
      then run_fail (ExecutionInterrupted current_node) else
      '(state, steps, count) ←
        (if current_node =ₛ START then mret (state, steps, count)
         else
           let count := count + 1 in
           '(state, steps) ← lift (step_node g
               (node_config (recursion_limit g) NodeConfig.default None)
               current_node state steps count);
           mret (state, steps, count));
      e ← lift act_get;
      match find_fan_out_targets g e current_node with
      | Some targets =>
          let count := count + 1 in
          '(state, next, steps, parallel_branches) ←
            run_fan_out g (invoke_from_node_with_count fuel' g) parallel_branches
              targets state steps count;
          steps ← lift (save_step g state count next steps);
          parallel_loop fuel' g next state steps count parallel_branches
      | None =>
          next ← lift (find_next_node g current_node state);
          steps ← lift (save_step g state count next steps);
          parallel_loop fuel' g next state steps count parallel_branches
      end
  end.

Definition invoke_parallel (fuel : nat) g (input : S) : Run E GraphError (ParallelInvocation S) :=
  steps ← lift (save_step g input 0 (entry_point g) []);
  parallel_loop fuel g (entry_point g) input steps 0 [].

(** ** Dynamic planning *)

Context (plan : list DynamicTask -> S -> Act E string (DynamicInjection N)).

(** Drain the inbox, and inject what the planner makes of the tasks. *)
Definition drain_inbox (state : S) : Act E GraphError () := fun e =>
  let pending := task_inbox e in
  let e := set_inbox [] e in
  match pending with
  | [] => (Ok (), e)
  | _ =>
      match plan pending state e with
      | (Err err, e) => (Err (RuntimeError err), e)
      | (Ok injection, e) =>
          let rn := fold_left (fun m '(name, node) => <[name := node]> m)
                      (inj_nodes injection) (runtime_nodes e) in
          let e := set_runtime_nodes rn e in
          (Ok (), set_runtime_edges (runtime_edges e ++ inj_edges injection) e)
      end
  end.

Fixpoint dynamic_loop (fuel : nat) g (current_node : string) (state : S)
    (steps : list ExecutionStep) (count : nat) : Run E GraphError (GraphInvocation S) :=
  match fuel with
  | 0 => out_of_fuel
  | Datatypes.S fuel' =>
      if current_node =ₛ END then mret (mkInvocation state steps count) else
      if recursion_limit g <=? count
      then run_fail (RecursionLimitReached (recursion_limit g)) else
      lift (drain_inbox state);;
      if contains current_node (interrupt_before g)
      then
        lift (save_step g state count current_node steps);;
        run_fail (ExecutionInterrupted current_node)
      else
      let count := count + 1 in
      '(state, steps) ← lift (step_node g (node_config (recursion_limit g) NodeConfig.default None)
                                current_node state steps count);
      e ← lift act_get;
      match find_fan_out_targets g e current_node with
      | Some targets =>
          let count := count + 1 in
          '(state, next, steps, _) ←
            run_fan_out g (invoke_from_node_with_count fuel' g) [] targets state steps count;
          steps ← lift (save_step g state count next steps);
          dynamic_loop fuel' g next state steps count
      | None =>
          next ← lift (find_next_node g current_node state);
          steps ← lift (save_step g state count next steps);
          dynamic_loop fuel' g next state steps count
      end
  end.

Definition invoke_dynamic (fuel : nat) g (input : S) : Run E GraphError (GraphInvocation S) :=
  steps ← lift (save_step g input 0 (entry_point g) []);
  dynamic_loop fuel g (entry_point g) input steps 0.

End parallel.

(** ** When the parallel entry point is [invoke] *)

Section parallel_facts.
Context {S N R C X : Type} `{StateSchema S}.
Notation E := (Env N R C X).
Context `{!GraphCode S N R E} `{!KeepsEnv (S := S) (no_runtime_edges (N := N) (R := R) (C := C) (X := X))}.
Implicit Types g : CompiledGraph S N R C.

(** Where a run can be once a fan-out has joined. *)
Inductive AfterJoin (es : list GraphEdge) : string -> Prop :=
| join_target ss t : FanIn ss t ∈ es -> AfterJoin es t
| join_step edge t : edge ∈ es -> is_fan_in edge = false -> AfterJoin es (GraphEdge.source edge) ->
    t ∈ edge_targets edge -> AfterJoin es t.

Definition one_fan_out g : Prop := forall s ts, FanOut s ts ∈ edges g -> ~ AfterJoin (edges g) s.

Definition par_view (bs : list (ParallelBranch S)) (inv : GraphInvocation S) : ParallelInvocation S :=
  mkParallelInvocation (final_state inv) (inv_steps inv) (recursion_count inv) bs.

(** The same answer, with some branches recorded. *)
Definition par_agrees (par : option (result GraphError (ParallelInvocation S) * E))
    (run : option (result GraphError (GraphInvocation S) * E)) : Prop :=
  match run with
  | None => par = None
  | Some (Err err, e) => par = Some (Err err, e)
  | Some (Ok inv, e) => exists bs, par = Some (Ok (par_view bs inv), e)
  end.

Lemma par_agrees_bind {A} (m : Run E GraphError A)
    (f : A -> Run E GraphError (ParallelInvocation S)) (k : A -> Run E GraphError (GraphInvocation S)) e :
  (forall a e', m e = Some (Ok a, e') -> par_agrees (f a e') (k a e')) ->
  par_agrees ((m ≫= f) e) ((m ≫= k) e).
Proof.
  intros Hf. rewrite !run_bind_step. destruct (m e) as [[[a|err] e']|]; [|done..]. by apply Hf.
Qed.

Lemma run_fan_out_next g branch prior ts s steps c (e e' : E) m next steps' bs :
  run_fan_out g branch prior ts s steps c e = Some (Ok (m, next, steps', bs), e') ->
  next = default END (find_fan_in_target g e' ts).
Proof.
  unfold run_fan_out. rewrite run_bind_step.
  destruct (execute_parallel_branches _ _ _ _ e) as [[[l|err] e1]|]; try done.
  rewrite get_step run_bind_step. unfold run_of_result.
  destruct (merge_parallel_states _ _ _); [|done]. by intros [= _ <- _ _ <-].
Qed.

Lemma parallel_loop_agrees fuel g cur s steps c bs (e : E) :
  one_fan_out g -> no_runtime_edges e ->
  bs = [] \/ cur = END \/ AfterJoin (edges g) cur ->
  par_agrees (parallel_loop fuel g cur s steps c bs e)
    (invoke_loop fuel g (recursion_limit g) NodeConfig.default cur s steps c e).
Proof.
  intros Hone. revert cur s steps c bs e.
  induction fuel as [|fuel IH]; intros cur s steps c bs e He Hcur; [done|].
  cbn [parallel_loop invoke_loop]. case_bool_decide as Hend; [by exists bs|].
  destruct (recursion_limit g <=? c); [done|].
  destruct (contains cur (interrupt_before g)); [done|].
  apply par_agrees_bind. intros [[s1 steps1] c1] e1 H1.
  assert (no_runtime_edges e1) as He1.
  { case_bool_decide; [by injection H1 as <- <- <- <-|]. rewrite run_bind_step lift_step in H1.
    pose proof (keeps_step_node no_runtime_edges g
      (node_config (recursion_limit g) NodeConfig.default None) cur s steps (c + 1) e He) as Hk.
    destruct (step_node _ _ _ _ _ _ e) as [[[s2 steps2]|err] e2]; [|done]. by injection H1 as <- <- <- <-. }
  rewrite !get_step.
  assert (forall next s steps c bs e, no_runtime_edges e ->
    bs = [] \/ next = END \/ AfterJoin (edges g) next ->
    par_agrees
      ((steps ← lift (save_step g s c next steps); parallel_loop fuel g next s steps c bs) e)
      ((steps ← lift (save_step g s c next steps);
        invoke_loop fuel g (recursion_limit g) NodeConfig.default next s steps c) e)) as Hgo.
  { intros next s2 steps2 c2 bs2 e2 He2 Hn. apply par_agrees_bind. intros steps3 e3 H3.
    apply IH; [|done]. rewrite lift_step in H3.
    pose proof (keeps_save_step no_runtime_edges g s2 c2 next steps2 e2 He2) as Hk.
    by destruct (save_step _ _ _ _ _ e2); simplify_eq. }
  destruct (find_fan_out_targets g e1 cur) as [ts|] eqn:Efo.
  - assert (bs = []) as ->.
    { destruct Hcur as [|[|Hj]]; [done..|]. exfalso. unfold find_fan_out_targets in Efo.
      rewrite He1 in Efo. by apply static_fan_out_Some, Hone in Efo. }
    apply par_agrees_bind. intros [[[m next] steps2] bs] e2 H2.
    assert (no_runtime_edges e2) as He2
      by (by eapply (run_fan_out_keeps g no_runtime_edges fuel cur ts)).
    apply Hgo; [done|]. right. apply run_fan_out_next in H2 as ->.
    destruct (find_fan_in_target g e2 ts) as [t|] eqn:Et; [right|by left]. simpl.
    apply find_fan_in_target_edge in Et as [ss Hin]. rewrite He2 in Hin. by eapply join_target.
  - apply par_agrees_bind. intros next e2 H2. rewrite lift_step in H2.
    pose proof (keeps_find_next_node no_runtime_edges g cur s1 e1 He1) as Hk.
    destruct (find_next_node g cur s1 e1) as [r e3] eqn:En. injection H2 as -> ->.
    apply Hgo; [done|]. destruct Hcur as [|[|Hj]]; [by left|done|].
    apply find_next_node_target in En as [->|(edge & Hin & Hf & Hsrc & Ht)]; [by right; left|].
    rewrite He1 in Hin. right. right. apply (join_step _ edge); try done. by rewrite Hsrc.
Qed.

(** on a graph where no node reachable after a join fans out again,
    [invoke_parallel] is [invoke]: same answer, same environment, with the branches
    of the fan-out as an additional result. *)
Theorem parallel_is_invoke fuel g input (e : E) :
  one_fan_out g -> no_runtime_edges e ->
  match invoke fuel g input e with
  | None => invoke_parallel fuel g input e = None
  | Some (Err err, e') => invoke_parallel fuel g input e = Some (Err err, e')
  | Some (Ok inv, e') => exists bs, invoke_parallel fuel g input e =
      Some (Ok (mkParallelInvocation (final_state inv) (inv_steps inv) (recursion_count inv) bs), e')
  end.
Proof.
  intros Hone He. change (par_agrees (invoke_parallel fuel g input e) (invoke fuel g input e)).
  unfold invoke, invoke_with_config, invoke_parallel. apply par_agrees_bind. intros steps e1 H1.
  apply parallel_loop_agrees; [done| |by left]. rewrite lift_step in H1.
  pose proof (keeps_save_step no_runtime_edges g input 0 (entry_point g) [] e He) as Hk.
  by destruct (save_step _ _ _ _ _ e); simplify_eq.
Qed.
End parallel_facts.

(** ** When nothing is planned, the dynamic entry point is [invoke] *)

Section dynamic_facts.
Context {S N R C X : Type} `{StateSchema S}.
Notation E := (Env N R C X).
Context `{!GraphCode S N R E}.
Implicit Types g : CompiledGraph S N R C.

(** Nobody submits a task, and nothing leads to the virtual START. *)
Definition quiet (e : E) : Prop := task_inbox e = [] /\ start_free e.

Global Instance quiet_ignores_store : IgnoresStore quiet.
Proof. intros c e He. exact He. Qed.

Context (plan : list DynamicTask -> S -> Act E string (DynamicInjection N)).
Context `{!KeepsEnv (S := S) quiet}.

Lemma drain_inbox_quiet s e : quiet e -> drain_inbox plan s e = (Ok (), e).
Proof.
  intros [He _]. unfold drain_inbox. destruct e as [rn re rr ti st w]. simpl in *. by subst.
Qed.

(** Two runs with the same first part. *)
Lemma run_bind_agree {A B} (m : Run E GraphError A) (f k : A -> Run E GraphError B) e :
  (forall a e', m e = Some (Ok a, e') -> f a e' = k a e') -> (m ≫= f) e = (m ≫= k) e.
Proof.
  intros Hf. rewrite !run_bind_step. destruct (m e) as [[[a|err] e']|]; [|done..]. by apply Hf.
Qed.

Lemma lift_keeps {A} (m : Act E GraphError A) a (e e' : E) :
  quiet (m e).2 -> lift m e = Some (Ok a, e') -> quiet e'.
Proof. rewrite lift_step. by destruct (m e) as [r e1]; intros Hq [= -> ->]. Qed.

Lemma no_start_target g (e : E) cur next :
  no_start (edges g) -> quiet e -> named_target g e cur next -> next <> START.
Proof.
  intros Hg [_ He] [->|(edge & Hin & _ & _ & Ht)]; [done|]. intros ->.
  by apply (no_start_app _ _ He Hg edge Hin).
Qed.

Lemma dynamic_loop_quiet fuel g cur s steps c (e : E) :
  no_start (edges g) -> interrupt_before g = [] -> quiet e -> cur <> START ->
  dynamic_loop plan fuel g cur s steps c e =
  invoke_loop fuel g (recursion_limit g) NodeConfig.default cur s steps c e.
Proof.
  intros Hg Hib. revert cur s steps c e.
  induction fuel as [|fuel IH]; intros cur s steps c e He Hcur; [done|].
  cbn [dynamic_loop invoke_loop]. case_bool_decide as Hend; [done|].
  destruct (recursion_limit g <=? c); [done|].
  rewrite run_bind_step lift_step drain_inbox_quiet //. rewrite Hib.
  assert (contains cur [] = false) as -> by (by apply bool_decide_false, not_elem_of_nil).
  rewrite (bool_decide_false (cur = START)) //.
  rewrite !run_bind_step !lift_step.
  pose proof (keeps_step_node quiet g (node_config (recursion_limit g) NodeConfig.default None)
    cur s steps (c + 1) e He) as He1.
  destruct (step_node g _ cur s steps (c + 1) e) as [[[s1 steps1]|err] e1]; [|done].
  cbn [mret run_ret]. rewrite !get_step. simpl in He1.
  assert (forall next s steps c e, quiet e -> next <> START ->
    (steps ← lift (save_step g s c next steps); dynamic_loop plan fuel g next s steps c) e =
    (steps ← lift (save_step g s c next steps);
     invoke_loop fuel g (recursion_limit g) NodeConfig.default next s steps c) e) as Hgo.
  { intros next s2 steps2 c2 e2 He2 Hn. apply run_bind_agree. intros steps3 e3 H3.
    apply IH; [|done]. eapply lift_keeps; [|exact H3]. by apply (keeps_save_step quiet). }
  destruct (find_fan_out_targets g e1 cur) as [ts|] eqn:Efo; apply run_bind_agree.
  - intros [[[m next] steps2] bs] e2 H2.
    assert (quiet e2) as He2 by (by eapply (run_fan_out_keeps g quiet fuel cur ts)).
    apply Hgo; [done|]. apply run_fan_out_next in H2 as ->.
    destruct (find_fan_in_target g e2 ts) as [t|] eqn:Et; [|done]. simpl. intros ->.
    apply find_fan_in_target_edge in Et as [ss Hin].
    apply (no_start_app _ _ (proj2 He2) Hg _ Hin). apply list_elem_of_here.
  - intros next e2 H2. apply Hgo.
    + eapply lift_keeps; [|exact H2]. by apply (keeps_find_next_node quiet).
    + rewrite lift_step in H2. destruct (find_next_node g cur s1 e1) as [r e3] eqn:En.
      injection H2 as -> ->. apply find_next_node_target in En. by eapply no_start_target.
Qed.

(** while no task is submitted, and without [interrupt_before] nodes,
    [invoke_dynamic] from a registered entry point is [invoke], whatever the
    planner: same answer and same environment, for every fuel. *)
Theorem dynamic_is_invoke fuel g input (e : E) :
  no_start (edges g) -> interrupt_before g = [] -> entry_point g <> START -> quiet e ->
  invoke_dynamic plan fuel g input e = invoke fuel g input e.
Proof.
  intros Hg Hib Hentry He. unfold invoke, invoke_with_config, invoke_dynamic.
  apply run_bind_agree. intros steps e1 H1. apply dynamic_loop_quiet; try done.
  eapply lift_keeps; [|exact H1]. by apply (keeps_save_step quiet).
Qed.

Lemma submit_all ids_descs (e : E) :
  fold_left (fun e '(id, d) => (CompiledGraph.submit_task false id d e).2) ids_descs e =
  set_inbox (task_inbox e ++ ((fun '(id, d) => mkTask id d) <$> ids_descs)) e.
Proof.
  revert e. induction ids_descs as [|[id d] l IH]; intros e; cbn [fold_left].
  - destruct e. simpl. by rewrite app_nil_r.
  - rewrite IH. cbn. by rewrite -app_assoc.
Qed.

Lemma drain_inbox_tasks s tasks (e : E) :
  tasks <> [] ->
  drain_inbox plan s (set_inbox tasks e) =
  match plan tasks s (set_inbox [] e) with
  | (Err err, e1) => (Err (RuntimeError err), e1)
  | (Ok inj, e1) =>
      let rn := fold_left (fun m '(name, node) => <[name := node]> m) (inj_nodes inj) (runtime_nodes e1) in
      (Ok (), set_runtime_edges (runtime_edges e1 ++ inj_edges inj) (set_runtime_nodes rn e1))
  end.
Proof.
  intros Ht. unfold drain_inbox. cbn [task_inbox set_inbox]. destruct tasks; [done|].
  change (set_inbox [] (set_inbox _ e)) with (set_inbox [] e).
  by destruct (plan _ s (set_inbox [] e)) as [[inj|err] e1].
Qed.

(** submitted tasks are planned exactly once and in order: a step drains the
    whole inbox, hands the planner the tasks in submission order, and what the
    planner injects is found by the lookups of the following steps - its nodes
    unless a static node has the name, its edges after the runtime edges there
    were; a failed plan is a runtime error and the tasks are not planned again. *)
Theorem submitted_tasks_planned g ids_descs s (e : E) :
  let submit := fold_left (fun e '(id, d) => (CompiledGraph.submit_task false id d e).2) ids_descs e in
  let tasks := task_inbox e ++ ((fun '(id, d) => mkTask id d) <$> ids_descs) in
  tasks <> [] ->
  match plan tasks s (set_inbox [] e) with
  | (Err err, e1) => drain_inbox plan s submit = (Err (RuntimeError err), e1)
  | (Ok inj, e1) => exists e2, drain_inbox plan s submit = (Ok (), e2) /\
      task_inbox e2 = task_inbox e1 /\
      runtime_edges e2 = runtime_edges e1 ++ inj_edges inj /\ store e2 = store e1 /\
      world e2 = world e1 /\
      forall name node, nodes g !! name = None -> NoDup (inj_nodes inj).*1 ->
        (name, node) ∈ inj_nodes inj -> CompiledGraph.get_node g name e2 = (Ok node, e2)
  end.
Proof.
  intros submit tasks Ht. unfold submit. rewrite submit_all. fold tasks.
  rewrite drain_inbox_tasks //. destruct (plan tasks s (set_inbox [] e)) as [[inj|err] e1]; [|done].
  eexists. split; [done|]. split_and!; try done.
  intros name node Hn Hnd Hin. unfold CompiledGraph.get_node.
  cbn [runtime_nodes set_runtime_edges set_runtime_nodes]. rewrite Hn fold_insert_list //.
  by rewrite (elem_of_list_to_map_1 (inj_nodes inj) name node Hnd Hin).
Qed.
End dynamic_facts.
