(* ===== verification/Resume.v ===== *)
(** * Resume, history and time travel ([compiled/graph.rs], second half)

    Each operation locks the attached checkpointer, reads the snapshot it resumes
    or forks from, and hands the state and the step count recorded there to one of
    the engine's loops.  The theorems hold for any checkpointer
    that keeps the contracts of [Checkpoint]. *)

From stdpp Require Import gmap strings list.
From S2P Require Import Prelude Json State Edge Checkpoint Decorators Node Graph Validate Routing.
From S2P Require Import Merge Engine.

Section resume.
Context {S N R C X : Type} `{StateSchema S}.
Notation E := (Env N R C X).
Context `{!GraphCode S N R E}.
Implicit Types g : CompiledGraph S N R C.

(** [guard.last().await.ok()?] *)
Definition last_checkpoint_state g : Act E GraphError (option (S * nat)) :=
  match checkpointer g with
  | Some cp => r ← act_ok (with_store (last cp)); mret (default None r)
  | None => mret None
  end.

Definition no_checkpointer : GraphError :=
  CheckpointError "state history / time-travel require a checkpointer (attach one with with_checkpointer)".

Definition checkpointer_locked g : GraphResult (Checkpointer S C) :=
  ok_or (checkpointer g) no_checkpointer.

Definition get_state_history g : Act E GraphError (list (CheckpointInfo S)) :=
  cp ← act_of_result (checkpointer_locked g);
  with_store (snapshots cp).

Definition get_state_history_page g (after : option string) (limit : nat)
    : Act E GraphError (list (CheckpointInfo S)) :=
  cp ← act_of_result (checkpointer_locked g);
  with_store (snapshots_page cp after limit).

(** [.into_iter().find(|s| s.id == checkpoint_id).ok_or_else(..)] *)
Definition find_snapshot (checkpoint_id : string) (snaps : list (CheckpointInfo S))
    : GraphResult (CheckpointInfo S) :=
  ok_or (find_id checkpoint_id snaps) (not_found checkpoint_id).

(** The thread an id lives in, [DEFAULT_THREAD] when the store cannot say. *)
Definition thread_of (cp : Checkpointer S C) (checkpoint_id : string) : Act E GraphError string :=
  lineage ← with_store (checkpoint_lineage cp checkpoint_id);
  mret (default DEFAULT_THREAD (fst <$> lineage)).

Definition fork_from (fuel : nat) g (checkpoint_id continue_at_node : string)
    (override_state : option S) : Run E GraphError (GraphInvocation S) :=
  '(base_state, count) ← lift (
    cp ← act_of_result (checkpointer_locked g);
    snaps ← with_store (snapshots cp);
    snapshot ← act_of_result (find_snapshot checkpoint_id snaps);
    let base_state := default (ci_state snapshot) override_state in
    fork_thread ← thread_of cp (ci_id snapshot);
    with_store (save_fork_threaded cp (Some (ci_id snapshot)) fork_thread base_state
      (ci_recursion_count snapshot));;
    mret (base_state, ci_recursion_count snapshot));
  invoke_from_node_with_count fuel g continue_at_node base_state count.

(** [resolve_checkpoint_by_id]: every failure is [None]. *)
Definition resolve_checkpoint_by_id g (checkpoint_id : string)
    : Act E GraphError (option (S * nat)) :=
  match checkpointer g with
  | None => mret None
  | Some cp =>
      thread ← act_ok (thread_of cp checkpoint_id);
      match thread with
      | None => mret None
      | Some thread =>
          snaps ← act_ok (with_store (snapshots_threaded cp thread));
          mret match snaps with
               | Some snaps => (fun s => (ci_state s, ci_recursion_count s)) <$>
                                 find_id checkpoint_id snaps
               | None => None
               end
      end
  end.

Definition interrupted_current (interrupted_node : string) : string :=
  default interrupted_node (strip_prefix "after_" interrupted_node).

Definition create_resume_execution g (interrupted_node : string) (checkpoint_id : option string)
    : Act E GraphError (option (GraphExecution S)) :=
  found ←
    match checkpoint_id with
    | Some id =>
        r ← resolve_checkpoint_by_id g id;
        match r with Some res => mret (Some res) | None => last_checkpoint_state g end
    | None => last_checkpoint_state g
    end;
  mret ((fun '(state, count) =>
    mkExecution state (interrupted_current interrupted_node) [] count interrupted_node None)
    <$> found).

Definition set_pending (interrupted_node : string) (value : JsonValue) (x : GraphExecution S)
    : GraphExecution S :=
  mkExecution (ex_state x) (ex_current_node x) (ex_steps x) (ex_recursion_count x)
    (ex_interrupted_at x) (Some (mkPending interrupted_node value)).

Definition cannot_resume (interrupted_node : string) : GraphError :=
  ResumeError ("cannot resume '" +:+ interrupted_node +:+
    "': no checkpoint to resume from (attach a checkpointer)").

Definition resume_execution (fuel : nat) g (interrupted_node : string)
    (checkpoint_id : option string) (value : JsonValue) : Run E GraphError (GraphInvocation S) :=
  execution ← lift (create_resume_execution g interrupted_node checkpoint_id);
  match execution with
  | None => run_fail (cannot_resume interrupted_node)
  | Some execution => invoke_with_execution fuel g (set_pending interrupted_node value execution)
  end.

Definition resume_with_value (fuel : nat) g (interrupted_node : string) (value : JsonValue)
    : Run E GraphError (GraphInvocation S) :=
  resume_execution fuel g interrupted_node None value.

Definition stamped_id (payload : JsonValue) : option string :=
  json_get payload "__checkpoint_id" ≫= as_str.

Definition resume_from_interrupt (fuel : nat) g (interrupted_node : string)
    (payload value : JsonValue) : Run E GraphError (GraphInvocation S) :=
  resume_execution fuel g interrupted_node (stamped_id payload) value.

Definition resume_from_checkpoint (fuel : nat) g (thread checkpoint_id interrupted_node : string)
    (value : JsonValue) : Run E GraphError (GraphInvocation S) :=
  snapshot ← lift (
    cp ← act_of_result (checkpointer_locked g);
    snaps ← with_store (snapshots_threaded cp thread);
    act_of_result (find_snapshot checkpoint_id snaps));
  invoke_with_execution fuel g
    (mkExecution (ci_state snapshot) (interrupted_current interrupted_node) []
       (ci_recursion_count snapshot) interrupted_node (Some (mkPending interrupted_node value))).

End resume.

(** ** Resuming through the checkpointer contract *)

Lemma set_store_same {N R C X} (e : Env N R C X) : set_store (store e) e = e.
Proof. by destruct e. Qed.

Lemma with_store_step {N R C X A} (m : Act C GraphError A) (e : Env N R C X) :
  with_store m e = ((m (store e)).1, set_store (m (store e)).2 e).
Proof. unfold with_store, act_zoom. by destruct (m (store e)). Qed.

(** Reading through the contract leaves the environment alone. *)
Lemma with_store_read {N R C X A} (m : Act C GraphError A) (e : Env N R C X) r :
  m (store e) = (r, store e) -> with_store m e = (r, e).
Proof. intros Hm. rewrite with_store_step Hm /= set_store_same. done. Qed.

Section resume_facts.
Context {S N R C X : Type} `{StateSchema S}.
Notation E := (Env N R C X).
Context `{!GraphCode S N R E}.
Context (g : CompiledGraph S N R C) (cp : Checkpointer S C).
Context `{!ThreadedStore cp, !LineageStore cp} (Hcp : checkpointer g = Some cp).

Lemma thread_of_view t id s (e : E) :
  ts_inv (store e) -> find_id id (view (store e) t) = Some s -> thread_of cp id e = (Ok t, e).
Proof.
  intros Hi Hf. unfold thread_of, mbind, act_bind.
  by rewrite (with_store_read _ _ _ (lineage_law _ _ _ _ Hi Hf)).
Qed.

Lemma resolve_view t id s (e : E) :
  ts_inv (store e) -> find_id id (view (store e) t) = Some s ->
  resolve_checkpoint_by_id g id e = (Ok (Some (ci_state s, ci_recursion_count s)), e).
Proof.
  intros Hi Hf. unfold resolve_checkpoint_by_id. rewrite Hcp. unfold mbind, act_bind, act_ok.
  rewrite (thread_of_view t id s e Hi Hf). cbn [ok].
  rewrite (with_store_read _ _ _ (snapshots_law _ t Hi)). cbn [ok]. by rewrite Hf.
Qed.

Lemma invoke_pending fuel cur s c v (e : E) :
  strip_prefix "after_" cur = None ->
  invoke_with_execution fuel g (set_pending cur v (mkExecution s (interrupted_current cur) [] c cur None)) e =
  execution_loop fuel g cur true (Some v) cur s [] c e.
Proof. intros Hp. unfold interrupted_current. by rewrite Hp. Qed.

Lemma resume_stamped fuel cur s c id v (e : E) :
  strip_prefix "after_" cur = None ->
  resolve_checkpoint_by_id g id e = (Ok (Some (s, c)), e) ->
  resume_execution fuel g cur (Some id) v e =
  execution_loop fuel g cur true (Some v) cur s [] c e.
Proof.
  intros Hp Hr. unfold resume_execution, create_resume_execution. rewrite run_bind_step lift_step.
  unfold mbind at 1. unfold act_bind at 1. unfold mbind at 1. unfold act_bind at 1. rewrite Hr.
  cbn. by apply invoke_pending.
Qed.

(** What a suspension leaves behind: the error, and the entry in the store. *)
Lemma run_node_suspends s cur c config n m (e e1 : E) :
  CompiledGraph.get_node g cur e = (Ok n, e) ->
  execute n s (Some config) e = (Err (InterruptRequest (JObject m)), e1) ->
  ts_inv (store e1) ->
  exists info c2, run_node g s cur c config e =
      (Err (DynamicInterrupt cur (JObject (<["__checkpoint_id" := JString (ci_id info)]> m))),
       set_store c2 e1) /\
    added ts_inv view (store e1) DEFAULT_THREAD info c2 /\
    ci_state info = s /\ ci_recursion_count info = c - 1.
Proof.
  intros Hn Hx Hi.
  destruct (save_law (store e1) DEFAULT_THREAD s (c - 1) Hi) as (info & c2 & Hs & Ha & Hst & Hrc & _).
  exists info, c2. split; [|done]. unfold run_node, mbind, act_bind, try_act. rewrite Hn Hx Hcp.
  by rewrite with_store_step save_default Hs.
Qed.

(** C22: a runtime interrupt can be resumed exactly, on a checkpointer that finds every checkpoint
    under the id and in the thread it was saved (a store in a territory does not), when the
    payload is an object and the node's name does not start with [after_]. When the node at
    [cur] suspends
    with a payload, the run ends with that payload stamped with the id of a new
    checkpoint; as long as that checkpoint is still in the default thread -
    whatever else has been saved since, and whatever [last] says -
    [resume_from_interrupt] re-enters [cur] with the suspended state, the human's
    value as its resume decision, and one step less than the suspended count. *)
Theorem interrupt_resume_exact fuel s cur c config n m v (e e1 : E) :
  CompiledGraph.get_node g cur e = (Ok n, e) ->
  execute n s (Some config) e = (Err (InterruptRequest (JObject m)), e1) ->
  ts_inv (store e1) -> strip_prefix "after_" cur = None ->
  exists id e2, let payload := JObject (<["__checkpoint_id" := JString id]> m) in
    run_node g s cur c config e = (Err (DynamicInterrupt cur payload), e2) /\
    ts_inv (store e2) /\ find_id id (view (store e1) DEFAULT_THREAD) = None /\
    forall e3, ts_inv (store e3) ->
      find_id id (view (store e3) DEFAULT_THREAD) = find_id id (view (store e2) DEFAULT_THREAD) ->
      resume_from_interrupt fuel g cur payload v e3 =
      execution_loop fuel g cur true (Some v) cur s [] (c - 1) e3.
Proof.
  intros Hn Hx Hi Hp.
  destruct (run_node_suspends s cur c config n m e e1 Hn Hx Hi)
    as (info & c2 & Hrun & Ha & Hst & Hrc).
  exists (ci_id info), (set_store c2 e1). cbn zeta. split; [done|]. split; [apply Ha|]. split.
  { apply find_id_None. apply Ha. }
  intros e3 Hi3 Hf3. unfold resume_from_interrupt.
  replace (stamped_id _) with (Some (ci_id info))
    by (unfold stamped_id; cbn; by rewrite lookup_insert_eq).
  apply resume_stamped; [done|].
  rewrite (resolve_view DEFAULT_THREAD _ info e3 Hi3); [by rewrite Hst Hrc|].
  rewrite Hf3. cbn [store set_store].
  rewrite (find_id_added _ _ _ _ _ _ DEFAULT_THREAD (ci_id info) Ha).
  - by rewrite decide_True.
  - intros t. apply view_nodup, Ha.
Qed.

(** forking from a snapshot of the default thread saves one new checkpoint
    there, with the snapshot as its parent and its step count, leaves every
    recorded checkpoint as it was, and runs forward from the given node with the
    snapshot's state or the override; forking from an unknown id changes nothing. *)
Theorem fork_from_spec fuel id node override (e : E) :
  ts_inv (store e) ->
  match find_id id (view (store e) DEFAULT_THREAD) with
  | Some snap => exists info c',
      fork_from fuel g id node override e =
        from_node_loop fuel g node (default (ci_state snap) override) []
          (ci_recursion_count snap) (set_store c' e) /\
      added ts_inv view (store e) DEFAULT_THREAD info c' /\
      ci_parent info = Some id /\ ci_state info = default (ci_state snap) override /\
      ci_recursion_count info = ci_recursion_count snap
  | None => fork_from fuel g id node override e = Some (Err (not_found id), e)
  end.
Proof.
  intros Hi. unfold fork_from. rewrite run_bind_step lift_step.
  assert (with_store (snapshots cp) e = (Ok (view (store e) DEFAULT_THREAD), e)) as Hsnaps.
  { apply with_store_read. rewrite snapshots_default. by apply snapshots_law. }
  unfold checkpointer_locked. rewrite Hcp. unfold mbind, act_bind, act_of_result. cbn [ok_or].
  rewrite Hsnaps. unfold find_snapshot.
  destruct (find_id id (view (store e) DEFAULT_THREAD)) as [snap|] eqn:Ef; [|done].
  cbn [ok_or]. pose proof (find_id_Some _ _ _ Ef) as [_ Hid].
  rewrite (thread_of_view DEFAULT_THREAD (ci_id snap) snap e Hi); [|by rewrite Hid].
  destruct (save_fork_law (store e) (Some (ci_id snap)) DEFAULT_THREAD
    (default (ci_state snap) override) (ci_recursion_count snap) Hi)
    as (info & c' & Hs & Ha & Hst & Hrc & Hpar).
  exists info, c'. rewrite with_store_step Hs. cbn [fst snd].
  split; [done|]. by rewrite Hpar Hid.
Qed.
End resume_facts.

(** ** Resuming inside a territory *)

Lemma string_length_app (s t : string) : String.length (s +:+ t) = String.length s + String.length t.
Proof. induction s as [|a s IH]; simpl; [done|]. by rewrite IH. Qed.

Section territory_resume.
Context {S N R C X : Type} `{StateSchema S}.
Notation E := (Env N R C X).
Context `{!GraphCode S N R E}.
Context (g : CompiledGraph S N R C) (cp : Checkpointer S C) (ns : string).
Context `{!ThreadedStore cp, !LineageStore cp}.
Context (Hcp : checkpointer g = Some (TerritoryCheckpointer.new cp ns)).
Notation own_thread := (TerritoryCheckpointer.ns_thread ns DEFAULT_THREAD).

(** An id lives in one thread: the one its lineage names. *)
Lemma find_id_thread c t t' id s s' :
  ts_inv (cp := cp) c -> find_id id (view c t) = Some s -> find_id id (view c t') = Some s' -> t = t'.
Proof.
  intros Hi Hs Hs'. pose proof (lineage_law c t s id Hi Hs) as H1.
  pose proof (lineage_law c t' s' id Hi Hs') as H2. congruence.
Qed.

Lemma ns_thread_grows t : TerritoryCheckpointer.ns_thread ns t <> t.
Proof.
  intros Heq. apply (f_equal String.length) in Heq.
  unfold TerritoryCheckpointer.ns_thread in Heq. rewrite !string_length_app in Heq. simpl in Heq. lia.
Qed.

(** The lineage names the wrapped store's thread, which the decorator then maps
    into the territory a second time. *)
Lemma resolve_in_territory id s (e : E) :
  ts_inv (cp := cp) (store e) -> find_id id (view (store e) own_thread) = Some s ->
  resolve_checkpoint_by_id g id e = (Ok None, e).
Proof.
  intros Hi Hf. unfold resolve_checkpoint_by_id. rewrite Hcp. unfold mbind, act_bind, act_ok.
  assert (thread_of (TerritoryCheckpointer.new cp ns) id e = (Ok own_thread, e)) as ->.
  { unfold thread_of, mbind, act_bind.
    by rewrite (with_store_read _ _ _ (lineage_law (cp := cp) _ _ _ _ Hi Hf)). }
  set (nested := TerritoryCheckpointer.ns_thread ns own_thread).
  cbn [ok]. rewrite (with_store_read (snapshots_threaded (TerritoryCheckpointer.new cp ns) own_thread)
    e _ (snapshots_law (cp := cp) _ nested Hi)). cbn [ok].
  destruct (find_id id (view (store e) nested)) as [s'|] eqn:Ef; [|done].
  pose proof (find_id_thread _ _ _ _ _ _ Hi Hf Ef) as Heq.
  by destruct (ns_thread_grows own_thread (eq_sym Heq)).
Qed.

(** in a territory the checkpoint an interrupt is stamped with is never found
    again: although the checkpoint is in the graph's own thread,
    [resume_from_interrupt] ignores it and resumes from whatever is last, as
    [resume_with_value] does. *)
Theorem territory_resume_ignores_checkpoint fuel cur payload value id s (e : E) :
  ts_inv (cp := cp) (store e) -> stamped_id payload = Some id ->
  find_id id (view (store e) own_thread) = Some s ->
  resume_from_interrupt fuel g cur payload value e = resume_with_value fuel g cur value e.
Proof.
  intros Hi Hid Hf. unfold resume_from_interrupt, resume_with_value, resume_execution. rewrite Hid.
  rewrite !run_bind_step !lift_step. unfold create_resume_execution.
  unfold mbind, act_bind. by rewrite (resolve_in_territory id s e Hi Hf).
Qed.
End territory_resume.
