(* ===== verification/Transparency.v ===== *)
(** * Checkpointing is transparent

    The same run on the same graph with and without a checkpointer: a simulation
    that relates environments equal but for the store, step lists equal but for
    the checkpoint entries, and errors equal but for the checkpoint id stamped
    into a suspension's payload.  [sim] composes through the monad's operations
    ([sim] hint database), so each loop is one induction. *)

From stdpp Require Import gmap strings list.
From S2P Require Import Prelude Json State Edge Checkpoint Node Graph Validate Routing Merge.
From S2P Require Import Engine EngineFacts.

(** ** Relations *)

Section relations.
Context {N R C X : Type}.
Notation E := (Env N R C X).

Definition same_but_store (e1 e2 : E) : Prop :=
  runtime_nodes e1 = runtime_nodes e2 /\ runtime_edges e1 = runtime_edges e2 /\
  runtime_conditional_routers e1 = runtime_conditional_routers e2 /\
  task_inbox e1 = task_inbox e2 /\ world e1 = world e2.
Infix "≈" := same_but_store (at level 70).

Global Instance same_but_store_equiv : Equivalence same_but_store.
Proof.
  split.
  - done.
  - intros e1 e2 (?&?&?&?&?). by split_and!.
  - intros e1 e2 e3 (?&?&?&?&?) (?&?&?&?&?). split_and!; by etrans.
Qed.

Lemma same_set_store c e : set_store c e ≈ e.
Proof. done. Qed.

(** A suspension's payload may carry the id of the checkpoint saved for it. *)
Definition same_error (err1 err2 : GraphError) : Prop :=
  err1 = err2 \/
  exists n payload id, err2 = DynamicInterrupt n payload /\
    err1 = DynamicInterrupt n (json_insert "__checkpoint_id" (JString id) payload).

Definition same_result {A B} (Q : A -> B -> Prop) (r1 : result GraphError A)
    (r2 : result GraphError B) : Prop :=
  match r1, r2 with
  | Ok a, Ok b => Q a b
  | Err err1, Err err2 => same_error err1 err2
  | _, _ => False
  end.

Definition same_answer {A B} (Q : A -> B -> Prop) (o1 : option (result GraphError A * E))
    (o2 : option (result GraphError B * E)) : Prop :=
  match o1, o2 with
  | Some (r1, e1), Some (r2, e2) => same_result Q r1 r2 /\ e1 ≈ e2
  | None, None => True
  | _, _ => False
  end.

Definition sim_act {A B} (Q : A -> B -> Prop) (m1 : Act E GraphError A) (m2 : Act E GraphError B) :=
  forall e1 e2, e1 ≈ e2 -> same_result Q (m1 e1).1 (m2 e2).1 /\ (m1 e1).2 ≈ (m2 e2).2.
Definition sim {A B} (Q : A -> B -> Prop) (m1 : Run E GraphError A) (m2 : Run E GraphError B) :=
  forall e1 e2, e1 ≈ e2 -> same_answer Q (m1 e1) (m2 e2).

Lemma sim_act_bind {A B A' B'} (Q : A -> B -> Prop) (Q' : A' -> B' -> Prop) m1 m2 f1 f2 :
  sim_act Q m1 m2 -> (forall a b, Q a b -> sim_act Q' (f1 a) (f2 b)) ->
  sim_act Q' (m1 ≫= f1) (m2 ≫= f2).
Proof.
  intros Hm Hf e1 e2 He. specialize (Hm e1 e2 He). unfold mbind, act_bind.
  destruct (m1 e1) as [[a|err1] e1'], (m2 e2) as [[b|err2] e2']; destruct Hm as [Hr He']; try done.
  by apply Hf.
Qed.
Lemma sim_act_ret {A B} (Q : A -> B -> Prop) a b : Q a b -> sim_act Q (mret a) (mret b).
Proof. intros HQ e1 e2 He. done. Qed.
Lemma sim_act_fail {A B} (Q : A -> B -> Prop) err1 err2 :
  same_error err1 err2 -> sim_act Q (act_fail err1) (act_fail err2).
Proof. intros HQ e1 e2 He. done. Qed.
Lemma sim_act_of_result {A B} (Q : A -> B -> Prop) r1 r2 :
  same_result Q r1 r2 -> sim_act Q (act_of_result r1) (act_of_result r2).
Proof. intros HQ e1 e2 He. done. Qed.
Lemma sim_act_try {A B} (Q : A -> B -> Prop) m1 m2 :
  sim_act Q m1 m2 -> sim_act (same_result Q) (try_act m1) (try_act m2).
Proof.
  intros Hm e1 e2 He. specialize (Hm e1 e2 He). unfold try_act.
  by destruct (m1 e1), (m2 e2).
Qed.

Lemma sim_bind {A B A' B'} (Q : A -> B -> Prop) (Q' : A' -> B' -> Prop) m1 m2 f1 f2 :
  sim Q m1 m2 -> (forall a b, Q a b -> sim Q' (f1 a) (f2 b)) -> sim Q' (m1 ≫= f1) (m2 ≫= f2).
Proof.
  intros Hm Hf e1 e2 He. specialize (Hm e1 e2 He). rewrite !run_bind_step.
  destruct (m1 e1) as [[[a|err1] e1']|], (m2 e2) as [[[b|err2] e2']|]; try (by destruct Hm).
  destruct Hm. by apply Hf.
Qed.
Lemma sim_ret {A B} (Q : A -> B -> Prop) a b : Q a b -> sim Q (mret a) (mret b).
Proof. intros HQ e1 e2 He. done. Qed.
Lemma sim_fail {A B} (Q : A -> B -> Prop) err : sim Q (run_fail err) (run_fail err).
Proof. intros e1 e2 He. split; [by left|done]. Qed.
Lemma sim_lift {A B} (Q : A -> B -> Prop) m1 m2 : sim_act Q m1 m2 -> sim Q (lift m1) (lift m2).
Proof.
  intros Hm e1 e2 He. specialize (Hm e1 e2 He). rewrite !lift_step.
  by destruct (m1 e1), (m2 e2).
Qed.
Lemma sim_of_result {A B} (Q : A -> B -> Prop) r1 r2 :
  same_result Q r1 r2 -> sim Q (run_of_result r1) (run_of_result r2).
Proof. intros HQ e1 e2 He. done. Qed.
Lemma sim_try {A B} (Q : A -> B -> Prop) m1 m2 :
  sim Q m1 m2 -> sim (same_result Q) (try_run m1) (try_run m2).
Proof.
  intros Hm e1 e2 He. specialize (Hm e1 e2 He). rewrite !try_step.
  by destruct (m1 e1) as [[]|], (m2 e2) as [[]|].
Qed.
Lemma sim_get {A B} (Q : A -> B -> Prop) (f1 : E -> Run E GraphError A) (f2 : E -> Run E GraphError B) :
  (forall e1 e2, e1 ≈ e2 -> sim Q (f1 e1) (f2 e2)) ->
  sim Q (lift act_get ≫= f1) (lift act_get ≫= f2).
Proof. intros Hf e1 e2 He. rewrite !get_step. by apply Hf. Qed.
End relations.

Infix "≈" := same_but_store (at level 70).

Create HintDb sim discriminated.
#[export] Hint Resolve sim_act_ret sim_act_of_result sim_act_try sim_ret sim_fail sim_lift
  sim_of_result sim_try : sim.

Lemma same_error_refl err : same_error err err.
Proof. by left. Qed.
Lemma same_result_refl {A} (r : result GraphError A) : same_result eq r r.
Proof. destruct r; [done|by left]. Qed.
#[export] Hint Resolve same_error_refl same_result_refl : sim.

(** User code that does not look at the checkpoint store. *)
Class StoreBlind {S N R C X : Type} `{!GraphCode S N R (Env N R C X)} : Prop := {
  execute_blind n s config : sim_act (A := StateUpdate S) eq (execute n s config) (execute n s config);
  route_blind r (s : S) : sim_act eq (route r s) (route r s);
}.

(** ** The loops *)

Section transparent.
Context {S N R C X : Type} `{StateSchema S}.
Notation E := (Env N R C X).
Context `{!GraphCode S N R E} `{!StoreBlind (S := S) (N := N) (R := R) (C := C) (X := X)}.
Context (g : CompiledGraph S N R C).
Local Notation sim_act := (sim_act (N := N) (R := R) (C := C) (X := X)).
Local Notation sim := (sim (N := N) (R := R) (C := C) (X := X)).

(** The graph with its checkpointer detached. *)
Definition detached : CompiledGraph S N R C :=
  CompiledGraph.set_persistence None (territory g) (retention g) g.

(** The attached store accepts every save. *)
Definition always_saves : Prop :=
  forall cp s c st, checkpointer g = Some cp -> exists id st', save cp s c st = (Ok id, st').
Context (Hsaves : always_saves).

Definition is_checkpoint (st : ExecutionStep) : Prop :=
  match st with StepCheckpoint _ _ => True | _ => False end.
Global Instance is_checkpoint_dec st : Decision (is_checkpoint st).
Proof. destruct st; apply _. Defined.

Definition node_steps (steps : list ExecutionStep) : list ExecutionStep :=
  filter (fun st => ~ is_checkpoint st) steps.
Definition same_steps (s1 s2 : list ExecutionStep) : Prop := node_steps s1 = node_steps s2.
Definition same_invocation (i1 i2 : GraphInvocation S) : Prop :=
  final_state i1 = final_state i2 /\ recursion_count i1 = recursion_count i2 /\
  same_steps (inv_steps i1) (inv_steps i2).

Lemma same_steps_app l s1 s2 : same_steps s1 s2 -> same_steps (s1 ++ l) (s2 ++ l).
Proof. unfold same_steps, node_steps. rewrite !filter_app. by intros ->. Qed.

Lemma sim_act_saved {A B} (Q : A -> B -> Prop) cp s c (f1 : string -> Act E GraphError A) m2 :
  checkpointer g = Some cp -> (forall id, sim_act Q (f1 id) m2) ->
  sim_act Q (with_store (save cp s c) ≫= f1) m2.
Proof using Hsaves.
  intros Hcp Hf e1 e2 He. destruct (Hsaves cp s c (store e1) Hcp) as (id & st' & Hs).
  unfold with_store, act_zoom, mbind, act_bind. rewrite Hs. apply Hf.
  by rewrite same_set_store.
Qed.

Lemma sim_save_step s c next steps1 steps2 :
  same_steps steps1 steps2 ->
  sim_act same_steps (save_step g s c next steps1) (save_step detached s c next steps2).
Proof using Hsaves.
  intros Hs. unfold save_step at 2. cbn [checkpointer detached CompiledGraph.set_persistence].
  unfold save_step. destruct (checkpointer g) as [cp|] eqn:Hcp; [|by apply sim_act_ret].
  apply (sim_act_saved _ cp); [done|]. intros id. apply sim_act_ret.
  unfold same_steps, node_steps. rewrite filter_app. cbn. rewrite app_nil_r. exact Hs.
Qed.

Lemma sim_get_node name :
  sim_act eq (CompiledGraph.get_node (X := X) g name) (CompiledGraph.get_node detached name).
Proof.
  intros e1 e2 He. unfold CompiledGraph.get_node. cbn [nodes detached CompiledGraph.set_persistence].
  pose proof He as (Hn & _). rewrite Hn. by destruct (nodes g !! name), (runtime_nodes e2 !! name);
    (split; [simpl; auto with sim|]).
Qed.

Lemma sim_run_node s cur c config :
  sim_act eq (run_node g s cur c config) (run_node detached s cur c config).
Proof using Hsaves StoreBlind0.
  unfold run_node. eapply sim_act_bind; [apply sim_get_node|]. intros n ? <-.
  eapply sim_act_bind; [apply sim_act_try, execute_blind|]. intros r1 r2 Hr.
  destruct r1 as [u1|err1], r2 as [u2|err2]; try done.
  destruct Hr as [->|(m & payload & id & -> & ->)].
  2: { apply sim_act_of_result. right. by exists m, payload, id. }
  destruct err2; try (apply sim_act_of_result; by left).
  cbn [checkpointer detached CompiledGraph.set_persistence].
  destruct (checkpointer g) as [cp|] eqn:Hcp; [|apply sim_act_fail; by left].
  apply (sim_act_saved _ cp); [done|]. intros id. apply sim_act_fail. right. by eexists _, _, id.
Qed.

(** Both step lists have grown by the same entries. *)
Definition grown (steps1 steps2 s1 s2 : list ExecutionStep) : Prop :=
  exists l, s1 = steps1 ++ l /\ s2 = steps2 ++ l.

Lemma grown_same steps1 steps2 s1 s2 :
  same_steps steps1 steps2 -> grown steps1 steps2 s1 s2 -> same_steps s1 s2.
Proof. intros Hs (l & -> & ->). by apply same_steps_app. Qed.

Definition same_progress (steps1 steps2 : list ExecutionStep) (p1 p2 : S * list ExecutionStep) : Prop :=
  p1.1 = p2.1 /\ grown steps1 steps2 p1.2 p2.2.

Lemma sim_step_node config cur s steps1 steps2 c :
  sim_act (same_progress steps1 steps2)
    (step_node g config cur s steps1 c) (step_node detached config cur s steps2 c).
Proof using Hsaves StoreBlind0.
  unfold step_node. eapply sim_act_bind; [apply sim_run_node|]. intros u ? <-.
  change (apply_update detached s u) with (apply_update g s u).
  change (interrupt_after detached) with (interrupt_after g).
  destruct (contains cur (interrupt_after g)).
  - eapply (sim_act_bind (fun _ _ => True)).
    + unfold save_step at 2. cbn [checkpointer detached CompiledGraph.set_persistence].
      unfold save_step. destruct (checkpointer g) as [cp|] eqn:Hcp; [|by apply sim_act_ret].
      apply (sim_act_saved _ cp); [done|]. intros id. by apply sim_act_ret.
    + intros _ _ _. apply sim_act_fail. by left.
  - apply sim_act_ret. split; [done|]. by eexists.
Qed.

Lemma sim_find_fan_out_targets (e1 e2 : E) cur :
  e1 ≈ e2 -> find_fan_out_targets g e1 cur = find_fan_out_targets detached e2 cur.
Proof. intros (_ & He & _). unfold find_fan_out_targets. by rewrite He. Qed.

Lemma sim_find_fan_in_target (e1 e2 : E) ts :
  e1 ≈ e2 -> find_fan_in_target g e1 ts = find_fan_in_target detached e2 ts.
Proof. intros (_ & He & _). unfold find_fan_in_target. by rewrite He. Qed.

Lemma sim_follow_conditional sfx r ts d s :
  sim_act eq (follow_conditional g sfx r ts d s) (follow_conditional (X := X) detached sfx r ts d s).
Proof using StoreBlind0.
  intros e1 e2 He. unfold follow_conditional, find_router.
  change (conditional_routers detached) with (conditional_routers g).
  pose proof He as (_ & _ & Hr & _). rewrite Hr. case_match; [|by split; [left|]].
  match goal with |- same_result _ (?m1 e1).1 (?m2 e2).1 /\ _ =>
    assert (sim_act eq m1 m2) as Hm; [|exact (Hm e1 e2 He)] end.
  eapply sim_act_bind; [apply route_blind|]. intros k ? <-. auto with sim.
Qed.

Lemma next_static_detached es cur s :
  match next_static g es cur s, next_static (X := X) detached es cur s with
  | Some a1, Some a2 => sim_act eq a1 a2
  | None, None => True
  | _, _ => False
  end.
Proof using StoreBlind0.
  induction es as [|edge es IH]; [done|]. cbn [next_static].
  destruct (_ =ₛ cur); [|done]. destruct edge as [s' t|s' r ts d|s' [|t ts]|ss t].
  - by apply sim_act_ret.
  - apply sim_follow_conditional.
  - apply sim_act_fail. by left.
  - apply sim_act_fail. by left.
  - exact IH.
Qed.

Lemma sim_find_next_node cur s :
  sim_act eq (find_next_node g cur s) (find_next_node (X := X) detached cur s).
Proof using StoreBlind0.
  intros e1 e2 He. unfold find_next_node, next_runtime, is_fan_in_source.
  pose proof He as (_ & Hre & _). rewrite Hre.
  assert (forall sfx r ts d, same_result eq (follow_conditional g sfx r ts d s e1).1
    (follow_conditional detached sfx r ts d s e2).1 /\
    (follow_conditional g sfx r ts d s e1).2 ≈ (follow_conditional detached sfx r ts d s e2).2) as Hc
    by (intros; by apply sim_follow_conditional).
  assert (forall r1 r2, r1 = r2 -> same_result (A := string) eq (r1, e1).1 (r2, e2).1 /\
    (r1, e1).2 ≈ (r2, e2).2) as Hpure by (intros r1 r2 ->; split; [apply same_result_refl|done]).
  destruct (find_edge (runtime_edges e2) cur) as [[s' t|s' r ts d|s' [|t ts]|ss t]|];
    try (by apply Hpure); try apply Hc.
  all: pose proof (next_static_detached (edges g) cur s) as Hn;
    change (edges detached) with (edges g); change (entry_point detached) with (entry_point g);
    change (nodes detached) with (nodes g);
    destruct (next_static g (edges g) cur s) as [a1|], (next_static detached (edges g) cur s) as [a2|];
    try contradiction.
  all: try (exact (Hn e1 e2 He)).
  all: repeat case_match; by apply Hpure.
Qed.

(** *** Fan-out.  A branch saves nothing between its nodes, so its invocations are
    equal, not only the same up to checkpoints. *)

Notation BranchE := (string -> S -> nat -> Run E GraphError (GraphInvocation S)).
Definition same_branch_result (p1 p2 : string * result GraphError (GraphInvocation S)) : Prop :=
  p1.1 = p2.1 /\ same_result eq p1.2 p2.2.

Lemma sim_run_branches (b1 b2 : BranchE) ts s c :
  (forall t s c, sim eq (b1 t s c) (b2 t s c)) ->
  sim (Forall2 same_branch_result) (run_branches b1 ts s c) (run_branches b2 ts s c).
Proof.
  intros Hb. induction ts as [|t ts IH]; cbn [run_branches]; [by apply sim_ret|].
  eapply sim_bind; [apply sim_try, Hb|]. intros r1 r2 Hr.
  eapply sim_bind; [apply IH|]. intros l1 l2 Hl. apply sim_ret. by constructor.
Qed.

Lemma same_collect_branches l1 l2 :
  Forall2 same_branch_result l1 l2 -> same_result eq (collect_branches l1) (collect_branches l2).
Proof.
  induction 1 as [|[n1 r1] [n2 r2] l1 l2 [Hn Hr] Hl IH]; [done|]. simpl in Hn, Hr. subst n2.
  cbn [collect_branches]. destruct r1 as [i1|err1], r2 as [i2|err2]; simpl in Hr; try done.
  subst i2. cbn [mbind result_bind].
  destruct (collect_branches l1), (collect_branches l2); simpl in *; try done. by subst.
Qed.

Definition same_fan_out (steps1 steps2 : list ExecutionStep)
    (p1 p2 : S * string * list ExecutionStep * list (ParallelBranch S)) : Prop :=
  p1.1.1 = p2.1.1 /\ grown steps1 steps2 p1.1.2 p2.1.2 /\ p1.2 = p2.2.

Lemma sim_run_fan_out (b1 b2 : BranchE) prior ts s steps1 steps2 c :
  (forall t s c, sim eq (b1 t s c) (b2 t s c)) ->
  sim (same_fan_out steps1 steps2) (run_fan_out g b1 prior ts s steps1 c) (run_fan_out detached b2 prior ts s steps2 c).
Proof.
  intros Hb. unfold run_fan_out, execute_parallel_branches.
  eapply sim_bind with (Q := eq).
  { eapply sim_bind; [by apply sim_run_branches|]. intros l1 l2 Hl.
    by apply sim_of_result, same_collect_branches. }
  intros l ? <-. apply sim_get. intros e1 e2 He.
  rewrite (sim_find_fan_in_target e1 e2 ts He).
  eapply sim_bind with (Q := eq); [apply sim_of_result, same_result_refl|].
  intros m ? <-. apply sim_ret. split; [done|]. split; [|done]. by eexists.
Qed.

(** *** The loops *)

Lemma sim_from_node_loop fuel cur s steps c :
  sim eq (from_node_loop fuel g cur s steps c) (from_node_loop fuel detached cur s steps c).
Proof using Hsaves StoreBlind0.
  revert cur s steps c. induction fuel as [|fuel IH]; intros cur s steps c; [done|].
  cbn [from_node_loop]. change (recursion_limit detached) with (recursion_limit g).
  change (interrupt_before detached) with (interrupt_before g).
  destruct (cur =ₛ END); [by apply sim_ret|].
  destruct (recursion_limit g <=? c); [apply sim_fail|].
  destruct (contains cur (interrupt_before g)); [apply sim_fail|].
  eapply sim_bind; [apply sim_lift, sim_step_node|].
  intros [s1 st1] [? st2] [Hst (l & Hl1 & Hl2)]. simpl in Hst, Hl1, Hl2. subst.
  apply sim_get. intros e1 e2 He. rewrite (sim_find_fan_out_targets e1 e2 cur He).
  destruct (find_fan_out_targets detached e2 cur) as [ts|].
  - eapply sim_bind; [apply sim_run_fan_out; intros; apply IH|].
    intros [[[m next] steps2] bs] [[[m' next'] steps2'] bs'] ([= -> ->] & (l' & Hl1 & Hl2) & _).
    simpl in Hl1, Hl2. subst. apply IH.
  - eapply sim_bind; [apply sim_lift, sim_find_next_node|]. intros next ? <-. apply IH.
Qed.

Lemma sim_invoke_loop fuel limit config cur s steps1 steps2 c :
  same_steps steps1 steps2 ->
  sim same_invocation (invoke_loop fuel g limit config cur s steps1 c)
    (invoke_loop fuel detached limit config cur s steps2 c).
Proof using Hsaves StoreBlind0.
  revert cur s steps1 steps2 c.
  induction fuel as [|fuel IH]; intros cur s steps1 steps2 c Hs; [done|].
  cbn [invoke_loop]. change (interrupt_before detached) with (interrupt_before g).
  destruct (cur =ₛ END); [by apply sim_ret|].
  destruct (limit <=? c); [apply sim_fail|].
  destruct (contains cur (interrupt_before g)); [apply sim_fail|].
  eapply (sim_bind (fun p1 p2 => p1.1.1 = p2.1.1 /\ same_steps p1.1.2 p2.1.2 /\ p1.2 = p2.2)).
  { destruct (cur =ₛ START); [by apply sim_ret|].
    eapply sim_bind; [apply sim_lift, sim_step_node|].
    intros [s1 st1] [? st2] [Hst Hg]. apply sim_ret. split_and!; try done.
    by apply (grown_same steps1 steps2). }
  intros [[s1 st1] c1] [[? st2] ?] (Hst & Hsteps & Hc). simpl in Hst, Hsteps, Hc. subst.
  apply sim_get. intros e1 e2 He. rewrite (sim_find_fan_out_targets e1 e2 cur He).
  assert (forall next s c st1 st2, same_steps st1 st2 ->
    sim same_invocation
      (steps ← lift (save_step g s c next st1); invoke_loop fuel g limit config next s steps c)
      (steps ← lift (save_step detached s c next st2);
       invoke_loop fuel detached limit config next s steps c)) as Hgo.
  { intros next s2 c2 st3 st4 Hs34. eapply sim_bind; [by apply sim_lift, sim_save_step|].
    intros st5 st6 Hs56. by apply IH. }
  destruct (find_fan_out_targets detached e2 cur) as [ts|].
  - eapply sim_bind; [apply sim_run_fan_out; intros; apply sim_from_node_loop|].
    intros [[[m next] st3] bs] [[[m' next'] st4] bs'] ([= -> ->] & Hg & _).
    apply Hgo. by apply (grown_same st1 st2).
  - eapply sim_bind; [apply sim_lift, sim_find_next_node|]. intros next ? <-. by apply Hgo.
Qed.

(** C21: attaching a checkpointer does not change a run. When user code does not
    look at the store and the store accepts every save, the run with the
    checkpointer and the run with it detached end together (with the same fuel),
    and agree on the world, the runtime extensions and the inbox; both succeed,
    with the same final state, step count and node steps, or both fail, with the
    same error up to the checkpoint id stamped into a suspension's payload. *)
Theorem checkpointing_transparent fuel input config (e : E) :
  match invoke_with_config fuel g input config e,
        invoke_with_config fuel detached input config e with
  | Some (r1, e1), Some (r2, e2) => same_result same_invocation r1 r2 /\ e1 ≈ e2
  | None, None => True
  | _, _ => False
  end.
Proof using Hsaves StoreBlind0.
  assert (sim same_invocation
    (invoke_with_config fuel g input config)
    (invoke_with_config fuel detached input config)) as Hsim.
  { unfold invoke_with_config. eapply sim_bind; [by apply sim_lift, sim_save_step|].
    intros st1 st2 Hs. by apply sim_invoke_loop. }
  exact (Hsim e e (reflexivity e)).
Qed.
End transparent.
