(* ===== verification/Subgraph.v ===== *)
(** * Subgraphs ([subgraph.rs], and [add_subgraph] of [graph.rs])

    A [SubgraphNode] runs a compiled graph inside a node.  The nested graph has
    its own shared state, runtime extensions and checkpoint store: its [Env] is
    the world of the parent's environment.  The run needs fuel; [execute] gives it
    [limit + 2], which [subgraph_bounded] shows is enough unless something routes
    the nested graph back to START (where the code itself would not return). *)

From stdpp Require Import gmap strings list.
From S2P Require Import Prelude Json State Edge Checkpoint Node Graph Validate Builder Routing.
From S2P Require Import Merge Engine EngineFacts.

Record SubgraphNode (S SubS SN SR SC : Type) := mkSubgraphNode {
  sub_name : string;
  subgraph : CompiledGraph SubS SN SR SC;
  input_mapper : S -> SubS;
  output_mapper : SubS -> S -> S;
}.
Arguments mkSubgraphNode {S SubS SN SR SC} _ _ _ _.
Arguments sub_name {S SubS SN SR SC} _.
Arguments subgraph {S SubS SN SR SC} _.
Arguments input_mapper {S SubS SN SR SC} _ _.
Arguments output_mapper {S SubS SN SR SC} _ _ _.

Module SubgraphNode.
Section subgraph_node.
Context {S SubS SN SR SC SX : Type} `{StateSchema SubS}.
Notation SE := (Env SN SR SC SX).
Context `{!GraphCode SubS SN SR SE}.
Implicit Types n : SubgraphNode S SubS SN SR SC.

Definition new (name : string) (g : CompiledGraph SubS SN SR SC) (input_mapper : S -> SubS)
    (output_mapper : SubS -> S -> S) : SubgraphNode S SubS SN SR SC :=
  mkSubgraphNode name g input_mapper output_mapper.

Definition json_nat (k : nat) : JsonValue := JNumber (PosInt (N.of_nat k)).

Definition run_metadata (inv : GraphInvocation SubS) : gmap string JsonValue :=
  <["subgraph_recursion" := json_nat (recursion_count inv)]>
  {["subgraph_steps" := json_nat (length (inv_steps inv))]}.

Definition failed_message n (e : GraphError) : string :=
  "Subgraph '" +:+ sub_name n +:+ "' execution failed: " +:+ error_to_string e.

(** [GraphNode::execute] *)
Definition execute_run (fuel : nat) n (state : S) (config : option NodeConfig)
    : Run SE GraphError (StateUpdate S) :=
  let sub_config := default NodeConfig.default config in
  sub_result ← try_run (invoke_with_config fuel (subgraph n) (input_mapper n state) sub_config);
  match sub_result with
  | Ok inv =>
      mret (StateUpdate.with_metadata (output_mapper n (final_state inv) state) (run_metadata inv))
  | Err (DynamicInterrupt node payload) => run_fail (DynamicInterrupt node payload)
  | Err e => run_fail (ExecutionError (failed_message n e))
  end.

Definition execute n (state : S) (config : option NodeConfig) : Act SE GraphError (StateUpdate S) :=
  fun w => default (Err (RuntimeError "the nested run does not end"), w)
    (execute_run (recursion_limit (subgraph n) + 2) n state config w).

Definition name n : string := sub_name n.
End subgraph_node.

Definition same_state {S SN SR SC} (name : string) (g : CompiledGraph S SN SR SC)
    : SubgraphNode S S SN SR SC :=
  new name g (fun s => s) (fun sub_s _ => sub_s).
End SubgraphNode.

(** ** [SubgraphBuilder] *)

Record SubgraphBuilder (S SubS SN SR SC : Type) := mkSubgraphBuilder {
  sb_name : string;
  sb_subgraph : option (CompiledGraph SubS SN SR SC);
  sb_input_mapper : option (S -> SubS);
  sb_output_mapper : option (SubS -> S -> S);
}.
Arguments mkSubgraphBuilder {S SubS SN SR SC} _ _ _ _.
Arguments sb_name {S SubS SN SR SC} _.
Arguments sb_subgraph {S SubS SN SR SC} _.
Arguments sb_input_mapper {S SubS SN SR SC} _.
Arguments sb_output_mapper {S SubS SN SR SC} _.

Module SubgraphBuilder.
Section builder.
Context {S SubS SN SR SC : Type}.
Notation B := (SubgraphBuilder S SubS SN SR SC).

Definition new (name : string) : B := mkSubgraphBuilder name None None None.
Definition subgraph (g : CompiledGraph SubS SN SR SC) (b : B) : B :=
  mkSubgraphBuilder (sb_name b) (Some g) (sb_input_mapper b) (sb_output_mapper b).
Definition input_mapper (f : S -> SubS) (b : B) : B :=
  mkSubgraphBuilder (sb_name b) (sb_subgraph b) (Some f) (sb_output_mapper b).
Definition output_mapper (f : SubS -> S -> S) (b : B) : B :=
  mkSubgraphBuilder (sb_name b) (sb_subgraph b) (sb_input_mapper b) (Some f).

Definition build (b : B) : GraphResult (SubgraphNode S SubS SN SR SC) :=
  g ← ok_or (sb_subgraph b) (ValidationError "Subgraph not set");
  i ← ok_or (sb_input_mapper b) (ValidationError "Input mapper not set");
  o ← ok_or (sb_output_mapper b) (ValidationError "Output mapper not set");
  Ok (mkSubgraphNode (sb_name b) g i o).
End builder.
End SubgraphBuilder.

(** ** Graphs with nested graphs *)

(** The nodes of a parent: its own, and nested graphs over the world of theirs. *)
Inductive NestedNode (S SubS SN SR SC SX : Type) : Type :=
| Own (n : GraphNode S (Env SN SR SC SX))
| Nested (n : SubgraphNode S SubS SN SR SC).
Arguments Own {S SubS SN SR SC SX} _.
Arguments Nested {S SubS SN SR SC SX} _.

Section nested.
Context {S SubS SN SR SC SX C : Type} `{StateSchema SubS}.
Notation SE := (Env SN SR SC SX).
Notation Node := (NestedNode S SubS SN SR SC SX).
Context `{!GraphCode SubS SN SR SE}.

Global Instance nested_graph_code :
    GraphCode S Node (FunctionRouter S) (Env Node (FunctionRouter S) C SE) := {
  execute n s config :=
    match n with
    | Own n => act_zoom world set_world (GraphNode.execute n s config)
    | Nested n => act_zoom world set_world (SubgraphNode.execute n s config)
    end;
  node_name n := match n with Own n => GraphNode.name n | Nested n => SubgraphNode.name n end;
  route := FunctionRouter.route;
}.

Definition add_subgraph (name : string) (g : CompiledGraph SubS SN SR SC)
    (input_mapper : S -> SubS) (output_mapper : SubS -> S -> S)
    (b : StateGraph S Node (FunctionRouter S)) : StateGraph S Node (FunctionRouter S) :=
  let node := SubgraphNode.new name g input_mapper output_mapper in
  StateGraph.insert_node (SubgraphNode.name node) (Nested node) b.

Definition inject_subgraph (name : string) (g : CompiledGraph SubS SN SR SC)
    (input_mapper : S -> SubS) (output_mapper : SubS -> S -> S)
    : Act (Env Node (FunctionRouter S) C SE) GraphError () :=
  CompiledGraph.inject_node name (Nested (SubgraphNode.new name g input_mapper output_mapper)).
End nested.

Definition add_subgraph_same_state {S SN SR SC SX} (name : string) (g : CompiledGraph S SN SR SC)
    (b : StateGraph S (NestedNode S S SN SR SC SX) (FunctionRouter S))
    : StateGraph S (NestedNode S S SN SR SC SX) (FunctionRouter S) :=
  let node := SubgraphNode.same_state name g in
  StateGraph.insert_node (SubgraphNode.name node) (Nested node) b.

(** ** Properties *)

Section subgraph_facts.
Context {S SubS SN SR SC SX C : Type} `{StateSchema S} `{StateSchema SubS}.
Notation SE := (Env SN SR SC SX).
Notation Node := (NestedNode S SubS SN SR SC SX).
Notation E := (Env Node (FunctionRouter S) C SE).
Context `{!GraphCode SubS SN SR SE}.
Implicit Types n : SubgraphNode S SubS SN SR SC.

(** a nested run ends, and within the tighter of the caller's budget and the
    nested graph's limit: when nothing routes the nested graph to START, its node
    answers, the same for every fuel from [limit + 2] on, and an update it returns
    reports a step count of at most one more than the tighter limit (a fan-out at
    the limit counts twice) and never above the nested graph's own limit. *)
Theorem subgraph_bounded n (s : S) config (w : SE) :
  KeepsEnv (S := SubS) (start_free (N := SN) (R := SR) (C := SC) (X := SX)) ->
  no_start (edges (subgraph n)) -> start_free w ->
  let limit := recursion_limit (subgraph n) in
  let budget := match nc_recursion_limit config with 0 => limit | k => k `min` limit end in
  exists r w', SubgraphNode.execute n s (Some config) w = (r, w') /\
    (forall fuel, limit + 2 <= fuel ->
       SubgraphNode.execute_run fuel n s (Some config) w = Some (r, w')) /\
    forall u, r = Ok u -> exists k, k <= (budget + 1) `min` limit /\
      metadata u !! "subgraph_recursion" = Some (SubgraphNode.json_nat k).
Proof.
  intros Hk Hg Hw limit budget.
  pose proof (invoke_with_config_total (subgraph n) _ _ _ (loop_inv_start_free _ Hk Hg)
    (limit + 2) (input_mapper n s) config (fun m Hm => Hm)) as Htotal.
  specialize (Htotal ltac:(unfold virtual; destruct (decide (entry_point (subgraph n) = START)); auto)
    (Nat.le_refl _) w Hw).
  destruct (run_answer_unique (fun f => invoke_with_config f (subgraph n) (input_mapper n s) config)
    (limit + 2) w) as [[r w'] Hr].
  { intros f f'. apply invoke_with_config_mono. }
  { by destruct (invoke_with_config _ (subgraph n) (input_mapper n s) config w). }
  rewrite (Hr _ (Nat.le_refl _)) in Htotal.
  assert (exists r', (forall fuel, limit + 2 <= fuel ->
      SubgraphNode.execute_run fuel n s (Some config) w = Some (r', w')) /\
    forall u, r' = Ok u -> exists k, k <= (budget + 1) `min` limit /\
      metadata u !! "subgraph_recursion" = Some (SubgraphNode.json_nat k)) as (r' & Hr' & Hu).
  { unfold SubgraphNode.execute_run. cbn [default].
    destruct r as [inv|err].
    - eexists. split.
      + intros fuel Hf. by rewrite run_bind_step try_step Hr.
      + intros u [= <-]. exists (recursion_count inv). split; [|done]. apply Htotal.
    - destruct err; eexists; (split; [intros fuel Hf; by rewrite run_bind_step try_step Hr|done]). }
  exists r', w'. split_and!; [|done|done].
  unfold SubgraphNode.execute. by rewrite Hr'.
Qed.

(** a suspension inside a nested graph reaches the parent's caller as it is:
    when the nested run suspends, the parent's engine reports that same interrupt,
    with the payload stamped by the nested graph, saves no checkpoint of its own
    for it, and changes nothing outside the nested graph's state; any other
    failure of the nested run is an execution error naming the subgraph. *)
Theorem subgraph_suspension_passes (g : CompiledGraph S Node (FunctionRouter S) C) n name s c config
    (e : E) err w' :
  nodes g !! name = Some (Nested n) ->
  invoke_with_config (recursion_limit (subgraph n) + 2) (subgraph n) (input_mapper n s) config (world e) =
    Some (Err err, w') ->
  run_node g s name c config e =
    (Err match err with
         | DynamicInterrupt _ _ => err
         | _ => ExecutionError (SubgraphNode.failed_message n err)
         end, set_world w' e).
Proof.
  intros Hn Hrun. unfold run_node, CompiledGraph.get_node, mbind, act_bind. rewrite Hn.
  unfold try_act. cbn [execute nested_graph_code]. unfold act_zoom, SubgraphNode.execute.
  unfold SubgraphNode.execute_run. cbn [default].
  rewrite run_bind_step try_step Hrun. by destruct err.
Qed.
End subgraph_facts.
