(* ===== verification/Samples.v ===== *)
(** * Sample graphs

    Small agent graphs, built and compiled with the definitions of the library, at
    which the properties' hypotheses are shown to hold: a loop that stops when
    enough messages have accumulated, a fan-out with a join, a graph that asks a
    human, the same in a territory, two fan-outs in a row, and nested graphs.  The outside world is the log of the nodes that ran. *)

From stdpp Require Import gmap strings list pretty.
From S2P Require Import Prelude Json State Edge Checkpoint MemCheckpointer Decorators Node Graph.
From S2P Require Import Validate Builder Routing Merge Engine EngineFacts Safety Parallel Resume.
From S2P Require Import Transparency Subgraph.

Definition Log : Type := list string.
Definition SampleNode : Type := GraphNode AgentState Log.
Definition SampleRouter : Type := FunctionRouter AgentState.
Definition SampleEnv : Type := Env SampleNode SampleRouter (MemStore AgentState) Log.
Definition SampleGraph : Type := CompiledGraph AgentState SampleNode SampleRouter (MemStore AgentState).
Definition SampleBuilder : Type := StateGraph AgentState SampleNode SampleRouter.

Definition sample_env : SampleEnv := mkEnv ∅ [] ∅ [] mem_empty [].

(** A node that logs its name and says something. *)
Definition say (name text : string) : SampleNode :=
  AsyncNode name (fun s log =>
    (Ok (StateUpdate.full (AgentState.add_message s (MessageEntry.ai text))), log ++ [name])).

(** The same for graphs whose messages have an append reducer: the update holds the
    new message alone. *)
Definition tell (name text : string) : SampleNode :=
  AsyncNode name (fun s log =>
    (Ok (StateUpdate.full (mkAgentState (input s) [MessageEntry.ai text] (steps s) (output s))),
     log ++ [name])).

Definition add (n : SampleNode) : SampleBuilder -> SampleBuilder :=
  StateGraph.add_node (E := SampleEnv) n.

(** think -> (more: think | done: END) *)
Definition loop_builder : SampleBuilder :=
  StateGraph.set_conditional_router "enough"
    (FunctionRouter.new (fun s => if 3 <? length (messages s) then "done" else "more"))
  (StateGraph.add_conditional_edges "think" "enough"
    (<["more" := "think"]> {["done" := END]}) None
  (StateGraph.add_edge START "think"
  (add (say "think" "hmm") StateGraph.new))).

(** start -> {left, right} -> join -> END *)
Definition fan_builder : SampleBuilder :=
  StateGraph.set_reducer "messages" AppendMessagesReducer
  (StateGraph.add_edge "join" END
  (StateGraph.add_fan_in ["left"; "right"] "join"
  (StateGraph.add_fan_out "start" ["left"; "right"]
  (StateGraph.add_edge START "start"
  (add (tell "join" "j") (add (tell "right" "r") (add (tell "left" "l")
  (add (tell "start" "s") StateGraph.new)))))))).

Definition compiled (b : SampleBuilder) : SampleGraph :=
  match StateGraph.compile b with
  | Ok g => g
  | Err _ => CompiledGraph.new ∅ [] START ReplaceReducer []
  end.

Definition loop_graph : SampleGraph := compiled loop_builder.
Definition fan_graph : SampleGraph := compiled fan_builder.

Lemma loop_compiles : StateGraph.compile loop_builder = Ok loop_graph.
Proof. by vm_compute. Qed.
Lemma fan_compiles : StateGraph.compile fan_builder = Ok fan_graph.
Proof. by vm_compute. Qed.

Example loop_runs :
  (fun '(r, e) => (ok (recursion_count <$> r), world e)) <$>
    invoke 20 loop_graph (AgentState.new "q") sample_env =
  Some (Some 3, ["think"; "think"; "think"]).
Proof. by vm_compute. Qed.

Example fan_runs :
  (fun '(r, e) => (ok ((fun i => content <$> messages (final_state i)) <$> r), world e)) <$>
    invoke 20 fan_graph (AgentState.new "q") sample_env =
  Some (Some ["q"; "s"; "l"; "r"; "j"], ["start"; "left"; "right"; "join"]).
Proof. by vm_compute. Qed.

(** plan -> ask -> END, where [ask] suspends for a human until it is resumed. *)
Definition question : gmap string JsonValue := {["ask" := JString "continue?"]}.
Definition ask_node : SampleNode :=
  InterruptibleNode "ask" (fun s decision log =>
    match decision with
    | None => (Err (InterruptRequest (JObject question)), log ++ ["asked"])
    | Some (JString answer) =>
        (Ok (StateUpdate.full (AgentState.add_message s (MessageEntry.human answer))),
         log ++ ["answered"])
    | Some _ => (Err (ExecutionError "unreadable decision"), log)
    end).

Definition ask_builder : SampleBuilder :=
  StateGraph.add_edge "ask" END
  (StateGraph.add_edge "plan" "ask"
  (StateGraph.add_edge START "plan"
  (add ask_node (add (say "plan" "let me see") StateGraph.new)))).

Definition sample_store : Checkpointer AgentState (MemStore AgentState) :=
  MemoryCheckpointer demo_uuid demo_clock.
Definition ask_graph : SampleGraph :=
  @CompiledGraph.with_checkpointer _ _ _ _ (mem_clock demo_clock) sample_store
    (compiled ask_builder).

(** The run suspends at [ask]; resuming from the interrupt finishes it. *)
Definition ask_run := invoke 20 ask_graph (AgentState.new "q") sample_env.

Example ask_suspends :
  (fun '(r, e) => (r, world e)) <$> ask_run =
  Some (Err (DynamicInterrupt "ask" (JObject (<["__checkpoint_id" := JString "id-2"]> question))),
        ["plan"; "asked"]).
Proof. by vm_compute. Qed.

Example ask_resumes :
  (ask_run ≫= fun '(r, e) =>
     match r with
     | Err (DynamicInterrupt n payload) =>
         (fun '(r', e') => (ok ((fun i => (content <$> messages (final_state i), recursion_count i))
                              <$> r'), world e')) <$>
           resume_from_interrupt 20 ask_graph n payload (JString "yes") e
     | _ => None
     end) =
  Some (Some (["q"; "let me see"; "yes"], 2), ["plan"; "asked"; "answered"]).
Proof. by vm_compute. Qed.

(** ** The properties of the engine at the samples *)

(** The crate's nodes act on the world alone, so they keep anything said of the
    rest of the environment, and do not see the checkpoint store. *)
Lemma basic_code_keeps {S C X}
    (P : Env (GraphNode S X) (FunctionRouter S) C X -> Prop) :
  (forall x e, P e -> P (set_world x e)) -> KeepsEnv (S := S) P.
Proof.
  intros Hw. split.
  - intros n s config e He. cbn. unfold act_zoom.
    destruct (GraphNode.execute n s config (world e)). by apply Hw.
  - intros r s e He. by destruct r.
Qed.

Global Instance basic_code_start_free {S C X} :
  KeepsEnv (S := S) (start_free (N := GraphNode S X) (R := FunctionRouter S) (C := C) (X := X)).
Proof. by apply basic_code_keeps. Qed.
Global Instance basic_code_no_runtime {S C X} :
  KeepsEnv (S := S) (no_runtime_edges (N := GraphNode S X) (R := FunctionRouter S) (C := C) (X := X)).
Proof. by apply basic_code_keeps. Qed.
Global Instance basic_code_quiet {S C X} :
  KeepsEnv (S := S) (quiet (N := GraphNode S X) (R := FunctionRouter S) (C := C) (X := X)).
Proof. by apply basic_code_keeps. Qed.

Global Instance basic_code_blind {S C X} :
  StoreBlind (S := S) (N := GraphNode S X) (R := FunctionRouter S) (C := C) (X := X).
Proof.
  split.
  - intros n s config e1 e2 He. pose proof He as (?&?&?&?&Hw). cbn. unfold act_zoom. rewrite Hw.
    destruct (GraphNode.execute n s config (world e2)) as [r x]. by split; [apply same_result_refl|].
  - intros r s e1 e2 He. by destruct r.
Qed.

Lemma routing_progress_witness :
  find_next_node loop_graph "think" (AgentState.new "q") sample_env = (Ok "think", sample_env) /\
  Reach (edges loop_graph) (entry_point loop_graph) "think".
Proof.
  assert (validate loop_graph = Ok ()) as Hv by (by vm_compute).
  assert (Reach (edges loop_graph) (entry_point loop_graph) "think") as Hr
    by (apply (reach_entry (edges loop_graph) "think"); done).
  split; [|exact Hr].
  destruct (routing_progress loop_graph "think" (AgentState.new "q") sample_env Hv eq_refl
    ltac:(done) Hr eq_refl) as [(n & e' & E & _)|(r & ts & d & router & _ & _ & [H|H])].
  - rewrite E. by vm_compute in E.
  - destruct H as (err & e' & _ & E). by vm_compute in E.
  - destruct H as (key & e' & _ & _ & _ & E). by vm_compute in E.
Defined.

Lemma compile_ok_witness :
  WellFormed loop_graph /\ recursion_limit loop_graph = 25.
Proof.
  pose proof (compile_ok loop_builder loop_graph loop_compiles) as H.
  split; [apply H|reflexivity].
Defined.

Lemma invoke_terminates_witness :
  exists r e', forall fuel, 27 <= fuel ->
    invoke fuel loop_graph (AgentState.new "q") sample_env = Some (r, e').
Proof.
  destruct (invoke_terminates loop_graph (AgentState.new "q") NodeConfig.default sample_env)
    as (r & e' & H & _).
  - apply basic_code_start_free.
  - intros edge. change (edges loop_graph) with
      [Fixed START "think"; Conditional "think" "enough" (<["more" := "think"]> {["done" := END]}) None].
    rewrite !elem_of_cons. intros [->|[->|H%elem_of_nil]]; [|vm_compute|done]; set_solver.
  - intros edge H. by apply elem_of_nil in H.
  - exists r, e'. exact H.
Defined.

(** The graph suspends at [ask] from the state [plan] left, with two saves made. *)
Definition ask_state : AgentState :=
  AgentState.add_message (AgentState.new "q") (MessageEntry.ai "let me see").
Definition ask_env : SampleEnv :=
  set_world ["plan"]
    (set_store (mem_save demo_uuid demo_clock DEFAULT_THREAD ask_state 1
      (mem_save demo_uuid demo_clock DEFAULT_THREAD (AgentState.new "q") 0 mem_empty).2).2 sample_env).

Lemma ask_store_reachable : mem_reachable demo_uuid demo_clock (store ask_env).
Proof.
  eapply rtc_l; [apply (step_save _ _ _ DEFAULT_THREAD (AgentState.new "q") 0)|].
  eapply rtc_l; [apply (step_save _ _ _ DEFAULT_THREAD ask_state 1)|]. apply rtc_refl.
Qed.

Lemma ask_store_inv : mem_inv demo_uuid demo_clock (store ask_env).
Proof. exact (mem_reachable_inv demo_uuid demo_clock _ _ ask_store_reachable). Qed.

(** What [with_checkpointer] attached. *)
Definition ask_store : Checkpointer AgentState (MemStore AgentState) :=
  @RetainingCheckpointer.new _ _ (mem_clock demo_clock) sample_store CheckpointRetention.default.

Lemma interrupt_resume_exact_witness :
  exists id e2, let payload := JObject (<["__checkpoint_id" := JString id]> question) in
    run_node ask_graph ask_state "ask" 2 NodeConfig.default ask_env =
      (Err (DynamicInterrupt "ask" payload), e2) /\
    resume_from_interrupt 20 ask_graph "ask" payload (JString "yes") e2 =
      execution_loop 20 ask_graph "ask" true (Some (JString "yes")) "ask" ask_state [] 1 e2.
Proof.
  destruct (interrupt_resume_exact ask_graph ask_store eq_refl 20 ask_state "ask" 2
    NodeConfig.default ask_node question (JString "yes")
    ask_env (set_world ["plan"; "asked"] ask_env) ltac:(by vm_compute) ltac:(by vm_compute)
    ask_store_inv eq_refl)
    as (id & e2 & E & Hi2 & _ & Hresume).
  exists id, e2. split; [exact E|]. by apply Hresume.
Defined.

(** The conditions of [interrupt_resume_exact] on the payload and on the name.  A payload that is
    not an object cannot carry an id: when a second conversation has saved in between, the
    decision about the first one resumes the second. *)
Definition asks (name : string) (payload : JsonValue) : SampleNode :=
  InterruptibleNode name (fun s decision log =>
    match decision with
    | None => (Err (InterruptRequest payload), log ++ ["asked"])
    | Some _ => (Ok (StateUpdate.full (AgentState.add_message s (MessageEntry.human "yes"))), log ++ ["answered"])
    end).
Definition asking (name : string) (payload : JsonValue) : SampleGraph :=
  @CompiledGraph.with_checkpointer _ _ _ _ (mem_clock demo_clock) sample_store
    (compiled (StateGraph.add_edge "ask" END (StateGraph.add_edge name "ask" (StateGraph.add_edge START name
      (add (say "ask" "") (add (asks name payload) StateGraph.new)))))).
Definition after_run (run : option (result GraphError (GraphInvocation AgentState) * SampleEnv)) : SampleEnv :=
  match run with Some (_, e) => e | None => sample_env end.
Definition conversation (run : option (result GraphError (GraphInvocation AgentState) * SampleEnv)) : option (list string * Log) :=
  '(r, e) ← run; i ← ok r; Some (content <$> messages (final_state i), world e).

Example scalar_payload_resumes_other :
  let g := asking "check" (JString "sure?") in
  let first := after_run (invoke 20 g (AgentState.new "first") sample_env) in
  let second := after_run (invoke 20 g (AgentState.new "second") first) in
  fst <$> conversation (resume_from_interrupt 20 g "check" (JString "sure?") (JString "yes") second) = Some ["second"; "yes"; ""].
Proof. by vm_compute. Qed.

(** A node whose name starts with [after_] is taken for the end of another one, which is run
    instead; the decision is not used. *)
Example after_name_skipped :
  let g := asking "after_ask" (JObject question) in
  match invoke 20 g (AgentState.new "q") sample_env with
  | Some (Err (DynamicInterrupt node payload), e) =>
      conversation (resume_from_interrupt 20 g node payload (JString "yes") e) = Some (["q"; ""], ["asked"; "ask"])
  | _ => False
  end.
Proof. by vm_compute. Qed.

(** Forking back to the start of the run, with a different question. *)
Lemma fork_from_spec_witness :
  exists info c',
    fork_from 20 ask_graph "id-0" "plan" (Some (AgentState.new "other")) ask_env =
      from_node_loop 20 ask_graph "plan" (AgentState.new "other") [] 0 (set_store c' ask_env) /\
    ci_parent info = Some "id-0" /\ mem_view c' DEFAULT_THREAD ≡ₚ info :: mem_view (store ask_env) DEFAULT_THREAD.
Proof.
  pose proof (fork_from_spec ask_graph ask_store eq_refl 20 "id-0" "plan"
    (Some (AgentState.new "other")) ask_env ask_store_inv) as H.
  remember (find_id "id-0" _) as found eqn:Ef in H. vm_compute in Ef. subst found.
  destruct H as (info & c' & E & (_ & Hp & _) & Hpar & _).
  exists info, c'. split; [exact E|]. split; [exact Hpar|exact Hp].
Defined.

(** ** A run that is checked end to end *)

(** Whether a run answers, and with a result. *)
Definition succeeds {A} (run : option (result GraphError A * SampleEnv)) : bool :=
  match run with Some (Ok _, _) => true | _ => false end.

Lemma validated_run_safe_witness :
  exists inv e', invoke_with_config 27 fan_graph (AgentState.new "q") NodeConfig.default sample_env =
    Some (Ok inv, e') /\ recursion_count inv <= 25.
Proof.
  destruct (validated_run_safe fan_graph (AgentState.new "q") NodeConfig.default sample_env)
    as (r & e' & Hr & _ & Hrun).
  - apply basic_code_no_runtime.
  - by vm_compute.
  - done.
  - left. exists (tell "start" "s"). by vm_compute.
  - done.
  - specialize (Hr 27 ltac:(done)). destruct r as [inv|err].
    + exists inv, e'. split; [exact Hr|].
      etrans; [exact Hrun|]. etrans; [apply Nat.le_min_r|]. apply Nat.eq_le_incl. by vm_compute.
    + exfalso. apply (f_equal succeeds) in Hr. by vm_compute in Hr.
Defined.

(** [START] is free of nodes for a reason: a node that is registered under its name makes it a
    target like any other, and a run that is routed back to it takes no step and never ends. *)
Definition start_builder : SampleBuilder :=
  StateGraph.set_entry_point START
  (StateGraph.set_conditional_router "again" (FunctionRouter.new (fun _ => "more"))
  (StateGraph.add_conditional_edges START "again" {["done" := END]} (Some START)
  (add (say START "unheard") StateGraph.new))).
Definition start_graph : SampleGraph := compiled start_builder.

Lemma start_node_loops :
  StateGraph.compile start_builder = Ok start_graph /\ validate start_graph = Ok () /\
  forall fuel, invoke_with_config fuel start_graph (AgentState.new "q") NodeConfig.default sample_env = None.
Proof.
  split; [by vm_compute|]. split; [by vm_compute|]. intros fuel.
  assert (forall steps, invoke_loop fuel start_graph 25 NodeConfig.default START (AgentState.new "q") steps 0 sample_env = None) as H.
  { induction fuel as [|fuel IH]; intros steps; [done|].
    transitivity (invoke_loop fuel start_graph 25 NodeConfig.default START (AgentState.new "q") steps 0 sample_env); [reflexivity|apply IH]. }
  exact (H []).
Qed.

(** ** The other entry points *)

Definition fan_edges : list GraphEdge :=
  [Fixed START "start"; FanOut "start" ["left"; "right"]; FanIn ["left"; "right"] "join";
   Fixed "join" END].

(** After the join the run is at [join] or over. *)
Lemma fan_after_join n : AfterJoin fan_edges n -> n = "join" \/ n = END.
Proof.
  induction 1 as [ss t Hin|edge t Hin Hf _ IH Ht].
  - left. unfold fan_edges in Hin. rewrite !elem_of_cons in Hin. set_solver.
  - unfold fan_edges in Hin. rewrite !elem_of_cons elem_of_nil in Hin.
    destruct Hin as [->|[->|[->|[->|Hin]]]]; simpl in *; set_solver.
Qed.

Lemma fan_graph_one_fan_out : one_fan_out fan_graph.
Proof.
  intros s ts Hin Hj. change (edges fan_graph) with fan_edges in *.
  unfold fan_edges in Hin. rewrite !elem_of_cons elem_of_nil in Hin.
  destruct (fan_after_join s Hj) as [Hs|Hs]; naive_solver.
Qed.

Lemma parallel_is_invoke_witness :
  exists inv bs e', invoke 27 fan_graph (AgentState.new "q") sample_env = Some (Ok inv, e') /\
    invoke_parallel 27 fan_graph (AgentState.new "q") sample_env =
      Some (Ok (mkParallelInvocation (final_state inv) (inv_steps inv) (recursion_count inv) bs), e').
Proof.
  assert (succeeds (invoke 27 fan_graph (AgentState.new "q") sample_env) = true) as Hok
    by (by vm_compute).
  pose proof (parallel_is_invoke 27 fan_graph (AgentState.new "q") sample_env
    fan_graph_one_fan_out eq_refl) as H.
  destruct (invoke 27 fan_graph (AgentState.new "q") sample_env) as [[[inv|err] e']|]; [|discriminate Hok..].
  destruct H as (bs & H). exists inv, bs, e'. split; [exact eq_refl|exact H].
Defined.

Definition no_plan (_ : list DynamicTask) (_ : AgentState) : Act SampleEnv string (DynamicInjection SampleNode) :=
  mret (mkInjection [] []).

Lemma no_start_loop : no_start (edges loop_graph).
Proof.
  intros edge. change (edges loop_graph) with
    [Fixed START "think"; Conditional "think" "enough" (<["more" := "think"]> {["done" := END]}) None].
  rewrite !elem_of_cons. intros [->|[->|H%elem_of_nil]]; [|vm_compute|done]; set_solver.
Qed.

Lemma quiet_sample : quiet sample_env.
Proof. split; [done|]. intros edge H. by apply elem_of_nil in H. Qed.

Lemma dynamic_is_invoke_witness :
  invoke_dynamic no_plan 27 loop_graph (AgentState.new "q") sample_env =
  invoke 27 loop_graph (AgentState.new "q") sample_env.
Proof.
  apply (dynamic_is_invoke no_plan 27 loop_graph (AgentState.new "q") sample_env);
    [exact no_start_loop|exact eq_refl| |exact quiet_sample].
  intros Heq. vm_compute in Heq. discriminate Heq.
Defined.

(** A planner that makes a node and an edge of every task. *)
Definition plan_tasks (tasks : list DynamicTask) (_ : AgentState)
    : Act SampleEnv string (DynamicInjection SampleNode) :=
  mret (mkInjection ((fun t => (description t, say (description t) "planned")) <$> tasks)
          ((fun t => Fixed "think" (description t)) <$> tasks)).

Lemma submitted_tasks_planned_witness :
  exists e2, drain_inbox plan_tasks (AgentState.new "q")
      (CompiledGraph.submit_task false "t1" "search" sample_env).2 = (Ok (), e2) /\
    CompiledGraph.get_node loop_graph "search" e2 = (Ok (say "search" "planned"), e2).
Proof.
  destruct (submitted_tasks_planned plan_tasks loop_graph [("t1", "search")] (AgentState.new "q")
    sample_env ltac:(done)) as (e2 & E & _ & _ & _ & _ & Hget).
  exists e2. split; [exact E|].
  apply Hget; [exact eq_refl|apply NoDup_singleton|apply list_elem_of_here].
Defined.

(** ** Checkpointing, attached and detached *)

Lemma sample_always_saves : always_saves ask_graph.
Proof.
  intros cp s c st Hcp. change (Some ask_store = Some cp) in Hcp. injection Hcp as <-.
  unfold ask_store. rewrite retaining_save_plain. eexists _, _. reflexivity.
Qed.

Definition answered {A} (run : option A) : bool := match run with Some _ => true | None => false end.

Lemma checkpointing_transparent_witness :
  exists r1 e1 r2 e2,
    invoke_with_config 27 ask_graph (AgentState.new "q") NodeConfig.default sample_env = Some (r1, e1) /\
    invoke_with_config 27 (detached ask_graph) (AgentState.new "q") NodeConfig.default sample_env =
      Some (r2, e2) /\
    same_result same_invocation r1 r2 /\ e1 ≈ e2.
Proof.
  pose proof (checkpointing_transparent ask_graph sample_always_saves 27 (AgentState.new "q")
    NodeConfig.default sample_env) as H.
  destruct (invoke_with_config 27 ask_graph (AgentState.new "q") NodeConfig.default sample_env)
    as [[r1 e1]|] eqn:E1;
  destruct (invoke_with_config 27 (detached ask_graph) (AgentState.new "q") NodeConfig.default sample_env)
    as [[r2 e2]|] eqn:E2.
  - exists r1, e1, r2, e2. split; [exact eq_refl|]. split; [exact eq_refl|exact H].
  - destruct H.
  - destruct H.
  - exfalso. apply (f_equal answered) in E1. vm_compute in E1. discriminate E1.
Defined.

(** ** The same graph in a territory *)

Definition team_graph : SampleGraph :=
  @CompiledGraph.with_checkpointer _ _ _ _ (mem_clock demo_clock) sample_store
    (CompiledGraph.with_territory "team" (compiled ask_builder)).
Definition team_thread : string := TerritoryCheckpointer.ns_thread "team" DEFAULT_THREAD.
Definition team_env : SampleEnv :=
  set_store (mem_save demo_uuid demo_clock team_thread (AgentState.new "newer") 0
    (mem_save demo_uuid demo_clock team_thread ask_state 1 mem_empty).2).2 sample_env.

Lemma team_store_inv : mem_inv demo_uuid demo_clock (store team_env).
Proof.
  apply (mem_reachable_inv demo_uuid demo_clock _).
  eapply rtc_l; [apply (step_save _ _ _ team_thread ask_state 1)|].
  eapply rtc_l; [apply (step_save _ _ _ team_thread (AgentState.new "newer") 0)|]. apply rtc_refl.
Qed.

Definition stamped_question : JsonValue :=
  JObject (<["__checkpoint_id" := JString "id-0"]> question).

Lemma team_checkpoint_there :
  exists s, find_id "id-0" (mem_view (store team_env) team_thread) = Some s /\ ci_state s = ask_state.
Proof.
  exists (mkCheckpointInfo "id-0" 0 0 1 ask_state None). split; [by vm_compute|reflexivity].
Qed.

Lemma territory_resume_ignores_checkpoint_witness :
  resume_from_interrupt 27 team_graph "ask" stamped_question (JString "yes") team_env =
  resume_with_value 27 team_graph "ask" (JString "yes") team_env.
Proof.
  destruct team_checkpoint_there as (s & Hs & _).
  exact (territory_resume_ignores_checkpoint team_graph ask_store "team" eq_refl 27 "ask"
    stamped_question (JString "yes") "id-0" s team_env team_store_inv eq_refl Hs).
Defined.

(** What the resumed run answers from: the newer checkpoint, not the stamped one. *)
Example team_resumes_elsewhere :
  (fun '(r, _) => ok ((fun i => content <$> messages (final_state i)) <$> r)) <$>
    resume_from_interrupt 27 team_graph "ask" stamped_question (JString "yes") team_env =
  Some (Some ["newer"; "yes"]).
Proof. by vm_compute. Qed.

(** ** Two fan-outs in a row *)

Definition twice_builder : SampleBuilder :=
  StateGraph.set_reducer "messages" AppendMessagesReducer
  (StateGraph.add_edge "end" END
  (StateGraph.add_fan_in ["c"; "d"] "end"
  (StateGraph.add_fan_out "mid" ["c"; "d"]
  (StateGraph.add_fan_in ["a"; "b"] "mid"
  (StateGraph.add_fan_out "start" ["a"; "b"]
  (StateGraph.add_edge START "start"
  (add (tell "end" "e") (add (tell "d" "d") (add (tell "c" "c") (add (tell "mid" "m")
  (add (tell "b" "b") (add (tell "a" "a") (add (tell "start" "s") StateGraph.new))))))))))))).

Definition twice_graph : SampleGraph := compiled twice_builder.

(** [invoke] merges each fan-out once; [invoke_parallel] merges the branches of the
    first again at the second. *)
Example twice_invoked :
  (fun '(r, _) => ok ((fun i => content <$> messages (final_state i)) <$> r)) <$>
    invoke 27 twice_graph (AgentState.new "q") sample_env =
  Some (Some ["q"; "s"; "a"; "b"; "m"; "c"; "d"; "e"]).
Proof. by vm_compute. Qed.

Example twice_parallel_remerges :
  (fun '(r, _) => ok ((fun i => content <$> messages (par_final_state i)) <$> r)) <$>
    invoke_parallel 27 twice_graph (AgentState.new "q") sample_env =
  Some (Some ["q"; "s"; "a"; "b"; "m"; "q"; "s"; "a"; "q"; "s"; "b"; "q"; "s"; "a"; "b"; "m"; "c";
              "q"; "s"; "a"; "b"; "m"; "d"; "e"]).
Proof. by vm_compute. Qed.

(** ** Nested graphs *)

Definition NestNode : Type :=
  NestedNode AgentState AgentState SampleNode SampleRouter (MemStore AgentState) Log.
Definition NestEnv : Type := Env NestNode SampleRouter (MemStore AgentState) SampleEnv.
Definition NestGraph : Type := CompiledGraph AgentState NestNode SampleRouter (MemStore AgentState).
Definition nest_env : NestEnv := mkEnv ∅ [] ∅ [] mem_empty sample_env.

(** before -> sub -> END, with the given graph nested at [sub]. *)
Definition nest_builder (sub : SampleGraph) : StateGraph AgentState NestNode SampleRouter :=
  StateGraph.add_edge "sub" END
  (StateGraph.add_edge "before" "sub"
  (StateGraph.add_edge START "before"
  (add_subgraph_same_state "sub" sub
  (StateGraph.insert_node "before" (Own (SyncNode "before" (fun s =>
     Ok (StateUpdate.full (AgentState.add_message s (MessageEntry.ai "before")))))) StateGraph.new)))).

Definition nest_graph (sub : SampleGraph) : NestGraph :=
  match StateGraph.compile (nest_builder sub) with
  | Ok g => g
  | Err _ => CompiledGraph.new ∅ [] START ReplaceReducer []
  end.

Example nest_runs :
  (fun '(r, e) => (ok ((fun i => content <$> messages (final_state i)) <$> r), world (world e))) <$>
    invoke 27 (nest_graph fan_graph) (AgentState.new "q") nest_env =
  Some (Some ["q"; "before"; "s"; "l"; "r"; "j"], ["start"; "left"; "right"; "join"]).
Proof. by vm_compute. Qed.

Definition loop_node : SubgraphNode AgentState AgentState SampleNode SampleRouter (MemStore AgentState) :=
  SubgraphNode.same_state "sub" loop_graph.

Lemma subgraph_bounded_witness :
  exists r w', SubgraphNode.execute loop_node (AgentState.new "q")
      (Some (mkNodeConfig 7 ∅ false)) sample_env = (r, w') /\
    forall u, r = Ok u -> exists k, k <= 8 /\
      metadata u !! "subgraph_recursion" = Some (SubgraphNode.json_nat k).
Proof.
  destruct (subgraph_bounded loop_node (AgentState.new "q") (mkNodeConfig 7 ∅ false) sample_env
    basic_code_start_free no_start_loop (proj2 quiet_sample)) as (r & w' & E & _ & Hu).
  exists r, w'. split; [exact E|]. intros u Hr. destruct (Hu u Hr) as (k & Hk & Hm).
  exists k. split; [|exact Hm]. etrans; [exact Hk|]. apply Nat.leb_le. by vm_compute.
Defined.

(** The nested graph suspends; its own checkpointer stamps the payload. *)
Definition ask_nested : SubgraphNode AgentState AgentState SampleNode SampleRouter (MemStore AgentState) :=
  SubgraphNode.same_state "sub" ask_graph.
Definition ask_nested_run :=
  invoke_with_config (recursion_limit (subgraph ask_nested) + 2) (subgraph ask_nested)
    (input_mapper ask_nested (AgentState.new "q")) NodeConfig.default (world nest_env).
Definition nested_error : GraphError :=
  DynamicInterrupt "ask" (JObject (<["__checkpoint_id" := JString "id-2"]> question)).

Definition ask_parent : NestGraph :=
  CompiledGraph.new {["sub" := Nested ask_nested]} [Fixed START "sub"; Fixed "sub" END] "sub"
    ReplaceReducer [].

Lemma subgraph_suspension_passes_witness :
  exists w', run_node ask_parent (AgentState.new "q") "sub" 1 NodeConfig.default nest_env =
    (Err nested_error, set_world w' nest_env).
Proof.
  assert (option_map (fun p => p.1) ask_nested_run = Some (Err nested_error)) as Hrun
    by (by vm_compute).
  destruct ask_nested_run as [[r w']|] eqn:E; [|discriminate Hrun].
  injection Hrun as ->. unfold ask_nested_run in E. exists w'.
  exact (subgraph_suspension_passes ask_parent ask_nested "sub" (AgentState.new "q") 1
    NodeConfig.default nest_env nested_error w' (lookup_singleton_eq "sub" (Nested ask_nested)) E).
Defined.

(** The decision a resumed parent hands down is a resume value for every node of
    the nested graph: the second question is answered with the first decision,
    without suspending. *)
Definition confirm_node : SampleNode :=
  InterruptibleNode "confirm" (fun s decision log =>
    match decision with
    | None => (Err (InterruptRequest (JObject {["confirm" := JString "sure?"]})), log ++ ["unsure"])
    | Some _ => (Ok StateUpdate.unchanged, log ++ ["confirmed"])
    end).
Definition confirm_graph : SampleGraph :=
  compiled (StateGraph.add_edge "confirm" END
    (StateGraph.add_edge "ask" "confirm"
    (StateGraph.add_edge START "ask" (add confirm_node (add ask_node StateGraph.new))))).

Example one_decision_answers_all :
  (fun '(r, w) => (bool_decide (ok r = None), world w))
    (SubgraphNode.execute (SubgraphNode.same_state (S := AgentState) "sub" confirm_graph)
      (AgentState.new "q") (Some (mkNodeConfig 25 {[INTERRUPT_RESUME_KEY := JString "yes"]} false))
      sample_env) = (false, ["answered"; "confirmed"]).
Proof. by vm_compute. Qed.
