(* ===== verification/Persistence.v ===== *)
(** * Graph definitions: export, drawing and storage ([persistence.rs], [compiled/visualize.rs])

    A [GraphDefinition] is what a compiled graph can be without its closures: [to_definition]
    exports it, the derived serde encoding makes it JSON, and a [GraphPersistence] keeps it, in
    memory or in a directory (the disk of the file checkpointer).  serde_json's text of a JSON
    value, chrono's text of a time, the ids and the clock are parameters. *)

From stdpp Require Import gmap strings list pretty.
From Stdlib Require Import Ascii.
From S2P Require Import Prelude Json State Edge Checkpoint MemCheckpointer FileCheckpointer FileCheckpointerFacts FileSamples Graph Samples.

(** ** Definitions *)

Inductive PersistenceError : Type :=
| NotFound (id : string)
| SerializationError (msg : string)
| DeserializationError (msg : string)
| IoError (msg : string)
| InvalidDefinition (msg : string)
| MongoError (msg : string)
| ConnectionError (msg : string).

Definition persistence_error_to_string (e : PersistenceError) : string :=
  match e with
  | NotFound id => "Graph '" +:+ id +:+ "' not found"
  | SerializationError m => "Serialization error: " +:+ m
  | DeserializationError m => "Deserialization error: " +:+ m
  | IoError m => "IO error: " +:+ m
  | InvalidDefinition m => "Invalid graph definition: " +:+ m
  | MongoError m => "MongoDB error: " +:+ m
  | ConnectionError m => "Connection error: " +:+ m
  end.

Module NodeType.
Inductive t := Sync | Async | Subgraph | Custom.
Global Instance eq_dec : EqDecision t.
Proof. solve_decision. Defined.
End NodeType.

Record NodeDefinition := mkNodeDefinition {
  nd_name : string;
  nd_node_type : NodeType.t;
  nd_config : JsonValue;
}.
Global Instance NodeDefinition_eq_dec : EqDecision NodeDefinition.
Proof. solve_decision. Defined.

Module EdgeType.
Inductive t := Fixed | Conditional | FanOut | FanIn.
Global Instance eq_dec : EqDecision t.
Proof. solve_decision. Defined.
End EdgeType.

Record EdgeDefinition := mkEdgeDefinition {
  ed_edge_type : EdgeType.t;
  ed_source : string;
  ed_target : option string;
  ed_targets : option (list string);
  ed_router_name : option string;
  ed_conditional_targets : option (gmap string string);
  ed_default_target : option string;
  ed_sources : option (list string);
}.
Global Instance EdgeDefinition_eq_dec : EqDecision EdgeDefinition.
Proof. solve_decision. Defined.

Module EdgeDefinition.
Definition fixed (source target : string) : EdgeDefinition :=
  mkEdgeDefinition EdgeType.Fixed source (Some target) None None None None None.
Definition conditional (source router_name : string) (targets : gmap string string) (default_target : option string)
    : EdgeDefinition :=
  mkEdgeDefinition EdgeType.Conditional source None None (Some router_name) (Some targets) default_target None.
Definition fan_out (source : string) (targets : list string) : EdgeDefinition :=
  mkEdgeDefinition EdgeType.FanOut source None (Some targets) None None None None.
Definition fan_in (sources : list string) (target : string) : EdgeDefinition :=
  mkEdgeDefinition EdgeType.FanIn "__fan_in__" (Some target) None None None None (Some sources).
End EdgeDefinition.

Record RouterDefinition := mkRouterDefinition {
  rd_name : string;
  rd_router_type : string;
  rd_routes : list string;
  rd_config : JsonValue;
}.
Global Instance RouterDefinition_eq_dec : EqDecision RouterDefinition.
Proof. solve_decision. Defined.

Record GraphDefinition := mkGraphDefinition {
  gd_id : string;
  gd_name : option string;
  gd_entry_point : string;
  gd_nodes : list NodeDefinition;
  gd_edges : list EdgeDefinition;
  gd_routers : list RouterDefinition;
  gd_recursion_limit : nat;
  gd_created_at : Z;
  gd_updated_at : Z;
  gd_metadata : gmap string JsonValue;
}.
Global Instance GraphDefinition_eq_dec : EqDecision GraphDefinition.
Proof. solve_decision. Defined.

(** The calls to the clock and to [Uuid::new_v4] are numbered by a tick. *)
Section definitions.
Context (uuid : nat -> string) (clock : nat -> Z).

Definition definition_new (entry_point : string) (tick : nat) : GraphDefinition * nat :=
  let now := clock tick in
  (mkGraphDefinition (uuid (S tick)) None entry_point [] [] [] 25 now now ∅, S (S tick)).

Definition with_id (id : string) (d : GraphDefinition) : GraphDefinition :=
  mkGraphDefinition id (gd_name d) (gd_entry_point d) (gd_nodes d) (gd_edges d) (gd_routers d)
    (gd_recursion_limit d) (gd_created_at d) (gd_updated_at d) (gd_metadata d).
Definition with_name (name : string) (d : GraphDefinition) : GraphDefinition :=
  mkGraphDefinition (gd_id d) (Some name) (gd_entry_point d) (gd_nodes d) (gd_edges d) (gd_routers d)
    (gd_recursion_limit d) (gd_created_at d) (gd_updated_at d) (gd_metadata d).
Definition with_recursion_limit (limit : nat) (d : GraphDefinition) : GraphDefinition :=
  mkGraphDefinition (gd_id d) (gd_name d) (gd_entry_point d) (gd_nodes d) (gd_edges d) (gd_routers d)
    limit (gd_created_at d) (gd_updated_at d) (gd_metadata d).

Definition add_node (node : NodeDefinition) (d : GraphDefinition) (tick : nat) : GraphDefinition * nat :=
  (mkGraphDefinition (gd_id d) (gd_name d) (gd_entry_point d) (gd_nodes d ++ [node]) (gd_edges d) (gd_routers d)
    (gd_recursion_limit d) (gd_created_at d) (clock tick) (gd_metadata d), S tick).
Definition add_edge (edge : EdgeDefinition) (d : GraphDefinition) (tick : nat) : GraphDefinition * nat :=
  (mkGraphDefinition (gd_id d) (gd_name d) (gd_entry_point d) (gd_nodes d) (gd_edges d ++ [edge]) (gd_routers d)
    (gd_recursion_limit d) (gd_created_at d) (clock tick) (gd_metadata d), S tick).
Definition add_router (router : RouterDefinition) (d : GraphDefinition) (tick : nat) : GraphDefinition * nat :=
  (mkGraphDefinition (gd_id d) (gd_name d) (gd_entry_point d) (gd_nodes d) (gd_edges d) (gd_routers d ++ [router])
    (gd_recursion_limit d) (gd_created_at d) (clock tick) (gd_metadata d), S tick).

(** ** From a compiled graph *)

Context {St Nd Rt C : Type}.
Implicit Types g : CompiledGraph St Nd Rt C.

Definition edge_definition (edge : GraphEdge) : EdgeDefinition :=
  match edge with
  | Fixed source target => EdgeDefinition.fixed source target
  | Conditional source router_name targets default_target =>
      EdgeDefinition.conditional source router_name targets default_target
  | FanOut source targets => EdgeDefinition.fan_out source targets
  | FanIn sources target => EdgeDefinition.fan_in sources target
  end.

Definition to_definition g (tick : nat) : GraphDefinition * nat :=
  let '(definition, tick) := definition_new (entry_point g) tick in
  let definition := with_recursion_limit (recursion_limit g) definition in
  let '(definition, tick) :=
    foldl (fun '(d, t) node_name => add_node (mkNodeDefinition node_name NodeType.Sync (JObject ∅)) d t)
      (definition, tick) (CompiledGraph.node_names g) in
  foldl (fun '(d, t) edge => add_edge (edge_definition edge) d t) (definition, tick) (edges g).
End definitions.

(** ** Drawings *)

Module GraphFormat.
Inductive t := Ascii | Mermaid | Json.
End GraphFormat.

Section visualize.
Context {St Nd Rt C : Type} (json_to_string : JsonValue -> string).
Implicit Types g : CompiledGraph St Nd Rt C.

Definition router_names g : list string := (map_to_list (conditional_routers g)).*1.
Definition lines {A} (f : A -> string) (l : list A) : string := str_join "" (f <$> l).

Definition ascii_edge (edge : GraphEdge) : string :=
  match edge with
  | Fixed source target => "  " +:+ source +:+ " → " +:+ target +:+ newline
  | Conditional source router_name targets _ =>
      "  " +:+ source +:+ " → [" +:+ router_name +:+ "]" +:+ newline +:+
      lines (fun '(route, target) => "    " +:+ route +:+ " → " +:+ target +:+ newline) (map_to_list targets)
  | FanOut source targets =>
      "  " +:+ source +:+ " → [FanOut]" +:+ newline +:+
      lines (fun target => "    → " +:+ target +:+ newline) targets
  | FanIn sources target =>
      "  [FanIn] → " +:+ target +:+ newline +:+
      lines (fun source => "    " +:+ source +:+ " →" +:+ newline) sources
  end.

Definition visualize_ascii g : string :=
  "┌─────────────────────────────────────┐" +:+ newline +:+
  "│         LangGraph Structure         │" +:+ newline +:+
  "└─────────────────────────────────────┘" +:+ newline +:+ newline +:+
  "Entry Point: " +:+ entry_point g +:+ newline +:+ newline +:+
  "Nodes:" +:+ newline +:+
  lines (fun name => "  • " +:+ name +:+ newline) (CompiledGraph.node_names g) +:+
  newline +:+ "Edges:" +:+ newline +:+
  lines ascii_edge (edges g) +:+
  match router_names g with
  | [] => ""
  | names => newline +:+ "Routers:" +:+ newline +:+ lines (fun name => "  • " +:+ name +:+ newline) names
  end +:+
  newline +:+ "Recursion Limit: " +:+ pretty (recursion_limit g) +:+ newline.

Definition quote : string := String "034"%char EmptyString.

Definition mermaid_edge (edge : GraphEdge) : string :=
  match edge with
  | Fixed source target => "  " +:+ source +:+ " --> " +:+ target +:+ newline
  | Conditional source _ targets _ =>
      lines (fun '(route, target) => "  " +:+ source +:+ " -->|" +:+ route +:+ "| " +:+ target +:+ newline)
        (map_to_list targets)
  | FanOut source targets =>
      "  " +:+ source +:+ " --> {" +:+ newline +:+
      lines (fun target => "    --> " +:+ target +:+ newline) targets +:+
      "  }" +:+ newline
  | FanIn sources target => lines (fun source => "  " +:+ source +:+ " --> " +:+ target +:+ newline) sources
  end.

Definition mermaid_node (name label : string) : string :=
  "  " +:+ name +:+ "[" +:+ quote +:+ label +:+ quote +:+ "]" +:+ newline.

Definition visualize_mermaid g : string :=
  "```mermaid" +:+ newline +:+ "graph TD" +:+ newline +:+
  mermaid_node "START" "START" +:+ mermaid_node "END" "END" +:+
  lines (fun name => mermaid_node name name) (CompiledGraph.node_names g) +:+
  lines mermaid_edge (edges g) +:+
  "```" +:+ newline.

Definition json_object (fields : list (string * JsonValue)) : JsonValue := JObject (list_to_map fields).
Definition json_strings (l : list string) : JsonValue := JArray (JString <$> l).
Definition json_usize (n : nat) : JsonValue := JNumber (PosInt (N.of_nat n)).

Definition json_edge (edge : GraphEdge) : JsonValue :=
  match edge with
  | Fixed source target =>
      json_object [("type", JString "fixed"); ("source", JString source); ("target", JString target)]
  | Conditional source router_name targets default_target =>
      json_object [("type", JString "conditional"); ("source", JString source); ("router", JString router_name);
                   ("targets", JObject (JString <$> targets)); ("default", option_str_to_value default_target)]
  | FanOut source targets =>
      json_object [("type", JString "fanout"); ("source", JString source); ("targets", json_strings targets)]
  | FanIn sources target =>
      json_object [("type", JString "fanin"); ("sources", json_strings sources); ("target", JString target)]
  end.

Definition visualize_json g : JsonValue :=
  json_object [("entry_point", JString (entry_point g)); ("nodes", json_strings (CompiledGraph.node_names g));
               ("edges", JArray (json_edge <$> edges g)); ("routers", json_strings (router_names g));
               ("recursion_limit", json_usize (recursion_limit g))].

Definition visualize (format : GraphFormat.t) g : string :=
  match format with
  | GraphFormat.Ascii => visualize_ascii g
  | GraphFormat.Mermaid => visualize_mermaid g
  | GraphFormat.Json => json_to_string (visualize_json g)
  end.
End visualize.

(** ** The serde encoding *)

Section serde.
Context (rfc3339 : Z -> string) (parse_rfc3339 : string -> option Z).

Definition node_type_name (t : NodeType.t) : string :=
  match t with
  | NodeType.Sync => "Sync" | NodeType.Async => "Async" | NodeType.Subgraph => "Subgraph" | NodeType.Custom => "Custom"
  end.
Definition edge_type_name (t : EdgeType.t) : string :=
  match t with
  | EdgeType.Fixed => "Fixed" | EdgeType.Conditional => "Conditional" | EdgeType.FanOut => "FanOut" | EdgeType.FanIn => "FanIn"
  end.

Definition option_to_value {A} (f : A -> JsonValue) (o : option A) : JsonValue :=
  match o with Some x => f x | None => JNull end.

Definition node_to_value (n : NodeDefinition) : JsonValue :=
  json_object [("name", JString (nd_name n)); ("node_type", JString (node_type_name (nd_node_type n))); ("config", nd_config n)].
Definition edge_to_value (e : EdgeDefinition) : JsonValue :=
  json_object [("edge_type", JString (edge_type_name (ed_edge_type e))); ("source", JString (ed_source e));
    ("target", option_to_value JString (ed_target e)); ("targets", option_to_value json_strings (ed_targets e));
    ("router_name", option_to_value JString (ed_router_name e));
    ("conditional_targets", option_to_value (fun m => JObject (JString <$> m)) (ed_conditional_targets e));
    ("default_target", option_to_value JString (ed_default_target e)); ("sources", option_to_value json_strings (ed_sources e))].
Definition router_to_value (r : RouterDefinition) : JsonValue :=
  json_object [("name", JString (rd_name r)); ("router_type", JString (rd_router_type r));
    ("routes", json_strings (rd_routes r)); ("config", rd_config r)].
Definition definition_to_value (d : GraphDefinition) : JsonValue :=
  json_object [("id", JString (gd_id d)); ("name", option_to_value JString (gd_name d)); ("entry_point", JString (gd_entry_point d));
    ("nodes", JArray (node_to_value <$> gd_nodes d)); ("edges", JArray (edge_to_value <$> gd_edges d));
    ("routers", JArray (router_to_value <$> gd_routers d)); ("recursion_limit", json_usize (gd_recursion_limit d));
    ("created_at", JString (rfc3339 (gd_created_at d))); ("updated_at", JString (rfc3339 (gd_updated_at d)));
    ("metadata", JObject (gd_metadata d))].

Definition node_type_of (s : string) : option NodeType.t :=
  if s =ₛ "Sync" then Some NodeType.Sync else if s =ₛ "Async" then Some NodeType.Async
  else if s =ₛ "Subgraph" then Some NodeType.Subgraph else if s =ₛ "Custom" then Some NodeType.Custom else None.
Definition edge_type_of (s : string) : option EdgeType.t :=
  if s =ₛ "Fixed" then Some EdgeType.Fixed else if s =ₛ "Conditional" then Some EdgeType.Conditional
  else if s =ₛ "FanOut" then Some EdgeType.FanOut else if s =ₛ "FanIn" then Some EdgeType.FanIn else None.

(** A missing optional field and [null] are both [None]. *)
Definition option_of_value {A} (f : JsonValue -> option A) (v : option JsonValue) : option (option A) :=
  match v with None | Some JNull => Some None | Some v => Some <$> f v end.
Definition strings_of (v : JsonValue) : option (list string) := as_array v ≫= mapM as_str.
Definition string_map_of (v : JsonValue) : option (gmap string string) :=
  match v with
  | JObject m => if decide (map_Forall (fun (_ : string) x => is_Some (as_str x)) m) then Some (omap as_str m) else None
  | _ => None
  end.
(** [usize] is 64 bits wide. *)
Definition usize_of (v : JsonValue) : option nat :=
  match v with JNumber (PosInt n) => if (n <? 2 ^ 64)%N then Some (N.to_nat n) else None | _ => None end.

Definition node_of_value (v : JsonValue) : option NodeDefinition :=
  name ← json_get v "name" ≫= as_str; node_type ← (json_get v "node_type" ≫= as_str) ≫= node_type_of; config ← json_get v "config";
  Some (mkNodeDefinition name node_type config).
Definition edge_of_value (v : JsonValue) : option EdgeDefinition :=
  edge_type ← (json_get v "edge_type" ≫= as_str) ≫= edge_type_of; source ← json_get v "source" ≫= as_str;
  target ← option_of_value as_str (json_get v "target"); targets ← option_of_value strings_of (json_get v "targets");
  router_name ← option_of_value as_str (json_get v "router_name");
  conditional_targets ← option_of_value string_map_of (json_get v "conditional_targets");
  default_target ← option_of_value as_str (json_get v "default_target"); sources ← option_of_value strings_of (json_get v "sources");
  Some (mkEdgeDefinition edge_type source target targets router_name conditional_targets default_target sources).
Definition router_of_value (v : JsonValue) : option RouterDefinition :=
  name ← json_get v "name" ≫= as_str; router_type ← json_get v "router_type" ≫= as_str;
  routes ← json_get v "routes" ≫= strings_of; config ← json_get v "config";
  Some (mkRouterDefinition name router_type routes config).
Definition definition_of_value (v : JsonValue) : option GraphDefinition :=
  id ← json_get v "id" ≫= as_str; name ← option_of_value as_str (json_get v "name"); entry_point ← json_get v "entry_point" ≫= as_str;
  nodes ← (json_get v "nodes" ≫= as_array) ≫= mapM node_of_value; edges ← (json_get v "edges" ≫= as_array) ≫= mapM edge_of_value;
  routers ← (json_get v "routers" ≫= as_array) ≫= mapM router_of_value; limit ← json_get v "recursion_limit" ≫= usize_of;
  created_at ← (json_get v "created_at" ≫= as_str) ≫= parse_rfc3339; updated_at ← (json_get v "updated_at" ≫= as_str) ≫= parse_rfc3339;
  metadata ← json_get v "metadata" ≫= as_object;
  Some (mkGraphDefinition id name entry_point nodes edges routers limit created_at updated_at metadata).
End serde.

(** ** Storage *)

Record GraphPersistence (W : Type) := mkPersistence {
  gp_save : string -> GraphDefinition -> Act W PersistenceError ();
  gp_load : string -> Act W PersistenceError GraphDefinition;
  gp_delete : string -> Act W PersistenceError ();
  gp_exists : string -> Act W PersistenceError bool;
  gp_list : Act W PersistenceError (list string);
}.
Arguments mkPersistence {W} _ _ _ _ _.
Arguments gp_save {W} _ _ _.
Arguments gp_load {W} _ _.
Arguments gp_delete {W} _ _.
Arguments gp_exists {W} _ _.
Arguments gp_list {W} _.

Module MemoryPersistence.
Notation Graphs := (gmap string GraphDefinition).
Definition new : Graphs := ∅.

Definition save (id : string) (definition : GraphDefinition) : Act Graphs PersistenceError () := fun graphs =>
  (Ok (), <[id := definition]> graphs).
Definition load (id : string) : Act Graphs PersistenceError GraphDefinition := fun graphs =>
  (ok_or (graphs !! id) (NotFound id), graphs).
Definition delete (id : string) : Act Graphs PersistenceError () := fun graphs =>
  (ok_or ((fun _ => ()) <$> graphs !! id) (NotFound id), base.delete id graphs).
Definition exists_ (id : string) : Act Graphs PersistenceError bool := fun graphs =>
  (Ok (bool_decide (is_Some (graphs !! id))), graphs).
Definition list_ids : Act Graphs PersistenceError (list string) := fun graphs => (Ok (map_to_list graphs).*1, graphs).

Definition store : GraphPersistence Graphs := mkPersistence save load delete exists_ list_ids.
End MemoryPersistence.

Module FilePersistence.
Section file.
Context (rfc3339 : Z -> string) (parse_rfc3339 : string -> option Z).
(** [serde_json::to_string_pretty] and [from_str] on JSON values; [invalid] is the text of the
    error for JSON that is no graph definition. *)
Context (to_string_pretty : JsonValue -> result string string) (parse_json : string -> result string JsonValue).
Context (invalid : JsonValue -> string).
Context (io : N -> FileOp -> IoResult) (order : N -> list string -> list string).

(** [FilePersistence::new] on a directory that may not exist yet. *)
Definition new (directory : option (gmap string BaseEntry)) (dir_name : string) (io0 : N) : result PersistenceError FileStore :=
  match directory with
  | Some base => Ok (mkFileStore base 0 0 io0)
  | None =>
      match io io0 (OpMkdir BaseDir) with
      | IoFails e _ => Err (IoError ("Failed to create directory '" +:+ dir_name +:+ "': " +:+ e))
      | IoDone => Ok (mkFileStore ∅ 0 0 (io0 + 1))
      end
  end.

Definition graph_path (id : string) : result PersistenceError FilePath :=
  if str_contains ".." id || str_contains "/" id || str_contains "\" id then
    Err (InvalidDefinition ("Invalid graph id '" +:+ id +:+ "': path traversal detected"))
  else if starts_with "/" id then
    Err (InvalidDefinition ("Invalid graph id '" +:+ id +:+ "': absolute path not allowed"))
  else Ok (BaseDir, id +:+ ".json").

(** An I/O operation, with [IoError] for its error. *)
Definition io_act {A} (m : Act FileStore GraphError A) : Act FileStore PersistenceError A := fun fs =>
  let '(r, fs) := m fs in
  (map_err (fun e => IoError (match e with CheckpointError msg => msg | e => error_to_string e end)) r, fs).

(** [tokio::fs::write]: the file is created, then filled. *)
Definition write (path : FilePath) (json : string) : Act FileStore PersistenceError () :=
  io_act (write_op io (OpCreate path) "" path "") ;; io_act (write_op io (OpWrite path) "" path json).

Definition read (path : FilePath) : Act FileStore PersistenceError string :=
  io_act (read_op io (OpRead path) "" (fun base =>
    match entry path base with
    | Some (Some bytes) => Ok bytes
    | Some None => Err os_is_dir
    | None => Err os_not_found
    end)).

Definition save (id : string) (definition : GraphDefinition) : Act FileStore PersistenceError () :=
  path ← act_of_result (graph_path id);
  json ← act_of_result (map_err SerializationError (to_string_pretty (definition_to_value rfc3339 definition)));
  write path json.

Definition parse (json : string) : result PersistenceError GraphDefinition :=
  value ← map_err DeserializationError (parse_json json);
  ok_or (definition_of_value parse_rfc3339 value) (DeserializationError (invalid value)).

Definition exists_path (path : FilePath) : Act FileStore PersistenceError bool := fun fs =>
  (Ok (path_exists path (fc_base fs)), fs).

Definition load (id : string) : Act FileStore PersistenceError GraphDefinition :=
  path ← act_of_result (graph_path id);
  there ← exists_path path;
  if there : bool then
    json ← read path;
    act_of_result (parse json)
  else act_fail (NotFound id).

Definition delete (id : string) : Act FileStore PersistenceError () :=
  path ← act_of_result (graph_path id);
  there ← exists_path path;
  if there : bool then io_act (remove_file io "" path) else mret ().

Definition exists_ (id : string) : Act FileStore PersistenceError bool :=
  path ← act_of_result (graph_path id); exists_path path.

Fixpoint list_entries (names : list string) : Act FileStore PersistenceError (list string) :=
  io_act (read_op io (OpNextEntry BaseDir) "" (fun _ => Ok ())) ;;
  match names with
  | [] => mret []
  | name :: names' =>
      ids ← list_entries names';
      mret (match json_stem name with Some id => id :: ids | None => ids end)
  end.
Definition list_ids : Act FileStore PersistenceError (list string) :=
  names ← io_act (read_dir io order BaseDir ""); list_entries names.

Definition store : GraphPersistence FileStore := mkPersistence save load delete exists_ list_ids.
End file.
End FilePersistence.

(** ** Round trips *)

Section theory.
Context (uuid : nat -> string) (clock : nat -> Z).
Context (rfc3339 : Z -> string) (parse_rfc3339 : string -> option Z).
Hypothesis parse_printed : forall t, parse_rfc3339 (rfc3339 t) = Some t.
Context {St Nd Rt C : Type}.
Implicit Types g : CompiledGraph St Nd Rt C.

Lemma strings_roundtrip l : strings_of (json_strings l) = Some l.
Proof. unfold strings_of, json_strings. cbn. by apply mapM_roundtrip. Qed.
Lemma string_map_roundtrip (m : gmap string string) : string_map_of (JObject (JString <$> m)) = Some m.
Proof.
  unfold string_map_of. cbn. rewrite decide_True.
  - f_equal. apply map_eq. intros k. rewrite lookup_omap lookup_fmap. by destruct (m !! k).
  - intros k x. rewrite lookup_fmap. destruct (m !! k); naive_solver.
Qed.
Lemma usize_roundtrip n : (N.of_nat n < 2 ^ 64)%N -> usize_of (json_usize n) = Some n.
Proof. intros Hn. unfold usize_of, json_usize. apply N.ltb_lt in Hn as ->. by rewrite Nat2N.id. Qed.
Lemma option_roundtrip {A} (f : A -> JsonValue) (g : JsonValue -> option A) o :
  (forall x, g (f x) = Some x /\ f x <> JNull) -> option_of_value g (Some (option_to_value f o)) = Some o.
Proof. intros Hf. destruct o as [x|]; [|done]. cbn. destruct (Hf x) as [Hx Hn]. by destruct (f x); rewrite ?Hx. Qed.

Lemma node_roundtrip n : node_of_value (node_to_value n) = Some n.
Proof. by destruct n as [? [] ?]. Qed.
Lemma router_roundtrip r : router_of_value (router_to_value r) = Some r.
Proof.
  destruct r as [n t rs c]. unfold router_of_value.
  change (json_get (router_to_value _) "routes") with (Some (json_strings rs)).
  cbn [mbind option_bind]. by rewrite strings_roundtrip.
Qed.
Lemma edge_roundtrip e : edge_of_value (edge_to_value e) = Some e.
Proof.
  assert (forall l, strings_of (json_strings l) = Some l /\ json_strings l <> JNull) as Hl by (intros; by rewrite strings_roundtrip).
  assert (forall m : gmap string string, string_map_of (JObject (JString <$> m)) = Some m /\ JObject (JString <$> m) <> JNull) as Hm
    by (intros; by rewrite string_map_roundtrip).
  destruct e as [ty s t ts rn ct dt ss]. unfold edge_of_value.
  change (json_get (edge_to_value _) "target") with (Some (option_to_value JString t)).
  change (json_get (edge_to_value _) "targets") with (Some (option_to_value json_strings ts)).
  change (json_get (edge_to_value _) "router_name") with (Some (option_to_value JString rn)).
  change (json_get (edge_to_value _) "conditional_targets") with (Some (option_to_value (fun m : gmap string string => JObject (JString <$> m)) ct)).
  change (json_get (edge_to_value _) "default_target") with (Some (option_to_value JString dt)).
  change (json_get (edge_to_value _) "sources") with (Some (option_to_value json_strings ss)).
  rewrite !option_roundtrip //. by destruct ty.
Qed.

Lemma definition_roundtrip d : (N.of_nat (gd_recursion_limit d) < 2 ^ 64)%N ->
  definition_of_value parse_rfc3339 (definition_to_value rfc3339 d) = Some d.
Proof.
  intros Hn. destruct d as [id name entry ns es rs limit c u meta]. unfold definition_of_value.
  change (json_get (definition_to_value _ _) "name") with (Some (option_to_value JString name)).
  change (json_get (definition_to_value _ _) "id" ≫= as_str) with (Some id).
  change (json_get (definition_to_value _ _) "entry_point" ≫= as_str) with (Some entry).
  change (json_get (definition_to_value _ _) "created_at" ≫= as_str) with (Some (rfc3339 c)).
  change (json_get (definition_to_value _ _) "updated_at" ≫= as_str) with (Some (rfc3339 u)).
  change (json_get (definition_to_value _ _) "metadata" ≫= as_object) with (Some meta).
  change (json_get (definition_to_value _ _) "nodes" ≫= as_array) with (Some (node_to_value <$> ns)).
  change (json_get (definition_to_value _ _) "edges" ≫= as_array) with (Some (edge_to_value <$> es)).
  change (json_get (definition_to_value _ _) "routers" ≫= as_array) with (Some (router_to_value <$> rs)).
  change (json_get (definition_to_value _ _) "recursion_limit" ≫= usize_of) with (usize_of (json_usize limit)).
  rewrite option_roundtrip // usize_roundtrip //. cbn [mbind option_bind].
  rewrite (mapM_roundtrip _ _ _ node_roundtrip) (mapM_roundtrip _ _ _ edge_roundtrip) (mapM_roundtrip _ _ _ router_roundtrip).
  cbn [mbind option_bind]. rewrite !parse_printed. done.
Qed.

(** *** What an export keeps *)

Definition exported g (d : GraphDefinition) : Prop :=
  gd_entry_point d = entry_point g /\ nd_name <$> gd_nodes d = CompiledGraph.node_names g /\
  gd_edges d = edge_definition <$> edges g /\ gd_recursion_limit d = recursion_limit g /\
  gd_routers d = [] /\ Forall (fun n => nd_node_type n = NodeType.Sync) (gd_nodes d).

Lemma export_nodes names d t :
  let d' := (foldl (fun '(d, t) n => add_node clock (mkNodeDefinition n NodeType.Sync (JObject ∅)) d t) (d, t) names).1 in
  exists u, d' = mkGraphDefinition (gd_id d) (gd_name d) (gd_entry_point d)
    (gd_nodes d ++ ((fun n => mkNodeDefinition n NodeType.Sync (JObject ∅)) <$> names)) (gd_edges d) (gd_routers d)
    (gd_recursion_limit d) (gd_created_at d) u (gd_metadata d).
Proof.
  revert d t. induction names as [|n names IH]; intros d t; cbn.
  - exists (gd_updated_at d). rewrite app_nil_r. by destruct d.
  - destruct (IH (add_node clock (mkNodeDefinition n NodeType.Sync (JObject ∅)) d t).1 (S t)) as [u Hu].
    exists u. cbn in Hu. rewrite Hu -app_assoc. done.
Qed.
Lemma export_edges es d t :
  let d' := (foldl (fun '(d, t) e => add_edge clock (edge_definition e) d t) (d, t) es).1 in
  exists u, d' = mkGraphDefinition (gd_id d) (gd_name d) (gd_entry_point d) (gd_nodes d)
    (gd_edges d ++ (edge_definition <$> es)) (gd_routers d)
    (gd_recursion_limit d) (gd_created_at d) u (gd_metadata d).
Proof.
  revert d t. induction es as [|e es IH]; intros d t; cbn.
  - exists (gd_updated_at d). rewrite app_nil_r. by destruct d.
  - destruct (IH (add_edge clock (edge_definition e) d t).1 (S t)) as [u Hu].
    exists u. cbn in Hu. rewrite Hu -app_assoc. done.
Qed.

Lemma to_definition_exports g tick : exported g (to_definition uuid clock g tick).1.
Proof.
  unfold to_definition. cbn [definition_new].
  set (d0 := with_recursion_limit _ _). destruct (export_nodes (CompiledGraph.node_names g) d0 (S (S tick))) as [u Hu].
  destruct (foldl _ (d0, S (S tick)) _) as [d t]. cbn in Hu. subst d. unfold exported. cbv beta iota.
  set (d1 := mkGraphDefinition _ _ _ _ _ _ _ _ _ _). destruct (export_edges (edges g) d1 t) as [u' ->].
  cbn. split_and!; try done.
  - rewrite -list_fmap_compose. apply list_fmap_id.
  - by apply Forall_fmap, Forall_true.
Qed.

Global Instance edge_definition_inj : Inj (=) (=) edge_definition.
Proof.
  intros [] []; unfold edge_definition, EdgeDefinition.fixed, EdgeDefinition.conditional, EdgeDefinition.fan_out, EdgeDefinition.fan_in; congruence.
Qed.

(** Exporting a graph, printing it as JSON and reading it back gives a definition with the
    graph's entry point, nodes, edges and recursion limit, from which its edges can be told;
    routers are not exported, and every node is exported as synchronous. *)
Theorem export_roundtrip g tick : (N.of_nat (recursion_limit g) < 2 ^ 64)%N ->
  exists d, definition_of_value parse_rfc3339 (definition_to_value rfc3339 (to_definition uuid clock g tick).1) = Some d /\
    exported g d /\ forall es, gd_edges d = edge_definition <$> es -> es = edges g.
Proof.
  intros Hn. pose proof (to_definition_exports g tick) as Hx. exists (to_definition uuid clock g tick).1. split_and!; [|done|].
  - apply definition_roundtrip. by destruct Hx as (_ & _ & _ & -> & _).
  - intros es Hes. destruct Hx as (_ & _ & He & _). rewrite He in Hes. by apply (inj (fmap edge_definition)) in Hes.
Qed.

End theory.

(** ** What the JSON drawing shows *)

Section drawing.
Context {St Nd Rt C : Type}.
Implicit Types g : CompiledGraph St Nd Rt C.

Lemma keys_of_dom {A B} (m1 : gmap string A) (m2 : gmap string B) : dom m1 = dom m2 <-> (map_to_list m1).*1 = (map_to_list m2).*1.
Proof.
  split; intros H.
  - assert (((fun _ => ()) <$> m1) = ((fun _ => ()) <$> m2)) as E.
    { apply map_eq. intros k. rewrite !lookup_fmap.
      assert (is_Some (m1 !! k) <-> is_Some (m2 !! k)) as Hk by by rewrite -!elem_of_dom H.
      destruct (m1 !! k), (m2 !! k); cbn; [done|..|done].
      - destruct (proj1 Hk); [by eexists|done].
      - destruct (proj2 Hk); [by eexists|done]. }
    assert (forall X (m : gmap string X), (map_to_list m).*1 = (map_to_list ((fun _ => ()) <$> m)).*1) as Hm.
    { intros X m. by rewrite map_to_list_fmap -list_fmap_compose. }
    by rewrite (Hm _ m1) (Hm _ m2) E.
  - apply set_eq. intros k. rewrite !elem_of_dom.
    assert (forall X (m : gmap string X), is_Some (m !! k) <-> k ∈ (map_to_list m).*1) as Hm.
    { intros X m. rewrite list_elem_of_fmap. split.
      - intros [x Hx]. exists (k, x). by rewrite elem_of_map_to_list.
      - intros ([k' x] & -> & Hx%elem_of_map_to_list). by exists x. }
    by rewrite !Hm H.
Qed.

(** The edge that a drawing shows. *)
Definition shown_edge (v : JsonValue) : option GraphEdge :=
  let str k := json_get v k ≫= as_str in
  let strs k := json_get v k ≫= strings_of in
  match str "type" with
  | Some "fixed" => s ← str "source"; t ← str "target"; Some (Fixed s t)
  | Some "conditional" =>
      s ← str "source"; r ← str "router"; ts ← (json_get v "targets" ≫= string_map_of);
      d ← option_of_value as_str (json_get v "default"); Some (Conditional s r ts d)
  | Some "fanout" => s ← str "source"; ts ← strs "targets"; Some (FanOut s ts)
  | Some "fanin" => ss ← strs "sources"; t ← str "target"; Some (FanIn ss t)
  | _ => None
  end.

Lemma shown_json_edge e : shown_edge (json_edge e) = Some e.
Proof.
  destruct e as [s t|s r ts d|s ts|ss t]; [done| | |].
  - transitivity (ts' ← string_map_of (JObject (JString <$> ts)); d' ← option_of_value as_str (Some (option_to_value JString d)); Some (Conditional s r ts' d')).
    + done.
    + rewrite string_map_roundtrip. cbn [mbind option_bind]. by rewrite option_roundtrip.
  - transitivity (ts' ← strings_of (json_strings ts); Some (FanOut s ts')); [done|]. by rewrite strings_roundtrip.
  - transitivity (ss' ← strings_of (json_strings ss); Some (FanIn ss' t)); [done|]. by rewrite strings_roundtrip.
Qed.

(** Two graphs with the same entry point, nodes, edges, routers and limit. *)
Definition same_structure (g1 g2 : CompiledGraph St Nd Rt C) : Prop :=
  entry_point g1 = entry_point g2 /\ dom (nodes g1) = dom (nodes g2) /\ edges g1 = edges g2 /\
  dom (conditional_routers g1) = dom (conditional_routers g2) /\ recursion_limit g1 = recursion_limit g2.

(** The JSON drawing shows exactly the structure of a graph: two graphs are drawn alike if
    and only if they have the same entry point, nodes, edges, routers and recursion limit. *)
Theorem drawing_exact g1 g2 : visualize_json g1 = visualize_json g2 <-> same_structure g1 g2.
Proof.
  assert (forall g1 g2 : CompiledGraph St Nd Rt C, visualize_json g1 = visualize_json g2 <->
    entry_point g1 = entry_point g2 /\ CompiledGraph.node_names g1 = CompiledGraph.node_names g2 /\ edges g1 = edges g2 /\
    router_names g1 = router_names g2 /\ recursion_limit g1 = recursion_limit g2) as ->.
  2: { unfold same_structure, CompiledGraph.node_names, router_names. by rewrite -!keys_of_dom. }
  clear g1 g2. intros g1 g2. split; [|by unfold visualize_json; intros (-> & -> & -> & -> & ->)].
  intros H. assert (forall k, json_get (visualize_json g1) k = json_get (visualize_json g2) k) as Hk by by rewrite H. clear H.
  split_and!.
  - by injection (Hk "entry_point").
  - assert (Some (json_strings (CompiledGraph.node_names g1)) = Some (json_strings (CompiledGraph.node_names g2))) as E by exact (Hk "nodes").
    apply (f_equal (fun o => o ≫= strings_of)) in E. cbn [mbind option_bind] in E. rewrite !strings_roundtrip in E. by injection E.
  - assert (Some (JArray (json_edge <$> edges g1)) = Some (JArray (json_edge <$> edges g2))) as E by exact (Hk "edges").
    injection E as E. apply (f_equal (mapM shown_edge)) in E. rewrite !(mapM_roundtrip _ _ _ shown_json_edge) in E. by injection E.
  - assert (Some (json_strings (router_names g1)) = Some (json_strings (router_names g2))) as E by exact (Hk "routers").
    apply (f_equal (fun o => o ≫= strings_of)) in E. cbn [mbind option_bind] in E. rewrite !strings_roundtrip in E. by injection E.
  - assert (Some (json_usize (recursion_limit g1)) = Some (json_usize (recursion_limit g2))) as E by exact (Hk "recursion_limit").
    injection E. lia.
Qed.
End drawing.

(** ** The directory refines the map *)

Section refinement.
Context (rfc3339 : Z -> string) (parse_rfc3339 : string -> option Z).
Hypothesis parse_printed : forall t, parse_rfc3339 (rfc3339 t) = Some t.
Context (to_string_pretty : JsonValue -> result string string) (parse_json : string -> result string JsonValue).
Context (invalid : JsonValue -> string).
Context (io : N -> FileOp -> IoResult) (order : N -> list string -> list string).
Hypothesis io_quiet : forall n op, io n op = IoDone.
Hypothesis order_perm : forall n l, order n l ≡ₚ l.

Inductive GraphRequest :=
| GSave (id : string) (d : GraphDefinition)
| GLoad (id : string)
| GDelete (id : string)
| GExists (id : string)
| GList.

Inductive GraphAnswer :=
| GDone
| GDefinition (d : GraphDefinition)
| GBool (b : bool)
| GIds (ids : list string).

Definition serve_graph {W} (gp : GraphPersistence W) (r : GraphRequest) : Act W PersistenceError GraphAnswer :=
  match r with
  | GSave id d => gp_save gp id d ;; mret GDone
  | GLoad id => d ← gp_load gp id; mret (GDefinition d)
  | GDelete id => gp_delete gp id ;; mret GDone
  | GExists id => b ← gp_exists gp id; mret (GBool b)
  | GList => ids ← gp_list gp; mret (GIds ids)
  end.

Fixpoint graph_answers {W} (gp : GraphPersistence W) (rs : list GraphRequest) (w : W) : list (result PersistenceError GraphAnswer) :=
  match rs with
  | [] => []
  | r :: rs' => let '(a, w') := serve_graph gp r w in a :: graph_answers gp rs' w'
  end.

(** Ids that are taken and can be listed; definitions that serde_json round trips. *)
Definition plain_graph_id (id : string) : Prop := FilePersistence.graph_path id = Ok (BaseDir, id +:+ ".json") /\ id <> "".
Definition printable (d : GraphDefinition) : Prop := (N.of_nat (gd_recursion_limit d) < 2 ^ 64)%N /\
  exists json, to_string_pretty (definition_to_value rfc3339 d) = Ok json /\ parse_json json = Ok (definition_to_value rfc3339 d).
Definition plain_graph_request (r : GraphRequest) : Prop :=
  match r with
  | GSave id d => plain_graph_id id /\ printable d
  | GLoad id | GDelete id | GExists id => plain_graph_id id
  | GList => True
  end.

(** The answers are the same, up to the order of a listing; deleting what is not there is an
    error in memory only. *)
Definition agrees (r : GraphRequest) (file memory : result PersistenceError GraphAnswer) : Prop :=
  match r, memory with
  | GDelete _, Err (NotFound _) => file = Ok GDone
  | GList, Ok (GIds ids) => exists ids', file = Ok (GIds ids') /\ ids' ≡ₚ ids
  | _, _ => file = memory
  end.

Definition graph_file (d : GraphDefinition) : BaseEntry :=
  BFile (default "" (ok (to_string_pretty (definition_to_value rfc3339 d)))).
Definition json_name (id : string) : string := id +:+ ".json".
Global Instance json_name_inj : Inj (=) (=) json_name.
Proof. intros a b H. by apply string_app_inj_r in H as [? _]. Qed.

Definition directory (graphs : gmap string GraphDefinition) (fs : FileStore) : Prop :=
  fc_base fs = kmap json_name (graph_file <$> graphs) /\
  map_Forall (fun id d => id <> "" /\ printable d) graphs.

Lemma directory_lookup graphs fs id : directory graphs fs ->
  entry (BaseDir, json_name id) (fc_base fs) = (fun d => Some (default "" (ok (to_string_pretty (definition_to_value rfc3339 d))))) <$> graphs !! id.
Proof.
  intros [-> _]. unfold entry. cbn. rewrite lookup_fmap lookup_kmap lookup_fmap. by destruct (graphs !! id).
Qed.
Lemma directory_exists graphs fs id : directory graphs fs ->
  path_exists (BaseDir, json_name id) (fc_base fs) = bool_decide (is_Some (graphs !! id)).
Proof. intros Hd. unfold path_exists. rewrite (directory_lookup graphs) //. apply bool_decide_ext, fmap_is_Some. Qed.

Notation file_store := (FilePersistence.store rfc3339 parse_rfc3339 to_string_pretty parse_json invalid io order).
Notation file_acts m fs r graphs := (exists fs', m fs = (r, fs') /\ directory graphs fs').

Lemma io_read_op {A} op (run : gmap string BaseEntry -> result string A) fs a :
  run (fc_base fs) = Ok a ->
  FilePersistence.io_act (read_op io op "" run) fs = (Ok a, set_base (fc_base fs) fs).
Proof. intros Hr. unfold FilePersistence.io_act, read_op, disk_op. rewrite io_quiet Hr. done. Qed.

Lemma io_write graphs op id json fs : directory graphs fs \/ (exists m b, fc_base fs = <[json_name id := BFile b]> m) ->
  FilePersistence.io_act (write_op io op "" (BaseDir, json_name id) json) fs =
    (Ok (), set_base (<[json_name id := BFile json]> (fc_base fs)) fs).
Proof.
  intros Hf. unfold FilePersistence.io_act, write_op, disk_op. rewrite io_quiet. unfold can_put. cbn.
  rewrite lookup_fmap. destruct Hf as [[-> _]|(g & b & ->)]; [|by rewrite lookup_insert_eq].
  rewrite lookup_kmap lookup_fmap. by destruct (graphs !! id).
Qed.

Lemma save_in_directory graphs fs id d : directory graphs fs -> plain_graph_id id -> printable d ->
  file_acts (gp_save file_store id d) fs (Ok ()) (<[id := d]> graphs).
Proof.
  intros Hd [Hp Hid] Hpr. pose proof Hpr as (_ & json & Hj & _).
  cbn [gp_save FilePersistence.store]. unfold FilePersistence.save, FilePersistence.write, mbind, act_bind, act_of_result.
  rewrite Hp Hj. cbn [map_err]. fold (json_name id). rewrite (io_write graphs); [|by left]. rewrite (io_write graphs); [|right; by eexists _, _].
  eexists. split; [done|]. cbn. rewrite insert_insert_eq. destruct Hd as [Hb Hall]. split.
  - cbn. rewrite Hb fmap_insert kmap_insert. f_equal. unfold graph_file. by rewrite Hj.
  - by apply map_Forall_insert_2.
Qed.

Lemma load_in_directory graphs fs id : directory graphs fs -> plain_graph_id id ->
  file_acts (gp_load file_store id) fs (ok_or (graphs !! id) (NotFound id)) graphs.
Proof.
  intros Hd [Hp Hid]. cbn [gp_load FilePersistence.store]. unfold FilePersistence.load, FilePersistence.exists_path, mbind, act_bind, act_of_result.
  rewrite Hp. fold (json_name id). rewrite (directory_exists graphs) //. pose proof (directory_lookup _ _ id Hd) as He.
  destruct (graphs !! id) as [d|] eqn:E; [rewrite bool_decide_true //|by exists fs]. cbv beta iota. cbn [fmap option_fmap option_map] in He.
  destruct Hd as [Hb Hall]. destruct (Hall id d E) as (_ & Hlim & json & Hj & Hpj). unfold FilePersistence.read.
  rewrite (io_read_op _ _ _ json); [|by rewrite He Hj]. exists (set_base (fc_base fs) fs). split; [|by split].
  unfold FilePersistence.parse. rewrite Hpj. cbn [map_err mbind result_bind]. by rewrite definition_roundtrip.
Qed.

Lemma delete_in_directory graphs fs id : directory graphs fs -> plain_graph_id id ->
  file_acts (gp_delete file_store id) fs (Ok ()) (base.delete id graphs).
Proof.
  intros Hd [Hp Hid]. cbn [gp_delete FilePersistence.store]. unfold FilePersistence.delete, FilePersistence.exists_path, mbind, act_bind, act_of_result.
  rewrite Hp. fold (json_name id). rewrite (directory_exists graphs) //. pose proof (directory_lookup _ _ id Hd) as He.
  destruct (graphs !! id) as [d|] eqn:E; [rewrite bool_decide_true //|exists fs; by rewrite delete_id]. cbv beta iota. cbn [fmap option_fmap option_map] in He.
  unfold FilePersistence.io_act, remove_file, disk_op. rewrite io_quiet He. eexists. split; [done|].
  destruct Hd as [Hb Hall]. split; [|by apply map_Forall_delete]. cbn. by rewrite Hb fmap_delete kmap_delete.
Qed.

Lemma exists_in_directory graphs fs id : directory graphs fs -> plain_graph_id id ->
  file_acts (gp_exists file_store id) fs (Ok (bool_decide (is_Some (graphs !! id)))) graphs.
Proof.
  intros Hd [Hp Hid]. cbn [gp_exists FilePersistence.store]. unfold FilePersistence.exists_, FilePersistence.exists_path, mbind, act_bind, act_of_result.
  rewrite Hp. fold (json_name id). rewrite (directory_exists graphs) //. by exists fs.
Qed.

Lemma list_entries_quiet names fs : exists k, FilePersistence.list_entries io names fs = (Ok (omap json_stem names), mkFileStore (fc_base fs) (fc_next_seq fs) (fc_tick fs) k).
Proof.
  revert fs. induction names as [|n names IH]; intros fs; cbn [FilePersistence.list_entries]; unfold mbind, act_bind;
    rewrite (io_read_op _ _ _ ()) //; [by eexists|].
  destruct (IH (set_base (fc_base fs) fs)) as [k ->]. exists k. cbn. by destruct (json_stem n).
Qed.

Lemma io_read_dir fs :
  FilePersistence.io_act (read_dir io order BaseDir "") fs =
    (Ok (order (fc_io fs) (map_to_list (fc_base fs)).*1), set_base (fc_base fs) fs).
Proof.
  unfold FilePersistence.io_act, read_dir, read_op, disk_op. rewrite io_quiet. cbn.
  by rewrite map_to_list_fmap -list_fmap_compose.
Qed.

Lemma list_in_directory graphs fs : directory graphs fs ->
  exists ids, file_acts (gp_list file_store) fs (Ok ids) graphs /\ ids ≡ₚ (map_to_list graphs).*1.
Proof.
  intros Hd. pose proof Hd as [Hb Hall]. cbn [gp_list FilePersistence.store]. unfold FilePersistence.list_ids, mbind, act_bind.
  rewrite io_read_dir.
  destruct (list_entries_quiet (order (fc_io fs) (map_to_list (fc_base fs)).*1) (set_base (fc_base fs) fs)) as [k ->].
  eexists. split; [eexists; split; [done|by split]|].
  rewrite order_perm Hb map_to_list_kmap map_to_list_fmap -!list_fmap_compose.
  assert (forall l, Forall (fun p => p.1 <> "") l ->
    omap json_stem ((fst ∘ (prod_map json_name id ∘ prod_map id graph_file)) <$> l) = l.*1) as Hs.
  { induction 1 as [|[i d] l Hi _ IH]; [done|]. cbn. assert (json_stem (json_name i) = Some i) as -> by by apply json_stem_Some.
    by rewrite IH. }
  rewrite Hs //. apply Forall_forall. intros [i d] Hin%elem_of_map_to_list. by destruct (Hall i d Hin).
Qed.
Lemma request_in_directory r graphs fs : directory graphs fs -> plain_graph_request r ->
  exists fs', (serve_graph file_store r fs).2 = fs' /\ directory (serve_graph MemoryPersistence.store r graphs).2 fs' /\
    agrees r (serve_graph file_store r fs).1 (serve_graph MemoryPersistence.store r graphs).1.
Proof.
  intros Hd Hr. eexists. split; [done|]. destruct r as [id d|id|id|id|]; cbn [serve_graph]; unfold mbind, act_bind, mret, act_ret.
  - destruct Hr as [Hid Hpr]. destruct (save_in_directory graphs fs id d) as (fs' & -> & Hd'); [done..|]. by split.
  - destruct (load_in_directory graphs fs id) as (fs' & -> & Hd'); [done..|]. cbn. by destruct (graphs !! id).
  - destruct (delete_in_directory graphs fs id) as (fs' & -> & Hd'); [done..|]. cbn. by destruct (graphs !! id).
  - destruct (exists_in_directory graphs fs id) as (fs' & -> & Hd'); [done..|]. cbn. done.
  - destruct (list_in_directory graphs fs) as (ids & (fs' & -> & Hd') & Hp); [done|]. cbn. split; [done|]. by exists ids.
Qed.

(** C39: On a disk that works, opened empty, a directory of graph definitions answers every
    sequence of requests with listable ids as the in-memory store does, up to the order of a
    listing; deleting an id that is not there succeeds on disk and is an error in memory. *)
Theorem directory_refines_map rs fs : fc_base fs = ∅ -> Forall plain_graph_request rs ->
  Forall3 agrees rs (graph_answers file_store rs fs) (graph_answers MemoryPersistence.store rs MemoryPersistence.new).
Proof.
  intros Hb Hrs. assert (directory ∅ fs) as Hd.
  { split; [by rewrite Hb fmap_empty kmap_empty|apply map_Forall_empty]. }
  unfold MemoryPersistence.new. clear Hb. revert fs Hd. generalize (∅ : gmap string GraphDefinition) as graphs.
  induction Hrs as [|r rs Hr Hrs IH]; intros graphs fs Hd; [constructor|]. cbn [graph_answers].
  destruct (request_in_directory r graphs fs Hd Hr) as (fs' & E & Hd' & Ha).
  destruct (serve_graph file_store r fs) as [a fs1], (serve_graph MemoryPersistence.store r graphs) as [a' graphs1]. cbn in *. subst fs1.
  constructor; [done|by apply IH].
Qed.
End refinement.

(** ** At work *)

Definition demo_rfc3339 (t : Z) : string := bits_of (encode t).
Definition demo_parse_rfc3339 (s : string) : option Z := of_bits s ≫= decode.

Lemma demo_time_roundtrip t : demo_parse_rfc3339 (demo_rfc3339 t) = Some t.
Proof. unfold demo_parse_rfc3339, demo_rfc3339. rewrite of_bits_of. cbn -[decode encode]. apply decode_encode. Qed.

Lemma export_roundtrip_witness :
  (N.of_nat (recursion_limit fan_graph) < 2 ^ 64)%N /\
  exists d, definition_of_value demo_parse_rfc3339
      (definition_to_value demo_rfc3339 (to_definition demo_id two_calls fan_graph 0).1) = Some d /\
    exported fan_graph d /\ forall es, gd_edges d = edge_definition <$> es -> es = edges fan_graph.
Proof.
  assert (N.of_nat (recursion_limit fan_graph) < 2 ^ 64)%N as H by by vm_compute.
  exact (conj H (export_roundtrip demo_id two_calls _ _ demo_time_roundtrip fan_graph 0 H)).
Defined.

(** A printer that knows the definition [d], and no other. *)
Definition prints (d : GraphDefinition) (v : JsonValue) : result string string :=
  if decide (v = definition_to_value demo_rfc3339 d) then Ok "{ the definition }" else Err "number out of range".
Definition parses (d : GraphDefinition) (s : string) : result string JsonValue :=
  if s =ₛ "{ the definition }" then Ok (definition_to_value demo_rfc3339 d)
  else Err "EOF while parsing an object at line 1 column 1".

Lemma prints_printable d : (N.of_nat (gd_recursion_limit d) < 2 ^ 64)%N -> printable demo_rfc3339 (prints d) (parses d) d.
Proof. intros Hd. split; [done|]. exists "{ the definition }". unfold prints. by rewrite decide_True. Qed.

Definition pipeline : GraphDefinition := (to_definition demo_id two_calls fan_graph 0).1.
Definition demo_print : JsonValue -> result string string := prints pipeline.
Definition demo_parse : string -> result string JsonValue := parses pipeline.
Lemma pipeline_printable : printable demo_rfc3339 demo_print demo_parse pipeline.
Proof. apply prints_printable. by vm_compute. Qed.

Definition demo_directory (io : N -> FileOp -> IoResult) : GraphPersistence FileStore :=
  FilePersistence.store demo_rfc3339 demo_parse_rfc3339 demo_print demo_parse (fun _ => "missing field") io some_order.
Definition empty_directory : FileStore := mkFileStore ∅ 0 0 0.

Definition demo_requests : list GraphRequest :=
  [GSave "pipeline" pipeline; GLoad "pipeline"; GExists "draft"; GList; GDelete "draft"; GDelete "pipeline"; GLoad "pipeline"].

Lemma directory_refines_map_witness :
  fc_base empty_directory = ∅ /\ Forall (plain_graph_request demo_rfc3339 demo_print demo_parse) demo_requests /\
  Forall3 agrees demo_requests (graph_answers (demo_directory working) demo_requests empty_directory)
    (graph_answers MemoryPersistence.store demo_requests MemoryPersistence.new).
Proof.
  assert (Forall (plain_graph_request demo_rfc3339 demo_print demo_parse) demo_requests) as H.
  { assert (forall id, id = "pipeline" \/ id = "draft" -> plain_graph_id id) as Hid by by intros id [-> | ->].
    unfold demo_requests. rewrite !Forall_cons. split_and!; cbn [plain_graph_request]; auto using pipeline_printable, Forall_nil_2. }
  split_and!; [done|exact H|]. apply directory_refines_map; [exact demo_time_roundtrip|done|exact some_order_perm|done|exact H].
Defined.

(** A failed save of a graph that is stored leaves neither version behind. *)
Definition second_write_fails (n : N) (op : FileOp) : IoResult :=
  match op with OpWrite _ => if (n <? 2)%N then IoDone else IoFails "No space left on device (os error 28)" "{" | _ => IoDone end.
Example failed_save_tears :
  graph_answers (demo_directory second_write_fails) [GSave "pipeline" pipeline; GSave "pipeline" pipeline; GLoad "pipeline"] empty_directory =
  [Ok GDone; Err (IoError "No space left on device (os error 28)"); Err (DeserializationError "EOF while parsing an object at line 1 column 1")].
Proof. by vm_compute. Qed.

(** The empty id is stored and found, but not listed. *)
Example empty_id_unlisted :
  graph_answers (demo_directory working) [GSave "" pipeline; GExists ""; GList] empty_directory = [Ok GDone; Ok (GBool true); Ok (GIds [])].
Proof. by vm_compute. Qed.

(** An id with two dots in a row is refused, wherever they are. *)
Example dotted_id_refused :
  graph_answers (demo_directory working) [GSave "v1..v2" pipeline] empty_directory =
  [Err (InvalidDefinition "Invalid graph id 'v1..v2': path traversal detected")].
Proof. by vm_compute. Qed.

(** In a Mermaid drawing START and END stand apart from the graph: its edges name the
    sentinels, which are not declared. *)
Example mermaid_sentinels :
  visualize_mermaid ask_graph =
  "```mermaid
graph TD
" +:+ mermaid_node "START" "START" +:+ mermaid_node "END" "END" +:+ mermaid_node "ask" "ask" +:+ mermaid_node "plan" "plan" +:+
"  __start__ --> plan
  plan --> ask
  ask --> __end__
```
".
Proof. by vm_compute. Qed.

(** The default target of a conditional edge is not drawn. *)
Lemma default_not_drawn source router target :
  mermaid_edge (Conditional source router ∅ (Some target)) = "" /\
  ascii_edge (Conditional source router ∅ (Some target)) = ascii_edge (Conditional source router ∅ None).
Proof. done. Qed.
