(* ===== verification/Message.v ===== *)
(** * Chat messages ([crates/lc-schema/src/messages/message.rs])

    [Message] is the struct with all its fields; [Module Message] holds its
    constructors, builders and checks.  Attachments keep the fields of their
    structs ([image.rs], [audio.rs], [video.rs], [file.rs]), and [ToolCall] is
    [crates/lc-shared/src/tool_types.rs]. *)

From S2P Require Import Prelude Json.
From stdpp Require Import gmap strings list.
From Stdlib Require Import Ascii.

(** ** Data URIs *)

(** [str::contains] *)
Definition str_contains (needle s : string) : bool :=
  match String.index 0 needle s with Some _ => true | None => false end.

(** The first piece of [str::split] at the characters of [seps]. *)
Fixpoint first_piece (seps : list ascii) (s : string) : string :=
  match s with
  | EmptyString => EmptyString
  | String c s' => if existsb (Ascii.eqb c) seps then EmptyString else String c (first_piece seps s')
  end.

(** [base64_data] of every attachment *)
Definition base64_data_of (url : string) : option string :=
  match split_once ","%char url with
  | Some (prefix, data) => if str_contains "base64" prefix then Some data else None
  | None => None
  end.

Definition data_uri_mime (url : string) : option string :=
  rest ← Prelude.strip_prefix "data:" url;
  let mime := first_piece [";"; ","]%char rest in
  if mime =ₛ "" then None else Some mime.

(** [from_base64_with_mime] of every attachment *)
Definition data_uri (mime data : string) : string := "data:" +:+ mime +:+ ";base64," +:+ data.
Definition is_base64 (url : string) : bool := starts_with "data:" url.

(** ** Attachments *)

Record ImageContent := mkImageContent { img_url : string }.
Record AudioContent := mkAudioContent { aud_url : string }.
Record VideoContent := mkVideoContent { vid_url : string }.
Record FileContent := mkFileContent {
  file_url : string;
  file_mime_type : option string;
  file_name : option string;
}.

Global Instance ImageContent_eq_dec : EqDecision ImageContent.
Proof. solve_decision. Defined.
Global Instance AudioContent_eq_dec : EqDecision AudioContent.
Proof. solve_decision. Defined.
Global Instance VideoContent_eq_dec : EqDecision VideoContent.
Proof. solve_decision. Defined.
Global Instance FileContent_eq_dec : EqDecision FileContent.
Proof. solve_decision. Defined.

Definition image_from_base64 (data : string) : ImageContent := mkImageContent (data_uri "image/png" data).
Definition audio_from_base64 (data : string) : AudioContent := mkAudioContent (data_uri "audio/wav" data).
Definition video_from_base64 (data : string) : VideoContent := mkVideoContent (data_uri "video/mp4" data).

Module FileContent.
Definition from_url (url : string) : FileContent := mkFileContent url None None.
Definition from_base64 (data mime : string) : FileContent :=
  mkFileContent (data_uri mime data) (Some mime) None.
Definition from_url_with_mime (url mime : string) : FileContent := mkFileContent url (Some mime) None.
Definition with_name (name : string) (f : FileContent) : FileContent :=
  mkFileContent (file_url f) (file_mime_type f) (Some name).
End FileContent.

Inductive Modality : Type := ImageM | AudioM | VideoM | FileM.

Inductive MediaPart : Type :=
| MPImage (i : ImageContent)
| MPAudio (a : AudioContent)
| MPVideo (v : VideoContent)
| MPFile (f : FileContent).

(** [MediaPart::modality], [MediaPart::url], [MediaPart::name],
    [MediaPart::is_data_uri] *)
Definition modality (p : MediaPart) : Modality :=
  match p with MPImage _ => ImageM | MPAudio _ => AudioM | MPVideo _ => VideoM | MPFile _ => FileM end.

Definition part_url (p : MediaPart) : string :=
  match p with
  | MPImage m => img_url m
  | MPAudio m => aud_url m
  | MPVideo m => vid_url m
  | MPFile m => file_url m
  end.

Definition part_name (p : MediaPart) : option string :=
  match p with MPFile f => file_name f | _ => None end.

Definition is_data_uri (p : MediaPart) : bool := starts_with "data:" (part_url p).

Definition part_mime_type (p : MediaPart) : option string :=
  match p with
  | MPFile f =>
      match file_mime_type f with Some m => Some m | None => data_uri_mime (file_url f) end
  | _ => data_uri_mime (part_url p)
  end.

Definition part_base64_data (p : MediaPart) : option string := base64_data_of (part_url p).

(** [char::is_ascii_whitespace] *)
Definition is_ascii_whitespace (c : ascii) : bool :=
  existsb (Ascii.eqb c) [" "; "009"; "010"; "012"; "013"]%char.

Fixpoint str_filter (p : ascii -> bool) (s : string) : string :=
  match s with
  | EmptyString => EmptyString
  | String c s' => if p c then String c (str_filter p s') else str_filter p s'
  end.

(** [content_bytes], over the two decoders of the base64 crate. *)
Definition content_bytes (standard_no_pad url_safe_no_pad : string -> option string) (p : MediaPart)
    : option string :=
  b64 ← part_base64_data p;
  let clean := str_filter (fun c => negb (is_ascii_whitespace c) && negb (Ascii.eqb c "="%char)) b64 in
  match standard_no_pad clean with Some bytes => Some bytes | None => url_safe_no_pad clean end.

(** ** Tool calls *)

Record FunctionCall := mkFunctionCall { fc_name : string; fc_arguments : string }.

Record ToolCall := mkToolCall {
  tc_id : string;
  tc_tool_type : string;
  tc_server_executed : bool;
  tc_function : FunctionCall;
}.

Global Instance FunctionCall_eq_dec : EqDecision FunctionCall.
Proof. solve_decision. Defined.
Global Instance ToolCall_eq_dec : EqDecision ToolCall.
Proof. solve_decision. Defined.

(** [ToolCall::builder], a tool call in the making. *)
Module ToolCallBuilder.
Definition new (id : string) : ToolCall := mkToolCall id "function" false (mkFunctionCall "" "").
Definition name (n : string) (t : ToolCall) : ToolCall :=
  mkToolCall (tc_id t) (tc_tool_type t) (tc_server_executed t)
    (mkFunctionCall n (fc_arguments (tc_function t))).
Definition arguments (a : string) (t : ToolCall) : ToolCall :=
  mkToolCall (tc_id t) (tc_tool_type t) (tc_server_executed t)
    (mkFunctionCall (fc_name (tc_function t)) a).
Definition server_executed (b : bool) (t : ToolCall) : ToolCall :=
  mkToolCall (tc_id t) (tc_tool_type t) b (tc_function t).
End ToolCallBuilder.

Record ToolCallResult := mkToolCallResult {
  tcr_tool_call_id : string;
  tcr_role : string;
  tcr_content : string;
}.
Definition tool_call_result (tool_call_id content : string) : ToolCallResult :=
  mkToolCallResult tool_call_id "tool" content.

(** ** Messages *)

Inductive MessageType : Type :=
| System
| Human
| AI
| Tool (tool_call_id : string).

Global Instance MessageType_eq_dec : EqDecision MessageType.
Proof. solve_decision. Defined.

Record Message := mkMessage {
  content : string;
  images : list ImageContent;
  audio : list AudioContent;
  videos : list VideoContent;
  files : list FileContent;
  message_type : MessageType;
  msg_name : option string;
  additional_kwargs : gmap string JsonValue;
  msg_id : option string;
  tool_calls : option (list ToolCall);
}.

Global Instance Message_eq_dec : EqDecision Message.
Proof. solve_decision. Defined.

Inductive MessageError : Type :=
| MissingToolCallId
| EmptyToolCallId
| MissingFunctionName
| EmptyMessage.

Definition message_error_to_string (e : MessageError) : string :=
  match e with
  | MissingToolCallId => "tool message is missing its tool_call_id"
  | EmptyToolCallId => "ai message tool call has an empty id"
  | MissingFunctionName => "ai message tool call is missing its function name"
  | EmptyMessage => "message carries neither content, media, nor tool calls"
  end.

(** [dedup_tool_calls]: [filter(|c| seen.insert(c.id))] *)
Fixpoint dedup_from (seen : gset string) (calls : list ToolCall) : list ToolCall :=
  match calls with
  | [] => []
  | call :: calls' =>
      if bool_decide (tc_id call ∈ seen) then dedup_from seen calls'
      else call :: dedup_from ({[tc_id call]} ∪ seen) calls'
  end.
Definition dedup_tool_calls (calls : list ToolCall) : list ToolCall := dedup_from ∅ calls.

(** [extend_dedup] *)
Fixpoint extend_dedup (existing incoming : list ToolCall) : list ToolCall :=
  match incoming with
  | [] => existing
  | call :: incoming' =>
      if existsb (fun c => tc_id c =ₛ tc_id call) existing then extend_dedup existing incoming'
      else extend_dedup (existing ++ [call]) incoming'
  end.

Module Message.

Definition of_type (t : MessageType) (content : string) : Message :=
  mkMessage content [] [] [] [] t None ∅ None None.

Definition system : string -> Message := of_type System.
Definition human : string -> Message := of_type Human.
Definition ai : string -> Message := of_type AI.
Definition tool (tool_call_id content : string) : Message := of_type (Tool tool_call_id) content.

Definition ai_with_tool_calls (content : string) (calls : list ToolCall) : Message :=
  mkMessage content [] [] [] [] AI None ∅ None (Some (dedup_tool_calls calls)).

Definition with_name (n : string) (m : Message) : Message :=
  mkMessage (content m) (images m) (audio m) (videos m) (files m) (message_type m)
    (Some n) (additional_kwargs m) (msg_id m) (tool_calls m).

Definition with_id (i : string) (m : Message) : Message :=
  mkMessage (content m) (images m) (audio m) (videos m) (files m) (message_type m)
    (msg_name m) (additional_kwargs m) (Some i) (tool_calls m).

(** The message with other attachments. *)
Definition set_media (imgs : list ImageContent) (aus : list AudioContent) (vs : list VideoContent)
    (fs : list FileContent) (m : Message) : Message :=
  mkMessage (content m) imgs aus vs fs (message_type m) (msg_name m) (additional_kwargs m)
    (msg_id m) (tool_calls m).

Definition with_image (i : ImageContent) (m : Message) : Message :=
  set_media (images m ++ [i]) (audio m) (videos m) (files m) m.
Definition with_images (imgs : list ImageContent) (m : Message) : Message :=
  set_media (images m ++ imgs) (audio m) (videos m) (files m) m.
Definition with_audio (a : AudioContent) (m : Message) : Message :=
  set_media (images m) (audio m ++ [a]) (videos m) (files m) m.
Definition with_video (v : VideoContent) (m : Message) : Message :=
  set_media (images m) (audio m) (videos m ++ [v]) (files m) m.
Definition with_file (f : FileContent) (m : Message) : Message :=
  set_media (images m) (audio m) (videos m) (files m ++ [f]) m.
Definition clear_images (m : Message) : Message := set_media [] (audio m) (videos m) (files m) m.
Definition clear_media (m : Message) : Message := set_media [] [] [] [] m.

Definition human_with_image (content image_url : string) : Message :=
  with_image (mkImageContent image_url) (human content).
Definition human_with_images (content : string) (imgs : list ImageContent) : Message :=
  with_images imgs (human content).
Definition human_with_audio (content : string) (a : AudioContent) : Message :=
  with_audio a (human content).
Definition human_with_video (content : string) (v : VideoContent) : Message :=
  with_video v (human content).
Definition human_with_file (content : string) (f : FileContent) : Message :=
  with_file f (human content).

Definition has_images (m : Message) : bool := negb (bool_decide (images m = [])).
Definition has_audio (m : Message) : bool := negb (bool_decide (audio m = [])).
Definition has_videos (m : Message) : bool := negb (bool_decide (videos m = [])).
Definition has_files (m : Message) : bool := negb (bool_decide (files m = [])).
Definition is_multimodal (m : Message) : bool :=
  has_images m || has_audio m || has_videos m || has_files m.

Definition media_parts (m : Message) : list MediaPart :=
  (MPImage <$> images m) ++ (MPAudio <$> audio m) ++ (MPVideo <$> videos m) ++
  (MPFile <$> files m).

Definition extend_tool_calls (calls : list ToolCall) (m : Message) : Message :=
  mkMessage (content m) (images m) (audio m) (videos m) (files m) (message_type m)
    (msg_name m) (additional_kwargs m) (msg_id m)
    (Some (match tool_calls m with
           | Some existing => extend_dedup existing calls
           | None => dedup_tool_calls calls
           end)).

Definition type_str (m : Message) : string :=
  match message_type m with
  | System => "system"
  | Human => "human"
  | AI => "ai"
  | Tool tool_call_id => "tool:" +:+ tool_call_id
  end.

Definition has_tool_calls (m : Message) : bool :=
  match tool_calls m with Some calls => negb (bool_decide (calls = [])) | None => false end.

Definition tool_call_id (m : Message) : option string :=
  match message_type m with Tool id => Some id | _ => None end.

Definition is_system (m : Message) : bool := bool_decide (message_type m = System).
Definition is_human (m : Message) : bool := bool_decide (message_type m = Human).
Definition is_ai (m : Message) : bool := bool_decide (message_type m = AI).
Definition is_tool (m : Message) : bool := match message_type m with Tool _ => true | _ => false end.

(** The loop over an AI message's tool calls in [validate]. *)
Fixpoint check_calls (calls : list ToolCall) : result MessageError () :=
  match calls with
  | [] => Ok ()
  | call :: calls' =>
      if tc_id call =ₛ "" then Err EmptyToolCallId else
      if fc_name (tc_function call) =ₛ "" then Err MissingFunctionName else
      check_calls calls'
  end.

Definition validate (m : Message) : result MessageError () :=
  match message_type m with
  | Tool tool_call_id => reject_if (tool_call_id =ₛ "") MissingToolCallId
  | AI => check_calls (default [] (tool_calls m))
  | _ => Ok ()
  end ;;
  reject_if ((content m =ₛ "") && negb (is_multimodal m) &&
             bool_decide (default [] (tool_calls m) = [])) EmptyMessage.

End Message.

(** ** Facts *)

Lemma dedup_from_spec seen calls :
  NoDup (tc_id <$> dedup_from seen calls) /\
  (forall i, i ∈ tc_id <$> dedup_from seen calls <-> i ∈ tc_id <$> calls /\ i ∉ seen).
Proof.
  revert seen. induction calls as [|c calls IH]; intros seen; cbn [dedup_from].
  { split; [constructor|set_solver]. }
  destruct (IH seen) as [IHn IHe]. destruct (IH ({[tc_id c]} ∪ seen)) as [IHn' IHe'].
  case_bool_decide as Hc; (split; [|intros i]).
  - done.
  - rewrite IHe fmap_cons elem_of_cons. set_solver.
  - rewrite fmap_cons. constructor; [|done]. rewrite IHe'. set_solver.
  - rewrite !fmap_cons !elem_of_cons IHe'. destruct (decide (i = tc_id c)); set_solver.
Qed.

(** Deduplication keeps exactly the ids it was given, each once. *)
Lemma dedup_tool_calls_spec calls :
  NoDup (tc_id <$> dedup_tool_calls calls) /\
  (forall i, i ∈ tc_id <$> dedup_tool_calls calls <-> i ∈ tc_id <$> calls).
Proof.
  destruct (dedup_from_spec ∅ calls) as [Hn He]. split; [done|]. intros i.
  unfold dedup_tool_calls. rewrite He. set_solver.
Qed.

Lemma extend_dedup_nodup existing incoming :
  NoDup (tc_id <$> existing) -> NoDup (tc_id <$> extend_dedup existing incoming).
Proof.
  revert existing. induction incoming as [|c incoming IH]; intros existing Hn; simpl; [done|].
  destruct (existsb _ existing) eqn:Ec; [by apply IH|]. apply IH. rewrite fmap_app.
  apply NoDup_app. split; [done|]. split; [|by apply NoDup_singleton].
  intros i Hi ->%list_elem_of_singleton. apply list_elem_of_fmap in Hi as (c' & Hc' & Hin).
  assert (existsb (fun c0 => tc_id c0 =ₛ tc_id c) existing = true) as Ht; [|congruence].
  apply existsb_exists. exists c'. split; [by rewrite -list_elem_of_In|].
  by rewrite bool_decide_eq_true.
Qed.
