(* ===== verification/Memory.v ===== *)
(** * Conversation memory ([crates/lc-memory/src/base.rs], [buffer.rs], [window.rs])

    [BaseMemory M] is the trait object over a memory [M].  [BufferMemory] keeps the
    whole conversation, [WindowMemory] shows its last rounds; both keep it in a
    [ChatMessageHistory], the plain list of messages.  serde's conversions between
    messages and JSON values are parameters. *)

From S2P Require Import Prelude Json Message.
From stdpp Require Import gmap strings list.

Inductive MemoryError : Type :=
| LoadError (msg : string)
| SaveError (msg : string)
| ClearError (msg : string)
| OtherMemoryError (msg : string).

Definition memory_error_to_string (e : MemoryError) : string :=
  match e with
  | LoadError m => "Failed to load memory: " +:+ m
  | SaveError m => "Failed to save memory: " +:+ m
  | ClearError m => "Failed to clear memory: " +:+ m
  | OtherMemoryError m => "Memory error: " +:+ m
  end.

Record BaseMemory (M : Type) := mkBaseMemory {
  load_memory_variables : gmap string string -> M -> result MemoryError (gmap string JsonValue);
  save_context : gmap string string -> gmap string string -> Act M MemoryError ();
  memory_clear : Act M MemoryError ();
}.
Arguments mkBaseMemory {M} _ _ _.
Arguments load_memory_variables {M} _ _ _.
Arguments save_context {M} _ _ _ _.
Arguments memory_clear {M} _ _.

(** ** The message history *)

Definition ChatMessageHistory : Type := list Message.

Definition role_name (t : MessageType) : string :=
  match t with Human => "Human" | AI => "AI" | System => "System" | Tool _ => "Tool" end.

(** The [Display] of a history, and the same text for a window of it. *)
Definition history_to_string (l : list Message) : string :=
  str_join newline ((fun m => role_name (message_type m) +:+ ": " +:+ content m) <$> l).

Section memories.
Context (to_value : Message -> result string JsonValue).
Context (from_value : JsonValue -> option Message).

Definition strip_id (m : Message) : Message :=
  mkMessage (content m) (images m) (audio m) (videos m) (files m) (message_type m)
    (msg_name m) (additional_kwargs m) None (tool_calls m).

Definition serialize_message_to_prompt (m : Message) : result MemoryError JsonValue :=
  map_err (fun e => LoadError ("failed to serialize memory message: " +:+ e))
    (to_value (strip_id m)).

(** [iter().map(f).collect::<Result<Vec<_>, _>>()] *)
Fixpoint collect_results {E A B} (f : A -> result E B) (l : list A) : result E (list B) :=
  match l with
  | [] => Ok []
  | x :: l' => y ← f x; ys ← collect_results f l'; Ok (y :: ys)
  end.

(** ** Reading variables back as messages *)

Definition items_to_messages (items : list JsonValue) : list Message :=
  items ≫= fun item =>
    match from_value item with
    | Some msg => [msg]
    | None => match as_str item with Some s => [Message.system s] | None => [] end
    end.

Definition variable_messages (v : JsonValue) : list Message :=
  match v with
  | JArray items => items_to_messages items
  | JString s => [Message.system s]
  | _ => []
  end.

(** The variables in byte order of their names. *)
Definition memory_variables_to_messages (vars : gmap string JsonValue) : list Message :=
  sort_by String.leb (map_to_list vars).*1 ≫= fun key =>
    match vars !! key with Some value => variable_messages value | None => [] end.

(** ** Buffer memory *)

Record BufferMemory := mkBufferMemory {
  bm_chat_memory : ChatMessageHistory;
  bm_input_key : string;
  bm_output_key : string;
  bm_memory_key : string;
  bm_return_messages : bool;
}.

Definition buffer_new : BufferMemory := mkBufferMemory [] "input" "output" "history" false.

(** The [load_memory_variables] of both memories, over what they show. *)
Definition load_history (return_messages : bool) (memory_key : string) (shown : list Message)
    : result MemoryError (gmap string JsonValue) :=
  if return_messages then
    messages ← collect_results serialize_message_to_prompt shown;
    Ok {[ memory_key := JArray messages ]}
  else Ok {[ memory_key := JString (history_to_string shown) ]}.

Definition add_message (m : Message) : Act ChatMessageHistory MemoryError () :=
  fun history => (Ok (), history ++ [m]).

(** [inputs.get(key).ok_or_else(..)] for the input and the output. *)
Definition require_key (what key : string) (m : gmap string string)
    : Act ChatMessageHistory MemoryError string :=
  act_of_result (ok_or (m !! key) (SaveError ("Missing " +:+ what +:+ " key '" +:+ key +:+ "'"))).

(** Buffer memory checks both keys before it writes. *)
Definition buffer_record (input_key output_key : string) (inputs outputs : gmap string string)
    : Act ChatMessageHistory MemoryError () :=
  input ← require_key "input" input_key inputs;
  output ← require_key "output" output_key outputs;
  add_message (Message.human input) ;;
  add_message (Message.ai output).

(** Window memory writes the input before it checks the output. *)
Definition window_record (input_key output_key : string) (inputs outputs : gmap string string)
    : Act ChatMessageHistory MemoryError () :=
  input ← require_key "input" input_key inputs;
  add_message (Message.human input) ;;
  output ← require_key "output" output_key outputs;
  add_message (Message.ai output).

Definition set_buffer (h : ChatMessageHistory) (m : BufferMemory) : BufferMemory :=
  mkBufferMemory h (bm_input_key m) (bm_output_key m) (bm_memory_key m) (bm_return_messages m).

Definition buffer_load (inputs : gmap string string) (m : BufferMemory)
    : result MemoryError (gmap string JsonValue) :=
  load_history (bm_return_messages m) (bm_memory_key m) (bm_chat_memory m).

Definition buffer_save (inputs outputs : gmap string string) : Act BufferMemory MemoryError () :=
  fun m => act_zoom bm_chat_memory set_buffer
             (buffer_record (bm_input_key m) (bm_output_key m) inputs outputs) m.

Definition buffer_clear : Act BufferMemory MemoryError () := fun m => (Ok (), set_buffer [] m).

Definition ConversationBufferMemory : BaseMemory BufferMemory :=
  mkBaseMemory buffer_load buffer_save buffer_clear.

(** ** Window memory *)

Record WindowMemory := mkWindowMemory {
  wm_chat_memory : ChatMessageHistory;
  wm_k : nat;
  wm_input_key : string;
  wm_output_key : string;
  wm_memory_key : string;
  wm_return_messages : bool;
}.

Definition window_new (k : nat) : WindowMemory :=
  mkWindowMemory [] k "input" "output" "history" false.

Definition set_window (h : ChatMessageHistory) (m : WindowMemory) : WindowMemory :=
  mkWindowMemory h (wm_k m) (wm_input_key m) (wm_output_key m) (wm_memory_key m)
    (wm_return_messages m).

Definition human_at (messages : list Message) (i : nat) : bool :=
  match messages !! i with Some m => Message.is_human m | None => false end.

(** [Iterator::find] over a range of indices. *)
Definition find_index (p : nat -> bool) (l : list nat) : option nat :=
  head (filter (fun i => p i = true) l).

Definition get_window_messages (m : WindowMemory) : list Message :=
  let messages := wm_chat_memory m in
  let total := length messages in
  if total =? 0 then [] else
  let max_messages := wm_k m * 2 in
  if total <=? max_messages then messages else
  let ideal := total - max_messages in
  let cut :=
    match find_index (human_at messages) (seq ideal (total - ideal)) with
    | Some i => i
    | None =>
        match find_index (human_at messages) (reverse (seq 0 ideal)) with
        | Some i => i
        | None => ideal
        end
    end in
  drop cut messages.

Definition window_load (inputs : gmap string string) (m : WindowMemory)
    : result MemoryError (gmap string JsonValue) :=
  load_history (wm_return_messages m) (wm_memory_key m) (get_window_messages m).

Definition window_save (inputs outputs : gmap string string) : Act WindowMemory MemoryError () :=
  fun m => act_zoom wm_chat_memory set_window
             (window_record (wm_input_key m) (wm_output_key m) inputs outputs) m.

Definition window_clear : Act WindowMemory MemoryError () := fun m => (Ok (), set_window [] m).

Definition ConversationBufferWindowMemory : BaseMemory WindowMemory :=
  mkBaseMemory window_load window_save window_clear.

End memories.

(** ** Builders *)

Module BufferMemory.
Definition with_input_key (key : string) (m : BufferMemory) : BufferMemory :=
  mkBufferMemory (bm_chat_memory m) key (bm_output_key m) (bm_memory_key m) (bm_return_messages m).
Definition with_output_key (key : string) (m : BufferMemory) : BufferMemory :=
  mkBufferMemory (bm_chat_memory m) (bm_input_key m) key (bm_memory_key m) (bm_return_messages m).
Definition with_memory_key (key : string) (m : BufferMemory) : BufferMemory :=
  mkBufferMemory (bm_chat_memory m) (bm_input_key m) (bm_output_key m) key (bm_return_messages m).
Definition with_return_messages (b : bool) (m : BufferMemory) : BufferMemory :=
  mkBufferMemory (bm_chat_memory m) (bm_input_key m) (bm_output_key m) (bm_memory_key m) b.
Definition from_chat_memory (h : ChatMessageHistory) : BufferMemory :=
  mkBufferMemory h "input" "output" "history" false.
End BufferMemory.

Module WindowMemory.
Definition with_input_key (key : string) (m : WindowMemory) : WindowMemory :=
  mkWindowMemory (wm_chat_memory m) (wm_k m) key (wm_output_key m) (wm_memory_key m)
    (wm_return_messages m).
Definition with_output_key (key : string) (m : WindowMemory) : WindowMemory :=
  mkWindowMemory (wm_chat_memory m) (wm_k m) (wm_input_key m) key (wm_memory_key m)
    (wm_return_messages m).
Definition with_memory_key (key : string) (m : WindowMemory) : WindowMemory :=
  mkWindowMemory (wm_chat_memory m) (wm_k m) (wm_input_key m) (wm_output_key m) key
    (wm_return_messages m).
Definition with_return_messages (b : bool) (m : WindowMemory) : WindowMemory :=
  mkWindowMemory (wm_chat_memory m) (wm_k m) (wm_input_key m) (wm_output_key m) (wm_memory_key m) b.
Definition default_window : WindowMemory := window_new 5.
End WindowMemory.

(** ** The window *)

Lemma find_index_some p l i : find_index p l = Some i -> p i = true /\ i ∈ l.
Proof. unfold find_index. intros H%head_Some_elem_of. by apply list_elem_of_filter in H. Qed.

Lemma find_index_none p l : find_index p l = None -> forall i, i ∈ l -> p i = false.
Proof.
  unfold find_index. intros H i Hi. destruct (p i) eqn:Hp; [|done].
  assert (i ∈ filter (fun i => p i = true) l) as Hin by by apply list_elem_of_filter.
  by destruct (filter _ _); [apply elem_of_nil in Hin|].
Qed.

(** The window is a suffix of the history that opens on a human message whenever
    the history has one, and it stays within [2 * k] messages when one of them is
    human. *)
Lemma get_window_messages_spec m :
  let h := wm_chat_memory m in
  exists cut, get_window_messages m = drop cut h /\
    (wm_k m * 2 < length h ->
     ((exists i x, h !! i = Some x /\ Message.is_human x = true) ->
      exists x, h !! cut = Some x /\ Message.is_human x = true) /\
     ((exists i x, length h - wm_k m * 2 <= i /\ h !! i = Some x /\ Message.is_human x = true) ->
      length (get_window_messages m) <= wm_k m * 2)) /\
    (length h <= wm_k m * 2 -> get_window_messages m = h).
Proof.
  cbv zeta. unfold get_window_messages. generalize (wm_chat_memory m). unfold ChatMessageHistory. intros h.
  destruct (Nat.eqb_spec (length h) 0) as [Hz|Hz].
  { exists 0. apply length_zero_iff_nil in Hz. rewrite Hz. split; [done|]. cbn. split; [lia|]. done. }
  destruct (Nat.leb_spec (length h) (wm_k m * 2)) as [Hle|Hgt].
  { exists 0. split; [done|]. split; [lia|done]. }
  set (ideal := length h - wm_k m * 2).
  assert (forall i x, h !! i = Some x -> i < length h) as Hlt by (intros i x; apply lookup_lt_Some).
  destruct (find_index _ (seq ideal _)) as [c|] eqn:Hf.
  { exists c. split; [done|]. apply find_index_some in Hf as [Hh [Hc Hc']%elem_of_seq].
    split; [|lia]. intros _. unfold human_at in Hh. destruct (h !! c) as [x|] eqn:Hx; [|done].
    split; [by eauto|]. rewrite length_drop. lia. }
  assert (forall i x, ideal <= i -> h !! i = Some x -> Message.is_human x = false) as Hno.
  { intros i x Hi Hx. pose proof (find_index_none _ _ Hf i) as Hn. rewrite elem_of_seq in Hn.
    pose proof (Hlt _ _ Hx). unfold human_at in Hn. rewrite Hx in Hn. apply Hn. lia. }
  destruct (find_index _ (reverse _)) as [c|] eqn:Hg; eexists; (split; [done|]); (split; [|lia]);
    intros _; (split; [|intros (i & x & Hi & Hx & Hh); by rewrite (Hno i x) in Hh]).
  - intros _. apply find_index_some in Hg as [Hh _]. unfold human_at in Hh.
    destruct (h !! c) as [x|] eqn:Hx; [|done]. eauto.
  - intros (i & x & Hx & Hh). destruct (decide (ideal <= i)); [by rewrite (Hno i x) in Hh|].
    pose proof (find_index_none _ _ Hg i) as Hn. rewrite elem_of_reverse elem_of_seq in Hn.
    unfold human_at in Hn. rewrite Hx in Hn. rewrite Hn in Hh; [done|lia].
Qed.

(** ** Saving a turn *)

(** Saving a turn with both keys appends the user message and the reply, in
    either memory.  A failed save leaves a buffer memory as it was, but a window
    memory given an input without an output keeps the input: the half turn the
    buffer's comment says must not be recorded, under the contract that the built-in
    memories behave alike. *)
Theorem memory_save_context inputs outputs (b : BufferMemory) (w : WindowMemory) :
  (forall r b', buffer_save inputs outputs b = (r, b') ->
    match r with
    | Ok _ => exists i o, inputs !! bm_input_key b = Some i /\ outputs !! bm_output_key b = Some o /\
                b' = set_buffer (bm_chat_memory b ++ [Message.human i; Message.ai o]) b
    | Err _ => b' = b
    end) /\
  (forall r w', window_save inputs outputs w = (r, w') ->
    match r with
    | Ok _ => exists i o, inputs !! wm_input_key w = Some i /\ outputs !! wm_output_key w = Some o /\
                w' = set_window (wm_chat_memory w ++ [Message.human i; Message.ai o]) w
    | Err _ => match inputs !! wm_input_key w with
               | None => w' = w
               | Some i => outputs !! wm_output_key w = None /\
                           w' = set_window (wm_chat_memory w ++ [Message.human i]) w
               end
    end).
Proof.
  split.
  - intros r b'. unfold buffer_save, act_zoom, buffer_record, require_key, mbind, act_bind,
      act_of_result, add_message.
    destruct (inputs !! _) as [i|] eqn:Hi, (outputs !! _) as [o|] eqn:Ho; cbn;
      intros [= <- <-]; try by destruct b.
    exists i, o. by rewrite -app_assoc.
  - intros r w'. unfold window_save, act_zoom, window_record, require_key, mbind, act_bind,
      act_of_result, add_message.
    destruct (inputs !! _) as [i|] eqn:Hi, (outputs !! _) as [o|] eqn:Ho; cbn;
      intros [= <- <-]; cbn; try by destruct w.
    exists i, o. by rewrite -app_assoc.
Qed.
