(* ===== verification/Session.v ===== *)
(** * Session data ([crates/lc-sessions/src/session.rs], [store.rs], [events/model.rs])

    [Session] is the mutable-history session with its methods, [SessionError] the
    error type with its display strings, and [SessionEvent], [EventPayload] and
    [Turn] the immutable log entries of the event-sourced sessions.

    [u64] ids keep their width: [u64_add] is the addition of a release build, which
    wraps (a debug build panics there).  A [DateTime<Utc>] is its millisecond
    count, and [Utc::now()] is an argument. *)

From S2P Require Import Prelude Json Message.
From stdpp Require Import gmap strings list.

(** ** Machine width *)

Definition u64_max : N := 18446744073709551615.
Definition u64_add (a b : N) : N := ((a + b) mod 18446744073709551616)%N.

Lemma u64_add_small a b : (a + b <= u64_max)%N -> u64_add a b = (a + b)%N.
Proof. unfold u64_add, u64_max. intros. apply N.mod_small. lia. Qed.

Lemma u64_add_bound a b : (u64_add a b <= u64_max)%N.
Proof.
  unfold u64_add, u64_max. pose proof (N.mod_lt (a + b) 18446744073709551616 ltac:(done)). lia.
Qed.

(** ** Errors *)

Inductive SessionError : Type :=
| NotFound (id : string)
| StoreError (msg : string)
| Llm (msg : string)
| MemoryE (msg : string).

Global Instance SessionError_eq_dec : EqDecision SessionError.
Proof. solve_decision. Defined.

Notation SessionResult := (result SessionError).

Definition session_error_to_string (e : SessionError) : string :=
  match e with
  | NotFound id => "session not found: " +:+ id
  | StoreError msg => "session storage error: " +:+ msg
  | Llm msg => "LLM call error: " +:+ msg
  | MemoryE msg => "memory component error: " +:+ msg
  end.

(** ** The mutable session *)

Inductive SessionStatus : Type := Active | Archived | Deleted.

Global Instance SessionStatus_eq_dec : EqDecision SessionStatus.
Proof. solve_decision. Defined.

Record Session := mkSession {
  s_id : string;
  s_user_id : option string;
  s_messages : list Message;
  s_metadata : gmap string JsonValue;
  s_created_at : Z;
  s_updated_at : Z;
  s_status : SessionStatus;
}.

Module Session.

Definition new (now : Z) (id : string) : Session :=
  mkSession id None [] ∅ now now Active.

Definition with_user (user_id : string) (s : Session) : Session :=
  mkSession (s_id s) (Some user_id) (s_messages s) (s_metadata s) (s_created_at s)
    (s_updated_at s) (s_status s).

Definition set_messages (now : Z) (l : list Message) (s : Session) : Session :=
  mkSession (s_id s) (s_user_id s) l (s_metadata s) (s_created_at s) now (s_status s).

Definition add_message (now : Z) (m : Message) (s : Session) : Session :=
  set_messages now (s_messages s ++ [m]) s.

(** The last [n] messages; the slice start [len - n] is only taken when it fits. *)
Definition recent_messages (n : nat) (s : Session) : list Message :=
  let len := length (s_messages s) in
  if len <=? n then s_messages s else drop (len - n) (s_messages s).

Definition clear (now : Z) (s : Session) : Session := set_messages now [] s.

Definition set_status (now : Z) (st : SessionStatus) (s : Session) : Session :=
  mkSession (s_id s) (s_user_id s) (s_messages s) (s_metadata s) (s_created_at s) now st.

Definition archive (now : Z) (s : Session) : Session := set_status now Archived s.
Definition delete (now : Z) (s : Session) : Session := set_status now Deleted s.

End Session.

(** ** Session events *)

Inductive EventPayload : Type :=
| UserMessage (content : string)
| AssistantMessage (content : string)
| ToolCalled (tool : string) (tool_input : JsonValue) (call_id : string)
| ToolResult (call_id observation : string)
| ToolEdit (tool : string) (tool_input : JsonValue) (call_id superseded_call_id : string)
| ToolUndo (undo_call_id : string) (reason : option string)
| Snapshot (summary : string) (compacted_turns : N)
| Metadata (key : string) (value : JsonValue).

Global Instance EventPayload_eq_dec : EqDecision EventPayload.
Proof. solve_decision. Defined.

Record SessionEvent := mkSessionEvent {
  ev_id : N;
  ev_session_id : string;
  ev_turn_index : N;
  ev_ts : Z;
  ev_branch : string;
  ev_payload : EventPayload;
}.

Global Instance SessionEvent_eq_dec : EqDecision SessionEvent.
Proof. solve_decision. Defined.

(** [SessionEvent::now] *)
Definition event_now (clock : Z) (id : N) (session_id : string) (turn_index : N) (branch : string)
    (payload : EventPayload) : SessionEvent :=
  mkSessionEvent id session_id turn_index clock branch payload.

Record Turn := mkTurn { turn_index : N; turn_events : list SessionEvent }.

Global Instance Turn_eq_dec : EqDecision Turn.
Proof. solve_decision. Defined.

(** [Turn::user_message]: [find_map] over the events *)
Fixpoint find_user_message (l : list SessionEvent) : option string :=
  match l with
  | [] => None
  | e :: l' =>
      match ev_payload e with UserMessage c => Some c | _ => find_user_message l' end
  end.
Definition user_message (t : Turn) : option string := find_user_message (turn_events t).

Definition is_user_message (p : EventPayload) : bool :=
  match p with UserMessage _ => true | _ => false end.
Definition is_snapshot (p : EventPayload) : bool :=
  match p with Snapshot _ _ => true | _ => false end.

Definition set_branch (b : string) (e : SessionEvent) : SessionEvent :=
  mkSessionEvent (ev_id e) (ev_session_id e) (ev_turn_index e) (ev_ts e) b (ev_payload e).
