(* ===== verification/Replay.v ===== *)
(** * Replay ([crates/lc-sessions/src/events/replay.rs])

    [project] folds an event log into turns and chat messages, one [project_step]
    per event; [merge_projections] folds a replayed tail into a checkpointed
    projection; [compact_to_snapshot] and [compaction_prune_boundary] are the two
    halves of a compaction, [age_bounded_turns] its age-tightened budget, and
    [assert_no_orphan_tool_results] the pairing check.

    Strings are their UTF-8 bytes, so [str::len] and the truncation budgets are
    byte counts and [is_char_boundary] looks at the top bits of a byte.  chrono's
    conversion of a timestamp is a parameter. *)

From S2P Require Import Prelude Json Message Checkpoint Session.
From stdpp Require Import gmap strings list pretty.
From Stdlib Require Import Ascii.

Record ProjectedSession := mkProjectedSession {
  ps_session_id : string;
  ps_branch : string;
  ps_turns : list Turn;
  ps_messages : list Message;
  ps_last_id : N;
}.

Global Instance ProjectedSession_eq_dec : EqDecision ProjectedSession.
Proof. solve_decision. Defined.

(** ** Truncation at a character boundary *)

(** [str::is_char_boundary]: the start, the end, or a byte that does not continue
    a character ([(b as i8) >= -0x40]). *)
Definition is_char_boundary (s : string) (i : nat) : bool :=
  match i with
  | 0 => true
  | _ =>
      match String.get i s with
      | None => Nat.eqb i (String.length s)
      | Some b => let n := nat_of_ascii b in (n <? 128) || (192 <=? n)
      end
  end.

(** [while !s.is_char_boundary(end) { end -= 1 }] *)
Fixpoint boundary_below (s : string) (i : nat) : nat :=
  if is_char_boundary s i then i
  else match i with 0 => 0 | S i' => boundary_below s i' end.

Definition truncate (s : string) (max : nat) : string :=
  if String.length s <=? max then s
  else String.substring 0 (boundary_below s max) s.

Definition TOOL_OBSERVATION_PREVIEW_CHARS : nat := 120.

(** ** Projection *)

Definition tool_context_message (payload : EventPayload) : option Message :=
  match payload with
  | ToolCalled tool _ _ => Some (Message.system ("[tool call] " +:+ tool))
  | ToolResult _ observation =>
      Some (Message.system ("[tool result] " +:+ truncate observation TOOL_OBSERVATION_PREVIEW_CHARS))
  | ToolEdit tool _ _ superseded_call_id =>
      Some (Message.system ("[tool edit] " +:+ tool +:+ " (replaces " +:+ superseded_call_id +:+ ")"))
  | ToolUndo undo_call_id _ => Some (Message.system ("[tool undo] " +:+ undo_call_id))
  | _ => None
  end.

(** [turns.last_mut()], extended with more events *)
Fixpoint extend_last (evs : list SessionEvent) (turns : list Turn) : list Turn :=
  match turns with
  | [] => []
  | [t] => [mkTurn (turn_index t) (turn_events t ++ evs)]
  | t :: turns' => t :: extend_last evs turns'
  end.

(** The macro [current_turn!]: a turn of this index to receive the event. *)
Definition current_turn (idx : N) (turns : list Turn) : list Turn :=
  if bool_decide (turn_index <$> last turns = Some idx) then turns
  else turns ++ [mkTurn idx []].

Definition push_event (e : SessionEvent) (turns : list Turn) : list Turn :=
  extend_last [e] (current_turn (ev_turn_index e) turns).

Definition push_turn (e : SessionEvent) (turns : list Turn) : list Turn :=
  turns ++ [mkTurn (ev_turn_index e) [e]].

Definition with_turns (p : ProjectedSession) (last_id : N) (turns : list Turn)
    (msgs : list Message) : ProjectedSession :=
  mkProjectedSession (ps_session_id p) (ps_branch p) turns (ps_messages p ++ msgs) last_id.

(** One iteration of the loop of [project]. *)
Definition project_step (p : ProjectedSession) (e : SessionEvent) : ProjectedSession :=
  let p' := with_turns p (N.max (ps_last_id p) (ev_id e)) in
  match ev_payload e with
  | UserMessage content => p' (push_turn e (ps_turns p)) [Message.human content]
  | AssistantMessage content => p' (push_event e (ps_turns p)) [Message.ai content]
  | ToolCalled _ _ _ | ToolResult _ _ | ToolEdit _ _ _ _ | ToolUndo _ _ =>
      p' (push_event e (ps_turns p))
        (match tool_context_message (ev_payload e) with Some msg => [msg] | None => [] end)
  | Snapshot summary _ =>
      p' (push_turn e (ps_turns p)) [Message.system ("[context summary] " +:+ summary)]
  | Metadata _ _ => p' (push_event e (ps_turns p)) []
  end.

Definition project (events : list SessionEvent) : SessionResult ProjectedSession :=
  match events with
  | [] => Err (StoreError "cannot project an empty event list")
  | e :: _ =>
      Ok (foldl project_step
            (mkProjectedSession (ev_session_id e) (ev_branch e) [] [] 0) events)
  end.

(** ** Merging a replayed tail *)

Definition merge_turn (base : list Turn) (turn : Turn) : list Turn :=
  match last base with
  | Some t =>
      if bool_decide (turn_index t = turn_index turn) then extend_last (turn_events turn) base
      else base ++ [turn]
  | None => base ++ [turn]
  end.

Definition merge_projections (base tail : ProjectedSession) : ProjectedSession :=
  mkProjectedSession (ps_session_id base) (ps_branch base)
    (foldl merge_turn (ps_turns base) (ps_turns tail))
    (ps_messages base ++ ps_messages tail)
    (N.max (ps_last_id base) (ps_last_id tail)).

(** ** Compaction *)

Definition summary_line (e : SessionEvent) : string :=
  match ev_payload e with
  | UserMessage content => "user: " +:+ truncate content 120 +:+ newline
  | AssistantMessage content => "ai: " +:+ truncate content 120 +:+ newline
  | ToolCalled tool _ _ => "tool: " +:+ tool +:+ newline
  | ToolResult _ observation => "observation: " +:+ truncate observation 120 +:+ newline
  | Snapshot summary _ => "summary: " +:+ truncate summary 200 +:+ newline
  | _ => ""
  end.

Definition turn_piece (t : Turn) : string :=
  foldl (fun piece e => piece +:+ summary_line e) "" (turn_events t).

Definition summarize_turns (turns : list Turn) : string :=
  "[" +:+ pretty (length turns) +:+ " earlier turns]" +:+ newline +:+
  str_join ("---" +:+ newline)
    (filter (fun piece => piece <> "") (turn_piece <$> turns)).

Definition compact_to_snapshot (now : Z) (next_id : N) (events : list SessionEvent)
    (max_turns : nat) : SessionResult (option SessionEvent) :=
  projection ← project events;
  let total_turns := length (ps_turns projection) in
  if total_turns <=? max_turns then Ok None else
  let dropped := total_turns - max_turns in
  let summary := summarize_turns (take dropped (ps_turns projection)) in
  let turn_index := default 0%N (ev_turn_index <$> last events) in
  Ok (Some (event_now now next_id (ps_session_id projection) turn_index (ps_branch projection)
              (Snapshot summary (N.of_nat dropped)))).

Definition compaction_prune_boundary (events : list SessionEvent) (max_turns : nat)
    : SessionResult (option N) :=
  projection ← project events;
  let total := length (ps_turns projection) in
  if total <=? max_turns then Ok None else
  let dropped := total - max_turns in
  Ok (t ← ps_turns projection !! dropped; e ← head (turn_events t); Some (ev_id e)).

(** [Duration::as_millis] as an [i64], saturated. *)
Definition age_millis (max_age : N) : Z :=
  if (Z.of_N max_age <=? i64_max)%Z then Z.of_N max_age else i64_max.

Definition turn_recent (cutoff : Z) (t : Turn) : bool :=
  match last (turn_events t) with Some e => (cutoff <=? ev_ts e)%Z | None => true end.

Definition age_bounded_turns (turns : list Turn) (max_turns : nat) (max_age : N) (now_ms : Z)
    : nat :=
  let cutoff := saturating_sub_i64 now_ms (age_millis max_age) in
  let recent := length (filter (fun t => turn_recent cutoff t = true) turns) in
  Nat.max (Nat.min max_turns recent) 1.

(** ** The pairing check *)

Definition call_ids (t : Turn) : gset string :=
  list_to_set (omap (fun e => match ev_payload e with
                              | ToolCalled _ _ call_id => Some call_id
                              | _ => None
                              end) (turn_events t)).

Definition is_orphan (calls : gset string) (e : SessionEvent) : bool :=
  match ev_payload e with
  | ToolResult call_id _ => negb (bool_decide (call_id ∈ calls))
  | _ => false
  end.

Definition turn_orphans (t : Turn) : nat :=
  length (filter (fun e => is_orphan (call_ids t) e = true) (turn_events t)).

Definition assert_no_orphan_tool_results (events : list SessionEvent) : SessionResult nat :=
  p ← project events;
  Ok (foldl (fun n t => n + turn_orphans t) 0 (ps_turns p)).

(** ** Bridges to the mutable session *)

Section bridge.
Context (from_timestamp_millis : Z -> option Z).

(** [SessionEvent::datetime]: [unwrap_or_default] is the epoch. *)
Definition datetime (e : SessionEvent) : Z := default 0%Z (from_timestamp_millis (ev_ts e)).

(** The clock is read by [Session::new] and again for [updated_at]. *)
Definition to_session (now_new now : Z) (p : ProjectedSession) : Session :=
  let s := Session.set_messages now (ps_messages p) (Session.new now_new (ps_session_id p)) in
  if bool_decide (ps_messages p = []) then s else
  let created_at :=
    match t ← head (ps_turns p); head (turn_events t) with
    | Some e => datetime e
    | None => s_created_at s
    end in
  mkSession (s_id s) (s_user_id s) (s_messages s) (s_metadata s) created_at (s_updated_at s)
    (s_status s).

Definition replay_active_session (now_new now : Z) (events : list SessionEvent)
    : SessionResult Session :=
  p ← project events;
  let s := to_session now_new now p in
  Ok (mkSession (s_id s) (s_user_id s) (s_messages s) (s_metadata s) (s_created_at s)
        (s_updated_at s) Active).

End bridge.
