(* ===== verification/ReplayFacts.v ===== *)
(** * Facts about replay

    [projection] is the closed form of a replay: the turns are the fold of
    [turn_step], the messages the concatenation of the events' messages, the last
    id the largest id.  [project_ok] relates it to [project]; the lemmas on
    [turns_of] say how turns partition the log and that a suffix of the turns is
    the replay of its own events; [merge_turns_snoc] says what merging a tail does
    where replaying goes on. *)

From S2P Require Import Prelude Json Message Session Replay.
From stdpp Require Import gmap strings list.

Definition opens (e : SessionEvent) : bool :=
  is_user_message (ev_payload e) || is_snapshot (ev_payload e).

Definition event_messages (e : SessionEvent) : list Message :=
  match ev_payload e with
  | UserMessage content => [Message.human content]
  | AssistantMessage content => [Message.ai content]
  | Snapshot summary _ => [Message.system ("[context summary] " +:+ summary)]
  | p => match tool_context_message p with Some m => [m] | None => [] end
  end.

Definition turn_step (turns : list Turn) (e : SessionEvent) : list Turn :=
  if opens e then push_turn e turns else push_event e turns.

Definition turns_of (l : list SessionEvent) : list Turn := foldl turn_step [] l.
Definition messages_of (l : list SessionEvent) : list Message := l ≫= event_messages.
Definition max_id (l : list SessionEvent) : N := foldl (fun m e => N.max m (ev_id e)) 0%N l.
Definition events_of (ts : list Turn) : list SessionEvent := ts ≫= turn_events.

Definition projection (l : list SessionEvent) : option ProjectedSession :=
  e ← head l;
  Some (mkProjectedSession (ev_session_id e) (ev_branch e) (turns_of l) (messages_of l) (max_id l)).

(** ** The closed form of [project] *)

Lemma ok_bind {E A B} (a : A) (f : A -> result E B) : Ok a ≫= f = f a.
Proof. done. Qed.

Lemma project_step_eq p e :
  project_step p e =
  with_turns p (N.max (ps_last_id p) (ev_id e)) (turn_step (ps_turns p) e) (event_messages e).
Proof. unfold project_step, turn_step, opens, event_messages. by destruct (ev_payload e). Qed.

Lemma project_fold l p :
  foldl project_step p l =
  mkProjectedSession (ps_session_id p) (ps_branch p) (foldl turn_step (ps_turns p) l)
    (ps_messages p ++ messages_of l) (foldl (fun m e => N.max m (ev_id e)) (ps_last_id p) l).
Proof.
  revert p. induction l as [|e l IH]; intros [s b ts ms n]; cbn [foldl].
  - by rewrite app_nil_r.
  - rewrite IH project_step_eq. cbn. by rewrite -assoc.
Qed.

Lemma project_eq l :
  project l = ok_or (projection l) (StoreError "cannot project an empty event list").
Proof. destruct l as [|e l]; [done|]. unfold project. by rewrite project_fold. Qed.

Lemma project_ok l p : project l = Ok p <-> projection l = Some p.
Proof. rewrite project_eq. destruct (projection l); naive_solver. Qed.

Lemma project_nonempty l :
  l <> [] ->
  project l = Ok (mkProjectedSession (default "" (ev_session_id <$> head l))
                    (default "" (ev_branch <$> head l)) (turns_of l) (messages_of l) (max_id l)).
Proof. rewrite project_eq. by destruct l. Qed.

Lemma project_cons e l : exists p, project (e :: l) = Ok p.
Proof. rewrite project_eq. by eexists. Qed.

Lemma projection_inv l p :
  projection l = Some p ->
  ps_turns p = turns_of l /\ ps_messages p = messages_of l /\ ps_last_id p = max_id l /\
  ps_session_id <$> Some p = ev_session_id <$> head l /\
  ps_branch <$> Some p = ev_branch <$> head l /\ l <> [].
Proof. destruct l as [|e l]; [done|]. by intros [= <-]. Qed.

Lemma project_inv l p :
  project l = Ok p -> ps_turns p = turns_of l /\ ps_messages p = messages_of l /\
                      ps_last_id p = max_id l /\ l <> [].
Proof. intros (? & ? & ? & ? & ? & ?)%project_ok%projection_inv. done. Qed.

(** ** Extending the last turn *)

Lemma extend_last_snoc evs ts t :
  extend_last evs (ts ++ [t]) = ts ++ [mkTurn (turn_index t) (turn_events t ++ evs)].
Proof.
  induction ts as [|t' ts IH]; [done|]. simpl. rewrite -IH. by destruct ts.
Qed.

Lemma extend_last_length evs ts : length (extend_last evs ts) = length ts.
Proof.
  destruct ts as [|t ts _] using rev_ind; [done|].
  by rewrite extend_last_snoc !length_app.
Qed.

Lemma extend_last_index evs ts : turn_index <$> last (extend_last evs ts) = turn_index <$> last ts.
Proof.
  destruct ts as [|t ts _] using rev_ind; [done|]. by rewrite extend_last_snoc !last_snoc.
Qed.

Lemma extend_last_twice a b ts : extend_last b (extend_last a ts) = extend_last (a ++ b) ts.
Proof.
  destruct ts as [|t ts _] using rev_ind; [done|]. rewrite !extend_last_snoc /=. by rewrite assoc.
Qed.

Lemma extend_last_app evs ts1 ts2 :
  ts2 <> [] -> extend_last evs (ts1 ++ ts2) = ts1 ++ extend_last evs ts2.
Proof.
  destruct ts2 as [|t ts2 _] using rev_ind; [done|]. intros _.
  by rewrite assoc !extend_last_snoc -assoc.
Qed.

(** The event joins the last turn rather than starting one. *)
Definition joins (ts : list Turn) (e : SessionEvent) : bool :=
  negb (opens e) && bool_decide (turn_index <$> last ts = Some (ev_turn_index e)).

Lemma turn_step_eq ts e :
  turn_step ts e = if joins ts e then extend_last [e] ts else push_turn e ts.
Proof.
  unfold turn_step, joins, push_event, current_turn. destruct (opens e); simpl; [done|].
  case_bool_decide; [done|]. by rewrite extend_last_snoc.
Qed.

Lemma joins_not_nil ts e : joins ts e = true -> ts <> [].
Proof. intros Hj ->. unfold joins in Hj. by destruct (opens e). Qed.

Lemma joins_app ts1 ts2 e : ts2 <> [] -> joins (ts1 ++ ts2) e = joins ts2 e.
Proof.
  destruct ts2 as [|t ts2 _] using rev_ind; [done|]. intros _. unfold joins.
  by rewrite assoc !last_snoc.
Qed.

(** Steps happen at the end: what precedes the last turn is carried along. *)
Lemma turn_step_app ts1 ts2 e :
  ts2 <> [] -> turn_step (ts1 ++ ts2) e = ts1 ++ turn_step ts2 e.
Proof.
  intros Hne. rewrite !turn_step_eq joins_app //. destruct (joins ts2 e).
  - by apply extend_last_app.
  - by rewrite /push_turn assoc.
Qed.

Lemma turn_step_not_nil ts e : turn_step ts e <> [].
Proof.
  rewrite turn_step_eq. destruct (joins ts e) eqn:Hj.
  - apply joins_not_nil in Hj. intros E%(f_equal length). rewrite extend_last_length in E.
    by destruct ts.
  - unfold push_turn. by destruct ts.
Qed.

Lemma turn_step_last_index ts e :
  turn_index <$> last (turn_step ts e) = Some (ev_turn_index e).
Proof.
  rewrite turn_step_eq. destruct (joins ts e) eqn:Hj.
  - rewrite extend_last_index. unfold joins in Hj. destruct (opens e); [done|].
    simpl in Hj. by apply bool_decide_eq_true in Hj.
  - by rewrite /push_turn last_snoc.
Qed.

Lemma events_of_app ts1 ts2 : events_of (ts1 ++ ts2) = events_of ts1 ++ events_of ts2.
Proof. apply bind_app. Qed.

Lemma events_of_step ts e : events_of (turn_step ts e) = events_of ts ++ [e].
Proof.
  rewrite turn_step_eq. destruct (joins ts e) eqn:Hj.
  - apply joins_not_nil in Hj. destruct ts as [|t ts _] using rev_ind; [done|].
    rewrite extend_last_snoc !events_of_app. cbn. by rewrite !app_nil_r assoc.
  - by rewrite /push_turn events_of_app.
Qed.

(** ** Turns partition the log *)

Lemma turns_of_snoc l e : turns_of (l ++ [e]) = turn_step (turns_of l) e.
Proof. by rewrite /turns_of foldl_app. Qed.

Lemma turns_of_singleton e : turns_of [e] = [mkTurn (ev_turn_index e) [e]].
Proof. change (turn_step [] e = push_turn e []). rewrite turn_step_eq /joins. by destruct (opens e). Qed.

Lemma events_turns_of l : events_of (turns_of l) = l.
Proof.
  induction l as [|e l IH] using rev_ind; [done|]. by rewrite turns_of_snoc events_of_step IH.
Qed.

Lemma turns_of_nil l : turns_of l = [] <-> l = [].
Proof.
  destruct l as [|e l _] using rev_ind; [done|]. rewrite turns_of_snoc. split; intros E.
  - by apply turn_step_not_nil in E.
  - by destruct l.
Qed.

Lemma turns_of_last_index l :
  turn_index <$> last (turns_of l) = ev_turn_index <$> last l.
Proof.
  destruct l as [|e l _] using rev_ind; [done|].
  by rewrite turns_of_snoc turn_step_last_index last_snoc.
Qed.

(** A turn is not empty, has one index, and only its first event may open it. *)
Definition turn_ok (t : Turn) : Prop :=
  exists e es, turn_events t = e :: es /\
    Forall (fun e' => ev_turn_index e' = turn_index t) (e :: es) /\
    Forall (fun e' => opens e' = false) es.

Lemma turns_of_ok l : Forall turn_ok (turns_of l).
Proof.
  induction l as [|e l IH] using rev_ind; [constructor|]. rewrite turns_of_snoc turn_step_eq.
  destruct (joins (turns_of l) e) eqn:Hj.
  - pose proof (joins_not_nil _ _ Hj) as Hne. revert IH Hj Hne. generalize (turns_of l). intros ts.
    destruct ts as [|t ts _] using rev_ind; [done|]. rewrite extend_last_snoc !Forall_app.
    intros [Hts Ht] Hj _. split; [done|]. rewrite Forall_singleton in Ht.
    destruct Ht as (e0 & es & Hev & Hidx & Hop). unfold joins in Hj. rewrite last_snoc /= in Hj.
    destruct (opens e) eqn:Ho; [done|]. apply bool_decide_eq_true in Hj. injection Hj as Hj.
    rewrite Forall_singleton. exists e0, (es ++ [e]). rewrite Hev. split; [done|]. cbn.
    rewrite app_comm_cons !Forall_app. rewrite !Forall_singleton. auto.
  - apply Forall_app. split; [done|]. rewrite Forall_singleton. exists e, [].
    split; [done|]. split; [by rewrite Forall_singleton|constructor].
Qed.

(** Replaying the events of the last turns yields those turns. *)
Lemma turns_of_drop l d :
  d < length (turns_of l) -> turns_of (events_of (drop d (turns_of l))) = drop d (turns_of l).
Proof.
  revert d. induction l as [|e l IH] using rev_ind; intros d; [cbn; lia|].
  rewrite turns_of_snoc. intros Hd. destruct (decide (d < length (turns_of l))) as [Hlt|Hge].
  - assert (turns_of l = take d (turns_of l) ++ drop d (turns_of l)) as Hsplit
      by by rewrite take_drop.
    assert (drop d (turns_of l) <> []) as Hne.
    { intros E%(f_equal length). rewrite length_drop /= in E. lia. }
    assert (drop d (turn_step (turns_of l) e) = turn_step (drop d (turns_of l)) e) as ->.
    { rewrite {1}Hsplit turn_step_app // drop_app_length' //. rewrite length_take. lia. }
    by rewrite events_of_step turns_of_snoc IH.
  - revert Hd Hge. rewrite turn_step_eq. destruct (joins (turns_of l) e).
    + rewrite extend_last_length. lia.
    + rewrite /push_turn length_app /=. intros Hd Hge.
      assert (d = length (turns_of l)) as -> by lia. rewrite drop_app_length //.
      apply turns_of_singleton.
Qed.

(** An event that starts a turn after any log. *)
Lemma turns_of_app_opens l e l' :
  opens e = true -> turns_of (l ++ e :: l') = turns_of l ++ turns_of (e :: l').
Proof.
  intros Ho. induction l' as [|e' l' IH] using rev_ind.
  - rewrite turns_of_snoc. unfold turn_step, turns_of at 3. cbn. unfold turn_step. by rewrite Ho.
  - rewrite app_comm_cons assoc !turns_of_snoc IH turn_step_app //.
    intros E. by apply turns_of_nil in E.
Qed.

(** ** Merging where replaying goes on *)

Definition merge_turns : list Turn -> list Turn -> list Turn := foldl merge_turn.

(** The event opens a turn under the index of the event before it. *)
Definition reopens (prev : option SessionEvent) (e : SessionEvent) : bool :=
  opens e && bool_decide (ev_turn_index <$> prev = Some (ev_turn_index e)).

Lemma merge_turns_last_index base l :
  base <> [] -> turn_index <$> last (merge_turns base (turns_of l)) =
  match last l with Some e => Some (ev_turn_index e) | None => turn_index <$> last base end.
Proof.
  intros Hne. destruct l as [|e l _] using rev_ind; [done|]. rewrite last_snoc.
  pose proof (turns_of_last_index (l ++ [e])) as Hl. rewrite last_snoc in Hl.
  revert Hl. generalize (turns_of (l ++ [e])). intros ts.
  destruct ts as [|t ts _] using rev_ind; [done|]. rewrite last_snoc /merge_turns foldl_app /=.
  intros [= <-]. fold merge_turns. generalize (merge_turns base ts). intros m. unfold merge_turn.
  destruct (last m) as [t'|] eqn:El; [|by rewrite last_snoc].
  case_bool_decide as Hi; [|by rewrite last_snoc]. by rewrite extend_last_index El /= Hi.
Qed.

Lemma merge_turns_extend base ts e :
  ts <> [] -> merge_turns base (extend_last [e] ts) = extend_last [e] (merge_turns base ts).
Proof.
  destruct ts as [|t ts _] using rev_ind; [done|]. intros _.
  rewrite extend_last_snoc /merge_turns !foldl_app /=. fold merge_turns.
  generalize (merge_turns base ts). intros m. unfold merge_turn; cbn.
  destruct (last m) as [t'|]; [case_bool_decide|]; rewrite ?extend_last_snoc //.
  by rewrite extend_last_twice.
Qed.

(** Merging the tail one event at a time: as a replay, except that an event that
    reopens the index before it is joined to the turn it should close. *)
Lemma merge_turns_snoc l1 l2 e :
  l1 <> [] ->
  merge_turns (turns_of l1) (turns_of (l2 ++ [e])) =
  let m := merge_turns (turns_of l1) (turns_of l2) in
  if reopens (last (l1 ++ l2)) e then extend_last [e] m else turn_step m e.
Proof.
  intros Hl1. assert (turns_of l1 <> []) as Hne by by intros ?%turns_of_nil.
  pose proof (merge_turns_last_index (turns_of l1) l2 Hne) as Hidx.
  rewrite turns_of_last_index in Hidx.
  assert (turn_index <$> last (merge_turns (turns_of l1) (turns_of l2)) =
          ev_turn_index <$> last (l1 ++ l2)) as Hlast.
  { rewrite Hidx last_app. by destruct (last l2). }
  clear Hidx. rewrite turns_of_snoc. cbv zeta.
  assert (forall m, turn_index <$> last m = ev_turn_index <$> last (l1 ++ l2) ->
    merge_turn m (mkTurn (ev_turn_index e) [e]) =
    if bool_decide (ev_turn_index <$> last (l1 ++ l2) = Some (ev_turn_index e))
    then extend_last [e] m else push_turn e m) as Hpush.
  { intros m <-. unfold merge_turn, push_turn. destruct (last m) as [t'|]; cbn; [|done].
    destruct (decide (turn_index t' = ev_turn_index e)) as [Hi|Hi].
    - rewrite !bool_decide_true //. by f_equal.
    - rewrite !bool_decide_false //. congruence. }
  rewrite (turn_step_eq (turns_of l2)). destruct (joins (turns_of l2) e) eqn:Hj.
  - rewrite merge_turns_extend; last by eapply joins_not_nil.
    unfold joins in Hj. unfold reopens. destruct (opens e) eqn:Ho; [done|]. simpl in Hj |- *.
    rewrite turn_step_eq /joins Ho /= Hlast. apply bool_decide_eq_true in Hj.
    rewrite turns_of_last_index in Hj. rewrite last_app.
    destruct (last l2) as [e2|]; [|done]. by rewrite bool_decide_true.
  - rewrite /push_turn {1}/merge_turns foldl_app /=. fold merge_turns.
    rewrite (Hpush _ Hlast). unfold reopens. rewrite turn_step_eq /joins. destruct (opens e) eqn:Ho; cbn.
    + by case_bool_decide.
    + rewrite Hlast. by case_bool_decide.
Qed.

(** How many events of a tail open a turn under the index of the event before. *)
Fixpoint reopenings (prev : option SessionEvent) (l : list SessionEvent) : nat :=
  match l with
  | [] => 0
  | e :: l' => (if reopens prev e then 1 else 0) + reopenings (Some e) l'
  end.

Lemma reopenings_snoc prev l e :
  reopenings prev (l ++ [e]) =
  reopenings prev l +
  (if reopens (match last l with Some e' => Some e' | None => prev end) e then 1 else 0).
Proof.
  revert prev. induction l as [|x l IH]; intros prev; cbn [app reopenings last]; [lia|].
  rewrite IH last_cons. destruct (last l); cbn; lia.
Qed.

Lemma merge_turns_app l1 l2 :
  l1 <> [] ->
  length (merge_turns (turns_of l1) (turns_of l2)) + reopenings (last l1) l2 =
    length (turns_of (l1 ++ l2)) /\
  (reopenings (last l1) l2 = 0 ->
   merge_turns (turns_of l1) (turns_of l2) = turns_of (l1 ++ l2)).
Proof.
  intros Hl1. induction l2 as [|e l2 [IHn IHe]] using rev_ind.
  { rewrite app_nil_r. cbn. auto. }
  rewrite merge_turns_snoc // reopenings_snoc app_assoc turns_of_snoc. cbv zeta.
  rewrite last_app. set (prev := match last l2 with Some _ => _ | None => _ end).
  assert (turn_index <$> last (merge_turns (turns_of l1) (turns_of l2)) =
          turn_index <$> last (turns_of (l1 ++ l2))) as Hlast.
  { rewrite merge_turns_last_index; last by intros ?%turns_of_nil.
    rewrite !turns_of_last_index last_app. by destruct (last l2). }
  assert (ev_turn_index <$> prev = turn_index <$> last (turns_of (l1 ++ l2))) as Hprev.
  { rewrite turns_of_last_index last_app. by destruct (last l2). }
  destruct (reopens prev e) eqn:Hr.
  - split; [|lia]. unfold reopens in Hr. apply andb_true_iff in Hr as [Ho Hi].
    unfold turn_step. rewrite Ho /push_turn extend_last_length length_app. cbn. lia.
  - split; [|intros H0; by rewrite IHe; last lia].
    rewrite !turn_step_eq /joins Hlast. destruct (negb _ && _);
      rewrite ?extend_last_length /push_turn ?length_app; cbn; lia.
Qed.

Lemma messages_of_app l1 l2 : messages_of (l1 ++ l2) = messages_of l1 ++ messages_of l2.
Proof. apply bind_app. Qed.

Lemma max_id_fold n l : foldl (fun m e => N.max m (ev_id e)) n l = N.max n (max_id l).
Proof.
  unfold max_id. revert n. induction l as [|e l IH]; intros n; cbn; [lia|].
  rewrite IH (IH (N.max 0 (ev_id e))). lia.
Qed.

Lemma max_id_app l1 l2 : max_id (l1 ++ l2) = N.max (max_id l1) (max_id l2).
Proof. by rewrite {1}/max_id foldl_app max_id_fold. Qed.

(** What merging keeps of a full replay, whatever the turn boundaries. *)
Definition same_view (p q : ProjectedSession) : Prop :=
  ps_session_id p = ps_session_id q /\ ps_branch p = ps_branch q /\
  ps_messages p = ps_messages q /\ ps_last_id p = ps_last_id q /\
  events_of (ps_turns p) = events_of (ps_turns q).

Lemma merge_turn_events base t : events_of (merge_turn base t) = events_of base ++ turn_events t.
Proof.
  unfold merge_turn. destruct base as [|b base _] using rev_ind; [by cbn; rewrite app_nil_r|].
  rewrite last_snoc. case_bool_decide; rewrite ?extend_last_snoc !events_of_app; cbn;
    by rewrite ?app_nil_r -?assoc.
Qed.

Lemma merge_turns_events base ts : events_of (merge_turns base ts) = events_of base ++ events_of ts.
Proof.
  revert base. induction ts as [|t ts IH]; intros base; [by rewrite app_nil_r|].
  change (events_of (merge_turns (merge_turn base t) ts) = events_of base ++ events_of ([t] ++ ts)).
  rewrite IH merge_turn_events events_of_app -assoc. cbn. by rewrite app_nil_r.
Qed.

Lemma merge_same_view l1 l2 p1 p2 p :
  projection l1 = Some p1 -> projection l2 = Some p2 -> projection (l1 ++ l2) = Some p ->
  same_view (merge_projections p1 p2) p /\
  ps_turns (merge_projections p1 p2) = merge_turns (turns_of l1) (turns_of l2) /\
  ps_turns p = turns_of (l1 ++ l2).
Proof.
  intros (Ht1 & Hm1 & Hn1 & Hs1 & Hb1 & Hl1)%projection_inv
    (Ht2 & Hm2 & Hn2 & _ & _ & _)%projection_inv (Ht & Hm & Hn & Hs & Hb & _)%projection_inv.
  destruct l1 as [|e1 l1]; [done|]. unfold same_view.
  cbn [merge_projections ps_turns ps_messages ps_last_id ps_session_id ps_branch].
  rewrite Ht1 Hm1 Hn1 Ht2 Hm2 Hn2 Ht Hm Hn -messages_of_app -max_id_app.
  change (foldl merge_turn) with merge_turns. rewrite merge_turns_events !events_turns_of.
  cbn in Hs1, Hb1, Hs, Hb. repeat split; congruence.
Qed.

Lemma merge_exact l1 l2 p1 p2 p :
  projection l1 = Some p1 -> projection l2 = Some p2 -> projection (l1 ++ l2) = Some p ->
  same_view (merge_projections p1 p2) p /\
  length (ps_turns (merge_projections p1 p2)) + reopenings (last l1) l2 = length (ps_turns p) /\
  (merge_projections p1 p2 = p <-> reopenings (last l1) l2 = 0).
Proof.
  intros H1 H2 H.
  destruct (merge_same_view _ _ _ _ _ H1 H2 H) as (Hview & Ht & Htp).
  assert (l1 <> []) as Hl1 by by intros ->.
  destruct (merge_turns_app l1 l2 Hl1) as [Hlen Heq]. rewrite Ht Htp.
  split; [done|]. split; [done|]. split.
  - intros E. rewrite E Htp in Ht. rewrite -Ht in Hlen. lia.
  - intros H0. destruct Hview as (? & ? & ? & ? & _).
    destruct (merge_projections p1 p2) as [???? ?], p as [???? ?]. cbn in *.
    rewrite Heq in Ht; congruence.
Qed.

(** Merging the projection of a tail into the projection of the log before it
    yields the session, branch, messages, last id and events of projecting the whole
    log, always.  The turns are those of the whole replay exactly when no event of
    the tail opens a turn (a user message or a snapshot) under the turn index of the
    event before it; each one that does costs one turn boundary.  The doc of
    [merge_projections] claims identity without the condition. *)
Theorem merge_projections_exact l1 l2 p1 p2 p :
  project l1 = Ok p1 -> project l2 = Ok p2 -> project (l1 ++ l2) = Ok p ->
  same_view (merge_projections p1 p2) p /\
  length (ps_turns (merge_projections p1 p2)) + reopenings (last l1) l2 = length (ps_turns p) /\
  (merge_projections p1 p2 = p <-> reopenings (last l1) l2 = 0).
Proof. intros H1%project_ok H2%project_ok H%project_ok. by apply merge_exact. Qed.
