(* ===== verification/EventLog.v ===== *)
(** * The event store ([crates/lc-sessions/src/events/store.rs])

    [EventStore C] is the trait object: one operation per method, over a store
    [C].  [LogSpec] is what the trait promises, on plain per-branch lists in id
    order; [EventLog] is the class of stores that implement it (an operation either
    does what [LogSpec] says or fails and changes nothing), against which the
    session manager is verified.  [MemoryEventStore] is the in-memory store, a
    finite map from [(session, branch, id)] to events whose ordered range scans are
    [range]; [memory_event_store_refines] shows that it refines the specification.

    The scan of a [BTreeMap] from [(s, b, lo)] to [(s, b, hi)] visits the entries of
    that session and branch with an id in the range, in id order, which is what
    [range] returns; the explicit filter of the code removes nothing from it.  The
    striped locks and the cloning of events have no counterpart. *)

From S2P Require Import Prelude Json Message Session.
From stdpp Require Import gmap strings list sorting.

(** ** The trait *)

Record EventStore (C : Type) := mkEventStore {
  es_append : SessionEvent -> Act C SessionError ();
  es_append_batch : list SessionEvent -> Act C SessionError ();
  es_read : string -> string -> option N -> Act C SessionError (list SessionEvent);
  es_read_turns_range : string -> string -> N -> N -> Act C SessionError (list SessionEvent);
  es_fork : string -> string -> string -> option N -> Act C SessionError nat;
  es_latest_id : string -> string -> Act C SessionError N;
  es_clear_session : string -> Act C SessionError ();
  es_delete_before : string -> string -> N -> Act C SessionError ();
}.
Arguments mkEventStore {C} _ _ _ _ _ _ _ _.
Arguments es_append {C} _ _.
Arguments es_append_batch {C} _ _.
Arguments es_read {C} _ _ _ _.
Arguments es_read_turns_range {C} _ _ _ _ _.
Arguments es_fork {C} _ _ _ _ _.
Arguments es_latest_id {C} _ _ _.
Arguments es_clear_session {C} _ _.
Arguments es_delete_before {C} _ _ _ _.

(** ** The in-memory store *)

Definition EventKey : Type := string * string * N.
Definition MemoryEventStore : Type := gmap EventKey SessionEvent.

Definition key_of (e : SessionEvent) : EventKey := (ev_session_id e, ev_branch e, ev_id e).

Definition entry_le (x y : EventKey * SessionEvent) : bool := (x.1.2 <=? y.1.2)%N.

(** [events.range((s, b, lo)..=(s, b, hi))] *)
Definition range (m : MemoryEventStore) (s b : string) (lo hi : N)
    : list (EventKey * SessionEvent) :=
  sort_by entry_le
    (filter (fun kv : EventKey * SessionEvent =>
               kv.1.1 = (s, b) /\ (lo <= kv.1.2)%N /\ (kv.1.2 <= hi)%N) (map_to_list m)).

(** [events.entry(key).or_insert_with(..)] *)
Definition or_insert (m : MemoryEventStore) (e : SessionEvent) : MemoryEventStore :=
  match m !! key_of e with Some _ => m | None => <[key_of e := e]> m end.

Definition mem_append (e : SessionEvent) : Act MemoryEventStore SessionError () :=
  fun m => (Ok (), or_insert m e).

Definition mem_append_batch (batch : list SessionEvent) : Act MemoryEventStore SessionError () :=
  fun m => (Ok (), foldl or_insert m batch).

Definition mem_read (s b : string) (after : option N)
    : Act MemoryEventStore SessionError (list SessionEvent) := fun m =>
  (Ok (snd <$> range m s b (u64_add (default 0%N after) 1) u64_max), m).

Definition mem_read_turns_range (s b : string) (from_turn to_turn : N)
    : Act MemoryEventStore SessionError (list SessionEvent) := fun m =>
  (Ok (filter (fun e => (from_turn <= ev_turn_index e)%N /\ (ev_turn_index e <= to_turn)%N)
         (snd <$> range m s b 0 u64_max)), m).

(** The copying loop of [fork], with its [break]. *)
Fixpoint fork_loop (dst : string) (until_id : option N) (src : list SessionEvent)
    (m : MemoryEventStore) (copied : nat) : nat * MemoryEventStore :=
  match src with
  | [] => (copied, m)
  | e :: src' =>
      if match until_id with Some until => (until <? ev_id e)%N | None => false end
      then (copied, m)
      else
        let e' := set_branch dst e in
        let copied' := match m !! key_of e' with None => S copied | Some _ => copied end in
        fork_loop dst until_id src' (<[key_of e' := e']> m) copied'
  end.

Definition mem_fork (s src_branch dst_branch : string) (until_id : option N)
    : Act MemoryEventStore SessionError nat := fun m =>
  let '(copied, m') := fork_loop dst_branch until_id (snd <$> range m s src_branch 0 u64_max) m 0 in
  (Ok copied, m').

Definition mem_latest_id (s b : string) : Act MemoryEventStore SessionError N := fun m =>
  (Ok (default 0%N ((fun kv : EventKey * SessionEvent => kv.1.2) <$> last (range m s b 0 u64_max))), m).

Definition mem_clear_session (s : string) : Act MemoryEventStore SessionError () := fun m =>
  let keys := filter (fun k : EventKey => k.1.1 = s) (map_to_list m).*1 in
  (Ok (), foldr delete m keys).

Definition mem_delete_before (s b : string) (before_id : N) : Act MemoryEventStore SessionError () :=
  fun m =>
  if (before_id =? 0)%N then (Ok (), m) else
  let upper := (before_id - 1)%N in
  let keys := (range m s b 0 upper).*1 in
  (Ok (), foldr delete m keys).

Definition memory_event_store : EventStore MemoryEventStore :=
  mkEventStore mem_append mem_append_batch mem_read mem_read_turns_range mem_fork mem_latest_id
    mem_clear_session mem_delete_before.

(** [MemoryEventStore::new], [len], [is_empty] *)
Definition mem_new : MemoryEventStore := ∅.
Definition mem_len : Act MemoryEventStore SessionError nat := fun m => (Ok (size m), m).
Definition mem_is_empty : Act MemoryEventStore SessionError bool :=
  fun m => (Ok (bool_decide (m = ∅)), m).

(** ** The specification: per-branch logs *)

Definition Logs : Type := string -> string -> list SessionEvent.

Definition logs_eq (L L' : Logs) : Prop := forall s b, L s b = L' s b.
Infix "≡ₗ" := logs_eq (at level 70, no associativity) : lc_scope.

Global Instance logs_eq_equivalence : Equivalence logs_eq.
Proof.
  split; [by intros L s b|by intros L L' H s b|]. intros L1 L2 L3 H1 H2 s b. by rewrite H1.
Qed.

(** An event whose id is already there is dropped. *)
Fixpoint log_add (e : SessionEvent) (l : list SessionEvent) : list SessionEvent :=
  match l with
  | [] => [e]
  | x :: l' =>
      if (ev_id e <? ev_id x)%N then e :: l
      else if (ev_id e =? ev_id x)%N then l
      else x :: log_add e l'
  end.

(** An event whose id is already there is replaced. *)
Fixpoint log_put (e : SessionEvent) (l : list SessionEvent) : list SessionEvent :=
  match l with
  | [] => [e]
  | x :: l' =>
      if (ev_id e <? ev_id x)%N then e :: l
      else if (ev_id e =? ev_id x)%N then e :: l'
      else x :: log_put e l'
  end.

Definition here (s b s' b' : string) : bool := bool_decide (s = s' /\ b = b').

Module LogSpec.

Definition append (e : SessionEvent) (L : Logs) : Logs := fun s b =>
  if here s b (ev_session_id e) (ev_branch e) then log_add e (L s b) else L s b.

Definition append_batch (es : list SessionEvent) (L : Logs) : Logs :=
  foldl (fun L e => append e L) L es.

Definition read (after : option N) (l : list SessionEvent) : list SessionEvent :=
  filter (fun e => (u64_add (default 0%N after) 1 <= ev_id e)%N) l.

Definition read_turns_range (from_turn to_turn : N) (l : list SessionEvent) : list SessionEvent :=
  filter (fun e => (from_turn <= ev_turn_index e)%N /\ (ev_turn_index e <= to_turn)%N) l.

(** The events a fork copies: those with an id up to the bound. *)
Definition within (until_id : option N) (e : SessionEvent) : bool :=
  match until_id with Some u => (ev_id e <=? u)%N | None => true end.
Definition fork_prefix (until_id : option N) (l : list SessionEvent) : list SessionEvent :=
  filter (fun e => within until_id e = true) l.

Definition fork (s src dst : string) (until_id : option N) (L : Logs) : Logs := fun s' b =>
  if here s' b s dst
  then foldl (fun l e => log_put (set_branch dst e) l) (L s dst) (fork_prefix until_id (L s src))
  else L s' b.

(** The ids a fork adds to the target branch. *)
Definition fork_count (s src dst : string) (until_id : option N) (L : Logs) : nat :=
  length (filter (fun e => ev_id e ∉ ev_id <$> L s dst) (fork_prefix until_id (L s src))).

Definition latest_id (l : list SessionEvent) : N := default 0%N (ev_id <$> last l).

Definition clear_session (s : string) (L : Logs) : Logs := fun s' b =>
  if bool_decide (s' = s) then [] else L s' b.

Definition delete_before (s b : string) (before_id : N) (L : Logs) : Logs := fun s' b' =>
  if here s' b' s b then filter (fun e => (before_id <= ev_id e)%N) (L s' b') else L s' b'.

Global Instance append_proper e : Proper (logs_eq ==> logs_eq) (append e).
Proof. intros L L' H s b. unfold append. by rewrite (H s b). Qed.
Global Instance append_batch_proper es : Proper (logs_eq ==> logs_eq) (append_batch es).
Proof.
  induction es as [|e es IH]; intros L L' H; [done|]. apply (IH (append e L) (append e L')).
  by apply append_proper.
Qed.
Global Instance fork_proper s src dst u : Proper (logs_eq ==> logs_eq) (fork s src dst u).
Proof. intros L L' H s' b. unfold fork. by rewrite (H s dst) (H s src) (H s' b). Qed.
Global Instance clear_session_proper s : Proper (logs_eq ==> logs_eq) (clear_session s).
Proof. intros L L' H s' b. unfold clear_session. by rewrite (H s' b). Qed.
Global Instance delete_before_proper s b n : Proper (logs_eq ==> logs_eq) (delete_before s b n).
Proof. intros L L' H s' b'. unfold delete_before. by rewrite (H s' b'). Qed.

End LogSpec.

(** A well-formed log of a branch: ids strictly increase and fit their width, and
    every event names the session and branch. *)
Definition id_lt (x y : SessionEvent) : Prop := (ev_id x < ev_id y)%N.

Definition log_ok (s b : string) (l : list SessionEvent) : Prop :=
  StronglySorted id_lt l /\
  Forall (fun e => ev_session_id e = s /\ ev_branch e = b /\ (ev_id e <= u64_max)%N) l.

(** ** The contract *)

(** An operation that changes the logs as [f] says, or fails and leaves them. *)
Definition implements {C A} (inv : C -> Prop) (logs : C -> Logs) (f : Logs -> Logs)
    (m : Act C SessionError A) : Prop :=
  forall c r c', inv c -> m c = (r, c') ->
    inv c' /\ logs c' ≡ₗ match r with Ok _ => f (logs c) | Err _ => logs c end.

Definition observes {C A} (inv : C -> Prop) (logs : C -> Logs) (f : Logs -> A)
    (m : Act C SessionError A) : Prop :=
  forall c r c', inv c -> m c = (r, c') ->
    inv c' /\ logs c' ≡ₗ logs c /\ match r with Ok a => a = f (logs c) | Err _ => True end.

Class EventLog {C} (st : EventStore C) := {
  el_inv : C -> Prop;
  el_logs : C -> Logs;
  el_log_ok c s b : el_inv c -> log_ok s b (el_logs c s b);
  el_append e : (ev_id e <= u64_max)%N ->
    implements el_inv el_logs (LogSpec.append e) (es_append st e);
  el_append_batch es : Forall (fun e => (ev_id e <= u64_max)%N) es ->
    implements el_inv el_logs (LogSpec.append_batch es) (es_append_batch st es);
  el_read s b after :
    observes el_inv el_logs (fun L => LogSpec.read after (L s b)) (es_read st s b after);
  el_read_turns_range s b i j :
    observes el_inv el_logs (fun L => LogSpec.read_turns_range i j (L s b))
      (es_read_turns_range st s b i j);
  el_fork s src dst until_id :
    implements el_inv el_logs (LogSpec.fork s src dst until_id) (es_fork st s src dst until_id);
  el_latest_id s b :
    observes el_inv el_logs (fun L => LogSpec.latest_id (L s b)) (es_latest_id st s b);
  el_clear_session s :
    implements el_inv el_logs (LogSpec.clear_session s) (es_clear_session st s);
  el_delete_before s b n :
    implements el_inv el_logs (LogSpec.delete_before s b n) (es_delete_before st s b n);
}.

(** ** Logs as sorted lists *)

Lemma id_lt_sorted_nodup l : StronglySorted id_lt l -> NoDup (ev_id <$> l).
Proof.
  induction 1 as [|e l Hl IH He]; [constructor|]. cbn. constructor; [|done].
  intros (e' & Heq & Hin)%list_elem_of_fmap. rewrite Forall_forall in He.
  specialize (He e' Hin). unfold id_lt in He. lia.
Qed.

Lemma log_unique l1 l2 :
  StronglySorted id_lt l1 -> StronglySorted id_lt l2 -> (forall e, e ∈ l1 <-> e ∈ l2) -> l1 = l2.
Proof.
  intros H1 H2 He.
  assert (AntiSymm (=) id_lt) by (intros x y; unfold id_lt; lia).
  apply (StronglySorted_unique id_lt); [done|done|]. apply NoDup_Permutation; [..|done].
  - eapply NoDup_fmap_1. by apply id_lt_sorted_nodup.
  - eapply NoDup_fmap_1. by apply id_lt_sorted_nodup.
Qed.

Lemma elem_of_sorted_cons_id x l e :
  StronglySorted id_lt (x :: l) -> e ∈ x :: l -> ev_id e = ev_id x -> e = x.
Proof.
  intros [_ Hx]%StronglySorted_inv [->|He]%elem_of_cons Heq; [done|].
  rewrite Forall_forall in Hx. specialize (Hx _ He). unfold id_lt in Hx. lia.
Qed.

Lemma elem_of_log_add e l x :
  StronglySorted id_lt l ->
  x ∈ log_add e l <-> x ∈ l \/ (x = e /\ ev_id e ∉ ev_id <$> l).
Proof.
  induction 1 as [|y l Hl IH Hy]; cbn [log_add].
  { rewrite list_elem_of_singleton. set_solver. }
  rewrite Forall_forall in Hy. rewrite fmap_cons not_elem_of_cons.
  destruct (N.ltb_spec (ev_id e) (ev_id y)) as [Hlt|Hge].
  - rewrite elem_of_cons. split; [|tauto]. intros [->|?]; [|tauto]. right. split; [done|].
    split; [lia|]. intros (z & Hz & Hin)%list_elem_of_fmap. specialize (Hy z Hin).
    unfold id_lt in Hy. lia.
  - destruct (N.eqb_spec (ev_id e) (ev_id y)); [tauto|]. rewrite !elem_of_cons IH. tauto.
Qed.

Lemma elem_of_log_put e l x :
  StronglySorted id_lt l ->
  x ∈ log_put e l <-> x = e \/ (x ∈ l /\ ev_id x <> ev_id e).
Proof.
  induction 1 as [|y l Hl IH Hy]; cbn [log_put].
  { rewrite list_elem_of_singleton. set_solver. }
  rewrite Forall_forall in Hy. unfold id_lt in Hy.
  destruct (N.ltb_spec (ev_id e) (ev_id y)) as [Hlt|Hge].
  - rewrite !elem_of_cons. split; [|tauto]. intros [->|[->|Hx]]; [tauto|right..].
    + split; [tauto|lia].
    + specialize (Hy x Hx). split; [tauto|lia].
  - destruct (N.eqb_spec (ev_id e) (ev_id y)).
    + rewrite !elem_of_cons. split; [intros [->|Hx]; [tauto|]|].
      * right. specialize (Hy x Hx). split; [tauto|lia].
      * intros [->|[[->|?] ?]]; [tauto|lia|tauto].
    + rewrite !elem_of_cons IH. split; [intros [->|[->|?]]|]; tauto || (right; split; [tauto|lia]).
Qed.

Lemma log_add_sorted e l : StronglySorted id_lt l -> StronglySorted id_lt (log_add e l).
Proof.
  induction 1 as [|y l Hl IH Hy]; cbn [log_add]; [repeat constructor|].
  destruct (N.ltb_spec (ev_id e) (ev_id y)) as [Hlt|Hge].
  - constructor; [by constructor|]. constructor; [done|].
    eapply Forall_impl; [exact Hy|]. unfold id_lt. intros z Hz. lia.
  - destruct (N.eqb_spec (ev_id e) (ev_id y)); [by constructor|]. constructor; [done|].
    apply Forall_forall. intros z [Hz|[-> _]]%elem_of_log_add; [|unfold id_lt; lia|done].
    rewrite Forall_forall in Hy. by apply Hy.
Qed.

Lemma log_put_sorted e l : StronglySorted id_lt l -> StronglySorted id_lt (log_put e l).
Proof.
  induction 1 as [|y l Hl IH Hy]; cbn [log_put]; [repeat constructor|].
  destruct (N.ltb_spec (ev_id e) (ev_id y)) as [Hlt|Hge].
  - constructor; [by constructor|]. constructor; [done|].
    eapply Forall_impl; [exact Hy|]. unfold id_lt. intros z Hz. lia.
  - destruct (N.eqb_spec (ev_id e) (ev_id y)) as [Heq|Hne].
    + constructor; [done|]. eapply Forall_impl; [exact Hy|]. unfold id_lt. intros z Hz. lia.
    + constructor; [done|].
      apply Forall_forall. intros z [->|[Hz _]]%elem_of_log_put; [unfold id_lt; lia| |done].
      rewrite Forall_forall in Hy. by apply Hy.
Qed.

Lemma filter_sorted (P : SessionEvent -> Prop) `{!forall x, Decision (P x)} l :
  StronglySorted id_lt l -> StronglySorted id_lt (filter P l).
Proof. apply StronglySorted_filter. Qed.

(** A fresh largest id goes at the end. *)
Lemma log_add_snoc e l :
  Forall (fun x => (ev_id x < ev_id e)%N) l -> log_add e l = l ++ [e].
Proof.
  induction 1 as [|y l Hy Hl IH]; [done|]. cbn [log_add app].
  destruct (N.ltb_spec (ev_id e) (ev_id y)); [lia|].
  destruct (N.eqb_spec (ev_id e) (ev_id y)); [lia|]. by rewrite IH.
Qed.

Lemma log_put_snoc e l :
  Forall (fun x => (ev_id x < ev_id e)%N) l -> log_put e l = l ++ [e].
Proof.
  induction 1 as [|y l Hy Hl IH]; [done|]. cbn [log_put app].
  destruct (N.ltb_spec (ev_id e) (ev_id y)); [lia|].
  destruct (N.eqb_spec (ev_id e) (ev_id y)); [lia|]. by rewrite IH.
Qed.

Lemma log_add_present e l : StronglySorted id_lt l -> ev_id e ∈ ev_id <$> l -> log_add e l = l.
Proof.
  intros Hl Hin. apply log_unique; [by apply log_add_sorted|done|]. intros x.
  rewrite elem_of_log_add; [tauto|done].
Qed.

Lemma sorted_last_max l e :
  StronglySorted id_lt (l ++ [e]) -> Forall (fun x => (ev_id x < ev_id e)%N) l.
Proof.
  induction l as [|x l IH]; [constructor|]. cbn. intros [Hl Hx]%StronglySorted_inv.
  constructor; [|by apply IH]. rewrite Forall_app Forall_singleton in Hx. apply Hx.
Qed.

Lemma last_id_max l n :
  StronglySorted id_lt l -> (LogSpec.latest_id l < n)%N -> Forall (fun x => (ev_id x < n)%N) l.
Proof.
  destruct l as [|e l _] using rev_ind; [constructor|]. unfold LogSpec.latest_id. rewrite last_snoc /=.
  intros Hs%sorted_last_max Hn. rewrite Forall_app Forall_singleton. split; [|done].
  eapply Forall_impl; [exact Hs|]. cbn. intros; lia.
Qed.

(** In id order, the events from one on are those listed from it on. *)
Lemma filter_from_id a e l :
  StronglySorted id_lt (a ++ e :: l) ->
  filter (fun x => (ev_id e <= ev_id x)%N) (a ++ e :: l) = e :: l.
Proof.
  intros Hs. rewrite filter_app (filter_out _ a).
  - apply filter_all. apply StronglySorted_app_1_r, StronglySorted_inv in Hs as [_ Hf].
    rewrite Forall_forall in Hf. intros x [->|Hx]%elem_of_cons; [lia|].
    specialize (Hf x Hx). unfold id_lt in Hf. lia.
  - intros x Hx. assert (id_lt x e) as Hlt; [|unfold id_lt in Hlt; lia].
    eapply StronglySorted_app_1_elem_of; [exact Hs|done|apply list_elem_of_here].
Qed.

Lemma log_snoc_ok s b l e :
  log_ok s b l -> (LogSpec.latest_id l < ev_id e)%N -> (ev_id e <= u64_max)%N ->
  ev_session_id e = s -> ev_branch e = b -> log_ok s b (l ++ [e]).
Proof.
  intros [Hs Hf] Hlt Hm Hes Heb. pose proof (last_id_max _ _ Hs Hlt) as Hlast.
  rewrite -(log_add_snoc e l Hlast). split; [by apply log_add_sorted|].
  rewrite (log_add_snoc e l Hlast) Forall_app Forall_singleton. auto.
Qed.
