(* ===== verification/EventStoreMem.v ===== *)
(** * The in-memory event store refines the specification

    [mem_inv] is the typing invariant of the store (every event is stored under its
    own session, branch and id), [mem_logs] the abstraction to per-branch logs.
    [memory_event_log] discharges the [EventLog] class, and
    [memory_event_store_refines] runs any sequence of trait calls side by side on the
    store and on the specification. *)

From S2P Require Import Prelude Json Message Session EventLog.
From stdpp Require Import gmap strings list sorting.

Definition mem_inv (m : MemoryEventStore) : Prop :=
  forall k e, m !! k = Some e -> key_of e = k /\ (k.2 <= u64_max)%N.

Definition mem_logs (m : MemoryEventStore) : Logs := fun s b => snd <$> range m s b 0 u64_max.

(** ** Range scans *)

Lemma sorted_fmap_elem {A B} (R1 : relation A) (R2 : relation B) (f : A -> B) (l : list A) :
  (forall x y, x ∈ l -> y ∈ l -> R1 x y -> R2 (f x) (f y)) ->
  StronglySorted R1 l -> StronglySorted R2 (f <$> l).
Proof.
  intros Hf Hl. induction Hl as [|x l Hl IH Hx]; cbn; constructor.
  - apply IH. intros y z Hy Hz. apply Hf; by apply list_elem_of_further.
  - rewrite Forall_fmap. rewrite !Forall_forall in Hx |- *. intros y Hy.
    apply Hf; [apply list_elem_of_here|by apply list_elem_of_further|by apply Hx].
Qed.

Lemma sorted_strict {A} (key : A -> N) (l : list A) :
  StronglySorted (fun x y => (key x <=? key y)%N = true) l -> NoDup (key <$> l) ->
  StronglySorted (fun x y => (key x < key y)%N) l.
Proof.
  induction 1 as [|x l Hl IH Hx]; [constructor|]. cbn. intros [Hn Hd]%NoDup_cons.
  constructor; [by apply IH|]. rewrite !Forall_forall in Hx |- *. intros y Hy.
  specialize (Hx y Hy). apply N.leb_le in Hx. assert (key x <> key y); [|lia]. intros E. apply Hn.
  apply list_elem_of_fmap. eauto.
Qed.

Lemma elem_of_range m s b lo hi k e :
  (k, e) ∈ range m s b lo hi <->
  m !! k = Some e /\ k.1 = (s, b) /\ (lo <= k.2)%N /\ (k.2 <= hi)%N.
Proof.
  unfold range. rewrite sort_by_perm list_elem_of_filter elem_of_map_to_list. cbn. tauto.
Qed.

Lemma range_sorted m s b lo hi :
  StronglySorted (fun x y : EventKey * SessionEvent => (x.1.2 < y.1.2)%N) (range m s b lo hi).
Proof.
  apply (sorted_strict (fun x : EventKey * SessionEvent => x.1.2)).
  - apply (sort_by_sorted entry_le); unfold entry_le.
    + intros x y. rewrite !N.leb_le. lia.
    + intros x y z. rewrite !N.leb_le. lia.
  - assert (NoDup (range m s b lo hi).*1) as Hn.
    { unfold range. rewrite sort_by_perm. eapply sublist_NoDup; [apply (NoDup_fst_map_to_list m)|].
      apply fmap_sublist, sublist_filter. }
    apply NoDup_fmap_2_strong.
    + intros [[[s1 b1] i1] e1] [[[s2 b2] i2] e2] H1%elem_of_range H2%elem_of_range Hi.
      cbn in *. naive_solver.
    + eapply NoDup_fmap_1, Hn.
Qed.

Lemma elem_of_mem_logs m s b e :
  mem_inv m -> e ∈ mem_logs m s b <-> m !! (s, b, ev_id e) = Some e.
Proof.
  intros Hm. unfold mem_logs. rewrite list_elem_of_fmap. split.
  - intros ([[[s' b'] i] e'] & -> & (Hl & [= -> ->] & _)%elem_of_range). cbn.
    destruct (Hm _ _ Hl) as [[= _ _ <-] _]. done.
  - intros Hl. exists ((s, b, ev_id e), e). split; [done|]. apply elem_of_range.
    destruct (Hm _ _ Hl) as [_ Hmax]. cbn in *. repeat split; [done|lia|done].
Qed.

Lemma mem_range_logs m s b lo hi :
  mem_inv m -> snd <$> range m s b lo hi =
  filter (fun e => (lo <= ev_id e)%N /\ (ev_id e <= hi)%N) (mem_logs m s b).
Proof.
  intros Hm. assert (forall lo' hi', StronglySorted id_lt (snd <$> range m s b lo' hi')) as Hs.
  { intros lo' hi'. eapply sorted_fmap_elem, range_sorted.
    intros [[[s1 b1] i1] e1] [[[s2 b2] i2] e2] [H1 _]%elem_of_range [H2 _]%elem_of_range.
    destruct (Hm _ _ H1) as [[= _ _ <-] _], (Hm _ _ H2) as [[= _ _ <-] _]. done. }
  apply log_unique; [apply Hs|apply filter_sorted, Hs|]. intros e.
  rewrite list_elem_of_filter elem_of_mem_logs // list_elem_of_fmap. split.
  - intros ([[[s' b'] i] e'] & -> & (Hl & [= -> ->] & Hr)%elem_of_range). cbn in Hr |- *.
    destruct (Hm _ _ Hl) as [[= _ _ <-] _]. done.
  - intros [Hr Hl]. exists ((s, b, ev_id e), e). split; [done|]. by apply elem_of_range.
Qed.

Lemma mem_logs_ok m s b : mem_inv m -> log_ok s b (mem_logs m s b).
Proof.
  intros Hm. split.
  - unfold mem_logs. rewrite mem_range_logs //. apply filter_sorted.
    eapply sorted_fmap_elem, range_sorted.
    intros [[[s1 b1] i1] e1] [[[s2 b2] i2] e2] [H1 _]%elem_of_range [H2 _]%elem_of_range.
    destruct (Hm _ _ H1) as [[= _ _ <-] _], (Hm _ _ H2) as [[= _ _ <-] _]. done.
  - apply Forall_forall. intros e Hl%elem_of_mem_logs; [|done].
    destruct (Hm _ _ Hl) as [[= <- <-] Hmax]. done.
Qed.

(** Two ways to compute a log agree when they hold the same events. *)
Lemma mem_logs_eq m s b l :
  mem_inv m -> StronglySorted id_lt l -> (forall e, e ∈ l <-> m !! (s, b, ev_id e) = Some e) ->
  mem_logs m s b = l.
Proof.
  intros Hm Hl He. apply log_unique; [apply mem_logs_ok, Hm|done|]. intros e.
  rewrite He. by apply elem_of_mem_logs.
Qed.

(** ** Updates *)

Lemma mem_inv_insert m e :
  mem_inv m -> (ev_id e <= u64_max)%N -> mem_inv (<[key_of e := e]> m).
Proof.
  intros Hm He k e'. destruct (decide (k = key_of e)) as [->|Hne].
  - rewrite lookup_insert_eq. by intros [= <-].
  - rewrite lookup_insert_ne //. apply Hm.
Qed.

Lemma mem_inv_or_insert m e : mem_inv m -> (ev_id e <= u64_max)%N -> mem_inv (or_insert m e).
Proof. unfold or_insert. destruct (m !! key_of e); [done|]. apply mem_inv_insert. Qed.

Lemma mem_inv_subseteq m m' : mem_inv m -> m' ⊆ m -> mem_inv m'.
Proof. intros Hm Hs k e Hk. apply Hm. by eapply lookup_weaken. Qed.

Lemma foldr_delete_subseteq (ks : list EventKey) (m : MemoryEventStore) : foldr delete m ks ⊆ m.
Proof.
  induction ks as [|k ks IH]; [done|]. cbn. etrans; [apply delete_subseteq|done].
Qed.

Lemma mem_logs_elem_ids m s b i :
  mem_inv m -> i ∈ ev_id <$> mem_logs m s b <-> is_Some (m !! (s, b, i)).
Proof.
  intros Hm. rewrite list_elem_of_fmap. split.
  - intros (e & -> & He%elem_of_mem_logs); [by eexists|done].
  - intros [e He]. exists e. destruct (Hm _ _ He) as [[= <- <- <-] _].
    split; [done|]. by apply elem_of_mem_logs.
Qed.

Lemma mem_logs_put m e :
  mem_inv m -> (ev_id e <= u64_max)%N ->
  forall s b, mem_logs (<[key_of e := e]> m) s b =
    if here s b (ev_session_id e) (ev_branch e) then log_put e (mem_logs m s b) else mem_logs m s b.
Proof.
  intros Hm He s b. pose proof (mem_logs_ok m s b Hm) as [Hs _].
  apply mem_logs_eq; [by apply mem_inv_insert|by case_match; [apply log_put_sorted|]|].
  intros x. unfold here. case_bool_decide as Hb.
  - destruct Hb as [-> ->]. rewrite elem_of_log_put // elem_of_mem_logs // lookup_insert_Some.
    unfold key_of. destruct (decide (ev_id x = ev_id e)) as [Hi|Hi].
    + rewrite Hi. split; [intros [->|[_ []]]; [by left|done]|].
      intros [[_ ->]|[[] _]]; [by left|done].
    + split; [intros [->|[Hx _]]; [done|]|].
      * right. split; [congruence|done].
      * intros [[[=] _]|[_ Hx]]; [congruence|by right].
  - rewrite elem_of_mem_logs // lookup_insert_ne //. unfold key_of. intros [= <- <- _]. by apply Hb.
Qed.

Lemma mem_logs_add m e :
  mem_inv m -> (ev_id e <= u64_max)%N ->
  mem_logs (or_insert m e) ≡ₗ LogSpec.append e (mem_logs m).
Proof.
  intros Hm He s b. unfold LogSpec.append, or_insert. pose proof (mem_logs_ok m s b Hm) as [Hs _].
  destruct (m !! key_of e) as [e'|] eqn:Hk.
  - unfold here. case_bool_decide as Hb; [|done]. destruct Hb as [-> ->].
    rewrite log_add_present //. rewrite mem_logs_elem_ids //.
  - rewrite mem_logs_put //. unfold here. case_bool_decide as Hb; [|done].
    destruct Hb as [-> ->]. apply log_unique; [by apply log_put_sorted|by apply log_add_sorted|].
    intros x. rewrite elem_of_log_put // elem_of_log_add // mem_logs_elem_ids //.
    unfold key_of in Hk. rewrite Hk.
    assert (ev_id e ∉ ev_id <$> mem_logs m (ev_session_id e) (ev_branch e)) as Hni.
    { rewrite mem_logs_elem_ids // Hk. by intros []. }
    assert (~ is_Some (@None SessionEvent)) by by intros [].
    split; [intros [->|[? _]]; [by right|by left]|]. intros [Hx|[-> _]]; [|by left].
    right. split; [done|]. intros E. apply Hni. rewrite -E. by apply list_elem_of_fmap_2.
Qed.

(** ** Operations *)

Lemma mem_batch es m :
  mem_inv m -> Forall (fun e => (ev_id e <= u64_max)%N) es ->
  mem_inv (foldl or_insert m es) /\
  mem_logs (foldl or_insert m es) ≡ₗ LogSpec.append_batch es (mem_logs m).
Proof.
  intros Hm Hes. revert m Hm. induction Hes as [|e es He Hes IH]; intros m Hm; [done|]. cbn [foldl].
  destruct (IH (or_insert m e)) as [Hi Hl]; [by apply mem_inv_or_insert|]. split; [done|].
  rewrite Hl mem_logs_add //.
Qed.

Lemma fork_prefix_cons u e l :
  LogSpec.fork_prefix u (e :: l) =
  if LogSpec.within u e then e :: LogSpec.fork_prefix u l else LogSpec.fork_prefix u l.
Proof.
  unfold LogSpec.fork_prefix. rewrite filter_cons.
  destruct (LogSpec.within u e); by rewrite ?decide_True ?decide_False.
Qed.

(** Where the loop breaks, nothing further is within the bound. *)
Lemma fork_prefix_break u e l :
  StronglySorted id_lt (e :: l) -> LogSpec.within u e = false -> LogSpec.fork_prefix u (e :: l) = [].
Proof.
  intros [_ He]%StronglySorted_inv Hw. rewrite fork_prefix_cons Hw.
  apply filter_out. intros x Hx. rewrite Forall_forall in He. specialize (He x Hx).
  unfold LogSpec.within in *. destruct u as [u|]; [|done]. unfold id_lt in He.
  apply N.leb_gt in Hw. rewrite N.leb_le. lia.
Qed.

Lemma fork_loop_spec s dst u src m n :
  mem_inv m -> StronglySorted id_lt src ->
  Forall (fun e => ev_session_id e = s /\ (ev_id e <= u64_max)%N) src ->
  exists m', fork_loop dst u src m n =
    (n + length (filter (fun e => ev_id e ∉ ev_id <$> mem_logs m s dst) (LogSpec.fork_prefix u src)), m')
  /\ mem_inv m' /\
  forall s' b, mem_logs m' s' b =
    if here s' b s dst
    then foldl (fun l e => log_put (set_branch dst e) l) (mem_logs m s dst) (LogSpec.fork_prefix u src)
    else mem_logs m s' b.
Proof.
  intros Hm Hs Hok. revert m n Hm.
  induction Hs as [|e src Hs IH He]; intros m n Hm; cbn [fork_loop].
  { exists m. rewrite Nat.add_0_r. split; [done|]. split; [done|]. intros s' b. cbn.
    unfold here. case_bool_decide as Hb; [|done]. by destruct Hb as [-> ->]. }
  apply Forall_cons in Hok as [[Hes Hei] Hok]. specialize (IH Hok).
  assert (match u with Some until => (until <? ev_id e)%N | None => false end =
          negb (LogSpec.within u e)) as ->.
  { unfold LogSpec.within. destruct u as [u|]; [|done].
    destruct (N.ltb_spec u (ev_id e)), (N.leb_spec (ev_id e) u); done || lia. }
  destruct (LogSpec.within u e) eqn:Hw; cbn [negb].
  2:{ rewrite fork_prefix_break //; [|by constructor]. exists m. cbn. rewrite Nat.add_0_r.
      split; [done|]. split; [done|]. intros s' b. unfold here. case_bool_decide as Hb; [|done].
      by destruct Hb as [-> ->]. }
  set (e' := set_branch dst e). assert ((ev_id e' <= u64_max)%N) as He' by done.
  destruct (IH (<[key_of e' := e']> m)
    (match m !! key_of e' with None => S n | Some _ => n end)) as (m' & Hloop & Hm' & Hlogs);
    [by apply mem_inv_insert|].
  exists m'. rewrite fork_prefix_cons Hw. split; [|split; [done|]].
  - rewrite Hloop. f_equal. rewrite filter_cons.
    assert (filter (fun x => ev_id x ∉ ev_id <$> mem_logs (<[key_of e':=e']> m) s dst)
              (LogSpec.fork_prefix u src) =
            filter (fun x => ev_id x ∉ ev_id <$> mem_logs m s dst) (LogSpec.fork_prefix u src)) as ->.
    { apply filter_ext_elem. intros x [_ Hx]%list_elem_of_filter.
      rewrite !mem_logs_elem_ids //; last by apply mem_inv_insert.
      rewrite lookup_insert_ne //. unfold key_of. cbn. intros [= _ E].
      rewrite Forall_forall in He. specialize (He x Hx). unfold id_lt in He. lia. }
    assert (is_Some (m !! key_of e') <-> ev_id e ∈ ev_id <$> mem_logs m s dst) as Hin.
    { rewrite mem_logs_elem_ids // /key_of /= Hes. done. }
    destruct (m !! key_of e') eqn:Hk.
    + rewrite decide_False; [done|]. intros Hn. apply Hn, Hin. by eexists.
    + rewrite decide_True; [cbn; lia|]. intros Hn%Hin. by destruct Hn.
  - intros s' b. rewrite Hlogs. unfold here. cbn [foldl].
    rewrite !mem_logs_put // /here /= Hes. rewrite (bool_decide_true (s = s /\ dst = dst)) //.
    case_bool_decide; done.
Qed.

Lemma mem_fork_spec s src dst u m :
  mem_inv m -> exists m',
    mem_fork s src dst u m = (Ok (LogSpec.fork_count s src dst u (mem_logs m)), m') /\
    mem_inv m' /\ mem_logs m' ≡ₗ LogSpec.fork s src dst u (mem_logs m).
Proof.
  intros Hm. pose proof (mem_logs_ok m s src Hm) as [Hs Hf].
  destruct (fork_loop_spec s dst u (mem_logs m s src) m 0 Hm Hs) as (m' & Hloop & Hm' & Hl).
  { eapply Forall_impl; [exact Hf|]. cbn. tauto. }
  exists m'. unfold mem_fork. change (snd <$> range m s src 0 u64_max) with (mem_logs m s src).
  rewrite Hloop. done.
Qed.

(** Deleting keys filters the logs. *)
Lemma mem_delete_keys m (keys : list EventKey) s b :
  mem_inv m ->
  mem_inv (foldr delete m keys) /\
  mem_logs (foldr delete m keys) s b = filter (fun e => (s, b, ev_id e) ∉ keys) (mem_logs m s b).
Proof.
  intros Hm. assert (mem_inv (foldr delete m keys)) as Hm'
    by (eapply mem_inv_subseteq; [done|apply foldr_delete_subseteq]).
  split; [done|]. apply mem_logs_eq; [done|by apply filter_sorted, mem_logs_ok|].
  intros e. rewrite list_elem_of_filter elem_of_mem_logs // lookup_foldr_delete_Some. done.
Qed.

Lemma mem_clear_spec s m :
  mem_inv m -> exists m', mem_clear_session s m = (Ok (), m') /\ mem_inv m' /\
    mem_logs m' ≡ₗ LogSpec.clear_session s (mem_logs m).
Proof.
  intros Hm. unfold mem_clear_session. set (keys := filter _ _). eexists. split; [done|].
  split; [by apply (mem_delete_keys m keys "" "")|].
  intros s' b. rewrite (proj2 (mem_delete_keys m keys s' b Hm)). unfold LogSpec.clear_session.
  assert (forall e, e ∈ mem_logs m s' b -> (s', b, ev_id e) ∈ keys <-> s' = s) as Hk.
  { intros e He%elem_of_mem_logs; [|done]. unfold keys. rewrite list_elem_of_filter /=.
    assert ((s', b, ev_id e) ∈ (map_to_list m).*1); [|tauto].
    apply list_elem_of_fmap. exists (s', b, ev_id e, e). by rewrite elem_of_map_to_list. }
  case_bool_decide as Hs.
  - apply filter_out. intros e He Hn. by apply Hn, Hk.
  - apply filter_all. intros e He Hn%Hk; done.
Qed.

Lemma mem_delete_before_spec s b n m :
  mem_inv m -> exists m', mem_delete_before s b n m = (Ok (), m') /\ mem_inv m' /\
    mem_logs m' ≡ₗ LogSpec.delete_before s b n (mem_logs m).
Proof.
  intros Hm. unfold mem_delete_before. destruct (N.eqb_spec n 0) as [->|Hn].
  { exists m. split; [done|]. split; [done|]. intros s' b'. unfold LogSpec.delete_before.
    case_match; [|done]. rewrite filter_all //. intros; lia. }
  set (keys := (range m s b 0 (n - 1)).*1). eexists. split; [done|].
  split; [by apply (mem_delete_keys m keys "" "")|].
  intros s' b'. rewrite (proj2 (mem_delete_keys m keys s' b' Hm)). unfold LogSpec.delete_before.
  assert (forall e, e ∈ mem_logs m s' b' ->
            (s', b', ev_id e) ∈ keys <-> (s' = s /\ b' = b) /\ (ev_id e < n)%N) as Hk.
  { intros e He%elem_of_mem_logs; [|done]. unfold keys. rewrite list_elem_of_fmap. split.
    - intros ([k e'] & Ek & (_ & Hkk & ? & ?)%elem_of_range). cbn in Ek. subst k. cbn in *.
      split; [naive_solver|lia].
    - intros [[-> ->] Hlt]. exists (s, b, ev_id e, e). split; [done|]. apply elem_of_range.
      cbn. repeat split; [done|lia|lia]. }
  unfold here. case_bool_decide as Hb.
  - apply filter_ext_elem. intros e He. rewrite (Hk e He). split; [|intros ? [_ ?]; lia].
    intros Hni. destruct (decide (n <= ev_id e)%N); [done|]. exfalso. apply Hni. split; [done|lia].
  - apply filter_all. intros e He. rewrite (Hk e He). tauto.
Qed.

Lemma mem_read_spec s b after m :
  mem_inv m -> mem_read s b after m = (Ok (LogSpec.read after (mem_logs m s b)), m).
Proof.
  intros Hm. unfold mem_read. rewrite mem_range_logs //. do 2 f_equal.
  apply filter_ext_elem. intros e He%elem_of_mem_logs; [|done].
  destruct (Hm _ _ He) as [_ Hmax]. cbn in Hmax. tauto.
Qed.

Lemma mem_latest_spec s b m :
  mem_inv m -> mem_latest_id s b m = (Ok (LogSpec.latest_id (mem_logs m s b)), m).
Proof.
  intros Hm. unfold mem_latest_id, LogSpec.latest_id. do 3 f_equal. unfold mem_logs.
  rewrite fmap_last. destruct (last (range m s b 0 u64_max)) as [[k e]|] eqn:El; [|done]. cbn.
  apply last_Some_elem_of, elem_of_range in El as [Hk _]. destruct (Hm _ _ Hk) as [<- _]. done.
Qed.

(** ** The class *)

Global Program Instance memory_event_log : EventLog memory_event_store := {|
  el_inv := mem_inv;
  el_logs := mem_logs;
|}.
Next Obligation. intros. by apply mem_logs_ok. Qed.
Next Obligation.
  intros e He m r m' Hm [= <- <-]. split; [by apply mem_inv_or_insert|by apply mem_logs_add].
Qed.
Next Obligation. intros es Hes m r m' Hm [= <- <-]. by apply mem_batch. Qed.
Next Obligation.
  intros s b after m r m' Hm. cbn. rewrite mem_read_spec //. by intros [= <- <-].
Qed.
Next Obligation. intros s b i j m r m' Hm [= <- <-]. done. Qed.
Next Obligation.
  intros s src dst u m r m' Hm. destruct (mem_fork_spec s src dst u m Hm) as (m'' & E & ? & ?).
  cbn. rewrite E. by intros [= <- <-].
Qed.
Next Obligation.
  intros s b m r m' Hm. cbn. rewrite mem_latest_spec //. by intros [= <- <-].
Qed.
Next Obligation.
  intros s m r m' Hm. destruct (mem_clear_spec s m Hm) as (m'' & E & ? & ?).
  cbn. rewrite E. by intros [= <- <-].
Qed.
Next Obligation.
  intros s b n m r m' Hm. destruct (mem_delete_before_spec s b n m Hm) as (m'' & E & ? & ?).
  cbn. rewrite E. by intros [= <- <-].
Qed.

(** ** Sequences of trait calls *)

Inductive Call : Type :=
| CAppend (e : SessionEvent)
| CAppendBatch (es : list SessionEvent)
| CRead (s b : string) (after : option N)
| CReadTurns (s b : string) (i j : N)
| CFork (s src dst : string) (until_id : option N)
| CLatestId (s b : string)
| CClear (s : string)
| CDeleteBefore (s b : string) (n : N).

Inductive Reply : Type :=
| RUnit
| REvents (l : list SessionEvent)
| RCount (n : nat)
| RId (n : N).

(** The events of a call have a [u64] id. *)
Definition call_ok (c : Call) : Prop :=
  match c with
  | CAppend e => (ev_id e <= u64_max)%N
  | CAppendBatch es => Forall (fun e => (ev_id e <= u64_max)%N) es
  | _ => True
  end.

Definition exec {C} (st : EventStore C) (c : Call) : Act C SessionError Reply :=
  match c with
  | CAppend e => es_append st e ;; mret RUnit
  | CAppendBatch es => es_append_batch st es ;; mret RUnit
  | CRead s b after => l ← es_read st s b after; mret (REvents l)
  | CReadTurns s b i j => l ← es_read_turns_range st s b i j; mret (REvents l)
  | CFork s src dst u => n ← es_fork st s src dst u; mret (RCount n)
  | CLatestId s b => n ← es_latest_id st s b; mret (RId n)
  | CClear s => es_clear_session st s ;; mret RUnit
  | CDeleteBefore s b n => es_delete_before st s b n ;; mret RUnit
  end.

(** The replies, failures included, and the store reached. *)
Fixpoint exec_all {C} (st : EventStore C) (cs : list Call) (c : C)
    : list (SessionResult Reply) * C :=
  match cs with
  | [] => ([], c)
  | call :: cs' =>
      let '(r, c1) := exec st call c in
      let '(rs, c2) := exec_all st cs' c1 in
      (r :: rs, c2)
  end.

Definition spec_exec (c : Call) (L : Logs) : Reply * Logs :=
  match c with
  | CAppend e => (RUnit, LogSpec.append e L)
  | CAppendBatch es => (RUnit, LogSpec.append_batch es L)
  | CRead s b after => (REvents (LogSpec.read after (L s b)), L)
  | CReadTurns s b i j => (REvents (LogSpec.read_turns_range i j (L s b)), L)
  | CFork s src dst u => (RCount (LogSpec.fork_count s src dst u L), LogSpec.fork s src dst u L)
  | CLatestId s b => (RId (LogSpec.latest_id (L s b)), L)
  | CClear s => (RUnit, LogSpec.clear_session s L)
  | CDeleteBefore s b n => (RUnit, LogSpec.delete_before s b n L)
  end.

Fixpoint spec_exec_all (cs : list Call) (L : Logs) : list Reply * Logs :=
  match cs with
  | [] => ([], L)
  | call :: cs' =>
      let '(r, L1) := spec_exec call L in
      let '(rs, L2) := spec_exec_all cs' L1 in
      (r :: rs, L2)
  end.

Lemma spec_exec_proper c L L' :
  L ≡ₗ L' -> (spec_exec c L).1 = (spec_exec c L').1 /\ (spec_exec c L).2 ≡ₗ (spec_exec c L').2.
Proof.
  intros H. destruct c as [e|es|s b after|s b i j|s src dst u|s b|s|s b n]; cbn;
    (split; [|by rewrite ?H]); try done.
  - by rewrite (H s b).
  - by rewrite (H s b).
  - unfold LogSpec.fork_count. by rewrite (H s src) (H s dst).
  - by rewrite (H s b).
Qed.

(** One call: the same reply, and the abstraction of the new store. *)
Lemma mem_exec_step c m :
  mem_inv m -> call_ok c ->
  exists m', exec memory_event_store c m = (Ok (spec_exec c (mem_logs m)).1, m') /\
    mem_inv m' /\ mem_logs m' ≡ₗ (spec_exec c (mem_logs m)).2.
Proof.
  intros Hm Hc. destruct c as [e|es|s b after|s b i j|s src dst u|s b|s|s b n]; cbn in Hc.
  - eexists. split; [done|]. split; [by apply mem_inv_or_insert|by apply mem_logs_add].
  - eexists. split; [done|]. by apply mem_batch.
  - exists m. unfold exec, mbind, act_bind.
    cbn [memory_event_store es_read es_fork es_latest_id es_clear_session es_delete_before]. by rewrite mem_read_spec.
  - exists m. done.
  - destruct (mem_fork_spec s src dst u m Hm) as (m' & E & ? & ?). exists m'.
    unfold exec, mbind, act_bind.
    cbn [memory_event_store es_read es_fork es_latest_id es_clear_session es_delete_before]. by rewrite E.
  - exists m. unfold exec, mbind, act_bind.
    cbn [memory_event_store es_read es_fork es_latest_id es_clear_session es_delete_before]. by rewrite mem_latest_spec.
  - destruct (mem_clear_spec s m Hm) as (m' & E & ? & ?). exists m'.
    unfold exec, mbind, act_bind.
    cbn [memory_event_store es_read es_fork es_latest_id es_clear_session es_delete_before]. by rewrite E.
  - destruct (mem_delete_before_spec s b n m Hm) as (m' & E & ? & ?). exists m'.
    unfold exec, mbind, act_bind.
    cbn [memory_event_store es_read es_fork es_latest_id es_clear_session es_delete_before]. by rewrite E.
Qed.

Lemma mem_exec_all cs m L :
  mem_inv m -> mem_logs m ≡ₗ L -> Forall call_ok cs ->
  exists m', exec_all memory_event_store cs m = (Ok <$> (spec_exec_all cs L).1, m') /\
    mem_inv m' /\ mem_logs m' ≡ₗ (spec_exec_all cs L).2.
Proof.
  intros Hm HL Hcs. revert m L Hm HL. induction Hcs as [|c cs Hc Hcs IH]; intros m L Hm HL.
  { by exists m. }
  destruct (mem_exec_step c m Hm Hc) as (m1 & E1 & Hm1 & HL1).
  destruct (spec_exec_proper c _ _ HL) as [Hr Hl].
  cbn [exec_all spec_exec_all]. rewrite E1 Hr. rewrite Hl in HL1.
  destruct (spec_exec c L) as [r L1]. cbn in *.
  destruct (IH m1 L1 Hm1 HL1) as (m2 & E2 & Hm2 & HL2). exists m2. rewrite E2.
  by destruct (spec_exec_all cs L1).
Qed.

Lemma event_inv_empty : mem_inv ∅.
Proof. intros k e. by rewrite lookup_empty. Qed.

Lemma mem_logs_empty : mem_logs ∅ ≡ₗ fun _ _ => [].
Proof.
  intros s b. apply mem_logs_eq; [apply event_inv_empty|constructor|]. intros e.
  rewrite lookup_empty. split; [by intros ?%elem_of_nil|done].
Qed.

(** C7: The in-memory event store refines the specification of the trait: over any
    sequence of calls from the empty store (appends, batches, reads, turn ranges,
    forks, clears and prefix deletions), no call fails, every reply is the one
    [LogSpec] computes on plain id-ordered logs, and the logs of the store reached
    are those of the specification. *)
Theorem memory_event_store_refines cs :
  Forall call_ok cs ->
  exists m, exec_all memory_event_store cs ∅ =
      (Ok <$> (spec_exec_all cs (fun _ _ => [])).1, m) /\
    mem_logs m ≡ₗ (spec_exec_all cs (fun _ _ => [])).2.
Proof.
  intros Hcs.
  destruct (mem_exec_all cs ∅ _ event_inv_empty mem_logs_empty Hcs) as (m & E & _ & HL). eauto.
Qed.

(** The in-memory event store is well typed after any sequence of calls: every
    event sits under its own session, branch and 64-bit id, and a read of a branch
    with any [after] whose successor does not overflow returns exactly the stored
    events of that session and branch with a larger id, in strictly ascending id
    order. *)
Theorem event_store_typed cs replies m s b after :
  Forall call_ok cs -> exec_all memory_event_store cs ∅ = (replies, m) ->
  (default 0%N after < u64_max)%N ->
  (forall k e, m !! k = Some e -> key_of e = k /\ (ev_id e <= u64_max)%N) /\
  exists l, es_read memory_event_store s b after m = (Ok l, m) /\ StronglySorted id_lt l /\
    (forall e, e ∈ l <-> m !! (s, b, ev_id e) = Some e /\ (default 0 after < ev_id e)%N).
Proof.
  intros Hcs E Ha.
  destruct (mem_exec_all cs ∅ _ event_inv_empty mem_logs_empty Hcs) as (m' & E' & Hm & _).
  rewrite E in E'. injection E' as _ <-. split.
  { intros k e Hk. by destruct (Hm k e Hk) as [<- Hmax]. }
  exists (LogSpec.read after (mem_logs m s b)). cbn [memory_event_store es_read]. rewrite mem_read_spec //. split; [done|].
  split; [by apply filter_sorted, mem_logs_ok|]. intros e. unfold LogSpec.read.
  rewrite list_elem_of_filter elem_of_mem_logs // u64_add_small; last lia.
  split; intros [? ?]; (split; [lia || done|lia || done]).
Qed.
