(* ===== verification/SessionCheckpoint.v ===== *)
(** * Session checkpoints ([crates/lc-sessions/src/events/checkpoint.rs])

    [SessionCheckpoint K] is the trait object, over a store [K] of snapshots;
    [CheckpointStore] is the class of implementations that keep at most the last
    saved snapshot of each key of a domain [D] and never mix two keys up.
    [NoopCheckpoint] and [FileCheckpoint] are the two implementations.

    A [FileSystem] is the checkpoint directory: file names to contents, with the
    process-wide counter of temporary names and a tick that tells the I/O
    operations apart.  [io] is the operating system: whether an operation fails, at
    which tick, and with which message; a failing write may leave any bytes behind.
    serde's encoding of a record is a parameter with its documented round trip. *)

From S2P Require Import Prelude Json Message Session Replay.
From stdpp Require Import gmap strings list pretty.
From Stdlib Require Import Ascii.

(** ** The trait *)

Record SessionCheckpoint (K : Type) := mkSessionCheckpoint {
  cp_save : string -> string -> N -> ProjectedSession -> Act K SessionError ();
  cp_latest : string -> string -> Act K SessionError (option (N * ProjectedSession));
  cp_remove : string -> string -> Act K SessionError ();
}.
Arguments mkSessionCheckpoint {K} _ _ _.
Arguments cp_save {K} _ _ _ _ _.
Arguments cp_latest {K} _ _ _.
Arguments cp_remove {K} _ _ _.

(** The default body of [remove]. *)
Definition default_remove {K} (session_id branch : string) : Act K SessionError () := mret ().

Definition NoopCheckpoint {K} : SessionCheckpoint K :=
  mkSessionCheckpoint (fun _ _ _ _ => mret ()) (fun _ _ => mret None) default_remove.

(** ** The contract *)

Class CheckpointStore {K} (cp : SessionCheckpoint K) (D : string -> string -> Prop) := {
  ck_get : K -> string -> string -> option (N * ProjectedSession);
  ck_latest s b k r k' : D s b -> cp_latest cp s b k = (r, k') ->
    (forall s' b', D s' b' -> ck_get k' s' b' = ck_get k s' b') /\
    (forall o, r = Ok o -> o = ck_get k s b);
  ck_save s b n p k r k' : D s b -> cp_save cp s b n p k = (r, k') ->
    (forall s' b', D s' b' -> (s', b') <> (s, b) -> ck_get k' s' b' = ck_get k s' b') /\
    match r with
    | Ok _ => ck_get k' s b = Some (n, p) \/ ck_get k' s b = None
    | Err _ => ck_get k' s b = ck_get k s b
    end;
  ck_remove s b k r k' : D s b -> cp_remove cp s b k = (r, k') ->
    (forall s' b', D s' b' -> (s', b') <> (s, b) -> ck_get k' s' b' = ck_get k s' b') /\
    (ck_get k' s b = None \/ ck_get k' s b = ck_get k s b);
}.

Global Program Instance noop_checkpoint_store {K} D : CheckpointStore (@NoopCheckpoint K) D := {|
  ck_get := fun _ _ _ => None;
|}.
Next Obligation. intros K D s b k r k' _ [= <- <-]. by split; [|intros o [= <-]]. Qed.
Next Obligation. intros K D s b n p k r k' _ [= <- <-]. auto. Qed.
Next Obligation. intros K D s b k r k' _ _. auto. Qed.

(** ** File names *)

Definition CHECKPOINT_FORMAT_VERSION : N := 1.
Definition MAX_STEM_CHARS : nat := 64.

(** FNV-1a on the bytes of a string, in wrapping 64-bit arithmetic. *)
Definition FNV_OFFSET : N := 14695981039346656037.
Definition FNV_PRIME : N := 1099511628211.
Definition wrapping_mul (a b : N) : N := ((a * b) mod 18446744073709551616)%N.

Fixpoint fnv_from (acc : N) (s : string) : N :=
  match s with
  | EmptyString => acc
  | String b s' => fnv_from (wrapping_mul (N.lxor acc (N_of_ascii b)) FNV_PRIME) s'
  end.
Definition hash64 (raw : string) : N := fnv_from FNV_OFFSET raw.

Definition is_stem_char (c : ascii) : bool :=
  is_ascii_alphanumeric c || bool_decide (c = "."%char) || bool_decide (c = "_"%char) ||
  bool_decide (c = "-"%char).

(** A byte of a UTF-8 string that continues a character. *)
Definition is_continuation (c : ascii) : bool := in_range 128 191 c.

(** [raw.chars()], each character shown by its first byte; [take(n)]; the map.  A
    character outside ASCII starts with a byte [is_stem_char] rejects. *)
Fixpoint sanitize_chars (n : nat) (raw : string) : string :=
  match n, raw with
  | 0, _ => EmptyString
  | _, EmptyString => EmptyString
  | S n', String c raw' =>
      if is_continuation c then sanitize_chars n raw'
      else String (if is_stem_char c then c else "_"%char) (sanitize_chars n' raw')
  end.

Definition sanitize (raw : string) : string :=
  let out := sanitize_chars MAX_STEM_CHARS raw in
  if out =ₛ "" then "_" else out.

(** [{:016x}]: the sixteen hexadecimal digits of a 64-bit number *)
Definition hex16 (n : N) : string := hex_digits 16 n.

Definition file_stem (session_id branch : string) : string :=
  sanitize session_id +:+ "-" +:+ hex16 (hash64 session_id) +:+ "__" +:+
  sanitize branch +:+ "-" +:+ hex16 (hash64 branch).

(** ** The file checkpoint *)

Record CheckpointRecord := mkCheckpointRecord {
  cr_version : N;
  cr_up_to_id : N;
  cr_projection : ProjectedSession;
}.

Record FileSystem := mkFileSystem {
  fs_files : gmap string string;
  fs_seq : N;
  fs_tick : N;
}.

Inductive FsOp : Type :=
| FsCreateDir
| FsWrite (name : string)
| FsRename (src dst : string)
| FsRead (name : string)
| FsRemove (name : string).

Section file_checkpoint.
Context (dir : string) (process_id : N).
Context (to_vec : CheckpointRecord -> result string string).
Context (from_slice : string -> result string CheckpointRecord).
Context (io : N -> FsOp -> IoResult).

Definition path_for (session_id branch : string) : string := file_stem session_id branch +:+ ".json".
Definition display (name : string) : string := dir +:+ "/" +:+ name.

Definition set_files (f : gmap string string) (fs : FileSystem) : FileSystem :=
  mkFileSystem f (fs_seq fs) (fs_tick fs + 1).

(** The outcome of one operation; [msg] is what the caller wraps it in. *)
Definition fs_op (op : FsOp) (msg : string -> string)
    (run : gmap string string -> gmap string string)
    (broken : string -> gmap string string -> gmap string string)
    : Act FileSystem SessionError () := fun fs =>
  match io (fs_tick fs) op with
  | IoDone => (Ok (), set_files (run (fs_files fs)) fs)
  | IoFails e left_behind =>
      (Err (StoreError (msg e)), set_files (broken left_behind (fs_files fs)) fs)
  end.

Definition create_dir_all : Act FileSystem SessionError () :=
  fs_op FsCreateDir (fun e => "failed to create checkpoint dir " +:+ dir +:+ ": " +:+ e)
    (fun f => f) (fun _ f => f).

Definition write_file (name bytes : string) : Act FileSystem SessionError () :=
  fs_op (FsWrite name)
    (fun e => "failed to write checkpoint " +:+ display name +:+ ": " +:+ e)
    <[name := bytes]> (fun left_behind => <[name := left_behind]>).

(** Renaming a file that is not there fails. *)
Definition rename_file (src dst : string) : Act FileSystem SessionError () := fun fs =>
  let msg e := "failed to commit checkpoint " +:+ display dst +:+ ": " +:+ e in
  match fs_files fs !! src with
  | None => (Err (StoreError (msg "No such file or directory")), set_files (fs_files fs) fs)
  | Some bytes =>
      fs_op (FsRename src dst) msg (fun f => <[dst := bytes]> (delete src f)) (fun _ f => f) fs
  end.

(** [Self::tmp_path]: the counter is read and bumped. *)
Definition tmp_path (path : string) : Act FileSystem SessionError string := fun fs =>
  (Ok (path +:+ ".tmp-" +:+ pretty process_id +:+ "-" +:+ pretty (fs_seq fs)),
   mkFileSystem (fs_files fs) (u64_add (fs_seq fs) 1) (fs_tick fs)).

Definition remove_file (name : string) (msg : string -> string) : Act FileSystem SessionError () :=
  fs_op (FsRemove name) msg (delete name) (fun _ f => f).

Definition file_save (session_id branch : string) (up_to_id : N) (projection : ProjectedSession)
    : Act FileSystem SessionError () :=
  let path := path_for session_id branch in
  let record := mkCheckpointRecord CHECKPOINT_FORMAT_VERSION up_to_id projection in
  bytes ← act_of_result (map_err
    (fun e => StoreError ("failed to encode checkpoint for " +:+ session_id +:+ "/" +:+ branch +:+
                          ": " +:+ e)) (to_vec record));
  create_dir_all ;;
  tmp ← tmp_path path;
  write_file tmp bytes ;;
  committed ← try_act (rename_file tmp path);
  match committed with
  | Ok _ => mret ()
  | Err e => try_act (remove_file tmp (fun e => e)) ;; act_fail e
  end.

Definition file_latest (session_id branch : string)
    : Act FileSystem SessionError (option (N * ProjectedSession)) := fun fs =>
  let path := path_for session_id branch in
  let fs' := set_files (fs_files fs) fs in
  match fs_files fs !! path with
  | None => (Ok None, fs')
  | Some bytes =>
      match io (fs_tick fs) (FsRead path) with
      | IoFails e _ =>
          (Err (StoreError ("failed to read checkpoint " +:+ display path +:+ ": " +:+ e)), fs')
      | IoDone =>
          match from_slice bytes with
          | Err e => (Err (StoreError ("corrupt checkpoint " +:+ display path +:+ ": " +:+ e)), fs')
          | Ok record =>
              if (CHECKPOINT_FORMAT_VERSION <? cr_version record)%N
              then (Err (StoreError ("checkpoint " +:+ display path +:+ " uses format version " +:+
                      pretty (cr_version record) +:+ " but this build understands " +:+
                      pretty CHECKPOINT_FORMAT_VERSION)), fs')
              else (Ok (Some (cr_up_to_id record, cr_projection record)), fs')
          end
      end
  end.

(** Removing a file that is not there is a success. *)
Definition file_remove (session_id branch : string) : Act FileSystem SessionError () := fun fs =>
  let path := path_for session_id branch in
  match fs_files fs !! path with
  | None => (Ok (), set_files (fs_files fs) fs)
  | Some _ =>
      remove_file path (fun e => "failed to remove checkpoint " +:+ display path +:+ ": " +:+ e) fs
  end.

Definition FileCheckpoint : SessionCheckpoint FileSystem :=
  mkSessionCheckpoint file_save file_latest file_remove.

End file_checkpoint.

(** * The file checkpoint keeps its contract

    A temporary name ends in a digit and a checkpoint file in [.json], so scratch
    files never shadow a snapshot ([tmp_not_path]); every failure of a save leaves
    all snapshots as they were ([file_save_spec]).  On keys whose file names
    differ, [file_checkpoint_store] discharges the [CheckpointStore] class.  File
    names are not injective: [file_stem_collision]. *)

(** ** Names *)

Lemma pretty_N_go_suffix x s : exists p, pretty_N_go x s = p +:+ s.
Proof.
  revert s. induction (N.lt_wf_0 x) as [x _ IH]. intros s.
  destruct (decide (x = 0%N)) as [->|Hx].
  { exists "". by rewrite pretty_N_go_0. }
  rewrite pretty_N_go_step; last lia.
  destruct (IH (x `div` 10)%N) with (s := String (pretty_N_char (x `mod` 10)) s) as [p Hp].
  { apply N.div_lt; lia. }
  rewrite Hp. exists (p +:+ String (pretty_N_char (x `mod` 10)) EmptyString).
  by rewrite string_app_assoc.
Qed.

Lemma pretty_N_last (n : N) : exists d, last_char (pretty n) = Some (pretty_N_char d).
Proof.
  unfold pretty, pretty_N. case_decide as Hn; [by exists 0%N|].
  rewrite pretty_N_go_step; last lia. destruct (pretty_N_go_suffix (n `div` 10)
    (String (pretty_N_char (n `mod` 10)) "")) as [p ->]. eexists. apply last_char_app.
Qed.

Lemma tmp_not_path path (pid seq : N) s b :
  path +:+ ".tmp-" +:+ pretty pid +:+ "-" +:+ pretty seq <> path_for s b.
Proof.
  intros E%(f_equal last_char). destruct (pretty_N_last seq) as [d Hd].
  assert (pretty seq <> EmptyString) as Hne by by intros H; rewrite H in Hd.
  rewrite -!string_app_assoc last_char_app_r // Hd in E. unfold path_for in E.
  rewrite last_char_app_r // in E. cbn in E. injection E as E.
  revert E. unfold pretty_N_char. repeat case_match; done.
Qed.

(** Two session ids of the same sanitized prefix and FNV-1a hash share their
    files: hashing the raw value does not make names unique. *)
Definition colliding_prefix : string :=
  "aaaaaaaaaaaaaaaaaaaaaaaaaaaaaaaaaaaaaaaaaaaaaaaaaaaaaaaaaaaaaaaa".

Lemma file_stem_collision branch :
  file_stem (colliding_prefix +:+ "fYc8g9WCnRF") branch =
  file_stem (colliding_prefix +:+ "jYSmfFdl1-E") branch /\
  colliding_prefix +:+ "fYc8g9WCnRF" <> colliding_prefix +:+ "jYSmfFdl1-E".
Proof.
  split; [|done]. unfold file_stem.
  assert (sanitize (colliding_prefix +:+ "fYc8g9WCnRF") =
          sanitize (colliding_prefix +:+ "jYSmfFdl1-E")) as -> by by vm_compute.
  assert (hash64 (colliding_prefix +:+ "fYc8g9WCnRF") =
          hash64 (colliding_prefix +:+ "jYSmfFdl1-E")) as -> by by vm_compute.
  done.
Qed.

(** The characters of a file name: nothing that could leave the directory. *)
Lemma sanitize_stem_chars raw : str_forall is_stem_char (sanitize raw) = true.
Proof.
  unfold sanitize. case_bool_decide; [done|]. generalize MAX_STEM_CHARS. clear.
  induction raw as [|c raw IH]; intros [|n]; try done. cbn.
  destruct (is_continuation c); [apply IH|]. cbn. rewrite IH andb_true_r.
  by destruct (is_stem_char c) eqn:Hc.
Qed.

Lemma hex_digit_stem n : is_stem_char (hex_digit n) = true.
Proof. unfold hex_digit. repeat case_match; reflexivity. Qed.

Lemma hex_digits_stem k n : str_forall is_stem_char (hex_digits k n) = true.
Proof. induction k as [|k IH]; [done|]. cbn [hex_digits str_forall]. by rewrite hex_digit_stem IH. Qed.

Lemma path_for_chars s b : str_forall is_stem_char (path_for s b) = true.
Proof.
  unfold path_for, file_stem, hex16. by rewrite !str_forall_app !sanitize_stem_chars !hex_digits_stem.
Qed.

(** ** Saving and reading back *)

Section facts.
Context (dir : string) (process_id : N).
Context (to_vec : CheckpointRecord -> result string string).
Context (from_slice : string -> result string CheckpointRecord).
Context (io : N -> FsOp -> IoResult).
(** serde's documented round trip on a record. *)
Context (decode_encode : forall r bytes, to_vec r = Ok bytes -> from_slice bytes = Ok r).

Notation save := (file_save dir process_id to_vec io).
Notation latest := (file_latest dir from_slice io).
Notation remove := (file_remove dir io).

(** The snapshot a file holds. *)
Definition stored (fs : FileSystem) (s b : string) : option (N * ProjectedSession) :=
  bytes ← fs_files fs !! path_for s b;
  match from_slice bytes with
  | Ok r => if (CHECKPOINT_FORMAT_VERSION <? cr_version r)%N then None
            else Some (cr_up_to_id r, cr_projection r)
  | Err _ => None
  end.

Definition same_snapshots (f f' : gmap string string) : Prop :=
  forall s b, f' !! path_for s b = f !! path_for s b.

Lemma fs_op_spec op msg run broken fs r fs' :
  fs_op io op msg run broken fs = (r, fs') ->
  (r = Ok () /\ fs_files fs' = run (fs_files fs)) \/
  (exists e junk, r = Err e /\ fs_files fs' = broken junk (fs_files fs)).
Proof. unfold fs_op. destruct (io _ _); intros [= <- <-]; cbn; eauto 6. Qed.

Lemma file_save_spec s b n p fs r fs' :
  save s b n p fs = (r, fs') ->
  match r with
  | Ok _ => exists bytes, to_vec (mkCheckpointRecord CHECKPOINT_FORMAT_VERSION n p) = Ok bytes /\
      forall s' b', fs_files fs' !! path_for s' b' =
        if bool_decide (path_for s' b' = path_for s b) then Some bytes
        else fs_files fs !! path_for s' b'
  | Err _ => same_snapshots (fs_files fs) (fs_files fs')
  end.
Proof.
  unfold file_save, mbind, act_bind, act_of_result.
  destruct (to_vec _) as [bytes|e] eqn:Hb; cbn [map_err]; [|by intros [= <- <-]].
  unfold create_dir_all. destruct (fs_op _ _ _ _ _ fs) as [r1 fs1] eqn:E1.
  apply fs_op_spec in E1 as [[-> H1]|(e & junk & -> & H1)]; [|intros [= <- <-]; by rewrite H1].
  cbn [tmp_path]. set (tmp := path_for s b +:+ _). set (fs2 := mkFileSystem _ _ _).
  assert (forall s' b', tmp <> path_for s' b') as Htmp by (intros; apply tmp_not_path).
  unfold write_file. destruct (fs_op _ _ _ _ _ fs2) as [r3 fs3] eqn:E3.
  apply fs_op_spec in E3 as [[-> H3]|(e & junk & -> & H3)]; cbn in H3; rewrite H1 in H3.
  2:{ intros [= <- <-]. intros s' b'. rewrite H3 lookup_insert_ne //. }
  unfold try_act, rename_file. rewrite H3 lookup_insert_eq.
  destruct (fs_op _ _ _ _ _ fs3) as [r4 fs4] eqn:E4.
  apply fs_op_spec in E4 as [[-> H4]|(e & junk & -> & H4)]; rewrite H3 in H4.
  - intros [= <- <-]. exists bytes. split; [done|]. intros s' b'. rewrite H4.
    case_bool_decide as Hp; [by rewrite Hp lookup_insert_eq|].
    rewrite lookup_insert_ne; last done. rewrite lookup_delete_ne // lookup_insert_ne //.
  - unfold remove_file. destruct (fs_op _ _ _ _ _ fs4) as [r5 fs5] eqn:E5.
    intros [= <- <-]. intros s' b'.
    apply fs_op_spec in E5 as [[_ H5]|(e' & junk' & _ & H5)]; rewrite H5 H4.
    + rewrite lookup_delete_ne // lookup_insert_ne //.
    + rewrite lookup_insert_ne //.
Qed.

Lemma stored_same fs fs' s b : same_snapshots (fs_files fs) (fs_files fs') ->
  stored fs' s b = stored fs s b.
Proof. intros H. unfold stored. by rewrite H. Qed.

Lemma stored_ne fs fs' s b :
  fs_files fs' !! path_for s b = fs_files fs !! path_for s b -> stored fs' s b = stored fs s b.
Proof. intros H. unfold stored. by rewrite H. Qed.

Lemma file_latest_spec s b fs r fs' :
  latest s b fs = (r, fs') ->
  fs_files fs' = fs_files fs /\ (forall o, r = Ok o -> o = stored fs s b).
Proof.
  unfold file_latest, stored. destruct (fs_files fs !! path_for s b) as [bytes|] eqn:E.
  2:{ intros [= <- <-]. split; [done|]. by intros o [= <-]. }
  cbn. destruct (io _ _); [|by intros [= <- <-]].
  destruct (from_slice bytes) as [rec|]; [|by intros [= <- <-]].
  destruct (_ <? _)%N; intros [= <- <-]; (split; [done|]); by intros o [= <-].
Qed.

Lemma file_remove_spec s b fs r fs' :
  remove s b fs = (r, fs') ->
  fs_files fs' = fs_files fs \/ fs_files fs' = delete (path_for s b) (fs_files fs).
Proof.
  unfold file_remove, remove_file. destruct (fs_files fs !! path_for s b) eqn:E.
  - intros [[_ H]|(e & junk & _ & H)]%fs_op_spec; auto.
  - intros [= <- <-]. by left.
Qed.

Section store.
Context (D : string -> string -> Prop).
Context (distinct : forall s b s' b', D s b -> D s' b' ->
  path_for s b = path_for s' b' -> (s, b) = (s', b')).

Global Program Instance file_checkpoint_store :
    CheckpointStore (FileCheckpoint dir process_id to_vec from_slice io) D := {|
  ck_get := stored;
|}.
Next Obligation.
  intros s b fs r fs' _ [Hf Hr]%file_latest_spec. split; [|done].
  intros s' b' _. apply stored_ne. by rewrite Hf.
Qed.
Next Obligation.
  intros s b n p fs r fs' Hd Hs%file_save_spec. destruct r as [[]|e].
  - destruct Hs as (bytes & Hb & Hl). split.
    + intros s' b' Hd' Hne. apply stored_ne. rewrite Hl bool_decide_false //.
      intros E. by apply Hne, distinct.
    + left. unfold stored. rewrite Hl bool_decide_true //= (decode_encode _ _ Hb). done.
  - split; [intros s' b' _ _|]; by apply stored_same.
Qed.
Next Obligation.
  intros s b fs r fs' Hd H. apply file_remove_spec in H as [H|H]; split.
  - intros s' b' _ _. apply stored_ne. by rewrite H.
  - right. apply stored_ne. by rewrite H.
  - intros s' b' Hd' Hne. apply stored_ne. rewrite H lookup_delete_ne //.
    intros E. by apply Hne, distinct.
  - left. unfold stored. by rewrite H lookup_delete_eq.
Qed.
End store.

(** Saving is atomic whatever the operating system does.  When a save reports
    success, the next read of that key that does not fail returns exactly what was
    saved; when it reports a failure (encoding, directory, a write that left
    arbitrary bytes, the rename), every key still reads as before.  In both cases a
    key with another file name is untouched. *)
Theorem file_checkpoint_durable s b n p fs r fs' :
  save s b n p fs = (r, fs') ->
  (forall e, r = Err e -> forall s' b', stored fs' s' b' = stored fs s' b') /\
  (r = Ok () -> forall o fs'', latest s b fs' = (Ok o, fs'') -> o = Some (n, p)) /\
  (forall s' b', path_for s' b' <> path_for s b -> stored fs' s' b' = stored fs s' b').
Proof.
  intros Hs%file_save_spec. destruct r as [[]|e].
  - destruct Hs as (bytes & Hb & Hl). split; [done|]. split.
    + intros _ o fs'' [_ Ho]%file_latest_spec. rewrite (Ho o eq_refl).
      unfold stored. rewrite Hl bool_decide_true //= (decode_encode _ _ Hb). done.
    + intros s' b' Hne. apply stored_ne. by rewrite Hl bool_decide_false.
  - split; [|split; [done|]]; intros; by apply stored_same.
Qed.

End facts.
