(* ===== verification/EventManager.v ===== *)
(** * The event-sourced session manager ([crates/lc-sessions/src/events/manager.rs])

    [EventSessionManager] is the manager's configuration; what it shares with its
    forks and with other managers (the store, the memories, the pending markers, the
    checkpoint store) is the [World] its operations act on.  A fork is another
    configuration over the same world, so the aliasing of the [Arc]s is the
    sharing of the world's fields; [MemRef] is a handle on a memory in it.

    [clock] and [uuid] give the wall clock and the fresh ids in the order they are
    asked for; a model is a function from messages to a reply or an error.  The
    striped lock makes the operations of one session run one after the other,
    which is how they run here. *)

From S2P Require Import Prelude Json Message Session Memory Replay EventLog SessionCheckpoint.
From stdpp Require Import gmap strings list.

Definition MAIN_BRANCH : string := "main".

Record AutoCompaction := mkAutoCompaction { max_turns : nat; max_age : option N }.

Module AutoCompaction.
Definition new (n : nat) : SessionResult AutoCompaction :=
  if n =? 0 then Err (StoreError "AutoCompaction::max_turns must be >= 1")
  else Ok (mkAutoCompaction n None).
Definition with_max_age (age : N) (c : AutoCompaction) : AutoCompaction :=
  mkAutoCompaction (max_turns c) (Some age).
End AutoCompaction.

Definition DEFAULT_AUTO_COMPACTION_TURNS : nat := 1024.

Definition is_snapshot_turn (t : Turn) : bool :=
  match head (turn_events t) with Some e => is_snapshot (ev_payload e) | None => false end.

(** One event of the windowed view. *)
Definition windowed_message (e : SessionEvent) : list Message :=
  match ev_payload e with
  | UserMessage content => [Message.human content]
  | AssistantMessage content => [Message.ai content]
  | Snapshot summary _ => [Message.system ("[context summary] " +:+ summary)]
  | ToolCalled _ _ _ | ToolResult _ _ | ToolEdit _ _ _ _ | ToolUndo _ _ =>
      match tool_context_message (ev_payload e) with Some msg => [msg] | None => [] end
  | Metadata _ _ => []
  end.

Definition last_n_turns_messages (events : list SessionEvent) (n : nat)
    : SessionResult (list Message) :=
  p ← project events;
  let real_turns := filter (fun t => is_snapshot_turn t = false) (ps_turns p) in
  let total := length real_turns in
  let skip_turns := total - n in
  match real_turns !! skip_turns with
  | Some first_kept =>
      let first_kept_id := default 0%N (ev_id <$> head (turn_events first_kept)) in
      Ok (filter (fun e => (first_kept_id <= ev_id e)%N) events ≫= windowed_message)
  | None => Ok (ps_messages p)
  end.

Section manager.
Context {C M K : Type}.
Context (store : EventStore C) (mem : BaseMemory M).
Context (from_value : JsonValue -> option Message).
Context (clock : nat -> Z) (uuid : nat -> string).

Record EventSessionManager := mkEventSessionManager {
  m_branch : string;
  m_memory : bool;
  m_memory_input_key : string;
  m_memory_output_key : string;
  m_memory_factory : option M;
  m_max_context_turns : option nat;
  m_auto_compaction : option AutoCompaction;
  m_checkpoint : option (SessionCheckpoint K);
}.

(** [EventSessionManager::new] *)
Definition new_manager : EventSessionManager :=
  mkEventSessionManager MAIN_BRANCH false "input" "output" None None
    (Some (mkAutoCompaction DEFAULT_AUTO_COMPACTION_TURNS None)) None.

(** The builder methods. *)
Definition with_branch (b : string) (self : EventSessionManager) : EventSessionManager :=
  mkEventSessionManager b (m_memory self) (m_memory_input_key self) (m_memory_output_key self)
    (m_memory_factory self) (m_max_context_turns self) (m_auto_compaction self) (m_checkpoint self).
Definition with_memory (self : EventSessionManager) : EventSessionManager :=
  mkEventSessionManager (m_branch self) true (m_memory_input_key self) (m_memory_output_key self)
    (m_memory_factory self) (m_max_context_turns self) (m_auto_compaction self) (m_checkpoint self).
Definition with_memory_factory (fresh : M) (self : EventSessionManager) : EventSessionManager :=
  mkEventSessionManager (m_branch self) (m_memory self) (m_memory_input_key self)
    (m_memory_output_key self) (Some fresh) (m_max_context_turns self) (m_auto_compaction self)
    (m_checkpoint self).
Definition with_memory_keys (input_key output_key : string) (self : EventSessionManager)
    : EventSessionManager :=
  mkEventSessionManager (m_branch self) (m_memory self) input_key output_key
    (m_memory_factory self) (m_max_context_turns self) (m_auto_compaction self) (m_checkpoint self).
Definition with_max_context_turns (n : nat) (self : EventSessionManager) : EventSessionManager :=
  mkEventSessionManager (m_branch self) (m_memory self) (m_memory_input_key self)
    (m_memory_output_key self) (m_memory_factory self) (Some n) (m_auto_compaction self)
    (m_checkpoint self).
Definition with_auto_compaction (policy : AutoCompaction) (self : EventSessionManager)
    : EventSessionManager :=
  mkEventSessionManager (m_branch self) (m_memory self) (m_memory_input_key self)
    (m_memory_output_key self) (m_memory_factory self) (m_max_context_turns self) (Some policy)
    (m_checkpoint self).
Definition with_checkpoint (cp : SessionCheckpoint K) (self : EventSessionManager)
    : EventSessionManager :=
  mkEventSessionManager (m_branch self) (m_memory self) (m_memory_input_key self)
    (m_memory_output_key self) (m_memory_factory self) (m_max_context_turns self)
    (m_auto_compaction self) (Some cp).

Record World := mkWorld {
  w_store : C;
  w_shared_memory : M;
  w_session_memories : gmap string M;
  w_pending : gmap string (string * string);
  w_checkpoints : K;
  w_tick : nat;
}.

Definition set_store (c : C) (w : World) : World :=
  mkWorld c (w_shared_memory w) (w_session_memories w) (w_pending w) (w_checkpoints w) (w_tick w).
Definition set_shared (m : M) (w : World) : World :=
  mkWorld (w_store w) m (w_session_memories w) (w_pending w) (w_checkpoints w) (w_tick w).
Definition set_memories (f : gmap string M -> gmap string M) (w : World) : World :=
  mkWorld (w_store w) (w_shared_memory w) (f (w_session_memories w)) (w_pending w)
    (w_checkpoints w) (w_tick w).
Definition set_pending (f : gmap string (string * string) -> gmap string (string * string))
    (w : World) : World :=
  mkWorld (w_store w) (w_shared_memory w) (w_session_memories w) (f (w_pending w))
    (w_checkpoints w) (w_tick w).
Definition set_checkpoints (k : K) (w : World) : World :=
  mkWorld (w_store w) (w_shared_memory w) (w_session_memories w) (w_pending w) k (w_tick w).

Definition Op (A : Type) : Type := Act World SessionError A.

Definition on_store {A} (m : Act C SessionError A) : Op A := act_zoom w_store set_store m.
Definition on_checkpoints {A} (m : Act K SessionError A) : Op A :=
  act_zoom w_checkpoints set_checkpoints m.
Definition modify (f : World -> World) : Op () := fun w => (Ok (), f w).

Definition tick : Op nat := fun w =>
  (Ok (w_tick w),
   mkWorld (w_store w) (w_shared_memory w) (w_session_memories w) (w_pending w)
     (w_checkpoints w) (S (w_tick w))).
Definition now_ms : Op Z := n ← tick; mret (clock n).
Definition now_v7 : Op string := n ← tick; mret (uuid n).

(** ** Memory handles *)

Inductive MemRef : Type :=
| SharedMemory
| SessionMemory (session_id : string) (fresh : M).

Definition session_memory (self : EventSessionManager) (session_id : string) : Op (option MemRef) :=
  match m_memory_factory self with
  | Some fresh =>
      modify (set_memories (fun map =>
        match map !! session_id with Some _ => map | None => <[session_id := fresh]> map end)) ;;
      mret (Some (SessionMemory session_id fresh))
  | None => mret (if m_memory self then Some SharedMemory else None)
  end.

Definition deref (r : MemRef) (w : World) : M :=
  match r with
  | SharedMemory => w_shared_memory w
  | SessionMemory s fresh => default fresh (w_session_memories w !! s)
  end.
Definition assign (r : MemRef) (m : M) (w : World) : World :=
  match r with
  | SharedMemory => set_shared m w
  | SessionMemory s _ => set_memories <[s := m]> w
  end.

(** A memory call, its error wrapped by the caller. *)
Definition on_memory {A} (r : MemRef) (wrap : string) (op : Act M MemoryError A) : Op A := fun w =>
  let '(res, m) := op (deref r w) in
  (map_err (fun e => MemoryE (wrap +:+ memory_error_to_string e)) res, assign r m w).

(** ** Log access *)

Definition read (self : EventSessionManager) (session_id : string) (after : option N)
    : Op (list SessionEvent) := on_store (es_read store session_id (m_branch self) after).

Definition next_id (self : EventSessionManager) (session_id : string) : Op N :=
  id ← on_store (es_latest_id store session_id (m_branch self));
  mret (u64_add id 1).

Definition next_after (events : list SessionEvent) : N :=
  match last events with Some e => u64_add (ev_id e) 1 | None => 1 end.

Definition user_turns (events : list SessionEvent) : N :=
  N.of_nat (length (filter (fun e => is_user_message (ev_payload e) = true) events)).

Definition turn_count (self : EventSessionManager) (session_id : string) : Op (N * N) :=
  events ← read self session_id None;
  mret (next_after events, user_turns events).

Definition append (self : EventSessionManager) (session_id : string) (turn_index : N)
    (payload : EventPayload) : Op N :=
  id ← next_id self session_id;
  now ← now_ms;
  on_store (es_append store (event_now now id session_id turn_index (m_branch self) payload)) ;;
  mret id.

(** ** Session lifecycle *)

Definition create_session (self : EventSessionManager) : Op string :=
  id ← now_v7;
  append self id 0 (Metadata "created" (JObject ∅)) ;;
  mret id.

Definition release_session_cache (session_id : string) : Op () :=
  modify (set_memories (delete session_id)) ;;
  modify (set_pending (delete session_id)).

Definition delete_session (self : EventSessionManager) (session_id : string) : Op () :=
  events ← read self session_id None;
  let history_exists := negb (bool_decide (events = [])) in
  on_store (es_clear_session store session_id) ;;
  match m_checkpoint self with
  | Some cp => on_checkpoints (cp_remove cp session_id (m_branch self))
  | None => mret ()
  end ;;
  release_session_cache session_id ;;
  if history_exists then mret () else act_fail (NotFound session_id).

(** The shared guard: a session without events does not exist. *)
Definition existing (self : EventSessionManager) (session_id : string) : Op (list SessionEvent) :=
  events ← read self session_id None;
  if bool_decide (events = []) then act_fail (NotFound session_id) else mret events.

Definition history (self : EventSessionManager) (session_id : string) : Op (list Message) :=
  events ← existing self session_id;
  p ← act_of_result (project events);
  mret (ps_messages p).

Definition replay_session (from_timestamp_millis : Z -> option Z) (self : EventSessionManager)
    (session_id : string) : Op Session :=
  events ← existing self session_id;
  now_new ← now_ms;
  now ← now_ms;
  act_of_result (replay_active_session from_timestamp_millis now_new now events).

(** A fork is a manager over the same world, pinned to another branch. *)
Definition fork_session (self : EventSessionManager) (session_id dst_branch : string)
    (until_id : option N) : Op EventSessionManager :=
  on_store (es_fork store session_id (m_branch self) dst_branch until_id) ;;
  mret (with_branch dst_branch self).

(** ** Compaction *)

Definition compact_and_prune (self : EventSessionManager) (session_id : string)
    (keep_turns : nat) : Op bool :=
  events ← read self session_id None;
  let id := next_after events in
  w ← act_get;
  snapshot ← act_of_result (compact_to_snapshot (clock (w_tick w)) id events keep_turns);
  match snapshot with
  | None => mret false
  | Some snapshot =>
      tick ;;
      prune_before ← act_of_result (compaction_prune_boundary events keep_turns);
      on_store (es_append store snapshot) ;;
      match prune_before with
      | Some before_id => on_store (es_delete_before store session_id (m_branch self) before_id)
      | None => mret ()
      end ;;
      mret true
  end.

Definition gc (self : EventSessionManager) (session_id : string) : Op bool :=
  match m_auto_compaction self with
  | None => mret false
  | Some policy =>
      events ← existing self session_id;
      keep_turns ← match max_age policy with
                   | Some age =>
                       now ← now_ms;
                       p ← act_of_result (project events);
                       mret (age_bounded_turns (ps_turns p) (max_turns policy) age now)
                   | None => mret (max_turns policy)
                   end;
      compact_and_prune self session_id keep_turns
  end.

(** ** Checkpoints *)

Definition save_checkpoint (self : EventSessionManager) (session_id : string) : Op bool :=
  match m_checkpoint self with
  | None => mret false
  | Some cp =>
      events ← existing self session_id;
      projection ← act_of_result (project events);
      on_checkpoints (cp_save cp session_id (m_branch self) (ps_last_id projection) projection) ;;
      mret true
  end.

(** What recovery does with a snapshot: [None] sends it to a full replay. *)
Definition recover_from (up_to_id : N) (base : ProjectedSession) (events : list SessionEvent)
    : option (SessionResult ProjectedSession) :=
  if (up_to_id <=? default 0%N (ev_id <$> last events))%N then
    let log_was_compacted_after_checkpoint :=
      existsb (fun e => (up_to_id <? ev_id e)%N && is_snapshot (ev_payload e)) events in
    if log_was_compacted_after_checkpoint then None else
    let tail := filter (fun e => (up_to_id < ev_id e)%N) events in
    if bool_decide (tail = []) then Some (Ok base)
    else Some (t ← project tail; Ok (merge_projections base t))
  else None.

Definition recover_session (self : EventSessionManager) (session_id : string)
    : Op ProjectedSession :=
  events ← existing self session_id;
  recovered ← match m_checkpoint self with
              | Some cp =>
                  snapshot ← on_checkpoints (cp_latest cp session_id (m_branch self));
                  mret (match snapshot with
                        | Some (up_to_id, base) => recover_from up_to_id base events
                        | None => None
                        end)
              | None => mret None
              end;
  match recovered with
  | Some r => act_of_result r
  | None => act_of_result (project events)
  end.

(** ** Tool records *)

Definition record_tool_use (self : EventSessionManager) (session_id tool : string)
    (tool_input : JsonValue) (call_id observation : string) : Op () :=
  '(next_id, turn_count) ← turn_count self session_id;
  if (next_id =? 1)%N then act_fail (NotFound session_id) else
  append self session_id turn_count (ToolCalled tool tool_input call_id) ;;
  append self session_id turn_count (ToolResult call_id observation) ;;
  mret ().

(** ** Chat *)

Definition call_llm (llm : list Message -> result string string) (messages : list Message)
    : Op string := act_of_result (map_err Llm (llm messages)).

(** The messages the model sees: the memory's variables or the (windowed) log, then
    the current user message. *)
Definition chat_context (self : EventSessionManager) (session_id user_message : string)
    (memory : option MemRef) : Op (list Message) :=
  match memory with
  | Some r =>
      let inputs := {[ m_memory_input_key self := user_message ]} in
      vars ← on_memory r "failed to load memory: "
               (fun m => (load_memory_variables mem inputs m, m));
      mret (memory_variables_to_messages from_value vars ++ [Message.human user_message])
  | None =>
      events ← read self session_id None;
      p ← act_of_result (project events);
      messages ← match m_max_context_turns self with
                 | Some n => act_of_result (last_n_turns_messages events n)
                 | None => mret (ps_messages p)
                 end;
      mret (messages ++ [Message.human user_message])
  end.

(** The memory save, skipped when it is a retry of a turn whose append failed. *)
Definition commit_memory (self : EventSessionManager) (session_id user_message content : string)
    (memory : option MemRef) : Op () :=
  match memory with
  | Some r =>
      w ← act_get;
      let is_retry_after_failed_append :=
        bool_decide (w_pending w !! session_id = Some (user_message, content)) in
      if is_retry_after_failed_append then mret () else
      let inputs := {[ m_memory_input_key self := user_message ]} in
      let outputs := {[ m_memory_output_key self := content ]} in
      on_memory r "failed to save memory: " (save_context mem inputs outputs)
  | None => mret ()
  end.

Definition commit_turn (self : EventSessionManager) (session_id user_message content : string)
    (turn_index : N) : Op () :=
  first_id ← next_id self session_id;
  now1 ← now_ms;
  now2 ← now_ms;
  let pair :=
    [event_now now1 first_id session_id turn_index (m_branch self) (UserMessage user_message);
     event_now now2 (u64_add first_id 1) session_id turn_index (m_branch self)
       (AssistantMessage content)] in
  appended ← try_act (on_store (es_append_batch store pair));
  match appended with
  | Err e =>
      modify (set_pending <[session_id := (user_message, content)]>) ;;
      act_fail e
  | Ok _ => modify (set_pending (delete session_id))
  end.

Definition chat (self : EventSessionManager) (session_id : string)
    (llm : list Message -> result string string) (user_message : string) : Op string :=
  '(next_id, turn_count) ← turn_count self session_id;
  if (next_id =? 1)%N then act_fail (NotFound session_id) else
  let turn_index := turn_count in
  memory ← session_memory self session_id;
  messages ← chat_context self session_id user_message memory;
  content ← call_llm llm messages;
  commit_memory self session_id user_message content memory ;;
  commit_turn self session_id user_message content turn_index ;;
  match m_auto_compaction self with
  | Some policy => compact_and_prune self session_id (max_turns policy) ;; mret ()
  | None => mret ()
  end ;;
  mret content.

End manager.

Arguments EventSessionManager : clear implicits.
Arguments World : clear implicits.
