(* ===== verification/EventManagerFacts.v ===== *)
(** * The session manager's operations, one by one

    The manager's log accesses against the [EventLog] contract, and what each
    operation does to the logs: a sequence of [log_move]s of its own branch and
    nothing elsewhere.  Everything is proved for an arbitrary store that keeps the
    contract. *)

From S2P Require Import Prelude Json Message Session Memory Replay ReplayFacts EventLog.
From S2P Require Import SessionCheckpoint EventManager.
From stdpp Require Import gmap strings list sorting.

(** ** Moves of a branch's log *)

(** The [Snapshot] a compaction appends, and the log it leaves. *)
Definition snapshot_of (now : Z) (n : nat) (l : list SessionEvent) : SessionEvent :=
  let dropped := length (turns_of l) - n in
  event_now now (next_after l) (default "" (ev_session_id <$> head l))
    (default 0%N (ev_turn_index <$> last l)) (default "" (ev_branch <$> head l))
    (Snapshot (summarize_turns (take dropped (turns_of l))) (N.of_nat dropped)).

Definition kept_events (n : nat) (l : list SessionEvent) : list SessionEvent :=
  events_of (drop (length (turns_of l) - n) (turns_of l)).

Definition compact_log (n : nat) (now : Z) (l : list SessionEvent) : list SessionEvent :=
  if length (turns_of l) <=? n then l else kept_events n l ++ [snapshot_of now n l].

(** The next event of a branch. *)
Definition next_event (s b : string) (l : list SessionEvent) (e : SessionEvent) : Prop :=
  ev_session_id e = s /\ ev_branch e = b /\ ev_id e = (LogSpec.latest_id l + 1)%N /\
  (ev_id e <= u64_max)%N.

Inductive log_move (s b : string) (l : list SessionEvent) : list SessionEvent -> Prop :=
| move_turn e1 e2 question answer :
    l <> [] -> next_event s b l e1 -> next_event s b (l ++ [e1]) e2 ->
    ev_payload e1 = UserMessage question -> ev_payload e2 = AssistantMessage answer ->
    ev_turn_index e1 = user_turns l -> ev_turn_index e2 = user_turns l ->
    log_move s b l (l ++ [e1; e2])
| move_call e tool input call_id :
    l <> [] -> next_event s b l e -> ev_payload e = ToolCalled tool input call_id ->
    log_move s b l (l ++ [e])
| move_result c e tool input call_id observation :
    last l = Some c -> ev_payload c = ToolCalled tool input call_id ->
    next_event s b l e -> ev_payload e = ToolResult call_id observation ->
    ev_turn_index e = ev_turn_index c ->
    log_move s b l (l ++ [e])
| move_snapshot now n :
    n < length (turns_of l) -> next_event s b l (snapshot_of now n l) ->
    log_move s b l (l ++ [snapshot_of now n l])
| move_compact now n :
    0 < n -> n < length (turns_of l) -> next_event s b l (snapshot_of now n l) ->
    log_move s b l (kept_events n l ++ [snapshot_of now n l]).

Notation log_moves s b := (rtc (log_move s b)).

(** ** Logs the manager reads *)

Definition ids_positive (l : list SessionEvent) : Prop := Forall (fun e => (1 <= ev_id e)%N) l.

Lemma read_positive l : ids_positive l -> LogSpec.read None l = l.
Proof.
  intros Hp. unfold LogSpec.read. apply filter_all. intros e He. unfold ids_positive in Hp.
  rewrite Forall_forall in Hp. rewrite u64_add_small; [|done]. cbn. by apply Hp.
Qed.

Lemma next_after_spec l :
  (LogSpec.latest_id l < u64_max)%N -> next_after l = (LogSpec.latest_id l + 1)%N.
Proof.
  unfold next_after, LogSpec.latest_id. destruct (last l) as [e|]; cbn; [|done].
  intros. rewrite u64_add_small; lia.
Qed.

Lemma latest_id_snoc l e : LogSpec.latest_id (l ++ [e]) = ev_id e.
Proof. unfold LogSpec.latest_id. by rewrite last_snoc. Qed.

Lemma latest_id_pos l : ids_positive l -> l <> [] -> (1 <= LogSpec.latest_id l)%N.
Proof.
  destruct l as [|e l _] using rev_ind; [done|]. intros Hp _. rewrite latest_id_snoc.
  unfold ids_positive in Hp. rewrite Forall_app Forall_singleton in Hp. apply Hp.
Qed.

(** Appending the next event goes at the end. *)
Lemma next_event_add s b l e :
  log_ok s b l -> next_event s b l e -> log_add e l = l ++ [e].
Proof.
  intros [Hs _] (_ & _ & Hid & _). apply log_add_snoc, last_id_max; [done|lia].
Qed.

Lemma next_event_ok s b l e : log_ok s b l -> next_event s b l e -> log_ok s b (l ++ [e]).
Proof. intros Hl (Hes & Heb & Hid & Hm). apply log_snoc_ok; [done|lia|done|done|done]. Qed.

(** Pruning below the first kept event leaves the kept turns and the snapshot. *)
Lemma prune_kept s b l n e :
  log_ok s b l -> n < length (turns_of l) -> 0 < n -> next_event s b l e ->
  exists e0 rest, kept_events n l = e0 :: rest /\
    (t ← turns_of l !! (length (turns_of l) - n); e ← head (turn_events t); Some (ev_id e)) =
      Some (ev_id e0) /\
    filter (fun x => (ev_id e0 <= ev_id x)%N) (l ++ [e]) = kept_events n l ++ [e].
Proof.
  intros Hl Hn Hpos He. set (d := length (turns_of l) - n).
  destruct (lookup_lt_is_Some_2 (turns_of l) d) as [t Ht]; [lia|].
  pose proof (turns_of_ok l) as Hok. rewrite Forall_forall in Hok.
  destruct (Hok t) as (e0 & es & Hev & _); [by eapply list_elem_of_lookup_2|].
  exists e0, (es ++ events_of (drop (S d) (turns_of l))).
  assert (kept_events n l = e0 :: es ++ events_of (drop (S d) (turns_of l))) as Hk.
  { unfold kept_events. fold d. rewrite (drop_S _ _ _ Ht). cbn. by rewrite Hev. }
  split; [done|]. split; [by rewrite Ht /= Hev|].
  assert (l ++ [e] = events_of (take d (turns_of l)) ++ kept_events n l ++ [e]) as Hsplit.
  { unfold kept_events. fold d. by rewrite app_assoc -events_of_app take_drop events_turns_of. }
  pose proof (next_event_ok _ _ _ _ Hl He) as [Hs' _].
  rewrite Hsplit Hk -app_comm_cons in Hs' |- *. by apply filter_from_id.
Qed.

Lemma snapshot_next_event s b l now n :
  log_ok s b l -> l <> [] -> (LogSpec.latest_id l < u64_max)%N ->
  next_event s b l (snapshot_of now n l).
Proof.
  intros [_ Hok] Hl Hm. destruct l as [|e l]; [done|]. apply Forall_cons in Hok as [(<- & <- & _) _].
  unfold snapshot_of, next_event. cbn [ev_session_id ev_branch ev_id event_now head].
  rewrite next_after_spec //. do 3 (split; [done|]). lia.
Qed.

(** The log after a full compaction; with a budget of zero nothing is pruned. *)
Definition compacted (n : nat) (now : Z) (l : list SessionEvent) : list SessionEvent :=
  (if n =? 0 then l else kept_events n l) ++ [snapshot_of now n l].

Lemma compacted_move s b l now n :
  log_ok s b l -> l <> [] -> (LogSpec.latest_id l < u64_max)%N -> n < length (turns_of l) ->
  log_move s b l (compacted n now l).
Proof.
  intros Hok Hl Hm Hn. pose proof (snapshot_next_event s b l now n Hok Hl Hm) as Hnext.
  unfold compacted. destruct (Nat.eqb_spec n 0); [by apply move_snapshot|].
  apply move_compact; [lia|done|done].
Qed.

(** ** Worlds *)

Definition upd (s b : string) (l : list SessionEvent) (L : Logs) : Logs := fun s' b' =>
  if here s' b' s b then l else L s' b'.

Lemma upd_same s b l L : upd s b l L s b = l.
Proof. unfold upd, here. by rewrite bool_decide_true. Qed.
Lemma upd_other s b l L s' b' : (s', b') <> (s, b) -> upd s b l L s' b' = L s' b'.
Proof. intros H. unfold upd, here. rewrite bool_decide_false //. intros [-> ->]. done. Qed.
Lemma upd_id s b L : upd s b (L s b) L ≡ₗ L.
Proof. intros s' b'. unfold upd, here. case_bool_decide as H; [|done]. by destruct H as [-> ->]. Qed.

Section facts.
Context {C M K : Type} (store : EventStore C) (mem : BaseMemory M).
Context (from_value : JsonValue -> option Message).
Context (clock : nat -> Z) (uuid : nat -> string).
Context `{!EventLog store}.

Notation Manager := (EventSessionManager M K).
Notation World := (World C M K).

Definition winv (w : World) : Prop := el_inv (w_store w).
Definition wlogs (w : World) : Logs := el_logs (w_store w).

(** Everything but the store and the clock. *)
Definition same_rest (w w' : World) : Prop :=
  w_shared_memory w' = w_shared_memory w /\ w_session_memories w' = w_session_memories w /\
  w_pending w' = w_pending w /\ w_checkpoints w' = w_checkpoints w.

(** The log of [s], [b] is [l], the others are as in [L], the rest as in [w0]. *)
Definition at_log (w0 : World) (L : Logs) (s b : string) (l : list SessionEvent) (w : World) : Prop :=
  winv w /\ wlogs w ≡ₗ upd s b l L /\ same_rest w0 w.

Lemma at_log_start w s b : winv w -> at_log w (wlogs w) s b (wlogs w s b) w.
Proof. intros H. split; [done|]. split; [|done]. by rewrite upd_id. Qed.

Lemma at_log_ok w0 L s b l w : at_log w0 L s b l w -> log_ok s b l.
Proof.
  intros (Hi & Hl & _). pose proof (el_log_ok _ s b Hi) as Hok. fold (wlogs w) in Hok.
  by rewrite Hl upd_same in Hok.
Qed.

Lemma wp_zoom {X Y E A} (get : X -> Y) (set : Y -> X -> X) (m : Act Y E A) w Q :
  wp m (get w) (fun r c => Q r (set c w)) -> wp (act_zoom get set m) w Q.
Proof. unfold wp, act_zoom. by destruct (m (get w)). Qed.

Lemma wp_implements {A} (f : Logs -> Logs) (m : Act C SessionError A) w0 L s b l l' w :
  implements el_inv el_logs f m -> at_log w0 L s b l w -> f (wlogs w) ≡ₗ upd s b l' L ->
  wp (on_store m) w (fun r w' => at_log w0 L s b (match r with Ok _ => l' | Err _ => l end) w').
Proof.
  intros Hm (Hi & Hl & Hr) Hf. apply wp_zoom, wp_intro. intros r c Hc.
  destruct (Hm _ _ _ Hi Hc) as [Hi' Hl']. split; [done|]. split; [|done].
  cbn. rewrite /wlogs /= Hl'. by destruct r.
Qed.

Lemma wp_observes {A} (f : Logs -> A) (m : Act C SessionError A) w0 L s b l w :
  observes el_inv el_logs f m -> at_log w0 L s b l w ->
  wp (on_store m) w (fun r w' => at_log w0 L s b l w' /\ forall a, r = Ok a -> a = f (wlogs w)).
Proof.
  intros Hm (Hi & Hl & Hr). apply wp_zoom, wp_intro. intros r c Hc.
  destruct (Hm _ _ _ Hi Hc) as (Hi' & Hl' & Ha). split; [|by destruct r; naive_solver].
  split; [done|]. split; [|done]. rewrite /wlogs /= Hl'. exact Hl.
Qed.

Lemma at_tick w0 L s b l w :
  at_log w0 L s b l w -> wp tick w (fun r w' => r = Ok (w_tick w) /\ at_log w0 L s b l w').
Proof. intros H. split; [done|]. exact H. Qed.

Lemma at_now w0 L s b l w :
  at_log w0 L s b l w ->
  wp (now_ms clock) w (fun r w' => (exists t, r = Ok t) /\ at_log w0 L s b l w').
Proof. intros H. split; [by eexists|]. exact H. Qed.

Section branch.
Context (self : Manager) (s : string).
Notation b := (m_branch self).
Context (w0 : World) (L : Logs).
Notation at_l := (at_log w0 L s b).

Lemma at_read l w :
  at_l l w -> ids_positive l ->
  wp (read store self s None) w (fun r w' => at_l l w' /\ forall l', r = Ok l' -> l' = l).
Proof.
  intros Hat Hp. eapply wp_mono; [eapply wp_observes; [apply el_read|done]|].
  intros r w' [Hat' Hr]. split; [done|]. intros l' ->. rewrite (Hr l' eq_refl).
  destruct Hat as (_ & Hl & _). rewrite Hl upd_same. by apply read_positive.
Qed.

Lemma at_next_id l w :
  at_l l w -> (LogSpec.latest_id l < u64_max)%N ->
  wp (next_id store self s) w
    (fun r w' => at_l l w' /\ forall n, r = Ok n -> n = (LogSpec.latest_id l + 1)%N).
Proof.
  intros Hat Hm. unfold next_id. wp_step.
  eapply wp_mono; [eapply wp_observes; [apply el_latest_id|done]|].
  intros [n|e] w' [Hat' Hr]; [|done]. split; [done|]. intros n' [= <-].
  rewrite (Hr n eq_refl). destruct Hat as (_ & Hl & _). rewrite Hl upd_same.
  rewrite u64_add_small; [done|]. lia.
Qed.

Lemma append_upd l w e :
  at_l l w -> next_event s b l e -> LogSpec.append e (wlogs w) ≡ₗ upd s b (l ++ [e]) L.
Proof.
  intros Hat He. pose proof (at_log_ok _ _ _ _ _ _ Hat) as Hok. destruct Hat as (_ & Hl & _).
  intros s' b'. unfold LogSpec.append. rewrite Hl. pose proof He as (-> & -> & _).
  unfold upd, here. case_bool_decide; [|done]. by apply next_event_add with s b.
Qed.

Lemma at_append l w e :
  at_l l w -> next_event s b l e ->
  wp (on_store (es_append store e)) w
    (fun r w' => at_l (match r with Ok _ => l ++ [e] | Err _ => l end) w').
Proof.
  intros Hat He. eapply wp_implements; [apply el_append|done|by apply append_upd].
  by destruct He as (_ & _ & _ & ?).
Qed.

Lemma at_append_pair l w e1 e2 :
  at_l l w -> next_event s b l e1 -> next_event s b (l ++ [e1]) e2 ->
  wp (on_store (es_append_batch store [e1; e2])) w
    (fun r w' => at_l (match r with Ok _ => l ++ [e1; e2] | Err _ => l end) w').
Proof.
  intros Hat H1 H2. eapply wp_implements; [apply el_append_batch|done|].
  - repeat constructor; [apply H1|apply H2].
  - pose proof (at_log_ok _ _ _ _ _ _ Hat) as Hok.
    pose proof (append_upd l w e1 Hat H1) as E1. cbn. rewrite E1.
    intros s' b'. unfold LogSpec.append. pose proof H2 as (-> & -> & _).
    unfold upd, here. case_bool_decide; [|done].
    rewrite (next_event_add s b) //; [by rewrite -app_assoc|by apply next_event_ok].
Qed.

Lemma at_delete_before l w n :
  at_l l w ->
  wp (on_store (es_delete_before store s b n)) w
    (fun r w' => at_l (match r with Ok _ => filter (fun e => (n <= ev_id e)%N) l | Err _ => l end) w').
Proof.
  intros Hat. eapply wp_implements; [apply el_delete_before|done|].
  destruct Hat as (_ & Hl & _). rewrite Hl. intros s' b'. unfold LogSpec.delete_before, upd.
  by destruct (here s' b' s b).
Qed.

(** The private [append] of the manager: one event at the end, or nothing. *)
Lemma at_manager_append l w ti payload :
  at_l l w -> (LogSpec.latest_id l < u64_max)%N ->
  wp (append store clock self s ti payload) w (fun r w' =>
    match r with
    | Ok _ => exists now, let e := event_now now (LogSpec.latest_id l + 1) s ti b payload in
                          next_event s b l e /\ at_l (l ++ [e]) w'
    | Err _ => at_l l w'
    end).
Proof.
  intros Hat Hm. unfold append. wp_step. eapply wp_mono; [by apply at_next_id|].
  intros [n|e] w1 [H1 Hn]; [|done]. specialize (Hn n eq_refl) as ->.
  wp_step. eapply wp_mono; [by apply at_now|]. intros r w2 [[t ->] H2].
  assert (forall t, next_event s b l (event_now t (LogSpec.latest_id l + 1) s ti b payload)) as He.
  { intros. repeat split. cbn. lia. }
  wp_step. eapply wp_mono; [by apply at_append|]. intros [u|e] w3 H3; [|done].
  apply wp_ret. exists t. auto.
Qed.

Lemma at_turn_count l w :
  at_l l w -> ids_positive l -> (LogSpec.latest_id l < u64_max)%N ->
  wp (turn_count store self s) w (fun r w' =>
    at_l l w' /\ forall p, r = Ok p -> p = ((LogSpec.latest_id l + 1)%N, user_turns l)).
Proof.
  intros Hat Hp Hm. unfold turn_count. wp_step. eapply wp_mono; [by apply at_read|].
  intros [l'|e] w1 [H1 Hl]; [|done]. specialize (Hl l' eq_refl) as ->.
  split; [done|]. intros p [= <-]. by rewrite next_after_spec.
Qed.

Lemma at_existing l w :
  at_l l w -> ids_positive l ->
  wp (existing store self s) w (fun r w' =>
    at_l l w' /\ match r with Ok l' => l' = l /\ l <> [] | Err _ => True end).
Proof.
  intros Hat Hp. unfold existing. wp_step. eapply wp_mono; [by apply at_read|].
  intros [l'|e] w1 [H1 Hl]; [|done]. specialize (Hl l' eq_refl) as ->.
  case_bool_decide; [by apply wp_fail|by apply wp_ret].
Qed.

(** ** Compaction *)

Lemma compact_to_snapshot_eq now l n :
  l <> [] ->
  compact_to_snapshot now (next_after l) l n =
  Ok (if length (turns_of l) <=? n then None else Some (snapshot_of now n l)).
Proof.
  intros Hl. unfold compact_to_snapshot. rewrite project_nonempty // ok_bind. cbn [ps_turns].
  by destruct (_ <=? _).
Qed.

Lemma prune_boundary_eq l n :
  l <> [] ->
  compaction_prune_boundary l n =
  Ok (if length (turns_of l) <=? n then None else
      t ← turns_of l !! (length (turns_of l) - n); e ← head (turn_events t); Some (ev_id e)).
Proof.
  intros Hl. unfold compaction_prune_boundary. rewrite project_nonempty // ok_bind. cbn [ps_turns].
  by destruct (_ <=? _).
Qed.

Lemma snapshot_next l w now n :
  at_l l w -> l <> [] -> (LogSpec.latest_id l < u64_max)%N ->
  next_event s b l (snapshot_of now n l).
Proof. intros Hat. by apply snapshot_next_event, (at_log_ok _ _ _ _ _ _ Hat). Qed.

Lemma at_compact l w n :
  at_l l w -> ids_positive l -> l <> [] -> (LogSpec.latest_id l < u64_max)%N ->
  wp (compact_and_prune store clock self s n) w (fun r w' => exists now,
    match r with
    | Ok true => n < length (turns_of l) /\ at_l (compacted n now l) w'
    | Ok false => length (turns_of l) <= n /\ at_l l w'
    | Err _ => at_l l w' \/ (n < length (turns_of l) /\ at_l (l ++ [snapshot_of now n l]) w')
    end).
Proof.
  intros Hat Hp Hl Hm. unfold compact_and_prune. wp_step. eapply wp_mono; [by apply at_read|].
  intros [l'|e] w1 [H1 Hl']; [|exists 0%Z; by left]. specialize (Hl' l' eq_refl) as ->.
  wp_step. cbv beta. wp_step. rewrite compact_to_snapshot_eq //.
  set (now := clock (w_tick w1)).
  destruct (Nat.leb_spec (length (turns_of l)) n) as [Hle|Hlt]; [by exists now|].
  wp_step. eapply wp_mono; [by apply at_tick|]. intros r w2 [-> H2].
  wp_step. rewrite prune_boundary_eq //. rewrite (proj2 (Nat.leb_gt _ _) Hlt).
  pose proof (snapshot_next l w now n Hat Hl Hm) as Hnext.
  wp_step. eapply wp_mono; [by apply at_append|]. intros [u|e] w3 H3; [|exists now; by left].
  unfold compacted. destruct (Nat.eqb_spec n 0) as [->|Hn].
  { rewrite lookup_ge_None_2; [|lia]. apply wp_bind, wp_ret, wp_ret. exists now. auto. }
  destruct (prune_kept s b l n (snapshot_of now n l)) as (e0 & rest & Hk & -> & Hf);
    [by eapply at_log_ok|lia|lia|done|].
  wp_step. eapply wp_mono; [by apply at_delete_before|]. intros [u'|e] w4 H4.
  - rewrite Hf in H4. apply wp_ret. exists now. auto.
  - exists now. right. auto.
Qed.

(** What an operation of this manager may do: move its own branch's log. *)
Definition moves (l : list SessionEvent) (w' : World) : Prop :=
  exists l', winv w' /\ wlogs w' ≡ₗ upd s b l' L /\ log_moves s b l l'.

Lemma at_moves l w : at_l l w -> moves l w.
Proof. intros (Hi & Hl & _). exists l. auto using rtc_refl. Qed.

Lemma at_moves_once l l' w : log_move s b l l' -> at_l l' w -> moves l w.
Proof. intros Hmv (Hi & Hl & _). exists l'. auto using rtc_once. Qed.

Lemma compact_and_prune_moves l w n :
  at_l l w -> ids_positive l -> l <> [] -> (LogSpec.latest_id l < u64_max)%N ->
  wp (compact_and_prune store clock self s n) w (fun _ w' => moves l w').
Proof.
  intros Hat Hp Hl Hm. eapply wp_mono; [by apply at_compact|].
  intros [[]|e] w' [now H].
  - destruct H as [Hn H]. eapply at_moves_once; [|done].
    apply compacted_move; [by eapply at_log_ok|done..].
  - apply at_moves, H.
  - destruct H as [H|[Hn H]]; [by apply at_moves|]. eapply at_moves_once; [|done].
    apply move_snapshot; [done|]. by eapply snapshot_next.
Qed.

Lemma gc_moves l w :
  at_l l w -> ids_positive l -> (LogSpec.latest_id l < u64_max)%N ->
  wp (gc store clock self s) w (fun _ w' => moves l w').
Proof.
  intros Hat Hp Hm. unfold gc. destruct (m_auto_compaction self) as [policy|].
  2:{ by apply wp_ret, at_moves. }
  wp_step. eapply wp_mono; [by apply at_existing|]. intros [l'|e] w1 [H1 Hl]; [|by apply at_moves].
  destruct Hl as [-> Hl]. wp_step.
  eapply (wp_mono _ _ (fun _ w' => at_l l w')).
  - destruct (max_age policy) as [age|]; [|by apply wp_ret].
    wp_step. eapply wp_mono; [by apply at_now|]. intros r w2 [[t ->] H2].
    wp_step. by destruct (project l).
  - intros [keep|e] w2 H2; [|by apply at_moves]. by apply compact_and_prune_moves.
Qed.

(** ** Tool records *)

Lemma record_tool_use_moves l w tool input call_id obs :
  at_l l w -> ids_positive l -> (LogSpec.latest_id l + 2 <= u64_max)%N ->
  wp (record_tool_use store clock self s tool input call_id obs) w (fun _ w' => moves l w').
Proof.
  intros Hat Hp Hm. unfold record_tool_use. wp_step.
  eapply wp_mono; [apply at_turn_count; [done|done|lia]|].
  intros [p|e] w1 [H1 Hr]; [|by apply at_moves]. rewrite (Hr p eq_refl).
  case_match eqn:Hz; [by apply wp_fail, at_moves|]. apply N.eqb_neq in Hz.
  assert (l <> []) as Hl by (intros ->; by cbn in Hz).
  wp_step. eapply wp_mono; [apply at_manager_append; [exact H1|lia]|].
  intros [n|e] w2 H2; [|by apply at_moves].
  destruct H2 as (now & Hnext & H2). set (c := event_now _ _ _ _ _ (ToolCalled _ _ _)) in *.
  assert (log_move s b l (l ++ [c])) as Hmv by by eapply move_call.
  wp_step. eapply wp_mono; [apply at_manager_append; [exact H2|rewrite latest_id_snoc; cbn; lia]|].
  intros [n'|e] w3 H3; [|by eapply at_moves_once].
  destruct H3 as (now' & Hnext' & Hi & Hlg & _). set (r := event_now _ _ _ _ _ (ToolResult _ _)) in *.
  apply wp_ret. exists ((l ++ [c]) ++ [r]). split; [done|]. split; [done|].
  eapply rtc_l; [done|]. apply rtc_once. eapply move_result with (c := c); try done.
  by rewrite last_snoc.
Qed.

End branch.
End facts.

(** * What a chat does

    [chat_outcome] lists the ways a chat can end, with the log, the memory and the
    pending marker each of them leaves; [chat_spec] shows there are no others, for
    any store that keeps the contract, any memory and any model. *)

(** The two events of a completed turn. *)
Definition turn_pair (t1 t2 : Z) (s b : string) (l : list SessionEvent) (question answer : string)
    : list SessionEvent :=
  [event_now t1 (LogSpec.latest_id l + 1) s (user_turns l) b (UserMessage question);
   event_now t2 (LogSpec.latest_id l + 2) s (user_turns l) b (AssistantMessage answer)].

(** The log once the compaction policy has run. *)
Definition settled (policy : option AutoCompaction) (now : Z) (l : list SessionEvent)
    : list SessionEvent :=
  match policy with
  | Some p => if length (turns_of l) <=? max_turns p then l else compacted (max_turns p) now l
  | None => l
  end.

Section chat.
Context {C M K : Type} (store : EventStore C) (mem : BaseMemory M).
Context (from_value : JsonValue -> option Message) (clock : nat -> Z).
Context `{!EventLog store}.

Notation Manager := (EventSessionManager M K).
Notation World := (World C M K).

Context (self : Manager) (s : string) (llm : list Message -> result string string) (msg : string).
Notation b := (m_branch self).

(** The memory of the session, if there is one. *)
Definition handle : option (@MemRef M) :=
  match m_memory_factory self with
  | Some fresh => Some (SessionMemory s fresh)
  | None => if m_memory self then Some SharedMemory else None
  end.

Definition memory_of (w : World) : option M := (fun h => deref h w) <$> handle.
Definition pending_of (w : World) : option (string * string) := w_pending w !! s.

Definition inputs : gmap string string := {[ m_memory_input_key self := msg ]}.
Definition outputs (content : string) : gmap string string := {[ m_memory_output_key self := content ]}.

(** The memory after the commit of a reply: saved once, or not again. *)
Definition committed (w : World) (content : string) (m' : option M) : Prop :=
  match memory_of w with
  | None => m' = None
  | Some m =>
      if bool_decide (pending_of w = Some (msg, content)) then m' = Some m
      else exists m1, save_context mem inputs (outputs content) m = (Ok (), m1) /\ m' = Some m1
  end.

(** The log of this branch is [l], every other log as in [w]. *)
Definition logs_at (w : World) (l : list SessionEvent) (w' : World) : Prop :=
  winv store w' /\ wlogs store w' ≡ₗ upd s b l (wlogs store w).

(** The model was asked with some context and the user's message last. *)
Definition asked (content : string) : Prop :=
  exists context, llm (context ++ [Message.human msg]) = Ok content.

Inductive chat_outcome (w : World) (l : list SessionEvent)
    : SessionResult string -> World -> Prop :=
| chat_refused e w' :
    logs_at w l w' -> memory_of w' = memory_of w -> pending_of w' = pending_of w ->
    chat_outcome w l (Err e) w'
| chat_unsaved e m content w' m1 me :
    asked content -> memory_of w = Some m ->
    save_context mem inputs (outputs content) m = (Err me, m1) ->
    logs_at w l w' -> memory_of w' = Some m1 -> pending_of w' = pending_of w ->
    chat_outcome w l (Err e) w'
| chat_unmarked e content w' :
    asked content -> committed w content (memory_of w') ->
    logs_at w l w' -> pending_of w' = pending_of w ->
    chat_outcome w l (Err e) w'
| chat_unlogged e content w' :
    asked content -> committed w content (memory_of w') ->
    logs_at w l w' -> pending_of w' = Some (msg, content) ->
    chat_outcome w l (Err e) w'
| chat_unsettled e content t1 t2 now extra w' :
    asked content -> committed w content (memory_of w') -> l <> [] ->
    m_auto_compaction self <> None -> pending_of w' = None ->
    (let l2 := l ++ turn_pair t1 t2 s b l msg content in
     extra = [] \/ exists n, n < length (turns_of l2) /\ extra = [snapshot_of now n l2]) ->
    logs_at w ((l ++ turn_pair t1 t2 s b l msg content) ++ extra) w' ->
    chat_outcome w l (Err e) w'
| chat_done content t1 t2 now w' :
    asked content -> committed w content (memory_of w') -> l <> [] -> pending_of w' = None ->
    logs_at w (settled (m_auto_compaction self) now (l ++ turn_pair t1 t2 s b l msg content)) w' ->
    chat_outcome w l (Ok content) w'.

(** ** Steps *)

Lemma logs_at_log w l w' : logs_at w l w' -> at_log store w' (wlogs store w) s b l w'.
Proof. intros [Hi Hl]. done. Qed.

Lemma at_log_logs w0 w l w' : at_log store w0 (wlogs store w) s b l w' -> logs_at w l w'.
Proof. intros (Hi & Hl & _). done. Qed.

Lemma same_rest_view w w' : same_rest w w' -> memory_of w' = memory_of w /\ pending_of w' = pending_of w.
Proof.
  intros (Hs & Hm & Hp & _). unfold memory_of, pending_of. rewrite Hp. split; [|done].
  destruct handle as [[|s' fresh]|]; cbn; by rewrite ?Hs ?Hm.
Qed.

(** A step that leaves the log, the memory and the marker as they are. *)
Definition unchanged (w : World) (l : list SessionEvent) (w' : World) : Prop :=
  logs_at w l w' /\ memory_of w' = memory_of w /\ pending_of w' = pending_of w.

Lemma at_log_unchanged w l w1 w' :
  unchanged w l w1 -> at_log store w1 (wlogs store w) s b l w' -> unchanged w l w'.
Proof.
  intros (_ & Hm & Hp) (Hi & Hl & Hr). destruct (same_rest_view _ _ Hr) as [Hm' Hp'].
  repeat split; [done|done|congruence|congruence].
Qed.

Lemma unchanged_refl w l : winv store w -> l = wlogs store w s b -> unchanged w l w.
Proof. intros Hi ->. repeat split; [done|]. by rewrite upd_id. Qed.

Lemma session_memory_spec w l w1 :
  unchanged w l w1 ->
  wp (session_memory self s) w1 (fun r w' => r = Ok handle /\ unchanged w l w').
Proof.
  intros (Hl & Hm & Hp). unfold session_memory, handle. destruct (m_memory_factory self) as [fresh|] eqn:Hf.
  - wp_step. apply wp_intro. intros r w2 [= <- <-]. apply wp_ret. split; [done|].
    split; [exact Hl|]. split; [|exact Hp]. rewrite -Hm.
    unfold memory_of, handle. rewrite Hf. cbn. f_equal.
    destruct (w_session_memories w1 !! s) as [m|] eqn:Hs; [by rewrite Hs|].
    by rewrite lookup_insert_eq.
  - split; [done|]. done.
Qed.

Lemma memory_of_set_pending f (w : World) : memory_of (set_pending f w) = memory_of w.
Proof. unfold memory_of. by destruct handle as [[]|]. Qed.

Lemma assign_deref (h : @MemRef M) (m : M) (w : World) : deref h (assign h m w) = m.
Proof. destruct h as [|s' fresh]; cbn; [done|]. by rewrite lookup_insert_eq. Qed.

(** Reading the memory, or the log, for the context. *)
Lemma chat_context_spec w l w1 :
  unchanged w l w1 -> ids_positive l -> l <> [] ->
  wp (chat_context store mem from_value self s msg handle) w1 (fun r w' =>
    unchanged w l w' /\ match r with
                        | Ok ms => exists context, ms = context ++ [Message.human msg]
                        | Err _ => True
                        end).
Proof.
  intros Hu Hp Hne. pose proof Hu as (Hl & Hm & Hpe). unfold chat_context.
  destruct handle as [h|] eqn:Hh.
  - wp_step. apply wp_intro. unfold on_memory. intros r w2 [= <- <-].
    assert (unchanged w l (assign h (deref h w1) w1)) as Hu'.
    { split; [by destruct h|]. unfold memory_of in *. rewrite Hh in Hm |- *. cbn in *.
      rewrite assign_deref. split; [done|]. by destruct h. }
    destruct (load_memory_variables _ _ _); cbn; [|done]. split; [done|]. by eexists.
  - wp_step. eapply wp_mono; [apply at_read; [by apply logs_at_log|done]|].
    intros [l'|e] w2 [H2 Hr]; (apply at_log_unchanged with (w := w) in H2; [|done]); [|done].
    wp_step. destruct (project l') as [p|e]; [|done].
    wp_step. destruct (m_max_context_turns self) as [n|].
    + apply wp_of_result. destruct (last_n_turns_messages l' n); [|done].
      split; [done|]. by eexists.
    + split; [done|]. by eexists.
Qed.

Lemma commit_memory_spec w l w1 content :
  unchanged w l w1 -> asked content ->
  wp (commit_memory mem self s msg content handle) w1 (fun r w' =>
    match r with
    | Ok _ => logs_at w l w' /\ committed w content (memory_of w') /\ pending_of w' = pending_of w
    | Err e => chat_outcome w l (Err e) w'
    end).
Proof.
  intros (Hl & Hm & Hp) Hasked. unfold commit_memory, committed.
  destruct handle as [h|] eqn:Hh.
  - wp_step. cbv beta. unfold pending_of in Hp. rewrite Hp. fold (pending_of w).
    assert (memory_of w = Some (deref h w1)) as Hmw.
    { rewrite -Hm. unfold memory_of. by rewrite Hh. }
    rewrite Hmw. case_bool_decide as Hpe.
    { split; [done|]. split; [|done]. rewrite Hm Hmw. done. }
    apply wp_intro. unfold on_memory. fold inputs (outputs content).
    destruct (save_context mem inputs (outputs content) (deref h w1)) as [[[]|me] m1] eqn:Hs;
      intros r w2 [= <- <-]; cbn.
    + split; [by destruct h|]. unfold memory_of, pending_of. rewrite Hh. cbn. rewrite assign_deref.
      split; [by eexists|]. by destruct h.
    + eapply chat_unsaved; [done|done|done|by destruct h| |].
      * unfold memory_of. rewrite Hh. cbn. by rewrite assign_deref.
      * unfold pending_of. by destruct h.
  - assert (forall w', memory_of w' = None) as Hn by (intros w'; unfold memory_of; by rewrite Hh).
    apply wp_ret. by rewrite !Hn.
Qed.

(** The append of the pair, and the marker. *)
Lemma commit_turn_spec w l w1 content :
  logs_at w l w1 -> (LogSpec.latest_id l + 2 <= u64_max)%N -> l <> [] ->
  pending_of w1 = pending_of w -> committed w content (memory_of w1) -> asked content ->
  wp (commit_turn store clock self s msg content (user_turns l)) w1 (fun r w' =>
    match r with
    | Ok _ => exists t1 t2, logs_at w (l ++ turn_pair t1 t2 s b l msg content) w' /\
        log_move s b l (l ++ turn_pair t1 t2 s b l msg content) /\
        committed w content (memory_of w') /\ pending_of w' = None
    | Err e => chat_outcome w l (Err e) w'
    end).
Proof.
  intros Hl Hmax Hne Hp Hc Ha. unfold commit_turn.
  assert (forall w0 w', at_log store w1 (wlogs store w) s b w0 w' ->
            memory_of w' = memory_of w1 /\ pending_of w' = pending_of w1) as Hview
    by (intros ? ? (_ & _ & Hr); by apply same_rest_view).
  wp_step. eapply wp_mono; [apply at_next_id; [by apply logs_at_log|lia]|].
  intros [n|e] w2 [H2 Hn].
  2:{ destruct (Hview _ _ H2) as [Hm2 Hp2].
      eapply chat_unmarked; [done|by rewrite Hm2|by eapply at_log_logs|congruence]. }
  specialize (Hn n eq_refl) as ->.
  wp_step. eapply wp_mono; [by apply at_now|]. intros r w3 [[t1 ->] H3].
  wp_step. eapply wp_mono; [by apply at_now|]. intros r w4 [[t2 ->] H4].
  rewrite u64_add_small; last lia. replace (LogSpec.latest_id l + 1 + 1)%N with (LogSpec.latest_id l + 2)%N by lia.
  set (e1 := event_now t1 _ _ _ _ _). set (e2 := event_now t2 _ _ _ _ _).
  assert (next_event s b l e1) as Hn1 by (do 3 (split; [done|]); cbn; lia).
  assert (next_event s b (l ++ [e1]) e2) as Hn2.
  { do 2 (split; [done|]). rewrite latest_id_snoc. cbn. lia. }
  wp_step. apply wp_try. eapply wp_mono; [by apply at_append_pair|].
  intros r w5 H5. destruct (Hview _ _ H5) as [Hm5 Hp5]. destruct r as [[]|e].
  - apply at_log_logs in H5. exists t1, t2. split; [exact H5|].
    split; [by eapply move_turn|]. split.
    + rewrite memory_of_set_pending. by rewrite Hm5.
    + unfold pending_of. cbn. by rewrite lookup_delete_eq.
  - apply at_log_logs in H5. wp_step. apply wp_intro. intros r w6 [= <- <-]. apply wp_fail.
    eapply chat_unlogged; [done| |exact H5|].
    + rewrite memory_of_set_pending. by rewrite Hm5.
    + unfold pending_of. cbn. by rewrite lookup_insert_eq.
Qed.

Lemma turn_pair_positive t1 t2 l content :
  ids_positive l -> ids_positive (l ++ turn_pair t1 t2 s b l msg content).
Proof.
  intros Hp. apply Forall_app. split; [done|]. repeat constructor; cbn; lia.
Qed.

Lemma latest_id_pair t1 t2 l content :
  LogSpec.latest_id (l ++ turn_pair t1 t2 s b l msg content) = (LogSpec.latest_id l + 2)%N.
Proof. unfold turn_pair. by rewrite (app_assoc l [_] [_]) latest_id_snoc. Qed.

(** ** The whole chat *)

Lemma chat_spec w :
  let l := wlogs store w s b in
  winv store w -> ids_positive l -> (LogSpec.latest_id l + 3 <= u64_max)%N ->
  wp (chat store mem from_value clock self s llm msg) w (chat_outcome w l).
Proof.
  cbv zeta. set (l := wlogs store w s b). intros Hi Hp Hmax.
  assert (unchanged w l w) as Hu by by apply unchanged_refl.
  unfold chat. wp_step.
  eapply wp_mono; [apply (at_turn_count store self s w (wlogs store w) l w); [by apply at_log_start|done|lia]|].
  intros r w1 [H1 Hr]. apply at_log_unchanged with (w := w) (l := l) in H1; [|done].
  destruct r as [p|e]; [|by destruct H1 as (? & ? & ?); apply chat_refused].
  specialize (Hr p eq_refl) as ->.
  case_match eqn:Hz; [destruct H1 as (? & ? & ?); by apply wp_fail, chat_refused|].
  apply N.eqb_neq in Hz. assert (l <> []) as Hne by (intros E; by rewrite E in Hz).
  cbv zeta. wp_step. eapply wp_mono; [by apply session_memory_spec|]. intros r w2 [-> H2].
  wp_step. eapply wp_mono; [by apply chat_context_spec|].
  intros [ms|e] w3 [H3 Hms]; [|destruct H3 as (? & ? & ?); by apply chat_refused].
  destruct Hms as [context ->].
  wp_step. unfold call_llm. apply wp_of_result.
  destruct (llm (context ++ [Message.human msg])) as [content|e] eqn:Hllm; cbn [map_err];
    [|destruct H3 as (? & ? & ?); by apply chat_refused].
  assert (asked content) as Ha by by exists context.
  wp_step. eapply wp_mono; [by eapply commit_memory_spec|].
  intros [[]|e] w4 H4; [|done]. destruct H4 as (H4 & Hc4 & Hp4).
  wp_step. eapply wp_mono; [eapply commit_turn_spec; [done|lia|done|done|done|done]|].
  intros [[]|e] w5 H5; [|done]. destruct H5 as (t1 & t2 & H5 & _ & Hc5 & Hp5).
  set (l2 := l ++ turn_pair t1 t2 s b l msg content) in *.
  assert (l2 <> []) as Hne2 by by destruct l.
  destruct (m_auto_compaction self) as [policy|] eqn:Hpol.
  2:{ apply wp_bind, wp_ret, wp_ret. eapply (chat_done _ _ content t1 t2 0%Z); try done.
      by rewrite Hpol. }
  wp_step. wp_step. eapply wp_mono.
  { apply (at_compact store clock self s w5 (wlogs store w) l2); [by apply logs_at_log| |done|].
    - by apply turn_pair_positive.
    - unfold l2. rewrite latest_id_pair. lia. }
  assert (forall l' w', at_log store w5 (wlogs store w) s b l' w' ->
            logs_at w l' w' /\ committed w content (memory_of w') /\ pending_of w' = None) as Hview.
  { intros l' w' H. pose proof H as (_ & _ & Hr). apply same_rest_view in Hr as [-> ->].
    split; [by eapply at_log_logs|done]. }
  intros [[]|e] w6 [now H6].
  - destruct H6 as [Hn H6%Hview]. destruct H6 as (? & ? & ?). apply wp_ret, wp_ret.
    eapply (chat_done _ _ content t1 t2 now); try done. rewrite Hpol /settled. fold l2.
    by rewrite (proj2 (Nat.leb_gt _ _) Hn).
  - destruct H6 as [Hn H6%Hview]. destruct H6 as (? & ? & ?). apply wp_ret, wp_ret.
    eapply (chat_done _ _ content t1 t2 now); try done. rewrite Hpol /settled. fold l2.
    by rewrite (proj2 (Nat.leb_le _ _) Hn).
  - destruct H6 as [H6%Hview|[Hn H6%Hview]]; destruct H6 as (? & ? & ?).
    + eapply (chat_unsettled _ _ e content t1 t2 now []); try done; [by rewrite Hpol|by left|].
      by rewrite app_nil_r.
    + eapply (chat_unsettled _ _ e content t1 t2 now [snapshot_of now _ l2]); try done;
        [by rewrite Hpol|right; by eexists].
Qed.

End chat.
