(* ===== verification/SessionTheorems.v ===== *)
(** * What the session manager guarantees

    Chats and retries ([chat_appends_turn], [chat_retry_saves_once]), compaction and
    garbage collection ([compaction_bounded], [gc_never_settles]), forks
    ([fork_isolated]) and the context window ([context_window]).  Each theorem is
    about any store that keeps the [EventLog] contract; [Infallible] adds that its
    calls succeed, for the theorems that promise progress. *)

From S2P Require Import Prelude Json Message Session Memory Replay ReplayFacts EventLog.
From S2P Require Import EventStoreMem SessionCheckpoint EventManager EventManagerFacts.
From stdpp Require Import gmap strings list sorting.

Class Infallible {C} (st : EventStore C) `{!EventLog st} := {
  inf_append e c : el_inv c -> exists c', es_append st e c = (Ok (), c');
  inf_append_batch es c : el_inv c -> exists c', es_append_batch st es c = (Ok (), c');
  inf_latest_id s b c : el_inv c -> exists n c', es_latest_id st s b c = (Ok n, c');
  inf_read s b after c : el_inv c -> exists l c', es_read st s b after c = (Ok l, c');
  inf_delete_before s b n c : el_inv c -> exists c', es_delete_before st s b n c = (Ok (), c');
}.

Global Instance memory_store_infallible : Infallible memory_event_store.
Proof.
  split; intros; cbn; [by eexists|by eexists|by eexists _, _|by eexists _, _|].
  destruct (mem_delete_before_spec s b n c) as (m & E & _); [done|]. by exists m.
Qed.

(** The turns of a compacted log: those kept, then the snapshot's own. *)
Lemma turns_of_compacted n now l :
  0 < n -> n < length (turns_of l) ->
  turns_of (compacted n now l) =
  drop (length (turns_of l) - n) (turns_of l) ++
  [mkTurn (ev_turn_index (snapshot_of now n l)) [snapshot_of now n l]].
Proof.
  intros Hn Hlt. unfold compacted. destruct (Nat.eqb_spec n 0); [lia|].
  rewrite turns_of_app_opens // turns_of_singleton. unfold kept_events.
  rewrite turns_of_drop; [done|lia].
Qed.

(** Putting a sorted list of events into an empty log. *)
Lemma log_put_all dst l :
  StronglySorted id_lt l -> foldl (fun l e => log_put (set_branch dst e) l) [] l = set_branch dst <$> l.
Proof.
  induction l as [|e l IH] using rev_ind; intros Hs; [done|].
  rewrite foldl_app fmap_app IH; last by eapply StronglySorted_app_1_l.
  cbn. apply log_put_snoc. rewrite Forall_fmap. apply sorted_last_max in Hs. exact Hs.
Qed.

Lemma windowed_message_eq e : windowed_message e = event_messages e.
Proof. unfold windowed_message, event_messages. by destruct (ev_payload e). Qed.

Lemma windowed_messages l : l ≫= windowed_message = messages_of l.
Proof.
  unfold messages_of. induction l as [|e l IH]; [done|]. by rewrite !bind_cons windowed_message_eq IH.
Qed.

(** The [k]-th element a filter keeps splits the list. *)
Lemma filter_lookup_split {A} (P : A -> Prop) `{!forall x, Decision (P x)} (l : list A) k x :
  filter P l !! k = Some x ->
  exists pre post, l = pre ++ x :: post /\ P x /\ length (filter P pre) = k.
Proof.
  revert k. induction l as [|y l IH]; intros k; [done|]. rewrite filter_cons. case_decide as Hy.
  - destruct k as [|k]; cbn; [intros [= <-]; by exists [], l|].
    intros (pre & post & -> & Hx & <-)%IH. exists (y :: pre), post. rewrite filter_cons decide_True //.
  - intros (pre & post & -> & Hx & <-)%IH. exists (y :: pre), post. rewrite filter_cons decide_False //.
Qed.

Definition real (t : Turn) : Prop := is_snapshot_turn t = false.
Global Instance real_dec t : Decision (real t).
Proof. unfold real. apply _. Defined.

(** The context window of [n >= 1] turns is the messages of a suffix of the
    turns that holds exactly the last [n] real turns (all of them when there are
    fewer), opens on a real turn, and counts no snapshot.  A window of zero turns is
    not empty: it is the whole history. *)
Theorem context_window l n messages :
  StronglySorted id_lt l -> last_n_turns_messages l n = Ok messages ->
  (n = 0 -> messages = messages_of l) /\
  (0 < n -> exists pre kept,
     turns_of l = pre ++ kept /\ messages = messages_of (events_of kept) /\
     length (filter real kept) = Nat.min n (length (filter real (turns_of l))) /\
     (0 < length (filter real (turns_of l)) -> exists t rest, kept = t :: rest /\ real t)).
Proof.
  intros Hs. unfold last_n_turns_messages. destruct l as [|e0 l0]; [done|].
  rewrite project_nonempty // ok_bind. cbn [ps_turns ps_messages]. remember (e0 :: l0) as l eqn:El.
  change (filter (fun t => is_snapshot_turn t = false) (turns_of l)) with (filter real (turns_of l)).
  set (total := length (filter real (turns_of l))).
  destruct (filter real (turns_of l) !! (total - n)) as [t|] eqn:Ht.
  2:{ intros [= <-]. split; [done|]. intros Hn. apply lookup_ge_None in Ht. fold total in Ht.
      exists [], (turns_of l). rewrite events_turns_of. fold total. repeat split; [lia|]. lia. }
  intros [= <-]. split; [intros ->; apply lookup_lt_Some in Ht; fold total in Ht; lia|].
  intros Hn. destruct (filter_lookup_split real _ _ _ Ht) as (pre & post & Hsplit & Hreal & Hlen).
  exists pre, (t :: post). split; [done|]. split; [|split; [|by intros _; exists t, post]].
  - pose proof (turns_of_ok l) as Hok. rewrite Hsplit Forall_app Forall_cons in Hok.
    destruct Hok as (_ & (e & es & Hev & _) & _).
    assert (l = events_of pre ++ e :: es ++ events_of post) as Hl.
    { rewrite -{1}(events_turns_of l) Hsplit events_of_app. cbn. by rewrite Hev. }
    assert (events_of (t :: post) = e :: es ++ events_of post) as -> by by cbn; rewrite Hev.
    rewrite Hev. cbn [head fmap option_fmap option_map default].
    rewrite Hl in Hs |- *. by rewrite filter_from_id // windowed_messages.
  - assert (total = length (filter real pre) + length (filter real (t :: post))) as Htot.
    { unfold total. by rewrite Hsplit filter_app length_app. }
    rewrite Hlen in Htot. fold total. apply lookup_lt_Some in Ht. fold total in Ht. lia.
Qed.

Section theorems.
Context {C M K : Type} (store : EventStore C) (mem : BaseMemory M).
Context (from_value : JsonValue -> option Message) (clock : nat -> Z).
Context `{!EventLog store}.

Notation Manager := (EventSessionManager M K).
Notation World := (World C M K).
Notation log_of := (wlogs (M:=M) (K:=K) store).

(** The session's log as the manager needs it: a store in its invariant, ids from
    one up, and room for [n] more. *)
Definition session_ready (n : N) (w : World) (s b : string) : Prop :=
  winv store w /\ ids_positive (log_of w s b) /\
  (LogSpec.latest_id (log_of w s b) + n <= u64_max)%N.

Lemma logs_at_split self s w l w' :
  logs_at store self s w l w' ->
  log_of w' s (m_branch self) = l /\
  forall s' b', (s', b') <> (s, m_branch self) -> log_of w' s' b' = log_of w s' b'.
Proof.
  intros [_ Hl]. split; [by rewrite Hl upd_same|]. intros s' b' Hne. rewrite Hl. by apply upd_other.
Qed.

(** ** Chat *)

(** C9: A chat that answers has asked the model with the user's message last and
    appended exactly that message and the reply, as one turn under the next two ids
    and the count of earlier user messages, followed by the compaction policy.  A
    chat that fails leaves the log as it was; only when the policy's own store calls
    fail is the complete turn there, possibly with its snapshot.  The user's message
    is never stored without its reply, and no other branch or session changes. *)
Theorem chat_appends_turn (self : Manager) s llm msg (w w' : World) r :
  let b := m_branch self in
  let l := log_of w s b in
  session_ready 3 w s b ->
  chat store mem from_value clock self s llm msg w = (r, w') ->
  (forall s' b', (s', b') <> (s, b) -> log_of w' s' b' = log_of w s' b') /\
  match r with
  | Ok content =>
      l <> [] /\ asked llm msg content /\
      exists t1 t2 now, log_of w' s b =
        settled (m_auto_compaction self) now (l ++ turn_pair t1 t2 s b l msg content)
  | Err _ =>
      log_of w' s b = l \/
      (m_auto_compaction self <> None /\
       exists t1 t2 content extra,
         log_of w' s b = (l ++ turn_pair t1 t2 s b l msg content) ++ extra /\
         (extra = [] \/ exists now n, extra = [snapshot_of now n (l ++ turn_pair t1 t2 s b l msg content)]))
  end.
Proof.
  cbv zeta. intros (Hi & Hp & Hm) E.
  pose proof (wp_elim _ _ _ _ _ (chat_spec store mem from_value clock self s llm msg w Hi Hp Hm) E)
    as Hout.
  destruct Hout as [e w' Hl|e m content w' m1 me _ _ _ Hl|e content w' _ _ Hl|e content w' _ _ Hl
    |e content t1 t2 now extra w' _ _ _ Hpol _ Hex Hl|content t1 t2 now w' Ha _ Hne _ Hl];
    apply logs_at_split in Hl as [Hl Ho]; (split; [done|]); auto.
  - right. split; [done|]. exists t1, t2, content, extra. split; [done|].
    destruct Hex as [->|(n & _ & ->)]; eauto.
  - eauto 6.
Qed.

(** A chat whose log append failed after its memory save, and is retried with
    the same message and reply, saves the turn in memory once: the memory after the
    retry is the one saved by the first attempt, the marker is gone, and the log has
    the turn once. *)
Theorem chat_retry_saves_once (self : Manager) s llm llm' msg (w w1 w2 : World) e content content'
    m :
  let b := m_branch self in
  session_ready 3 w s b ->
  memory_of self s w = Some m -> pending_of s w <> Some (msg, content) ->
  chat store mem from_value clock self s llm msg w = (Err e, w1) ->
  pending_of s w1 = Some (msg, content) ->
  (forall ms, llm' ms = Ok content) ->
  chat store mem from_value clock self s llm' msg w1 = (Ok content', w2) ->
  content' = content /\ pending_of s w2 = None /\
  (exists m1, save_context mem (inputs self msg) (outputs self content) m = (Ok (), m1) /\
              memory_of self s w2 = Some m1) /\
  exists t1 t2 now, log_of w2 s b = settled (m_auto_compaction self) now
    (log_of w s b ++ turn_pair t1 t2 s b (log_of w s b) msg content).
Proof.
  cbv zeta. intros (Hi & Hp & Hm) Hmem Hpend E1 Hp1 Hllm E2.
  pose proof (wp_elim _ _ _ _ _ (chat_spec store mem from_value clock self s llm msg w Hi Hp Hm) E1)
    as Hout.
  inversion Hout as [| | |e0 c w0 _ Hc Hl Hpc| |]; subst; try congruence.
  rewrite Hp1 in Hpc. injection Hpc as <-. pose proof Hl as [Hi1 _].
  apply logs_at_split in Hl as [Hl1 _].
  assert (exists m1, save_context mem (inputs self msg) (outputs self content) m = (Ok (), m1) /\
                     memory_of self s w1 = Some m1) as (m1 & Hs & Hm1).
  { unfold committed in Hc. rewrite Hmem bool_decide_false // in Hc. }
  rewrite -Hl1 in Hp, Hm.
  pose proof (wp_elim _ _ _ _ _ (chat_spec store mem from_value clock self s llm' msg w1 Hi1 Hp Hm) E2)
    as Hout2.
  inversion Hout2 as [| | | | |c t1 t2 now w0 Ha Hc2 _ Hp2 Hl2]; subst.
  destruct Ha as [ctx Ha]. rewrite Hllm in Ha. injection Ha as <-.
  apply logs_at_split in Hl2 as [Hl2 _]. rewrite Hl1 in Hl2.
  unfold committed in Hc2. rewrite Hm1 bool_decide_true // in Hc2. eauto 10.
Qed.

(** ** Compaction *)

(** With a budget of at least one turn, a compaction either finds the log within
    the budget and leaves it, or splits its turns into dropped ones and exactly as
    many kept ones as the budget, keeps every event of the kept turns, and appends
    one snapshot holding the summary and count of the dropped turns: the log has one
    turn more than the budget and its ids go on.  Other logs do not change. *)
Theorem compaction_bounded (self : Manager) s n (w w' : World) changed :
  let b := m_branch self in
  let l := log_of w s b in
  0 < n -> session_ready 1 w s b -> l <> [] ->
  compact_and_prune store clock self s n w = (Ok changed, w') ->
  (forall s' b', (s', b') <> (s, b) -> log_of w' s' b' = log_of w s' b') /\
  if changed then
    exists dropped kept snap,
      turns_of l = dropped ++ kept /\ length kept = n /\ 0 < length dropped /\
      log_of w' s b = events_of kept ++ [snap] /\
      ev_payload snap = Snapshot (summarize_turns dropped) (N.of_nat (length dropped)) /\
      turns_of (log_of w' s b) = kept ++ [mkTurn (ev_turn_index snap) [snap]] /\
      ev_id snap = (LogSpec.latest_id l + 1)%N
  else log_of w' s b = l /\ length (turns_of l) <= n.
Proof.
  cbv zeta. intros Hn (Hi & Hp & Hm) Hne E. set (b := m_branch self) in *. set (l := log_of w s b) in *.
  assert ((LogSpec.latest_id l < u64_max)%N) as Hm' by lia.
  pose proof (at_log_start store w s b Hi) as Hat.
  pose proof (wp_elim _ _ _ _ _ (at_compact store clock self s w _ l w n Hat Hp Hne Hm') E) as [now H].
  assert (forall l', at_log store w (log_of w) s b l' w' -> log_of w' s b = l' /\
    forall s' b', (s', b') <> (s, b) -> log_of w' s' b' = log_of w s' b') as Hsplit.
  { intros l' (Hi' & Hl' & _). by apply (logs_at_split self). }
  destruct changed.
  - destruct H as [Hlt H]. apply Hsplit in H as [Hl Ho]. split; [done|]. rewrite Hl.
    set (d := length (turns_of l) - n).
    exists (take d (turns_of l)), (drop d (turns_of l)), (snapshot_of now n l).
    rewrite turns_of_compacted // length_drop length_take. fold d.
    unfold compacted, kept_events, snapshot_of. fold d. cbn [ev_payload ev_id event_now].
    rewrite next_after_spec //. rewrite take_drop. destruct (Nat.eqb_spec n 0); [lia|].
    replace (Nat.min d (length (turns_of l))) with d by lia.
    repeat split; lia.
  - destruct H as [Hle H]. apply Hsplit in H as [Hl Ho]. auto.
Qed.

(** ** Forks *)

(** Forking into a branch without events copies the events up to the bound, in
    order and under the same ids, and changes no other log; a chat on the fork then
    leaves the trunk's log, and every other log, as it was. *)
Theorem fork_isolated (self forked : Manager) s dst until_id (w w1 w2 : World) llm msg r :
  let b := m_branch self in
  winv store w -> log_of w s dst = [] -> dst <> b ->
  fork_session store self s dst until_id w = (Ok forked, w1) ->
  m_branch forked = dst /\
  log_of w1 s dst = set_branch dst <$> LogSpec.fork_prefix until_id (log_of w s b) /\
  (forall s' b', (s', b') <> (s, dst) -> log_of w1 s' b' = log_of w s' b') /\
  (session_ready 3 w1 s dst ->
   chat store mem from_value clock forked s llm msg w1 = (r, w2) ->
   forall s' b', (s', b') <> (s, dst) -> log_of w2 s' b' = log_of w s' b').
Proof.
  cbv zeta. intros Hi Hempty Hne. unfold fork_session, mbind, act_bind, on_store, act_zoom.
  destruct (es_fork store s (m_branch self) dst until_id (w_store w)) as [r1 c1] eqn:Ef.
  destruct r1 as [n|e]; [|done]. intros [= <- <-]. cbn [m_branch].
  destruct (el_fork s (m_branch self) dst until_id _ _ _ Hi Ef) as [_ Hl].
  assert (forall s' b', log_of (set_store c1 w) s' b' =
    LogSpec.fork s (m_branch self) dst until_id (log_of w) s' b') as Hlog by (intros; apply Hl).
  assert (log_of (set_store c1 w) s dst =
    set_branch dst <$> LogSpec.fork_prefix until_id (log_of w s (m_branch self))) as Hdst.
  { rewrite Hlog /LogSpec.fork /here bool_decide_true // Hempty. apply log_put_all.
    apply filter_sorted, el_log_ok, Hi. }
  assert (forall s' b', (s', b') <> (s, dst) -> log_of (set_store c1 w) s' b' = log_of w s' b')
    as Hother.
  { intros s' b' Hn. rewrite Hlog /LogSpec.fork /here bool_decide_false //. intros [-> ->]. done. }
  split; [done|]. split; [done|]. split; [done|].
  intros (Hi1 & Hp1 & Hm1) Hchat s' b' Hn. rewrite -Hother //.
  pose proof (wp_elim _ _ _ _ _ (chat_spec store mem from_value clock
    (mkEventSessionManager dst _ _ _ _ _ _ _) s llm msg _ Hi1 Hp1 Hm1) Hchat) as Hout.
  assert (exists l, logs_at store (mkEventSessionManager dst (m_memory self) (m_memory_input_key self)
    (m_memory_output_key self) (m_memory_factory self) (m_max_context_turns self)
    (m_auto_compaction self) (m_checkpoint self)) s (set_store c1 w) l w2) as [l Hl2]
    by (destruct Hout; eauto).
  apply logs_at_split in Hl2 as [_ Ho]. by apply Ho.
Qed.

Section progress.
Context `{!Infallible store}.

Lemma wp_store_ok {A} (m : Act C SessionError A) (w : World) :
  (forall c, el_inv c -> exists a c', m c = (Ok a, c')) -> winv store w ->
  wp (on_store m) w (fun r _ => exists a, r = Ok a).
Proof.
  intros Hm Hi. apply wp_zoom, wp_intro. intros r c E. destruct (Hm _ Hi) as (a & c' & E').
  rewrite E in E'. injection E' as -> _. by exists a.
Qed.

Lemma wp_both {W E A} (m : Act W E A) (w : W) (P Q : result E A -> W -> Prop) :
  wp m w P -> wp m w Q -> wp m w (fun r w' => P r w' /\ Q r w').
Proof. by split. Qed.

Lemma compact_total (self : Manager) s n (w : World) :
  let l := log_of w s (m_branch self) in
  winv store w -> ids_positive l -> l <> [] -> (LogSpec.latest_id l < u64_max)%N ->
  wp (compact_and_prune store clock self s n) w (fun r _ => exists x, r = Ok x).
Proof.
  cbv zeta. set (b := m_branch self). set (l := log_of w s b). intros Hi Hp Hne Hm.
  pose proof (at_log_start store w s b Hi) as Hat. unfold compact_and_prune. wp_step.
  eapply wp_mono; [apply wp_both; [by apply at_read|apply wp_store_ok; [|done]]|].
  { intros c Hc. destruct (inf_read s b None c Hc) as (l' & c' & Hr). eauto. }
  intros r w1 [[H1 Hl] [l' ->]]. specialize (Hl l' eq_refl) as ->. fold l.
  wp_step. cbv beta. wp_step. rewrite compact_to_snapshot_eq //. destruct (_ <=? _); [by eexists|].
  wp_step. eapply wp_mono; [by apply at_tick|]. intros r w2 [-> H2].
  wp_step. rewrite prune_boundary_eq //.
  wp_step. eapply wp_mono; [apply wp_both; [apply at_append; [exact H2|]|apply wp_store_ok]|].
  { eapply snapshot_next; [exact Hat|done|done]. }
  { intros c Hc. destruct (inf_append (snapshot_of (clock (w_tick w1)) n l) c Hc) as (c' & Hr). eauto. }
  { by destruct H2. }
  intros r w3 [H3 [[] ->]]. destruct (if _ <=? _ then None else _) as [i|]; [|by eexists].
  wp_step. eapply wp_mono; [apply wp_store_ok|].
  { intros c Hc. destruct (inf_delete_before s b i c Hc) as (c' & Hr). eauto. }
  { by destruct H3. }
  intros r w4 [[] ->]. by eexists.
Qed.

(** Collecting [k] times, with the answers. *)
Fixpoint gc_times (self : Manager) (s : string) (k : nat) (w : World)
    : list (SessionResult bool) * World :=
  match k with
  | 0 => ([], w)
  | S k' =>
      let '(r, w1) := gc store clock self s w in
      let '(rs, w2) := gc_times self s k' w1 in
      (r :: rs, w2)
  end.

Definition snapshot_turn (t : Turn) : Prop := exists e, turn_events t = [e] /\ is_snapshot (ev_payload e) = true.

(** [n + 1] turns, the last [j] of them snapshots. *)
Definition eroded (n j : nat) (l : list SessionEvent) : Prop :=
  length (turns_of l) = S n /\ Forall snapshot_turn (drop (S n - j) (turns_of l)).

Lemma compacted_eroded n j now l :
  0 < n -> eroded n j l -> eroded n (S j) (compacted n now l).
Proof.
  intros Hn [Hlen Hs]. unfold eroded. rewrite turns_of_compacted //; last lia.
  rewrite Hlen. replace (S n - n) with 1 by lia. set (t := mkTurn _ _).
  rewrite length_app length_drop Hlen. split; [cbn; lia|].
  destruct (decide (j <= n)) as [Hj|Hj].
  - rewrite drop_app_le; last (rewrite length_drop; lia). rewrite drop_drop Forall_app.
    replace (1 + (S n - S j)) with (S n - j) by lia. split; [done|].
    rewrite Forall_singleton. by eexists.
  - replace (S n - S j) with 0 by lia. replace (S n - j) with 0 in Hs by lia.
    rewrite drop_0 in Hs |- *. rewrite Forall_app Forall_singleton. split; [|by eexists].
    by apply Forall_drop.
Qed.

Lemma compacted_erodes n now l :
  0 < n -> n < length (turns_of l) -> eroded n 1 (compacted n now l).
Proof.
  intros Hn Hlt. unfold eroded. rewrite turns_of_compacted // length_app length_drop.
  split; [cbn; lia|]. replace (S n - 1) with n by lia.
  rewrite drop_app_length'; [|rewrite length_drop; lia]. rewrite Forall_singleton. by eexists.
Qed.

(** One collection of a log over its budget. *)
Lemma gc_step (self : Manager) s n (w : World) :
  let b := m_branch self in
  let l := log_of w s b in
  m_auto_compaction self = Some (mkAutoCompaction n None) -> 0 < n ->
  session_ready 1 w s b -> n < length (turns_of l) ->
  exists w' now, gc store clock self s w = (Ok true, w') /\ winv store w' /\
    log_of w' s b = compacted n now l.
Proof.
  cbv zeta. intros Hpol Hn (Hi & Hp & Hm) Hlt. set (b := m_branch self) in *. set (l := log_of w s b) in *.
  assert (l <> []) as Hne by (intros E; rewrite E in Hlt; cbn in Hlt; lia).
  assert ((LogSpec.latest_id l < u64_max)%N) as Hm' by lia.
  enough (wp (gc store clock self s) w (fun r w' => r = Ok true /\ winv store w' /\
    exists now, log_of w' s b = compacted n now l)) as H.
  { unfold wp in H. destruct (gc store clock self s w) as [r w']. cbn in H.
    destruct H as (-> & ? & now & ?). by exists w', now. }
  pose proof (at_log_start store w s b Hi) as Hat. unfold gc. rewrite Hpol. wp_step.
  unfold existing. wp_step.
  eapply wp_mono; [apply wp_both; [by apply at_read|apply wp_store_ok; [|done]]|].
  { intros c Hc. destruct (inf_read s b None c Hc) as (l' & c' & Hr). eauto. }
  intros r w1 [[H1 Hl] [l' ->]]. specialize (Hl l' eq_refl) as ->. fold l.
  rewrite bool_decide_false //. apply wp_ret. cbn [max_age max_turns]. apply wp_bind, wp_ret.
  pose proof H1 as (Hi1 & Hl1 & _).
  assert (log_of w1 s b = l) as Hw1 by by rewrite Hl1 upd_same.
  eapply wp_mono; [apply wp_both; [apply (at_compact store clock self s w (log_of w) l w1 n);
    [exact H1|done|done|done]
   |apply compact_total; [done|by rewrite Hw1|by rewrite Hw1|by rewrite Hw1]]|].
  intros r w2 [[now H2] [x ->]]. destruct x.
  - destruct H2 as [_ (Hi2 & Hl2 & _)]. split; [done|]. split; [done|]. exists now.
    by rewrite Hl2 upd_same.
  - destruct H2 as [Hle _]. lia.
Qed.

Lemma compacted_ready n now l :
  0 < n -> n < length (turns_of l) -> ids_positive l -> (LogSpec.latest_id l < u64_max)%N ->
  ids_positive (compacted n now l) /\
  LogSpec.latest_id (compacted n now l) = (LogSpec.latest_id l + 1)%N.
Proof.
  intros Hn Hlt Hp Hm. unfold compacted. destruct (Nat.eqb_spec n 0); [lia|]. split.
  - apply Forall_app. split.
    + unfold kept_events. set (d := length (turns_of l) - n).
      assert (l = events_of (take d (turns_of l)) ++ events_of (drop d (turns_of l))) as Hsplit
        by by rewrite -events_of_app take_drop events_turns_of.
      unfold ids_positive in Hp. rewrite {1}Hsplit Forall_app in Hp. apply Hp.
    + repeat constructor. unfold snapshot_of. cbn. rewrite next_after_spec //. lia.
  - rewrite latest_id_snoc. unfold snapshot_of. cbn. by rewrite next_after_spec.
Qed.

Lemma gc_ready (self : Manager) s n k (w : World) :
  let b := m_branch self in
  let l := log_of w s b in
  m_auto_compaction self = Some (mkAutoCompaction n None) -> 0 < n ->
  session_ready (N.of_nat (S k)) w s b -> n < length (turns_of l) ->
  exists w' now, gc store clock self s w = (Ok true, w') /\
    log_of w' s b = compacted n now l /\ session_ready (N.of_nat k) w' s b.
Proof.
  cbv zeta. intros Hpol Hn (Hi & Hp & Hm) Hlt.
  destruct (gc_step self s n w Hpol Hn) as (w' & now & E & Hi' & Hl);
    [repeat split; [done|done|lia]|done|].
  exists w', now. split; [done|]. split; [done|]. unfold session_ready. rewrite Hl.
  destruct (compacted_ready n now (log_of w s (m_branch self))) as [Hp' Hm']; [done|done|done|lia|].
  split; [done|]. split; [done|]. lia.
Qed.

Lemma gc_eroded (self : Manager) s n k j (w w' : World) answers :
  let b := m_branch self in
  m_auto_compaction self = Some (mkAutoCompaction n None) -> 0 < n ->
  eroded n j (log_of w s b) -> session_ready (N.of_nat k) w s b ->
  gc_times self s k w = (answers, w') ->
  answers = replicate k (Ok true) /\ eroded n (j + k) (log_of w' s b).
Proof.
  cbv zeta. intros Hpol Hn. revert j w answers. induction k as [|k IH]; intros j w answers He Hr.
  { intros [= <- <-]. by rewrite Nat.add_0_r. }
  cbn [gc_times]. destruct (gc_ready self s n k w Hpol Hn) as (w1 & now & E & Hl & Hr1); [done| |].
  { destruct He as [-> _]. lia. }
  rewrite E. destruct (gc_times self s k w1) as [rs w2] eqn:Er. intros [= <- <-].
  apply (IH (S j)) in Er as [-> He2]; [|rewrite Hl; by apply compacted_eroded|done].
  by rewrite -Nat.add_succ_comm.
Qed.

(** Collecting never settles.  Once a session has more turns than a budget of
    [n] turns (without an age bound), every later [gc], with no chat in between,
    reports that it compacted the log, and each one drops another turn: after
    [n + 1] calls only snapshots are left, so a periodic reaper erases the whole
    conversation.  The doc says [gc] answers [false] when the session is within
    budget and that a live turn is always left behind; a compaction leaves [n]
    turns and its snapshot, and counts the snapshot as a turn over the budget. *)
Theorem gc_never_settles (self : Manager) s n k (w w' : World) answers :
  let b := m_branch self in
  m_auto_compaction self = Some (mkAutoCompaction n None) -> 0 < n ->
  session_ready (N.of_nat k) w s b -> n < length (turns_of (log_of w s b)) ->
  gc_times self s k w = (answers, w') ->
  answers = replicate k (Ok true) /\
  (n < k -> Forall (fun e => is_snapshot (ev_payload e) = true) (log_of w' s b)) /\
  (0 < k -> length (turns_of (log_of w' s b)) = S n).
Proof.
  cbv zeta. intros Hpol Hn Hready Hlt Hgc. destruct k as [|k].
  { injection Hgc as <- <-. split; [done|]. split; lia. }
  cbn [gc_times] in Hgc. destruct (gc_ready self s n k w Hpol Hn) as (w1 & now & E & Hl & Hr);
    [done|done|]. rewrite E in Hgc.
  destruct (gc_times self s k w1) as [rs w2] eqn:Er. injection Hgc as <- <-.
  apply (gc_eroded self s n k 1) in Er as [-> [Hlen Hs]]; try done.
  2:{ rewrite Hl. by apply compacted_erodes. }
  split; [done|]. split; [|done]. intros Hk. replace (S n - (1 + k)) with 0 in Hs by lia.
  rewrite drop_0 in Hs. rewrite -(events_turns_of (log_of w2 s (m_branch self))).
  apply Forall_bind. eapply Forall_impl; [exact Hs|]. intros t (e & Ht & He).
  by rewrite /compose Ht Forall_singleton.
Qed.

End progress.

End theorems.
