(* ===== verification/Recovery.v ===== *)
(** * Every world the manager reaches

    [step] is one operation of any manager (a trunk or a fork) over a shared world:
    creating, chatting, recording tools, collecting, checkpointing, recovering,
    deleting and forking, each succeeding or failing as the store, the memory, the
    model and the checkpoint store decide.  [good] is the invariant of the worlds
    reached from an empty one: ids are positive, each tool result follows its call in
    its turn, and a checkpoint either matches a prefix of its log, or a snapshot
    newer than it is in the log, or the session has been deleted.
    [tool_results_paired] and [recover_refines_replay] are its consequences.

    Two things are left out of [step], because the code does not survive them: a fork goes
    into a branch without events, and operations run one after the other, although deleting,
    forking and checkpointing take no lock ([fork_over_orphans_result],
    [deletion_orphans_result] in [SessionSamples]). *)

From S2P Require Import Prelude Json Message Session Memory Replay ReplayFacts EventLog.
From S2P Require Import EventStoreMem SessionCheckpoint EventManager EventManagerFacts SessionTheorems.
From stdpp Require Import gmap strings list sorting.

(** ** Pairing *)

(** A result comes right after its call, under the same turn index. *)
Definition follows (prev : option SessionEvent) (e : SessionEvent) : Prop :=
  match ev_payload e with
  | ToolResult call_id _ =>
      exists c tool input, prev = Some c /\ ev_payload c = ToolCalled tool input call_id
  | _ => True
  end.

Fixpoint paired_from (prev : option SessionEvent) (l : list SessionEvent) : Prop :=
  match l with
  | [] => True
  | e :: l' => follows prev e /\ paired_from (Some e) l'
  end.

Definition turn_paired (t : Turn) : Prop := paired_from None (turn_events t).
Definition log_paired (l : list SessionEvent) : Prop := Forall turn_paired (turns_of l).

Lemma paired_snoc prev l e :
  paired_from prev (l ++ [e]) <->
  paired_from prev l /\ follows (match last l with Some c => Some c | None => prev end) e.
Proof.
  revert prev. induction l as [|x l IH]; intros prev; cbn; [tauto|].
  rewrite IH. rewrite -/(last (x :: l)) last_cons. destruct (last l); tauto.
Qed.

Lemma paired_call prev l e call_id obs :
  paired_from prev l -> e ∈ l -> ev_payload e = ToolResult call_id obs ->
  exists c tool input, (c ∈ l \/ prev = Some c) /\ ev_payload c = ToolCalled tool input call_id.
Proof.
  revert prev. induction l as [|x l IH]; intros prev; [by intros _ ?%elem_of_nil|].
  intros [Hx Hl] [->|He]%elem_of_cons Hp.
  - unfold follows in Hx. rewrite Hp in Hx. destruct Hx as (c & tool & input & ? & ?). eauto 8.
  - destruct (IH _ Hl He Hp) as (c & tool & input & [Hc|[= <-]] & ?).
    + exists c, tool, input. split; [left; by apply list_elem_of_further|done].
    + exists x, tool, input. split; [left; apply list_elem_of_here|done].
Qed.

Lemma turn_paired_orphans t : turn_paired t -> turn_orphans t = 0.
Proof.
  intros Ht. unfold turn_orphans. rewrite filter_out //. intros e He. unfold is_orphan.
  destruct (ev_payload e) as [| | |call_id obs| | | |] eqn:Hp; try done.
  destruct (paired_call _ _ _ _ _ Ht He Hp) as (c & tool & input & [Hc|] & Hpc); [|done].
  rewrite bool_decide_true //. unfold call_ids. apply elem_of_list_to_set, list_elem_of_omap.
  exists c. by rewrite Hpc.
Qed.

Lemma log_paired_orphans l :
  l <> [] -> log_paired l -> assert_no_orphan_tool_results l = Ok 0.
Proof.
  intros Hl Hp. unfold assert_no_orphan_tool_results. rewrite project_nonempty // ok_bind.
  cbn [ps_turns]. f_equal. unfold log_paired in Hp. revert Hp.
  induction (turns_of l) as [|t ts IH]; [done|].
  intros [Ht Hts]%Forall_cons. cbn. by rewrite turn_paired_orphans // IH.
Qed.

(** An event that is not a result may go anywhere. *)
Lemma paired_any l e :
  log_paired l -> (forall prev, follows prev e) -> log_paired (l ++ [e]).
Proof.
  unfold log_paired. rewrite turns_of_snoc turn_step_eq. intros Hl He.
  destruct (joins (turns_of l) e) eqn:Hj.
  - apply joins_not_nil in Hj. destruct (turns_of l) as [|t ts _] using rev_ind; [done|].
    rewrite extend_last_snoc. apply Forall_app in Hl as [Hts [Ht _]%Forall_cons].
    apply Forall_app. split; [done|]. apply Forall_singleton. apply (paired_snoc None). split; [exact Ht|apply He].
  - apply Forall_app. split; [done|]. apply Forall_singleton. split; [by apply He||apply Hsnap|done].
Qed.

(** A result that follows its call joins the call's turn. *)
Lemma paired_result l c e :
  log_paired l -> last l = Some c -> follows (Some c) e -> opens e = false ->
  ev_turn_index e = ev_turn_index c -> log_paired (l ++ [e]).
Proof.
  unfold log_paired. intros Hl Hc He Ho Hi. rewrite turns_of_snoc turn_step_eq.
  assert (joins (turns_of l) e = true) as Hj.
  { unfold joins. rewrite Ho turns_of_last_index Hc /=. apply bool_decide_eq_true. by rewrite Hi. }
  rewrite Hj. apply joins_not_nil in Hj. pose proof (events_turns_of l) as Hev.
  pose proof (turns_of_ok l) as Hok.
  destruct (turns_of l) as [|t ts _] using rev_ind; [done|].
  rewrite extend_last_snoc. apply Forall_app in Hl as [Hts [Ht _]%Forall_cons].
  apply Forall_app. split; [done|]. apply Forall_singleton, paired_snoc. split; [done|].
  apply Forall_app in Hok as [_ [(e0 & es & Hev0 & _) _]%Forall_cons].
  assert (last (turn_events t) = Some c) as ->; [|done].
  rewrite -Hc -Hev events_of_app last_app. cbn. rewrite app_nil_r Hev0.
  destruct es as [|? es _] using rev_ind; [done|]. by rewrite app_comm_cons last_snoc.
Qed.

(** Unappending. *)
Lemma paired_unsnoc l e : log_paired (l ++ [e]) -> log_paired l.
Proof.
  unfold log_paired. rewrite turns_of_snoc turn_step_eq. destruct (joins (turns_of l) e) eqn:Hj.
  - apply joins_not_nil in Hj. destruct (turns_of l) as [|t ts _] using rev_ind; [done|].
    rewrite extend_last_snoc. intros [Hts [Ht _]%Forall_cons]%Forall_app.
    apply Forall_app. split; [done|]. apply Forall_singleton.
    by apply (paired_snoc None (turn_events t) e) in Ht as [Ht _].
  - by intros [Hts _]%Forall_app.
Qed.

Lemma paired_prefix l1 l2 : log_paired (l1 ++ l2) -> log_paired l1.
Proof.
  induction l2 as [|e l2 IH] using rev_ind; [by rewrite app_nil_r|].
  rewrite app_assoc. by intros ?%paired_unsnoc%IH.
Qed.

(** Renaming the branch. *)
Definition turn_branch (b : string) (t : Turn) : Turn :=
  mkTurn (turn_index t) (set_branch b <$> turn_events t).

Lemma turns_of_set_branch b l : turns_of (set_branch b <$> l) = turn_branch b <$> turns_of l.
Proof.
  induction l as [|e l IH] using rev_ind; [done|].
  rewrite fmap_app /= !turns_of_snoc IH !turn_step_eq.
  assert (joins (turn_branch b <$> turns_of l) (set_branch b e) = joins (turns_of l) e) as ->.
  { unfold joins, opens. cbn. rewrite fmap_last. by destruct (last (turns_of l)). }
  destruct (joins (turns_of l) e) eqn:Hj; [|by rewrite fmap_app].
  apply joins_not_nil in Hj. destruct (turns_of l) as [|t ts _] using rev_ind; [done|].
  rewrite !fmap_app !extend_last_snoc fmap_app. cbn. unfold turn_branch. cbn. by rewrite fmap_app.
Qed.

Lemma paired_from_set_branch b prev l :
  paired_from prev l -> paired_from (set_branch b <$> prev) (set_branch b <$> l).
Proof.
  revert prev. induction l as [|e l IH]; intros prev; [done|]. intros [He Hl]. split.
  - unfold follows in *. cbn. destruct (ev_payload e); try done.
    destruct He as (c & tool & input & -> & Hc). by exists (set_branch b c), tool, input.
  - by apply (IH (Some e)).
Qed.

Lemma paired_set_branch b l : log_paired l -> log_paired (set_branch b <$> l).
Proof.
  unfold log_paired. rewrite turns_of_set_branch Forall_fmap. intros Hl.
  eapply Forall_impl; [exact Hl|]. intros t Ht. by apply (paired_from_set_branch b None).
Qed.

(** In id order, a fork copies a prefix. *)
Lemma fork_prefix_of u l :
  StronglySorted id_lt l -> exists rest, l = LogSpec.fork_prefix u l ++ rest.
Proof.
  induction 1 as [|e l Hl [rest IH] He]; [by exists []|].
  destruct (LogSpec.within u e) eqn:Hw.
  - exists rest. rewrite fork_prefix_cons Hw. cbn. by f_equal.
  - exists (e :: l). rewrite fork_prefix_break //. by constructor.
Qed.

(** ** What a move does to a log *)

Lemma move_ok s b l l' : log_ok s b l -> log_move s b l l' -> log_ok s b l'.
Proof.
  intros Hok Hmv.
  destruct Hmv as [e1 e2 q a Hne H1 H2|e t i c Hne H|c e t i cid o Hl Hc H|now n Hn H|now n H0 Hn H];
    try by apply next_event_ok.
  - rewrite (app_assoc l [e1] [e2]). eapply next_event_ok, H2. by eapply next_event_ok.
  - destruct (prune_kept s b l n _ Hok Hn H0 H) as (e0 & rest & _ & _ & Hf).
    pose proof (next_event_ok _ _ _ _ Hok H) as [Hs Ha]. rewrite -Hf.
    split; [by apply filter_sorted|]. rewrite Forall_forall in Ha. rewrite Forall_forall.
    intros x [_ Hx]%list_elem_of_filter. by apply Ha.
Qed.

Lemma move_positive s b l l' : log_ok s b l -> ids_positive l -> log_move s b l l' -> ids_positive l'.
Proof.
  intros Hok Hp Hmv. assert (forall l0 e, next_event s b l0 e -> ids_positive [e]) as He.
  { intros l0 e (_ & _ & Hid & _). apply Forall_singleton. lia. }
  destruct Hmv as [e1 e2 q a Hne H1 H2|e t i c Hne H|c e t i cid o Hl Hc H|now n Hn H|now n H0 Hn H];
    try (apply Forall_app; split; [done|by eapply He]).
  - apply Forall_app; split; [done|]. apply (Forall_app _ [e1] [e2]). split; by eapply He.
  - destruct (prune_kept s b l n _ Hok Hn H0 H) as (e0 & rest & _ & _ & Hf). rewrite -Hf.
    apply Forall_forall. intros x [_ [Hx|Hx]%elem_of_app]%list_elem_of_filter.
    + unfold ids_positive in Hp. rewrite Forall_forall in Hp. by apply Hp.
    + apply He in H. unfold ids_positive in H. rewrite Forall_forall in H. by apply H.
Qed.

Lemma move_paired s b l l' : log_paired l -> log_move s b l l' -> log_paired l'.
Proof.
  intros Hp Hmv. assert (forall now n prev, follows prev (snapshot_of now n l)) as Hsnap by done.
  destruct Hmv as [e1 e2 q a Hne H1 H2 E1 E2|e t i c Hne H E|c e t i cid o Hl Hc H E Hi|now n Hn H|now n H0 Hn H].
  - rewrite (app_assoc l [e1] [e2]). apply paired_any; [apply paired_any; [done|]|]; intros prev;
      unfold follows; by rewrite ?E1 ?E2.
  - apply paired_any; [done|]. intros prev. unfold follows. by rewrite E.
  - eapply paired_result; [done|done| | |done].
    + unfold follows. rewrite E. by exists c, t, i.
    + unfold opens. by rewrite E.
  - by apply paired_any.
  - unfold log_paired. pose proof (turns_of_compacted n now l H0 Hn) as Ht.
    unfold compacted in Ht. rewrite (proj2 (Nat.eqb_neq n 0)) in Ht; [|lia].
    rewrite Ht. apply Forall_app. split; [by apply Forall_drop|]. apply Forall_singleton. split; [by apply He||apply Hsnap|done].
Qed.

(** What a move leaves of the log: all of it under new ids, or a new snapshot. *)
Lemma move_shape s b l l' :
  log_ok s b l -> log_move s b l l' ->
  l <> [] /\
  ((exists ext, l' = l ++ ext /\ Forall (fun e => (LogSpec.latest_id l < ev_id e)%N) ext) \/
   (exists snap, snap ∈ l' /\ is_snapshot (ev_payload snap) = true /\
                 (LogSpec.latest_id l < ev_id snap)%N)).
Proof.
  intros Hok Hmv. assert (forall e, next_event s b l e -> (LogSpec.latest_id l < ev_id e)%N) as He
    by (intros e (_ & _ & Hid & _); lia).
  destruct Hmv as [e1 e2 q a Hne H1 H2|e t i c Hne H|c e t i cid o Hl Hc H|now n Hn H|now n H0 Hn H].
  - split; [done|]. left. eexists. split; [done|]. destruct H2 as (_ & _ & Hid & _).
    rewrite latest_id_snoc in Hid. specialize (He _ H1). repeat constructor; [done|lia].
  - split; [done|]. left. eexists. split; [done|]. repeat constructor. by apply He.
  - split; [by intros ->|]. left. eexists. split; [done|]. repeat constructor. by apply He.
  - split; [by intros ->; cbn in Hn; lia|]. right. exists (snapshot_of now n l). split; [|split; [done|by apply He]].
    apply elem_of_app. right. by apply list_elem_of_singleton.
  - split; [by intros ->; cbn in Hn; lia|]. right. exists (snapshot_of now n l). split; [|split; [done|by apply He]].
    apply elem_of_app. right. by apply list_elem_of_singleton.
Qed.

(** ** Checkpoints against logs *)

(** A checkpoint of a live log is the projection of a prefix, or out of date by a
    snapshot newer than it. *)
Definition checkpoint_ok (l : list SessionEvent) (k : option (N * ProjectedSession)) : Prop :=
  match k with
  | None => True
  | Some (n, p) =>
      l = [] \/
      (exists snap, snap ∈ l /\ is_snapshot (ev_payload snap) = true /\ (n < ev_id snap)%N) \/
      (exists l1 l2, l = l1 ++ l2 /\ projection l1 = Some p /\ LogSpec.latest_id l1 = n /\
         Forall (fun e => (n < ev_id e)%N) l2)
  end.

Lemma sorted_latest l e :
  StronglySorted id_lt l -> e ∈ l -> (ev_id e <= LogSpec.latest_id l)%N.
Proof.
  destruct l as [|x l _] using rev_ind; [by intros _ ?%elem_of_nil|].
  intros Hs%sorted_last_max. rewrite latest_id_snoc.
  intros [He| ->%list_elem_of_singleton]%elem_of_app; [|done].
  rewrite Forall_forall in Hs. specialize (Hs _ He). lia.
Qed.

Lemma latest_app l1 l2 :
  LogSpec.latest_id (l1 ++ l2) = match l2 with [] => LogSpec.latest_id l1 | _ => LogSpec.latest_id l2 end.
Proof.
  destruct l2 as [|e l2 _] using rev_ind; [by rewrite app_nil_r|].
  rewrite app_assoc !latest_id_snoc. by destruct l2.
Qed.

Lemma max_id_latest l : StronglySorted id_lt l -> max_id l = LogSpec.latest_id l.
Proof.
  induction l as [|e l IH] using rev_ind; [done|]. intros Hs. rewrite max_id_app latest_id_snoc.
  rewrite IH; [|by eapply StronglySorted_app_1_l]. cbn.
  destruct l as [|x l _] using rev_ind; [cbn; lia|]. apply sorted_last_max in Hs.
  rewrite latest_id_snoc. apply Forall_app in Hs as [_ [Hx _]%Forall_cons]. lia.
Qed.

Lemma checkpoint_ok_move s b l l' k :
  log_ok s b l -> log_move s b l l' -> checkpoint_ok l k -> checkpoint_ok l' k.
Proof.
  intros Hok Hmv. destruct (move_shape _ _ _ _ Hok Hmv) as [Hne Hshape]. destruct Hok as [Hs _].
  destruct k as [[n p]|]; [|done]. intros [->|[(snap & Hin & Hsn & Hid)|(l1 & l2 & -> & Hp & Hn & H2)]];
    [done| |].
  - right. left. destruct Hshape as [(ext & -> & _)|(snap' & ? & ? & ?)].
    + exists snap. split; [|done]. apply elem_of_app. by left.
    + exists snap'. repeat split; [done..|]. pose proof (sorted_latest _ _ Hs Hin). lia.
  - assert (n <= LogSpec.latest_id (l1 ++ l2))%N as Hle.
    { rewrite latest_app. destruct l2 as [|e l2]; [lia|].
      apply StronglySorted_app_1_r in Hs. pose proof (sorted_latest _ e Hs (list_elem_of_here _ _)).
      apply Forall_cons in H2 as [? _]. lia. }
    destruct Hshape as [(ext & -> & Hext)|(snap & ? & ? & ?)].
    + right. right. exists l1, (l2 ++ ext). rewrite app_assoc. repeat split; [done..|].
      apply Forall_app. split; [done|]. eapply Forall_impl; [exact Hext|]. cbn. intros; lia.
    + right. left. exists snap. repeat split; [done..|lia].
Qed.

(** A checkpoint of the whole log. *)
Lemma checkpoint_ok_save l p :
  StronglySorted id_lt l -> project l = Ok p -> checkpoint_ok l (Some (ps_last_id p, p)).
Proof.
  intros Hs Hp%project_ok. right. right. exists l, []. rewrite app_nil_r. repeat split; [done| |done].
  apply projection_inv in Hp as (_ & _ & -> & _). by rewrite max_id_latest.
Qed.

(** What recovery computes from a checkpoint, or leaves to a full replay. *)
Lemma recover_from_spec l n p :
  StronglySorted id_lt l -> l <> [] -> checkpoint_ok l (Some (n, p)) ->
  recover_from n p l = None \/
  exists l1 l2, l = l1 ++ l2 /\ projection l1 = Some p /\ LogSpec.latest_id l1 = n /\
    recover_from n p l = Some (if bool_decide (l2 = []) then Ok p
                               else t ← project l2; Ok (merge_projections p t)).
Proof.
  intros Hs Hne [->|[(snap & Hin & Hsn & Hid)|(l1 & l2 & -> & Hp & Hn & H2)]]; [done| |].
  - left. unfold recover_from. destruct (_ <=? _)%N; [|done].
    assert (existsb (fun e => (n <? ev_id e)%N && is_snapshot (ev_payload e)) l = true) as ->; [|done].
    apply existsb_exists. exists snap. rewrite -list_elem_of_In Hsn. split; [done|].
    rewrite andb_true_r. by apply N.ltb_lt.
  - unfold recover_from. destruct (_ <=? _)%N; [|by left]. destruct (existsb _ _); [by left|].
    right. exists l1, l2. split; [done|]. split; [done|]. split; [done|].
    assert (filter (fun e => (n < ev_id e)%N) (l1 ++ l2) = l2) as ->.
    { rewrite filter_app filter_out; last first.
      - intros e He. pose proof (sorted_latest l1 e (StronglySorted_app_1_l _ _ _ Hs) He). lia.
      - rewrite filter_all //. intros e He. rewrite Forall_forall in H2. by apply H2. }
    by case_bool_decide.
Qed.

(** ** Operations that leave the checkpoints alone *)

Section frame.
Context {C M K : Type}.
Notation World := (World C M K).

Definition leaves {A} (m : Act World SessionError A) : Prop :=
  forall w, w_checkpoints (m w).2 = w_checkpoints w.

Lemma leaves_ret {A} (a : A) : leaves (mret a).
Proof. done. Qed.
Lemma leaves_fail {A} e : leaves (act_fail (A:=A) e).
Proof. done. Qed.
Lemma leaves_of_result {A} (r : SessionResult A) : leaves (act_of_result r).
Proof. done. Qed.
Lemma leaves_get : leaves act_get.
Proof. done. Qed.
Lemma leaves_bind {A B} (m : Act World SessionError A) (f : A -> Act World SessionError B) :
  leaves m -> (forall a, leaves (f a)) -> leaves (m ≫= f).
Proof.
  intros Hm Hf w. unfold mbind, act_bind. specialize (Hm w). destruct (m w) as [[a|e] w']; [|done].
  cbn in Hm. by rewrite Hf.
Qed.
Lemma leaves_try {A} (m : Act World SessionError A) : leaves m -> leaves (try_act m).
Proof. intros Hm w. unfold try_act. specialize (Hm w). by destruct (m w). Qed.
Lemma leaves_on_store {A} (m : Act C SessionError A) : leaves (on_store m).
Proof. intros w. unfold on_store, act_zoom. by destruct (m (w_store w)). Qed.
Lemma leaves_tick : leaves tick.
Proof. done. Qed.
Lemma leaves_memories f : leaves (modify (set_memories f)).
Proof. done. Qed.
Lemma leaves_pending f : leaves (modify (set_pending f)).
Proof. done. Qed.
Lemma leaves_on_memory {A} r wrap (op : Act M MemoryError A) : leaves (on_memory r wrap op).
Proof. intros w. unfold on_memory. by destruct (op (deref r w)), r. Qed.

End frame.

Create HintDb leaves.
#[export] Hint Resolve leaves_ret leaves_fail leaves_of_result leaves_get leaves_try leaves_on_store
  leaves_tick leaves_memories leaves_pending leaves_on_memory : leaves.

(** Walk a program, down to its primitive steps. *)
Ltac leaves_walk :=
  repeat first
    [ progress eauto with leaves
    | apply leaves_bind; intros
    | match goal with |- leaves (match ?x with _ => _ end) => destruct x end ].

Section leaves.
Context {C M K : Type} (store : EventStore C) (mem : BaseMemory M).
Context (from_value : JsonValue -> option Message) (clock : nat -> Z) (uuid : nat -> string).
Notation Manager := (EventSessionManager M K).
Notation leaves := (leaves (C:=C) (M:=M) (K:=K)).

Lemma leaves_existing (self : Manager) s : leaves (existing store self s).
Proof. unfold existing, read. leaves_walk. Qed.
Lemma leaves_turn_count (self : Manager) s : leaves (turn_count store self s).
Proof. unfold turn_count, read. leaves_walk. Qed.
Lemma leaves_append (self : Manager) s ti p : leaves (append store clock self s ti p).
Proof. unfold append, next_id, now_ms. leaves_walk. Qed.
Lemma leaves_create (self : Manager) : leaves (create_session store clock uuid self).
Proof. unfold create_session, now_v7, append, next_id, now_ms. leaves_walk. Qed.
Lemma leaves_compact (self : Manager) s n : leaves (compact_and_prune store clock self s n).
Proof. unfold compact_and_prune, read. leaves_walk. Qed.
Lemma leaves_gc (self : Manager) s : leaves (gc store clock self s).
Proof. unfold gc, existing, read, now_ms. pose proof leaves_compact. leaves_walk. Qed.
Lemma leaves_tool_use (self : Manager) s t i c o : leaves (record_tool_use store clock self s t i c o).
Proof. unfold record_tool_use. pose proof leaves_turn_count. pose proof leaves_append. leaves_walk. Qed.
Lemma leaves_chat (self : Manager) s llm msg : leaves (chat store mem from_value clock self s llm msg).
Proof.
  pose proof leaves_turn_count. pose proof leaves_compact.
  unfold chat, session_memory, chat_context, call_llm, commit_memory, commit_turn, read, next_id, now_ms.
  leaves_walk.
Qed.
Lemma leaves_fork (self : Manager) s dst u : leaves (fork_session store self s dst u).
Proof. unfold fork_session. leaves_walk. Qed.

End leaves.

(** ** Reachable worlds *)

Lemma turn_pair_move t1 t2 s b l question answer :
  l <> [] -> (LogSpec.latest_id l + 2 <= u64_max)%N ->
  log_move s b l (l ++ turn_pair t1 t2 s b l question answer).
Proof.
  intros Hne Hm. eapply move_turn; try done.
  - do 3 (split; [done|]). cbn. lia.
  - do 2 (split; [done|]). rewrite latest_id_snoc. cbn. lia.
Qed.

Section reach.
Context {C M K : Type} (store : EventStore C) (mem : BaseMemory M).
Context (from_value : JsonValue -> option Message) (clock : nat -> Z) (uuid : nat -> string).
Context `{!EventLog store}.
Context (cp : SessionCheckpoint K) (D : string -> string -> Prop) `{!CheckpointStore cp D}.

Notation Manager := (EventSessionManager M K).
Notation World := (World C M K).
Notation log_of := (wlogs (M:=M) (K:=K) store).

Definition snapshot_at (w : World) (s b : string) : option (N * ProjectedSession) :=
  ck_get (w_checkpoints w) s b.

(** The managers over this world: any configuration, checkpointing to [cp] or not at
    all, on branches whose checkpoints have names of their own. *)
Definition managed (self : Manager) (s : string) : Prop :=
  (m_checkpoint self = None \/ m_checkpoint self = Some cp) /\ D s (m_branch self).

(** A session id nobody has used. *)
Definition fresh (w : World) (s : string) : Prop :=
  forall b, log_of w s b = [] /\ (D s b -> snapshot_at w s b = None).

Definition room (n : N) (self : Manager) (w : World) (s : string) : Prop :=
  (LogSpec.latest_id (log_of w s (m_branch self)) + n <= u64_max)%N.

Inductive step (w : World) : World -> Prop :=
| step_create self r w' :
    managed self (uuid (w_tick w)) -> fresh w (uuid (w_tick w)) ->
    create_session store clock uuid self w = (r, w') -> step w w'
| step_chat self s llm msg r w' :
    managed self s -> room 3 self w s ->
    chat store mem from_value clock self s llm msg w = (r, w') -> step w w'
| step_tool_use self s tool input call_id obs r w' :
    managed self s -> room 2 self w s ->
    record_tool_use store clock self s tool input call_id obs w = (r, w') -> step w w'
| step_gc self s r w' :
    managed self s -> room 1 self w s -> gc store clock self s w = (r, w') -> step w w'
| step_checkpoint self s r w' :
    managed self s -> save_checkpoint store self s w = (r, w') -> step w w'
| step_recover self s r w' :
    managed self s -> recover_session store self s w = (r, w') -> step w w'
| step_delete self s r w' :
    managed self s -> delete_session store self s w = (r, w') -> step w w'
| step_fork self s dst until_id r w' :
    log_of w s dst = [] ->
    fork_session store self s dst until_id w = (r, w') -> step w w'.

(** The world before the first session. *)
Definition initial (w : World) : Prop :=
  winv store w /\ (forall s b, log_of w s b = []) /\
  (forall s b, D s b -> snapshot_at w s b = None).

Definition reachable (w : World) : Prop := exists w0, initial w0 /\ rtc step w0 w.

(** What holds of one branch, and of a session whose checkpoint outlived its log. *)
Definition branch_good (w : World) (s b : string) : Prop :=
  ids_positive (log_of w s b) /\ log_paired (log_of w s b) /\
  (D s b -> checkpoint_ok (log_of w s b) (snapshot_at w s b)).

Definition cleared (w : World) : Prop := forall s b,
  D s b -> snapshot_at w s b <> None -> log_of w s b = [] -> forall b', log_of w s b' = [].

Definition good (w : World) : Prop :=
  winv store w /\ (forall s b, branch_good w s b) /\ cleared w.

Lemma initial_good w : initial w -> good w.
Proof.
  intros (Hi & Hl & Hk). split; [done|]. split; [|intros s b _ _ _ b'; apply Hl].
  intros s b. unfold branch_good. rewrite Hl. split; [constructor|]. split; [constructor|].
  intros Hd. by rewrite Hk.
Qed.

(** The same logs, and checkpoints that are as before, gone, or right for a log. *)
Lemma good_checkpoints w w' :
  good w -> winv store w' -> log_of w' ≡ₗ log_of w ->
  (forall s b, D s b -> snapshot_at w' s b = snapshot_at w s b \/ snapshot_at w' s b = None \/
     (log_of w s b <> [] /\ checkpoint_ok (log_of w s b) (snapshot_at w' s b))) -> good w'.
Proof.
  intros (_ & Hb & Hc) Hi Hl Hk. split; [done|]. split.
  - intros s b. destruct (Hb s b) as (? & ? & ?). unfold branch_good. rewrite Hl.
    split; [done|]. split; [done|]. intros Hd. destruct (Hk s b Hd) as [->|[->|[_ ?]]]; auto. done.
  - intros s b Hd Hne He b'. rewrite Hl in He. rewrite Hl.
    destruct (Hk s b Hd) as [E|[E|[? _]]]; [|done|done]. rewrite E in Hne. eauto.
Qed.

Lemma good_same w w' :
  good w -> winv store w' -> log_of w' ≡ₗ log_of w ->
  (forall s b, D s b -> snapshot_at w' s b = snapshot_at w s b) -> good w'.
Proof. intros Hg Hi Hl Hk. apply (good_checkpoints w); auto. Qed.

Lemma good_at w w' s b : good w -> at_log store w (log_of w) s b (log_of w s b) w' -> good w'.
Proof.
  intros Hg (Hi & Hl & _ & _ & _ & Hk). apply (good_same w); [done|done| |].
  - rewrite Hl. apply upd_id.
  - intros. unfold snapshot_at. by rewrite Hk.
Qed.

Lemma log_good_move s b l l' k :
  log_ok s b l -> log_move s b l l' ->
  ids_positive l /\ log_paired l /\ checkpoint_ok l k ->
  log_ok s b l' /\ ids_positive l' /\ log_paired l' /\ checkpoint_ok l' k.
Proof.
  intros Hok Hmv (Hp & Ha & Hk).
  split; [by eapply move_ok|]. split; [by eapply move_positive|]. split; [by eapply move_paired|].
  by eapply checkpoint_ok_move.
Qed.

Lemma log_good_moves s b l l' k :
  log_ok s b l -> log_moves s b l l' ->
  ids_positive l /\ log_paired l /\ checkpoint_ok l k ->
  ids_positive l' /\ log_paired l' /\ checkpoint_ok l' k.
Proof.
  intros Hok Hmv. revert Hok. induction Hmv as [l|l l1 l2 H1 _ IH]; [done|]. intros Hok H.
  destruct (log_good_move s b l l1 k Hok H1 H) as (Hok1 & H1'). by apply IH.
Qed.

Lemma moves_empty s b l l' :
  log_ok s b l -> log_moves s b l l' -> (l = [] -> l' = []) /\ (l' = [] -> l = []).
Proof.
  intros Hok Hmv. split.
  - destruct Hmv as [|l l1 l2 H1 _]; [done|]. by destruct (move_shape _ _ _ _ Hok H1).
  - destruct (rtc_inv_r _ _ Hmv) as [->|(l1 & _ & H)]; [done|].
    intros ->. inversion H as [? ? ? ? ? ? ? ? ? ? ? E|? ? ? ? ? ? ? E|? ? ? ? ? ? ? ? ? ? ? E|? ? ? ? E|? ? ? ? ? E];
      by apply app_nil in E as [_ ?].
Qed.

(** Moving the log of one branch. *)
Lemma good_moves w w' s b l' :
  good w -> winv store w' -> log_of w' ≡ₗ upd s b l' (log_of w) ->
  log_moves s b (log_of w s b) l' -> w_checkpoints w' = w_checkpoints w -> good w'.
Proof.
  intros (Hi & Hb & Hc) Hi' Hl Hmv Hk.
  pose proof (el_log_ok (w_store w) s b Hi) as Hok.
  pose proof (fun k => log_good_moves s b (log_of w s b) l' k Hok Hmv) as Hgood.
  destruct (moves_empty _ _ _ _ Hok Hmv) as [He1 He2].
  split; [done|]. split.
  - intros s' b'. unfold branch_good, snapshot_at. rewrite Hk Hl.
    destruct (decide ((s', b') = (s, b))) as [[= -> ->]|Hne].
    2:{ rewrite upd_other //. apply Hb. }
    rewrite upd_same. destruct (Hb s b) as (H1 & H2 & H3).
    destruct (Hgood None) as (H1' & H2' & _); [done|]. split; [done|]. split; [done|].
    intros Hd. by destruct (Hgood (ck_get (w_checkpoints w) s b)) as (_ & _ & ?); [auto|].
  - assert (forall s' b', upd s b l' (log_of w) s' b' = [] <-> log_of w s' b' = []) as Hnil.
    { intros s' b'. destruct (decide ((s', b') = (s, b))) as [[= -> ->]|Hne].
      - rewrite upd_same. split; auto.
      - by rewrite upd_other. }
    intros s' b' Hd Hne He b''. unfold snapshot_at in Hne. rewrite Hk in Hne.
    rewrite Hl Hnil in He. rewrite Hl Hnil. by apply (Hc s' b').
Qed.

(** An operation whose specification is a sequence of moves of its branch. *)
Lemma good_of_moves {A} (self : Manager) s (m : Act World SessionError A) w r w' :
  good w -> leaves m -> wp m w (fun _ w' => moves store self s (log_of w) (log_of w s (m_branch self)) w') ->
  m w = (r, w') -> good w'.
Proof.
  intros Hg Hk Hwp E. pose proof (wp_elim _ _ _ _ _ Hwp E) as (l' & Hi & Hl & Hmv).
  specialize (Hk w). rewrite E in Hk. by eapply good_moves.
Qed.

Lemma good_positive w s b : good w -> ids_positive (log_of w s b).
Proof. intros (_ & Hb & _). apply Hb. Qed.

Lemma chat_outcome_moves (self : Manager) s llm msg w r w' :
  let l := log_of w s (m_branch self) in
  good w -> room 3 self w s -> chat_outcome store mem self s llm msg w l r w' ->
  moves store self s (log_of w) l w'.
Proof.
  cbv zeta. set (b := m_branch self). set (l := log_of w s b). intros Hg Hm Hout.
  pose proof Hg as (Hi & _). pose proof (el_log_ok (w_store w) s b Hi) as Hok.
  assert (forall t1 t2 content, l <> [] -> log_move s b l (l ++ turn_pair t1 t2 s b l msg content)) as Hpair.
  { intros. apply turn_pair_move; [done|]. unfold room in Hm. fold b l in Hm. lia. }
  assert (forall t1 t2 content, (LogSpec.latest_id (l ++ turn_pair t1 t2 s b l msg content) < u64_max)%N) as Hroom.
  { intros. rewrite latest_id_pair. unfold room in Hm. fold b l in Hm. lia. }
  assert (forall l', logs_at store self s w l' w' -> log_moves s b l l' -> moves store self s (log_of w) l w') as Hdo.
  { intros l' [Hi' Hl'] Hmv. by exists l'. }
  destruct Hout as [e w' Hl|e m content w' m1 me _ _ _ Hl|e content w' _ _ Hl|e content w' _ _ Hl
    |e content t1 t2 now extra w' _ _ Hne _ _ Hex Hl|content t1 t2 now w' _ _ Hne _ Hl];
    try (eapply Hdo; [exact Hl|apply rtc_refl]); specialize (Hpair t1 t2 content Hne);
    specialize (Hroom t1 t2 content); pose proof (move_ok _ _ _ _ Hok Hpair) as Hok2;
    (eapply Hdo; [exact Hl|]); fold b; set (l2 := l ++ turn_pair t1 t2 s b l msg content) in *;
    (eapply rtc_l; [exact Hpair|]); assert (l2 <> []) as Hne2 by by destruct l.
  - destruct Hex as [->|(n & Hn & ->)]; [rewrite app_nil_r; apply rtc_refl|].
    apply rtc_once, move_snapshot; [done|]. by apply snapshot_next_event.
  - unfold settled. destruct (m_auto_compaction self) as [policy|]; [|apply rtc_refl].
    destruct (Nat.leb_spec (length (turns_of l2)) (max_turns policy)); [apply rtc_refl|].
    by apply rtc_once, compacted_move.
Qed.

Lemma chat_good self s llm msg w r w' :
  good w -> room 3 self w s ->
  chat store mem from_value clock self s llm msg w = (r, w') -> good w'.
Proof.
  intros Hg Hm. pose proof Hg as (Hi & _). apply (good_of_moves self s); [done|apply leaves_chat|].
  eapply wp_mono; [apply chat_spec; [done|by apply good_positive|exact Hm]|].
  intros. by eapply chat_outcome_moves.
Qed.

Lemma tool_use_good self s tool input call_id obs w r w' :
  good w -> room 2 self w s ->
  record_tool_use store clock self s tool input call_id obs w = (r, w') -> good w'.
Proof.
  intros Hg Hm. pose proof Hg as (Hi & _). apply (good_of_moves self s); [done|apply leaves_tool_use|].
  eapply record_tool_use_moves; [by apply at_log_start|by apply good_positive|exact Hm].
Qed.

Lemma gc_good self s w r w' :
  good w -> room 1 self w s -> gc store clock self s w = (r, w') -> good w'.
Proof.
  intros Hg Hm. pose proof Hg as (Hi & _). apply (good_of_moves self s); [done|apply leaves_gc|].
  eapply gc_moves; [by apply at_log_start|by apply good_positive|]. unfold room in Hm. lia.
Qed.

(** Filling an empty log, in a session without orphaned checkpoints. *)
Lemma good_new w w' s b l :
  good w -> winv store w' -> log_of w' ≡ₗ upd s b l (log_of w) ->
  w_checkpoints w' = w_checkpoints w -> log_of w s b = [] -> ids_positive l -> log_paired l ->
  (l = [] \/ forall b', D s b' -> log_of w s b' = [] -> snapshot_at w s b' = None) -> good w'.
Proof.
  intros Hg Hi' Hl Hk He Hp Ha [->|Hnew].
  { apply (good_same w); [done|done| |].
    - rewrite Hl -{1}He. apply upd_id.
    - intros. unfold snapshot_at. by rewrite Hk. }
  destruct Hg as (Hi & Hb & Hc). split; [done|]. split.
  - intros s' b'. unfold branch_good, snapshot_at. rewrite Hk Hl.
    destruct (decide ((s', b') = (s, b))) as [[= -> ->]|Hne].
    + rewrite upd_same. split; [done|]. split; [done|]. intros Hd.
      change (ck_get _ s b) with (snapshot_at w s b). by rewrite (Hnew b).
    + rewrite upd_other //. apply Hb.
  - intros s' b' Hd Hne He' b''. unfold snapshot_at in Hne. rewrite Hk in Hne. rewrite Hl in He'.
    destruct (decide (s' = s)) as [->|Hs].
    + exfalso. apply Hne, (Hnew b' Hd). destruct (decide (b' = b)) as [->|Hnb]; [done|].
      rewrite upd_other in He'; [done|congruence].
    + rewrite Hl upd_other; [|congruence]. rewrite upd_other in He'; [|congruence]. by apply (Hc s' b').
Qed.

Lemma create_good self w r w' :
  good w -> fresh w (uuid (w_tick w)) ->
  create_session store clock uuid self w = (r, w') -> good w'.
Proof.
  intros Hg Hf E. pose proof Hg as (Hi & _). set (s := uuid (w_tick w)) in *. set (b := m_branch self).
  destruct (Hf b) as [He _].
  assert (w_checkpoints w' = w_checkpoints w) as Hk.
  { pose proof (leaves_create store clock uuid self w) as H. by rewrite E in H. }
  enough (wp (create_session store clock uuid self) w (fun _ w' => exists l, winv store w' /\
    log_of w' ≡ₗ upd s b l (log_of w) /\ ids_positive l /\ log_paired l)) as Hwp.
  { destruct (wp_elim _ _ _ _ _ Hwp E) as (l & ? & ? & ? & ?).
    eapply (good_new w w' s b l); try done. right. intros b' Hd _. by apply Hf. }
  assert (at_log store w (log_of w) s b [] w) as Hat by by rewrite -He; apply at_log_start.
  unfold create_session, now_v7. do 2 wp_step.
  eapply wp_mono; [by apply (at_tick store w (log_of w) s b [])|]. intros r1 w1 [-> H1].
  apply wp_ret. fold s. wp_step.
  eapply wp_mono; [apply (at_manager_append store clock self s w (log_of w) [] w1); [exact H1|done]|].
  intros [n|e] w2.
  - intros (now & _ & Hi2 & Hl2 & _). apply wp_ret. eexists. split; [done|]. split; [exact Hl2|].
    split; [by repeat constructor|]. by repeat constructor.
  - intros (Hi2 & Hl2 & _). exists []. split; [done|]. split; [done|]. by split; constructor.
Qed.

Lemma fork_good self s dst until_id w r w' :
  good w -> log_of w s dst = [] ->
  fork_session store self s dst until_id w = (r, w') -> good w'.
Proof.
  intros Hg He E. pose proof Hg as (Hi & Hb & Hc).
  assert (w_checkpoints w' = w_checkpoints w) as Hk.
  { pose proof (leaves_fork store self s dst until_id w) as H. by rewrite E in H. }
  unfold fork_session, mbind, act_bind, on_store, act_zoom in E.
  set (b := m_branch self) in *.
  destruct (es_fork store s b dst until_id (w_store w)) as [r1 c1] eqn:Ef.
  destruct (el_fork s b dst until_id _ _ _ Hi Ef) as [Hi1 Hl1].
  assert (w' = set_store c1 w) as -> by by destruct r1; injection E as _ <-.
  destruct r1 as [n|e].
  2:{ by apply (good_same w). }
  set (l := LogSpec.fork_prefix until_id (log_of w s b)).
  destruct (fork_prefix_of until_id (log_of w s b)) as [rest Hrest];
    [by apply el_log_ok|]. fold l in Hrest.
  destruct (Hb s b) as (Hp & Ha & _). rewrite Hrest in Hp, Ha.
  apply (good_new w _ s dst (set_branch dst <$> l)); [done|done| |done|done| | |].
  - intros s' b'. unfold wlogs. cbn [set_store w_store]. rewrite Hl1. unfold LogSpec.fork, upd.
    destruct (here s' b' s dst); [|done]. change (el_logs (w_store w)) with (log_of w).
    rewrite He. apply log_put_all. apply filter_sorted, el_log_ok, Hi.
  - apply Forall_app in Hp as [Hp _]. unfold ids_positive. by rewrite Forall_fmap.
  - apply paired_set_branch. by eapply paired_prefix.
  - destruct l as [|e l'] eqn:El; [by left|]. right. intros b' Hd He'.
    destruct (snapshot_at w s b') eqn:Hs; [|done]. exfalso.
    assert (log_of w s b = []) as Hnil; [|by rewrite Hnil in Hrest].
    apply (Hc s b' Hd); [by rewrite Hs|done].
Qed.

(** A call to the checkpoint store. *)
Lemma good_on_checkpoints {A} (m : Act K SessionError A) w (Q : SessionResult A -> Prop) :
  good w ->
  (forall r k, m (w_checkpoints w) = (r, k) -> Q r /\
     forall s b, D s b -> ck_get k s b = snapshot_at w s b \/ ck_get k s b = None \/
       (log_of w s b <> [] /\ checkpoint_ok (log_of w s b) (ck_get k s b))) ->
  wp (on_checkpoints m) w (fun r w' => Q r /\ good w' /\ log_of w' ≡ₗ log_of w).
Proof.
  intros Hg Hm. pose proof Hg as (Hi & _). apply wp_zoom, wp_intro. intros r k E.
  destruct (Hm r k E) as [Hq Hk]. split; [done|]. split; [|done]. by apply (good_checkpoints w).
Qed.

Lemma checkpoint_good self s w r w' :
  good w -> managed self s -> save_checkpoint store self s w = (r, w') -> good w'.
Proof.
  intros Hg [Hcp Hd] E. pose proof Hg as (Hi & _). set (b := m_branch self) in *.
  set (l := log_of w s b). pose proof (el_log_ok (w_store w) s b Hi) as [Hs _].
  revert E. enough (wp (save_checkpoint store self s) w (fun _ w' => good w')) as Hwp
    by by apply (wp_elim _ _ _ _ _ Hwp).
  unfold save_checkpoint. destruct (m_checkpoint self) as [cp'|]; [|by apply wp_ret].
  destruct Hcp as [|[= ->]]; [done|]. wp_step.
  eapply wp_mono; [apply (at_existing store self s w (log_of w) l w);
    [by apply at_log_start|by apply good_positive]|].
  intros [l'|e] w1 [H1 Hl]; pose proof (good_at _ _ _ _ Hg H1) as Hg1; [|done].
  destruct Hl as [-> Hne]. wp_step. destruct (project l) as [p|e] eqn:Hp; [|done].
  wp_step. eapply wp_mono; [apply (good_on_checkpoints _ w1 (fun _ => True)); [done|]|].
  2:{ intros [u|e] w2 (_ & Hg2 & _); [by apply wp_ret|done]. }
  intros r1 k Ek. split; [done|]. destruct (ck_save s b _ _ _ _ _ Hd Ek) as [Ho Hb].
  assert (log_of w1 s b = l) as Hl1 by by destruct H1 as (_ & -> & _); apply upd_same.
  intros s' b' Hd'. destruct (decide ((s', b') = (s, b))) as [[= -> ->]|Hne']; [|left; by apply Ho].
  destruct r1 as [u|e]; [|by left]. destruct Hb as [->| ->]; [|by right; left].
  right. right. rewrite Hl1. split; [done|]. by apply checkpoint_ok_save.
Qed.

Lemma good_clear w w' s :
  good w -> winv store w' -> log_of w' ≡ₗ LogSpec.clear_session s (log_of w) ->
  w_checkpoints w' = w_checkpoints w -> good w'.
Proof.
  intros (Hi & Hb & Hc) Hi' Hl Hk. split; [done|]. split.
  - intros s' b'. unfold branch_good, snapshot_at. rewrite Hk Hl. unfold LogSpec.clear_session.
    case_bool_decide; [|apply Hb]. split; [constructor|]. split; [constructor|]. intros _.
    destruct (ck_get _ _ _) as [[]|]; [by left|done].
  - intros s' b' Hd Hne He b''. unfold snapshot_at in Hne. rewrite Hk in Hne. rewrite Hl in He.
    rewrite Hl. unfold LogSpec.clear_session in *. case_bool_decide; [done|]. by apply (Hc s' b').
Qed.

Lemma delete_good self s w r w' :
  good w -> managed self s -> delete_session store self s w = (r, w') -> good w'.
Proof.
  intros Hg [Hcp Hd] E. pose proof Hg as (Hi & _). set (b := m_branch self) in *.
  set (l := log_of w s b).
  revert E. enough (wp (delete_session store self s) w (fun _ w' => good w')) as Hwp
    by by apply (wp_elim _ _ _ _ _ Hwp).
  unfold delete_session. wp_step.
  eapply wp_mono; [apply (at_read store self s w (log_of w) l w);
    [by apply at_log_start|by apply good_positive]|].
  intros [l'|e] w1 [H1 _]; pose proof (good_at _ _ _ _ Hg H1) as Hg1; [|done].
  assert (forall w2, good w2 -> wp (release_session_cache s ;;
            if negb (bool_decide (l' = [])) then mret () else act_fail (NotFound s)) w2
            (fun _ w' => good w')) as Hend.
  { intros w2 Hg2. assert (good (set_pending (delete s) (set_memories (delete s) w2))) as Hg3
      by by apply (good_same w2); [|apply Hg2| |].
    wp_step. apply wp_bind. unfold wp. cbn. by case_bool_decide. }
  wp_step. pose proof Hg1 as (Hi1 & _). apply wp_zoom, wp_intro. intros r1 c Ec.
  destruct (el_clear_session s _ _ _ Hi1 Ec) as [Hi2 Hl2]. destruct r1 as [u|e].
  2:{ by apply (good_same w1). }
  assert (good (set_store c w1)) as Hg2 by by apply (good_clear w1 _ s).
  destruct (m_checkpoint self) as [cp'|]; [|by apply wp_bind, wp_ret, Hend].
  destruct Hcp as [|[= ->]]; [done|]. wp_step.
  eapply wp_mono; [apply (good_on_checkpoints _ _ (fun _ => True)); [exact Hg2|]|].
  2:{ intros [v|e] w3 (_ & Hg3 & _); [by apply Hend|done]. }
  intros r2 k Ek. split; [done|]. destruct (ck_remove s b _ _ _ Hd Ek) as [Ho Hb].
  intros s' b' Hd'. destruct (decide ((s', b') = (s, b))) as [[= -> ->]|Hne']; [|left; by apply Ho].
  destruct Hb as [->| ->]; auto.
Qed.

(** ** Recovery *)

(** [p] is what replaying [l] gives, up to the turns that the tail [l2] reopens. *)
Definition recovered (l : list SessionEvent) (k : option (N * ProjectedSession))
    (p : ProjectedSession) : Prop :=
  exists l1 l2 q, l = l1 ++ l2 /\ project l = Ok q /\
    (l2 = [] \/ exists p1, k = Some (LogSpec.latest_id l1, p1)) /\
    same_view p q /\
    length (ps_turns p) + reopenings (last l1) l2 = length (ps_turns q) /\
    (p = q <-> reopenings (last l1) l2 = 0).

Lemma recovered_replay l k p : project l = Ok p -> recovered l k p.
Proof.
  intros Hp. exists l, [], p. rewrite app_nil_r. cbn. split; [done|]. split; [done|].
  split; [by left|]. split; [done|]. split; [lia|done].
Qed.

Lemma recovered_from l n p p' :
  StronglySorted id_lt l -> l <> [] -> checkpoint_ok l (Some (n, p)) ->
  recover_from n p l = Some (Ok p') -> recovered l (Some (n, p)) p'.
Proof.
  intros Hs Hne Hk. destruct (recover_from_spec l n p Hs Hne Hk)
    as [->|(l1 & l2 & -> & Hp & <- & ->)]; [done|].
  case_bool_decide as Hl2.
  { intros [= <-]. subst l2. rewrite app_nil_r. by apply recovered_replay, project_ok. }
  destruct (project l2) as [t|e] eqn:Ht; [|done]. intros [= <-].
  assert (exists q, projection (l1 ++ l2) = Some q) as [q Hq] by by destruct l1; [|eexists].
  exists l1, l2, q. split; [done|]. split; [by apply project_ok|]. split; [right; by eexists|].
  apply project_ok in Ht. by apply merge_exact.
Qed.

Lemma recover_spec self s w :
  good w -> managed self s ->
  wp (recover_session store self s) w (fun r w' => good w' /\ log_of w' ≡ₗ log_of w /\
    forall p, r = Ok p -> recovered (log_of w s (m_branch self)) (snapshot_at w s (m_branch self)) p).
Proof.
  intros Hg [Hcp Hd]. set (b := m_branch self) in *. set (l := log_of w s b).
  pose proof Hg as (Hi & Hb & _). destruct (Hb s b) as (Hp & _ & Hk). specialize (Hk Hd).
  pose proof (el_log_ok (w_store w) s b Hi) as [Hs _].
  unfold recover_session. wp_step.
  eapply wp_mono; [apply (at_existing store self s w (log_of w) l w); [by apply at_log_start|done]|].
  intros r1 w1 [H1 Hl]. pose proof (good_at _ _ _ _ Hg H1) as Hg1.
  assert (log_of w1 ≡ₗ log_of w) as Hlogs by by destruct H1 as (_ & -> & _); apply upd_id.
  assert (snapshot_at w1 s b = snapshot_at w s b) as Hk1.
  { destruct H1 as (_ & _ & _ & _ & _ & E). unfold snapshot_at. by rewrite E. }
  destruct r1 as [l'|e]; [|done]. destruct Hl as [-> Hne].
  assert (forall w2, good w2 -> log_of w2 ≡ₗ log_of w -> forall o,
    (forall p, o = Some (Ok p) -> recovered l (snapshot_at w s b) p) ->
    wp (match o with Some r => act_of_result r | None => act_of_result (project l) end) w2
      (fun r w' => good w' /\ log_of w' ≡ₗ log_of w /\
         forall p, r = Ok p -> recovered l (snapshot_at w s b) p)) as Hend.
  { intros w2 Hg2 Hl2 o Ho. destruct o as [r|]; apply wp_of_result; (split; [done|]); (split; [done|]);
      intros p Hr; [apply Ho; by f_equal|by apply recovered_replay]. }
  destruct (m_checkpoint self) as [cp'|]; [|by apply wp_bind, wp_ret, (Hend w1 Hg1 Hlogs None)].
  destruct Hcp as [|[= ->]]; [done|]. wp_step. wp_step.
  eapply wp_mono; [apply (good_on_checkpoints _ w1 (fun r => forall o, r = Ok o -> o = snapshot_at w s b))|].
  - done.
  - intros r k Ek. destruct (ck_latest s b _ _ _ Hd Ek) as [Ho Hr]. split; [by rewrite -Hk1|].
    intros s' b' Hd'. left. by apply Ho.
  - intros [o|e] w2 (Hr & Hg2 & Hl2); [|split; [done|]; split; [by rewrite Hl2|done]].
    specialize (Hr o eq_refl). apply wp_ret, Hend; [done|by rewrite Hl2|].
    destruct o as [[n p]|]; [|done]. intros p' Hp'. rewrite -Hr in Hk |- *.
    by apply (recovered_from l n p).
Qed.

(** ** The invariant of every reachable world *)

Lemma step_good w w' : good w -> step w w' -> good w'.
Proof.
  intros Hg [self r w1 ? ?|self s llm msg r w1 ? ?|self s tool input call_id obs r w1 ? ?
    |self s r w1 ? ?|self s r w1 ?|self s r w1 ? E|self s r w1 ?|self s dst u r w1 ?].
  - by eapply create_good.
  - by eapply chat_good.
  - by eapply tool_use_good.
  - by eapply gc_good.
  - by eapply checkpoint_good.
  - by eapply (wp_elim _ _ _ _ _ (recover_spec self s w Hg H)) in E as [? _].
  - by eapply delete_good.
  - by eapply fork_good.
Qed.

Lemma reachable_good w : reachable w -> good w.
Proof.
  intros (w0 & H0 & Hsteps). apply initial_good in H0.
  induction Hsteps as [|w w1 w2 H1 _ IH]; [done|]. by apply IH, (step_good w).
Qed.

(** C37: In every world the managers can reach (creating, chatting, recording tools,
    collecting, checkpointing, recovering, deleting and forking, one operation after the
    other, with every call
    free to fail and every fork cut anywhere, into branches that hold no events), a replay of any branch finds no tool
    result without its call, not even in the turn that a compaction or a fork cut:
    the pairing check answers zero. *)
Theorem tool_results_paired w s b l c :
  reachable w -> es_read store s b None (w_store w) = (Ok l, c) -> l <> [] ->
  assert_no_orphan_tool_results l = Ok 0.
Proof.
  intros (Hi & Hb & _)%reachable_good Hr Hne. destruct (Hb s b) as (Hp & Ha & _).
  destruct (el_read s b None _ _ _ Hi Hr) as (_ & _ & Hl). subst l.
  change (el_logs (w_store w) s b) with (log_of w s b) in *. rewrite read_positive // in Hne |- *.
  by apply log_paired_orphans.
Qed.

(** C4: Recovery refines a full replay.  In every world the managers can reach by operations
    that run one after the other and forks into branches that hold no events, a
    recovery that succeeds returns the session, branch, messages, last id and events
    of replaying the whole log, although it may start from a checkpoint saved at any
    earlier time, before compactions included.  The turns are those of the replay
    too, unless an event of the tail after the checkpoint opens a turn under the
    index of the event before it.  No log changes. *)
Theorem recover_refines_replay self s w p w' :
  let l := log_of w s (m_branch self) in
  let k := snapshot_at w s (m_branch self) in
  reachable w -> managed self s -> recover_session store self s w = (Ok p, w') ->
  log_of w' ≡ₗ log_of w /\
  exists l1 l2 q, l = l1 ++ l2 /\ project l = Ok q /\
    (l2 = [] \/ exists p1, k = Some (LogSpec.latest_id l1, p1)) /\
    same_view p q /\
    length (ps_turns p) + reopenings (last l1) l2 = length (ps_turns q) /\
    (p = q <-> reopenings (last l1) l2 = 0).
Proof.
  cbv zeta. intros Hg%reachable_good Hm E.
  destruct (wp_elim _ _ _ _ _ (recover_spec self s w Hg Hm) E) as (_ & Hl & Hp).
  split; [done|]. by apply Hp.
Qed.

End reach.
