(* ===== verification/LegacySession.v ===== *)
(** * The mutable-history session manager ([crates/lc-sessions/src/manager.rs],
      [store.rs], [memory_store.rs], [session_runnable.rs])

    [SessionManager] keeps whole [Session]s in a [SessionStore] and rewrites them
    after every turn.  Its operations act on the [World] of [EventManager] (the
    store, the memories, the clock), without the pending markers and checkpoints,
    which this manager does not have.  The striped lock makes the operations of one
    session run one after the other. *)

From S2P Require Import Prelude Json Message Session Memory EventManager.
From stdpp Require Import gmap strings list.

(** ** The store *)

Record SessionStore (C : Type) := mkSessionStore {
  ss_create : Session -> Act C SessionError string;
  ss_get : string -> Act C SessionError (option Session);
  ss_update : Session -> Act C SessionError ();
  ss_delete : string -> Act C SessionError ();
  ss_list_by_user : string -> Act C SessionError (list Session);
}.
Arguments mkSessionStore {C} _ _ _ _ _.
Arguments ss_create {C} _ _ _.
Arguments ss_get {C} _ _ _.
Arguments ss_update {C} _ _ _.
Arguments ss_delete {C} _ _ _.
Arguments ss_list_by_user {C} _ _ _.

Definition MemorySessionStore : Type := gmap string Session.

Module MemorySessionStore.

Definition new : MemorySessionStore := ∅.

Definition create (session : Session) : Act MemorySessionStore SessionError string := fun sessions =>
  (Ok (s_id session), <[s_id session := session]> sessions).

Definition get (id : string) : Act MemorySessionStore SessionError (option Session) :=
  fun sessions => (Ok (sessions !! id), sessions).

Definition update (session : Session) : Act MemorySessionStore SessionError () := fun sessions =>
  match sessions !! s_id session with
  | None => (Err (NotFound (s_id session)), sessions)
  | Some _ => (Ok (), <[s_id session := session]> sessions)
  end.

Definition delete (id : string) : Act MemorySessionStore SessionError () :=
  fun sessions => (Ok (), base.delete id sessions).

Definition list_by_user (user_id : string) : Act MemorySessionStore SessionError (list Session) :=
  fun sessions =>
    (Ok (filter (fun s => s_user_id s = Some user_id /\ s_status s <> Deleted)
           (map_to_list sessions).*2), sessions).

Definition store : SessionStore MemorySessionStore :=
  mkSessionStore create get update delete list_by_user.

End MemorySessionStore.

(** ** The manager *)

Record SessionManager (M : Type) := mkSessionManager {
  sm_memory : bool;
  sm_memory_factory : option M;
  sm_memory_input_key : string;
  sm_memory_output_key : string;
  sm_max_context_messages : option nat;
}.
Arguments mkSessionManager {M} _ _ _ _ _.
Arguments sm_memory {M} _.
Arguments sm_memory_factory {M} _.
Arguments sm_memory_input_key {M} _.
Arguments sm_memory_output_key {M} _.
Arguments sm_max_context_messages {M} _.

Module SessionManager.
Section manager.
Context {C M K : Type} (store : SessionStore C) (mem : BaseMemory M).
Context (from_value : JsonValue -> option Message) (clock : nat -> Z) (uuid : nat -> string).

Notation Op A := (Act (World C M K) SessionError A).

Definition new : SessionManager M := mkSessionManager false None "input" "output" None.
Definition with_max_context_messages (n : nat) (self : SessionManager M) : SessionManager M :=
  mkSessionManager (sm_memory self) (sm_memory_factory self) (sm_memory_input_key self)
    (sm_memory_output_key self) (Some n).
Definition with_memory (self : SessionManager M) : SessionManager M :=
  mkSessionManager true (sm_memory_factory self) (sm_memory_input_key self)
    (sm_memory_output_key self) (sm_max_context_messages self).
Definition with_memory_factory (fresh : M) (self : SessionManager M) : SessionManager M :=
  mkSessionManager (sm_memory self) (Some fresh) (sm_memory_input_key self)
    (sm_memory_output_key self) (sm_max_context_messages self).
Definition with_memory_keys (input_key output_key : string) (self : SessionManager M)
    : SessionManager M :=
  mkSessionManager (sm_memory self) (sm_memory_factory self) input_key output_key
    (sm_max_context_messages self).
Definition has_memory (self : SessionManager M) : bool :=
  sm_memory self || match sm_memory_factory self with Some _ => true | None => false end.

Definition session_memory (self : SessionManager M) (id : string) : Op (option (@MemRef M)) :=
  match sm_memory_factory self with
  | Some fresh =>
      modify (set_memories (fun map =>
        match map !! id with Some _ => map | None => <[id := fresh]> map end)) ;;
      mret (Some (SessionMemory id fresh))
  | None => mret (if sm_memory self then Some SharedMemory else None)
  end.

Definition create_with (build : Session -> Session) : Op string :=
  id ← now_v7 uuid;
  now ← now_ms clock;
  on_store (ss_create store (build (Session.new now id))) ;;
  mret id.
Definition create_session : Op string := create_with (fun s => s).
Definition create_session_for (user_id : string) : Op string :=
  create_with (Session.with_user user_id).

Definition get_session (id : string) : Op (option Session) := on_store (ss_get store id).

Definition existing (id : string) : Op Session :=
  found ← on_store (ss_get store id);
  act_of_result (ok_or found (NotFound id)).

(** The messages the model sees. *)
Definition chat_context (self : SessionManager M) (user_message : string) (session : Session)
    (memory : option (@MemRef M)) : Op (list Message) :=
  match memory with
  | Some r =>
      let inputs := {[ sm_memory_input_key self := user_message ]} in
      vars ← on_memory r "failed to load memory: "
               (fun m => (load_memory_variables mem inputs m, m));
      mret (memory_variables_to_messages from_value vars ++ [Message.human user_message])
  | None =>
      mret (match sm_max_context_messages self with
            | Some n => Session.recent_messages n session
            | None => s_messages session
            end)
  end.

(** The clock is read only when messages are dropped. *)
Definition trim_to_window (self : SessionManager M) (session : Session) : Op Session :=
  match sm_max_context_messages self with
  | None => mret session
  | Some n =>
      let len := length (s_messages session) in
      if n <? len then
        now ← now_ms clock;
        mret (Session.set_messages now (drop (len - n) (s_messages session)) session)
      else mret session
  end.

Definition chat (self : SessionManager M) (id : string)
    (llm : list Message -> result string string) (user_message : string) : Op string :=
  session ← existing id;
  now1 ← now_ms clock;
  let session1 := Session.add_message now1 (Message.human user_message) session in
  memory ← session_memory self id;
  messages ← chat_context self user_message session1 memory;
  content ← call_llm llm messages;
  now2 ← now_ms clock;
  let session2 := Session.add_message now2 (Message.ai content) session1 in
  match memory with
  | Some r =>
      let inputs := {[ sm_memory_input_key self := user_message ]} in
      let outputs := {[ sm_memory_output_key self := content ]} in
      on_memory r "failed to save memory: " (save_context mem inputs outputs)
  | None => mret ()
  end ;;
  session3 ← trim_to_window self session2;
  on_store (ss_update store session3) ;;
  mret content.

Definition history (id : string) : Op (list Message) :=
  session ← existing id;
  mret (s_messages session).

(** [get], a change at the current time, [update]. *)
Definition change (id : string) (f : Z -> Session -> Session) : Op () :=
  session ← existing id;
  now ← now_ms clock;
  on_store (ss_update store (f now session)).

Definition clear (id : string) : Op () := change id Session.clear.
Definition archive (id : string) : Op () := change id Session.archive.
Definition delete_session (id : string) : Op () :=
  change id Session.delete ;;
  modify (set_memories (delete id)).

Definition list_by_user (user_id : string) : Op (list Session) :=
  on_store (ss_list_by_user store user_id).

(** [SessionManagerRunnable::invoke], its error as the text of [LcelError::Chain]. *)
Definition runnable_invoke (self : SessionManager M) (llm : list Message -> result string string)
    (input : string * string) : World C M K -> result string string * World C M K := fun w =>
  let '(r, w') := chat self input.1 llm input.2 w in
  (map_err (fun e => "session chat: " +:+ session_error_to_string e) r, w').

End manager.
End SessionManager.
