(* ===== verification/Agreement.v ===== *)
(** * The two session managers agree

    Without memory, window or compaction, a conversation through the mutable-history
    manager and the same conversation through the event-sourced one get the same
    replies and end with the same history: the event log's projection is the
    history the old manager stores. *)

From S2P Require Import Prelude Json Message Session Memory Replay ReplayFacts EventLog.
From S2P Require Import EventStoreMem SessionCheckpoint EventManager EventManagerFacts.
From S2P Require Import SessionTheorems LegacySession.
From stdpp Require Import gmap strings list.

Section agreement.
Context {C M M' K K' : Type} (store : EventStore C) (mem : BaseMemory M) (mem' : BaseMemory M').
Context (from_value from_value' : JsonValue -> option Message) (clock clock' : nat -> Z).
Context `{!EventLog store} `{!Infallible store}.

Notation EventWorld := (World C M K).
Notation LegacyWorld := (World MemorySessionStore M' K').
Notation log_of := (wlogs (M:=M) (K:=K) store).

(** No memory, no window, no compaction. *)
Definition plain (self : EventSessionManager M K) : Prop :=
  m_memory self = false /\ m_memory_factory self = None /\ m_max_context_turns self = None /\
  m_auto_compaction self = None.
Definition plain_legacy (self : SessionManager M') : Prop :=
  sm_memory self = false /\ sm_memory_factory self = None /\ sm_max_context_messages self = None.

(** One chat of the mutable-history manager. *)
Lemma legacy_chat (self : SessionManager M') s llm msg (w : LegacyWorld) sess :
  plain_legacy self -> w_store w !! s = Some sess -> s_id sess = s ->
  exists w', SessionManager.chat MemorySessionStore.store mem' from_value' clock' self s llm msg w =
      (map_err Llm (llm (s_messages sess ++ [Message.human msg])), w') /\
    exists sess', w_store w' !! s = Some sess' /\ s_id sess' = s /\
      s_messages sess' =
        s_messages sess ++ match llm (s_messages sess ++ [Message.human msg]) with
                           | Ok c => [Message.human msg; Message.ai c]
                           | Err _ => []
                           end.
Proof.
  intros (Hm & Hf & Hw) Hs Hid.
  unfold SessionManager.chat, SessionManager.existing, SessionManager.session_memory,
    SessionManager.chat_context, SessionManager.trim_to_window, on_store, act_zoom, now_ms, tick,
    call_llm, act_of_result, mbind, act_bind, mret, act_ret.
  rewrite Hm Hf Hw. cbn. rewrite Hs. cbn.
  destruct (llm (s_messages sess ++ [Message.human msg])) as [c|e]; cbn.
  - unfold MemorySessionStore.update. cbn. rewrite Hid Hs. cbn. eexists. split; [done|].
    eexists. split; [cbn; by rewrite lookup_insert_eq|]. split; [done|]. cbn. by rewrite -app_assoc.
  - eexists. split; [done|]. exists sess. rewrite app_nil_r. done.
Qed.

(** One chat of the event-sourced manager. *)
Lemma event_chat (self : EventSessionManager M K) s llm msg (w : EventWorld) :
  let b := m_branch self in
  let l := log_of w s b in
  plain self -> session_ready store 2 w s b -> l <> [] ->
  wp (chat store mem from_value clock self s llm msg) w (fun r w' =>
    r = map_err Llm (llm (messages_of l ++ [Message.human msg])) /\
    exists l', logs_at store self s w l' w' /\
      match llm (messages_of l ++ [Message.human msg]) with
      | Ok c => exists t1 t2, l' = l ++ turn_pair t1 t2 s b l msg c
      | Err _ => l' = l
      end).
Proof.
  cbv zeta. set (b := m_branch self). set (l := log_of w s b).
  intros (Hmem & Hfac & Hwin & Hauto) (Hi & Hp & Hmax) Hne. fold l in Hp, Hmax.
  pose proof (at_log_start store w s b Hi) as Hat. fold l in Hat.
  assert (forall w1, winv store w1 -> wp (read store self s None) w1 (fun r _ => exists x, r = Ok x))
    as Hread.
  { intros w1 H1. apply (wp_store_ok store); [|done]. intros c Hc.
    destruct (inf_read s b None c Hc) as (l' & c' & Hr). eauto. }
  assert (forall w1, winv store w1 -> wp (next_id store self s) w1 (fun r _ => exists x, r = Ok x))
    as Hnext.
  { intros w1 H1. unfold next_id. wp_step.
    eapply wp_mono; [apply (wp_store_ok store); [|exact H1]|].
    - intros c Hc. destruct (inf_latest_id s b c Hc) as (n & c' & Hr). eauto.
    - intros r w' [n ->]. apply wp_ret. by eexists. }
  unfold chat, turn_count. wp_step. wp_step.
  eapply wp_mono; [apply wp_both; [by apply at_read|by apply Hread]|].
  intros r w1 [[H1 Hl] [l' ->]]. specialize (Hl l' eq_refl) as ->. apply wp_ret.
  rewrite next_after_spec; last lia. rewrite (proj2 (N.eqb_neq _ _)); last first.
  { pose proof (latest_id_pos l Hp Hne). lia. }
  cbv zeta. unfold session_memory. rewrite Hfac Hmem. apply wp_bind, wp_ret.
  unfold chat_context. rewrite Hwin. wp_step. wp_step.
  eapply wp_mono; [apply wp_both; [by apply at_read|apply Hread; by destruct H1]|].
  intros r w2 [[H2 Hl] [l' ->]]. specialize (Hl l' eq_refl) as ->.
  wp_step. rewrite project_nonempty //. apply wp_bind, wp_ret, wp_ret. cbn [ps_messages].
  wp_step. unfold call_llm. apply wp_of_result.
  destruct (llm (messages_of l ++ [Message.human msg])) as [content|e]; cbn [map_err].
  2:{ split; [done|]. exists l. split; [|done]. by eapply at_log_logs. }
  apply wp_bind, wp_ret. unfold commit_turn. wp_step. wp_step.
  eapply wp_mono; [apply wp_both; [apply at_next_id; [exact H2|lia]|apply Hnext; by destruct H2]|].
  intros r w3 [[H3 Hn] [n ->]]. specialize (Hn n eq_refl) as ->.
  wp_step. eapply wp_mono; [by apply at_now|]. intros r w4 [[t1 ->] H4].
  wp_step. eapply wp_mono; [by apply at_now|]. intros r w5 [[t2 ->] H5].
  rewrite u64_add_small; last lia.
  replace (LogSpec.latest_id l + 1 + 1)%N with (LogSpec.latest_id l + 2)%N by lia.
  set (e1 := event_now t1 _ _ _ _ _). set (e2 := event_now t2 _ _ _ _ _).
  wp_step. apply wp_try. eapply wp_mono.
  { apply wp_both; [apply at_append_pair; [exact H5|..]|apply (wp_store_ok store); [|by destruct H5]].
    - do 3 (split; [done|]). cbn. lia.
    - do 2 (split; [done|]). rewrite latest_id_snoc. cbn. lia.
    - intros c Hc. destruct (inf_append_batch [e1; e2] c Hc) as (c' & Hr). eauto. }
  intros r w6 [H6 [[] ->]]. rewrite Hauto. unfold wp. cbn. split; [done|].
  eexists. split; [|by exists t1, t2]. by eapply at_log_logs in H6.
Qed.

(** A conversation, one chat after the other, with the replies. *)
Fixpoint event_chats (self : EventSessionManager M K) (s : string)
    (llm : list Message -> result string string) (msgs : list string) (w : EventWorld)
    : list (SessionResult string) * EventWorld :=
  match msgs with
  | [] => ([], w)
  | msg :: msgs' =>
      let '(r, w1) := chat store mem from_value clock self s llm msg w in
      let '(rs, w2) := event_chats self s llm msgs' w1 in
      (r :: rs, w2)
  end.

Fixpoint legacy_chats (self : SessionManager M') (s : string)
    (llm : list Message -> result string string) (msgs : list string) (w : LegacyWorld)
    : list (SessionResult string) * LegacyWorld :=
  match msgs with
  | [] => ([], w)
  | msg :: msgs' =>
      let '(r, w1) :=
        SessionManager.chat MemorySessionStore.store mem' from_value' clock' self s llm msg w in
      let '(rs, w2) := legacy_chats self s llm msgs' w1 in
      (r :: rs, w2)
  end.

(** The stored history is the projection of the log. *)
Definition same_history (s b : string) (wl : LegacyWorld) (we : EventWorld) : Prop :=
  exists sess, w_store wl !! s = Some sess /\ s_id sess = s /\ log_of we s b <> [] /\
    s_messages sess = messages_of (log_of we s b).

Lemma chat_agrees self self' s llm msg n wl we :
  let b := m_branch self in
  plain self -> plain_legacy self' -> session_ready store (2 + n) we s b ->
  same_history s b wl we ->
  exists r wl' we',
    chat store mem from_value clock self s llm msg we = (r, we') /\
    SessionManager.chat MemorySessionStore.store mem' from_value' clock' self' s llm msg wl = (r, wl') /\
    same_history s b wl' we' /\ session_ready store n we' s b.
Proof.
  cbv zeta. set (b := m_branch self). intros Hp Hp' (Hi & Hpos & Hmax) (sess & Hs & Hid & Hne & Hms).
  destruct (legacy_chat self' s llm msg wl sess Hp' Hs Hid) as (wl' & El & sess' & Hs' & Hid' & Hms').
  assert (session_ready store 2 we s b) as Hready by (split; [done|]; split; [done|lia]).
  pose proof (event_chat self s llm msg we Hp Hready Hne) as Hwp.
  destruct (chat store mem from_value clock self s llm msg we) as [r we'] eqn:Ee.
  destruct (wp_elim _ _ _ _ _ Hwp Ee) as [Hr (l' & Hl & Hcase)]. fold b in Hr. pose proof Hl as [Hi' _].
  apply logs_at_split in Hl as [Hl' _]. fold b in Hl', Hcase.
  exists r, wl', we'. split; [done|]. split; [by rewrite El Hr Hms|].
  rewrite Hms in Hms'. unfold same_history, session_ready. rewrite Hl'.
  destruct (llm (messages_of (log_of we s b) ++ [Message.human msg])) as [c|e].
  - destruct Hcase as (t1 & t2 & ->). split.
    + exists sess'. split; [done|]. split; [done|]. split; [by intros [? _]%app_nil|].
      by rewrite messages_of_app Hms'.
    + split; [done|]. split; [by apply turn_pair_positive|]. rewrite latest_id_pair. lia.
  - rewrite Hcase. rewrite app_nil_r in Hms'. split; [exists sess'; by split_and!|]. split; [done|]. split; [done|lia].
Qed.

(** The two session managers agree.  Without memory, context window and
    compaction, any conversation through the mutable-history manager and the same
    conversation through the event-sourced one over a store that does not fail, with
    the same model, get the same reply or error for every message, and the stored
    history keeps being the projection of the event log: a failed turn leaves no
    trace in either. *)
Theorem managers_agree self self' s llm msgs wl we rs we' rs' wl' :
  let b := m_branch self in
  plain self -> plain_legacy self' ->
  session_ready store (2 * N.of_nat (length msgs)) we s b -> same_history s b wl we ->
  event_chats self s llm msgs we = (rs, we') -> legacy_chats self' s llm msgs wl = (rs', wl') ->
  rs = rs' /\ same_history s b wl' we'.
Proof.
  cbv zeta. intros Hp Hp'. revert wl we rs rs'. induction msgs as [|msg msgs IH]; intros wl we rs rs' Hr Hh.
  { by intros [= <- <-] [= <- <-]. }
  cbn [event_chats legacy_chats].
  destruct (chat_agrees self self' s llm msg (2 * N.of_nat (length msgs)) wl we)
    as (r & wl1 & we1 & -> & -> & Hh1 & Hr1); [done|done| |done|].
  { cbn [length] in Hr. by replace (2 + 2 * N.of_nat (length msgs))%N
      with (2 * N.of_nat (S (length msgs)))%N by lia. }
  destruct (event_chats self s llm msgs we1) as [rs1 we2] eqn:Ee.
  destruct (legacy_chats self' s llm msgs wl1) as [rs2 wl2] eqn:El.
  intros [= <- <-] [= <- <-]. destruct (IH wl1 we1 rs1 rs2 Hr1 Hh1 Ee El) as [-> ?]. done.
Qed.

End agreement.
