(* ===== verification/SessionSamples.v ===== *)
(** * Concrete sessions

    Event-sourced sessions over the in-memory store: a chat, a tool call, a
    compaction, a fork, a checkpoint on disk and a recovery, computed by the model
    and used to show that the hypotheses of the session theorems can hold.  [flaky]
    is a store whose first batch append fails; [one_record] stands for serde's
    encoding, on the one record the sample saves. *)

From S2P Require Import Prelude Json Message Session Memory Replay ReplayFacts EventLog EventStoreMem.
From S2P Require Import SessionCheckpoint EventManager EventManagerFacts.
From S2P Require Import SessionTheorems Recovery LegacySession Agreement.
From stdpp Require Import gmap strings list sorting pretty.

Definition sample_clock (n : nat) : Z := 1000 * Z.of_nat n.
Definition sample_uuid (n : nat) : string := "s" +:+ pretty n.
Definition echo (ms : list Message) : result string string :=
  match last ms with Some m => Ok ("re:" +:+ content m) | None => Err "no message" end.
Definition no_value (v : JsonValue) : option Message := None.
Definition sample_memory : BaseMemory BufferMemory :=
  ConversationBufferMemory (fun m => Ok (JString (content m))).

Notation SampleManager := (EventSessionManager BufferMemory FileSystem).
Notation SampleWorld := (World MemoryEventStore BufferMemory FileSystem).

Definition manager_with (budget : option AutoCompaction) (memory : bool)
    (cp : option (SessionCheckpoint FileSystem)) : SampleManager :=
  mkEventSessionManager MAIN_BRANCH memory "input" "output" None (Some 2) budget cp.

Definition empty_world : SampleWorld :=
  mkWorld ∅ buffer_new ∅ ∅ (mkFileSystem ∅ 0 0) 0.

(** Unfold the samples before running them. *)
Strategy 1000 [after].

(** Close [m w = (r, after m w)] by running [m]. *)
Ltac run :=
  lazymatch goal with |- ?m ?w = (?r, _) => exact (runs m w r ltac:(by vm_compute)) end.

Definition creates (self : SampleManager) (w : SampleWorld) : SampleWorld :=
  after (create_session memory_event_store sample_clock sample_uuid self) w.
Definition says (self : SampleManager) (msg : string) (w : SampleWorld) : SampleWorld :=
  after (chat memory_event_store sample_memory no_value sample_clock self "s0" echo msg) w.
Definition uses (self : SampleManager) (w : SampleWorld) : SampleWorld :=
  after (record_tool_use memory_event_store sample_clock self "s0" "search" JNull "c1" "found") w.

(** ** Checking the hypotheses by computation *)

Definition typed_entry (k : EventKey) (e : SessionEvent) : Prop :=
  key_of e = k /\ (k.2 <= u64_max)%N.

Definition ready_check (n : N) (w : SampleWorld) (s b : string) : bool :=
  let l := mem_logs (w_store w) s b in
  bool_decide (map_Forall typed_entry (w_store w)) &&
  bool_decide (Forall (fun e => (1 <= ev_id e)%N) l) && (LogSpec.latest_id l + n <=? u64_max)%N.

Lemma ready_checked n w s b :
  ready_check n w s b = true -> session_ready memory_event_store n w s b.
Proof.
  unfold ready_check. rewrite !andb_true_iff !bool_decide_eq_true N.leb_le. intros [[Ht Hp] Hm].
  split; [|by split]. intros k e Hk. by apply Ht.
Qed.

(** ** A session *)

Definition trunk : SampleManager := manager_with (Some (mkAutoCompaction 8 None)) false None.
Definition talked : SampleWorld := says trunk "two" (uses trunk (says trunk "one" (creates trunk empty_world))).
Definition talked_log : list SessionEvent := mem_logs (w_store talked) "s0" "main".

Example talked_payloads :
  ev_payload <$> talked_log =
  [Metadata "created" (JObject ∅); UserMessage "one"; AssistantMessage "re:one";
   ToolCalled "search" JNull "c1"; ToolResult "c1" "found";
   UserMessage "two"; AssistantMessage "re:two"].
Proof. by vm_compute. Qed.

Lemma merge_projections_exact_witness :
  exists p1 p2 p, project (take 1 talked_log) = Ok p1 /\ project (drop 1 talked_log) = Ok p2 /\
    project talked_log = Ok p /\ same_view (merge_projections p1 p2) p /\ merge_projections p1 p2 <> p.
Proof.
  destruct (project (take 1 talked_log)) as [p1|] eqn:H1; [|by vm_compute in H1].
  destruct (project (drop 1 talked_log)) as [p2|] eqn:H2; [|by vm_compute in H2].
  destruct (project (take 1 talked_log ++ drop 1 talked_log)) as [p|] eqn:H; [|by vm_compute in H].
  destruct (merge_projections_exact _ _ p1 p2 p H1 H2 H) as (Hv & _ & Hiff).
  exists p1, p2, p. rewrite take_drop in H. split; [done|]. split; [done|]. split; [done|].
  split; [done|]. intros E%Hiff. by vm_compute in E.
Defined.

(** ** The in-memory store *)

Definition note (id : N) : SessionEvent :=
  mkSessionEvent id "s0" 0 0 "main" (Metadata "note" JNull).
Definition sample_calls : list Call :=
  [CAppend (note 2); CAppendBatch [note 1; note 2; note 3]; CFork "s0" "main" "side" (Some 2);
   CDeleteBefore "s0" "main" 3; CRead "s0" "main" (Some 0); CRead "s0" "side" None]%N.

Lemma sample_calls_ok : Forall call_ok sample_calls.
Proof. unfold sample_calls. repeat (constructor; [cbn; repeat constructor; by vm_compute|]). constructor. Qed.

Lemma memory_event_store_refines_witness :
  exists m, exec_all memory_event_store sample_calls ∅ =
      (Ok <$> [RUnit; RUnit; RCount 2; RUnit; REvents [note 3];
               REvents [set_branch "side" (note 1); set_branch "side" (note 2)]], m) /\
    mem_logs m ≡ₗ (spec_exec_all sample_calls (fun _ _ => [])).2.
Proof.
  destruct (memory_event_store_refines sample_calls sample_calls_ok) as (m & E & Hl).
  exists m. split; [|exact Hl]. rewrite E. by vm_compute.
Defined.

Lemma event_store_typed_witness :
  let m := (exec_all memory_event_store sample_calls ∅).2 in
  exists l, es_read memory_event_store "s0" "side" (Some 1%N) m = (Ok l, m) /\ StronglySorted id_lt l /\
    forall e, e ∈ l <-> m !! ("s0", "side", ev_id e) = Some e /\ (1 < ev_id e)%N.
Proof.
  cbv zeta. destruct (event_store_typed sample_calls _ _ "s0" "side" (Some 1%N) sample_calls_ok
    (surjective_pairing _)) as [_ H]; [by vm_compute|exact H].
Defined.

(** ** Chat *)

Lemma talked_ready : session_ready memory_event_store 3 talked "s0" "main".
Proof. apply ready_checked. by vm_compute. Qed.

Lemma chat_appends_turn_witness :
  let w' := says trunk "three" talked in
  (forall s b, (s, b) <> ("s0", "main") ->
     wlogs memory_event_store w' s b = wlogs memory_event_store talked s b) /\
  wlogs memory_event_store talked "s0" (m_branch trunk) <> [] /\ asked echo "three" "re:three".
Proof.
  cbv zeta. destruct (chat_appends_turn memory_event_store sample_memory no_value sample_clock trunk
    "s0" echo "three" talked (says trunk "three" talked) (Ok "re:three") talked_ready) as (Ho & Hne & Ha & _).
  { unfold says. run. }
  exact (conj Ho (conj Hne Ha)).
Defined.

(** ** Compaction *)

Definition tight : SampleManager := manager_with (Some (mkAutoCompaction 2 None)) false None.
Definition compacts (w : SampleWorld) : SampleWorld :=
  after (compact_and_prune memory_event_store sample_clock tight "s0" 2) w.

Lemma compaction_bounded_witness :
  length (turns_of (wlogs memory_event_store talked "s0" (m_branch tight))) = 4 /\
  exists dropped kept snap,
    turns_of (wlogs memory_event_store talked "s0" (m_branch tight)) = dropped ++ kept /\
    length kept = 2 /\ 0 < length dropped /\
    wlogs memory_event_store (compacts talked) "s0" (m_branch tight) = events_of kept ++ [snap].
Proof.
  split; [by vm_compute|].
  destruct (compaction_bounded memory_event_store sample_clock tight "s0" 2 talked (compacts talked) true)
    as [_ (dropped & kept & snap & H1 & H2 & H3 & H4 & _)].
  - apply Nat.ltb_lt. by vm_compute.
  - apply ready_checked. by vm_compute.
  - intros E%(f_equal length). by vm_compute in E.
  - unfold compacts. run.
  - exact (ex_intro _ dropped (ex_intro _ kept (ex_intro _ snap (conj H1 (conj H2 (conj H3 H4)))))).
Defined.

Lemma gc_never_settles_witness :
  let w' := (gc_times memory_event_store sample_clock tight "s0" 3 talked).2 in
  Forall (fun e => is_snapshot (ev_payload e) = true) (wlogs memory_event_store w' "s0" (m_branch tight)).
Proof.
  cbv zeta. destruct (gc_never_settles memory_event_store sample_clock tight "s0" 2 3 talked
    (gc_times memory_event_store sample_clock tight "s0" 3 talked).2
    (gc_times memory_event_store sample_clock tight "s0" 3 talked).1) as (_ & Hs & _).
  - exact eq_refl.
  - apply Nat.ltb_lt. by vm_compute.
  - apply ready_checked. by vm_compute.
  - apply Nat.ltb_lt. by vm_compute.
  - apply surjective_pairing.
  - apply Hs. apply Nat.ltb_lt. by vm_compute.
Defined.

(** ** Context window *)

Lemma context_window_witness :
  exists messages pre kept, last_n_turns_messages talked_log 1 = Ok messages /\
    turns_of talked_log = pre ++ kept /\ messages = messages_of (events_of kept) /\
    content <$> messages = ["two"; "re:two"].
Proof.
  destruct (last_n_turns_messages talked_log 1) as [messages|e] eqn:E; [|by vm_compute in E].
  destruct (context_window talked_log 1 messages) as [_ H]; [|exact E|].
  { apply (mem_logs_ok (w_store talked) "s0" "main"). apply talked_ready. }
  destruct H as (pre & kept & H1 & H2 & _); [apply Nat.ltb_lt; by vm_compute|].
  exists messages, pre, kept. split; [exact eq_refl|]. split; [exact H1|]. split; [exact H2|].
  clear H2. revert E. vm_compute. by intros [= <-].
Defined.

(** ** Forks *)

Definition forked_world : SampleWorld :=
  after (fork_session memory_event_store trunk "s0" "side" (Some 3%N)) talked.
Definition side : SampleManager := with_branch "side" trunk.

Lemma fork_isolated_witness :
  let w2 := says side "aside" forked_world in
  wlogs memory_event_store forked_world "s0" "side" =
    set_branch "side" <$> LogSpec.fork_prefix (Some 3%N)
                            (wlogs memory_event_store talked "s0" (m_branch trunk)) /\
  length (wlogs memory_event_store w2 "s0" "side") = 5 /\
  wlogs memory_event_store w2 "s0" "main" = wlogs memory_event_store talked "s0" "main".
Proof.
  cbv zeta. destruct (fork_isolated memory_event_store sample_memory no_value sample_clock trunk side
    "s0" "side" (Some 3%N) talked forked_world (says side "aside" forked_world) echo "aside"
    (Ok "re:aside")) as (_ & Hl & _ & H).
  - apply talked_ready.
  - by vm_compute.
  - discriminate.
  - unfold forked_world. run.
  - split; [exact Hl|]. split; [by vm_compute|]. apply H; [apply ready_checked; by vm_compute| |discriminate].
    unfold says. run.
Defined.

(** ** A store whose first batch append fails *)

Definition Flaky : Type := bool * MemoryEventStore.
Definition steady {A} (m : Act MemoryEventStore SessionError A) : Act Flaky SessionError A :=
  act_zoom snd (fun c f => (f.1, c)) m.
Definition flaky_batch (es : list SessionEvent) : Act Flaky SessionError () := fun f =>
  if f.1 then (Err (StoreError "disk full"), (false, f.2)) else steady (mem_append_batch es) f.

Definition flaky : EventStore Flaky :=
  mkEventStore (fun e => steady (mem_append e)) flaky_batch
    (fun s b after => steady (mem_read s b after))
    (fun s b i j => steady (mem_read_turns_range s b i j))
    (fun s src dst u => steady (mem_fork s src dst u)) (fun s b => steady (mem_latest_id s b))
    (fun s => steady (mem_clear_session s)) (fun s b n => steady (mem_delete_before s b n)).

Lemma steady_implements {A} f (m : Act MemoryEventStore SessionError A) :
  implements mem_inv mem_logs f m ->
  implements (fun c => mem_inv c.2) (fun c => mem_logs c.2) f (steady m).
Proof.
  intros H [fl c] r c'. cbn. intros Hc. unfold steady, act_zoom. cbn.
  destruct (m c) as [r0 c0] eqn:E. intros [= <- <-]. exact (H _ _ _ Hc E).
Qed.

Lemma steady_observes {A} f (m : Act MemoryEventStore SessionError A) :
  observes mem_inv mem_logs f m ->
  observes (fun c => mem_inv c.2) (fun c => mem_logs c.2) f (steady m).
Proof.
  intros H [fl c] r c'. cbn. intros Hc. unfold steady, act_zoom. cbn.
  destruct (m c) as [r0 c0] eqn:E. intros [= <- <-]. exact (H _ _ _ Hc E).
Qed.

Lemma flaky_batch_implements es :
  Forall (fun e => (ev_id e <= u64_max)%N) es ->
  implements (fun c : Flaky => mem_inv c.2) (fun c => mem_logs c.2) (LogSpec.append_batch es)
    (flaky_batch es).
Proof.
  intros Hes [[] c] r c' Hc; unfold flaky_batch; cbn [fst].
  - by intros [= <- <-].
  - exact (steady_implements _ _ (el_append_batch (EventLog := memory_event_log) es Hes) (false, c) r c' Hc).
Qed.

Global Program Instance flaky_event_log : EventLog flaky := {|
  el_inv := fun c => mem_inv c.2;
  el_logs := fun c => mem_logs c.2;
|}.
Next Obligation. intros c s b. apply mem_logs_ok. Qed.
Next Obligation. intros e H. apply steady_implements. exact (el_append (st := memory_event_store) e H). Qed.
Next Obligation. apply flaky_batch_implements. Qed.
Next Obligation. intros. apply steady_observes. exact (el_read (st := memory_event_store) _ _ _). Qed.
Next Obligation. intros. apply steady_observes. exact (el_read_turns_range (st := memory_event_store) _ _ _ _). Qed.
Next Obligation. intros. apply steady_implements. exact (el_fork (st := memory_event_store) _ _ _ _). Qed.
Next Obligation. intros. apply steady_observes. exact (el_latest_id (st := memory_event_store) _ _). Qed.
Next Obligation. intros. apply steady_implements. exact (el_clear_session (st := memory_event_store) _). Qed.
Next Obligation. intros. apply steady_implements. exact (el_delete_before (st := memory_event_store) _ _ _). Qed.

Definition remembering : SampleManager := manager_with None true None.
Definition flaky_world : World Flaky BufferMemory FileSystem :=
  mkWorld (true, w_store talked) buffer_new ∅ ∅ (mkFileSystem ∅ 0 0) 100.
Definition steadfast (ms : list Message) : result string string := Ok "re:hi".
Definition flaky_says (w : World Flaky BufferMemory FileSystem) : World Flaky BufferMemory FileSystem :=
  after (chat flaky sample_memory no_value sample_clock remembering "s0" steadfast "hi") w.

Lemma chat_retry_saves_once_witness :
  let w2 := flaky_says (flaky_says flaky_world) in
  pending_of "s0" w2 = None /\
  exists m1, save_context sample_memory (inputs remembering "hi") (outputs remembering "re:hi")
               buffer_new = (Ok (), m1) /\ memory_of remembering "s0" w2 = Some m1.
Proof.
  cbv zeta. destruct (chat_retry_saves_once flaky sample_memory no_value sample_clock remembering "s0"
    steadfast steadfast "hi" flaky_world (flaky_says flaky_world) (flaky_says (flaky_says flaky_world))
    (StoreError "disk full") "re:hi" "re:hi" buffer_new) as (_ & Hp & Hm & _).
  - destruct talked_ready as (Hi & Hp & Hm). exact (conj Hi (conj Hp Hm)).
  - exact eq_refl.
  - intros E. by vm_compute in E.
  - unfold flaky_says. run.
  - by vm_compute.
  - intros ms. exact eq_refl.
  - unfold flaky_says. run.
  - exact (conj Hp Hm).
Defined.

(** ** A checkpoint on disk, and recovery from it *)

Definition disk_dir : string := "/checkpoints".
Definition quiet_io (tick : N) (op : FsOp) : IoResult := IoDone.

Definition first_log : list SessionEvent :=
  mem_logs (w_store (says trunk "one" (creates trunk empty_world))) "s0" "main".
Definition no_projection : ProjectedSession := mkProjectedSession "" "" [] [] 0.
Definition first_projection : ProjectedSession :=
  match project first_log with Ok p => p | Err _ => no_projection end.
Definition the_record : CheckpointRecord :=
  mkCheckpointRecord CHECKPOINT_FORMAT_VERSION 3 first_projection.

Global Instance CheckpointRecord_eq_dec : EqDecision CheckpointRecord.
Proof. solve_decision. Defined.

Definition encode_one (r : CheckpointRecord) : result string string :=
  if bool_decide (r = the_record) then Ok "record" else Err "not the record".
Definition decode_one (bytes : string) : result string CheckpointRecord :=
  if bytes =ₛ "record" then Ok the_record else Err "not the record".

Lemma one_record r bytes : encode_one r = Ok bytes -> decode_one bytes = Ok r.
Proof. unfold encode_one. case_bool_decide as H; [|done]. subst r. by intros [= <-]. Qed.

Definition disk : SessionCheckpoint FileSystem :=
  FileCheckpoint disk_dir 1 encode_one decode_one quiet_io.

Definition disk_saved : FileSystem :=
  after (file_save disk_dir 1 encode_one quiet_io "s0" "main" 3 first_projection) (mkFileSystem ∅ 0 0).

Lemma file_checkpoint_durable_witness :
  file_latest disk_dir decode_one quiet_io "s0" "main" disk_saved =
  (Ok (Some (3%N, first_projection)),
   after (file_latest disk_dir decode_one quiet_io "s0" "main") disk_saved).
Proof.
  destruct (file_checkpoint_durable disk_dir 1 encode_one decode_one quiet_io one_record
    "s0" "main" 3 first_projection (mkFileSystem ∅ 0 0) (Ok ()) disk_saved) as (_ & H & _);
    [unfold disk_saved; run|].
  assert (exists o, (file_latest disk_dir decode_one quiet_io "s0" "main" disk_saved).1 = Ok o) as [o E]
    by (eexists; by vm_compute).
  apply runs in E. rewrite E. by rewrite (H eq_refl _ _ E).
Defined.

Definition only_main (s b : string) : Prop := s = "s0" /\ b = "main".

Lemma only_main_distinct s b s' b' :
  only_main s b -> only_main s' b' -> path_for s b = path_for s' b' -> (s, b) = (s', b').
Proof. by intros [-> ->] [-> ->]. Qed.

Global Instance disk_store : CheckpointStore disk only_main :=
  file_checkpoint_store disk_dir 1 encode_one decode_one quiet_io one_record only_main
    only_main_distinct.

Definition saver : SampleManager := manager_with (Some (mkAutoCompaction 8 None)) false (Some disk).
Definition saves (w : SampleWorld) : SampleWorld :=
  after (save_checkpoint memory_event_store saver "s0") w.
Definition first_world : SampleWorld := says saver "one" (creates saver empty_world).
Definition saved_world : SampleWorld := uses saver (saves first_world).

Notation SampleReachable :=
  (reachable memory_event_store sample_memory no_value sample_clock sample_uuid disk only_main).

Lemma saver_managed : managed disk only_main saver "s0".
Proof. split; [by right|done]. Qed.

Lemma empty_initial : initial memory_event_store disk only_main empty_world.
Proof.
  split; [apply event_inv_empty|]. split; [exact mem_logs_empty|]. intros s b [-> ->]. by vm_compute.
Qed.

Lemma saved_reachable : SampleReachable saved_world.
Proof.
  exists empty_world. split; [apply empty_initial|].
  eapply (rtc_l _ _ (creates saver empty_world)).
  { eapply (step_create _ _ _ _ _ _ _ _ saver (Ok "s0")).
    - exact saver_managed.
    - intros b. split; [apply mem_logs_empty|]. intros [_ ->]. by vm_compute.
    - unfold creates. run. }
  eapply (rtc_l _ _ first_world).
  { eapply (step_chat _ _ _ _ _ _ _ _ saver "s0" echo "one" (Ok "re:one")).
    - exact saver_managed.
    - by vm_compute.
    - unfold first_world, says. run. }
  eapply (rtc_l _ _ (saves first_world)).
  { eapply (step_checkpoint _ _ _ _ _ _ _ _ saver "s0" (Ok true)).
    - exact saver_managed.
    - unfold saves. run. }
  eapply rtc_once, (step_tool_use _ _ _ _ _ _ _ _ saver "s0" "search" JNull "c1" "found" (Ok ())).
  - exact saver_managed.
  - by vm_compute.
  - unfold saved_world, uses. run.
Qed.

Definition saved_log : list SessionEvent :=
  LogSpec.read None (mem_logs (w_store saved_world) "s0" "main").

Lemma saved_read :
  es_read memory_event_store "s0" "main" None (w_store saved_world) = (Ok saved_log, w_store saved_world).
Proof. apply mem_read_spec. assert (session_ready memory_event_store 1 saved_world "s0" "main") as [H _];
  [apply ready_checked; by vm_compute|exact H]. Qed.

Lemma tool_results_paired_witness :
  length saved_log = 5 /\ assert_no_orphan_tool_results saved_log = Ok 0.
Proof.
  assert (length saved_log = 5) as Hl by by vm_compute.
  split; [exact Hl|].
  apply (tool_results_paired memory_event_store sample_memory no_value sample_clock sample_uuid disk
    only_main saved_world "s0" "main" saved_log _ saved_reachable saved_read).
  intros E. rewrite E in Hl. discriminate Hl.
Defined.

(** What [reachable] leaves out.  A fork into a branch that holds events replaces those with the
    ids of the trunk's: here the call of a tool, whose result is left without it. *)
Definition side_manager : SampleManager := mkEventSessionManager "side" false "input" "output" None (Some 2) None None.
Definition forks (until_id : N) (w : SampleWorld) : SampleWorld :=
  after (fork_session memory_event_store trunk "s0" "side" (Some until_id)) w.
Definition forked_over : SampleWorld := forks 2 (uses side_manager (forks 1 talked)).

Example fork_over_orphans_result :
  ev_payload <$> mem_logs (w_store forked_over) "s0" "side" =
    [Metadata "created" (JObject ∅); UserMessage "one"; ToolResult "c1" "found"] /\
  assert_no_orphan_tool_results (mem_logs (w_store forked_over) "s0" "side") = Ok 1.
Proof. by vm_compute. Qed.

(** Nor does a deletion come between the two records of a tool use, which take no lock that it
    takes. *)
Definition records (payload : EventPayload) (w : SampleWorld) : SampleWorld :=
  after (append memory_event_store sample_clock trunk "s0" 2 payload) w.
Definition deleted_between : SampleWorld :=
  records (ToolResult "c2" "found")
    (after (delete_session memory_event_store trunk "s0") (records (ToolCalled "search" JNull "c2") talked)).

Example deletion_orphans_result :
  ev_payload <$> mem_logs (w_store deleted_between) "s0" "main" = [ToolResult "c2" "found"] /\
  assert_no_orphan_tool_results (mem_logs (w_store deleted_between) "s0" "main") = Ok 1.
Proof. by vm_compute. Qed.

Definition recovered_session : ProjectedSession :=
  match (recover_session memory_event_store saver "s0" saved_world).1 with
  | Ok p => p
  | Err _ => no_projection
  end.

Lemma recover_refines_replay_witness :
  length (ps_turns recovered_session) = 3 /\
  exists q, project (wlogs memory_event_store saved_world "s0" (m_branch saver)) = Ok q /\
    same_view recovered_session q.
Proof.
  split; [by vm_compute|].
  destruct (recover_refines_replay memory_event_store sample_memory no_value sample_clock sample_uuid
    disk only_main saver "s0" saved_world recovered_session
    (after (recover_session memory_event_store saver "s0") saved_world)
    saved_reachable saver_managed) as (_ & l1 & l2 & q & _ & Hq & _ & Hv & _).
  - run.
  - exists q. exact (conj Hq Hv).
Defined.

(** ** Both managers *)

Definition plain_manager : SampleManager := mkEventSessionManager "main" false "input" "output" None None None None.
Definition legacy_manager : SessionManager BufferMemory := SessionManager.new.
Definition legacy_world : World MemorySessionStore BufferMemory () :=
  after (SessionManager.create_session MemorySessionStore.store sample_clock sample_uuid)
    (mkWorld ∅ buffer_new ∅ ∅ () 0).
Definition event_world : SampleWorld := creates plain_manager empty_world.

Lemma worlds_agree : same_history memory_event_store "s0" "main" legacy_world event_world.
Proof.
  exists (Session.new 1000 "s0"). split; [by vm_compute|]. split; [done|]. split; [|by vm_compute].
  intros E%(f_equal length). by vm_compute in E.
Qed.

Lemma managers_agree_witness :
  (event_chats memory_event_store sample_memory no_value sample_clock plain_manager "s0" echo
     ["hi"; "bye"] event_world).1 =
  (legacy_chats sample_memory no_value sample_clock legacy_manager "s0" echo ["hi"; "bye"] legacy_world).1 /\
  (fun sess => content <$> s_messages sess) <$> ((w_store (legacy_chats sample_memory no_value
    sample_clock legacy_manager "s0" echo ["hi"; "bye"] legacy_world).2 : gmap string Session) !! "s0") =
  Some ["hi"; "re:hi"; "bye"; "re:bye"].
Proof.
  split; [|by vm_compute].
  destruct (managers_agree memory_event_store sample_memory sample_memory no_value no_value sample_clock
    sample_clock plain_manager legacy_manager "s0" echo ["hi"; "bye"] legacy_world event_world
    _ _ _ _ (conj eq_refl (conj eq_refl (conj eq_refl eq_refl)))
    (conj eq_refl (conj eq_refl eq_refl)) ltac:(apply ready_checked; by vm_compute) worlds_agree
    (surjective_pairing _) (surjective_pairing _)) as [E _].
  exact E.
Defined.
