(* ===== verification/TemplateParser.v ===== *)
(** * Prompt templates ([crates/lc-prompts/src/template_parser.rs], [error.rs])

    A template is text with [{name}] placeholders, where a doubled brace stands for
    the brace.  [scan_template] is the one scanner behind the lenient [parse_template]
    and the strict [validate_template]; [format_template_vars] substitutes.

    Strings are their UTF-8 bytes.  The scanner looks for braces, which are ASCII and
    occur in no longer encoding, so scanning bytes is scanning characters; names are
    decoded into code points ([chars]).  The tables of Unicode, and the [Debug] form of
    a string that depends on them, are the class [Unicode].

    The loop runs on fuel, one unit per step; a step reads at least one byte, so the
    length of the template is enough ([scan_total]). *)

From stdpp Require Import gmap strings list pretty.
From Stdlib Require Import Ascii.
From S2P Require Import Prelude Json.

(** ** Characters *)

(** [char::is_alphabetic], [char::is_alphanumeric] and the [Debug] form of a [str]:
    the tables of the Unicode standard.  Braces are neither letters nor digits. *)
Class Unicode := {
  is_alphabetic : N -> bool;
  is_alphanumeric : N -> bool;
  debug_str : string -> string;
  open_not_alphabetic : is_alphabetic 123 = false;
  close_not_alphabetic : is_alphabetic 125 = false;
  close_not_alphanumeric : is_alphanumeric 125 = false;
}.

Definition continuation (c : ascii) : option N :=
  let n := N_of_ascii c in
  if ((128 <=? n) && (n <? 192))%N then Some (n - 128)%N else None.

(** [str::chars]: the code points of a UTF-8 string (a byte that does not start a
    character, which no Rust string has, stands for the replacement character). *)
Fixpoint chars (s : string) : list N :=
  match s with
  | EmptyString => []
  | String a s1 =>
      let n := N_of_ascii a in
      if (n <? 128)%N then n :: chars s1
      else
        match s1 with
        | String b s2 =>
            match continuation b with
            | None => 65533%N :: chars s1
            | Some x =>
                if ((192 <=? n) && (n <? 224))%N then ((n - 192) * 64 + x)%N :: chars s2
                else
                  match s2 with
                  | String c s3 =>
                      match continuation c with
                      | None => 65533%N :: chars s1
                      | Some y =>
                          if ((224 <=? n) && (n <? 240))%N
                          then (((n - 224) * 64 + x) * 64 + y)%N :: chars s3
                          else
                            match s3 with
                            | String d s4 =>
                                match continuation d with
                                | None => 65533%N :: chars s1
                                | Some z =>
                                    if (240 <=? n)%N
                                    then ((((n - 240) * 64 + x) * 64 + y) * 64 + z)%N :: chars s4
                                    else 65533%N :: chars s1
                                end
                            | EmptyString => 65533%N :: chars s1
                            end
                      end
                  | EmptyString => 65533%N :: chars s1
                  end
            end
        | EmptyString => [65533%N]
        end
  end.

(** ** Errors *)

Inductive PromptsError : Type :=
| MissingVariable (variable : string)
| MalformedTemplate (issue : string)
| InvalidNamespace (namespace : string)
| NamespaceNotFound (namespace : string)
| VersionNotFound (namespace : string) (version : N)
| HashNotFound (prefix : string)
| AmbiguousHash (prefix : string) (versions : list N)
| InvalidReference (reference : string)
| MessageFormat (index : nat) (role : string) (source : PromptsError)
| UnusedVariables (template : string) (variables : list string)
| ExampleMissingVariable (index : nat) (variable : string)
| FewShotVariableMismatch (undeclared unused : list string).

Section unicode.
Context `{U : Unicode}.

(** The [Debug] form of a list. *)
Definition debug_list {A} (f : A -> string) (l : list A) : string :=
  "[" +:+ str_join ", " (f <$> l) +:+ "]".

Fixpoint prompts_error_to_string (e : PromptsError) : string :=
  match e with
  | MissingVariable v => "Missing variable: " +:+ v
  | MalformedTemplate i => "malformed placeholder in template " +:+ debug_str i
  | InvalidNamespace n =>
      "invalid prompt namespace " +:+ debug_str n +:+ ": use slash-separated segments of [A-Za-z0-9._-]"
  | NamespaceNotFound n => "prompt namespace not found: " +:+ n
  | VersionNotFound n v => "version " +:+ pretty v +:+ " not found in namespace " +:+ debug_str n
  | HashNotFound p => "no prompt version with hash prefix " +:+ debug_str p
  | AmbiguousHash p vs =>
      "ambiguous hash prefix " +:+ debug_str p +:+ ": versions " +:+ debug_list pretty vs
  | InvalidReference r =>
      "invalid prompt reference " +:+ debug_str r +:+
      ": expected namespace, namespace@<version>, or namespace@hash:<hex>"
  | MessageFormat i role source =>
      "failed to format " +:+ role +:+ " message " +:+ pretty i +:+ ": " +:+ prompts_error_to_string source
  | UnusedVariables t vs =>
      "unused variables for template " +:+ debug_str t +:+ ": " +:+ debug_list debug_str vs
  | ExampleMissingVariable i v =>
      "example " +:+ pretty i +:+ " is missing variable " +:+ debug_str v +:+
      " required by the example prompt"
  | FewShotVariableMismatch u n =>
      "few-shot template variable mismatch: undeclared " +:+ debug_list debug_str u +:+
      ", unused " +:+ debug_list debug_str n
  end.

(** ** Scanning *)

(** [TemplateSegment::Text] and [TemplateSegment::Variable]. *)
Inductive TemplateSegment : Type :=
| Text (text : string)
| Var (name : string).

(** A letter or an underscore, then letters, digits and underscores. *)
Definition is_valid_var_name (name : string) : bool :=
  match chars name with
  | c :: cs =>
      (is_alphabetic c || (c =? 95)%N) && forallb (fun c => is_alphanumeric c || (c =? 95)%N) cs
  | [] => false
  end.

Record TemplateScan := mkTemplateScan {
  scan_segments : list TemplateSegment;
  scan_issues : list string;
}.

Definition open_brace : ascii := "{"%char.
Definition close_brace : ascii := "}"%char.

(** The search for the closing brace: what precedes it and what follows it. *)
Fixpoint until_close (s : string) : option (string * string) :=
  match s with
  | EmptyString => None
  | String c s' =>
      if bool_decide (c = close_brace) then Some (EmptyString, s')
      else match until_close s' with
           | Some (name, rest) => Some (String c name, rest)
           | None => None
           end
  end.

Definition push (text : string) (c : ascii) : string := text +:+ String c EmptyString.

(** [if !text.is_empty() { segments.push(Text(take(&mut text))) }] *)
Definition flush (text : string) (segments : list TemplateSegment) : list TemplateSegment :=
  if text =ₛ "" then segments else segments ++ [Text text].

Definition invalid_name_issue (name : string) : string :=
  "invalid variable name inside `{" +:+ name +:+ "}`".
Definition unclosed_issue : string := "unclosed `{` placeholder".
Definition stray_issue : string := "stray `}` with no matching `{`".

Fixpoint scan_loop (fuel : nat) (s text : string) (segments : list TemplateSegment)
    (issues : list string) : option TemplateScan :=
  match s, fuel with
  | EmptyString, _ => Some (mkTemplateScan (flush text segments) issues)
  | String _ _, 0 => None
  | String c s1, S fuel' =>
      if bool_decide (c = open_brace) then
        match s1 with
        | String c' s2 =>
            if bool_decide (c' = open_brace) then scan_loop fuel' s2 (push text open_brace) segments issues
            else
              match until_close s1 with
              | Some (name, rest) =>
                  if is_valid_var_name name
                  then scan_loop fuel' rest "" (flush text segments ++ [Var name]) issues
                  else scan_loop fuel' s1 (push text open_brace) segments
                         (issues ++ [invalid_name_issue name])
              | None => scan_loop fuel' s1 (push text open_brace) segments (issues ++ [unclosed_issue])
              end
        | EmptyString => scan_loop fuel' s1 (push text open_brace) segments (issues ++ [unclosed_issue])
        end
      else if bool_decide (c = close_brace) then
        match s1 with
        | String c' s2 =>
            if bool_decide (c' = close_brace)
            then scan_loop fuel' s2 (push text close_brace) segments issues
            else scan_loop fuel' s1 (push text close_brace) segments (issues ++ [stray_issue])
        | EmptyString => scan_loop fuel' s1 (push text close_brace) segments (issues ++ [stray_issue])
        end
      else scan_loop fuel' s1 (push text c) segments issues
  end.

Definition scan_template (template : string) : TemplateScan :=
  default (mkTemplateScan [] []) (scan_loop (String.length template) template "" [] []).

Definition parse_template (template : string) : list TemplateSegment :=
  scan_segments (scan_template template).

Definition require_well_formed (scan : TemplateScan) : result PromptsError () :=
  match scan_issues scan with
  | issue :: _ => Err (MalformedTemplate issue)
  | [] => Ok ()
  end.

Definition validate_template (template : string) : result PromptsError () :=
  require_well_formed (scan_template template).

(** ** Substitution *)

(** The two implementations of [TemplateVars] are maps from names to values. *)
Definition TemplateVars : Type := gmap string string.

Fixpoint format_loop (segments : list TemplateSegment) (variables : TemplateVars) (result : string)
    : Prelude.result PromptsError string :=
  match segments with
  | [] => Ok result
  | Text t :: segments' => format_loop segments' variables (result +:+ t)
  | Var name :: segments' =>
      match variables !! name with
      | Some v => format_loop segments' variables (result +:+ v)
      | None => Err (MissingVariable name)
      end
  end.

Definition format_template_vars (segments : list TemplateSegment) (variables : TemplateVars)
    : result PromptsError string := format_loop segments variables "".
Definition format_template (segments : list TemplateSegment) (variables : TemplateVars)
    : result PromptsError string := format_template_vars segments variables.

Definition template_variables (segments : list TemplateSegment) : list string :=
  omap (fun seg => match seg with Var name => Some name | Text _ => None end) segments.

End unicode.

(** * The template scanner, without its accumulators

    [tokens] is the scanner as a function from text to literal bytes and references,
    with the issues on the side; [scan_loop_tokens] shows that the loop computes it.
    [print] writes segments back as a template, doubling braces; strict validation
    accepts exactly the templates that are printed from their parse
    ([template_roundtrip]). *)

Section facts.
Context `{U : Unicode}.

Inductive Tok : Type :=
| Lit (c : ascii)
| Ref (name : string).

Notation Tokens := (list Tok * list string)%type.
(** What the scanner reads first: the tokens of one step, its issue, and the rest. *)
Definition scan_step (c : ascii) (s1 : string) : Tok * option string * string :=
  if bool_decide (c = open_brace) then
    match s1 with
    | String c' s2 =>
        if bool_decide (c' = open_brace) then (Lit open_brace, None, s2)
        else match until_close s1 with
             | Some (name, rest) =>
                 if is_valid_var_name name then (Ref name, None, rest)
                 else (Lit open_brace, Some (invalid_name_issue name), s1)
             | None => (Lit open_brace, Some unclosed_issue, s1)
             end
    | EmptyString => (Lit open_brace, Some unclosed_issue, s1)
    end
  else if bool_decide (c = close_brace) then
    match s1 with
    | String c' s2 =>
        if bool_decide (c' = close_brace) then (Lit close_brace, None, s2)
        else (Lit close_brace, Some stray_issue, s1)
    | EmptyString => (Lit close_brace, Some stray_issue, s1)
    end
  else (Lit c, None, s1).

Definition add_token (t : Tok) (i : option string) (r : Tokens) : Tokens :=
  (t :: r.1, option_list i ++ r.2).

Fixpoint tokens (fuel : nat) (s : string) : option Tokens :=
  match s, fuel with
  | EmptyString, _ => Some ([], [])
  | String _ _, 0 => None
  | String c s1, S fuel' =>
      let '(t, i, rest) := scan_step c s1 in add_token t i <$> tokens fuel' rest
  end.

(** Literals gather in [text] until a reference or the end flushes them. *)
Fixpoint coalesce (text : string) (segments : list TemplateSegment) (ts : list Tok)
    : list TemplateSegment :=
  match ts with
  | [] => flush text segments
  | Lit c :: ts' => coalesce (push text c) segments ts'
  | Ref n :: ts' => coalesce "" (flush text segments ++ [Var n]) ts'
  end.

Lemma scan_loop_tokens fuel s text segments issues :
  scan_loop fuel s text segments issues =
  (fun r : Tokens => mkTemplateScan (coalesce text segments r.1) (issues ++ r.2)) <$> tokens fuel s.
Proof.
  revert s text segments issues. induction fuel as [|fuel IH]; intros [|c s1] text segments issues.
  1, 3: cbn; by rewrite app_nil_r.
  1: done.
  cbn [scan_loop tokens]. unfold scan_step.
  repeat case_match; simplify_eq; rewrite IH; destruct (tokens fuel _) as [[ts iss]|];
    cbn; rewrite -?app_assoc; done.
Qed.

(** ** Enough fuel *)

Lemma until_close_length s name rest :
  until_close s = Some (name, rest) -> s = name +:+ String close_brace rest.
Proof.
  revert name. induction s as [|c s IH]; intros name; cbn; [done|].
  case_bool_decide as Hc; [by intros [= <- <-]; subst|].
  destruct (until_close s) as [[n r]|]; [|done]. intros [= <- <-].
  exact (f_equal (String c) (IH n eq_refl)).
Qed.

Lemma scan_step_shorter c s1 : String.length (scan_step c s1).2 <= String.length s1.
Proof.
  unfold scan_step. repeat case_match; cbn; simplify_eq; cbn; try lia.
  match goal with H : until_close _ = Some _ |- _ => rename H into E end.
  apply until_close_length, (f_equal String.length) in E.
  rewrite length_string_app in E. cbn in *. lia.
Qed.

Lemma tokens_total fuel s : String.length s <= fuel -> is_Some (tokens fuel s).
Proof.
  revert s. induction fuel as [|fuel IH]; intros [|c s1] Hl; cbn in *; try lia; try by eexists.
  pose proof (scan_step_shorter c s1) as Hs. destruct (scan_step c s1) as [[t i] rest]; cbn in *.
  destruct (IH rest) as [r ->]; [lia|]. by eexists.
Qed.

Lemma scan_total template :
  exists ts issues, tokens (String.length template) template = Some (ts, issues) /\
    scan_template template = mkTemplateScan (coalesce "" [] ts) issues.
Proof.
  destruct (tokens_total (String.length template) template) as [[ts iss] E]; [lia|].
  exists ts, iss. split; [done|]. unfold scan_template. by rewrite scan_loop_tokens E.
Qed.

(** ** Names *)

Fixpoint str_elem (c : ascii) (s : string) : bool :=
  match s with
  | EmptyString => false
  | String c' s' => bool_decide (c' = c) || str_elem c s'
  end.

(** A brace in a name is one of its characters. *)
Lemma continuation_not_close b x : continuation b = Some x -> b <> close_brace.
Proof. intros H ->. discriminate H. Qed.

Lemma chars_close s : str_elem close_brace s = true -> 125%N ∈ chars s.
Proof.
  assert (forall n s, String.length s <= n -> str_elem close_brace s = true -> 125%N ∈ chars s) as H.
  2: by apply (H (String.length s)).
  clear s. induction n as [|n IH]; intros [|a s1] Hl Hin; cbn [String.length] in Hl; try lia; try done.
  cbn [str_elem] in Hin. case_bool_decide as Ha.
  { subst a. left. }
  cbn [orb] in Hin.
  assert (forall s2, String.length s2 <= String.length s1 -> str_elem close_brace s2 = true ->
    forall x, 125%N ∈ x :: chars s2) as Hrest.
  { intros s2 Hl2 Hin2 x. right. apply IH; [lia|done]. }
  assert (forall b s2, s1 = String b s2 -> forall y, continuation b = Some y ->
    str_elem close_brace s2 = true) as Hskip.
  { intros b s2 -> y Hy%continuation_not_close. cbn [str_elem] in Hin. by rewrite bool_decide_false in Hin. }
  cbn [chars]. destruct (_ <? 128)%N; [by apply Hrest|].
  destruct s1 as [|b s2]; [done|]. destruct (continuation b) as [x|] eqn:Hb; [|by apply Hrest].
  assert (str_elem close_brace s2 = true) as H2 by (by eapply Hskip).
  destruct (_ && _); [apply Hrest; [cbn; lia|done]|].
  destruct s2 as [|c s3]; [done|]. destruct (continuation c) as [y|] eqn:Hc; [|by apply Hrest].
  assert (str_elem close_brace s3 = true) as H3.
  { cbn [str_elem] in H2. rewrite bool_decide_false in H2; [done|]. by eapply continuation_not_close. }
  destruct (_ && _); [apply Hrest; [cbn; lia|done]|].
  destruct s3 as [|d s4]; [done|]. destruct (continuation d) as [z|] eqn:Hd; [|by apply Hrest].
  assert (str_elem close_brace s4 = true) as H4.
  { cbn [str_elem] in H3. rewrite bool_decide_false in H3; [done|]. by eapply continuation_not_close. }
  destruct (_ <=? _)%N; [apply Hrest; [cbn; lia|done]|by apply Hrest].
Qed.

Lemma valid_no_close name : is_valid_var_name name = true -> str_elem close_brace name = false.
Proof.
  unfold is_valid_var_name. intros Hv. apply not_true_is_false. intros Hc%chars_close.
  destruct (chars name) as [|c cs]; [done|]. apply andb_true_iff in Hv as [Hc0 Hcs].
  apply elem_of_cons in Hc as [<-|Hc].
  - by rewrite close_not_alphabetic in Hc0.
  - rewrite forallb_forall in Hcs. apply list_elem_of_In in Hc. specialize (Hcs _ Hc).
    by rewrite close_not_alphanumeric in Hcs.
Qed.

Lemma valid_cons name : is_valid_var_name name = true ->
  exists c s, name = String c s /\ c <> open_brace.
Proof.
  destruct name as [|c s]; [done|]. intros Hv. exists c, s. split; [done|]. intros ->.
  unfold is_valid_var_name in Hv. change (chars (String open_brace s)) with (123%N :: chars s) in Hv.
  by rewrite open_not_alphabetic in Hv.
Qed.

Lemma until_close_app name rest :
  str_elem close_brace name = false -> until_close (name +:+ String close_brace rest) = Some (name, rest).
Proof.
  induction name as [|c name IH]; intros Hn.
  - change (EmptyString +:+ ?x) with x. cbn. by rewrite bool_decide_true.
  - cbn [str_elem] in Hn. apply orb_false_iff in Hn as [Hc%bool_decide_eq_false Hn].
    change (String c name +:+ ?x) with (String c (name +:+ x)). cbn [until_close].
    by rewrite bool_decide_false // IH.
Qed.

(** ** Printing *)

Definition escape_char (c : ascii) : string :=
  if bool_decide (c = open_brace) || bool_decide (c = close_brace)
  then String c (String c EmptyString) else String c EmptyString.

Definition print_tok (t : Tok) : string :=
  match t with
  | Lit c => escape_char c
  | Ref n => String open_brace (n +:+ String close_brace EmptyString)
  end.
Definition print_toks (ts : list Tok) : string := foldr (fun t s => print_tok t +:+ s) "" ts.

Fixpoint lits (s : string) : list Tok :=
  match s with EmptyString => [] | String c s' => Lit c :: lits s' end.

Definition toks_of (seg : TemplateSegment) : list Tok :=
  match seg with Text t => lits t | Var n => [Ref n] end.

(** A segment list as a template: braces in text are doubled. *)
Definition print (segments : list TemplateSegment) : string := print_toks (segments ≫= toks_of).

(** What a parse yields: no empty text, no two texts in a row, valid names. *)
Fixpoint normal (segments : list TemplateSegment) : Prop :=
  match segments with
  | [] => True
  | Text t :: segments' =>
      t <> "" /\ match segments' with Text _ :: _ => False | _ => normal segments' end
  | Var n :: segments' => is_valid_var_name n = true /\ normal segments'
  end.

Definition valid_tok (t : Tok) : Prop :=
  match t with Lit _ => True | Ref n => is_valid_var_name n = true end.

(** Reading back one printed token. *)
Lemma step_print t s :
  valid_tok t -> exists c s1, print_tok t +:+ s = String c s1 /\ scan_step c s1 = (t, None, s).
Proof.
  destruct t as [c|n]; intros Hv; cbn [print_tok].
  - unfold escape_char. destruct (decide (c = open_brace)) as [->|Ho]; [by do 2 eexists|].
    destruct (decide (c = close_brace)) as [->|Hc]; [by do 2 eexists|].
    rewrite !bool_decide_false //. do 2 eexists. split; [done|].
    unfold scan_step. by rewrite !bool_decide_false.
  - destruct (valid_cons n Hv) as (c & n' & -> & Hc).
    exists open_brace, (String c (n' +:+ String close_brace s)). split.
    + change (String open_brace (String c ((n' +:+ String close_brace "") +:+ s)) =
        String open_brace (String c (n' +:+ String close_brace s))). by rewrite string_app_assoc.
    + unfold scan_step. rewrite bool_decide_true // bool_decide_false //.
      change (String c (n' +:+ String close_brace s)) with (String c n' +:+ String close_brace s).
      rewrite until_close_app ?Hv //. by apply valid_no_close.
Qed.

Lemma tokens_print ts fuel :
  Forall valid_tok ts -> String.length (print_toks ts) <= fuel ->
  tokens fuel (print_toks ts) = Some (ts, []).
Proof.
  intros Hts. revert fuel. induction Hts as [|t ts Ht Hts IH]; intros fuel Hl; [by destruct fuel|].
  cbn [print_toks foldr] in *. fold (print_toks ts) in *.
  destruct (step_print t (print_toks ts) Ht) as (c & s1 & E & Hs). rewrite E in Hl |- *.
  destruct fuel as [|fuel]; cbn in Hl; [lia|]. cbn [tokens]. rewrite Hs.
  pose proof (scan_step_shorter c s1) as Hsh. rewrite Hs in Hsh. cbn in Hsh. rewrite IH //. lia.
Qed.

(** A step without an issue consumed the print of its token. *)
Lemma step_no_issue c s1 t rest :
  scan_step c s1 = (t, None, rest) -> String c s1 = print_tok t +:+ rest /\ valid_tok t.
Proof.
  unfold scan_step. case_bool_decide as Ho; [subst c|case_bool_decide as Hc; [subst c|]].
  - destruct s1 as [|c' s2]; [done|]. case_bool_decide as Hc'; [subst c'; by intros [= <- <-]|].
    destruct (until_close (String c' s2)) as [[n r]|] eqn:E; [|done].
    destruct (is_valid_var_name n) eqn:Hv; [|done]. intros [= <- <-]. split; [|done].
    apply until_close_length in E. rewrite E. cbn [print_tok].
    change (String open_brace (n +:+ String close_brace r) =
      String open_brace ((n +:+ String close_brace "") +:+ r)). by rewrite string_app_assoc.
  - destruct s1 as [|c' s2]; [done|]. case_bool_decide as Hc'; [subst c'; by intros [= <- <-]|done].
  - intros [= <- <-]. split; [|done]. cbn [print_tok]. unfold escape_char.
    by rewrite !bool_decide_false.
Qed.

Lemma tokens_no_issue fuel s ts :
  tokens fuel s = Some (ts, []) -> s = print_toks ts /\ Forall valid_tok ts.
Proof.
  revert s ts. induction fuel as [|fuel IH]; intros [|c s1] ts; cbn [tokens].
  1, 3: intros [= <-]; split; [done|constructor].
  1: done.
  destruct (scan_step c s1) as [[t i] rest] eqn:Hs. destruct (tokens fuel rest) as [[ts' is']|] eqn:E; [|done].
  destruct i; cbn; [done|]. intros [= <- ->].
  apply step_no_issue in Hs as [-> Ht]. apply IH in E as [-> Hts]. by split; [|constructor].
Qed.

Lemma step_valid c s1 t i rest : scan_step c s1 = (t, i, rest) -> valid_tok t.
Proof. unfold scan_step. by repeat case_match; intros [= <- <- <-]. Qed.

Lemma tokens_valid fuel s ts issues : tokens fuel s = Some (ts, issues) -> Forall valid_tok ts.
Proof.
  revert s ts issues. induction fuel as [|fuel IH]; intros [|c s1] ts issues; cbn [tokens].
  1, 3: intros [= <- <-]; constructor.
  1: done.
  destruct (scan_step c s1) as [[t i] rest] eqn:Hs. destruct (tokens fuel rest) as [[ts' is']|] eqn:E; [|done].
  intros [= <- <-]. constructor; [by eapply step_valid|by eapply IH].
Qed.

(** ** Coalescing *)

Lemma flush_app text segments : flush text segments = segments ++ flush text [].
Proof. unfold flush. case_bool_decide; [by rewrite app_nil_r|done]. Qed.

Lemma coalesce_app text segments ts : coalesce text segments ts = segments ++ coalesce text [] ts.
Proof.
  revert text segments. induction ts as [|[c|n] ts IH]; intros text segments; cbn [coalesce].
  - apply flush_app.
  - apply IH.
  - rewrite IH (IH "" (flush text [] ++ _)) (flush_app text segments) -!app_assoc. done.
Qed.

Lemma lits_app s s' : lits (s +:+ s') = lits s ++ lits s'.
Proof. induction s as [|c s IH]; [done|]. exact (f_equal (cons (Lit c)) IH). Qed.

Lemma flush_toks text : flush text [] ≫= toks_of = lits text.
Proof. unfold flush. case_bool_decide as Ht; [by subst|]. cbn. by rewrite app_nil_r. Qed.

(** Coalescing keeps the tokens, in order. *)
Lemma coalesce_toks text ts : coalesce text [] ts ≫= toks_of = lits text ++ ts.
Proof.
  revert text. induction ts as [|[c|n] ts IH]; intros text; cbn [coalesce].
  - by rewrite flush_toks app_nil_r.
  - rewrite IH /push lits_app -app_assoc. done.
  - rewrite coalesce_app !bind_app flush_toks IH -app_assoc. done.
Qed.

Lemma coalesce_lits text s ts : coalesce text [] (lits s ++ ts) = coalesce (text +:+ s) [] ts.
Proof.
  revert text. induction s as [|c s IH]; intros text; cbn [lits app coalesce].
  - by rewrite string_app_nil_r.
  - rewrite IH /push string_app_assoc. done.
Qed.

Lemma coalesce_normal text ts : Forall valid_tok ts -> normal (coalesce text [] ts).
Proof.
  intros Hts. revert text. induction Hts as [|[c|n] ts Ht Hts IH]; intros text; cbn [coalesce].
  - unfold flush. by case_bool_decide.
  - apply IH.
  - rewrite coalesce_app. unfold flush. case_bool_decide; [cbn; split; [done|apply IH]|].
    cbn. split; [done|]. split; [done|apply IH].
Qed.

Lemma coalesce_toks_of segments : normal segments -> coalesce "" [] (segments ≫= toks_of) = segments.
Proof.
  induction segments as [|[t|n] segments IH]; intros Hn; [done| |].
  - destruct Hn as [Ht Hn]. cbn [mbind list_bind toks_of]. rewrite coalesce_lits.
    change ("" +:+ t) with t. destruct segments as [|[t'|n] segments]; [|done|].
    + cbn. unfold flush. by rewrite bool_decide_false.
    + specialize (IH Hn). change ((Var n :: segments) ≫= toks_of) with (Ref n :: (segments ≫= toks_of)) in *.
      cbn [coalesce] in *. rewrite coalesce_app in IH. rewrite coalesce_app.
      change (flush "" [] ++ [Var n]) with [Var n] in IH.
      assert (flush t [] = [Text t]) as -> by (unfold flush; by rewrite bool_decide_false).
      injection IH as IH. cbn. by rewrite IH.
  - destruct Hn as [_ Hn]. cbn. rewrite coalesce_app. cbn. f_equal. by apply IH.
Qed.

Lemma toks_of_valid segments : normal segments -> Forall valid_tok (segments ≫= toks_of).
Proof.
  induction segments as [|[t|n] segments IH]; [done| |].
  - intros [_ Hn]. cbn. apply Forall_app. split.
    + clear. induction t; by constructor.
    + destruct segments as [|[] segments]; [done|done|by apply IH].
  - intros [Hv Hn]. constructor; [done|by apply IH].
Qed.

(** C28: Templates and segment lists are two spellings of the same thing.  Whatever the
    text, parsing yields a normal segment list; printing a normal list (with the braces
    of its texts doubled) and parsing it back yields the same list, and strict
    validation accepts the print; and strict validation accepts exactly the templates
    that are the print of their own parse, so that a validated template is read in the
    only way it can be. *)
Theorem template_roundtrip :
  (forall template, normal (parse_template template)) /\
  (forall segments, normal segments ->
     parse_template (print segments) = segments /\ validate_template (print segments) = Ok ()) /\
  (forall template, validate_template template = Ok () <-> print (parse_template template) = template).
Proof.
  assert (forall segments, normal segments ->
    parse_template (print segments) = segments /\ validate_template (print segments) = Ok ()) as Hprint.
  { intros segments Hn. destruct (scan_total (print segments)) as (ts & iss & E & Hs).
    unfold print in E at 2. rewrite tokens_print in E; [|by apply toks_of_valid|done].
    injection E as <- <-. unfold parse_template, validate_template, require_well_formed. rewrite Hs. cbn.
    split; [by apply coalesce_toks_of|done]. }
  assert (forall template, normal (parse_template template)) as Hnormal.
  { intros template. destruct (scan_total template) as (ts & iss & E & Hs).
    unfold parse_template. rewrite Hs. apply coalesce_normal. by eapply tokens_valid. }
  split; [done|]. split; [done|]. intros template. split.
  - destruct (scan_total template) as (ts & iss & E & Hs).
    unfold parse_template, validate_template, require_well_formed. rewrite Hs. cbn.
    destruct iss; [|done]. intros _. apply tokens_no_issue in E as [E _].
    unfold print. rewrite coalesce_toks. by symmetry.
  - intros H. rewrite -{1}H. by apply Hprint.
Qed.

(** ** Substitution *)

Definition render_seg (variables : TemplateVars) (seg : TemplateSegment) : string :=
  match seg with Text t => t | Var n => default "" (variables !! n) end.
Definition render (segments : list TemplateSegment) (variables : TemplateVars) : string :=
  foldr (fun seg s => render_seg variables seg +:+ s) "" segments.

(** The first variable without a value. *)
Definition first_missing (names : list string) (variables : TemplateVars) : option string :=
  snd <$> list_find (fun n => variables !! n = None) names.

Lemma first_missing_cons n names variables :
  first_missing (n :: names) variables =
  match variables !! n with None => Some n | Some _ => first_missing names variables end.
Proof.
  unfold first_missing. cbn [list_find]. case_decide as E.
  - by rewrite E.
  - destruct (variables !! n); [|done]. by destruct (list_find _ names) as [[]|].
Qed.

Lemma first_missing_None names variables :
  first_missing names variables = None <-> forall n, n ∈ names -> is_Some (variables !! n).
Proof.
  unfold first_missing. rewrite fmap_None list_find_None Forall_forall.
  split; intros H n Hn; specialize (H n Hn); destruct (variables !! n); naive_solver.
Qed.

(** Formatting fails on the first missing variable and otherwise renders. *)
Lemma format_template_spec segments variables :
  format_template segments variables =
  match first_missing (template_variables segments) variables with
  | Some n => Err (MissingVariable n)
  | None => Ok (render segments variables)
  end.
Proof.
  unfold format_template, format_template_vars.
  assert (forall acc, format_loop segments variables acc =
    match first_missing (template_variables segments) variables with
    | Some n => Err (MissingVariable n)
    | None => Ok (acc +:+ render segments variables)
    end) as H; [|apply H].
  induction segments as [|[t|n] segments IH]; intros acc; cbn [format_loop].
  - by rewrite string_app_nil_r.
  - rewrite IH. change (template_variables (Text t :: segments)) with (template_variables segments).
    by destruct (first_missing _ _); cbn; rewrite ?string_app_assoc.
  - change (template_variables (Var n :: segments)) with (n :: template_variables segments).
    rewrite first_missing_cons. destruct (variables !! n) as [v|] eqn:E; [|done].
    rewrite IH. destruct (first_missing _ _); [done|]. cbn. by rewrite E string_app_assoc.
Qed.

End facts.
