(* ===== verification/PromptTemplate.v ===== *)
(** * String and chat prompts ([crates/lc-prompts/src/validation.rs], [template_diff.rs],
      [prompt_template.rs], [chat_prompt_template.rs])

    [PromptTemplate] is a parsed template with its render counter, which every
    operation on the shared instance moves; [CacheHeap] is the template cache with the
    instances its [Arc]s point to, a handle being a position in the heap.
    [hash_order] is the order in which a [HashMap] lists its keys. *)

From stdpp Require Import gmap strings list.
From S2P Require Import Prelude Json Message TemplateParser.

(** ** The error type of the pipelines ([crates/lc-core/src/runnables/error.rs]) *)

Inductive LcelError : Type :=
| LcelProvider (msg : string)
| LcelChain (msg : string)
| LcelAgent (msg : string)
| LcelGraph (msg : string)
| LcelTool (msg : string)
| LcelOutputParser (msg : string)
| LcelStream (msg : string)
| LcelPipeline (msg : string)
| LcelTypeMismatch (msg : string)
| LcelOther (msg : string).

Definition lcel_error_to_string (e : LcelError) : string :=
  match e with
  | LcelProvider m => "Provider error: " +:+ m
  | LcelChain m => "Chain error: " +:+ m
  | LcelAgent m => "Agent error: " +:+ m
  | LcelGraph m => "Graph error: " +:+ m
  | LcelTool m => "Tool error: " +:+ m
  | LcelOutputParser m => "Output parser error: " +:+ m
  | LcelStream m => "Stream error: " +:+ m
  | LcelPipeline m => "Pipeline error: " +:+ m
  | LcelTypeMismatch m => "Type mismatch: " +:+ m
  | LcelOther m => m
  end.

(** ** Variables a template needs and a caller supplies *)

Record VariableDiff := mkVariableDiff {
  missing : list string;
  unused : list string;
}.

Module VariableDiff.
Definition is_empty (d : VariableDiff) : bool :=
  bool_decide (missing d = []) && bool_decide (unused d = []).
Definition is_complete (d : VariableDiff) : bool := bool_decide (missing d = []).
Definition require_exact (d : VariableDiff) (template : string) : result PromptsError () :=
  match missing d with
  | first :: _ => Err (MissingVariable first)
  | [] =>
      match unused d with
      | [] => Ok ()
      | _ => Err (UnusedVariables template (unused d))
      end
  end.
End VariableDiff.

Fixpoint dedup_loop (values : list string) (seen : gset string) (out : list string) : list string :=
  match values with
  | [] => out
  | value :: values' =>
      if bool_decide (value ∈ seen) then dedup_loop values' seen out
      else dedup_loop values' ({[value]} ∪ seen) (out ++ [value])
  end.
Definition dedup_owned (values : list string) : list string := dedup_loop values ∅ [].
Definition dedup_in_order (values : list string) : list string := dedup_owned values.

Definition diff_variables (required supplied : list string) : VariableDiff :=
  let required := dedup_in_order required in
  let supplied := dedup_owned supplied in
  mkVariableDiff (filter (fun var => var ∉ supplied) required)
                 (filter (fun var => var ∉ required) supplied).

(** ** Diffs of templates *)

Record TemplateDiff := mkTemplateDiff {
  added : list string;
  removed : list string;
  reordered : bool;
}.

Definition diff_is_empty (d : TemplateDiff) : bool :=
  bool_decide (added d = []) && bool_decide (removed d = []) && negb (reordered d).
Definition is_breaking (d : TemplateDiff) : bool := negb (bool_decide (added d = [])).

Definition variable_order `{Unicode} (template : string) : list string :=
  dedup_in_order (template_variables (parse_template template)).

Definition diff_templates `{Unicode} (old new : string) : TemplateDiff :=
  let old_vars := variable_order old in
  let new_vars := variable_order new in
  let shared_old := filter (fun v => v ∈ new_vars) old_vars in
  let shared_new := filter (fun v => v ∈ old_vars) new_vars in
  mkTemplateDiff (filter (fun v => v ∉ old_vars) new_vars)
                 (filter (fun v => v ∉ new_vars) old_vars)
                 (negb (bool_decide (shared_old = shared_new))).

(** ** String templates *)

Record PromptTemplate := mkPromptTemplate {
  pt_template : string;
  pt_segments : list TemplateSegment;
  renders : N;
}.

(** [AtomicU64::fetch_add(1)] wraps. *)
Definition bump_renders (t : PromptTemplate) : PromptTemplate :=
  mkPromptTemplate (pt_template t) (pt_segments t) ((renders t + 1) mod 2 ^ 64).

(** [if out.is_ok() { renders.fetch_add(1) }] *)
Definition count_render {E A} (t : PromptTemplate) (out : result E A) : result E A * PromptTemplate :=
  (out, match out with Ok _ => bump_renders t | Err _ => t end).

Module PromptTemplate.
Section ops.
Context `{U : Unicode}.

Definition new (template : string) : PromptTemplate :=
  mkPromptTemplate template (parse_template template) 0.

Definition format (variables : TemplateVars) : Act PromptTemplate PromptsError string := fun self =>
  count_render self (format_template (pt_segments self) variables).

Definition render_count (self : PromptTemplate) : N := renders self.
Definition reset_render_count (self : PromptTemplate) : PromptTemplate :=
  mkPromptTemplate (pt_template self) (pt_segments self) 0.
Definition variables (self : PromptTemplate) : list string := template_variables (pt_segments self).
Definition variable_diff (self : PromptTemplate) (supplied : list string) : VariableDiff :=
  diff_variables (variables self) supplied.
Definition template (self : PromptTemplate) : string := pt_template self.
Definition validate (self : PromptTemplate) : result PromptsError () := validate_template (pt_template self).
Definition to_string (self : PromptTemplate) : string := pt_template self.

Definition format_strict (hash_order : TemplateVars -> list string) (vars : TemplateVars)
    : Act PromptTemplate PromptsError string := fun self =>
  match validate self ;; VariableDiff.require_exact (variable_diff self (hash_order vars)) (pt_template self) with
  | Err e => (Err e, self)
  | Ok _ => format vars self
  end.

(** [Runnable::invoke] *)
Definition invoke (input : TemplateVars) : Act PromptTemplate LcelError string := fun self =>
  count_render self
    (map_err (fun e => LcelChain (prompts_error_to_string e)) (format_template_vars (pt_segments self) input)).

End ops.
End PromptTemplate.

(** *** The cache *)

Record CacheHeap := mkCacheHeap {
  instances : list PromptTemplate;
  inner : gmap string nat;
}.

Module PromptTemplateCache.
Section ops.
Context `{U : Unicode}.

Definition new : CacheHeap := mkCacheHeap [] ∅.

(** The handle of the shared instance, parsed on the first call. *)
Definition get_or_insert (template : string) (h : CacheHeap) : nat * CacheHeap :=
  match inner h !! template with
  | Some t => (t, h)
  | None =>
      let t := length (instances h) in
      (t, mkCacheHeap (instances h ++ [PromptTemplate.new template]) (<[template := t]> (inner h)))
  end.

Definition len (h : CacheHeap) : nat := size (inner h).
Definition is_empty (h : CacheHeap) : bool := Nat.eqb (len h) 0.
(** Instances still referenced elsewhere live on. *)
Definition clear (h : CacheHeap) : CacheHeap := mkCacheHeap (instances h) ∅.

(** An operation on the instance behind a handle. *)
Definition with_instance {E A} (t : nat) (op : Act PromptTemplate E A) (h : CacheHeap)
    : option (result E A * CacheHeap) :=
  self ← instances h !! t;
  let '(r, self) := op self in
  Some (r, mkCacheHeap (<[t := self]> (instances h)) (inner h)).

End ops.
End PromptTemplateCache.

(** ** Chat templates *)

Definition role_name (message_type : MessageType) : string :=
  match message_type with
  | System => "System"
  | Human => "Human"
  | AI => "AI"
  | Tool _ => "Tool"
  end.

Record ChatPromptTemplate := mkChatPromptTemplate {
  ct_messages : list Message;
  ct_segments : list (list TemplateSegment);
}.

Definition set_content (content : string) (m : Message) : Message :=
  mkMessage content (images m) (audio m) (videos m) (files m) (message_type m) (msg_name m)
    (additional_kwargs m) (msg_id m) (tool_calls m).

Module ChatPromptTemplate.
Section ops.
Context `{U : Unicode}.

Definition new (messages : list Message) : ChatPromptTemplate :=
  mkChatPromptTemplate messages ((fun msg => parse_template (content msg)) <$> messages).
Definition from_messages (messages : list Message) : ChatPromptTemplate := new messages.

Definition format_message (variables : TemplateVars) (index : nat) (msg : Message)
    (segments : list TemplateSegment) : result PromptsError Message :=
  content ← map_err (fun source => MessageFormat index (role_name (message_type msg)) source)
              (format_template_vars segments variables);
  Ok (set_content content msg).

(** [collect] stops at the first error. *)
Fixpoint format_from (variables : TemplateVars) (index : nat)
    (messages : list (Message * list TemplateSegment)) : result PromptsError (list Message) :=
  match messages with
  | [] => Ok []
  | (msg, segments) :: messages' =>
      formatted ← format_message variables index msg segments;
      rest ← format_from variables (index + 1) messages';
      Ok (formatted :: rest)
  end.

Definition format_with (self : ChatPromptTemplate) (variables : TemplateVars)
    : result PromptsError (list Message) :=
  format_from variables 0 (zip (ct_messages self) (ct_segments self)).
Definition format (self : ChatPromptTemplate) (variables : TemplateVars)
    : result PromptsError (list Message) := format_with self variables.

Definition variables (self : ChatPromptTemplate) : list string :=
  dedup_in_order (ct_segments self ≫= template_variables).
Definition variable_diff (self : ChatPromptTemplate) (supplied : list string) : VariableDiff :=
  diff_variables (variables self) supplied.
Definition messages (self : ChatPromptTemplate) : list Message := ct_messages self.

Definition validate (self : ChatPromptTemplate) : result PromptsError () :=
  res_iter (fun msg => validate_template (content msg)) (ct_messages self).

(** One line per message. *)
Definition to_string (self : ChatPromptTemplate) : string :=
  foldr (fun msg s => role_name (message_type msg) +:+ ": " +:+ content msg +:+ newline +:+ s) ""
    (ct_messages self).

Definition format_strict (hash_order : TemplateVars -> list string) (self : ChatPromptTemplate)
    (vars : TemplateVars) : result PromptsError (list Message) :=
  validate self ;;
  VariableDiff.require_exact (variable_diff self (hash_order vars)) (to_string self) ;;
  format self vars.

(** [Runnable::invoke] *)
Definition invoke (self : ChatPromptTemplate) (input : TemplateVars) : result LcelError (list Message) :=
  map_err (fun e => LcelChain (prompts_error_to_string e)) (format_with self input).

End ops.
End ChatPromptTemplate.
