(* ===== verification/PromptFacts.v ===== *)
(** * What formatting a prompt guarantees

    [strict_formatting] computes strict formatting from the lenient one, for string and
    chat templates; [diff_breaking_iff] says that the diff of two templates announces a
    break exactly when some caller breaks; [cache_shares_instances] is about the
    template cache. *)

From stdpp Require Import gmap strings list.
From S2P Require Import Prelude Json Message TemplateParser PromptTemplate.

(** ** Deduplication *)

Lemma dedup_loop_spec values seen out :
  (forall v, v ∈ seen <-> v ∈ out) -> NoDup out ->
  NoDup (dedup_loop values seen out) /\
  forall v, v ∈ dedup_loop values seen out <-> v ∈ out \/ v ∈ values.
Proof.
  revert seen out. induction values as [|v values IH]; intros seen out Hs Hnd; cbn [dedup_loop].
  - split; [done|]. set_solver.
  - case_bool_decide as Hv.
    + destruct (IH seen out Hs Hnd) as [H1 H2]. split; [done|].
      intros w. rewrite H2 elem_of_cons. apply Hs in Hv. naive_solver.
    + destruct (IH ({[v]} ∪ seen) (out ++ [v])) as [H1 H2].
      * set_solver.
      * apply NoDup_app. split; [done|]. split; [|apply NoDup_singleton]. set_solver.
      * split; [done|set_solver].
Qed.

Lemma dedup_nodup values : NoDup (dedup_in_order values).
Proof. by destruct (dedup_loop_spec values ∅ []) as [? _]; [set_solver|constructor|]. Qed.
Lemma elem_of_dedup values v : v ∈ dedup_in_order values <-> v ∈ values.
Proof.
  destruct (dedup_loop_spec values ∅ []) as [_ H]; [set_solver|constructor|].
  unfold dedup_in_order, dedup_owned. rewrite H. set_solver.
Qed.

Lemma dedup_loop_app values seen out : exists new, dedup_loop values seen out = out ++ new.
Proof.
  revert seen out. induction values as [|v values IH]; intros seen out; cbn [dedup_loop].
  - exists []. by rewrite app_nil_r.
  - case_bool_decide; [apply IH|]. destruct (IH ({[v]} ∪ seen) (out ++ [v])) as [new ->].
    exists (v :: new). by rewrite -app_assoc.
Qed.

(** Filtering a deduplication looks for the first match in the list itself. *)
Lemma dedup_find (P : string -> Prop) `{!forall v, Decision (P v)} values seen out :
  (forall v, v ∈ seen <-> v ∈ out) -> (forall v, v ∈ out -> ~ P v) ->
  head (filter P (dedup_loop values seen out)) = snd <$> list_find P values.
Proof.
  revert seen out. induction values as [|v values IH]; intros seen out Hs Hout; cbn [dedup_loop list_find].
  - by rewrite filter_out.
  - case_decide as Hv.
    + case_bool_decide as Hin; [by apply Hs, Hout in Hin|].
      destruct (dedup_loop_app values ({[v]} ∪ seen) (out ++ [v])) as [new ->].
      by rewrite !filter_app (filter_out P out) // filter_cons decide_True.
    + transitivity (snd <$> list_find P values).
      2: by destruct (list_find P values) as [[]|].
      case_bool_decide; [by apply IH|]. apply IH; [set_solver|].
      intros w [Hw|[->|?%elem_of_nil]%elem_of_cons]%elem_of_app; [by apply Hout|done|done].
Qed.

Lemma dedup_id values : NoDup values -> dedup_owned values = values.
Proof.
  unfold dedup_owned. intros Hnd.
  assert (forall vs seen out, (forall v, v ∈ seen <-> v ∈ out) -> NoDup (out ++ vs) ->
    dedup_loop vs seen out = out ++ vs) as H.
  { induction vs as [|v vs IH]; intros seen out Hs Hn; cbn; [by rewrite app_nil_r|].
    rewrite bool_decide_false.
    - rewrite IH; [by rewrite -app_assoc|set_solver|by rewrite -app_assoc].
    - rewrite Hs. intros Hv. apply NoDup_app in Hn as (_ & Hn & _). apply (Hn v Hv). by left. }
  apply (H values ∅ []); [set_solver|done].
Qed.

(** *** The first missing name *)

Lemma first_missing_app l1 l2 vars :
  first_missing (l1 ++ l2) vars =
  match first_missing l1 vars with Some n => Some n | None => first_missing l2 vars end.
Proof.
  induction l1 as [|n l1 IH]; [done|]. cbn [app]. rewrite !first_missing_cons IH.
  by destruct (vars !! n).
Qed.

Lemma first_missing_dedup l vars : first_missing (dedup_in_order l) vars = first_missing l vars.
Proof.
  unfold first_missing, dedup_in_order, dedup_owned.
  rewrite -(dedup_find (fun n => vars !! n = None) l ∅ []); [|set_solver|set_solver].
  generalize (dedup_loop l ∅ []). intros l'. induction l' as [|n l' IH]; [done|].
  cbn [list_find]. rewrite filter_cons. case_decide; [done|]. rewrite -IH.
  by destruct (list_find _ l') as [[]|].
Qed.

(** ** Strict formatting *)

Section formatting.
Context `{U : Unicode}.
(** A [HashMap] lists each key once, in some order. *)
Context (hash_order : TemplateVars -> list string).
Hypothesis hash_order_perm : forall vars, hash_order vars ≡ₚ (map_to_list vars).*1.

Lemma elem_of_hash_order vars v : v ∈ hash_order vars <-> is_Some (vars !! v).
Proof.
  rewrite hash_order_perm list_elem_of_fmap. split.
  - intros ([k x] & -> & Hk%elem_of_map_to_list). by exists x.
  - intros [x Hx]. exists (v, x). split; [done|]. by apply elem_of_map_to_list.
Qed.

Lemma hash_order_nodup vars : NoDup (hash_order vars).
Proof. rewrite hash_order_perm. apply NoDup_fst_map_to_list. Qed.

(** The supplied variables a template does not use. *)
Definition extras (required : list string) (vars : TemplateVars) : list string :=
  filter (fun v => v ∉ required) (hash_order vars).

Lemma require_exact_spec required vars template :
  VariableDiff.require_exact (diff_variables required (hash_order vars)) template =
  match first_missing required vars with
  | Some n => Err (MissingVariable n)
  | None => match extras required vars with [] => Ok () | extra => Err (UnusedVariables template extra) end
  end.
Proof.
  unfold VariableDiff.require_exact, diff_variables. cbn [missing unused].
  rewrite (dedup_id (hash_order vars)); last apply hash_order_nodup.
  assert (head (filter (fun v => v ∉ hash_order vars) (dedup_in_order required)) =
    first_missing required vars) as Hhead.
  { unfold dedup_in_order, dedup_owned. rewrite dedup_find; [|set_solver|set_solver].
    unfold first_missing. f_equal. apply list_find_ext. intros v. rewrite elem_of_hash_order.
    destruct (vars !! v); naive_solver. }
  assert (filter (fun v => v ∉ dedup_in_order required) (hash_order vars) = extras required vars) as ->.
  { unfold extras. apply filter_ext_elem. intros v _. by rewrite elem_of_dedup. }
  rewrite -Hhead. destruct (filter _ (dedup_in_order required)); cbn; [by destruct (extras required vars)|done].
Qed.

(** The variables of a chat, and its first message that misses one. *)
Definition chat_variables (msgs : list Message) : list string :=
  msgs ≫= fun msg => template_variables (parse_template (content msg)).

Definition render_message (vars : TemplateVars) (msg : Message) : Message :=
  set_content (render (parse_template (content msg)) vars) msg.

Lemma chat_format_from vars i msgs :
  match first_missing (chat_variables msgs) vars with
  | None => ChatPromptTemplate.format_from vars i
              (zip msgs ((fun msg => parse_template (content msg)) <$> msgs)) = Ok (render_message vars <$> msgs)
  | Some n => exists j msg, msgs !! j = Some msg /\
      ChatPromptTemplate.format_from vars i (zip msgs ((fun msg => parse_template (content msg)) <$> msgs)) =
      Err (MessageFormat (i + j) (role_name (message_type msg)) (MissingVariable n))
  end.
Proof.
  revert i. induction msgs as [|msg msgs IH]; intros i; [done|].
  cbn [chat_variables mbind list_bind]. rewrite first_missing_app.
  cbn [fmap list_fmap zip zip_with ChatPromptTemplate.format_from].
  unfold ChatPromptTemplate.format_message.
  change (format_template_vars (parse_template (content msg)) vars)
    with (format_template (parse_template (content msg)) vars). rewrite format_template_spec.
  destruct (first_missing (template_variables _) vars) as [n|].
  { exists 0, msg. split; [done|]. cbn. by rewrite Nat.add_0_r. }
  specialize (IH (i + 1)). fold (chat_variables msgs).
  change (list_bind _ _ (fun msg0 => template_variables (parse_template (content msg0))) msgs)
    with (chat_variables msgs).
  destruct (first_missing (chat_variables msgs) vars) as [n|].
  - destruct IH as (j & m & Hj & ->). exists (Datatypes.S j), m. split; [done|]. cbn. do 2 f_equal. lia.
  - cbn. by rewrite IH.
Qed.

(** Strict formatting is lenient formatting behind two checks, in this order: the
    template is well formed, nothing is missing, nothing is unused.  For a string
    template the error of a missing variable is the one lenient formatting gives, and
    success is lenient success, counted as one render; a failure leaves the counter.
    For a chat template a missing variable loses the message it was found in: lenient
    formatting wraps it in [MessageFormat], strict formatting does not.  The unused
    variables are reported in the order of the hash map. *)
Theorem strict_formatting template msgs vars :
  let self := PromptTemplate.new template in
  let chat := ChatPromptTemplate.new msgs in
  let required := template_variables (parse_template template) in
  PromptTemplate.format_strict hash_order vars self =
    match validate_template template, PromptTemplate.format vars self, extras required vars with
    | Err e, _, _ => (Err e, self)
    | Ok _, (Err e, _), _ => (Err e, self)
    | Ok _, (Ok out, self'), [] => (Ok out, self')
    | Ok _, (Ok _, _), extra => (Err (UnusedVariables template extra), self)
    end /\
  ChatPromptTemplate.format_strict hash_order chat vars =
    match ChatPromptTemplate.validate chat, ChatPromptTemplate.format chat vars,
          extras (chat_variables msgs) vars with
    | Err e, _, _ => Err e
    | Ok _, Err (MessageFormat _ _ e), _ => Err e
    | Ok _, Err e, _ => Err e
    | Ok _, Ok out, [] => Ok out
    | Ok _, Ok _, extra => Err (UnusedVariables (ChatPromptTemplate.to_string chat) extra)
    end.
Proof.
  intros self chat required. split.
  - unfold PromptTemplate.format_strict, PromptTemplate.validate, PromptTemplate.variable_diff.
    change (pt_template self) with template. change (PromptTemplate.variables self) with required.
    destruct (validate_template template) as [[]|e]; cbn [mbind result_bind]; [|done].
    rewrite require_exact_spec. unfold PromptTemplate.format.
    change (pt_segments self) with (parse_template template).
    rewrite format_template_spec. fold required. destruct (first_missing required vars); [done|].
    by destruct (extras required vars).
  - unfold ChatPromptTemplate.format_strict. destruct (ChatPromptTemplate.validate chat) as [[]|e]; [|done].
    cbn [mbind result_bind]. unfold ChatPromptTemplate.variable_diff.
    rewrite require_exact_spec. unfold ChatPromptTemplate.variables.
    assert (ct_segments chat ≫= template_variables = chat_variables msgs) as ->.
    { unfold chat, chat_variables. cbn. clear. induction msgs as [|m l IH]; [done|]. cbn. by rewrite IH. }
    rewrite first_missing_dedup.
    assert (extras (dedup_in_order (chat_variables msgs)) vars = extras (chat_variables msgs) vars) as ->.
    { unfold extras. apply filter_ext_elem. intros v _. by rewrite elem_of_dedup. }
    pose proof (chat_format_from vars 0 msgs) as H.
    change (ChatPromptTemplate.format_from vars 0 _) with (ChatPromptTemplate.format chat vars) in H.
    destruct (first_missing (chat_variables msgs) vars) as [n|].
    + by destruct H as (j & msg & _ & ->).
    + rewrite H. by destruct (extras (chat_variables msgs) vars).
Qed.

End formatting.

(** ** Diffs *)

Section diffs.
Context `{U : Unicode}.

Definition formats (template : string) (vars : TemplateVars) : Prop :=
  exists out, format_template (parse_template template) vars = Ok out.

Lemma formats_iff template vars :
  formats template vars <-> forall v, v ∈ template_variables (parse_template template) -> is_Some (vars !! v).
Proof.
  unfold formats. rewrite format_template_spec -first_missing_None.
  destruct (first_missing _ _); naive_solver.
Qed.

(** A caller that supplies exactly what a template needs. *)
Definition exact_caller (template : string) : TemplateVars :=
  list_to_map ((fun v => (v, "")) <$> variable_order template).

Lemma exact_caller_lookup template v :
  is_Some (exact_caller template !! v) <-> v ∈ template_variables (parse_template template).
Proof.
  rewrite -elem_of_dedup. fold (variable_order template). unfold exact_caller.
  split.
  - intros [x Hx]. apply elem_of_list_to_map_2, list_elem_of_fmap in Hx as (w & [= -> _] & Hw). done.
  - intros Hv. apply not_eq_None_Some. intros Hn. apply not_elem_of_list_to_map_2 in Hn.
    apply Hn. rewrite -list_fmap_compose. apply list_elem_of_fmap. by exists v.
Qed.

(** The diff of two versions of a template tells who is affected.  It announces a
    break exactly when some caller that the old version formats for gets a
    missing-variable error from the new one; and it is empty exactly when the two
    versions ask for the same variables in the same order of first appearance, so that
    they format for exactly the same callers. *)
Theorem diff_breaking_iff old new :
  (is_breaking (diff_templates old new) = true <-> exists vars, formats old vars /\ ~ formats new vars) /\
  (diff_is_empty (diff_templates old new) = true <-> variable_order old = variable_order new) /\
  (diff_is_empty (diff_templates old new) = true -> forall vars, formats old vars <-> formats new vars).
Proof.
  assert (forall v, v ∈ added (diff_templates old new) <->
    v ∈ template_variables (parse_template new) /\ v ∉ template_variables (parse_template old)) as Hadd.
  { intros v. unfold diff_templates, variable_order. cbn. rewrite list_elem_of_filter !elem_of_dedup. naive_solver. }
  assert (diff_is_empty (diff_templates old new) = true <-> variable_order old = variable_order new) as Hempty.
  { unfold diff_is_empty, diff_templates. cbn. rewrite negb_involutive !andb_true_iff !bool_decide_eq_true.
    generalize (variable_order old), (variable_order new). intros lo ln. split.
    - intros [[Ha Hr] Hs]. rewrite !filter_all in Hs; [done|..].
      + intros v Hv. destruct (decide (v ∈ lo)) as [|Hn]; [done|].
        assert (v ∈ filter (fun v => v ∉ lo) ln) as Hf by by apply list_elem_of_filter.
        rewrite Ha in Hf. by apply elem_of_nil in Hf.
      + intros v Hv. destruct (decide (v ∈ ln)) as [|Hn]; [done|].
        assert (v ∈ filter (fun v => v ∉ ln) lo) as Hf by by apply list_elem_of_filter.
        rewrite Hr in Hf. by apply elem_of_nil in Hf.
    - intros <-. split; [split|done]; apply filter_out; auto. }
  split; [|split; [done|]].
  - unfold is_breaking. rewrite negb_true_iff bool_decide_eq_false. split.
    + destruct (added (diff_templates old new)) as [|v l]; [done|]. intros _.
      destruct (proj1 (Hadd v)) as [Hv Hno]; [by left|].
      exists (exact_caller old). rewrite !formats_iff. split; [intros w Hw; by apply exact_caller_lookup|].
      intros Hn. apply Hno, exact_caller_lookup, Hn, Hv.
    + intros (vars & Hold & Hnew) Hnil. rewrite formats_iff in Hold. apply Hnew, formats_iff.
      intros v Hv. apply Hold. destruct (decide (v ∈ template_variables (parse_template old))) as [|Hno]; [done|].
      assert (v ∈ added (diff_templates old new)) as Hf by by apply Hadd.
      rewrite Hnil in Hf. by apply elem_of_nil in Hf.
  - intros H%Hempty vars. rewrite !formats_iff. unfold variable_order in H.
    split; intros Hf v Hv; apply Hf; apply elem_of_dedup; apply elem_of_dedup in Hv; by rewrite ?H // -?H.
Qed.

End diffs.

(** ** The cache *)

Section cache.
Context `{U : Unicode}.

(** Every cached handle is an instance of its own template. *)
Definition cache_ok (h : CacheHeap) : Prop :=
  forall template t, inner h !! template = Some t ->
    exists self, instances h !! t = Some self /\ pt_template self = template /\
      pt_segments self = parse_template template.

Lemma cache_ok_get template h :
  cache_ok h -> let '(t, h') := PromptTemplateCache.get_or_insert template h in
  cache_ok h' /\ inner h' !! template = Some t /\
  forall t' self, instances h !! t' = Some self -> instances h' !! t' = Some self.
Proof.
  intros Hok. unfold PromptTemplateCache.get_or_insert.
  destruct (inner h !! template) as [t|] eqn:E; [done|]. split_and!; cbn.
  - intros template' t'. rewrite lookup_insert_Some. intros [[<- <-]|[Hne Ht']].
    + eexists. split; [by rewrite list_lookup_middle|done].
    + destruct (Hok template' t' Ht') as (self & Hs & ?). exists self. split; [|done].
      by apply lookup_app_l_Some.
  - by rewrite lookup_insert_eq.
  - intros t' self Hs. by apply lookup_app_l_Some.
Qed.

(** Asking twice for a template gives the same instance, and a render through one handle
    is counted on the other. *)
Lemma cache_shares_instances template h vars t h1 :
  cache_ok h -> PromptTemplateCache.get_or_insert template h = (t, h1) ->
  PromptTemplateCache.get_or_insert template h1 = (t, h1) /\
  exists self r h2, instances h1 !! t = Some self /\
    PromptTemplateCache.with_instance t (PromptTemplate.format vars) h1 = Some (r, h2) /\
    r = format_template (parse_template template) vars /\
    PromptTemplateCache.get_or_insert template h2 = (t, h2) /\
    (renders <$> instances h2 !! t) =
      Some (match r with Ok _ => (renders self + 1) mod 2 ^ 64 | Err _ => renders self end)%N.
Proof.
  intros Hok E. pose proof (cache_ok_get template h Hok) as H. rewrite E in H.
  destruct H as (Hok1 & Ht & _). destruct (Hok1 template t Ht) as (self & Hs & Hpt & Hseg).
  split; [unfold PromptTemplateCache.get_or_insert; by rewrite Ht|].
  unfold PromptTemplateCache.with_instance. rewrite Hs. cbn [mbind option_bind].
  unfold PromptTemplate.format, count_render. rewrite Hseg.
  do 3 eexists. split; [done|]. split; [done|]. split; [done|]. split.
  - unfold PromptTemplateCache.get_or_insert. cbn. by rewrite Ht.
  - cbn. rewrite list_lookup_insert_eq; [|by eapply lookup_lt_Some]. cbn. by destruct (format_template _ _).
Qed.

End cache.
