(* ===== verification/SummaryMemory.v ===== *)
(** * Memories that summarize ([crates/lc-memory/src/summary.rs], [summary_buffer.rs])

    Both ask the chat model they own for a new summary, and keep going when it fails:
    [ConversationSummaryMemory] carries the lines that are not summarized yet to the next
    call, [ConversationSummaryBufferMemory] keeps the messages themselves, up to a number of
    failures in a row.  The model is a parameter that may keep a state ([L]); so are the
    token counter and serde's conversion of a message. *)

From stdpp Require Import gmap strings list.
From S2P Require Import Prelude Json Message TemplateParser PromptTemplate Memory.

Section summaries.
Context `{U : Unicode} {L : Type} (llm_invoke : list Message -> L -> result string string * L).
Context (to_value : Message -> result string JsonValue) (count_tokens : string -> nat).

(** ** Asking for a summary *)

(** A prompt that does not format is sent as it is. *)
Definition summary_request (summary_prompt summary new_lines : string) : string :=
  match (PromptTemplate.format {["summary" := summary; "new_lines" := new_lines]} (PromptTemplate.new summary_prompt)).1 with
  | Ok prompt => prompt
  | Err _ => summary_prompt
  end.

Definition ask (prompt : string) : Act L MemoryError string := fun l =>
  let '(r, l) := llm_invoke [Message.human prompt] l in
  (map_err (fun e => SaveError ("LLM summary generation failed: " +:+ e)) r, l).

Definition missing_key {A} (what key : string) (v : option A) : result MemoryError A :=
  ok_or v (SaveError ("Missing " +:+ what +:+ " key '" +:+ key +:+ "'")).

(** ** Summary memory *)

Definition SUMMARY_PROMPT : string := "Progressively summarize the lines of conversation provided, adding onto the previous summary returning a new summary.

EXAMPLE
Summary of conversation:
Human: My name is Zhang San, I like programming.
AI: Hello Zhang San, nice to meet you! You like programming, any particular language?
Human: I like Rust.
AI: Rust is a great programming language, focused on safety and performance.

New lines of conversation:
Human: I also like Python.
AI: Python is also popular, with concise syntax, suitable for rapid development.

New summary:
Human Zhang San likes programming, especially Rust and Python. AI discussed the characteristics of these two languages with Zhang San.

END OF EXAMPLE

Current summary:
{summary}

New lines of conversation:
{new_lines}

New summary:".

Record SummaryMemory := mkSummary {
  sm_llm : L;
  sm_buffer : string;
  sm_chat_memory : ChatMessageHistory;
  sm_input_key : string;
  sm_output_key : string;
  sm_memory_key : string;
  sm_summary_prompt : string;
  sm_return_messages : bool;
  sm_max_recent_turns : nat;
  sm_pending_lines : string;
  sm_last_summary_error : option string;
}.

Definition summary_from_messages (llm : L) (messages : list Message) : SummaryMemory :=
  mkSummary llm "" messages "input" "output" "history" SUMMARY_PROMPT false 2 "" None.
Definition summary_new (llm : L) : SummaryMemory := summary_from_messages llm [].

(** What a save writes. *)
Definition summary_state (llm : L) (buffer : string) (chat_memory : ChatMessageHistory) (pending_lines : string)
    (last_summary_error : option string) (m : SummaryMemory) : SummaryMemory :=
  mkSummary llm buffer chat_memory (sm_input_key m) (sm_output_key m) (sm_memory_key m) (sm_summary_prompt m)
    (sm_return_messages m) (sm_max_recent_turns m) pending_lines last_summary_error.

Definition format_new_lines (input output : string) : string := "Human: " +:+ input +:+ newline +:+ "AI: " +:+ output.

(** New lines behind what is pending. *)
Definition after_pending (pending_lines new_lines : string) : string :=
  if pending_lines =ₛ "" then new_lines else pending_lines +:+ newline +:+ new_lines.

Definition predict_new_summary (m : SummaryMemory) (new_lines : string) : Act L MemoryError string :=
  ask (summary_request (sm_summary_prompt m) (sm_buffer m) (after_pending (sm_pending_lines m) new_lines)).

(** The recent messages are made anew, without what else they carried. *)
Definition recent_message (msg : Message) : list Message :=
  match message_type msg with
  | Human => [Message.human (content msg)]
  | AI => match tool_calls msg with None => [Message.ai (content msg)] | Some _ => [] end
  | System => [Message.system (content msg)]
  | Tool _ => []
  end.
Definition old_message (msg : Message) : list Message :=
  match message_type msg with System => [Message.system (content msg)] | _ => [] end.

(** Twice a [usize], which wraps. *)
Definition usize_double (n : nat) : nat := N.to_nat ((N.of_nat n * 2) mod 2 ^ 64).

Definition trim_chat_memory (max_recent_turns : nat) (messages : ChatMessageHistory) : ChatMessageHistory :=
  let max_messages := usize_double max_recent_turns in
  let current_len := length messages in
  if max_messages <? current_len then
    let start := current_len - max_messages in
    (take start messages ≫= old_message) ++ (drop start messages ≫= recent_message)
  else messages.

Definition summary_load (inputs : gmap string string) (m : SummaryMemory) : result MemoryError (gmap string JsonValue) :=
  if sm_return_messages m then
    message ← serialize_message_to_prompt to_value (Message.system (sm_buffer m));
    Ok {[ sm_memory_key m := JArray [message] ]}
  else Ok {[ sm_memory_key m := JString (sm_buffer m) ]}.

Definition summary_save (inputs outputs : gmap string string) : Act SummaryMemory MemoryError () := fun m =>
  match missing_key "input" (sm_input_key m) (inputs !! sm_input_key m) with
  | Err e => (Err e, m)
  | Ok input =>
      match missing_key "output" (sm_output_key m) (outputs !! sm_output_key m) with
      | Err e => (Err e, m)
      | Ok output =>
          let messages := sm_chat_memory m ++ [Message.human input; Message.ai output] in
          let new_lines := format_new_lines input output in
          let trimmed := trim_chat_memory (sm_max_recent_turns m) messages in
          let '(r, llm) := predict_new_summary m new_lines (sm_llm m) in
          (Ok (), match r with
                  | Ok new_summary => summary_state llm new_summary trimmed "" None m
                  | Err e =>
                      summary_state llm (sm_buffer m) trimmed (after_pending (sm_pending_lines m) new_lines)
                        (Some (memory_error_to_string e)) m
                  end)
      end
  end.

Definition summary_clear : Act SummaryMemory MemoryError () := fun m =>
  (Ok (), summary_state (sm_llm m) "" [] "" None m).

Definition ConversationSummaryMemory : BaseMemory SummaryMemory := mkBaseMemory summary_load summary_save summary_clear.

(** ** Summary buffer memory *)

Definition SUMMARY_BUFFER_PROMPT : string := "Progressively summarize the conversation, adding new content to the previous summary.

Current summary:
{summary}

New lines of conversation:
{new_lines}

New summary:".

Definition MAX_CONSECUTIVE_SUMMARY_FAILURES : nat := 3.

Record SummaryBuffer := mkSummaryBuffer {
  sb_llm : L;
  sb_buffer : string;
  sb_chat_memory : ChatMessageHistory;
  sb_max_token_limit : nat;
  sb_input_key : string;
  sb_output_key : string;
  sb_memory_key : string;
  sb_summary_prompt : string;
  sb_return_messages : bool;
  sb_last_summary_error : option string;
  sb_failures : nat;
  sb_max_failures : nat;
}.

Definition summary_buffer_new (llm : L) (max_token_limit : nat) : SummaryBuffer :=
  mkSummaryBuffer llm "" [] max_token_limit "input" "output" "history" SUMMARY_BUFFER_PROMPT false None 0
    MAX_CONSECUTIVE_SUMMARY_FAILURES.

Definition summary_buffer_state (llm : L) (buffer : string) (chat_memory : ChatMessageHistory)
    (last_summary_error : option string) (failures : nat) (m : SummaryBuffer) : SummaryBuffer :=
  mkSummaryBuffer llm buffer chat_memory (sb_max_token_limit m) (sb_input_key m) (sb_output_key m) (sb_memory_key m)
    (sb_summary_prompt m) (sb_return_messages m) last_summary_error failures (sb_max_failures m).

Definition tokens_of (messages : list Message) : nat := sum_list_with (fun m => count_tokens (content m)) messages.

(** The walk from the newest message, up to the first that exceeds the budget. *)
Fixpoint newest_within (limit current : nat) (rev_messages : list Message) : list Message :=
  match rev_messages with
  | [] => []
  | msg :: older =>
      let tokens := count_tokens (content msg) in
      if current + tokens <=? limit then msg :: newest_within limit (current + tokens) older else []
  end.

Fixpoint drop_leading_tools (messages : list Message) : list Message :=
  match messages with
  | [] => []
  | msg :: messages' => if Message.is_tool msg then drop_leading_tools messages' else msg :: messages'
  end.

Definition prune_messages (limit : nat) (messages : list Message) : list Message :=
  if tokens_of messages <=? limit then messages
  else drop_leading_tools (reverse (newest_within limit 0 (reverse messages))).

(** Tool messages and assistant messages that call tools are left out. *)
Definition retained (msg : Message) : bool :=
  match message_type msg with
  | Human | System => true
  | AI => match tool_calls msg with None => true | Some _ => false end
  | Tool _ => false
  end.
Definition retain_to_window (kept : list Message) : ChatMessageHistory := filter (fun m => retained m = true) kept.

Definition summary_buffer_load (inputs : gmap string string) (m : SummaryBuffer)
    : result MemoryError (gmap string JsonValue) :=
  let pruned := prune_messages (sb_max_token_limit m) (sb_chat_memory m) in
  if sb_return_messages m then
    let all_messages := (if sb_buffer m =ₛ "" then [] else [Message.system (sb_buffer m)]) ++ pruned in
    values ← collect_results (serialize_message_to_prompt to_value) all_messages;
    Ok {[ sb_memory_key m := JArray values ]}
  else
    let history := (if sb_buffer m =ₛ "" then "" else "Summary: " +:+ sb_buffer m +:+ newline +:+ newline) +:+
      str_join "" ((fun msg => Memory.role_name (message_type msg) +:+ ": " +:+ content msg +:+ newline) <$> pruned) in
    Ok {[ sb_memory_key m := JString history ]}.

(** The part of [save_context] behind the token check. *)
Definition summarize_excess (messages : list Message) : SummaryBuffer -> SummaryBuffer := fun m =>
  let pruned := prune_messages (sb_max_token_limit m) messages in
  let messages_to_summarize := take (length messages - length pruned) messages in
  match messages_to_summarize with
  | [] => summary_buffer_state (sb_llm m) (sb_buffer m) messages (sb_last_summary_error m) (sb_failures m) m
  | _ =>
      let new_lines := history_to_string messages_to_summarize in
      let '(r, llm) := ask (summary_request (sb_summary_prompt m) (sb_buffer m) new_lines) (sb_llm m) in
      match r with
      | Ok new_summary => summary_buffer_state llm new_summary (retain_to_window pruned) None 0 m
      | Err e =>
          let error := Some (memory_error_to_string e) in
          if sb_max_failures m <=? sb_failures m + 1
          then summary_buffer_state llm (sb_buffer m) (retain_to_window pruned) error 0 m
          else summary_buffer_state llm (sb_buffer m) messages error (sb_failures m + 1) m
      end
  end.

Definition summary_buffer_save (inputs outputs : gmap string string) : Act SummaryBuffer MemoryError () := fun m =>
  match missing_key "input" (sb_input_key m) (inputs !! sb_input_key m) with
  | Err e => (Err e, m)
  | Ok input =>
      match missing_key "output" (sb_output_key m) (outputs !! sb_output_key m) with
      | Err e => (Err e, m)
      | Ok output =>
          let messages := sb_chat_memory m ++ [Message.human input; Message.ai output] in
          (Ok (), if sb_max_token_limit m <? tokens_of messages then summarize_excess messages m
                  else summary_buffer_state (sb_llm m) (sb_buffer m) messages (sb_last_summary_error m) (sb_failures m) m)
      end
  end.

Definition summary_buffer_clear : Act SummaryBuffer MemoryError () := fun m =>
  (Ok (), summary_buffer_state (sb_llm m) "" [] None 0 m).

Definition ConversationSummaryBufferMemory : BaseMemory SummaryBuffer :=
  mkBaseMemory summary_buffer_load summary_buffer_save summary_buffer_clear.
End summaries.
Arguments SummaryMemory : clear implicits.
Arguments SummaryBuffer : clear implicits.

(** ** Builders *)

Module SummaryMemory.
Section builders.
Context {L : Type}.
Notation M := (SummaryMemory L).
Definition with_input_key (key : string) (m : M) : M :=
  mkSummary (sm_llm m) (sm_buffer m) (sm_chat_memory m) key (sm_output_key m) (sm_memory_key m) (sm_summary_prompt m) (sm_return_messages m) (sm_max_recent_turns m) (sm_pending_lines m) (sm_last_summary_error m).
Definition with_output_key (key : string) (m : M) : M :=
  mkSummary (sm_llm m) (sm_buffer m) (sm_chat_memory m) (sm_input_key m) key (sm_memory_key m) (sm_summary_prompt m) (sm_return_messages m) (sm_max_recent_turns m) (sm_pending_lines m) (sm_last_summary_error m).
Definition with_memory_key (key : string) (m : M) : M :=
  mkSummary (sm_llm m) (sm_buffer m) (sm_chat_memory m) (sm_input_key m) (sm_output_key m) key (sm_summary_prompt m) (sm_return_messages m) (sm_max_recent_turns m) (sm_pending_lines m) (sm_last_summary_error m).
Definition with_summary_prompt (prompt : string) (m : M) : M :=
  mkSummary (sm_llm m) (sm_buffer m) (sm_chat_memory m) (sm_input_key m) (sm_output_key m) (sm_memory_key m) prompt (sm_return_messages m) (sm_max_recent_turns m) (sm_pending_lines m) (sm_last_summary_error m).
Definition with_return_messages (b : bool) (m : M) : M :=
  mkSummary (sm_llm m) (sm_buffer m) (sm_chat_memory m) (sm_input_key m) (sm_output_key m) (sm_memory_key m) (sm_summary_prompt m) b (sm_max_recent_turns m) (sm_pending_lines m) (sm_last_summary_error m).
Definition with_max_recent_turns (max : nat) (m : M) : M :=
  mkSummary (sm_llm m) (sm_buffer m) (sm_chat_memory m) (sm_input_key m) (sm_output_key m) (sm_memory_key m) (sm_summary_prompt m) (sm_return_messages m) max (sm_pending_lines m) (sm_last_summary_error m).
End builders.
End SummaryMemory.

Module SummaryBuffer.
Section builders.
Context {L : Type}.
Notation M := (SummaryBuffer L).
Definition with_input_key (key : string) (m : M) : M :=
  mkSummaryBuffer (sb_llm m) (sb_buffer m) (sb_chat_memory m) (sb_max_token_limit m) key (sb_output_key m) (sb_memory_key m) (sb_summary_prompt m) (sb_return_messages m) (sb_last_summary_error m) (sb_failures m) (sb_max_failures m).
Definition with_output_key (key : string) (m : M) : M :=
  mkSummaryBuffer (sb_llm m) (sb_buffer m) (sb_chat_memory m) (sb_max_token_limit m) (sb_input_key m) key (sb_memory_key m) (sb_summary_prompt m) (sb_return_messages m) (sb_last_summary_error m) (sb_failures m) (sb_max_failures m).
Definition with_memory_key (key : string) (m : M) : M :=
  mkSummaryBuffer (sb_llm m) (sb_buffer m) (sb_chat_memory m) (sb_max_token_limit m) (sb_input_key m) (sb_output_key m) key (sb_summary_prompt m) (sb_return_messages m) (sb_last_summary_error m) (sb_failures m) (sb_max_failures m).
Definition with_summary_prompt (prompt : string) (m : M) : M :=
  mkSummaryBuffer (sb_llm m) (sb_buffer m) (sb_chat_memory m) (sb_max_token_limit m) (sb_input_key m) (sb_output_key m) (sb_memory_key m) prompt (sb_return_messages m) (sb_last_summary_error m) (sb_failures m) (sb_max_failures m).
Definition with_return_messages (b : bool) (m : M) : M :=
  mkSummaryBuffer (sb_llm m) (sb_buffer m) (sb_chat_memory m) (sb_max_token_limit m) (sb_input_key m) (sb_output_key m) (sb_memory_key m) (sb_summary_prompt m) b (sb_last_summary_error m) (sb_failures m) (sb_max_failures m).
Definition with_max_consecutive_summary_failures (max : nat) (m : M) : M :=
  mkSummaryBuffer (sb_llm m) (sb_buffer m) (sb_chat_memory m) (sb_max_token_limit m) (sb_input_key m) (sb_output_key m) (sb_memory_key m) (sb_summary_prompt m) (sb_return_messages m) (sb_last_summary_error m) (sb_failures m) (Nat.max max 1).
Definition set_summary (summary : string) (m : M) : M :=
  summary_buffer_state (sb_llm m) summary (sb_chat_memory m) (sb_last_summary_error m) (sb_failures m) m.
Definition set_max_token_limit (limit : nat) (m : M) : M :=
  mkSummaryBuffer (sb_llm m) (sb_buffer m) (sb_chat_memory m) limit (sb_input_key m) (sb_output_key m) (sb_memory_key m) (sb_summary_prompt m) (sb_return_messages m) (sb_last_summary_error m) (sb_failures m) (sb_max_failures m).
End builders.
End SummaryBuffer.

(** ** What becomes of the turns *)

Section theory.
Context `{U : Unicode} {L : Type} (llm_invoke : list Message -> L -> result string string * L).
Context (count_tokens : string -> nat).

(** The model with a record of its calls. *)
Notation Log := (list (list Message * result string string)).
Definition logged (messages : list Message) (l : L * Log) : result string string * (L * Log) :=
  let '(r, l1) := llm_invoke messages l.1 in (r, (l1, l.2 ++ [(messages, r)])).

(** The requests that were answered, and those that failed. *)
Definition answered (log : Log) : list (string * string) :=
  omap (fun c => match c with ([m], Ok a) => Some (content m, a) | _ => None end) log.
Definition failed_calls (log : Log) : nat := length (filter (fun c => match c.2 with Err _ => true | Ok _ => false end = true) log).

(** A chain of summaries: each batch is summarized on top of the summary before it. *)
Inductive summarised {B} (request : string -> B -> string) : list B -> list (string * string) -> string -> Prop :=
| summarised_none : summarised request [] [] ""
| summarised_more bs calls s b a :
    summarised request bs calls s -> summarised request (bs ++ [b]) (calls ++ [(request s b, a)]) a.

Definition Turn : Type := string * string.
Definition turn_messages (t : Turn) : list Message := [Message.human t.1; Message.ai t.2].
Definition turn_lines (ts : list Turn) : string := str_join newline ((fun t => format_new_lines t.1 t.2) <$> ts).

(** The last [k] elements. *)
Definition newest {A} (k : nat) (l : list A) : list A := drop (length l - k) l.

Lemma act_iter_snoc {W E A} (f : A -> Act W E ()) l x w w' :
  act_iter f l w = (Ok (), w') -> act_iter f (l ++ [x]) w = f x w'.
Proof.
  revert w. induction l as [|y l IH]; intros w Hl.
  - injection Hl as ->. cbn. unfold mbind, act_bind. by destruct (f x w') as [[[]|e] w1].
  - cbn in *. unfold mbind, act_bind in *. destruct (f y w) as [[[]|e] w1]; [|done]. by apply IH.
Qed.

Lemma str_join_snoc sep l x : l <> [] -> str_join sep (l ++ [x]) = str_join sep l +:+ sep +:+ x.
Proof.
  induction l as [|y l IH]; [done|]. intros _. destruct l as [|z l]; [done|].
  change (y +:+ sep +:+ str_join sep ((z :: l) ++ [x]) = (y +:+ sep +:+ str_join sep (z :: l)) +:+ sep +:+ x).
  rewrite IH //. by rewrite !string_app_assoc.
Qed.

Lemma turn_lines_nonempty t ts : turn_lines (t :: ts) <> "".
Proof. unfold turn_lines. by destruct ts. Qed.

Lemma after_pending_turns rest t :
  after_pending (turn_lines rest) (format_new_lines t.1 t.2) = turn_lines (rest ++ [t]).
Proof.
  unfold after_pending. destruct rest as [|t0 rest]; [done|]. rewrite bool_decide_eq_false_2; [|apply turn_lines_nonempty].
  unfold turn_lines. by rewrite fmap_app str_join_snoc.
Qed.

(** A prompt without other placeholders is filled in. *)
Lemma request_fills prompt summary new_lines :
  (forall n, n ∈ template_variables (parse_template prompt) -> n = "summary" \/ n = "new_lines") ->
  summary_request prompt summary new_lines =
  TemplateParser.render (parse_template prompt) {["summary" := summary; "new_lines" := new_lines]}.
Proof.
  intros Hn. unfold summary_request, PromptTemplate.format, count_render. rewrite format_template_spec. simpl.
  assert (first_missing (template_variables (parse_template prompt)) {["summary" := summary; "new_lines" := new_lines]} = None)
    as ->; [|done].
  apply first_missing_None. intros n [-> | ->]%Hn; [by rewrite lookup_insert_eq|].
  by rewrite lookup_insert_ne // lookup_singleton_eq.
Qed.

(** *** Summary memory *)

Definition save_turn (m0 : SummaryMemory (L * Log)) (t : Turn) : Act (SummaryMemory (L * Log)) MemoryError () :=
  summary_save logged {[sm_input_key m0 := t.1]} {[sm_output_key m0 := t.2]}.

Definition fresh (m : SummaryMemory (L * Log)) : Prop :=
  sm_buffer m = "" /\ sm_chat_memory m = [] /\ sm_pending_lines m = "" /\ (sm_llm m).2 = [].

(** The configuration, which no save changes. *)
Definition same_config (m0 m : SummaryMemory (L * Log)) : Prop :=
  sm_input_key m = sm_input_key m0 /\ sm_output_key m = sm_output_key m0 /\
  sm_summary_prompt m = sm_summary_prompt m0 /\ sm_max_recent_turns m = sm_max_recent_turns m0.

Lemma answered_snoc log prompt r :
  answered (log ++ [([Message.human prompt], r)]) =
  answered log ++ match r with Ok a => [(prompt, a)] | Err _ => [] end.
Proof. unfold answered. rewrite omap_app. by destruct r. Qed.

Lemma failed_snoc log c : failed_calls (log ++ [c]) = failed_calls log + match c.2 with Err _ => 1 | Ok _ => 0 end.
Proof. unfold failed_calls. rewrite filter_app length_app filter_cons. by destruct c as [ms [a|e]]. Qed.

Lemma length_turns ts : length (ts ≫= turn_messages) = 2 * length ts.
Proof. induction ts as [|t ts IH]; [done|]. cbn [mbind list_bind]. rewrite length_app IH /=. lia. Qed.

(** A message of a conversation, with no more than its text. *)
Definition plain (m : Message) : Prop := m = Message.human (content m) \/ m = Message.ai (content m).

Lemma turns_plain ts : Forall plain (ts ≫= turn_messages).
Proof.
  induction ts as [|t ts IH]; [constructor|]. cbn [mbind list_bind]. apply Forall_app. split; [|done].
  constructor; [by left|]. constructor; [by right|constructor].
Qed.

Lemma recent_plain l : Forall plain l -> l ≫= recent_message = l.
Proof. induction 1 as [|m l [Hm|Hm] _ IH]; [done| |]; cbn [mbind list_bind]; rewrite {1}Hm /= IH -Hm; done. Qed.
Lemma old_plain l : Forall plain l -> l ≫= old_message = [].
Proof. induction 1 as [|m l [Hm|Hm] _ IH]; [done| |]; cbn [mbind list_bind]; rewrite Hm /= IH; done. Qed.

Lemma trim_newest n all t :
  usize_double n = n * 2 -> Forall plain (all ++ turn_messages t) ->
  trim_chat_memory n (newest (n * 2) all ++ turn_messages t) = newest (n * 2) (all ++ turn_messages t).
Proof.
  intros Hn Hp. assert (newest (n * 2) all ++ turn_messages t = drop (length all - n * 2) (all ++ turn_messages t)) as E.
  { unfold newest. by rewrite drop_app_le; [|lia]. }
  unfold trim_chat_memory. rewrite Hn E length_drop length_app /=.
  assert (Forall plain (drop (length all - n * 2) (all ++ turn_messages t))) as Hp' by by apply Forall_drop.
  unfold newest. rewrite length_app /=. destruct (Nat.ltb_spec (n * 2) (length all + 2 - (length all - n * 2))).
  - rewrite old_plain; [|by apply Forall_take]. rewrite recent_plain; [|by apply Forall_drop].
    rewrite drop_drop. simpl. f_equal. lia.
  - f_equal. lia.
Qed.

(** A prompt that asks for the lines, and for nothing but them and the summary. *)
Definition quotes_lines (prompt : string) : Prop :=
  "new_lines" ∈ template_variables (parse_template prompt) /\
  forall n, n ∈ template_variables (parse_template prompt) -> n = "summary" \/ n = "new_lines".

(** Such a prompt, filled in. *)
Definition filled (prompt summary new_lines : string) : string :=
  TemplateParser.render (parse_template prompt) {["summary" := summary; "new_lines" := new_lines]}.

Lemma render_quotes segments vars n : n ∈ template_variables segments ->
  exists a b, TemplateParser.render segments vars = a +:+ default "" (vars !! n) +:+ b.
Proof.
  induction segments as [|seg segments IH]; intros Hn; [by apply not_elem_of_nil in Hn|].
  assert (render_seg vars seg = default "" (vars !! n) \/ n ∈ template_variables segments) as [E|Hn'].
  { destruct seg as [t|x]; [by right|]. change (template_variables (Var x :: segments)) with (x :: template_variables segments) in Hn.
    apply elem_of_cons in Hn as [->|Hn]; [by left|by right]. }
  - exists "", (TemplateParser.render segments vars). simpl. by rewrite E.
  - destruct (IH Hn') as (a & b & E). exists (render_seg vars seg +:+ a), b. simpl. by rewrite E !string_app_assoc.
Qed.

Lemma filled_quotes prompt summary new_lines : quotes_lines prompt ->
  exists a b, filled prompt summary new_lines = a +:+ new_lines +:+ b.
Proof.
  intros [Hl _]. destruct (render_quotes _ {["summary" := summary; "new_lines" := new_lines]} _ Hl) as (a & b & E).
  exists a, b. rewrite lookup_insert_ne // lookup_singleton_eq in E.
Qed.

(** What a conversation has become: its turns in batches that were summarized, in order, and
    the turns that are pending.  The request for a batch is the prompt, filled in with the
    summary before it and the lines of the batch, which it quotes. *)
Definition kept_by (m0 : SummaryMemory (L * Log)) (ts : list Turn) (m : SummaryMemory (L * Log)) : Prop :=
  exists batches rest, ts = concat batches ++ rest /\ Forall (fun b => b <> []) batches /\
    summarised (fun s b => filled (sm_summary_prompt m0) s (turn_lines b)) batches
      (answered (sm_llm m).2) (sm_buffer m) /\
    Forall2 (fun b call => exists before after, call.1 = before +:+ turn_lines b +:+ after) batches (answered (sm_llm m).2) /\
    sm_pending_lines m = turn_lines rest /\
    sm_chat_memory m = newest (sm_max_recent_turns m0 * 2) (ts ≫= turn_messages).

Lemma save_turn_kept m0 ts t m : quotes_lines (sm_summary_prompt m0) ->
  usize_double (sm_max_recent_turns m0) = sm_max_recent_turns m0 * 2 -> same_config m0 m -> kept_by m0 ts m ->
  exists m', save_turn m0 t m = (Ok (), m') /\ same_config m0 m' /\ kept_by m0 (ts ++ [t]) m'.
Proof.
  intros Hq Hd (Hi & Ho & Hp & Hn) (batches & rest & Hts & Hne & Hs & Hall & Hrest & Hchat). unfold save_turn, summary_save.
  rewrite Hi Ho !lookup_singleton_eq. cbn [missing_key ok_or].
  unfold predict_new_summary, ask. rewrite Hp Hrest after_pending_turns Hn request_fills; [|apply Hq].
  change (TemplateParser.render _ _) with (filled (sm_summary_prompt m0) (sm_buffer m) (turn_lines (rest ++ [t]))).
  set (request := filled _ _ _). unfold logged. destruct (llm_invoke [Message.human request] (sm_llm m).1) as [r l] eqn:Er.
  cbv iota beta. assert (trim_chat_memory (sm_max_recent_turns m0) (sm_chat_memory m ++ [Message.human t.1; Message.ai t.2]) =
    newest (sm_max_recent_turns m0 * 2) ((ts ++ [t]) ≫= turn_messages)) as Htrim.
  { assert ((ts ++ [t]) ≫= turn_messages = (ts ≫= turn_messages) ++ turn_messages t) as E by by rewrite bind_app.
    rewrite Hchat. change [Message.human t.1; Message.ai t.2] with (turn_messages t).
    rewrite trim_newest //; [by rewrite E|]. rewrite -E. apply turns_plain. }
  eexists. split; [reflexivity|]. split.
  { by destruct r. }
  destruct r as [a|e]; simpl.
  - exists (batches ++ [rest ++ [t]]), []. split_and!; [| | | |done|exact Htrim].
    + rewrite concat_app /= !app_nil_r Hts. by rewrite app_assoc.
    + apply Forall_app. split; [done|]. apply Forall_singleton. by destruct rest.
    + simpl. rewrite answered_snoc. exact (summarised_more _ _ _ _ (rest ++ [t]) a Hs).
    + simpl. rewrite answered_snoc. apply Forall2_app; [done|]. constructor; [|constructor]. by apply filled_quotes.
  - exists batches, (rest ++ [t]). split_and!; [|done| | |done|exact Htrim].
    + by rewrite Hts app_assoc.
    + simpl. by rewrite answered_snoc app_nil_r.
    + simpl. by rewrite answered_snoc app_nil_r.
Qed.

(** C34: A new summary memory, whose prompt asks for the lines and for nothing but them and the
    summary, forgets nothing however its model fails: saving succeeds, every turn was in exactly
    one answered request, which quotes its lines under those of the turns before it and is made
    on top of the summary before it, or is still pending, in order; and the recent messages are
    those of the last turns, as many as asked for. *)
Theorem summary_lossless m0 ts :
  fresh m0 -> quotes_lines (sm_summary_prompt m0) -> (N.of_nat (sm_max_recent_turns m0) < 2 ^ 63)%N ->
  exists m, act_iter (save_turn m0) ts m0 = (Ok (), m) /\ kept_by m0 ts m.
Proof.
  intros (Hb & Hc & Hp & Hl) Hq Hn.
  assert (usize_double (sm_max_recent_turns m0) = sm_max_recent_turns m0 * 2) as Hd.
  { unfold usize_double. rewrite N.mod_small; lia. }
  assert (exists m, act_iter (save_turn m0) ts m0 = (Ok (), m) /\ same_config m0 m /\ kept_by m0 ts m) as (m & ? & _ & ?); [|by eauto].
  induction ts as [|t ts (m & Hm & Hcfg & Hk)] using rev_ind.
  - exists m0. split_and!; [done..|]. exists [], []. rewrite Hb Hc Hp Hl. split_and!; [done|constructor|constructor|constructor|done|].
    unfold newest. by rewrite drop_nil.
  - destruct (save_turn_kept m0 ts t m Hq Hd Hcfg Hk) as (m' & Hm' & Hcfg' & Hk'). exists m'.
    split; [|done]. rewrite (act_iter_snoc _ _ _ _ _ Hm). exact Hm'.
Qed.

(** *** Summary buffer memory *)

Notation tokens := (tokens_of count_tokens).

Lemma tokens_app l1 l2 : tokens (l1 ++ l2) = tokens l1 + tokens l2.
Proof. apply sum_list_with_app. Qed.

Lemma newest_within_spec limit current l : current <= limit ->
  exists k, newest_within count_tokens limit current l = take k l /\ current + tokens (take k l) <= limit.
Proof.
  revert current. induction l as [|m l IH]; intros current Hc; cbn [newest_within].
  - exists 0. split; [done|]. simpl. lia.
  - destruct (Nat.leb_spec (current + count_tokens (content m)) limit) as [Hm|_].
    + destruct (IH _ Hm) as (k & -> & Hk). exists (Datatypes.S k). split; [done|]. cbn [take]. unfold tokens_of in *. simpl. lia.
    + exists 0. split; [done|]. simpl. lia.
Qed.

Lemma drop_tools_plain l : Forall plain l -> drop_leading_tools l = l.
Proof. intros [|m l' [Hm|Hm] _]; [done| |]; simpl; by rewrite Hm. Qed.

Lemma retain_plain l : Forall plain l -> retain_to_window l = l.
Proof. intros Hl. apply filter_all. intros m Hin. rewrite Forall_forall in Hl. by destruct (Hl m Hin) as [-> | ->]. Qed.

(** Of a conversation pruning keeps a suffix within the budget, and not all of one that
    exceeds it. *)
Lemma prune_plain limit l : Forall plain l -> limit < tokens l ->
  exists old, old <> [] /\ l = old ++ prune_messages count_tokens limit l /\ tokens (prune_messages count_tokens limit l) <= limit.
Proof.
  intros Hl Ht. unfold prune_messages. destruct (Nat.leb_spec (tokens l) limit); [lia|].
  destruct (newest_within_spec limit 0 (reverse l)) as (k & -> & Hk); [lia|].
  assert (reverse (take k (reverse l)) = drop (length l - k) l) as E.
  { destruct (Nat.le_ge_cases k (length l)).
    - rewrite take_reverse reverse_involutive //.
    - rewrite take_ge ?length_reverse // reverse_involutive. by assert (length l - k = 0) as -> by lia. }
  rewrite E drop_tools_plain; [|by apply Forall_drop].
  assert (tokens (take k (reverse l)) = tokens (drop (length l - k) l)) as Htok.
  { rewrite -E. unfold tokens_of. symmetry. apply sum_list_with_reverse. }
  exists (take (length l - k) l). rewrite take_drop. split_and!; [|done|lia].
  intros Hnil. rewrite -(take_drop (length l - k) l) Hnil /= in Ht. lia.
Qed.

Definition save_buffer_turn (m0 : SummaryBuffer (L * Log)) (t : Turn) : Act (SummaryBuffer (L * Log)) MemoryError () :=
  summary_buffer_save logged count_tokens {[sb_input_key m0 := t.1]} {[sb_output_key m0 := t.2]}.

Definition fresh_buffer (m : SummaryBuffer (L * Log)) : Prop :=
  sb_buffer m = "" /\ sb_chat_memory m = [] /\ sb_failures m = 0 /\ (sb_llm m).2 = [] /\ 1 <= sb_max_failures m.

Definition same_buffer_config (m0 m : SummaryBuffer (L * Log)) : Prop :=
  sb_input_key m = sb_input_key m0 /\ sb_output_key m = sb_output_key m0 /\
  sb_summary_prompt m = sb_summary_prompt m0 /\ sb_max_token_limit m = sb_max_token_limit m0 /\
  sb_max_failures m = sb_max_failures m0.

(** The messages that left the history, in pieces: those that were summarized ([true]) and
    those that were given up ([false]). *)
Definition summarised_pieces (pieces : list (bool * list Message)) : list (list Message) :=
  (filter (fun p => p.1 = true) pieces).*2.
Definition given_up (pieces : list (bool * list Message)) : nat := length (filter (fun p => p.1 = false) pieces).

Definition accounted_for (m0 : SummaryBuffer (L * Log)) (ts : list Turn) (m : SummaryBuffer (L * Log)) : Prop :=
  (exists pieces, ts ≫= turn_messages = concat pieces.*2 ++ sb_chat_memory m /\
     summarised (fun s b => summary_request (sb_summary_prompt m0) s (history_to_string b)) (summarised_pieces pieces)
       (answered (sb_llm m).2) (sb_buffer m) /\
     given_up pieces * sb_max_failures m0 + sb_failures m <= failed_calls (sb_llm m).2) /\
  exists kept turns, sb_chat_memory m = kept ++ turns /\ tokens kept <= sb_max_token_limit m0 /\
    length turns <= 2 * sb_failures m /\ sb_failures m < sb_max_failures m0.

Lemma pieces_true pieces old : summarised_pieces (pieces ++ [(true, old)]) = summarised_pieces pieces ++ [old].
Proof. unfold summarised_pieces. by rewrite filter_app fmap_app. Qed.
Lemma pieces_false pieces old : summarised_pieces (pieces ++ [(false, old)]) = summarised_pieces pieces.
Proof. unfold summarised_pieces. by rewrite filter_app fmap_app app_nil_r. Qed.
Lemma given_up_snoc pieces b old : given_up (pieces ++ [(b, old)]) = given_up pieces + if b then 0 else 1.
Proof. unfold given_up. rewrite filter_app length_app. by destruct b. Qed.

Lemma concat_pieces_snoc (pieces : list (bool * list Message)) b old (l : list Message) :
  concat (pieces ++ [(b, old)]).*2 ++ l = concat pieces.*2 ++ old ++ l.
Proof. by rewrite fmap_app concat_app /= app_nil_r -app_assoc. Qed.

(** What is done about a history that exceeds the budget. *)
Lemma summarize_accounted m0 ts t m : same_buffer_config m0 m -> accounted_for m0 ts m ->
  let messages := sb_chat_memory m ++ turn_messages t in
  sb_max_token_limit m0 < tokens messages ->
  same_buffer_config m0 (summarize_excess logged count_tokens messages m) /\
  accounted_for m0 (ts ++ [t]) (summarize_excess logged count_tokens messages m).
Proof.
  intros (Hi & Ho & Hp & Hlim & Hmax) [(pieces & Hts & Hs & Hg) (kept & turns & Hchat & Hk & Hl & Hf)] messages Htok.
  assert ((ts ++ [t]) ≫= turn_messages = concat pieces.*2 ++ messages) as Hts'.
  { unfold messages. by rewrite app_assoc -Hts bind_app. }
  assert (Forall plain messages) as Hplain.
  { pose proof (turns_plain (ts ++ [t])) as H. rewrite Hts' in H. by apply Forall_app in H as [_ H]. }
  destruct (prune_plain _ _ Hplain Htok) as (old & Hne & Hsplit & Hpk).
  unfold summarize_excess. rewrite Hlim. set (pruned := prune_messages count_tokens (sb_max_token_limit m0) messages) in *.
  assert (take (length messages - length pruned) messages = old) as ->.
  { rewrite Hsplit length_app Nat.add_sub. apply take_app_length. }
  destruct old as [|old1 olds]; [done|]. set (old := old1 :: olds) in *.
  assert (retain_to_window pruned = pruned) as Hret.
  { apply retain_plain. rewrite Hsplit in Hplain. by apply Forall_app in Hplain as [_ ?]. }
  unfold ask. rewrite Hp. set (request := summary_request _ _ _). unfold logged.
  destruct (llm_invoke [Message.human request] (sb_llm m).1) as [r l] eqn:Er. cbv iota beta. rewrite Hret Hmax.
  destruct r as [a|e]; cbn [map_err]; [|destruct (Nat.leb_spec (sb_max_failures m0) (sb_failures m + 1))];
    (split; [done|]); unfold accounted_for; simpl; rewrite failed_snoc /=.
  - split; [|exists pruned, []; rewrite app_nil_r; split_and!; [done|done|simpl; lia|lia]].
    exists (pieces ++ [(true, old)]). rewrite concat_pieces_snoc given_up_snoc pieces_true answered_snoc. split_and!; [by rewrite -Hsplit| |lia].
    exact (summarised_more _ _ _ _ old a Hs).
  - split; [|exists pruned, []; rewrite app_nil_r; split_and!; [done|done|simpl; lia|lia]].
    exists (pieces ++ [(false, old)]). rewrite concat_pieces_snoc given_up_snoc pieces_false answered_snoc app_nil_r.
    split_and!; [by rewrite -Hsplit|exact Hs|]. lia.
  - split.
    + exists pieces. rewrite answered_snoc app_nil_r. split_and!; [done|exact Hs|lia].
    + exists kept, (turns ++ turn_messages t). unfold messages. rewrite Hchat -app_assoc length_app /=. split_and!; [done|done|lia|lia].
Qed.

Lemma save_buffer_turn_accounted m0 ts t m : same_buffer_config m0 m -> accounted_for m0 ts m ->
  exists m', save_buffer_turn m0 t m = (Ok (), m') /\ same_buffer_config m0 m' /\ accounted_for m0 (ts ++ [t]) m'.
Proof.
  intros Hcfg Ha. pose proof Hcfg as (Hi & Ho & Hp & Hlim & Hmax).
  unfold save_buffer_turn, summary_buffer_save. rewrite Hi Ho !lookup_singleton_eq. cbn [missing_key ok_or].
  eexists. split; [reflexivity|]. rewrite Hlim. change [Message.human t.1; Message.ai t.2] with (turn_messages t).
  destruct (Nat.ltb_spec (sb_max_token_limit m0) (tokens (sb_chat_memory m ++ turn_messages t))) as [Ht|Ht].
  - by apply summarize_accounted.
  - split; [done|]. destruct Ha as [(pieces & Hts & Hs & Hg) (kept & turns & Hchat & Hk & Hl & Hf)]. split.
    + exists pieces. split_and!; [|done..]. simpl. by rewrite bind_app Hts -app_assoc.
    + exists (sb_chat_memory m ++ turn_messages t), []. simpl. rewrite app_nil_r. split_and!; [done|done|lia|done].
Qed.

(** A summary buffer keeps within its budget up to the turns of the failures in a row, of
    which there are fewer than its limit; and what has left the history was summarized, in
    order and on top of the summary before it, but for one piece per that many failed
    calls. *)
Theorem summary_buffer_bounded m0 ts :
  fresh_buffer m0 -> exists m, act_iter (save_buffer_turn m0) ts m0 = (Ok (), m) /\ accounted_for m0 ts m.
Proof.
  intros (Hb & Hc & Hf & Hl & Hm).
  assert (exists m, act_iter (save_buffer_turn m0) ts m0 = (Ok (), m) /\ same_buffer_config m0 m /\ accounted_for m0 ts m)
    as (m & ? & _ & ?); [|by eauto].
  induction ts as [|t ts (m & Hm' & Hcfg & Ha)] using rev_ind.
  - exists m0. split_and!; [done..|]. split.
    + exists []. rewrite Hb Hc Hf Hl. split_and!; [done|constructor|done].
    + exists [], []. rewrite Hc Hf. split_and!; [done|simpl; lia|done|lia].
  - destruct (save_buffer_turn_accounted m0 ts t m Hcfg Ha) as (m' & Hs & Hcfg' & Ha'). exists m'.
    split; [|done]. rewrite (act_iter_snoc _ _ _ _ _ Hm'). exact Hs.
Qed.
End theory.
