(* ===== verification/ContextWindow.v ===== *)
(** * Context windows and the context manager ([lc-memory/src/context_window], [context_manager.rs])

    [ContextWindow.fit] cuts a conversation down to a token budget, by dropping its oldest
    messages or by having a chat model summarize them; [ContextManager] composes strategies to
    read, compress, extend and write a history.  The chat model and the tokenizer are
    parameters; token counts are unbounded sums.  What the strategies of a manager share is
    the world [W] they run over. *)

From stdpp Require Import gmap strings list.
From Stdlib Require Import SpecFloat.
From S2P Require Import Prelude Json Message Memory.

(** ** Token counters ([lc-core/src/token_counter/counter.rs]) *)

Record TokenCounter := mkCounter {
  count_tokens : string -> nat;
  count_messages : list Message -> nat;
}.

(** The overhead of a message format, its text and its name, and 1000 for each image; 2 for
    the conversation. *)
Definition message_tokens (tokens : string -> nat) (msg : Message) : nat :=
  4 + tokens (content msg) + match msg_name msg with Some name => tokens name | None => 0 end + 1000 * length (images msg).
Definition count_with (tokens : string -> nat) (messages : list Message) : nat :=
  sum_list_with (message_tokens tokens) messages + 2.

(** [text.len()] counts bytes. *)
Definition CharRatioCounter (ratio : nat) : TokenCounter :=
  let ratio := Nat.max ratio 1 in
  let count_tokens text := String.length text / ratio in
  mkCounter count_tokens (count_with count_tokens).

(** [TiktokenCounter] over the BPE encoder. *)
Definition TiktokenCounter (encode_len : string -> nat) : TokenCounter := mkCounter encode_len (count_with encode_len).

(** What the two counters of the crate have in common, and a caller's own need not have:
    messages cost by themselves, and the conversation costs 2. *)
Class Additive (counter : TokenCounter) := {
  cost : Message -> nat;
  additive : forall messages, count_messages counter messages = 2 + sum_list_with cost messages;
}.
#[export] Instance CharRatioCounter_additive ratio : Additive (CharRatioCounter ratio).
Proof. refine {| cost := message_tokens (count_tokens (CharRatioCounter ratio)) |}. intros l. unfold CharRatioCounter, count_with. cbn. lia. Defined.
#[export] Instance TiktokenCounter_additive encode_len : Additive (TiktokenCounter encode_len).
Proof. refine {| cost := message_tokens encode_len |}. intros l. unfold TiktokenCounter, count_with. cbn. lia. Defined.

(** ** Context windows *)

(** [{conversation}] is replaced wherever it is in the prompt. *)
Fixpoint replace_from (pat rep s : string) (skip : nat) : string :=
  match s with
  | EmptyString => EmptyString
  | String c s' =>
      match skip with
      | S skip => replace_from pat rep s' skip
      | 0 => if starts_with pat s then rep +:+ replace_from pat rep s' (String.length pat - 1)
             else String c (replace_from pat rep s' 0)
      end
  end.
Definition str_replace (pat rep s : string) : string := replace_from pat rep s 0.

Definition SUMMARIZE_PROMPT : string := "Summarize the following conversation concisely, preserving key facts, decisions, and context. Write the summary in the same language as the conversation.

Conversation:
{conversation}

Summary:".

Definition f64_of_usize (n : nat) : spec_float := binary_normalize 53 1024 (Z.of_nat n) 0 false.
(** [as usize] truncates and saturates. *)
Definition usize_of_f64 (f : spec_float) : nat :=
  match f with
  | S754_finite false m e => Z.to_nat (Z.min (2 ^ 64 - 1) (Z.shiftl (Zpos m) e))
  | S754_infinity false => Z.to_nat (2 ^ 64 - 1)
  | _ => 0
  end.
(** [f64::clamp]: a NaN stays one. *)
Definition f64_clamp (lo hi x : spec_float) : spec_float :=
  let x := if SFltb x lo then lo else x in if SFltb hi x then hi else x.

Definition DEFAULT_SUMMARY_RESERVE_RATIO : spec_float := S754_finite false 4503599627370496 (-54).
Definition MAX_SUMMARY_RESERVE_RATIO : spec_float := S754_finite false 4503599627370496 (-53).

Inductive Strategy : Type :=
| Truncate
| Summarize (summary_prompt : string).

Record ContextWindow := mkWindow {
  cw_max_tokens : nat;
  cw_counter : TokenCounter;
  cw_strategy : Strategy;
  cw_summary_reserve_ratio : spec_float;
  cw_summary_reserve_override : option nat;
}.

Fixpoint strip_leading_tool (messages : list Message) : list Message :=
  match messages with
  | [] => []
  | msg :: messages' => if Message.is_tool msg then strip_leading_tool messages' else messages
  end.

Module ContextWindow.

(** Loading the tokenizer may fail. *)
Definition build (encoder : result string (string -> nat)) (max_tokens : nat) (strategy : Strategy) : result MemoryError ContextWindow :=
  encode_len ← map_err (fun e => OtherMemoryError ("Failed to load tiktoken encoder: " +:+ e)) encoder;
  Ok (mkWindow max_tokens (TiktokenCounter encode_len) strategy DEFAULT_SUMMARY_RESERVE_RATIO None).
Definition with_strategy (encoder : result string (string -> nat)) (max_tokens : nat) (strategy : Strategy) : result MemoryError ContextWindow :=
  build encoder max_tokens strategy.
Definition new (encoder : result string (string -> nat)) (max_tokens : nat) : result MemoryError ContextWindow :=
  build encoder max_tokens Truncate.
Definition with_max_tokens (encoder : result string (string -> nat)) (max_tokens : nat) : result MemoryError ContextWindow :=
  new encoder max_tokens.

Definition with_counter (counter : TokenCounter) (w : ContextWindow) : ContextWindow :=
  mkWindow (cw_max_tokens w) counter (cw_strategy w) (cw_summary_reserve_ratio w) (cw_summary_reserve_override w).
Definition with_summary_reserve_tokens (tokens : nat) (w : ContextWindow) : ContextWindow :=
  mkWindow (cw_max_tokens w) (cw_counter w) (cw_strategy w) (cw_summary_reserve_ratio w) (Some tokens).
Definition with_summary_reserve_ratio (ratio : spec_float) (w : ContextWindow) : ContextWindow :=
  mkWindow (cw_max_tokens w) (cw_counter w) (cw_strategy w)
    (f64_clamp (S754_zero false) MAX_SUMMARY_RESERVE_RATIO ratio) (cw_summary_reserve_override w).

Definition summary_reserve (w : ContextWindow) : nat :=
  let raw := default (usize_of_f64 (SFmul 53 1024 (f64_of_usize (cw_max_tokens w)) (cw_summary_reserve_ratio w)))
               (cw_summary_reserve_override w) in
  Nat.min raw (cw_max_tokens w / 2).

Definition message_cost (w : ContextWindow) (message : Message) : nat := count_messages (cw_counter w) [message] - 2.

(** The system messages, and the rest. *)
Definition system_of (messages : list Message) : list Message := filter (fun m => Message.is_system m = true) messages.
Definition others_of (messages : list Message) : list Message := filter (fun m => Message.is_system m = false) messages.

(** *** Truncation *)

(** The walk from the newest message; [kept] is what is kept so far, oldest first. *)
Fixpoint keep_newest (max_tokens running_tokens : nat) (rev_messages : list (Message * nat)) (kept : list Message) : list Message :=
  match rev_messages with
  | [] => kept
  | (msg, cost) :: rest =>
      if running_tokens + cost <=? max_tokens then keep_newest max_tokens (running_tokens + cost) rest (msg :: kept)
      else match kept with
           | [] => keep_newest max_tokens (running_tokens + cost) rest [msg]
           | _ => kept
           end
  end.

Definition truncate (w : ContextWindow) (messages : list Message) : list Message :=
  let other_messages := others_of messages in
  let costs := message_cost w <$> other_messages in
  let kept := keep_newest (cw_max_tokens w) 2 (zip (reverse other_messages) (reverse costs)) [] in
  system_of messages ++ strip_leading_tool kept.

(** *** Summaries *)

Fixpoint split_loop (max_tokens total i : nat) (msg_cost : list nat) : option nat :=
  match msg_cost with
  | [] => if total <=? max_tokens then Some i else None
  | cost :: msg_cost' => if total <=? max_tokens then Some i else split_loop max_tokens (total - cost) (S i) msg_cost'
  end.
Definition split_for (w : ContextWindow) (msg_cost : list nat) (system_cost reserve : nat) : option nat :=
  split_loop (cw_max_tokens w) (2 + system_cost + reserve + sum_list msg_cost) 0 msg_cost.

Section model.
Context {L : Type} (llm_invoke : list Message -> L -> result string string * L).

Definition summary_question (to_summarize : list Message) (summary_prompt : string) : Message :=
  Message.human (str_replace "{conversation}" (history_to_string to_summarize) summary_prompt).
Definition summary_answer (content : string) : Message := Message.system ("[Conversation Summary] " +:+ content).

Definition generate_summary (to_summarize : list Message) (summary_prompt : string) : Act L MemoryError Message := fun l =>
  let '(r, l) := llm_invoke [summary_question to_summarize summary_prompt] l in
  (summary_answer <$> map_err (fun e => SaveError ("LLM summarization failed: " +:+ e)) r, l).

(** The last trim: the oldest of the recent messages go first. *)
Fixpoint trim_recent (w : ContextWindow) (head recent : list Message) : list Message :=
  match recent with
  | [] => []
  | _ :: recent' =>
      if cw_max_tokens w <? count_messages (cw_counter w) (head ++ recent) then trim_recent w head recent' else recent
  end.

Definition summarize (w : ContextWindow) (messages : list Message) (summary_prompt : string) : Act L MemoryError (list Message) :=
  let system_messages := system_of messages in
  let other_messages := others_of messages in
  let all := system_messages ++ other_messages in
  match other_messages with
  | [] => mret system_messages
  | _ =>
      let msg_cost := message_cost w <$> other_messages in
      let system_cost := sum_list (message_cost w <$> system_messages) in
      let reserve := summary_reserve w in
      match split_for w msg_cost system_cost reserve with
      | None => mret (truncate w all)
      | Some keep_from =>
          let to_keep := strip_leading_tool (drop keep_from other_messages) in
          if keep_from =? 0 then mret (system_messages ++ to_keep)
          else
            summary_message ← generate_summary (take keep_from other_messages) summary_prompt;
            let measured := message_cost w summary_message in
            let assemble to_keep :=
              let head := system_messages ++ [summary_message] in
              let candidate := head ++ trim_recent w head to_keep in
              if cw_max_tokens w <? count_messages (cw_counter w) candidate then truncate w all else candidate in
            mret (if reserve <? measured then
                    match split_for w msg_cost system_cost measured with
                    | None => truncate w all
                    | Some rebuilt =>
                        assemble (if keep_from <? rebuilt then strip_leading_tool (drop rebuilt other_messages) else to_keep)
                    end
                  else assemble to_keep)
      end
  end.

Definition fit (w : ContextWindow) (messages : list Message) : Act L MemoryError (list Message) :=
  if count_messages (cw_counter w) messages <=? cw_max_tokens w then mret messages
  else match cw_strategy w with
       | Truncate => mret (truncate w messages)
       | Summarize summary_prompt => summarize w messages summary_prompt
       end.
End model.
End ContextWindow.

(** ** The context manager

    Strategies run over a world [W]; a default method [clear] does nothing.  The buffers that
    strategies share are the cells of a heap, named by their place in it. *)

Record ReadStrategy (W : Type) := mkRead {
  rs_load : gmap string string -> Act W MemoryError (list Message);
  rs_clear : Act W MemoryError ();
}.
Record WriteStrategy (W : Type) := mkWrite {
  ws_save : gmap string string -> gmap string string -> Act W MemoryError ();
  ws_clear : Act W MemoryError ();
}.
Arguments mkRead {W} _ _.
Arguments rs_load {W} _ _.
Arguments rs_clear {W} _.
Arguments mkWrite {W} _ _.
Arguments ws_save {W} _ _ _.
Arguments ws_clear {W} _.
Definition default_clear {W} : Act W MemoryError () := mret ().
Definition CompressStrategy (W : Type) : Type := list Message -> Act W MemoryError (list Message).
Definition RetrieveStrategy (W : Type) : Type := gmap string string -> Act W MemoryError (list Message).

Section manager.
Context {L : Type} (llm_invoke : list Message -> L -> result string string * L).
Context (to_value : Message -> result string JsonValue).

Record Stores := mkStores {
  st_buffers : list BufferMemory;
  st_llm : L;
}.
Definition set_st_buffers (bs : list BufferMemory) (w : Stores) : Stores := mkStores bs (st_llm w).
Definition set_llm (l : L) (w : Stores) : Stores := mkStores (st_buffers w) l.
Definition buffer_at (store : nat) (w : Stores) : BufferMemory := default buffer_new (st_buffers w !! store).
(** [Arc::new(Mutex::new(ConversationBufferMemory::new()))] *)
Definition new_store (w : Stores) : nat * Stores :=
  (length (st_buffers w), set_st_buffers (st_buffers w ++ [buffer_new]) w).

Definition BufferReadStrategy (store : nat) : ReadStrategy Stores :=
  mkRead (fun _inputs w => (Ok (bm_chat_memory (buffer_at store w)), w)) default_clear.
Definition BufferWriteStrategy (store : nat) : WriteStrategy Stores :=
  mkWrite (fun inputs outputs => act_zoom (buffer_at store) (fun m w => set_st_buffers (<[store := m]> (st_buffers w)) w)
                                   (save_context (ConversationBufferMemory to_value) inputs outputs)) default_clear.

Definition PassthroughCompressStrategy : CompressStrategy Stores := fun history => mret history.

(** The oldest go until the rest fits. *)
Fixpoint newest_tail (counter : TokenCounter) (budget_tokens : nat) (candidate : list Message) : list Message :=
  match candidate with
  | [] => []
  | _ :: candidate' =>
      if budget_tokens <? count_messages counter candidate then newest_tail counter budget_tokens candidate' else candidate
  end.
Definition token_budget_compress (budget_tokens : nat) (counter : TokenCounter) (history : list Message) : list Message :=
  let others := ContextWindow.others_of history in
  let candidate :=
    match newest_tail counter budget_tokens others, last others with
    | [], Some newest => [newest]
    | candidate, _ => candidate
    end in
  ContextWindow.system_of history ++ candidate.
Definition TokenBudgetCompressStrategy (budget_tokens : nat) (counter : TokenCounter) : CompressStrategy Stores := fun history =>
  mret (token_budget_compress budget_tokens counter history).
Definition token_budget_default : CompressStrategy Stores := TokenBudgetCompressStrategy 1024 (CharRatioCounter 4).

Definition ContextWindowCompressStrategy (window : ContextWindow) : CompressStrategy Stores := fun history =>
  act_zoom st_llm set_llm (ContextWindow.fit llm_invoke window history).

Record ContextManager := mkManager {
  cm_read : ReadStrategy Stores;
  cm_write : WriteStrategy Stores;
  cm_compress : CompressStrategy Stores;
  cm_retrieve : option (RetrieveStrategy Stores);
  cm_memory_key : string;
  cm_return_messages : bool;
}.

Definition build_variables (m : ContextManager) (history : list Message) : result MemoryError (gmap string JsonValue) :=
  if cm_return_messages m then
    messages ← collect_results (serialize_message_to_prompt to_value) history;
    Ok {[ cm_memory_key m := JArray messages ]}
  else Ok {[ cm_memory_key m := JString (history_to_string history) ]}.

(** Read, compress, retrieve. *)
Definition manager_load (m : ContextManager) (inputs : gmap string string) : Act Stores MemoryError (gmap string JsonValue) :=
  history ← rs_load (cm_read m) inputs;
  history ← cm_compress m history;
  extra ← (match cm_retrieve m with Some retrieve => retrieve inputs | None => mret [] end);
  act_of_result (build_variables m (history ++ extra)).
Definition manager_save (m : ContextManager) (inputs outputs : gmap string string) : Act Stores MemoryError () :=
  ws_save (cm_write m) inputs outputs.
Definition manager_clear (m : ContextManager) : Act Stores MemoryError () :=
  rs_clear (cm_read m) ;; ws_clear (cm_write m).

Record ContextManagerBuilder := mkBuilder {
  cb_read : option (ReadStrategy Stores);
  cb_write : option (WriteStrategy Stores);
  cb_compress : option (CompressStrategy Stores);
  cb_retrieve : option (RetrieveStrategy Stores);
  cb_memory_key : string;
  cb_return_messages : bool;
}.
Definition builder_new : ContextManagerBuilder := mkBuilder None None None None "history" true.
Definition with_read (s : ReadStrategy Stores) (b : ContextManagerBuilder) : ContextManagerBuilder :=
  mkBuilder (Some s) (cb_write b) (cb_compress b) (cb_retrieve b) (cb_memory_key b) (cb_return_messages b).
Definition with_write (s : WriteStrategy Stores) (b : ContextManagerBuilder) : ContextManagerBuilder :=
  mkBuilder (cb_read b) (Some s) (cb_compress b) (cb_retrieve b) (cb_memory_key b) (cb_return_messages b).
Definition with_compress (s : CompressStrategy Stores) (b : ContextManagerBuilder) : ContextManagerBuilder :=
  mkBuilder (cb_read b) (cb_write b) (Some s) (cb_retrieve b) (cb_memory_key b) (cb_return_messages b).
Definition with_retrieve (s : RetrieveStrategy Stores) (b : ContextManagerBuilder) : ContextManagerBuilder :=
  mkBuilder (cb_read b) (cb_write b) (cb_compress b) (Some s) (cb_memory_key b) (cb_return_messages b).
Definition with_memory_key (key : string) (b : ContextManagerBuilder) : ContextManagerBuilder :=
  mkBuilder (cb_read b) (cb_write b) (cb_compress b) (cb_retrieve b) key (cb_return_messages b).
Definition with_return_messages (v : bool) (b : ContextManagerBuilder) : ContextManagerBuilder :=
  mkBuilder (cb_read b) (cb_write b) (cb_compress b) (cb_retrieve b) (cb_memory_key b) v.

(** Only when neither is given do the default reader and writer share a store. *)
Definition build_manager (b : ContextManagerBuilder) (w : Stores) : ContextManager * Stores :=
  let '(read, write, w) :=
    match cb_read b, cb_write b with
    | None, None => let '(store, w) := new_store w in (BufferReadStrategy store, BufferWriteStrategy store, w)
    | Some read, None => let '(store, w) := new_store w in (read, BufferWriteStrategy store, w)
    | None, Some write => let '(store, w) := new_store w in (BufferReadStrategy store, write, w)
    | Some read, Some write => (read, write, w)
    end in
  (mkManager read write (default PassthroughCompressStrategy (cb_compress b)) (cb_retrieve b) (cb_memory_key b) (cb_return_messages b), w).
End manager.
Arguments Stores : clear implicits.
Arguments ContextManager : clear implicits.

(** ** What fits *)

Section fitting.
Context {L : Type} (llm_invoke : list Message -> L -> result string string * L).
Context (w : ContextWindow) `{Additive (cw_counter w)}.
Notation max := (cw_max_tokens w).
Notation total := (sum_list_with cost).
Import ContextWindow.

Lemma message_cost_is m : message_cost w m = cost m.
Proof. unfold message_cost. rewrite additive. cbn. lia. Qed.
Lemma costs_are (l : list Message) : message_cost w <$> l = cost <$> l.
Proof. apply list_fmap_ext. intros _ m _. apply message_cost_is. Qed.
Lemma sum_costs (l : list Message) : sum_list (cost <$> l) = total l.
Proof. induction l as [|m l IH]; [done|]. cbn. by rewrite IH. Qed.
Lemma cost_total_app l1 l2 : total (l1 ++ l2) = total l1 + total l2.
Proof. apply sum_list_with_app. Qed.

Lemma keep_overfull running rest kept : kept <> [] -> max < running -> keep_newest max running rest kept = kept.
Proof.
  intros Hk Hr. destruct rest as [|[m c] rest]; [done|]. cbn. destruct (Nat.leb_spec (running + c) max); [lia|]. by destruct kept.
Qed.

Lemma keep_more l kept : kept <> [] -> 2 + total kept <= max ->
  exists l1 l2, l = l1 ++ l2 /\ keep_newest max (2 + total kept) (zip l (cost <$> l)) kept = reverse l1 ++ kept /\
    2 + total (reverse l1 ++ kept) <= max /\ forall m l2', l2 = m :: l2' -> max < 2 + cost m + total (reverse l1 ++ kept).
Proof.
  revert kept. induction l as [|m l IH]; intros kept Hk Hfit.
  - exists [], []. done.
  - cbn [fmap list_fmap zip keep_newest]. destruct (Nat.leb_spec (2 + total kept + cost m) max) as [Hm|Hm].
    + destruct (IH (m :: kept)) as (l1 & l2 & -> & E & Hf & Hl); [done|simpl; lia|].
      exists (m :: l1), l2. split; [done|]. rewrite reverse_cons -app_assoc /=. split_and!; [|done|done].
      rewrite -E. f_equal. simpl. lia.
    + exists [], (m :: l). split; [done|]. split_and!; [by destruct kept|done|]. intros m' l2' [= <- _]. cbn. lia.
Qed.

(** The newest messages that fit, or the newest alone. *)
Definition newest_fitting (others kept : list Message) : Prop :=
  (exists dropped, others = dropped ++ kept /\ (kept = [] -> others = []) /\ (2 <= max -> 2 + total kept <= max) /\
     forall d m, dropped = d ++ [m] -> max < 2 + cost m + total kept) \/
  (exists dropped m, others = dropped ++ [m] /\ kept = [m] /\ max < 2 + cost m).

Lemma keep_newest_spec others :
  newest_fitting others (keep_newest max 2 (zip (reverse others) (reverse (cost <$> others))) []).
Proof.
  assert (reverse (cost <$> others) = cost <$> reverse others) as -> by by rewrite fmap_reverse.
  rewrite -{1}(reverse_involutive others). destruct (reverse others) as [|m l] eqn:El; cbn [fmap list_fmap zip keep_newest].
  - left. exists []. split_and!; try done. by intros [] ?.
  - destruct (Nat.leb_spec (2 + cost m) max) as [Hm|Hm].
    + left. destruct (keep_more l [m]) as (l1 & l2 & -> & E & Hf & Hl); [done|simpl; lia|].
      replace (2 + cost m) with (2 + total [m]) by (simpl; lia). rewrite E. exists (reverse l2). split_and!.
      * by rewrite reverse_cons reverse_app -app_assoc.
      * intros Hn. by destruct (reverse l1).
      * done.
      * intros d m' Hd. apply (Hl m' (reverse d)). by rewrite -(reverse_involutive l2) Hd reverse_app.
    + right. rewrite keep_overfull //. exists (reverse l), m. by rewrite reverse_cons.
Qed.

(** Truncation keeps the system messages and, without the tool results it would open on, the
    newest of the others. *)
Definition truncated (messages result : list Message) : Prop :=
  exists kept, newest_fitting (others_of messages) kept /\ result = system_of messages ++ strip_leading_tool kept.

Lemma truncate_spec messages : truncated messages (truncate w messages).
Proof. unfold truncated, truncate. rewrite costs_are. eexists. split; [apply keep_newest_spec|done]. Qed.

Lemma system_of_app l1 l2 : system_of (l1 ++ l2) = system_of l1 ++ system_of l2.
Proof. apply filter_app. Qed.
Lemma truncate_rearranged messages : truncate w (system_of messages ++ others_of messages) = truncate w messages.
Proof.
  assert (system_of (system_of messages ++ others_of messages) = system_of messages) as E1.
  { rewrite /system_of filter_app (filter_all _ (filter _ messages)); [|by intros m [? _]%list_elem_of_filter].
    rewrite (filter_out _ (others_of messages)) ?app_nil_r //. intros m [Hm _]%list_elem_of_filter. congruence. }
  assert (others_of (system_of messages ++ others_of messages) = others_of messages) as E2.
  { rewrite /others_of filter_app (filter_out _ (system_of messages)); [|intros m [Hm _]%list_elem_of_filter; congruence].
    apply filter_all. by intros m [? _]%list_elem_of_filter. }
  unfold truncate. by rewrite E1 E2.
Qed.

Lemma split_loop_spec base i costs :
  match split_loop max (base + sum_list costs) i costs with
  | Some k => exists j, k = i + j /\ j <= length costs /\ base + sum_list (drop j costs) <= max /\
      forall j', j' < j -> max < base + sum_list (drop j' costs)
  | None => max < base
  end.
Proof.
  revert i. induction costs as [|c costs IH]; intros i; cbn [split_loop sum_list_with id].
  - destruct (Nat.leb_spec (base + 0) max); [|lia]. exists 0. split_and!; [lia|done|cbn; lia|lia].
  - destruct (Nat.leb_spec (base + (c + sum_list costs)) max).
    + exists 0. split_and!; [lia|cbn; lia|cbn; lia|lia].
    + replace (base + (c + sum_list costs) - c) with (base + sum_list costs) by lia.
      specialize (IH (S i)). destruct (split_loop _ _ _ _) as [k|]; [|done].
      destruct IH as (j & -> & Hj & Hf & Hl). exists (S j). split_and!; [lia|cbn; lia|done|].
      intros [|j'] Hj'; cbn; [lia|]. apply Hl. lia.
Qed.

Lemma split_for_spec others system_cost reserve :
  match split_for w (cost <$> others) system_cost reserve with
  | Some k => k <= length others /\ 2 + system_cost + reserve + total (drop k others) <= max /\
      forall j, j < k -> max < 2 + system_cost + reserve + total (drop j others)
  | None => max < 2 + system_cost + reserve
  end.
Proof.
  unfold split_for. pose proof (split_loop_spec (2 + system_cost + reserve) 0 (cost <$> others)) as Hs.
  destruct (split_loop _ _ _ _) as [k|]; [|done]. destruct Hs as (j & -> & Hj & Hf & Hl). rewrite length_fmap in Hj.
  rewrite -fmap_drop sum_costs in Hf. split_and!; [done|done|]. intros j' Hj'. rewrite -sum_costs fmap_drop. by apply Hl.
Qed.

Lemma total_strip l : total (strip_leading_tool l) <= total l.
Proof. induction l as [|m l IH]; [done|]. cbn. destruct (Message.is_tool m); cbn; lia. Qed.

Lemma trim_fits head recent : count_messages (cw_counter w) (head ++ recent) <= max -> trim_recent w head recent = recent.
Proof. intros Hf. destruct recent as [|m recent]; [done|]. cbn [trim_recent]. apply Nat.ltb_ge in Hf. by rewrite Hf. Qed.

(** What a window makes of a conversation that is asked about in the model state [l]: all of
    it; its newest messages, for lack of room; or a summary of its first [i] messages and the
    messages from the [j]th on. *)
Inductive fitted (l : L) (messages : list Message) : list Message -> Prop :=
| fitted_whole : count_messages (cw_counter w) messages <= max -> fitted l messages messages
| fitted_truncated result :
    truncated messages result ->
    cw_strategy w = Truncate \/ others_of messages = [] \/ max < 2 + total (system_of messages) + summary_reserve w \/
    (exists prompt i s, (llm_invoke [summary_question (take i (others_of messages)) prompt] l).1 = Ok s /\
       max < 2 + total (system_of messages) + cost (summary_answer s)) ->
    fitted l messages result
| fitted_summarized prompt i j s result :
    cw_strategy w = Summarize prompt -> 0 < i <= j -> j <= length (others_of messages) ->
    (llm_invoke [summary_question (take i (others_of messages)) prompt] l).1 = Ok s ->
    result = system_of messages ++ summary_answer s :: strip_leading_tool (drop j (others_of messages)) ->
    count_messages (cw_counter w) result <= max ->
    fitted l messages result.

(** The summary with a window that fits is returned as it is. *)
Lemma assembled messages prompt i j s l :
  cw_strategy w = Summarize prompt -> 0 < i <= j -> j <= length (others_of messages) ->
  (llm_invoke [summary_question (take i (others_of messages)) prompt] l).1 = Ok s ->
  2 + total (system_of messages) + cost (summary_answer s) + total (drop j (others_of messages)) <= max ->
  let head := system_of messages ++ [summary_answer s] in
  let recent := strip_leading_tool (drop j (others_of messages)) in
  let candidate := head ++ trim_recent w head recent in
  fitted l messages (if max <? count_messages (cw_counter w) candidate
                     then truncate w messages else candidate).
Proof.
  intros Hs Hij Hj Ha Hf head recent candidate.
  assert (count_messages (cw_counter w) (head ++ recent) <= max) as Hfit.
  { rewrite additive !cost_total_app. pose proof (total_strip (drop j (others_of messages))). unfold recent. simpl. lia. }
  unfold candidate. rewrite trim_fits //. apply Nat.ltb_ge in Hfit as Hfit'. rewrite Hfit'.
  apply (fitted_summarized l messages prompt i j s); [done..| |done]. unfold head. by rewrite -app_assoc.
Qed.

Lemma summarize_outcome messages prompt l :
  cw_strategy w = Summarize prompt -> max < count_messages (cw_counter w) messages ->
  match summarize llm_invoke w messages prompt l with
  | (Ok result, _) => fitted l messages result
  | (Err e, _) => exists i e', (llm_invoke [summary_question (take i (others_of messages)) prompt] l).1 = Err e' /\
      e = SaveError ("LLM summarization failed: " +:+ e')
  end.
Proof.
  intros Hs Hmax. unfold summarize. rewrite truncate_rearranged !costs_are sum_costs. pose proof (truncate_spec messages) as Ht.
  destruct (others_of messages) as [|o os] eqn:Eo.
  { cbn. apply fitted_truncated; [|by auto]. exists []. rewrite Eo. split; [|by rewrite app_nil_r].
    left. exists []. split_and!; try done. by intros [] ?. }
  rewrite -Eo in Ht |- *. pose proof (split_for_spec (others_of messages) (total (system_of messages)) (summary_reserve w)) as Hk.
  destruct (split_for w _ _ (summary_reserve w)) as [k|] eqn:Ek; [|apply fitted_truncated; by auto].
  destruct Hk as (Hk & Hkf & _). destruct (Nat.eqb_spec k 0) as [->|Hk0].
  { exfalso. rewrite additive in Hmax. rewrite drop_0 in Hkf.
    assert (total messages = total (system_of messages) + total (others_of messages)); [|lia].
    clear. unfold system_of, others_of. induction messages as [|m ms IH]; [done|]. rewrite !filter_cons.
    destruct (Message.is_system m); repeat case_decide; try done; simpl; lia. }
  unfold mbind, act_bind, generate_summary.
  destruct (llm_invoke [summary_question (take k (others_of messages)) prompt] l) as [[s|e'] l'] eqn:El; cbn [map_err fmap result_fmap].
  2: { exists k, e'. by rewrite El. }
  rewrite message_cost_is. unfold mret, act_ret.
  destruct (Nat.ltb_spec (summary_reserve w) (cost (summary_answer s))) as [Hm|Hm].
  2: { apply (assembled messages prompt k k); [done|lia|done|by erewrite El|lia]. }
  pose proof (split_for_spec (others_of messages) (total (system_of messages)) (cost (summary_answer s))) as Hr.
  destruct (split_for w _ _ (cost (summary_answer s))) as [r|] eqn:Er.
  - destruct Hr as (Hr & Hrf & Hrl). destruct (Nat.ltb_spec k r) as [Hkr|Hkr].
    + apply (assembled messages prompt k r); [done|lia|done|by erewrite El|lia].
    + assert (r = k) as ->. { destruct (Nat.lt_ge_cases r k) as [Hlt|]; [|lia]. 
        pose proof (split_for_spec (others_of messages) (total (system_of messages)) (summary_reserve w)) as Hk'.
        rewrite Ek in Hk'. destruct Hk' as (_ & _ & Hkl). specialize (Hkl r Hlt). lia. }
      apply (assembled messages prompt k k); [done|lia|done|by erewrite El|lia].
  - apply fitted_truncated; [done|]. do 3 right. exists prompt, k, s. rewrite El. done.
Qed.

(** C35: With a counter for which messages cost by themselves, as those of the crate, a context
    window gives back a conversation that is within its budget as it is, and
    otherwise its system messages with the longest run of newest messages that fits (the newest
    alone if it does not fit), or with a summary of its older messages and a run of newest ones
    within the budget; in both cases without the tool results that the run opens on, so that
    nothing is left of a run of tool results ([newest_tool_emptied]).  A window that
    summarizes truncates only where the summary cannot fit, and its one error is that of the
    model. *)
Theorem fit_outcome messages l :
  match fit llm_invoke w messages l with
  | (Ok result, _) => fitted l messages result
  | (Err e, _) => exists prompt i e', cw_strategy w = Summarize prompt /\
      (llm_invoke [summary_question (take i (others_of messages)) prompt] l).1 = Err e' /\
      e = SaveError ("LLM summarization failed: " +:+ e')
  end.
Proof.
  unfold fit. destruct (Nat.leb_spec (count_messages (cw_counter w) messages) max) as [Hf|Hf]; [by constructor|].
  destruct (cw_strategy w) as [|prompt] eqn:Es.
  - apply fitted_truncated; [apply truncate_spec|by left].
  - pose proof (summarize_outcome messages prompt l Es Hf) as Ho.
    destruct (summarize llm_invoke w messages prompt l) as [[result|e] l']; [done|].
    destruct Ho as (i & e' & ? & ?). by exists prompt, i, e'.
Qed.
End fitting.

(** ** Managers at work *)

Section managers.
Context {L : Type} (to_value : Message -> result string JsonValue).
Notation W := (Stores L).

(** The default manager is a buffer memory that returns messages, except that clearing it
    does nothing. *)
Definition default_manager (w : W) : ContextManager L * W := build_manager to_value builder_new w.

Definition as_buffer (w : W) : BufferMemory := BufferMemory.with_return_messages true (buffer_at (length (st_buffers w)) (default_manager w).2).

Lemma default_manager_saves w w' inputs outputs :
  st_buffers w' !! length (st_buffers w) = Some (buffer_at (length (st_buffers w)) w') ->
  let store := length (st_buffers w) in
  let '(r, w2) := manager_save (default_manager w).1 inputs outputs w' in
  (r, buffer_at store w2) = save_context (ConversationBufferMemory to_value) inputs outputs (buffer_at store w') /\
  st_buffers w2 !! store = Some (buffer_at store w2).
Proof.
  intros Hw. unfold manager_save, default_manager, build_manager. cbn [builder_new cb_read cb_write new_store fst cm_write ws_save BufferWriteStrategy].
  unfold act_zoom. destruct (save_context _ _ _ _) as [r m]. unfold buffer_at. cbn [set_st_buffers st_buffers].
  rewrite list_lookup_insert_eq; [done|]. by eapply lookup_lt_Some.
Qed.

Lemma default_manager_loads w w' inputs :
  (manager_load to_value (default_manager w).1 inputs w').1 =
  load_history to_value true "history" (bm_chat_memory (buffer_at (length (st_buffers w)) w')).
Proof.
  transitivity (build_variables to_value (default_manager w).1 (bm_chat_memory (buffer_at (length (st_buffers w)) w') ++ [])).
  - reflexivity.
  - by rewrite app_nil_r.
Qed.

(** Clearing a manager that was built by default changes nothing, however often it saved. *)
Lemma default_clear_keeps w w' : manager_clear (default_manager w).1 w' = (Ok (), w').
Proof. done. Qed.
End managers.

Section budget.
Context (counter : TokenCounter) `{Additive counter} (budget : nat).
Notation w := (mkWindow budget counter Truncate DEFAULT_SUMMARY_RESERVE_RATIO None).
Notation total := (sum_list_with cost).

Lemma newest_tail_spec l : exists dropped, l = dropped ++ newest_tail counter budget l /\
  (2 <= budget -> 2 + total (newest_tail counter budget l) <= budget) /\
  forall d m, dropped = d ++ [m] -> budget < 2 + cost m + total (newest_tail counter budget l).
Proof.
  induction l as [|x l (dropped & IHe & IHf & IHl)]; [exists []; split_and!; [done|cbn; lia|by intros [] ?]|].
  cbn [newest_tail]. rewrite additive. destruct (Nat.ltb_spec budget (2 + total (x :: l))) as [Hb|Hb].
  - exists (x :: dropped). split_and!; [by rewrite /= -IHe|done|]. intros d m Hd.
    destruct dropped as [|y dropped], d as [|z d]; simplify_eq/=; [|by destruct d|by apply (IHl d)].
    cbn in IHe. rewrite -IHe. simpl in Hb. lia.
  - exists []. split_and!; [done|done|by intros [] ?].
Qed.

(** The budget strategy keeps what truncation keeps, and opens on tool results. *)
Lemma token_budget_newest history : exists kept, newest_fitting w (ContextWindow.others_of history) kept /\
  token_budget_compress budget counter history = ContextWindow.system_of history ++ kept.
Proof.
  unfold token_budget_compress. set (others := ContextWindow.others_of history). eexists. split; [|done].
  destruct (newest_tail_spec others) as (dropped & He & Hf & Hl).
  destruct (newest_tail counter budget others) as [|k ks] eqn:E.
  - rewrite app_nil_r in He. rewrite He in Hl |- *. clear He E. destruct dropped as [|m d _] using rev_ind.
    + left. exists []. split_and!; try done.
    + rewrite last_snoc. specialize (Hl d m eq_refl). cbn in Hl. right. exists d, m. split_and!; [done|done|cbn; lia].
  - left. exists dropped. split_and!; [done|done|exact Hf|exact Hl].
Qed.
End budget.

(** ** At work *)

(** One token per byte; four messages of 24 tokens; a model that keeps what it was asked. *)
Definition bytes_counter : TokenCounter := CharRatioCounter 1.
Definition speaking (c : string) : Message := Message.human (c +:+ " said twenty bytes..").
Definition four_said : list Message := [speaking "a"; speaking "b"; speaking "c"; speaking "d"].
Definition terse (messages : list Message) (asked : list string) : result string string * list string :=
  (Ok "s", asked ++ (content <$> messages)).
Definition texts (x : result MemoryError (list Message) * list string) : result MemoryError (list string) * list string :=
  ((fun l : list Message => content <$> l) <$> x.1, x.2).
Definition summarizing (max_tokens reserve : nat) : ContextWindow :=
  mkWindow max_tokens bytes_counter (Summarize "{conversation}") DEFAULT_SUMMARY_RESERVE_RATIO (Some reserve).

Example default_reserve_quarter :
  ContextWindow.summary_reserve (mkWindow 4098 bytes_counter Truncate DEFAULT_SUMMARY_RESERVE_RATIO None) = 1024.
Proof. by vm_compute. Qed.

(** A summary larger than its reservation moves the window past messages that it does not
    cover: [b] is neither in the question nor in the result. *)
Example outgrown_summary_loses_messages :
  texts (ContextWindow.fit terse (summarizing 90 1) four_said []) =
  (Ok ["[Conversation Summary] s"; "c said twenty bytes.."; "d said twenty bytes.."], ["Human: a said twenty bytes.."]).
Proof. by vm_compute. Qed.

(** With room for its summary the window keeps what the summary does not cover. *)
Example reserved_summary_keeps_messages :
  texts (ContextWindow.fit terse (summarizing 82 28) four_said []) =
  (Ok ["[Conversation Summary] s"; "c said twenty bytes.."; "d said twenty bytes.."],
   ["Human: a said twenty bytes.." +:+ newline +:+ "Human: b said twenty bytes.."]).
Proof. by vm_compute. Qed.

Definition tool_reply : Message := Message.tool "call-1" "result".

(** A newest tool result that does not fit is kept alone and then dropped: nothing is left. *)
Example newest_tool_emptied :
  ContextWindow.truncate (mkWindow 8 bytes_counter Truncate DEFAULT_SUMMARY_RESERVE_RATIO None) [speaking "a"; tool_reply] = [].
Proof. by vm_compute. Qed.
Definition asked_tool : list Message := [speaking "a"; tool_reply; speaking "b"].

(** The budget strategy opens on a tool result that truncation drops. *)
Example budget_opens_on_tool :
  Message.is_tool <$> token_budget_compress 40 bytes_counter asked_tool = [true; false] /\
  Message.is_tool <$> ContextWindow.truncate (mkWindow 40 bytes_counter Truncate DEFAULT_SUMMARY_RESERVE_RATIO None) asked_tool = [false].
Proof. by vm_compute. Qed.
