(* ===== verification/PromptRegistry.v ===== *)
(** * The versioned prompt registry ([crates/lc-prompts/src/registry.rs])

    [PromptRegistry] maps a namespace to its [Namespace]: the records by version number
    and the index of versions by content hash.  Every operation takes the lock once, so
    it is one step on the registry; [rollback] takes it twice, and is a [resolve]
    followed by a [register].

    The hash is the third-party SHA-256: [digest] gives the digest bytes of a text.  A
    [None] outcome is a panic ([expect], or indexing a map at a missing key).  Version
    numbers are [u32]s and the increment wraps, as in a release build. *)

From stdpp Require Import gmap sorting strings list.
From Stdlib Require Import Ascii.
From S2P Require Import Prelude TemplateParser PromptTemplate.

Definition MIN_HASH_PREFIX : nat := 7.

Inductive VersionSpec : Type :=
| Latest
| Number (version : N)
| Hash (hash : string).

Record RegisteredPrompt := mkRegisteredPrompt {
  rp_namespace : string;
  rp_version : N;
  rp_hash : string;
  rp_template : string;
  rp_variables : list string;
}.

Record PromptVersionInfo := mkPromptVersionInfo {
  pv_version : N;
  pv_hash : string;
}.

Record Namespace := mkNamespace {
  versions : gmap N RegisteredPrompt;
  hashes : gmap string (list N);
}.

Definition empty_namespace : Namespace := mkNamespace ∅ ∅.

Definition PromptRegistry : Type := gmap string Namespace.

(** The iteration of a [BTreeMap], by ascending key, and its last entry. *)
Definition version_entry_le (x y : N * RegisteredPrompt) : bool := (x.1 <=? y.1)%N.
Definition version_entries (ns : Namespace) : list (N * RegisteredPrompt) :=
  sort_by version_entry_le (map_to_list (versions ns)).
Definition last_key_value (ns : Namespace) : option (N * RegisteredPrompt) := last (version_entries ns).

Definition hash_entry_le (x y : string * list N) : bool := String.leb x.1 y.1.
Definition hash_entries (ns : Namespace) : list (string * list N) :=
  sort_by hash_entry_le (map_to_list (hashes ns)).

(** ** Names and references *)

Definition is_namespace_char (c : ascii) : bool :=
  is_ascii_alphanumeric c || bool_decide (c = "."%char) || bool_decide (c = "_"%char) ||
  bool_decide (c = "-"%char).

Definition validate_namespace (namespace : string) : result PromptsError () :=
  if negb (namespace =ₛ "") && (String.length namespace <=? 128) &&
     forallb (fun segment => negb (segment =ₛ "") && str_forall is_namespace_char segment)
       (split_at "/"%char namespace)
  then Ok ()
  else Err (InvalidNamespace namespace).

(** The [match] on [reference.rsplit_once('@')]; the guard [!reference.contains('@')]
    holds when the split finds nothing. *)
Definition split_reference (reference : string) : result PromptsError (string * option string) :=
  match rsplit_once "@"%char reference with
  | Some (ns, spec) =>
      if negb (ns =ₛ "") && negb (spec =ₛ "") then Ok (ns, Some spec)
      else Err (InvalidReference reference)
  | None =>
      if negb (reference =ₛ "") then Ok (reference, None) else Err (InvalidReference reference)
  end.

Definition parse_spec (reference : string) (raw_spec : option string) : result PromptsError VersionSpec :=
  match raw_spec with
  | None => Ok Latest
  | Some raw =>
      if raw =ₛ "latest" then Ok Latest
      else
        match parse_unsigned 32 raw with
        | Some number => Ok (Number number)
        | None =>
            match strip_prefix "hash:" raw with
            | Some hex => Ok (Hash hex)
            | None =>
                if negb (raw =ₛ "") && str_forall is_ascii_hexdigit raw then Ok (Hash raw)
                else Err (InvalidReference reference)
            end
        end
  end.

Definition parse_reference (reference : string) : result PromptsError (string * VersionSpec) :=
  '(namespace, raw_spec) ← split_reference reference;
  validate_namespace namespace ;;
  spec ← parse_spec reference raw_spec;
  Ok (namespace, spec).

(** ** Looking a hash up *)

Definition sort_versions (l : list N) : list N := sort_by N.leb l.

(** The loop over the hash index: the exact match and the prefix matches. *)
Fixpoint match_hashes (prefix : string) (entries : list (string * list N)) (exact : option N)
    (prefix_matches : list N) : option (option N * list N) :=
  match entries with
  | [] => Some (exact, prefix_matches)
  | (hash, vs) :: entries' =>
      if hash =ₛ prefix then
        newest ← last vs;
        match_hashes prefix entries' (Some newest) prefix_matches
      else if starts_with prefix hash then
        newest ← last vs;
        match_hashes prefix entries' exact (prefix_matches ++ [newest])
      else match_hashes prefix entries' exact prefix_matches
  end.

Definition resolve_hash_version (entry : Namespace) (prefix : string) : option (result PromptsError N) :=
  if String.length prefix <? MIN_HASH_PREFIX then Some (Err (HashNotFound prefix))
  else
    '(exact, prefix_matches) ← match_hashes prefix (hash_entries entry) None [];
    Some match exact with
         | Some version => Ok version
         | None =>
             match prefix_matches with
             | [] => Err (HashNotFound prefix)
             | [version] => Ok version
             | _ => Err (AmbiguousHash prefix (sort_versions prefix_matches))
             end
         end.

(** Two lowercase hexadecimal digits per byte of the digest. *)
Definition content_hash (digest : string -> list N) (template : string) : string :=
  foldr (fun byte hex => hex_digits 2 byte +:+ hex) "" (digest template).

Definition to_template `{Unicode} (r : RegisteredPrompt) : PromptTemplate := PromptTemplate.new (rp_template r).

(** ** The operations *)

Module PromptRegistry.
Section ops.
Context `{U : Unicode}.
Context (digest : string -> list N).

Definition new : PromptRegistry := ∅.

Definition register (namespace template : string) (w : PromptRegistry)
    : result PromptsError RegisteredPrompt * PromptRegistry :=
  match validate_namespace namespace with
  | Err e => (Err e, w)
  | Ok _ =>
      let hash := content_hash digest template in
      let variables := PromptTemplate.variables (PromptTemplate.new template) in
      let entry := default empty_namespace (w !! namespace) in
      let publish :=
        let version :=
          match last_key_value entry with Some (v, _) => ((v + 1) mod 2 ^ 32)%N | None => 1%N end in
        let record := mkRegisteredPrompt namespace version hash template variables in
        let entry :=
          mkNamespace (<[version := record]> (versions entry))
            (<[hash := default [] (hashes entry !! hash) ++ [version]]> (hashes entry)) in
        (Ok record, <[namespace := entry]> w) in
      match last_key_value entry with
      | Some (_, latest) =>
          if rp_hash latest =ₛ hash then (Ok latest, <[namespace := entry]> w) else publish
      | None => publish
      end
  end.

Definition resolve (namespace : string) (spec : VersionSpec) (w : PromptRegistry)
    : option (result PromptsError RegisteredPrompt) :=
  match w !! namespace with
  | None => Some (Err (NamespaceNotFound namespace))
  | Some entry =>
      version ←
        match spec with
        | Latest => '(v, _) ← last_key_value entry; Some (Ok v)
        | Number n =>
            match versions entry !! n with
            | Some _ => Some (Ok n)
            | None => Some (Err (VersionNotFound namespace n))
            end
        | Hash prefix => resolve_hash_version entry prefix
        end;
      match version with
      | Err e => Some (Err e)
      | Ok version => record ← versions entry !! version; Some (Ok record)
      end
  end.

Definition get (namespace : string) (w : PromptRegistry) : option (result PromptsError RegisteredPrompt) :=
  resolve namespace Latest w.

Definition resolve_ref (reference : string) (w : PromptRegistry)
    : option (result PromptsError RegisteredPrompt) :=
  match parse_reference reference with
  | Err e => Some (Err e)
  | Ok (namespace, spec) => resolve namespace spec w
  end.

Definition fetch (reference : string) (w : PromptRegistry) : option (result PromptsError PromptTemplate) :=
  r ← resolve_ref reference w;
  Some (record ← r; Ok (to_template record)).

Definition rollback (namespace : string) (target_version : N) : Run PromptRegistry PromptsError RegisteredPrompt :=
  fun w =>
    target ← resolve namespace (Number target_version) w;
    Some match target with
         | Err e => (Err e, w)
         | Ok target => register namespace (rp_template target) w
         end.

Definition history (namespace : string) (w : PromptRegistry) : result PromptsError (list PromptVersionInfo) :=
  match w !! namespace with
  | None => Err (NamespaceNotFound namespace)
  | Some entry => Ok ((fun x => mkPromptVersionInfo (rp_version x.2) (rp_hash x.2)) <$> version_entries entry)
  end.

Definition namespaces (w : PromptRegistry) : list string := sort_by String.leb (map_to_list w).*1.
Definition len (w : PromptRegistry) : nat := size w.
Definition is_empty (w : PromptRegistry) : bool := len w =? 0.

End ops.
End PromptRegistry.

(** * The registry is an append-only log of texts

    The specification of the registry is a [Log]: for each namespace, the texts
    published there, the first being version 1.  [registry_refines_log] runs any
    sequence of calls side by side on the registry and on the log; [registered_is_pinned]
    is the audit trail: what was once registered stays addressable, unchanged, by number
    and by hash, and a rollback publishes it again. *)

Section spec.
Context `{U : Unicode}.
Context (digest : string -> list N).
Notation hash := (content_hash digest).

(** ** The specification *)

Definition Log : Type := gmap string (list string).

Definition numbered (l : list string) : list (N * string) := imap (fun i t => (N.of_nat (S i), t)) l.

Definition record_of (ns : string) (v : N) (t : string) : RegisteredPrompt :=
  mkRegisteredPrompt ns v (hash t) t (PromptTemplate.variables (PromptTemplate.new t)).

(** The versions that carry the content with a hash, oldest first. *)
Definition positions (h : string) (l : list string) : list N :=
  (filter (fun x => hash x.2 = h) (numbered l)).*1.

Definition text_at (l : list string) (v : N) : option string :=
  if bool_decide (v = 0%N) then None else l !! N.to_nat (N.pred v).

Definition log_register (ns t : string) (log : Log) : result PromptsError RegisteredPrompt * Log :=
  match validate_namespace ns with
  | Err e => (Err e, log)
  | Ok _ =>
      let l := default [] (log !! ns) in
      match last l with
      | Some latest =>
          if hash latest =ₛ hash t then (Ok (record_of ns (N.of_nat (length l)) latest), log)
          else (Ok (record_of ns (N.of_nat (S (length l))) t), <[ns := l ++ [t]]> log)
      | None => (Ok (record_of ns (N.of_nat (S (length l))) t), <[ns := l ++ [t]]> log)
      end
  end.

(** The versions whose hash starts with a prefix, each hash by its newest version. *)
Definition candidates (prefix : string) (l : list string) : list N :=
  (filter (fun x => starts_with prefix (hash x.2) = true /\ last (positions (hash x.2) l) = Some x.1)
    (numbered l)).*1.

Definition log_resolve_hash (prefix : string) (l : list string) : result PromptsError N :=
  if String.length prefix <? MIN_HASH_PREFIX then Err (HashNotFound prefix)
  else
    match last (positions prefix l) with
    | Some v => Ok v
    | None =>
        match candidates prefix l with
        | [] => Err (HashNotFound prefix)
        | [v] => Ok v
        | vs => Err (AmbiguousHash prefix vs)
        end
    end.

Definition log_resolve (ns : string) (spec : VersionSpec) (log : Log) : result PromptsError RegisteredPrompt :=
  match log !! ns with
  | None => Err (NamespaceNotFound ns)
  | Some l =>
      v ← match spec with
          | Latest => Ok (N.of_nat (length l))
          | Number n => Ok n
          | Hash prefix => log_resolve_hash prefix l
          end;
      match text_at l v with
      | Some t => Ok (record_of ns v t)
      | None => Err (VersionNotFound ns v)
      end
  end.

Definition log_rollback (ns : string) (v : N) (log : Log) : result PromptsError RegisteredPrompt * Log :=
  match log_resolve ns (Number v) log with
  | Err e => (Err e, log)
  | Ok target => log_register ns (rp_template target) log
  end.

Definition log_history (ns : string) (log : Log) : result PromptsError (list PromptVersionInfo) :=
  match log !! ns with
  | None => Err (NamespaceNotFound ns)
  | Some l => Ok ((fun x => mkPromptVersionInfo x.1 (hash x.2)) <$> numbered l)
  end.

(** ** The calls of the two sides *)

Inductive Request : Type :=
| Register (ns t : string)
| Resolve (ns : string) (spec : VersionSpec)
| ResolveRef (reference : string)
| Fetch (reference : string)
| Rollback (ns : string) (version : N)
| History (ns : string)
| Namespaces
| Count.

Inductive Reply : Type :=
| RRecord (r : result PromptsError RegisteredPrompt)
| RTemplate (r : result PromptsError PromptTemplate)
| RHistory (r : result PromptsError (list PromptVersionInfo))
| RNames (l : list string)
| RCount (n : nat) (empty : bool).

Definition serve (q : Request) (w : PromptRegistry) : option (Reply * PromptRegistry) :=
  match q with
  | Register ns t => let '(r, w) := PromptRegistry.register digest ns t w in Some (RRecord r, w)
  | Resolve ns spec => r ← PromptRegistry.resolve ns spec w; Some (RRecord r, w)
  | ResolveRef reference => r ← PromptRegistry.resolve_ref reference w; Some (RRecord r, w)
  | Fetch reference => r ← PromptRegistry.fetch reference w; Some (RTemplate r, w)
  | Rollback ns v => '(r, w) ← PromptRegistry.rollback digest ns v w; Some (RRecord r, w)
  | History ns => Some (RHistory (PromptRegistry.history ns w), w)
  | Namespaces => Some (RNames (PromptRegistry.namespaces w), w)
  | Count => Some (RCount (PromptRegistry.len w) (PromptRegistry.is_empty w), w)
  end.

Definition log_resolve_ref (reference : string) (log : Log) : result PromptsError RegisteredPrompt :=
  '(ns, spec) ← parse_reference reference; log_resolve ns spec log.

Definition log_serve (q : Request) (log : Log) : Reply * Log :=
  match q with
  | Register ns t => let '(r, log) := log_register ns t log in (RRecord r, log)
  | Resolve ns spec => (RRecord (log_resolve ns spec log), log)
  | ResolveRef reference => (RRecord (log_resolve_ref reference log), log)
  | Fetch reference =>
      (RTemplate (r ← log_resolve_ref reference log; Ok (PromptTemplate.new (rp_template r))), log)
  | Rollback ns v => let '(r, log) := log_rollback ns v log in (RRecord r, log)
  | History ns => (RHistory (log_history ns log), log)
  | Namespaces => (RNames (sort_by String.leb (map_to_list log).*1), log)
  | Count => (RCount (size log) (size log =? 0), log)
  end.

Fixpoint serve_all (qs : list Request) (w : PromptRegistry) : option (list Reply * PromptRegistry) :=
  match qs with
  | [] => Some ([], w)
  | q :: qs' => '(r, w) ← serve q w; '(rs, w) ← serve_all qs' w; Some (r :: rs, w)
  end.

Fixpoint log_serve_all (qs : list Request) (log : Log) : list Reply * Log :=
  match qs with
  | [] => ([], log)
  | q :: qs' => let '(r, log) := log_serve q log in
                let '(rs, log) := log_serve_all qs' log in (r :: rs, log)
  end.

(** ** The state a list of texts is stored as *)

Definition records (ns : string) (l : list string) : list (N * RegisteredPrompt) :=
  (fun x => (x.1, record_of ns x.1 x.2)) <$> numbered l.

Definition index_push (m : gmap string (list N)) (x : N * string) : gmap string (list N) :=
  <[hash x.2 := default [] (m !! hash x.2) ++ [x.1]]> m.

Definition space_of (ns : string) (l : list string) : Namespace :=
  mkNamespace (list_to_map (records ns l)) (foldl index_push ∅ (numbered l)).

(** The relation of the two sides. *)
Definition stores (w : PromptRegistry) (log : Log) : Prop :=
  (forall ns, w !! ns = space_of ns <$> log !! ns) /\ (forall ns l, log !! ns = Some l -> l <> []).

(** ** Numbering *)

Lemma numbered_snoc l t : numbered (l ++ [t]) = numbered l ++ [(N.of_nat (S (length l)), t)].
Proof. unfold numbered. rewrite imap_app. cbn. by rewrite Nat.add_0_r. Qed.

Lemma elem_of_numbered l v t : (v, t) ∈ numbered l <-> text_at l v = Some t.
Proof.
  unfold numbered, text_at. rewrite elem_of_lookup_imap. split.
  - intros (i & t' & [= -> ->] & Hi). case_bool_decide; [lia|].
    by replace (N.to_nat (N.pred (N.of_nat (S i)))) with i by lia.
  - case_bool_decide; [done|]. intros Hv. exists (N.to_nat (N.pred v)), t.
    split; [f_equal; lia|done].
Qed.

Lemma numbered_sorted l : StronglySorted (fun x y : N * string => (x.1 < y.1)%N) (numbered l).
Proof.
  induction l as [|t l IH] using rev_ind; [constructor|]. rewrite numbered_snoc.
  apply StronglySorted_app. split_and!; [|done|by repeat constructor].
  intros [v t'] y Hv%elem_of_numbered ->%list_elem_of_singleton. cbn.
  unfold text_at in Hv. case_bool_decide; [done|]. apply lookup_lt_Some in Hv. lia.
Qed.

Lemma numbered_fst_nodup l : NoDup (numbered l).*1.
Proof.
  pose proof (numbered_sorted l) as H. induction H as [|x k Hk IH Hx]; [constructor|].
  cbn. constructor; [|done]. intros ([v t] & E & Hin)%list_elem_of_fmap.
  rewrite Forall_forall in Hx. specialize (Hx _ Hin). cbn in *. lia.
Qed.

Lemma text_at_snoc l t v :
  text_at (l ++ [t]) v = if bool_decide (v = N.of_nat (S (length l))) then Some t else text_at l v.
Proof.
  unfold text_at. case_bool_decide; case_bool_decide; [lia|done| |].
  - rewrite lookup_app_r; [|lia]. by replace (_ - _) with 0 by lia.
  - destruct (decide (N.to_nat (N.pred v) < length l)); [by rewrite lookup_app_l|].
    rewrite !lookup_ge_None_2 //; [lia|]. rewrite length_app. cbn. lia.
Qed.

Lemma text_at_last l : text_at l (N.of_nat (length l)) = last l.
Proof.
  destruct l as [|t l _] using rev_ind; [done|]. rewrite last_snoc text_at_snoc length_app. cbn.
  by rewrite bool_decide_true; [|lia].
Qed.

(** ** The stored state *)

Lemma records_snoc ns l t :
  records ns (l ++ [t]) = records ns l ++ [(N.of_nat (S (length l)), record_of ns (N.of_nat (S (length l))) t)].
Proof. unfold records. by rewrite numbered_snoc fmap_app. Qed.

Lemma records_fst ns l : (records ns l).*1 = (numbered l).*1.
Proof. unfold records. by rewrite -list_fmap_compose. Qed.

Lemma records_nodup ns l : NoDup (records ns l).*1.
Proof. rewrite records_fst. apply numbered_fst_nodup. Qed.

Lemma version_lookup ns l v : versions (space_of ns l) !! v = record_of ns v <$> text_at l v.
Proof.
  apply option_eq. intros r. cbn. rewrite -elem_of_list_to_map; [|apply records_nodup].
  unfold records. rewrite list_elem_of_fmap fmap_Some. split.
  - intros ([v' t] & [= -> ->] & Hv%elem_of_numbered). by exists t.
  - intros (t & Hv%elem_of_numbered & ->). by exists (v, t).
Qed.

Lemma version_entries_space ns l : version_entries (space_of ns l) = records ns l.
Proof.
  apply sort_by_canonical; unfold version_entry_le.
  - intros x y. rewrite !N.leb_le. lia.
  - intros x y z. rewrite !N.leb_le. lia.
  - intros [v r] [v' r'] H%elem_of_map_to_list H'%elem_of_map_to_list ?%N.leb_le ?%N.leb_le. cbn in *.
    assert (v = v') as -> by lia. by simplify_eq.
  - unfold records, le_prop. apply StronglySorted_map.
    apply (StronglySorted_mono (fun x y : N * string => (x.1 < y.1)%N)); [|apply numbered_sorted].
    intros x y Hxy. cbn. apply N.leb_le. lia.
  - apply map_to_list_to_map, records_nodup.
Qed.

Lemma last_key_value_space ns l :
  last_key_value (space_of ns l) =
  (fun t => (N.of_nat (length l), record_of ns (N.of_nat (length l)) t)) <$> last l.
Proof.
  unfold last_key_value. rewrite version_entries_space.
  destruct l as [|t l _] using rev_ind; [done|].
  rewrite records_snoc !last_snoc length_app. cbn. by rewrite Nat.add_1_r.
Qed.

Lemma positions_snoc h l t :
  positions h (l ++ [t]) = positions h l ++ (if hash t =ₛ h then [N.of_nat (S (length l))] else []).
Proof.
  unfold positions. rewrite numbered_snoc filter_app fmap_app. f_equal. rewrite filter_cons filter_nil. cbn.
  case_decide; case_bool_decide; done.
Qed.

Lemma elem_of_positions h l v : v ∈ positions h l <-> exists t, text_at l v = Some t /\ hash t = h.
Proof.
  unfold positions. rewrite list_elem_of_fmap. split.
  - intros ([v' t] & -> & [Hh Hin]%list_elem_of_filter). exists t. by rewrite -elem_of_numbered.
  - intros (t & Hin%elem_of_numbered & Hh). exists (v, t). by rewrite list_elem_of_filter.
Qed.

Lemma index_lookup ns l h :
  hashes (space_of ns l) !! h = match positions h l with [] => None | vs => Some vs end.
Proof.
  cbn. induction l as [|t l IH] using rev_ind; [done|].
  rewrite numbered_snoc foldl_app positions_snoc. cbn [foldl]. unfold index_push at 1. cbn [fst snd].
  case_bool_decide as Hh.
  - subst h. rewrite lookup_insert_eq IH. by destruct (positions (hash t) l).
  - by rewrite lookup_insert_ne // IH app_nil_r.
Qed.

Lemma space_of_snoc ns l t :
  space_of ns (l ++ [t]) =
  mkNamespace (<[N.of_nat (S (length l)) := record_of ns (N.of_nat (S (length l))) t]> (versions (space_of ns l)))
    (<[hash t := default [] (hashes (space_of ns l) !! hash t) ++ [N.of_nat (S (length l))]]>
       (hashes (space_of ns l))).
Proof.
  unfold space_of. f_equal.
  - apply map_eq. intros v. pose proof (version_lookup ns (l ++ [t]) v) as H. cbn in H. rewrite H text_at_snoc.
    pose proof (version_lookup ns l v) as H'. cbn in H'. cbn.
    case_bool_decide as Hv; [by rewrite Hv lookup_insert_eq|by rewrite lookup_insert_ne].
  - by rewrite numbered_snoc foldl_app.
Qed.

(** ** Looking a hash up *)

Definition newest (x : string * list N) : N := default 0%N (last x.2).
Definition others (prefix : string) (entries : list (string * list N)) : list N :=
  newest <$> filter (fun x => x.1 <> prefix /\ starts_with prefix x.1 = true) entries.

Lemma match_hashes_cons prefix h vs entries exact acc :
  vs <> [] ->
  match_hashes prefix ((h, vs) :: entries) exact acc =
  match_hashes prefix entries (if h =ₛ prefix then last vs else exact) (acc ++ others prefix [(h, vs)]).
Proof.
  intros Hvs. unfold others. rewrite filter_cons filter_nil. cbn.
  assert (last vs = Some (newest (h, vs))) as Hl.
  { unfold newest. cbn. destruct (last vs) eqn:E; [done|]. by apply last_None in E. }
  case_bool_decide as Hh.
  - rewrite decide_False; [|naive_solver]. rewrite Hl. cbn. by rewrite app_nil_r.
  - destruct (starts_with prefix h).
    + rewrite decide_True // Hl. done.
    + rewrite decide_False; [|naive_solver]. cbn. by rewrite app_nil_r.
Qed.

Lemma others_cons prefix x entries : others prefix (x :: entries) = others prefix [x] ++ others prefix entries.
Proof. unfold others. by rewrite -fmap_app -filter_app. Qed.

Lemma match_hashes_absent prefix entries exact acc :
  Forall (fun x => x.2 <> []) entries -> prefix ∉ entries.*1 ->
  match_hashes prefix entries exact acc = Some (exact, acc ++ others prefix entries).
Proof.
  intros Hne. revert exact acc. induction Hne as [|[h vs] entries Hvs Hne IH]; intros exact acc Hin.
  - cbn. by rewrite app_nil_r.
  - cbn in Hin. apply not_elem_of_cons in Hin as [Hh Hin].
    rewrite match_hashes_cons // (others_cons _ _ entries) IH // app_assoc bool_decide_false //.
Qed.

Lemma match_hashes_present prefix entries vs exact acc :
  Forall (fun x => x.2 <> []) entries -> NoDup entries.*1 -> (prefix, vs) ∈ entries ->
  match_hashes prefix entries exact acc = Some (last vs, acc ++ others prefix entries).
Proof.
  intros Hne. revert exact acc. induction Hne as [|[h vs'] entries Hvs Hne IH]; intros exact acc Hnd Hin.
  - by apply elem_of_nil in Hin.
  - cbn in Hnd. apply NoDup_cons in Hnd as [Hh Hnd]. rewrite match_hashes_cons //. rewrite (others_cons _ _ entries) app_assoc.
    apply elem_of_cons in Hin as [[= -> ->]|Hin].
    + rewrite match_hashes_absent // bool_decide_true //.
    + rewrite (IH _ _ Hnd Hin) //.
Qed.

Lemma elem_of_hash_entries ns l h vs :
  (h, vs) ∈ hash_entries (space_of ns l) <-> vs = positions h l /\ vs <> [].
Proof.
  unfold hash_entries. rewrite sort_by_perm elem_of_map_to_list index_lookup.
  destruct (positions h l); naive_solver.
Qed.

Lemma hash_entries_nonempty ns l : Forall (fun x => x.2 <> []) (hash_entries (space_of ns l)).
Proof. apply Forall_forall. intros [h vs] [_ Hvs]%elem_of_hash_entries. done. Qed.

Lemma hash_entries_nodup ns l : NoDup (hash_entries (space_of ns l)).*1.
Proof. unfold hash_entries. rewrite sort_by_perm. apply NoDup_fst_map_to_list. Qed.

(** The prefix matches, in the order of the index, are the candidates, in the order of
    the versions. *)
Lemma others_candidates ns prefix l :
  positions prefix l = [] -> others prefix (hash_entries (space_of ns l)) ≡ₚ candidates prefix l.
Proof.
  intros Hp.
  assert (forall h v, newest (h, positions h l) = v -> positions h l <> [] -> last (positions h l) = Some v) as Hl.
  { intros h v <- Hne. unfold newest. cbn. destruct (last (positions h l)) eqn:E; [done|].
    by apply last_None in E. }
  apply NoDup_Permutation.
  - unfold others. apply NoDup_fmap_2_strong.
    + intros [h vs] [h' vs'] [_ [-> Hne]%elem_of_hash_entries]%list_elem_of_filter
        [_ [-> Hne']%elem_of_hash_entries]%list_elem_of_filter E.
      pose proof (last_Some_elem_of _ _ (Hl h _ E Hne)) as (t & Ht & Hh)%elem_of_positions.
      pose proof (last_Some_elem_of _ _ (Hl h' _ eq_refl Hne')) as (t' & Ht' & Hh')%elem_of_positions.
      naive_solver.
    + apply NoDup_filter. eapply NoDup_fmap_1, hash_entries_nodup.
  - unfold candidates. eapply sublist_NoDup; [apply numbered_fst_nodup|].
    apply fmap_sublist, sublist_filter.
  - intros v. unfold others, candidates. rewrite !list_elem_of_fmap. split.
    + intros ([h vs] & Hv & [[Hne Hsw] [-> Hvs]%elem_of_hash_entries]%list_elem_of_filter).
      pose proof (Hl h v (eq_sym Hv) Hvs) as Hlast.
      pose proof (last_Some_elem_of _ _ Hlast) as (t & Ht%elem_of_numbered & <-)%elem_of_positions.
      exists (v, t). split; [done|]. by apply list_elem_of_filter.
    + intros ([v' t] & -> & [[Hsw Hlast] Hin]%list_elem_of_filter). cbn in *.
      exists (hash t, positions (hash t) l). split; [unfold newest; cbn; by rewrite Hlast|].
      apply list_elem_of_filter. split; [split; [|done]|apply elem_of_hash_entries; split; [done|]].
      * cbn. intros Hh. by rewrite Hh Hp in Hlast.
      * by intros E; rewrite E in Hlast.
Qed.

Lemma sort_candidates prefix l ms : ms ≡ₚ candidates prefix l -> sort_versions ms = candidates prefix l.
Proof.
  intros Hp. apply sort_by_canonical; [..|done].
  - intros x y. rewrite !N.leb_le. lia.
  - intros x y z. rewrite !N.leb_le. lia.
  - intros x y _ _. rewrite !N.leb_le. lia.
  - unfold candidates. apply StronglySorted_map.
    apply (StronglySorted_mono (fun x y : N * string => (x.1 < y.1)%N)).
    + intros x y Hxy. unfold le_prop. apply N.leb_le. lia.
    + apply StronglySorted_filter, numbered_sorted.
Qed.

Lemma resolve_hash_space ns prefix l :
  resolve_hash_version (space_of ns l) prefix = Some (log_resolve_hash prefix l).
Proof.
  unfold resolve_hash_version, log_resolve_hash. destruct (_ <? _); [done|].
  destruct (positions prefix l) as [|v vs] eqn:Hp.
  - rewrite match_hashes_absent.
    + rewrite app_nil_l. cbn [mbind option_bind]. pose proof (others_candidates ns prefix l Hp) as Hoc.
      pose proof (sort_candidates _ _ _ Hoc) as Hs.
      destruct (others _ _) as [|x [|y ms]] eqn:Eo.
      * by apply Permutation_nil in Hoc as ->.
      * by apply Permutation_singleton_l in Hoc as <-.
      * rewrite Hs. destruct (candidates prefix l) as [|a [|b cs]]; [..|done];
          apply Permutation_length in Hoc; cbn in Hoc; lia.
    + apply hash_entries_nonempty.
    + intros ([h vs] & -> & [-> Hne]%elem_of_hash_entries)%list_elem_of_fmap. done.
  - rewrite (match_hashes_present _ _ (v :: vs)).
    + cbn [mbind option_bind]. destruct (last (v :: vs)) eqn:E; [done|]. by apply last_None in E.
    + apply hash_entries_nonempty.
    + apply hash_entries_nodup.
    + apply elem_of_hash_entries. by rewrite Hp.
Qed.

(** ** The simulation *)

Definition bounded (k : N) (log : Log) : Prop :=
  forall ns l, log !! ns = Some l -> (N.of_nat (length l) <= k)%N.

Lemma stores_default w log ns :
  stores w log -> default empty_namespace (w !! ns) = space_of ns (default [] (log !! ns)).
Proof. intros [H _]. rewrite H. by destruct (log !! ns). Qed.

Lemma stores_insert w log ns l :
  stores w log -> l <> [] -> stores (<[ns := space_of ns l]> w) (<[ns := l]> log).
Proof.
  intros [Hw Hne] Hl. split.
  - intros ns'. destruct (decide (ns' = ns)) as [->|]; [by rewrite !lookup_insert_eq|].
    by rewrite !lookup_insert_ne.
  - intros ns' l'. rewrite lookup_insert_Some. naive_solver.
Qed.

Lemma resolve_sim w log ns spec :
  stores w log -> PromptRegistry.resolve ns spec w = Some (log_resolve ns spec log).
Proof.
  intros [Hw Hne]. unfold PromptRegistry.resolve, log_resolve. rewrite Hw.
  destruct (log !! ns) as [l|] eqn:E; [|done]. cbn [fmap option_fmap option_map].
  assert (forall v, v ∈ (numbered l).*1 ->
    (record ← versions (space_of ns l) !! v; Some (Ok record)) =
    Some (match text_at l v with Some t => Ok (record_of ns v t) | None => Err (VersionNotFound ns v) end))
    as Hrec.
  { intros v ([v' t] & -> & Ht%elem_of_numbered)%list_elem_of_fmap. cbn [fst]. by rewrite version_lookup Ht. }
  destruct spec as [|n|prefix].
  - rewrite last_key_value_space. destruct (last l) as [t|] eqn:El; [|by apply last_None, (Hne ns) in El].
    cbn. rewrite -Hrec //. apply list_elem_of_fmap. exists (N.of_nat (length l), t). split; [done|].
    apply elem_of_numbered. by rewrite text_at_last.
  - rewrite version_lookup. destruct (text_at l n) as [t|] eqn:Et; cbn; [|by rewrite Et].
    rewrite version_lookup Et. done.
  - rewrite resolve_hash_space. cbn. destruct (log_resolve_hash prefix l) as [v|e] eqn:Eh; [|done].
    cbn. apply Hrec. unfold log_resolve_hash in Eh. destruct (_ <? _); [done|].
    assert (forall h, last (positions h l) = Some v -> v ∈ (numbered l).*1) as Hlast.
    { intros h (t & Ht%elem_of_numbered & _)%last_Some_elem_of%elem_of_positions.
      apply list_elem_of_fmap. by exists (v, t). }
    destruct (last (positions prefix l)) eqn:El; [simplify_eq; by eapply Hlast|].
    assert (v ∈ candidates prefix l) as Hv
      by (destruct (candidates prefix l) as [|? []]; simplify_eq; by left).
    unfold candidates in Hv. apply list_elem_of_fmap in Hv as ([v' t] & -> & [_ Hin]%list_elem_of_filter).
    apply list_elem_of_fmap. by exists (v', t).
Qed.

Lemma register_sim k w log ns t :
  stores w log -> bounded k log -> (k + 1 < 2 ^ 32)%N ->
  (PromptRegistry.register digest ns t w).1 = (log_register ns t log).1 /\
  stores (PromptRegistry.register digest ns t w).2 (log_register ns t log).2 /\
  bounded (k + 1) (log_register ns t log).2.
Proof.
  intros Hst Hb Hk. unfold PromptRegistry.register, log_register.
  destruct (validate_namespace ns) as [_|e].
  2: { split_and!; [done|done|]. intros ns' l' Hl'. apply Hb in Hl'. cbn in *. lia. }
  rewrite (stores_default _ _ _ Hst) last_key_value_space.
  set (l := default [] (log !! ns)).
  assert (N.of_nat (length l) <= k)%N as Hlen.
  { unfold l. destruct (log !! ns) as [l'|] eqn:E; [by apply (Hb ns)|cbn; lia]. }
  assert (bounded (k + 1) (<[ns := l ++ [t]]> log)) as Hb'.
  { intros ns' l'. rewrite lookup_insert_Some. intros [[_ <-]|[_ Hl']].
    - rewrite length_app. cbn. lia.
    - apply Hb in Hl'. lia. }
  assert (bounded (k + 1) log) as Hb1 by (intros ns' l' Hl'; apply Hb in Hl'; lia).
  assert (stores (<[ns := space_of ns (l ++ [t])]> w) (<[ns := l ++ [t]]> log)) as Hst'.
  { apply stores_insert; [done|]. by destruct l. }
  rewrite space_of_snoc in Hst'.
  destruct (last l) as [latest|] eqn:El; cbn [fmap option_fmap option_map].
  - replace ((N.of_nat (length l) + 1) mod 2 ^ 32)%N with (N.of_nat (S (length l))).
    2: { rewrite N.mod_small; lia. }
    cbn [rp_hash record_of]. case_bool_decide; [|by split_and!].
    split_and!; [done| |done]. cbn [snd].
    assert (log !! ns = Some l) as Hl.
    { unfold l. by destruct (log !! ns). }
    rewrite insert_id //. destruct Hst as [Hw _]. by rewrite Hw Hl.
  - apply last_None in El. rewrite El in Hst', Hb' |- *. by split_and!.
Qed.

Lemma stores_keys w log : stores w log -> (map_to_list w).*1 ≡ₚ (map_to_list log).*1.
Proof.
  intros [Hw _]. apply NoDup_Permutation; [apply NoDup_fst_map_to_list..|]. intros ns.
  rewrite !list_elem_of_fmap. split.
  - intros ([k x] & -> & Hk%elem_of_map_to_list). rewrite Hw in Hk.
    apply fmap_Some in Hk as (l & Hl & _). exists (k, l). split; [done|]. by apply elem_of_map_to_list.
  - intros ([k l] & -> & Hk%elem_of_map_to_list). exists (k, space_of k l). split; [done|].
    apply elem_of_map_to_list. by rewrite Hw Hk.
Qed.

Lemma stores_size w log : stores w log -> size w = size log.
Proof.
  intros H%stores_keys%Permutation_length. by rewrite !length_fmap !length_map_to_list in H.
Qed.

Lemma serve_sim k q w log :
  stores w log -> bounded k log -> (k + 1 < 2 ^ 32)%N ->
  exists w', serve q w = Some ((log_serve q log).1, w') /\ stores w' (log_serve q log).2 /\
    bounded (k + 1) (log_serve q log).2.
Proof.
  intros Hst Hb Hk.
  assert (bounded (k + 1) log) as Hb1 by (intros ns' l' Hl'; apply Hb in Hl'; lia).
  pose proof (fun ns spec => resolve_sim w log ns spec Hst) as Hr.
  assert (forall reference, PromptRegistry.resolve_ref reference w = Some (log_resolve_ref reference log)) as Href.
  { intros reference. unfold PromptRegistry.resolve_ref, log_resolve_ref.
    destruct (parse_reference reference) as [[ns spec]|e]; [apply Hr|done]. }
  destruct q as [ns t|ns spec|reference|reference|ns v|ns| |]; cbn.
  - pose proof (register_sim k w log ns t Hst Hb Hk) as H.
    destruct (PromptRegistry.register digest ns t w) as [r w'], (log_register ns t log) as [r' log'].
    cbn in *. destruct H as (-> & H). by exists w'.
  - rewrite Hr. cbn. by exists w.
  - rewrite Href. cbn. by exists w.
  - unfold PromptRegistry.fetch. rewrite Href. cbn. by exists w.
  - unfold PromptRegistry.rollback, log_rollback. rewrite Hr. cbn [mbind option_bind].
    destruct (log_resolve ns (Number v) log) as [target|e]; [|by exists w].
    pose proof (register_sim k w log ns (rp_template target) Hst Hb Hk) as H.
    destruct (PromptRegistry.register digest ns _ w) as [r w'], (log_register ns _ log) as [r' log'].
    cbn in *. destruct H as (-> & H). by exists w'.
  - exists w. split; [|done]. do 2 f_equal. f_equal. unfold PromptRegistry.history, log_history.
    destruct Hst as [-> _]. destruct (log !! ns) as [l|]; [|done]. cbn [fmap option_fmap option_map].
    rewrite version_entries_space. unfold records. by rewrite -list_fmap_compose.
  - exists w. split; [|done]. do 2 f_equal. f_equal. unfold PromptRegistry.namespaces.
    assert (forall x y : string, String.leb x y = true -> String.leb y x = true -> x = y) as Has
      by (intros; by apply String.leb_antisym).
    apply sort_by_canonical; [apply String.leb_total|apply string_leb_trans|auto|..].
    + apply sort_by_sorted; [apply String.leb_total|apply string_leb_trans].
    + rewrite sort_by_perm. by apply stores_keys.
  - exists w. split; [|done]. unfold PromptRegistry.is_empty, PromptRegistry.len. by rewrite (stores_size w log).
Qed.

Lemma serve_all_sim qs k w log :
  stores w log -> bounded k log -> (k + N.of_nat (length qs) < 2 ^ 32)%N ->
  exists w', serve_all qs w = Some ((log_serve_all qs log).1, w') /\ stores w' (log_serve_all qs log).2 /\
    bounded (k + N.of_nat (length qs)) (log_serve_all qs log).2.
Proof.
  revert k w log. induction qs as [|q qs IH]; intros k w log Hst Hb Hk; cbn [serve_all log_serve_all].
  - exists w. cbn. rewrite N.add_0_r. done.
  - cbn [length] in Hk.
    destruct (serve_sim k q w log Hst Hb) as (w1 & -> & Hst1 & Hb1); [lia|]. cbn [mbind option_bind].
    destruct (log_serve q log) as [r log1]. cbn [fst snd] in Hst1, Hb1 |- *.
    destruct (IH (k + 1)%N w1 log1 Hst1 Hb1) as (w2 & -> & Hst2 & Hb2); [lia|].
    destruct (log_serve_all qs log1) as [rs log2]. exists w2. split; [done|]. split; [done|].
    cbn [length]. by replace (k + N.of_nat (S (length qs)))%N with (k + 1 + N.of_nat (length qs))%N by lia.
Qed.

Lemma stores_empty : stores ∅ ∅.
Proof. split; [intros ns; by rewrite !lookup_empty|intros ns l; by rewrite lookup_empty]. Qed.

Lemma bounded_empty : bounded 0 ∅.
Proof. intros ns l. by rewrite lookup_empty. Qed.

(** C16: The registry is the append-only log of the texts published under each name.  Over
    any sequence of fewer than 2^32 calls from the empty registry nothing panics, every
    reply (records, errors, histories, listings) is the one computed on the log, and the
    registry holds under each namespace exactly the versions 1 to n of its log, with the
    complete index from hashes to versions. *)
Theorem registry_refines_log qs :
  (N.of_nat (length qs) < 2 ^ 32)%N ->
  exists w, serve_all qs PromptRegistry.new = Some ((log_serve_all qs ∅).1, w) /\
    forall ns, w !! ns = space_of ns <$> (log_serve_all qs ∅).2 !! ns.
Proof.
  intros Hqs. destruct (serve_all_sim qs 0 ∅ ∅ stores_empty bounded_empty) as (w & Hw & [Hst _] & _); [lia|].
  by exists w.
Qed.

(** ** What was registered stays *)

Lemma log_register_grows ns t log ns' l :
  log !! ns' = Some l -> exists ext, (log_register ns t log).2 !! ns' = Some (l ++ ext).
Proof.
  intros Hl. unfold log_register.
  assert (exists ext, log !! ns' = Some (l ++ ext)) as Hsame by (exists []; by rewrite app_nil_r).
  assert (exists ext, <[ns := default [] (log !! ns) ++ [t]]> log !! ns' = Some (l ++ ext)) as Hpub.
  { destruct (decide (ns' = ns)) as [->|]; [|by rewrite lookup_insert_ne].
    rewrite lookup_insert_eq Hl. by exists [t]. }
  destruct (validate_namespace ns); [|done]. destruct (last _); [|done]. by case_bool_decide.
Qed.

Lemma log_serve_grows q log ns l :
  log !! ns = Some l -> exists ext, (log_serve q log).2 !! ns = Some (l ++ ext).
Proof.
  intros Hl. assert (exists ext, log !! ns = Some (l ++ ext)) as Hsame by (exists []; by rewrite app_nil_r).
  destruct q as [ns' t|?|?|?|ns' v|?| |]; cbn; try done.
  - pose proof (log_register_grows ns' t log ns l Hl) as H. by destruct (log_register ns' t log).
  - unfold log_rollback. destruct (log_resolve ns' (Number v) log) as [target|e]; [|done].
    pose proof (log_register_grows ns' (rp_template target) log ns l Hl) as H.
    by destruct (log_register ns' _ log).
Qed.

Lemma log_serve_all_grows qs log ns l :
  log !! ns = Some l -> exists ext, (log_serve_all qs log).2 !! ns = Some (l ++ ext).
Proof.
  revert log l. induction qs as [|q qs IH]; intros log l Hl; cbn; [exists []; by rewrite app_nil_r|].
  destruct (log_serve_grows q log ns l Hl) as [ext1 H1]. destruct (log_serve q log) as [r log1]. cbn in H1.
  destruct (IH log1 _ H1) as [ext2 H2]. destruct (log_serve_all qs log1) as [rs log2]. cbn in *.
  exists (ext1 ++ ext2). by rewrite app_assoc.
Qed.

Lemma text_at_app l ext v t : text_at l v = Some t -> text_at (l ++ ext) v = Some t.
Proof. unfold text_at. case_bool_decide; [done|]. apply lookup_app_l_Some. Qed.

(** A registration puts its text last, unless another text has its hash. *)
Lemma log_register_last ns t log :
  (forall t', hash t' = hash t -> t' = t) -> validate_namespace ns = Ok () ->
  exists l, (log_register ns t log).2 !! ns = Some l /\ last l = Some t /\
    (log_register ns t log).1 = Ok (record_of ns (N.of_nat (length l)) t).
Proof.
  intros Hinj Hv. unfold log_register. rewrite Hv.
  assert (exists l, <[ns := default [] (log !! ns) ++ [t]]> log !! ns = Some l /\ last l = Some t /\
    @Ok PromptsError _ (record_of ns (N.of_nat (S (length (default [] (log !! ns))))) t) =
    Ok (record_of ns (N.of_nat (length l)) t)) as Hpub.
  { eexists. rewrite lookup_insert_eq. split; [done|]. rewrite last_snoc length_app. cbn.
    by rewrite Nat.add_1_r. }
  destruct (last (default [] (log !! ns))) as [latest|] eqn:El; [|done]. case_bool_decide as Hh; [|done].
  apply Hinj in Hh as ->. destruct (log !! ns) as [l|] eqn:Hl; [|done]. by exists l.
Qed.

Lemma log_resolve_number ns log l v t :
  log !! ns = Some l -> text_at l v = Some t -> log_resolve ns (Number v) log = Ok (record_of ns v t).
Proof. intros Hl Ht. unfold log_resolve. rewrite Hl. cbn. by rewrite Ht. Qed.

Lemma log_resolve_latest ns log l t :
  log !! ns = Some l -> last l = Some t ->
  log_resolve ns Latest log = Ok (record_of ns (N.of_nat (length l)) t).
Proof. intros Hl Ht. unfold log_resolve. rewrite Hl. cbn. by rewrite text_at_last Ht. Qed.

Lemma last_ge_elem h l v : v ∈ positions h l -> exists v', last (positions h l) = Some v' /\ (v <= v')%N.
Proof.
  intros Hv. induction l as [|t l IH] using rev_ind; [by apply elem_of_nil in Hv|].
  rewrite positions_snoc in Hv |- *. case_bool_decide as Hh.
  - rewrite last_snoc. eexists. split; [done|]. apply elem_of_app in Hv as [Hv|Hv].
    + apply elem_of_positions in Hv as (t' & Ht' & _). unfold text_at in Ht'. case_bool_decide; [done|].
      apply lookup_lt_Some in Ht'. lia.
    + apply list_elem_of_singleton in Hv as ->. lia.
  - rewrite !app_nil_r in Hv |- *. by apply IH.
Qed.

Lemma log_resolve_by_hash ns log l v t :
  (forall t', hash t' = hash t -> t' = t) -> MIN_HASH_PREFIX <= String.length (hash t) ->
  log !! ns = Some l -> text_at l v = Some t ->
  exists v', log_resolve ns (Hash (hash t)) log = Ok (record_of ns v' t) /\ (v <= v')%N.
Proof.
  intros Hinj Hlen Hl Ht. unfold log_resolve, log_resolve_hash. rewrite Hl.
  destruct (String.length (hash t) <? MIN_HASH_PREFIX) eqn:E; [apply Nat.ltb_lt in E; lia|].
  destruct (last_ge_elem (hash t) l v) as (v' & Hlast & Hge).
  { apply elem_of_positions. by exists t. }
  rewrite Hlast. cbn. exists v'. split; [|done].
  apply last_Some_elem_of, elem_of_positions in Hlast as (t' & -> & Hh). by rewrite (Hinj _ Hh).
Qed.

(** What was registered stays, under its number and under its hash.  After any calls,
    a registration returns the latest record, which carries the text; whatever calls
    follow, the version number still gives this very record, the hash gives the same
    text, and a rollback to the version succeeds, makes the text the latest and changes
    no version that was there.  This holds for a text whose hash no other text has. *)
Theorem registered_is_pinned qs ns t qs' rs w r w1 rs' w2 :
  (N.of_nat (length qs) + N.of_nat (length qs') + 2 < 2 ^ 32)%N ->
  MIN_HASH_PREFIX <= String.length (hash t) ->
  (forall t', hash t' = hash t -> t' = t) ->
  serve_all qs PromptRegistry.new = Some (rs, w) ->
  PromptRegistry.register digest ns t w = (Ok r, w1) ->
  serve_all qs' w1 = Some (rs', w2) ->
  PromptRegistry.get ns w1 = Some (Ok r) /\ rp_template r = t /\
  PromptRegistry.resolve ns (Number (rp_version r)) w2 = Some (Ok r) /\
  (exists r', PromptRegistry.resolve ns (Hash (rp_hash r)) w2 = Some (Ok r') /\
     rp_template r' = t /\ (rp_version r <= rp_version r')%N) /\
  (exists r' w3, PromptRegistry.rollback digest ns (rp_version r) w2 = Some (Ok r', w3) /\
     rp_template r' = t /\ PromptRegistry.get ns w3 = Some (Ok r') /\
     forall ns' v r0, PromptRegistry.resolve ns' (Number v) w2 = Some (Ok r0) ->
       PromptRegistry.resolve ns' (Number v) w3 = Some (Ok r0)).
Proof.
  intros Hk Hlen Hinj Hqs Hreg Hqs'.
  destruct (serve_all_sim qs 0 ∅ ∅ stores_empty bounded_empty) as (w' & E & Hst & Hb); [lia|].
  change (serve_all qs PromptRegistry.new) with (serve_all qs ∅) in Hqs. rewrite Hqs in E. simplify_eq.
  set (log := (log_serve_all qs ∅).2) in *.
  destruct (register_sim _ w' log ns t Hst Hb) as (Hr & Hst1 & Hb1); [lia|].
  assert (validate_namespace ns = Ok ()) as Hv.
  { unfold PromptRegistry.register in Hreg. destruct (validate_namespace ns) as [[]|]; [done|]. by simplify_eq. }
  destruct (log_register_last ns t log Hinj Hv) as (l1 & Hl1 & Hlast1 & Hr1).
  rewrite Hreg Hr1 in Hr. rewrite Hreg in Hst1. cbn [fst snd] in *. injection Hr as ->.
  set (log1 := (log_register ns t log).2) in *.
  destruct (serve_all_sim qs' _ w1 log1 Hst1 Hb1) as (w2' & E' & Hst2 & Hb2); [lia|].
  rewrite Hqs' in E'. simplify_eq. set (log2 := (log_serve_all qs' log1).2) in *.
  destruct (log_serve_all_grows qs' log1 ns l1 Hl1) as [ext Hl2]. fold log2 in Hl2.
  assert (text_at (l1 ++ ext) (N.of_nat (length l1)) = Some t) as Ht
    by (apply text_at_app; by rewrite text_at_last).
  cbn [rp_version rp_template rp_hash record_of].
  unfold PromptRegistry.get, PromptRegistry.rollback.
  rewrite (resolve_sim w1 log1) // (log_resolve_latest _ _ _ _ Hl1 Hlast1).
  rewrite !(resolve_sim w2' log2) // (log_resolve_number _ _ _ _ _ Hl2 Ht).
  split_and!; [done..| |].
  - destruct (log_resolve_by_hash ns log2 _ _ _ Hinj Hlen Hl2 Ht) as (v' & -> & Hge). by eexists.
  - cbn [mbind option_bind rp_template record_of].
    destruct (register_sim _ w2' log2 ns t Hst2 Hb2) as (Hr3 & Hst3 & _); [lia|].
    destruct (log_register_last ns t log2 Hinj Hv) as (l3 & Hl3 & Hlast3 & Hr3').
    destruct (PromptRegistry.register digest ns t w2') as [r3 w3]. cbn [fst snd] in *. rewrite Hr3 Hr3'.
    do 2 eexists. split; [done|]. split; [done|]. split.
    + by rewrite (resolve_sim _ _ _ _ Hst3) (log_resolve_latest _ _ _ _ Hl3 Hlast3).
    + intros ns' v r0. rewrite (resolve_sim _ _ _ _ Hst3) (resolve_sim _ _ _ _ Hst2).
      unfold log_resolve at 1. destruct (log2 !! ns') as [l|] eqn:El; [|done]. cbn.
      destruct (text_at l v) as [t0|] eqn:Et; [|done]. intros [= <-].
      destruct (log_register_grows ns t log2 ns' l El) as [ext' Hl'].
      by rewrite (log_resolve_number _ _ _ _ t0 Hl'); [|by apply text_at_app].
Qed.

End spec.
