(* ===== verification/FewShot.v ===== *)
(** * Few-shot prompts ([crates/lc-prompts/src/few_shot.rs])

    [FewShotPromptTemplate] embeds examples, each rendered by the example prompt, between
    a prefix and a suffix that take the caller's variables.  [ExampleSelector] is the
    selector trait, [LengthBasedExampleSelector] its implementation.

    The example prompt counts its renders, also those a selector makes to measure an
    example, so the operations that render thread it.  Lengths are counts of characters;
    they are sums over texts in memory, far below 2^64, and kept unbounded. *)

From stdpp Require Import gmap strings list.
From S2P Require Import Prelude TemplateParser PromptTemplate PromptFacts.

(** An example is a [HashMap] of values. *)
Definition ExampleVars : Type := gmap string string.

(** [text.chars().count()] *)
Definition char_count (text : string) : N := N.of_nat (length (chars text)).

Class ExampleSelector `{U : Unicode} (S : Type) := {
  select_examples : S -> TemplateVars -> list ExampleVars;
  select_examples_by_length : S -> TemplateVars -> string -> string ->
    PromptTemplate -> list ExampleVars * PromptTemplate;
  examples : S -> list ExampleVars;
  add_example : ExampleVars -> S -> S;
}.

(** The method the trait provides. *)
Definition default_by_length {S} (select : S -> TemplateVars -> list ExampleVars)
    (self : S) (input : TemplateVars) (prefix suffix : string) (example_prompt : PromptTemplate)
    : list ExampleVars * PromptTemplate := (select self input, example_prompt).

Record LengthBasedExampleSelector := mkLengthSelector {
  ls_examples : list ExampleVars;
  ls_max_length : N;
}.

Module LengthBasedExampleSelector.
Section ops.
Context `{U : Unicode}.
Context (hash_order : TemplateVars -> list string).

Definition new (examples : list ExampleVars) : LengthBasedExampleSelector := mkLengthSelector examples 2048.
Definition with_max_length (max : N) (self : LengthBasedExampleSelector) : LengthBasedExampleSelector :=
  mkLengthSelector (ls_examples self) max.

(** [map.values()] *)
Definition values (m : TemplateVars) : list string := omap (fun k => m !! k) (hash_order m).
Definition input_text (input : TemplateVars) : string := str_join "" (values input).

(** The sum of the lengths of the values. *)
Definition value_length (example : ExampleVars) : N :=
  foldr (fun v n => char_count v + n)%N 0%N (values example).

Fixpoint select_loop (available used : N) (examples selected : list ExampleVars) : list ExampleVars :=
  match examples with
  | [] => selected
  | example :: examples' =>
      let ex_len := value_length example in
      if (used + ex_len <=? available)%N || bool_decide (selected = [])
      then select_loop available (used + ex_len) examples' (selected ++ [example])
      else selected
  end.

(** [saturating_sub] is the subtraction of [N]. *)
Definition select_examples (self : LengthBasedExampleSelector) (input : TemplateVars) : list ExampleVars :=
  select_loop (ls_max_length self - char_count (input_text input))%N 0 (ls_examples self) [].

(** An example the prompt cannot render is passed over. *)
Fixpoint select_by_length_loop (available used : N) (examples selected : list ExampleVars)
    (example_prompt : PromptTemplate) : list ExampleVars * PromptTemplate :=
  match examples with
  | [] => (selected, example_prompt)
  | example :: examples' =>
      let '(r, example_prompt) := PromptTemplate.format example example_prompt in
      match r with
      | Ok formatted =>
          let ex_len := (char_count formatted + 10)%N in
          if (used + ex_len <=? available)%N || bool_decide (selected = [])
          then select_by_length_loop available (used + ex_len) examples' (selected ++ [example]) example_prompt
          else (selected, example_prompt)
      | Err _ => select_by_length_loop available used examples' selected example_prompt
      end
  end.

Definition select_examples_by_length (self : LengthBasedExampleSelector) (input : TemplateVars)
    (prefix suffix : string) (example_prompt : PromptTemplate) : list ExampleVars * PromptTemplate :=
  let input_len := (char_count prefix + char_count suffix + char_count (input_text input))%N in
  select_by_length_loop (ls_max_length self - input_len)%N 0 (ls_examples self) [] example_prompt.

Definition add_example (example : ExampleVars) (self : LengthBasedExampleSelector) : LengthBasedExampleSelector :=
  mkLengthSelector (ls_examples self ++ [example]) (ls_max_length self).

#[export] Instance selector : ExampleSelector LengthBasedExampleSelector := {|
  FewShot.select_examples := select_examples;
  FewShot.select_examples_by_length := select_examples_by_length;
  FewShot.examples := ls_examples;
  FewShot.add_example := add_example;
|}.

End ops.
End LengthBasedExampleSelector.

(** ** The template, over the selector it may hold *)

Record FewShotPromptTemplate (S : Type) := mkFewShot {
  fs_examples : list ExampleVars;
  fs_example_prompt : PromptTemplate;
  fs_prefix : string;
  fs_suffix : string;
  fs_example_separator : string;
  fs_input_variables : list string;
  fs_example_selector : option S;
}.
Arguments mkFewShot {S}. Arguments fs_examples {S}. Arguments fs_example_prompt {S}.
Arguments fs_prefix {S}. Arguments fs_suffix {S}. Arguments fs_example_separator {S}.
Arguments fs_input_variables {S}. Arguments fs_example_selector {S}.

Module FewShotPromptTemplate.
Section ops.
Context `{U : Unicode} {S : Type} `{!ExampleSelector S}.
Implicit Types self : FewShotPromptTemplate S.

Definition new (examples : list ExampleVars) (example_prompt : PromptTemplate) (prefix suffix : string)
    (input_variables : list string) : FewShotPromptTemplate S :=
  mkFewShot examples example_prompt prefix suffix (newline +:+ newline) input_variables None.

Definition with_example_separator (separator : string) self : FewShotPromptTemplate S :=
  mkFewShot (fs_examples self) (fs_example_prompt self) (fs_prefix self) (fs_suffix self) separator
    (fs_input_variables self) (fs_example_selector self).
Definition with_example_selector (selector : S) self : FewShotPromptTemplate S :=
  mkFewShot (fs_examples self) (fs_example_prompt self) (fs_prefix self) (fs_suffix self)
    (fs_example_separator self) (fs_input_variables self) (Some selector).
Definition with_prefix (prefix : string) self : FewShotPromptTemplate S :=
  mkFewShot (fs_examples self) (fs_example_prompt self) prefix (fs_suffix self)
    (fs_example_separator self) (fs_input_variables self) (fs_example_selector self).
Definition with_suffix (suffix : string) self : FewShotPromptTemplate S :=
  mkFewShot (fs_examples self) (fs_example_prompt self) (fs_prefix self) suffix
    (fs_example_separator self) (fs_input_variables self) (fs_example_selector self).

(** The shared reference the operations take moves only the render counter. *)
Definition set_prompt (example_prompt : PromptTemplate) self : FewShotPromptTemplate S :=
  mkFewShot (fs_examples self) example_prompt (fs_prefix self) (fs_suffix self)
    (fs_example_separator self) (fs_input_variables self) (fs_example_selector self).

Fixpoint check_variables (input_variables : list string) (variables : TemplateVars) : result PromptsError () :=
  match input_variables with
  | [] => Ok ()
  | var :: input_variables' =>
      match variables !! var with
      | None => Err (MissingVariable var)
      | Some _ => check_variables input_variables' variables
      end
  end.

Definition format_examples (selected : list ExampleVars) : Act PromptTemplate PromptsError (list string) :=
  act_map (fun example => PromptTemplate.format example) selected.

(** The template built for the part is dropped with its counter. *)
Definition format_part (text : string) (variables : TemplateVars) : result PromptsError string :=
  if text =ₛ "" then Ok "" else (PromptTemplate.format variables (PromptTemplate.new text)).1.

Definition compose (prefix examples_str suffix : string) : string :=
  str_join (newline +:+ newline) (filter (fun part => part <> "") [prefix; examples_str; suffix]).

Definition format (variables : TemplateVars) : Act (FewShotPromptTemplate S) PromptsError string := fun self =>
  match check_variables (fs_input_variables self) variables with
  | Err e => (Err e, self)
  | Ok _ =>
      let '(selected, prompt) :=
        match fs_example_selector self with
        | Some selector =>
            select_examples_by_length selector variables (fs_prefix self) (fs_suffix self) (fs_example_prompt self)
        | None => (fs_examples self, fs_example_prompt self)
        end in
      let '(example_texts, prompt) := format_examples selected prompt in
      (example_texts ← example_texts;
       let examples_str := str_join (fs_example_separator self) example_texts in
       prefix_formatted ← format_part (fs_prefix self) variables;
       suffix_formatted ← format_part (fs_suffix self) variables;
       Ok (compose prefix_formatted examples_str suffix_formatted),
       set_prompt prompt self)
  end.

Definition input_variables self : list string := fs_input_variables self.
Definition examples self : list ExampleVars := fs_examples self.
Definition add_example (example : ExampleVars) self : FewShotPromptTemplate S :=
  mkFewShot (fs_examples self ++ [example]) (fs_example_prompt self) (fs_prefix self) (fs_suffix self)
    (fs_example_separator self) (fs_input_variables self) (fs_example_selector self).

(** Every example supplies what the example prompt needs. *)
Fixpoint check_examples (required : list string) (index : nat) (examples : list ExampleVars)
    : result PromptsError () :=
  match examples with
  | [] => Ok ()
  | example :: examples' =>
      match list_find (fun var => example !! var = None) required with
      | Some (_, variable) => Err (ExampleMissingVariable index variable)
      | None => check_examples required (index + 1) examples'
      end
  end.

Definition validate self : result PromptsError () :=
  validate_template (fs_prefix self) ;;
  validate_template (fs_suffix self) ;;
  PromptTemplate.validate (fs_example_prompt self) ;;
  let used := dedup_in_order (template_variables (parse_template (fs_prefix self)) ++
                              template_variables (parse_template (fs_suffix self))) in
  let declared := dedup_in_order (fs_input_variables self) in
  let undeclared := filter (fun var => var ∉ declared) used in
  let unused := filter (fun var => var ∉ used) declared in
  (if negb (bool_decide (undeclared = [])) || negb (bool_decide (unused = []))
   then Err (FewShotVariableMismatch undeclared unused) else Ok ()) ;;
  check_examples (dedup_in_order (PromptTemplate.variables (fs_example_prompt self))) 0 (fs_examples self).

Definition validated self : result PromptsError (FewShotPromptTemplate S) := validate self ;; Ok self.

Definition variable_diff self (supplied : list string) : VariableDiff :=
  diff_variables (fs_input_variables self) supplied.

End ops.
End FewShotPromptTemplate.

(** * What few-shot prompts guarantee

    [validated_few_shot_formats]: validation is what makes formatting total for the
    callers that supply the declared variables, with any selector that keeps the promise
    of [SoundSelector]; [length_selector_budget]: what the length-based selector picks. *)

(** ** The greedy choice *)

Section choose.
Context {A : Type} (cost : A -> N).

Definition total (l : list A) : N := foldr (fun x n => cost x + n)%N 0%N l.

Fixpoint choose (available used : N) (first : bool) (l : list A) : list A :=
  match l with
  | [] => []
  | x :: l' =>
      if (used + cost x <=? available)%N || first
      then x :: choose available (used + cost x) false l' else []
  end.

(** A prefix that fits, extended as far as possible. *)
Definition greedy (available used : N) (l : list A) (n : nat) : Prop :=
  (n <> 0 -> (used + total (take n l) <= available)%N) /\
  (forall x, l !! n = Some x -> (available < used + total (take (S n) l))%N).

Lemma total_cons x l : total (x :: l) = (cost x + total l)%N.
Proof. done. Qed.

Lemma choose_later available used l :
  exists n, choose available used false l = take n l /\ greedy available used l n.
Proof.
  revert used. induction l as [|x l IH]; intros used; cbn [choose].
  - exists 0. split; [done|]. by split.
  - rewrite orb_false_r. destruct (N.leb_spec (used + cost x) available) as [Hle|Hgt].
    + destruct (IH (used + cost x)%N) as (n & -> & Hfit & Hmax). exists (S n). split; [done|]. split.
      * intros _. rewrite firstn_cons total_cons. destruct n as [|n]; [change (total (take 0 l)) with 0%N; lia|].
        specialize (Hfit ltac:(done)). lia.
      * intros y Hy%Hmax. rewrite firstn_cons total_cons. lia.
    + exists 0. split; [done|]. split; [done|]. intros y [= <-]. rewrite firstn_cons total_cons. lia.
Qed.

(** The first element is taken whatever its cost. *)
Lemma choose_first available l :
  exists n, choose available 0 true l = take n l /\ (l <> [] -> 1 <= n) /\
    ((total (take n l) <= available)%N \/ n <= 1) /\
    (forall x, l !! n = Some x -> (available < total (take (S n) l))%N).
Proof.
  destruct l as [|x l]; cbn [choose].
  - exists 0. split_and!; [done..|right; lia|done].
  - rewrite orb_true_r. destruct (choose_later available (0 + cost x)%N l) as (n & -> & Hfit & Hmax).
    exists (S n). split_and!; [done|lia| |].
    + destruct n as [|n]; [by right; lia|left]. specialize (Hfit ltac:(done)).
      rewrite firstn_cons total_cons. lia.
    + intros y Hy%Hmax. rewrite firstn_cons total_cons. lia.
Qed.

End choose.

(** ** Rendering *)

Section few_shot.
Context `{U : Unicode}.

(** What [new] establishes and every operation keeps. *)
Definition parsed (p : PromptTemplate) : Prop := pt_segments p = parse_template (pt_template p).

(** The prompt after some successful renders. *)
Definition rendered (n : nat) (p : PromptTemplate) : PromptTemplate := Nat.iter n bump_renders p.

Lemma rendered_template n p : pt_template (rendered n p) = pt_template p.
Proof. by induction n. Qed.
Lemma rendered_segments n p : pt_segments (rendered n p) = pt_segments p.
Proof. by induction n. Qed.
Lemma rendered_parsed n p : parsed p -> parsed (rendered n p).
Proof. unfold parsed. by rewrite rendered_template rendered_segments. Qed.
Lemma rendered_renders n p :
  (renders p < 2 ^ 64)%N -> renders (rendered n p) = ((renders p + N.of_nat n) mod 2 ^ 64)%N.
Proof.
  intros Hp. induction n as [|n IH].
  - change (rendered 0 p) with p. rewrite N.add_0_r N.mod_small //.
  - transitivity ((renders (rendered n p) + 1) mod 2 ^ 64)%N; [done|].
    rewrite IH N.Div0.add_mod_idemp_l. f_equal. lia.
Qed.
Lemma rendered_shift n p : rendered n (bump_renders p) = rendered (S n) p.
Proof. unfold rendered. by rewrite Nat.iter_succ_r. Qed.
Lemma rendered_add n m p : rendered n (rendered m p) = rendered (n + m) p.
Proof. unfold rendered. by rewrite Nat.iter_add. Qed.

(** An example the prompt can render, and its text. *)
Definition renderable (p : PromptTemplate) (example : ExampleVars) : Prop :=
  first_missing (PromptTemplate.variables p) example = None.
#[global] Instance renderable_dec p example : Decision (renderable p example).
Proof. unfold renderable. apply _. Defined.
Definition example_text (p : PromptTemplate) (example : ExampleVars) : string := render (pt_segments p) example.

Lemma format_renderable p example :
  PromptTemplate.format example p =
  match first_missing (PromptTemplate.variables p) example with
  | Some v => (Err (MissingVariable v), p)
  | None => (Ok (example_text p example), bump_renders p)
  end.
Proof.
  unfold PromptTemplate.format. rewrite format_template_spec. unfold PromptTemplate.variables.
  by destruct (first_missing _ _).
Qed.

Lemma format_examples_renderable p n selected :
  Forall (renderable p) selected ->
  FewShotPromptTemplate.format_examples selected (rendered n p) =
  (Ok (example_text p <$> selected), rendered (length selected + n) p).
Proof.
  intros Hsel. revert n. induction Hsel as [|e selected He Hsel IH]; intros n; [done|].
  unfold FewShotPromptTemplate.format_examples in *. cbn [act_map]. unfold mbind, act_bind.
  rewrite format_renderable. unfold PromptTemplate.variables. rewrite rendered_segments.
  unfold renderable, PromptTemplate.variables in He. rewrite He.
  change (bump_renders (rendered n p)) with (rendered (S n) p). specialize (IH (S n)).
  unfold example_text at 1. rewrite rendered_segments. rewrite IH.
  by replace (length (e :: selected) + n) with (length selected + S n) by (cbn; lia).
Qed.

(** ** Selectors *)

(** What a selector owes the template: it picks examples the prompt can render, and
    moves nothing of the prompt but the counter. *)
Class SoundSelector (S : Type) `{!ExampleSelector S} : Prop := selector_sound :
  forall (self : S) input prefix suffix p, exists selected n,
    select_examples_by_length self input prefix suffix p = (selected, rendered n p) /\
    Forall (renderable p) selected.

Section length_selector.
Context (hash_order : TemplateVars -> list string).

Definition example_cost (p : PromptTemplate) (example : ExampleVars) : N :=
  (char_count (example_text p example) + 10)%N.

(** The room the prefix, the suffix and the input leave. *)
Definition room (self : LengthBasedExampleSelector) (input : TemplateVars) (prefix suffix : string) : N :=
  (ls_max_length self - (char_count prefix + char_count suffix +
    char_count (LengthBasedExampleSelector.input_text hash_order input)))%N.

Lemma select_by_length_loop_choose p available used examples selected k :
  exists n, LengthBasedExampleSelector.select_by_length_loop available used examples selected (rendered k p) =
    (selected ++ choose (example_cost p) available used (bool_decide (selected = [])) (filter (renderable p) examples),
     rendered n p).
Proof.
  revert used selected k. induction examples as [|e examples IH]; intros used selected k;
    cbn [LengthBasedExampleSelector.select_by_length_loop].
  - exists k. by rewrite filter_nil app_nil_r.
  - rewrite format_renderable filter_cons. unfold PromptTemplate.variables. rewrite rendered_segments.
    change (bump_renders (rendered k p)) with (rendered (Datatypes.S k) p).
    unfold example_text. rewrite rendered_segments. change (render (pt_segments p) e) with (example_text p e).
    destruct (first_missing _ e) as [v|] eqn:E.
    + rewrite decide_False; [|unfold renderable, PromptTemplate.variables; by rewrite E]. apply IH.
    + rewrite decide_True; [|exact E]. cbn [choose].
      change (char_count (example_text p e) + 10)%N with (example_cost p e).
      destruct (_ || _).
      * destruct (IH (used + example_cost p e)%N (selected ++ [e]) (Datatypes.S k)) as [n ->].
        exists n. rewrite -app_assoc. rewrite (bool_decide_false (selected ++ [e] = [])); [done|].
        by destruct selected.
      * exists (Datatypes.S k). by rewrite app_nil_r.
Qed.

Lemma length_selector_chooses self input prefix suffix p :
  exists n, LengthBasedExampleSelector.select_examples_by_length hash_order self input prefix suffix p =
    (choose (example_cost p) (room self input prefix suffix) 0 true (filter (renderable p) (ls_examples self)),
     rendered n p).
Proof. apply (select_by_length_loop_choose p _ 0 _ [] 0). Qed.

Lemma choose_sublist {A} (cost : A -> N) available used first l : choose cost available used first l `sublist_of` l.
Proof.
  revert used first. induction l as [|x l IH]; intros used first; cbn [choose]; [done|].
  destruct (_ || _); [by apply sublist_skip|apply sublist_nil_l].
Qed.

#[export] Instance length_selector_sound :
  @SoundSelector LengthBasedExampleSelector (LengthBasedExampleSelector.selector hash_order).
Proof.
  intros self input prefix suffix p. cbn.
  destruct (length_selector_chooses self input prefix suffix p) as [n ->].
  do 2 eexists. split; [done|]. apply Forall_forall. intros e He.
  eapply elem_of_sublist in He; [|apply choose_sublist]. by apply list_elem_of_filter in He as [? _].
Qed.

Lemma select_loop_choose available used examples selected :
  LengthBasedExampleSelector.select_loop hash_order available used examples selected =
  selected ++ choose (LengthBasedExampleSelector.value_length hash_order) available used
    (bool_decide (selected = [])) examples.
Proof.
  revert used selected. induction examples as [|e examples IH]; intros used selected; cbn.
  - by rewrite app_nil_r.
  - destruct (_ || _); [|by rewrite app_nil_r]. rewrite IH -app_assoc.
    rewrite (bool_decide_false (selected ++ [e] = [])); [done|]. by destruct selected.
Qed.

(** What the length-based selector picks: of the examples the prompt can render, in
    order, a prefix whose texts, with ten characters each for separators, fit in the
    room the prefix, the suffix and the input leave, and which the next example would
    overflow; but the first of them is picked even when it alone does not fit, so the
    cap is exceeded by at most one example standing alone.  Selection without a prompt
    does the same with the lengths of the values. *)
Theorem length_selector_budget self input prefix suffix p :
  let usable := filter (renderable p) (ls_examples self) in
  let cost := example_cost p in
  let picked := (LengthBasedExampleSelector.select_examples_by_length hash_order self input prefix suffix p).1 in
  (exists n, picked = take n usable /\ (usable <> [] -> 1 <= n) /\
    ((total cost picked <= room self input prefix suffix)%N \/ n <= 1) /\
    (forall e, usable !! n = Some e -> (room self input prefix suffix < total cost (take (Datatypes.S n) usable))%N)) /\
  let vcost := LengthBasedExampleSelector.value_length hash_order in
  let vroom := (ls_max_length self - char_count (LengthBasedExampleSelector.input_text hash_order input))%N in
  let vpicked := LengthBasedExampleSelector.select_examples hash_order self input in
  exists n, vpicked = take n (ls_examples self) /\ (ls_examples self <> [] -> 1 <= n) /\
    ((total vcost vpicked <= vroom)%N \/ n <= 1) /\
    (forall e, ls_examples self !! n = Some e -> (vroom < total vcost (take (Datatypes.S n) (ls_examples self)))%N).
Proof.
  intros usable cost picked. split.
  - unfold picked. destruct (length_selector_chooses self input prefix suffix p) as [k ->]. cbn [fst].
    fold usable cost. destruct (choose_first cost (room self input prefix suffix) usable) as (n & -> & Hn).
    by exists n.
  - intros vcost vroom vpicked. unfold vpicked, LengthBasedExampleSelector.select_examples.
    rewrite select_loop_choose. cbn [app].
    destruct (choose_first vcost vroom (ls_examples self)) as (n & Hc & Hn).
    exists n. fold vcost vroom. rewrite bool_decide_true // Hc. by split.
Qed.

End length_selector.

(** ** Validated templates *)

Section validated.
Context {S : Type} `{!ExampleSelector S} `{!SoundSelector S}.
Implicit Types self : FewShotPromptTemplate S.

(** The examples [format] works with, and the prompt after choosing them. *)
Definition selection self (vars : TemplateVars) : list ExampleVars * PromptTemplate :=
  match fs_example_selector self with
  | Some selector =>
      select_examples_by_length selector vars (fs_prefix self) (fs_suffix self) (fs_example_prompt self)
  | None => (fs_examples self, fs_example_prompt self)
  end.

Lemma check_variables_spec declared vars :
  FewShotPromptTemplate.check_variables declared vars =
  match first_missing declared vars with Some v => Err (MissingVariable v) | None => Ok () end.
Proof.
  induction declared as [|v declared IH]; [done|]. rewrite first_missing_cons. cbn.
  by destruct (vars !! v).
Qed.

Lemma check_examples_ok required index examples :
  FewShotPromptTemplate.check_examples required index examples = Ok () ->
  Forall (fun e => first_missing required e = None) examples.
Proof.
  revert index. induction examples as [|e examples IH]; intros index; cbn; [constructor|].
  unfold first_missing at 1. destruct (list_find _ required) as [[i v]|] eqn:E; [done|].
  intros H%IH. constructor; [|done]. unfold first_missing. by rewrite E.
Qed.

(** Validation, taken apart. *)
Lemma validate_ok self :
  FewShotPromptTemplate.validate self = Ok () ->
  (forall v, v ∈ template_variables (parse_template (fs_prefix self)) \/
             v ∈ template_variables (parse_template (fs_suffix self)) <-> v ∈ fs_input_variables self) /\
  Forall (renderable (fs_example_prompt self)) (fs_examples self).
Proof.
  unfold FewShotPromptTemplate.validate.
  intros (? & _ & (? & _ & (? & _ & (? & Hm & H)%result_bind_ok)%result_bind_ok)%result_bind_ok)%result_bind_ok.
  split.
  - destruct (bool_decide_reflect (filter (fun var => var ∉ dedup_in_order (fs_input_variables self))
      (dedup_in_order (template_variables (parse_template (fs_prefix self)) ++
                       template_variables (parse_template (fs_suffix self)))) = [])) as [Hu|]; [|done].
    cbn [negb orb] in Hm. case_bool_decide as Hn; [|done]. intros v. rewrite -elem_of_app.
    assert (forall l k, filter (fun var => var ∉ dedup_in_order k) (dedup_in_order l) = [] -> v ∈ l -> v ∈ k)
      as Hsub.
    { intros l k Hf Hl. apply dec_stable. intros Hk.
      assert (v ∈ filter (fun var => var ∉ dedup_in_order k) (dedup_in_order l)) as Hin
        by by rewrite list_elem_of_filter !elem_of_dedup.
      rewrite Hf in Hin. by apply elem_of_nil in Hin. }
    split; by apply Hsub.
  - apply check_examples_ok in H. eapply Forall_impl; [exact H|]. intros e.
    unfold renderable. by rewrite first_missing_dedup.
Qed.

Lemma format_part_ok text vars :
  (forall v, v ∈ template_variables (parse_template text) -> is_Some (vars !! v)) ->
  FewShotPromptTemplate.format_part text vars = Ok (render (parse_template text) vars).
Proof.
  intros Hv%first_missing_None. unfold FewShotPromptTemplate.format_part.
  case_bool_decide as Ht; [by subst|]. rewrite format_renderable.
  change (PromptTemplate.variables (PromptTemplate.new text)) with (template_variables (parse_template text)).
  by rewrite Hv.
Qed.

(** A validated few-shot template formats for every caller that supplies the declared
    variables, and only for those.  Missing a declared variable is the error, for the
    first one in the order of declaration, before any example is touched; otherwise the
    prompt is the rendered prefix, the rendered examples and the rendered suffix, empty
    parts left out, and the example prompt has counted a render per example besides
    those of the selector.  This holds without a selector and with any selector that
    picks examples the prompt can render, the length-based one among them. *)
Theorem validated_few_shot_formats self vars :
  FewShotPromptTemplate.validate self = Ok () ->
  FewShotPromptTemplate.format vars self =
  match first_missing (fs_input_variables self) vars with
  | Some v => (Err (MissingVariable v), self)
  | None =>
      let '(selected, prompt) := selection self vars in
      let texts := example_text (fs_example_prompt self) <$> selected in
      (Ok (FewShotPromptTemplate.compose (render (parse_template (fs_prefix self)) vars)
             (str_join (fs_example_separator self) texts) (render (parse_template (fs_suffix self)) vars)),
       FewShotPromptTemplate.set_prompt (rendered (length selected) prompt) self)
  end.
Proof.
  intros [Hdecl Hex]%validate_ok. unfold FewShotPromptTemplate.format. fold (selection self vars).
  rewrite check_variables_spec. destruct (first_missing _ vars) as [v|] eqn:Hm; [done|].
  rewrite first_missing_None in Hm.
  assert (exists selected n, selection self vars = (selected, rendered n (fs_example_prompt self)) /\
    Forall (renderable (fs_example_prompt self)) selected) as (selected & n & -> & Hsel).
  { unfold selection. destruct (fs_example_selector self) as [selector|].
    - apply selector_sound.
    - by exists (fs_examples self), 0. }
  rewrite format_examples_renderable // rendered_add. cbn [mbind result_bind].
  rewrite !format_part_ok //; intros v Hv; apply Hm, Hdecl; auto.
Qed.

End validated.

End few_shot.
