(* ===== verification/PromptSamples.v ===== *)
(** * Concrete prompts

    The theorems on prompts applied to concrete templates, with the Unicode tables cut
    down to ASCII, a hash map that lists its keys in map order, and a digest of the bytes
    of a text. *)

From stdpp Require Import gmap strings list.
From Stdlib Require Import Ascii.
From S2P Require Import Prelude Json Message TemplateParser PromptTemplate PromptFacts.
From S2P Require Import Memory SummaryMemory PromptRegistry FewShot.

(** ** Instances *)

Definition ascii_letter (n : N) : bool := ((65 <=? n) && (n <=? 90) || (97 <=? n) && (n <=? 122))%N.

#[export] Instance ascii_unicode : Unicode.
Proof.
  refine {| is_alphabetic := ascii_letter;
            is_alphanumeric := fun n => ascii_letter n || ((48 <=? n) && (n <=? 57))%N;
            debug_str := fun s => String (ascii_of_nat 34) s +:+ String (ascii_of_nat 34) EmptyString |};
    reflexivity.
Defined.

Definition map_order (vars : TemplateVars) : list string := (map_to_list vars).*1.

Lemma map_order_perm vars : map_order vars ≡ₚ (map_to_list vars).*1.
Proof. done. Qed.

(** The bytes of the text, as digest: twice as many hexadecimal digits. *)
Fixpoint byte_digest (s : string) : list N :=
  match s with EmptyString => [] | String c s' => N_of_ascii c :: byte_digest s' end.

(** The byte two hexadecimal digits stand for. *)
Definition unhex (c : ascii) : N :=
  let n := N_of_ascii c in if (n <? 58)%N then (n - 48)%N else (n - 87)%N.

Lemma hex_byte a : exists hi lo, hex_digits 2 (N_of_ascii a) = String hi (String lo EmptyString) /\
  ascii_of_N (unhex hi * 16 + unhex lo) = a.
Proof. destruct a as [[] [] [] [] [] [] [] []]; do 2 eexists; split; reflexivity. Qed.

Lemma byte_hash_inj s t : content_hash byte_digest s = content_hash byte_digest t -> s = t.
Proof.
  unfold content_hash. revert t. induction s as [|a s IH]; intros [|b t]; cbn [byte_digest foldr].
  - done.
  - by destruct (hex_byte b) as (hi & lo & -> & _).
  - by destruct (hex_byte a) as (hi & lo & -> & _).
  - destruct (hex_byte a) as (hi & lo & -> & Ha), (hex_byte b) as (hi' & lo' & -> & Hb).
    cbn [String.append]. intros [= -> -> H%IH]. congruence.
Qed.

(** ** String and chat templates *)

Definition greeting : string := "Hello, {name}! {{kept}} {place}".
Definition greet_vars : TemplateVars := {["name" := "Sam"; "place" := "here"; "spare" := "x"]}.

Example greeting_parsed : parse_template greeting =
  [Text "Hello, "; Var "name"; Text "! {kept} "; Var "place"].
Proof. reflexivity. Qed.

Example greeting_lenient :
  (PromptTemplate.format greet_vars (PromptTemplate.new greeting)).1 = Ok "Hello, Sam! {kept} here".
Proof. vm_compute. reflexivity. Qed.

Example greeting_strict :
  (PromptTemplate.format_strict map_order greet_vars (PromptTemplate.new greeting)).1 =
  Err (UnusedVariables greeting ["spare"]).
Proof. vm_compute. reflexivity. Qed.

Example malformed_template : validate_template "Hi {name" = Err (MalformedTemplate unclosed_issue).
Proof. reflexivity. Qed.

(** The same missing variable, with and without the message it is missing in. *)
Definition one_message : ChatPromptTemplate := ChatPromptTemplate.new [Message.human "Hi {name}"].

Example chat_error_differs :
  ChatPromptTemplate.format one_message ∅ = Err (MessageFormat 0 "Human" (MissingVariable "name")) /\
  ChatPromptTemplate.format_strict map_order one_message ∅ = Err (MissingVariable "name").
Proof. by vm_compute. Qed.

Lemma strict_formatting_witness :
  PromptTemplate.format_strict map_order greet_vars (PromptTemplate.new greeting) =
    (Err (UnusedVariables greeting (extras map_order ["name"; "place"] greet_vars)), PromptTemplate.new greeting).
Proof.
  rewrite (proj1 (strict_formatting map_order map_order_perm greeting [Message.human "Hi {name}"] greet_vars)).
  vm_compute. reflexivity.
Defined.

(** ** The registry *)

Definition v1 : string := "Hello, {name}!".
Definition v2 : string := "Hi {name}, welcome!".
Definition registry_calls : list Request :=
  [Register "greeting" v1; Register "greeting" v2; Register "bad name" v1; Rollback "greeting" 1;
   ResolveRef "greeting@2"; Resolve "greeting" (Hash (content_hash byte_digest v1)); Fetch "greeting";
   History "greeting"; Namespaces; Count].

Lemma registry_refines_log_witness :
  exists w, serve_all byte_digest registry_calls PromptRegistry.new =
      Some ((log_serve_all byte_digest registry_calls ∅).1, w) /\
    forall ns, w !! ns = space_of byte_digest ns <$> (log_serve_all byte_digest registry_calls ∅).2 !! ns.
Proof. apply (registry_refines_log byte_digest registry_calls). reflexivity. Defined.

Example registry_log : (log_serve_all byte_digest registry_calls ∅).2 = {["greeting" := [v1; v2; v1]]}.
Proof. vm_compute. reflexivity. Qed.

Definition later_calls : list Request := [Register "greeting" v2; Register "other" v1].
Definition after_first : PromptRegistry := (PromptRegistry.register byte_digest "greeting" v1 ∅).2.
Definition after_later : PromptRegistry :=
  match serve_all byte_digest later_calls after_first with Some (_, w) => w | None => ∅ end.

Lemma registered_is_pinned_witness : exists r,
  PromptRegistry.resolve "greeting" (Number 1) after_later = Some (Ok r) /\ rp_template r = v1.
Proof.
  destruct (registered_is_pinned byte_digest [] "greeting" v1 later_calls [] ∅
    (mkRegisteredPrompt "greeting" 1 (content_hash byte_digest v1) v1 ["name"]) after_first
    [RRecord (Ok (mkRegisteredPrompt "greeting" 2 (content_hash byte_digest v2) v2 ["name"]));
     RRecord (Ok (mkRegisteredPrompt "other" 1 (content_hash byte_digest v1) v1 ["name"]))] after_later)
    as (_ & _ & H & _).
  - reflexivity.
  - vm_compute. lia.
  - intros t' H. by apply byte_hash_inj.
  - reflexivity.
  - vm_compute. reflexivity.
  - vm_compute. reflexivity.
  - eexists. split; [exact H|done].
Defined.

(** ** Few-shot prompts *)

#[export] Instance map_order_selector : ExampleSelector LengthBasedExampleSelector :=
  LengthBasedExampleSelector.selector map_order.
#[export] Instance map_order_selector_sound : SoundSelector LengthBasedExampleSelector :=
  length_selector_sound map_order.

Definition fruit : ExampleVars := {["input" := "apple"; "output" := "fruit"]}.
Definition flower : ExampleVars := {["input" := "rose"; "output" := "flower"]}.
Definition broken : ExampleVars := {["input" := "stone"]}.
Definition example_template : PromptTemplate := PromptTemplate.new "in: {input} out: {output}".

Definition classify_words : FewShotPromptTemplate LengthBasedExampleSelector :=
  FewShotPromptTemplate.new [fruit; flower] example_template "Classify:" "in: {input} out:" ["input"].

Definition with_pool : FewShotPromptTemplate LengthBasedExampleSelector :=
  FewShotPromptTemplate.with_example_selector (LengthBasedExampleSelector.new [broken; flower]) classify_words.

Definition ask : TemplateVars := {["input" := "oak"]}.

Definition few_shot_text : string :=
  str_join (newline +:+ newline) ["Classify:"; "in: apple out: fruit"; "in: rose out: flower"; "in: oak out:"].

Lemma validated_few_shot_formats_witness :
  FewShotPromptTemplate.validate classify_words = Ok () /\
  FewShotPromptTemplate.format ask classify_words =
    (Ok few_shot_text, FewShotPromptTemplate.set_prompt (rendered 2 example_template) classify_words) /\
  FewShotPromptTemplate.format ∅ classify_words = (Err (MissingVariable "input"), classify_words).
Proof.
  split; [vm_compute; reflexivity|]. split.
  - rewrite (validated_few_shot_formats classify_words ask); [vm_compute; reflexivity|vm_compute; reflexivity].
  - rewrite (validated_few_shot_formats classify_words ∅); [reflexivity|vm_compute; reflexivity].
Defined.

(** Validation looks at the template's own examples, not at the pool of the selector: the
    broken example is dropped from the prompt without a word. *)
Example selector_pool_unchecked :
  FewShotPromptTemplate.validate with_pool = Ok () /\
  (FewShotPromptTemplate.format ask with_pool).1 =
    Ok (str_join (newline +:+ newline) ["Classify:"; "in: rose out: flower"; "in: oak out:"]).
Proof. by vm_compute. Qed.

(** One example longer than the cap is used all the same. *)
Example cap_exceeded :
  (FewShotPromptTemplate.format ask
    (FewShotPromptTemplate.with_example_selector
       (LengthBasedExampleSelector.with_max_length 5 (LengthBasedExampleSelector.new [fruit])) classify_words)).1 =
  Ok (str_join (newline +:+ newline) ["Classify:"; "in: apple out: fruit"; "in: oak out:"]).
Proof. vm_compute. reflexivity. Qed.

(** ** Summaries *)

(** The default prompts quote the summary and the lines, whatever is in them. *)
Example default_prompts_quote s l :
  Forall (fun prompt => template_variables (parse_template prompt) = ["summary"; "new_lines"] /\
            summary_request prompt s l = TemplateParser.render (parse_template prompt) {["summary" := s; "new_lines" := l]})
         [SUMMARY_PROMPT; SUMMARY_BUFFER_PROMPT].
Proof.
  assert (Forall (fun prompt => template_variables (parse_template prompt) = ["summary"; "new_lines"])
            [SUMMARY_PROMPT; SUMMARY_BUFFER_PROMPT]) as H.
  { apply Forall_cons; split; [by vm_compute|]. apply Forall_singleton. by vm_compute. }
  eapply Forall_impl; [exact H|]. intros prompt Hp. split; [done|]. apply request_fills. rewrite Hp. set_solver.
Qed.

(** A prompt with any other placeholder is sent without them, and the answer counts. *)
Example unformatted_prompt_loses_lines : summary_request "Summarize {history}" "so far" "Human: hi" = "Summarize {history}".
Proof. reflexivity. Qed.

(** A model that fails on its second call. *)
Definition second_fails (messages : list Message) (calls : nat) : result string string * nat :=
  (if calls =? 1 then Err "down" else Ok ("summary " +:+ pretty.pretty calls), S calls).
Definition summary_start : SummaryMemory (nat * list (list Message * result string string)) := summary_new (0, []).
Definition three_turns : list (string * string) := [("a", "b"); ("c", "d"); ("e", "f")].

Example pending_is_retried :
  (fun m => (sm_buffer m, sm_pending_lines m, content <$> sm_chat_memory m,
             (fun b => String.length b.1) <$> answered (sm_llm m).2))
    (after (act_iter (save_turn second_fails summary_start) three_turns) summary_start) =
  ("summary 2", "", ["c"; "d"; "e"; "f"], [760; 784]).
Proof. vm_compute. reflexivity. Qed.

Lemma summary_lossless_witness :
  fresh summary_start /\
  exists m, act_iter (save_turn second_fails summary_start) three_turns summary_start = (Ok (), m) /\
    kept_by summary_start three_turns m.
Proof.
  assert (quotes_lines (sm_summary_prompt summary_start)) as Hq.
  { assert (template_variables (parse_template SUMMARY_PROMPT) = ["summary"; "new_lines"]) as H by by vm_compute.
    change (sm_summary_prompt summary_start) with SUMMARY_PROMPT. unfold quotes_lines. rewrite H. set_solver. }
  split; [by split_and!|]. apply (summary_lossless second_fails summary_start three_turns); [by split_and!|exact Hq|done].
Defined.

(** A window of [2 ^ 63] turns wraps to one of none. *)
Lemma huge_window_keeps_nothing n messages :
  N.of_nat n = (2 ^ 63)%N -> Forall plain messages -> trim_chat_memory n messages = [].
Proof.
  intros Hn Hp. unfold trim_chat_memory, usize_double. rewrite Hn. cbn -[take drop Nat.ltb].
  destruct messages as [|m messages]; [done|]. cbn [length Nat.ltb Nat.leb]. rewrite Nat.sub_0_r.
  rewrite take_ge // drop_ge // app_nil_r. by apply old_plain.
Qed.

Definition buffer_start : SummaryBuffer (nat * list (list Message * result string string)) := summary_buffer_new (0, []) 2.
Definition four_turns : list (string * string) := three_turns ++ [("g", "h")].

(** One token a character: the second turn exceeds the budget, the third fails to be
    summarized, and the fourth summarizes what both left. *)
Example excess_is_summarized :
  (fun m => (sb_buffer m, content <$> sb_chat_memory m, sb_failures m, failed_calls (sb_llm m).2))
    (after (act_iter (save_buffer_turn second_fails String.length buffer_start) four_turns) buffer_start) =
  ("summary 2", ["g"; "h"], 0, 1).
Proof. vm_compute. reflexivity. Qed.

Lemma summary_buffer_bounded_witness :
  fresh_buffer buffer_start /\
  exists m, act_iter (save_buffer_turn second_fails String.length buffer_start) four_turns buffer_start = (Ok (), m) /\
    accounted_for String.length buffer_start four_turns m.
Proof.
  assert (fresh_buffer buffer_start) as Hf by (split_and!; [done..|vm_compute; lia]).
  split; [exact Hf|]. exact (summary_buffer_bounded second_fails String.length buffer_start four_turns Hf).
Defined.

(** Of a window that is kept the tool messages go, with the calls that asked for them,
    though only what is before the window was summarized. *)
Definition weather_call : ToolCall := mkToolCall "c1" "function" false (mkFunctionCall "weather" "{}").
Definition tool_history : SummaryBuffer (nat * list (list Message * result string string)) :=
  SummaryBuffer.set_max_token_limit 5
    (summary_buffer_state (0, []) "" [Message.human "a long question"; Message.ai_with_tool_calls "" [weather_call];
       Message.tool "c1" "42"] None 0 buffer_start).

Example window_tools_lost :
  let m := after (save_buffer_turn second_fails String.length buffer_start ("a", "b")) tool_history in
  (content <$> sb_chat_memory m, answered (sb_llm m).2) =
  (["a"; "b"], [(summary_request SUMMARY_BUFFER_PROMPT "" "Human: a long question", "summary 0")]).
Proof. vm_compute. reflexivity. Qed.
