(* ===== verification/Process.v ===== *)
(** * Asynchronous processes

    An async function is a process: it runs up to its next call of code outside (a tool,
    an approval, a store), suspends, and goes on with the answer.  [Proc W A] is such a
    process over a shared world [W], [run] executes one alone, and [steps] lists the
    worlds another task, or a crash, can find it at.  A process makes finitely many
    calls, as the functions modelled here do. *)

From stdpp Require Import list.
From S2P Require Import Prelude.

Inductive Proc (W A : Type) : Type :=
| Return (a : A)
| Await (k : W -> Proc W A * W).
Arguments Return {W A} a.
Arguments Await {W A} k.

Section process.
Context {W : Type}.

(** One call of code outside: it acts on the world and answers. *)
Definition call {A} (act : W -> A * W) : Proc W A :=
  Await (fun w => let '(a, w) := act w in (Return a, w)).

(** A call without an answer. *)
Definition tell (act : W -> W) : Proc W () := call (fun w => ((), act w)).

Fixpoint run {A} (p : Proc W A) (w : W) : A * W :=
  match p with
  | Return a => (a, w)
  | Await k => let '(p, w) := k w in run p w
  end.

#[export] Instance proc_ret : MRet (Proc W) := fun A a => Return a.
#[export] Instance proc_bind : MBind (Proc W) := fun A B f =>
  fix bind p :=
    match p with
    | Return a => f a
    | Await k => Await (fun w => let '(p, w) := k w in (bind p, w))
    end.

(** The effects of a list of calls, one after the other. *)
Fixpoint tell_all (acts : list (W -> W)) : Proc W () :=
  match acts with
  | [] => mret ()
  | act :: acts => tell act ;; tell_all acts
  end.

(** The world after each of the first [n] calls of a process that runs alone, and what is
    left of the process. *)
Fixpoint steps {A} (n : nat) (p : Proc W A) (w : W) : Proc W A * W :=
  match n, p with
  | 0, _ => (p, w)
  | _, Return _ => (p, w)
  | S n, Await k => let '(p, w) := k w in steps n p w
  end.

Lemma run_call {A} (act : W -> A * W) w : run (call act) w = act w.
Proof. unfold call. cbn. by destruct (act w). Qed.

Lemma run_tell (act : W -> W) w : run (tell act) w = ((), act w).
Proof. done. Qed.

(** Induction on what is left of a process after its next call. *)
Fixpoint proc_induction {A} (P : Proc W A -> Prop) (Hret : forall a, P (Return a))
    (Hawait : forall k, (forall w, P (k w).1) -> P (Await k)) (p : Proc W A) : P p :=
  match p with
  | Return a => Hret a
  | Await k =>
      Hawait k (fun w => match k w as r return P r.1 with (p, w') => proc_induction P Hret Hawait p end)
  end.

Lemma run_bind {A B} (p : Proc W A) (f : A -> Proc W B) w :
  run (p ≫= f) w = let '(a, w) := run p w in run (f a) w.
Proof.
  revert w. induction p as [a|k IH] using proc_induction; intros w; [done|]. cbn.
  pose proof (IH w) as H. destruct (k w) as [p w']. apply H.
Qed.

Lemma run_tell_all acts w : run (tell_all acts) w = ((), foldl (fun w act => act w) w acts).
Proof. revert w. induction acts as [|act acts IH]; intros w; [done|]. cbn. apply IH. Qed.

Lemma steps_run {A} n (p : Proc W A) w :
  let '(p', w') := steps n p w in run p' w' = run p w.
Proof.
  revert p w. induction n as [|n IH]; intros p w; [done|]. destruct p as [a|k]; cbn; [done|].
  destruct (k w) as [p w'] eqn:E. apply IH.
Qed.

(** The steps of a sequence are those of its first part, then those of the rest. *)
Lemma steps_bind {A B} n (p : Proc W A) (f : A -> Proc W B) w :
  (exists p', steps n (p ≫= f) w = (p' ≫= f, (steps n p w).2) /\ (steps n p w).1 = p') \/
  (exists m, m <= n /\ steps n (p ≫= f) w = steps m (f (run p w).1) (run p w).2).
Proof.
  revert p w. induction n as [|n IH]; intros p w; [by left; exists p|].
  destruct p as [a|k].
  - right. exists (S n). done.
  - cbn. destruct (k w) as [p w'] eqn:E. cbn.
    destruct (IH p w') as [(p' & Hs & Hp)|(m & Hm & Hs)].
    + left. by exists p'.
    + right. exists m. split; [lia|done].
Qed.

(** An invariant of every intermediate world. *)
Definition always {A} (I : W -> Prop) (p : Proc W A) (w : W) : Prop :=
  forall n, I (steps n p w).2.

Lemma always_return {A} (I : W -> Prop) (a : A) w : I w -> always I (Return a) w.
Proof. intros Hw n. by destruct n. Qed.

Lemma always_await {A} (I : W -> Prop) (k : W -> Proc W A * W) w :
  I w -> always I (k w).1 (k w).2 -> always I (Await k) w.
Proof.
  intros Hw Hk [|n]; [done|]. cbn. specialize (Hk n). by destruct (k w).
Qed.

Lemma always_bind {A B} (I : W -> Prop) (p : Proc W A) (f : A -> Proc W B) w :
  always I p w -> always I (f (run p w).1) (run p w).2 -> always I (p ≫= f) w.
Proof.
  revert w. induction p as [a|k IH] using proc_induction; intros w Hp Hf; [done|].
  cbn in Hf |- *. apply always_await; [exact (Hp 0)|].
  specialize (IH w). destruct (k w) as [p w'] eqn:E. cbn in *. apply IH; [|done].
  intros n. specialize (Hp (S n)). cbn in Hp. by rewrite E in Hp.
Qed.

Lemma always_run {A} (I : W -> Prop) (p : Proc W A) w : always I p w -> I (run p w).2.
Proof.
  revert w. induction p as [a|k IH] using proc_induction; intros w Hp; [exact (Hp 0)|].
  cbn. specialize (IH w). destruct (k w) as [p w'] eqn:E. apply IH.
  intros n. specialize (Hp (S n)). cbn in Hp. by rewrite E in Hp.
Qed.

Lemma always_call {A} (I : W -> Prop) (act : W -> A * W) w : I w -> I (act w).2 -> always I (call act) w.
Proof.
  intros Hw Ha. apply always_await; [done|]. destruct (act w) as [a w']. by apply always_return.
Qed.

Lemma always_tell_all (I : W -> Prop) acts w :
  I w -> (forall act w, act ∈ acts -> I w -> I (act w)) -> always I (tell_all acts) w.
Proof.
  revert w. induction acts as [|act acts IH]; intros w Hw Hacts; [by apply always_return|].
  change (tell_all (act :: acts)) with (tell act ≫= fun _ => tell_all acts).
  apply always_bind.
  - apply always_call; [done|]. apply Hacts; [constructor|done].
  - rewrite run_tell. apply IH; [apply Hacts; [constructor|done]|]. intros act' w' ?. apply Hacts. by constructor.
Qed.

Lemma steps_add {A} n m (p : Proc W A) w :
  steps (n + m) p w = let '(p, w) := steps n p w in steps m p w.
Proof.
  revert p w. induction n as [|n IH]; intros p w; [done|]. destruct p as [a|k]; cbn; [by destruct m|].
  destruct (k w) as [p w']. apply IH.
Qed.

(** ** What a process may answer *)

(** Run alone from any world, the answer satisfies [Phi]. *)
Definition ends {A} (Phi : A -> Prop) (p : Proc W A) : Prop := forall w, Phi (run p w).1.

Lemma ends_return {A} (Phi : A -> Prop) a : Phi a -> ends Phi (mret a).
Proof. by intros H w. Qed.

Lemma ends_call {A} (Phi : A -> Prop) (act : W -> A * W) : (forall w, Phi (act w).1) -> ends Phi (call act).
Proof. intros H w. rewrite run_call. apply H. Qed.

Lemma ends_bind {A B} (Phi : B -> Prop) (p : Proc W A) (f : A -> Proc W B) :
  ends (fun a => ends Phi (f a)) p -> ends Phi (p ≫= f).
Proof. intros H w. rewrite run_bind. specialize (H w). destruct (run p w) as [a w']. apply H. Qed.

Lemma ends_any {A B} (Phi : B -> Prop) (p : Proc W A) (f : A -> Proc W B) :
  (forall a, ends Phi (f a)) -> ends Phi (p ≫= f).
Proof. intros H. apply ends_bind. intros w. apply H. Qed.

Lemma ends_mono {A} (Phi Psi : A -> Prop) (p : Proc W A) :
  (forall a, Phi a -> Psi a) -> ends Phi p -> ends Psi p.
Proof. intros H Hp w. by apply H. Qed.

End process.

Create HintDb lc_proc.
#[export] Hint Rewrite @run_bind @run_call @run_tell @run_tell_all : lc_proc.

(** Run a process one call at a time. *)
Ltac run_step := autorewrite with lc_proc; cbn [run mret proc_ret fst snd].

(** * What a process guarantees among others

    Between two calls of a process other tasks change the world at will.  [tracks I R Q s p]
    says that a process keeps what it promises all the same: from any world that satisfies
    the invariant [I], each of its calls is allowed by [R], which also moves the state [s]
    that belongs to the process, and what it answers satisfies [Q]. *)

Section tracks.
Context {W St : Type} (I : W -> Prop) (R : St -> W -> W -> St -> Prop).

Fixpoint tracks {A} (Q : A -> St -> Prop) (s : St) (p : Proc W A) : Prop :=
  match p with
  | Return a => Q a s
  | Await k => forall w, I w -> match k w with (p, w') => exists s', R s w w' s' /\ tracks Q s' p end
  end.

Lemma tracks_ret {A} (Q : A -> St -> Prop) s a : Q a s -> tracks Q s (mret a).
Proof. done. Qed.

Lemma tracks_step {A} (Q : A -> St -> Prop) s k w :
  tracks Q s (Await k) -> I w -> exists s', R s w (k w).2 s' /\ tracks Q s' (k w).1.
Proof. intros Hk Hw. specialize (Hk w Hw). by destruct (k w). Qed.

Lemma tracks_bind {A B} (Q : A -> St -> Prop) (Q' : B -> St -> Prop) s (p : Proc W A) (f : A -> Proc W B) :
  tracks Q s p -> (forall a s', Q a s' -> tracks Q' s' (f a)) -> tracks Q' s (p ≫= f).
Proof.
  intros Hp Hf. revert s Hp. induction p as [a|k IH] using proc_induction; intros s Hp; [by apply Hf|].
  cbn. intros w Hw. specialize (IH w). destruct (tracks_step Q s k w Hp Hw) as (s' & HR & Ht).
  destruct (k w) as [p w']. exists s'. split; [done|]. by apply IH.
Qed.

Lemma tracks_call {A} (Q : A -> St -> Prop) s (act : W -> A * W) :
  (forall w, I w -> exists s', R s w (act w).2 s' /\ Q (act w).1 s') -> tracks Q s (call act).
Proof. intros H w Hw. cbn. specialize (H w Hw). by destruct (act w). Qed.

Lemma tracks_tell (Q : () -> St -> Prop) s (act : W -> W) :
  (forall w, I w -> exists s', R s w (act w) s' /\ Q () s') -> tracks Q s (tell act).
Proof. intros H. by apply tracks_call. Qed.

Lemma tracks_mono {A} (Q Q' : A -> St -> Prop) s (p : Proc W A) :
  tracks Q s p -> (forall a s, Q a s -> Q' a s) -> tracks Q' s p.
Proof.
  intros Hp HQ. revert s Hp. induction p as [a|k IH] using proc_induction; intros s Hp; [by apply HQ|].
  cbn. intros w Hw. specialize (IH w). destruct (tracks_step Q s k w Hp Hw) as (s' & HR & Ht).
  destruct (k w) as [p w']. exists s'. split; [done|]. by apply IH.
Qed.
End tracks.

(** ** Processes without a state of their own *)

Section guarantees.
Context {W : Type} (I : W -> Prop) (G : W -> W -> Prop).

(** Every call is allowed by [G], and the answer satisfies [Q]. *)
Definition guarantees {A} (Q : A -> Prop) (p : Proc W A) : Prop :=
  tracks I (fun (_ : ()) w w' _ => G w w') (fun a _ => Q a) () p.

Lemma guarantees_ret {A} (Q : A -> Prop) a : Q a -> guarantees Q (mret a).
Proof. done. Qed.

Lemma guarantees_bind {A B} (Q : A -> Prop) (Q' : B -> Prop) (p : Proc W A) (f : A -> Proc W B) :
  guarantees Q p -> (forall a, Q a -> guarantees Q' (f a)) -> guarantees Q' (p ≫= f).
Proof. intros Hp Hf. eapply tracks_bind; [done|]. intros a [] Ha. by apply Hf. Qed.

Lemma guarantees_then {A B} (Q' : B -> Prop) (p : Proc W A) (f : A -> Proc W B) :
  guarantees (fun _ => True) p -> (forall a, guarantees Q' (f a)) -> guarantees Q' (p ≫= f).
Proof. intros Hp Hf. eapply guarantees_bind; [done|]. intros a _. apply Hf. Qed.

Lemma guarantees_call {A} (Q : A -> Prop) (act : W -> A * W) :
  (forall w, I w -> G w (act w).2 /\ Q (act w).1) -> guarantees Q (call act).
Proof. intros H. apply tracks_call. intros w Hw. exists (). by apply H. Qed.

Lemma guarantees_tell (Q : () -> Prop) (act : W -> W) :
  Q () -> (forall w, I w -> G w (act w)) -> guarantees Q (tell act).
Proof. intros HQ H. apply guarantees_call. split; [by apply H|done]. Qed.

Lemma guarantees_step {A} (Q : A -> Prop) k w :
  guarantees Q (Await k) -> I w -> G w (k w).2 /\ guarantees Q (k w).1.
Proof. intros Hk Hw. specialize (Hk w Hw). destruct (k w) as [p w']. by destruct Hk as ([] & ? & ?). Qed.

Lemma guarantees_mono {A} (Q Q' : A -> Prop) (p : Proc W A) :
  guarantees Q p -> (forall a, Q a -> Q' a) -> guarantees Q' p.
Proof. intros Hp HQ. eapply tracks_mono; [done|]. intros a s. apply HQ. Qed.

Lemma guarantees_any {A} (Q : A -> Prop) (p : Proc W A) : guarantees Q p -> guarantees (fun _ => True) p.
Proof. intros H. by eapply guarantees_mono. Qed.
End guarantees.
Arguments guarantees : simpl never.

(** ** Processes that take turns *)

Section turns.
Context {W A : Type}.

(** What is left of a process after a call, whatever the world answers. *)
Definition follows (p' p : Proc W A) : Prop := exists k w, p = Await k /\ p' = (k w).1.

Lemma follows_acc p : Acc follows p.
Proof.
  induction p as [a|k IH] using proc_induction; constructor; [by intros p' (? & ? & ? & ?)|].
  intros p' (k' & w & [= <-] & ->). apply IH.
Qed.

Definition shrinks (l' l : list (Proc W A)) : Prop :=
  exists i p p', l !! i = Some p /\ follows p' p /\ l' = <[i := p']> l.

Lemma shrinks_acc l : Acc shrinks l.
Proof.
  induction l as [|p l IH]; [by constructor; intros l' (i & p & p' & Hi & _)|].
  pose proof (follows_acc p) as Hp. revert l IH. induction Hp as [p _ IHp]. intros l Hl. induction Hl as [l Hl IHl].
  constructor. intros l' ([|i] & q & q' & Hi & Hq & ->); simplify_eq/=.
  - apply IHp; [done|by constructor].
  - apply IHl. by exists i, q, q'.
Qed.

(** Two groups, of which only the first adds to the second. *)
Definition groups (x' x : list (Proc W A) * list (Proc W A)) : Prop :=
  shrinks x'.1 x.1 \/ (x'.1 = x.1 /\ shrinks x'.2 x.2).

Lemma groups_acc x : Acc groups x.
Proof.
  destruct x as [hs ws]. pose proof (shrinks_acc hs) as Hh. revert ws. induction Hh as [hs _ IHh]. intros ws.
  pose proof (shrinks_acc ws) as Hw. induction Hw as [ws _ IHw]. constructor.
  intros [hs' ws'] [Hs|[Hs Hw]]; simpl in *; [by apply IHh|]. subst. by apply IHw.
Qed.

Lemma shrinks_middle l1 p l2 p' : follows p' p -> shrinks (l1 ++ p' :: l2) (l1 ++ p :: l2).
Proof.
  intros Hp. exists (length l1), p, p'. split_and!; [by rewrite list_lookup_middle|done|].
  by rewrite insert_app_r_alt // Nat.sub_diag.
Qed.
End turns.
