(* ===== verification/Pool.v ===== *)
(** * Pools of concurrent tasks ([tokio::task::JoinSet] under a [Semaphore])

    A pool runs its members in any interleaving: a member waits for one of the [limit]
    permits, is polled from one await to the next, is done, and is joined.  The collector
    takes the joined members one at a time, in whatever order they come, and may end the
    pool early: then the members that are left stop where they are.  A schedule is the
    list of choices the runtime makes; the theorems hold under every schedule. *)

From stdpp Require Import list option.
From Stdlib Require Import Wf_nat.
From S2P Require Import Prelude Process.

Inductive Choice : Type :=
| Start (i : nat)
| Poll (i : nat)
| Join (i : nat).

Section pool.
Context {W R C O : Type}.

Inductive Member : Type :=
| Queued (p : Proc W R)
| Running (p : Proc W R)
| Completed (r : R)
| Joined.

Record Pool := mkPool {
  members : list Member;
  collected : C;
}.

Variable limit : nat.
Variable collect : nat -> R -> W -> C -> C + O.
Variable conclude : C -> O.

Definition is_running (m : Member) : bool := match m with Running _ => true | _ => false end.
Definition is_joined (m : Member) : bool := match m with Joined => true | _ => false end.

Definition running (s : Pool) : nat := length (filter (fun m => is_running m = true) (members s)).

(** A task whose process has returned gives its permit back. *)
Definition settle (p : Proc W R) : Member :=
  match p with Return r => Completed r | Await k => Running (Await k) end.

(** The task runs to its next await. *)
Definition poll (p : Proc W R) (w : W) : Proc W R * W :=
  match p with Return r => (Return r, w) | Await k => k w end.

Definition set_member (i : nat) (m : Member) (s : Pool) : Pool :=
  mkPool (<[i := m]> (members s)) (collected s).

(** The pool is over when every member is joined. *)
Definition settled (s : Pool) : Pool + O :=
  if forallb is_joined (members s) then inr (conclude (collected s)) else inl s.

(** One choice of the runtime: [None] when it is not enabled. *)
Definition pool_step (choice : Choice) (s : Pool) (w : W) : option ((Pool + O) * W) :=
  match choice with
  | Start i =>
      match members s !! i with
      | Some (Queued p) => if running s <? limit then Some (inl (set_member i (settle p) s), w) else None
      | _ => None
      end
  | Poll i =>
      match members s !! i with
      | Some (Running p) => let '(p, w) := poll p w in Some (inl (set_member i (settle p) s), w)
      | _ => None
      end
  | Join i =>
      match members s !! i with
      | Some (Completed r) =>
          match collect i r w (collected s) with
          | inl c => Some (settled (mkPool (<[i := Joined]> (members s)) c), w)
          | inr o => Some (inr o, w)
          end
      | _ => None
      end
  end.

Definition pool_start (ps : list (Proc W R)) (c : C) : Pool := mkPool (Queued <$> ps) c.

(** A whole run under a schedule: [None] when the schedule does not reach the end. *)
Fixpoint pool_run (schedule : list Choice) (s : Pool + O) (w : W) : option (O * W) :=
  match s with
  | inr o => Some (o, w)
  | inl s =>
      match schedule with
      | [] => None
      | choice :: schedule => '(s, w) ← pool_step choice s w; pool_run schedule s w
      end
  end.

(** The pool of [ps], run under a schedule. *)
Definition join_all (schedule : list Choice) (ps : list (Proc W R)) (c : C) (w : W) : option (O * W) :=
  pool_run schedule (settled (pool_start ps c)) w.

(** The runtime that finishes and joins each member before it starts the next. *)
Fixpoint in_order (i : nat) (ps : list (Proc W R)) (c : C) : Proc W O :=
  match ps with
  | [] => mret (conclude c)
  | p :: ps =>
      r ← p;
      next ← call (fun w => (collect i r w c, w));
      match next with inl c => in_order (S i) ps c | inr o => mret o end
  end.

(** ** Every choice makes progress: no schedule runs for ever *)

Inductive member_lt : Member -> Member -> Prop :=
| lt_start p : member_lt (settle p) (Queued p)
| lt_poll p w : member_lt (settle (poll p w).1) (Running p)
| lt_join r : member_lt Joined (Completed r).

Lemma Joined_acc : Acc member_lt Joined.
Proof. constructor. intros m H. inversion H. Qed.

Lemma Completed_acc r : Acc member_lt (Completed r).
Proof. constructor. intros m H. inversion H; subst. apply Joined_acc. Qed.

Lemma settle_acc p : Acc member_lt (settle p).
Proof.
  induction p as [r|k IH] using proc_induction; cbn; [apply Completed_acc|].
  constructor. intros m H. inversion H; subst. apply IH.
Qed.

Lemma member_lt_wf : well_founded member_lt.
Proof. intros m. constructor. intros m' []; [apply settle_acc|apply settle_acc|apply Joined_acc]. Qed.

(** One member of a list has made progress. *)
Inductive members_lt : list Member -> list Member -> Prop :=
| lt_here m m' ms : member_lt m' m -> members_lt (m' :: ms) (m :: ms)
| lt_there m ms ms' : members_lt ms' ms -> members_lt (m :: ms') (m :: ms).

Lemma members_lt_wf : well_founded members_lt.
Proof.
  intros ms. induction ms as [|m ms IHms].
  - constructor. intros ms' H. inversion H.
  - revert ms IHms. induction m as [m IHm] using (well_founded_induction member_lt_wf).
    intros ms IHms. induction IHms as [ms Hms IHms].
    constructor. intros ms' H. inversion H; subst.
    + apply IHm; [done|]. by constructor.
    + by apply IHms.
Qed.

Lemma members_lt_insert ms i m m' :
  ms !! i = Some m -> member_lt m' m -> members_lt (<[i := m']> ms) ms.
Proof.
  revert i. induction ms as [|m0 ms IH]; intros [|i] Hi Hm; simplify_eq/=; constructor; [done|].
  by apply IH.
Qed.

Lemma pool_step_lt choice s w s' w' :
  pool_step choice s w = Some (inl s', w') -> members_lt (members s') (members s).
Proof.
  destruct choice as [i|i|i]; cbn; destruct (members s !! i) as [m|] eqn:Hi; [|done| |done| |done];
    destruct m as [p|p|r|]; try done.
  - case_match; intros ?; simplify_eq/=. eapply members_lt_insert; [done|constructor].
  - destruct (poll p w) as [p1 w1] eqn:Hk. intros ?; simplify_eq/=.
    eapply members_lt_insert; [done|]. pose proof (lt_poll p w) as Hlt. by rewrite Hk in Hlt.
  - destruct (collect i r w (collected s)); [|done]. unfold settled. case_match; [done|].
    intros ?; simplify_eq/=. eapply members_lt_insert; [done|constructor].
Qed.

Lemma running_lookup s : running s <> 0 -> exists i p, members s !! i = Some (Running p).
Proof.
  unfold running. destruct (filter _ (members s)) as [|m l] eqn:Hf; [done|]. intros _.
  assert (Hm : m ∈ filter (fun m => is_running m = true) (members s)) by (rewrite Hf; constructor).
  apply list_elem_of_filter in Hm as [Hm (i & Hi)%list_elem_of_lookup].
  destruct m as [|p| |]; try done. by exists i, p.
Qed.

(** While some member is not joined, some choice is enabled. *)
Lemma pool_progress s w :
  0 < limit -> forallb is_joined (members s) = false -> exists choice, is_Some (pool_step choice s w).
Proof.
  intros Hlimit Hopen.
  destruct (decide (running s = 0)) as [Hr|Hr].
  - assert (exists i m, members s !! i = Some m /\ is_joined m = false) as (i & m & Hi & Hj).
    { clear -Hopen. induction (members s) as [|m ms IH]; [done|]. cbn in Hopen.
      destruct (is_joined m) eqn:E; [|by exists 0, m].
      destruct (IH Hopen) as (i & m' & ? & ?). by exists (S i), m'. }
    destruct m as [p|p|r|]; [exists (Start i)|exists (Poll i)|exists (Join i)|done]; cbn; rewrite Hi.
    + rewrite Hr. destruct limit; [lia|by eexists].
    + destruct (poll p w); by eexists.
    + destruct (collect _ _ _ _); by eexists.
  - destruct (running_lookup s Hr) as (i & p & Hi).
    exists (Poll i). cbn. rewrite Hi. destruct (poll p w); by eexists.
Qed.

(** A pool that is not over has a member left. *)
Definition live (s : Pool + O) : Prop :=
  match s with inl s => forallb is_joined (members s) = false | inr _ => True end.

Lemma settled_live s : live (settled s).
Proof. unfold settled. by destruct (forallb is_joined (members s)) eqn:E. Qed.

Lemma forallb_lookup_false {A} (f : A -> bool) l i x : l !! i = Some x -> f x = false -> forallb f l = false.
Proof.
  revert i. induction l as [|y l IH]; intros [|i] Hi Hx; simplify_eq/=; [by rewrite Hx|].
  rewrite (IH i Hi Hx). apply andb_false_r.
Qed.

Lemma set_member_live i m m' s :
  members s !! i = Some m -> is_joined m' = false -> live (inl (set_member i m' s)).
Proof.
  intros Hi Hm. cbn. eapply forallb_lookup_false; [|done].
  apply list_lookup_insert_eq. by eapply lookup_lt_Some.
Qed.

Lemma settle_open p : is_joined (settle p) = false.
Proof. by destruct p. Qed.

Lemma pool_step_live choice s w s' w' : pool_step choice s w = Some (s', w') -> live s'.
Proof.
  destruct choice as [i|i|i]; cbn; destruct (members s !! i) as [m|] eqn:Hi; [|done| |done| |done];
    destruct m as [p|p|r|]; try done.
  - case_match; intros ?; simplify_eq. eapply set_member_live, settle_open; done.
  - destruct (poll p w). intros ?; simplify_eq. eapply set_member_live, settle_open; done.
  - destruct (collect _ _ _ _); intros ?; simplify_eq; [apply settled_live|done].
Qed.

(** From every state some schedule reaches the end. *)
Lemma pool_finishes s w :
  0 < limit -> live s -> exists schedule o w', pool_run schedule s w = Some (o, w').
Proof.
  intros Hlimit. destruct s as [s|o]; [|by exists [], o, w].
  remember (members s) as ms eqn:Hms. revert s w Hms.
  induction ms as [ms IH] using (well_founded_induction members_lt_wf). intros s w -> Hs.
  destruct (pool_progress s w Hlimit Hs) as (choice & ([s' w'] & Hstep)).
  pose proof (pool_step_live _ _ _ _ _ Hstep) as Hlive. destruct s' as [s'|o].
  - destruct (IH (members s') (pool_step_lt _ _ _ _ _ Hstep) s' w' eq_refl Hlive) as (sched & o & w'' & Hr).
    exists (choice :: sched), o, w''. cbn. by rewrite Hstep.
  - exists [choice], o, w'. cbn. by rewrite Hstep.
Qed.

(** ** Invariants *)

(** What holds at the start and is kept by every choice holds of whatever a run ends with. *)
Lemma pool_run_inv (I : Pool -> W -> Prop) (Q : O -> Prop) :
  (forall choice s w s' w', I s w -> pool_step choice s w = Some (s', w') ->
     match s' with inl s' => I s' w' | inr o => Q o end) ->
  forall schedule s w o w',
    match s with inl s => I s w | inr o => Q o end ->
    pool_run schedule s w = Some (o, w') -> Q o.
Proof.
  intros Hstep schedule. induction schedule as [|choice schedule IH]; intros [s|o'] w o w' Hs; cbn;
    intros Hrun; simplify_eq; try done.
  destruct (pool_step choice s w) as [[s1 w1]|] eqn:E; [|done]. cbn in Hrun.
  eapply IH; [|done]. by eapply Hstep.
Qed.

(** At most [limit] members run at a time. *)
Lemma running_set i m m' s :
  members s !! i = Some m ->
  running (set_member i m' s) + Nat.b2n (is_running m) = running s + Nat.b2n (is_running m').
Proof.
  unfold running. cbn. generalize (members s) as l. clear. intros l. revert i.
  induction l as [|x l IH]; intros [|i] Hi; simplify_eq/=; rewrite !filter_cons.
  - repeat case_decide; destruct (is_running m), (is_running m'); cbn; congruence || lia.
  - specialize (IH i Hi). case_decide; cbn; lia.
Qed.

Lemma pool_step_running choice s w s' w' :
  pool_step choice s w = Some (inl s', w') -> running s <= limit -> running s' <= limit.
Proof.
  destruct choice as [i|i|i]; cbn; destruct (members s !! i) as [m|] eqn:Hi; [|done| |done| |done];
    destruct m as [p|p|r|]; try done.
  - case_match eqn:Hl; [|done]. intros ? Hr; simplify_eq. apply Nat.ltb_lt in Hl.
    pose proof (running_set i _ (settle p) s Hi). destruct (is_running (settle p)); cbn in *; lia.
  - destruct (poll p w) as [p1 w1]. intros ? Hr; simplify_eq.
    pose proof (running_set i _ (settle p1) s Hi). destruct (is_running (settle p1)); cbn in *; lia.
  - destruct (collect _ _ _ _) as [c|]; [|done]. unfold settled. case_match; [done|]. intros ? Hr; simplify_eq.
    pose proof (running_set i _ Joined s Hi) as H1. cbn in H1. unfold running in *. cbn in *. lia.
Qed.

(** ** The runtime that runs the members in order is one of the schedules *)

(** One choice, then the rest. *)
Lemma pool_run_step choice schedule s w s' w' :
  pool_step choice s w = Some (s', w') -> pool_run (choice :: schedule) (inl s) w = pool_run schedule s' w'.
Proof. cbn. by intros ->. Qed.

Lemma settled_not_joined i ms m c :
  ms !! i = Some m -> is_joined m = false -> settled (mkPool ms c) = inl (mkPool ms c).
Proof. intros Hi Hm. unfold settled. cbn. by rewrite (forallb_lookup_false _ _ _ _ Hi Hm). Qed.

(** A running member alone is polled until it is done. *)
Lemma poll_to_end i p s w :
  members s !! i = Some (settle p) ->
  exists n, forall schedule,
    pool_run (replicate n (Poll i) ++ schedule) (inl s) w =
    pool_run schedule (inl (set_member i (Completed (run p w).1) s)) (run p w).2.
Proof.
  revert s w. induction p as [r|k IH] using proc_induction; intros s w Hi.
  - exists 0. intros schedule. cbn. f_equal. unfold set_member. cbn.
    rewrite list_insert_id; [|done]. by destruct s.
  - cbn in Hi. destruct (k w) as [p w1] eqn:Hk.
    pose proof (IH w (set_member i (settle (k w).1) s) (k w).2) as H. rewrite Hk in H. cbn in H.
    destruct H as (n & H). { apply list_lookup_insert_eq. by eapply lookup_lt_Some. }
    exists (S n). intros schedule. cbn [replicate app].
    rewrite (pool_run_step _ _ _ _ (inl (set_member i (settle p) s)) w1); [|cbn; rewrite Hi; cbn; by rewrite Hk].
    rewrite H. cbn. rewrite Hk. unfold set_member. cbn. by rewrite list_insert_insert_eq.
Qed.

Lemma in_order_from done ps c w :
  0 < limit -> Forall (fun m => is_joined m = true) done ->
  exists schedule,
    pool_run schedule (settled (mkPool (done ++ (Queued <$> ps)) c)) w =
    Some (run (in_order (length done) ps c) w).
Proof.
  intros Hlimit. revert done c w. induction ps as [|p ps IH]; intros done c w Hdone.
  - exists []. unfold settled. cbn. rewrite app_nil_r.
    rewrite (proj2 (forallb_forall _ _)); [done|]. intros m Hm. rewrite Forall_forall in Hdone.
    apply Hdone. by apply list_elem_of_In.
  - set (i := length done). set (s := mkPool (done ++ (Queued <$> p :: ps)) c).
    assert (Hi : forall m rest, (done ++ m :: rest) !! i = Some m) by (intros; by rewrite list_lookup_middle).
    assert (Hset : forall m m' rest, <[i := m']> (done ++ m :: rest) = done ++ m' :: rest).
    { intros. unfold i. rewrite <- (Nat.add_0_r (length done)). by rewrite insert_app_r. }
    assert (Hrun : running s = 0).
    { destruct (decide (running s = 0)) as [|H]; [done|]. destruct (running_lookup s H) as (j & q & Hj).
      apply list_elem_of_lookup_2 in Hj. cbn in Hj. rewrite elem_of_app elem_of_cons in Hj.
      rewrite Forall_forall in Hdone. destruct Hj as [Hj%Hdone|[?|Hj]]; [done..|].
      by apply list_elem_of_fmap in Hj as (? & ? & ?). }
    assert (Hstart : pool_step (Start i) s w = Some (inl (mkPool (done ++ settle p :: (Queued <$> ps)) c), w)).
    { cbn [pool_step]. rewrite Hrun. change (members s) with (done ++ Queued p :: (Queued <$> ps)).
      rewrite Hi. destruct limit; [lia|]. unfold set_member. cbn. by rewrite Hset. }
    destruct (poll_to_end i p (mkPool (done ++ settle p :: (Queued <$> ps)) c) w) as (n & Hpoll); [apply Hi|].
    unfold set_member in Hpoll. cbn in Hpoll. setoid_rewrite Hset in Hpoll.
    cbn [in_order]. rewrite run_bind. destruct (run p w) as [r w1] eqn:Hp. cbn in Hpoll.
    rewrite run_bind run_call.
    assert (Hopen : settled s = inl s) by (apply (settled_not_joined i _ (Queued p)); [apply Hi|done]).
    destruct (collect i r w1 c) as [c'|o] eqn:Hc.
    + destruct (IH (done ++ [Joined]) c' w1) as (sched & Hs).
      { apply Forall_app. split; [done|]. by constructor. }
      exists (Start i :: replicate n (Poll i) ++ Join i :: sched).
      fold s. rewrite Hopen (pool_run_step _ _ _ _ _ _ Hstart) Hpoll.
      rewrite (pool_run_step (Join i) _ _ _ (settled (mkPool (done ++ Joined :: (Queued <$> ps)) c')) w1).
      * rewrite length_app in Hs. cbn in Hs. rewrite Nat.add_1_r -app_assoc in Hs. apply Hs.
      * cbn. rewrite Hi Hc. by rewrite Hset.
    + exists (Start i :: replicate n (Poll i) ++ [Join i]).
      fold s. rewrite Hopen (pool_run_step _ _ _ _ _ _ Hstart) Hpoll.
      cbn. by rewrite Hi Hc.
Qed.

Lemma in_order_schedule ps c w :
  0 < limit -> exists schedule, join_all schedule ps c w = Some (run (in_order 0 ps c) w).
Proof. intros Hlimit. by apply (in_order_from [] ps c w). Qed.

(** ** Results under every interleaving *)

(** Every result the process can come to, whatever other tasks do to the world while it
    waits, satisfies [Phi]. *)
Fixpoint returns (Phi : R -> Prop) (p : Proc W R) : Prop :=
  match p with
  | Return r => Phi r
  | Await k => forall w, returns Phi (k w).1
  end.

(** What is known of a member that may only come to results in [Phi]. *)
Definition member_ok (Phi : R -> Prop) (m : Member) : Prop :=
  match m with
  | Queued p | Running p => returns Phi p
  | Completed r => Phi r
  | Joined => True
  end.

Lemma settle_ok Phi p : returns Phi p -> member_ok Phi (settle p).
Proof. by destruct p. Qed.

Lemma poll_ok Phi p w : returns Phi p -> returns Phi (poll p w).1.
Proof. by destruct p; cbn. Qed.

(** The rule for a run: an invariant of the collector, told which member it joined and
    that its result is one of that member's. *)
Lemma join_all_rule (Phis : list (R -> Prop)) (I : list Member -> C -> Prop) (Q : O -> Prop) ps c :
  Forall2 returns Phis ps ->
  I (Queued <$> ps) c ->
  (forall ms i m m' c, I ms c -> ms !! i = Some m -> is_joined m = false -> is_joined m' = false ->
     I (<[i := m']> ms) c) ->
  (forall ms i Phi r w c, Phis !! i = Some Phi -> Phi r -> ms !! i = Some (Completed r) -> I ms c ->
     match collect i r w c with inl c => I (<[i := Joined]> ms) c | inr o => Q o end) ->
  (forall ms c, I ms c -> length ms = length ps -> forallb is_joined ms = true -> Q (conclude c)) ->
  forall schedule w o w', join_all schedule ps c w = Some (o, w') -> Q o.
Proof.
  intros Hps Hstart Hmove Hjoin Hend schedule w o w'.
  set (J := fun (s : Pool) (_ : W) =>
    I (members s) (collected s) /\ Forall2 member_ok Phis (members s) /\ length (members s) = length ps).
  assert (Hset : forall s w, J s w -> match settled s with inl s => J s w | inr o => Q o end).
  { intros s w0 (HI & HP & Hl). unfold settled. destruct (forallb is_joined (members s)) eqn:E; [|done].
    by eapply Hend. }
  assert (Hm : forall s w i m m', J s w -> members s !! i = Some m -> is_joined m = false ->
            is_joined m' = false -> (forall Phi, member_ok Phi m -> member_ok Phi m') -> J (set_member i m' s) w).
  { intros s w0 i m m' (HI & HP & Hl) Hi Hm Hm' Hok. split; [by eapply Hmove|]. cbn.
    rewrite length_insert. split; [|done].
    destruct (Forall2_lookup_r _ _ _ _ _ HP Hi) as (Phi & HPhi & Hr).
    rewrite <- (list_insert_id Phis i Phi HPhi). by apply Forall2_insert; [|apply Hok]. }
  apply (pool_run_inv J Q).
  - intros choice s w0 s' w1 HJ.
    destruct choice as [i|i|i]; cbn; destruct (members s !! i) as [m|] eqn:Hi; [|done| |done| |done];
      destruct m as [p|p|r|]; try done.
    + case_match; intros ?; simplify_eq.
      eapply Hm; [done..|apply settle_open|]. intros Phi. apply settle_ok.
    + destruct (poll p w0) as [p1 w2] eqn:Hp. intros ?; simplify_eq.
      eapply Hm; [by destruct HJ|done..|apply settle_open|]. cbn. intros Phi HPhi. apply settle_ok.
      pose proof (poll_ok Phi p w0 HPhi) as Hok. by rewrite Hp in Hok.
    + destruct HJ as (HI & HP & Hl). destruct (Forall2_lookup_r _ _ _ _ _ HP Hi) as (Phi & HPhi & Hr).
      pose proof (Hjoin _ _ _ _ w0 _ HPhi Hr Hi HI) as Hc.
      destruct (collect i r w0 (collected s)) as [c'|o']; intros ?; simplify_eq; [|done].
      apply Hset. split; [done|]. cbn. rewrite length_insert. split; [|done].
      rewrite <- (list_insert_id Phis i Phi HPhi). by apply Forall2_insert.
  - apply Hset. split; [done|]. cbn. rewrite length_fmap. split; [|done].
    clear -Hps. induction Hps; cbn; constructor; done.
Qed.

End pool.

#[global] Arguments Member W R : clear implicits.
#[global] Arguments Pool W R C : clear implicits.

(** ** The runtime *)

(** What is relied on of tokio: a pool is run under some schedule. *)
Class Runtime (E : Type) := {
  join_set {R C O} (limit : nat) (collect : nat -> R -> E -> C -> C + O) (conclude : C -> O)
    (tasks : list (Proc E R)) (c : C) : Proc E O;
  join_set_schedule {R C O} limit (collect : nat -> R -> E -> C -> C + O) conclude tasks c e :
    0 < limit ->
    exists schedule,
      join_all limit collect conclude schedule tasks c e = Some (run (join_set limit collect conclude tasks c) e);
}.

(** The single-threaded runtime that does not leave a task before it is done. *)
Definition sequential (E : Type) : Runtime E :=
  {| join_set _ _ _ limit collect conclude tasks c := in_order collect conclude 0 tasks c;
     join_set_schedule _ _ _ limit collect conclude tasks c e := in_order_schedule limit collect conclude tasks c e |}.

(** The rule for a run, whatever the runtime. *)
Lemma join_set_rule {E R C O} `{!Runtime E} limit (collect : nat -> R -> E -> C -> C + O) (conclude : C -> O)
    (Phis : list (R -> Prop)) (I : list (Member E R) -> C -> Prop) (Q : O -> Prop) ps c w :
  0 < limit ->
  Forall2 returns Phis ps ->
  I (Queued <$> ps) c ->
  (forall ms i m m' c, I ms c -> ms !! i = Some m -> is_joined m = false -> is_joined m' = false ->
     I (<[i := m']> ms) c) ->
  (forall ms i Phi r w c, Phis !! i = Some Phi -> Phi r -> ms !! i = Some (Completed r) -> I ms c ->
     match collect i r w c with inl c => I (<[i := Joined]> ms) c | inr o => Q o end) ->
  (forall ms c, I ms c -> length ms = length ps -> forallb is_joined ms = true -> Q (conclude c)) ->
  Q (run (join_set limit collect conclude ps c) w).1.
Proof.
  intros Hl Hps HI Hmove Hjoin Hend.
  destruct (join_set_schedule limit collect conclude ps c w Hl) as (sched & Hs).
  destruct (run _ w) as [o w']. by eapply join_all_rule.
Qed.

(** * When two processes are the same

    [p ≡ₚᵣ q]: the same calls in the same order, with the same effects, and the same answer.
    It is an equivalence that sequencing respects, under which processes are a monad; it
    does not need functional extensionality.  [and_then] is Rust's [?] in an async function,
    and has the laws of composition of its own. *)

Section process.
Context {W : Type}.

Fixpoint proc_eq {A} (p q : Proc W A) : Prop :=
  match p, q with
  | Return a, Return b => a = b
  | Await k, Await l => forall w, (k w).2 = (l w).2 /\ proc_eq (k w).1 (l w).1
  | _, _ => False
  end.

#[export] Instance proc_eq_equivalence {A} : Equivalence (@proc_eq A).
Proof.
  split.
  - intros p. by induction p as [a|k IH] using proc_induction.
  - intros p. induction p as [a|k IH] using proc_induction; intros [b|l] H; simpl in *; auto.
    intros w. destruct (H w). split; [done|]. by apply IH.
  - intros p. induction p as [a|k IH] using proc_induction; intros [b|l] [c|m] H1 H2; simpl in *; try done.
    + congruence.
    + intros w. destruct (H1 w), (H2 w). split; [congruence|]. by eapply IH.
Qed.

#[export] Instance proc_bind_proper {A B} :
  Proper (pointwise_relation A (@proc_eq B) ==> proc_eq ==> proc_eq) (@mbind (Proc W) _ A B).
Proof.
  intros f g Hfg p. induction p as [a|k IH] using proc_induction; intros [b|l] H; simpl in H; try done.
  - subst. apply Hfg.
  - intros w. destruct (H w) as [Hw Hp]. cbn in *. specialize (IH w (l w).1 Hp).
    by destruct (k w), (l w).
Qed.

Lemma bind_ret_l {A B} (a : A) (f : A -> Proc W B) : proc_eq (mret a ≫= f) (f a).
Proof. reflexivity. Qed.

Lemma bind_ret_r {A} (p : Proc W A) : proc_eq (p ≫= mret) p.
Proof.
  induction p as [a|k IH] using proc_induction; [done|]. intros w. specialize (IH w). cbn in *. by destruct (k w).
Qed.

Lemma bind_assoc {A B C} (p : Proc W A) (f : A -> Proc W B) (g : B -> Proc W C) :
  proc_eq ((p ≫= f) ≫= g) (p ≫= fun a => f a ≫= g).
Proof.
  induction p as [a|k IH] using proc_induction; [reflexivity|].
  intros w. specialize (IH w). cbn in *. by destruct (k w).
Qed.

(** Equal processes cannot be told apart: alone, step by step, or among others. *)
Lemma proc_eq_run {A} (p q : Proc W A) w : proc_eq p q -> run p w = run q w.
Proof.
  revert q w. induction p as [a|k IH] using proc_induction; intros [b|l] w H; simpl in H; try done.
  - by subst.
  - destruct (H w) as [Hw Hp]. cbn. specialize (IH w (l w).1 (k w).2 Hp).
    destruct (k w) as [p1 w1], (l w) as [q1 w2]. cbn in *. by subst.
Qed.

Lemma proc_eq_steps {A} n (p q : Proc W A) w : proc_eq p q -> (steps n p w).2 = (steps n q w).2.
Proof.
  revert p q w. induction n as [|n IH]; intros [a|k] [b|l] w H; simpl in H; try done.
  destruct (H w) as [Hw Hp]. cbn. specialize (IH (k w).1 (l w).1 (k w).2 Hp).
  destruct (k w) as [p1 w1], (l w) as [q1 w2]. cbn in *. by subst.
Qed.

Lemma proc_eq_returns {A} (Phi : A -> Prop) (p q : Proc W A) :
  proc_eq p q -> returns Phi p -> returns Phi q.
Proof.
  revert q. induction p as [a|k IH] using proc_induction; intros [b|l] H; simpl in *; try done.
  - by subst.
  - intros Hr w. destruct (H w). by eapply IH.
Qed.

(** ** What a process may answer, among others *)

Lemma returns_mono {A} (Phi Psi : A -> Prop) (p : Proc W A) :
  (forall a, Phi a -> Psi a) -> returns Phi p -> returns Psi p.
Proof. intros H. induction p as [a|k IH] using proc_induction; simpl; eauto. Qed.

Lemma returns_bind {A B} (Phi : B -> Prop) (p : Proc W A) (f : A -> Proc W B) :
  returns (fun a => returns Phi (f a)) p -> returns Phi (p ≫= f).
Proof.
  induction p as [a|k IH] using proc_induction; intros H; [done|].
  cbn in H |- *. intros w. specialize (IH w (H w)). by destruct (k w).
Qed.

Lemma returns_run {A} (Phi : A -> Prop) (p : Proc W A) w : returns Phi p -> Phi (run p w).1.
Proof.
  revert w. induction p as [a|k IH] using proc_induction; intros w H; [done|].
  cbn in H |- *. specialize (IH w (k w).2 (H w)). by destruct (k w).
Qed.

(** ** The question mark *)

Definition and_then {E A B} (p : Proc W (result E A)) (f : A -> Proc W (result E B)) : Proc W (result E B) :=
  r ← p; match r with Ok a => f a | Err e => mret (Err e) end.

#[export] Instance and_then_proper {E A B} :
  Proper (proc_eq ==> pointwise_relation A (@proc_eq (result E B)) ==> proc_eq) (@and_then E A B).
Proof. intros p q Hp f g Hfg. unfold and_then. apply proc_bind_proper; [|done]. intros [a|e]; [apply Hfg|done]. Qed.

Lemma and_then_ok_l {E A B} (a : A) (f : A -> Proc W (result E B)) : proc_eq (and_then (mret (Ok a)) f) (f a).
Proof. reflexivity. Qed.

Lemma and_then_ok_r {E A} (p : Proc W (result E A)) : proc_eq (and_then p (fun a => mret (Ok a))) p.
Proof.
  unfold and_then. rewrite -{2}(bind_ret_r p). apply proc_bind_proper; [|done]. by intros [a|e].
Qed.

Lemma and_then_assoc {E A B C} (p : Proc W (result E A)) (f : A -> Proc W (result E B)) (g : B -> Proc W (result E C)) :
  proc_eq (and_then (and_then p f) g) (and_then p (fun a => and_then (f a) g)).
Proof. unfold and_then. rewrite bind_assoc. apply proc_bind_proper; [|done]. by intros [a|e]. Qed.

End process.

Infix "≡ₚᵣ" := proc_eq (at level 70, no associativity) : lc_scope.
Notation "x ←? p ; k" := (and_then p (fun x => k)) (at level 20, p at level 100, k at level 200, only parsing) : lc_scope.
