(* ===== verification/AgentTypes.v ===== *)
(** * The data of agent runs ([crates/lc-agents/src/types.rs], [executor/budget.rs],
      [executor/compaction.rs], [policy.rs], [approval.rs], [hooks/mod.rs], [resume.rs])

    What an agent decides ([AgentOutput]), what a run records ([AgentStep],
    [AgentMetrics]) and what limits it: the budget gates, the compaction of the history,
    the tool policy.  Durations are nanoseconds, a dollar amount is a [spec_float].
    Counts are sums of what happened in one run and are kept unbounded. *)

From stdpp Require Import gmap strings list pretty.
From Stdlib Require Import SpecFloat Ascii.
From S2P Require Import Prelude Json Message.

(** ** JSON text and debug forms, from the libraries *)

Class JsonText := {
  from_str : string -> option JsonValue;
  json_to_string : JsonValue -> string;
  debug_duration : N -> string;
  debug_float : spec_float -> string;
}.

(** ** Actions and answers *)

Module ToolInput.
Inductive ToolInput : Type :=
| String (value : string)
| Object (value : JsonValue).

Definition default : ToolInput := String EmptyString.
End ToolInput.
Notation ToolInput := ToolInput.ToolInput.

(** [TryFrom<Value>]: untagged input. *)
Definition tool_input_try_from `{J : JsonText} (value : JsonValue) : result string ToolInput :=
  match value with
  | JString s => Ok (ToolInput.String s)
  | JObject _ => Ok (ToolInput.Object value)
  | other => Err ("ToolInput must be a string or object, got: " +:+ json_to_string other)
  end.

Record AgentAction := mkAgentAction {
  tool : string;
  tool_input : ToolInput;
  action_log : string;
  tool_call_id : option string;
  server_executed : bool;
}.

Record AgentFinish := mkAgentFinish {
  return_values : gmap string JsonValue;
  finish_log : string;
}.

Module AgentFinish.
Definition new (output log : string) : AgentFinish := mkAgentFinish {["output" := JString output]} log.
Definition output (f : AgentFinish) : option string := return_values f !! "output" ≫= as_str.
End AgentFinish.

Record AgentStep := mkAgentStep {
  step_action : AgentAction;
  observation : string;
}.

Inductive AgentOutput : Type :=
| Action (action : AgentAction)
| Actions (actions : list AgentAction)
| Finish (finish : AgentFinish).

Module AgentOutput.
Definition is_finish (o : AgentOutput) : bool := match o with Finish _ => true | _ => false end.
Definition is_action (o : AgentOutput) : bool := match o with Finish _ => false | _ => true end.
Definition action (o : AgentOutput) : option AgentAction := match o with Action a => Some a | _ => None end.
Definition actions (o : AgentOutput) : list AgentAction :=
  match o with Action a => [a] | Actions l => l | Finish _ => [] end.
Definition finish (o : AgentOutput) : option AgentFinish := match o with Finish f => Some f | _ => None end.
End AgentOutput.

(** ** Errors *)

Inductive BudgetExceeded : Type :=
| ToolCalls (limit actual : nat)
| Tokens (limit actual : N)
| Duration (limit elapsed : N)
| Iterations (limit : nat)
| Cost (limit actual : spec_float).

Inductive AgentError : Type :=
| OutputParsingError (msg : string)
| ToolNotFound (name : string)
| ToolExecutionError (msg : string)
| BatchAborted (cause : AgentError) (partial : list string)
| MaxIterationsReached
| BudgetExceededError (e : BudgetExceeded)
| ResumeFailed (msg : string)
| OtherError (msg : string).

Inductive ToolError : Type :=
| InvalidInput (msg : string)
| ExecutionFailed (msg : string)
| Timeout (seconds : N)
| NotFound (name : string)
| McpError (code : Z) (message : string) (data : option JsonValue)
| ControlAbort (msg : string)
| PermissionDenied (msg : string).

Definition tool_error_to_string (e : ToolError) : string :=
  match e with
  | InvalidInput m => "Invalid input: " +:+ m
  | ExecutionFailed m => "Execution failed: " +:+ m
  | Timeout n => "Timeout: " +:+ pretty n +:+ " seconds"
  | NotFound n => "Tool not found: " +:+ n
  | McpError code m _ => "MCP error [" +:+ pretty code +:+ "]: " +:+ m
  | ControlAbort m => "Control abort: " +:+ m
  | PermissionDenied m => "Permission denied: " +:+ m
  end.

(** ** Metrics *)

Record AgentMetrics := mkAgentMetrics {
  mt_trace_id : option string;
  llm_calls : nat;
  cache_hits : nat;
  tool_calls : nat;
  compactions : nat;
  total_tokens : option N;
  mt_duration : N;
}.

Module AgentMetrics.
Definition zero : AgentMetrics := mkAgentMetrics None 0 0 0 0 None 0.
Definition add_token_usage (usage : N) (m : AgentMetrics) : AgentMetrics :=
  mkAgentMetrics (mt_trace_id m) (llm_calls m) (cache_hits m) (tool_calls m) (compactions m)
    (Some (default 0 (total_tokens m) + usage)%N) (mt_duration m).
Definition add_llm_call (m : AgentMetrics) : AgentMetrics :=
  mkAgentMetrics (mt_trace_id m) (S (llm_calls m)) (cache_hits m) (tool_calls m) (compactions m)
    (total_tokens m) (mt_duration m).
Definition add_cache_hit (m : AgentMetrics) : AgentMetrics :=
  mkAgentMetrics (mt_trace_id m) (llm_calls m) (S (cache_hits m)) (tool_calls m) (compactions m)
    (total_tokens m) (mt_duration m).
Definition add_tool_calls (n : nat) (m : AgentMetrics) : AgentMetrics :=
  mkAgentMetrics (mt_trace_id m) (llm_calls m) (cache_hits m) (tool_calls m + n) (compactions m)
    (total_tokens m) (mt_duration m).
Definition add_compaction (m : AgentMetrics) : AgentMetrics :=
  mkAgentMetrics (mt_trace_id m) (llm_calls m) (cache_hits m) (tool_calls m) (S (compactions m))
    (total_tokens m) (mt_duration m).
Definition set_duration (d : N) (m : AgentMetrics) : AgentMetrics :=
  mkAgentMetrics (mt_trace_id m) (llm_calls m) (cache_hits m) (tool_calls m) (compactions m)
    (total_tokens m) d.
End AgentMetrics.

(** ** The budget *)

Record BudgetConfig := mkBudgetConfig {
  max_tool_calls : option nat;
  max_tokens : option N;
  max_duration : option N;
  budget_max_iterations : option nat;
  max_cost_usd : option spec_float;
}.

(** The first of two gates that is over its limit. *)
Definition or_gate (a b : option AgentError) : option AgentError :=
  match a with Some e => Some e | None => b end.

Definition duration_gate (budget : BudgetConfig) (elapsed : N) : option AgentError :=
  limit ← max_duration budget;
  if (limit <=? elapsed)%N then Some (BudgetExceededError (Duration limit elapsed)) else None.

Definition budget_iteration_gate (budget : option BudgetConfig) (max_iterations iteration : nat)
    (elapsed : N) : option AgentError :=
  budget ← budget;
  or_gate
    (limit ← budget_max_iterations budget;
     let effective := Nat.min limit max_iterations in
     if effective <=? iteration then Some (BudgetExceededError (Iterations effective)) else None)
    (duration_gate budget elapsed).

Definition budget_token_gate (budget : option BudgetConfig) (metrics : AgentMetrics) : option AgentError :=
  budget ← budget;
  limit ← max_tokens budget;
  let actual := default 0%N (total_tokens metrics) in
  if (limit <? actual)%N then Some (BudgetExceededError (Tokens limit actual)) else None.

Definition budget_cost_gate (budget : option BudgetConfig) (current_cost_usd : spec_float) : option AgentError :=
  budget ← budget;
  limit ← max_cost_usd budget;
  if SFltb limit current_cost_usd then Some (BudgetExceededError (Cost limit current_cost_usd)) else None.

(** The gate reads only the [tool_calls] of the metrics it is given. *)
Definition budget_tool_gate (budget : option BudgetConfig) (calls : nat) (elapsed : N) : option AgentError :=
  budget ← budget;
  or_gate
    (limit ← max_tool_calls budget;
     if limit <=? calls then Some (BudgetExceededError (ToolCalls limit calls)) else None)
    (duration_gate budget elapsed).

(** ** The tool policy *)

Definition quote : string := String (ascii_of_nat 34) EmptyString.
Definition quoted (s : string) : string := quote +:+ s +:+ quote.

Inductive ToolRisk : Type := Safe | Standard | Dangerous.
Global Instance ToolRisk_eq_dec : EqDecision ToolRisk.
Proof. solve_decision. Defined.

Definition risk_rank (r : ToolRisk) : nat := match r with Safe => 0 | Standard => 1 | Dangerous => 2 end.
Definition risk_name (r : ToolRisk) : string :=
  match r with Safe => "safe" | Standard => "standard" | Dangerous => "dangerous" end.

Record ToolPolicy := mkToolPolicy {
  risks : gmap string ToolRisk;
  default_risk : ToolRisk;
  max_permitted : ToolRisk;
  sandboxed : gset string;
  allow_unrestricted_dangerous : bool;
}.

Module ToolPolicy.
Definition new : ToolPolicy := mkToolPolicy ∅ Safe Dangerous ∅ false.
Definition risk (name : string) (r : ToolRisk) (p : ToolPolicy) : ToolPolicy :=
  mkToolPolicy (<[name := r]> (risks p)) (default_risk p) (max_permitted p) (sandboxed p)
    (allow_unrestricted_dangerous p).
Definition add_sandboxed (name : string) (p : ToolPolicy) : ToolPolicy :=
  mkToolPolicy (risks p) (default_risk p) (max_permitted p) ({[name]} ∪ sandboxed p)
    (allow_unrestricted_dangerous p).
Definition with_default_risk (r : ToolRisk) (p : ToolPolicy) : ToolPolicy :=
  mkToolPolicy (risks p) r (max_permitted p) (sandboxed p) (allow_unrestricted_dangerous p).
Definition with_max_permitted (r : ToolRisk) (p : ToolPolicy) : ToolPolicy :=
  mkToolPolicy (risks p) (default_risk p) r (sandboxed p) (allow_unrestricted_dangerous p).
Definition with_allow_unrestricted_dangerous (allow : bool) (p : ToolPolicy) : ToolPolicy :=
  mkToolPolicy (risks p) (default_risk p) (max_permitted p) (sandboxed p) allow.
Definition risk_of (name : string) (p : ToolPolicy) : ToolRisk := default (default_risk p) (risks p !! name).
Definition check (name : string) (p : ToolPolicy) : result AgentError () :=
  let risk := risk_of name p in
  if risk_rank (max_permitted p) <? risk_rank risk then
    Err (OtherError ("tool '" +:+ name +:+ "' requires permission tier '" +:+ risk_name risk +:+
      "', max permitted is '" +:+ risk_name (max_permitted p) +:+ "'"))
  else if bool_decide (risk = Dangerous) && negb (bool_decide (name ∈ sandboxed p)) &&
          negb (allow_unrestricted_dangerous p) then
    Err (OtherError ("dangerous tool '" +:+ name +:+
      "' must run in a sandboxed environment (declare via ToolPolicy::sandboxed(" +:+
      quoted name +:+ "))"))
  else Ok ().
End ToolPolicy.

Record ToolRiskProfile := mkToolRiskProfile {
  untrusted_input : bool;
  sensitive_access : bool;
  state_changing : bool;
}.
Definition count_armed (p : ToolRiskProfile) : nat :=
  Nat.b2n (untrusted_input p) + Nat.b2n (sensitive_access p) + Nat.b2n (state_changing p).

(** ** Approval and resumption *)

Inductive ApprovalDecision : Type :=
| Allow
| Deny (reason : string)
| Modify (arguments : JsonValue) (note : string).

Record PendingApproval := mkPendingApproval {
  pa_tool_name : string;
  pa_arguments : JsonValue;
  pa_tool_id : string;
  pa_inputs : gmap string string;
  pa_steps : list AgentStep;
  pa_iteration : nat;
  pa_tool_calls_consumed : nat;
  pa_tokens_consumed : option N;
  pa_trace_id : option string;
}.

Inductive ResumeError : Type :=
| ResumeIo (msg : string)
| ResumeSerialize (msg : string).
Definition resume_error_to_string (e : ResumeError) : string :=
  match e with
  | ResumeIo m => "resume store I/O error: " +:+ m
  | ResumeSerialize m => "resume store serialization error: " +:+ m
  end.

(** ** Compaction of the history *)

Inductive CompactionTrigger : Type :=
| TurnCount (limit : nat)
| TokenCount (limit : N)
| AnyOf (a b : CompactionTrigger)
| AllOf (a b : CompactionTrigger).

Fixpoint should_compact (t : CompactionTrigger) (turns : nat) (tokens : N) : bool :=
  match t with
  | TurnCount limit => limit <? turns
  | TokenCount limit => (limit <? tokens)%N
  | AnyOf a b => should_compact a turns tokens || should_compact b turns tokens
  | AllOf a b => should_compact a turns tokens && should_compact b turns tokens
  end.

Inductive CompactionStrategy : Type :=
| SlidingWindow (keep_recent_turns : nat)
| TokenBudget (max_tokens keep_recent_turns : nat)
| ClearToolUses (keep_recent_turns : nat) (placeholder : string).

Record CompactionConfig := mkCompactionConfig {
  trigger : CompactionTrigger;
  strategy : CompactionStrategy;
  min_recent_turns : nat;
}.

Module CompactionConfig.
Definition new (trigger : CompactionTrigger) (strategy : CompactionStrategy) : CompactionConfig :=
  mkCompactionConfig trigger strategy 2.
Definition with_min_recent_turns (n : nat) (c : CompactionConfig) : CompactionConfig :=
  mkCompactionConfig (trigger c) (strategy c) n.
End CompactionConfig.

Section compaction.
Context `{J : JsonText}.

Definition estimate_step_tokens (step : AgentStep) : nat :=
  let input_len :=
    match tool_input (step_action step) with
    | ToolInput.String value => String.length value
    | ToolInput.Object value => String.length (json_to_string value)
    end in
  (String.length (tool (step_action step)) + input_len + String.length (observation step)) / 4.

(** The walk from the newest step backwards ([steps] is the reversed history): how many
    steps are kept. *)
Fixpoint keep_within (total max_tokens least : nat) (steps : list AgentStep) (kept_tokens kept : nat) : nat :=
  match steps with
  | [] => kept
  | step :: steps' =>
      if (total <=? kept) || ((least <=? kept) && (max_tokens <? kept_tokens + estimate_step_tokens step))
      then kept
      else keep_within total max_tokens least steps' (kept_tokens + estimate_step_tokens step) (S kept)
  end.

(** The observation of a step, replaced; and whether it was not already. *)
Definition clear_step (placeholder : string) (step : AgentStep) : AgentStep :=
  mkAgentStep (step_action step) placeholder.

Definition clear_tool_uses (steps : list AgentStep) (keep_recent_turns : nat) (placeholder : string)
    : list AgentStep * nat :=
  if (length steps =? 0) || (length steps <=? keep_recent_turns) then (steps, 0)
  else
    let clear_count := length steps - keep_recent_turns in
    ((clear_step placeholder <$> take clear_count steps) ++ drop clear_count steps,
     length (filter (fun step => observation step <> placeholder) (take clear_count steps))).

Definition compact (config : CompactionConfig) (steps : list AgentStep) (tokens : N) : list AgentStep * nat :=
  if negb (should_compact (trigger config) (length steps) tokens) then (steps, 0)
  else
    let floor := Nat.min (min_recent_turns config) (length steps) in
    let drop_to keep :=
      let keep := Nat.min keep (length steps) in
      let dropped := length steps - keep in
      if dropped =? 0 then (steps, 0) else (drop (length steps - keep) steps, dropped) in
    match strategy config with
    | ClearToolUses keep_recent_turns placeholder => clear_tool_uses steps keep_recent_turns placeholder
    | SlidingWindow keep_recent_turns => drop_to (Nat.max keep_recent_turns floor)
    | TokenBudget max_tokens keep_recent_turns =>
        let least := Nat.max keep_recent_turns floor in
        let kept := keep_within (length steps) max_tokens least (rev steps) 0 0 in
        drop_to (Nat.min (Nat.max kept least) (length steps))
    end.

End compaction.
