(* ===== verification/ToolGate.v ===== *)
(** * The tool gate ([crates/lc-agents/src/executor/tool_gate.rs], [executor/tools.rs])

    [execute_one] is the chain of one tool call: hooks, approval, resolution of the final
    name, policy, rule of two, the tool itself under its timeout, callbacks.  It is a
    process over the environment [E], where everything the gate calls lives: each call of
    a hook, an approval handler, a store, a tool or a callback handler is a step.

    [execute_many] is the parallel batch: the members step in any interleaving, at most
    [concurrency] of them at a time, and the collector takes finished members in any
    order ([batch_step]); an abort stops the members where they are.

    A tool is itself a process, so it can be cut short by its timeout or by an abort.
    [Platform] gives the clock, the fresh identifiers and tokio's [timeout].  Logging is
    left out; of a run tree the times, tags and project are. *)

From stdpp Require Import gmap strings list pretty.
From S2P Require Import Prelude Json Message Process AgentTypes.

(** ** What the gate calls *)

Inductive RunType : Type := Chain | ToolRun.

Record RunTree := mkRunTree {
  rt_id : string;
  rt_name : string;
  rt_type : RunType;
  rt_inputs : JsonValue;
  rt_outputs : option JsonValue;
  rt_error : option string;
  rt_parent : option string;
  rt_trace : option string;
  rt_metadata : gmap string JsonValue;
}.

Record ToolCallContext := mkToolCallContext {
  tc_name : string;
  tc_arguments : JsonValue;
  tc_tool_id : string;
}.

Record ToolResultContext := mkToolResultContext {
  tr_name : string;
  tr_result : string;
  tr_tool_id : string;
}.

Module ToolCallAction.
Inductive ToolCallAction : Type :=
| Continue
| Modify (name : string) (arguments : JsonValue)
| Reject (reason : string)
| Skip.
End ToolCallAction.
Notation ToolCallAction := ToolCallAction.ToolCallAction.

Module CompletionAction.
Inductive CompletionAction : Type :=
| Continue
| Modify (messages : list Message)
| Reject (reason : string).
End CompletionAction.
Notation CompletionAction := CompletionAction.CompletionAction.

Inductive StreamAction : Type :=
| Forward (text : string)
| FilterOut
| Replace (text : string).

Record CompletionContext := mkCompletionContext {
  cc_messages : list Message;
  cc_model : string;
  cc_metadata : gmap string JsonValue;
}.

Record CompletionResult := mkCompletionResult {
  cr_message : Message;
  cr_tokens_used : option N;
}.

(** A hook may change the context it is handed, and the environment.  The errors of the
    methods without an effect on the run are logged and dropped. *)
Record AgentHook (E : Type) := mkAgentHook {
  on_before_completion : CompletionContext -> E -> CompletionAction * CompletionContext * E;
  on_after_completion : CompletionResult -> E -> CompletionResult * E;
  on_before_tool_call : ToolCallContext -> E -> ToolCallAction * ToolCallContext * E;
  on_after_tool_call : ToolResultContext -> E -> ToolResultContext * E;
  on_stream_chunk : string -> E -> StreamAction * E;
  on_agent_start : string -> E -> E;
  on_agent_end : string -> E -> E;
  on_error : string -> E -> E;
}.
Arguments on_before_completion {E}. Arguments on_after_completion {E}.
Arguments on_before_tool_call {E}. Arguments on_after_tool_call {E}.
Arguments on_stream_chunk {E}. Arguments on_agent_start {E}.
Arguments on_agent_end {E}. Arguments on_error {E}.

Inductive CallbackEvent : Type :=
| OnChainStart (run : RunTree) (inputs : JsonValue)
| OnChainEnd (run : RunTree) (outputs : JsonValue)
| OnChainError (run : RunTree) (error : string)
| OnToolStart (run : RunTree) (name input : string)
| OnToolEnd (run : RunTree) (output : string)
| OnToolError (run : RunTree) (error : string).

(** The handlers of a callback manager. *)
Definition CallbackManager (E : Type) : Type := list (CallbackEvent -> E -> E).

Record BaseTool (E : Type) := mkBaseTool {
  tl_name : string;
  tl_description : string;
  tl_risk : ToolRiskProfile;
  tl_run : string -> Proc E (result ToolError string);
}.
Arguments tl_name {E}. Arguments tl_description {E}. Arguments tl_risk {E}. Arguments tl_run {E}.

Record ResumeStore (E : Type) := mkResumeStore {
  save_pending : PendingApproval -> E -> result ResumeError () * E;
  load_pending : E -> result ResumeError (option PendingApproval) * E;
  clear_pending : E -> result ResumeError () * E;
}.
Arguments save_pending {E}. Arguments load_pending {E}. Arguments clear_pending {E}.

(** The clock, fresh ids, [tokio::time::timeout], which answers [None] when the time is up,
    and [tokio::spawn] of a task nobody waits for. *)
Class Platform (E : Type) := {
  now : E -> N;
  new_uuid : E -> string * E;
  tokio_timeout : N -> Proc E (result ToolError string) -> Proc E (option (result ToolError string));
  spawn : Proc E () -> E -> E;
}.

(** The first of several tools with one name is indexed. *)
Definition index_tools {E} (tools : list (BaseTool E)) : gmap string (BaseTool E) :=
  foldl (fun map tool =>
    match map !! tl_name tool with Some _ => map | None => <[tl_name tool := tool]> map end) ∅ tools.

(** ** Observations *)

Definition UNTRUSTED_OPEN : string := "<untrusted_data>".
Definition UNTRUSTED_CLOSE : string := "</untrusted_data>".

(** [str::replace] of the close marker, left to right. *)
Fixpoint escape_close (fuel : nat) (s : string) : string :=
  match fuel, s with
  | S fuel, String c s' =>
      match strip_prefix UNTRUSTED_CLOSE s with
      | Some rest => "\</untrusted_data>" +:+ escape_close fuel rest
      | None => String c (escape_close fuel s')
      end
  | _, _ => EmptyString
  end.

Definition wrap_tool_output (output : string) : string :=
  UNTRUSTED_OPEN +:+ escape_close (String.length output) output +:+ UNTRUSTED_CLOSE.

Definition denied_observation (reason : string) : string := "[DENIED by approval: " +:+ reason +:+ "]".
Definition not_found_observation (name : string) : string := "[Tool not found: " +:+ name +:+ "]".

Definition is_non_execution_observation (obs : string) : bool :=
  starts_with "[DENIED by approval:" obs || starts_with "[Tool not found: " obs ||
  starts_with "[Skipped by hook]" obs || starts_with "[BLOCKED by Rule of Two:" obs.

Inductive ToolOutcome : Type :=
| Done (text : string)
| Denied (reason : string).

Section display.
Context `{J : JsonText}.

Definition budget_exceeded_debug (e : BudgetExceeded) : string :=
  match e with
  | ToolCalls l a => "ToolCalls { limit: " +:+ pretty l +:+ ", actual: " +:+ pretty a +:+ " }"
  | Tokens l a => "Tokens { limit: " +:+ pretty l +:+ ", actual: " +:+ pretty a +:+ " }"
  | Duration l e => "Duration { limit: " +:+ debug_duration l +:+ ", elapsed: " +:+ debug_duration e +:+ " }"
  | Iterations l => "Iterations { limit: " +:+ pretty l +:+ " }"
  | Cost l a => "Cost { limit: " +:+ debug_float l +:+ ", actual: " +:+ debug_float a +:+ " }"
  end.

Fixpoint agent_error_to_string (e : AgentError) : string :=
  match e with
  | OutputParsingError m => "Output parsing error: " +:+ m
  | ToolNotFound n => "Tool not found: " +:+ n
  | ToolExecutionError m => "Tool execution error: " +:+ m
  | BatchAborted cause _ => "batch aborted: " +:+ agent_error_to_string cause
  | MaxIterationsReached => "Max iterations reached"
  | BudgetExceededError e => "Budget exceeded: " +:+ budget_exceeded_debug e
  | ResumeFailed m => "Resume error: " +:+ m
  | OtherError m => "Agent error: " +:+ m
  end.

Definition tool_error_observation (err : AgentError) : string :=
  "[Tool execution error: " +:+ agent_error_to_string err +:+ "]".

(** The text of a tool input: [ToolInput::to_string]. *)
Definition tool_input_to_string (i : ToolInput) : string :=
  match i with ToolInput.String value => value | ToolInput.Object value => json_to_string value end.

Definition server_executed_observation (action : AgentAction) : string :=
  tool_input_to_string (tool_input action).

End display.

(** ** The gate *)

Record ToolGate (E : Type) := mkToolGate {
  tg_tools : gmap string (BaseTool E);
  tg_hooks : list (AgentHook E);
  tg_approval : option (ToolCallContext -> Proc E ApprovalDecision);
  tg_policy : option ToolPolicy;
  tg_callbacks : option (CallbackManager E);
  tg_rule_of_two : bool;
  tg_spotlight : bool;
  tg_timeout : option N;
  tg_concurrency : nat;
}.
Arguments mkToolGate {E}. Arguments tg_tools {E}. Arguments tg_hooks {E}. Arguments tg_approval {E}.
Arguments tg_policy {E}. Arguments tg_callbacks {E}. Arguments tg_rule_of_two {E}.
Arguments tg_spotlight {E}. Arguments tg_timeout {E}. Arguments tg_concurrency {E}.

Section gate.
Context `{J : JsonText} {E : Type} `{P : !Platform E}.

(** [RunTree::new] and [RunTree::create_child]; ids are [Uuid::now_v7]. *)
Definition new_run (name : string) (run_type : RunType) (inputs : JsonValue) (e : E) : RunTree * E :=
  let '(id, e) := new_uuid e in
  (mkRunTree id name run_type inputs None None None None ∅, e).

Definition create_child (root : RunTree) (name : string) (run_type : RunType) (inputs : JsonValue)
    (e : E) : RunTree * E :=
  let '(id, e) := new_uuid e in
  (mkRunTree id name run_type inputs None None (Some (rt_id root))
     (match rt_trace root with Some t => Some t | None => Some (rt_id root) end) ∅, e).

Definition with_metadata (key : string) (value : JsonValue) (r : RunTree) : RunTree :=
  mkRunTree (rt_id r) (rt_name r) (rt_type r) (rt_inputs r) (rt_outputs r) (rt_error r)
    (rt_parent r) (rt_trace r) (<[key := value]> (rt_metadata r)).
Definition end_run (outputs : JsonValue) (r : RunTree) : RunTree :=
  mkRunTree (rt_id r) (rt_name r) (rt_type r) (rt_inputs r) (Some outputs) (rt_error r)
    (rt_parent r) (rt_trace r) (rt_metadata r).
Definition end_with_error (error : string) (r : RunTree) : RunTree :=
  mkRunTree (rt_id r) (rt_name r) (rt_type r) (rt_inputs r) (rt_outputs r) (Some error)
    (rt_parent r) (rt_trace r) (rt_metadata r).

Definition dispatch (callbacks : option (CallbackManager E)) (event : CallbackEvent) : Proc E () :=
  match callbacks with
  | Some handlers => tell_all ((fun h => h event) <$> handlers)
  | None => mret ()
  end.

Record ResumeCtx := mkResumeCtx {
  rc_pending : PendingApproval;
  rc_store : ResumeStore E;
}.

(** A failure to clear is logged. *)
Definition clear_resume (resume : option ResumeCtx) : Proc E () :=
  match resume with
  | Some ctx => call (clear_pending (rc_store ctx)) ;; mret ()
  | None => mret ()
  end.

Definition run_tool_with_timeout (tool : BaseTool E) (input : string) (timeout : option N)
    : Proc E (result ToolError string) :=
  match timeout with
  | Some d =>
      r ← tokio_timeout d (tl_run tool input);
      mret (match r with Some r => r | None => Err (Timeout (d / 10 ^ 9)%N) end)
  | None => tl_run tool input
  end.

(** What the hooks leave: the context, or the reason to stop. *)
Inductive HooksResult : Type :=
| Proceed (ctx : ToolCallContext)
| Rejected (reason : string)
| Skipped.

Fixpoint before_hooks (hooks : list (AgentHook E)) (ctx : ToolCallContext) (e : E) : HooksResult * E :=
  match hooks with
  | [] => (Proceed ctx, e)
  | hook :: hooks =>
      let '(action, ctx, e) := on_before_tool_call hook ctx e in
      match action with
      | ToolCallAction.Continue => before_hooks hooks ctx e
      | ToolCallAction.Modify name arguments =>
          before_hooks hooks (mkToolCallContext name arguments (tc_tool_id ctx)) e
      | ToolCallAction.Reject reason => (Rejected reason, e)
      | ToolCallAction.Skip => (Skipped, e)
      end
  end.

Fixpoint after_hooks (hooks : list (AgentHook E)) (ctx : ToolResultContext) (e : E) : ToolResultContext * E :=
  match hooks with
  | [] => (ctx, e)
  | hook :: hooks => let '(ctx, e) := on_after_tool_call hook ctx e in after_hooks hooks ctx e
  end.

Definition apply_approval_decision (decision : ApprovalDecision) (ctx : ToolCallContext)
    : option string * ToolCallContext :=
  match decision with
  | Allow => (None, ctx)
  | Deny reason => (Some reason, ctx)
  | Modify arguments _ => (None, mkToolCallContext (tc_name ctx) arguments (tc_tool_id ctx))
  end.

Definition pending_of (ctx : ResumeCtx) (tool_ctx : ToolCallContext) : PendingApproval :=
  let p := rc_pending ctx in
  mkPendingApproval (tc_name tool_ctx) (tc_arguments tool_ctx) (tc_tool_id tool_ctx)
    (pa_inputs p) (pa_steps p) (pa_iteration p) (pa_tool_calls_consumed p) (pa_tokens_consumed p)
    (pa_trace_id p).

(** The approval gate: the reason of a denial and the context to go on with. *)
Definition approval_gate (gate : ToolGate E) (resume : option ResumeCtx)
    (pre_decided : option ApprovalDecision) (ctx : ToolCallContext)
    : Proc E (option string * ToolCallContext) :=
  match pre_decided, tg_approval gate with
  | Some pre, _ => mret (apply_approval_decision pre ctx)
  | None, Some approve =>
      match resume with
      | Some r => call (save_pending (rc_store r) (pending_of r ctx)) ;; mret ()
      | None => mret ()
      end ;;
      decision ← approve ctx;
      mret (apply_approval_decision decision ctx)
  | None, None => mret (None, ctx)
  end.

Definition BLOCKED : string :=
  "[BLOCKED by Rule of Two: tool declares untrusted-input + sensitive-access + state-changing]".

Definition GEN_AI_TOOL_DESCRIPTION : string := "gen_ai.tool.description".
Definition GEN_AI_TOOL_CALL_ID : string := "gen_ai.tool.call.id".

(** The tool itself, once nothing stands in its way. *)
Definition run_tool (gate : ToolGate E) (root_run : RunTree) (resume : option ResumeCtx)
    (tool : BaseTool E) (ctx : ToolCallContext) : Proc E (result AgentError ToolOutcome) :=
  let input := json_to_string (tc_arguments ctx) in
  tool_run ← call (create_child root_run (tc_name ctx) ToolRun (JObject {["input" := JString input]}));
  let tool_run :=
    with_metadata GEN_AI_TOOL_CALL_ID (JString (tc_tool_id ctx))
      (with_metadata GEN_AI_TOOL_DESCRIPTION (JString (tl_description tool)) tool_run) in
  dispatch (tg_callbacks gate) (OnToolStart tool_run (tc_name ctx) input) ;;
  result ← run_tool_with_timeout tool input (tg_timeout gate);
  clear_resume resume ;;
  match result with
  | Ok output =>
      dispatch (tg_callbacks gate)
        (OnToolEnd (end_run (JObject {["output" := JString output]}) tool_run) output) ;;
      result_ctx ← call (after_hooks (tg_hooks gate)
                           (mkToolResultContext (tc_name ctx) output (tc_tool_id ctx)));
      mret (Ok (Done (if tg_spotlight gate then wrap_tool_output (tr_result result_ctx)
                      else tr_result result_ctx)))
  | Err err =>
      let msg := tool_error_to_string err in
      dispatch (tg_callbacks gate) (OnToolError (end_with_error msg tool_run) msg) ;;
      mret (match err with
            | ControlAbort m => Err (OtherError ("Tool call aborted: " +:+ m))
            | _ => Err (ToolExecutionError msg)
            end)
  end.

(** A chain that ends before the tool runs. *)
Definition refuse (resume : option ResumeCtx) (r : result AgentError ToolOutcome)
    : Proc E (result AgentError ToolOutcome) :=
  clear_resume resume ;; mret r.

Definition policy_check (gate : ToolGate E) (name : string) : result AgentError () :=
  match tg_policy gate with Some policy => ToolPolicy.check name policy | None => Ok () end.

(** The context a chain starts with; an empty provider id is replaced by a fresh one. *)
Definition initial_context (action : AgentAction) (e : E) : ToolCallContext * E :=
  let '(tool_id, e) :=
    match tool_call_id action with
    | Some id => if id =ₛ "" then new_uuid e else (id, e)
    | None => new_uuid e
    end in
  (mkToolCallContext (tool action)
     (match tool_input action with
      | ToolInput.String s => default (JString s) (from_str s)
      | ToolInput.Object v => v
      end) tool_id, e).

(** After hooks and approval: the checks on the final name. *)
Definition admit_and_run (gate : ToolGate E) (root_run : RunTree) (resume : option ResumeCtx)
    (deny_reason : option string) (ctx : ToolCallContext) : Proc E (result AgentError ToolOutcome) :=
  match deny_reason with
  | Some reason => refuse resume (Ok (Denied reason))
  | None =>
      match tg_tools gate !! tc_name ctx with
      | None => refuse resume (Err (ToolNotFound (tc_name ctx)))
      | Some tool =>
          match policy_check gate (tc_name ctx) with
          | Err err => refuse resume (Err err)
          | Ok _ =>
              if tg_rule_of_two gate && (3 <=? count_armed (tl_risk tool))
              then refuse resume (Ok (Done BLOCKED))
              else run_tool gate root_run resume tool ctx
          end
      end
  end.

Definition execute_one (gate : ToolGate E) (root_run : RunTree) (resume : option ResumeCtx)
    (pre_decided : option ApprovalDecision) (action : AgentAction)
    : Proc E (result AgentError ToolOutcome) :=
  if server_executed action then mret (Ok (Done (server_executed_observation action)))
  else
    hooked ← call (fun e => let '(ctx, e) := initial_context action e in
                            before_hooks (tg_hooks gate) ctx e);
    match hooked with
    | Rejected reason => mret (Err (OtherError ("Tool call rejected by hook: " +:+ reason)))
    | Skipped => mret (Ok (Done "[Skipped by hook]"))
    | Proceed ctx =>
        '(deny_reason, ctx) ← approval_gate gate resume pre_decided ctx;
        admit_and_run gate root_run resume deny_reason ctx
    end.

End gate.
