(* ===== verification/Batch.v ===== *)
(** * Parallel batches ([ToolGate::execute_many], [crates/lc-agents/src/executor/tool_gate.rs])

    The members of a batch are chains of the tool gate, run by tokio's [JoinSet] under the
    executor's semaphore ([Pool]).  The collector counts the members that executed, checks
    the budget again after each of them, and aborts the batch on a hard error.  The
    runtime is the class [Pool.Runtime]: what it does is what some schedule of the pool
    does.

    The theorems hold under every schedule.  The permits are those of one batch; a member
    that panics is not modelled. *)

From stdpp Require Import gmap strings list sorting.
From S2P Require Import Prelude Json Message Process Pool AgentTypes ToolGate.

Section batch.
Context `{J : JsonText} {E : Type} `{P : !Platform E}.

Definition MemberResult : Type := result AgentError string.

(** A member's chain; a denial is its observation. *)
Definition batch_member (gate : ToolGate E) (root_run : RunTree) (action : AgentAction) : Proc E MemberResult :=
  r ← execute_one gate root_run None None action;
  mret (match r with
        | Ok (Done text) => Ok text
        | Ok (Denied reason) => Ok (denied_observation reason)
        | Err e => Err e
        end).

(** The observation a member's result leaves, if it is not a hard error. *)
Definition member_observation (r : MemberResult) : option string :=
  match r with
  | Ok o => Some o
  | Err (ToolExecutionError m) => Some (tool_error_observation (ToolExecutionError m))
  | Err (ToolNotFound name) => Some (not_found_observation name)
  | Err _ => None
  end.

Definition collect_partial (results : list (nat * MemberResult)) : list string :=
  omap (fun p => member_observation p.2) results.

(** Whether the member ran its tool, as far as its result shows. *)
Definition consumed (r : MemberResult) : bool :=
  match r with
  | Ok o => negb (is_non_execution_observation o)
  | Err (ToolExecutionError _) => true
  | Err _ => false
  end.

(** The results so far, in the order they were joined, and how many of them executed. *)
Definition Collected : Type := list (nat * MemberResult) * nat.
Definition BatchResult : Type := result AgentError (list string).

Definition collect_member (budget : option BudgetConfig) (loop_start : N) (base_tool_calls : nat)
    (idx : nat) (r : MemberResult) (e : E) (c : Collected) : Collected + BatchResult :=
  let '(results, batch_executed) := c in
  let regate (batch_executed : nat) :=
    let results := results ++ [(idx, r)] in
    match budget_tool_gate budget (base_tool_calls + batch_executed) (now e - loop_start)%N with
    | Some err => inr (Err (BatchAborted err (collect_partial results)))
    | None => inl (results, batch_executed)
    end in
  match r with
  | Err (ToolExecutionError _) => regate (S batch_executed)
  | Err (ToolNotFound _) => inl (results ++ [(idx, r)], batch_executed)
  | Err err => inr (Err (BatchAborted err (collect_partial results)))
  | Ok o => regate (if is_non_execution_observation o then batch_executed else S batch_executed)
  end.

Definition idx_le (a b : nat * MemberResult) : Prop := a.1 <= b.1.
#[export] Instance idx_le_dec a b : Decision (idx_le a b) := decide (a.1 <= b.1).
#[export] Instance idx_le_total : Total idx_le.
Proof. intros a b. unfold idx_le. lia. Qed.
#[export] Instance idx_le_trans : Transitive idx_le.
Proof. intros a b c. unfold idx_le. lia. Qed.

(** [Iterator::collect] into a [Result]: the first error wins. *)
Fixpoint collect_results {A} (l : list (result AgentError A)) : result AgentError (list A) :=
  match l with
  | [] => Ok []
  | Err e :: _ => Err e
  | Ok a :: l => match collect_results l with Ok l => Ok (a :: l) | Err e => Err e end
  end.

(** The observations in the order the model emitted the actions. *)
Definition soften_member (r : MemberResult) : MemberResult :=
  match r with
  | Ok o => Ok o
  | Err (ToolExecutionError m) => Ok (tool_error_observation (ToolExecutionError m))
  | Err (ToolNotFound name) => Ok (not_found_observation name)
  | Err e => Err e
  end.

Definition reassemble (c : Collected) : BatchResult :=
  collect_results ((fun p => soften_member p.2) <$> merge_sort idx_le c.1).

Definition execute_many `{!Runtime E} (gate : ToolGate E) (actions : list AgentAction)
    (root_run : RunTree) (budget : option BudgetConfig) (loop_start : N) (base_tool_calls : nat)
    : Proc E BatchResult :=
  join_set (tg_concurrency gate) (collect_member budget loop_start base_tool_calls) reassemble
    (batch_member gate root_run <$> actions) ([], 0).

(** The batch under a given schedule. *)
Definition scheduled_batch (schedule : list Choice) (gate : ToolGate E) (actions : list AgentAction)
    (root_run : RunTree) (budget : option BudgetConfig) (loop_start : N) (base_tool_calls : nat)
    (e : E) : option (BatchResult * E) :=
  join_all (tg_concurrency gate) (collect_member budget loop_start base_tool_calls) reassemble
    schedule (batch_member gate root_run <$> actions) ([], 0) e.

Lemma execute_many_schedule `{!Runtime E} gate actions root budget start base e :
  0 < tg_concurrency gate ->
  exists schedule,
    scheduled_batch schedule gate actions root budget start base e =
    Some (run (execute_many gate actions root budget start base) e).
Proof. apply join_set_schedule. Qed.

(** ** What a batch ends with *)

Definition executed_count (rs : list MemberResult) : nat := length (filter (fun r => consumed r = true) rs).

Definition soft (r : MemberResult) : Prop := is_Some (member_observation r).

Lemma executed_count_app rs rs' : executed_count (rs ++ rs') = executed_count rs + executed_count rs'.
Proof. unfold executed_count. by rewrite filter_app length_app. Qed.

Lemma executed_count_one r : executed_count [r] = Nat.b2n (consumed r).
Proof. unfold executed_count. cbn. by destruct (consumed r). Qed.

Lemma executed_count_perm rs rs' : rs ≡ₚ rs' -> executed_count rs = executed_count rs'.
Proof. intros H. unfold executed_count. by rewrite H. Qed.

(** The results of a list of members, each one a result that member may have. *)
Definition joined_ok (Phis : list (MemberResult -> Prop)) (l : list (nat * MemberResult)) : Prop :=
  NoDup (l.*1) /\ Forall (fun p => exists Phi, Phis !! p.1 = Some Phi /\ Phi p.2 /\ soft p.2) l.

(** The count of executions stays under the limit. *)
Definition within (budget : option BudgetConfig) (n : nat) : Prop :=
  forall b limit, budget = Some b -> max_tool_calls b = Some limit -> n < limit.

Lemma budget_tool_gate_within budget n elapsed : budget_tool_gate budget n elapsed = None -> within budget n.
Proof.
  intros H b limit -> Hb. cbn in H. rewrite Hb in H. cbn in H.
  destruct (Nat.leb_spec limit n); [done|done].
Qed.

(** Why a batch was aborted: a member's hard error, or the budget, with the executions
    of the members joined so far. *)
Definition abort_cause (Phis : list (MemberResult -> Prop)) (budget : option BudgetConfig) (base : nat)
    (l : list (nat * MemberResult)) (cause : AgentError) : Prop :=
  (exists i Phi, Phis !! i = Some Phi /\ Phi (Err cause) /\ ~ soft (Err cause)) \/
  (exists b, budget = Some b /\
     let n := base + executed_count (l.*2) in
     ((exists limit, max_tool_calls b = Some limit /\ n = limit /\ cause = BudgetExceededError (ToolCalls limit n)) \/
      (exists limit elapsed, max_duration b = Some limit /\ (limit <= elapsed)%N /\
         cause = BudgetExceededError (Duration limit elapsed)))).

Definition batch_spec (Phis : list (MemberResult -> Prop)) (budget : option BudgetConfig) (base : nat)
    (o : BatchResult) : Prop :=
  match o with
  | Ok observations =>
      exists rs, Forall2 (fun (Phi : MemberResult -> Prop) r => Phi r) Phis rs /\
        member_observation <$> rs = Some <$> observations /\
        within budget (base + executed_count rs)
  | Err err =>
      exists cause l, err = BatchAborted cause (collect_partial l) /\ joined_ok Phis l /\
        abort_cause Phis budget base l cause
  end.

Lemma regate_cause budget n elapsed err :
  within budget (pred n) -> 
  budget_tool_gate budget n elapsed = Some err ->
  exists b, budget = Some b /\
    ((exists limit, max_tool_calls b = Some limit /\ n = limit /\ err = BudgetExceededError (ToolCalls limit n)) \/
     (exists limit elapsed, max_duration b = Some limit /\ (limit <= elapsed)%N /\
        err = BudgetExceededError (Duration limit elapsed))).
Proof.
  destruct budget as [b|]; [|done]. intros Hw H. exists b. split; [done|]. cbn in H.
  assert (Hd : duration_gate b elapsed = Some err -> exists limit elapsed, max_duration b = Some limit /\
                 (limit <= elapsed)%N /\ err = BudgetExceededError (Duration limit elapsed)).
  { unfold duration_gate. destruct (max_duration b) as [limit|]; [|done]. cbn.
    destruct (N.leb_spec limit elapsed); [|done]. intros ?; simplify_eq. by eauto. }
  destruct (max_tool_calls b) as [limit|] eqn:Hb; cbn in H; [|by auto].
  destruct (Nat.leb_spec limit n); simplify_eq/=; [|by auto].
  left. exists limit. split; [done|]. specialize (Hw b limit eq_refl Hb).
  assert (n = limit) by lia. by subst.
Qed.

(** The collector's invariant. *)
Definition collector_inv (Phis : list (MemberResult -> Prop)) (budget : option BudgetConfig) (base : nat)
    (ms : list (Member E MemberResult)) (c : Collected) : Prop :=
  joined_ok Phis c.1 /\ (forall i, i ∈ c.1.*1 <-> ms !! i = Some Joined) /\
  c.2 = executed_count (c.1.*2) /\ within budget (base + c.2).

(** One more member is joined. *)
Lemma joined_ok_snoc Phis l i Phi r :
  joined_ok Phis l -> i ∉ l.*1 -> Phis !! i = Some Phi -> Phi r -> soft r -> joined_ok Phis (l ++ [(i, r)]).
Proof.
  intros [Hnd Hall] Hi HPhi Hr Hs. split.
  - rewrite fmap_app. cbn. apply NoDup_app. split; [done|]. split; [|apply NoDup_singleton].
    intros j Hj ->%list_elem_of_singleton. done.
  - apply Forall_app. split; [done|]. constructor; [by exists Phi|constructor].
Qed.

Lemma collector_inv_join Phis budget base ms i r l m n :
  collector_inv Phis budget base ms (l, m) -> ms !! i = Some (Completed r) ->
  joined_ok Phis (l ++ [(i, r)]) -> n = executed_count ((l ++ [(i, r)]).*2) ->
  within budget (base + n) ->
  collector_inv Phis budget base (<[i := Joined]> ms) (l ++ [(i, r)], n).
Proof.
  intros (_ & Hkeys & _) Hi Hok Hn Hw. split; [done|]. split; [|done]. cbn [fst snd] in *. intros j.
  rewrite fmap_app elem_of_app Hkeys. cbn. rewrite list_elem_of_singleton.
  destruct (decide (i = j)) as [<-|Hj].
  - rewrite list_lookup_insert_eq; [tauto|by eapply lookup_lt_Some].
  - rewrite list_lookup_insert_ne; [|done]. naive_solver.
Qed.

Lemma executed_snoc (l : list (nat * MemberResult)) i r :
  executed_count ((l ++ [(i, r)]).*2) = executed_count (l.*2) + Nat.b2n (consumed r).
Proof. by rewrite fmap_app executed_count_app /= executed_count_one. Qed.

(** The collector, on a member that may have that result. *)
Lemma collect_member_ok Phis budget start base ms i Phi r e c :
  Phis !! i = Some Phi -> Phi r -> ms !! i = Some (Completed r) -> collector_inv Phis budget base ms c ->
  match collect_member budget start base i r e c with
  | inl c => collector_inv Phis budget base (<[i := Joined]> ms) c
  | inr o => batch_spec Phis budget base o
  end.
Proof.
  intros HPhi Hr Hi Hinv. pose proof Hinv as (Hok & Hkeys & Hn & Hw). destruct c as [l n]. cbn [fst snd] in *.
  assert (Hnew : i ∉ l.*1) by (rewrite Hkeys Hi; done).
  assert (Hregate : forall m, soft r -> m = n + Nat.b2n (consumed r) ->
    match (match budget_tool_gate budget (base + m) (now e - start) with
           | Some err => inr (Err (BatchAborted err (collect_partial (l ++ [(i, r)]))))
           | None => inl (l ++ [(i, r)], m)
           end) with
    | inl c => collector_inv Phis budget base (<[i := Joined]> ms) c
    | inr o => batch_spec Phis budget base o
    end).
  { intros m Hs ->. pose proof (joined_ok_snoc _ _ _ _ _ Hok Hnew HPhi Hr Hs) as Hok'.
    destruct (budget_tool_gate _ _ _) as [err|] eqn:Hg.
    - exists err, (l ++ [(i, r)]). split; [done|]. split; [done|]. right.
      apply regate_cause in Hg as (b & -> & Hb).
      2:{ intros b limit Hb Hl. specialize (Hw b limit Hb Hl). destruct (consumed r); cbn; lia. }
      exists b. split; [done|]. cbv zeta. by rewrite executed_snoc -Hn.
    - eapply collector_inv_join; [done|done|done|by rewrite executed_snoc -Hn|].
      by eapply budget_tool_gate_within. }
  destruct r as [o|err]; cbn -[budget_tool_gate].
  - apply Hregate; [by eexists|]. cbn. destruct (is_non_execution_observation o); cbn; lia.
  - assert (Hhard : ~ soft (Err err) -> batch_spec Phis budget base (Err (BatchAborted err (collect_partial l)))).
    { intros Hh. exists err, l. split; [done|]. split; [done|]. left. by exists i, Phi. }
    destruct err; try (apply Hhard; by intros [? ?]).
    + eapply (collector_inv_join _ _ _ _ _ _ _ n n); [done|done| | |done].
      * eapply joined_ok_snoc; [done..|by eexists].
      * rewrite executed_snoc -Hn. cbn. lia.
    + apply Hregate; [by eexists|]. cbn. lia.
Qed.

(** Sorting the joined members puts them in the order of the actions. *)
Lemma joined_in_order (l : list (nat * MemberResult)) n :
  NoDup (l.*1) -> (forall i, i ∈ l.*1 <-> i < n) ->
  exists rs, length rs = n /\ merge_sort idx_le l = imap (fun i r => (i, r)) rs /\ l.*2 ≡ₚ rs.
Proof.
  intros Hnd Hkeys. pose proof (merge_sort_Permutation idx_le l) as Hperm.
  set (s := merge_sort idx_le l) in *.
  assert (Hs1 : s.*1 = seq 0 n).
  { apply (StronglySorted_unique le).
    - pose proof (StronglySorted_merge_sort idx_le l) as Hss. fold s in Hss.
      clear -Hss. induction Hss as [|a s Hs IH Ha]; constructor; [done|].
      apply Forall_fmap. by eapply Forall_impl.
    - clear. generalize 0. induction n as [|n IH]; intros k; constructor; [done|].
      apply Forall_forall. intros x Hx. apply elem_of_seq in Hx. lia.
    - apply NoDup_Permutation; [by rewrite Hperm|apply NoDup_ListNoDup, seq_NoDup|].
      intros i. rewrite Hperm Hkeys elem_of_seq. lia. }
  exists (s.*2). split; [|split].
  - by rewrite length_fmap -(length_fmap fst) Hs1 length_seq.
  - apply list_eq. intros i. rewrite list_lookup_imap list_lookup_fmap.
    destruct (s !! i) as [[j r]|] eqn:Hi; [|done]. cbn. f_equal. f_equal.
    assert (s.*1 !! i = Some j) as Hj by (by rewrite list_lookup_fmap Hi).
    rewrite Hs1 in Hj. by apply lookup_seq in Hj as [-> _].
  - by rewrite Hperm.
Qed.

Lemma collect_results_soft (rs : list MemberResult) :
  Forall soft rs ->
  exists observations, collect_results (soften_member <$> rs) = Ok observations /\
    member_observation <$> rs = Some <$> observations.
Proof.
  induction 1 as [|r rs [o Ho] _ (os & IH & IHo)]; [by exists []|].
  exists (o :: os). cbn. rewrite Ho IHo. split; [|done].
  by destruct r as [?|[]]; cbn in *; simplify_eq/=; rewrite IH.
Qed.

(** The collected results of a batch whose members are all joined. *)
Lemma reassemble_ok Phis budget base (ms : list (Member E MemberResult)) c :
  length ms = length Phis -> forallb is_joined ms = true -> collector_inv Phis budget base ms c ->
  batch_spec Phis budget base (reassemble c).
Proof.
  intros Hl Hall ([Hnd Hok] & Hkeys & Hn & Hw).
  destruct (joined_in_order c.1 (length ms) Hnd) as (rs & Hlen & Hsort & Hperm).
  { intros i. rewrite Hkeys. split; [apply lookup_lt_Some|]. intros Hi.
    destruct (lookup_lt_is_Some_2 _ _ Hi) as [m Hm]. rewrite Hm. f_equal.
    rewrite forallb_forall in Hall. specialize (Hall m).
    rewrite -list_elem_of_In in Hall. specialize (Hall (list_elem_of_lookup_2 _ _ _ Hm)). by destruct m. }
  assert (Hrs : forall i r, rs !! i = Some r -> exists Phi, Phis !! i = Some Phi /\ Phi r /\ soft r).
  { intros i r Hi. rewrite Forall_forall in Hok. apply (Hok (i, r)).
    rewrite -(merge_sort_Permutation idx_le c.1) Hsort. apply list_elem_of_lookup. exists i.
    by rewrite list_lookup_imap Hi. }
  destruct (collect_results_soft rs) as (os & Hos & Hobs).
  { apply Forall_lookup. intros i r Hi. by destruct (Hrs i r Hi) as (? & ? & ? & ?). }
  unfold reassemble. rewrite Hsort.
  assert (Hmap : (fun p : nat * MemberResult => soften_member p.2) <$> imap (fun i r => (i, r)) rs =
                 soften_member <$> rs).
  { apply list_eq. intros i. rewrite !list_lookup_fmap list_lookup_imap. by destruct (rs !! i). }
  rewrite Hmap Hos. exists rs. split; [|split; [done|]].
  - apply Forall2_same_length_lookup. split; [lia|]. intros i Phi r HPhi Hi.
    destruct (Hrs i r Hi) as (? & ? & ? & ?). by simplify_eq.
  - by rewrite -(executed_count_perm _ _ Hperm) -Hn.
Qed.

End batch.

(** ** Every schedule *)

Section schedules.
Context `{J : JsonText} {E : Type} `{P : !Platform E}.

(** The results each member may have, whatever the others do in between. *)
Definition members_return (Phis : list (MemberResult -> Prop)) (gate : ToolGate E) (root_run : RunTree)
    (actions : list AgentAction) : Prop :=
  Forall2 (fun Phi action => returns Phi (batch_member gate root_run action)) Phis actions.

(** The general statement, for one schedule. *)
Lemma scheduled_batch_spec Phis gate actions root budget start base schedule e o e' :
  members_return Phis gate root actions ->
  within budget base ->
  scheduled_batch schedule gate actions root budget start base e = Some (o, e') ->
  batch_spec Phis budget base o.
Proof.
  intros HPhis Hw Hrun.
  eapply (join_all_rule _ _ _ Phis (collector_inv Phis budget base) (batch_spec Phis budget base));
    [| | | | |exact Hrun].
  - by apply Forall2_fmap_r.
  - split; [split; [constructor|done]|]. split; [|by rewrite Nat.add_0_r]. cbn. intros i.
    rewrite !list_lookup_fmap. split; [by intros ?%elem_of_nil|]. by destruct (actions !! i).
  - intros ms i m m' c (Hok & Hkeys & Hrest) Hi Hm Hm'. split; [done|]. split; [|done].
    intros j. rewrite Hkeys. destruct (decide (i = j)) as [<-|Hij].
    + rewrite list_lookup_insert_eq; [|by eapply lookup_lt_Some]. rewrite Hi. by destruct m, m'.
    + by rewrite list_lookup_insert_ne.
  - intros ms i Phi r w c HPhi Hr Hi Hinv. by eapply collect_member_ok.
  - intros ms c Hinv Hl Hall. eapply reassemble_ok; [|done..].
    rewrite Hl length_fmap. symmetry. by eapply Forall2_length.
Qed.

(** C14: What a parallel batch answers, under every runtime: either the members' observations in
    the order of the actions, each of a result that member may have and none of them hard,
    with the executions counted under the limit; or an abort that carries its cause, a
    member's hard error or the budget reached exactly, and the observations of distinct
    members joined before it. *)
Theorem batch_outcome `{!Runtime E} Phis gate actions root budget start base e :
  0 < tg_concurrency gate -> members_return Phis gate root actions -> within budget base ->
  batch_spec Phis budget base (run (execute_many gate actions root budget start base) e).1.
Proof.
  intros Hc HPhis Hw. destruct (execute_many_schedule gate actions root budget start base e Hc) as (sched & Hs).
  destruct (run _ e) as [o e']. by eapply scheduled_batch_spec.
Qed.

Lemma consumed_count Phis rs :
  Forall2 (fun (Phi : MemberResult -> Prop) r => Phi r) Phis rs ->
  Forall (fun Phi : MemberResult -> Prop => forall r, Phi r -> consumed r = true) Phis ->
  executed_count rs = length Phis.
Proof.
  induction 1 as [|Phi r Phis rs Hr _ IH]; [done|]. intros [HPhi HPhis]%Forall_cons.
  change (r :: rs) with ([r] ++ rs). rewrite executed_count_app executed_count_one (HPhi r Hr) (IH HPhis). done.
Qed.

(** A batch whose members all execute, and that has at least as many members as there are
    calls left, is aborted under every schedule, even when it has exactly as many. *)
Theorem overloaded_batch_aborts Phis gate actions root b start base limit schedule e o e' :
  members_return Phis gate root actions ->
  Forall (fun Phi : MemberResult -> Prop => forall r, Phi r -> consumed r = true) Phis ->
  max_tool_calls b = Some limit -> base < limit -> limit <= base + length actions ->
  scheduled_batch schedule gate actions root (Some b) start base e = Some (o, e') ->
  exists cause partial, o = Err (BatchAborted cause partial).
Proof.
  intros HPhis Hall Hb Hbase Hover Hrun.
  apply (scheduled_batch_spec Phis) in Hrun; [|done|by intros ? ? [= <-] ?; simplify_eq].
  destruct o as [observations|err].
  - destruct Hrun as (rs & Hrs & _ & Hw). specialize (Hw b limit eq_refl Hb).
    rewrite (consumed_count _ _ Hrs Hall) (Forall2_length _ _ _ HPhis) in Hw. lia.
  - destruct Hrun as (cause & l & -> & _). by eexists _, _.
Qed.

(** One choice of the runtime in a batch. *)
Definition batch_step (gate : ToolGate E) (budget : option BudgetConfig) (start : N) (base : nat) :=
  pool_step (W := E) (tg_concurrency gate) (collect_member budget start base) reassemble.

(** A batch comes to its end: whatever the runtime chooses it makes finitely many choices,
    one is enabled as long as a member is not joined, and no choice lets more members run
    than the executor's concurrency. *)
Theorem batch_ends gate budget start base :
  0 < tg_concurrency gate ->
  well_founded (fun s' s => exists choice e e', batch_step gate budget start base choice s e = Some (inl s', e')) /\
  forall s e, forallb is_joined (members s) = false ->
    (exists choice, is_Some (batch_step gate budget start base choice s e)) /\
    (forall choice s' e', batch_step gate budget start base choice s e = Some (inl s', e') ->
       running s <= tg_concurrency gate -> running s' <= tg_concurrency gate).
Proof.
  intros Hc. split.
  - intros s. remember (members s) as ms eqn:Hms. revert s Hms.
    induction ms as [ms IH] using (well_founded_induction members_lt_wf). intros s ->.
    constructor. intros s' (choice & e & e' & Hstep). eapply IH; [by eapply pool_step_lt|done].
  - intros s e Hopen. split; [by apply pool_progress|]. intros choice s' e'. apply pool_step_running.
Qed.

End schedules.
