(* ===== verification/AgentFacts.v ===== *)
(** * The limits of agent runs

    [run_within_limits]: however the agent, the tools and the runtime behave, a run plans
    at most once per iteration that is left, and what its metrics count stays within the
    budget.  The argument is one round ([turn_limits]), on the answers of the round's
    calls only ([ends]). *)

From stdpp Require Import gmap strings list.
From Stdlib Require Import SpecFloat.
From S2P Require Import Prelude Json Message Memory Process Pool AgentTypes ToolGate Batch AgentExecutor.
From Stdlib Require Import FunctionalExtensionality.

(** ** Observations and what they count for *)

Section limits.
Context `{J : JsonText} `{T : AgentText} {E : Type} `{P : !Platform E} `{R : !Runtime E}.

(** The observation of a result counts as the result does. *)
Lemma observation_consumed r o :
  member_observation r = Some o -> negb (is_non_execution_observation o) = consumed r.
Proof.
  destruct r as [o'|[]]; cbn [member_observation]; intros ?; simplify_eq; try done.
Qed.

Lemma count_executed_results rs observations :
  member_observation <$> rs = Some <$> observations -> count_executed observations = executed_count rs.
Proof.
  revert observations. induction rs as [|r rs IH]; intros [|o observations] H; simplify_eq/=; [done|].
  match goal with H : member_observation r = Some o |- _ => apply observation_consumed in H as Hc end.
  change (r :: rs) with ([r] ++ rs). rewrite executed_count_app executed_count_one -Hc -(IH observations); [|done].
  unfold count_executed. rewrite filter_cons. by destruct (is_non_execution_observation o).
Qed.

Lemma returns_any {A} (p : Proc E A) : returns (fun _ => True) p.
Proof. induction p as [a|k IH] using proc_induction; [done|]. cbn. intros w. apply IH. Qed.

(** What is known of a batch whatever its tools do. *)
Lemma execute_many_within gate actions root budget start base :
  0 < tg_concurrency gate -> within budget base ->
  ends (fun o => match o with
                 | Ok observations => within budget (base + count_executed observations)
                 | Err _ => True
                 end)
    (execute_many gate actions root budget start base).
Proof.
  intros Hc Hw e. destruct (execute_many_schedule gate actions root budget start base e Hc) as (sched & Hs).
  destruct (run _ e) as [o e'].
  assert (Hspec : batch_spec (replicate (length actions) (fun _ => True)) budget base o).
  { eapply scheduled_batch_spec; [|done..]. unfold members_return. clear.
    induction actions; constructor; [apply returns_any|done]. }
  destruct o as [obs|err]; [|done]. destruct Hspec as (rs & _ & Hrs & H).
  cbn. by rewrite (count_executed_results _ _ Hrs).
Qed.

(** ** One round *)

Definition plans (m : AgentMetrics) : nat := llm_calls m + cache_hits m.

(** The executions counted are at most the limit. *)
Definition tool_calls_ok (budget : option BudgetConfig) (m : AgentMetrics) : Prop :=
  forall b limit, budget = Some b -> max_tool_calls b = Some limit -> tool_calls m <= limit.

Definition tokens_ok (budget : option BudgetConfig) (m : AgentMetrics) : Prop :=
  forall b limit, budget = Some b -> max_tokens b = Some limit -> (default 0 (total_tokens m) <= limit)%N.

Lemma budget_token_gate_ok budget m : budget_token_gate budget m = None -> tokens_ok budget m.
Proof.
  intros H b limit -> Hb. cbn in H. rewrite Hb in H. cbn in H.
  by destruct (N.ltb_spec limit (default 0%N (total_tokens m))).
Qed.

Lemma within_tool_calls budget m : within budget (tool_calls m) -> tool_calls_ok budget m.
Proof. intros H b limit Hb Hl. specialize (H b limit Hb Hl). lia. Qed.

Lemma compact_steps_metrics config steps m :
  plans (compact_steps config steps m).2 = plans m /\
  tool_calls (compact_steps config steps m).2 = tool_calls m.
Proof.
  unfold compact_steps. destruct config as [config|]; [|done].
  destruct (compact config steps _) as [kept dropped]. by destruct (0 <? dropped).
Qed.

(** A planning call counts once, and only as a planning call. *)
Definition planned_once (m : AgentMetrics) (x : Metered AgentOutput) : Prop :=
  plans x.2 = S (plans m) /\ tool_calls x.2 = tool_calls m.

Lemma plan_fresh_counts (ex : AgentExecutor E) key steps inputs m config :
  ends (planned_once m) (plan_fresh ex key steps inputs m config).
Proof.
  apply ends_any. intros [?|?]; [|by apply ends_return].
  apply ends_any. intros [output|?]; [|by apply ends_return].
  apply ends_any. intros usage. apply ends_any. intros _. apply ends_return. by destruct usage.
Qed.

Lemma plan_cached_counts (ex : AgentExecutor E) steps inputs m config :
  ends (planned_once m) (plan_cached ex steps inputs m config).
Proof.
  unfold plan_cached. destruct (response_cache ex) as [cache|]; [|apply plan_fresh_counts].
  apply ends_any. intros cached. destruct (cached ≫= output_from_str); [|apply plan_fresh_counts].
  apply ends_return. split; [|done]. unfold plans. cbn. lia.
Qed.

(** The iterations a run may make, and whether one more is allowed. *)
Definition iteration_cap (budget : option BudgetConfig) (max_iterations : nat) : nat :=
  match budget ≫= budget_max_iterations with
  | Some limit => Nat.min limit max_iterations
  | None => max_iterations
  end.

Lemma iteration_gate_cap budget max_iterations iteration elapsed :
  iteration < max_iterations -> budget_iteration_gate budget max_iterations iteration elapsed = None ->
  iteration < iteration_cap budget max_iterations.
Proof.
  unfold iteration_cap. destruct budget as [b|]; [|done]. cbn -[Nat.min].
  destruct (budget_max_iterations b) as [limit|]; [|done]. cbn -[Nat.min].
  by destruct (Nat.leb_spec (Nat.min limit max_iterations) iteration).
Qed.

(** What a round leaves of the limits: [more] bounds the planning calls made. *)
Definition turn_ok (budget : option BudgetConfig) (more : nat) (m : AgentMetrics) (t : Turn) : Prop :=
  match t with
  | Again _ m' => plans m' <= plans m + more /\ tool_calls_ok budget m' /\ tokens_ok budget m'
  | Stop r m' =>
      plans m' <= plans m + more /\ tool_calls_ok budget m' /\
      match r with Ok _ => tokens_ok budget m' | Err _ => True end
  end.

Lemma run_action_ok (ex : AgentExecutor E) action inputs steps iteration start root m m0 more :
  plans m <= plans m0 + more -> tool_calls_ok (budget ex) m -> tokens_ok (budget ex) m ->
  ends (turn_ok (budget ex) more m0) (run_action ex action inputs steps iteration start root m).
Proof.
  intros Hp Ht Hk. unfold run_action. destruct (tool action =ₛ PARSE_ERROR_TOOL); [by apply ends_return|].
  apply ends_any. intros elapsed.
  destruct (budget_tool_gate (budget ex) (tool_calls m) elapsed) eqn:Hg; [by apply ends_return|].
  apply budget_tool_gate_within in Hg.
  apply ends_any. intros r. destruct (soften_member r) as [o|]; [|by apply ends_return].
  apply ends_return. destruct (is_non_execution_observation o); [done|].
  split; [done|]. split; [|done]. intros b limit Hb Hl. specialize (Hg b limit Hb Hl). cbn. lia.
Qed.

Lemma run_actions_ok (ex : AgentExecutor E) actions steps start root m m0 more :
  0 < max_concurrency ex ->
  plans m <= plans m0 + more -> tool_calls_ok (budget ex) m -> tokens_ok (budget ex) m ->
  ends (turn_ok (budget ex) more m0) (run_actions ex actions steps start root m).
Proof.
  intros Hc Hp Ht Hk. unfold run_actions. apply ends_any. intros elapsed.
  destruct (budget_tool_gate (budget ex) (tool_calls m) elapsed) eqn:Hg; [by apply ends_return|].
  apply ends_bind. eapply ends_mono; [|apply (execute_many_within (from_executor ex)); [done|]].
  - intros [observations|err] Hw; apply ends_return; [|done].
    split; [done|]. split; [by apply within_tool_calls|done].
  - by eapply budget_tool_gate_within.
Qed.

Lemma turn_limits (ex : AgentExecutor E) inputs steps iteration start root m config :
  0 < max_concurrency ex -> iteration < max_iterations ex -> tool_calls_ok (budget ex) m ->
  ends (turn_ok (budget ex) (Nat.b2n (iteration <? iteration_cap (budget ex) (max_iterations ex))) m)
    (turn ex inputs steps iteration start root m config).
Proof.
  intros Hc Hi Ht. apply ends_any. intros elapsed.
  destruct (budget_iteration_gate _ _ _ _) eqn:Hg; [apply ends_return; split; [lia|done]|].
  apply (iteration_gate_cap _ _ _ _ Hi), Nat.ltb_lt in Hg. rewrite Hg. cbn [Nat.b2n].
  pose proof (compact_steps_metrics (compaction ex) steps m) as [Hp1 Ht1].
  destruct (compact_steps (compaction ex) steps m) as [steps1 m1]. cbn in Hp1, Ht1.
  apply ends_bind. eapply ends_mono; [|apply plan_cached_counts].
  intros [planned m2] [Hp2 Ht2]. cbn in Hp2, Ht2.
  assert (Hp : plans m2 <= plans m + 1) by lia.
  assert (Htm : tool_calls_ok (budget ex) m2) by (unfold tool_calls_ok; by rewrite Ht2 Ht1).
  destruct planned as [output|e]; [|by apply ends_return].
  destruct (budget_token_gate (budget ex) m2) eqn:Hk; [by apply ends_return|].
  apply budget_token_gate_ok in Hk.
  apply ends_any. intros [over|]; [by apply ends_return|].
  destruct output as [action|actions|finish].
  - by apply run_action_ok.
  - by apply run_actions_ok.
  - by apply ends_return.
Qed.

(** ** The run *)

Lemma iterations_limits rounds (ex : AgentExecutor E) inputs steps iteration start root m config :
  0 < max_concurrency ex -> rounds = max_iterations ex - iteration ->
  tool_calls_ok (budget ex) m -> tokens_ok (budget ex) m ->
  ends (fun x => plans x.2 <= plans m + (iteration_cap (budget ex) (max_iterations ex) - iteration) /\
                 tool_calls_ok (budget ex) x.2 /\
                 match x.1 with Ok _ => tokens_ok (budget ex) x.2 | Err _ => True end)
    (iterations rounds ex inputs steps iteration start root m config).
Proof.
  intros Hc. revert steps iteration m.
  induction rounds as [|rounds IH]; intros steps iteration m Hr Ht Hk.
  - apply ends_return. cbn. split; [lia|]. split; [done|]. by destruct (out_of_iterations ex steps).
  - apply ends_bind. eapply ends_mono; [|apply turn_limits; [done|lia|done]].
    intros [steps' m'|r m'] (Hp & Ht' & Hk').
    + eapply ends_mono; [|apply IH; [lia|done..]]. intros x (? & ? & ?). split; [|done].
      destruct (Nat.ltb_spec iteration (iteration_cap (budget ex) (max_iterations ex))); cbn in *; lia.
    + apply ends_return. cbn. split; [|done].
      destruct (Nat.ltb_spec iteration (iteration_cap (budget ex) (max_iterations ex))); cbn in *; lia.
Qed.

(** C6: However the agent, the tools and the runtime behave, a run plans at most once per
    iteration that is left under its own and the budget's cap, never counts more
    executions than [max_tool_calls], and answers only within [max_tokens]. *)
Theorem run_within_limits (ex : AgentExecutor E) inputs steps iteration root m config e :
  0 < max_concurrency ex -> tool_calls_ok (budget ex) m -> tokens_ok (budget ex) m ->
  let '((r, m'), e') := run (run_agent_loop_from ex inputs steps iteration root m config) e in
  llm_calls m' + cache_hits m' <=
    llm_calls m + cache_hits m + (iteration_cap (budget ex) (max_iterations ex) - iteration) /\
  tool_calls_ok (budget ex) m' /\
  match r with Ok _ => tokens_ok (budget ex) m' | Err _ => True end.
Proof.
  intros Hc Ht Hk. unfold run_agent_loop_from. rewrite run_bind run_call.
  pose proof (iterations_limits (max_iterations ex - iteration) ex inputs steps iteration (now e) root m
                config Hc eq_refl Ht Hk e) as H.
  by destruct (run _ e) as [[r m'] e'].
Qed.

End limits.

(** * Blocked tools never run

    A tool the policy refuses, or the rule of two blocks, has no influence on any run: its
    body can be replaced by any other, and every process of the executor is the same
    process.  It is an equality of processes, so it holds of every interleaving. *)

Section blocked.
Context `{J : JsonText} `{T : AgentText} {E : Type} `{P : !Platform E} `{R : !Runtime E}.

Lemma bind_ext {A B} (p : Proc E A) (f g : A -> Proc E B) : (forall a, f a = g a) -> p ≫= f = p ≫= g.
Proof. intros H. f_equal. by apply functional_extensionality. Qed.

(** The tool [name] with another body. *)
Definition with_body (body : string -> Proc E (result ToolError string)) (t : BaseTool E) : BaseTool E :=
  mkBaseTool E (tl_name t) (tl_description t) (tl_risk t) body.

Definition replace_body (name : string) (body : string -> Proc E (result ToolError string))
    (gate : ToolGate E) : ToolGate E :=
  mkToolGate (alter (with_body body) name (tg_tools gate)) (tg_hooks gate) (tg_approval gate) (tg_policy gate)
    (tg_callbacks gate) (tg_rule_of_two gate) (tg_spotlight gate) (tg_timeout gate) (tg_concurrency gate).

(** The gate refuses to run the tool. *)
Definition blocked (gate : ToolGate E) (name : string) : Prop :=
  (exists err, policy_check gate name = Err err) \/
  (tg_rule_of_two gate = true /\
   forall t, tg_tools gate !! name = Some t -> 3 <= count_armed (tl_risk t)).

(** The chain on a name that is not blocked does not look at the blocked tool. *)
Lemma run_tool_other name body gate root resume tool ctx :
  run_tool (replace_body name body gate) root resume tool ctx = run_tool gate root resume tool ctx.
Proof. reflexivity. Qed.

Lemma admit_and_run_blocked name body gate root resume deny ctx :
  blocked gate name ->
  admit_and_run (replace_body name body gate) root resume deny ctx =
  admit_and_run gate root resume deny ctx.
Proof.
  intros Hb. unfold admit_and_run. destruct deny; [done|]. cbn [tg_tools replace_body].
  destruct (decide (tc_name ctx = name)) as [Hn|Hn].
  2:{ rewrite lookup_alter_ne; done. }
  rewrite Hn lookup_alter_eq. destruct (tg_tools gate !! name) as [t|] eqn:Ht; [|done]. cbn [fmap option_fmap option_map].
  change (policy_check (replace_body name body gate) name) with (policy_check gate name).
  destruct (policy_check gate name) eqn:Hp; [|done].
  destruct Hb as [(err & Herr)|(Hr & Harmed)]; [congruence|].
  cbn [tg_rule_of_two replace_body tl_risk with_body]. rewrite Hr.
  by rewrite (proj2 (Nat.leb_le _ _) (Harmed t Ht)).
Qed.

Lemma execute_one_blocked name body gate root resume pre action :
  blocked gate name ->
  execute_one (replace_body name body gate) root resume pre action = execute_one gate root resume pre action.
Proof.
  intros Hb. unfold execute_one. destruct (server_executed action); [done|].
  apply bind_ext. intros [ctx|reason|]; [|done..].
  change (approval_gate (replace_body name body gate) resume pre ctx) with (approval_gate gate resume pre ctx).
  apply bind_ext. intros [deny ctx']. by apply admit_and_run_blocked.
Qed.

Lemma members_blocked name body gate root (actions : list AgentAction) :
  blocked gate name ->
  batch_member (replace_body name body gate) root <$> actions = batch_member gate root <$> actions.
Proof.
  intros Hb. apply list_fmap_ext. intros i action _. unfold batch_member. by rewrite execute_one_blocked.
Qed.

(** The executor whose index has the other body. *)
Definition with_tool_body (name : string) (body : string -> Proc E (result ToolError string))
    (ex : AgentExecutor E) : AgentExecutor E :=
  AgentExecutor.configure (max_iterations ex) (callbacks ex) (hooks ex) (max_concurrency ex) (tools ex)
    (alter (with_body body) name (tools_by_name ex)) ex.

Lemma run_action_blocked name body (ex : AgentExecutor E) action inputs steps iteration start root m :
  blocked (from_executor ex) name ->
  run_action (with_tool_body name body ex) action inputs steps iteration start root m =
  run_action ex action inputs steps iteration start root m.
Proof.
  intros Hb. unfold run_action. destruct (tool action =ₛ PARSE_ERROR_TOOL); [done|].
  apply bind_ext. intros elapsed. cbn [budget with_tool_body AgentExecutor.configure].
  destruct (budget_tool_gate _ _ _); [done|].
  unfold execute_tool_inner.
  change (from_executor (with_tool_body name body ex)) with (replace_body name body (from_executor ex)).
  by rewrite execute_one_blocked.
Qed.

Lemma run_actions_blocked name body (ex : AgentExecutor E) actions steps start root m :
  blocked (from_executor ex) name ->
  run_actions (with_tool_body name body ex) actions steps start root m =
  run_actions ex actions steps start root m.
Proof.
  intros Hb. unfold run_actions. apply bind_ext. intros elapsed.
  cbn [budget with_tool_body AgentExecutor.configure].
  destruct (budget_tool_gate _ _ _); [done|]. unfold execute_tools_parallel, execute_many.
  change (from_executor (with_tool_body name body ex)) with (replace_body name body (from_executor ex)).
  by rewrite members_blocked.
Qed.

Lemma turn_blocked name body (ex : AgentExecutor E) inputs steps iteration start root m config :
  blocked (from_executor ex) name ->
  turn (with_tool_body name body ex) inputs steps iteration start root m config =
  turn ex inputs steps iteration start root m config.
Proof.
  intros Hb. unfold turn. apply bind_ext. intros elapsed.
  cbn [budget max_iterations compaction cost_tracker with_tool_body AgentExecutor.configure].
  destruct (budget_iteration_gate _ _ _ _); [done|].
  destruct (compact_steps _ _ _) as [steps1 m1].
  change (plan_cached (with_tool_body name body ex)) with (plan_cached ex).
  apply bind_ext. intros [[output|] m2]; [|done]. destruct (budget_token_gate _ _); [done|].
  apply bind_ext. intros [over|]; [done|].
  destruct output; [by apply run_action_blocked|by apply run_actions_blocked|done].
Qed.

Lemma iterations_blocked rounds name body (ex : AgentExecutor E) inputs steps iteration start root m config :
  blocked (from_executor ex) name ->
  iterations rounds (with_tool_body name body ex) inputs steps iteration start root m config =
  iterations rounds ex inputs steps iteration start root m config.
Proof.
  intros Hb. revert steps iteration m. induction rounds as [|rounds IH]; intros steps iteration m; [done|].
  cbn [iterations]. rewrite turn_blocked; [|done]. apply bind_ext. by intros [].
Qed.

(** C19: A tool that the policy refuses, or that the rule of two blocks, never runs: with any
    other body in its place every run and every resumption is the same process, call by
    call, whatever the hooks rename and the approval modifies. *)
Theorem blocked_tool_never_runs (ex : AgentExecutor E) name body input trace_id decision :
  blocked (from_executor ex) name ->
  invoke_inner (with_tool_body name body ex) input trace_id = invoke_inner ex input trace_id /\
  resume (with_tool_body name body ex) decision = resume ex decision.
Proof.
  intros Hb. split.
  - unfold invoke_inner.
    change (validate_tool_registration (with_tool_body name body ex)) with (validate_tool_registration ex).
    destruct (validate_tool_registration ex); [|done].
    do 5 (apply bind_ext; intros ?). case_match; [|done]. apply bind_ext; intros inputs.
    unfold run_agent_loop, run_agent_loop_from. f_equal. f_equal. apply functional_extensionality. intros start.
    by apply iterations_blocked.
  - unfold resume. cbn [resume_store with_tool_body AgentExecutor.configure].
    destruct (resume_store ex); [|done]. apply bind_ext. intros [[p|]|]; [|done..].
    apply bind_ext. intros [|]; [|done]. unfold resume_from. do 2 (apply bind_ext; intros ?).
    unfold execute_tool_inner.
    change (from_executor (with_tool_body name body ex)) with (replace_body name body (from_executor ex)).
    rewrite execute_one_blocked; [|done]. apply bind_ext. intros [obs|]; [|done].
    f_equal. unfold run_agent_loop_from. apply bind_ext. intros start. by apply iterations_blocked.
Qed.

End blocked.
