(* ===== verification/ResumeFacts.v ===== *)
(** * The checkpoint of a tool call

    [crash_keeps_checkpoint]: from the moment a sequential call waits for its approval until
    its tool has run, a crash at any await leaves the checkpoint in the store, so a new
    process finds it.  [Ran] is any lasting trace the tool's run leaves in the environment. *)

From stdpp Require Import gmap strings list.
From S2P Require Import Prelude Json Message Memory Process Pool AgentTypes ToolGate Batch AgentExecutor.

Section checkpoint.
Context `{J : JsonText} `{T : AgentText} {E : Type} `{P : !Platform E} `{R : !Runtime E}.

Variable store : ResumeStore E.
Variable stored : E -> option PendingApproval.

(** What the store, the callbacks and the clock's ids do to the checkpoint. *)
Record StoreLaws (handlers : option (CallbackManager E)) : Prop := {
  save_stores p e : (save_pending store p e).1 = Ok () /\ stored (save_pending store p e).2 = Some p;
  load_reads e : load_pending store e = (Ok (stored e), e);
  uuid_keeps e : stored (new_uuid e).2 = stored e;
  handlers_keep hs h event e : handlers = Some hs -> h ∈ hs -> stored (h event e) = stored e;
}.

(** What lasts once the tool has run. *)
Record Lasting (gate : ToolGate E) (Ran : E -> Prop) : Prop := {
  lasts_clear e : Ran e -> Ran (clear_pending store e).2;
  lasts_handlers hs h event e : tg_callbacks gate = Some hs -> h ∈ hs -> Ran e -> Ran (h event e);
  lasts_hooks ctx e : Ran e -> Ran (after_hooks (tg_hooks gate) ctx e).2;
}.

Lemma dispatch_always (I : E -> Prop) handlers event e :
  I e -> (forall hs h e, handlers = Some hs -> h ∈ hs -> I e -> I (h event e)) ->
  always I (dispatch handlers event) e.
Proof.
  intros He Hh. destruct handlers as [hs|]; cbn; [|by apply always_return].
  apply always_tell_all; [done|]. intros act e' Hact. apply list_elem_of_fmap in Hact as (h & -> & Hin).
  by apply (Hh hs).
Qed.

Lemma create_child_keeps handlers root name type inputs e :
  StoreLaws handlers -> stored (create_child root name type inputs e).2 = stored e.
Proof. intros L. unfold create_child. pose proof (uuid_keeps _ L e). by destruct (new_uuid e). Qed.

(** The tool keeps the checkpoint while it runs, and has run when it is over. *)
Definition runs_to (Ran : E -> Prop) (p : Proc E (result ToolError string)) : Prop :=
  forall e q, stored e = Some q -> always (fun e => stored e = Some q) p e /\ Ran (run p e).2.

Lemma always_ran (I Ran : E -> Prop) {A} (p : Proc E A) e :
  (forall e, Ran e -> I e) -> always Ran p e -> always I p e.
Proof. intros H Hp n. apply H, Hp. Qed.

(** What is left of the chain once the tool is over. *)
Lemma after_tool_always gate pending ctx child (r : result ToolError string) Ran e :
  Lasting gate Ran -> Ran e ->
  always Ran
    (clear_resume (Some {| rc_pending := pending; rc_store := store |}) ;;
     match r with
     | Ok output =>
         dispatch (tg_callbacks gate) (OnToolEnd (end_run (JObject {["output" := JString output]}) child) output) ;;
         result_ctx ← call (after_hooks (tg_hooks gate) (mkToolResultContext (tc_name ctx) output (tc_tool_id ctx)));
         mret (Ok (Done (if tg_spotlight gate then wrap_tool_output (tr_result result_ctx)
                         else tr_result result_ctx)))
     | Err err =>
         let msg := tool_error_to_string err in
         dispatch (tg_callbacks gate) (OnToolError (end_with_error msg child) msg) ;;
         mret (match err with
               | ControlAbort m => Err (OtherError ("Tool call aborted: " +:+ m))
               | _ => Err (ToolExecutionError msg)
               end)
     end) e.
Proof.
  intros S He. apply always_bind.
  { apply always_bind; [apply always_call; [done|by apply (lasts_clear _ _ S)]|].
    rewrite run_call. apply always_return. by apply (lasts_clear _ _ S). }
  assert (H1 : Ran (run (clear_resume (Some {| rc_pending := pending; rc_store := store |})) e).2).
  { unfold clear_resume. rewrite run_bind run_call. cbn. pose proof (lasts_clear _ _ S e He).
    by destruct (clear_pending store e). }
  destruct (run (clear_resume _) e) as [[] e1]. cbn [fst snd] in *.
  assert (Hd : forall event, always Ran (dispatch (tg_callbacks gate) event) e1).
  { intros event. apply dispatch_always; [done|]. intros hs h e' ?? ?. by eapply (lasts_handlers _ _ S). }
  destruct r as [output|err]; (apply always_bind; [apply Hd|]).
  - pose proof (always_run _ _ _ (Hd (OnToolEnd (end_run (JObject {["output" := JString output]}) child) output))) as H2.
    destruct (run (dispatch _ _) e1) as [[] e2]. cbn [fst snd] in *.
    apply always_bind; [apply always_call; [done|by apply (lasts_hooks _ _ S)]|].
    rewrite run_call. apply always_return. by apply (lasts_hooks _ _ S).
  - pose proof (always_run _ _ _ (Hd (OnToolError (end_with_error (tool_error_to_string err) child)
      (tool_error_to_string err)))) as H2.
    destruct (run (dispatch _ _) e1) as [[] e2]. by apply always_return.
Qed.

Lemma run_tool_always gate root pending tool ctx Ran q e :
  StoreLaws (tg_callbacks gate) -> Lasting gate Ran ->
  runs_to Ran (run_tool_with_timeout tool (json_to_string (tc_arguments ctx)) (tg_timeout gate)) ->
  stored e = Some q ->
  always (fun e => stored e = Some q \/ Ran e)
    (run_tool gate root (Some {| rc_pending := pending; rc_store := store |}) tool ctx) e.
Proof.
  intros L S Htool He. unfold run_tool. set (input := json_to_string (tc_arguments ctx)) in *.
  apply always_bind.
  { apply always_call; [by left|]. left. by rewrite (create_child_keeps _ _ _ _ _ _ L). }
  rewrite run_call. pose proof (create_child_keeps _ root (tc_name ctx) ToolRun
    (JObject {["input" := JString input]}) e L) as Hc. rewrite He in Hc.
  destruct (create_child _ _ _ _ e) as [child e1]. cbn [fst snd] in *.
  cbv beta zeta. set (child' := with_metadata GEN_AI_TOOL_CALL_ID _ _).
  assert (Hd : always (fun e => stored e = Some q) (dispatch (tg_callbacks gate) (OnToolStart child' (tc_name ctx) input)) e1).
  { apply dispatch_always; [done|]. intros hs h e' Hh Hin He'. by rewrite (handlers_keep _ L hs). }
  apply always_bind; [intros n; left; apply Hd|]. pose proof (always_run _ _ _ Hd) as H1.
  destruct (run (dispatch _ _) e1) as [[] e2]. cbn [fst snd] in *.
  destruct (Htool e2 q H1) as [Ht Hran].
  apply always_bind; [intros n; left; apply Ht|].
  destruct (run (run_tool_with_timeout _ _ _) e2) as [r e3]. cbn [fst snd] in *.
  eapply always_ran; [|by apply (after_tool_always gate pending ctx child' r Ran)]. by right.
Qed.

(** Nothing stands between the approved call and its tool. *)
Definition admitted (gate : ToolGate E) (ctx : ToolCallContext) (tool : BaseTool E) : Prop :=
  tg_tools gate !! tc_name ctx = Some tool /\ policy_check gate (tc_name ctx) = Ok () /\
  (tg_rule_of_two gate && (3 <=? count_armed (tl_risk tool)))%bool = false.

(** What is left of the chain once the checkpoint is saved. *)
Definition awaiting (ex : AgentExecutor E) (root : RunTree) (r : ResumeCtx)
    (approve : ToolCallContext -> Proc E ApprovalDecision) (ctx : ToolCallContext)
    : Proc E (result AgentError string) :=
  outcome ← ('(deny_reason, ctx) ← (decision ← approve ctx; mret (apply_approval_decision decision ctx));
             admit_and_run (from_executor ex) root (Some r) deny_reason ctx);
  mret (match outcome with
        | Ok (Done text) => Ok text
        | Ok (Denied reason) => Ok (denied_observation reason)
        | Err e => Err e
        end).

Lemma steps_to_approval ex action root r approve ctx e e1 :
  approval ex = Some approve -> server_executed action = false ->
  (let '(ctx0, e0) := initial_context action e in before_hooks (hooks ex) ctx0 e0) = (Proceed ctx, e1) ->
  steps 2 (execute_tool_inner ex action root (Some r) None) e =
  (awaiting ex root r approve ctx, (save_pending (rc_store r) (pending_of r ctx) e1).2).
Proof.
  intros Happ Hs Hh. unfold execute_tool_inner, execute_one. rewrite Hs. cbn [steps].
  unfold call. cbn [mbind proc_bind tg_hooks from_executor]. rewrite Hh. cbn [mbind proc_bind].
  unfold approval_gate. cbn [tg_approval from_executor]. rewrite Happ. unfold call. cbn [mbind proc_bind].
  by destruct (save_pending _ _ e1).
Qed.

Lemma awaiting_always ex root pending approve ctx ctx' decision tool Ran q e :
  StoreLaws (callbacks ex) -> Lasting (from_executor ex) Ran ->
  (forall e q, stored e = Some q -> always (fun e => stored e = Some q) (approve ctx) e) ->
  (forall e, (run (approve ctx) e).1 = decision) ->
  apply_approval_decision decision ctx = (None, ctx') ->
  admitted (from_executor ex) ctx' tool ->
  runs_to Ran (run_tool_with_timeout tool (json_to_string (tc_arguments ctx')) (tool_timeout ex)) ->
  stored e = Some q ->
  always (fun e => stored e = Some q \/ Ran e)
    (awaiting ex root {| rc_pending := pending; rc_store := store |} approve ctx) e.
Proof.
  intros L S Hkeep Hdec Happly (Hlook & Hpol & Hrule) Htool He. unfold awaiting.
  pose proof (Hkeep e q He) as Ha. pose proof (always_run _ _ _ Ha) as He'. pose proof (Hdec e) as Hd.
  assert (Hrun : always (fun e => stored e = Some q \/ Ran e)
    ('(deny_reason, ctx) ← (decision ← approve ctx; mret (apply_approval_decision decision ctx));
     admit_and_run (from_executor ex) root (Some {| rc_pending := pending; rc_store := store |}) deny_reason ctx) e).
  { apply always_bind.
    - apply always_bind; [intros n; left; apply Ha|]. destruct (run (approve ctx) e) as [d e2].
      apply always_return. by left.
    - rewrite run_bind. destruct (run (approve ctx) e) as [d e2]. cbn [fst snd run mret proc_ret] in *. subst d.
      rewrite Happly. unfold admit_and_run. rewrite Hlook Hpol Hrule. by apply run_tool_always. }
  apply always_bind; [done|]. apply always_return. by eapply always_run in Hrun.
Qed.

(** C26: Crash safety of the checkpoint: of a sequential call whose approval lets its tool run,
    at every await from the approval on, either the checkpoint of the call, with its final
    name, arguments and id, is what a new process finds pending, or the tool has run. *)
Theorem crash_keeps_checkpoint (ex : AgentExecutor E) action approve inputs steps_done iteration root m
    ctx ctx' decision tool Ran e e1 n :
  StoreLaws (callbacks ex) -> Lasting (from_executor ex) Ran ->
  resume_store ex = Some store -> approval ex = Some approve -> server_executed action = false ->
  (let '(ctx0, e0) := initial_context action e in before_hooks (hooks ex) ctx0 e0) = (Proceed ctx, e1) ->
  (forall e q, stored e = Some q -> always (fun e => stored e = Some q) (approve ctx) e) ->
  (forall e, (run (approve ctx) e).1 = decision) ->
  apply_approval_decision decision ctx = (None, ctx') ->
  admitted (from_executor ex) ctx' tool ->
  runs_to Ran (run_tool_with_timeout tool (json_to_string (tc_arguments ctx')) (tool_timeout ex)) ->
  2 <= n ->
  let resume_ctx := checkpoint ex action inputs steps_done iteration root m in
  let crashed := (steps n (execute_tool_inner ex action root resume_ctx None) e).2 in
  (exists p, (run (pending_approval ex) crashed).1 = Ok (Some p) /\
     pa_tool_name p = tc_name ctx /\ pa_arguments p = tc_arguments ctx /\ pa_tool_id p = tc_tool_id ctx /\
     pa_steps p = steps_done /\ pa_iteration p = iteration) \/
  Ran crashed.
Proof.
  intros L S Hstore Happ Hs Hh Hkeep Hdec Happly Hadm Htool Hn. cbv zeta.
  unfold checkpoint. rewrite Hstore. cbn [mbind option_bind].
  set (pending := mkPendingApproval _ _ _ _ _ _ _ _ _).
  set (r := {| rc_pending := pending; rc_store := store |}).
  replace n with (2 + (n - 2)) by lia. rewrite steps_add (steps_to_approval ex action root r approve ctx e e1); [|done..].
  destruct (save_stores _ L (pending_of r ctx) e1) as [_ Hsaved].
  destruct (awaiting_always ex root pending approve ctx ctx' decision tool Ran _ _ L S Hkeep Hdec Happly Hadm
              Htool Hsaved (n - 2)) as [Hq|Hr]; [left|by right].
  exists (pending_of r ctx). split; [|done].
  unfold pending_approval. rewrite Hstore run_bind run_call (load_reads _ L). cbn. by rewrite Hq.
Qed.

End checkpoint.

(** * What a run keeps: the compacted history and the response cache

    [compaction_keeps_recent] says which steps a compaction leaves, for each strategy;
    [put_ok] that the response cache stays within its capacity and reads back what was
    written last, evicting only its oldest entry. *)

(** ** Compaction *)

Section compaction.
Context `{J : JsonText}.

#[local] Arguments estimate_step_tokens : simpl never.

Definition step_tokens (steps : list AgentStep) : nat := sum_list_with estimate_step_tokens steps.

(** The backward walk: what it has passed, [newer], is within the budget past the least
    number of steps, and where it stops the next step would not be. *)
Lemma keep_within_spec total max_tokens least older newer :
  length older + length newer = total ->
  (least < length newer -> step_tokens newer <= max_tokens) ->
  exists passed left_over,
    older = passed ++ left_over /\
    keep_within total max_tokens least older (step_tokens newer) (length newer) = length newer + length passed /\
    (least < length newer + length passed -> step_tokens newer + step_tokens passed <= max_tokens) /\
    match left_over with
    | [] => True
    | step :: _ =>
        least <= length newer + length passed /\
        max_tokens < step_tokens newer + step_tokens passed + estimate_step_tokens step
    end.
Proof.
  unfold step_tokens. revert newer. induction older as [|step older IH]; intros newer Htotal Hfit; cbn [keep_within].
  { exists [], []. cbn. split_and!; [done|lia| |done]. intros ?. rewrite Nat.add_0_r in H. cbn in *. specialize (Hfit H). lia. }
  cbn in Htotal.
  destruct ((total <=? length newer) ||
            ((least <=? length newer) && (max_tokens <? sum_list_with estimate_step_tokens newer + estimate_step_tokens step)))%bool eqn:Hstop.
  - exists [], (step :: older). cbn. apply orb_true_iff in Hstop as [H|H].
    { apply Nat.leb_le in H. lia. }
    apply andb_true_iff in H as [Hl Hm]. apply Nat.leb_le in Hl. apply Nat.ltb_lt in Hm.
    split_and!; [done|lia| |lia|lia]. intros ?. rewrite Nat.add_0_r in H. specialize (Hfit H). lia.
  - apply orb_false_iff in Hstop as [_ Hok].
    destruct (IH (step :: newer)) as (passed & left_over & -> & Hk & Hfit' & Hrest).
    { cbn. lia. }
    { cbn. intros Hl. apply andb_false_iff in Hok as [H|H].
      - apply Nat.leb_gt in H. lia.
      - apply Nat.ltb_ge in H. lia. }
    exists (step :: passed), left_over. cbn in *.
    rewrite (Nat.add_comm (sum_list_with _ newer)). rewrite Hk.
    split_and!; [done|lia| |].
    + intros Hl. specialize (Hfit' ltac:(lia)). lia.
    + destruct left_over; [done|]. lia.
Qed.

Lemma step_tokens_reverse steps : step_tokens (rev steps) = step_tokens steps.
Proof. unfold step_tokens. by rewrite -(Permutation_rev steps). Qed.

Lemma step_tokens_app a b : step_tokens (a ++ b) = step_tokens a + step_tokens b.
Proof. apply sum_list_with_app. Qed.

(** Keeping the last [keep] steps. *)
Definition keep_last (keep : nat) (steps : list AgentStep) : list AgentStep * nat :=
  let keep := Nat.min keep (length steps) in
  let dropped := length steps - keep in
  if dropped =? 0 then (steps, 0) else (drop (length steps - keep) steps, dropped).

Lemma keep_last_drop keep steps :
  keep_last keep steps = (drop (length steps - keep) steps, length steps - keep).
Proof.
  unfold keep_last. destruct (Nat.eqb_spec (length steps - Nat.min keep (length steps)) 0) as [H|H].
  - replace (length steps - keep) with 0 by lia. done.
  - by replace (length steps - Nat.min keep (length steps)) with (length steps - keep) by lia.
Qed.

(** The recent steps a token budget keeps. *)
Lemma token_budget_spec max_tokens least steps :
  let kept := keep_within (length steps) max_tokens least (rev steps) 0 0 in
  let keep := Nat.min (Nat.max kept least) (length steps) in
  Nat.min least (length steps) <= keep <= length steps /\
  (step_tokens (drop (length steps - keep) steps) <= max_tokens \/ keep <= least) /\
  (keep < length steps -> max_tokens < step_tokens (drop (length steps - S keep) steps)).
Proof.
  destruct (keep_within_spec (length steps) max_tokens least (rev steps) []) as (passed & rest & Hs & Hk & Hfit & Hrest).
  { rewrite length_rev. cbn. lia. }
  { cbn. lia. }
  cbn in Hk, Hfit, Hrest |- *. rewrite Hk.
  assert (Hsteps : steps = rev rest ++ rev passed) by (by rewrite -rev_app_distr -Hs rev_involutive).
  assert (Hlen : length steps = length rest + length passed) by (rewrite Hsteps length_app !length_rev; lia).
  split; [lia|]. destruct rest as [|step rest]; cbn in *.
  - replace (Nat.min (Nat.max (length passed) least) (length steps)) with (length steps) by lia.
    rewrite Nat.sub_diag. split; [|lia]. cbn.
    destruct (decide (least < length passed)) as [Hl|Hl]; [left|right; lia].
    rewrite Hsteps. cbn. rewrite step_tokens_reverse. by apply Hfit.
  - destruct Hrest as [Hl Hover].
    replace (Nat.min (Nat.max (length passed) least) (length steps)) with (length passed) by lia.
    replace (length steps - length passed) with (length (rev rest ++ [step])) by (rewrite length_app length_rev; cbn; lia).
    replace (length steps - S (length passed)) with (length (rev rest)) by (rewrite length_rev; lia).
    rewrite Hsteps drop_app_length. split.
    + destruct (decide (least < length passed)) as [Hl'|Hl']; [left|right; lia].
      rewrite step_tokens_reverse. by apply Hfit.
    + intros _. rewrite -app_assoc drop_app_length step_tokens_app step_tokens_reverse.
      unfold step_tokens in *. cbn. lia.
Qed.

Lemma clear_tool_uses_spec steps keep placeholder :
  let kept := (clear_tool_uses steps keep placeholder).1 in
  step_action <$> kept = step_action <$> steps /\
  drop (length steps - keep) kept = drop (length steps - keep) steps /\
  Forall (fun s => observation s = placeholder) (take (length steps - keep) kept).
Proof.
  unfold clear_tool_uses. cbv zeta. set (n := length steps - keep).
  destruct ((length steps =? 0) || (length steps <=? keep))%bool eqn:H.
  { assert (n = 0) as ->; [|done]. unfold n. apply orb_true_iff in H as [H%Nat.eqb_eq|H%Nat.leb_le]; lia. }
  cbn [fst]. assert (Hl : length (clear_step placeholder <$> take n steps) = n).
  { rewrite length_fmap length_take. lia. }
  split_and!.
  - rewrite fmap_app -list_fmap_compose -{3}(take_drop n steps) fmap_app. done.
  - by rewrite drop_app_length'.
  - rewrite take_app_length'; [|done]. apply Forall_fmap, Forall_true. done.
Qed.

(** Which steps a compaction leaves: none is touched before the trigger; a window keeps a
    suffix of the configured length; a token budget keeps the longest suffix that fits, and
    never fewer steps than the floor; clearing keeps every action and the recent
    observations. *)
Theorem compaction_keeps_recent config steps tokens kept dropped :
  compact config steps tokens = (kept, dropped) ->
  if should_compact (trigger config) (length steps) tokens then
    let floor := Nat.min (min_recent_turns config) (length steps) in
    match strategy config with
    | ClearToolUses keep placeholder =>
        step_action <$> kept = step_action <$> steps /\
        drop (length steps - keep) kept = drop (length steps - keep) steps /\
        Forall (fun s => observation s = placeholder) (take (length steps - keep) kept)
    | SlidingWindow keep =>
        kept = drop dropped steps /\ length kept = Nat.min (Nat.max keep floor) (length steps)
    | TokenBudget max keep =>
        kept = drop dropped steps /\ dropped + length kept = length steps /\
        Nat.min (Nat.max keep floor) (length steps) <= length kept /\
        (step_tokens kept <= max \/ length kept <= Nat.max keep floor) /\
        (0 < dropped -> max < step_tokens (drop (pred dropped) steps))
    end
  else kept = steps /\ dropped = 0.
Proof.
  unfold compact. destruct (should_compact _ _ _); cbn [negb]; [|by intros ?; simplify_eq].
  cbv zeta. set (floor := Nat.min (min_recent_turns config) (length steps)).
  destruct (strategy config) as [keep|max keep|keep placeholder].
  - intros H. change (keep_last (Nat.max keep floor) steps = (kept, dropped)) in H.
    rewrite keep_last_drop in H. simplify_eq. split; [done|]. rewrite length_drop. lia.
  - set (k := Nat.min (Nat.max (keep_within _ _ _ _ _ _) _) _). intros H.
    change (keep_last k steps = (kept, dropped)) in H. rewrite keep_last_drop in H. simplify_eq.
    destruct (token_budget_spec max (Nat.max keep floor) steps) as (Hk & Hfit & Hover). fold k in Hk, Hfit, Hover.
    rewrite length_drop. split_and!; [done|lia|lia| |].
    + destruct Hfit; [by left|right; lia].
    + intros Hd. replace (pred (length steps - k)) with (length steps - S k) by lia. apply Hover. lia.
  - intros H. pose proof (clear_tool_uses_spec steps keep placeholder) as Hc. by rewrite H in Hc.
Qed.

End compaction.

(** ** The response cache *)

Section cache.
Import MemoryCache.

(** The order lists the keys of the map, once each, and fits the capacity. *)
Record cache_ok (c : MemoryCache) : Prop := {
  order_nodup : NoDup (cache_order c);
  order_keys k : k ∈ cache_order c <-> is_Some (cache_map c !! k);
  order_fits : length (cache_order c) <= max_entries c;
  has_room : 1 <= max_entries c;
}.

Lemma new_ok : cache_ok new.
Proof. split; cbn; [constructor| |lia|lia]. intros k. rewrite lookup_empty elem_of_nil. by split; [|intros []]. Qed.

Lemma with_capacity_ok n : cache_ok (with_capacity n).
Proof. split; cbn -[Nat.max]; [constructor| |lia|lia]. intros k. rewrite lookup_empty elem_of_nil. by split; [|intros []]. Qed.

(** Nothing is evicted from an order that fits, and one entry from an order one too long. *)
Lemma evict_fits order map max : length order <= max -> evict order map max = (map, order).
Proof. destruct order as [|k order]; [done|]. intros H. cbn [evict]. by rewrite (proj2 (Nat.ltb_ge _ _)). Qed.

Lemma evict_one k order map max :
  length order = max -> evict (k :: order) map max = (delete k map, order).
Proof.
  intros H. cbn [evict]. rewrite (proj2 (Nat.ltb_lt _ _)); [|cbn; lia]. apply evict_fits. lia.
Qed.

(** A write is read back and keeps the cache well formed; what it may evict is the oldest
    entry of a full cache, for a key that is new. *)
Theorem put_ok key value c :
  cache_ok c ->
  cache_ok (put key value c) /\
  get key (put key value c) = Some value /\
  forall k, k <> key ->
    get k (put key value c) = get k c \/
    (get k (put key value c) = None /\ get key c = None /\ head (cache_order c) = Some k /\
     length (cache_order c) = max_entries c).
Proof.
  intros [Hnd Hkeys Hfit Hroom]. unfold put, get.
  destruct (cache_map c !! key) as [old|] eqn:Hkey.
  - rewrite evict_fits; [|done]. cbn. split; [split|]; cbn; try done.
    + intros k. rewrite Hkeys. destruct (decide (k = key)) as [->|]; [by rewrite lookup_insert_eq Hkey|].
      by rewrite lookup_insert_ne.
    + rewrite lookup_insert_eq. split; [done|]. intros k Hk. left. by rewrite lookup_insert_ne.
  - assert (Hnew : key ∉ cache_order c) by (rewrite Hkeys Hkey; by intros []).
    destruct (decide (length (cache_order c) < max_entries c)) as [Hlt|Hfull].
    + rewrite evict_fits; [|rewrite length_app; cbn; lia]. split; [split|]; cbn.
      * apply NoDup_app. split; [done|]. split; [|apply NoDup_singleton].
        intros k Hk ->%list_elem_of_singleton. done.
      * intros k. rewrite elem_of_app list_elem_of_singleton Hkeys.
        destruct (decide (k = key)) as [->|]; [rewrite lookup_insert_eq; naive_solver|].
        rewrite lookup_insert_ne; [naive_solver|done].
      * rewrite length_app. cbn. lia.
      * done.
      * rewrite lookup_insert_eq. split; [done|]. intros k Hk. left. by rewrite lookup_insert_ne.
    + destruct (cache_order c) as [|oldest order] eqn:Ho; [cbn in *; lia|]. cbn in Hfit, Hfull.
      apply NoDup_cons in Hnd as [Hold Hnd]. apply not_elem_of_cons in Hnew as [Hne Hnew].
      cbn [app]. rewrite evict_one; [|rewrite length_app; cbn; lia]. split; [split|]; cbn.
      * apply NoDup_app. split; [done|]. split; [|apply NoDup_singleton].
        intros k Hk ->%list_elem_of_singleton. done.
      * intros k. rewrite elem_of_app list_elem_of_singleton. specialize (Hkeys k). rewrite elem_of_cons in Hkeys.
        destruct (decide (k = oldest)) as [->|Hko].
        { rewrite lookup_delete_eq. split; [naive_solver|by intros []]. }
        rewrite lookup_delete_ne; [|done].
        destruct (decide (k = key)) as [->|]; [rewrite lookup_insert_eq; naive_solver|].
        rewrite lookup_insert_ne; [naive_solver|done].
      * rewrite length_app. cbn. lia.
      * done.
      * rewrite lookup_delete_ne; [|done]. rewrite lookup_insert_eq. split; [done|]. intros k Hk.
        destruct (decide (k = oldest)) as [->|Hko].
        -- right. rewrite lookup_delete_eq. split_and!; [done..|lia].
        -- left. rewrite lookup_delete_ne; [|done]. by rewrite lookup_insert_ne.
Qed.

End cache.
