(* ===== verification/AgentStream.v ===== *)
(** * Streaming runs ([crates/lc-agents/src/executor/stream.rs])

    The task behind [AgentExecutor::stream].  [stream_body] is the task up to its terminal
    event, which it answers ([None] when the consumer is gone); [stream_task] sends it, as
    the code does last.  The channel is the [Port]: sending an event, with whatever the
    bounded send does to a slow consumer, and whether the stream was dropped. *)

From stdpp Require Import gmap strings list.
From S2P Require Import Prelude Json Message Memory Process Pool AgentTypes ToolGate Batch AgentExecutor.

Inductive ToolCallState : Type :=
| Started (tool_name call_id : string)
| ArgumentsStreaming (tool_name call_id partial_args : string)
| ArgumentsComplete (tool_name call_id : string) (args : JsonValue)
| Executing (tool_name call_id : string)
| Completed (tool_name call_id result : string)
| Failed (tool_name call_id error : string).

(** The executor's streams send texts, tool events and the answer; the other events are of
    other streaming agents. *)
Inductive AgentStreamEvent : Type :=
| Text (content : string)
| ToolCallEvent (state : ToolCallState)
| ToolStart (name input : string)
| ToolEnd (name output : string)
| PipelineStep (step : string) (detail : option string)
| FinalAnswer (content : string)
| ErrorEvent (message : string).

Definition StreamItem : Type := result AgentError AgentStreamEvent.

Record Port (E : Type) := mkPort {
  port_send : StreamItem -> E -> E;
  port_cancelled : E -> bool;
}.
Arguments mkPort {E}. Arguments port_send {E}. Arguments port_cancelled {E}.

(** What the task does after a round. *)
Inductive StreamTurn : Type :=
| SAgain (steps : list AgentStep) (metrics : AgentMetrics)
| SEnded (item : StreamItem)
| SCancelled.

Section stream.
Context `{J : JsonText} `{T : AgentText} {E : Type} `{P : !Platform E} `{R : !Runtime E}.
Context (ex : AgentExecutor E) (port : Port E).

Definition send (event : AgentStreamEvent) : Proc E () := tell (port_send port (Ok event)).

(** Each hook sees the text as the one before left it. *)
Fixpoint stream_hooks (hooks : list (AgentHook E)) (current : string) (e : E) : string * E :=
  match hooks with
  | [] => (current, e)
  | hook :: hooks =>
      let '(action, e) := on_stream_chunk hook current e in
      stream_hooks hooks (match action with Forward t | Replace t => t | FilterOut => "" end) e
  end.

Definition apply_stream_hooks (hooks : list (AgentHook E)) (token : string) (e : E) : option string * E :=
  let '(current, e) := stream_hooks hooks token e in
  (if current =ₛ "" then None else Some current, e).

Definition on_token (token : string) : Proc E () :=
  text ← call (apply_stream_hooks (hooks ex) token);
  match text with Some content => send (Text content) | None => mret () end.

(** [emit_stream_failure], with [save_errored_round_to_memory]. *)
Definition emit_stream_failure (root_run : RunTree) (inputs : gmap string string) (msg : string) : Proc E () :=
  dispatch (callbacks ex) (OnChainError (end_with_error msg root_run) msg) ;;
  save_memory (memory ex) inputs "".

Definition notify_error (msg : string) : Proc E () := tell_all ((fun h => on_error h msg) <$> hooks ex).

(** A terminal failure of the loop. *)
Definition fail_stream (root_run : RunTree) (inputs : gmap string string) (metrics : AgentMetrics)
    (loop_start : N) (msg : string) (err : AgentError) : Proc E StreamTurn :=
  emit_stream_failure root_run inputs msg ;;
  publish_metrics ex metrics loop_start ;;
  mret (SEnded (Err err)).

(** A gate's error is sent as it is, any other as its text. *)
Definition fail_gate root_run inputs metrics loop_start (err : AgentError) : Proc E StreamTurn :=
  fail_stream root_run inputs metrics loop_start (agent_error_to_string err) err.
Definition fail_other root_run inputs metrics loop_start (err : AgentError) : Proc E StreamTurn :=
  fail_stream root_run inputs metrics loop_start (agent_error_to_string err)
    (OtherError (agent_error_to_string err)).

(** The end of a run that has its answer. *)
Definition finish_stream (input : string) (root_run : RunTree) (inputs : gmap string string)
    (metrics : AgentMetrics) (loop_start : N) (content : string) : Proc E StreamTurn :=
  save_memory (memory ex) inputs content ;;
  spawn_extraction (semantic_memory ex) input content ;;
  let outputs := JObject {["output" := JString content]} in
  dispatch (callbacks ex) (OnChainEnd (end_run outputs root_run) outputs) ;;
  tell_all ((fun h => on_agent_end h content) <$> hooks ex) ;;
  publish_metrics ex metrics loop_start ;;
  mret (SEnded (Ok (FinalAnswer content))).

(** The policy, on the names the model asked for. *)
Fixpoint check_all (policy : ToolPolicy) (names : list string) : result AgentError () :=
  match names with
  | [] => Ok ()
  | name :: names => match ToolPolicy.check name policy with Err e => Err e | Ok _ => check_all policy names end
  end.
Definition policy_refuses (names : list string) : option AgentError :=
  policy ← tool_policy ex;
  match check_all policy names with Err e => Some e | Ok _ => None end.

Definition send_all (events : list AgentStreamEvent) : Proc E () :=
  tell_all ((fun event => port_send port (Ok event)) <$> events).

Definition start_event (action : AgentAction) : AgentStreamEvent :=
  ToolStart (tool action) (tool_input_to_string (tool_input action)).

Definition cancelled : Proc E bool := call (fun e => (port_cancelled port e, e)).

Definition stream_action (inputs : gmap string string) (steps : list AgentStep) (loop_start : N)
    (root_run : RunTree) (metrics : AgentMetrics) (action : AgentAction) : Proc E StreamTurn :=
  if tool action =ₛ PARSE_ERROR_TOOL
  then mret (SAgain (steps ++ [mkAgentStep action (tool_input_to_string (tool_input action))]) metrics)
  else
    match policy_refuses [tool action] with
    | Some err => fail_other root_run inputs metrics loop_start err
    | None =>
        elapsed ← call (elapsed_since loop_start);
        match budget_tool_gate (budget ex) (tool_calls metrics) elapsed with
        | Some err => fail_gate root_run inputs metrics loop_start err
        | None =>
            send (start_event action) ;;
            gone ← cancelled;
            if gone : bool then mret SCancelled
            else
              r ← execute_tool_inner ex action root_run None None;
              match soften_member r with
              | Err err => fail_other root_run inputs metrics loop_start err
              | Ok observation =>
                  let metrics := if is_non_execution_observation observation then metrics
                                 else AgentMetrics.add_tool_calls 1 metrics in
                  send (ToolEnd (tool action) observation) ;;
                  mret (SAgain (steps ++ [mkAgentStep action observation]) metrics)
              end
        end
    end.

Definition stream_actions (inputs : gmap string string) (steps : list AgentStep) (loop_start : N)
    (root_run : RunTree) (metrics : AgentMetrics) (actions : list AgentAction) : Proc E StreamTurn :=
  match policy_refuses (tool <$> actions) with
  | Some err => fail_other root_run inputs metrics loop_start err
  | None =>
      elapsed ← call (elapsed_since loop_start);
      match budget_tool_gate (budget ex) (tool_calls metrics) elapsed with
      | Some err => fail_gate root_run inputs metrics loop_start err
      | None =>
          send_all (start_event <$> actions) ;;
          gone ← cancelled;
          if gone : bool then mret SCancelled
          else
            r ← execute_tools_parallel ex actions root_run loop_start (tool_calls metrics);
            match r with
            | Err err =>
                send_all ((fun action => ToolEnd (tool action)
                             ("[batch aborted: " +:+ agent_error_to_string err +:+ "]")) <$> actions) ;;
                fail_other root_run inputs metrics loop_start err
            | Ok observations =>
                let metrics := AgentMetrics.add_tool_calls (count_executed observations) metrics in
                send_all (zip_with (fun action o => ToolEnd (tool action) o) actions observations) ;;
                mret (SAgain (steps ++ zip_steps actions observations) metrics)
            end
      end
  end.

Definition stream_turn (input : string) (inputs : gmap string string) (steps : list AgentStep)
    (iteration : nat) (loop_start : N) (root_run : RunTree) (metrics : AgentMetrics)
    (config : option (RunnableConfig E)) : Proc E StreamTurn :=
  gone ← cancelled;
  if gone : bool then mret SCancelled
  else
    elapsed ← call (elapsed_since loop_start);
    match budget_iteration_gate (budget ex) (max_iterations ex) iteration elapsed with
    | Some err => fail_gate root_run inputs metrics loop_start err
    | None =>
        allowed ← call (run_before_completion_hooks (hooks ex) inputs);
        match allowed with
        | Err err => fail_other root_run inputs metrics loop_start err
        | Ok _ =>
            let '(steps, metrics) := compact_steps (compaction ex) steps metrics in
            planned ← plan_stream (agent ex) steps inputs on_token config;
            match planned with
            | Err err =>
                let msg := agent_error_to_string err in
                emit_stream_failure root_run inputs msg ;;
                notify_error msg ;;
                publish_metrics ex metrics loop_start ;;
                mret (SEnded (Err (OtherError msg)))
            | Ok output =>
                usage ← call (fun e => let usage := last_token_usage (agent ex) e in
                                       (usage, run_after_completion_hooks (hooks ex) output usage e));
                let metrics := AgentMetrics.add_llm_call metrics in
                let metrics := match usage with Some u => AgentMetrics.add_token_usage u metrics | None => metrics end in
                match budget_token_gate (budget ex) metrics with
                | Some err => fail_gate root_run inputs metrics loop_start err
                | None =>
                    over ← cost_gate (cost_tracker ex) (budget ex) root_run;
                    match over with
                    | Some err => fail_gate root_run inputs metrics loop_start err
                    | None =>
                        match output with
                        | Finish finish =>
                            finish_stream input root_run inputs metrics loop_start (output_text finish)
                        | Action action => stream_action inputs steps loop_start root_run metrics action
                        | Actions actions => stream_actions inputs steps loop_start root_run metrics actions
                        end
                    end
                end
            end
        end
    end.

(** The loop, with [rounds] iterations left: the terminal event. *)
Fixpoint stream_iterations (rounds : nat) (input : string) (inputs : gmap string string)
    (steps : list AgentStep) (iteration : nat) (loop_start : N) (root_run : RunTree)
    (metrics : AgentMetrics) (config : option (RunnableConfig E)) : Proc E StreamTurn :=
  match rounds with
  | 0 =>
      match on_max_iterations ex with
      | MaxIterationsPolicy.Error =>
          fail_stream root_run inputs metrics loop_start "max iterations reached" MaxIterationsReached
      | MaxIterationsPolicy.Placeholder =>
          finish_stream input root_run inputs metrics loop_start
            (output_text (return_stopped_response (agent ex) steps))
      end
  | S rounds =>
      t ← stream_turn input inputs steps iteration loop_start root_run metrics config;
      match t with
      | SAgain steps metrics =>
          stream_iterations rounds input inputs steps (S iteration) loop_start root_run metrics config
      | t => mret t
      end
  end.

Definition terminal (t : StreamTurn) : option StreamItem :=
  match t with SEnded item => Some item | _ => None end.

Definition stream_body (input : string) : Proc E (option StreamItem) :=
  match validate_tool_registration ex with
  | Err e => mret (Some (Err e))
  | Ok _ =>
      root_run ← call (root_run_of input None);
      dispatch (callbacks ex) (OnChainStart root_run (rt_inputs root_run)) ;;
      tell_all ((fun h => on_agent_start h input) <$> hooks ex) ;;
      let inputs : gmap string string := {["input" := input]} in
      loaded ← load_memory (memory ex) inputs;
      match loaded with
      | Err msg =>
          emit_stream_failure root_run inputs msg ;;
          notify_error msg ;;
          mret (Some (Err (OtherError msg)))
      | Ok inputs =>
          inputs ← recall_into (semantic_memory ex) input inputs;
          loop_start ← call (fun e => (now e, e));
          t ← stream_iterations (max_iterations ex) input inputs [] 0 loop_start root_run
                AgentMetrics.zero (build_plan_config (callbacks ex) root_run);
          mret (terminal t)
      end
  end.

Definition stream_task (input : string) : Proc E () :=
  item ← stream_body input;
  match item with Some item => tell (port_send port item) | None => mret () end.

End stream.
