(* ===== verification/StreamFacts.v ===== *)
(** * Streaming agrees with invoking

    For an executor without observers, memory, cache, policy and checkpoints, whose consumer
    stays, the stream ends with the event that matches what [invoke] returns.  The two
    paths share the tool gate; what differs is compared here round by round. *)

From stdpp Require Import gmap strings list.
From S2P Require Import Prelude Json Message Memory Process Pool AgentTypes ToolGate Batch AgentExecutor AgentStream.

Section agreement.
Context `{J : JsonText} `{T : AgentText} {E : Type} `{P : !Platform E} `{R : !Runtime E}.

(** The executor observes nothing, remembers nothing and has no tool policy; the agent streams
    its plan whole. *)
Record Bare (ex : AgentExecutor E) : Prop := {
  bare_memory : memory ex = None;
  bare_callbacks : callbacks ex = None;
  bare_hooks : hooks ex = [];
  bare_cache : response_cache ex = None;
  bare_policy : tool_policy ex = None;
  bare_resume : resume_store ex = None;
  bare_sink : metrics_sink ex = None;
  bare_semantic : semantic_memory ex = None;
  bare_stream : plan_stream (agent ex) = default_plan_stream (plan (agent ex));
}.

(** The consumer reads, stays, and does nothing else. *)
Record Quiet (port : Port E) : Prop := {
  quiet_send item e : port_send port item e = e;
  quiet_open e : port_cancelled port e = false;
}.

(** The terminal event that matches a result. *)
Definition agrees (r : result AgentError string) (item : StreamItem) : Prop :=
  match r with
  | Ok answer => item = Ok (FinalAnswer answer)
  | Err err => item = Err err \/ item = Err (OtherError (agent_error_to_string err))
  end.

Context (ex : AgentExecutor E) (port : Port E) (B : Bare ex) (Q : Quiet port).

Lemma run_dispatch event e : run (dispatch (callbacks ex) event) e = ((), e).
Proof. by rewrite (bare_callbacks _ B). Qed.

Lemma run_save inputs output e : run (save_memory (memory ex) inputs output) e = ((), e).
Proof. by rewrite (bare_memory _ B). Qed.

Lemma run_hooks (f : AgentHook E -> E -> E) e : run (tell_all (f <$> hooks ex)) e = ((), e).
Proof. by rewrite (bare_hooks _ B). Qed.

Lemma run_send event e : run (send port event) e = ((), e).
Proof. unfold send. by rewrite run_tell (quiet_send _ Q). Qed.

Lemma run_send_all events e : run (send_all port events) e = ((), e).
Proof.
  unfold send_all. rewrite run_tell_all. f_equal. induction events as [|event events IH]; [done|].
  cbn. by rewrite (quiet_send _ Q).
Qed.

Lemma run_cancelled e : run (cancelled port) e = (false, e).
Proof. unfold cancelled. by rewrite run_call (quiet_open _ Q). Qed.

Lemma run_fail_stream root inputs m start msg err e :
  (run (fail_stream ex root inputs m start msg err) e).1 = SEnded (Err err).
Proof.
  unfold fail_stream, emit_stream_failure. rewrite !run_bind run_dispatch run_save run_bind.
  by destruct (run (publish_metrics ex m start) e).
Qed.

Lemma run_finish_stream input root inputs m start content e :
  (run (finish_stream ex input root inputs m start content) e).1 = SEnded (Ok (FinalAnswer content)).
Proof.
  unfold finish_stream. rewrite (bare_semantic _ B) run_bind run_save run_bind. cbn [spawn_extraction run mret proc_ret].
  rewrite run_bind run_dispatch run_bind run_hooks run_bind.
  by destruct (run (publish_metrics ex m start) e).
Qed.

(** What a round of the stream comes to, given the round of the loop. *)
Definition same_turn (t : Turn) (e1 : E) (s : StreamTurn * E) : Prop :=
  match t with
  | Again steps m => s = (SAgain steps m, e1)
  | Stop r _ => exists item, s.1 = SEnded item /\ agrees r item
  end.

Lemma same_gate root inputs m start err e e1 :
  same_turn (Stop (Err err) m) e1 (run (fail_gate ex root inputs m start err) e).
Proof. exists (Err err). split; [apply run_fail_stream|by left]. Qed.

Lemma same_other root inputs m start err e e1 :
  same_turn (Stop (Err err) m) e1 (run (fail_other ex root inputs m start err) e).
Proof. eexists. split; [apply run_fail_stream|by right]. Qed.

Lemma no_policy names : policy_refuses ex names = None.
Proof. unfold policy_refuses. by rewrite (bare_policy _ B). Qed.

Lemma no_checkpoint action inputs steps iteration root m :
  checkpoint ex action inputs steps iteration root m = None.
Proof. unfold checkpoint. by rewrite (bare_resume _ B). Qed.

Lemma action_agrees inputs steps iteration start root m action e :
  let '(t, e1) := run (run_action ex action inputs steps iteration start root m) e in
  same_turn t e1 (run (stream_action ex port inputs steps start root m action) e).
Proof.
  unfold run_action, stream_action, MemberResult. rewrite no_policy no_checkpoint.
  generalize (execute_tool_inner ex action root None None) as execute. intros execute.
  destruct (tool action =ₛ PARSE_ERROR_TOOL); [done|]. rewrite !run_bind !run_call. unfold elapsed_since.
  destruct (budget_tool_gate _ _ _) as [err|]; [apply same_gate|].
  rewrite !run_bind run_send run_bind run_cancelled run_bind. destruct (run execute e) as [r e1].
  destruct (soften_member r) as [o|err]; [|apply same_other]. rewrite run_bind run_send.
  by destruct (is_non_execution_observation o).
Qed.

Lemma actions_agree inputs steps start root m actions e :
  let '(t, e1) := run (run_actions ex actions steps start root m) e in
  same_turn t e1 (run (stream_actions ex port inputs steps start root m actions) e).
Proof.
  unfold run_actions, stream_actions, BatchResult. rewrite no_policy.
  generalize (execute_tools_parallel ex actions root start (tool_calls m)) as execute. intros execute.
  rewrite !run_bind !run_call. unfold elapsed_since.
  destruct (budget_tool_gate _ _ _) as [err|]; [apply same_gate|].
  rewrite !run_bind run_send_all run_bind run_cancelled run_bind.
  destruct (run execute e) as [[observations|err] e1]; rewrite run_bind run_send_all; [done|apply same_other].
Qed.

(** A planning call: the loop's, without a cache, and the stream's. *)
Lemma plan_agrees steps inputs m config e :
  let '(planned, e1) := run (plan (agent ex) steps inputs config) e in
  run (plan_stream (agent ex) steps inputs (on_token ex port) config) e = (planned, e1) /\
  run (plan_cached ex steps inputs m config) e =
    ((planned,
      match planned with
      | Ok _ =>
          match last_token_usage (agent ex) e1 with
          | Some u => AgentMetrics.add_token_usage u (AgentMetrics.add_llm_call m)
          | None => AgentMetrics.add_llm_call m
          end
      | Err _ => AgentMetrics.add_llm_call m
      end), e1).
Proof.
  rewrite (bare_stream _ B). unfold default_plan_stream, plan_cached, plan_fresh.
  rewrite (bare_cache _ B) !run_bind run_call. unfold run_before_completion_hooks.
  rewrite (bare_hooks _ B). cbn [before_completion]. rewrite run_bind.
  destruct (run (plan (agent ex) steps inputs config) e) as [[output|err] e1]; [|done].
  split.
  - destruct output as [action|actions|finish]; [done|done|]. rewrite run_bind. unfold on_token.
    rewrite run_bind run_call (bare_hooks _ B). unfold apply_stream_hooks. cbn [stream_hooks].
    destruct (_ =ₛ ""); [done|]. by rewrite run_send.
  - rewrite run_bind run_call. cbn [after_completion run_after_completion_hooks].
    rewrite run_bind. cbn. by destruct (last_token_usage (agent ex) e1).
Qed.

Lemma turn_agrees input inputs steps iteration start root m config e :
  let '(t, e1) := run (turn ex inputs steps iteration start root m config) e in
  same_turn t e1 (run (stream_turn ex port input inputs steps iteration start root m config) e).
Proof.
  unfold turn, stream_turn. rewrite !run_bind run_cancelled !run_bind !run_call. unfold elapsed_since.
  destruct (budget_iteration_gate _ _ _ _) as [err|]; [apply same_gate|].
  rewrite run_bind run_call. unfold run_before_completion_hooks at 1. rewrite (bare_hooks _ B). cbn [before_completion].
  destruct (compact_steps _ _ _) as [steps1 m1].
  pose proof (plan_agrees steps1 inputs m1 config e) as Hp.
  destruct (run (plan (agent ex) steps1 inputs config) e) as [planned e1]. destruct Hp as [Hs Hc].
  rewrite (run_bind (plan_cached _ _ _ _ _)) (run_bind (plan_stream _ _ _ _ _)) Hs Hc.
  destruct planned as [output|err].
  2:{ exists (Err (OtherError (agent_error_to_string err))). split; [|by right].
      unfold emit_stream_failure, notify_error. rewrite !run_bind run_dispatch run_save run_bind run_hooks run_bind.
      by destruct (run (publish_metrics ex m1 start) e1). }
  rewrite run_bind run_call. unfold run_after_completion_hooks. cbn [after_completion].
  set (m2 := match last_token_usage (agent ex) e1 with Some u => _ | None => _ end).
  destruct (budget_token_gate _ _) as [err|]; [apply same_gate|].
  rewrite !run_bind. destruct (run (cost_gate _ _ _) e1) as [[err|] e2]; [apply same_gate|].
  destruct output as [action|actions|finish].
  - apply action_agrees.
  - apply actions_agree.
  - eexists. split; [apply run_finish_stream|done].
Qed.

(** The loops. *)
Lemma iterations_agree rounds input inputs steps iteration start root m config e :
  let '((r, _), _) := run (iterations rounds ex inputs steps iteration start root m config) e in
  exists item,
    (run (stream_iterations ex port rounds input inputs steps iteration start root m config) e).1 = SEnded item /\
    agrees r item.
Proof.
  revert steps iteration m e. induction rounds as [|rounds IH]; intros steps iteration m e.
  - cbn. unfold out_of_iterations. destruct (on_max_iterations ex).
    + exists (Err MaxIterationsReached). split; [apply run_fail_stream|by left].
    + eexists. split; [apply run_finish_stream|done].
  - cbn [iterations stream_iterations]. pose proof (turn_agrees input inputs steps iteration start root m config e) as Ht.
    rewrite (run_bind (turn _ _ _ _ _ _ _ _)) (run_bind (stream_turn _ _ _ _ _ _ _ _ _ _)).
    destruct (run (turn _ _ _ _ _ _ _ _) e) as [[steps' m'|r m'] e1]; cbn [same_turn] in Ht.
    + rewrite Ht. apply IH.
    + destruct Ht as (item & Hs & Ha). destruct (run (stream_turn _ _ _ _ _ _ _ _ _ _) e) as [s e2].
      cbn in Hs. subst s. by exists item.
Qed.

(** What is around the loops, on either side. *)
Lemma run_load_memory inputs e : run (load_memory (memory ex) inputs) e = (Ok inputs, e).
Proof. by rewrite (bare_memory _ B). Qed.

Lemma run_recall input inputs e : run (recall_into (semantic_memory ex) input inputs) e = (inputs, e).
Proof. by rewrite (bare_semantic _ B). Qed.

Lemma run_stream_body input e a :
  validate_tool_registration ex = Ok a ->
  let '(root, e1) := root_run_of input None e in
  (run (stream_body ex port input) e).1 =
  terminal (run (stream_iterations ex port (max_iterations ex) input {["input" := input]} [] 0 (now e1) root
                   AgentMetrics.zero (build_plan_config (callbacks ex) root)) e1).1.
Proof.
  intros Hv. unfold stream_body. rewrite Hv run_bind run_call. destruct (root_run_of input None e) as [root e1].
  rewrite run_bind run_dispatch run_bind run_hooks run_bind run_load_memory run_bind run_recall run_bind run_call.
  rewrite run_bind. by destruct (run (stream_iterations _ _ _ _ _ _ _ _ _ _ _) e1).
Qed.

Lemma run_invoke input e a :
  validate_tool_registration ex = Ok a ->
  let '(root, e1) := root_run_of input None e in
  (run (invoke ex input) e).1 =
  (run (run_agent_loop ex {["input" := input]} [] root (with_trace (rt_trace root) AgentMetrics.zero)
          (build_plan_config (callbacks ex) root)) e1).1.1.
Proof.
  intros Hv. unfold invoke, invoke_inner. rewrite Hv run_bind run_call run_bind run_hooks run_bind run_call.
  destruct (root_run_of input None e) as [root e1].
  rewrite run_bind run_dispatch run_bind run_load_memory run_bind run_recall.
  rewrite (run_bind (run_agent_loop _ _ _ _ _ _)).
  destruct (run (run_agent_loop _ _ _ _ _ _) e1) as [[r m] e2].
  match goal with |- (run ?p e2).1 = _ => enough (H : ends (fun x => x = r) p) by exact (H e2) end.
  do 4 (apply ends_any; intros ?). by apply ends_return.
Qed.

Lemma root_run_untraced input e : rt_trace (root_run_of input None e).1 = None.
Proof. unfold root_run_of, new_run. by destruct (new_uuid e). Qed.

(** C30: Streaming agrees with invoking, for a bare executor: one without memory, callbacks,
    hooks, plan cache, tool policy, resume store, metrics sink and semantic memory, whose agent
    streams its plan whole, and a consumer that reads to the end.  The stream ends, and
    its last event is the final answer exactly when [invoke] returns that answer from the
    same state, and otherwise [invoke]'s error, as it is or as its text.  With a policy the two
    differ ([policy_before_lookup_only_when_streaming]). *)
Theorem stream_agrees_with_invoke input e :
  exists item,
    (run (stream_body ex port input) e).1 = Some item /\
    agrees (run (invoke ex input) e).1 item.
Proof.
  destruct (validate_tool_registration ex) as [a|err] eqn:Hv.
  2:{ exists (Err err). unfold invoke, invoke_inner, stream_body. rewrite Hv. split; [done|by left]. }
  pose proof (run_stream_body input e a Hv) as Hs. pose proof (run_invoke input e a Hv) as Hi.
  pose proof (root_run_untraced input e) as Ht.
  destruct (root_run_of input None e) as [root e1]. cbn in Ht. rewrite Hs Hi Ht.
  unfold run_agent_loop, run_agent_loop_from. rewrite run_bind run_call Nat.sub_0_r.
  pose proof (iterations_agree (max_iterations ex) input {["input" := input]} [] 0 (now e1) root
    AgentMetrics.zero (build_plan_config (callbacks ex) root) e1) as H.
  change (with_trace None AgentMetrics.zero) with AgentMetrics.zero.
  destruct (run (iterations _ _ _ _ _ _ _ _ _) e1) as [[r m] e2]. destruct H as (item & -> & Ha). by exists item.
Qed.

End agreement.
