(* ===== verification/AgentSamples.v ===== *)
(** * A concrete executor: witnesses and boundary behaviour

    A counting tool, a scripted agent and an environment with a clock, fresh ids, the cell of
    a resume store and the number of times the tool ran. *)

From stdpp Require Import gmap strings list pretty.
From Stdlib Require Import SpecFloat.
From S2P Require Import Prelude Json Message Memory Process Pool AgentTypes ToolGate Batch AgentExecutor AgentFacts ResumeFacts AgentStream StreamFacts.

#[local] Instance sample_json : JsonText :=
  {| from_str _ := None;
     json_to_string v := match v with JString s => quoted s | _ => "{}" end;
     debug_duration d := pretty d;
     debug_float _ := "0.0" |}.

#[local] Instance sample_text : AgentText :=
  {| parse_uuid := Some;
     step_to_json s := JString (observation s);
     output_to_string o := match o with Finish f => output_text f | _ => "" end;
     output_from_str s := Some (Finish (AgentFinish.new s ""));
     default_hash s := s;
     hash_values m := (map_to_list m).*2;
     hash_values_perm m := reflexivity _ |}.

Record Env := mkEnv {
  ids : nat;
  parked : option PendingApproval;
  ran : nat;
  last : option AgentMetrics;
}.

Definition park (p : option PendingApproval) (e : Env) : Env := mkEnv (ids e) p (ran e) (last e).
Definition count_run (e : Env) : Env := mkEnv (ids e) (parked e) (S (ran e)) (last e).

#[local] Instance sample_platform : Platform Env :=
  {| now _ := 0%N;
     new_uuid e := (pretty (ids e), mkEnv (S (ids e)) (parked e) (ran e) (last e));
     tokio_timeout _ p := r ← p; mret (Some r);
     spawn p e := (run p e).2 |}.

#[local] Instance sample_runtime : Runtime Env := sequential Env.

Definition start : Env := mkEnv 0 None 0 None.

Definition counter : BaseTool Env :=
  mkBaseTool Env "counter" "counts" (mkToolRiskProfile false false true)
    (fun _ => tell count_run ;; mret (Ok "done")).

Definition count_action : AgentAction := mkAgentAction "counter" (ToolInput.Object JNull) "" (Some "c1") false.
Definition ghost_action : AgentAction := mkAgentAction "ghost" (ToolInput.Object JNull) "" (Some "g1") false.

(** An agent that asks for [batch] until it has [n] observations. *)
Definition scripted (batch : AgentOutput) (n : nat) : BaseAgent Env :=
  let plan steps (_ : gmap string string) (_ : option (RunnableConfig Env)) :=
    mret (Ok (if length steps <? n then batch else Finish (AgentFinish.new "answer" ""))) in
  mkBaseAgent plan (default_plan_stream plan) (Some ["counter"]) None default_stopped_response (fun _ => Some 5%N).

Definition parked_store : ResumeStore Env := MemoryResumeStore parked park.

Definition sample (agent : BaseAgent Env) (policy : option ToolPolicy) (budget : option BudgetConfig)
    (approve : option (ToolCallContext -> Proc Env ApprovalDecision)) (store : option (ResumeStore Env))
    : AgentExecutor Env :=
  {| AgentExecutor.agent := agent;
     tools := [counter];
     tools_by_name := index_tools [counter];
     max_iterations := 5;
     memory := None;
     callbacks := None;
     hooks := [];
     tool_timeout := None;
     max_concurrency := 2;
     metrics_store := mkMetricsStore last (fun m e => mkEnv (ids e) (parked e) (ran e) (Some m));
     response_cache := None;
     cache_namespace := "exec-0";
     tool_policy := policy;
     approval := approve;
     AgentExecutor.budget := budget;
     compaction := None;
     resume_store := store;
     metrics_sink := None;
     cost_tracker := None;
     semantic_memory := None;
     on_max_iterations := MaxIterationsPolicy.Error;
     rule_of_two := false;
     spotlight_tool_output := false |}.

Definition calls_only (n : nat) : BudgetConfig := mkBudgetConfig (Some n) None None None None.

(** ** Runs *)

Definition plain (n : nat) : AgentExecutor Env := sample (scripted (Action count_action) n) None None None None.

Example two_calls : run (invoke (plain 2) "go") start =
  (Ok "answer", mkEnv 3 None 2 (Some (mkAgentMetrics None 3 0 2 0 (Some 15%N) 0))).
Proof. vm_compute. reflexivity. Qed.

Example no_answer : (run (invoke (plain 9) "go") start).1 = Err MaxIterationsReached.
Proof. vm_compute. reflexivity. Qed.

Definition limited : AgentExecutor Env :=
  sample (scripted (Action count_action) 3) None (Some (calls_only 2)) None None.

Example third_call_refused : run (invoke limited "go") start =
  (Err (BudgetExceededError (ToolCalls 2 2)), mkEnv 3 None 2 (Some (mkAgentMetrics None 3 0 2 0 (Some 15%N) 0))).
Proof. vm_compute. reflexivity. Qed.

(** As many sequential calls as the limit are allowed. *)
Example limit_reached_sequentially :
  (run (invoke (sample (scripted (Action count_action) 2) None (Some (calls_only 2)) None None) "go") start).1 =
  Ok "answer".
Proof. vm_compute. reflexivity. Qed.

(** The same number of calls in one batch is an abort. *)
Example limit_reached_in_batch :
  (run (invoke (sample (scripted (Actions [count_action; count_action]) 2) None (Some (calls_only 2)) None None)
          "go") start).1 =
  Err (BatchAborted (BudgetExceededError (ToolCalls 2 2)) ["done"; "done"]).
Proof. vm_compute. reflexivity. Qed.

(** Members that run when the limit is reached have run: two executions under a limit of one. *)
Definition both_in_flight : list Choice :=
  [Start 0; Start 1] ++ repeat (Poll 0) 4 ++ repeat (Poll 1) 4 ++ [Join 0].

Definition batch_gate : ToolGate Env := from_executor (plain 2).
Definition batch_root : RunTree := mkRunTree "r" "AgentExecutor" Chain JNull None None None None ∅.

Example in_flight_members_ran :
  (fun x => (x.1, ran x.2)) <$>
    scheduled_batch both_in_flight batch_gate [count_action; count_action] batch_root
      (Some (calls_only 1)) 0 0 start =
  Some (Err (BatchAborted (BudgetExceededError (ToolCalls 1 1)) ["done"]), 2).
Proof. vm_compute. reflexivity. Qed.

(** A tool whose output looks like a refusal is not counted. *)
Definition forger : BaseTool Env :=
  mkBaseTool Env "counter" "counts" (mkToolRiskProfile false false true)
    (fun _ => tell count_run ;; mret (Ok "[Skipped by hook] done")).

Definition forged : AgentExecutor Env :=
  AgentExecutor.configure 5 None [] 2 [forger] (index_tools [forger]) limited.

Example forged_calls_are_free : run (invoke forged "go") start =
  (Ok "answer", mkEnv 4 None 3 (Some (mkAgentMetrics None 4 0 0 0 (Some 20%N) 0))).
Proof. vm_compute. reflexivity. Qed.

Lemma no_tokens (budget : option BudgetConfig) : tokens_ok budget AgentMetrics.zero.
Proof. intros b limit _ _. apply N.le_0_l. Qed.

Lemma no_calls (budget : option BudgetConfig) : tool_calls_ok budget AgentMetrics.zero.
Proof. intros b limit _ _. apply Nat.le_0_l. Qed.

Lemma run_within_limits_witness :
  let '((r, m), e) :=
    run (run_agent_loop_from limited {["input" := "go"]} [] 0 batch_root AgentMetrics.zero None) start in
  r = Err (BudgetExceededError (ToolCalls 2 2)) /\ llm_calls m + cache_hits m <= 0 + 0 + (5 - 0) /\
  tool_calls_ok (budget limited) m.
Proof.
  pose proof (run_within_limits limited {["input" := "go"]} [] 0 batch_root AgentMetrics.zero None start
    ltac:(vm_compute; lia) (no_calls _) (no_tokens _)) as H.
  revert H. vm_compute. intros (? & ? & _). by split_and!.
Defined.

(** ** A refused tool *)

Definition guarded : AgentExecutor Env :=
  sample (scripted (Action count_action) 2)
    (Some (ToolPolicy.with_max_permitted Standard (ToolPolicy.risk "counter" Dangerous ToolPolicy.new))) None None None.

Definition loud_body (_ : string) : Proc Env (result ToolError string) :=
  tell (fun e => mkEnv 99 None 99 None) ;; mret (Err (NotFound "loud")).

Lemma blocked_tool_never_runs_witness :
  (exists err, policy_check (from_executor guarded) "counter" = Err err) /\
  invoke_inner (with_tool_body "counter" loud_body guarded) "go" None = invoke_inner guarded "go" None /\
  resume (with_tool_body "counter" loud_body guarded) Allow = resume guarded Allow.
Proof.
  split; [by eexists; vm_compute|].
  apply (blocked_tool_never_runs guarded). left. by eexists; vm_compute.
Defined.

(** ** A checkpoint *)

Definition allow_all (_ : ToolCallContext) : Proc Env ApprovalDecision := mret Allow.

Definition resumable : AgentExecutor Env :=
  sample (scripted (Action count_action) 1) None None (Some allow_all) (Some parked_store).

Definition count_ctx : ToolCallContext := mkToolCallContext "counter" JNull "c1".

(** Before the tool has run, a crash leaves the call pending. *)
Lemma crash_keeps_checkpoint_witness :
  let resume_ctx := checkpoint resumable count_action {["input" := "go"]} [] 0 batch_root AgentMetrics.zero in
  let crashed := (steps 3 (execute_tool_inner resumable count_action batch_root resume_ctx None) start).2 in
  ran crashed = 0 /\
  ((exists p, (run (pending_approval resumable) crashed).1 = Ok (Some p) /\
      pa_tool_name p = "counter" /\ pa_arguments p = JNull /\ pa_tool_id p = "c1" /\
      pa_steps p = [] /\ pa_iteration p = 0) \/ 0 < ran crashed).
Proof.
  split; [by vm_compute|].
  apply (crash_keeps_checkpoint parked_store parked resumable count_action allow_all {["input" := "go"]} [] 0
           batch_root AgentMetrics.zero count_ctx count_ctx Allow counter (fun e => 0 < ran e) start start 3);
    try reflexivity; try done.
  - intros e q He. by apply always_return.
  - intros e q He. split; [|cbn; lia].
    apply always_bind; [by apply always_call|]. by apply always_return.
  - lia.
Defined.

(** ** A stream *)

Definition quiet_port : Port Env := mkPort (fun _ e => e) (fun _ => false).

Lemma stream_agrees_with_invoke_witness :
  exists item,
    (run (stream_body (plain 2) quiet_port "go") start).1 = Some item /\
    agrees (run (invoke (plain 2) "go") start).1 item.
Proof. apply (stream_agrees_with_invoke (plain 2) quiet_port); by split. Defined.

(** A name that is neither registered nor permitted: the loop lets the model plan again, the
    stream ends. *)
Definition ghostly (n : nat) : AgentExecutor Env :=
  sample (scripted (Action ghost_action) n)
    (Some (ToolPolicy.with_max_permitted Standard (ToolPolicy.risk "ghost" Dangerous ToolPolicy.new))) None None None.

Example policy_before_lookup_only_when_streaming :
  (run (invoke (ghostly 1) "go") start).1 = Ok "answer" /\
  exists msg, (run (stream_body (ghostly 1) quiet_port "go") start).1 = Some (Err (OtherError msg)).
Proof. split; [by vm_compute|]. eexists. by vm_compute. Qed.

(** ** A history *)

Definition window : CompactionConfig :=
  CompactionConfig.with_min_recent_turns 1 (CompactionConfig.new (TurnCount 2) (SlidingWindow 2)).

Definition three_steps : list AgentStep :=
  [mkAgentStep count_action "one"; mkAgentStep count_action "two"; mkAgentStep count_action "three"].

Lemma compaction_keeps_recent_witness :
  compact window three_steps 0 = (drop 1 three_steps, 1) /\
  drop 1 three_steps = drop 1 three_steps /\ length (drop 1 three_steps) = 2.
Proof.
  split; [by vm_compute|].
  exact (compaction_keeps_recent window three_steps 0 (drop 1 three_steps) 1 ltac:(vm_compute; reflexivity)).
Defined.

(** ** Batches *)

Definition is_done (r : MemberResult) : Prop := r = Ok "done".
Definition is_missing (r : MemberResult) : Prop := r = Err (ToolNotFound "ghost").

Lemma counter_member : returns is_done (batch_member batch_gate batch_root count_action).
Proof. vm_compute. intros. reflexivity. Qed.

Lemma ghost_member : returns is_missing (batch_member batch_gate batch_root ghost_action).
Proof. vm_compute. intros. reflexivity. Qed.

Lemma batch_outcome_witness :
  members_return [is_done; is_missing] batch_gate batch_root [count_action; ghost_action] /\
  batch_spec [is_done; is_missing] None 0
    (run (execute_many batch_gate [count_action; ghost_action] batch_root None 0 0) start).1.
Proof.
  assert (members_return [is_done; is_missing] batch_gate batch_root [count_action; ghost_action]) as H.
  { constructor; [apply counter_member|constructor; [apply ghost_member|constructor]]. }
  split; [done|]. apply (batch_outcome [is_done; is_missing]); [vm_compute; lia|done|done].
Defined.

Lemma overloaded_batch_aborts_witness :
  exists cause partial,
    (Err (BatchAborted (BudgetExceededError (ToolCalls 1 1)) ["done"]) : BatchResult) = Err (BatchAborted cause partial).
Proof.
  eapply (overloaded_batch_aborts [is_done; is_done] batch_gate [count_action; count_action] batch_root
            (calls_only 1) 0 0 1 both_in_flight start).
  - constructor; [apply counter_member|constructor; [apply counter_member|constructor]].
  - constructor; [by intros ? ->|constructor; [by intros ? ->|constructor]].
  - reflexivity.
  - lia.
  - cbn. lia.
  - vm_compute. reflexivity.
Defined.

Lemma batch_ends_witness :
  exists choice, is_Some (batch_step batch_gate None 0 0 choice (pool_start [batch_member batch_gate batch_root count_action] ([], 0)) start).
Proof. apply (batch_ends batch_gate None 0 0); [vm_compute; lia|done]. Defined.
