(* ===== verification/TextSplitter.v ===== *)
(** * The recursive text splitter ([crates/lc-shared/src/splitter_types.rs])

    [RecursiveCharacterSplitter] cuts a text at the first separator it contains, merges the
    parts into chunks of at most [chunk_size] characters and recurses into parts that are
    too long, with the rest of the separators.  Every operation counts characters, so a
    text is the list of its Unicode scalars. *)

From stdpp Require Import gmap strings list pretty.
From S2P Require Import Prelude Json.

Definition Text : Type := list N.

(** ** [str::strip_prefix], [str::contains] and [str::split] *)

Fixpoint strip (p t : Text) : option Text :=
  match p, t with
  | [], _ => Some t
  | c :: p, d :: t => if (c =? d)%N then strip p t else None
  | _ :: _, [] => None
  end.

Fixpoint contains (p t : Text) : bool :=
  match strip p t with
  | Some _ => true
  | None => match t with [] => false | _ :: t => contains p t end
  end.

(** The parts between the leftmost occurrences of a separator that is not empty; [part] is
    the part so far. *)
Fixpoint split_from (fuel : nat) (sep part t : Text) : list Text :=
  match fuel, t with
  | S fuel, c :: t' =>
      match strip sep t with
      | Some rest => part :: split_from fuel sep [] rest
      | None => split_from fuel sep (part ++ [c]) t'
      end
  | _, _ => [part]
  end.

Definition split_on (sep t : Text) : list Text := split_from (length t) sep [] t.

(** ** Spans *)

Record SrcSpan := mkSrcSpan {
  sp_text : Text;
  sp_start : nat;
  sp_end : nat;
}.

Record ChunkSpan := mkChunkSpan {
  ck_text : Text;
  start_char : nat;
  start_line : nat;
  end_line : nat;
}.

(** The offsets at which lines start, in ascending order. *)
Definition line_starts (t : Text) : list nat :=
  0 :: omap (fun p => if (p.2 =? 10)%N then Some (S p.1) else None) (imap pair t).

(** [partition_point] of a sorted list. *)
Fixpoint partition_point (f : nat -> bool) (l : list nat) : nat :=
  match l with x :: l => if f x then S (partition_point f l) else 0 | [] => 0 end.

Definition line_of (starts : list nat) (char_offset : nat) : nat :=
  Nat.max (partition_point (fun s => s <=? char_offset) starts) 1.

(** ** The splitter *)

Record RecursiveCharacterSplitter := mkSplitter {
  chunk_size : nat;
  chunk_overlap : nat;
  separators : list Text;
}.

(** Paragraph, line, Chinese full stop, full stop, space, character. *)
Definition default_separators : list Text := [[10; 10]; [10]; [12290]; [46]; [32]; []]%N.

Module RecursiveCharacterSplitter.
Definition new (chunk_size chunk_overlap : nat) : RecursiveCharacterSplitter :=
  let chunk_size := Nat.max chunk_size 1 in
  mkSplitter chunk_size (Nat.min chunk_overlap (chunk_size - 1)) default_separators.
Definition with_defaults : RecursiveCharacterSplitter := new 1000 200.
Definition with_separators (seps : list Text) (s : RecursiveCharacterSplitter) : RecursiveCharacterSplitter :=
  mkSplitter (chunk_size s) (chunk_overlap s) (match seps with [] => default_separators | _ => seps end).
End RecursiveCharacterSplitter.

(** The parts with their offsets; an empty separator cuts between all characters. *)
Fixpoint place (sep_len pos : nat) (parts : list Text) : list SrcSpan :=
  match parts with
  | [] => []
  | part :: parts =>
      mkSrcSpan part pos (pos + length part) :: place sep_len (pos + length part + sep_len) parts
  end.

Definition characters (start : nat) (t : Text) : list SrcSpan :=
  imap (fun i c => mkSrcSpan [c] (start + i) (start + i + 1)) t.

Definition split_segments (t sep : Text) : list SrcSpan :=
  match sep with
  | [] => characters 0 t
  | _ => place (length sep) 0 (split_on sep t)
  end.

Section split.
Variable size : nat.

(** The loop over the segments: [recurse] splits one that is too long. *)
Fixpoint merge_segments (recurse : Text -> nat -> list SrcSpan) (sep : Text) (segments : list SrcSpan)
    (current : option SrcSpan) : list SrcSpan :=
  match segments with
  | [] => match current with Some c => [c] | None => [] end
  | seg :: segments =>
      let '(split_with_sep, start) :=
        match sep, current with
        | [], _ | _, None => (sp_text seg, sp_start seg)
        | _, Some _ => (sep ++ sp_text seg, sp_start seg - length sep)
        end in
      if size <? length split_with_sep then
        match current with Some c => [c] | None => [] end ++
        recurse split_with_sep start ++ merge_segments recurse sep segments None
      else
        match current with
        | Some c =>
            if size <? length (sp_text c) + length split_with_sep
            then c :: merge_segments recurse sep segments (Some (mkSrcSpan split_with_sep start (sp_end seg)))
            else merge_segments recurse sep segments
                   (Some (mkSrcSpan (sp_text c ++ split_with_sep) (sp_start c) (sp_end seg)))
        | None => merge_segments recurse sep segments (Some (mkSrcSpan split_with_sep start (sp_end seg)))
        end
  end.

(** [base_char] only reaches the span of a text that needs no split. *)
Fixpoint split_text_recursive_spanned (separators : list Text) (t : Text) (base_char : nat) : list SrcSpan :=
  match t with
  | [] => []
  | _ =>
      if length t <=? size then [mkSrcSpan t base_char (base_char + length t)]
      else
        let separator := default [] (List.find (fun s => contains s t) separators) in
        let recurse text start :=
          match separators with
          | [] | [_] => characters start text
          | _ :: next_separators => split_text_recursive_spanned next_separators text start
          end in
        merge_segments recurse separator (split_segments t separator) None
  end.

End split.

Definition split_text_recursive (s : RecursiveCharacterSplitter) (t : Text) : list Text :=
  sp_text <$> split_text_recursive_spanned (chunk_size s) (separators s) t 0.

(** The overlap a chunk gets from the one before it. *)
Definition overlap_of (s : RecursiveCharacterSplitter) (prev chunk : Text) : Text :=
  let overlap := drop (length prev - chunk_overlap s) prev in
  let budget := chunk_size s - length chunk in
  if budget <? length overlap then drop (length overlap - budget) overlap else overlap.

(** Each chunk after the first, with the overlap from the original one before it. *)
Fixpoint overlapped (s : RecursiveCharacterSplitter) (prev : Text) (chunks : list Text) : list Text :=
  match chunks with
  | [] => []
  | chunk :: chunks => (overlap_of s prev chunk ++ chunk) :: overlapped s chunk chunks
  end.

Definition with_overlap (s : RecursiveCharacterSplitter) (chunks : list Text) : list Text :=
  if (0 <? chunk_overlap s) && (1 <? length chunks) then
    match chunks with [] => [] | first :: rest => first :: overlapped s first rest end
  else chunks.

Definition split_text (s : RecursiveCharacterSplitter) (t : Text) : list Text :=
  with_overlap s (split_text_recursive s t).

Fixpoint overlapped_spans (s : RecursiveCharacterSplitter) (prev : SrcSpan) (spans : list SrcSpan) : list SrcSpan :=
  match spans with
  | [] => []
  | span :: spans =>
      mkSrcSpan (overlap_of s (sp_text prev) (sp_text span) ++ sp_text span) (sp_start span) (sp_end span)
        :: overlapped_spans s span spans
  end.

Definition split_text_with_indices (s : RecursiveCharacterSplitter) (t : Text) : list ChunkSpan :=
  let raw := split_text_recursive_spanned (chunk_size s) (separators s) t 0 in
  let starts := line_starts t in
  let spanned :=
    if (chunk_overlap s =? 0) || (length raw <=? 1) then raw
    else match raw with [] => [] | first :: rest => first :: overlapped_spans s first rest end in
  (fun sp => mkChunkSpan (sp_text sp) (sp_start sp) (line_of starts (sp_start sp))
               (line_of starts (sp_end sp - 1))) <$> spanned.

(** ** Documents *)

Record Document := mkDocument {
  content : Text;
  metadata : gmap string JsonValue;
  doc_id : option string;
}.

(** The chunk number does not replace a [chunk] of the document's own. *)
Definition split_document (split : Text -> list Text) (d : Document) : list Document :=
  imap (fun i chunk =>
    mkDocument chunk
      (match metadata d !! "chunk" with
       | Some _ => metadata d
       | None => <["chunk" := JString (pretty i)]> (metadata d)
       end) None) (split (content d)).

(** * The theory of the text splitter

    A split is lossless: the chunks are consecutive pieces of the text and what lies
    between two of them is nothing or one separator ([Pieces]).  A chunk is never longer than
    [chunk_size], with the overlap or without.  The spans are exact when no part
    needs a second separator, and [nested_spans] shows what they are otherwise. *)

(** ** Joining what [str::split] parted *)

Definition join (sep : Text) (parts : list Text) : Text :=
  match parts with [] => [] | part :: parts => part ++ mjoin ((sep ++.) <$> parts) end.

Lemma strip_some p t rest : strip p t = Some rest -> t = p ++ rest.
Proof.
  revert t. induction p as [|c p IH]; intros [|d t] H; simplify_eq/=; [done|done|].
  case_match; [|done]. apply N.eqb_eq in H0 as ->. f_equal. by apply IH.
Qed.

Lemma split_from_cons fuel sep part t :
  exists x l, split_from fuel sep part t = x :: l.
Proof.
  revert part t. induction fuel as [|fuel IH]; intros part [|c t]; simpl; eauto.
  case_match; eauto.
Qed.

Lemma join_split_from fuel sep part t :
  length t <= fuel -> sep <> [] -> join sep (split_from fuel sep part t) = part ++ t.
Proof.
  intros Hf Hs. revert part t Hf.
  induction fuel as [|fuel IH]; intros part [|c t] Hf; simpl in *;
    rewrite ?app_nil_r; try done; try lia.
  destruct (strip sep (c :: t)) as [rest|] eqn:E.
  - apply strip_some in E. assert (length rest <= fuel) as Hr.
    { apply (f_equal length) in E. destruct sep; [done|]. simpl in E. rewrite length_app in E. lia. }
    specialize (IH [] rest Hr). simpl in IH. rewrite E -{2}IH.
    destruct (split_from_cons fuel sep [] rest) as (x & l & ->). simpl. by rewrite -app_assoc.
  - rewrite IH -?app_assoc //=. lia.
Qed.

Lemma split_on_join sep t : sep <> [] -> join sep (split_on sep t) = t.
Proof. intros Hs. by rewrite /split_on join_split_from. Qed.

Lemma place_texts n pos parts : sp_text <$> place n pos parts = parts.
Proof. revert pos. induction parts as [|p parts IH]; intros pos; [done|]. cbn [place]. by rewrite fmap_cons IH. Qed.

Lemma characters_texts start t : sp_text <$> characters start t = (fun c => [c]) <$> t.
Proof. rewrite /characters fmap_imap. apply imap_const. Qed.

Lemma join_singles (t : Text) : join [] ((fun c => [c]) <$> t) = t.
Proof. destruct t as [|c t]; [done|]. simpl. f_equal. induction t as [|d t IH]; simpl; [done|]. by rewrite IH. Qed.

Lemma segments_join t sep : join sep (sp_text <$> split_segments t sep) = t.
Proof.
  destruct sep as [|c sep]; simpl.
  - by rewrite characters_texts join_singles.
  - by rewrite place_texts split_on_join.
Qed.

Lemma segments_cons t sep : t <> [] -> exists x l, split_segments t sep = x :: l.
Proof.
  intros Ht. destruct sep as [|c sep]; simpl.
  - destruct t; [done|]. rewrite /characters /=. eauto.
  - rewrite /split_on. destruct (split_from_cons (length t) (c :: sep) [] t) as (x & l & ->). simpl. eauto.
Qed.

(** ** Lossless cuts *)

(** [chunks] are consecutive pieces of the text; between two of them nothing is lost but
    at most one separator. *)
Inductive Pieces (seps : list Text) : list Text -> Text -> Prop :=
| Pieces_none : Pieces seps [] []
| Pieces_last c : Pieces seps [c] c
| Pieces_cons c gap chunks t :
    gap ∈ [] :: seps -> chunks <> [] -> Pieces seps chunks t -> Pieces seps (c :: chunks) (c ++ gap ++ t).

#[export] Hint Constructors Pieces : lc_pieces.

Lemma pieces_app seps l1 l2 t1 t2 gap :
  Pieces seps l1 t1 -> Pieces seps l2 t2 -> l1 <> [] -> l2 <> [] -> gap ∈ [] :: seps ->
  Pieces seps (l1 ++ l2) (t1 ++ gap ++ t2).
Proof.
  intros H1 H2 Hn1 Hn2 Hg. induction H1 as [|c|c g l t Hg' Hl H1 IH]; simpl; [done|by constructor|].
  rewrite -!app_assoc. constructor; [done| |by apply IH]. by destruct l.
Qed.

Lemma pieces_step seps c l t : Pieces seps l t -> l <> [] -> Pieces seps (c :: l) (c ++ t).
Proof. intros H Hl. by apply (Pieces_cons seps c []); [set_solver|..]. Qed.

Lemma pieces_mono seps seps' l t : seps ⊆ seps' -> Pieces seps l t -> Pieces seps' l t.
Proof. intros Hs. induction 1; constructor; set_solver. Qed.

Lemma pieces_characters seps start t : Pieces seps (sp_text <$> characters start t) t.
Proof.
  rewrite characters_texts. induction t as [|c t IH]; simpl; [constructor|].
  destruct t as [|d t]; [constructor|]. by apply (pieces_step _ [c]).
Qed.

Lemma pieces_nonempty seps l t : Pieces seps l t -> t <> [] -> l <> [].
Proof. by destruct 1. Qed.

(** ** The merge loop *)

Section merge.
Context (size : nat) (seps : list Text) (recurse : Text -> nat -> list SrcSpan) (sep : Text).
Lemma merge_nonempty segs c : merge_segments size recurse sep segs (Some c) <> [].
Proof. revert c. induction segs as [|g segs IH]; intros c; simpl; [done|]. repeat case_match; naive_solver. Qed.

(** One turn of the loop with a current chunk, whatever the separator. *)
Lemma merge_some g segs c :
  merge_segments size recurse sep (g :: segs) (Some c) =
    let w := sep ++ sp_text g in
    let start := sp_start g - length sep in
    if size <? length w then c :: recurse w start ++ merge_segments size recurse sep segs None
    else if size <? length (sp_text c) + length w
    then c :: merge_segments size recurse sep segs (Some (mkSrcSpan w start (sp_end g)))
    else merge_segments size recurse sep segs (Some (mkSrcSpan (sp_text c ++ w) (sp_start c) (sp_end g))).
Proof. simpl. by destruct sep; rewrite ?Nat.sub_0_r. Qed.

Lemma merge_none g segs :
  merge_segments size recurse sep (g :: segs) None =
    if size <? length (sp_text g) then recurse (sp_text g) (sp_start g) ++ merge_segments size recurse sep segs None
    else merge_segments size recurse sep segs (Some (mkSrcSpan (sp_text g) (sp_start g) (sp_end g))).
Proof. simpl. by destruct sep. Qed.

Hypothesis Hsep : sep ∈ [] :: seps.
Hypothesis Hrec : forall t start, Pieces seps (sp_text <$> recurse t start) t.

Lemma recurse_nonempty t start : size < length t -> recurse t start <> [].
Proof.
  intros Hl Hn. assert (Hp := Hrec t start). rewrite Hn /= in Hp.
  apply pieces_nonempty in Hp; [done|]. by destruct t; simpl in Hl; [lia|].
Qed.

Lemma merge_none_nonempty segs : segs <> [] -> merge_segments size recurse sep segs None <> [].
Proof.
  destruct segs as [|g segs]; [done|]. intros _. rewrite merge_none.
  destruct (_ <? _) eqn:Hl; [|apply merge_nonempty].
  apply Nat.ltb_lt in Hl. intros [Hn _]%app_nil. by apply recurse_nonempty in Hn.
Qed.

(** What follows a part that was split further: the separator before the next part is
    dropped. *)
Lemma pieces_after w start segs :
  size < length w ->
  Pieces seps (sp_text <$> merge_segments size recurse sep segs None) (join sep (sp_text <$> segs)) ->
  Pieces seps (sp_text <$> (recurse w start ++ merge_segments size recurse sep segs None))
    (w ++ mjoin ((sep ++.) <$> (sp_text <$> segs))).
Proof.
  intros Hl IH. rewrite fmap_app. destruct segs as [|g segs].
  { simpl. by rewrite !app_nil_r. }
  change (mjoin _) with ((sep ++ sp_text g) ++ mjoin ((sep ++.) <$> (sp_text <$> segs))).
  rewrite -app_assoc. change (_ ++ mjoin _) with (join sep (sp_text <$> (g :: segs))).
  apply pieces_app; auto.
  - intros Hn%fmap_nil_inv. by apply recurse_nonempty in Hn.
  - intros Hn%fmap_nil_inv. by apply merge_none_nonempty in Hn.
Qed.

Lemma merge_pieces segs :
  (forall c, Pieces seps (sp_text <$> merge_segments size recurse sep segs (Some c))
               (sp_text c ++ mjoin ((sep ++.) <$> (sp_text <$> segs)))) /\
  Pieces seps (sp_text <$> merge_segments size recurse sep segs None) (join sep (sp_text <$> segs)).
Proof.
  induction segs as [|g segs [IHs IHn]].
  { split; [intros c; rewrite /= app_nil_r|]; constructor. }
  split.
  - intros c. rewrite merge_some. cbv zeta.
    change (mjoin _) with ((sep ++ sp_text g) ++ mjoin ((sep ++.) <$> (sp_text <$> segs))).
    destruct (size <? length (sep ++ sp_text g)) eqn:Hw; [|destruct (size <? length (sp_text c) + _)].
    + apply Nat.ltb_lt in Hw. rewrite fmap_cons. apply pieces_step; [by apply pieces_after|].
      intros [Hn _]%fmap_nil_inv%app_nil. by apply recurse_nonempty in Hn.
    + rewrite fmap_cons. apply pieces_step; [apply IHs|]. intros Hn%fmap_nil_inv. by apply merge_nonempty in Hn.
    + rewrite (app_assoc (sp_text c) (sep ++ sp_text g) (mjoin _)). apply IHs.
  - rewrite merge_none. change (join _ _) with (sp_text g ++ mjoin ((sep ++.) <$> (sp_text <$> segs))).
    destruct (size <? length (sp_text g)) eqn:Hw;
      [|exact (IHs (mkSrcSpan (sp_text g) (sp_start g) (sp_end g)))].
    apply Nat.ltb_lt in Hw. by apply pieces_after.
Qed.

Lemma merge_bounded segs cur :
  (forall t start, Forall (fun sp => length (sp_text sp) <= size) (recurse t start)) ->
  (forall c, cur = Some c -> length (sp_text c) <= size) ->
  Forall (fun sp => length (sp_text sp) <= size) (merge_segments size recurse sep segs cur).
Proof.
  intros Hr. revert cur. induction segs as [|g segs IH]; intros [c|] Hc.
  - simpl. constructor; auto.
  - constructor.
  - rewrite merge_some. cbv zeta.
    destruct (size <? length (sep ++ sp_text g)) eqn:Hw;
      [|apply Nat.ltb_ge in Hw; destruct (size <? length (sp_text c) + _) eqn:Hb; [|apply Nat.ltb_ge in Hb]].
    + constructor; [auto|]. apply Forall_app. split; [auto|]. by apply IH.
    + constructor; [auto|]. apply IH. by intros ? [= <-].
    + apply IH. intros ? [= <-]. simpl. rewrite length_app. lia.
  - rewrite merge_none. destruct (_ <? _) eqn:Hw; [|apply Nat.ltb_ge in Hw].
    + apply Forall_app. split; [auto|]. by apply IH.
    + apply IH. by intros ? [= <-].
Qed.

End merge.

(** ** The recursion *)

Section recursion.
Variable size : nat.

Lemma chosen_separator seps t : default [] (List.find (fun s => contains s t) seps) ∈ [] :: seps.
Proof.
  destruct (List.find _ seps) as [sep|] eqn:E; simpl; [|set_solver].
  apply find_some in E as [E%list_elem_of_In _]. set_solver.
Qed.

(** What the recursion splits a long part with. *)
Definition next_split (seps : list Text) (t : Text) (start : nat) : list SrcSpan :=
  match seps with
  | [] | [_] => characters start t
  | _ :: next => split_text_recursive_spanned size next t start
  end.

Lemma recursive_unfold seps t base :
  split_text_recursive_spanned size seps t base =
    match t with
    | [] => []
    | _ =>
        if length t <=? size then [mkSrcSpan t base (base + length t)]
        else
          let sep := default [] (List.find (fun s => contains s t) seps) in
          merge_segments size (next_split seps) sep (split_segments t sep) None
    end.
Proof. by destruct seps, t. Qed.

Lemma recursive_pieces seps t base :
  Pieces seps (sp_text <$> split_text_recursive_spanned size seps t base) t.
Proof.
  revert t base. induction seps as [|s seps IH]; intros [|x t] base; rewrite recursive_unfold;
    try constructor; (destruct (_ <=? size); [constructor|]); cbv zeta;
    [set sep := default [] _; assert (sep ∈ [[]]) as Hsep by apply (chosen_separator [] (x :: t))
    |set sep := default [] _; assert (sep ∈ [] :: s :: seps) as Hsep by apply (chosen_separator (s :: seps) (x :: t))];
    rewrite -{2}(segments_join (x :: t) sep); apply merge_pieces; try done; intros t' start.
  - apply pieces_characters.
  - destruct seps; [apply pieces_characters|]. simpl. eapply pieces_mono; [|apply IH]. set_solver.
Qed.

Lemma characters_bounded start t :
  0 < size -> Forall (fun sp => length (sp_text sp) <= size) (characters start t).
Proof.
  intros Hs. apply Forall_forall. intros sp (i & c & -> & _)%elem_of_lookup_imap. simpl. lia.
Qed.

Lemma recursive_bounded seps t base :
  0 < size -> Forall (fun sp => length (sp_text sp) <= size) (split_text_recursive_spanned size seps t base).
Proof.
  intros Hs. revert t base. induction seps as [|s seps IH]; intros [|x t] base; rewrite recursive_unfold;
    try constructor; (destruct (_ <=? size) eqn:E; [apply Nat.leb_le in E; by repeat constructor|]);
    cbv zeta; apply merge_bounded; try done; intros t' start.
  - by apply characters_bounded.
  - destruct seps; [by apply characters_bounded|apply IH].
Qed.

End recursion.

(** ** Overlap *)

Lemma overlap_of_suffix s prev chunk :
  let n := Nat.min (chunk_overlap s) (chunk_size s - length chunk) in
  overlap_of s prev chunk = drop (length prev - n) prev.
Proof.
  intros n. rewrite /overlap_of length_drop. destruct (_ <? _) eqn:E.
  - apply Nat.ltb_lt in E. rewrite drop_drop. f_equal. lia.
  - apply Nat.ltb_ge in E. f_equal. lia.
Qed.

Lemma overlap_of_length s prev chunk :
  length (overlap_of s prev chunk) = Nat.min (length prev) (Nat.min (chunk_overlap s) (chunk_size s - length chunk)).
Proof. rewrite overlap_of_suffix length_drop. lia. Qed.

Lemma overlapped_lookup s prev chunks i c :
  overlapped s prev chunks !! i = Some c ->
  exists p q, (prev :: chunks) !! i = Some p /\ chunks !! i = Some q /\ c = overlap_of s p q ++ q.
Proof.
  revert prev i. induction chunks as [|x chunks IH]; intros prev [|i] H; simplify_eq/=; [eauto|].
  by apply IH in H.
Qed.

Lemma overlapped_length s prev chunks : length (overlapped s prev chunks) = length chunks.
Proof. revert prev. induction chunks as [|x chunks IH]; intros prev; simpl; auto. Qed.

(** Without an overlap the chunks stay what they are. *)
Lemma overlapped_none s prev chunks : chunk_overlap s = 0 -> overlapped s prev chunks = chunks.
Proof.
  intros H0. revert prev. induction chunks as [|x chunks IH]; intros prev; simpl; [done|].
  rewrite IH. f_equal. assert (Hn := overlap_of_length s prev x).
  rewrite H0 /= Nat.min_0_r in Hn. by apply nil_length_inv in Hn as ->.
Qed.

Lemma with_overlap_cons s first rest :
  with_overlap s (first :: rest) = first :: overlapped s first rest.
Proof.
  rewrite /with_overlap. destruct (0 <? chunk_overlap s) eqn:E; simpl.
  - by destruct rest.
  - apply Nat.ltb_ge in E. rewrite overlapped_none //. lia.
Qed.

Lemma overlapped_spans_texts s prev spans :
  sp_text <$> overlapped_spans s prev spans = overlapped s (sp_text prev) (sp_text <$> spans).
Proof.
  revert prev. induction spans as [|x spans IH]; intros prev; [done|].
  cbn [overlapped_spans]. by rewrite !fmap_cons IH.
Qed.

Lemma with_indices_texts s t : ck_text <$> split_text_with_indices s t = split_text s t.
Proof.
  rewrite /split_text_with_indices /split_text /split_text_recursive -list_fmap_compose.
  change (ck_text ∘ _) with sp_text.
  destruct (split_text_recursive_spanned _ _ _ _) as [|first rest]; [by rewrite orb_true_r /with_overlap andb_false_r|].
  rewrite fmap_cons with_overlap_cons. destruct (_ || _) eqn:E; [|by rewrite fmap_cons overlapped_spans_texts].
  rewrite fmap_cons. f_equal. apply orb_true_iff in E as [E%Nat.eqb_eq|E%Nat.leb_le].
  - by rewrite overlapped_none.
  - destruct rest; [done|]. simpl in E. lia.
Qed.

(** ** Lines *)

Definition newlines (t : Text) : nat := length (filter (fun c => c = 10%N) t).

Fixpoint starts_from (k : nat) (t : Text) : list nat :=
  match t with
  | [] => []
  | c :: t => if (c =? 10)%N then S k :: starts_from (S k) t else starts_from (S k) t
  end.

Lemma starts_from_spec k t :
  omap (fun p : nat * N => if (p.2 =? 10)%N then Some (S p.1) else None) (imap (fun i c => (k + i, c)) t) =
  starts_from k t.
Proof.
  revert k. induction t as [|c t IH]; intros k; [done|]. rewrite imap_cons. cbn [starts_from].
  rewrite -(IH (S k)) /=. rewrite Nat.add_0_r.
  rewrite (imap_ext _ (fun i c => (S (k + i), c))); [|intros; simpl; f_equal; lia].
  by destruct (c =? 10)%N.
Qed.

Lemma partition_starts off k t :
  partition_point (fun s => s <=? off) (starts_from k t) = newlines (take (off - k) t).
Proof.
  revert k. induction t as [|c t IH]; intros k; [by rewrite take_nil|]. cbn [starts_from].
  destruct (c =? 10)%N eqn:E; [apply N.eqb_eq in E as ->|apply N.eqb_neq in E];
    cbn [partition_point]; rewrite IH; destruct (decide (S k <= off)) as [Hk|Hk].
  - rewrite leb_correct //. by replace (off - k) with (S (off - S k)) by lia.
  - rewrite leb_correct_conv; last lia. by replace (off - k) with 0 by lia.
  - replace (off - k) with (S (off - S k)) by lia. by rewrite /newlines firstn_cons filter_cons_False.
  - replace (off - k) with 0 by lia. by replace (off - S k) with 0 by lia.
Qed.

(** A line number is one more than the line breaks before the offset. *)
Lemma line_of_spec t off : line_of (line_starts t) off = S (newlines (take off t)).
Proof.
  rewrite /line_of /line_starts.
  rewrite (imap_ext pair (fun i c => (0 + i, c))) // starts_from_spec. cbn [partition_point].
  rewrite partition_starts Nat.sub_0_r /=. lia.
Qed.

(** ** Exact spans *)

(** Spans that tile the text from [off], each the place of its own text. *)
Inductive Tiling : nat -> list SrcSpan -> Text -> Prop :=
| Tiling_nil off : Tiling off [] []
| Tiling_cons off w l t :
    Tiling (off + length w) l t -> Tiling off (mkSrcSpan w off (off + length w) :: l) (w ++ t).

Lemma characters_place pos t : characters pos t = place 0 pos ((fun c => [c]) <$> t).
Proof.
  revert pos. induction t as [|c t IH]; intros pos; [done|].
  rewrite fmap_cons. cbn [place]. rewrite /characters imap_cons -IH /characters /=.
  rewrite !Nat.add_0_r. f_equal. apply imap_ext. intros. simpl. by rewrite -!Nat.add_assoc /= Nat.add_succ_r.
Qed.

Lemma segments_place t sep :
  split_segments t sep = place (length sep) 0 (sp_text <$> split_segments t sep).
Proof.
  destruct sep as [|c sep].
  - by rewrite {2}/split_segments characters_texts -characters_place.
  - by rewrite {2}/split_segments place_texts.
Qed.

Lemma merge_tiling size recurse sep parts w off :
  Forall (fun p => length sep + length p <= size) parts ->
  Tiling off
    (merge_segments size recurse sep (place (length sep) (off + length w + length sep) parts)
       (Some (mkSrcSpan w off (off + length w))))
    (w ++ mjoin ((sep ++.) <$> parts)).
Proof.
  intros Hf. revert w off. induction Hf as [|p parts Hp Hf IH]; intros w off.
  { simpl. repeat constructor. }
  rewrite fmap_cons. cbn [place]. rewrite merge_some. cbn [sp_text sp_start sp_end]. cbv zeta.
  rewrite (proj2 (Nat.ltb_ge size (length (sep ++ p)))); last by (rewrite length_app; lia).
  replace (off + length w + length sep - length sep) with (off + length w) by lia.
  assert (off + length w + length sep + length p = off + length w + length (sep ++ p)) as ->
    by (rewrite length_app; lia).
  change (mjoin (?x :: ?l)) with (x ++ mjoin l).
  destruct (_ <? _).
  - constructor. apply IH.
  - rewrite (app_assoc w (sep ++ p) (mjoin _)).
    replace (off + length w + length (sep ++ p)) with (off + length (w ++ sep ++ p)) by (rewrite !length_app; lia).
    apply IH.
Qed.

(** No part of the text needs a second separator. *)
Definition fits (s : RecursiveCharacterSplitter) (t : Text) : bool :=
  let sep := default [] (List.find (fun s => contains s t) (separators s)) in
  (length t <=? chunk_size s) ||
  forallb (fun g => length sep + length (sp_text g) <=? chunk_size s) (split_segments t sep).

Lemma fits_tiling s t :
  fits s t = true -> Tiling 0 (split_text_recursive_spanned (chunk_size s) (separators s) t 0) t.
Proof.
  rewrite /fits. intros Hf. rewrite recursive_unfold. destruct t as [|x t]; [constructor|].
  destruct (_ <=? _); simpl in Hf.
  { assert (H := Tiling_cons 0 (x :: t) [] [] (Tiling_nil _)). by rewrite app_nil_r in H. }
  cbv zeta. set sep := default [] _ in Hf |- *.
  assert (Forall (fun p => length sep + length p <= chunk_size s) (sp_text <$> split_segments (x :: t) sep)) as Hall.
  { apply Forall_fmap, Forall_forall. intros g Hg. apply Nat.leb_le.
    by apply (proj1 (forallb_forall _ _) Hf), list_elem_of_In. }
  rewrite -{2}(segments_join (x :: t) sep) segments_place.
  destruct Hall as [|p parts Hp Hall]; [constructor|]. cbn [place]. rewrite merge_none. cbn [sp_text sp_start sp_end].
  rewrite (proj2 (Nat.ltb_ge (chunk_size s) (length p))); last lia.
  rewrite !fmap_cons place_texts. by apply (merge_tiling _ _ _ _ p 0).
Qed.

Lemma overlapped_spans_lookup s prev spans i sp :
  overlapped_spans s prev spans !! i = Some sp ->
  exists sp', spans !! i = Some sp' /\ sp_text sp' `suffix_of` sp_text sp /\
    sp_start sp = sp_start sp' /\ sp_end sp = sp_end sp'.
Proof.
  revert prev i. induction spans as [|x spans IH]; intros prev [|i] H; simplify_eq/=; [|by apply IH in H].
  exists x. split_and!; [done|by eexists|done..].
Qed.

(** Every chunk is the chunk of a raw span behind an overlap. *)
Lemma with_indices_lookup s t i ck :
  split_text_with_indices s t !! i = Some ck ->
  exists sp, split_text_recursive_spanned (chunk_size s) (separators s) t 0 !! i = Some sp /\
    sp_text sp `suffix_of` ck_text ck /\ start_char ck = sp_start sp /\
    start_line ck = S (newlines (take (sp_start sp) t)) /\
    end_line ck = S (newlines (take (sp_end sp - 1) t)).
Proof.
  rewrite /split_text_with_indices list_lookup_fmap.
  destruct (split_text_recursive_spanned _ _ _ _) as [|first rest]; [by rewrite orb_true_r|].
  intros (sp & Hsp & ->)%fmap_Some. simpl. rewrite !line_of_spec.
  revert Hsp. destruct (_ || _); intros Hsp; [by exists sp|]. destruct i as [|i]; simpl in Hsp; [by simplify_eq; exists sp|].
  apply overlapped_spans_lookup in Hsp as (sp' & ? & ? & -> & ->). by exists sp'.
Qed.

Lemma tiling_texts off l t : Tiling off l t -> mjoin (sp_text <$> l) = t.
Proof. induction 1 as [|off w l t _ IH]; [done|]. rewrite fmap_cons. by apply (f_equal (app w)). Qed.

Lemma tiling_lookup off l t i sp :
  Tiling off l t -> l !! i = Some sp ->
  sp_start sp = off + length (mjoin (take i (sp_text <$> l))) /\
  sp_end sp = sp_start sp + length (sp_text sp).
Proof.
  intros H. revert i. induction H as [|off w l t H IH]; intros [|i] Hi; simplify_eq/=; [lia|].
  apply IH in Hi as [-> ?]. rewrite length_app. split; [lia|done].
Qed.

(** ** The properties *)

(** C40: For every splitter that [new] and [with_separators] build and every text: no chunk is
    longer than the chunk size, the overlap counted; before overlap the chunks are
    consecutive pieces of the text, nothing lost between two of them but at most one
    separator; every chunk but the first is, behind the part of its predecessor's end that
    the overlap and the room allow, its own piece; and [split_text_with_indices] returns the same chunks. *)
Theorem splitter_chunks n overlap seps t :
  let s := RecursiveCharacterSplitter.with_separators seps (RecursiveCharacterSplitter.new n overlap) in
  let raw := split_text_recursive s t in
  Forall (fun c => length c <= Nat.max n 1) (split_text s t) /\
  Pieces (separators s) raw t /\
  length (split_text s t) = length raw /\
  head (split_text s t) = head raw /\
  (forall i c, split_text s t !! S i = Some c ->
     exists p q, raw !! i = Some p /\ raw !! S i = Some q /\
       c = drop (length p - Nat.min (chunk_overlap s) (chunk_size s - length q)) p ++ q) /\
  ck_text <$> split_text_with_indices s t = split_text s t.
Proof.
  intros s raw.
  assert (chunk_size s = Nat.max n 1) as Hn by done.
  assert (Forall (fun c => length c <= Nat.max n 1) raw) as Hraw.
  { rewrite /raw /split_text_recursive Hn. apply Forall_fmap, recursive_bounded. lia. }
  assert (Pieces (separators s) raw t) as Hp by apply recursive_pieces.
  rewrite with_indices_texts /split_text -/raw. clearbody raw.
  destruct raw as [|first rest].
  { rewrite /with_overlap andb_false_r. by split_and!; [constructor| | | |intros i c Hc|]. }
  rewrite with_overlap_cons. split_and!; [|done|by rewrite /= overlapped_length|done| |done].
  - apply Forall_cons in Hraw as [Hf Hr]. constructor; [done|]. apply Forall_forall.
    intros c (i & Hc)%list_elem_of_lookup. apply overlapped_lookup in Hc as (p & q & _ & Hq & ->).
    rewrite length_app overlap_of_length -Hn. eapply Forall_lookup_1 in Hr; [|done]. lia.
  - intros i c (p & q & Hp' & Hq & ->)%overlapped_lookup. exists p, q. by rewrite overlap_of_suffix.
Qed.

(** When no part of the text needs a second separator, the spans are the provenance
    that is documented: the chunks' own contents tile the text, each starts at the
    reported offset, and the line numbers are one more than the line breaks before its first and
    its last character. *)
Theorem spans_exact s t :
  fits s t = true ->
  exists ws, mjoin ws = t /\ length ws = length (split_text_with_indices s t) /\
    forall i ck w, split_text_with_indices s t !! i = Some ck -> ws !! i = Some w ->
      let off := length (mjoin (take i ws)) in
      w `suffix_of` ck_text ck /\ start_char ck = off /\
      start_line ck = S (newlines (take off t)) /\
      end_line ck = S (newlines (take (off + length w - 1) t)).
Proof.
  intros Ht%fits_tiling.
  exists (sp_text <$> split_text_recursive_spanned (chunk_size s) (separators s) t 0).
  split_and!; [by eapply tiling_texts| |].
  - rewrite -(length_fmap ck_text) with_indices_texts. rewrite /split_text /split_text_recursive.
    destruct (_ <$> _) as [|c l]; [by rewrite /with_overlap andb_false_r|].
    by rewrite with_overlap_cons /= overlapped_length.
  - intros i ck w (sp & Hsp & Hsuf & -> & -> & ->)%with_indices_lookup Hw off.
    rewrite list_lookup_fmap Hsp in Hw. simplify_eq/=.
    destruct (tiling_lookup _ _ _ _ _ Ht Hsp) as [Hs He]. by rewrite He Hs.
Qed.

(** ** Concrete splits *)

Definition ascii_text (s : string) : Text := Ascii.N_of_ascii <$> String.list_ascii_of_string s.

Definition two_lines : Text := ascii_text "one two" ++ [10%N] ++ ascii_text "three four five".

Lemma spans_exact_witness :
  let s := RecursiveCharacterSplitter.new 16 4 in
  fits s two_lines = true /\
  exists ws, mjoin ws = two_lines /\ length ws = length (split_text_with_indices s two_lines) /\
    forall i ck w, split_text_with_indices s two_lines !! i = Some ck -> ws !! i = Some w ->
      let off := length (mjoin (take i ws)) in
      w `suffix_of` ck_text ck /\ start_char ck = off /\
      start_line ck = S (newlines (take off two_lines)) /\
      end_line ck = S (newlines (take (off + length w - 1) two_lines)).
Proof. split; [vm_compute; reflexivity|]. apply spans_exact. vm_compute. reflexivity. Defined.

(** A part that needs a second separator loses its offset: the pieces of the second line,
    at the offsets 7 and 13, are reported at 0 and 6, where the first line is.  The first separator
    is tried again on a part that starts with it, which leaves an empty chunk. *)
Example nested_spans_relative :
  let s := RecursiveCharacterSplitter.new 10 0 in
  fits s two_lines = false /\
  split_text s two_lines =
    [ascii_text "one two"; []; 10%N :: ascii_text "three"; ascii_text " four five"] /\
  ((fun ck => (start_char ck, start_line ck)) <$> split_text_with_indices s two_lines) =
    [(0, 1); (0, 1); (0, 1); (6, 1)].
Proof. vm_compute. split_and!; reflexivity. Qed.

(** The separator after a part that was split further is in no chunk. *)
Example separator_dropped :
  split_text (RecursiveCharacterSplitter.new 4 0) (ascii_text "abcdefg" ++ [10%N] ++ ascii_text "xy") =
    [ascii_text "abcd"; ascii_text "efg"; ascii_text "xy"].
Proof. vm_compute. reflexivity. Qed.
