(* ===== verification/Runnable.v ===== *)
(** * The runnable trait and its type-erased form
      ([crates/lc-core/src/runnables]: [runnable_trait.rs], [any.rs], [config.rs])

    A [Runnable E I O] is a record of the trait's five methods; the default bodies are
    functions of the methods they call.  [RunnableAny] is its type-erased form, over
    boxed values [Any] that carry their type: [downcast] compares it, as
    [std::any::TypeId] does.  A method is a process ([Process]); a stream is the process
    that produces its items one by one ([Stream]), and ends.

    Boxed types are booleans, JSON values, string-keyed objects and the types of the user
    ([Host]), which come with their names and their serde form.  [buffered] and
    [buffer_unordered] run their futures in a pool ([Pool]), which also has the schedules
    that start the futures in another order. *)

From stdpp Require Import gmap strings list pretty.
From Stdlib Require Import SpecFloat Eqdep_dec.
From S2P Require Import Prelude Json PromptTemplate Process Pool.

(** ** What pipelines run on *)

Class Host := {
  World : Type;
  UserType : Type;
  UserType_eq_dec :: EqDecision UserType;
  UserValue : UserType -> Type;
  user_to_value : forall t, UserValue t -> result string JsonValue;
  Handler : Type;
  Tracer : Type;
  cancelled : nat -> World -> bool;
  sleep : N -> World -> World;
}.

Section types.
Context `{H : Host}.

Inductive Ty : Type :=
| BoolTy
| ValueTy
| MapTy
| UserTy (t : UserType).

#[export] Instance Ty_eq_dec : EqDecision Ty.
Proof. solve_decision. Defined.

Definition den (t : Ty) : Type :=
  match t with
  | BoolTy => bool
  | ValueTy => JsonValue
  | MapTy => gmap string JsonValue
  | UserTy t => UserValue t
  end.

(** [serde_json::to_value] *)
Definition to_value {t : Ty} : den t -> result string JsonValue :=
  match t with
  | BoolTy => fun b => Ok (JBool b)
  | ValueTy => fun v => Ok v
  | MapTy => fun m => Ok (JObject m)
  | UserTy t => user_to_value t
  end.

(** [Box<dyn Any + Send>] *)
Record Any := box {
  any_ty : Ty;
  any_value : den any_ty;
}.
#[global] Arguments box {any_ty} any_value.

Definition downcast (t : Ty) (a : Any) : option (den t) :=
  match decide (any_ty a = t) with
  | left e => Some (eq_rect (any_ty a) den (any_value a) t e)
  | right _ => None
  end.

Lemma downcast_box {t} (x : den t) : downcast t (box x) = Some x.
Proof.
  unfold downcast. cbn. destruct (decide (t = t)) as [e|]; [|done].
  by rewrite (UIP_dec (fun a b => decide (a = b)) e eq_refl).
Qed.

(** The name of a type in an error message, which [std] leaves open. *)
Class TypeNames := type_name : Ty -> string.

(** A downcast whose failure is the error [message]. *)
Definition expect (message : string) (t : Ty) (a : Any) : result LcelError (den t) :=
  ok_or (downcast t a) (LcelTypeMismatch message).

Lemma expect_box {t} message (x : den t) : expect message t (box x) = Ok x.
Proof. unfold expect. by rewrite downcast_box. Qed.

(** ** The configuration *)

Record CallbackManager := mkCallbackManager {
  handlers : list Handler;
  tracer : option Tracer;
}.

(** [CallbackManager::merge_with] *)
Definition merge_with (self other : CallbackManager) : CallbackManager :=
  mkCallbackManager (handlers self ++ handlers other)
    (match tracer self with Some t => Some t | None => tracer other end).

Record RunnableConfig := mkRunnableConfig {
  tags : list string;
  metadata : gmap string JsonValue;
  max_concurrency : option nat;
  run_id : option string;
  run_name : option string;
  callbacks : option CallbackManager;
  cancellation_token : option nat;
  temperature : option spec_float;
  max_tokens : option N;
  configurable : gmap string JsonValue;
}.
End types.

Module RunnableConfig.
Section config.
Context `{H : Host}.

Definition new : RunnableConfig := mkRunnableConfig [] ∅ None None None None None None None ∅.

Definition with_tag (tag : string) (c : RunnableConfig) : RunnableConfig :=
  mkRunnableConfig (tags c ++ [tag]) (metadata c) (max_concurrency c) (run_id c) (run_name c) (callbacks c)
    (cancellation_token c) (temperature c) (max_tokens c) (configurable c).
Definition with_metadata (key : string) (value : JsonValue) (c : RunnableConfig) : RunnableConfig :=
  mkRunnableConfig (tags c) (<[key := value]> (metadata c)) (max_concurrency c) (run_id c) (run_name c) (callbacks c)
    (cancellation_token c) (temperature c) (max_tokens c) (configurable c).
Definition with_max_concurrency (max : nat) (c : RunnableConfig) : RunnableConfig :=
  mkRunnableConfig (tags c) (metadata c) (Some max) (run_id c) (run_name c) (callbacks c)
    (cancellation_token c) (temperature c) (max_tokens c) (configurable c).
Definition with_run_id (id : string) (c : RunnableConfig) : RunnableConfig :=
  mkRunnableConfig (tags c) (metadata c) (max_concurrency c) (Some id) (run_name c) (callbacks c)
    (cancellation_token c) (temperature c) (max_tokens c) (configurable c).
Definition with_run_name (name : string) (c : RunnableConfig) : RunnableConfig :=
  mkRunnableConfig (tags c) (metadata c) (max_concurrency c) (run_id c) (Some name) (callbacks c)
    (cancellation_token c) (temperature c) (max_tokens c) (configurable c).
Definition with_callbacks (cb : CallbackManager) (c : RunnableConfig) : RunnableConfig :=
  mkRunnableConfig (tags c) (metadata c) (max_concurrency c) (run_id c) (run_name c) (Some cb)
    (cancellation_token c) (temperature c) (max_tokens c) (configurable c).
Definition with_cancellation_token (token : nat) (c : RunnableConfig) : RunnableConfig :=
  mkRunnableConfig (tags c) (metadata c) (max_concurrency c) (run_id c) (run_name c) (callbacks c)
    (Some token) (temperature c) (max_tokens c) (configurable c).
Definition with_temperature (t : spec_float) (c : RunnableConfig) : RunnableConfig :=
  mkRunnableConfig (tags c) (metadata c) (max_concurrency c) (run_id c) (run_name c) (callbacks c)
    (cancellation_token c) (Some t) (max_tokens c) (configurable c).
Definition with_max_tokens (n : N) (c : RunnableConfig) : RunnableConfig :=
  mkRunnableConfig (tags c) (metadata c) (max_concurrency c) (run_id c) (run_name c) (callbacks c)
    (cancellation_token c) (temperature c) (Some n) (configurable c).
Definition with_configurable (key : string) (value : JsonValue) (c : RunnableConfig) : RunnableConfig :=
  mkRunnableConfig (tags c) (metadata c) (max_concurrency c) (run_id c) (run_name c) (callbacks c)
    (cancellation_token c) (temperature c) (max_tokens c) (<[key := value]> (configurable c)).

Definition configurable_value (key : string) (c : RunnableConfig) : option JsonValue := configurable c !! key.

Definition is_cancelled (c : RunnableConfig) (w : World) : bool :=
  match cancellation_token c with Some token => cancelled token w | None => false end.

(** The tags of [other] that are not there yet, in order. *)
Fixpoint merge_tags (tags other : list string) : list string :=
  match other with
  | [] => tags
  | tag :: other => merge_tags (if bool_decide (tag ∈ tags) then tags else tags ++ [tag]) other
  end.

Definition or {A} (later earlier : option A) : option A :=
  match later with Some a => Some a | None => earlier end.

Definition merge_callbacks (self other : option CallbackManager) : option CallbackManager :=
  match self, other with
  | Some self, Some other => Some (merge_with self other)
  | _, _ => or other self
  end.

Definition merge (self other : RunnableConfig) : RunnableConfig :=
  mkRunnableConfig (merge_tags (tags self) (tags other)) (metadata other ∪ metadata self)
    (or (max_concurrency other) (max_concurrency self)) (or (run_id other) (run_id self))
    (or (run_name other) (run_name self)) (merge_callbacks (callbacks self) (callbacks other))
    (or (cancellation_token other) (cancellation_token self)) (or (temperature other) (temperature self))
    (or (max_tokens other) (max_tokens self)) (configurable other ∪ configurable self).

(** The concurrency of [n] calls: at least one. *)
Definition limit (config : option RunnableConfig) (n : nat) : nat :=
  Nat.max (default n (config ≫= max_concurrency)) 1.
End config.
End RunnableConfig.

(** ** Streams *)

Inductive Stream (W R : Type) : Type :=
| Done
| Item (r : R) (rest : Stream W R)
| Pending (k : W -> Stream W R * W).
Arguments Done {W R}. Arguments Item {W R} r rest. Arguments Pending {W R} k.

Module Stream.
Section stream.
Context {W : Type}.

(** [stream::once] *)
Definition once {R} (r : R) : Stream W R := Item r Done.

Fixpoint map {R T} (f : R -> T) (s : Stream W R) : Stream W T :=
  match s with
  | Done => Done
  | Item r rest => Item (f r) (map f rest)
  | Pending k => Pending (fun w => let '(s, w) := k w in (map f s, w))
  end.

Fixpoint append {R} (s t : Stream W R) : Stream W R :=
  match s with
  | Done => t
  | Item r rest => Item r (append rest t)
  | Pending k => Pending (fun w => let '(s, w) := k w in (append s t, w))
  end.

(** The stream a process goes on with. *)
Fixpoint of_proc {A R} (p : Proc W A) (f : A -> Stream W R) : Stream W R :=
  match p with
  | Return a => f a
  | Await k => Pending (fun w => let '(p, w) := k w in (of_proc p f, w))
  end.

(** Reading a stream to its end. *)
Fixpoint collect {R} (s : Stream W R) : Proc W (list R) :=
  match s with
  | Done => mret []
  | Item r rest => rs ← collect rest; mret (r :: rs)
  | Pending k => Await (fun w => let '(s, w) := k w in (collect s, w))
  end.

(** [stream::iter] *)
Fixpoint iter {R} (l : list R) : Stream W R :=
  match l with [] => Done | r :: l => Item r (iter l) end.
End stream.
End Stream.

(** ** The trait *)

(** The results that have arrived, by index; [buffered] hands them out in order. *)
Notation Slots E O := (list (option (result E O))).

Section runnable.
Context `{H : Host}.

Notation P := (Proc World).
Notation S' := (Stream World).

Record Runnable (E I O : Type) := mkRunnable {
  invoke : I -> option RunnableConfig -> P (result E O);
  batch : list I -> option RunnableConfig -> P (result E (list O));
  batch_as_completed : list I -> option RunnableConfig -> P (result E (list (nat * O)));
  stream : I -> option RunnableConfig -> P (result E (S' (result E O)));
  transform : S' (result E I) -> option RunnableConfig -> P (result E (S' (result E O)));
}.
#[global] Arguments mkRunnable {E I O}. #[global] Arguments invoke {E I O}. #[global] Arguments batch {E I O}.
#[global] Arguments batch_as_completed {E I O}. #[global] Arguments stream {E I O}. #[global] Arguments transform {E I O}.

(** *** The defaults *)

(** The first error before the first result that is missing. *)
Fixpoint first_error {E O} (slots : Slots E O) : option E :=
  match slots with
  | Some (Ok _) :: slots => first_error slots
  | Some (Err e) :: _ => Some e
  | _ => None
  end.

(** [Iterator::collect] into a [Result]. *)
Fixpoint collect_slots {E O} (slots : Slots E O) : result E (list O) :=
  match slots with
  | [] => Ok []
  | Some (Err e) :: _ => Err e
  | Some (Ok o) :: slots => match collect_slots slots with Ok l => Ok (o :: l) | Err e => Err e end
  | None :: slots => collect_slots slots
  end.

Definition collect_buffered {E O} (i : nat) (r : result E O) (w : World) (slots : Slots E O)
    : Slots E O + result E (list O) :=
  let slots := <[i := Some r]> slots in
  match first_error slots with Some e => inr (Err e) | None => inl slots end.

Context `{R : !Runtime World}.

Definition default_batch {E I O} (invoke : I -> option RunnableConfig -> P (result E O))
    (inputs : list I) (config : option RunnableConfig) : P (result E (list O)) :=
  join_set (RunnableConfig.limit config (length inputs)) collect_buffered collect_slots
    ((fun input => invoke input config) <$> inputs) (replicate (length inputs) None).

Definition collect_completed {E O} (i : nat) (r : result E O) (w : World) (results : list (nat * O))
    : list (nat * O) + result E (list (nat * O)) :=
  match r with Ok o => inl (results ++ [(i, o)]) | Err e => inr (Err e) end.

Definition default_batch_as_completed {E I O} (invoke : I -> option RunnableConfig -> P (result E O))
    (inputs : list I) (config : option RunnableConfig) : P (result E (list (nat * O))) :=
  join_set (RunnableConfig.limit config (length inputs)) collect_completed Ok
    ((fun input => invoke input config) <$> inputs) [].

Definition default_stream {E I O} (invoke : I -> option RunnableConfig -> P (result E O))
    (input : I) (config : option RunnableConfig) : P (result E (S' (result E O))) :=
  result ←? invoke input config;
  mret (Ok (Stream.once (Ok result))).

(** The lazy loop: one item is drained before the next is pulled; an error of the input,
    or of setting up the stream of an item, ends the output. *)
Fixpoint elementwise {E I O} (stream : I -> P (result E (S' (result E O)))) (input : S' (result E I))
    : S' (result E O) :=
  match input with
  | Done => Done
  | Pending k => Pending (fun w => let '(s, w) := k w in (elementwise stream s, w))
  | Item (Err e) _ => Stream.once (Err e)
  | Item (Ok item) rest =>
      Stream.of_proc (stream item) (fun inner =>
        match inner with
        | Ok s => Stream.append s (elementwise stream rest)
        | Err e => Stream.once (Err e)
        end)
  end.

Definition default_transform {E I O} (stream : I -> option RunnableConfig -> P (result E (S' (result E O))))
    (input : S' (result E I)) (config : option RunnableConfig) : P (result E (S' (result E O))) :=
  mret (Ok (elementwise (fun item => stream item config) input)).

(** The runnables that only say how to invoke them. *)
Definition of_invoke {E I O} (invoke : I -> option RunnableConfig -> P (result E O)) : Runnable E I O :=
  mkRunnable invoke (default_batch invoke) (default_batch_as_completed invoke) (default_stream invoke)
    (default_transform (default_stream invoke)).

(** ** The type-erased form *)

Record RunnableAny := mkRunnableAny {
  invoke_any : Any -> option RunnableConfig -> P (result LcelError Any);
  stream_any : Any -> option RunnableConfig -> P (result LcelError (S' (result LcelError Any)));
  transform_any : S' (result LcelError Any) -> option RunnableConfig ->
                  P (result LcelError (S' (result LcelError Any)));
  batch_any : list Any -> option RunnableConfig -> P (result LcelError (list Any));
}.

(** [R::Error: Into<LcelError>] *)
Class IntoLcel (E : Type) := into : E -> LcelError.
#[export] Instance lcel_into_lcel : IntoLcel LcelError := fun e => e.

Definition box_result {E t} `{!IntoLcel E} (r : result E (den t)) : result LcelError Any :=
  match r with Ok x => Ok (box x) | Err e => Err (into e) end.

Context `{N : !TypeNames}.

Section wrapper.
Context {E : Type} `{!IntoLcel E} {I O : Ty} (inner : Runnable E (den I) (den O)).

Definition wrap_invoke_any (input : Any) (config : option RunnableConfig) : P (result LcelError Any) :=
  typed_input ←? mret (expect ("invoke_any: expected " +:+ type_name I +:+ ", got unknown type") I input);
  result ← invoke inner typed_input config;
  mret (box_result result).

Definition wrap_stream_any (input : Any) (config : option RunnableConfig)
    : P (result LcelError (S' (result LcelError Any))) :=
  typed_input ←? mret (expect ("stream_any: expected " +:+ type_name I +:+ ", got unknown type") I input);
  s ← stream inner typed_input config;
  mret (match s with Ok s => Ok (Stream.map box_result s) | Err e => Err (into e) end).

(** An item of the input stream: its downcast, then [stream] of the inner runnable. *)
Definition stream_item (config : option RunnableConfig) (boxed : Any)
    : P (result LcelError (S' (result LcelError Any))) :=
  typed ←? mret (expect ("transform_any input: expected " +:+ type_name I) I boxed);
  s ← stream inner typed config;
  mret (match s with Ok s => Ok (Stream.map box_result s) | Err e => Err (into e) end).

Definition wrap_transform_any (input : S' (result LcelError Any)) (config : option RunnableConfig)
    : P (result LcelError (S' (result LcelError Any))) :=
  mret (Ok (elementwise (stream_item config) input)).

(** The downcasts of a list of inputs: the first failure is the error. *)
Fixpoint expect_all (message : string) (t : Ty) (inputs : list Any) : result LcelError (list (den t)) :=
  match inputs with
  | [] => Ok []
  | a :: inputs =>
      match expect message t a with
      | Ok x => match expect_all message t inputs with Ok l => Ok (x :: l) | Err e => Err e end
      | Err e => Err e
      end
  end.

Definition wrap_batch_any (inputs : list Any) (config : option RunnableConfig) : P (result LcelError (list Any)) :=
  typed_inputs ←? mret (expect_all ("batch_any: expected " +:+ type_name I) I inputs);
  results ← batch inner typed_inputs config;
  mret (match results with Ok l => Ok (list_fmap _ _ box l) | Err e => Err (into e) end).

(** [RunnableAnyWrapper] *)
Definition into_runnable_any : RunnableAny :=
  mkRunnableAny wrap_invoke_any wrap_stream_any wrap_transform_any wrap_batch_any.
End wrapper.
End runnable.
