(* ===== verification/Lcel.v ===== *)
(** * The combinators of LCEL ([crates/lc-core/src/runnables]: [sequence.rs], [parallel.rs],
      [branch.rs], [fallback.rs], [passthrough.rs], [lambda.rs], [ext.rs])

    Each combinator is a record of type-erased parts with its [Runnable] instance, method by
    method; a method that an instance does not override is the default of [Runnable].
    Warnings are not modelled. *)

From stdpp Require Import gmap strings list pretty.
From Stdlib Require Import SpecFloat.
From S2P Require Import Prelude Json PromptTemplate Process Pool Runnable.

Section lcel.
Context `{H : Host} `{R : !Runtime World} `{N : !TypeNames}.

Notation P := (Proc World).
Notation Config := (option RunnableConfig).
Notation Items A := (Stream World (result LcelError A)).
Notation Run_ I O := (Runnable LcelError (den I) (den O)).

(** What every combinator does with the outputs of its parts. *)
Definition unbox {O : Ty} (message : string) (a : Any) : P (result LcelError (den O)) := mret (expect message O a).
Definition unbox_item {O : Ty} (message : string) (r : result LcelError Any) : result LcelError (den O) :=
  r ≫= expect message O.
Definition box_item {I : Ty} (r : result LcelError (den I)) : result LcelError Any :=
  match r with Ok x => Ok (box x) | Err e => Err e end.

(** ** Lambdas and the passthrough *)

Record RunnableLambda (I O : Type) := mkLambda { func : I -> P (result LcelError O) }.
#[global] Arguments mkLambda {I O}. #[global] Arguments func {I O}.

Definition new_sync {I O} (f : I -> O) : RunnableLambda I O := mkLambda (fun input => mret (Ok (f input))).
Definition new_sync_fallible {I O} (f : I -> result LcelError O) : RunnableLambda I O :=
  mkLambda (fun input => mret (f input)).
Definition new_async {I O} (f : I -> P (result LcelError O)) : RunnableLambda I O := mkLambda f.

Definition lambda_runnable {I O} (self : RunnableLambda I O) : Runnable LcelError I O :=
  of_invoke (fun input _ => func self input).

Definition passthrough (I : Type) : Runnable LcelError I I :=
  let invoke (input : I) (_ : Config) : P (result LcelError I) := mret (Ok input) in
  mkRunnable invoke (default_batch invoke) (default_batch_as_completed invoke)
    (fun input _ => mret (Ok (Stream.once (Ok input))))
    (fun input _ => mret (Ok input)).

(** ** Sequences *)

Record RunnableSequence (I O : Ty) := mkSequence { steps : list RunnableAny }.
#[global] Arguments mkSequence {I O}. #[global] Arguments steps {I O}.

Section sequence.
Context {I O : Ty}.

Definition from_single {E} `{!IntoLcel E} (r : Runnable E (den I) (den O)) : RunnableSequence I O :=
  mkSequence [into_runnable_any r].
Definition from_pair {M : Ty} {E1 E2} `{!IntoLcel E1, !IntoLcel E2} (first : Runnable E1 (den I) (den M))
    (second : Runnable E2 (den M) (den O)) : RunnableSequence I O :=
  mkSequence [into_runnable_any first; into_runnable_any second].
Definition pipe {O2 : Ty} {E} `{!IntoLcel E} (self : RunnableSequence I O) (other : Runnable E (den O) (den O2))
    : RunnableSequence I O2 :=
  mkSequence (steps self ++ [into_runnable_any other]).
Definition sequence_len (self : RunnableSequence I O) : nat := length (steps self).
Definition sequence_is_empty (self : RunnableSequence I O) : bool := length (steps self) =? 0.

Fixpoint invoke_steps (steps : list RunnableAny) (current : Any) (config : Config) : P (result LcelError Any) :=
  match steps with
  | [] => mret (Ok current)
  | step :: steps => current ←? invoke_any step current config; invoke_steps steps current config
  end.

Fixpoint batch_steps (steps : list RunnableAny) (current : list Any) (config : Config)
    : P (result LcelError (list Any)) :=
  match steps with
  | [] => mret (Ok current)
  | step :: steps => current ←? batch_any step current config; batch_steps steps current config
  end.

Fixpoint transform_steps (steps : list RunnableAny) (current : Items Any) (config : Config)
    : P (result LcelError (Items Any)) :=
  match steps with
  | [] => mret (Ok current)
  | step :: steps => current ←? transform_any step current config; transform_steps steps current config
  end.

Definition sequence_invoke (self : RunnableSequence I O) (input : den I) (config : Config)
    : P (result LcelError (den O)) :=
  current ←? invoke_steps (steps self) (box input) config;
  unbox ("final downcast failed: expected " +:+ type_name O) current.

Definition sequence_batch (self : RunnableSequence I O) (inputs : list (den I)) (config : Config)
    : P (result LcelError (list (den O))) :=
  current ←? batch_steps (steps self) (list_fmap _ _ box inputs) config;
  mret (expect_all ("batch final downcast: expected " +:+ type_name O) O current).

Definition sequence_stream (self : RunnableSequence I O) (input : den I) (config : Config)
    : P (result LcelError (Items (den O))) :=
  match steps self with
  | [] => mret (Ok Done)
  | first :: rest =>
      current_stream ←? stream_any first (box input) config;
      current_stream ←? transform_steps rest current_stream config;
      mret (Ok (Stream.map (unbox_item ("stream final downcast: expected " +:+ type_name O)) current_stream))
  end.

Definition sequence_transform (self : RunnableSequence I O) (input : Items (den I)) (config : Config)
    : P (result LcelError (Items (den O))) :=
  current_stream ←? transform_steps (steps self) (Stream.map box_item input) config;
  mret (Ok (Stream.map (unbox_item ("transform final downcast: expected " +:+ type_name O)) current_stream)).

Definition sequence_runnable (self : RunnableSequence I O) : Run_ I O :=
  mkRunnable (sequence_invoke self) (sequence_batch self) (default_batch_as_completed (sequence_invoke self))
    (sequence_stream self) (sequence_transform self).
End sequence.

(** ** Branches *)

Record RunnableBranch (I O : Ty) := mkBranch {
  branches : list (RunnableAny * RunnableAny);
  branch_default : RunnableAny;
}.
#[global] Arguments mkBranch {I O}. #[global] Arguments branches {I O}. #[global] Arguments branch_default {I O}.

Section branch.
Context {I O : Ty}.

Definition branch_new {E} `{!IntoLcel E} (default : Runnable E (den I) (den O)) : RunnableBranch I O :=
  mkBranch [] (into_runnable_any default).
Definition when {E1 E2} `{!IntoLcel E1, !IntoLcel E2} (condition : Runnable E1 (den I) (den BoolTy))
    (branch : Runnable E2 (den I) (den O)) (self : RunnableBranch I O) : RunnableBranch I O :=
  mkBranch (branches self ++ [(into_runnable_any condition, into_runnable_any branch)]) (branch_default self).
Definition when_fn {E} `{!IntoLcel E} (condition : den I -> bool) (branch : Runnable E (den I) (den O))
    (self : RunnableBranch I O) : RunnableBranch I O :=
  when (lambda_runnable (new_sync (O := den BoolTy) condition)) branch self.

Fixpoint try_branches (branches : list (RunnableAny * RunnableAny)) (default : RunnableAny) (input : den I)
    (config : Config) : P (result LcelError (den O)) :=
  match branches with
  | [] =>
      result ←? invoke_any default (box input) config;
      unbox ("branch default output downcast: expected " +:+ type_name O) result
  | (condition, branch) :: branches =>
      cond_result ←? invoke_any condition (box input) config;
      matches ←? unbox (O := BoolTy) "branch condition must return bool" cond_result;
      if matches : bool then
        result ←? invoke_any branch (box input) config;
        unbox ("branch output downcast: expected " +:+ type_name O) result
      else try_branches branches default input config
  end.

Definition branch_invoke (self : RunnableBranch I O) : den I -> Config -> P (result LcelError (den O)) :=
  try_branches (branches self) (branch_default self).

Definition branch_runnable (self : RunnableBranch I O) : Run_ I O :=
  let invoke := branch_invoke self in
  mkRunnable invoke (default_batch invoke) (default_batch_as_completed invoke) (default_stream invoke)
    (default_transform (default_stream invoke)).
End branch.

(** ** Fallbacks *)

Record RunnableWithFallbacks (I O : Ty) := mkFallbacks {
  primary : RunnableAny;
  fallbacks : list RunnableAny;
}.
#[global] Arguments mkFallbacks {I O}. #[global] Arguments primary {I O}. #[global] Arguments fallbacks {I O}.

Section fallback.
Context {I O : Ty}.

Definition with_fallbacks {E1 E2} `{!IntoLcel E1, !IntoLcel E2} (self : Runnable E1 (den I) (den O))
    (fallbacks : list (Runnable E2 (den I) (den O))) : RunnableWithFallbacks I O :=
  mkFallbacks (into_runnable_any self) (into_runnable_any <$> fallbacks).
Definition fallback_count (self : RunnableWithFallbacks I O) : nat := length (fallbacks self).

(** The first fallback that succeeds, or the primary's error. *)
Fixpoint try_fallbacks {A B} (call : RunnableAny -> P (result LcelError A))
    (finish : A -> P (result LcelError B)) (fallbacks : list RunnableAny) (primary_error : LcelError)
    : P (result LcelError B) :=
  match fallbacks with
  | [] => mret (Err primary_error)
  | fallback :: fallbacks =>
      r ← call fallback;
      match r with
      | Ok a => finish a
      | Err e => try_fallbacks call finish fallbacks primary_error
      end
  end.

Definition try_all (self : RunnableWithFallbacks I O) (input : den I) (config : Config)
    : P (result LcelError (den O)) :=
  r ← invoke_any (primary self) (box input) config;
  match r with
  | Ok result => unbox ("fallback primary output downcast: expected " +:+ type_name O) result
  | Err primary_error =>
      try_fallbacks (fun f => invoke_any f (box input) config)
        (unbox ("fallback output downcast: expected " +:+ type_name O)) (fallbacks self) primary_error
  end.

Definition fallback_items (s : Items Any) : P (result LcelError (Items (den O))) :=
  mret (Ok (Stream.map (unbox_item ("fallback stream downcast: expected " +:+ type_name O)) s)).

Definition fallback_stream (self : RunnableWithFallbacks I O) (input : den I) (config : Config)
    : P (result LcelError (Items (den O))) :=
  r ← stream_any (primary self) (box input) config;
  match r with
  | Ok s => fallback_items s
  | Err primary_error =>
      try_fallbacks (fun f => stream_any f (box input) config) fallback_items (fallbacks self) primary_error
  end.

(** One call after the other; the first error ends the batch. *)
Fixpoint invoke_each {I O} (invoke : I -> Config -> P (result LcelError O)) (inputs : list I) (config : Config)
    : P (result LcelError (list O)) :=
  match inputs with
  | [] => mret (Ok [])
  | input :: inputs =>
      result ←? invoke input config;
      results ←? invoke_each invoke inputs config;
      mret (Ok (result :: results))
  end.

(** Reading a stream up to its first error. *)
Fixpoint collect_ok {A} (s : Items A) : P (result LcelError (list A)) :=
  match s with
  | Done => mret (Ok [])
  | Item (Err e) _ => mret (Err e)
  | Item (Ok a) rest => l ←? collect_ok rest; mret (Ok (a :: l))
  | Pending k => Await (fun w => let '(s, w) := k w in (collect_ok s, w))
  end.

Fixpoint invoke_all {I O} (invoke : I -> Config -> P (result LcelError O)) (inputs : list I) (config : Config)
    : P (list (result LcelError O)) :=
  match inputs with
  | [] => mret []
  | input :: inputs =>
      r ← invoke input config;
      rs ← invoke_all invoke inputs config;
      mret (r :: rs)
  end.

Definition fallback_transform (self : RunnableWithFallbacks I O) (input : Items (den I)) (config : Config)
    : P (result LcelError (Items (den O))) :=
  items ←? collect_ok input;
  results ← invoke_all (try_all self) items config;
  mret (Ok (Stream.iter results)).

Definition fallback_runnable (self : RunnableWithFallbacks I O) : Run_ I O :=
  mkRunnable (try_all self) (invoke_each (try_all self)) (default_batch_as_completed (try_all self))
    (fallback_stream self) (fallback_transform self).
End fallback.

End lcel.
