(* ===== verification/LcelMaps.v ===== *)
(** * The combinators over objects and configurations ([crates/lc-core/src/runnables]:
      [parallel.rs], [assign.rs], [pick.rs], [binding.rs], [configurable.rs]) *)

From stdpp Require Import gmap strings list pretty.
From Stdlib Require Import SpecFloat.
From S2P Require Import Prelude Json PromptTemplate Process Pool Runnable Lcel.

(** ** Numbers of a JSON value *)

(** [Number::as_f64] and [f64 as f32] round to nearest. *)
Definition f64_of_Z (z : Z) : spec_float := binary_normalize 53 1024 z 0 false.
Definition as_f64 (n : Number) : option spec_float :=
  match n with PosInt n => Some (f64_of_Z (Z.of_N n)) | NegInt z => Some (f64_of_Z z) | Float f => Some f end.
Definition as_u64 (n : Number) : option N := match n with PosInt n => Some n | _ => None end.
Definition as_f32 (f : spec_float) : spec_float :=
  match f with
  | S754_finite s m e => binary_normalize 24 128 (if s then Zneg m else Zpos m) e s
  | _ => f
  end.

Section maps.
Context `{H : Host} `{R : !Runtime World} `{N : !TypeNames}.

Notation P := (Proc World).
Notation Config := (option RunnableConfig).
Notation Items A := (Stream World (result LcelError A)).
Notation Run_ I O := (Runnable LcelError (den I) (den O)).

(** ** Parallel *)

Definition ParallelStep (I : Ty) : Type := den I -> Config -> P (result LcelError JsonValue).

(** [ParallelStepImpl] *)
Definition parallel_step {I O : Ty} {E} `{!IntoLcel E} (inner : Runnable E (den I) (den O)) : ParallelStep I :=
  fun input config =>
    r ← invoke inner input config;
    mret (match r with
          | Err e => Err (into e)
          | Ok output =>
              match to_value output with
              | Ok v => Ok v
              | Err e => Err (LcelOther ("parallel serialization: " +:+ e))
              end
          end).

Record RunnableParallel (I : Ty) := mkParallel { parallel_steps : list (string * ParallelStep I) }.
#[global] Arguments mkParallel {I}. #[global] Arguments parallel_steps {I}.

Section parallel.
Context {I : Ty}.

Definition parallel_new : RunnableParallel I := mkParallel [].
Definition parallel_with {O : Ty} {E} `{!IntoLcel E} (key : string) (runnable : Runnable E (den I) (den O))
    (self : RunnableParallel I) : RunnableParallel I :=
  mkParallel (parallel_steps self ++ [(key, parallel_step runnable)]).
Definition parallel_len (self : RunnableParallel I) : nat := length (parallel_steps self).

(** Every task is awaited; the results are taken in the order of the steps. *)
Definition collect_all {A} (i : nat) (r : result LcelError A) (w : World) (slots : Slots LcelError A)
    : Slots LcelError A + result LcelError (list A) := inl (<[i := Some r]> slots).

Definition parallel_task (input : den I) (config : Config) (kv : string * ParallelStep I)
    : P (result LcelError (string * JsonValue)) :=
  value ←? kv.2 input config;
  mret (Ok (kv.1, value)).

(** Later steps with the same key win. *)
Definition insert_all (results : list (string * JsonValue)) : gmap string JsonValue :=
  foldl (fun m kv => <[kv.1 := kv.2]> m) ∅ results.

Definition parallel_invoke (self : RunnableParallel I) (input : den I) (config : Config)
    : P (result LcelError (den MapTy)) :=
  results ←? join_set (RunnableConfig.limit config (length (parallel_steps self))) collect_all collect_slots
    (parallel_task input config <$> parallel_steps self) (replicate (length (parallel_steps self)) None);
  mret (Ok (insert_all results)).

(** All inputs are run; the first error in the order of the inputs is the answer. *)
Definition parallel_batch (self : RunnableParallel I) (inputs : list (den I)) (config : Config)
    : P (result LcelError (list (den MapTy))) :=
  match inputs with
  | [] => mret (Ok [])
  | _ =>
      join_set (Nat.min (RunnableConfig.limit config (length inputs)) (length inputs)) collect_all collect_slots
        ((fun input => parallel_invoke self input config) <$> inputs) (replicate (length inputs) None)
  end.

Definition parallel_runnable (self : RunnableParallel I) : Run_ I MapTy :=
  let invoke := parallel_invoke self in
  mkRunnable invoke (parallel_batch self) (default_batch_as_completed invoke) (default_stream invoke)
    (default_transform (default_stream invoke)).
End parallel.

(** ** Assign *)

Record RunnableAssign := mkAssign { mappings : list (string * RunnableAny) }.

(** [AssignStepWrapper] *)
Definition assign_step {O : Ty} {E} `{!IntoLcel E} (inner : Runnable E (den MapTy) (den O)) : Run_ MapTy ValueTy :=
  of_invoke (fun input config =>
    r ← invoke inner input config;
    mret (match r with
          | Err e => Err (into e)
          | Ok output =>
              match to_value output with
              | Ok v => Ok (v : den ValueTy)
              | Err e => Err (LcelOther ("assign serialization: " +:+ e))
              end
          end)).

Definition assign_new : RunnableAssign := mkAssign [].
Definition assign_with {O : Ty} {E} `{!IntoLcel E} (key : string) (runnable : Runnable E (den MapTy) (den O))
    (self : RunnableAssign) : RunnableAssign :=
  mkAssign (mappings self ++ [(key, into_runnable_any (assign_step runnable))]).

(** Each mapping reads the object the ones before it have extended. *)
Fixpoint assign_from (mappings : list (string * RunnableAny)) (input : gmap string JsonValue) (config : Config)
    : P (result LcelError (den MapTy)) :=
  match mappings with
  | [] => mret (Ok (input : den MapTy))
  | (key, step) :: mappings =>
      result ←? invoke_any step (@box _ MapTy input) config;
      value ←? unbox (O := ValueTy)
        ("assign step output downcast: expected Value, got unknown type for key '" +:+ key +:+ "'") result;
      assign_from mappings (<[key := value]> input) config
  end.

Definition assign_invoke (self : RunnableAssign) (input : den MapTy) (config : Config)
    : P (result LcelError (den MapTy)) :=
  assign_from (mappings self) input config.

Definition assign_runnable (self : RunnableAssign) : Run_ MapTy MapTy :=
  let invoke := assign_invoke self in
  mkRunnable invoke (invoke_each invoke) (default_batch_as_completed invoke) (default_stream invoke)
    (default_transform (default_stream invoke)).

(** [RunnableParallel::assign] *)
Definition parallel_assign {I O : Ty} {E} `{!IntoLcel E} (key : string) (runnable : Runnable E (den MapTy) (den O))
    (self : RunnableParallel I) : RunnableSequence I MapTy :=
  from_pair (parallel_runnable self) (assign_runnable (assign_with key runnable assign_new)).

(** ** Pick *)

Definition pick_keys (keys : list string) (m : gmap string JsonValue) : gmap string JsonValue :=
  foldl (fun picked k => match m !! k with Some v => <[k := v]> picked | None => picked end) ∅ keys.
Definition pluck_key (key : string) (m : gmap string JsonValue) : JsonValue := default JNull (m !! key).

Definition pick {I : Ty} {E} `{!IntoLcel E} (keys : list string) (self : Runnable E (den I) (den MapTy))
    : RunnableSequence I MapTy :=
  from_pair self (lambda_runnable (new_sync (O := den MapTy) (pick_keys keys))).
Definition pluck {I : Ty} {E} `{!IntoLcel E} (key : string) (self : Runnable E (den I) (den MapTy))
    : RunnableSequence I ValueTy :=
  from_pair self (lambda_runnable (new_sync (O := den ValueTy) (pluck_key key))).

(** ** Bindings *)

(** The sampling overrides the providers read; everything else is metadata. *)
Definition apply_field (base : RunnableConfig) (kv : string * JsonValue) : RunnableConfig :=
  let '(key, value) := kv in
  let as_metadata := RunnableConfig.with_metadata key value base in
  match value with
  | JNumber n =>
      if key =ₛ "temperature" then
        match as_f64 n with Some f => RunnableConfig.with_temperature (as_f32 f) base | None => as_metadata end
      else if key =ₛ "max_tokens" then
        match as_u64 n with Some u => RunnableConfig.with_max_tokens u base | None => as_metadata end
      else as_metadata
  | _ => as_metadata
  end.

(** A [HashMap] is iterated in some order. *)
Definition apply_fields (fields : list (string * JsonValue)) (base : RunnableConfig) : RunnableConfig :=
  foldl apply_field base fields.

(** A combinator that changes the configuration and calls one part. *)
Section delegate.
Context {I O : Ty} (name invoked : string) (select : Config -> RunnableAny * Config).

Definition delegate_invoke (input : den I) (config : Config) : P (result LcelError (den O)) :=
  let '(target, config) := select config in
  result ←? invoke_any target (box input) config;
  unbox (name +:+ " " +:+ invoked +:+ " downcast: expected " +:+ type_name O) result.

Definition delegate_batch (inputs : list (den I)) (config : Config) : P (result LcelError (list (den O))) :=
  let '(target, config) := select config in
  results ←? batch_any target (list_fmap _ _ box inputs) config;
  mret (expect_all (name +:+ " batch downcast: expected " +:+ type_name O) O results).

Definition delegate_stream (input : den I) (config : Config) : P (result LcelError (Items (den O))) :=
  let '(target, config) := select config in
  s ←? stream_any target (box input) config;
  mret (Ok (Stream.map (unbox_item (name +:+ " stream downcast: expected " +:+ type_name O)) s)).

Definition delegate_transform (input : Items (den I)) (config : Config) : P (result LcelError (Items (den O))) :=
  let '(target, config) := select config in
  s ←? transform_any target (Stream.map box_item input) config;
  mret (Ok (Stream.map (unbox_item (name +:+ " transform downcast: expected " +:+ type_name O)) s)).

Definition delegate_runnable : Run_ I O :=
  mkRunnable delegate_invoke delegate_batch (default_batch_as_completed delegate_invoke) delegate_stream
    delegate_transform.
End delegate.

Record RunnableBinding (I O : Ty) := mkBinding {
  bound : RunnableAny;
  kwargs : gmap string JsonValue;
  bound_config : RunnableConfig;
}.
#[global] Arguments mkBinding {I O}. #[global] Arguments bound {I O}. #[global] Arguments kwargs {I O}.
#[global] Arguments bound_config {I O}.

Section binding.
Context {I O : Ty}.

Definition binding_new {E} `{!IntoLcel E} (runnable : Runnable E (den I) (den O)) : RunnableBinding I O :=
  mkBinding (into_runnable_any runnable) ∅ RunnableConfig.new.
Definition bind_kwarg (key : string) (value : JsonValue) (self : RunnableBinding I O) : RunnableBinding I O :=
  mkBinding (bound self) (<[key := value]> (kwargs self)) (bound_config self).
Definition with_config (config : RunnableConfig) (self : RunnableBinding I O) : RunnableBinding I O :=
  mkBinding (bound self) (kwargs self) config.

Definition merged_config (self : RunnableBinding I O) (invocation_config : Config) : RunnableConfig :=
  let base := apply_fields (map_to_list (kwargs self)) (bound_config self) in
  match invocation_config with Some inv => RunnableConfig.merge base inv | None => base end.

Definition binding_runnable (self : RunnableBinding I O) : Run_ I O :=
  delegate_runnable "binding" "output" (fun config => (bound self, Some (merged_config self config))).
End binding.

(** ** Configurables *)

Record RunnableConfigurable (I O : Ty) := mkConfigurable {
  configurable_default : RunnableAny;
  alternatives : list (string * RunnableAny);
  which : string;
  default_key : string;
}.
#[global] Arguments mkConfigurable {I O}. #[global] Arguments configurable_default {I O}.
#[global] Arguments alternatives {I O}. #[global] Arguments which {I O}. #[global] Arguments default_key {I O}.

Section configurable.
Context {I O : Ty}.

Definition configurable_new {E} `{!IntoLcel E} (default : Runnable E (den I) (den O)) (which default_key : string)
    : RunnableConfigurable I O :=
  mkConfigurable (into_runnable_any default) [] which default_key.
Definition with_alternative {E} `{!IntoLcel E} (name : string) (runnable : Runnable E (den I) (den O))
    (self : RunnableConfigurable I O) : RunnableConfigurable I O :=
  mkConfigurable (configurable_default self) (alternatives self ++ [(name, into_runnable_any runnable)])
    (which self) (default_key self).

Definition resolve (self : RunnableConfigurable I O) (config : Config) : RunnableAny :=
  match (config ≫= RunnableConfig.configurable_value (which self)) ≫= as_str with
  | Some name =>
      if name =ₛ default_key self then configurable_default self
      else match List.find (fun kr => kr.1 =ₛ name) (alternatives self) with
           | Some (_, r) => r
           | None => configurable_default self
           end
  | None => configurable_default self
  end.

Definition configurable_runnable (self : RunnableConfigurable I O) : Run_ I O :=
  delegate_runnable "configurable" "invoke" (fun config => (resolve self config, config)).

(** [RunnableConfigurableFields] *)
Definition effective_config (config : Config) : RunnableConfig :=
  let effective := default RunnableConfig.new config in
  apply_fields (map_to_list (configurable effective)) effective.

Definition configurable_fields (inner : RunnableAny) : Run_ I O :=
  delegate_runnable "configurable_fields" "invoke" (fun config => (inner, Some (effective_config config))).
End configurable.
End maps.
