(* ===== verification/Retry.v ===== *)
(** * Retrying a runnable ([crates/lc-core/src/runnables/retry.rs])

    Durations are nanoseconds.  The floating-point arithmetic of the delays is IEEE 754
    double precision; [powi], whose rounding the standard library leaves open, the
    Unicode tables and the display forms are parameters.  A delay that does not fit a
    [Duration], which takes a [max_delay] of 2^64 seconds, panics; the model sleeps for
    the longest duration. *)

From stdpp Require Import gmap strings list pretty.
From Stdlib Require Import SpecFloat.
From S2P Require Import Prelude Json PromptTemplate TemplateParser Process Pool Runnable Lcel TextSplitter.

(** ** Durations and floats *)

Definition NANOS_PER_SEC : N := 10 ^ 9.
Definition MAX_NANOS : N := 2 ^ 64 * NANOS_PER_SEC - 1.

Definition f64_of_N (n : N) : spec_float := binary_normalize 53 1024 (Z.of_N n) 0 false.

(** [Duration::as_secs_f64] *)
Definition as_secs_f64 (d : N) : spec_float :=
  SFadd 53 1024 (f64_of_N (d / NANOS_PER_SEC)) (SFdiv 53 1024 (f64_of_N (d mod NANOS_PER_SEC)) (f64_of_N NANOS_PER_SEC)).

(** Division rounded to nearest, ties to even. *)
Definition round_div (n d : N) : N :=
  let q := (n / d)%N in
  match (2 * (n mod d) ?= d)%N with Lt => q | Gt => q + 1 | Eq => q + q mod 2 end.

(** [Duration::from_secs_f64], [None] where it panics. *)
Definition from_secs_f64 (f : spec_float) : option N :=
  match f with
  | S754_zero _ => Some 0%N
  | S754_finite false m e =>
      let d := match e with
               | Zneg p => round_div (Npos m * NANOS_PER_SEC) (2 ^ Npos p)
               | _ => (Npos m * 2 ^ Z.to_N e * NANOS_PER_SEC)%N
               end in
      if (d <=? MAX_NANOS)%N then Some d else None
  | _ => None
  end.

Definition is_nan_f (f : spec_float) : bool := match f with S754_nan => true | _ => false end.
Definition is_finite (f : spec_float) : bool := match f with S754_zero _ | S754_finite _ _ _ => true | _ => false end.

(** [f64::max] and [f64::min] ignore a NaN. *)
Definition f64_max (a b : spec_float) : spec_float :=
  if is_nan_f a then b else if is_nan_f b then a else if SFltb a b then b else a.
Definition f64_min (a b : spec_float) : spec_float :=
  if is_nan_f a then b else if is_nan_f b then a else if SFltb b a then b else a.

(** [usize as i32] *)
Definition as_i32 (n : nat) : Z :=
  let z := (Z.of_nat n mod 2 ^ 32)%Z in if (z <? 2 ^ 31)%Z then z else (z - 2 ^ 32)%Z.

Class RetryText := {
  to_lowercase : string -> string;
  powi : spec_float -> Z -> spec_float;
  debug_duration : N -> string;
  display_f64 : spec_float -> string;
}.

(** ** The configuration *)

Inductive RetryOn : Type :=
| AllErrors
| TransientErrors
| Custom (predicate : string -> bool).

Record RetryConfig := mkRetryConfig {
  max_retries : nat;
  initial_delay : N;
  max_delay : N;
  backoff_multiplier : spec_float;
  retry_on : RetryOn;
}.

Module RetryConfig.
Definition default : RetryConfig := mkRetryConfig 3 (500 * 10 ^ 6) (10 * 10 ^ 9) (f64_of_N 2) TransientErrors.
Definition new (max_retries : nat) : RetryConfig :=
  mkRetryConfig max_retries (initial_delay default) (max_delay default) (backoff_multiplier default) (retry_on default).
Definition with_initial_delay (d : N) (c : RetryConfig) : RetryConfig :=
  mkRetryConfig (max_retries c) d (max_delay c) (backoff_multiplier c) (retry_on c).
Definition with_max_delay (d : N) (c : RetryConfig) : RetryConfig :=
  mkRetryConfig (max_retries c) (initial_delay c) d (backoff_multiplier c) (retry_on c).
Definition with_backoff_multiplier (m : spec_float) (c : RetryConfig) : RetryConfig :=
  mkRetryConfig (max_retries c) (initial_delay c) (max_delay c) m (retry_on c).
Definition with_retry_on (r : RetryOn) (c : RetryConfig) : RetryConfig :=
  mkRetryConfig (max_retries c) (initial_delay c) (max_delay c) (backoff_multiplier c) r.

Section config.
Context `{T : RetryText} `{U : Unicode}.

Definition validate (self : RetryConfig) : result string () :=
  if negb (is_finite (backoff_multiplier self)) || SFleb (backoff_multiplier self) (S754_zero false) then
    Err ("backoff_multiplier must be a finite, positive number, got " +:+ display_f64 (backoff_multiplier self))
  else if (max_delay self <? initial_delay self)%N then
    Err ("max_delay (" +:+ debug_duration (max_delay self) +:+ ") must be at least initial_delay ("
         +:+ debug_duration (initial_delay self) +:+ ")")
  else Ok ().
End config.
End RetryConfig.

Section retry.
Context `{T : RetryText} `{U : Unicode}.

(** The words of a text: the parts between characters that are not alphanumeric. *)
Fixpoint words (word t : Text) : list Text :=
  match t with
  | [] => [word]
  | c :: t => if is_alphanumeric c then words (word ++ [c]) t else word :: words [] t
  end.

Definition retriable_codes : list string := ["429"; "500"; "502"; "503"; "504"].

Definition transient_patterns : list string :=
  ["rate limit"; "rate_limit"; "ratelimit"; "too many requests"; "timeout"; "timed out"; "connection reset";
   "connection refused"; "temporary failure"; "service unavailable"; "internal server error"; "overloaded";
   "capacity"].

Definition is_transient_error (error : string) : bool :=
  let error_lower := chars (to_lowercase error) in
  existsb (fun code => existsb (fun t => bool_decide (t = chars code)) (words [] error_lower)) retriable_codes ||
  existsb (fun pattern => contains (chars pattern) error_lower) transient_patterns.

Definition should_retry (self : RetryConfig) (error : string) : bool :=
  match retry_on self with
  | AllErrors => true
  | TransientErrors => is_transient_error error
  | Custom predicate => predicate error
  end.

Definition delay_for_attempt (self : RetryConfig) (attempt : nat) : option N :=
  let multiplier := powi (backoff_multiplier self) (as_i32 attempt) in
  let delay := f64_max (SFmul 53 1024 (as_secs_f64 (initial_delay self)) multiplier) (S754_zero false) in
  let delay := f64_max (f64_min delay (as_secs_f64 (max_delay self))) (S754_zero false) in
  from_secs_f64 delay.

(** ** The runnable *)

Context `{H : Host} `{R : !Runtime World} `{N : !TypeNames}.

Notation P := (Proc World).
Notation Config := (option RunnableConfig).
Notation Items A := (Stream World (result LcelError A)).

Record RunnableRetry (I O : Ty) := mkRetry {
  runnable : RunnableAny;
  retry_config : RetryConfig;
}.
#[global] Arguments mkRetry {I O}. #[global] Arguments runnable {I O}. #[global] Arguments retry_config {I O}.

Definition retry_new {I O : Ty} (runnable : RunnableAny) (retry_config : RetryConfig) : result string (RunnableRetry I O) :=
  match RetryConfig.validate retry_config with Ok _ => Ok (mkRetry runnable retry_config) | Err e => Err e end.

Definition with_retry {I O : Ty} {E} `{!IntoLcel E} (self : Runnable E (den I) (den O)) (retry_config : RetryConfig)
    : result string (RunnableRetry I O) :=
  retry_new (into_runnable_any self) retry_config.

Definition operation_cancelled : LcelError := LcelOther "Operation cancelled".

(** [config.as_ref().is_some_and(is_cancelled)] *)
Definition config_cancelled (config : Config) : P bool :=
  match config with
  | Some c => call (fun w => (RunnableConfig.is_cancelled c w, w))
  | None => mret false
  end.

Definition delay_before (config : RetryConfig) (attempt : nat) : P () :=
  tell (sleep (default MAX_NANOS (delay_for_attempt config (attempt - 1)))).

(** The loop over the attempts, [more] of them after this one. *)
Fixpoint attempts {A B} (retry_config : RetryConfig) (call_once : P (result LcelError A))
    (finish : A -> P (result LcelError B)) (config : Config) (attempt more : nat) : P (result LcelError B) :=
  cancel ← (if 0 <? attempt then config_cancelled config else mret false);
  if (cancel : bool) then mret (Err operation_cancelled) else
  (if 0 <? attempt then delay_before retry_config attempt else mret ()) ;;
  r ← call_once;
  match r with
  | Ok a => finish a
  | Err e =>
      match more with
      | S more =>
          if should_retry retry_config (lcel_error_to_string e)
          then attempts retry_config call_once finish config (S attempt) more
          else mret (Err e)
      | 0 => mret (Err e)
      end
  end.

Definition retry_invoke {I O : Ty} (self : RunnableRetry I O) (input : den I) (config : Config)
    : P (result LcelError (den O)) :=
  cancel ← config_cancelled config;
  if (cancel : bool) then mret (Err operation_cancelled) else
  attempts (retry_config self) (invoke_any (runnable self) (box input) config)
    (fun result => mret (ok_or (downcast O result) (LcelOther "Type mismatch in retry result")))
    config 0 (max_retries (retry_config self)).

(** Only setting up the stream is retried; there is no check before the first attempt. *)
Definition retry_stream {I O : Ty} (self : RunnableRetry I O) (input : den I) (config : Config)
    : P (result LcelError (Items (den O))) :=
  attempts (retry_config self) (stream_any (runnable self) (box input) config)
    (fun s => mret (Ok (Stream.map
       (fun r => r ≫= fun a => ok_or (downcast O a) (LcelOther "Type mismatch in retry stream")) s)))
    config 0 (max_retries (retry_config self)).

Definition retry_runnable {I O : Ty} (self : RunnableRetry I O) : Runnable LcelError (den I) (den O) :=
  mkRunnable (retry_invoke self) (default_batch (retry_invoke self)) (default_batch_as_completed (retry_invoke self))
    (retry_stream self) (default_transform (retry_stream self)).
End retry.
