(* ===== verification/LcelFacts.v ===== *)
(** * Pipelines compose

    [pipe] is composition: whatever is built with [from_single] and [pipe] behaves, invoked,
    batched or streamed, as its typed steps one after the other ([sequence_composes]); the
    downcasts of the erased form never fail.  Streaming a pipeline whose steps do not
    override [stream] does what invoking it does ([plain_stream_invokes]). *)

From stdpp Require Import gmap strings list pretty.
From Stdlib Require Import FunctionalExtensionality.
From S2P Require Import Prelude Json PromptTemplate Process Pool Runnable Lcel.

(** ** Streams *)

Section streams.
Context {W : Type}.

(** Induction on what is left of a stream after its next poll. *)
Fixpoint stream_induction {R} (P : Stream W R -> Prop) (Hdone : P Done)
    (Hitem : forall r rest, P rest -> P (Item r rest))
    (Hpending : forall k, (forall w, P (k w).1) -> P (Pending k)) (s : Stream W R) : P s :=
  match s with
  | Done => Hdone
  | Item r rest => Hitem r rest (stream_induction P Hdone Hitem Hpending rest)
  | Pending k =>
      Hpending k (fun w => match k w as x return P x.1 with
                           | (s, w') => stream_induction P Hdone Hitem Hpending s
                           end)
  end.

(** Two pending streams that poll alike. *)
Lemma pending_ext {R} (k l : W -> Stream W R * W) : (forall w, k w = l w) -> Pending k = Pending l.
Proof. intros H. f_equal. by apply functional_extensionality. Qed.

Lemma stream_map_map {R T U} (f : R -> T) (g : T -> U) (s : Stream W R) :
  Stream.map g (Stream.map f s) = Stream.map (g ∘ f) s.
Proof.
  induction s as [|r rest IH|k IH] using stream_induction; simpl; [done|by rewrite IH|].
  apply pending_ext. intros w. specialize (IH w). destruct (k w). by rewrite -IH.
Qed.

Lemma stream_map_id {R} (f : R -> R) (s : Stream W R) : (forall r, f r = r) -> Stream.map f s = s.
Proof.
  intros Hf. induction s as [|r rest IH|k IH] using stream_induction; simpl; [done|by rewrite Hf IH|].
  apply pending_ext. intros w. specialize (IH w). destruct (k w). cbn in *. by rewrite IH.
Qed.

Lemma stream_map_ext {R T} (f g : R -> T) (s : Stream W R) : (forall r, f r = g r) -> Stream.map f s = Stream.map g s.
Proof. intros H. assert (f = g) as -> by (by apply functional_extensionality). done. Qed.

Lemma stream_map_append {R T} (f : R -> T) (s t : Stream W R) :
  Stream.map f (Stream.append s t) = Stream.append (Stream.map f s) (Stream.map f t).
Proof.
  induction s as [|r rest IH|k IH] using stream_induction; simpl; [done|by rewrite IH|].
  apply pending_ext. intros w. specialize (IH w). destruct (k w). cbn in *. by rewrite IH.
Qed.

Lemma stream_map_of_proc {A R T} (f : R -> T) (p : Proc W A) (g : A -> Stream W R) :
  Stream.map f (Stream.of_proc p g) = Stream.of_proc p (fun a => Stream.map f (g a)).
Proof.
  induction p as [a|k IH] using proc_induction; simpl; [done|].
  apply pending_ext. intros w. specialize (IH w). destruct (k w). cbn in *. by rewrite IH.
Qed.

Lemma of_proc_bind {A B R} (p : Proc W A) (f : A -> Proc W B) (g : B -> Stream W R) :
  Stream.of_proc (p ≫= f) g = Stream.of_proc p (fun a => Stream.of_proc (f a) g).
Proof.
  induction p as [a|k IH] using proc_induction; simpl; [done|].
  apply pending_ext. intros w. specialize (IH w). cbn in *. destruct (k w). cbn in *. by rewrite IH.
Qed.

Lemma of_proc_ext {A R} (p : Proc W A) (f g : A -> Stream W R) :
  (forall a, f a = g a) -> Stream.of_proc p f = Stream.of_proc p g.
Proof. intros H. assert (f = g) as -> by (by apply functional_extensionality). done. Qed.

(** *** Reading to the end *)

Lemma collect_append {R} (s t : Stream W R) :
  Stream.collect (Stream.append s t) ≡ₚᵣ (l ← Stream.collect s; l' ← Stream.collect t; mret (l ++ l')).
Proof.
  induction s as [|r rest IH|k IH] using stream_induction; cbn [Stream.append Stream.collect].
  - symmetry. apply bind_ret_r.
  - rewrite IH !bind_assoc. apply proc_bind_proper; [|done]. intros l. rewrite bind_assoc.
    rewrite (bind_ret_l (r :: l)). reflexivity.
  - intros w. specialize (IH w). cbn in *. by destruct (k w).
Qed.

Lemma collect_of_proc {A R} (p : Proc W A) (f : A -> Stream W R) :
  Stream.collect (Stream.of_proc p f) ≡ₚᵣ (a ← p; Stream.collect (f a)).
Proof.
  induction p as [a|k IH] using proc_induction; [reflexivity|].
  intros w. specialize (IH w). cbn in *. by destruct (k w).
Qed.

End streams.

(** ** Pipelines *)

Section pipelines.
Context `{H : Host} `{R : !Runtime World} `{N : !TypeNames}.

Notation P := (Proc World).
Notation Config := (option RunnableConfig).
Notation Items A := (Stream World (result LcelError A)).

(** A pipeline as the compiler sees it: the types of neighbouring steps agree. *)
Inductive Pipeline : Ty -> Ty -> Type :=
| Single {I O E} `{!IntoLcel E} (r : Runnable E (den I) (den O)) : Pipeline I O
| Then {I M O E} `{!IntoLcel E} (p : Pipeline I M) (r : Runnable E (den M) (den O)) : Pipeline I O.

(** What [from_single] and [pipe] build of it. *)
Fixpoint build {I O} (p : Pipeline I O) : RunnableSequence I O :=
  match p with
  | Single r => from_single r
  | Then p r => pipe (build p) r
  end.

(** *** The typed meaning of a pipeline *)

Definition lifted {E A} `{!IntoLcel E} (p : P (result E A)) : P (result LcelError A) :=
  r ← p; mret (map_err into r).

Fixpoint then_invoke {I O} (p : Pipeline I O) (config : Config) : den I -> P (result LcelError (den O)) :=
  match p with
  | Single r => fun x => lifted (invoke r x config)
  | Then p r => fun x => y ←? then_invoke p config x; lifted (invoke r y config)
  end.

Fixpoint then_batch {I O} (p : Pipeline I O) (config : Config) : list (den I) -> P (result LcelError (list (den O))) :=
  match p with
  | Single r => fun xs => lifted (batch r xs config)
  | Then p r => fun xs => ys ←? then_batch p config xs; lifted (batch r ys config)
  end.

Definition lift_items {E A} `{!IntoLcel E} (r : result E (Stream World (result E A))) : result LcelError (Items A) :=
  match r with Ok s => Ok (Stream.map (map_err into) s) | Err e => Err (into e) end.

Definition stream_lifted {E I O} `{!IntoLcel E} (r : Runnable E I O) (config : Config) (x : I)
    : P (result LcelError (Items O)) :=
  s ← stream r x config; mret (lift_items s).

Fixpoint then_stream {I O} (p : Pipeline I O) (config : Config) : den I -> P (result LcelError (Items (den O))) :=
  match p with
  | Single r => stream_lifted r config
  | Then p r => fun x => s ←? then_stream p config x; mret (Ok (elementwise (stream_lifted r config) s))
  end.

(** *** Type erasure *)

Lemma box_result_lifted {E t} `{!IntoLcel E} (r : result E (den t)) : box_result r = box_item (map_err into r).
Proof. by destruct r. Qed.

Lemma wrap_invoke_box {E I O} `{!IntoLcel E} (r : Runnable E (den I) (den O)) x config :
  invoke_any (into_runnable_any r) (box x) config ≡ₚᵣ (y ←? lifted (invoke r x config); mret (Ok (box y))).
Proof.
  cbn [into_runnable_any invoke_any]. unfold wrap_invoke_any. rewrite expect_box and_then_ok_l.
  unfold and_then, lifted. rewrite bind_assoc. apply proc_bind_proper; [|done]. by intros [y|e].
Qed.

Lemma expect_all_box {t} message (xs : list (den t)) : expect_all message t (list_fmap _ _ box xs) = Ok xs.
Proof. induction xs as [|x xs IH]; simpl; [done|]. by rewrite expect_box IH. Qed.

Lemma wrap_batch_box {E I O} `{!IntoLcel E} (r : Runnable E (den I) (den O)) xs config :
  batch_any (into_runnable_any r) (list_fmap _ _ box xs) config ≡ₚᵣ
  (ys ←? lifted (batch r xs config); mret (Ok (list_fmap _ _ box ys))).
Proof.
  cbn [into_runnable_any batch_any]. unfold wrap_batch_any. rewrite expect_all_box and_then_ok_l.
  unfold and_then, lifted. rewrite bind_assoc. apply proc_bind_proper; [|done]. by intros [y|e].
Qed.

Lemma invoke_steps_app l1 l2 a config :
  invoke_steps (l1 ++ l2) a config ≡ₚᵣ (b ←? invoke_steps l1 a config; invoke_steps l2 b config).
Proof.
  revert a. induction l1 as [|s l1 IH]; intros a; simpl; [done|]. rewrite and_then_assoc.
  apply and_then_proper; [done|]. intros b. apply IH.
Qed.

Lemma batch_steps_app l1 l2 a config :
  batch_steps (l1 ++ l2) a config ≡ₚᵣ (b ←? batch_steps l1 a config; batch_steps l2 b config).
Proof.
  revert a. induction l1 as [|s l1 IH]; intros a; simpl; [done|]. rewrite and_then_assoc.
  apply and_then_proper; [done|]. intros b. apply IH.
Qed.

Lemma transform_steps_app l1 l2 a config :
  transform_steps (l1 ++ l2) a config ≡ₚᵣ (b ←? transform_steps l1 a config; transform_steps l2 b config).
Proof.
  revert a. induction l1 as [|s l1 IH]; intros a; simpl; [done|]. rewrite and_then_assoc.
  apply and_then_proper; [done|]. intros b. apply IH.
Qed.

Lemma erased_invoke {I O} (p : Pipeline I O) x config :
  invoke_steps (steps (build p)) (box x) config ≡ₚᵣ (y ←? then_invoke p config x; mret (Ok (box y))).
Proof.
  induction p as [I O E ? r|I M O E ? p IH r]; cbn [build then_invoke from_single pipe steps].
  - cbn [invoke_steps]. rewrite and_then_ok_r. apply wrap_invoke_box.
  - rewrite invoke_steps_app IH !and_then_assoc. apply and_then_proper; [done|]. intros y.
    rewrite and_then_ok_l. cbn [invoke_steps]. rewrite and_then_ok_r. apply wrap_invoke_box.
Qed.

Lemma erased_batch {I O} (p : Pipeline I O) xs config :
  batch_steps (steps (build p)) (list_fmap _ _ box xs) config ≡ₚᵣ
  (ys ←? then_batch p config xs; mret (Ok (list_fmap _ _ box ys))).
Proof.
  induction p as [I O E ? r|I M O E ? p IH r]; cbn [build then_batch from_single pipe steps].
  - cbn [batch_steps]. rewrite and_then_ok_r. apply wrap_batch_box.
  - rewrite batch_steps_app IH !and_then_assoc. apply and_then_proper; [done|]. intros y.
    rewrite and_then_ok_l. cbn [batch_steps]. rewrite and_then_ok_r. apply wrap_batch_box.
Qed.

(** A step over erased items is the step over the items. *)
Lemma stream_item_box {E I O} `{!IntoLcel E} (r : Runnable E (den I) (den O)) config x :
  stream_item r config (box x) ≡ₚᵣ
  (s ← stream_lifted r config x;
   mret (match s with Ok s => Ok (Stream.map box_item s) | Err e => Err e end)).
Proof.
  unfold stream_item. rewrite expect_box and_then_ok_l. unfold stream_lifted. rewrite bind_assoc.
  apply proc_bind_proper; [|done]. intros [s|e]; [|done]. cbn. rewrite stream_map_map. f_equal.
  apply stream_map_ext. intros y. apply box_result_lifted.
Qed.

Lemma proc_eq_of_proc {A B} (p q : P A) (f : A -> Stream World B) :
  p ≡ₚᵣ q -> Stream.of_proc p f = Stream.of_proc q f.
Proof.
  revert q. induction p as [a|k IH] using proc_induction; intros [b|l] Heq; simpl in *; try done.
  - by subst.
  - apply pending_ext. intros w. destruct (Heq w) as [Hw Hp]. specialize (IH w _ Hp).
    destruct (k w), (l w). cbn in *. subst. by rewrite IH.
Qed.

Lemma elementwise_box {E I O} `{!IntoLcel E} (r : Runnable E (den I) (den O)) config (s : Items (den I)) :
  elementwise (stream_item r config) (Stream.map box_item s) =
  Stream.map box_item (elementwise (stream_lifted r config) s).
Proof.
  induction s as [|[x|e] rest IH|k IH] using stream_induction; simpl; [done| |done|].
  - rewrite (proc_eq_of_proc _ _ _ (stream_item_box r config x)) of_proc_bind stream_map_of_proc.
    apply of_proc_ext. intros [s|e]; cbn; [|done]. by rewrite stream_map_append IH.
  - apply pending_ext. intros w. specialize (IH w). destruct (k w). cbn in *. by rewrite IH.
Qed.

Lemma unbox_box_items {O : Ty} message (s : Items (den O)) :
  Stream.map (unbox_item message) (Stream.map box_item s) = s.
Proof.
  rewrite stream_map_map. apply stream_map_id. intros [x|e]; cbn; [apply expect_box|done].
Qed.

(** The stream that [transform_steps] is given, and what the pipeline makes of it. *)
Lemma erased_stream {I O} (p : Pipeline I O) x config :
  (match steps (build p) with
   | [] => mret (Ok Done)
   | first :: rest => s ←? stream_any first (box x) config; transform_steps rest s config
   end) ≡ₚᵣ (s ←? then_stream p config x; mret (Ok (Stream.map box_item s))).
Proof.
  induction p as [I O E ? r|I M O E ? p IH r]; cbn [build then_stream from_single pipe steps].
  - cbn [transform_steps]. rewrite and_then_ok_r. cbn [into_runnable_any stream_any]. unfold wrap_stream_any.
    rewrite expect_box and_then_ok_l. unfold and_then, stream_lifted. rewrite bind_assoc.
    apply proc_bind_proper; [|done]. intros [s|e]; [|done]. cbn. rewrite stream_map_map. f_equal.
    apply stream_map_ext. intros y. apply box_result_lifted.
  - destruct (steps (build p)) as [|first rest] eqn:Hs.
    { exfalso. clear -Hs. destruct p; [done|]. by apply app_nil in Hs as []. }
    cbn [app]. specialize (IH x). rewrite and_then_assoc.
    setoid_rewrite transform_steps_app. rewrite -and_then_assoc IH !and_then_assoc.
    apply and_then_proper; [done|]. intros s. rewrite !and_then_ok_l. cbn [transform_steps].
    rewrite and_then_ok_r. cbn [into_runnable_any transform_any]. unfold wrap_transform_any.
    by rewrite elementwise_box.
Qed.

Lemma typed_invoke {I O} (p : Pipeline I O) config x :
  invoke (sequence_runnable (build p)) x config ≡ₚᵣ then_invoke p config x.
Proof.
  cbn. unfold sequence_invoke. rewrite erased_invoke and_then_assoc -{2}(and_then_ok_r (then_invoke p config x)).
  apply and_then_proper; [done|]. intros y. rewrite and_then_ok_l. unfold unbox. by rewrite expect_box.
Qed.

Lemma typed_batch {I O} (p : Pipeline I O) config xs :
  batch (sequence_runnable (build p)) xs config ≡ₚᵣ then_batch p config xs.
Proof.
  cbn. unfold sequence_batch. rewrite erased_batch and_then_assoc -{2}(and_then_ok_r (then_batch p config xs)).
  apply and_then_proper; [done|]. intros ys. rewrite and_then_ok_l. by rewrite expect_all_box.
Qed.

Lemma typed_stream {I O} (p : Pipeline I O) config x :
  stream (sequence_runnable (build p)) x config ≡ₚᵣ then_stream p config x.
Proof.
  cbn. unfold sequence_stream. pose proof (erased_stream p x config) as He.
  rewrite -{1}(and_then_ok_r (then_stream p config x)).
  destruct (steps (build p)) as [|first rest] eqn:Hs.
  { exfalso. clear -Hs. destruct p; [done|]. by apply app_nil in Hs as []. }
  rewrite -and_then_assoc He and_then_assoc. apply and_then_proper; [done|]. intros s.
  rewrite and_then_ok_l. by rewrite unbox_box_items.
Qed.

(** C15: A pipeline is the composition of its steps: invoked, batched or streamed, what [from_single]
    and [pipe] build makes the calls of the typed steps in order, the output of each the
    input of the next, stops at the first error, and converts the errors of the steps; no
    downcast of the erased form fails. *)
Theorem sequence_composes {I O} (p : Pipeline I O) config :
  let r := sequence_runnable (build p) in
  (forall x, invoke r x config ≡ₚᵣ then_invoke p config x) /\
  (forall xs, batch r xs config ≡ₚᵣ then_batch p config xs) /\
  (forall x, stream r x config ≡ₚᵣ then_stream p config x).
Proof. split_and!; [apply typed_invoke|apply typed_batch|apply typed_stream]. Qed.

(** ** Streaming and invoking *)

(** No step of the pipeline overrides [stream]. *)
Fixpoint plain {I O} (p : Pipeline I O) : Prop :=
  match p with
  | Single r => forall x config, stream r x config ≡ₚᵣ default_stream (invoke r) x config
  | Then p r => plain p /\ forall x config, stream r x config ≡ₚᵣ default_stream (invoke r) x config
  end.

(** Reading a stream to its end: its items, or the first error. *)
Definition drain {A} (p : P (result LcelError (Items A))) : P (result LcelError (list A)) :=
  s ←? p; items ← Stream.collect s; mret (collect_slots (list_fmap _ _ Some items)).

#[export] Instance drain_proper {A} : Proper (proc_eq ==> proc_eq) (@drain A).
Proof. intros p q Heq. unfold drain. by rewrite Heq. Qed.

(** The stream of a process that answers one item. *)
Definition one_shot {A} (q : P (result LcelError A)) : Items A := Stream.of_proc q Stream.once.

Lemma stream_lifted_plain {E I O} `{!IntoLcel E} (r : Runnable E I O) config x :
  stream r x config ≡ₚᵣ default_stream (invoke r) x config ->
  stream_lifted r config x ≡ₚᵣ (y ←? lifted (invoke r x config); mret (Ok (Stream.once (Ok y)))).
Proof.
  intros Hr. unfold stream_lifted. rewrite Hr. unfold default_stream, and_then, lifted. rewrite !bind_assoc.
  apply proc_bind_proper; [|done]. by intros [y|e].
Qed.

Lemma elementwise_one_shot {A B} (f : A -> P (result LcelError (Items B))) (g : A -> P (result LcelError B)) q :
  (forall x, f x ≡ₚᵣ (y ←? g x; mret (Ok (Stream.once (Ok y))))) ->
  elementwise f (one_shot q) = one_shot (y ←? q; g y).
Proof.
  intros Hf. unfold one_shot. induction q as [[x|e]|k IH] using proc_induction; simpl; [|done|].
  - rewrite (proc_eq_of_proc _ _ _ (Hf x)) of_proc_bind. apply of_proc_ext. by intros [y|e].
  - apply pending_ext. intros w. specialize (IH w). cbn in *. destruct (k w). cbn in *. by rewrite IH.
Qed.

(** A plain pipeline is a first call, whose error is the answer of [stream], and the rest
    of the calls, made when the one item is read. *)
Lemma plain_one_shot {I O} (p : Pipeline I O) config x :
  plain p ->
  exists M (q : P (result LcelError M)) (f : M -> P (result LcelError (den O))),
    then_stream p config x ≡ₚᵣ (y ←? q; mret (Ok (one_shot (f y)))) /\
    then_invoke p config x ≡ₚᵣ (y ←? q; f y).
Proof.
  induction p as [I O E ? r|I M O E ? p IH r]; cbn [plain then_stream then_invoke].
  - intros Hr. exists (den O), (lifted (invoke r x config)), (fun y => mret (Ok y)). split.
    + by apply stream_lifted_plain.
    + symmetry. apply and_then_ok_r.
  - intros [(M' & q & f & Hs & Hi)%(IH x) Hr].
    exists M', q, (fun y => z ←? f y; lifted (invoke r z config)). split.
    + rewrite Hs and_then_assoc. apply and_then_proper; [done|]. intros y. rewrite and_then_ok_l.
      rewrite (elementwise_one_shot _ (fun z => lifted (invoke r z config))); [done|].
      intros z. by apply stream_lifted_plain.
    + by rewrite Hi and_then_assoc.
Qed.

(** Reading the stream of a pipeline to its end, when no step overrides [stream], makes
    the calls that invoking it makes and yields its output as the only item, or its error:
    the first step's as the answer of [stream] itself, a later one's inside the stream. *)
Theorem plain_stream_invokes {I O} (p : Pipeline I O) x config :
  plain p ->
  drain (stream (sequence_runnable (build p)) x config) ≡ₚᵣ
  (y ←? invoke (sequence_runnable (build p)) x config; mret (Ok [y])).
Proof.
  intros Hp. rewrite typed_invoke typed_stream.
  destruct (plain_one_shot p config x Hp) as (M & q & f & -> & ->). unfold drain.
  rewrite !and_then_assoc. apply and_then_proper; [done|]. intros y. rewrite and_then_ok_l.
  unfold one_shot. rewrite collect_of_proc. unfold and_then. rewrite bind_assoc.
  apply proc_bind_proper; [|done]. by intros [z|e].
Qed.

End pipelines.
