(* ===== verification/LcelPools.v ===== *)
(** * What concurrent calls come to

    [batch], [batch_as_completed] and [RunnableParallel] run calls concurrently.  Their
    results are determined by what the calls may answer, whatever the runtime and the
    interleaving: the outputs in the order of the inputs, or the first error in that
    order.  Calls that are functions of their input give a batch that is a function too
    ([batch_of_functions]). *)

From stdpp Require Import gmap strings list pretty.
From S2P Require Import Prelude Json PromptTemplate Process Pool Runnable Lcel LcelMaps.
From S2P Require Import TemplateParser LcelFacts Retry.
From Stdlib Require Import SpecFloat.

Section pools.
Context `{H : Host} `{R : !Runtime World}.

Notation P := (Proc World).
Notation Config := (option RunnableConfig).

Section slots.
Context {E O : Type} (Phis : list (result E O -> Prop)).

(** The outputs of all, or the error of one whose predecessors have succeeded. *)
Definition in_order_outcome (o : result E (list O)) : Prop :=
  match o with
  | Ok outs => Forall2 (fun (Phi : result E O -> Prop) y => Phi (Ok y)) Phis outs
  | Err e =>
      exists i Phi, Phis !! i = Some Phi /\ Phi (Err e) /\
        forall j Psi, j < i -> Phis !! j = Some Psi -> exists y, Psi (Ok y)
  end.

(** The collector's invariant: a slot is filled when its call is joined, with a result of it. *)
Definition slots_inv (ms : list (Member World (result E O))) (slots : Slots E O) : Prop :=
  length slots = length Phis /\
  (forall i, ms !! i = Some Joined <-> exists r, slots !! i = Some (Some r)) /\
  (forall i r, slots !! i = Some (Some r) -> exists Phi, Phis !! i = Some Phi /\ Phi r).

Lemma slots_inv_start (ps : list (P (result E O))) : slots_inv (Queued <$> ps) (replicate (length Phis) None).
Proof.
  split; [apply length_replicate|]. split.
  - intros i. rewrite list_lookup_fmap. split; [by destruct (ps !! i)|].
    intros (r & [Hr _]%lookup_replicate). done.
  - by intros i r [Hr _]%lookup_replicate.
Qed.

Lemma slots_inv_move ms slots i m m' :
  slots_inv ms slots -> ms !! i = Some m -> is_joined m = false -> is_joined m' = false ->
  slots_inv (<[i := m']> ms) slots.
Proof.
  intros (Hl & Hj & Hr) Hi Hm Hm'. split; [done|]. split; [|done]. intros j. rewrite -Hj.
  destruct (decide (i = j)) as [<-|Hij].
  - rewrite list_lookup_insert_eq; [|by eapply lookup_lt_Some]. rewrite Hi. by destruct m, m'.
  - by rewrite list_lookup_insert_ne.
Qed.

Lemma slots_inv_join ms slots i Phi r :
  slots_inv ms slots -> Phis !! i = Some Phi -> Phi r -> ms !! i = Some (Completed r) ->
  slots_inv (<[i := Joined]> ms) (<[i := Some r]> slots).
Proof.
  intros (Hl & Hj & Hr) HPhi Hphi Hi.
  assert (i < length slots) by (rewrite Hl; by eapply lookup_lt_Some).
  split; [by rewrite length_insert|]. split; intros j.
  - destruct (decide (i = j)) as [<-|Hij].
    + rewrite !list_lookup_insert_eq; [naive_solver|done|by eapply lookup_lt_Some].
    + rewrite !list_lookup_insert_ne //.
  - intros r'. destruct (decide (i = j)) as [<-|Hij].
    + rewrite list_lookup_insert_eq; [|done]. intros [= <-]. by exists Phi.
    + rewrite list_lookup_insert_ne; [|done]. apply Hr.
Qed.

(** The slots when all calls are joined. *)
Lemma slots_inv_full ms slots :
  slots_inv ms slots -> length ms = length Phis -> forallb is_joined ms = true ->
  Forall2 (fun (Phi : result E O -> Prop) s => exists r, s = Some r /\ Phi r) Phis slots.
Proof.
  intros (Hl & Hj & Hr) Hlen Hall. apply Forall2_same_length_lookup. split; [done|].
  intros i Phi s HPhi Hs. destruct (lookup_lt_is_Some_2 ms i) as [m Hm].
  { rewrite Hlen. by eapply lookup_lt_Some. }
  assert (m = Joined) as ->.
  { rewrite forallb_forall in Hall. specialize (Hall m). rewrite -list_elem_of_In in Hall.
    specialize (Hall (list_elem_of_lookup_2 _ _ _ Hm)). by destruct m. }
  apply Hj in Hm as (r & Hi). destruct (Hr i r Hi) as (Psi & HPsi & Hp).
  exists r. split; [congruence|]. by assert (Phi = Psi) as -> by congruence.
Qed.

Lemma first_error_outcome slots e :
  (forall i r, slots !! i = Some (Some r) -> exists Phi, Phis !! i = Some Phi /\ Phi r) ->
  first_error slots = Some e -> in_order_outcome (Err e).
Proof.
  intros Hr. assert (Hg : forall done rest, slots = done ++ rest ->
    (forall j s, done !! j = Some s -> exists y, s = Some (Ok y)) -> first_error rest = Some e ->
    in_order_outcome (Err e)).
  { intros done rest. revert done. induction rest as [|[[y|e']|] rest IH]; intros done Hs Hok He; simplify_eq/=.
    - apply (IH (done ++ [Some (Ok y)])); [by rewrite -app_assoc| |done].
      intros j s [Hj|[_ Hj]]%lookup_app_Some; [by eapply Hok|].
      apply list_lookup_singleton_Some in Hj as [_ <-]. by exists y.
    - destruct (Hr (length done) (Err e)) as (Phi & HPhi & He); [by apply list_lookup_middle|].
      exists (length done), Phi. split_and!; [done..|]. intros j Psi Hj HPsi.
      destruct (lookup_lt_is_Some_2 done j Hj) as [s Hs]. destruct (Hok j s Hs) as [y ->].
      destruct (Hr j (Ok y)) as (Psi' & ? & ?); [by rewrite lookup_app_l|]. simplify_eq. by exists y. }
  apply (Hg [] slots eq_refl). by intros j s.
Qed.

Lemma collect_slots_error (slots : Slots E O) e : collect_slots slots = Err e ->
  Forall (fun s => is_Some s) slots -> first_error slots = Some e.
Proof.
  induction slots as [|[[y|e']|] slots IH]; simpl; intros He Hs; simplify_eq; try done.
  - apply Forall_cons in Hs as [_ Hs]. apply IH; [|done]. by destruct (collect_slots slots); simplify_eq.
  - apply Forall_cons in Hs as [[? ?] _]. done.
Qed.

Lemma collect_slots_ok (slots : Slots E O) outs :
  collect_slots slots = Ok outs -> Forall (fun s => is_Some s) slots -> slots = (Some ∘ Ok) <$> outs.
Proof.
  revert outs. induction slots as [|[[y|e']|] slots IH]; simpl; intros outs Ho Hs; simplify_eq; try done.
  - apply Forall_cons in Hs as [_ Hs]. destruct (collect_slots slots) as [l|]; simplify_eq. cbn. f_equal. by apply IH.
  - apply Forall_cons in Hs as [[? ?] _]. done.
Qed.

Lemma collect_slots_outcome (slots : Slots E O) :
  Forall2 (fun (Phi : result E O -> Prop) s => exists r, s = Some r /\ Phi r) Phis slots ->
  in_order_outcome (collect_slots slots).
Proof.
  intros Hall. assert (Forall (fun s => is_Some s) slots) as Hs.
  { apply Forall_forall. intros s Hs. apply list_elem_of_lookup in Hs as (i & Hi).
    destruct (Forall2_lookup_r _ _ _ _ _ Hall Hi) as (Phi & _ & r & -> & _). by eexists. }
  destruct (collect_slots slots) as [outs|e] eqn:Hc.
  - apply collect_slots_ok in Hc as ->; [|done]. cbn. apply Forall2_fmap_r in Hall.
    eapply Forall2_impl; [exact Hall|]. intros Phi y (r & ? & ?). by simplify_eq/=.
  - apply (first_error_outcome slots); [|by apply collect_slots_error].
    intros i r Hi. destruct (Forall2_lookup_r _ _ _ _ _ Hall Hi) as (Phi & HPhi & r' & ? & ?).
    simplify_eq. by exists Phi.
Qed.

End slots.

(** ** The pools *)

(** Every call is awaited. *)
Lemma join_all_outcome {A} (Phis : list (result LcelError A -> Prop)) limit ps w :
  0 < limit -> Forall2 returns Phis ps ->
  in_order_outcome Phis (run (join_set limit collect_all collect_slots ps (replicate (length ps) None)) w).1.
Proof.
  intros Hl Hps. apply (join_set_rule _ _ _ Phis (slots_inv Phis)); [done|done| | | |].
  - rewrite -(Forall2_length _ _ _ Hps). apply slots_inv_start.
  - intros ms i m m' c. apply slots_inv_move.
  - intros ms i Phi r w1 c HPhi Hr Hi HI. by eapply slots_inv_join.
  - intros ms c HI Hlen Hall. apply collect_slots_outcome. eapply slots_inv_full; [done| |done].
    by rewrite Hlen (Forall2_length _ _ _ Hps).
Qed.

(** The first error in the order of the inputs ends the pool. *)
Lemma buffered_outcome {E O} (Phis : list (result E O -> Prop)) limit ps w :
  0 < limit -> Forall2 returns Phis ps ->
  in_order_outcome Phis (run (join_set limit collect_buffered collect_slots ps (replicate (length ps) None)) w).1.
Proof.
  intros Hl Hps. apply (join_set_rule _ _ _ Phis (slots_inv Phis)); [done|done| | | |].
  - rewrite -(Forall2_length _ _ _ Hps). apply slots_inv_start.
  - intros ms i m m' c. apply slots_inv_move.
  - intros ms i Phi r w1 c HPhi Hr Hi HI. pose proof (slots_inv_join _ _ _ _ _ _ HI HPhi Hr Hi) as HI'.
    unfold collect_buffered. cbv zeta. destruct (first_error _) as [e|] eqn:He; [|done].
    apply (first_error_outcome Phis (<[i := Some r]> c)); [|done]. apply HI'.
  - intros ms c HI Hlen Hall. apply collect_slots_outcome. eapply slots_inv_full; [done| |done].
    by rewrite Hlen (Forall2_length _ _ _ Hps).
Qed.

Lemma limit_positive (config : Config) n : 0 < RunnableConfig.limit config n.
Proof. unfold RunnableConfig.limit. lia. Qed.

(** A batch, whatever the runtime and the concurrency: all outputs in the order of the
    inputs, each one an answer its call may give, or the error of a call all of whose
    predecessors may succeed. *)
Theorem default_batch_outcome {E I O} (call : I -> Config -> P (result E O)) Phis inputs config w :
  Forall2 (fun Phi x => returns Phi (call x config)) Phis inputs ->
  in_order_outcome Phis (run (default_batch call inputs config) w).1.
Proof.
  intros Hc. unfold default_batch. rewrite -{2}(length_fmap (fun x => call x config) inputs).
  apply buffered_outcome; [apply limit_positive|]. by apply Forall2_fmap_r.
Qed.

(** *** Calls that are functions *)

(** The outputs, or the first error. *)
Fixpoint first_of {E O} (results : list (result E O)) : result E (list O) :=
  match results with
  | [] => Ok []
  | Err e :: _ => Err e
  | Ok y :: results => match first_of results with Ok l => Ok (y :: l) | Err e => Err e end
  end.

Lemma outcome_of_functions {E O} (rs : list (result E O)) o :
  in_order_outcome ((fun r r' => r' = r) <$> rs) o -> o = first_of rs.
Proof.
  revert o. induction rs as [|[y|e] rs IH]; intros [outs|e'] Ho; simpl in *.
  - by apply Forall2_nil_inv_l in Ho as ->.
  - by destruct Ho as (i & Phi & Hi & _).
  - apply Forall2_cons_inv_l in Ho as (y' & outs' & ? & Ho & ->). simplify_eq. by rewrite -(IH (Ok outs') Ho).
  - destruct Ho as ([|i] & Phi & Hi & He & Hbefore); simplify_eq/=.
    rewrite -(IH (Err e')); [done|]. exists i, Phi. split_and!; [done..|].
    intros j Psi Hj. apply (Hbefore (S j) Psi). lia.
  - apply Forall2_cons_inv_l in Ho as (y' & outs' & ? & _). simplify_eq.
  - destruct Ho as ([|i] & Phi & Hi & He & Hbefore); simplify_eq/=; [done|].
    destruct (Hbefore 0 (fun r => r = Err e)) as [y Hy]; [lia|done|]. done.
Qed.

(** A batch of calls that are functions of their input, whatever else they do to the
    world, is that function of the inputs. *)
Lemma batch_of_functions {E I O} (call : I -> Config -> P (result E O)) (f : I -> result E O) inputs config w :
  (forall x, returns (fun r => r = f x) (call x config)) ->
  (run (default_batch call inputs config) w).1 = first_of (f <$> inputs).
Proof.
  intros Hf. apply outcome_of_functions. unfold default_batch. rewrite -(length_fmap (fun x => call x config) inputs).
  apply buffered_outcome; [apply limit_positive|]. rewrite -list_fmap_compose.
  apply Forall2_fmap, Forall_Forall2_diag, Forall_forall. intros x _. apply Hf.
Qed.

(** *** In the order of completion *)

Definition completed_ok {E O} (Phis : list (result E O -> Prop)) (l : list (nat * O)) : Prop :=
  NoDup (l.*1) /\ Forall (fun p => exists Phi, Phis !! p.1 = Some Phi /\ Phi (Ok p.2)) l.

(** A batch in the order of completion: every index once, with an output of its call, or
    the error of some call. *)
Theorem batch_as_completed_outcome {E I O} (call : I -> Config -> P (result E O)) Phis inputs config w :
  Forall2 (fun Phi x => returns Phi (call x config)) Phis inputs ->
  match (run (default_batch_as_completed call inputs config) w).1 with
  | Ok l => completed_ok Phis l /\ (forall i, i ∈ l.*1 <-> i < length inputs)
  | Err e => exists Phi, Phi ∈ Phis /\ Phi (Err e)
  end.
Proof.
  intros Hc. unfold default_batch_as_completed.
  set (Q := fun o : result E (list (nat * O)) => match o with
     | Ok l => completed_ok Phis l /\ (forall i, i ∈ l.*1 <-> i < length inputs)
     | Err e => exists Phi, Phi ∈ Phis /\ Phi (Err e) end).
  change (Q (run (join_set (RunnableConfig.limit config (length inputs)) collect_completed Ok
    ((fun input => call input config) <$> inputs) []) w).1).
  apply (join_set_rule _ _ _ Phis (fun ms l => completed_ok Phis l /\ forall i, i ∈ l.*1 <-> ms !! i = Some Joined));
    [apply limit_positive|by apply Forall2_fmap_r| | | |].
  - split; [split; [constructor|done]|]. intros i. rewrite !list_lookup_fmap. cbn.
    split; [by intros ?%elem_of_nil|]. by destruct (inputs !! i).
  - intros ms i m m' l (Hok & Hkeys) Hi Hm Hm'. split; [done|]. intros j. rewrite Hkeys.
    destruct (decide (i = j)) as [<-|Hij].
    + rewrite list_lookup_insert_eq; [|by eapply lookup_lt_Some]. rewrite Hi. by destruct m, m'.
    + by rewrite list_lookup_insert_ne.
  - intros ms i Phi [y|e] w1 l HPhi Hr Hi [[Hnd Hok] Hkeys]; cbn.
    + split; [split|].
      * rewrite fmap_app. cbn. apply NoDup_app. split; [done|]. split; [|apply NoDup_singleton].
        intros j Hj ->%list_elem_of_singleton. apply Hkeys in Hj. by rewrite Hi in Hj.
      * apply Forall_app. split; [done|]. constructor; [by exists Phi|constructor].
      * intros j. rewrite fmap_app elem_of_app Hkeys. cbn. rewrite list_elem_of_singleton.
        destruct (decide (i = j)) as [<-|Hj].
        -- rewrite list_lookup_insert_eq; [tauto|by eapply lookup_lt_Some].
        -- rewrite list_lookup_insert_ne; [|done]. naive_solver.
    + exists Phi. split; [by eapply list_elem_of_lookup_2|done].
  - intros ms l [Hok Hkeys] Hlen Hall. split; [done|]. intros i. rewrite Hkeys. rewrite length_fmap in Hlen.
    split; [intros ?%lookup_lt_Some; lia|]. intros Hi. destruct (lookup_lt_is_Some_2 ms i) as [m Hm]; [lia|].
    rewrite Hm. f_equal. rewrite forallb_forall in Hall. specialize (Hall m). rewrite -list_elem_of_In in Hall.
    specialize (Hall (list_elem_of_lookup_2 _ _ _ Hm)). by destruct m.
Qed.

(** ** Parallel steps *)

Lemma insert_all_from (m : gmap string JsonValue) l k :
  NoDup (l.*1) ->
  foldl (fun m kv => <[kv.1 := kv.2]> m) m l !! k =
  match (list_to_map l : gmap string JsonValue) !! k with Some v => Some v | None => m !! k end.
Proof.
  revert m. induction l as [|[k1 v1] l IH]; intros m; [done|]. cbn. intros [Hk Hnd]%NoDup_cons.
  rewrite IH; [|done]. rewrite lookup_insert. case_decide; subst.
  - rewrite lookup_insert_eq. by rewrite (not_elem_of_list_to_map_1 l k).
  - by rewrite lookup_insert_ne.
Qed.

Lemma insert_all_lookup l : NoDup (l.*1) -> insert_all l = list_to_map l.
Proof.
  intros Hnd. apply map_eq. intros k. unfold insert_all. rewrite insert_all_from; [|done].
  by destruct (list_to_map l !! k).
Qed.

(** What the steps may answer. *)
Definition steps_return {I} (Phis : list (result LcelError JsonValue -> Prop)) (self : RunnableParallel I)
    (input : den I) (config : Config) : Prop :=
  Forall2 (fun Phi kv => returns Phi (kv.2 input config)) Phis (parallel_steps self).

(** The results of the tasks: the key of the step with one of its values. *)
Definition task_result (Phi : result LcelError JsonValue -> Prop) (key : string)
    (r : result LcelError (string * JsonValue)) : Prop :=
  match r with Ok (k, v) => k = key /\ Phi (Ok v) | Err e => Phi (Err e) end.

Lemma parallel_task_returns {I} Phi (kv : string * ParallelStep I) input config :
  returns Phi (kv.2 input config) -> returns (task_result Phi kv.1) (parallel_task input config kv).
Proof.
  intros Hr. unfold parallel_task, and_then. apply returns_bind. eapply returns_mono; [|exact Hr].
  by intros [v|e].
Qed.

Lemma tasks_values Phis keys (results : list (string * JsonValue)) :
  Forall2 (fun (Phi : result LcelError (string * JsonValue) -> Prop) r => Phi (Ok r))
    (zip_with task_result Phis keys) results -> length Phis = length keys ->
  exists vs, Forall2 (fun (Phi : result LcelError JsonValue -> Prop) v => Phi (Ok v)) Phis vs /\
    results = zip keys vs.
Proof.
  revert keys results. induction Phis as [|Phi Phis IH]; intros [|k keys] results Hall Hl; simplify_eq/=.
  - apply Forall2_nil_inv_l in Hall as ->. by exists [].
  - apply Forall2_cons_inv_l in Hall as ([k' v] & results' & [-> Hv] & Hall & ->).
    destruct (IH keys results' Hall) as (vs & Hvs & ->); [lia|]. exists (v :: vs). split; [by constructor|done].
Qed.

(** A parallel of steps with distinct keys, whatever the runtime and the concurrency: an
    object with exactly the keys of the steps, each with a value its step may give; or the
    error of a step all of whose predecessors may succeed. *)
Theorem parallel_outcome {I} (self : RunnableParallel I) Phis input config w :
  steps_return Phis self input config -> NoDup ((parallel_steps self).*1) ->
  match (run (parallel_invoke self input config) w).1 with
  | Ok m =>
      exists vs, Forall2 (fun (Phi : result LcelError JsonValue -> Prop) v => Phi (Ok v)) Phis vs /\
        (m : gmap string JsonValue) = list_to_map (zip ((parallel_steps self).*1) vs)
  | Err e =>
      exists i Phi, Phis !! i = Some Phi /\ Phi (Err e) /\
        forall j Psi, j < i -> Phis !! j = Some Psi -> exists v, Psi (Ok v)
  end.
Proof.
  intros Hsteps Hnd. unfold parallel_invoke, and_then. rewrite run_bind.
  pose proof (Forall2_length _ _ _ Hsteps) as Hlen.
  pose proof (join_all_outcome (zip_with task_result Phis ((parallel_steps self).*1))
    (RunnableConfig.limit config (length (parallel_steps self))) (parallel_task input config <$> parallel_steps self) w
    (limit_positive _ _)) as Ho. rewrite length_fmap in Ho.
  destruct (run (join_set _ _ _ _ _) w) as [[results|e] w1]; cbn [run fst] in *.
  - destruct (tasks_values Phis ((parallel_steps self).*1) results) as (vs & Hvs & ->);
      [|by rewrite length_fmap|].
    + apply Ho. clear -Hsteps. induction Hsteps; constructor; [by apply parallel_task_returns|done].
    + exists vs. split; [done|]. apply insert_all_lookup. rewrite fst_zip; [done|].
      by rewrite -(Forall2_length _ _ _ Hvs) length_fmap Hlen.
  - destruct Ho as (i & Phi' & Hi & He & Hbefore).
    { clear -Hsteps. induction Hsteps; constructor; [by apply parallel_task_returns|done]. }
    apply lookup_zip_with_Some in Hi as (Phi & key & -> & HPhi & Hkey). exists i, Phi. split_and!; [done..|].
    intros j Psi Hj HPsi. destruct (lookup_lt_is_Some_2 ((parallel_steps self).*1) j) as [key' Hkey'].
    { rewrite length_fmap -Hlen. by eapply lookup_lt_Some. }
    destruct (Hbefore j (task_result Psi key') Hj) as [[k v] Hv]; [|by exists v; apply Hv].
    apply lookup_zip_with_Some. by exists Psi, key'.
Qed.

End pools.

(** * Which calls fallbacks and retries make

    A chain of fallbacks calls its parts in order up to the first success
    ([fallback_outcome]); a retry calls the same part again while its error is retryable
    and attempts are left ([retry_outcome]).  Both are stated on the worlds between the calls. *)

Section calls.
Context `{H : Host} `{R : !Runtime World} `{N : !TypeNames}.

Notation P := (Proc World).
Notation Config := (option RunnableConfig).

(** An erased call runs like the typed one. *)
Lemma run_erased {E I O} `{!IntoLcel E} (r : Runnable E (den I) (den O)) x config w :
  run (invoke_any (into_runnable_any r) (box x) config) w =
  let '(res, w') := run (lifted (invoke r x config)) w in (box_item res, w').
Proof.
  rewrite (proc_eq_run _ _ w (wrap_invoke_box r x config)). unfold and_then. rewrite run_bind.
  by destruct (run _ w) as [[y|e] w'].
Qed.

(** ** Fallbacks *)

(** All calls fail, one after the other, with these errors. *)
Inductive AllFail {A} : list (P (result LcelError A)) -> World -> World -> list LcelError -> Prop :=
| fail_none w : AllFail [] w w []
| fail_first p ps e errs w w1 w2 :
    run p w = (Err e, w1) -> AllFail ps w1 w2 errs -> AllFail (p :: ps) w w2 (e :: errs).

Section fallback.
Context {I O : Ty} {E1 E2} `{!IntoLcel E1, !IntoLcel E2}.
Context (r : Runnable E1 (den I) (den O)) (fs : list (Runnable E2 (den I) (den O))).

Definition calls_of (x : den I) (config : Config) : list (P (result LcelError (den O))) :=
  lifted (invoke r x config) :: ((fun f => lifted (invoke f x config)) <$> fs).

Lemma run_try_fallbacks l x config message e0 w o w' :
  run (try_fallbacks (fun f => invoke_any f (box x) config) (unbox message)
         (into_runnable_any <$> (l : list (Runnable E2 (den I) (den O)))) e0) w = (o, w') ->
  let calls := (fun f => lifted (invoke f x config)) <$> l in
  (exists before p after errs w1 y, calls = before ++ p :: after /\ AllFail before w w1 errs /\
     run p w1 = (Ok y, w') /\ o = Ok y) \/
  (exists errs, AllFail calls w w' errs /\ o = Err e0).
Proof.
  revert w. induction l as [|f l IH]; intros w.
  { intros [= <- <-]. right. exists []. split; [constructor|done]. }
  rewrite !fmap_cons. cbn [try_fallbacks]. rewrite run_bind run_erased.
  destruct (run (lifted (invoke f x config)) w) as [[y|e] w1] eqn:Hf; cbn [box_item].
  - unfold unbox. rewrite expect_box. intros [= <- <-]. left. by exists [], (lifted (invoke f x config)), ((fun f => lifted (invoke f x config)) <$> l), [], w, y; split_and!; [|constructor|..].
  - intros [(before & p & after & errs & w2 & y & -> & Hall & Hp & ->)|(errs & Hall & ->)]%IH.
    + left. exists (lifted (invoke f x config) :: before), p, after, (e :: errs), w2, y.
      split_and!; [done|by econstructor|done|done].
    + right. exists (e :: errs). split; [by econstructor|done].
Qed.

(** A runnable with fallbacks calls the primary and then its fallbacks, each at most once
    and in order, up to the first that succeeds, and answers its output; when all of them
    fail it answers the error of the primary. *)
Theorem fallback_outcome x config w :
  let calls := calls_of x config in
  let '(o, w') := run (invoke (fallback_runnable (with_fallbacks r fs)) x config) w in
  (exists before p after errs w1 y, calls = before ++ p :: after /\ AllFail before w w1 errs /\
     run p w1 = (Ok y, w') /\ o = Ok y) \/
  (exists e errs, AllFail calls w w' (e :: errs) /\ o = Err e).
Proof.
  intros calls. destruct (run _ w) as [o w'] eqn:Hrun. revert Hrun. cbn. unfold try_all.
  rewrite run_bind. cbn [primary fallbacks with_fallbacks]. rewrite run_erased.
  destruct (run (lifted (invoke r x config)) w) as [[y|e] w1] eqn:Hr; cbn [box_item].
  - unfold unbox. rewrite expect_box. intros [= <- <-]. left.
    exists [], (lifted (invoke r x config)), ((fun f => lifted (invoke f x config)) <$> fs), [], w, y.
    by split_and!; [|constructor|..].
  - intros [(before & p & after & errs & w2 & y & Hc & Hall & Hp & ->)|(errs & Hall & ->)]%run_try_fallbacks.
    + left. exists (lifted (invoke r x config) :: before), p, after, (e :: errs), w2, y.
      unfold calls, calls_of. rewrite Hc. split_and!; [done|by econstructor|done|done].
    + right. exists e, errs. split; [by econstructor|done].
Qed.
End fallback.

(** ** Retries *)

Context `{T : RetryText} `{U : Unicode}.

Section retry.
Context {I O : Ty} {E} `{!IntoLcel E} (r : Runnable E (den I) (den O)) (rc : RetryConfig).
Context (x : den I) (config : Config).

Definition stopped (w : World) : bool :=
  match config with Some c => RunnableConfig.is_cancelled c w | None => false end.

(** The world in which an attempt makes its call: later ones sleep first. *)
Definition pause (attempt : nat) (w : World) : World :=
  match attempt with
  | 0 => w
  | S k => sleep (default MAX_NANOS (delay_for_attempt rc k)) w
  end.

(** From the given attempt on, [n] attempts are made and fail with an error to retry. *)
Inductive Retried : nat -> nat -> World -> World -> Prop :=
| retried_none k w : Retried k 0 w w
| retried_once k n e w w1 w2 :
    stopped w = false -> run (lifted (invoke r x config)) (pause k w) = (Err e, w1) ->
    should_retry rc (lcel_error_to_string e) = true -> Retried (S k) n w1 w2 -> Retried k (S n) w w2.

(** How the last attempt ends the loop. *)
Definition ends_with (attempt : nat) (last : bool) (w : World) (o : result LcelError (den O)) (w' : World) : Prop :=
  (stopped w = true /\ o = Err operation_cancelled /\ w' = w) \/
  (stopped w = false /\
   ((exists y, run (lifted (invoke r x config)) (pause attempt w) = (Ok y, w') /\ o = Ok y) \/
    (exists e, run (lifted (invoke r x config)) (pause attempt w) = (Err e, w') /\ o = Err e /\
       (last = true \/ should_retry rc (lcel_error_to_string e) = false)))).

Definition one_call : P (result LcelError Any) := invoke_any (into_runnable_any r) (box x) config.
Definition finish_call (a : Any) : P (result LcelError (den O)) :=
  mret (ok_or (downcast O a) (LcelOther "Type mismatch in retry result")).

Lemma run_config_cancelled w : run (config_cancelled config) w = (stopped w, w).
Proof. unfold config_cancelled, stopped. by destruct config. Qed.

(** One attempt whose check has passed: the pause and the call. *)
Lemma run_paused k w (f : result LcelError Any -> P (result LcelError (den O))) :
  run ((if 0 <? k then delay_before rc k else mret ()) ≫= fun _ => one_call ≫= f) w =
  let '(res, w') := run (lifted (invoke r x config)) (pause k w) in run (f (box_item res)) w'.
Proof.
  assert (run (one_call ≫= f) (pause k w) =
          let '(res, w') := run (lifted (invoke r x config)) (pause k w) in run (f (box_item res)) w') as <-.
  { rewrite run_bind. unfold one_call. rewrite run_erased. by destruct (run _ (pause k w)). }
  destruct k as [|k]; [done|]. cbn [Nat.ltb Nat.leb]. unfold delay_before. rewrite run_bind run_tell.
  by rewrite Nat.sub_1_r.
Qed.

Lemma run_attempts k more w o w' :
  (k = 0 -> stopped w = false) ->
  run (attempts rc one_call finish_call config k more) w = (o, w') ->
  exists n w1, n <= more /\ Retried k n w w1 /\ ends_with (k + n) (n =? more) w1 o w'.
Proof.
  revert k w. induction more as [|more IH]; intros k w Hk; cbn [attempts]; rewrite run_bind;
    (assert (run (if 0 <? k then config_cancelled config else mret false) w = (stopped w, w)) as ->
      by (destruct k; [by rewrite Hk|apply run_config_cancelled]));
    (destruct (stopped w) eqn:Hs;
      [intros [= <- <-]; exists 0, w; split; [lia|]; split; [constructor|]; by left|]);
    rewrite run_paused; destruct (run (lifted (invoke r x config)) (pause k w)) as [[y|e] w1] eqn:Hr; cbn [box_item].
  1, 3: unfold finish_call; rewrite downcast_box; intros [= <- <-]; exists 0, w; split; [lia|]; split; [constructor|];
    rewrite Nat.add_0_r; right; split; [done|]; left; by exists y.
  - intros [= <- <-]. exists 0, w. split; [lia|]. split; [constructor|]. rewrite Nat.add_0_r. right. split; [done|].
    right. exists e. by split_and!; [..|left].
  - destruct (should_retry rc (lcel_error_to_string e)) eqn:Hretry.
    + intros (n & w2 & Hn & Hre & Hend)%IH; [|done]. exists (S n), w2. split; [lia|].
      split; [by econstructor|]. by rewrite Nat.add_succ_r.
    + intros [= <- <-]. exists 0, w. split; [lia|]. split; [constructor|]. rewrite Nat.add_0_r. right. split; [done|].
      right. exists e. by split_and!; [..|right].
Qed.

(** C31: A retry makes at most [max_retries] attempts that it retries, each failed with an error
    the configuration retries, and then one that ends it: with its output, with its error when
    that is not to be retried or no attempt is left, or, when the run is cancelled between
    two attempts or before the first, without a call. *)
Theorem retry_outcome retry w :
  with_retry r rc = Ok retry ->
  let '(o, w') := run (invoke (retry_runnable retry) x config) w in
  exists n w1, n <= max_retries rc /\ Retried 0 n w w1 /\ ends_with n (n =? max_retries rc) w1 o w'.
Proof.
  unfold with_retry, retry_new. destruct (RetryConfig.validate rc); [|done]. intros [= <-].
  destruct (run _ w) as [o w'] eqn:Hrun. revert Hrun. cbn. unfold retry_invoke. rewrite run_bind run_config_cancelled.
  cbn [fst snd runnable retry_config]. destruct (stopped w) eqn:Hs.
  - intros [= <- <-]. exists 0, w. split; [lia|]. split; [constructor|]. by left.
  - by intros ?%(run_attempts 0).
Qed.

End retry.
End calls.

(** * Layers of configuration

    [RunnableConfig::merge] is associative with the empty configuration as its right unit,
    so a configuration built in layers does not depend on how they are grouped
    ([merge_layers]).  A binding's configuration does not depend on the order in which its
    [HashMap] of arguments is iterated, and says which layer wins ([binding_precedence]). *)

Section config.
Context `{H : Host}.

Lemma config_eq (c d : RunnableConfig) :
  tags c = tags d -> metadata c = metadata d -> max_concurrency c = max_concurrency d -> run_id c = run_id d ->
  run_name c = run_name d -> callbacks c = callbacks d -> cancellation_token c = cancellation_token d ->
  temperature c = temperature d -> max_tokens c = max_tokens d -> configurable c = configurable d -> c = d.
Proof. destruct c, d. cbn. intros. by subst. Qed.

(** ** Merging *)

Lemma elem_of_merge_tags t l l' : t ∈ RunnableConfig.merge_tags l l' <-> t ∈ l \/ t ∈ l'.
Proof.
  revert l. induction l' as [|x l' IH]; intros l; simpl; [set_solver|]. rewrite IH.
  case_bool_decide; set_solver.
Qed.

Lemma merge_tags_app l l1 l2 :
  RunnableConfig.merge_tags l (l1 ++ l2) = RunnableConfig.merge_tags (RunnableConfig.merge_tags l l1) l2.
Proof. revert l. induction l1 as [|x l1 IH]; intros l; simpl; [done|]. by rewrite IH. Qed.

Lemma merge_tags_assoc l1 l2 l3 :
  RunnableConfig.merge_tags (RunnableConfig.merge_tags l1 l2) l3 =
  RunnableConfig.merge_tags l1 (RunnableConfig.merge_tags l2 l3).
Proof.
  revert l2. induction l3 as [|t l3 IH]; intros l2; simpl; [done|]. rewrite -IH.
  f_equal. case_bool_decide as H12; case_bool_decide as H2; [done| | |].
  - rewrite merge_tags_app. simpl. by rewrite bool_decide_true.
  - by rewrite elem_of_merge_tags in H12; destruct H12; right.
  - rewrite merge_tags_app. simpl. by rewrite bool_decide_false.
Qed.

Lemma or_assoc {A} (a b c : option A) : RunnableConfig.or a (RunnableConfig.or b c) = RunnableConfig.or (RunnableConfig.or a b) c.
Proof. by destruct a. Qed.

Lemma merge_callbacks_assoc a b c :
  RunnableConfig.merge_callbacks (RunnableConfig.merge_callbacks a b) c =
  RunnableConfig.merge_callbacks a (RunnableConfig.merge_callbacks b c).
Proof.
  destruct a as [[h1 t1]|], b as [[h2 t2]|], c as [[h3 t3]|]; try done. cbn. unfold merge_with. cbn.
  by rewrite app_assoc; destruct t1.
Qed.

(** Layers of configuration can be grouped in any way, and an empty layer on top of the others
    changes nothing. *)
Theorem merge_layers (a b c : RunnableConfig) :
  RunnableConfig.merge (RunnableConfig.merge a b) c = RunnableConfig.merge a (RunnableConfig.merge b c) /\
  RunnableConfig.merge a RunnableConfig.new = a.
Proof.
  split; apply config_eq; cbn; try done.
  - apply merge_tags_assoc.
  - by rewrite assoc_L.
  - by rewrite or_assoc.
  - by rewrite or_assoc.
  - by rewrite or_assoc.
  - apply merge_callbacks_assoc.
  - by rewrite or_assoc.
  - by rewrite or_assoc.
  - by rewrite or_assoc.
  - by rewrite assoc_L.
  - by rewrite left_id_L.
  - by destruct (callbacks a).
  - by rewrite left_id_L.
Qed.

(** ** Bound arguments *)

(** The sampling overrides among the fields. *)
Definition temperature_of (fields : gmap string JsonValue) : option spec_float :=
  match fields !! "temperature" with Some (JNumber n) => as_f32 <$> as_f64 n | _ => None end.
Definition max_tokens_of (fields : gmap string JsonValue) : option N :=
  match fields !! "max_tokens" with Some (JNumber n) => as_u64 n | _ => None end.

(** Whether a field is an override. *)
Definition sampling (kv : string * JsonValue) : bool :=
  match kv.2 with
  | JNumber n => ((kv.1 =ₛ "temperature") && bool_decide (is_Some (as_f64 n))) ||
                 ((kv.1 =ₛ "max_tokens") && bool_decide (is_Some (as_u64 n)))
  | _ => false
  end.

(** The configuration with the fields of a map applied. *)
Definition with_fields (fields : gmap string JsonValue) (base : RunnableConfig) : RunnableConfig :=
  mkRunnableConfig (tags base) (filter (fun kv => sampling kv = false) fields ∪ metadata base)
    (max_concurrency base) (run_id base) (run_name base) (callbacks base) (cancellation_token base)
    (RunnableConfig.or (temperature_of fields) (temperature base))
    (RunnableConfig.or (max_tokens_of fields) (max_tokens base)) (configurable base).

Lemma with_no_fields base : with_fields ∅ base = base.
Proof. apply config_eq; cbn; try done. by rewrite map_filter_empty left_id_L. Qed.

Lemma apply_field_with base k v fields :
  fields !! k = None -> with_fields fields (apply_field base (k, v)) = with_fields (<[k := v]> fields) base.
Proof.
  intros Hk.
  assert (forall c : RunnableConfig, sampling (k, v) = false -> c = RunnableConfig.with_metadata k v base ->
    temperature_of (<[k := v]> fields) = temperature_of fields ->
    max_tokens_of (<[k := v]> fields) = max_tokens_of fields ->
    with_fields fields c = with_fields (<[k := v]> fields) base) as Hmeta.
  { intros c Hs -> Ht Hm. apply config_eq; cbn; try done.
    - assert (filter (fun kv => sampling kv = false) fields !! k = None) as Hnone.
      { apply map_lookup_filter_None_2. by left. }
      rewrite map_filter_insert_True; last done. by rewrite -insert_union_l (insert_union_r _ _ _ _ Hnone).
    - by rewrite Ht.
    - by rewrite Hm. }
  assert (k <> "temperature" -> temperature_of (<[k := v]> fields) = temperature_of fields) as Ht.
  { intros Hne. unfold temperature_of. by rewrite lookup_insert_ne. }
  assert (k <> "max_tokens" -> max_tokens_of (<[k := v]> fields) = max_tokens_of fields) as Hm.
  { intros Hne. unfold max_tokens_of. by rewrite lookup_insert_ne. }
  assert (sampling (k, v) = true -> filter (fun kv => sampling kv = false) (<[k := v]> fields) =
          filter (fun kv => sampling kv = false) fields) as Hf.
  { intros Hs. rewrite map_filter_insert_False; last by rewrite Hs. by rewrite delete_id. }
  destruct (decide (k = "temperature")) as [->|Hnt]; [|destruct (decide (k = "max_tokens")) as [->|Hnm]].
  - destruct v; try by (apply Hmeta; [done|done| |by apply Hm]; unfold temperature_of; rewrite lookup_insert_eq Hk).
    assert (exists f, as_f64 n = Some f) as [f Hn] by (destruct n; by eexists).
    unfold apply_field. rewrite bool_decide_true // Hn. apply config_eq; cbn; try done.
    + rewrite Hf; [done|]. unfold sampling. cbn. by rewrite Hn.
    + unfold temperature_of. by rewrite lookup_insert_eq Hk Hn.
    + by rewrite Hm.
  - destruct v; try by (apply Hmeta; [done|done|by apply Ht|]; unfold max_tokens_of; rewrite lookup_insert_eq Hk).
    destruct (as_u64 n) as [u|] eqn:Hn.
    + unfold apply_field. rewrite bool_decide_false // bool_decide_true // Hn. apply config_eq; cbn; try done.
      * rewrite Hf; [done|]. unfold sampling. cbn. by rewrite Hn.
      * by rewrite Ht.
      * unfold max_tokens_of. by rewrite lookup_insert_eq Hk Hn.
    + apply Hmeta; [unfold sampling; cbn; by rewrite Hn| |by apply Ht|].
      * unfold apply_field. by rewrite bool_decide_false // bool_decide_true // Hn.
      * unfold max_tokens_of. by rewrite lookup_insert_eq Hk Hn.
  - apply Hmeta; [|by unfold apply_field; destruct v; rewrite ?(bool_decide_false _ Hnt) ?(bool_decide_false _ Hnm)|by apply Ht|by apply Hm].
    unfold sampling. cbn. destruct v; try done. by rewrite (bool_decide_false _ Hnt) (bool_decide_false _ Hnm).
Qed.

(** The order of the fields does not matter. *)
Lemma apply_fields_with l base :
  NoDup (l.*1) -> apply_fields l base = with_fields (list_to_map l) base.
Proof.
  unfold apply_fields. revert base. induction l as [|[k v] l IH]; intros base; cbn; [by rewrite with_no_fields|].
  intros [Hk Hnd]%NoDup_cons. rewrite IH; [|done]. apply apply_field_with. by apply not_elem_of_list_to_map_1.
Qed.

(** The configuration a binding calls its part with, in whatever order its arguments are
    iterated: the layer of the call wins over the bound arguments, which win over the bound
    configuration; a numeric [temperature] or integral [max_tokens] becomes an override
    and every other argument metadata. *)
Theorem binding_precedence {I O} (self : RunnableBinding I O) l (inv : RunnableConfig) :
  l ≡ₚ map_to_list (kwargs self) ->
  let base := bound_config self in
  let c := RunnableConfig.merge (apply_fields l base) inv in
  c = merged_config self (Some inv) /\
  temperature c = RunnableConfig.or (temperature inv)
                    (RunnableConfig.or (temperature_of (kwargs self)) (temperature base)) /\
  max_tokens c = RunnableConfig.or (max_tokens inv)
                   (RunnableConfig.or (max_tokens_of (kwargs self)) (max_tokens base)) /\
  metadata c = metadata inv ∪ (filter (fun kv => sampling kv = false) (kwargs self) ∪ metadata base) /\
  tags c = RunnableConfig.merge_tags (tags base) (tags inv).
Proof.
  intros Hl base c.
  assert (apply_fields l base = with_fields (kwargs self) base) as Hb.
  { rewrite apply_fields_with; [|rewrite Hl; apply NoDup_fst_map_to_list].
    rewrite (list_to_map_proper _ _ _ Hl); [|rewrite Hl; apply NoDup_fst_map_to_list].
    by rewrite list_to_map_to_list. }
  unfold c. rewrite Hb. split_and!; try done. unfold merged_config. rewrite apply_fields_with; [|apply NoDup_fst_map_to_list].
  by rewrite list_to_map_to_list.
Qed.
End config.
