(* ===== verification/LcelSamples.v ===== *)
(** * Pipelines on concrete runnables

    A host whose world counts the calls made, numbers as user values, and the properties
    of the runnables applied on it. *)

From stdpp Require Import gmap strings list pretty.
From Stdlib Require Import SpecFloat Ascii.
From S2P Require Import Prelude Json PromptTemplate TemplateParser Process Pool Runnable Lcel LcelMaps Retry LcelFacts LcelPools.

#[local] Instance sample_host : Host := {|
  World := nat;
  UserType := ();
  UserValue _ := N;
  user_to_value _ n := Ok (JNumber (PosInt n));
  Handler := ();
  Tracer := ();
  cancelled token w := token <=? w;
  sleep _ w := w;
|}.

#[local] Instance sample_runtime : Runtime World := sequential nat.
#[local] Instance sample_names : TypeNames := fun _ => "T".

(** Letters and digits of ASCII. *)
#[local] Instance sample_unicode : Unicode.
Proof.
  refine {| is_alphabetic c := ((65 <=? c) && (c <=? 90) || (97 <=? c) && (c <=? 122))%N;
            is_alphanumeric c := ((48 <=? c) && (c <=? 57) || (65 <=? c) && (c <=? 90) || (97 <=? c) && (c <=? 122))%N;
            debug_str s := s |}; reflexivity.
Defined.

Fixpoint ascii_lower (s : string) : string :=
  match s with
  | EmptyString => EmptyString
  | String a s =>
      let n := N_of_ascii a in
      String (if ((65 <=? n) && (n <=? 90))%N then ascii_of_N (n + 32) else a) (ascii_lower s)
  end.

#[local] Instance sample_text : RetryText := {|
  to_lowercase := ascii_lower;
  powi f n := Nat.iter (Z.to_nat n) (SFmul 53 1024 f) (f64_of_N 1);
  debug_duration d := pretty d;
  display_f64 _ := "x";
|}.

Notation NumTy := (UserTy () : Ty).

(** Adds to its input, counting the call. *)
Definition add (n : N) : Runnable LcelError (den NumTy) (den NumTy) :=
  of_invoke (fun (x : den NumTy) _ => call (fun w : World => (Ok ((x + n)%N : den NumTy), S w))).

(** Fails until it has been called [n] times. *)
Definition flaky (n : nat) (error : string) : Runnable LcelError (den NumTy) (den NumTy) :=
  of_invoke (fun (x : den NumTy) _ =>
    call (fun w : World => (if w <? n then Err (LcelProvider error) else Ok x, S w))).

(** ** Pipelines *)

Definition sum_pipeline : Pipeline NumTy NumTy := Then (Then (Single (add 1)) (add 10)) (add 100).

Lemma plain_stream_invokes_witness :
  plain sum_pipeline /\
  drain (stream (sequence_runnable (build sum_pipeline)) (5%N : den NumTy) None) ≡ₚᵣ
  (y ←? invoke (sequence_runnable (build sum_pipeline)) (5%N : den NumTy) None; mret (Ok [y])).
Proof.
  assert (plain sum_pipeline) as Hp by (repeat split; reflexivity).
  split; [exact Hp|]. exact (plain_stream_invokes sum_pipeline (5%N : den NumTy) None Hp).
Defined.

Example sum_invoked :
  run (invoke (sequence_runnable (build sum_pipeline)) (5%N : den NumTy) None) 0 = (Ok (116%N : den NumTy), 3).
Proof. vm_compute. reflexivity. Qed.

(** Piping a sequence into a sequence nests it. *)
Example piped_sequence_is_nested :
  sequence_len (pipe (build sum_pipeline) (sequence_runnable (build sum_pipeline))) = 4.
Proof. reflexivity. Qed.

(** ** Retries *)

Definition impatient : RetryConfig := RetryConfig.new 2.

Example default_delays :
  delay_for_attempt RetryConfig.default <$> [0; 1; 2; 10] =
    Some <$> [500 * 10 ^ 6; 10 ^ 9; 2 * 10 ^ 9; 10 * 10 ^ 9]%N.
Proof. vm_compute. reflexivity. Qed.

Example transient_errors :
  is_transient_error <$> ["HTTP 503: Service Unavailable"; "[500]"; "used 5000 tokens"; "Rate Limit"; "HTTP 401"] =
    [true; true; false; true; false].
Proof. vm_compute. reflexivity. Qed.

(** The message of an error is matched with its prefix and without the context of the word:
    a permanent error that mentions a capacity is retried. *)
Example permanent_error_retried : is_transient_error "invalid argument: capacity must be positive" = true.
Proof. vm_compute. reflexivity. Qed.

Definition flaky_retry : RunnableRetry NumTy NumTy :=
  mkRetry (into_runnable_any (flaky 2 "HTTP 503")) impatient.

Example retried_twice :
  run (invoke (retry_runnable flaky_retry) (7%N : den NumTy) None) 0 = (Ok (7%N : den NumTy), 3).
Proof. vm_compute. reflexivity. Qed.

Lemma retry_outcome_witness :
  with_retry (flaky 2 "HTTP 503") impatient = Ok flaky_retry /\
  let '(o, w') := run (invoke (retry_runnable flaky_retry) (7%N : den NumTy) None) 0 in
  exists n w1, n <= max_retries impatient /\
    Retried (flaky 2 "HTTP 503") impatient (7%N : den NumTy) None 0 n 0 w1 /\
    ends_with (flaky 2 "HTTP 503") impatient (7%N : den NumTy) None n (n =? max_retries impatient) w1 o w'.
Proof.
  assert (with_retry (flaky 2 "HTTP 503") impatient = Ok flaky_retry) as Hr by (vm_compute; reflexivity).
  split; [exact Hr|]. exact (retry_outcome (flaky 2 "HTTP 503") impatient (7%N : den NumTy) None flaky_retry 0 Hr).
Defined.

(** A run that is cancelled before it starts makes no call, but a stream makes its first. *)
Definition cancelled_config : option RunnableConfig :=
  Some (RunnableConfig.with_cancellation_token 0 RunnableConfig.new).

Example cancelled_invoke :
  run (invoke (retry_runnable flaky_retry) (7%N : den NumTy) cancelled_config) 5 = (Err operation_cancelled, 5).
Proof. vm_compute. reflexivity. Qed.

Example cancelled_stream :
  (run (stream (retry_runnable flaky_retry) (7%N : den NumTy) cancelled_config) 5).2 = 6.
Proof. vm_compute. reflexivity. Qed.

(** ** Batches and parallels *)

(** What a call that adds may answer. *)
Lemma add_returns n x config : returns (fun r => r = Ok (x + n)%N) (invoke (add n) (x : den NumTy) config).
Proof. intros w. reflexivity. Qed.

Lemma default_batch_outcome_witness :
  let Phis := [(fun r => r = Ok 6%N); (fun r : result LcelError N => r = Ok 7%N)] in
  Forall2 (fun Phi x => returns Phi (invoke (add 1) (x : den NumTy) None)) Phis [5%N; 6%N] /\
  in_order_outcome Phis (run (default_batch (invoke (add 1)) [(5%N : den NumTy); 6%N] None) 0).1.
Proof.
  intros Phis.
  assert (Forall2 (fun Phi x => returns Phi (invoke (add 1) (x : den NumTy) None)) Phis [5%N; 6%N]) as Hp
    by (repeat constructor).
  split; [exact Hp|]. exact (default_batch_outcome (invoke (add 1)) Phis [5%N; 6%N] None 0 Hp).
Defined.

Definition sums : RunnableParallel NumTy :=
  parallel_with "two" (add 2) (parallel_with "one" (add 1) parallel_new).

Example sums_invoked :
  (run (parallel_invoke sums (5%N : den NumTy) None) 0).1 =
    Ok ({["one" := JNumber (PosInt 6); "two" := JNumber (PosInt 7)]} : den MapTy).
Proof. vm_compute. reflexivity. Qed.

Lemma parallel_outcome_witness :
  let Phis := [(fun r => r = Ok (JNumber (PosInt 6))); (fun r : result LcelError JsonValue => r = Ok (JNumber (PosInt 7)))] in
  (steps_return Phis sums (5%N : den NumTy) None /\ NoDup ((parallel_steps sums).*1)) /\
  match (run (parallel_invoke sums (5%N : den NumTy) None) 0).1 with
  | Ok m =>
      exists vs, Forall2 (fun (Phi : result LcelError JsonValue -> Prop) v => Phi (Ok v)) Phis vs /\
        (m : gmap string JsonValue) = list_to_map (zip ((parallel_steps sums).*1) vs)
  | Err e =>
      exists i Phi, Phis !! i = Some Phi /\ Phi (Err e) /\
        forall j Psi, j < i -> Phis !! j = Some Psi -> exists v, Psi (Ok v)
  end.
Proof.
  intros Phis.
  assert (steps_return Phis sums (5%N : den NumTy) None) as Hp
    by (unfold steps_return; repeat constructor; intros w; reflexivity).
  assert (NoDup ((parallel_steps sums).*1)) as Hnd by (apply (bool_decide_unpack _); vm_compute; exact I).
  split; [exact (conj Hp Hnd)|]. exact (parallel_outcome sums Phis (5%N : den NumTy) None 0 Hp Hnd).
Defined.

(** ** Bindings *)

Definition bound_call : RunnableBinding NumTy NumTy :=
  bind_kwarg "stop" (JString "end") (bind_kwarg "max_tokens" (JNumber (PosInt 64)) (binding_new (add 1))).

Lemma binding_precedence_witness :
  let l := [("stop", JString "end"); ("max_tokens", JNumber (PosInt 64))] in
  let inv := RunnableConfig.with_max_tokens 32 RunnableConfig.new in
  l ≡ₚ map_to_list (kwargs bound_call) /\
  let base := bound_config bound_call in
  let c := RunnableConfig.merge (apply_fields l base) inv in
  c = merged_config bound_call (Some inv) /\
  temperature c = RunnableConfig.or (temperature inv)
                    (RunnableConfig.or (temperature_of (kwargs bound_call)) (temperature base)) /\
  max_tokens c = RunnableConfig.or (max_tokens inv)
                   (RunnableConfig.or (max_tokens_of (kwargs bound_call)) (max_tokens base)) /\
  metadata c = metadata inv ∪ (filter (fun kv => sampling kv = false) (kwargs bound_call) ∪ metadata base) /\
  tags c = RunnableConfig.merge_tags (tags base) (tags inv).
Proof.
  intros l inv. assert (l ≡ₚ map_to_list (kwargs bound_call)) as Hl by (apply (bool_decide_unpack _); vm_compute; exact I).
  split; [exact Hl|]. exact (binding_precedence bound_call l inv Hl).
Defined.
