(* ===== verification/WithHistory.v ===== *)
(** * A model with a memory ([crates/lc-memory/src/with_history.rs])

    [RunnableWithMessageHistory] reads a memory, asks the model and writes the turn back, with
    one shared memory or one per session.  Memories are the cells of a heap; a call first
    selects its cell, under the lock of the cache, and then has its turn, under the lock of
    the cell.  The two steps are atomic, and other calls come in between. *)

From stdpp Require Import gmap strings list.
From S2P Require Import Prelude Json Message Memory PromptTemplate Runnable.

Section with_history.
Context `{H : Host} {M L : Type} (operations : BaseMemory M).
Context (from_value : JsonValue -> option Message).

Record TokenUsage := mkTokenUsage {
  prompt_tokens : nat;
  completion_tokens : nat;
  total_tokens : nat;
  cache_read_tokens : nat;
  cache_creation_tokens : nat;
}.
Record LLMResult := mkLLMResult {
  llm_content : string;
  llm_model : string;
  llm_token_usage : option TokenUsage;
  llm_tool_calls : option (list ToolCall);
  llm_thinking_content : option string;
}.

(** The model's own error is converted to an [LcelError]. *)
Context (llm_chat : list Message -> option RunnableConfig -> L -> result LcelError LLMResult * L).

Record SessionCache := mkSessionCache {
  slots : gmap string nat;
  slot_order : list string;
}.

(** [factory] may make a memory or hand out one that is there. *)
Inductive HistoryMode : Type :=
| Shared (memory : nat)
| Sessions (factory : string -> list M -> nat * list M) (max_sessions : nat) (placeholder : nat).

Record RunnableWithMessageHistory := mkWithHistory {
  wh_mode : HistoryMode;
  wh_input_key : string;
  wh_output_key : string;
}.

(** What calls share: the memories, the cache and the model. *)
Record HistoryWorld := mkHistoryWorld {
  hw_heap : list M;
  hw_cache : SessionCache;
  hw_llm : L;
}.
Definition set_cache (c : SessionCache) (w : HistoryWorld) : HistoryWorld := mkHistoryWorld (hw_heap w) c (hw_llm w).
Definition set_heap (h : list M) (w : HistoryWorld) : HistoryWorld := mkHistoryWorld h (hw_cache w) (hw_llm w).
Definition set_model (l : L) (w : HistoryWorld) : HistoryWorld := mkHistoryWorld (hw_heap w) (hw_cache w) l.
Definition allocate (m : M) (w : HistoryWorld) : nat * HistoryWorld := (length (hw_heap w), set_heap (hw_heap w ++ [m]) w).

Definition DEFAULT_MAX_SESSIONS : nat := 100.

Definition history_new (memory : M) (w : HistoryWorld) : RunnableWithMessageHistory * HistoryWorld :=
  let '(cell, w) := allocate memory w in (mkWithHistory (Shared cell) "input" "output", w).
(** [empty] is [ConversationBufferMemory::new()]. *)
Definition with_session_history (factory : string -> list M -> nat * list M) (empty : M) (w : HistoryWorld)
    : RunnableWithMessageHistory * HistoryWorld :=
  let '(placeholder, w) := allocate empty w in
  (mkWithHistory (Sessions factory DEFAULT_MAX_SESSIONS placeholder) "input" "output", set_cache (mkSessionCache ∅ []) w).
Definition with_input_key (key : string) (self : RunnableWithMessageHistory) : RunnableWithMessageHistory :=
  mkWithHistory (wh_mode self) key (wh_output_key self).
Definition with_output_key (key : string) (self : RunnableWithMessageHistory) : RunnableWithMessageHistory :=
  mkWithHistory (wh_mode self) (wh_input_key self) key.
Definition with_max_sessions (max : nat) (self : RunnableWithMessageHistory) : RunnableWithMessageHistory :=
  match wh_mode self with
  | Sessions factory _ placeholder => mkWithHistory (Sessions factory (Nat.max max 1) placeholder) (wh_input_key self) (wh_output_key self)
  | Shared _ => self
  end.
Definition memory (self : RunnableWithMessageHistory) : nat :=
  match wh_mode self with Shared m => m | Sessions _ _ placeholder => placeholder end.

(** The oldest slot makes room for a new one. *)
Definition evict (max_sessions : nat) (c : SessionCache) : SessionCache :=
  if max_sessions <=? size (slots c)
  then match slot_order c with
       | oldest :: order => mkSessionCache (base.delete oldest (slots c)) order
       | [] => c
       end
  else c.

Definition missing_session : LcelError :=
  LcelChain "RunnableWithMessageHistory (session mode) is missing configurable.session_id".

Definition select_memory (self : RunnableWithMessageHistory) (config : option RunnableConfig) : Act HistoryWorld LcelError nat := fun w =>
  match wh_mode self with
  | Shared m => (Ok m, w)
  | Sessions factory max_sessions _ =>
      match (config ≫= RunnableConfig.configurable_value "session_id") ≫= as_str with
      | None => (Err missing_session, w)
      | Some session_id =>
          match slots (hw_cache w) !! session_id with
          | Some cell => (Ok cell, w)
          | None =>
              let cache := evict max_sessions (hw_cache w) in
              let '(cell, heap) := factory session_id (hw_heap w) in
              (Ok cell, set_cache (mkSessionCache (<[session_id := cell]> (slots cache)) (slot_order cache ++ [session_id])) (set_heap heap w))
          end
      end
  end.

(** A turn on a cell.  A failed save is only logged. *)
Definition turn (self : RunnableWithMessageHistory) (input : string) (config : option RunnableConfig) (cell : nat)
    : Act HistoryWorld LcelError LLMResult := fun w =>
  match hw_heap w !! cell with
  | None => (Err (LcelOther "no such memory"), w)
  | Some m =>
      match load_memory_variables operations ∅ m with
      | Err e => (Err (LcelChain ("load memory: " +:+ memory_error_to_string e)), w)
      | Ok vars =>
          let messages := memory_variables_to_messages from_value vars ++ [Message.human input] in
          let '(r, l) := llm_chat messages config (hw_llm w) in
          let w := set_model l w in
          match r with
          | Err e => (Err e, w)
          | Ok result =>
              let '(_, m) := save_context operations {[wh_input_key self := input]} {[wh_output_key self := llm_content result]} m in
              (Ok result, set_heap (<[cell := m]> (hw_heap w)) w)
          end
      end
  end.

Definition invoke (self : RunnableWithMessageHistory) (input : string) (config : option RunnableConfig) : Act HistoryWorld LcelError LLMResult :=
  cell ← select_memory self config; turn self input config cell.
End with_history.
Arguments LLMResult : clear implicits.
Arguments HistoryMode : clear implicits.
Arguments RunnableWithMessageHistory : clear implicits.
Arguments HistoryWorld : clear implicits.

(** ** No turn is lost *)

(** What a memory that keeps a conversation promises: loading gives the messages it holds, and
    saving a turn adds its two messages. *)
Class KeepsTurns {M : Type} (operations : BaseMemory M) (from_value : JsonValue -> option Message) (input_key output_key : string) := {
  holds : M -> list Message -> Prop;
  loads m msgs : holds m msgs -> exists vars,
    load_memory_variables operations ∅ m = Ok vars /\ memory_variables_to_messages from_value vars = msgs;
  saves m msgs input output : holds m msgs ->
    exists r m', save_context operations {[input_key := input]} {[output_key := output]} m = (r, m') /\
      holds m' (msgs ++ [Message.human input; Message.ai output]);
}.

Section sessions.
Context `{H : Host} {M L : Type} (operations : BaseMemory M) (from_value : JsonValue -> option Message).
Context (input_key output_key : string) (max_sessions : nat) `{K : !KeepsTurns operations from_value input_key output_key}.
Context (llm_chat : list Message -> option RunnableConfig -> L -> result LcelError LLMResult * L).
(** The factory makes a memory for each call, which may know the history of the session. *)
Context (make : string -> M) (history : string -> list Message) (make_holds : forall id, holds (make id) (history id)) (placeholder : M).

Definition fresh_memory (session_id : string) (heap : list M) : nat * list M := (length heap, heap ++ [make session_id]).

Notation World := (HistoryWorld M L).

Definition sessions_world (l : L) : RunnableWithMessageHistory M * World :=
  let '(self, w) := with_session_history fresh_memory placeholder (mkHistoryWorld [] (mkSessionCache ∅ []) l) in
  (with_max_sessions max_sessions (with_output_key output_key (with_input_key input_key self)), w).

(** *** Schedules

    A call selects the memory of its session and has its turn later; [sy_said] records the
    finished turns with their sessions and memories. *)
Inductive Event : Type :=
| Selects (call : nat) (config : option RunnableConfig)
| Turns (call : nat) (input : string) (config : option RunnableConfig).

Record Said := mkSaid {
  sa_session : string;
  sa_cell : nat;
  sa_input : string;
  sa_output : string;
}.

Record System := mkSystem {
  sy_world : World;
  sy_pending : gmap nat (string * nat);
  sy_said : list Said;
}.

Definition session_of (config : option RunnableConfig) : string :=
  default "" ((config ≫= RunnableConfig.configurable_value "session_id") ≫= as_str).

Definition happens (self : RunnableWithMessageHistory M) (s : System) (e : Event) : System :=
  match e with
  | Selects call config =>
      match select_memory self config (sy_world s) with
      | (Ok cell, w) => mkSystem w (<[call := (session_of config, cell)]> (sy_pending s)) (sy_said s)
      | (Err _, w) => mkSystem w (sy_pending s) (sy_said s)
      end
  | Turns call input config =>
      match sy_pending s !! call with
      | None => s
      | Some (session, cell) =>
          match turn operations from_value llm_chat self input config cell (sy_world s) with
          | (Ok r, w) => mkSystem w (base.delete call (sy_pending s)) (sy_said s ++ [mkSaid session cell input (llm_content r)])
          | (Err _, w) => mkSystem w (base.delete call (sy_pending s)) (sy_said s)
          end
      end
  end.

Definition system_after (events : list Event) (l : L) : System :=
  let '(self, w) := sessions_world l in foldl (happens self) (mkSystem w ∅ []) events.

(** The conversation of a session on a cell. *)
Definition said_by (session : string) (cell : nat) (said : list Said) : list Message :=
  said ≫= fun t => if decide (sa_session t = session /\ sa_cell t = cell) then [Message.human (sa_input t); Message.ai (sa_output t)] else [].

Lemma said_by_snoc session cell said t :
  said_by session cell (said ++ [t]) = said_by session cell said ++
    if decide (sa_session t = session /\ sa_cell t = cell) then [Message.human (sa_input t); Message.ai (sa_output t)] else [].
Proof. unfold said_by. by rewrite bind_app /= app_nil_r. Qed.

Lemma said_by_nobody session cell said : Forall (fun t => sa_cell t <> cell) said -> said_by session cell said = [].
Proof. induction 1 as [|t said Ht _ IH]; [done|]. unfold said_by in *. cbn [mbind list_bind]. rewrite IH decide_False //. by intros []. Qed.

(** The cell of the placeholder is 0; every other cell belongs to the session it was made for. *)
Definition a_slot (w : World) (cell : nat) : Prop := 0 < cell < length (hw_heap w).

Record cache_ok (owner : nat -> string) (w : World) : Prop := {
  co_order : NoDup (slot_order (hw_cache w));
  co_slots id : id ∈ slot_order (hw_cache w) <-> is_Some (slots (hw_cache w) !! id);
  co_bound : size (slots (hw_cache w)) <= Nat.max max_sessions 1;
  co_cells id cell : slots (hw_cache w) !! id = Some cell -> a_slot w cell /\ owner cell = id;
}.

Record kept (owner : nat -> string) (s : System) : Prop := {
  ke_cache : cache_ok owner (sy_world s);
  ke_heap : 0 < length (hw_heap (sy_world s));
  ke_pending call session cell : sy_pending s !! call = Some (session, cell) -> a_slot (sy_world s) cell /\ owner cell = session;
  ke_said : Forall (fun t => a_slot (sy_world s) (sa_cell t) /\ owner (sa_cell t) = sa_session t) (sy_said s);
  ke_memory cell : a_slot (sy_world s) cell -> exists m, hw_heap (sy_world s) !! cell = Some m /\
    holds m (history (owner cell) ++ said_by (owner cell) cell (sy_said s));
}.

Section invariant.
Context (l0 : L).
Notation self := (sessions_world l0).1.

Lemma self_is : self = mkWithHistory (Sessions fresh_memory (Nat.max max_sessions 1) 0) input_key output_key.
Proof. done. Qed.

Lemma evict_ok max c : NoDup (slot_order c) -> (forall id, id ∈ slot_order c <-> is_Some (slots c !! id)) -> 1 <= max -> size (slots c) <= max ->
  let c' := evict max c in
  NoDup (slot_order c') /\ (forall id, id ∈ slot_order c' <-> is_Some (slots c' !! id)) /\ size (slots c') < max /\ slots c' ⊆ slots c.
Proof.
  intros Hnd Hs Hmax Hsz. unfold evict. destruct (Nat.leb_spec max (size (slots c))) as [Hf|Hf]; [|done].
  destruct (slot_order c) as [|oldest order] eqn:Eo.
  - exfalso. assert (slots c = ∅) as E; [|rewrite E map_size_empty in Hf; lia].
    apply map_eq. intros id. rewrite lookup_empty. destruct (slots c !! id) eqn:Ei; [|done].
    assert (id ∈ @nil string) by (apply Hs; by eexists). by apply not_elem_of_nil in H0.
  - apply NoDup_cons in Hnd as [Hn Hnd]. cbn. assert (is_Some (slots c !! oldest)) as Ho by (apply Hs; by left). split_and!.
    + done.
    + intros id. destruct (decide (id = oldest)) as [->|Hne].
      * rewrite lookup_delete_eq. split; [done|by intros [? ?]].
      * rewrite lookup_delete_ne // -Hs elem_of_cons. naive_solver.
    + destruct Ho as [x Hx]. rewrite map_size_delete Hx. lia.
    + apply delete_subseteq.
Qed.

(** A new cell belongs to the session it is made for. *)
Definition owned_by (owner : nat -> string) (cell : nat) (id : string) : nat -> string :=
  fun c => if decide (c = cell) then id else owner c.

Lemma select_kept owner s call config : kept owner s -> exists owner', kept owner' (happens self s (Selects call config)).
Proof.
  intros [[Hnd Hs Hb Hc] Hh Hp Hsd Hm]. rewrite self_is. cbn [happens]. unfold select_memory, session_of. cbn [wh_mode].
  destruct (_ ≫= as_str) as [id|]; [|by exists owner; split]. cbn [default from_option].
  destruct (slots (hw_cache (sy_world s)) !! id) as [cell|] eqn:Ei.
  { exists owner. split; cbn; try done. intros call' session' cell'. destruct (decide (call' = call)) as [->|Hne].
    - rewrite lookup_insert_eq. intros [= <- <-]. by apply Hc.
    - rewrite lookup_insert_ne //. apply Hp. }
  destruct (evict_ok (Nat.max max_sessions 1) (hw_cache (sy_world s))) as (Hnd' & Hs' & Hb' & Hsub); [done|done|lia|done|].
  set (c := evict _ _) in *. cbn [fresh_memory]. set (new := length (hw_heap (sy_world s))). exists (owned_by owner new id).
  assert (forall cell x, a_slot (sy_world s) cell /\ owner cell = x ->
    0 < cell < length (hw_heap (sy_world s) ++ [make id]) /\ owned_by owner new id cell = x) as Hgrow.
  { intros cell x [[? ?] ?]. rewrite length_app /= /owned_by decide_False; [|unfold new; lia]. split; [lia|done]. }
  assert (0 < new < length (hw_heap (sy_world s) ++ [make id]) /\ owned_by owner new id new = id) as Hnew.
  { rewrite length_app /= /owned_by decide_True //. split; [unfold new; lia|done]. }
  assert (slots c !! id = None) as Hid.
  { destruct (slots c !! id) eqn:E; [|done]. apply (lookup_weaken _ _ _ _ E) in Hsub. congruence. }
  split; cbn; try (unfold a_slot; cbn); [split; cbn|rewrite length_app /=; lia|..].
  - apply NoDup_app. split_and!; [done| |apply NoDup_singleton]. intros x Hx ->%list_elem_of_singleton. apply Hs' in Hx as [? ?]. congruence.
  - intros x. rewrite elem_of_app list_elem_of_singleton lookup_insert_is_Some Hs'. destruct (decide (id = x)); naive_solver.
  - by rewrite map_size_insert_None.
  - unfold a_slot. cbn. intros x cell. destruct (decide (x = id)) as [->|Hne].
    + rewrite lookup_insert_eq. by intros [= <-].
    + rewrite lookup_insert_ne //. intros Hx. apply Hgrow, Hc. by eapply lookup_weaken.
  - intros call' session' cell. destruct (decide (call' = call)) as [->|Hne].
    + rewrite lookup_insert_eq. by intros [= <- <-].
    + rewrite lookup_insert_ne //. intros Hx. by apply Hgrow, (Hp call').
  - eapply Forall_impl; [exact Hsd|]. intros t. apply Hgrow.
  - intros cell [Hpos Hlt]. rewrite length_app /= in Hlt. unfold owned_by. destruct (decide (cell = new)) as [->|Hne].
    + exists (make id). rewrite /new lookup_app_r // Nat.sub_diag. split; [done|].
      change (holds (make id) (history id ++ said_by id new (sy_said s))).
      rewrite said_by_nobody ?app_nil_r; [apply make_holds|]. eapply Forall_impl; [exact Hsd|]. intros t [[_ Ht] _]. unfold new. lia.
    + rewrite lookup_app_l; [|unfold new in Hne; lia]. apply Hm. split; [done|]. unfold new in Hne. lia.
Qed.

(** A turn asks the model about everything that its session said on its cell, and says the
    answer. *)
Lemma turn_is owner s cell input config : kept owner s -> a_slot (sy_world s) cell ->
  exists m', holds m' (history (owner cell) ++ said_by (owner cell) cell (sy_said s) ++
      [Message.human input; Message.ai match (llm_chat (history (owner cell) ++ said_by (owner cell) cell (sy_said s) ++ [Message.human input]) config
         (hw_llm (sy_world s))).1 with Ok r => llm_content r | Err _ => "" end]) /\
  turn operations from_value llm_chat self input config cell (sy_world s) =
  let '(r, l) := llm_chat (history (owner cell) ++ said_by (owner cell) cell (sy_said s) ++ [Message.human input]) config (hw_llm (sy_world s)) in
  let w := set_model l (sy_world s) in
  (r, match r with Ok _ => set_heap (<[cell := m']> (hw_heap w)) w | Err _ => w end).
Proof.
  intros Hk Hc. destruct (ke_memory _ _ Hk cell Hc) as (m & Hcell & Hholds). set (msgs := history _ ++ said_by _ _ _) in *.
  destruct (loads m msgs Hholds) as (vars & Hv & Hmsgs). unfold turn. rewrite Hcell Hv Hmsgs self_is !(app_assoc (history _)) -/msgs.
  cbn [wh_input_key wh_output_key]. destruct (llm_chat _ config _) as [r l]. cbn [fst].
  destruct (saves m msgs input (match r with Ok r => llm_content r | Err _ => "" end) Hholds) as (r' & m' & Hs & Hm').
  exists m'. split; [done|]. destruct r as [r|e]; [|done]. by rewrite Hs.
Qed.

Lemma turn_kept owner s call input config : kept owner s -> kept owner (happens self s (Turns call input config)).
Proof.
  intros Hk. cbn [happens]. destruct (sy_pending s !! call) as [[session cell]|] eqn:Ep; [|done].
  destruct (ke_pending _ _ Hk _ _ _ Ep) as [Hc Ho]. destruct (turn_is owner s cell input config Hk Hc) as (m' & Hm' & ->).
  rewrite Ho in Hm' |- *. destruct (llm_chat _ config _) as [r l]. cbn [fst] in Hm'. destruct Hk as [Hcache Hh Hp Hsd Hm].
  assert (forall call' session' cell', base.delete call (sy_pending s) !! call' = Some (session', cell') ->
    a_slot (sy_world s) cell' /\ owner cell' = session') as Hp'.
  { intros call' session' cell' [_ Hx]%lookup_delete_Some. by eapply Hp. }
  destruct r as [r|e]; [|split; cbn; [by destruct Hcache; split|done..]].
  assert (forall x, a_slot (set_heap (<[cell := m']> (hw_heap (set_model l (sy_world s)))) (set_model l (sy_world s))) x <->
    a_slot (sy_world s) x) as Hslot.
  { intros x. unfold a_slot. cbn. by rewrite length_insert. }
  split; cbn [sy_world sy_pending sy_said].
  - destruct Hcache as [Hnd Hs Hb Hcs]. split; try done. intros id x Hx. rewrite Hslot. by apply Hcs.
  - cbn. by rewrite length_insert.
  - intros call' session' cell' Hx. rewrite Hslot. by apply (Hp' call').
  - apply Forall_app. split; [|by apply Forall_singleton; rewrite Hslot]. eapply Forall_impl; [exact Hsd|]. intros t. by rewrite Hslot.
  - intros cell' Hx%Hslot. cbn. rewrite said_by_snoc. cbn [sa_session sa_cell sa_input sa_output].
    destruct (decide (cell = cell')) as [<-|Hne].
    + exists m'. rewrite list_lookup_insert_eq; [|by destruct Hc]. rewrite Ho decide_True //.
    + rewrite list_lookup_insert_ne // decide_False; [|by intros []]. rewrite app_nil_r. by apply Hm.
Qed.

Lemma kept_always events : exists owner, kept owner (system_after events l0).
Proof.
  unfold system_after. change (sessions_world l0) with (self, (sessions_world l0).2). cbv iota beta.
  assert (exists owner, kept owner (mkSystem (sessions_world l0).2 ∅ [])) as H0.
  { exists (fun _ => ""). split; cbn.
    - split; cbn; [constructor|..|done].
      + intros id. rewrite lookup_empty elem_of_nil. split; [done|by intros [? ?]].
      + rewrite map_size_empty. lia.
    - lia.
    - intros call session cell. by rewrite lookup_empty.
    - constructor.
    - unfold a_slot. cbn. lia. }
  revert H0. generalize (mkSystem (sessions_world l0).2 ∅ []). induction events as [|e events IH]; intros s [owner Hs]; [by exists owner|].
  cbn [foldl]. apply IH. destruct e; [by eapply select_kept|exists owner; by apply turn_kept].
Qed.

(** C36: For memories that keep turns, of which the factory makes a new one per call, in every
    schedule of calls, which select the memory of their session and have their turn with other
    calls in between: the cache keeps at most [max_sessions] sessions and no two sessions share
    a memory; what was said on a memory that a call waits for was said by the session of the
    call; and its turn asks the model about the history that the memory was made with, all turns
    of the session that were finished on the memory, in order, and the input. *)
Theorem sessions_keep_history events :
  let s := system_after events l0 in
  size (slots (hw_cache (sy_world s))) <= Nat.max max_sessions 1 /\
  (forall id id' cell, slots (hw_cache (sy_world s)) !! id = Some cell -> slots (hw_cache (sy_world s)) !! id' = Some cell -> id = id') /\
  forall call session cell input config, sy_pending s !! call = Some (session, cell) ->
    Forall (fun t => sa_cell t = cell -> sa_session t = session) (sy_said s) /\
    (turn operations from_value llm_chat self input config cell (sy_world s)).1 =
    (llm_chat (history session ++ said_by session cell (sy_said s) ++ [Message.human input]) config (hw_llm (sy_world s))).1.
Proof.
  intros s. destruct (kept_always events) as [owner Hk]. fold s in Hk. split_and!.
  - eapply co_bound, Hk.
  - intros id id' cell [_ <-]%(co_cells _ _ (ke_cache _ _ Hk)) [_ <-]%(co_cells _ _ (ke_cache _ _ Hk)). done.
  - intros call session cell input config [Hc <-]%(ke_pending _ _ Hk). split.
    + eapply Forall_impl; [exact (ke_said _ _ Hk)|]. by intros t [_ <-] <-.
    + destruct (turn_is owner s cell input config Hk Hc) as (m' & _ & ->). by destruct (llm_chat _ _ _).
Qed.
End invariant.
End sessions.

(** *** Buffer memories

    A buffer that returns messages keeps turns, when texts of people and models survive serde. *)

Section buffers.
Context (to_value : Message -> result string JsonValue) (from_value : JsonValue -> option Message).
Definition plain_text (m : Message) : Prop := m = Message.human (content m) \/ m = Message.ai (content m).
Hypothesis message_roundtrips : forall m, plain_text m -> exists v, to_value m = Ok v /\ from_value v = Some m.
Context (input_key output_key memory_key : string).

Definition buffer_of (history : list Message) : BufferMemory := mkBufferMemory history input_key output_key memory_key true.

Lemma roundtrip_loaded history : Forall plain_text history ->
  exists vars, load_memory_variables (ConversationBufferMemory to_value) ∅ (buffer_of history) = Ok vars /\ memory_variables_to_messages from_value vars = history.
Proof.
  intros Hh. assert (exists vs, collect_results (serialize_message_to_prompt to_value) history = Ok vs /\ items_to_messages from_value vs = history) as (vs & Hc & Hi).
  { induction Hh as [|m l Hm _ (vs & Hc & Hi)]; [by exists []|]. destruct (message_roundtrips m Hm) as (v & Hv & Hfv).
    assert (serialize_message_to_prompt to_value m = Ok v) as Hs.
    { assert (strip_id m = m) as Hid by (destruct Hm as [-> | ->]; done). by rewrite /serialize_message_to_prompt Hid Hv. }
    exists (v :: vs). cbn [collect_results]. rewrite Hs Hc. split; [done|].
    unfold items_to_messages in *. cbn [mbind list_bind]. by rewrite Hfv Hi. }
  exists {[memory_key := JArray vs]}. cbn. unfold load_history. cbn [bm_return_messages buffer_of]. rewrite Hc. split; [done|].
  unfold memory_variables_to_messages. rewrite map_to_list_singleton. cbn. by rewrite lookup_singleton_eq /= Hi app_nil_r.
Qed.

Program Definition buffer_keeps_turns : KeepsTurns (ConversationBufferMemory to_value) from_value input_key output_key :=
  {| holds m msgs := m = buffer_of msgs /\ Forall plain_text msgs |}.
Next Obligation. intros m msgs [-> Hm]. by apply roundtrip_loaded. Qed.
Next Obligation.
  intros m msgs input output [-> Hm]. exists (Ok ()), (buffer_of (msgs ++ [Message.human input; Message.ai output])).
  cbn [save_context ConversationBufferMemory]. unfold buffer_save, act_zoom, buffer_record, require_key.
  cbn [buffer_of bm_input_key bm_output_key bm_chat_memory]. rewrite !lookup_singleton_eq.
  unfold mbind, act_bind, act_of_result, add_message. cbn -[app]. rewrite -app_assoc. split; [done|]. split; [done|].
  apply Forall_app. split; [done|]. constructor; [by left|]. apply Forall_singleton. by right.
Qed.
End buffers.

(** ** At work *)

#[local] Instance quiet_host : Host := {|
  World := unit; UserType := unit; UserValue := fun _ => unit; user_to_value := fun _ _ => Err "";
  Handler := unit; Tracer := unit; cancelled := fun _ _ => false; sleep := fun _ w => w;
|}.

(** Texts as pairs; a model that answers with what it was asked. *)
Definition text_to_value (m : Message) : result string JsonValue :=
  Ok (JArray [JBool (Message.is_human m); JString (content m)]).
Definition text_of_value (v : JsonValue) : option Message :=
  match v with
  | JArray [JBool true; JString s] => Some (Message.human s)
  | JArray [JBool false; JString s] => Some (Message.ai s)
  | _ => None
  end.
Lemma text_roundtrips m : plain_text m -> exists v, text_to_value m = Ok v /\ text_of_value v = Some m.
Proof. intros [-> | ->]; by eexists. Qed.
#[local] Instance text_keeps_turns : KeepsTurns (ConversationBufferMemory text_to_value) text_of_value "input" "output" :=
  buffer_keeps_turns text_to_value text_of_value text_roundtrips "input" "output" "history".

Definition echo (messages : list Message) (config : option RunnableConfig) (calls : nat) : result LcelError LLMResult * nat :=
  (Ok (mkLLMResult (str_join "," (content <$> messages)) "echo" None None None), S calls).
Definition for_session (id : string) : option RunnableConfig := Some (RunnableConfig.with_configurable "session_id" (JString id) RunnableConfig.new).

(** A session starts with a greeting. *)
Definition greeting (id : string) : list Message := [Message.ai ("hi " +:+ id)].
Definition greeted (id : string) : BufferMemory := buffer_of "input" "output" "history" (greeting id).

(** Two calls of session a and one of b; the second of a selects before the first has its
    turn.  With room for one session, b evicts a. *)
Definition interleaved : list Event :=
  [Selects 1 (for_session "a"); Selects 2 (for_session "a"); Selects 3 (for_session "b");
   Turns 1 "x" (for_session "a"); Turns 3 "y" (for_session "b"); Selects 4 (for_session "a")].
Definition interleaved_system (max_sessions : nat) :=
  system_after (ConversationBufferMemory text_to_value) text_of_value "input" "output" max_sessions echo greeted buffer_new interleaved 0.

Example interleaved_said : sy_said (interleaved_system 2) = [mkSaid "a" 1 "x" "hi a,x"; mkSaid "b" 2 "y" "hi b,y"] /\
  sy_pending (interleaved_system 2) !! 2 = Some ("a", 1) /\ sy_pending (interleaved_system 2) !! 4 = Some ("a", 1).
Proof. by vm_compute. Qed.

(** An evicted session starts anew, and the call that was waiting writes to what was evicted. *)
Example evicted_session_forgets : sy_pending (interleaved_system 1) !! 2 = Some ("a", 1) /\
  sy_pending (interleaved_system 1) !! 4 = Some ("a", 3) /\ said_by "a" 3 (sy_said (interleaved_system 1)) = [].
Proof. by vm_compute. Qed.

Lemma sessions_keep_history_witness :
  sy_pending (interleaved_system 2) !! 2 = Some ("a", 1) /\
  (turn (ConversationBufferMemory text_to_value) text_of_value echo (sessions_world "input" "output" 2 greeted buffer_new 0).1 "z"
     (for_session "a") 1 (sy_world (interleaved_system 2))).1 =
  Ok (mkLLMResult "hi a,x,hi a,x,z" "echo" None None None).
Proof.
  assert (sy_pending (interleaved_system 2) !! 2 = Some ("a", 1)) as Hp by by vm_compute.
  split; [exact Hp|].
  assert (forall id, holds (greeted id) (greeting id)) as Hg by (intros id; split; [done|]; apply Forall_singleton; by right).
  exact (proj2 (proj2 (proj2 (sessions_keep_history (ConversationBufferMemory text_to_value) text_of_value "input" "output" 2 echo
    greeted greeting Hg buffer_new 0 interleaved)) 2 "a" 1 "z" (for_session "a") Hp)).
Defined.
