(* ===== verification/JsonRepair.v ===== *)
(** * Tolerant JSON ([crates/lc-shared/src/json_repair.rs], [crates/lc-core/src/json_parse.rs],
      [structured_output/parser.rs], [output_parsers/json_parser.rs], [output_parsers/list_parser.rs])

    Model output is repaired by a chain of passes over its characters, each a small state
    machine, and parsed; a stream of tokens is parsed as it arrives.  A text is the list
    of its Unicode scalars; the passes that walk over bytes only compare them with ASCII
    characters, which no other character contains.  [serde_json::from_str] is a
    parameter. *)

From stdpp Require Import gmap strings list pretty.
From Stdlib Require Import Ascii.
From S2P Require Import Prelude Json Message TemplateParser TextSplitter Process Pool.

(** ** Characters *)

Definition text (s : string) : Text := N_of_ascii <$> String.list_ascii_of_string s.

Definition quote : N := 34.
Definition backslash : N := 92.
Definition comma : N := 44.
Definition colon : N := 58.
Definition open_brace : N := 123.
Definition close_brace : N := 125.
Definition open_bracket : N := 91.
Definition close_bracket : N := 93.

(** [char::is_whitespace]: the Unicode property White_Space. *)
Definition is_whitespace (c : N) : bool :=
  ((9 <=? c) && (c <=? 13) || (c =? 32) || (c =? 133) || (c =? 160) || (c =? 5760) ||
   (8192 <=? c) && (c <=? 8202) || (c =? 8232) || (c =? 8233) || (c =? 8239) || (c =? 8287) || (c =? 12288))%N.

Fixpoint trim_start (t : Text) : Text :=
  match t with c :: t' => if is_whitespace c then trim_start t' else t | [] => [] end.
Definition trim_end (t : Text) : Text := reverse (trim_start (reverse t)).
Definition trim (t : Text) : Text := trim_end (trim_start t).

(** [str::find] of a pattern: what comes before it. *)
Fixpoint before (p t : Text) : option Text :=
  match strip p t with
  | Some _ => Some []
  | None => match t with [] => None | c :: t => cons c <$> before p t end
  end.

(** The bytes of a character and of a text in UTF-8. *)
Definition char_len (c : N) : nat :=
  if (c <? 128)%N then 1 else if (c <? 2048)%N then 2 else if (c <? 65536)%N then 3 else 4.
Definition utf8_len (t : Text) : nat := sum_list (list_fmap _ _ char_len t).

(** [truncate_at_char_boundary] ([crates/lc-core/src/text.rs]). *)
Fixpoint truncate_at_char_boundary (t : Text) (max_bytes : nat) : Text :=
  match t with
  | [] => []
  | c :: t => if char_len c <=? max_bytes then c :: truncate_at_char_boundary t (max_bytes - char_len c) else []
  end.

Definition is_open (c : N) : bool := ((c =? open_brace) || (c =? open_bracket))%N.
Definition is_close (c : N) : bool := ((c =? close_brace) || (c =? close_bracket))%N.

(** ** The repair steps *)

Definition fence : Text := text "```".

Definition strip_code_fences (t : Text) : Text :=
  let trimmed := trim t in
  let inside rest := match before fence rest with Some body => trim body | None => trim rest end in
  match strip (fence ++ text "json") trimmed with
  | Some rest => inside rest
  | None => match strip fence trimmed with Some rest => inside rest | None => trimmed end
  end.

(** From the first bracket on. *)
Fixpoint from_open (t : Text) : Text :=
  match t with [] => [] | c :: t' => if is_open c then t else from_open t' end.

(** Up to the bracket that closes the first one, brackets of the other kind left aside. *)
Fixpoint until_closed (opening closing : N) (depth : Z) (in_string escape_next : bool) (t : Text) : option Text :=
  match t with
  | [] => None
  | c :: t =>
      if escape_next then cons c <$> until_closed opening closing depth in_string false t
      else if ((c =? backslash) && in_string)%N then cons c <$> until_closed opening closing depth in_string true t
      else if (c =? quote)%N then cons c <$> until_closed opening closing depth (negb in_string) false t
      else if in_string then cons c <$> until_closed opening closing depth in_string false t
      else if (c =? opening)%N then cons c <$> until_closed opening closing (depth + 1) false false t
      else if (c =? closing)%N then
        if (depth - 1 =? 0)%Z then Some [c] else cons c <$> until_closed opening closing (depth - 1) false false t
      else cons c <$> until_closed opening closing depth false false t
  end.

Definition extract_bracket_pair (t : Text) : Text :=
  match from_open t with
  | [] => t
  | (c :: _) as from =>
      let closing := if (c =? open_bracket)%N then close_bracket else close_brace in
      default t (until_closed c closing 0 false false from)
  end.

(** Whether what follows a quote makes it a closing one. *)
Definition closes_string (rest : Text) : bool :=
  match trim_start rest with
  | [] => true
  | c :: _ => ((c =? colon) || (c =? comma) || is_close c)%N
  end.

Fixpoint fix_quotes (in_string escape_next : bool) (t : Text) : Text :=
  match t with
  | [] => []
  | c :: t =>
      if in_string then
        if escape_next then c :: fix_quotes true false t
        else if (c =? backslash)%N then c :: fix_quotes true true t
        else if (c =? quote)%N then
          if closes_string t then c :: fix_quotes false false t else backslash :: c :: fix_quotes true false t
        else c :: fix_quotes true false t
      else c :: fix_quotes (c =? quote)%N false t
  end.

Definition fix_unescaped_quotes (t : Text) : Text := fix_quotes false false t.

(** Whether a closing bracket comes next. *)
Definition before_close (rest : Text) : bool :=
  match trim_start rest with c :: _ => is_close c | [] => false end.

Fixpoint drop_commas (in_string escape_next : bool) (t : Text) : Text :=
  match t with
  | [] => []
  | c :: t =>
      if in_string then
        c :: (if escape_next then drop_commas true false t
              else if (c =? backslash)%N then drop_commas true true t
              else drop_commas (negb (c =? quote)%N) false t)
      else if (c =? quote)%N then c :: drop_commas true false t
      else if ((c =? comma)%N && before_close t)%bool then drop_commas false false t
      else c :: drop_commas false false t
  end.

Definition remove_trailing_commas (t : Text) : Text := drop_commas false false t.

(** Up to the last closing bracket. *)
Fixpoint from_close (t : Text) : Text :=
  match t with [] => [] | c :: t' => if is_close c then t else from_close t' end.

Definition truncate_to_matching_bracket (t : Text) : Text :=
  let trimmed := trim_end t in
  match reverse trimmed with
  | (c :: _) as back =>
      if is_close c then trimmed
      else match from_close back with [] => t | kept => reverse kept end
  | [] => t
  end.

(** ** The pipeline *)

Inductive JsonRepairError : Type :=
| RepairFailed (msg : string)
| DeserializationFailed (details : Text).

Inductive JsonRepairStep : Type :=
| Trim
| StripCodeFences
| ExtractBracketPair
| FixUnescapedQuotes
| RemoveTrailingCommas
| TruncateTrailingGarbage.

Record JsonRepairPipeline := mkPipeline { steps : list JsonRepairStep }.

Definition default_pipeline : JsonRepairPipeline :=
  mkPipeline [Trim; StripCodeFences; ExtractBracketPair; FixUnescapedQuotes; RemoveTrailingCommas;
              TruncateTrailingGarbage].
Definition identity : JsonRepairPipeline := mkPipeline [].
Definition with_steps (steps : list JsonRepairStep) : JsonRepairPipeline := mkPipeline steps.

Definition apply_step (input : Text) (step : JsonRepairStep) : Text :=
  match step with
  | Trim => trim input
  | StripCodeFences => strip_code_fences input
  | ExtractBracketPair => extract_bracket_pair input
  | FixUnescapedQuotes => fix_unescaped_quotes input
  | RemoveTrailingCommas => remove_trailing_commas input
  | TruncateTrailingGarbage => truncate_to_matching_bracket input
  end.

Definition repair (self : JsonRepairPipeline) (raw : Text) : result JsonRepairError Text :=
  match foldl apply_step raw (steps self) with
  | [] => Err (RepairFailed "no JSON content found")
  | out => Ok out
  end.

Definition repair_json (raw : Text) : result JsonRepairError Text := repair default_pipeline raw.

(** [truncate]: the text up to the last of its first [max_len] characters, without that one. *)
Definition truncate (t : Text) (max_len : nat) : Text :=
  if utf8_len t <=? max_len then t else take (length (take max_len t) - 1) t ++ text "...".

Section parse.
Context {T : Type} (from_str : Text -> result Text T).

Definition pipeline_parse (self : JsonRepairPipeline) (raw : Text) : result JsonRepairError T :=
  repaired ← repair self raw;
  map_err (fun e => DeserializationFailed (e ++ text " (repaired JSON: " ++ truncate repaired 200 ++ text ")"))
    (from_str repaired).

Definition parse_tolerant_json (raw : Text) : result JsonRepairError T := pipeline_parse default_pipeline raw.

(** [ToolCall::parse_arguments] *)
Definition parse_arguments (call : ToolCall) : result JsonRepairError T :=
  parse_tolerant_json (chars (fc_arguments (tc_function call))).

(** *** Asking the model again ([json_parse.rs]) *)

Inductive LlmJsonParseError : Type :=
| LlmRepairFailed (msg : Text)
| LlmDeserializationFailed (details : Text)
| RetryExhausted (attempts : nat).

Definition llm_error (e : JsonRepairError) : LlmJsonParseError :=
  match e with
  | RepairFailed msg => LlmRepairFailed (text msg)
  | DeserializationFailed details => LlmDeserializationFailed details
  end.

Definition llm_error_text (e : LlmJsonParseError) : Text :=
  match e with
  | LlmRepairFailed msg => text "JSON repair failed: " ++ msg
  | LlmDeserializationFailed details => text "Deserialization failed: " ++ details
  | RetryExhausted attempts => text "All " ++ text (pretty attempts) ++ text " retry attempts failed"
  end.

Definition parse_llm_json (raw : Text) : result LlmJsonParseError T := map_err llm_error (parse_tolerant_json raw).

(** [more] attempts after this one. *)
Fixpoint parse_attempts {W} (retry_callback : Text -> Text -> Proc W (result LlmJsonParseError Text))
    (current_raw : Text) (attempt more : nat) : Proc W (result LlmJsonParseError T) :=
  match parse_llm_json current_raw with
  | Ok value => mret (Ok value)
  | Err e =>
      match more with
      | S more =>
          r ← retry_callback current_raw (llm_error_text e);
          match r with
          | Ok corrected => parse_attempts retry_callback corrected (S attempt) more
          | Err repair_err => mret (Err (LlmRepairFailed (llm_error_text repair_err)))
          end
      | 0 => mret (Err (RetryExhausted (attempt + 1)))
      end
  end.

Definition parse_llm_json_with_retry {W} (raw : Text) (max_retries : nat)
    (retry_callback : Text -> Text -> Proc W (result LlmJsonParseError Text)) : Proc W (result LlmJsonParseError T) :=
  parse_attempts retry_callback raw 0 max_retries.
End parse.

(** ** Partial JSON *)

(** The state of a scan: in a string, after a backslash, the closers expected (innermost
    first) and the quotes seen. *)
Record Scan := mkScan {
  sc_in_string : bool;
  sc_escape : bool;
  sc_closers : list N;
  sc_quotes : nat;
}.

Definition scan_char (s : Scan) (c : N) : Scan :=
  if sc_escape s then mkScan (sc_in_string s) false (sc_closers s) (sc_quotes s)
  else if ((c =? backslash)%N && sc_in_string s)%bool then mkScan (sc_in_string s) true (sc_closers s) (sc_quotes s)
  else if (c =? quote)%N then mkScan (negb (sc_in_string s)) false (sc_closers s) (S (sc_quotes s))
  else if sc_in_string s then s
  else if (c =? open_brace)%N then mkScan false false (close_brace :: sc_closers s) (sc_quotes s)
  else if (c =? open_bracket)%N then mkScan false false (close_bracket :: sc_closers s) (sc_quotes s)
  else if is_close c then mkScan false false (tail (sc_closers s)) (sc_quotes s)
  else s.

Definition scan (t : Text) : Scan := foldl scan_char (mkScan false false [] 0) t.

Definition repair_partial_json (t : Text) : Text :=
  let repaired := trim t in
  let s := scan repaired in
  let repaired := if Nat.odd (sc_quotes s) then repaired ++ [quote] else repaired in
  remove_trailing_commas (repaired ++ sc_closers s).

(** ** The incremental parser *)

Inductive PartialJsonError : Type :=
| Incomplete (msg : Text)
| Invalid (msg : Text).

Record PartialJsonParser := mkParser {
  buffer : Text;
  depth : nat;
  in_string : bool;
  escape_next : bool;
}.

(** Up to the bracket that closes the first one, whatever their kinds; all of it when
    nothing does. *)
Fixpoint until_balanced (depth : Z) (in_string escape_next : bool) (t : Text) : Text :=
  match t with
  | [] => []
  | c :: t =>
      if escape_next then c :: until_balanced depth in_string false t
      else if ((c =? backslash) && in_string)%N then c :: until_balanced depth in_string true t
      else if (c =? quote)%N then c :: until_balanced depth (negb in_string) false t
      else if in_string then c :: until_balanced depth in_string false t
      else if is_open c then c :: until_balanced (depth + 1) false false t
      else if is_close c then
        if (depth - 1 =? 0)%Z then [c] else c :: until_balanced (depth - 1) false false t
      else c :: until_balanced depth false false t
  end.

Definition strip_markdown_fence (buffer : Text) : Text := until_balanced 0 false false (from_open buffer).

Module PartialJsonParser.
Definition new : PartialJsonParser := mkParser [] 0 false false.

Definition scan_char (p : PartialJsonParser) (c : N) : PartialJsonParser :=
  if escape_next p then mkParser (buffer p) (depth p) (in_string p) false
  else if ((c =? backslash)%N && in_string p)%bool then mkParser (buffer p) (depth p) (in_string p) true
  else if (c =? quote)%N then mkParser (buffer p) (depth p) (negb (in_string p)) false
  else if in_string p then p
  else if is_open c then mkParser (buffer p) (S (depth p)) false false
  else if is_close c then mkParser (buffer p) (pred (depth p)) false false
  else p.

Definition rescan (p : PartialJsonParser) (t : Text) : PartialJsonParser := foldl scan_char p t.

Section ops.
Context (from_str : Text -> result Text JsonValue).

Definition push_and_parse (token : Text) (self : PartialJsonParser)
    : result PartialJsonError JsonValue * PartialJsonParser :=
  let self := rescan self token in
  let self := mkParser (buffer self ++ token) (depth self) (in_string self) (escape_next self) in
  let json := strip_markdown_fence (buffer self) in
  match from_str json with
  | Ok value => (Ok value, self)
  | Err _ =>
      let attempt :=
        let trimmed := trim json in
        if (0 <? depth self) || match trimmed with c :: _ => is_open c | [] => false end
        then ok (from_str (repair_partial_json json)) else None in
      match attempt with
      | Some value => (Ok value, self)
      | None =>
          let self := match json with [] => new | _ => self end in
          (Err (Incomplete (text "Buffer has " ++ text (pretty (utf8_len (buffer self))) ++ text " chars, depth="
                            ++ text (pretty (depth self)))), self)
      end
  end.

Definition finalize (self : PartialJsonParser) : result PartialJsonError JsonValue :=
  let json := strip_markdown_fence (buffer self) in
  match from_str json with
  | Ok value => Ok value
  | Err _ =>
      map_err (fun e => Invalid (text "Failed to parse final buffer (" ++ text (pretty (utf8_len (buffer self)))
        ++ text " chars): " ++ e ++ text ". Buffer: " ++ truncate_at_char_boundary (buffer self) 200))
        (from_str (repair_partial_json json))
  end.
End ops.

Definition reanchor (self : PartialJsonParser) : PartialJsonParser :=
  let anchored := strip_markdown_fence (buffer self) in
  rescan (mkParser anchored 0 false false) anchored.
End PartialJsonParser.

(** ** Output parsers *)

(** Of a [serde_json::Error]: its line, column and text. *)
Record JsonSyntaxError := mkSyntaxError { err_line : nat; err_column : nat; err_text : Text }.

Record JsonOutputParser := mkJsonOutputParser { partial : bool }.

Definition extract_json_str (t : Text) : Text :=
  match strip_markdown_fence t with [] => trim t | json => trim json end.

Definition preview_slice (t : Text) (max_chars : nat) : Text := take max_chars t.

Section output.
Context (from_str : Text -> result JsonSyntaxError JsonValue).

Definition parse_partial_json (t : Text) : result Text JsonValue :=
  match from_str t with
  | Ok value => Ok value
  | Err _ =>
      map_err (fun _ => text "partial JSON parse failed: " ++ preview_slice t 200) (from_str (repair_partial_json t))
  end.

Definition json_output_parse (self : JsonOutputParser) (t : Text) : result Text JsonValue :=
  let json_str := extract_json_str t in
  if partial self then parse_partial_json json_str
  else map_err (fun e => text "JSON parse failed (position " ++ text (pretty (err_line e)) ++ text ":"
         ++ text (pretty (err_column e)) ++ text "): " ++ err_text e ++ text ", input: " ++ preview_slice json_str 200)
         (from_str json_str).
End output.

(** [CommaSeparatedListOutputParser::parse] *)
Definition list_parse (t : Text) : list Text :=
  match trim t with
  | [] => []
  | t => filter (fun s => s <> []) (trim <$> (split_on [comma] t ≫= split_on [65292%N]))
  end.
