(* ===== verification/JsonRepairFacts.v ===== *)
(** * What repair does to JSON

    [repair_json] does not touch valid JSON objects and arrays ([repair_keeps_valid]), for
    every layout: the grammar of RFC 8259, with its white space, is [Value].  Repairing
    partial JSON closes every string and structure ([partial_repair_closes]).  What the
    incremental parser answers depends on the text that has arrived and not on how it was
    cut into tokens ([chunking_irrelevant]). *)

From stdpp Require Import gmap strings list pretty.
From S2P Require Import Prelude Json Message TemplateParser TextSplitter Process Pool JsonRepair.

(** ** JSON texts *)

Definition json_space (c : N) : Prop := c = 32%N \/ c = 9%N \/ c = 10%N \/ c = 13%N.
Notation Space := (Forall json_space).

(** The characters of numbers and literals. *)
Definition scalar_char (c : N) : Prop :=
  is_whitespace c = false /\ is_open c = false /\ is_close c = false /\
  c <> quote /\ c <> backslash /\ c <> comma /\ c <> colon.

(** Between the quotes of a string. *)
Inductive Body : Text -> Prop :=
| body_end : Body []
| body_char c b : c <> quote -> c <> backslash -> Body b -> Body (c :: b)
| body_escape c b : Body b -> Body (backslash :: c :: b).

Definition Str (t : Text) : Prop := exists b, t = quote :: b ++ [quote] /\ Body b.

Inductive Value : Text -> Prop :=
| value_scalar t : t <> [] -> Forall scalar_char t -> Value t
| value_string t : Str t -> Value t
| value_structure t : Structure t -> Value t
with Structure : Text -> Prop :=
| empty_array w : Space w -> Structure (open_bracket :: w ++ [close_bracket])
| array l : Items l -> Structure (open_bracket :: l ++ [close_bracket])
| empty_object w : Space w -> Structure (open_brace :: w ++ [close_brace])
| object l : Members l -> Structure (open_brace :: l ++ [close_brace])
with Items : Text -> Prop :=
| last_item w v w' : Space w -> Value v -> Space w' -> Items (w ++ v ++ w')
| more_items w v w' l : Space w -> Value v -> Space w' -> Items l -> Items ((w ++ v ++ w') ++ comma :: l)
with Members : Text -> Prop :=
| last_member m : Member m -> Members m
| more_members m l : Member m -> Members l -> Members (m ++ comma :: l)
with Member : Text -> Prop :=
| member w k w' w2 v w3 : Space w -> Str k -> Space w' -> Space w2 -> Value v -> Space w3 ->
    Member ((w ++ k ++ w') ++ colon :: w2 ++ v ++ w3).

Scheme Value_rec' := Minimality for Value Sort Prop
  with Structure_rec' := Minimality for Structure Sort Prop
  with Items_rec' := Minimality for Items Sort Prop
  with Members_rec' := Minimality for Members Sort Prop
  with Member_rec' := Minimality for Member Sort Prop.
Combined Scheme json_induction from Value_rec', Structure_rec', Items_rec', Members_rec', Member_rec'.

(** ** What the passes do to a part of a JSON text *)

Definition pair_of (o c : N) : Prop := (o, c) = (open_bracket, close_bracket) \/ (o, c) = (open_brace, close_brace).

(** Every pass copies the part and goes on, outside strings, with what follows. *)
Record Passes (x : Text) : Prop := mkPasses {
  pass_quotes rest : closes_string rest = true -> fix_quotes false false (x ++ rest) = x ++ fix_quotes false false rest;
  pass_commas rest : drop_commas false false (x ++ rest) = x ++ drop_commas false false rest;
  pass_closed o c d rest : pair_of o c -> (1 <= d)%Z ->
    until_closed o c d false false (x ++ rest) = app x <$> until_closed o c d false false rest;
  pass_balanced d rest : (1 <= d)%Z ->
    until_balanced d false false (x ++ rest) = x ++ until_balanced d false false rest;
  pass_start : exists w c t, x = w ++ c :: t /\ Space w /\ is_whitespace c = false /\ is_close c = false;
}.

Lemma json_space_white c : json_space c -> is_whitespace c = true.
Proof. unfold json_space. naive_solver. Qed.

Lemma trim_start_space w rest : Space w -> trim_start (w ++ rest) = trim_start rest.
Proof. induction 1 as [|c w Hc Hw IH]; simpl; [done|]. by rewrite json_space_white. Qed.

(** What has been kept so far, in front. *)
Lemma kept_nil (kept : option Text) : kept = app [] <$> kept.
Proof. by destruct kept. Qed.
Lemma kept_cons x w (kept : option Text) : cons x <$> (app w <$> kept) = app (x :: w) <$> kept.
Proof. by destruct kept. Qed.
Lemma kept_app v w (kept : option Text) : app v <$> (app w <$> kept) = app (v ++ w) <$> kept.
Proof. destruct kept; simpl; [|done]. by rewrite app_assoc. Qed.

Lemma kept_snoc w c (kept : option Text) : app w <$> (cons c <$> kept) = app (w ++ [c]) <$> kept.
Proof. by rewrite -kept_app. Qed.

(** A character that no pass reacts to. *)
Definition inert (c : N) : Prop :=
  c <> quote /\ c <> comma /\ is_open c = false /\ is_close c = false.

Lemma inert_not c : inert c -> ((c =? quote) = false /\ (c =? comma) = false /\ (c =? open_brace) = false /\
  (c =? open_bracket) = false /\ (c =? close_brace) = false /\ (c =? close_bracket) = false)%N.
Proof.
  unfold inert, is_open, is_close. rewrite !orb_false_iff !N.eqb_neq. tauto.
Qed.

Lemma inert_quotes c rest : inert c -> fix_quotes false false (c :: rest) = c :: fix_quotes false false rest.
Proof. intros (Hq & _)%inert_not. simpl. by rewrite Hq. Qed.
Lemma inert_commas c rest : inert c -> drop_commas false false (c :: rest) = c :: drop_commas false false rest.
Proof. intros (Hq & Hc & _)%inert_not. simpl. by rewrite Hq Hc. Qed.
Lemma inert_closed o c x d rest :
  pair_of o c -> inert x -> until_closed o c d false false (x :: rest) = cons x <$> until_closed o c d false false rest.
Proof.
  intros Hp (Hq & _ & H1 & H2 & H3 & H4)%inert_not. simpl. rewrite andb_false_r Hq.
  by destruct Hp as [[= -> ->]|[= -> ->]]; rewrite ?H1 ?H2 ?H3 ?H4.
Qed.
Lemma inert_balanced x d rest :
  inert x -> until_balanced d false false (x :: rest) = x :: until_balanced d false false rest.
Proof.
  intros Hi. pose proof (inert_not x Hi) as (Hq & _). destruct Hi as (_ & _ & Ho & Hc). simpl.
  by rewrite andb_false_r Hq Ho Hc.
Qed.

Lemma space_inert c : json_space c -> inert c.
Proof. unfold json_space, inert. naive_solver. Qed.
Lemma scalar_inert c : scalar_char c -> inert c.
Proof. by intros (_ & Ho & Hc & Hq & _ & Hcomma & _). Qed.

(** Inert characters in front. *)
Lemma inerts_quotes w rest : Forall inert w -> fix_quotes false false (w ++ rest) = w ++ fix_quotes false false rest.
Proof. induction 1 as [|c w Hc _ IH]; [done|]. by rewrite -!app_comm_cons inert_quotes // IH. Qed.
Lemma inerts_commas w rest : Forall inert w -> drop_commas false false (w ++ rest) = w ++ drop_commas false false rest.
Proof. induction 1 as [|c w Hc _ IH]; [done|]. by rewrite -!app_comm_cons inert_commas // IH. Qed.
Lemma inerts_closed o c w d rest : pair_of o c -> Forall inert w ->
  until_closed o c d false false (w ++ rest) = app w <$> until_closed o c d false false rest.
Proof.
  intros Hp. induction 1 as [|x w Hc _ IH]; [apply kept_nil|].
  by rewrite -!app_comm_cons inert_closed // IH kept_cons.
Qed.
Lemma inerts_balanced w d rest : Forall inert w ->
  until_balanced d false false (w ++ rest) = w ++ until_balanced d false false rest.
Proof. induction 1 as [|c w Hc _ IH]; [done|]. by rewrite -!app_comm_cons inert_balanced // IH. Qed.

Lemma spaces_inert w : Space w -> Forall inert w.
Proof. intros H. eapply Forall_impl; [done|]. apply space_inert. Qed.

Lemma passes_scalar t : t <> [] -> Forall scalar_char t -> Passes t.
Proof.
  intros Ht Hs. assert (Forall inert t) as Hi by (eapply Forall_impl; [done|]; apply scalar_inert).
  split.
  - intros rest _. by apply inerts_quotes.
  - intros rest. by apply inerts_commas.
  - intros. by apply inerts_closed.
  - intros. by apply inerts_balanced.
  - destruct t as [|c t]; [done|]. apply Forall_cons in Hs as [(Hw & _ & Hc & _) _]. by exists [], c, t.
Qed.

(** *** Strings *)

Lemma body_quotes b rest : Body b -> fix_quotes true false (b ++ rest) = b ++ fix_quotes true false rest.
Proof.
  induction 1 as [|c b Hq Hb _ IH|c b _ IH]; simpl; [done| |by rewrite IH].
  apply N.eqb_neq in Hq, Hb. by rewrite Hq Hb IH.
Qed.
Lemma body_commas b rest : Body b -> drop_commas true false (b ++ rest) = b ++ drop_commas true false rest.
Proof.
  induction 1 as [|c b Hq Hb _ IH|c b _ IH]; simpl; [done| |by rewrite IH].
  apply N.eqb_neq in Hq, Hb. by rewrite Hq Hb IH.
Qed.
Lemma body_closed o c d b rest : Body b ->
  until_closed o c d true false (b ++ rest) = app b <$> until_closed o c d true false rest.
Proof.
  induction 1 as [|x b Hq Hb _ IH|x b _ IH]; simpl; [apply kept_nil| |].
  - apply N.eqb_neq in Hq, Hb. by rewrite Hq Hb IH kept_cons.
  - by rewrite IH !kept_cons.
Qed.
Lemma body_balanced d b rest : Body b ->
  until_balanced d true false (b ++ rest) = b ++ until_balanced d true false rest.
Proof.
  induction 1 as [|x b Hq Hb _ IH|x b _ IH]; simpl; [done| |by rewrite IH].
  apply N.eqb_neq in Hq, Hb. by rewrite Hq Hb IH.
Qed.

Lemma passes_string t : Str t -> Passes t.
Proof.
  intros (b & -> & Hb). split.
  - intros rest Hr. rewrite -!app_comm_cons -!app_assoc. simpl. rewrite body_quotes //. simpl. by rewrite Hr.
  - intros rest. rewrite -!app_comm_cons -!app_assoc. simpl. by rewrite body_commas.
  - intros o c d rest _ _. rewrite -!app_comm_cons -!app_assoc. simpl. rewrite body_closed //. simpl.
    by rewrite kept_cons kept_snoc.
  - intros d rest _. rewrite -!app_comm_cons -!app_assoc. simpl. by rewrite body_balanced.
  - by exists [], quote, (b ++ [quote]).
Qed.


(** *** Around a part, and between two *)

Lemma space_not_close c : json_space c -> is_close c = false.
Proof. by intros (_ & _ & _ & Hc)%space_inert. Qed.

Lemma passes_after_space w x : Space w -> Passes x -> Passes (w ++ x).
Proof.
  intros Hw Hx. pose proof (spaces_inert w Hw) as Hi. split.
  - intros rest Hr. by rewrite -!app_assoc inerts_quotes // pass_quotes.
  - intros rest. by rewrite -!app_assoc inerts_commas // pass_commas.
  - intros o c d rest Hp Hd. by rewrite -!app_assoc inerts_closed // pass_closed // kept_app.
  - intros d rest Hd. by rewrite -!app_assoc inerts_balanced // pass_balanced.
  - destruct (pass_start x Hx) as (v & c & t & -> & Hv & Hc & Hc'). exists (w ++ v), c, t.
    rewrite -app_assoc. by rewrite Forall_app.
Qed.

Lemma passes_before_space x w : Space w -> Passes x -> Passes (x ++ w).
Proof.
  intros Hw Hx. pose proof (spaces_inert w Hw) as Hi. split.
  - intros rest Hr. rewrite -!app_assoc (pass_quotes x Hx) ?inerts_quotes //. unfold closes_string. by rewrite trim_start_space.
  - intros rest. by rewrite -!app_assoc (pass_commas x Hx) inerts_commas.
  - intros o c d rest Hp Hd. by rewrite -!app_assoc (pass_closed x Hx) // inerts_closed // kept_app.
  - intros d rest Hd. by rewrite -!app_assoc (pass_balanced x Hx) // inerts_balanced.
  - destruct (pass_start x Hx) as (v & c & t & -> & Hv & Hc & Hc'). exists v, c, (t ++ w).
    by rewrite -app_assoc.
Qed.

Lemma starts_kept x rest : Passes x -> before_close (x ++ rest) = false.
Proof.
  intros (w & c & t & -> & Hw & Hc & Hc')%pass_start. unfold before_close.
  rewrite -app_assoc trim_start_space //=. by rewrite Hc.
Qed.

Definition separates (c : N) : Prop := c = comma \/ c = colon.

Lemma passes_separated x c y : separates c -> Passes x -> Passes y -> Passes (x ++ c :: y).
Proof.
  intros Hc Hx Hy. split.
  - intros rest Hr. rewrite -!app_assoc -!app_comm_cons (pass_quotes x Hx); [|by destruct Hc; subst].
    destruct Hc; subst; simpl; by rewrite pass_quotes.
  - intros rest. rewrite -!app_assoc -!app_comm_cons (pass_commas x Hx).
    destruct Hc; subst; simpl; rewrite ?starts_kept //; by rewrite pass_commas.
  - intros o c' d rest Hp Hd. rewrite -!app_assoc -!app_comm_cons (pass_closed x Hx) // -kept_app -kept_cons -(pass_closed y Hy) //.
    by destruct Hc, Hp as [[= -> ->]|[= -> ->]]; subst.
  - intros d rest Hd. rewrite -!app_assoc -!app_comm_cons (pass_balanced x Hx) // -(pass_balanced y Hy) //.
    by destruct Hc; subst.
  - destruct (pass_start x Hx) as (v & c' & t & -> & Hv & Hc1 & Hc2). exists v, c', (t ++ c :: y).
    by rewrite -app_assoc.
Qed.

(** *** Inside brackets *)

Ltac brackets := repeat match goal with H : pair_of _ _ |- _ => destruct H as [[= -> ->]|[= -> ->]] end.

Lemma open_quotes o c t : pair_of o c -> fix_quotes false false (o :: t) = o :: fix_quotes false false t.
Proof. by intros; brackets. Qed.
Lemma close_quotes o c t : pair_of o c -> fix_quotes false false (c :: t) = c :: fix_quotes false false t.
Proof. by intros; brackets. Qed.
Lemma open_commas o c t : pair_of o c -> drop_commas false false (o :: t) = o :: drop_commas false false t.
Proof. by intros; brackets. Qed.
Lemma close_commas o c t : pair_of o c -> drop_commas false false (c :: t) = c :: drop_commas false false t.
Proof. by intros; brackets. Qed.

(** Only the brackets looked for count. *)
Definition inside (o o' : N) (d : Z) : Z := if (o =? o')%N then (d + 1)%Z else d.

Lemma open_closed o c o' c' d t : pair_of o c -> pair_of o' c' ->
  until_closed o' c' d false false (o :: t) = cons o <$> until_closed o' c' (inside o o' d) false false t.
Proof. by intros; brackets. Qed.
Lemma close_closed o c o' c' d t : pair_of o c -> pair_of o' c' -> (1 <= d)%Z ->
  until_closed o' c' (inside o o' d) false false (c :: t) = cons c <$> until_closed o' c' d false false t.
Proof.
  intros Hp Hp' Hd. brackets; simpl; try done; unfold inside; simpl; rewrite Z.add_simpl_r;
    by destruct (Z.eqb_spec d 0); [lia|].
Qed.
Lemma open_balanced o c d t : pair_of o c ->
  until_balanced d false false (o :: t) = o :: until_balanced (d + 1) false false t.
Proof. by intros; brackets. Qed.
Lemma close_balanced o c d t : pair_of o c -> (1 <= d)%Z ->
  until_balanced (d + 1) false false (c :: t) = c :: until_balanced d false false t.
Proof.
  intros Hp Hd. brackets; simpl; rewrite Z.add_simpl_r; by destruct (Z.eqb_spec d 0); [lia|].
Qed.
Lemma inside_pos o o' d : (1 <= d)%Z -> (1 <= inside o o' d)%Z.
Proof. unfold inside. case_match; lia. Qed.

Lemma bracket_starts o c (x : Text) : pair_of o c ->
  exists w c' t, o :: x = w ++ c' :: t /\ Space w /\ is_whitespace c' = false /\ is_close c' = false.
Proof. intros. exists [], o, x. by brackets. Qed.

Lemma passes_brackets o c x : pair_of o c -> Passes x -> Passes (o :: x ++ [c]).
Proof.
  intros Hp Hx. split.
  - intros rest Hr. rewrite -!app_comm_cons -!app_assoc !(open_quotes o c) // (pass_quotes x Hx); [|by brackets].
    by rewrite (close_quotes o c).
  - intros rest. by rewrite -!app_comm_cons -!app_assoc !(open_commas o c) // (pass_commas x Hx) (close_commas o c).
  - intros o' c' d rest Hp' Hd. rewrite -!app_comm_cons -!app_assoc (open_closed o c) // (pass_closed x Hx) ?close_closed //.
    + by rewrite kept_snoc kept_cons.
    + by apply inside_pos.
  - intros d rest Hd. rewrite -!app_comm_cons -!app_assoc (open_balanced o c) // (pass_balanced x Hx); [|lia].
    by rewrite (close_balanced o c).
  - by apply (bracket_starts o c).
Qed.

Lemma passes_empty_brackets o c w : pair_of o c -> Space w -> Passes (o :: w ++ [c]).
Proof.
  intros Hp Hw. pose proof (spaces_inert w Hw) as Hi. split.
  - intros rest Hr. rewrite -!app_comm_cons -!app_assoc !(open_quotes o c) // inerts_quotes //.
    by rewrite (close_quotes o c).
  - intros rest. by rewrite -!app_comm_cons -!app_assoc !(open_commas o c) // inerts_commas // (close_commas o c).
  - intros o' c' d rest Hp' Hd. rewrite -!app_comm_cons -!app_assoc (open_closed o c) // inerts_closed // close_closed //.
    by rewrite kept_snoc kept_cons.
  - intros d rest Hd. rewrite -!app_comm_cons -!app_assoc (open_balanced o c) // inerts_balanced //.
    by rewrite (close_balanced o c).
  - by apply (bracket_starts o c).
Qed.

(** ** Valid JSON *)

Lemma json_passes :
  (forall t, Value t -> Passes t) /\ (forall t, Structure t -> Passes t) /\ (forall t, Items t -> Passes t) /\
  (forall t, Members t -> Passes t) /\ (forall t, Member t -> Passes t).
Proof.
  apply json_induction; intros.
  - by apply passes_scalar.
  - by apply passes_string.
  - done.
  - apply passes_empty_brackets; [by left|done].
  - apply passes_brackets; [by left|done].
  - apply passes_empty_brackets; [by right|done].
  - apply passes_brackets; [by right|done].
  - by apply passes_after_space, passes_before_space.
  - apply passes_separated; [by left| |done]. by apply passes_after_space, passes_before_space.
  - done.
  - apply passes_separated; [by left|done..].
  - apply passes_separated; [by right| |]; apply passes_after_space; try done; apply passes_before_space; try done.
    by apply passes_string.
Qed.

(** *** One object or array *)

(** Without opening brackets. *)
Notation Plain := (Forall (fun c => is_open c = false)).

Lemma structure_brackets t : Structure t -> exists o c x, pair_of o c /\ t = o :: x ++ [c] /\ (Passes x \/ Space x).
Proof.
  intros H. pose proof json_passes as (_ & _ & Hi & Hm & _). destruct H as [w ?|l ?|w ?|l ?].
  - exists open_bracket, close_bracket, w. split; [by left|auto].
  - exists open_bracket, close_bracket, l. split; [by left|auto].
  - exists open_brace, close_brace, w. split; [by right|auto].
  - exists open_brace, close_brace, l. split; [by right|auto].
Qed.

Lemma structure_passes t : Structure t -> Passes t.
Proof. by destruct json_passes as (_ & Hs & _); auto. Qed.

(** The bracket that closes the first one is the last character. *)
Lemma structure_closed o c x q : pair_of o c -> Passes x \/ Space x ->
  until_closed o c 0 false false (o :: x ++ [c] ++ q) = Some (o :: x ++ [c]).
Proof.
  intros Hp Hx. rewrite (open_closed o c) //. assert (inside o o 0 = 1%Z) as -> by by brackets.
  assert (until_closed o c 1 false false ([c] ++ q) = Some [c]) as Hc by by brackets.
  destruct Hx as [Hx|Hx%spaces_inert]; [rewrite (pass_closed x Hx) //|rewrite inerts_closed //]; by rewrite Hc.
Qed.

Lemma from_open_after p t : Plain p -> from_open (p ++ t) = from_open t.
Proof. induction 1 as [|c p Hc _ IH]; simpl; [done|]. by rewrite Hc. Qed.

Lemma extract_structure p t q :
  Plain p -> Structure t -> extract_bracket_pair (p ++ t ++ q) = t.
Proof.
  intros Hp (o & c & x & Hoc & -> & Hx)%structure_brackets. unfold extract_bracket_pair.
  rewrite from_open_after // -app_comm_cons -app_assoc.
  assert (from_open (o :: x ++ [c] ++ q) = o :: x ++ [c] ++ q) as -> by by brackets.
  cbv beta iota zeta. assert ((if (o =? open_bracket)%N then close_bracket else close_brace) = c) as -> by by brackets.
  by rewrite structure_closed.
Qed.

(** *** Trimming around it *)

Definition Bounded (t : Text) : Prop := exists o c x, pair_of o c /\ t = o :: x ++ [c].

Lemma structure_bounded t : Structure t -> Bounded t.
Proof. intros (o & c & x & ? & ? & _)%structure_brackets. by exists o, c, x. Qed.

Lemma trim_start_app p c t : is_whitespace c = false -> trim_start (p ++ c :: t) = trim_start p ++ c :: t.
Proof. intros Hc. induction p as [|d p IH]; simpl; [by rewrite Hc|]. by case_match. Qed.
Lemma trim_end_app t c q : is_whitespace c = false -> trim_end ((t ++ [c]) ++ q) = (t ++ [c]) ++ trim_end q.
Proof.
  intros Hc. unfold trim_end. rewrite reverse_app reverse_snoc trim_start_app //.
  by rewrite reverse_app reverse_cons reverse_involutive.
Qed.

Lemma trim_around p t q : Bounded t -> trim (p ++ t ++ q) = trim_start p ++ t ++ trim_end q.
Proof.
  intros (o & c & x & Hp & ->). unfold trim. rewrite -app_comm_cons trim_start_app; [|by brackets].
  rewrite app_comm_cons app_assoc (app_comm_cons x) app_assoc trim_end_app; [|by brackets].
  by rewrite -!app_assoc.
Qed.

Lemma trim_bounded t : Bounded t -> trim t = t.
Proof. intros Ht. rewrite -{1}(app_nil_r t) (trim_around [] t []) //. apply app_nil_r. Qed.
Lemma trim_end_bounded t : Bounded t -> trim_end t = t.
Proof.
  intros (o & c & x & Hp & ->). rewrite app_comm_cons -(app_nil_r (_ ++ [c])) trim_end_app; [|by brackets]. done.
Qed.

Lemma trim_start_idemp t : trim_start (trim_start t) = trim_start t.
Proof. induction t as [|c t IH]; simpl; [done|]. case_match eqn:E; [done|]. simpl. by rewrite E. Qed.
Lemma trim_start_forall (P : N -> Prop) t : Forall P t -> Forall P (trim_start t).
Proof. induction 1; simpl; [done|]. case_match; auto. Qed.

(** *** Code fences *)

Lemma strip_apart q p c t : c ∉ q -> strip q (p ++ c :: t) = (.++ c :: t) <$> strip q p.
Proof.
  revert p. induction q as [|d q IH]; intros p Hc; [done|]. apply not_elem_of_cons in Hc as [Hd Hc].
  destruct p as [|e p]; simpl; [by destruct (N.eqb_spec d c)|]. case_match; auto.
Qed.
Lemma strip_app p t : strip p (p ++ t) = Some t.
Proof. induction p as [|c p IH]; simpl; [done|]. by rewrite N.eqb_refl. Qed.
Lemma strip_more p t a rest : strip p t = Some rest -> strip p (t ++ a) = Some (rest ++ a).
Proof. intros ->%strip_some. by rewrite -app_assoc strip_app. Qed.
Lemma strip_none_more p t a : strip p t = None -> length p <= length t -> strip p (t ++ a) = None.
Proof.
  revert t. induction p as [|c p IH]; intros [|d t]; simpl; try done; [lia|]. intros H Hl.
  case_match; [|done]. apply IH; [done|lia].
Qed.

Lemma before_within p a t x : before p (a ++ t) = Some (a ++ x) -> before p t = Some x.
Proof.
  induction a as [|c a IH]; simpl; [done|]. case_match; [done|].
  intros (y & ? & ?)%fmap_Some. simplify_eq. auto.
Qed.
Lemma before_more p x a : before p (x ++ p) = Some x -> before p (x ++ p ++ a) = Some x.
Proof.
  induction x as [|c x IH]; simpl.
  - intros _. destruct (p ++ a) eqn:E; simpl; rewrite -E strip_app //.
  - case_match eqn:E; [done|]. intros (y & ? & ?)%fmap_Some. simplify_eq.
    rewrite app_assoc app_comm_cons strip_none_more //=; [|rewrite length_app; lia].
    by rewrite -app_assoc IH.
Qed.
Lemma before_none_suffix p a x : before p (a ++ x) = None -> before p x = None.
Proof. induction a as [|c a IH]; simpl; [done|]. case_match eqn:E; [done|]. intros H%fmap_None. auto. Qed.
Lemma before_none_prefix p x a : before p (x ++ a) = None -> before p x = None.
Proof.
  induction x as [|c x IH]; simpl.
  - destruct p; [by destruct a|done].
  - case_match eqn:E; [done|]. intros H%fmap_None. destruct (strip p (c :: x)) eqn:E'; [|by rewrite IH].
    by apply (strip_more _ _ a) in E'; rewrite E' in E.
Qed.

Lemma trim_end_prefix t : exists a, t = trim_end t ++ a.
Proof.
  unfold trim_end. rewrite -{1}(reverse_involutive t). induction (reverse t) as [|c r IH]; simpl; [by exists []|].
  case_match; [|by exists []; rewrite app_nil_r]. destruct IH as [a Ha]. exists (a ++ [c]).
  by rewrite reverse_cons Ha app_assoc.
Qed.
Lemma trim_end_idemp t : trim_end (trim_end t) = trim_end t.
Proof. unfold trim_end. by rewrite reverse_involutive trim_start_idemp. Qed.

(** What models put around their JSON: prose, and code fences, closed or not. *)
Inductive Wrapped (t : Text) : Text -> Prop :=
| in_prose p q : Plain p -> strip fence (trim_start p) = None -> Wrapped t (p ++ t ++ q)
| fenced w p q after : Forall (fun c => is_whitespace c = true) w -> Plain p ->
    before fence ((p ++ t ++ q) ++ fence) = Some (p ++ t ++ q) ->
    Wrapped t (w ++ fence ++ p ++ t ++ q ++ fence ++ after)
| unclosed_fence w p q : Forall (fun c => is_whitespace c = true) w -> Plain p ->
    before fence (p ++ t ++ q) = None -> Wrapped t (w ++ fence ++ p ++ t ++ q).

Lemma trim_start_fence w x : Forall (fun c => is_whitespace c = true) w -> trim_start (w ++ fence ++ x) = fence ++ x.
Proof. induction 1 as [|c w Hc _ IH]; simpl; [done|]. by rewrite Hc. Qed.
Lemma trim_end_fence q after : trim_end (q ++ fence ++ after) = q ++ fence ++ trim_end after.
Proof.
  assert (forall x, q ++ fence ++ x = ((q ++ text "``") ++ [96%N]) ++ x) as Hf by (intros; by rewrite -!app_assoc).
  rewrite !Hf. by apply trim_end_app.
Qed.

Lemma strip_json_fence t : strip (fence ++ text "json") (fence ++ t) = strip (text "json") t.
Proof. done. Qed.

(** After the fence and its tag, up to the closing fence. *)
Lemma fence_inside p t y : Bounded t -> Plain p ->
  exists p', Plain p' /\ (exists a, p = a ++ p') /\
    strip_code_fences (fence ++ p ++ t ++ y) =
      match before fence (p' ++ t ++ trim_end y) with Some body => trim body | None => trim (p' ++ t ++ trim_end y) end.
Proof.
  intros Ht Hp. unfold strip_code_fences.
  rewrite app_assoc trim_around // (trim_start_fence [] p) // -app_assoc strip_json_fence.
  pose proof Ht as (o & c & x & Hoc & ->). rewrite -app_comm_cons strip_apart; [|by brackets; vm_compute; set_solver].
  rewrite strip_app. destruct (strip (text "json") p) as [p'|] eqn:E; simpl.
  - apply strip_some in E as ->. exists p'. apply Forall_app in Hp as [_ Hp]. split_and!; eauto.
  - exists p. split_and!; [done|by exists []|done].
Qed.

Lemma trim_plain p t y : Bounded t -> Plain p -> exists p' y', Plain p' /\ trim (p ++ t ++ y) = p' ++ t ++ y'.
Proof. intros Ht Hp. rewrite trim_around //. eauto using trim_start_forall. Qed.

Lemma fences_removed t raw : Bounded t -> Wrapped t raw ->
  exists p q, Plain p /\ strip_code_fences (trim raw) = p ++ t ++ q.
Proof.
  intros Ht [p q Hp Hf|w p q after Hw Hp Hf|w p q Hw Hp Hf].
  - unfold strip_code_fences. rewrite !trim_around // trim_start_idemp trim_end_idemp.
    assert (strip fence (trim_start p ++ t ++ trim_end q) = None) as Hn.
    { destruct Ht as (o & c & x & Hoc & ->). rewrite -app_comm_cons strip_apart ?Hf //.
      brackets; vm_compute; set_solver. }
    exists (trim_start p), (trim_end q). split; [by apply trim_start_forall|].
    destruct (strip (fence ++ _) _) eqn:E; [|by rewrite Hn].
    apply strip_some in E. by rewrite E -app_assoc strip_app in Hn.
  - rewrite !(app_assoc _ p) app_assoc trim_around // trim_start_fence // trim_end_fence -app_assoc.
    destruct (fence_inside p t (q ++ fence ++ trim_end after)) as (p' & Hp' & [a ->] & ->); [done..|].
    rewrite trim_end_fence trim_end_idemp. rewrite -!app_assoc in Hf. apply before_within in Hf.
    assert (before fence (p' ++ t ++ q ++ fence ++ trim_end after) = Some (p' ++ t ++ q)) as ->; [|by apply trim_plain].
    rewrite !app_assoc -(app_assoc _ fence). apply before_more. by rewrite -!app_assoc.
  - rewrite !(app_assoc _ p) app_assoc trim_around // trim_start_fence // -app_assoc.
    destruct (fence_inside p t (trim_end q)) as (p' & Hp' & [a ->] & ->); [done..|]. rewrite trim_end_idemp.
    assert (before fence (p' ++ t ++ trim_end q) = None) as ->; [|by apply trim_plain].
    destruct (trim_end_prefix q) as [b Hb]. rewrite Hb -!app_assoc in Hf. apply before_none_suffix in Hf.
    apply (before_none_prefix _ _ b). by rewrite -!app_assoc.
Qed.

(** ** Repair keeps valid JSON *)

Lemma truncate_bounded t : Bounded t -> truncate_to_matching_bracket t = t.
Proof.
  intros Ht. unfold truncate_to_matching_bracket. rewrite trim_end_bounded //.
  destruct Ht as (o & c & x & Hp & ->). rewrite app_comm_cons reverse_snoc. by brackets.
Qed.

(** C32: A JSON object or array, however it is laid out, comes through the repair unchanged;
    prose without opening brackets in front of it, anything after it, and a code
    fence around it, closed or not, are removed.  Where there is a fence, the text that it
    encloses must not hold another one, strings of the JSON included: the repair cuts at
    the first ([fence_in_string_cuts]). *)
Theorem repair_keeps_valid t raw : Structure t -> Wrapped t raw -> repair_json raw = Ok t.
Proof.
  intros Hs Hw. pose proof (structure_bounded t Hs) as Hb. pose proof (structure_passes t Hs) as Hp.
  destruct (fences_removed t raw Hb Hw) as (p & q & Hplain & Hf).
  unfold repair_json, repair. simpl. rewrite Hf extract_structure //.
  unfold fix_unescaped_quotes, remove_trailing_commas.
  rewrite -(app_nil_r t) (pass_quotes t Hp) // (pass_commas t Hp) /= app_nil_r truncate_bounded //.
  by destruct Hb as (o & c & x & _ & ->).
Qed.

Lemma from_open_structure t y : Bounded t -> from_open (t ++ y) = t ++ y.
Proof. intros (o & c & x & Hp & ->). by brackets. Qed.

Lemma balanced_structure t q : Structure t -> until_balanced 0 false false (t ++ q) = t.
Proof.
  intros (o & c & x & Hp & -> & Hx)%structure_brackets. rewrite -app_comm_cons -app_assoc (open_balanced o c) //.
  assert (until_balanced (0 + 1) false false ([c] ++ q) = [c]) as Hc by by brackets.
  destruct Hx as [Hx|Hx%spaces_inert]; [rewrite (pass_balanced x Hx) //|rewrite inerts_balanced //]; by rewrite Hc.
Qed.

(** The output parser parses the first object or array of a text. *)
Lemma output_parser_extracts from_str self p t q : Plain p -> Structure t ->
  json_output_parse from_str self (p ++ t ++ q) = json_output_parse from_str self t.
Proof.
  intros Hp Ht. unfold json_output_parse. pose proof (structure_bounded t Ht) as Hb.
  assert (forall y, Plain y -> forall z, extract_json_str (y ++ t ++ z) = t) as H.
  2: { rewrite H //. pose proof (H [] (Forall_nil_2 _) []) as H'. rewrite /= app_nil_r in H'. by rewrite H'. }
  intros y Hy z. unfold extract_json_str, strip_markdown_fence.
  rewrite from_open_after // from_open_structure // balanced_structure //.
  destruct Hb as (o & c & x & Hoc & ->). rewrite -/(trim _) trim_bounded //. by exists o, c, x.
Qed.

(** ** Partial JSON *)

(** In a string when the number of quotes is odd; after a backslash only in a string;
    what is expected are closing brackets. *)
Record Scanned (s : Scan) : Prop := mkScanned {
  scanned_quotes : Nat.odd (sc_quotes s) = sc_in_string s;
  scanned_escape : sc_escape s = true -> sc_in_string s = true;
  scanned_closers : Forall (fun c => is_close c = true) (sc_closers s);
}.

Lemma scan_char_scanned s c : Scanned s -> Scanned (scan_char s c).
Proof.
  destruct s as [b e l n]. intros [Hq He Hc]. simpl in *. unfold scan_char. simpl.
  destruct e; [by split|]. destruct b; rewrite ?andb_false_r ?andb_true_r.
  all: repeat case_match; split; simpl; try done; try (by constructor); try (by apply Forall_tail).
  all: by rewrite Nat.odd_succ -Nat.negb_odd Hq.
Qed.

Lemma scan_scanned t : Scanned (scan t).
Proof.
  unfold scan. assert (Scanned (mkScan false false [] 0)) as H by by split.
  revert H. generalize (mkScan false false [] 0). induction t as [|c t IH]; intros s Hs; [done|].
  by apply IH, scan_char_scanned.
Qed.

Lemma scan_char_close n l c : is_close c = true -> scan_char (mkScan false false l n) c = mkScan false false (tail l) n.
Proof.
  unfold is_close, scan_char. intros Hc. simpl. rewrite andb_false_r.
  apply orb_true_iff in Hc as [->%N.eqb_eq| ->%N.eqb_eq]; done.
Qed.

Lemma scan_closers n l : Forall (fun c => is_close c = true) l ->
  foldl scan_char (mkScan false false l n) l = mkScan false false [] n.
Proof. induction 1 as [|c l Hc _ IH]; [done|]. by rewrite /= scan_char_close. Qed.

(** Outside strings every closing bracket is the one expected. *)
Fixpoint nested (s : Scan) (t : Text) : bool :=
  match t with
  | [] => true
  | c :: t =>
      (if negb (sc_escape s) && negb (sc_in_string s) && is_close c
       then match sc_closers s with closer :: _ => (c =? closer)%N | [] => false end else true)
      && nested (scan_char s c) t
  end.

Lemma nested_app s a b : nested s (a ++ b) = nested s a && nested (foldl scan_char s a) b.
Proof. revert s. induction a as [|c a IH]; intros s; [done|]. by rewrite /= IH andb_assoc. Qed.

Lemma nested_closers n l : Forall (fun c => is_close c = true) l -> nested (mkScan false false l n) l = true.
Proof.
  induction 1 as [|c l Hc _ IH]; [done|]. cbn [nested]. rewrite scan_char_close //= Hc N.eqb_refl. done.
Qed.

(** A partial text with its closing quote and its closers. *)
Definition closed (t : Text) : Text :=
  (if Nat.odd (sc_quotes (scan t)) then t ++ [quote] else t) ++ sc_closers (scan t).

Notation start := (mkScan false false [] 0).

Lemma closed_nested t : sc_escape (scan t) = false ->
  (exists n, scan (closed t) = mkScan false false [] n) /\ nested start (closed t) = nested start t.
Proof.
  intros He. pose proof (scan_scanned t) as [Hq _ Hc]. unfold closed.
  rewrite {1}/scan foldl_app nested_app Hq. destruct (sc_in_string (scan t)) eqn:Hs;
    rewrite ?foldl_app ?nested_app -/(scan t).
  - assert (foldl scan_char (scan t) [quote] = mkScan false false (sc_closers (scan t)) (S (sc_quotes (scan t)))) as ->.
    { simpl. unfold scan_char. by rewrite He Hs. }
    rewrite scan_closers // nested_closers //= !andb_false_r !andb_true_r. by eauto.
  - destruct (scan t) as [b e l n]. simpl in *. subst. rewrite scan_closers // nested_closers // andb_true_r. by eauto.
Qed.

(** Dropping commas goes by the same states. *)
Lemma drop_commas_step s c t : Scanned s ->
  let s' := scan_char s c in let rest := drop_commas (sc_in_string s) (sc_escape s) (c :: t) in
  rest = c :: drop_commas (sc_in_string s') (sc_escape s') t \/
  (s' = s /\ is_close c = false /\ rest = drop_commas (sc_in_string s) (sc_escape s) t).
Proof.
  destruct s as [b e l n]. intros [_ He _]. unfold scan_char. simpl in *. destruct b.
  - left. destruct e; [done|]. rewrite andb_true_r. destruct (c =? backslash)%N; [done|]. by destruct (c =? quote)%N.
  - destruct e; [by specialize (He eq_refl)|]. rewrite andb_false_r.
    destruct (N.eqb_spec c quote) as [->|Hq]; [by left|].
    destruct (N.eqb_spec c comma) as [->|Hcomma]; simpl.
    + destruct (before_close t); [right|left]; done.
    + left. by repeat case_match.
Qed.

Lemma drop_commas_scan t s : Scanned s -> let t' := drop_commas (sc_in_string s) (sc_escape s) t in
  foldl scan_char s t' = foldl scan_char s t /\ nested s t' = nested s t.
Proof.
  revert s. induction t as [|c t IH]; intros s Hs t'; [done|]. subst t'.
  destruct (IH (scan_char s c) (scan_char_scanned s c Hs)) as [IH1 IH2].
  destruct (drop_commas_step s c t Hs) as [->|(E & Hc & ->)]; cbn [foldl nested].
  - by rewrite IH1 IH2.
  - rewrite E Hc !andb_false_r. rewrite E in IH1, IH2. done.
Qed.

(** Repairing partial JSON leaves no string and no structure open, unless the text ends
    inside an escape; when the closing brackets of the text match, so do those added. *)
Theorem partial_repair_closes t : sc_escape (scan (trim t)) = false ->
  let repaired := repair_partial_json t in
  sc_in_string (scan repaired) = false /\ sc_closers (scan repaired) = [] /\ nested start repaired = nested start (trim t).
Proof.
  intros He repaired. destruct (closed_nested (trim t) He) as [[n Hn] Hc].
  destruct (drop_commas_scan (closed (trim t)) start) as [H1 H2]; [by split|].
  assert (scan repaired = mkScan false false [] n) as -> by by rewrite -Hn.
  split_and!; [done|done|]. by rewrite -Hc -H2.
Qed.

(** ** Tokens *)

Section tokens.
Context (from_str : Text -> result Text JsonValue).

Definition push_all (tokens : list Text) (p : PartialJsonParser) : PartialJsonParser :=
  foldl (fun p token => snd (PartialJsonParser.push_and_parse from_str token p)) p tokens.

(** What a text is taken for: its first structure, or that structure closed. *)
Definition reading (t : Text) : option JsonValue :=
  let json := strip_markdown_fence t in
  match from_str json with Ok v => Some v | Err _ => ok (from_str (repair_partial_json json)) end.

Lemma from_open_none t : from_open t = [] -> Plain t.
Proof. induction t as [|c t IH]; simpl; [constructor|]. destruct (is_open c) eqn:E; [done|]. auto. Qed.

Lemma from_open_head t c t' : from_open t = c :: t' -> is_open c = true.
Proof. induction t as [|d t IH]; simpl; [done|]. destruct (is_open d) eqn:E; [|done]. by intros [= <- _]. Qed.

Lemma fence_none t : strip_markdown_fence t = [] -> Plain t.
Proof.
  unfold strip_markdown_fence. intros H. apply from_open_none. destruct (from_open t) as [|c t'] eqn:E; [done|].
  apply from_open_head in E. simpl in H. unfold is_open in *. repeat case_match; try done.
Qed.

Lemma fence_after g t : Plain g -> strip_markdown_fence (g ++ t) = strip_markdown_fence t.
Proof. intros Hg. unfold strip_markdown_fence. by rewrite from_open_after. Qed.

Lemma fence_head t c t' : strip_markdown_fence t = c :: t' -> is_open c = true.
Proof.
  unfold strip_markdown_fence. destruct (from_open t) as [|d t''] eqn:E; simpl; [done|]. apply from_open_head in E.
  rewrite andb_false_r E. repeat case_match; by intros [= <- _].
Qed.

Lemma trim_open c t : is_open c = true -> trim (c :: t) = c :: trim_end t.
Proof.
  intros Hc. assert (is_whitespace c = false) as Hw.
  { unfold is_open in Hc. by apply orb_true_iff in Hc as [->%N.eqb_eq| ->%N.eqb_eq]. }
  unfold trim. simpl. rewrite Hw. by apply (trim_end_app [] c t).
Qed.

Lemma scan_char_buffer p c : buffer (PartialJsonParser.scan_char p c) = buffer p.
Proof. unfold PartialJsonParser.scan_char. by repeat case_match. Qed.
Lemma rescan_buffer token p : buffer (PartialJsonParser.rescan p token) = buffer p.
Proof.
  unfold PartialJsonParser.rescan. revert p. induction token as [|c t IH]; intros p; simpl; [done|].
  by rewrite IH scan_char_buffer.
Qed.

Lemma push_answers token p :
  ok (fst (PartialJsonParser.push_and_parse from_str token p)) = reading (buffer p ++ token).
Proof.
  unfold PartialJsonParser.push_and_parse, reading. simpl. rewrite rescan_buffer.
  destruct (from_str (strip_markdown_fence _)) as [v|e] eqn:Hs; [done|].
  destruct (strip_markdown_fence (buffer p ++ token)) as [|c json] eqn:E.
  - change (repair_partial_json []) with ([] : Text). rewrite Hs /=. by destruct (0 <? _).
  - assert (match trim (c :: json) with c0 :: _ => is_open c0 | [] => false end = true) as ->.
    { apply fence_head in E. by rewrite trim_open. }
    rewrite orb_true_r ?Hs. by destruct (from_str (repair_partial_json _)).
Qed.

(** A reset forgets text without brackets. *)
Lemma push_buffer token p : exists g, Plain g /\
  buffer p ++ token = g ++ buffer (snd (PartialJsonParser.push_and_parse from_str token p)).
Proof.
  unfold PartialJsonParser.push_and_parse. cbn [buffer]. rewrite rescan_buffer.
  destruct (from_str (strip_markdown_fence _)) as [v|e]; [by exists []|].
  destruct (strip_markdown_fence (buffer p ++ token)) as [|c json] eqn:E; destruct (if _ || _ then _ else _);
    try (by exists []).
  apply fence_none in E. exists (buffer p ++ token). by rewrite app_nil_r.
Qed.

Lemma push_all_buffer tokens p : exists g, Plain g /\ buffer p ++ mjoin tokens = g ++ buffer (push_all tokens p).
Proof.
  revert p. induction tokens as [|token tokens IH]; intros p; [exists []; by rewrite /= app_nil_r|].
  destruct (push_buffer token p) as (g & Hg & E).
  destruct (IH (snd (PartialJsonParser.push_and_parse from_str token p))) as (h & Hh & E').
  exists (g ++ h). rewrite Forall_app. split; [done|]. by rewrite /= app_assoc E -!app_assoc E'.
Qed.

Lemma reading_after g t : Plain g -> reading (g ++ t) = reading t.
Proof. intros Hg. unfold reading. by rewrite fence_after. Qed.

(** An answer is the value that was read, or else an error of one kind, whose report is free. *)
Definition answers (kind : Text -> PartialJsonError) (r : result PartialJsonError JsonValue) (value : option JsonValue) : Prop :=
  match value with
  | Some v => r = Ok v
  | None => exists report, r = Err (kind report)
  end.

(** C33: Whatever the tokens, the value that the parser answers to the last of them, or that it
    has none and needs more, depends only on their concatenation and not on where the text was
    cut; the same goes for the final value, or that the text is invalid.  The reports of the
    errors do depend on the cuts. *)
Theorem chunking_irrelevant tokens token :
  answers Incomplete (fst (PartialJsonParser.push_and_parse from_str token (push_all tokens PartialJsonParser.new)))
    (reading (mjoin tokens ++ token)) /\
  answers Invalid (PartialJsonParser.finalize from_str (push_all tokens PartialJsonParser.new)) (reading (mjoin tokens)).
Proof.
  destruct (push_all_buffer tokens PartialJsonParser.new) as (g & Hg & E). simpl in E. rewrite E. split.
  - rewrite -app_assoc (reading_after g) // -push_answers. unfold answers, PartialJsonParser.push_and_parse. cbv zeta.
    destruct (from_str _); [done|]. destruct (if _ || _ then _ else _); [done|]. by eexists.
  - rewrite (reading_after g) //. unfold answers, PartialJsonParser.finalize, reading.
    destruct (from_str (strip_markdown_fence _)); [done|]. destruct (from_str (repair_partial_json _)); [done|]. by eexists.
Qed.
End tokens.

(** ** Samples *)

(** [{k: [1, 2]}], the key in quotes. *)
Definition sample_key : Text := quote :: text "k" ++ [quote].
Definition sample_json : Text := text "{" ++ sample_key ++ text ": [1, 2]}".

Lemma sample_structure : Structure sample_json.
Proof.
  apply (object (sample_key ++ text ": [1, 2]")), last_member.
  apply (member [] sample_key [] (text " ") (text "[1, 2]") []); try (by repeat constructor).
  - exists (text "k"). split; [done|]. by repeat constructor.
  - apply value_structure, (array (text "1, 2")).
    apply (more_items [] (text "1") [] (text " 2")); try (by constructor); [|apply (last_item (text " ") (text "2") [])];
      try (by repeat constructor); apply value_scalar; try done; by repeat constructor.
Qed.

(** Prose and a fence around it. *)
Lemma repair_keeps_valid_witness :
  repair_json (text "Sure:   " ++ sample_json ++ text " Anything {else}?") = Ok sample_json /\
  repair_json (text "  " ++ fence ++ text "json " ++ sample_json ++ text " " ++ fence ++ text " done") = Ok sample_json.
Proof.
  split; apply repair_keeps_valid; try apply sample_structure.
  - apply in_prose; [by repeat constructor|by vm_compute].
  - apply (fenced sample_json (text "  ") (text "json ") (text " ") (text " done")); by repeat constructor.
Defined.

(** Cut inside the array, after a comma. *)
Lemma partial_repair_closes_witness :
  let t := text "{" ++ sample_key ++ text ": [1, " in
  repair_partial_json t = text "{" ++ sample_key ++ text ": [1]}" /\
  nested start (repair_partial_json t) = true.
Proof.
  intros t. assert (sc_escape (scan (trim t)) = false) as He by by vm_compute.
  destruct (partial_repair_closes t He) as (_ & _ & ->). by vm_compute.
Defined.

(** A backslash at the end escapes the quote that should close the string. *)
Example escape_stays_open :
  let t := text "{" ++ quote :: text "a\" in
  repair_partial_json t = t ++ [quote; close_brace] /\ sc_in_string (scan (repair_partial_json t)) = true.
Proof. by vm_compute. Qed.

(** A valid JSON string that has a bracket pair inside is cut down to the pair. *)
Example scalar_string_cut : repair_json (quote :: text "a[b]" ++ [quote]) = Ok (text "[b]").
Proof. by vm_compute. Qed.

(** A valid object in a fence, whose string holds a fence, is cut inside the string. *)
Definition fenced_code : Text := text "{" ++ sample_key ++ text ":" ++ quote :: fence ++ quote :: text "}".
Example fence_in_string_cuts :
  repair_json fenced_code = Ok fenced_code /\
  strip_code_fences (fence ++ text "json " ++ fenced_code ++ text " " ++ fence) = text "{" ++ sample_key ++ text ":" ++ [quote] /\
  repair_json (fence ++ text "json " ++ fenced_code ++ text " " ++ fence) <> Ok fenced_code.
Proof. by vm_compute. Qed.

(** The same text in one token and in two: the second buffer has lost the prose. *)
Definition reads_nothing (t : Text) : result Text JsonValue := Err [].
Definition report_of (r : result PartialJsonError JsonValue) : option Text := match r with Err (Incomplete report) => Some report | _ => None end.
Example report_depends_on_cut :
  let first := PartialJsonParser.push_and_parse reads_nothing (text "Here: ") PartialJsonParser.new in
  report_of (fst (PartialJsonParser.push_and_parse reads_nothing (text "{[tr") first.2)) = Some (text "Buffer has 4 chars, depth=2") /\
  report_of (fst (PartialJsonParser.push_and_parse reads_nothing (text "Here: {[tr") PartialJsonParser.new)) =
    Some (text "Buffer has 10 chars, depth=2").
Proof. by vm_compute. Qed.

(** One comma is removed in front of a bracket, the others stay. *)
Example second_comma_stays : remove_trailing_commas (text "[1,,]") = text "[1,]".
Proof. by vm_compute. Qed.

(** Two hundred characters are asked for, one fewer is kept. *)
Example truncate_drops_one : truncate (text "abcdef") 3 = text "ab...".
Proof. by vm_compute. Qed.
