(* ===== verification/A2aProtocol.v ===== *)
(** * The agent-to-agent protocol ([crates/lc-a2a/src/protocol])

    Tasks and the state machine of their statuses, messages, workflows, JSON-RPC
    requests and responses, push notifications and filters.  What a response carries is
    the data that the code hands to [json!]; serde is a parameter ([Wire]). *)

From stdpp Require Import gmap strings list pretty.
From S2P Require Import Prelude Json.

(** ** Statuses ([protocol/task.rs]) *)

Inductive TaskStatus : Type :=
| Submitted
| Working
| InputRequired
| Completed
| Failed
| Cancelled
| Rejected
| AuthRequired
| Expired.

Global Instance TaskStatus_eq_dec : EqDecision TaskStatus.
Proof. solve_decision. Defined.

Definition can_transition_to (self target : TaskStatus) : bool :=
  match self, target with
  | Submitted, Working
  | Submitted, Rejected
  | Submitted, Cancelled
  | Submitted, Expired
  | Working, Completed
  | Working, Failed
  | Working, InputRequired
  | Working, Cancelled
  | Working, Expired
  | InputRequired, Working
  | InputRequired, Cancelled
  | InputRequired, Expired
  | AuthRequired, Submitted
  | AuthRequired, Working
  | AuthRequired, Expired => true
  | _, _ => false
  end.

Definition is_terminal (self : TaskStatus) : bool :=
  match self with
  | Completed | Failed | Cancelled | Rejected | Expired => true
  | _ => false
  end.

Definition status_to_string (self : TaskStatus) : string :=
  match self with
  | Submitted => "submitted"
  | Working => "working"
  | InputRequired => "input-required"
  | Completed => "completed"
  | Failed => "failed"
  | Cancelled => "cancelled"
  | Rejected => "rejected"
  | AuthRequired => "auth-required"
  | Expired => "expired"
  end.

(** The names of the [serde] attributes; [canceled] is an alias. *)
Definition status_of_str (s : string) : option TaskStatus :=
  if decide (s = "submitted") then Some Submitted
  else if decide (s = "working") then Some Working
  else if decide (s = "input-required") then Some InputRequired
  else if decide (s = "completed") then Some Completed
  else if decide (s = "failed") then Some Failed
  else if decide (s = "cancelled" \/ s = "canceled") then Some Cancelled
  else if decide (s = "rejected") then Some Rejected
  else if decide (s = "auth-required") then Some AuthRequired
  else if decide (s = "expired") then Some Expired
  else None.

(** ** Messages and tasks *)

Record A2AMessage := mkA2AMessage { role : string; content : string }.

Global Instance A2AMessage_eq_dec : EqDecision A2AMessage.
Proof. solve_decision. Defined.

Definition user (content : string) : A2AMessage := mkA2AMessage "user" content.
Definition agent (content : string) : A2AMessage := mkA2AMessage "agent" content.

Record A2ATask := mkA2ATask {
  t_id : string;
  t_message : A2AMessage;
  t_status : TaskStatus;
  t_owner : option string;
  t_messages : list A2AMessage;
}.

Global Instance A2ATask_eq_dec : EqDecision A2ATask.
Proof. solve_decision. Defined.

Module A2ATask.
Definition new (id : string) (message : A2AMessage) : A2ATask := mkA2ATask id message Submitted None [message].
Definition with_status (status : TaskStatus) (self : A2ATask) : A2ATask :=
  mkA2ATask (t_id self) (t_message self) status (t_owner self) (t_messages self).
Definition with_owner (owner : string) (self : A2ATask) : A2ATask :=
  mkA2ATask (t_id self) (t_message self) (t_status self) (Some owner) (t_messages self).
Definition push_message (msg : A2AMessage) (self : A2ATask) : A2ATask :=
  mkA2ATask (t_id self) (t_message self) (t_status self) (t_owner self) (t_messages self ++ [msg]).
Definition message_history (self : A2ATask) : list A2AMessage :=
  match t_messages self with [] => [t_message self] | messages => messages end.
End A2ATask.

(** ** Results, workflows, artifacts ([protocol/model.rs], [protocol/part.rs]) *)

Record A2ATaskResult := mkTaskResult { output : string }.

Record WorkflowStep := mkWorkflowStep {
  step_id : string;
  step_message : A2AMessage;
  step_skill_id : option string;
}.

Record A2AWorkflow := mkWorkflow {
  workflow_id : option string;
  workflow_name : option string;
  workflow_steps : list WorkflowStep;
}.

Module WorkflowStep.
Definition new (id content : string) : WorkflowStep := mkWorkflowStep id (user content) None.
Definition with_skill (id content skill_id : string) : WorkflowStep := mkWorkflowStep id (user content) (Some skill_id).
End WorkflowStep.

Module A2AWorkflow.
Definition new (steps : list WorkflowStep) : A2AWorkflow := mkWorkflow None None steps.
Definition with_workflow_id (id : string) (self : A2AWorkflow) : A2AWorkflow :=
  mkWorkflow (Some id) (workflow_name self) (workflow_steps self).
Definition with_name (name : string) (self : A2AWorkflow) : A2AWorkflow :=
  mkWorkflow (workflow_id self) (Some name) (workflow_steps self).
End A2AWorkflow.

(** Of the parts of an artifact, the server makes text ones only. *)
Inductive Part : Type := TextPart (text : string) (metadata : option JsonValue).

Record A2AArtifact := mkArtifact {
  artifact_id : string;
  parts : list Part;
  artifact_metadata : option JsonValue;
}.

Definition artifact_text (artifact_id text : string) : A2AArtifact := mkArtifact artifact_id [TextPart text None] None.

(** ** Push notifications *)

Inductive TaskPushNotification : Type :=
| StatusUpdate (id : string) (status : TaskStatus) (error : option string) (context_id : option string)
| ArtifactUpdate (id : string) (artifact : A2AArtifact) (context_id : option string).

Module TaskPushNotification.
Definition status (id : string) (status : TaskStatus) : TaskPushNotification := StatusUpdate id status None None.
Definition status_with_error (id : string) (status : TaskStatus) (error : string) : TaskPushNotification :=
  StatusUpdate id status (Some error) None.
Definition artifact (id : string) (artifact : A2AArtifact) : TaskPushNotification := ArtifactUpdate id artifact None.
Definition with_context_id (context_id : string) (self : TaskPushNotification) : TaskPushNotification :=
  match self with
  | StatusUpdate id status error _ => StatusUpdate id status error (Some context_id)
  | ArtifactUpdate id artifact _ => ArtifactUpdate id artifact (Some context_id)
  end.
Definition context_id (self : TaskPushNotification) : option string :=
  match self with StatusUpdate _ _ _ context_id | ArtifactUpdate _ _ context_id => context_id end.
Definition id (self : TaskPushNotification) : string :=
  match self with StatusUpdate id _ _ _ | ArtifactUpdate id _ _ => id end.
Definition status_value (self : TaskPushNotification) : option TaskStatus :=
  match self with StatusUpdate _ status _ _ => Some status | ArtifactUpdate _ _ _ => None end.
End TaskPushNotification.

(** ** Requests *)

(** serde: the derived encodings, and [serde_json::to_string]. *)
Class Wire := {
  message_of_json : JsonValue -> option A2AMessage;
  message_to_json : A2AMessage -> JsonValue;
  workflow_of_json : JsonValue -> option A2AWorkflow;
  workflow_to_json : A2AWorkflow -> JsonValue;
  json_text : JsonValue -> string;
}.

Record A2ARequest := mkRequest {
  r_jsonrpc : string;
  r_id : N;
  r_method : string;
  r_params : option JsonValue;
  r_metadata : option JsonValue;
}.

Module A2ARequest.
Definition new (id : N) (method : string) (params : option JsonValue) : A2ARequest :=
  mkRequest "2.0" id method params None.

Definition object (fields : list (string * JsonValue)) : JsonValue := JObject (list_to_map fields).

Section wire.
Context `{Wire}.
Definition send_task (id : N) (message : A2AMessage) : A2ARequest :=
  new id "tasks/send" (Some (object [("message", message_to_json message)])).
Definition continue_task (id : N) (task_id : string) (message : A2AMessage) : A2ARequest :=
  new id "tasks/send" (Some (object [("taskId", JString task_id); ("message", message_to_json message)])).
Definition send_subscribe_with_context (id : N) (message : A2AMessage)
    (subscription_id context_id : option string) : A2ARequest :=
  let params := object [("message", message_to_json message)] in
  let params := match subscription_id with Some s => json_insert "id" (JString s) params | None => params end in
  let params := match context_id with Some c => json_insert "contextId" (JString c) params | None => params end in
  new id "tasks/sendSubscribe" (Some params).
Definition send_subscribe (id : N) (message : A2AMessage) : A2ARequest := send_subscribe_with_context id message None None.
Definition run_workflow (id : N) (workflow : A2AWorkflow) : A2ARequest :=
  new id "tasks/runWorkflow" (Some (object [("workflow", workflow_to_json workflow)])).
End wire.

Definition get_task (id : N) (task_id : string) : A2ARequest :=
  new id "tasks/get" (Some (object [("taskId", JString task_id)])).
Definition cancel_task (id : N) (task_id : string) : A2ARequest :=
  new id "tasks/cancel" (Some (object [("taskId", JString task_id)])).

Definition with_metadata (metadata : JsonValue) (self : A2ARequest) : A2ARequest :=
  mkRequest (r_jsonrpc self) (r_id self) (r_method self) (r_params self) (Some metadata).

(** One well-known key, for metadata that is absent, null or an object ([IndexMut] panics
    on anything else). *)
Definition with_meta (key value : string) (self : A2ARequest) : A2ARequest :=
  let meta := match r_metadata self with Some (JObject m) => m | _ => ∅ end in
  with_metadata (JObject (<[key := JString value]> meta)) self.
Definition with_trace_id (trace_id : string) (self : A2ARequest) : A2ARequest := with_meta "trace_id" trace_id self.
Definition with_owner (owner : string) (self : A2ARequest) : A2ARequest := with_meta "owner" owner self.
Definition with_message_id (message_id : string) (self : A2ARequest) : A2ARequest :=
  with_meta "message_id" message_id self.

Definition meta (key : string) (self : A2ARequest) : option string :=
  metadata ← r_metadata self; value ← json_get metadata key; as_str value.
Definition param (key : string) (self : A2ARequest) : option string :=
  params ← r_params self; value ← json_get params key; as_str value.

Definition trace_id (self : A2ARequest) : option string := meta "trace_id" self.
Definition owner (self : A2ARequest) : option string := meta "owner" self.
Definition message_id (self : A2ARequest) : option string :=
  match meta "message_id" self with Some id => Some id | None => param "messageId" self end.
Definition protocol_version (self : A2ARequest) : option string := meta "protocolVersion" self.
Definition task_id (self : A2ARequest) : option string := param "taskId" self.
End A2ARequest.

(** ** Responses *)

Record A2AErrorData := mkErrorData { err_code : Z; err_message : string }.

Module A2AErrorData.
Definition method_not_found : A2AErrorData := mkErrorData (-32601) "Method not found".
Definition invalid_params (msg : string) : A2AErrorData := mkErrorData (-32602) msg.
Definition internal_error (msg : string) : A2AErrorData := mkErrorData (-32603) msg.
End A2AErrorData.

(** The [json!] object of a success. *)
Inductive ResponseBody : Type :=
| TaskBody (task : A2ATask)
| DetailsBody (task : A2ATask) (result : option A2ATaskResult) (error : option string)
| PageBody (tasks : list A2ATask) (has_more : bool) (next_cursor : option string).

Record A2AResponse := mkResponse {
  resp_jsonrpc : string;
  resp_id : N;
  resp_result : option ResponseBody;
  resp_error : option A2AErrorData;
}.

Module A2AResponse.
Definition ok (id : N) (result : ResponseBody) : A2AResponse := mkResponse "2.0" id (Some result) None.
Definition error (id : N) (code : Z) (message : string) : A2AResponse :=
  mkResponse "2.0" id None (Some (mkErrorData code message)).
Definition from_error_data (id : N) (error : A2AErrorData) : A2AResponse := mkResponse "2.0" id None (Some error).
Definition is_error (self : A2AResponse) : bool := match resp_error self with Some _ => true | None => false end.
End A2AResponse.

(** The tasks a response shows. *)
Definition shown (body : ResponseBody) : list A2ATask :=
  match body with TaskBody task | DetailsBody task _ _ => [task] | PageBody tasks _ _ => tasks end.

(** ** Filters *)

Record TaskFilter := mkFilter {
  f_owner : option string;
  f_statuses : option (list TaskStatus);
}.

Module TaskFilter.
Definition new : TaskFilter := mkFilter None None.
Definition with_owner (owner : string) (self : TaskFilter) : TaskFilter := mkFilter (Some owner) (f_statuses self).
Definition with_statuses (statuses : list TaskStatus) (self : TaskFilter) : TaskFilter :=
  mkFilter (f_owner self) (Some statuses).
Definition matches (self : TaskFilter) (task : A2ATask) : bool :=
  match f_owner self with Some owner => bool_decide (t_owner task = Some owner) | None => true end &&
  match f_statuses self with Some statuses => bool_decide (t_status task ∈ statuses) | None => true end.
End TaskFilter.
