(* ===== verification/A2aStore.v ===== *)
(** * Task stores ([crates/lc-a2a/src/store.rs])

    The trait [TaskStore] with its two default bodies, what a backend whose operations
    are atomic promises ([AtomicStore]), and the in-memory store with its eviction.  The
    order in which a [HashMap] is iterated is a parameter. *)

From stdpp Require Import gmap strings list.
From S2P Require Import Prelude Process A2aProtocol.

(** [Instant]s count nanoseconds. *)
Record StoredTask := mkStored {
  st_task : A2ATask;
  st_result : option A2ATaskResult;
  st_error : option string;
  st_trace_id : option string;
  st_skill_id : option string;
  created_at : N;
  updated_at : N;
}.

Module StoredTask.
Definition new (now : N) (task : A2ATask) : StoredTask := mkStored task None None None None now now.
Definition with_trace_id (trace_id : string) (self : StoredTask) : StoredTask :=
  mkStored (st_task self) (st_result self) (st_error self) (Some trace_id) (st_skill_id self) (created_at self) (updated_at self).
Definition with_skill_id (skill_id : option string) (self : StoredTask) : StoredTask :=
  mkStored (st_task self) (st_result self) (st_error self) (st_trace_id self) skill_id (created_at self) (updated_at self).
Definition touch (now : N) (self : StoredTask) : StoredTask :=
  mkStored (st_task self) (st_result self) (st_error self) (st_trace_id self) (st_skill_id self) (created_at self) now.
Definition age (now : N) (self : StoredTask) : N := now - updated_at self.
End StoredTask.

Definition st_id (self : StoredTask) : string := t_id (st_task self).
Definition st_status (self : StoredTask) : TaskStatus := t_status (st_task self).
Definition st_owner (self : StoredTask) : option string := t_owner (st_task self).

(** The fields that a transition writes. *)
Definition set_status (status : TaskStatus) (self : StoredTask) : StoredTask :=
  mkStored (A2ATask.with_status status (st_task self)) (st_result self) (st_error self) (st_trace_id self)
           (st_skill_id self) (created_at self) (updated_at self).
Definition set_result (result : option A2ATaskResult) (self : StoredTask) : StoredTask :=
  mkStored (st_task self) result (st_error self) (st_trace_id self) (st_skill_id self) (created_at self) (updated_at self).
Definition set_error (error : option string) (self : StoredTask) : StoredTask :=
  mkStored (st_task self) (st_result self) error (st_trace_id self) (st_skill_id self) (created_at self) (updated_at self).
Definition push_stored (msg : A2AMessage) (self : StoredTask) : StoredTask :=
  mkStored (A2ATask.push_message msg (st_task self)) (st_result self) (st_error self) (st_trace_id self)
           (st_skill_id self) (created_at self) (updated_at self).

Inductive StoreError : Type :=
| Unavailable (msg : string)
| CapacityExceeded (msg : string).

(** Whether [update] may replace [current]: an owned task only by its owner. *)
Definition claimable (current : option StoredTask) (update : StoredTask) : bool :=
  match current with
  | Some current =>
      match st_owner current with
      | Some actual => bool_decide (st_owner update = Some actual)
      | None => true
      end
  | None => true
  end.

(** ** The trait *)

Record TaskStore (S : Type) := mkTaskStore {
  ts_upsert : StoredTask -> Proc S (result StoreError ());
  ts_upsert_claimed : string -> StoredTask -> Proc S (result StoreError bool);
  ts_get : string -> Proc S (result StoreError (option StoredTask));
  ts_list : TaskFilter -> Proc S (result StoreError (list StoredTask));
  ts_delete : string -> Proc S (result StoreError bool);
  ts_compare_and_update : string -> StoredTask -> Proc S (result StoreError bool);
}.
Arguments ts_upsert {S} _ _.
Arguments ts_upsert_claimed {S} _ _ _.
Arguments ts_get {S} _ _.
Arguments ts_list {S} _ _.
Arguments ts_delete {S} _ _.
Arguments ts_compare_and_update {S} _ _ _.

Section defaults.
Context {S : Type} (get : string -> Proc S (result StoreError (option StoredTask)))
        (upsert : StoredTask -> Proc S (result StoreError ())).

Definition default_upsert_claimed (task_id : string) (update : StoredTask) : Proc S (result StoreError bool) :=
  r ← get task_id;
  match r with
  | Err e => mret (Err e)
  | Ok current =>
      if claimable current update
      then r ← upsert update; mret (match r with Ok _ => Ok true | Err e => Err e end)
      else mret (Ok false)
  end.

Definition default_compare_and_update (task_id : string) (update : StoredTask) : Proc S (result StoreError bool) :=
  r ← get task_id;
  match r with
  | Err e => mret (Err e)
  | Ok (Some current) =>
      if can_transition_to (st_status current) (st_status update)
      then r ← upsert update; mret (match r with Ok _ => Ok true | Err e => Err e end)
      else mret (Ok false)
  | Ok None => mret (Ok false)
  end.
End defaults.

(** ** The in-memory store *)

Definition DEFAULT_MAX_TASKS : nat := 10000.

Record InMemoryTaskStore := mkMemStore {
  inner : gmap string StoredTask;
  max_tasks : nat;
}.

Module InMemoryTaskStore.
Definition with_max_tasks (max_tasks : nat) : InMemoryTaskStore := mkMemStore ∅ max_tasks.
Definition new : InMemoryTaskStore := with_max_tasks DEFAULT_MAX_TASKS.

Section store.
Context (order : gmap string StoredTask -> list (string * StoredTask)).

(** [min_by_key]: the first of the least recently updated. *)
Fixpoint oldest (l : list (string * StoredTask)) : option (string * StoredTask) :=
  match l with
  | [] => None
  | kt :: l =>
      match oldest l with
      | Some kt' => if (updated_at kt.2 <=? updated_at kt'.2)%N then Some kt else Some kt'
      | None => Some kt
      end
  end.

Definition insert_locked (stored : StoredTask) (self : InMemoryTaskStore) : InMemoryTaskStore :=
  let guard := inner self in
  let guard :=
    if bool_decide (guard !! st_id stored = None) && (0 <? max_tasks self) && (max_tasks self <=? size guard)
    then match oldest (order guard) with Some (key, _) => delete key guard | None => guard end
    else guard in
  mkMemStore (<[st_id stored := stored]> guard) (max_tasks self).

Definition upsert (stored : StoredTask) : Proc InMemoryTaskStore (result StoreError ()) :=
  call (fun self => (Ok (), insert_locked stored self)).

Definition upsert_claimed (task_id : string) (update : StoredTask) : Proc InMemoryTaskStore (result StoreError bool) :=
  call (fun self =>
    if claimable (inner self !! task_id) update then (Ok true, insert_locked update self) else (Ok false, self)).

Definition get (task_id : string) : Proc InMemoryTaskStore (result StoreError (option StoredTask)) :=
  call (fun self => (Ok (inner self !! task_id), self)).

Definition created_le (a b : StoredTask) : bool := (created_at a <=? created_at b)%N.

Definition list (f : TaskFilter) : Proc InMemoryTaskStore (result StoreError (list StoredTask)) :=
  call (fun self =>
    (Ok (sort_by created_le (filter (fun t => TaskFilter.matches f (st_task t) = true) (order (inner self)).*2)), self)).

Definition delete_task (task_id : string) : Proc InMemoryTaskStore (result StoreError bool) :=
  call (fun self =>
    (Ok (bool_decide (is_Some (inner self !! task_id))), mkMemStore (delete task_id (inner self)) (max_tasks self))).

Definition compare_and_update (task_id : string) (update : StoredTask) : Proc InMemoryTaskStore (result StoreError bool) :=
  call (fun self =>
    match inner self !! task_id with
    | Some current =>
        if can_transition_to (st_status current) (st_status update)
        then (Ok true, mkMemStore (<[task_id := update]> (inner self)) (max_tasks self))
        else (Ok false, self)
    | None => (Ok false, self)
    end).

Definition store : TaskStore InMemoryTaskStore :=
  mkTaskStore _ upsert upsert_claimed get list delete_task compare_and_update.
End store.
End InMemoryTaskStore.

(** ** What an atomic backend promises *)

(** One atomic operation; failing, it leaves the tasks alone. *)
Definition atomically {S A} (view : S -> gmap string StoredTask) (p : Proc S (result StoreError A))
    (done : gmap string StoredTask -> A -> gmap string StoredTask -> Prop) : Prop :=
  exists act, p = call act /\
    forall s, match act s with
              | (Ok a, s') => done (view s) a (view s')
              | (Err _, s') => view s' = view s
              end.

(** An insertion that may evict other tasks to make room for a new one. *)
Definition inserts (stored : StoredTask) (before after : gmap string StoredTask) : Prop :=
  exists kept, kept ⊆ before /\ after = <[st_id stored := stored]> kept /\
    (is_Some (before !! st_id stored) -> kept = before).

Class AtomicStore {S} (store : TaskStore S) (view : S -> gmap string StoredTask) : Prop := {
  atomic_upsert stored : atomically view (ts_upsert store stored) (fun before _ after => inserts stored before after);
  atomic_upsert_claimed stored : atomically view (ts_upsert_claimed store (st_id stored) stored)
    (fun before applied after =>
       applied = claimable (before !! st_id stored) stored /\
       if applied then inserts stored before after else after = before);
  atomic_get id : atomically view (ts_get store id) (fun before found after => found = before !! id /\ after = before);
  atomic_list f : atomically view (ts_list store f) (fun before found after =>
    after = before /\ StronglySorted (fun a b => (created_at a <= created_at b)%N) found /\
    found ≡ₚ filter (fun t => TaskFilter.matches f (st_task t) = true) (map_to_list before).*2);
  atomic_delete id : atomically view (ts_delete store id) (fun before found after =>
    found = bool_decide (is_Some (before !! id)) /\ after = delete id before);
  atomic_compare_and_update id update : atomically view (ts_compare_and_update store id update)
    (fun before applied after =>
       let legal := match before !! id with
                    | Some current => can_transition_to (st_status current) (st_status update)
                    | None => false
                    end in
       applied = legal /\ after = if legal then <[id := update]> before else before);
}.

Lemma atomically_call {S A} (view : S -> gmap string StoredTask) (act : S -> result StoreError A * S) done :
  (forall s, match act s with
             | (Ok a, s') => done (view s) a (view s')
             | (Err _, s') => view s' = view s
             end) -> atomically view (call act) done.
Proof. intros H. by exists act. Qed.

(** The in-memory store keeps the promise, whatever the order of its map. *)
Section memory.
Context (order : gmap string StoredTask -> list (string * StoredTask)).
Context (order_perm : forall m, order m ≡ₚ map_to_list m).
Import InMemoryTaskStore.

Lemma insert_locked_inserts stored (self : InMemoryTaskStore) :
  inserts stored (inner self) (inner (insert_locked order stored self)).
Proof.
  unfold insert_locked, inserts. simpl. destruct (bool_decide (inner self !! st_id stored = None)) eqn:E; simpl.
  - apply bool_decide_eq_true in E. eexists. split; [|split; [done|]].
    + destruct (_ && _); [|done]. destruct (oldest _) as [[key t]|]; [|done]. apply delete_subseteq.
    + rewrite E. by intros [? ?].
  - by eexists.
Qed.

Lemma created_total a b : created_le a b = true \/ created_le b a = true.
Proof. unfold created_le. rewrite !N.leb_le. lia. Qed.
Lemma created_trans a b c : created_le a b = true -> created_le b c = true -> created_le a c = true.
Proof. unfold created_le. rewrite !N.leb_le. lia. Qed.

#[export] Instance memory_atomic : AtomicStore (store order) inner.
Proof.
  split; intros; apply atomically_call; intros s; simpl.
  - apply insert_locked_inserts.
  - destruct (claimable _ _); [|done]. split; [done|apply insert_locked_inserts].
  - done.
  - split_and!; [done| |].
    + eapply StronglySorted_mono, sort_by_sorted; [|apply created_total|apply created_trans].
      intros a b. apply N.leb_le.
    + rewrite sort_by_perm. by rewrite order_perm.
  - done.
  - destruct (inner s !! id) as [current|]; [|done]. by destruct (can_transition_to _ _).
Qed.

Lemma evicted_bounded stored (self : InMemoryTaskStore) :
  0 < max_tasks self -> size (inner self) <= max_tasks self -> size (inner (insert_locked order stored self)) <= max_tasks self.
Proof.
  intros Hm Hs. unfold insert_locked. simpl.
  destruct (inner self !! st_id stored) as [t|] eqn:E.
  - rewrite bool_decide_eq_false_2 //=. rewrite map_size_insert E /=. lia.
  - rewrite bool_decide_eq_true_2 //=. destruct (Nat.leb_spec (max_tasks self) (size (inner self))) as [Hl|Hl].
    + assert (0 <? max_tasks self = true) as -> by by apply Nat.ltb_lt. simpl.
      assert (exists kt, oldest (order (inner self)) = Some kt /\ kt ∈ order (inner self)) as ([key t] & -> & Hin).
      { assert (order (inner self) <> []) as Hne.
        { intros E'. pose proof (Permutation_length (order_perm (inner self))) as Hp.
          rewrite E' length_map_to_list /= in Hp. lia. }
        clear -Hne. induction (order (inner self)) as [|kt l IH]; [done|]. simpl.
        destruct l as [|kt' l]; [exists kt; split; [done|constructor]|].
        destruct IH as (kt2 & -> & Hin); [done|].
        destruct (_ <=? _)%N; eexists; (split; [done|]); [constructor|by constructor]. }
      rewrite order_perm in Hin. apply elem_of_map_to_list in Hin.
      rewrite map_size_insert lookup_delete_ne; [|by intros ->; rewrite E in Hin].
      rewrite E map_size_delete Hin /=. lia.
    + rewrite andb_false_r map_size_insert E /=. lia.
Qed.
End memory.
