(* ===== verification/A2aServer.v ===== *)
(** * The agent server ([crates/lc-a2a/src/server], [rate_limiter.rs])

    The server acknowledges a request and runs the chain behind it in a worker, so
    handlers, workers and sweeps interleave at every access to what they share: the store, the
    table of message ids, the claims of resumes, the cancellation signals, the permits and the
    bus.  Each of them is a [Proc] whose calls are these accesses; a spawned worker is put on
    a list of the world, from which the system takes it ([A2aSystem]).

    Parameters: chains and how they answer ([Chains]), uuids, the clock (advanced by the
    system), serde ([Wire]), the order of a [HashMap], the size of an encoded request. *)

From stdpp Require Import gmap strings list pretty.
From S2P Require Import Prelude Json Process A2aProtocol A2aStore.

(** ** Chains ([lc-chains/src/base.rs]) *)

Inductive ChainError : Type :=
| MissingInput (msg : string)
| InputError (msg : string)
| OutputError (msg : string)
| ChainExecutionError (msg : string)
| StreamError (msg : string)
| OtherError (msg : string)
| Nested (context source : string).

Definition chain_error_to_string (e : ChainError) : string :=
  match e with
  | MissingInput msg => "Missing input: " +:+ msg
  | InputError msg => "Input error: " +:+ msg
  | OutputError msg => "Output error: " +:+ msg
  | ChainExecutionError msg => "Execution error: " +:+ msg
  | StreamError msg => "Stream error: " +:+ msg
  | OtherError msg => "Chain error: " +:+ msg
  | Nested context source => context +:+ ": " +:+ source
  end.

Notation ChainResult := (gmap string JsonValue).

(** A chain is what it declares and how it answers.  [select_cancels] is the choice of
    [tokio::select!] between a chain and a signal that has fired. *)
Class Chains (Chain H : Type) := {
  input_keys : Chain -> list string;
  chain_invoke : Chain -> gmap string JsonValue -> H -> result ChainError ChainResult * H;
  select_cancels : H -> bool;
}.

(** ** What handlers and workers share *)

Definition MAX_MESSAGE_IDS : nat := 10000.

Record MessageIdTable := mkIdTable { id_map : gmap string string; id_order : list string }.

(** What [tokio::spawn] is given. *)
Inductive Worker {Chain : Type} : Type :=
| RunTask (chain : Chain) (task_id : string) (history : list A2AMessage) (cancel : nat)
| RunWorkflow (steps : list WorkflowStep) (chains : list Chain) (task_id : string).
Arguments Worker : clear implicits.

Record A2aWorld (Chain S H : Type) := mkA2aWorld {
  w_store : S;
  message_ids : MessageIdTable;
  inflight_resumes : gset string;
  cancellations : gmap string nat;
  signals : list bool;
  in_flight : N;
  bus : list TaskPushNotification;
  spawned : list (Worker Chain);
  w_now : N;
  uuids : nat;
  rate_permits : N;
  window_start : N;
  window_count : nat;
  host : H;
}.
Arguments mkA2aWorld {Chain S H}.
Arguments w_store {Chain S H}. Arguments message_ids {Chain S H}. Arguments inflight_resumes {Chain S H}.
Arguments cancellations {Chain S H}. Arguments signals {Chain S H}. Arguments in_flight {Chain S H}.
Arguments bus {Chain S H}. Arguments spawned {Chain S H}. Arguments w_now {Chain S H}. Arguments uuids {Chain S H}.
Arguments rate_permits {Chain S H}. Arguments window_start {Chain S H}. Arguments window_count {Chain S H}.
Arguments host {Chain S H}.

Module MessageIdTable.
Definition default : MessageIdTable := mkIdTable ∅ [].

(** At capacity the oldest entry goes; entries of aborted keys are skipped. *)
Fixpoint evict (map : gmap string string) (order : list string) : gmap string string * list string :=
  if MAX_MESSAGE_IDS <=? size map then
    match order with
    | [] => (map, [])
    | oldest :: order => if map !! oldest then (delete oldest map, order) else evict map order
    end
  else (map, order).

Definition insert (mid task_id : string) (self : MessageIdTable) : MessageIdTable :=
  match id_map self !! mid with
  | Some _ => mkIdTable (<[mid := task_id]> (id_map self)) (id_order self)
  | None =>
      let '(map, order) := evict (id_map self) (id_order self) in
      mkIdTable (<[mid := task_id]> map) (order ++ [mid])
  end.

Definition remove (mid : string) (self : MessageIdTable) : MessageIdTable :=
  mkIdTable (delete mid (id_map self)) (id_order self).
End MessageIdTable.

Section setters.
Context {Chain S H : Type}.
Notation W := (A2aWorld Chain S H).
Definition set_store (x : S) (w : W) : W :=
  mkA2aWorld x (message_ids w) (inflight_resumes w) (cancellations w) (signals w) (in_flight w) (bus w) (spawned w) (w_now w) (uuids w) (rate_permits w) (window_start w) (window_count w) (host w).
Definition set_message_ids (x : MessageIdTable) (w : W) : W :=
  mkA2aWorld (w_store w) x (inflight_resumes w) (cancellations w) (signals w) (in_flight w) (bus w) (spawned w) (w_now w) (uuids w) (rate_permits w) (window_start w) (window_count w) (host w).
Definition set_inflight_resumes (x : gset string) (w : W) : W :=
  mkA2aWorld (w_store w) (message_ids w) x (cancellations w) (signals w) (in_flight w) (bus w) (spawned w) (w_now w) (uuids w) (rate_permits w) (window_start w) (window_count w) (host w).
Definition set_cancellations (x : gmap string nat) (w : W) : W :=
  mkA2aWorld (w_store w) (message_ids w) (inflight_resumes w) x (signals w) (in_flight w) (bus w) (spawned w) (w_now w) (uuids w) (rate_permits w) (window_start w) (window_count w) (host w).
Definition set_signals (x : list bool) (w : W) : W :=
  mkA2aWorld (w_store w) (message_ids w) (inflight_resumes w) (cancellations w) x (in_flight w) (bus w) (spawned w) (w_now w) (uuids w) (rate_permits w) (window_start w) (window_count w) (host w).
Definition set_in_flight (x : N) (w : W) : W :=
  mkA2aWorld (w_store w) (message_ids w) (inflight_resumes w) (cancellations w) (signals w) x (bus w) (spawned w) (w_now w) (uuids w) (rate_permits w) (window_start w) (window_count w) (host w).
Definition set_bus (x : list TaskPushNotification) (w : W) : W :=
  mkA2aWorld (w_store w) (message_ids w) (inflight_resumes w) (cancellations w) (signals w) (in_flight w) x (spawned w) (w_now w) (uuids w) (rate_permits w) (window_start w) (window_count w) (host w).
Definition set_spawned (x : list (Worker Chain)) (w : W) : W :=
  mkA2aWorld (w_store w) (message_ids w) (inflight_resumes w) (cancellations w) (signals w) (in_flight w) (bus w) x (w_now w) (uuids w) (rate_permits w) (window_start w) (window_count w) (host w).
Definition set_now (x : N) (w : W) : W :=
  mkA2aWorld (w_store w) (message_ids w) (inflight_resumes w) (cancellations w) (signals w) (in_flight w) (bus w) (spawned w) x (uuids w) (rate_permits w) (window_start w) (window_count w) (host w).
Definition set_uuids (x : nat) (w : W) : W :=
  mkA2aWorld (w_store w) (message_ids w) (inflight_resumes w) (cancellations w) (signals w) (in_flight w) (bus w) (spawned w) (w_now w) x (rate_permits w) (window_start w) (window_count w) (host w).
Definition set_rate (permits start : N) (count : nat) (w : W) : W :=
  mkA2aWorld (w_store w) (message_ids w) (inflight_resumes w) (cancellations w) (signals w) (in_flight w) (bus w) (spawned w) (w_now w) (uuids w) permits start count (host w).
Definition set_host (x : H) (w : W) : W :=
  mkA2aWorld (w_store w) (message_ids w) (inflight_resumes w) (cancellations w) (signals w) (in_flight w) (bus w) (spawned w) (w_now w) (uuids w) (rate_permits w) (window_start w) (window_count w) x.
End setters.

(** A process over a part of the world. *)
Section zoom.
Context {S W : Type} (get : W -> S) (put : S -> W -> W).
Fixpoint zoom {A} (p : Proc S A) : Proc W A :=
  match p with
  | Return a => Return a
  | Await k => Await (fun w => let '(p, s) := k (get w) in (zoom p, put s w))
  end.
End zoom.

(** ** Messages and chain inputs ([server/message.rs]) *)

Section messages.
Context {wire : Wire} {Chain H : Type} {Hchains : Chains Chain H}.

Definition extract_content_text (content : option JsonValue) : string :=
  match content with
  | None => ""
  | Some (JString s) => s
  | Some (JObject map) =>
      match match map !! "text" with Some v => Some v | None => map !! "content" end ≫= as_str with
      | Some s => s
      | None => json_text (JObject map)
      end
  | Some v => json_text v
  end.

Definition extract_message (params : JsonValue) : A2AMessage :=
  match json_get params "message" with
  | Some msg_val =>
      match message_of_json msg_val with
      | Some message => message
      | None =>
          mkA2AMessage (default "user" (json_get msg_val "role" ≫= as_str))
                       (extract_content_text (json_get msg_val "content"))
      end
  | None => user (json_text params)
  end.

Definition build_chain_input (content : string) (chain : Chain) : gmap string JsonValue :=
  {[ match input_keys chain with first_key :: _ => first_key | [] => "input" end := JString content ]}.

Definition build_chain_input_from_history (history : list A2AMessage) (chain : Chain) : gmap string JsonValue :=
  build_chain_input
    match history with
    | [m] => content m
    | _ => str_join newline ((fun m => role m +:+ ": " +:+ content m) <$> history)
    end chain.

(** The first value in the order of the map, if it is a string. *)
Definition extract_output (first_value : ChainResult -> option JsonValue) (result : ChainResult) : string :=
  default "" (first_value result ≫= as_str).

Definition is_input_required (e : ChainError) : bool :=
  match e with MissingInput _ | InputError _ => true | _ => false end.
End messages.

(** ** Authentication ([server/auth.rs]) *)

Inductive AuthError : Type := Required | InvalidToken.

Definition auth_error_to_string (e : AuthError) : string :=
  match e with Required => "Authentication required" | InvalidToken => "Invalid authentication token" end.

Definition Authenticator : Type := option string -> result AuthError (option string).

Record StaticBearer := mkStaticBearer { expected : option string; identities : gmap string string }.

Definition authenticate (self : StaticBearer) : Authenticator := fun bearer =>
  match token ← bearer; identities self !! token with
  | Some principal => Ok (Some principal)
  | None =>
      match expected self with
      | Some expected =>
          match bearer with
          | None => Err Required
          | Some token => if String.eqb token expected then Ok None else Err InvalidToken
          end
      | None => if bool_decide (identities self = ∅) then Ok None else Err Required
      end
  end.

(** ** The server ([server/mod.rs]) *)

Definition MAX_PERMITS : N := 2305843009213693951.
Definition DEFAULT_MAX_IN_FLIGHT : N := 64.
Definition DEFAULT_TASK_TTL : N := 24 * 60 * 60 * 1000000000.

Record RateLimiter := mkRateLimiter { rl_window : N; rl_max_requests : nat }.

(** Its semaphore and window are in the world. *)
Definition rate_window : N := 60 * 1000000000.
Definition rate_limiter_permits (max_concurrent : N) : N :=
  if (max_concurrent =? 0)%N then MAX_PERMITS else max_concurrent.

Record A2AServer (Chain S : Type) := mkServer {
  s_chain : Chain;
  s_store : TaskStore S;
  skill_router : option (string -> option Chain);
  event_bus : bool;
  expected_token : option string;
  auth_principals : gmap string string;
  rate_limiter : option RateLimiter;
  task_ttl : option N;
  sandbox : option (option nat);
  allowed_protocol_versions : gset string;
  authenticator : option Authenticator;
  trust_metadata_owner : bool;
}.
Arguments mkServer {Chain S}.
Arguments s_chain {Chain S}. Arguments s_store {Chain S}. Arguments skill_router {Chain S}. Arguments event_bus {Chain S}.
Arguments expected_token {Chain S}. Arguments auth_principals {Chain S}. Arguments rate_limiter {Chain S}.
Arguments task_ttl {Chain S}. Arguments sandbox {Chain S}. Arguments allowed_protocol_versions {Chain S}.
Arguments authenticator {Chain S}. Arguments trust_metadata_owner {Chain S}.

Module A2AServer.
Section builders.
Context {Chain S : Type}.
Definition new (chain : Chain) (store : TaskStore S) : A2AServer Chain S :=
  mkServer chain store None false None ∅ None (Some DEFAULT_TASK_TTL) None {["0.3.0"; "1.0"; "1.0.1"]} None false.
Definition with_skill_router (router : string -> option Chain) (s : A2AServer Chain S) : A2AServer Chain S :=
  mkServer (s_chain s) (s_store s) (Some router) (event_bus s) (expected_token s) (auth_principals s) (rate_limiter s) (task_ttl s) (sandbox s) (allowed_protocol_versions s) (authenticator s) (trust_metadata_owner s).
Definition with_streaming (s : A2AServer Chain S) : A2AServer Chain S :=
  mkServer (s_chain s) (s_store s) (skill_router s) true (expected_token s) (auth_principals s) (rate_limiter s) (task_ttl s) (sandbox s) (allowed_protocol_versions s) (authenticator s) (trust_metadata_owner s).
Definition with_auth_token (token : string) (s : A2AServer Chain S) : A2AServer Chain S :=
  mkServer (s_chain s) (s_store s) (skill_router s) (event_bus s) (Some token) (auth_principals s) (rate_limiter s) (task_ttl s) (sandbox s) (allowed_protocol_versions s) (authenticator s) (trust_metadata_owner s).
Definition with_auth_identity (token owner : string) (s : A2AServer Chain S) : A2AServer Chain S :=
  mkServer (s_chain s) (s_store s) (skill_router s) (event_bus s) (expected_token s) (<[token := owner]> (auth_principals s)) (rate_limiter s) (task_ttl s) (sandbox s) (allowed_protocol_versions s) (authenticator s) (trust_metadata_owner s).
Definition with_authenticator (a : Authenticator) (s : A2AServer Chain S) : A2AServer Chain S :=
  mkServer (s_chain s) (s_store s) (skill_router s) (event_bus s) (expected_token s) (auth_principals s) (rate_limiter s) (task_ttl s) (sandbox s) (allowed_protocol_versions s) (Some a) (trust_metadata_owner s).
Definition with_trust_metadata_owner (trust : bool) (s : A2AServer Chain S) : A2AServer Chain S :=
  mkServer (s_chain s) (s_store s) (skill_router s) (event_bus s) (expected_token s) (auth_principals s) (rate_limiter s) (task_ttl s) (sandbox s) (allowed_protocol_versions s) (authenticator s) trust.
Definition with_rate_limiter (limiter : RateLimiter) (s : A2AServer Chain S) : A2AServer Chain S :=
  mkServer (s_chain s) (s_store s) (skill_router s) (event_bus s) (expected_token s) (auth_principals s) (Some limiter) (task_ttl s) (sandbox s) (allowed_protocol_versions s) (authenticator s) (trust_metadata_owner s).
Definition with_sandbox (max_payload : option nat) (s : A2AServer Chain S) : A2AServer Chain S :=
  mkServer (s_chain s) (s_store s) (skill_router s) (event_bus s) (expected_token s) (auth_principals s) (rate_limiter s) (task_ttl s) (Some max_payload) (allowed_protocol_versions s) (authenticator s) (trust_metadata_owner s).
Definition with_supported_protocol_version (version : string) (s : A2AServer Chain S) : A2AServer Chain S :=
  mkServer (s_chain s) (s_store s) (skill_router s) (event_bus s) (expected_token s) (auth_principals s) (rate_limiter s) (task_ttl s) (sandbox s) ({[version]} ∪ allowed_protocol_versions s) (authenticator s) (trust_metadata_owner s).
Definition with_task_ttl (ttl : option N) (s : A2AServer Chain S) : A2AServer Chain S :=
  mkServer (s_chain s) (s_store s) (skill_router s) (event_bus s) (expected_token s) (auth_principals s) (rate_limiter s) ttl (sandbox s) (allowed_protocol_versions s) (authenticator s) (trust_metadata_owner s).
(** The permits a server starts with. *)
Definition with_max_inflight_tasks (max : N) : N := if (max =? 0)%N then MAX_PERMITS else max.
End builders.
End A2AServer.

Section server.
Context {wire : Wire} {Chain H S : Type} {Hchains : Chains Chain H}.
Context (first_value : ChainResult -> option JsonValue) (uuid : nat -> string) (request_size : A2ARequest -> nat).
Context (self : A2AServer Chain S).

Notation W := (A2aWorld Chain S H).
Notation P := (Proc W).

(** *** Accesses to what is shared *)

Definition skip : P () := Return ().

Definition on_store {A} (p : Proc S A) : P A := zoom w_store set_store p.
Definition now : P N := call (fun w => (w_now w, w)).
Definition new_uuid : P string := call (fun w => (uuid (uuids w), set_uuids (Datatypes.S (uuids w)) w)).
Definition sleep : P () := tell (fun w => w).

Definition try_acquire_in_flight : P bool :=
  call (fun w => if (0 <? in_flight w)%N then (true, set_in_flight (in_flight w - 1) w) else (false, w)).
Definition release_in_flight : P () := tell (fun w => set_in_flight (in_flight w + 1) w).

Definition spawn (worker : Worker Chain) : P () := tell (fun w => set_spawned (spawned w ++ [worker]) w).

Definition publish (event : TaskPushNotification) : P () :=
  if event_bus self then tell (fun w => set_bus (bus w ++ [event]) w) else skip.
Definition publish_status (task_id : string) (status : TaskStatus) (error : option string) : P () :=
  publish match error with
          | Some e => TaskPushNotification.status_with_error task_id status e
          | None => TaskPushNotification.status task_id status
          end.
Definition publish_artifact (task_id : string) (artifact : A2AArtifact) : P () :=
  publish (TaskPushNotification.artifact task_id artifact).

(** [CancelSignal]: a fresh one, registered; its removal; firing it. *)
Definition register_cancel (task_id : string) : P nat :=
  cancel ← call (fun w => (length (signals w), set_signals (signals w ++ [false]) w));
  tell (fun w => set_cancellations (<[task_id := cancel]> (cancellations w)) w) ;;
  mret cancel.
Definition remove_cancel (task_id : string) : P () :=
  tell (fun w => set_cancellations (delete task_id (cancellations w)) w).
Definition fire_cancel (task_id : string) : P () :=
  tell (fun w => match cancellations w !! task_id with
                 | Some cancel => set_signals (<[cancel := true]> (signals w)) w
                 | None => w
                 end).

(** [tokio::select!] between the chain and the signal: [None] when the signal wins. *)
Definition select (chain : Chain) (input : gmap string JsonValue) (cancel : nat) : P (option (result ChainError ChainResult)) :=
  call (fun w =>
    if default false (signals w !! cancel) && select_cancels (host w) then (None, w)
    else let '(r, h) := chain_invoke chain input (host w) in (Some r, set_host h w)).

Definition invoke_chain (chain : Chain) (input : gmap string JsonValue) : P (result ChainError ChainResult) :=
  call (fun w => let '(r, h) := chain_invoke chain input (host w) in (r, set_host h w)).

(** *** Message ids *)

Definition claim_message_id (mid : string) : P (result () (option string)) :=
  call (fun w =>
    match id_map (message_ids w) !! mid with
    | Some task_id => (if String.eqb task_id "" then Err () else Ok (Some task_id), w)
    | None => (Ok None, set_message_ids (MessageIdTable.insert mid "" (message_ids w)) w)
    end).

Definition reserve_message_id (mid : string) : P (result () (option string)) :=
  mapped ← call (fun w => (id_map (message_ids w) !! mid, w));
  match mapped with
  | Some task_id =>
      if String.eqb task_id "" then mret (Err ())
      else
        r ← on_store (ts_get (s_store self) task_id);
        match r with
        | Ok (Some _) => mret (Ok (Some task_id))
        | _ => claim_message_id mid
        end
  | None => claim_message_id mid
  end.

Definition finish_message_id (mid task_id : string) : P () :=
  tell (fun w => set_message_ids (MessageIdTable.insert mid task_id (message_ids w)) w).
Definition abort_message_id (mid : string) : P () :=
  tell (fun w => set_message_ids (MessageIdTable.remove mid (message_ids w)) w).
Definition release_resume_id (message_id : option string) : P () :=
  match message_id with Some mid => abort_message_id mid | None => skip end.

(** [begin_resume], and the drop of its guard. *)
Definition begin_resume (task_id : string) : P bool :=
  call (fun w =>
    if bool_decide (task_id ∈ inflight_resumes w) then (false, w)
    else (true, set_inflight_resumes ({[task_id]} ∪ inflight_resumes w) w)).
Definition end_resume (task_id : string) : P () :=
  tell (fun w => set_inflight_resumes (inflight_resumes w ∖ {[task_id]}) w).

(** *** Owners *)

Definition has_auth : bool :=
  match authenticator self, expected_token self with
  | None, None => bool_decide (auth_principals self <> ∅)
  | _, _ => true
  end.

Definition static_bearer : StaticBearer := mkStaticBearer (expected_token self) (auth_principals self).

Definition check_auth (req_id : N) (bearer : option string) : result A2AResponse (option string) :=
  let authenticator := default (authenticate static_bearer) (authenticator self) in
  map_err (fun e => A2AResponse.error req_id 401 (auth_error_to_string e)) (authenticator bearer).

Definition resolve_owner (req : A2ARequest) (principal : option string) : option string :=
  match principal with
  | Some p => Some p
  | None => if has_auth then None else if trust_metadata_owner self then A2ARequest.owner req else None
  end.

Definition caller_owns (owner : option string) (task : A2ATask) : bool :=
  match t_owner task with Some task_owner => bool_decide (owner = Some task_owner) | None => true end.

Definition resolve_chain (skill_id : option string) : Chain :=
  match sid ← skill_id; router ← skill_router self; router sid with Some chain => chain | None => s_chain self end.

Definition notification_visible (principal : option string) (task_id : string) : P bool :=
  match principal with
  | Some principal =>
      r ← on_store (ts_get (s_store self) task_id);
      mret match r with Ok (Some stored) => bool_decide (st_owner stored = Some principal) | _ => false end
  | None =>
      if has_auth then
        r ← on_store (ts_get (s_store self) task_id);
        mret match r with Ok (Some stored) => bool_decide (st_owner stored = None) | _ => false end
      else mret true
  end.

(** ** Workers ([server/execution.rs]) *)

Definition STORE_READ_ATTEMPTS : nat := 3.

(** The first of [attempts] reads that does not fail. *)
Fixpoint read_attempts (attempts : nat) (task_id : string) : P (option StoredTask) :=
  match attempts with
  | 0 => mret None
  | Datatypes.S more =>
      r ← on_store (ts_get (s_store self) task_id);
      match r with
      | Ok found => mret found
      | Err _ => match more with 0 => mret None | _ => sleep ;; read_attempts more task_id end
      end
  end.
Definition read_with_retry (task_id : string) : P (option StoredTask) := read_attempts STORE_READ_ATTEMPTS task_id.

Definition cas_apply (task_id : string) (stored : StoredTask) : P bool :=
  r ← on_store (ts_compare_and_update (s_store self) task_id stored);
  mret match r with Ok applied => applied | Err _ => false end.

(** The shape of every transition: read, check, write what changes, swap, publish. *)
Definition transition (task_id : string) (target : TaskStatus) (change : StoredTask -> StoredTask) (won : P ()) : P () :=
  s ← read_with_retry task_id;
  match s with
  | Some stored =>
      if can_transition_to (st_status stored) target then
        t ← now;
        applied ← cas_apply task_id (StoredTask.touch t (change (set_status target stored)));
        match applied with true => won | false => skip end
      else skip
  | None => skip
  end.

Definition finish_task (task_id : string) (outcome : result ChainError ChainResult) : P () :=
  match outcome with
  | Ok result =>
      let output := extract_output first_value result in
      transition task_id Completed (fun s => set_error None (set_result (Some (mkTaskResult output)) s))
        (publish_status task_id Completed None ;; publish_artifact task_id (artifact_text task_id output))
  | Err e =>
      let prompt := chain_error_to_string e in
      if is_input_required e
      then transition task_id InputRequired (set_error (Some prompt)) (publish_status task_id InputRequired (Some prompt))
      else transition task_id Failed (set_error (Some prompt)) (publish_status task_id Failed (Some prompt))
  end.

Definition run_task (chain : Chain) (task_id : string) (history : list A2AMessage) (cancel : nat) : P () :=
  transition task_id Working (fun s => s) (publish_status task_id Working None) ;;
  outcome ← select chain (build_chain_input_from_history history chain) cancel;
  match outcome with Some outcome => finish_task task_id outcome | None => skip end.

(** The outputs of the steps up to the first that fails, and that one. *)
Fixpoint run_steps (steps : list (WorkflowStep * Chain)) (results : list string) : P (list string * option (string * string)) :=
  match steps with
  | [] => mret (results, None)
  | (step, chain) :: steps =>
      r ← invoke_chain chain (build_chain_input (content (step_message step)) chain);
      match r with
      | Ok result => run_steps steps (results ++ [extract_output first_value result])
      | Err e => mret (results, Some (step_id step, chain_error_to_string e))
      end
  end.

Definition run_workflow (steps : list WorkflowStep) (chains : list Chain) (task_id : string) : P () :=
  '(results, failure) ← run_steps (zip steps chains) [];
  let aggregated := str_join newline results in
  r ← on_store (ts_get (s_store self) task_id);
  match r with
  | Ok (Some finalize) =>
      match failure with
      | Some (step_id, message) =>
          if can_transition_to (st_status finalize) Failed then
            let finalize := set_status Failed finalize in
            let finalize := if String.eqb aggregated "" then finalize else set_result (Some (mkTaskResult aggregated)) finalize in
            let error := "step `" +:+ step_id +:+ "` failed: " +:+ message in
            t ← now;
            applied ← cas_apply task_id (StoredTask.touch t (set_error (Some error) finalize));
            match applied with true => publish_status task_id Failed (Some error) | false => skip end
          else skip
      | None =>
          if can_transition_to (st_status finalize) Completed then
            t ← now;
            applied ← cas_apply task_id
              (StoredTask.touch t (set_error None (set_result (Some (mkTaskResult aggregated)) (set_status Completed finalize))));
            match applied with
            | true => publish_status task_id Completed None ;; publish_artifact task_id (artifact_text task_id aggregated)
            | false => skip
            end
          else skip
      end
  | _ => skip
  end.

Definition run_worker (worker : Worker Chain) : P () :=
  match worker with
  | RunTask chain task_id history cancel => run_task chain task_id history cancel ;; remove_cancel task_id ;; release_in_flight
  | RunWorkflow steps chains task_id => run_workflow steps chains task_id ;; release_in_flight
  end.

Fixpoint sweep_tasks (ttl : N) (l : list StoredTask) : P () :=
  match l with
  | [] => skip
  | stored :: l =>
      t ← now;
      (if (StoredTask.age t stored <? ttl)%N then skip
       else if is_terminal (st_status stored) then
         on_store (ts_delete (s_store self) (st_id stored)) ;; skip
       else if can_transition_to (st_status stored) Expired then
         t ← now;
         on_store (ts_upsert (s_store self) (StoredTask.touch t (set_status Expired stored))) ;; skip
       else skip) ;;
      sweep_tasks ttl l
  end.

Definition sweep_expired_tasks (ttl : N) : P () :=
  r ← on_store (ts_list (s_store self) TaskFilter.new);
  match r with Ok l => sweep_tasks ttl l | Err _ => skip end.

Definition cleanup_expired_tasks : P () :=
  match task_ttl self with Some ttl => sweep_expired_tasks ttl | None => skip end.

(** ** Requests ([server/routes.rs], [server/handlers.rs]) *)

Definition task_details_response (id : N) (stored : StoredTask) : A2AResponse :=
  A2AResponse.ok id (DetailsBody (st_task stored) (st_result stored) (st_error stored)).
Definition task_not_found (id : N) (task_id : string) : A2AResponse :=
  A2AResponse.error id (-32001) ("Task not found: " +:+ task_id).
Definition forbidden (id : N) (message : string) : A2AResponse := A2AResponse.error id (-32003) message.
Definition failed (id : N) (error : A2AErrorData) : A2AResponse := A2AResponse.from_error_data id error.

(** Registers the signal, starts the worker and acknowledges. *)
Definition start_task (req : A2ARequest) (chain : Chain) (task : A2ATask) : P A2AResponse :=
  cancel ← register_cancel (t_id task);
  spawn (RunTask chain (t_id task) (A2ATask.message_history task) cancel) ;;
  mret (A2AResponse.ok (r_id req) (TaskBody task)).

(** Under the claim of the resume; whether the permit has gone to a worker. *)
Definition resume_claimed (req : A2ARequest) (task_id : string) (message : A2AMessage) (message_id owner : option string)
    : P (A2AResponse * bool) :=
  let refuse response := release_resume_id message_id ;; mret (response, false) in
  r ← on_store (ts_get (s_store self) task_id);
  match r with
  | Ok (Some stored) =>
      if negb (caller_owns owner (st_task stored)) then refuse (forbidden (r_id req) "caller does not own this task")
      else if negb (bool_decide (st_status stored = InputRequired \/ st_status stored = AuthRequired)) then
        refuse (A2AResponse.error (r_id req) (-32004) ("Cannot continue task in state " +:+ status_to_string (st_status stored)))
      else
        let stored_skill := st_skill_id stored in
        let stored := push_stored message stored in
        let stored := if can_transition_to (st_status stored) Working then set_status Working stored else stored in
        t ← now;
        let stored := StoredTask.touch t stored in
        r ← on_store (ts_upsert (s_store self) stored);
        match r with
        | Err _ => refuse (failed (r_id req) (A2AErrorData.internal_error "task store write failed"))
        | Ok _ =>
            match message_id with Some mid => finish_message_id mid task_id | None => skip end ;;
            response ← start_task req (resolve_chain stored_skill) (st_task stored);
            mret (response, true)
        end
  | _ => refuse (task_not_found (r_id req) task_id)
  end.

(** The guard of the resume is dropped before the permit. *)
Definition handle_tasks_send_continue (req : A2ARequest) (task_id : string) (message : A2AMessage)
    (message_id owner : option string) : P A2AResponse :=
  acquired ← try_acquire_in_flight;
  match acquired with
  | false =>
      release_resume_id message_id ;;
      mret (failed (r_id req) (mkErrorData 429 "too many in-flight tasks; try again"))
  | true =>
      claimed ← begin_resume task_id;
      match claimed with
      | false =>
          release_resume_id message_id ;;
          release_in_flight ;;
          mret (failed (r_id req) (mkErrorData (-32000) "task is already being resumed; retry"))
      | true =>
          r ← resume_claimed req task_id message message_id owner;
          end_resume task_id ;;
          match r with
          | (response, true) => mret response
          | (response, false) => release_in_flight ;; mret response
          end
      end
  end.

(** A fresh task. *)
Definition send_fresh (req : A2ARequest) (params : JsonValue) (message : A2AMessage) (message_id : option string)
    (reserved : bool) (owner : option string) : P A2AResponse :=
  let release := match message_id with Some mid => if reserved then abort_message_id mid else skip | None => skip end in
  acquired ← try_acquire_in_flight;
  match acquired with
  | false =>
      release ;;
      mret (failed (r_id req) (mkErrorData 429 "too many in-flight tasks; try again"))
  | true =>
      task_id ← new_uuid;
      let task := A2ATask.new task_id message in
      let task := match owner with Some owner => A2ATask.with_owner owner task | None => task end in
      t ← now;
      let stored := StoredTask.new t task in
      let skill_id := json_get params "skillId" ≫= as_str in
      let stored := match skill_id with Some sid => StoredTask.with_skill_id (Some sid) stored | None => stored end in
      let stored := match A2ARequest.trace_id req with Some trace_id => StoredTask.with_trace_id trace_id stored | None => stored end in
      r ← on_store (ts_upsert (s_store self) stored);
      match r with
      | Err _ =>
          release ;;
          release_in_flight ;;
          mret (failed (r_id req) (A2AErrorData.internal_error "task store write failed"))
      | Ok _ =>
          match message_id with Some mid => if reserved then finish_message_id mid task_id else skip | None => skip end ;;
          start_task req (resolve_chain skill_id) task
      end
  end.

(** Answered by an earlier send, or the send goes on with or without the reservation. *)
Definition check_message_id (req : A2ARequest) (message_id owner : option string) : P (A2AResponse + bool) :=
  match message_id with
  | None => mret (inr false)
  | Some mid =>
      r ← reserve_message_id mid;
      match r with
      | Ok (Some existing_id) =>
          r ← on_store (ts_get (s_store self) existing_id);
          match r with
          | Ok (Some stored) =>
              if negb (caller_owns owner (st_task stored))
              then mret (inl (forbidden (r_id req) "caller does not own the existing task"))
              else mret (inl (A2AResponse.ok (r_id req) (TaskBody (st_task stored))))
          | _ => abort_message_id mid ;; mret (inr false)
          end
      | Ok None => mret (inr true)
      | Err _ => mret (inl (failed (r_id req) (mkErrorData (-32000) "message_id is already being processed; retry")))
      end
  end.

Definition handle_tasks_send (req : A2ARequest) (owner : option string) : P A2AResponse :=
  match r_params req with
  | None => mret (failed (r_id req) (A2AErrorData.invalid_params "Missing params for tasks/send"))
  | Some params =>
      let message := extract_message params in
      let message_id := A2ARequest.message_id req in
      checked ← check_message_id req message_id owner;
      match checked with
      | inl response => mret response
      | inr reserved =>
          match A2ARequest.task_id req with
          | Some task_id => handle_tasks_send_continue req task_id message message_id owner
          | None => send_fresh req params message message_id reserved owner
          end
      end
  end.

Definition handle_tasks_send_subscribe (req : A2ARequest) (owner : option string) : P A2AResponse :=
  handle_tasks_send req owner.

Definition handle_tasks_get (req : A2ARequest) (owner : option string) : P A2AResponse :=
  let task_id := default "" (A2ARequest.param "taskId" req) in
  if String.eqb task_id "" then mret (failed (r_id req) (A2AErrorData.invalid_params "Missing taskId parameter"))
  else
    cleanup_expired_tasks ;;
    r ← on_store (ts_get (s_store self) task_id);
    mret match r with
         | Ok (Some stored) =>
             if caller_owns owner (st_task stored) then task_details_response (r_id req) stored
             else forbidden (r_id req) "caller does not own this task"
         | Ok None => task_not_found (r_id req) task_id
         | Err _ => failed (r_id req) (A2AErrorData.internal_error "task store read failed")
         end.

Definition handle_tasks_cancel (req : A2ARequest) (owner : option string) : P A2AResponse :=
  let task_id := default "" (A2ARequest.param "taskId" req) in
  if String.eqb task_id "" then mret (failed (r_id req) (A2AErrorData.invalid_params "Missing taskId parameter"))
  else
    r ← on_store (ts_get (s_store self) task_id);
    match r with
    | Ok (Some stored) =>
        if negb (caller_owns owner (st_task stored)) then mret (forbidden (r_id req) "caller does not own this task")
        else if is_terminal (st_status stored) then mret (A2AResponse.ok (r_id req) (TaskBody (st_task stored)))
        else
          t ← now;
          let cancelled := StoredTask.touch t (set_status Cancelled stored) in
          r ← on_store (ts_compare_and_update (s_store self) task_id cancelled);
          match r with
          | Ok true =>
              publish_status task_id Cancelled None ;;
              fire_cancel task_id ;;
              mret (A2AResponse.ok (r_id req) (TaskBody (st_task cancelled)))
          | Ok false =>
              r ← on_store (ts_get (s_store self) task_id);
              mret match r with
                   | Ok (Some later) =>
                       if is_terminal (st_status later) then A2AResponse.ok (r_id req) (TaskBody (st_task later))
                       else A2AResponse.error (r_id req) (-32002)
                              ("Cannot cancel task in state " +:+ status_to_string (st_status later))
                   | _ => task_not_found (r_id req) task_id
                   end
          | Err _ => mret (failed (r_id req) (A2AErrorData.internal_error "task store write failed"))
          end
    | _ => mret (task_not_found (r_id req) task_id)
    end.

Definition DEFAULT_PAGE_SIZE : nat := 50.
Definition MAX_PAGE_SIZE : N := 1000.

Definition parse_pagination_limit (value : option JsonValue) : nat :=
  match value with
  | Some (JNumber (PosInt n)) => N.to_nat (N.min (N.max n 1) MAX_PAGE_SIZE)
  | _ => DEFAULT_PAGE_SIZE
  end.

Definition id_le (a b : A2ATask) : bool := String.leb (t_id a) (t_id b).

Fixpoint position (id : string) (l : list A2ATask) : option nat :=
  match l with
  | [] => None
  | t :: l => if String.eqb (t_id t) id then Some 0 else Datatypes.S <$> position id l
  end.

(** One page of the tasks that are visible, in the order of their ids. *)
Definition page (visible : list A2ATask) (limit : nat) (cursor : option string) : ResponseBody :=
  let start := match cursor with Some c => match position c visible with Some i => Datatypes.S i | None => 0 end | None => 0 end in
  let stop := Nat.min (start + limit) (length visible) in
  let tasks := take (stop - start) (drop start visible) in
  let has_more := stop <? length visible in
  PageBody tasks has_more (if has_more then t_id <$> last tasks else None).

(** The filter of a request: [None] is an invalid status. *)
Definition list_filter (req : A2ARequest) (owner : option string) : string + TaskFilter :=
  let filter := match A2ARequest.param "owner" req with
                | Some o => TaskFilter.with_owner o TaskFilter.new
                | None => TaskFilter.new
                end in
  let narrow filter :=
    match f_owner filter, owner with None, Some o => TaskFilter.with_owner o filter | _, _ => filter end in
  match A2ARequest.param "status" req with
  | Some status =>
      match status_of_str status with
      | Some ts => inr (narrow (TaskFilter.with_statuses [ts] filter))
      | None => inl status
      end
  | None => inr (narrow filter)
  end.

Definition handle_tasks_list (req : A2ARequest) (owner : option string) : P A2AResponse :=
  cleanup_expired_tasks ;;
  match list_filter req owner with
  | inl status => mret (failed (r_id req) (A2AErrorData.invalid_params ("Invalid status `" +:+ status +:+ "`")))
  | inr filter =>
      let limit := parse_pagination_limit (r_params req ≫= fun p => json_get p "limit") in
      let cursor := A2ARequest.param "cursor" req in
      r ← on_store (ts_list (s_store self) filter);
      mret match r with
           | Ok stored =>
               let visible := sort_by id_le (base.filter (fun t => caller_owns owner t = true) (st_task <$> stored)) in
               A2AResponse.ok (r_id req) (page visible limit cursor)
           | Err _ => failed (r_id req) (A2AErrorData.internal_error "task store read failed")
           end
  end.

Definition MAX_WORKFLOW_STEPS : nat := 50.

Definition run_checked_workflow (req : A2ARequest) (workflow : A2AWorkflow) (owner : option string) : P A2AResponse :=
  task_id ← match workflow_id workflow with Some id => mret id | None => new_uuid end;
  let task := A2ATask.with_status Working
    (A2ATask.new task_id (user ("workflow: " +:+ default "unnamed" (workflow_name workflow)))) in
  let task := match owner with Some owner => A2ATask.with_owner owner task | None => task end in
  t ← now;
  let stored := StoredTask.new t task in
  let stored := match A2ARequest.trace_id req with Some trace_id => StoredTask.with_trace_id trace_id stored | None => stored end in
  acquired ← try_acquire_in_flight;
  match acquired with
  | false => mret (failed (r_id req) (mkErrorData 429 "too many in-flight workflows; try again"))
  | true =>
      r ← on_store (ts_upsert_claimed (s_store self) task_id stored);
      match r with
      | Ok true =>
          publish_status task_id Working None ;;
          let steps := workflow_steps workflow in
          spawn (RunWorkflow steps ((fun s => resolve_chain (step_skill_id s)) <$> steps) task_id) ;;
          mret (A2AResponse.ok (r_id req) (TaskBody task))
      | Ok false => release_in_flight ;; mret (forbidden (r_id req) "caller does not own the existing task")
      | Err _ => release_in_flight ;; mret (failed (r_id req) (A2AErrorData.internal_error "task store write failed"))
      end
  end.

Definition handle_workflow_run (req : A2ARequest) (owner : option string) : P A2AResponse :=
  let refuse msg := mret (failed (r_id req) (A2AErrorData.invalid_params msg)) in
  match r_params req with
  | None => refuse "Missing params for tasks/runWorkflow"
  | Some params =>
      match json_get params "workflow" with
      | None => refuse "Missing workflow for tasks/runWorkflow"
      | Some w =>
          match workflow_of_json w with
          | None => refuse "Malformed workflow"
          | Some workflow =>
              match workflow_steps workflow with
              | [] => refuse "Workflow has no steps"
              | steps =>
                  if MAX_WORKFLOW_STEPS <? length steps
                  then refuse ("Workflow exceeds the maximum of " +:+ pretty MAX_WORKFLOW_STEPS +:+ " steps")
                  else run_checked_workflow req workflow owner
              end
          end
      end
  end.

Definition dispatch (req : A2ARequest) (owner : option string) : P A2AResponse :=
  let m := r_method req in
  if String.eqb m "tasks/send" then handle_tasks_send req owner
  else if String.eqb m "tasks/sendSubscribe" then handle_tasks_send_subscribe req owner
  else if String.eqb m "tasks/get" then handle_tasks_get req owner
  else if String.eqb m "tasks/cancel" then handle_tasks_cancel req owner
  else if String.eqb m "tasks/list" then handle_tasks_list req owner
  else if String.eqb m "tasks/runWorkflow" then handle_workflow_run req owner
  else mret (failed (r_id req) A2AErrorData.method_not_found).

(** ** The boundary ([rate_limiter.rs], [server/mod.rs]) *)

Inductive RateLimitError : Type := TooManyRequests | ConcurrencyLimitExceeded.

Definition rate_error_to_string (e : RateLimitError) : string :=
  match e with
  | TooManyRequests => "request rate limit exceeded"
  | ConcurrencyLimitExceeded => "too many concurrent requests"
  end.

(** One critical section: the window rolls over, then both limits are checked. *)
Definition try_acquire (limiter : RateLimiter) : P (result RateLimitError ()) :=
  call (fun w =>
    let rolled := (rl_window limiter <=? w_now w - window_start w)%N in
    let start := if rolled then w_now w else window_start w in
    let count := if rolled then 0 else window_count w in
    if (0 <? rl_max_requests limiter) && (rl_max_requests limiter <=? count)
    then (Err TooManyRequests, set_rate (rate_permits w) start count w)
    else if (rate_permits w =? 0)%N then (Err ConcurrencyLimitExceeded, set_rate (rate_permits w) start count w)
    else (Ok (), set_rate (rate_permits w - 1) start (if 0 <? rl_max_requests limiter then Datatypes.S count else count) w)).
Definition release_rate : P () := tell (fun w => set_rate (rate_permits w + 1) (window_start w) (window_count w) w).

Definition accepts_payload (limit : option nat) (size : nat) : bool :=
  match limit with Some limit => size <=? limit | None => true end.

Definition handle_a2a_request_with_owner (req : A2ARequest) (owner : option string) : P A2AResponse :=
  if negb (String.eqb (r_jsonrpc req) "2.0") then
    mret (A2AResponse.error (r_id req) (-32600) ("unsupported JSON-RPC version: " +:+ r_jsonrpc req))
  else if match A2ARequest.protocol_version req with
          | Some version => negb (bool_decide (version ∈ allowed_protocol_versions self))
          | None => false
          end then
    mret (A2AResponse.error (r_id req) (-32600)
            ("unsupported A2A protocolVersion: " +:+ default "" (A2ARequest.protocol_version req)))
  else if match sandbox self with Some limit => negb (accepts_payload limit (request_size req)) | None => false end then
    mret (A2AResponse.error (r_id req) 413
            ("request payload of " +:+ pretty (request_size req) +:+ " bytes exceeds sandbox limit"))
  else
    match rate_limiter self with
    | None => dispatch req owner
    | Some limiter =>
        admitted ← try_acquire limiter;
        match admitted with
        | Err e => mret (A2AResponse.error (r_id req) 429 (rate_error_to_string e))
        | Ok _ => response ← dispatch req owner; release_rate ;; mret response
        end
    end.

Definition handle_a2a_request_authenticated (req : A2ARequest) (bearer : option string) : P A2AResponse :=
  match check_auth (r_id req) bearer with
  | Err response => mret response
  | Ok principal => handle_a2a_request_with_owner req (resolve_owner req principal)
  end.

Definition handle_a2a_request (req : A2ARequest) : P A2AResponse := handle_a2a_request_authenticated req None.
End server.
