(* ===== verification/A2aFacts.v ===== *)
(** * What the agent server guarantees, however its tasks interleave

    The system polls any handler, worker or sweep at any time; requests arrive and the clock
    advances at will ([sys_step]).  What holds in every schedule is proved from what each
    process guarantees on its own ([Process]), over any atomic store. *)

From stdpp Require Import gmap strings list relations.
From S2P Require Import Prelude Json Process A2aProtocol A2aStore A2aServer.

Section system.
Context {wire : Wire} {Chain H S : Type} {Hchains : Chains Chain H}.
Context (first_value : ChainResult -> option JsonValue) (uuid : nat -> string) (request_size : A2ARequest -> nat).
Context (self : A2AServer Chain S).
Notation W := (A2aWorld Chain S H).

(** ** The system *)

(** What a process was started for, and how it ended. *)
Inductive Origin : Type :=
| Handler (req : A2ARequest) (bearer : option string)
| Working_on (worker : Worker Chain)
| Sweeper (ttl : N).

Inductive Outcome : Type :=
| Answered (response : A2AResponse)
| Finished.

Definition started (o : Origin) : Proc W Outcome :=
  match o with
  | Handler req bearer =>
      response ← handle_a2a_request_authenticated uuid request_size self req bearer; mret (Answered response)
  | Working_on worker => run_worker first_value self worker ;; mret Finished
  | Sweeper ttl => sweep_expired_tasks self ttl ;; mret Finished
  end.

Record System := mkSystem { world : W; procs : list (Origin * Proc W Outcome) }.

Definition start (w : W) (origins : list Origin) : System := mkSystem w ((fun o => (o, started o)) <$> origins).

Inductive SysChoice : Type :=
| Arrive (req : A2ARequest) (bearer : option string)
| Sweep (ttl : N)
| Tick (d : N)
| Turn (i : nat).

(** Spawned workers join the processes. *)
Definition collect_spawned (s : System) : System :=
  mkSystem (set_spawned [] (world s))
           (procs s ++ ((fun worker => (Working_on worker, started (Working_on worker))) <$> spawned (world s))).

Definition sys_step (choice : SysChoice) (s : System) : option System :=
  match choice with
  | Arrive req bearer => Some (mkSystem (world s) (procs s ++ [(Handler req bearer, started (Handler req bearer))]))
  | Sweep ttl => Some (mkSystem (world s) (procs s ++ [(Sweeper ttl, started (Sweeper ttl))]))
  | Tick d => Some (mkSystem (set_now (w_now (world s) + d)%N (world s)) (procs s))
  | Turn i =>
      match procs s !! i with
      | Some (o, Await k) =>
          let '(p, w) := k (world s) in Some (collect_spawned (mkSystem w (<[i := (o, p)]> (procs s))))
      | _ => None
      end
  end.

Fixpoint sys_run (schedule : list SysChoice) (s : System) : option System :=
  match schedule with
  | [] => Some s
  | choice :: schedule => s ← sys_step choice s; sys_run schedule s
  end.

(** The worlds that a schedule goes through, without the last. *)
Fixpoint sys_trace (schedule : list SysChoice) (s : System) : list W :=
  match schedule with
  | [] => []
  | choice :: schedule => world s :: match sys_step choice s with Some s => sys_trace schedule s | None => [] end
  end.

(** ** What a process saw

    [sees Q h p]: what a process answers is right for the stores that it made its calls in, in
    order, from [h] on. *)

Definition saw (h : list S) (w w' : W) (h' : list S) : Prop := h' = h ++ [w_store w].
Definition sees {A} (Q : A -> list S -> Prop) (h : list S) (p : Proc W A) : Prop := tracks (fun _ => True) saw Q h p.

(** What a process over the store answers when it makes its calls in [ws]. *)
Fixpoint replies {A} (p : Proc S A) (ws : list S) : option A :=
  match p, ws with
  | Return a, [] => Some a
  | Await k, w :: ws => replies (k w).1 ws
  | _, _ => None
  end.

Lemma sees_guarantees {A} (Q : A -> Prop) h (p : Proc W A) :
  guarantees (fun _ => True) (fun _ _ => True) Q p -> sees (fun a h' => Q a /\ h `sublist_of` h') h p.
Proof.
  revert h. induction p as [a|k IH] using proc_induction; intros h Hp; [done|]. intros w _.
  destruct (guarantees_step _ _ _ _ w Hp Logic.I) as [_ Hk]. specialize (IH w (h ++ [w_store w]) Hk). destruct (k w) as [p w'].
  exists (h ++ [w_store w]). split; [done|]. eapply tracks_mono; [exact IH|]. intros a h' [Ha Hh]. split; [done|].
  etrans; [|exact Hh]. by apply sublist_inserts_r.
Qed.

Lemma sees_on_store {A} h (p : Proc S A) :
  sees (fun a h' => exists ws, h' = h ++ ws /\ replies p ws = Some a) h (on_store p : Proc W A).
Proof.
  revert h. induction p as [a|k IH] using proc_induction; intros h; [exists []; by rewrite app_nil_r|]. intros w _.
  specialize (IH (w_store w) (h ++ [w_store w])). cbn. destruct (k (w_store w)) as [p c] eqn:Ek. exists (h ++ [w_store w]).
  split; [done|]. eapply tracks_mono; [exact IH|]. intros a h' (ws & -> & Ha). exists (w_store w :: ws).
  rewrite -app_assoc. split; [done|]. cbn. by rewrite Ek.
Qed.

Lemma sees_then {A B} (Q : B -> list S -> Prop) h (p : Proc W A) (f : A -> Proc W B) :
  (forall a h', h `sublist_of` h' -> sees Q h' (f a)) -> sees Q h (p ≫= f).
Proof.
  intros Hf. eapply tracks_bind; [apply (sees_guarantees (fun _ => True))|].
  - clear. induction p as [a|k IH] using proc_induction; [done|]. intros w _. specialize (IH w). destruct (k w). by exists ().
  - intros a h' [_ Hh]. by apply Hf.
Qed.

(** In every run the processes have seen worlds of the run, in its order. *)
Lemma sees_run (Q : Origin -> Outcome -> list S -> Prop) (T : list S) schedule s s' :
  (forall o h, sees (Q o) h (started o)) ->
  Forall (fun op => exists h, h `sublist_of` T /\ sees (Q op.1) h op.2) (procs s) ->
  sys_run schedule s = Some s' ->
  Forall (fun op => exists h, h `sublist_of` T ++ (w_store <$> sys_trace schedule s) /\ sees (Q op.1) h op.2) (procs s').
Proof.
  intros Hstart. revert T s. induction schedule as [|choice schedule IH]; intros T s Hs Hr.
  { simplify_eq/=. by rewrite app_nil_r. }
  simpl in Hr |- *. destruct (sys_step choice s) as [s1|] eqn:E; [|done]. simpl in Hr.
  rewrite cons_middle app_assoc. apply IH; [|done]. clear IH Hr.
  assert (Forall (fun op => exists h, h `sublist_of` T ++ [w_store (world s)] /\ sees (Q op.1) h op.2) (procs s)) as Hs'.
  { eapply Forall_impl; [exact Hs|]. intros op (h & Hh & Hp). exists h. split; [by apply sublist_inserts_r|done]. }
  assert (forall o, exists h, h `sublist_of` T ++ [w_store (world s)] /\ sees (Q o) h (started o)) as Hnew.
  { intros o. exists []. split; [apply sublist_nil_l|apply Hstart]. }
  destruct choice as [req bearer|ttl|d|i]; simplify_eq/=; [by apply Forall_app_2, Forall_singleton..|done|].
  destruct (procs s !! i) as [[o [a|k]]|] eqn:Ei; try done. destruct (k (world s)) as [p w] eqn:Ek. simplify_eq/=.
  apply Forall_app. split; [|rewrite Forall_fmap; apply Forall_forall; intros worker _; apply Hnew].
  apply Forall_insert; [done|]. destruct (proj1 (Forall_lookup _ _) Hs i _ Ei) as (h & Hh & Hk).
  destruct (tracks_step _ _ _ _ _ (world s) Hk Logic.I) as (h' & -> & Hp). rewrite Ek in Hp. exists (h ++ [w_store (world s)]).
  split; [by apply sublist_app|done].
Qed.

(** ** Invariants from guarantees *)

Section invariant.
Context (I : W -> Prop) (G : W -> W -> Prop) (Q : Origin -> Outcome -> Prop) (allowed : Origin -> Prop).
Context (HG : forall w w', I w -> G w w' -> I w').
Context (Hstart : forall o, allowed o -> guarantees I G (Q o) (started o)).
Context (Hworkers : forall worker, allowed (Working_on worker)).
Context (Htick : forall w d, I w -> G w (set_now (w_now w + d)%N w)) (Hspawned : forall w, I w -> G w (set_spawned [] w)).

Definition admitted (choice : SysChoice) : Prop :=
  match choice with
  | Arrive req bearer => allowed (Handler req bearer)
  | Sweep ttl => allowed (Sweeper ttl)
  | _ => True
  end.

Definition sys_ok (s : System) : Prop := I (world s) /\ Forall (fun op => guarantees I G (Q op.1) op.2) (procs s).

Lemma start_ok w origins : I w -> Forall allowed origins -> sys_ok (start w origins).
Proof.
  intros Hw Ho. split; [done|]. simpl. rewrite Forall_fmap. eapply Forall_impl; [done|]. intros o. apply Hstart.
Qed.

Lemma sys_step_ok choice s s' : admitted choice -> sys_ok s -> sys_step choice s = Some s' ->
  sys_ok s' /\ rtc (fun w w' => I w /\ G w w') (world s) (world s').
Proof.
  intros Ha [Hw Hp] Hs. destruct choice as [req bearer|ttl|d|i]; simplify_eq/=.
  - split; [|done]. split; [done|]. apply Forall_app. split; [done|]. apply Forall_singleton, (Hstart _ Ha).
  - split; [|done]. split; [done|]. apply Forall_app. split; [done|]. apply Forall_singleton, (Hstart _ Ha).
  - split; [|by apply rtc_once; auto]. split; [|done]. by eapply HG; [|apply Htick].
  - destruct (procs s !! i) as [[o [a|k]]|] eqn:E; try done.
    pose proof (proj1 (Forall_lookup _ _) Hp i _ E) as Hk.
    destruct (guarantees_step _ _ _ _ _ Hk Hw) as [Hg Hk']. destruct (k (world s)) as [p w] eqn:Ek.
    simplify_eq/=. pose proof (HG _ _ Hw Hg) as Hw'. pose proof (Hspawned w Hw') as Hg'.
    split; [|by eapply rtc_l; [split; [exact Hw|exact Hg]|]; apply rtc_once].
    split; [by eapply HG|]. simpl. apply Forall_app. split.
    + apply Forall_insert; done.
    + rewrite Forall_fmap. apply Forall_forall. intros worker _. apply Hstart, Hworkers.
Qed.

Lemma sys_run_ok schedule s s' : Forall admitted schedule -> sys_ok s -> sys_run schedule s = Some s' ->
  sys_ok s' /\ rtc (fun w w' => I w /\ G w w') (world s) (world s').
Proof.
  revert s. induction schedule as [|choice schedule IH]; intros s Ha Hs Hr; simplify_eq/=; [done|].
  apply Forall_cons in Ha as [Hc Ha]. destruct (sys_step choice s) as [s1|] eqn:E; [|done]. simpl in Hr.
  destruct (sys_step_ok _ _ _ Hc Hs E) as [Hs1 H1]. destruct (IH s1 Ha Hs1 Hr) as [Hs' H2].
  split; [done|]. by etrans.
Qed.
End invariant.
End system.

(** ** The life of a task *)

Create HintDb lc_a2a.
Create HintDb lc_still.

(** Past the next call of a process, whose guarantee is known. *)
Ltac past := eapply guarantees_then; [solve [eauto 3 with lc_a2a]|].

Section life.
Context {wire : Wire} {Chain H S : Type} {Hchains : Chains Chain H}.
Context (first_value : ChainResult -> option JsonValue) (uuid : nat -> string) (request_size : A2ARequest -> nat).
Context (self : A2AServer Chain S) (view : S -> gmap string StoredTask) {Hstore : AtomicStore (s_store self) view}.
Notation W := (A2aWorld Chain S H).
Notation tasks w := (view (w_store w)).

(** A store holds every task under its own id. *)
Definition keyed (m : gmap string StoredTask) : Prop := forall k t, m !! k = Some t -> st_id t = k.

Context (X : string).

Definition moved (t t' : StoredTask) : Prop := t' = t \/ can_transition_to (st_status t) (st_status t') = true.

(** The task [X] is kept, moved by a legal transition, or removed. *)
Definition lives (m m' : gmap string StoredTask) : Prop :=
  match m !! X, m' !! X with
  | Some t, Some t' => moved t t'
  | None, Some _ => False
  | _, None => True
  end.

Definition well (w : W) : Prop := keyed (tasks w) /\ forall n, uuids w <= n -> uuid n <> X.
Definition legal (w w' : W) : Prop := lives (tasks w) (tasks w') /\ well w'.
Notation Γ := (guarantees well legal).

Lemma lives_refl m : lives m m.
Proof. unfold lives. destruct (m !! X); [by left|done]. Qed.

Lemma quiet_legal w w' : well w -> w_store w' = w_store w -> uuids w <= uuids w' -> legal w w'.
Proof. intros [Hk Hu] Hs Hn. unfold legal, well. rewrite Hs. split_and!; [apply lives_refl|done|]. intros n ?. apply Hu. lia. Qed.

Lemma quiet_call {A} (act : W -> A * W) :
  (forall w, w_store (act w).2 = w_store w /\ uuids w <= uuids (act w).2) -> Γ (fun _ => True) (call act).
Proof. intros Ha. apply guarantees_call. intros w Hw. split; [|done]. destruct (Ha w). by apply quiet_legal. Qed.

Lemma quiet_tell (act : W -> W) :
  (forall w, w_store (act w) = w_store w /\ uuids w <= uuids (act w)) -> Γ (fun _ => True) (tell act).
Proof. intros Ha. apply (quiet_call (fun w => ((), act w))). exact Ha. Qed.

Lemma store_call {A} (Q : result StoreError A -> Prop) (p : Proc S (result StoreError A)) done :
  atomically view p done ->
  (forall w a after, well w -> done (tasks w) a after -> lives (tasks w) after /\ keyed after /\ Q (Ok a)) ->
  (forall e, Q (Err e)) -> Γ Q (on_store p : Proc W _).
Proof.
  intros (act & -> & Hact) Hd He. unfold on_store. cbn. intros w Hw. pose proof Hw as [Hk Hu].
  specialize (Hact (w_store w)). destruct (act (w_store w)) as [[a|e] s]; exists (); (split; [|]); simpl.
  - destruct (Hd w a _ Hw Hact) as (Hl & Hk' & _). by split.
  - by eapply Hd.
  - unfold legal, well. simpl. rewrite Hact. split; [apply lives_refl|done].
  - apply He.
Qed.

Lemma store_get id : Γ (fun r => forall t, r = Ok (Some t) -> st_id t = id) (on_store (ts_get (s_store self) id)).
Proof.
  eapply store_call; [apply atomic_get| |done]. intros w a after [Hk _] [-> ->].
  split_and!; [apply lives_refl|done|]. intros t [= Ht]. by apply Hk.
Qed.

Lemma store_list f : Γ (fun _ => True) (on_store (ts_list (s_store self) f)).
Proof.
  eapply store_call; [apply atomic_list| |done]. intros w a after [Hk _] (-> & _). split_and!; [apply lives_refl|done..].
Qed.

Lemma inserts_legal m stored after : keyed m -> inserts stored m after -> st_id stored <> X -> lives m after /\ keyed after.
Proof.
  intros Hk (kept & Hsub & -> & _) Hx. split.
  - unfold lives. rewrite lookup_insert_ne //. destruct (kept !! X) as [t|] eqn:E; [|by destruct (m !! X)].
    rewrite (lookup_weaken _ _ _ _ E Hsub). by left.
  - intros k t [[<- <-]|[_ Ht]]%lookup_insert_Some; [done|]. by eapply Hk, lookup_weaken.
Qed.

Lemma store_upsert stored : st_id stored <> X -> Γ (fun _ => True) (on_store (ts_upsert (s_store self) stored)).
Proof.
  intros Hx. eapply store_call; [apply atomic_upsert| |done]. intros w a after [Hk _] Hi.
  destruct (inserts_legal _ _ _ Hk Hi Hx). done.
Qed.

Lemma store_claimed stored : st_id stored <> X ->
  Γ (fun _ => True) (on_store (ts_upsert_claimed (s_store self) (st_id stored) stored)).
Proof.
  intros Hx. eapply store_call; [apply atomic_upsert_claimed| |done]. intros w a after [Hk _] [_ Hi].
  destruct a; [|by subst; split_and!; [apply lives_refl|..]]. destruct (inserts_legal _ _ _ Hk Hi Hx). done.
Qed.

Lemma store_cas id stored : st_id stored = id ->
  Γ (fun _ => True) (on_store (ts_compare_and_update (s_store self) id stored)).
Proof.
  intros Hid. eapply store_call; [apply atomic_compare_and_update| |done]. intros w a after [Hk _] [_ ->].
  destruct (tasks w !! id) as [t|] eqn:E; [|split_and!; [apply lives_refl|done..]].
  destruct (can_transition_to _ _) eqn:Ht; [|split_and!; [apply lives_refl|done..]].
  split_and!; [| |done].
  - unfold lives. destruct (decide (id = X)) as [->|Hx]; [rewrite E lookup_insert_eq; by right|].
    rewrite lookup_insert_ne //. destruct (tasks w !! X); [by left|done].
  - intros k t' [[<- <-]|[_ Ht']]%lookup_insert_Some; [done|]. by apply Hk.
Qed.

(** *** Calls that leave the store alone *)

Ltac quiet := first [apply quiet_call|apply quiet_tell]; intros w; simpl; repeat case_match; simplify_eq/=; split; try done; lia.

Lemma quiet_now : Γ (fun _ => True) (now : Proc W N).
Proof. quiet. Qed.
Lemma quiet_uuid : Γ (fun id => id <> X) (new_uuid uuid : Proc W string).
Proof.
  apply guarantees_call. intros w Hw. split; [apply quiet_legal; simpl; [done..|lia]|]. by apply Hw.
Qed.
Lemma quiet_sleep : Γ (fun _ => True) (sleep : Proc W ()).
Proof. quiet. Qed.
Lemma quiet_acquire : Γ (fun _ => True) (try_acquire_in_flight : Proc W bool).
Proof. quiet. Qed.
Lemma quiet_release : Γ (fun _ => True) (release_in_flight : Proc W ()).
Proof. quiet. Qed.
Lemma quiet_spawn worker : Γ (fun _ => True) (spawn worker : Proc W ()).
Proof. quiet. Qed.
Lemma quiet_publish event : Γ (fun _ => True) (publish self event : Proc W ()).
Proof. unfold publish. destruct (event_bus self); [quiet|done]. Qed.
Lemma quiet_status id status error : Γ (fun _ => True) (publish_status self id status error : Proc W ()).
Proof. apply quiet_publish. Qed.
Lemma quiet_artifact id artifact : Γ (fun _ => True) (publish_artifact self id artifact : Proc W ()).
Proof. apply quiet_publish. Qed.
Lemma quiet_register id : Γ (fun _ => True) (register_cancel id : Proc W nat).
Proof. unfold register_cancel. eapply guarantees_then; [quiet|]. intros n. eapply guarantees_then; [quiet|done]. Qed.
Lemma quiet_remove id : Γ (fun _ => True) (remove_cancel id : Proc W ()).
Proof. quiet. Qed.
Lemma quiet_fire id : Γ (fun _ => True) (fire_cancel id : Proc W ()).
Proof. quiet. Qed.
Lemma quiet_select chain input cancel : Γ (fun _ => True) (select chain input cancel : Proc W _).
Proof. quiet. Qed.
Lemma quiet_invoke chain input : Γ (fun _ => True) (invoke_chain chain input : Proc W _).
Proof. quiet. Qed.
Lemma quiet_claim mid : Γ (fun _ => True) (claim_message_id mid : Proc W _).
Proof. quiet. Qed.
Lemma quiet_finish mid id : Γ (fun _ => True) (finish_message_id mid id : Proc W ()).
Proof. quiet. Qed.
Lemma quiet_abort mid : Γ (fun _ => True) (abort_message_id mid : Proc W ()).
Proof. quiet. Qed.
Lemma quiet_release_id mid : Γ (fun _ => True) (release_resume_id mid : Proc W ()).
Proof. destruct mid; [apply quiet_abort|done]. Qed.
Lemma quiet_begin id : Γ (fun _ => True) (begin_resume id : Proc W bool).
Proof. quiet. Qed.
Lemma quiet_end id : Γ (fun _ => True) (end_resume id : Proc W ()).
Proof. quiet. Qed.
Lemma quiet_rate limiter : Γ (fun _ => True) (try_acquire limiter : Proc W _).
Proof. quiet. Qed.
Lemma quiet_release_rate : Γ (fun _ => True) (release_rate : Proc W ()).
Proof. quiet. Qed.
Hint Resolve store_list quiet_now quiet_sleep quiet_acquire
  quiet_release quiet_spawn quiet_status quiet_artifact quiet_register quiet_remove quiet_fire quiet_select quiet_invoke
  quiet_claim quiet_finish quiet_abort quiet_release_id quiet_begin quiet_end quiet_rate quiet_release_rate : lc_a2a.

Lemma store_get_any id : Γ (fun _ => True) (on_store (ts_get (s_store self) id)).
Proof. eapply guarantees_any, store_get. Qed.
Hint Resolve store_get_any : lc_a2a.

Lemma quiet_reserve mid : Γ (fun _ => True) (reserve_message_id self mid : Proc W _).
Proof.
  unfold reserve_message_id. eapply guarantees_then; [quiet|]. intros [id|]; [|apply quiet_claim].
  destruct (String.eqb id ""); [done|]. past. intros [[?|]|?]; [done|apply quiet_claim..].
Qed.
Hint Resolve quiet_reserve : lc_a2a.

(** *** Workers *)

Lemma legal_read attempts id : Γ (fun found => forall t, found = Some t -> st_id t = id) (read_attempts self attempts id : Proc W _).
Proof.
  induction attempts as [|more IH]; [done|]. cbn [read_attempts]. eapply guarantees_bind; [apply store_get|].
  intros [found|e] Hr; [by intros t ->; apply Hr|]. destruct more; [done|].
  eapply guarantees_then; [apply quiet_sleep|]. done.
Qed.

Lemma legal_cas id stored : st_id stored = id -> Γ (fun _ => True) (cas_apply self id stored : Proc W bool).
Proof. intros Hid. unfold cas_apply. eapply guarantees_then; [by apply store_cas|done]. Qed.

Lemma legal_transition id target change (won : Proc W ()) :
  (forall s, st_id (change s) = st_id s) -> Γ (fun _ => True) won -> Γ (fun _ => True) (transition self id target change won).
Proof.
  intros Hc Hw. unfold transition. eapply guarantees_bind; [apply legal_read|]. intros [stored|] Hs; [|done].
  destruct (can_transition_to _ _); [|done]. eapply guarantees_then; [apply quiet_now|]. intros t.
  eapply guarantees_then; [apply legal_cas|intros [|]; [exact Hw|done]].
  change (st_id (change (set_status target stored)) = id). rewrite Hc. exact (Hs _ eq_refl).
Qed.

Lemma legal_run_task chain id history cancel : Γ (fun _ => True) (run_task first_value self chain id history cancel : Proc W ()).
Proof.
  unfold run_task. eapply guarantees_then; [apply legal_transition; [done|apply quiet_status]|]. intros _.
  eapply guarantees_then; [apply quiet_select|]. intros [[result|e]|]; [| |done]; unfold finish_task.
  - apply legal_transition; [done|]. eapply guarantees_then; [apply quiet_status|]. intros _. apply quiet_artifact.
  - destruct (is_input_required e); (apply legal_transition; [done|apply quiet_status]).
Qed.

Lemma legal_run_steps steps results : Γ (fun _ => True) (run_steps first_value steps results : Proc W _).
Proof.
  revert results. induction steps as [|[step chain] steps IH]; intros results; [done|]. cbn [run_steps].
  eapply guarantees_then; [apply quiet_invoke|]. intros [result|e]; [apply IH|done].
Qed.

Lemma legal_run_workflow steps chains id : Γ (fun _ => True) (run_workflow first_value self steps chains id : Proc W ()).
Proof.
  unfold run_workflow. eapply guarantees_then; [apply legal_run_steps|]. intros [results failure].
  eapply guarantees_bind; [apply store_get|]. intros [[finalize|]|e] Hf; [|done..]. specialize (Hf _ eq_refl).
  destruct failure as [[step msg]|]; (destruct (can_transition_to _ _); [|done]);
    (eapply guarantees_then; [apply quiet_now|]; intros t); eapply guarantees_then.
  - apply legal_cas. by destruct (String.eqb _ _).
  - intros []; [apply quiet_status|done].
  - by apply legal_cas.
  - intros []; [|done]. eapply guarantees_then; [apply quiet_status|]. intros _. apply quiet_artifact.
Qed.

Lemma legal_worker worker : Γ (fun _ => True) (run_worker first_value self worker : Proc W ()).
Proof.
  destruct worker; unfold run_worker.
  - eapply guarantees_then; [apply legal_run_task|]. intros _. eapply guarantees_then; [apply quiet_remove|]. intros _. apply quiet_release.
  - eapply guarantees_then; [apply legal_run_workflow|]. intros _. apply quiet_release.
Qed.

(** *** Handlers *)

Lemma legal_start_task req chain task : Γ (fun _ => True) (start_task req chain task : Proc W A2AResponse).
Proof. unfold start_task. past. intros cancel. past. done. Qed.
Hint Resolve legal_start_task : lc_a2a.

Lemma legal_refuse mid (r : A2AResponse * bool) : Γ (fun _ => True) (release_resume_id mid ;; mret r : Proc W _).
Proof. past. done. Qed.
Hint Resolve legal_refuse : lc_a2a.

Lemma legal_resume req id message mid owner : id <> X ->
  Γ (fun _ => True) (resume_claimed self req id message mid owner : Proc W _).
Proof.
  intros Hx. unfold resume_claimed. eapply guarantees_bind; [apply store_get|].
  intros [[stored|]|e] Hs; [|apply legal_refuse..]. specialize (Hs _ eq_refl).
  destruct (negb (caller_owns _ _)); [apply legal_refuse|]. destruct (negb (bool_decide _)); [apply legal_refuse|].
  past. intros t. eapply guarantees_then.
  - apply store_upsert. intros E. apply Hx. rewrite -Hs -E. by destruct (can_transition_to _ _).
  - intros [[]|e]; [|apply legal_refuse]. eapply guarantees_then; [destruct mid; [apply quiet_finish|done]|].
    intros _. past. done.
Qed.

Lemma legal_continue req id message mid owner : id <> X ->
  Γ (fun _ => True) (handle_tasks_send_continue self req id message mid owner : Proc W _).
Proof.
  intros Hx. unfold handle_tasks_send_continue. past. intros [|]; [|by past].
  past. intros [|]; [|past; intros _; by past].
  eapply guarantees_then; [by apply legal_resume|]. intros [response [|]]; past; [done|]. intros _. by past.
Qed.

Lemma legal_fresh req params message mid reserved owner :
  Γ (fun _ => True) (send_fresh uuid self req params message mid reserved owner : Proc W _).
Proof.
  unfold send_fresh. assert (forall b, Γ (fun _ => True)
    (match mid with Some mid => if (b : bool) then abort_message_id mid else skip | None => skip end : Proc W ())) as Hr.
  { intros b. destruct mid, b; (done || apply quiet_abort). }
  past. intros [|].
  - eapply guarantees_bind; [apply quiet_uuid|]. intros id Hid. past. intros t. eapply guarantees_then.
    + apply store_upsert. by destruct (json_get params "skillId" ≫= as_str), (A2ARequest.trace_id req), owner.
    + intros [[]|e].
      * eapply guarantees_then; [destruct mid, reserved; (done || apply quiet_finish)|]. intros _. apply legal_start_task.
      * eapply guarantees_then; [apply Hr|]. intros _. by past.
  - eapply guarantees_then; [apply Hr|done].
Qed.

Lemma legal_check_id req mid owner : Γ (fun _ => True) (check_message_id self req mid owner : Proc W _).
Proof.
  destruct mid as [mid|]; [|done]. unfold check_message_id. past. intros [[existing|]|e]; [|done..].
  past. intros [[stored|]|e]; [by destruct (negb _)|by past..].
Qed.
Hint Resolve legal_check_id : lc_a2a.

Lemma legal_send req owner : A2ARequest.task_id req <> Some X ->
  Γ (fun _ => True) (handle_tasks_send uuid self req owner : Proc W _).
Proof.
  intros Hx. unfold handle_tasks_send. destruct (r_params req) as [params|]; [|done]. past.
  intros [response|reserved]; [done|]. destruct (A2ARequest.task_id req) as [id|]; [|apply legal_fresh].
  apply legal_continue. congruence.
Qed.

Context (Httl : task_ttl self = None).

Lemma legal_cleanup : Γ (fun _ => True) (cleanup_expired_tasks self : Proc W ()).
Proof. unfold cleanup_expired_tasks. by rewrite Httl. Qed.
Hint Resolve legal_cleanup : lc_a2a.

Lemma legal_get req owner : Γ (fun _ => True) (handle_tasks_get self req owner : Proc W _).
Proof. unfold handle_tasks_get. destruct (String.eqb _ _); [done|]. past. intros _. by past. Qed.

Lemma legal_cancel req owner : Γ (fun _ => True) (handle_tasks_cancel self req owner : Proc W _).
Proof.
  unfold handle_tasks_cancel. destruct (String.eqb _ _); [done|].
  eapply guarantees_bind; [apply store_get|]. intros [[stored|]|e] Hs; [|done..].
  destruct (negb _); [done|]. destruct (is_terminal _); [done|]. past. intros t.
  eapply guarantees_then; [apply store_cas; exact (Hs _ eq_refl)|]. intros [[|]|e]; [| |done]; past; [|done].
  intros _. by past.
Qed.

Lemma legal_list req owner : Γ (fun _ => True) (handle_tasks_list self req owner : Proc W _).
Proof. unfold handle_tasks_list. past. intros _. destruct (list_filter req owner); [done|]. by past. Qed.

Lemma legal_workflow req workflow owner : workflow_id workflow <> Some X ->
  Γ (fun _ => True) (run_checked_workflow uuid self req workflow owner : Proc W _).
Proof.
  intros Hx. unfold run_checked_workflow. eapply (guarantees_bind _ _ (fun id => id <> X)).
  { destruct (workflow_id workflow) as [id|]; [apply guarantees_ret; congruence|apply quiet_uuid]. }
  intros id Hid. past. intros t. past. intros [|]; [|done]. eapply guarantees_then.
  - set (stored := match A2ARequest.trace_id req with Some _ => _ | None => _ end).
    assert (st_id stored = id) as Hs by by subst stored; destruct (A2ARequest.trace_id req), owner.
    rewrite -{1}Hs. apply store_claimed. by rewrite Hs.
  - intros [[|]|e]; past; [|done..]. intros _. by past.
Qed.

(** A request that neither sends to [X] nor starts a workflow under its id. *)
Definition avoids (req : A2ARequest) : Prop :=
  (r_method req = "tasks/send" \/ r_method req = "tasks/sendSubscribe" -> A2ARequest.task_id req <> Some X) /\
  (r_method req = "tasks/runWorkflow" -> forall params w workflow, r_params req = Some params ->
     json_get params "workflow" = Some w -> workflow_of_json w = Some workflow -> workflow_id workflow <> Some X).

Lemma legal_dispatch req owner : avoids req -> Γ (fun _ => True) (dispatch uuid self req owner : Proc W _).
Proof.
  intros [Hsend Hwf]. unfold dispatch. cbv zeta.
  destruct (String.eqb_spec (r_method req) "tasks/send"); [apply legal_send; auto|].
  destruct (String.eqb_spec (r_method req) "tasks/sendSubscribe"); [apply legal_send; auto|].
  destruct (String.eqb _ _); [apply legal_get|]. destruct (String.eqb _ _); [apply legal_cancel|].
  destruct (String.eqb _ _); [apply legal_list|].
  destruct (String.eqb_spec (r_method req) "tasks/runWorkflow") as [Em|]; [|done].
  unfold handle_workflow_run. destruct (r_params req) as [params|] eqn:Ep; [|done].
  destruct (json_get params "workflow") as [w|] eqn:Ew; [|done]. destruct (workflow_of_json w) as [workflow|] eqn:Ef; [|done].
  destruct (workflow_steps workflow) eqn:Es; [done|]. destruct (_ <? _); [done|]. apply legal_workflow. by eapply Hwf.
Qed.

Lemma legal_handler req bearer : avoids req ->
  Γ (fun _ => True) (handle_a2a_request_authenticated uuid request_size self req bearer : Proc W _).
Proof.
  intros Ha. unfold handle_a2a_request_authenticated. destruct (check_auth _ _ _) as [principal|response]; [|done].
  unfold handle_a2a_request_with_owner. destruct (negb (String.eqb _ _)); [done|].
  destruct (match A2ARequest.protocol_version req with Some _ => _ | None => _ end); [done|].
  destruct (match sandbox self with Some _ => _ | None => _ end); [done|].
  destruct (rate_limiter self); [|by apply legal_dispatch]. past. intros [[]|e]; [|done].
  eapply guarantees_then; [by apply legal_dispatch|]. intros response. past. done.
Qed.

(** A process that may have been started for anything but [X]. *)
Definition away (o : Origin (Chain := Chain)) : Prop :=
  match o with Handler req _ => avoids req | Working_on _ => True | Sweeper _ => False end.

Lemma started_legal o : away o -> Γ (fun _ => True) (started first_value uuid request_size self o : Proc W _).
Proof.
  destruct o as [req bearer|worker|ttl]; simpl; [| |done]; intros Ha.
  - eapply guarantees_then; [by apply legal_handler|done].
  - eapply guarantees_then; [apply legal_worker|done].
Qed.

(** C5: Under every schedule of workers, cancels, reads, fresh sends and requests about other
    tasks, on a server that does not expire tasks, the status of a stored task follows
    the state machine of statuses, and a task in a terminal status stays as it is, as long as
    it is stored. *)
Theorem task_lifecycle w origins schedule s :
  well w -> Forall away origins -> Forall (admitted away) schedule ->
  sys_run first_value uuid request_size self schedule (start first_value uuid request_size self w origins) = Some s ->
  match tasks w !! X, tasks (world s) !! X with
  | Some t, Some t' =>
      rtc (fun a b => can_transition_to a b = true) (st_status t) (st_status t') /\
      (is_terminal (st_status t) = true -> t' = t)
  | None, Some _ => False
  | _, None => True
  end.
Proof.
  intros Hw Ho Ha Hr.
  destruct (sys_run_ok first_value uuid request_size self well legal (fun _ _ => True) away
              (fun w w' _ Hl => proj2 Hl) started_legal (fun _ => Logic.I)
              (fun w d Hw => quiet_legal w _ Hw eq_refl (Nat.le_refl _)) (fun w Hw => quiet_legal w _ Hw eq_refl (Nat.le_refl _))
              schedule (start first_value uuid request_size self w origins) s Ha) as [_ Hrtc]; [|done|].
  { eapply start_ok; [apply started_legal|done..]. }
  simpl in Hrtc. clear -Hrtc. induction Hrtc as [w|w w1 w2 [_ [Hl _]] _ IH].
  - by destruct (tasks w !! X) as [t|].
  - unfold lives in Hl. destruct (tasks w !! X) as [t|], (tasks w1 !! X) as [t1|], (tasks w2 !! X) as [t2|]; try done.
    destruct IH as [IH1 IH2], Hl as [->|Hl]; [done|]. split; [by eapply rtc_l|].
    intros Ht. by destruct (st_status t), (st_status t1).
Qed.
End life.

(** ** Permits *)

Section permits.
Context {wire : Wire} {Chain H S : Type} {Hchains : Chains Chain H}.
Context (first_value : ChainResult -> option JsonValue) (uuid : nat -> string) (request_size : A2ARequest -> nat).
Context (self : A2AServer Chain S).
Notation W := (A2aWorld Chain S H).

Definition is_worker (o : Origin (Chain := Chain)) : bool := match o with Working_on _ => true | _ => false end.

(** Permits are neither made nor lost: one is in the semaphore, with a worker that is
    starting, or held.  A worker spawns nothing, and makes each of its calls while it holds
    one. *)
Definition balanced (worker : bool) (held : N) (w w' : W) (held' : N) : Prop :=
  (in_flight w' + held' + N.of_nat (length (spawned w')) = in_flight w + held + N.of_nat (length (spawned w)))%N /\
  (worker = true -> held = 1%N /\ spawned w' = spawned w).
Notation holds worker := (tracks (fun _ => True) (balanced worker)).

(** What touches neither the permits nor the list of spawned workers. *)
Definition permits_kept (w w' : W) : Prop := in_flight w' = in_flight w /\ spawned w' = spawned w.
Notation still := (guarantees (fun _ => True) permits_kept (fun _ => True)).

Lemma still_holds {A} worker h (p : Proc W A) :
  (worker = true -> h = 1%N) -> still p -> holds worker (fun _ h' => h' = h) h p.
Proof.
  intros Hh. induction p as [a|k IH] using proc_induction; intros Hp; [done|]. intros w _.
  destruct (guarantees_step _ _ _ _ w Hp Logic.I) as [[H1 H2] Hk]. specialize (IH w Hk). destruct (k w) as [p w'].
  exists h. split; [|exact IH]. simpl in H1, H2. split; [rewrite H1 H2; lia|intros Hw; by split; [apply Hh|]].
Qed.

Lemma still_call {A} (act : W -> A * W) : (forall w, permits_kept w (act w).2) -> still (call act).
Proof. intros Hact. apply guarantees_call. intros w _. by split. Qed.

Lemma still_tell (act : W -> W) : (forall w, permits_kept w (act w)) -> still (tell act).
Proof. intros Hact. by apply still_call. Qed.

Lemma still_store {A} (p : Proc S A) : still (on_store p : Proc W A).
Proof.
  induction p as [a|k IH] using proc_induction; [done|]. cbn. intros w _. specialize (IH (w_store w)).
  destruct (k (w_store w)) as [p s]. by exists ().
Qed.
Hint Resolve still_store : lc_still.

(** Walks through a process whose calls are still. *)
Ltac still_call := first [apply still_call|apply still_tell]; intros w; unfold permits_kept; simpl; repeat case_match; by simplify_eq/=.
Ltac walk := repeat first
  [ done | solve [auto 1 with lc_still nocore] | still_call
  | eapply guarantees_then; [|intros ?]
  | match goal with |- guarantees _ _ _ (match ?x with _ => _ end) => destruct x end ].

Lemma still_publish event : still (publish self event : Proc W ()).
Proof. unfold publish. walk. Qed.
Lemma still_status id status error : still (publish_status self id status error : Proc W ()).
Proof. apply still_publish. Qed.
Lemma still_artifact id artifact : still (publish_artifact self id artifact : Proc W ()).
Proof. apply still_publish. Qed.
Hint Resolve still_publish still_status still_artifact : lc_still.
Lemma still_transition id target change (won : Proc W ()) : still won -> still (transition self id target change won).
Proof.
  intros Hw. unfold transition, read_with_retry, cas_apply.
  assert (forall n, still (read_attempts self n id : Proc W _)) as Hr by (induction n; cbn [read_attempts]; walk).
  walk; auto.
Qed.
Hint Resolve still_transition : lc_still.

Lemma still_run_task chain id history cancel : still (run_task first_value self chain id history cancel : Proc W ()).
Proof. unfold run_task, select, finish_task. walk. Qed.

Lemma still_run_workflow steps chains id : still (run_workflow first_value self steps chains id : Proc W ()).
Proof.
  unfold run_workflow, cas_apply. eapply guarantees_then; [|intros [results failure]; walk].
  generalize (@nil string). induction (zip steps chains) as [|[step chain] l IH]; intros results; [done|].
  cbn [run_steps]. unfold invoke_chain. walk.
Qed.

Lemma still_sweep ttl : still (sweep_expired_tasks self ttl : Proc W ()).
Proof.
  unfold sweep_expired_tasks. walk. induction a as [|stored l IH]; cbn [sweep_tasks]; walk.
Qed.

Lemma still_cleanup : still (cleanup_expired_tasks self : Proc W ()).
Proof. unfold cleanup_expired_tasks. destruct (task_ttl self); [apply still_sweep|done]. Qed.

Lemma still_release_id mid : still (release_resume_id mid : Proc W ()).
Proof. unfold release_resume_id. walk. Qed.

Lemma still_register id : still (register_cancel id : Proc W nat).
Proof. unfold register_cancel. walk. Qed.
Hint Resolve still_cleanup still_release_id still_register : lc_still.

Lemma still_check_id req mid owner : still (check_message_id self req mid owner : Proc W _).
Proof. unfold check_message_id, reserve_message_id. walk. Qed.
Hint Resolve still_check_id : lc_still.

(** *** Taking, handing over and giving back *)

Lemma still_then {A B} worker h (Q : B -> N -> Prop) (p : Proc W A) (f : A -> Proc W B) :
  (worker = true -> h = 1%N) -> still p -> (forall a, holds worker Q h (f a)) -> holds worker Q h (p ≫= f).
Proof. intros Hh Hp Hf. eapply tracks_bind; [by apply still_holds|]. by intros a h' ->. Qed.

Lemma holds_acquire : holds false (fun (b : bool) h => h = if b then 1%N else 0%N) 0%N (try_acquire_in_flight : Proc W bool).
Proof.
  apply tracks_call. intros w _. destruct (N.ltb_spec 0 (in_flight w)).
  - exists 1%N. split; [|done]. split; [simpl; lia|done].
  - exists 0%N. split; [|done]. by split.
Qed.

Lemma holds_release worker : holds worker (fun _ h => h = 0%N) 1%N (release_in_flight : Proc W ()).
Proof. apply tracks_tell. intros w _. exists 0%N. split; [|done]. split; [simpl; lia|done]. Qed.

Lemma holds_spawn wk : holds false (fun _ h => h = 0%N) 1%N (spawn wk : Proc W ()).
Proof. apply tracks_tell. intros w _. exists 0%N. split; [|done]. split; [simpl; rewrite length_app /=; lia|done]. Qed.

Lemma holds_start req chain task : holds false (fun _ h => h = 0%N) 1%N (start_task req chain task : Proc W A2AResponse).
Proof.
  unfold start_task. apply still_then; [done|walk|]. intros cancel. eapply tracks_bind; [apply holds_spawn|done].
Qed.

Lemma holds_worker wk : holds true (fun _ h => h = 0%N) 1%N (run_worker first_value self wk : Proc W ()).
Proof.
  destruct wk; unfold run_worker.
  - apply still_then; [done|apply still_run_task|]. intros _. apply still_then; [done|unfold remove_cancel; walk|].
    intros _. apply holds_release.
  - apply still_then; [done|apply still_run_workflow|]. intros _. apply holds_release.
Qed.

Notation idle := (fun _ h => h = 0%N).

Lemma holds_ret {A} (h : N) (a : A) : holds false (fun _ h' => h' = h) h (mret a).
Proof. done. Qed.

(** Gives the permit back and answers. *)
Lemma holds_refuse {A} (a : A) : holds false idle 1%N (release_in_flight ;; mret a : Proc W A).
Proof. eapply tracks_bind; [apply holds_release|done]. Qed.

Lemma holds_still {A} (p : Proc W A) : still p -> holds false idle 0%N p.
Proof. intros Hp. by apply (still_holds false 0). Qed.

Lemma holds_resume req id message mid owner :
  holds false (fun (r : A2AResponse * bool) h => h = if r.2 then 0%N else 1%N) 1%N
    (resume_claimed self req id message mid owner : Proc W _).
Proof.
  assert (forall response, holds false (fun (r : A2AResponse * bool) h => h = if r.2 then 0%N else 1%N) 1%N
            (release_resume_id mid ;; mret (response, false) : Proc W _)) as Hr.
  { intros response. apply still_then; [done|walk|]. done. }
  unfold resume_claimed. apply still_then; [done|walk|]. intros [[stored|]|e]; [|apply Hr..].
  destruct (negb (caller_owns _ _)); [apply Hr|]. destruct (negb (bool_decide _)); [apply Hr|].
  apply still_then; [done|walk|]. intros t. apply still_then; [done|walk|]. intros [[]|e]; [|apply Hr].
  apply still_then; [done|walk|]. intros _. eapply tracks_bind; [apply holds_start|]. by intros response h ->.
Qed.

Lemma holds_continue req id message mid owner :
  holds false idle 0%N (handle_tasks_send_continue self req id message mid owner : Proc W _).
Proof.
  unfold handle_tasks_send_continue. eapply tracks_bind; [apply holds_acquire|]. intros [|] h ->.
  - apply still_then; [done|unfold begin_resume; walk|]. intros [|].
    + eapply tracks_bind; [apply holds_resume|]. intros [response gone] h ->.
      apply still_then; [done|unfold end_resume; walk|]. intros _. destruct gone; [done|apply holds_refuse].
    + apply still_then; [done|walk|]. intros _. apply holds_refuse.
  - apply still_then; [done|walk|]. done.
Qed.

Lemma holds_fresh req params message mid reserved owner :
  holds false idle 0%N (send_fresh uuid self req params message mid reserved owner : Proc W _).
Proof.
  unfold send_fresh. eapply tracks_bind; [apply holds_acquire|]. intros [|] h ->.
  - apply still_then; [done|walk|]. intros id. apply still_then; [done|walk|]. intros t.
    apply still_then; [done|walk|]. intros [[]|e]; (apply still_then; [done|walk|]); intros _; [apply holds_start|apply holds_refuse].
  - apply still_then; [done|walk|]. done.
Qed.

Lemma holds_send req owner : holds false idle 0%N (handle_tasks_send uuid self req owner : Proc W _).
Proof.
  unfold handle_tasks_send. destruct (r_params req); [|done]. apply still_then; [done|walk|].
  intros [response|reserved]; [done|]. destruct (A2ARequest.task_id req); [apply holds_continue|apply holds_fresh].
Qed.

Lemma holds_workflow req workflow owner :
  holds false idle 0%N (run_checked_workflow uuid self req workflow owner : Proc W _).
Proof.
  unfold run_checked_workflow. apply still_then; [done|walk|]. intros id. apply still_then; [done|walk|]. intros t.
  eapply tracks_bind; [apply holds_acquire|]. intros [|] h ->; [|done].
  apply still_then; [done|walk|]. intros [[|]|e]; [|apply holds_refuse..].
  apply still_then; [done|walk|]. intros _. eapply tracks_bind; [apply holds_spawn|done].
Qed.

Lemma holds_dispatch req owner : holds false idle 0%N (dispatch uuid self req owner : Proc W _).
Proof.
  unfold dispatch. cbv zeta. destruct (String.eqb _ _); [apply holds_send|]. destruct (String.eqb _ _); [apply holds_send|].
  destruct (String.eqb _ _); [apply holds_still; unfold handle_tasks_get; walk|].
  destruct (String.eqb _ _); [apply holds_still; unfold handle_tasks_cancel; walk|].
  destruct (String.eqb _ _); [apply holds_still; unfold handle_tasks_list; walk|].
  destruct (String.eqb _ _); [|done]. unfold handle_workflow_run. cbv zeta. destruct (r_params req) as [params|]; [|done].
  destruct (json_get params "workflow") as [v|]; [|done]. destruct (workflow_of_json v) as [workflow|]; [|done].
  destruct (workflow_steps workflow); [done|]. destruct (_ <? _); [done|]. apply holds_workflow.
Qed.

Lemma holds_handler req bearer :
  holds false idle 0%N (handle_a2a_request_authenticated uuid request_size self req bearer : Proc W _).
Proof.
  unfold handle_a2a_request_authenticated. destruct (check_auth _ _ _) as [principal|response]; [|done].
  unfold handle_a2a_request_with_owner. destruct (negb (String.eqb _ _)); [done|].
  destruct (match A2ARequest.protocol_version req with Some _ => _ | None => _ end); [done|].
  destruct (match sandbox self with Some _ => _ | None => _ end); [done|].
  destruct (rate_limiter self) as [limiter|]; [|apply holds_dispatch].
  apply still_then; [done|unfold try_acquire; walk|]. intros [[]|e]; [|done].
  eapply tracks_bind; [apply holds_dispatch|]. intros response h ->.
  apply still_then; [done|unfold release_rate; walk|]. done.
Qed.

(** The permits a process starts with. *)
Definition permits_of (o : Origin (Chain := Chain)) : N := if is_worker o then 1%N else 0%N.

Lemma started_holds o :
  holds (is_worker o) idle (permits_of o) (started first_value uuid request_size self o : Proc W _).
Proof.
  destruct o as [req bearer|wk|ttl]; simpl.
  - eapply tracks_bind; [apply holds_handler|done].
  - eapply tracks_bind; [apply holds_worker|done].
  - apply still_then; [done|apply still_sweep|done].
Qed.

(** *** The books of the system *)

Notation Sys := (@System Chain H S).

Definition total (held : list N) : N := foldr N.add 0%N held.

Lemma total_app l1 l2 : total (l1 ++ l2) = (total l1 + total l2)%N.
Proof. induction l1 as [|h l1 IH]; simpl; [done|]. rewrite IH. lia. Qed.

Lemma total_insert held i h h' : held !! i = Some h -> (total (<[i := h']> held) + h = total held + h')%N.
Proof.
  revert i. induction held as [|h0 held IH]; intros [|i] Hi; simplify_eq/=; [lia|]. specialize (IH i Hi). lia.
Qed.

Definition accounted (cap : N) (s : Sys) : Prop :=
  exists held, Forall2 (fun op h => holds (is_worker op.1) idle h op.2) (procs s) held /\
    spawned (world s) = [] /\ (in_flight (world s) + total held)%N = cap.

Lemma started_accounted origins :
  Forall2 (fun op h => holds (is_worker op.1) idle h op.2)
    ((fun o => (o, started first_value uuid request_size self o)) <$> origins) (permits_of <$> origins).
Proof. induction origins as [|o origins IH]; [constructor|]. constructor; [apply started_holds|exact IH]. Qed.

Lemma total_handlers origins : Forall (fun o => is_worker o = false) origins -> total (permits_of <$> origins) = 0%N.
Proof. induction 1 as [|o origins Ho _ IH]; [done|]. simpl. unfold permits_of at 1. by rewrite Ho. Qed.

Lemma total_workers (l : list (Worker Chain)) : total (permits_of <$> (Working_on <$> l)) = N.of_nat (length l).
Proof. induction l as [|wk l IH]; [done|]. simpl. rewrite IH. unfold permits_of. simpl. lia. Qed.

Lemma accounted_start w origins : spawned w = [] -> Forall (fun o => is_worker o = false) origins ->
  accounted (in_flight w) (start first_value uuid request_size self w origins).
Proof.
  intros Hs Ho. exists (permits_of <$> origins). split_and!; [apply started_accounted|done|].
  rewrite total_handlers //=. lia.
Qed.

Lemma accounted_step cap choice s s' :
  accounted cap s -> sys_step first_value uuid request_size self choice s = Some s' -> accounted cap s'.
Proof.
  intros (held & Hp & Hs & Ht) Hstep. destruct choice as [req bearer|ttl|d|i]; simplify_eq/=.
  - exists (held ++ [0%N]). split_and!; [|done|rewrite total_app /=; lia].
    apply Forall2_app; [done|]. constructor; [apply (started_holds (Handler req bearer))|constructor].
  - exists (held ++ [0%N]). split_and!; [|done|rewrite total_app /=; lia].
    apply Forall2_app; [done|]. constructor; [apply (started_holds (Sweeper ttl))|constructor].
  - by exists held.
  - destruct (procs s !! i) as [[o [a|k]]|] eqn:E; try done.
    destruct (Forall2_lookup_l _ _ _ _ _ Hp E) as (h & Hh & Hk).
    destruct (tracks_step _ _ _ _ _ (world s) Hk Logic.I) as (h' & [Hb _] & Hk'). simpl in Hb.
    destruct (k (world s)) as [p w] eqn:Ek. simplify_eq/=. rewrite Hs /= in Hb.
    exists (<[i := h']> held ++ (permits_of <$> (Working_on <$> spawned w))). split_and!; simpl; [|done|].
    + apply Forall2_app; [by apply Forall2_insert|].
      pose proof (started_accounted (Working_on <$> spawned w)) as Hw. by rewrite -list_fmap_compose in Hw.
    + rewrite total_app total_workers. pose proof (total_insert held i h h' Hh). lia.
Qed.

Lemma accounted_run cap schedule s s' :
  accounted cap s -> sys_run first_value uuid request_size self schedule s = Some s' -> accounted cap s'.
Proof.
  revert s. induction schedule as [|choice schedule IH]; intros s Hs Hr; simplify_eq/=; [done|].
  destruct (sys_step _ _ _ _ choice s) as [s1|] eqn:E; [|done]. eapply IH; [|exact Hr]. by eapply accounted_step.
Qed.

Definition ended (op : Origin (Chain := Chain) * Proc W Outcome) : bool :=
  match op.2 with Return _ => true | Await _ => false end.

(** Workers that have not ended. *)
Definition busy (s : Sys) : nat := length (filter (fun op => is_worker op.1 && negb (ended op) = true) (procs s)).

(** A worker that has not ended holds its permit, and nothing ended holds one. *)
Lemma holds_busy (w : W) op h : holds (is_worker op.1) idle h op.2 ->
  (is_worker op.1 && negb (ended op) = true -> h = 1%N) /\ (ended op = true -> h = 0%N).
Proof.
  destruct op as [o [a|k]]; unfold ended; simpl; intros Hk; split; try done.
  - by rewrite andb_false_r.
  - intros Ho. rewrite andb_true_r in Ho. specialize (Hk w Logic.I). destruct (k w) as [p w'].
    destruct Hk as (s' & [_ Hw] & _). by apply Hw.
Qed.

Lemma busy_held (w : W) ps held : Forall2 (fun op h => holds (is_worker op.1) idle h op.2) ps held ->
  (N.of_nat (length (filter (fun op => is_worker op.1 && negb (ended op) = true) ps)) <= total held)%N /\
  (Forall (fun op => ended op = true) ps -> total held = 0%N).
Proof.
  induction 1 as [|op h ps held Hh _ [IH1 IH2]]; [done|]. destruct (holds_busy w op h Hh) as [H1 H0]. split.
  - rewrite filter_cons. destruct (decide _) as [Hd|_]; simpl; [rewrite (H1 Hd)|]; lia.
  - intros [Ho Hps]%Forall_cons. simpl. rewrite (H0 Ho) (IH2 Hps). done.
Qed.

(** C10: Whatever requests arrive, at most as many workers run as the server has permits, in
    every schedule, whatever the store answers; and when everything that was started has ended, every permit
    is back. *)
Theorem inflight_bounded w origins schedule s :
  spawned w = [] -> Forall (fun o => is_worker o = false) origins ->
  sys_run first_value uuid request_size self schedule (start first_value uuid request_size self w origins) = Some s ->
  (in_flight (world s) + N.of_nat (busy s) <= in_flight w)%N /\
  (Forall (fun op => ended op = true) (procs s) -> in_flight (world s) = in_flight w).
Proof.
  intros Hw Ho Hr. destruct (accounted_run _ _ _ _ (accounted_start w origins Hw Ho) Hr) as (held & Hp & _ & Ht).
  destruct (busy_held w _ _ Hp) as [Hb He]. unfold busy. split; [lia|]. intros Hall. specialize (He Hall). lia.
Qed.

(** *** Draining *)

Definition group (worker : bool) (ps : list (Origin (Chain := Chain) * Proc W Outcome)) : list (Proc W Outcome) :=
  (filter (fun op => is_worker op.1 = worker) ps).*2.

Lemma group_app worker l1 l2 : group worker (l1 ++ l2) = group worker l1 ++ group worker l2.
Proof. unfold group. by rewrite filter_app fmap_app. Qed.

Lemma group_cons worker o p l :
  group worker ((o, p) :: l) = if bool_decide (is_worker o = worker) then p :: group worker l else group worker l.
Proof. unfold group. rewrite filter_cons. simpl. case_bool_decide; destruct (decide _); done. Qed.

Lemma group_workers (l : list (Worker Chain)) :
  group false ((fun wk => (Working_on wk, started first_value uuid request_size self (Working_on wk))) <$> l) = [].
Proof. by induction l as [|wk l IH]. Qed.

Definition turn (s' s : Sys) : Prop := exists i, sys_step first_value uuid request_size self (Turn i) s = Some s'.

Lemma turn_groups cap s s' : accounted cap s -> turn s' s ->
  groups (group false (procs s'), group true (procs s')) (group false (procs s), group true (procs s)).
Proof.
  intros (held & Hp & Hs & _) [i Hi]. simpl in Hi. destruct (procs s !! i) as [[o [a|k]]|] eqn:E; try done.
  destruct (Forall2_lookup_l _ _ _ _ _ Hp E) as (h & _ & Hk).
  destruct (tracks_step _ _ _ _ _ (world s) Hk Logic.I) as (h' & [_ Hw] & _). simpl in Hw.
  assert (follows (k (world s)).1 (Await k)) as Hf by by eexists _, _.
  destruct (k (world s)) as [p w] eqn:Ek. simplify_eq/=.
  rewrite -(take_drop_middle _ _ _ E) insert_app_r_alt; [|rewrite length_take; lia].
  rewrite length_take_le ?Nat.sub_diag /=; [|apply lookup_lt_Some in E; lia].
  rewrite !group_app !group_cons. destruct (is_worker o) eqn:Eo; simpl.
  - destruct (Hw eq_refl) as [_ ->]. rewrite Hs /= !app_nil_r. right. split; [done|]. by apply shrinks_middle.
  - left. simpl. rewrite group_workers app_nil_r. by apply shrinks_middle.
Qed.

(** C11: Once no more requests arrive the server drains: whichever process is polled next, only
    finitely many turns are left, and when none is left every request has its answer, every
    worker has ended and every permit is back. *)
Theorem server_drains w origins schedule s :
  spawned w = [] -> Forall (fun o => is_worker o = false) origins ->
  sys_run first_value uuid request_size self schedule (start first_value uuid request_size self w origins) = Some s ->
  Acc turn s /\
  ((forall s', ~ turn s' s) -> Forall (fun op => ended op = true) (procs s) /\ in_flight (world s) = in_flight w).
Proof.
  intros Hw Ho Hr. pose proof (accounted_run _ _ _ _ (accounted_start w origins Hw Ho) Hr) as Ha. split.
  - clear Hr. pose proof (groups_acc (group false (procs s), group true (procs s))) as Hacc.
    remember (group false (procs s), group true (procs s)) as x eqn:Hx. revert s Ha Hx.
    induction Hacc as [x _ IH]. intros s Ha ->. constructor. intros s' Ht.
    pose proof Ht as [i Hi]. eapply IH; [by eapply turn_groups| |done]. by eapply accounted_step.
  - intros Hstuck. assert (Forall (fun op => ended op = true) (procs s)) as Hall.
    { apply Forall_lookup. intros i [o [a|k]] Hi; [done|]. exfalso. destruct (k (world s)) as [p w'] eqn:Ek.
      eapply Hstuck. exists i. simpl. by rewrite Hi Ek. }
    split; [done|]. destruct Ha as (held & Hp & _ & Ht). destruct (busy_held w _ _ Hp) as [_ He]. specialize (He Hall). lia.
Qed.
End permits.

(** ** Owners *)

Section owners.
Context {wire : Wire} {Chain H S : Type} {Hchains : Chains Chain H}.
Context (first_value : ChainResult -> option JsonValue) (uuid : nat -> string) (request_size : A2ARequest -> nat).
Context (self : A2AServer Chain S).
Notation W := (A2aWorld Chain S H).
Notation answers := (guarantees (fun _ => True) (fun _ _ => True)).

Lemma answers_any {A} (p : Proc W A) : answers (fun _ => True) p.
Proof. induction p as [a|k IH] using proc_induction; [done|]. intros w _. specialize (IH w). destruct (k w). by exists (). Qed.

Lemma answers_then {A B} (Q : B -> Prop) (p : Proc W A) (f : A -> Proc W B) :
  (forall a, answers Q (f a)) -> answers Q (p ≫= f).
Proof. intros Hf. eapply guarantees_then; [apply answers_any|done]. Qed.

(** What an answer shows to [owner] is open, or its own. *)
Definition shows_own (owner : option string) (r : A2AResponse) : Prop :=
  match resp_result r with Some body => Forall (fun t => caller_owns owner t = true) (shown body) | None => True end.

Lemma own_task owner id t : caller_owns owner t = true -> shows_own owner (A2AResponse.ok id (TaskBody t)).
Proof. intros Ht. by apply Forall_singleton. Qed.

Lemma caller_owns_refl owner t : t_owner t = owner -> caller_owns owner t = true.
Proof. unfold caller_owns. intros ->. destruct owner; [by apply bool_decide_eq_true|done]. Qed.

(** Walks through a process, keeping what is known of its answers. *)
Ltac answer := repeat first
  [ exact Logic.I | solve [auto 1]
  | eapply answers_then; intros ?
  | match goal with |- guarantees _ _ _ (match ?x with _ => _ end) => destruct x eqn:? end ].

Lemma own_start req chain task owner : caller_owns owner task = true ->
  answers (shows_own owner) (start_task req chain task : Proc W _).
Proof. intros Ht. unfold start_task. apply answers_then. intros cancel. apply answers_then. intros _. by apply own_task. Qed.

Lemma own_continue req id message mid owner :
  answers (shows_own owner) (handle_tasks_send_continue self req id message mid owner : Proc W _).
Proof.
  unfold handle_tasks_send_continue. apply answers_then. intros [|]; [|by answer].
  apply answers_then. intros [|]; [|by answer].
  eapply (guarantees_bind _ _ (fun r => shows_own owner r.1)); [|by intros [response [|]] Hr; answer].
  unfold resume_claimed. apply answers_then. intros [[stored|]|e]; [|by answer..].
  destruct (caller_owns owner (st_task stored)) eqn:Ho; cbn [negb]; [|by answer]. destruct (negb _); [by answer|].
  apply answers_then. intros t. apply answers_then. intros [[]|e]; [|by answer]. apply answers_then. intros _.
  eapply guarantees_bind; [|by intros response Hr; apply guarantees_ret].
  apply own_start. by destruct (can_transition_to _ _).
Qed.

Lemma own_fresh req params message mid reserved owner :
  answers (shows_own owner) (send_fresh uuid self req params message mid reserved owner : Proc W _).
Proof.
  unfold send_fresh. apply answers_then. intros [|]; [|by answer]. apply answers_then. intros id. apply answers_then. intros t.
  apply answers_then. intros [[]|e]; [|by answer]. apply answers_then. intros _. apply own_start, caller_owns_refl.
  by destruct owner.
Qed.

Lemma own_send req owner : answers (shows_own owner) (handle_tasks_send uuid self req owner : Proc W _).
Proof.
  unfold handle_tasks_send. destruct (r_params req) as [params|]; [|done].
  eapply (guarantees_bind _ _ (fun c => match c with inl r => shows_own owner r | inr _ => True end)).
  - unfold check_message_id. destruct (A2ARequest.message_id req) as [mid|]; [|done]. apply answers_then.
    intros [[existing|]|e]; [|done..]. apply answers_then. intros [[stored|]|e]; [|by answer..].
    destruct (caller_owns owner (st_task stored)) eqn:Ho; cbn [negb]; [by apply own_task|done].
  - intros [response|reserved] Hc; [done|]. destruct (A2ARequest.task_id req); [apply own_continue|apply own_fresh].
Qed.

Lemma own_get req owner : answers (shows_own owner) (handle_tasks_get self req owner : Proc W _).
Proof.
  unfold handle_tasks_get. cbv zeta. destruct (String.eqb _ _); [done|]. apply answers_then. intros _. apply answers_then.
  intros [[stored|]|e]; [|done..]. destruct (caller_owns owner (st_task stored)) eqn:Ho; [|done]. by apply Forall_singleton.
Qed.

Lemma own_list req owner : answers (shows_own owner) (handle_tasks_list self req owner : Proc W _).
Proof.
  unfold handle_tasks_list. apply answers_then. intros _. destruct (list_filter req owner) as [status|f]; [done|]. cbv zeta.
  apply answers_then. intros [stored|e]; [|done]. unfold shows_own. simpl. apply Forall_take, Forall_drop.
  rewrite sort_by_perm. apply Forall_forall. by intros t [Ht _]%list_elem_of_filter.
Qed.

Lemma own_workflow req workflow owner : answers (shows_own owner) (run_checked_workflow uuid self req workflow owner : Proc W _).
Proof.
  unfold run_checked_workflow. apply answers_then. intros id. apply answers_then. intros t. apply answers_then.
  intros [|]; [|done]. apply answers_then. intros [[|]|e]; [|by answer..]. apply answers_then. intros _. apply answers_then.
  intros _. apply own_task, caller_owns_refl. by destruct owner.
Qed.

(** [tasks/cancel] is the exception.  It has lost the race for a task when it read a task of its
    caller that had not ended, was refused the swap, and then read a task of the same id that
    had, which it shows.  The stores it did so in are, in order, among [h]. *)
Definition lost_race (req : A2ARequest) (owner : option string) (r : A2AResponse) (h : list S) : Prop :=
  let task_id := default "" (A2ARequest.param "taskId" req) in
  exists stored later t ws1 ws2 ws3,
    ws1 ++ ws2 ++ ws3 `sublist_of` h /\
    replies (ts_get (s_store self) task_id) ws1 = Some (Ok (Some stored)) /\
    caller_owns owner (st_task stored) = true /\ is_terminal (st_status stored) = false /\
    replies (ts_compare_and_update (s_store self) task_id (StoredTask.touch t (set_status Cancelled stored))) ws2 = Some (Ok false) /\
    replies (ts_get (s_store self) task_id) ws3 = Some (Ok (Some later)) /\ is_terminal (st_status later) = true /\
    r = A2AResponse.ok (r_id req) (TaskBody (st_task later)).

Definition discreet (req : A2ARequest) (owner : option string) (r : A2AResponse) (h : list S) : Prop :=
  shows_own owner r \/ (r_method req = "tasks/cancel" /\ lost_race req owner r h).

Lemma discreet_later req owner r h h' : discreet req owner r h -> h `sublist_of` h' -> discreet req owner r h'.
Proof.
  intros [Hr|[Hm (stored & later & t & ws1 & ws2 & ws3 & Hs & Hall)]] Hh; [by left|right]. split; [done|].
  exists stored, later, t, ws1, ws2, ws3. split; [by etrans|done].
Qed.

Notation sees := (sees (H := H) (Chain := Chain)).

Lemma discreet_own req owner h (p : Proc W A2AResponse) : answers (shows_own owner) p -> sees (discreet req owner) h p.
Proof. intros Hp. eapply tracks_mono; [by apply sees_guarantees|]. intros r h' [Hr _]. by left. Qed.

Lemma discreet_cancel req owner h : r_method req = "tasks/cancel" ->
  sees (discreet req owner) h (handle_tasks_cancel self req owner : Proc W _).
Proof.
  intros Hm. unfold handle_tasks_cancel. cbv zeta. set (task_id := default "" _). destruct (String.eqb _ _); [by left|].
  eapply tracks_bind; [apply sees_on_store|]. intros [[stored|]|e] h1 (ws1 & -> & H1); [|by left..].
  destruct (caller_owns owner (st_task stored)) eqn:Ho; cbn [negb]; [|by left].
  destruct (is_terminal (st_status stored)) eqn:Hopen; [left; by apply own_task|]. apply sees_then. intros t h2 Hh2.
  eapply tracks_bind; [apply sees_on_store|]. intros [[|]|e] h3 (ws2 & -> & H2); [| |by left].
  - apply discreet_own. apply answers_then. intros _. apply answers_then. intros _. by apply own_task.
  - eapply tracks_bind; [apply sees_on_store|]. intros [[later|]|e] h4 (ws3 & -> & H3); [|by left..].
    destruct (is_terminal (st_status later)) eqn:Et; [|by left]. right. split; [done|].
    exists stored, later, t, ws1, ws2, ws3. split_and!; try done. rewrite (app_assoc ws1).
    apply sublist_app; [|done]. apply sublist_app; [|done]. etrans; [|exact Hh2]. by apply sublist_inserts_l.
Qed.

Lemma discreet_dispatch req owner h : sees (discreet req owner) h (dispatch uuid self req owner : Proc W _).
Proof.
  unfold dispatch. cbv zeta. destruct (String.eqb _ _); [apply discreet_own, own_send|].
  destruct (String.eqb _ _); [apply discreet_own, own_send|]. destruct (String.eqb _ _); [apply discreet_own, own_get|].
  destruct (String.eqb_spec (r_method req) "tasks/cancel"); [by apply discreet_cancel|].
  destruct (String.eqb _ _); [apply discreet_own, own_list|]. destruct (String.eqb _ _); [|by left].
  apply discreet_own. unfold handle_workflow_run. cbv zeta. destruct (r_params req) as [params|]; [|done].
  destruct (json_get params "workflow") as [v|]; [|done]. destruct (workflow_of_json v) as [workflow|]; [|done].
  destruct (workflow_steps workflow); [done|]. destruct (_ <? _); [done|]. apply own_workflow.
Qed.

(** What the answer to a request may show, given the stores of the run. *)
Definition answer_ok (req : A2ARequest) (bearer : option string) (r : A2AResponse) (h : list S) : Prop :=
  match check_auth self (r_id req) bearer with
  | Ok principal => discreet req (resolve_owner self req principal) r h
  | Err refusal => r = refusal /\ resp_result r = None
  end.

Lemma handler_ok req bearer h :
  sees (answer_ok req bearer) h (handle_a2a_request_authenticated uuid request_size self req bearer : Proc W _).
Proof.
  unfold handle_a2a_request_authenticated, answer_ok. destruct (check_auth self (r_id req) bearer) as [principal|response] eqn:Ec.
  - unfold handle_a2a_request_with_owner. destruct (negb (String.eqb _ _)); [by left|].
    destruct (match A2ARequest.protocol_version req with Some _ => _ | None => _ end); [by left|].
    destruct (match sandbox self with Some _ => _ | None => _ end); [by left|].
    destruct (rate_limiter self) as [limiter|]; [|apply discreet_dispatch]. apply sees_then. intros [[]|e] h1 _; [|by left].
    eapply tracks_bind; [apply discreet_dispatch|]. intros response h2 Hr. apply sees_then. intros _ h3 Hh. by eapply discreet_later.
  - split; [done|]. unfold check_auth in Ec. by destruct (default (authenticate (static_bearer self)) (authenticator self) bearer); simplify_eq/=.
Qed.

(** C18: In every schedule, a caller who is not authenticated is shown nothing, and the answer
    to anyone else shows no task that belongs to another owner, with one exception: a cancel
    that has lost the race for a task, which it had read as its caller's and not ended before
    it was refused the swap, shows the ended task of that id that it reads next. *)
Theorem answers_owned w origins schedule s req bearer r :
  sys_run first_value uuid request_size self schedule (start first_value uuid request_size self w origins) = Some s ->
  (Handler req bearer, Return (Answered r)) ∈ procs s ->
  answer_ok req bearer r (w_store <$> sys_trace first_value uuid request_size self schedule (start first_value uuid request_size self w origins)).
Proof.
  intros Hr Hin.
  pose (Q := fun (o : Origin (Chain := Chain)) (out : Outcome) (h : list S) =>
    match o, out with Handler req bearer, Answered r => answer_ok req bearer r h | _, _ => True end).
  assert (forall o h, sees (Q o) h (started first_value uuid request_size self o : Proc W _)) as Hstart.
  { intros [req' bearer'|wk|ttl] h; simpl; [|by apply sees_then..].
    eapply tracks_bind; [apply handler_ok|]. intros r' h' Hr'. exact Hr'. }
  assert (Forall (fun op => exists h, h `sublist_of` [] /\ sees (Q op.1) h op.2)
    (procs (start first_value uuid request_size self w origins))) as H0.
  { simpl. rewrite Forall_fmap. apply Forall_forall. intros o _. exists []. split; [done|apply Hstart]. }
  pose proof (sees_run first_value uuid request_size self Q [] schedule _ s Hstart H0 Hr) as Hall.
  destruct (proj1 (Forall_forall _ _) Hall _ Hin) as (h & Hh & Ha). simpl in Ha, Hh.
  unfold answer_ok in *. destruct (check_auth _ _ _); [|done]. by eapply discreet_later.
Qed.
End owners.

(** ** Pages *)

Section pages.
Context {wire : Wire} {Chain H : Type} {Hchains : Chains Chain H}.
Context (order : gmap string StoredTask -> list (string * StoredTask)) (order_perm : forall m, order m ≡ₚ map_to_list m).
Context (self : A2AServer Chain InMemoryTaskStore) (Hself : s_store self = InMemoryTaskStore.store order).
Notation W := (A2aWorld Chain InMemoryTaskStore H).

(** The next request of a client that follows the cursor. *)
Definition with_cursor (cursor : string) (req : A2ARequest) : A2ARequest :=
  let params := match r_params req with Some (JObject m) => m | _ => ∅ end in
  mkRequest (r_jsonrpc req) (r_id req) (r_method req) (Some (JObject (<["cursor" := JString cursor]> params))) (r_metadata req).

(** The pages a client collects, following the cursors. *)
Fixpoint enumerate (fuel : nat) (req : A2ARequest) (owner : option string) (w : W) : option (list (list A2ATask)) :=
  match fuel with
  | 0 => None
  | Datatypes.S fuel =>
      let '(r, w) := run (handle_tasks_list self req owner) w in
      match resp_result r with
      | Some (PageBody tasks _ (Some cursor)) => (tasks ::.) <$> enumerate fuel (with_cursor cursor req) owner w
      | Some (PageBody tasks _ None) => Some [tasks]
      | _ => None
      end
  end.

Lemma position_at l1 t l2 : NoDup (t_id <$> (l1 ++ t :: l2)) -> position (t_id t) (l1 ++ t :: l2) = Some (length l1).
Proof.
  induction l1 as [|t1 l1 IH]; simpl; [by rewrite String.eqb_refl|]. intros [Hn Hd]%NoDup_cons.
  destruct (String.eqb_spec (t_id t1) (t_id t)) as [E|_]; [|by rewrite IH].
  destruct Hn. rewrite E. apply list_elem_of_fmap_2, elem_of_app. right. left.
Qed.

(** The pages after [seen], of [limit] tasks each. *)
Lemma page_next seen rest limit cursor : 0 < limit -> NoDup (t_id <$> (seen ++ rest)) -> cursor = t_id <$> last seen ->
  page (seen ++ rest) limit cursor =
  PageBody (take limit rest) (limit <? length rest) (if limit <? length rest then t_id <$> last (take limit rest) else None).
Proof.
  intros Hl Hd ->. unfold page.
  assert (match t_id <$> last seen with
          | Some c => match position c (seen ++ rest) with Some i => Datatypes.S i | None => 0 end
          | None => 0
          end = length seen) as ->.
  { destruct seen as [|t seen _] using rev_ind; [done|]. rewrite last_snoc /= -app_assoc /= position_at; [rewrite length_app /=; lia|].
    by rewrite -app_assoc in Hd. }
  rewrite length_app drop_app_length.
  assert ((Nat.min (length seen + limit) (length seen + length rest) <? length seen + length rest) = (limit <? length rest)) as ->.
  { destruct (Nat.ltb_spec limit (length rest)); [apply Nat.ltb_lt|apply Nat.ltb_ge]; lia. }
  assert (take (Nat.min (length seen + limit) (length seen + length rest) - length seen) rest = take limit rest) as ->.
  { destruct (Nat.le_ge_cases limit (length rest)); [f_equal; lia|]. rewrite !take_ge; [done|lia..]. }
  done.
Qed.

Context (Httl : task_ttl self = None).

(** What a listing selects, before it is cut into pages. *)
Definition selected (f : TaskFilter) (owner : option string) (w : W) : list A2ATask :=
  filter (fun t => TaskFilter.matches f t && caller_owns owner t = true) (st_task <$> (map_to_list (inner (w_store w))).*2).

Definition listed (f : TaskFilter) (owner : option string) (w : W) : list A2ATask :=
  sort_by id_le (filter (fun t => caller_owns owner t = true)
    (st_task <$> sort_by InMemoryTaskStore.created_le
       (filter (fun t => TaskFilter.matches f (st_task t) = true) (order (inner (w_store w))).*2))).

Lemma listed_selected f owner w : listed f owner w ≡ₚ selected f owner w.
Proof.
  unfold listed, selected. rewrite sort_by_perm. rewrite (sort_by_perm InMemoryTaskStore.created_le) order_perm.
  generalize (map_to_list (inner (w_store w))).*2. intros l. induction l as [|t l IH]; [done|].
  rewrite fmap_cons !filter_cons. destruct (TaskFilter.matches f (st_task t)); simpl; [|exact IH].
  rewrite filter_cons. destruct (caller_owns owner (st_task t)); simpl; by rewrite -IH.
Qed.

Lemma listed_ids f owner w : keyed (inner (w_store w)) -> NoDup (t_id <$> listed f owner w).
Proof.
  intros Hk. rewrite listed_selected. unfold selected.
  assert (NoDup (t_id <$> (st_task <$> (map_to_list (inner (w_store w))).*2))) as Hd.
  { rewrite -!list_fmap_compose. rewrite (list_fmap_ext _ fst (map_to_list (inner (w_store w)))); [apply NoDup_fst_map_to_list|].
    intros i [k t] Hi%list_elem_of_lookup_2%elem_of_map_to_list. by apply Hk. }
  revert Hd. generalize (st_task <$> (map_to_list (inner (w_store w))).*2). intros l.
  induction l as [|t l IH]; [done|]. rewrite fmap_cons. intros [Hn Hd]%NoDup_cons. rewrite filter_cons.
  destruct (decide _); [|by apply IH]. rewrite fmap_cons. apply NoDup_cons. split; [|by apply IH].
  contradict Hn. apply list_elem_of_fmap in Hn as (t' & -> & [_ Hin]%list_elem_of_filter). by apply list_elem_of_fmap_2.
Qed.

Lemma list_run req owner f w : list_filter req owner = inr f ->
  run (handle_tasks_list self req owner) w =
  (A2AResponse.ok (r_id req)
     (page (listed f owner w) (parse_pagination_limit (r_params req ≫= fun p => json_get p "limit")) (A2ARequest.param "cursor" req)), w).
Proof.
  intros Hf. unfold handle_tasks_list, cleanup_expired_tasks. rewrite Httl Hf Hself. by destruct w.
Qed.

(** The cursor changes nothing else of a request. *)
Lemma cursor_param cursor req k : k <> "cursor" ->
  (r_params (with_cursor cursor req) ≫= fun p => json_get p k) = (r_params req ≫= fun p => json_get p k).
Proof. intros Hk. simpl. rewrite lookup_insert_ne //. by destruct (r_params req) as [[]|]. Qed.

Lemma cursor_filter cursor req owner : list_filter (with_cursor cursor req) owner = list_filter req owner.
Proof.
  assert (forall k, k <> "cursor" -> A2ARequest.param k (with_cursor cursor req) = A2ARequest.param k req) as Hp.
  { intros k Hk. unfold A2ARequest.param. pose proof (cursor_param cursor req k Hk) as E. simpl in *. rewrite E.
    by destruct (r_params req). }
  unfold list_filter. by rewrite !Hp.
Qed.

Lemma enumerate_from f owner w limit fuel : forall req seen rest,
  list_filter req owner = inr f -> listed f owner w = seen ++ rest -> NoDup (t_id <$> listed f owner w) ->
  parse_pagination_limit (r_params req ≫= fun p => json_get p "limit") = limit -> 0 < limit ->
  A2ARequest.param "cursor" req = t_id <$> last seen -> length rest < fuel ->
  exists pages lastp, enumerate fuel req owner w = Some (pages ++ [lastp]) /\ concat pages ++ lastp = rest /\
    Forall (fun p => length p = limit) pages /\ length lastp <= limit.
Proof.
  induction fuel as [|fuel IH]; intros req seen rest Hf Hl Hd Hlim Hpos Hc Hfuel; [lia|].
  cbn [enumerate]. rewrite (list_run _ _ _ _ Hf) Hlim Hl page_next //; [|by rewrite -Hl].
  destruct (Nat.ltb_spec limit (length rest)) as [Hlt|Hge]; simpl.
  - destruct (last (take limit rest)) as [t|] eqn:Et; simpl.
    + destruct (IH (with_cursor (t_id t) req) (seen ++ take limit rest) (drop limit rest)) as (pages & lastp & He & Hcat & Hall & Hlast).
      * by rewrite cursor_filter.
      * by rewrite -app_assoc take_drop.
      * done.
      * by rewrite cursor_param.
      * done.
      * rewrite last_app Et. unfold A2ARequest.param. simpl. by rewrite lookup_insert_eq.
      * rewrite length_drop. lia.
      * exists (take limit rest :: pages), lastp. rewrite He. split_and!; [done| | |done].
        -- simpl. by rewrite -app_assoc Hcat take_drop.
        -- constructor; [rewrite length_take; lia|done].
    + apply last_None in Et. apply (f_equal length) in Et. rewrite length_take /= in Et. lia.
  - exists [], rest. by rewrite take_ge.
Qed.

(** A client that follows the cursors of tasks/list gets every task that its filter and its
    owner select exactly once, in the order of the ids, on pages that are full
    up to the last one; whatever limit it asks for, a page has at least one and at most a
    thousand tasks. *)
Theorem pages_enumerate req f owner w :
  keyed (inner (w_store w)) -> list_filter req owner = inr f -> A2ARequest.param "cursor" req = None ->
  let limit := parse_pagination_limit (r_params req ≫= fun p => json_get p "limit") in
  (1 <= limit /\ (N.of_nat limit <= MAX_PAGE_SIZE)%N) /\
  exists pages lastp, enumerate (Datatypes.S (length (listed f owner w))) req owner w = Some (pages ++ [lastp]) /\
    concat pages ++ lastp ≡ₚ selected f owner w /\
    StronglySorted (fun a b => id_le a b = true) (concat pages ++ lastp) /\ NoDup (t_id <$> (concat pages ++ lastp)) /\
    Forall (fun p => length p = limit) pages /\ length lastp <= limit.
Proof.
  intros Hk Hf Hc limit.
  assert (1 <= limit /\ (N.of_nat limit <= MAX_PAGE_SIZE)%N) as Hlim.
  { unfold limit, parse_pagination_limit, MAX_PAGE_SIZE, DEFAULT_PAGE_SIZE. repeat case_match; lia. }
  split; [done|]. pose proof (listed_ids f owner w Hk) as Hd.
  destruct (enumerate_from f owner w limit (Datatypes.S (length (listed f owner w))) req [] (listed f owner w))
    as (pages & lastp & He & Hcat & Hall & Hlast); [done..|lia|done|lia|].
  exists pages, lastp. rewrite Hcat. split_and!; [done|apply listed_selected| |done..].
  unfold listed. eapply sort_by_sorted; unfold id_le; [intros; apply String.leb_total|intros ???; apply string_leb_trans].
Qed.
End pages.
