(* ===== verification/A2aSamples.v ===== *)
(** * The agent server on concrete requests

    Three chains over the in-memory store, the properties of [A2aFacts] applied to its runs,
    and the schedules in which handlers and workers race. *)

From stdpp Require Import gmap strings list pretty.
From S2P Require Import Prelude Json Process A2aProtocol A2aStore A2aServer A2aFacts.

(** ** A server *)

Inductive SampleChain : Type := Echo | Broken | Asks.

(** The world of the chains counts their runs; [select!] prefers a signal that has fired. *)
#[local] Instance sample_chains : Chains SampleChain nat := {|
  input_keys _ := ["text"];
  chain_invoke chain input runs :=
    (match chain, input !! "text" with
     | Echo, Some (JString s) => Ok {["out" := JString s]}
     | Asks, _ => Err (MissingInput "city")
     | _, _ => Err (OtherError "down")
     end, Datatypes.S runs);
  select_cancels _ := true;
|}.

Definition sample_message (v : JsonValue) : option A2AMessage :=
  role ← json_get v "role" ≫= as_str; content ← json_get v "content" ≫= as_str; Some (mkA2AMessage role content).

#[local] Instance sample_wire : Wire := {|
  message_of_json := sample_message;
  message_to_json m := JObject {["role" := JString (role m); "content" := JString (content m)]};
  workflow_of_json v := id ← json_get v "id" ≫= as_str; Some (mkWorkflow (Some id) None [WorkflowStep.new "s1" "one"]);
  workflow_to_json w := JObject {["id" := JString (default "" (workflow_id w))]};
  json_text _ := "";
|}.

Definition sample_output (m : ChainResult) : option JsonValue := snd <$> head (map_to_list m).
Definition sample_uuid (n : nat) : string := "task-" +:+ pretty n.
Definition sample_size (req : A2ARequest) : nat := 0.

Definition memory : TaskStore InMemoryTaskStore := InMemoryTaskStore.store map_to_list.
#[local] Instance memory_promise : AtomicStore memory inner := memory_atomic map_to_list (fun m => reflexivity _).

(** No task expires here. *)
Definition server (chain : SampleChain) : A2AServer SampleChain InMemoryTaskStore :=
  A2AServer.with_task_ttl None (A2AServer.with_auth_identity "tok-ann" "ann" (A2AServer.with_auth_identity "tok-bob" "bob"
    (A2AServer.new chain memory))).

Notation SampleWorld := (A2aWorld SampleChain InMemoryTaskStore nat).

Definition empty_world (permits : N) : SampleWorld :=
  mkA2aWorld InMemoryTaskStore.new MessageIdTable.default ∅ ∅ [] permits [] [] 0 0 0 0 0 0.

(** A task of ann that waits for input. *)
Definition draft : StoredTask :=
  StoredTask.new 0 (A2ATask.with_owner "ann" (A2ATask.with_status InputRequired (A2ATask.new "draft" (user "book a flight")))).

Definition draft_world : SampleWorld := set_store (mkMemStore {["draft" := draft]} 10) (empty_world 2).

Notation sample_run self := (sys_run sample_output sample_uuid sample_size self).
Notation sample_start self := (start sample_output sample_uuid sample_size self).

Definition resume : A2ARequest := A2ARequest.continue_task 1 "draft" (user "Rome").
Definition cancel : A2ARequest := A2ARequest.cancel_task 2 "draft".
Definition send : A2ARequest := A2ARequest.send_task 3 (user "hello").
Definition as_ann (req : A2ARequest) : Origin (Chain := SampleChain) := Handler req (Some "tok-ann").
Definition as_bob (req : A2ARequest) : Origin (Chain := SampleChain) := Handler req (Some "tok-bob").

(** What is left to see of a system: the statuses, the permits, the answers. *)
Definition statuses (s : System (Chain := SampleChain) (H := nat) (S := InMemoryTaskStore)) : list (string * TaskStatus) :=
  (fun kt => (kt.1, st_status kt.2)) <$> map_to_list (inner (w_store (world s))).
Definition answer (s : System (Chain := SampleChain) (H := nat) (S := InMemoryTaskStore)) (i : nat) : option A2AResponse :=
  match procs s !! i with Some (_, Return (Answered r)) => Some r | _ => None end.

(** [n] turns of the process [i]. *)
Definition turns (i n : nat) : list SysChoice := replicate n (Turn i).

(** A send alone: the task is created, the worker answers, and the permit is back. *)
Example send_completes :
  (fun s => (statuses s, in_flight (world s), resp_result <$> answer s 0)) <$>
    sample_run (server Echo) (turns 0 7 ++ turns 1 9) (sample_start (server Echo) (empty_world 2) [as_ann send]) =
  Some ([("task-0", Completed)], 2%N,
        Some (Some (TaskBody (A2ATask.with_owner "ann" (A2ATask.new "task-0" (user "hello")))))).
Proof. vm_compute. reflexivity. Qed.

(** ** Races *)

(** A cancel between the read and the write of a resume is answered, and then overwritten:
    the task goes on and completes. *)
Example resume_revives_cancelled :
  (fun s => (resp_result <$> answer s 1, statuses s)) <$>
    sample_run (server Echo) (turns 0 3 ++ turns 1 4 ++ turns 0 6 ++ turns 2 7)
      (sample_start (server Echo) draft_world [as_ann resume; as_ann cancel]) =
  Some (Some (Some (TaskBody (A2ATask.with_status Cancelled (st_task draft)))), [("draft", Completed)]).
Proof. vm_compute. reflexivity. Qed.

(** A sweep writes back the snapshot it listed: the task that completed meanwhile expires,
    and its result is gone. *)
Definition old_world : SampleWorld :=
  set_now 100 (set_store (mkMemStore {["draft" := set_status Working draft]} 10) (empty_world 1)).

Example sweep_clobbers_completed :
  (fun s => (fun kt => (kt.1, st_status kt.2, output <$> st_result kt.2)) <$> map_to_list (inner (w_store (world s)))) <$>
    sample_run (server Echo) (turns 0 2 ++ turns 1 7 ++ turns 0 2)
      (sample_start (server Echo) old_world [Sweeper 50; Working_on (RunTask Echo "draft" [user "hi"] 0)]) =
  Some [("draft", Expired, None)].
Proof. vm_compute. reflexivity. Qed.

(** A cancel before the worker's signal is registered fires nothing: the chain runs all the
    same. *)
Example cancel_before_signal :
  (fun s => (statuses s, host (world s))) <$>
    sample_run (server Echo) (turns 0 5 ++ turns 1 4 ++ turns 0 4 ++ turns 2 5)
      (sample_start (server Echo) draft_world [as_ann resume; as_ann cancel]) =
  Some ([("draft", Cancelled)], 1).
Proof. vm_compute. reflexivity. Qed.

(** A message id whose task is gone is not reclaimed: the next send goes on without it, and
    a retry of that one runs the chain again. *)
Definition retried : A2ARequest := A2ARequest.with_message_id "m1" send.
Definition evicted_world : SampleWorld := set_message_ids (mkIdTable {["m1" := "gone"]} ["m1"]) (empty_world 2).

Example evicted_id_runs_twice :
  (fun s => (statuses s, in_flight (world s), id_map (message_ids (world s)))) <$>
    sample_run (server Echo) (turns 0 12 ++ turns 1 10)
      (sample_start (server Echo) evicted_world [as_ann retried; as_ann retried]) =
  Some ([("task-1", Submitted); ("task-0", Submitted)], 0%N, {["m1" := "task-1"]}).
Proof. vm_compute. reflexivity. Qed.

(** The exception of [answers_owned]: between the read and the swap of ann's cancel bob claims
    the open task with a workflow of the same id, which completes, and ann is shown it. *)
Definition open_world : SampleWorld :=
  set_store (mkMemStore {["draft" := StoredTask.new 0 (A2ATask.new "draft" (user "open"))]} 10) (empty_world 2).
Definition claim : A2ARequest := A2ARequest.run_workflow 4 (mkWorkflow (Some "draft") None []).

Example cancel_shows_other_owner :
  (fun s => resp_result <$> answer s 0) <$>
    sample_run (server Echo) (turns 0 1 ++ turns 1 4 ++ turns 2 5 ++ turns 0 3)
      (sample_start (server Echo) open_world [as_ann cancel; as_bob claim]) =
  Some (Some (Some (TaskBody (A2ATask.with_owner "bob" (A2ATask.with_status Completed (A2ATask.new "draft" (user "workflow: unnamed"))))))).
Proof. vm_compute. reflexivity. Qed.

(** ** The properties, applied *)

Lemma sample_uuid_draft n : sample_uuid n <> "draft".
Proof. done. Qed.

Lemma draft_keyed : keyed (inner (w_store draft_world)).
Proof.
  intros k t Ht. change (({["draft" := draft]} : gmap string StoredTask) !! k = Some t) in Ht. by apply lookup_singleton_Some in Ht as [<- <-].
Qed.

Lemma task_lifecycle_witness :
  let schedule := Arrive cancel (Some "tok-ann") :: turns 1 4 ++ turns 0 7 ++ turns 2 9 in
  let first := sample_start (server Echo) draft_world [as_ann send] in
  is_Some (sample_run (server Echo) schedule first) /\
  forall s, sample_run (server Echo) schedule first = Some s ->
    match inner (w_store draft_world) !! "draft", inner (w_store (world s)) !! "draft" with
    | Some t, Some t' =>
        rtc (fun a b => can_transition_to a b = true) (st_status t) (st_status t') /\
        (is_terminal (st_status t) = true -> t' = t)
    | None, Some _ => False
    | _, None => True
    end.
Proof.
  intros schedule first. split; [vm_compute; by eexists|]. intros s.
  apply (task_lifecycle sample_output sample_uuid sample_size (server Echo) inner "draft" eq_refl draft_world [as_ann send] schedule).
  - split; [exact draft_keyed|]. intros n _. apply sample_uuid_draft.
  - repeat constructor; simpl; (discriminate || by intros [|]).
  - repeat constructor; simpl; (discriminate || by intros [|]).
Defined.

Lemma inflight_bounded_witness :
  let schedule := turns 0 7 ++ turns 1 3 ++ Arrive send (Some "tok-bob") :: turns 2 1 in
  let first := sample_start (server Echo) (empty_world 1) [as_ann send] in
  (fun s => (in_flight (world s), busy s, resp_error <$> answer s 2)) <$> sample_run (server Echo) schedule first =
    Some (0%N, 1, Some (Some (mkErrorData 429 "too many in-flight tasks; try again"))) /\
  forall s, sample_run (server Echo) schedule first = Some s ->
    (in_flight (world s) + N.of_nat (busy s) <= 1)%N /\
    (Forall (fun op => ended op = true) (procs s) -> in_flight (world s) = 1%N).
Proof.
  intros schedule first. split; [by vm_compute|]. intros s.
  exact (inflight_bounded sample_output sample_uuid sample_size (server Echo) (empty_world 1) [as_ann send] schedule s
           eq_refl (ltac:(by repeat constructor))).
Defined.

Lemma server_drains_witness :
  let schedule := turns 0 7 ++ turns 1 3 in
  let first := sample_start (server Broken) (empty_world 1) [as_ann send] in
  is_Some (sample_run (server Broken) schedule first) /\
  forall s, sample_run (server Broken) schedule first = Some s ->
    Acc (turn sample_output sample_uuid sample_size (server Broken)) s /\
    ((forall s', ~ turn sample_output sample_uuid sample_size (server Broken) s' s) ->
     Forall (fun op => ended op = true) (procs s) /\ in_flight (world s) = 1%N).
Proof.
  intros schedule first. split; [vm_compute; by eexists|]. intros s.
  exact (server_drains sample_output sample_uuid sample_size (server Broken) (empty_world 1) [as_ann send] schedule s
           eq_refl (ltac:(by repeat constructor))).
Defined.

Lemma answers_owned_witness :
  let schedule := turns 0 1 ++ turns 1 4 ++ turns 2 5 ++ turns 0 3 in
  let first := sample_start (server Echo) open_world [as_ann cancel; as_bob claim] in
  exists s r, sample_run (server Echo) schedule first = Some s /\ answer s 0 = Some r /\
    lost_race (server Echo) cancel (Some "ann") r
      (w_store <$> sys_trace sample_output sample_uuid sample_size (server Echo) schedule first).
Proof.
  intros schedule first. destruct (sample_run (server Echo) schedule first) as [s|] eqn:Hr; [|by vm_compute in Hr].
  assert (exists r, answer s 0 = Some r /\ (Handler cancel (Some "tok-ann"), Return (Answered r)) ∈ procs s) as (r & Ha & Hin).
  { vm_compute in Hr. injection Hr as <-. eexists. split; [by vm_compute|]. vm_compute. left. }
  exists s, r. split; [done|]. split; [done|].
  pose proof (answers_owned sample_output sample_uuid sample_size (server Echo) open_world [as_ann cancel; as_bob claim] schedule
    s cancel (Some "tok-ann") r Hr Hin) as [Hown|[_ Hlost]]; [exfalso|exact Hlost].
  vm_compute in Hr. injection Hr as <-. vm_compute in Ha. injection Ha as <-. vm_compute in Hown.
  by inversion_clear Hown.
Defined.

Definition three_tasks : SampleWorld :=
  set_store (mkMemStore (list_to_map ((fun id => (id, StoredTask.new 0 (A2ATask.new id (user "hi")))) <$> ["c"; "a"; "b"])) 10)
            (empty_world 1).
Definition two_a_page : A2ARequest := A2ARequest.new 6 "tasks/list" (Some (JObject {["limit" := JNumber (PosInt 2)]})).

Lemma pages_enumerate_witness :
  keyed (inner (w_store three_tasks)) /\
  option_map (map (map t_id)) (enumerate (server Echo) 4 two_a_page None three_tasks) = Some [["a"; "b"]; ["c"]] /\
  exists pages lastp, enumerate (server Echo) 4 two_a_page None three_tasks = Some (pages ++ [lastp]) /\
    concat pages ++ lastp ≡ₚ selected TaskFilter.new None three_tasks /\ Forall (fun p => length p = 2) pages.
Proof.
  assert (keyed (inner (w_store three_tasks))) as Hk.
  { intros k t Ht. apply elem_of_list_to_map_2, list_elem_of_fmap in Ht as (id & [= -> ->] & _). done. }
  split; [exact Hk|]. split; [by vm_compute|].
  destruct (pages_enumerate map_to_list (fun m => reflexivity _) (server Echo) eq_refl eq_refl two_a_page TaskFilter.new None
              three_tasks Hk eq_refl eq_refl) as [_ (pages & lastp & He & Hp & _ & _ & Hall & _)].
  by exists pages, lastp.
Defined.
