(* ===== verification/McpProtocol.v ===== *)
(** * The model context protocol ([crates/lc-mcp/src/{protocol,types,logging,subscriptions,sampling}.rs])

    JSON-RPC messages and errors, the negotiation of versions, multi-round-trip exchanges,
    tool definitions and results, the providers a server may be given, log levels, the
    registry of resource subscriptions and the guard of nested sampling calls.  Values are
    encoded to JSON as the derived [Serialize] instances do.  A [usize] has 64 bits and its
    atomic operations wrap. *)

From stdpp Require Import gmap strings list pretty.
From Stdlib Require Import Ascii SpecFloat.
From S2P Require Import Prelude Json Process AgentTypes.

(** ** Strings *)

(** The UTF-8 encodings of the characters with the [White_Space] property. *)
Definition bytes (l : list nat) : string := foldr (fun n s => String (ascii_of_nat n) s) "" l.
Definition white_space : list string :=
  bytes <$> ((fun n => [n]) <$> [9; 10; 11; 12; 13; 32]) ++ [[194; 133]; [194; 160]; [225; 154; 128]] ++
  ((fun n => [226; 128; n]) <$> seq 128 11 ++ [168; 169; 175]) ++ [[226; 129; 159]; [227; 128; 128]].

Definition strip_white (s : string) : option string :=
  foldr (fun w found => match strip_prefix w s with Some rest => Some rest | None => found end) None white_space.

Fixpoint drop_white (fuel : nat) (s : string) : string :=
  match fuel, strip_white s with
  | S fuel, Some rest => drop_white fuel rest
  | _, _ => s
  end.

(** [str::trim_start], [trim_end] and [trim]. *)
Definition trim_start (s : string) : string := drop_white (String.length s) s.
Fixpoint trim_end (s : string) : string :=
  match s with
  | EmptyString => ""
  | String c rest => if trim_start s =ₛ "" then "" else String c (trim_end rest)
  end.
Definition trim (s : string) : string := trim_end (trim_start s).

Definition quote : string := String "034"%char "".

(** [json!] objects *)
Definition object (fields : list (string * JsonValue)) : JsonValue := JObject (list_to_map fields).
Definition json_nat (n : N) : JsonValue := JNumber (PosInt n).

(** A field of a struct that is left out when absent. *)
Definition optional {A} (key : string) (to_json : A -> JsonValue) (o : option A) : list (string * JsonValue) :=
  match o with Some a => [(key, to_json a)] | None => [] end.

(** ** Versions and errors ([protocol.rs]) *)

Definition MCP_VERSION : string := "2024-11-05".
Definition MCP_VERSION_STATELESS : string := "2026-07-28".
Definition SUPPORTED_PROTOCOL_VERSIONS : list string := [MCP_VERSION_STATELESS; MCP_VERSION].

Definition MCP_ERROR_UNAUTHORIZED : Z := -32001.
Definition MCP_ERROR_REQUEST_TIMEOUT : Z := -32004.
Definition MCP_ERROR_VERSION_UNSUPPORTED : Z := -32005.
Definition MCP_ERROR_SESSION_LOST : Z := -32006.

Record MCPError := mkMcpError { e_code : Z; e_message : string; e_data : option JsonValue }.

Module MCPError.
Definition new (code : Z) (message : string) : MCPError := mkMcpError code message None.
Definition method_not_found : MCPError := new (-32601) "Method not found".
Definition invalid_params (msg : string) : MCPError := new (-32602) msg.
Definition connection_lost : MCPError := new (-32000) "MCP connection lost".
Definition is_connection_lost (self : MCPError) : bool := Z.eqb (e_code self) (-32000).
Definition session_lost : MCPError := new MCP_ERROR_SESSION_LOST "MCP Streamable HTTP session lost: re-initialize required".
Definition is_session_lost (self : MCPError) : bool := Z.eqb (e_code self) MCP_ERROR_SESSION_LOST.
Definition to_string (self : MCPError) : string := "MCP Error [" +:+ pretty (e_code self) +:+ "]: " +:+ e_message self.
End MCPError.

Inductive VersionPolicy : Type := Degrade | Reject.

Record ProtocolInfo := mkProtocolInfo {
  requested : string;
  server_version : string;
  negotiated : string;
  supported : bool;
}.

(** The debug form of the support list. *)
Definition debug_strings (l : list string) : string :=
  "[" +:+ str_join ", " ((fun s => quote +:+ s +:+ quote) <$> l) +:+ "]".

Definition negotiate_protocol_version (server_version : string) (policy : VersionPolicy) : result MCPError (string * bool) :=
  if bool_decide (server_version ∈ SUPPORTED_PROTOCOL_VERSIONS) then Ok (server_version, true)
  else match policy with
       | Degrade => Ok (MCP_VERSION, false)
       | Reject => Err (MCPError.new MCP_ERROR_VERSION_UNSUPPORTED
           ("MCP server negotiated unsupported protocol version '" +:+ server_version +:+ "' (supported: " +:+
            debug_strings SUPPORTED_PROTOCOL_VERSIONS +:+ ")"))
       end.

Definition notification_message (method : string) (params : option JsonValue) : JsonValue :=
  let message := object [("jsonrpc", JString "2.0"); ("method", JString method)] in
  match params with Some params => json_insert "params" params message | None => message end.

(** ** Requests and responses *)

Record ClientIdentity := mkClientIdentity { ci_name : string; ci_version : string }.

Record RequestMeta := mkRequestMeta {
  protocol_version : string;
  client_info : ClientIdentity;
  meta_capabilities : option JsonValue;
  request_state : option string;
}.

Module RequestMeta.
Definition default_for (version : string) : RequestMeta :=
  mkRequestMeta version (mkClientIdentity "langchainrust-mcp-client" "0.22.0") None None.
Definition with_request_state (request_state : string) (self : RequestMeta) : RequestMeta :=
  mkRequestMeta (protocol_version self) (client_info self) (meta_capabilities self) (Some request_state).
End RequestMeta.

Inductive JsonRpcId : Type :=
| IdNumber (n : N)
| IdString (s : string).

Global Instance JsonRpcId_eq_dec : EqDecision JsonRpcId.
Proof. solve_decision. Defined.
Global Instance JsonRpcId_countable : Countable JsonRpcId.
Proof.
  refine (inj_countable' (fun id => match id with IdNumber n => inl n | IdString s => inr s end)
            (fun x => match x with inl n => IdNumber n | inr s => IdString s end) _).
  by intros [].
Defined.

Module JsonRpcId.
Definition as_u64 (self : JsonRpcId) : option N := match self with IdNumber n => Some n | IdString _ => None end.
Definition as_str (self : JsonRpcId) : option string := match self with IdString s => Some s | IdNumber _ => None end.
(** [From<i32>] casts, which sign-extends. *)
Definition from_i32 (n : Z) : JsonRpcId := IdNumber (Z.to_N (n mod 2 ^ 64)).
Definition to_string (self : JsonRpcId) : string := match self with IdNumber n => pretty n | IdString s => s end.
Definition to_json (self : JsonRpcId) : JsonValue := match self with IdNumber n => json_nat n | IdString s => JString s end.
End JsonRpcId.

Record MCPRequest := mkMcpRequest {
  rq_jsonrpc : string;
  rq_id : JsonRpcId;
  rq_method : string;
  rq_params : option JsonValue;
  rq_meta : option RequestMeta;
}.

Module MCPRequest.
Definition new (id : JsonRpcId) (method : string) (params : option JsonValue) : MCPRequest :=
  mkMcpRequest "2.0" id method params None.
Definition new_stateless (id : JsonRpcId) (method : string) (params : option JsonValue) (meta : RequestMeta) : MCPRequest :=
  mkMcpRequest "2.0" id method params (Some meta).
End MCPRequest.

Record MCPResponse := mkMcpResponse {
  rs_jsonrpc : string;
  rs_id : option JsonRpcId;
  rs_result : option JsonValue;
  rs_error : option MCPError;
}.

Module MCPResponse.
Definition is_error (self : MCPResponse) : bool := match rs_error self with Some _ => true | None => false end.
Definition into_result (self : MCPResponse) : result MCPError JsonValue :=
  match rs_error self with Some err => Err err | None => Ok (default JNull (rs_result self)) end.
End MCPResponse.

(** ** Multi-round-trip exchanges *)

Record MrtrQuestion := mkMrtrQuestion { q_id : string; q_prompt : string }.
Record InputRequired := mkInputRequired { ir_request_state : string; ir_questions : list MrtrQuestion }.
Record MrtrAnswer := mkMrtrAnswer { a_id : string; a_value : string }.

Inductive MrtrRoundTripState : Type := Pending | AwaitingInput | Resolved.

Definition mrtr_can_transition_to (self next : MrtrRoundTripState) : bool :=
  match self, next with
  | Pending, AwaitingInput | Pending, Resolved | AwaitingInput, Pending | AwaitingInput, Resolved => true
  | _, _ => false
  end.

Record MrtrRoundTrip := mkMrtrRoundTrip { mrtr_state : MrtrRoundTripState; mrtr_request_state : option string }.

(** Each transition answers whether it was taken. *)
Module MrtrRoundTrip.
Definition new : MrtrRoundTrip := mkMrtrRoundTrip Pending None.
Definition required_input (request_state : string) (self : MrtrRoundTrip) : bool * MrtrRoundTrip :=
  if mrtr_can_transition_to (mrtr_state self) AwaitingInput
  then (true, mkMrtrRoundTrip AwaitingInput (Some request_state)) else (false, self).
Definition resend (self : MrtrRoundTrip) : bool * MrtrRoundTrip :=
  if mrtr_can_transition_to (mrtr_state self) Pending
  then (true, mkMrtrRoundTrip Pending (mrtr_request_state self)) else (false, self).
Definition resolve (self : MrtrRoundTrip) : bool * MrtrRoundTrip :=
  if mrtr_can_transition_to (mrtr_state self) Resolved
  then (true, mkMrtrRoundTrip Resolved (mrtr_request_state self)) else (false, self).
End MrtrRoundTrip.

(** ** Tools and their results ([types.rs]) *)

Record MCPToolDefinition := mkToolDefinition { td_name : string; td_description : string; td_input_schema : JsonValue }.

Definition tool_definition_to_json (d : MCPToolDefinition) : JsonValue :=
  object [("name", JString (td_name d)); ("description", JString (td_description d)); ("inputSchema", td_input_schema d)].

Record ListToolsResult := mkListToolsResult { lt_tools : list MCPToolDefinition; lt_next_cursor : option string }.

Inductive MCPContent : Type :=
| TextContent (text : string)
| ImageContent (data mime_type : string)
| ResourceLink (uri name : string).

Definition content_to_json (c : MCPContent) : JsonValue :=
  match c with
  | TextContent text => object [("type", JString "text"); ("text", JString text)]
  | ImageContent data mime_type => object [("type", JString "image"); ("data", JString data); ("mimeType", JString mime_type)]
  | ResourceLink uri name => object [("type", JString "resource"); ("uri", JString uri); ("name", JString name)]
  end.

Record MCPToolResult := mkToolResult { tr_content : list MCPContent; tr_is_error : bool }.

Definition tool_result_to_json (r : MCPToolResult) : JsonValue :=
  object [("content", JArray (content_to_json <$> tr_content r)); ("isError", JBool (tr_is_error r))].

Module MCPContent.
Definition as_text (self : MCPContent) : option string := match self with TextContent text => Some text | _ => None end.
Definition render_text (self : MCPContent) : string :=
  match self with
  | TextContent text => text
  | ImageContent _ mime_type => "[image: " +:+ mime_type +:+ " (base64 数据已省略)]"
  | ResourceLink uri name => "[resource: " +:+ name +:+ " (" +:+ uri +:+ ")]"
  end.
End MCPContent.

Definition tool_result_text (self : MCPToolResult) : string := str_join newline (MCPContent.render_text <$> tr_content self).

(** ** Resources, prompts, completion, tasks ([resources.rs], [prompts.rs], [completion.rs], [tasks.rs]) *)

Record Resource := mkResource { rc_uri : string; rc_name : string; rc_description : option string; rc_mime_type : option string }.
Record ResourceContent := mkResourceContent {
  rcc_uri : string; rcc_mime_type : option string; rcc_text : option string; rcc_blob : option string }.
Record ListResourcesResult := mkListResourcesResult { lr_resources : list Resource; lr_next_cursor : option string }.

Definition resource_to_json (r : Resource) : JsonValue :=
  object ([("uri", JString (rc_uri r)); ("name", JString (rc_name r))] ++
          optional "description" JString (rc_description r) ++ optional "mimeType" JString (rc_mime_type r)).
Definition resource_content_to_json (c : ResourceContent) : JsonValue :=
  object ([("uri", JString (rcc_uri c))] ++ optional "mimeType" JString (rcc_mime_type c) ++
          optional "text" JString (rcc_text c) ++ optional "blob" JString (rcc_blob c)).
Definition list_resources_to_json (r : ListResourcesResult) : JsonValue :=
  object ([("resources", JArray (resource_to_json <$> lr_resources r))] ++ optional "nextCursor" JString (lr_next_cursor r)).
Definition read_resource_to_json (contents : list ResourceContent) : JsonValue :=
  object [("contents", JArray (resource_content_to_json <$> contents))].

Record PromptArgument := mkPromptArgument { pa_name : string; pa_description : option string; pa_required : bool }.
Record Prompt := mkPrompt { p_name : string; p_description : option string; p_arguments : list PromptArgument }.
Inductive PromptContent : Type :=
| PromptText (text : string)
| PromptImage (data mime_type : string)
| PromptResource (uri name : string).
Record PromptMessage := mkPromptMessage { pm_role : string; pm_content : PromptContent }.
Record ListPromptsResult := mkListPromptsResult { lp_prompts : list Prompt; lp_next_cursor : option string }.
Record GetPromptResult := mkGetPromptResult { gp_description : option string; gp_messages : list PromptMessage }.

Definition prompt_argument_to_json (a : PromptArgument) : JsonValue :=
  object ([("name", JString (pa_name a))] ++ optional "description" JString (pa_description a) ++ [("required", JBool (pa_required a))]).
Definition prompt_to_json (p : Prompt) : JsonValue :=
  object ([("name", JString (p_name p))] ++ optional "description" JString (p_description p) ++
          [("arguments", JArray (prompt_argument_to_json <$> p_arguments p))]).
(** The tag is [type]; the fields keep their names. *)
Definition prompt_content_to_json (c : PromptContent) : JsonValue :=
  match c with
  | PromptText text => object [("type", JString "text"); ("text", JString text)]
  | PromptImage data mime_type => object [("type", JString "image"); ("data", JString data); ("mime_type", JString mime_type)]
  | PromptResource uri name => object [("type", JString "resource"); ("uri", JString uri); ("name", JString name)]
  end.
Definition prompt_message_to_json (m : PromptMessage) : JsonValue :=
  object [("role", JString (pm_role m)); ("content", prompt_content_to_json (pm_content m))].
Definition list_prompts_to_json (r : ListPromptsResult) : JsonValue :=
  object ([("prompts", JArray (prompt_to_json <$> lp_prompts r))] ++ optional "nextCursor" JString (lp_next_cursor r)).
Definition get_prompt_to_json (r : GetPromptResult) : JsonValue :=
  object (optional "description" JString (gp_description r) ++ [("messages", JArray (prompt_message_to_json <$> gp_messages r))]).

Record CompletionRef := mkCompletionRef { ref_type : string; ref_uri : string }.
Record CompletionArgument := mkCompletionArgument { ca_name : string; ca_value : string }.
Record CompletionRequest := mkCompletionRequest { cr_reference : CompletionRef; cr_argument : CompletionArgument }.
Record CompletionValue := mkCompletionValue { cv_label : string; cv_description : option string }.
Record CompletionResult := mkCompletionResult { cs_values : list CompletionValue; cs_total : option N; cs_has_more : bool }.

Definition completion_value_to_json (v : CompletionValue) : JsonValue :=
  object ([("label", JString (cv_label v))] ++ optional "description" JString (cv_description v)).
Definition completion_to_json (r : CompletionResult) : JsonValue :=
  object [("values", JArray (completion_value_to_json <$> cs_values r));
          ("total", match cs_total r with Some n => json_nat n | None => JNull end);
          ("hasMore", JBool (cs_has_more r))].

Inductive TaskState : Type := TaskQueued | TaskRunning | TaskCompleted | TaskFailed | TaskCancelled.
Record TaskStatus := mkTaskStatus { ts_state : TaskState; ts_reason : option string; ts_extensions : option JsonValue }.
Record ShippingLabel := mkShippingLabel { sl_method : string; sl_protocol_version : string }.
Record TaskResponse := mkTaskResponse {
  task_id : string;
  task_title : string;
  task_status : TaskStatus;
  task_kind : string;
  task_shipping_label : ShippingLabel;
  task_last_updated : option string;
  task_restorable : bool;
  task_runner_choice : option string;
  task_scheduled_for_time : option string;
  task_extensions : option JsonValue;
}.

Definition task_state_to_string (s : TaskState) : string :=
  match s with
  | TaskQueued => "queued" | TaskRunning => "running" | TaskCompleted => "completed"
  | TaskFailed => "failed" | TaskCancelled => "cancelled"
  end.
Definition task_status_to_json (s : TaskStatus) : JsonValue :=
  object ([("state", JString (task_state_to_string (ts_state s)))] ++ optional "reason" JString (ts_reason s) ++
          optional "extensions" id (ts_extensions s)).
Definition task_to_json (t : TaskResponse) : JsonValue :=
  object ([("id", JString (task_id t)); ("title", JString (task_title t)); ("status", task_status_to_json (task_status t));
           ("type", JString (task_kind t));
           ("shipping_label", object [("method", JString (sl_method (task_shipping_label t)));
                                      ("protocol_version", JString (sl_protocol_version (task_shipping_label t)))])] ++
          optional "last_updated" JString (task_last_updated t) ++ [("restorable", JBool (task_restorable t))] ++
          optional "runner_choice" JString (task_runner_choice t) ++
          optional "scheduled_for_time" JString (task_scheduled_for_time t) ++
          optional "extensions" id (task_extensions t)).

(** What a server may be given, over the host's state.  A provider acts in one step. *)
Section providers.
Context {H : Type}.
Notation Provides A := (H -> result MCPError A * H).

Record ResourceProvider := mkResourceProvider {
  list_resources_page : option string -> Provides ListResourcesResult;
  read_resource : string -> Provides (list ResourceContent);
}.
Record PromptProvider := mkPromptProvider {
  list_prompts_page : option string -> Provides ListPromptsResult;
  get_prompt : string -> option JsonValue -> Provides GetPromptResult;
}.
Definition CompletionProvider : Type := CompletionRequest -> Provides CompletionResult.
Record TaskProvider := mkTaskProvider {
  get_task : string -> Provides TaskResponse;
  cancel_task : string -> Provides bool;
}.

(** The default bodies of the traits. *)
Definition default_list_resources_page (list_resources : Provides (list Resource)) (_ : option string) :
    Provides ListResourcesResult := fun h =>
  let '(r, h) := list_resources h in (resources ← r; Ok (mkListResourcesResult resources None), h).
Definition default_list_prompts_page (list_prompts : Provides (list Prompt)) (_ : option string) :
    Provides ListPromptsResult := fun h =>
  let '(r, h) := list_prompts h in (prompts ← r; Ok (mkListPromptsResult prompts None), h).
Definition default_cancel_task (_ : string) : Provides bool := fun h => (Err MCPError.method_not_found, h).
End providers.
Arguments ResourceProvider : clear implicits.
Arguments PromptProvider : clear implicits.
Arguments CompletionProvider : clear implicits.
Arguments TaskProvider : clear implicits.

(** ** Logging ([logging.rs]) *)

Definition LOGGING_SETLEVEL : string := "logging/setLevel".
Definition NOTIFICATIONS_MESSAGE : string := "notifications/message".

Inductive LogLevel : Type := Trace | Debug | Info | Notice | Warning | Error | Critical | Alert | Emergency.

Module LogLevel.
(** The discriminants *)
Definition as_u8 (self : LogLevel) : N :=
  match self with
  | Trace => 0 | Debug => 1 | Info => 2 | Notice => 3 | Warning => 4 | Error => 5 | Critical => 6 | Alert => 7 | Emergency => 8
  end.
Definition from_u8 (n : N) : option LogLevel :=
  match n with
  | 0 => Some Trace | 1 => Some Debug | 2 => Some Info | 3 => Some Notice | 4 => Some Warning
  | 5 => Some Error | 6 => Some Critical | 7 => Some Alert | 8 => Some Emergency | _ => None
  end%N.
Definition as_str (self : LogLevel) : string :=
  match self with
  | Trace => "trace" | Debug => "debug" | Info => "info" | Notice => "notice" | Warning => "warning"
  | Error => "error" | Critical => "critical" | Alert => "alert" | Emergency => "emergency"
  end.
Definition from_name (name : string) : option LogLevel :=
  if decide (name = "trace") then Some Trace
  else if decide (name = "debug") then Some Debug
  else if decide (name = "info") then Some Info
  else if decide (name = "notice") then Some Notice
  else if decide (name = "warning") then Some Warning
  else if decide (name = "error") then Some Error
  else if decide (name = "critical") then Some Critical
  else if decide (name = "alert") then Some Alert
  else if decide (name = "emergency") then Some Emergency
  else None.
Definition passes (self : LogLevel) (threshold : option LogLevel) : bool :=
  match threshold with None => true | Some t => (as_u8 t <=? as_u8 self)%N end.
Definition to_json (self : LogLevel) : JsonValue := json_nat (as_u8 self).
(** The number is cast to a byte before it is looked up. *)
Definition of_json (unexpected : JsonValue -> string) (v : JsonValue) : result string LogLevel :=
  match v with
  | JNumber (PosInt n) => ok_or (from_u8 (n mod 256)) ("invalid log level number " +:+ pretty n)
  | JString s => ok_or (from_name s) ("invalid log level '" +:+ s +:+ "'")
  | v => Err (unexpected v)
  end.
End LogLevel.

Record SetLevelParams := mkSetLevelParams { level : LogLevel; logger_name : option string }.

Definition message_envelope (level : LogLevel) (logger : option string) (data : JsonValue) : JsonValue :=
  let params := object [("level", LogLevel.to_json level); ("data", data)] in
  let params := match logger with Some logger => json_insert "logger" (JString logger) params | None => params end in
  notification_message NOTIFICATIONS_MESSAGE (Some params).

Definition parse_level (unexpected : JsonValue -> string) (value : JsonValue) : result MCPError LogLevel :=
  map_err (fun e => MCPError.invalid_params ("invalid logging level: " +:+ e)) (LogLevel.of_json unexpected value).

(** ** Resource subscriptions ([subscriptions.rs]) *)

Definition RESOURCES_SUBSCRIBE : string := "resources/subscribe".
Definition RESOURCES_UNSUBSCRIBE : string := "resources/unsubscribe".
Definition NOTIFICATIONS_RESOURCES_LIST_CHANGED : string := "notifications/resources/list_changed".
Definition NOTIFICATIONS_RESOURCES_UPDATED : string := "notifications/resources/updated".
Definition MAX_SUBSCRIPTIONS : N := 1000 * 1000.
Definition MCP_ERROR_RESOURCE_LIMIT : Z := -32011.

(** Every method runs under the lock of the map. *)
Definition ResourceSubscriptions : Type := gmap string (gset string).

Module ResourceSubscriptions.
Definition new : ResourceSubscriptions := ∅.

Definition is_subscribed (uri subscriber : string) (self : ResourceSubscriptions) : bool :=
  match self !! uri with Some set => bool_decide (subscriber ∈ set) | None => false end.
Definition in_registry (self : ResourceSubscriptions) : nat := sum_list ((fun kv => size kv.2) <$> map_to_list self).

Definition subscribe_limited (uri subscriber : string) (max_subscriptions : N) (self : ResourceSubscriptions) :
    result MCPError () * ResourceSubscriptions :=
  let uri := trim uri in
  if uri =ₛ "" then (Err (MCPError.invalid_params "resources/subscribe uri must not be empty"), self)
  else if negb (is_subscribed uri subscriber self) && (max_subscriptions <=? N.of_nat (in_registry self))%N
  then (Err (MCPError.new MCP_ERROR_RESOURCE_LIMIT
          ("resources/subscribe refused: registry full (" +:+ pretty max_subscriptions +:+ " subscriptions)")), self)
  else (Ok (), <[uri := {[subscriber]} ∪ default ∅ (self !! uri)]> self).
Definition subscribe (uri subscriber : string) (self : ResourceSubscriptions) : result MCPError () * ResourceSubscriptions :=
  subscribe_limited uri subscriber MAX_SUBSCRIPTIONS self.

Definition unsubscribe (uri subscriber : string) (self : ResourceSubscriptions) : result MCPError () * ResourceSubscriptions :=
  (Ok (), match self !! trim uri with
          | Some set =>
              let set := set ∖ {[subscriber]} in
              if bool_decide (set = ∅) then delete (trim uri) self else <[trim uri := set]> self
          | None => self
          end).

Definition unsubscribe_all (subscriber : string) (self : ResourceSubscriptions) : ResourceSubscriptions :=
  filter (fun kv => kv.2 <> ∅) ((fun set => set ∖ {[subscriber]}) <$> self).

(** In the order of the hash set, which is a parameter. *)
Definition subscribers_of (order : gset string -> list string) (uri : string) (self : ResourceSubscriptions) : list string :=
  match self !! uri with Some set => order set | None => [] end.
Definition is_watched (uri : string) (self : ResourceSubscriptions) : bool :=
  match self !! uri with Some set => negb (bool_decide (set = ∅)) | None => false end.
Definition emit (notification uri : string) (self : ResourceSubscriptions) : option JsonValue :=
  if is_watched uri self then Some (notification_message notification (Some (object [("uri", JString uri)]))) else None.
Definition emit_list_changed (uri : string) (self : ResourceSubscriptions) : option JsonValue :=
  emit NOTIFICATIONS_RESOURCES_LIST_CHANGED uri self.
Definition emit_updated (uri : string) (self : ResourceSubscriptions) : option JsonValue :=
  emit NOTIFICATIONS_RESOURCES_UPDATED uri self.
End ResourceSubscriptions.

(** ** Sampling ([sampling.rs], [elicitation.rs]) *)

Inductive SamplingContent : Type :=
| SamplingText (text : string)
| SamplingImage (data mime_type : string).
Inductive SamplingRole : Type := SamplingUser | SamplingAssistant.
Record SamplingMessage := mkSamplingMessage { sm_role : SamplingRole; sm_content : SamplingContent }.
Record ModelPreferences := mkModelPreferences {
  cost_priority : option spec_float;
  speed_priority : option spec_float;
  intelligence_priority : option spec_float;
  hints : option (list (option string));
}.
Record SamplingRequest := mkSamplingRequest {
  sr_messages : list SamplingMessage;
  sr_max_tokens : N;
  sr_system_prompt : option string;
  sr_model_preferences : option ModelPreferences;
  sr_temperature : option spec_float;
  sr_stop_sequences : option (list string);
  sr_include_context : option JsonValue;
  sr_metadata : option JsonValue;
}.
Record SamplingResult := mkSamplingResult {
  sp_role : SamplingRole;
  sp_content : SamplingContent;
  sp_model : option string;
  sp_stop_reason : option string;
}.

Record ElicitationRequest := mkElicitationRequest { el_message : string; el_schema : option JsonValue }.
Inductive ElicitationAction : Type := Accept | Decline | Cancel.
Record ElicitationResponse := mkElicitationResponse { el_action : ElicitationAction; el_content : option JsonValue }.

Inductive SamplingGuardError : Type :=
| TooDeep (depth max_depth : N)
| TokenBudgetExceeded (tokens_used total_budget : N)
| GuardTimeout.

Definition guard_error_to_string (e : SamplingGuardError) : string :=
  match e with
  | TooDeep depth max_depth => "Sampling recursion depth " +:+ pretty depth +:+ " exceeds limit " +:+ pretty max_depth
  | TokenBudgetExceeded tokens_used total_budget =>
      "Sampling cumulative tokens " +:+ pretty tokens_used +:+ " exceed total budget " +:+ pretty total_budget
  | GuardTimeout => "Sampling exceeds the total duration limit (timeout)"
  end.

(** The limits of a guard; its counters, and the clock, are what its callers share. *)
Record SamplingGuard := mkSamplingGuard { max_depth : N; total_token_budget : N; deadline : option N }.
Record GuardWorld := mkGuardWorld { depth : N; tokens_used : N; g_now : N }.

Definition wrap (n : N) : N := (n mod 2 ^ 64)%N.

Module SamplingGuard.
Definition new (max_depth total_token_budget : N) : SamplingGuard :=
  mkSamplingGuard (N.max max_depth 1) total_token_budget None.
Definition with_timeout (now total_timeout : N) (self : SamplingGuard) : SamplingGuard :=
  mkSamplingGuard (max_depth self) (total_token_budget self) (Some (now + total_timeout)%N).
Definition with_deadline (deadline : N) (self : SamplingGuard) : SamplingGuard :=
  mkSamplingGuard (max_depth self) (total_token_budget self) (Some deadline).
(** The counters of a new guard. *)
Definition start (now : N) : GuardWorld := mkGuardWorld 0 0 now.

Notation P := (Proc GuardWorld).

(** [fetch_add] and [fetch_sub] answer the old value and wrap. *)
Definition add_depth : P N := call (fun w => (depth w, mkGuardWorld (wrap (depth w + 1)) (tokens_used w) (g_now w))).
Definition sub_depth : P N := call (fun w => (depth w, mkGuardWorld (wrap (depth w + (2 ^ 64 - 1))) (tokens_used w) (g_now w))).
Definition add_tokens (n : N) : P N :=
  call (fun w => (tokens_used w, mkGuardWorld (depth w) (wrap (tokens_used w + n)) (g_now w))).
Definition sub_tokens (n : N) : P N :=
  call (fun w => (tokens_used w, mkGuardWorld (depth w) (wrap (tokens_used w + (2 ^ 64 - n))) (g_now w))).

(** The sums [+ 1] and [+ request_tokens] wrap as in a release build. *)
Definition enter (self : SamplingGuard) (request_tokens : N) : P (result SamplingGuardError ()) :=
  expired ← match deadline self with
            | Some deadline => call (fun w => ((deadline <=? g_now w)%N, w))
            | None => mret false
            end;
  match expired with
  | true => mret (Err GuardTimeout)
  | false =>
      before ← add_depth;
      let depth := wrap (before + 1) in
      if (max_depth self <? depth)%N then sub_depth ;; mret (Err (TooDeep depth (max_depth self)))
      else
        before ← add_tokens request_tokens;
        let used := wrap (before + request_tokens) in
        if (total_token_budget self <? used)%N
        then sub_tokens request_tokens ;; sub_depth ;; mret (Err (TokenBudgetExceeded used (total_token_budget self)))
        else mret (Ok ())
  end.

(** The drop of a lease. *)
Definition release : P () := sub_depth ;; mret ().

Definition release_tokens (n : N) : P N :=
  tell (fun w => mkGuardWorld (depth w) (tokens_used w - n) (g_now w)) ;; call (fun w => (tokens_used w, w)).
Definition reset_budget : P N :=
  tell (fun w => mkGuardWorld (depth w) 0 (g_now w)) ;; call (fun w => (tokens_used w, w)).
End SamplingGuard.

(** ** Nested sampling calls *)

(** A caller of the guard: entering, inside with a lease, refused, or gone. *)
Inductive Caller : Type :=
| Entering (p : Proc GuardWorld (result SamplingGuardError ()))
| Inside
| Refused (e : SamplingGuardError)
| Gone.

Definition arrived (p : Proc GuardWorld (result SamplingGuardError ())) : Caller :=
  match p with Return (Ok _) => Inside | Return (Err e) => Refused e | Await k => Entering (Await k) end.

Record GuardSystem := mkGuardSystem { g_world : GuardWorld; callers : list (N * Caller) }.

Inductive GuardChoice : Type :=
| Enter (request_tokens : N)
| Step (i : nat)
| Leave (i : nat)
| Wait (d : N).

Definition guard_step (g : SamplingGuard) (choice : GuardChoice) (s : GuardSystem) : option GuardSystem :=
  match choice with
  | Enter n => Some (mkGuardSystem (g_world s) (callers s ++ [(n, arrived (SamplingGuard.enter g n))]))
  | Step i =>
      match callers s !! i with
      | Some (n, Entering (Await k)) =>
          let '(p, w) := k (g_world s) in Some (mkGuardSystem w (<[i := (n, arrived p)]> (callers s)))
      | _ => None
      end
  | Leave i =>
      match callers s !! i with
      | Some (n, Inside) =>
          let '(_, w) := Process.run SamplingGuard.release (g_world s) in Some (mkGuardSystem w (<[i := (n, Gone)]> (callers s)))
      | _ => None
      end
  | Wait d =>
      Some (mkGuardSystem (mkGuardWorld (depth (g_world s)) (tokens_used (g_world s)) (g_now (g_world s) + d)) (callers s))
  end.

Fixpoint guard_run (g : SamplingGuard) (schedule : list GuardChoice) (s : GuardSystem) : option GuardSystem :=
  match schedule with
  | [] => Some s
  | choice :: schedule => s ← guard_step g choice s; guard_run g schedule s
  end.

(** The sum of [f] over a list. *)
Definition total {A} (f : A -> N) (l : list A) : N := foldr (fun a n => f a + n)%N 0%N l.

Lemma amount_app {A} (f : A -> N) l1 l2 : total f (l1 ++ l2) = (total f l1 + total f l2)%N.
Proof. induction l1 as [|a l1 IH]; simpl; [done|]. unfold total in *. simpl. rewrite IH. lia. Qed.

Lemma amount_insert {A} (f : A -> N) l i x y : l !! i = Some x -> (total f (<[i := y]> l) + f x = total f l + f y)%N.
Proof.
  revert i. induction l as [|a l IH]; intros [|i] Hi; simplify_eq/=; unfold total in *; simpl; [lia|].
  specialize (IH i Hi). lia.
Qed.

Lemma total_le {A B} (f : A -> N) (g : B -> N) (l : list A) (l' : list B) :
  Forall2 (fun a b => f a <= g b)%N l l' -> (total f l <= total g l')%N.
Proof. induction 1; unfold total in *; simpl; lia. Qed.

(** Leaving one element out. *)
Lemma total_le_but {A B} (f : A -> N) (g : B -> N) (l : list A) (l' : list B) i a b :
  Forall2 (fun a b => f a <= g b)%N l l' -> l !! i = Some a -> l' !! i = Some b -> (total f l + g b <= total g l' + f a)%N.
Proof.
  intros Hl. revert i. induction Hl as [|x y l l' Hxy Hl IH]; intros [|i] Ha Hb; simplify_eq/=; unfold total in *; simpl.
  - pose proof (total_le f g l l' Hl). unfold total in *. lia.
  - specialize (IH i Ha Hb). lia.
Qed.

Section guard.
Context (g : SamplingGuard).

(** What a caller has taken from the counters. *)
Inductive Claim : Type :=
| Outside
| TooMany
| Deep
| Charged (n : N)
| Refunded
| LetIn (n : N)
| Spent (n : N).

Definition level_of (c : Claim) : N := match c with Outside | Spent _ => 0 | _ => 1 end.
Definition spent_of (c : Claim) : N := match c with Charged n | LetIn n | Spent n => n | _ => 0 end.
Definition deep_of (c : Claim) : N := match c with Deep | Charged _ | Refunded | LetIn _ => 1 | _ => 0 end.
Definition kept_of (c : Claim) : N := match c with LetIn n | Spent n => n | _ => 0 end.

(** One step of a caller that asks for [n] tokens, when the others hold [D] levels and [T]
    tokens. *)
Definition moves (n : N) (c : Claim) (w w' : GuardWorld) (c' : Claim) : Prop :=
  (spent_of c' <= n)%N /\
  forall D T, depth w = (D + level_of c)%N -> tokens_used w = (T + spent_of c)%N -> (D + 1 < 2 ^ 64)%N -> (T + n < 2 ^ 64)%N ->
    depth w' = (D + level_of c')%N /\ tokens_used w' = (T + spent_of c')%N /\
    (deep_of c' = deep_of c \/ deep_of c' = 0 \/ D + 1 <= max_depth g)%N /\
    (kept_of c' = kept_of c \/ T + kept_of c' <= total_token_budget g)%N.
Notation Θ n := (tracks (fun _ => True) (moves n)).

Lemma wrap_small n : (n < 2 ^ 64)%N -> wrap n = n.
Proof. intros Hn. unfold wrap. by apply N.mod_small. Qed.

Lemma wrap_sub n m : (n < 2 ^ 64)%N -> (m < 2 ^ 64)%N -> wrap (n + m + (2 ^ 64 - m)) = n.
Proof.
  intros Hn Hm. unfold wrap. replace (n + m + (2 ^ 64 - m))%N with (n + 1 * 2 ^ 64)%N by lia.
  rewrite N.Div0.mod_add. by apply N.mod_small.
Qed.

Definition claim_depth (before : N) : Claim := if (max_depth g <? wrap (before + 1))%N then TooMany else Deep.
Definition claim_tokens (n before : N) : Claim := if (total_token_budget g <? wrap (before + n))%N then Charged n else LetIn n.

Lemma moves_add_depth n : Θ n (fun before c => c = claim_depth before) Outside SamplingGuard.add_depth.
Proof.
  apply tracks_call. intros w _. eexists. split; [|done]. unfold claim_depth. simpl. split; [case_match; simpl; lia|].
  intros D T Hd Ht HD HT. simpl in *. rewrite Hd N.add_0_r wrap_small //. split_and!; [case_match; simpl; lia|case_match; simpl; lia| |left; by case_match].
  destruct (N.ltb_spec (max_depth g) (D + 1)); [left; done|]. right. right. lia.
Qed.

Lemma moves_sub_depth n c c' : level_of c = 1%N -> level_of c' = 0%N -> spent_of c' = spent_of c -> kept_of c' = kept_of c ->
  deep_of c' = 0%N -> (spent_of c <= n)%N -> Θ n (fun _ c => c = c') c SamplingGuard.sub_depth.
Proof.
  intros Hl Hl' Hs Hk Hd Hn. apply tracks_call. intros w _. eexists. split; [|done]. split; [lia|].
  intros D T HD HT Hmax Hsum. simpl. rewrite HD Hl Hl' Hs N.add_0_r. split_and!; [apply (wrap_sub D 1); lia|done|lia|by left].
Qed.

Lemma moves_add_tokens n : Θ n (fun before c => c = claim_tokens n before) Deep (SamplingGuard.add_tokens n).
Proof.
  apply tracks_call. intros w _. eexists. split; [|done]. unfold claim_tokens. simpl. split; [case_match; simpl; lia|].
  intros D T Hd Ht HD HT. simpl in *. rewrite Ht N.add_0_r wrap_small //.
  split_and!; [by case_match|by case_match|left; by case_match|].
  destruct (N.ltb_spec (total_token_budget g) (T + n)); [by left|]. right. simpl. lia.
Qed.

Lemma moves_sub_tokens n : Θ n (fun _ c => c = Refunded) (Charged n) (SamplingGuard.sub_tokens n).
Proof.
  apply tracks_call. intros w _. eexists. split; [|done]. split; [simpl; lia|].
  intros D T Hd Ht HD HT. simpl in *. rewrite Ht wrap_sub; [|lia..]. split_and!; [done|lia|by left|by left].
Qed.

(** Where a caller is left that has its answer. *)
Definition answered (n : N) (r : result SamplingGuardError ()) (c : Claim) : Prop :=
  c = match r with Ok _ => LetIn n | Err _ => Outside end.

Lemma enter_moves n : Θ n (answered n) Outside (SamplingGuard.enter g n).
Proof.
  unfold SamplingGuard.enter. eapply (tracks_bind _ _ (fun _ c => c = Outside)).
  { destruct (deadline g); [|done]. apply tracks_call. intros w _. eexists. split; [|done]. split; [simpl; lia|].
    intros D T Hd Ht _ _. split_and!; [done|done|by left|by left]. }
  intros [|] c ->; [done|]. eapply tracks_bind; [apply moves_add_depth|]. intros before c ->. unfold claim_depth.
  destruct (max_depth g <? wrap (before + 1))%N.
  - eapply tracks_bind; [by apply (moves_sub_depth n TooMany Outside); try done; simpl; lia|]. by intros _ c ->.
  - eapply tracks_bind; [apply moves_add_tokens|]. intros used c ->. unfold claim_tokens.
    destruct (total_token_budget g <? wrap (used + n))%N; [|done].
    eapply tracks_bind; [apply moves_sub_tokens|]. intros _ c ->.
    eapply tracks_bind; [by apply (moves_sub_depth n Refunded Outside); try done; simpl; lia|]. by intros _ c ->.
Qed.

Definition claims (caller : N * Caller) (c : Claim) : Prop :=
  (spent_of c <= caller.1)%N /\
  match caller.2 with
  | Entering p => Θ caller.1 (answered caller.1) c p
  | Inside => c = LetIn caller.1
  | Refused _ => c = Outside
  | Gone => c = Spent caller.1
  end.

Definition counted (s : GuardSystem) : Prop := exists cs,
  Forall2 claims (callers s) cs /\
  depth (g_world s) = total level_of cs /\ tokens_used (g_world s) = total spent_of cs /\
  (total deep_of cs <= max_depth g)%N /\ (total kept_of cs <= total_token_budget g)%N.

Definition fits_words (s : GuardSystem) : Prop :=
  (N.of_nat (length (callers s)) < 2 ^ 64)%N /\ (total fst (callers s) < 2 ^ 64)%N.

Lemma total_length cs : (total level_of cs <= N.of_nat (length cs))%N.
Proof. induction cs as [|c cs IH]; unfold total in *; simpl; [lia|]. destruct c; simpl; lia. Qed.

(** Without the caller [i], at most one level less than there are callers is taken, and no more
    tokens than the others ask for. *)
Lemma others_hold s cs i n caller c : Forall2 claims (callers s) cs -> fits_words s ->
  callers s !! i = Some (n, caller) -> cs !! i = Some c ->
  (total level_of cs - level_of c + 1 < 2 ^ 64)%N /\ (total spent_of cs - spent_of c + n < 2 ^ 64)%N /\
  (level_of c <= total level_of cs)%N /\ (spent_of c <= total spent_of cs)%N /\
  (total deep_of cs - deep_of c <= total level_of cs - level_of c)%N /\
  (total kept_of cs - kept_of c <= total spent_of cs - spent_of c)%N.
Proof.
  intros Hcs [Hlen Hsum] Hi Hc.
  pose proof (amount_insert level_of cs i c Outside Hc) as H1. pose proof (amount_insert spent_of cs i c Outside Hc) as H2.
  pose proof (total_length (<[i := Outside]> cs)) as H3. rewrite length_insert in H3. pose proof (Forall2_length _ _ _ Hcs) as H4.
  assert (Forall2 (fun c (caller : N * Caller) => spent_of c <= caller.1)%N cs (callers s)) as H5.
  { apply Forall2_flip. eapply Forall2_impl; [exact Hcs|]. by intros [] ? []. }
  pose proof (total_le_but _ _ _ _ _ _ _ H5 Hc Hi) as H6. simpl in H6.
  assert (forall cs : list Claim, Forall2 (fun c c' => deep_of c <= level_of c')%N cs cs) as H7
    by (intros l; induction l as [|[] l IH]; constructor; done).
  assert (forall cs : list Claim, Forall2 (fun c c' => kept_of c <= spent_of c')%N cs cs) as H8
    by (intros l; induction l as [|[] l IH]; constructor; simpl; try done; lia).
  pose proof (total_le_but _ _ _ _ _ _ _ (H7 cs) Hc Hc). pose proof (total_le_but _ _ _ _ _ _ _ (H8 cs) Hc Hc).
  assert (N.of_nat (length cs) >= 1)%N by (apply lookup_lt_Some in Hc; lia).
  assert (level_of c <= total level_of cs)%N by (simpl in H1; lia).
  assert (total level_of cs - level_of c + 1 <= N.of_nat (length cs))%N.
  { destruct (decide (level_of c = 1%N)) as [E|E]; [pose proof (total_length cs); lia|].
    assert (level_of c = 0%N) as E0 by (destruct c; done). rewrite E0.
    clear -Hc E0. revert i Hc. induction cs as [|x cs IH]; intros [|i] Hc; simplify_eq/=.
    - pose proof (total_length cs). unfold total in *. simpl. lia.
    - specialize (IH i Hc). unfold total in *. simpl. destruct x; simpl; lia. }
  simpl in *. split_and!; lia.
Qed.

Lemma counted_move s cs i n caller c w' caller' c' : Forall2 claims (callers s) cs -> fits_words s ->
  depth (g_world s) = total level_of cs -> tokens_used (g_world s) = total spent_of cs ->
  (total deep_of cs <= max_depth g)%N -> (total kept_of cs <= total_token_budget g)%N ->
  callers s !! i = Some (n, caller) -> cs !! i = Some c ->
  moves n c (g_world s) w' c' -> claims (n, caller') c' -> counted (mkGuardSystem w' (<[i := (n, caller')]> (callers s))).
Proof.
  intros Hcs Hw Hd Ht Hdeep Hkept Hi Hc [_ Hm] Hc'. destruct (others_hold _ _ _ _ _ _ Hcs Hw Hi Hc) as (H1 & H2 & H3 & H4 & H5 & H6).
  destruct (Hm (total level_of cs - level_of c) (total spent_of cs - spent_of c))%N as (Hd' & Ht' & Hdp & Hk); [lia..|].
  pose proof (amount_insert level_of cs i c c' Hc). pose proof (amount_insert spent_of cs i c c' Hc).
  pose proof (amount_insert deep_of cs i c c' Hc). pose proof (amount_insert kept_of cs i c c' Hc).
  assert (deep_of c' <= 1)%N by (destruct c'; simpl; lia).
  exists (<[i := c']> cs). simpl. split_and!; [by apply Forall2_insert|lia..].
Qed.

Lemma arrived_claims n (p : Proc GuardWorld (result SamplingGuardError ())) c :
  (spent_of c <= n)%N -> Θ n (answered n) c p -> claims (n, arrived p) c.
Proof. intros Hs Hp. split; [done|]. by destruct p as [[[]|e]|k]. Qed.

Lemma counted_step choice s s' : counted s -> fits_words s -> guard_step g choice s = Some s' -> counted s'.
Proof.
  intros (cs & Hcs & Hd & Ht & Hdeep & Hkept) Hw Hs. destruct choice as [n|i|i|d]; simplify_eq/=.
  - exists (cs ++ [Outside]). simpl. rewrite !amount_app. unfold total at 2 4 6 8. simpl. rewrite !N.add_0_r. split_and!; [|done..].
    apply Forall2_app; [done|]. constructor; [|done]. apply arrived_claims; [simpl; lia|apply enter_moves].
  - destruct (callers s !! i) as [[n [[|k]| | |]]|] eqn:Hi; try done. destruct (Forall2_lookup_l _ _ _ _ _ Hcs Hi) as (c & Hc & Hn & Hk).
    destruct (tracks_step _ _ _ _ _ (g_world s) Hk Logic.I) as (c' & Hm & Hk'). destruct (k (g_world s)) as [p w'] eqn:Ek. simplify_eq/=.
    eapply counted_move; try done. apply arrived_claims; [by destruct Hm|done].
  - destruct (callers s !! i) as [[n [p| | |]]|] eqn:Hi; try done. destruct (Forall2_lookup_l _ _ _ _ _ Hcs Hi) as (c & Hc & Hn & Hk).
    simplify_eq/=. eapply (counted_move s cs i n Inside (LetIn n) _ Gone (Spent n)); try done.
    destruct (tracks_step _ _ _ _ _ (g_world s) (moves_sub_depth n (LetIn n) (Spent n) eq_refl eq_refl eq_refl eq_refl eq_refl Hn) Logic.I)
      as (c' & Hm & ->). exact Hm.
  - exists cs. by split_and!.
Qed.

(** The callers that hold a lease, and the tokens of those that were let in. *)
Definition inside (s : GuardSystem) : N := total (fun c : N * Caller => match c.2 with Inside => 1%N | _ => 0%N end) (callers s).
Definition granted (s : GuardSystem) : N := total (fun c : N * Caller => match c.2 with Inside | Gone => c.1 | _ => 0%N end) (callers s).
Definition settled (c : Caller) : bool := match c with Entering _ => false | _ => true end.

Lemma guard_words schedule s s' : guard_run g schedule s = Some s' -> fits_words s' -> fits_words s.
Proof.
  revert s. induction schedule as [|choice schedule IH]; intros s Hr Hw; simplify_eq/=; [done|].
  destruct (guard_step g choice s) as [s1|] eqn:E; [|done]. destruct (IH _ Hr Hw) as [Hl Ht]. clear IH Hr Hw.
  destruct choice as [n|i|i|d]; simplify_eq/=.
  - rewrite length_app in Hl. rewrite amount_app in Ht. split; lia.
  - destruct (callers s !! i) as [[n [[|k]| | |]]|] eqn:Hi; try done. destruct (k (g_world s)). simplify_eq/=.
    rewrite length_insert in Hl. pose proof (amount_insert fst _ i _ (n, arrived p) Hi). split; simpl in *; lia.
  - destruct (callers s !! i) as [[n [p| | |]]|] eqn:Hi; try done. simplify_eq/=.
    rewrite length_insert in Hl. pose proof (amount_insert fst _ i _ (n, Gone) Hi). split; simpl in *; lia.
  - done.
Qed.

Lemma counted_run schedule s s' : counted s -> guard_run g schedule s = Some s' -> fits_words s' -> counted s'.
Proof.
  revert s. induction schedule as [|choice schedule IH]; intros s Hs Hr Hw; [by simplify_eq/=|].
  pose proof (guard_words (choice :: schedule) s s' Hr Hw) as Hs0. simpl in Hr.
  destruct (guard_step g choice s) as [s1|] eqn:E; [|done]. eapply IH; [|done..]. by eapply counted_step.
Qed.

(** C25: However sampling calls enter and leave at the same time, as long as their number and
    the tokens they ask for stay below [2 ^ 64] in all ([budget_overflow_admits] is what happens
    beyond) and nobody releases tokens or resets the budget ([release_race_wraps]), the guard
    never lets more than [max_depth] be inside, nor grants more tokens than the budget over the
    whole chain; and once every caller has its answer the counters are exactly what was let in,
    so a refused call has consumed nothing. *)
Theorem sampling_bounded schedule now s :
  guard_run g schedule (mkGuardSystem (SamplingGuard.start now) []) = Some s ->
  (N.of_nat (length (callers s)) < 2 ^ 64)%N -> (total fst (callers s) < 2 ^ 64)%N ->
  (inside s <= max_depth g)%N /\ (granted s <= total_token_budget g)%N /\
  (Forall (fun c => settled c.2 = true) (callers s) ->
   depth (g_world s) = inside s /\ tokens_used (g_world s) = granted s).
Proof.
  intros Hr Hl Ht. assert (counted s) as (cs & Hcs & Hd & Htk & Hdeep & Hkept).
  { eapply counted_run; [|done|by split]. exists []. unfold total. simpl. split_and!; [constructor|done|done|lia..]. }
  unfold inside, granted. split_and!.
  - etrans; [|exact Hdeep]. apply total_le. eapply Forall2_impl; [exact Hcs|]. intros [n []] c [_ Hc]; simpl in *; subst; simpl; lia.
  - etrans; [|exact Hkept]. apply total_le. eapply Forall2_impl; [exact Hcs|]. intros [n []] c [_ Hc]; simpl in *; subst; simpl; lia.
  - intros Hall. rewrite Hd Htk. clear -Hcs Hall. induction Hcs as [|[n caller] c l cs [_ Hc] Hcs IH]; [done|].
    apply Forall_cons in Hall as [Hn Hall]. destruct (IH Hall) as [IH1 IH2]. unfold total in *. simpl in *. rewrite IH1 IH2.
    by destruct caller; simpl in *; subst.
Qed.
End guard.

(** ** Subscriptions *)

(** The registrations of a registry. *)
Definition pair_list (m : ResourceSubscriptions) : list (string * string) :=
  map_to_list m ≫= fun kv => (fun s => (kv.1, s)) <$> elements kv.2.
Definition pairs (m : ResourceSubscriptions) : gset (string * string) := list_to_set (pair_list m).

(** A uri that nobody watches has no entry. *)
Definition trimmed (m : ResourceSubscriptions) : Prop := forall uri set, m !! uri = Some set -> set <> ∅.

Lemma elem_of_pairs m uri s : (uri, s) ∈ pairs m <-> ResourceSubscriptions.is_subscribed uri s m = true.
Proof.
  unfold pairs, pair_list, ResourceSubscriptions.is_subscribed. rewrite elem_of_list_to_set list_elem_of_bind. split.
  - intros ([uri' set] & (x & [= -> ->] & Hx)%list_elem_of_fmap & Hin%elem_of_map_to_list). simpl in *.
    rewrite Hin. apply bool_decide_eq_true. by apply elem_of_elements.
  - destruct (m !! uri) as [set|] eqn:E; [|done]. intros Hs%bool_decide_eq_true. exists (uri, set). split; [|by apply elem_of_map_to_list].
    apply list_elem_of_fmap. exists s. split; [done|]. by apply elem_of_elements.
Qed.

Lemma NoDup_pair_list (l : list (string * gset string)) :
  NoDup l.*1 -> NoDup (l ≫= fun kv => (fun s => (kv.1, s)) <$> elements kv.2).
Proof.
  induction l as [|[uri set] l IH]; intros Hnd; [constructor|]. cbn in *. apply NoDup_cons in Hnd as [Hni Hnd].
  apply NoDup_app. split_and!; [|intros x|by apply IH].
  - apply NoDup_fmap; [by intros ? ? [=]|apply NoDup_elements].
  - intros (s & -> & _)%list_elem_of_fmap ([uri' set'] & (s' & [= -> ->] & _)%list_elem_of_fmap & Hin)%list_elem_of_bind.
    apply Hni, list_elem_of_fmap. by exists (uri', set').
Qed.

Lemma size_pairs m : size (pairs m) = ResourceSubscriptions.in_registry m.
Proof.
  unfold pairs, pair_list, ResourceSubscriptions.in_registry. rewrite size_list_to_set.
  - induction (map_to_list m) as [|[uri set] l IH]; [done|]. cbn. by rewrite length_app length_fmap IH.
  - apply NoDup_pair_list, NoDup_fst_map_to_list.
Qed.

(** What a client of the registry does. *)
Inductive SubOp : Type :=
| Subscribe (uri subscriber : string)
| Unsubscribe (uri subscriber : string)
| UnsubscribeAll (subscriber : string)
| IsSubscribed (uri subscriber : string)
| EmitChanged (uri : string)
| Subscribers (uri : string).

Inductive SubReply : Type :=
| Replied (r : result MCPError ())
| Told (b : bool)
| Envelopes (envelope : option JsonValue)
| Listed (l : gset string).

Definition registry_step (cap : N) (order : gset string -> list string) (op : SubOp) (m : ResourceSubscriptions) :
    SubReply * ResourceSubscriptions :=
  match op with
  | Subscribe uri s => let '(r, m) := ResourceSubscriptions.subscribe_limited uri s cap m in (Replied r, m)
  | Unsubscribe uri s => let '(r, m) := ResourceSubscriptions.unsubscribe uri s m in (Replied r, m)
  | UnsubscribeAll s => (Replied (Ok ()), ResourceSubscriptions.unsubscribe_all s m)
  | IsSubscribed uri s => (Told (ResourceSubscriptions.is_subscribed uri s m), m)
  | EmitChanged uri => (Envelopes (ResourceSubscriptions.emit_list_changed uri m), m)
  | Subscribers uri => (Listed (list_to_set (ResourceSubscriptions.subscribers_of order uri m)), m)
  end.

(** The specification: a set of pairs that holds at most [cap]. *)
Definition watchers (uri : string) (ps : gset (string * string)) : gset string :=
  list_to_set (snd <$> filter (fun p => p.1 = uri) (elements ps)).

Definition pairs_step (cap : N) (op : SubOp) (ps : gset (string * string)) : SubReply * gset (string * string) :=
  match op with
  | Subscribe uri s =>
      if trim uri =ₛ "" then (Replied (Err (MCPError.invalid_params "resources/subscribe uri must not be empty")), ps)
      else if bool_decide ((trim uri, s) ∉ ps) && (cap <=? N.of_nat (size ps))%N
      then (Replied (Err (MCPError.new MCP_ERROR_RESOURCE_LIMIT
              ("resources/subscribe refused: registry full (" +:+ pretty cap +:+ " subscriptions)"))), ps)
      else (Replied (Ok ()), {[(trim uri, s)]} ∪ ps)
  | Unsubscribe uri s => (Replied (Ok ()), ps ∖ {[(trim uri, s)]})
  | UnsubscribeAll s => (Replied (Ok ()), filter (fun p => p.2 <> s) ps)
  | IsSubscribed uri s => (Told (bool_decide ((uri, s) ∈ ps)), ps)
  | EmitChanged uri =>
      (Envelopes (if bool_decide (watchers uri ps = ∅) then None
                  else Some (notification_message NOTIFICATIONS_RESOURCES_LIST_CHANGED (Some (object [("uri", JString uri)])))), ps)
  | Subscribers uri => (Listed (watchers uri ps), ps)
  end.

Fixpoint steps_of {S : Type} (step : SubOp -> S -> SubReply * S) (ops : list SubOp) (s : S) : list SubReply * S :=
  match ops with
  | [] => ([], s)
  | op :: ops => let '(r, s) := step op s in let '(rs, s) := steps_of step ops s in (r :: rs, s)
  end.

Section subscriptions.
Context (cap : N) (order : gset string -> list string) (Horder : forall X, order X ≡ₚ elements X).

Lemma subscribed_pairs uri s m : ResourceSubscriptions.is_subscribed uri s m = bool_decide ((uri, s) ∈ pairs m).
Proof.
  case_bool_decide as H; [by apply elem_of_pairs in H|]. rewrite elem_of_pairs in H. by destruct (ResourceSubscriptions.is_subscribed _ _ _).
Qed.

Lemma elem_of_watchers uri s ps : s ∈ watchers uri ps <-> (uri, s) ∈ ps.
Proof.
  unfold watchers. rewrite elem_of_list_to_set list_elem_of_fmap. split.
  - intros ([u s'] & -> & [Hu Hin]%list_elem_of_filter). simpl in *. subst. by apply elem_of_elements.
  - intros Hin. exists (uri, s). split; [done|]. apply list_elem_of_filter. split; [done|]. by apply elem_of_elements.
Qed.

Lemma watchers_lookup uri m : watchers uri (pairs m) = default ∅ (m !! uri).
Proof.
  apply set_eq. intros s. rewrite elem_of_watchers elem_of_pairs. unfold ResourceSubscriptions.is_subscribed.
  destruct (m !! uri) as [set|]; simpl; [by rewrite bool_decide_eq_true|]. by set_solver.
Qed.

Lemma pairs_ext m ps : (forall uri s, ResourceSubscriptions.is_subscribed uri s m = true <-> (uri, s) ∈ ps) -> pairs m = ps.
Proof. intros H. apply set_eq. intros [uri s]. rewrite elem_of_pairs. apply H. Qed.

Lemma registry_step_pairs op m : trimmed m ->
  trimmed (registry_step cap order op m).2 /\
  pairs_step cap op (pairs m) = ((registry_step cap order op m).1, pairs (registry_step cap order op m).2).
Proof.
  intros Hm. destruct op as [uri s|uri s|s|uri s|uri|uri]; simpl.
  - unfold ResourceSubscriptions.subscribe_limited. rewrite subscribed_pairs -size_pairs bool_decide_not.
    case_bool_decide as Hu; [by split|]. simpl. destruct (_ && _); [by split|]. simpl. split.
    + intros uri' set [[_ <-]|[_ Hs]]%lookup_insert_Some; [set_solver|by eapply Hm].
    + f_equal. symmetry. apply pairs_ext. intros u x. rewrite elem_of_union elem_of_singleton elem_of_pairs.
      unfold ResourceSubscriptions.is_subscribed. destruct (decide (u = trim uri)) as [->|Hne].
      * rewrite lookup_insert_eq. destruct (m !! trim uri); simpl; rewrite ?bool_decide_eq_true; set_solver.
      * rewrite lookup_insert_ne //. naive_solver.
  - split.
    + intros u set. destruct (m !! trim uri) as [set0|] eqn:E; [|apply Hm]. case_bool_decide as Hs.
      * intros [_ Hx]%lookup_delete_Some. by eapply Hm.
      * intros [[_ <-]|[_ Hx]]%lookup_insert_Some; [done|by eapply Hm].
    + f_equal. symmetry. apply pairs_ext. intros u x. rewrite elem_of_difference elem_of_singleton elem_of_pairs.
      unfold ResourceSubscriptions.is_subscribed. destruct (m !! trim uri) as [set0|] eqn:E;
        [|split; [intros Hx; split; [done|intros [= -> ->]; by rewrite E in Hx]|by intros []]].
      destruct (decide (u = trim uri)) as [->|Hne].
      * rewrite E. case_bool_decide as Hs; [rewrite lookup_delete_eq|rewrite lookup_insert_eq]; rewrite ?bool_decide_eq_true; set_solver.
      * case_bool_decide; [rewrite lookup_delete_ne //|rewrite lookup_insert_ne //]; naive_solver.
  - split.
    + intros u set [_ Hs]%map_lookup_filter_Some. exact Hs.
    + f_equal. symmetry. apply pairs_ext. intros u x. rewrite elem_of_filter elem_of_pairs. unfold ResourceSubscriptions.is_subscribed.
      unfold ResourceSubscriptions.unsubscribe_all. rewrite map_lookup_filter lookup_fmap. unfold ResourceSubscriptions in *.
      destruct (m !! u) as [set|]; simpl; [|by split; [|intros []]]. case_guard; simpl; rewrite ?bool_decide_eq_true; set_solver.
  - by rewrite subscribed_pairs.
  - split; [done|]. rewrite watchers_lookup. unfold ResourceSubscriptions.emit_list_changed, ResourceSubscriptions.emit, ResourceSubscriptions.is_watched.
    destruct (m !! uri) as [set|]; simpl; [by case_bool_decide|done].
  - split; [done|]. rewrite watchers_lookup. unfold ResourceSubscriptions.subscribers_of.
    destruct (m !! uri) as [set|]; simpl; [|done]. by rewrite (Horder set) list_to_set_elements_L.
Qed.

Lemma pairs_capped op ps : (N.of_nat (size ps) <= cap)%N -> (N.of_nat (size (pairs_step cap op ps).2) <= cap)%N.
Proof.
  intros Hp. destruct op as [uri s|uri s|s|uri s|uri|uri]; simpl; try done.
  - case_bool_decide; [done|]. case_bool_decide as Hin; simpl.
    + destruct (N.leb_spec cap (N.of_nat (size ps))); simpl; [done|]. rewrite size_union; [rewrite size_singleton; lia|set_solver].
    + replace ({[(trim uri, s)]} ∪ ps) with ps; [done|]. set_solver.
  - etrans; [|exact Hp]. assert (size (ps ∖ {[(trim uri, s)]}) <= size ps) by (apply subseteq_size; set_solver). lia.
  - etrans; [|exact Hp]. assert (size (filter (fun p : string * string => p.2 <> s) ps) <= size ps) by (apply subseteq_size; set_solver). lia.
Qed.

(** C27: The registry of subscriptions is a set of pairs of a uri and a subscriber that never
    outgrows its limit: any sequence of operations answers as that set does, refusing a new
    pair when it is full, letting go of all pairs of a subscriber that leaves, and keeping no
    entry for a uri that nobody watches. *)
Theorem subscriptions_refine_pairs ops :
  let '(rs, m) := steps_of (registry_step cap order) ops ResourceSubscriptions.new in
  steps_of (pairs_step cap) ops ∅ = (rs, pairs m) /\ trimmed m /\ (N.of_nat (ResourceSubscriptions.in_registry m) <= cap)%N.
Proof.
  assert (forall m, trimmed m -> (N.of_nat (size (pairs m)) <= cap)%N ->
    let '(rs, m') := steps_of (registry_step cap order) ops m in
    steps_of (pairs_step cap) ops (pairs m) = (rs, pairs m') /\ trimmed m' /\ (N.of_nat (size (pairs m')) <= cap)%N) as Hall.
  { induction ops as [|op ops IH]; intros m Hm Hc; [done|]. simpl. destruct (registry_step_pairs op m Hm) as [Hm' Hs].
    pose proof (pairs_capped op _ Hc) as Hc'. rewrite Hs in Hc' |- *. destruct (registry_step cap order op m) as [r m1]. simpl in *.
    specialize (IH m1 Hm' Hc'). destruct (steps_of (registry_step cap order) ops m1) as [rs m2]. destruct IH as [-> IH]. done. }
  specialize (Hall ∅). destruct (steps_of _ ops _) as [rs m]. rewrite -size_pairs. apply Hall; [by intros ? ?|].
  assert (size (pairs ∅) = 0) as -> by reflexivity. lia.
Qed.
End subscriptions.

(** *** At concrete inputs *)

(** Three callers of one guard; the third would exceed the budget. *)
Definition sample_guard : SamplingGuard := SamplingGuard.new 3 100.
Definition sample_calls : list GuardChoice :=
  [Enter 60; Enter 30; Enter 20; Step 0; Step 1; Step 2; Step 2; Step 0; Step 1; Step 1; Step 1; Leave 0].
Definition sample_calls_end : GuardSystem :=
  default (mkGuardSystem (SamplingGuard.start 0) []) (guard_run sample_guard sample_calls (mkGuardSystem (SamplingGuard.start 0) [])).

Lemma sampling_bounded_witness :
  callers sample_calls_end = [(60%N, Gone); (30%N, Refused (TokenBudgetExceeded 110 100)); (20%N, Inside)] /\
  (inside sample_calls_end <= 3)%N /\ (granted sample_calls_end <= 100)%N /\
  depth (g_world sample_calls_end) = 1%N /\ tokens_used (g_world sample_calls_end) = 80%N.
Proof.
  split; [vm_compute; reflexivity|].
  destruct (sampling_bounded sample_guard sample_calls 0 sample_calls_end) as (Hi & Hg & Hs);
    [vm_compute; reflexivity|vm_compute; reflexivity|vm_compute; reflexivity|].
  split; [exact Hi|]. split; [exact Hg|]. apply Hs. vm_compute. repeat constructor.
Defined.

(** A request for nearly all of a [usize] wraps the sum and is let in over the budget. *)
Lemma budget_overflow_admits :
  let '(_, w) := Process.run (SamplingGuard.enter sample_guard 10) (SamplingGuard.start 0) in
  let '(r, w) := Process.run (SamplingGuard.enter sample_guard (2 ^ 64 - 1)) w in
  r = Ok () /\ tokens_used w = 9%N.
Proof. vm_compute. by split. Qed.

(** Tokens released while a refused call has yet to give its own back leave the counter wrapped
    around, and every small call is refused from then on. *)
Lemma release_race_wraps :
  let '(p, w) := steps 2 (SamplingGuard.enter sample_guard 120) (SamplingGuard.start 0) in
  let '(_, w) := Process.run (SamplingGuard.release_tokens 120) w in
  let '(_, w) := Process.run p w in
  tokens_used w = (2 ^ 64 - 120)%N /\
  (Process.run (SamplingGuard.enter sample_guard 1) w).1 = Err (TokenBudgetExceeded (2 ^ 64 - 119) 100).
Proof. vm_compute. by split. Qed.

Lemma subscriptions_refine_pairs_witness :
  (steps_of (pairs_step 2) [Subscribe " file:x " "a"; Subscribe "file:y" "b"; Subscribe "file:z" "c"; EmitChanged "file:x";
                            UnsubscribeAll "a"; Subscribe "file:z" "c"; IsSubscribed "file:x" "a"; EmitChanged "file:x"] ∅).1 =
  [Replied (Ok ()); Replied (Ok ());
   Replied (Err (MCPError.new MCP_ERROR_RESOURCE_LIMIT "resources/subscribe refused: registry full (2 subscriptions)"));
   Envelopes (Some (notification_message NOTIFICATIONS_RESOURCES_LIST_CHANGED (Some (object [("uri", JString "file:x")]))));
   Replied (Ok ()); Replied (Ok ()); Told false; Envelopes None].
Proof.
  pose proof (subscriptions_refine_pairs 2 elements (fun X => Permutation_refl _)
    [Subscribe " file:x " "a"; Subscribe "file:y" "b"; Subscribe "file:z" "c"; EmitChanged "file:x";
     UnsubscribeAll "a"; Subscribe "file:z" "c"; IsSubscribed "file:x" "a"; EmitChanged "file:x"]) as H.
  destruct (steps_of (registry_step 2 elements) _ _) as [rs m] eqn:E. destruct H as [-> _]. simpl.
  apply (f_equal fst) in E. simpl in E. rewrite -E. vm_compute. reflexivity.
Defined.
