(* ===== verification/McpServer.v ===== *)
(** * The tool server ([crates/lc-mcp/src/server.rs])

    Requests and notifications are handled concurrently over one server.  A handler is a
    [Proc] whose calls are its accesses to what is shared; [tools/call] first registers its
    cancellation signal and then waits in [tokio::select!] for the tool, the signal or the
    deadline ([Select], [poll]); [McpSystem] schedules them.  [serve_stdio] handles one
    line after the other ([Stdio]).

    Parameters: tools, which are polled until they answer ([McpHost]), providers and sinks
    over the host's state; serde ([McpWire]); the order of a hash set; the library texts of
    [JsonText].  [tokio::sync::Notify] is written out: one stored permit, waiters in order. *)

From stdpp Require Import gmap strings list pretty.
From Stdlib Require Import Ascii.
From S2P Require Import Prelude Json Process AgentTypes McpProtocol.

(** ** What is outside *)

(** A tool call is a future: it is polled until it answers; [nat] tells the futures apart. *)
Class McpHost (Tool H : Type) := {
  tool_name : Tool -> string;
  tool_description : Tool -> string;
  args_schema : Tool -> option JsonValue;
  tool_poll : Tool -> string -> nat -> H -> option (result ToolError string) * H;
}.

(** A lenient inbound message. *)
Record ServerMessage := mkServerMessage { sv_id : option JsonRpcId; sv_method : string; sv_params : option JsonValue }.

Class McpWire := {
  server_message_of_text : string -> result string ServerMessage;
  completion_request_of_json : JsonValue -> result string CompletionRequest;
  unexpected_level : JsonValue -> string;
  response_to_text : MCPResponse -> string;
}.

(** ** What requests share *)

(** The key of the cancellation table: the session and the request id. *)
Definition Key : Type := option string * JsonRpcId.

(** A pointer to a [Notify]: the entry it was made for, and a serial number. *)
Definition Signal : Type := Key * nat.

(** [tokio::sync::Notify]: a stored permit, the futures that wait for it in the order they
    came, and those that have been woken. *)
Record Notify := mkNotify { permit : bool; waiting : list nat; woken : list nat }.

Record McpWorld (H : Type) := mkMcpWorld {
  cancellations : gmap Key Signal;
  notifies : gmap Signal Notify;
  allocated : nat;
  registry : ResourceSubscriptions;
  log_level : option LogLevel;
  w_now : N;
  host : H;
}.
Arguments mkMcpWorld {H}. Arguments cancellations {H}. Arguments notifies {H}. Arguments allocated {H}.
Arguments registry {H}. Arguments log_level {H}. Arguments w_now {H}. Arguments host {H}.

Section setters.
Context {H : Type}.
Definition set_cancellations (x : gmap Key Signal) (w : McpWorld H) : McpWorld H :=
  mkMcpWorld x (notifies w) (allocated w) (registry w) (log_level w) (w_now w) (host w).
Definition set_notifies (x : gmap Signal Notify) (w : McpWorld H) : McpWorld H :=
  mkMcpWorld (cancellations w) x (allocated w) (registry w) (log_level w) (w_now w) (host w).
Definition set_allocated (x : nat) (w : McpWorld H) : McpWorld H :=
  mkMcpWorld (cancellations w) (notifies w) x (registry w) (log_level w) (w_now w) (host w).
Definition set_registry (x : ResourceSubscriptions) (w : McpWorld H) : McpWorld H :=
  mkMcpWorld (cancellations w) (notifies w) (allocated w) x (log_level w) (w_now w) (host w).
Definition set_log_level (x : option LogLevel) (w : McpWorld H) : McpWorld H :=
  mkMcpWorld (cancellations w) (notifies w) (allocated w) (registry w) x (w_now w) (host w).
Definition set_now (x : N) (w : McpWorld H) : McpWorld H :=
  mkMcpWorld (cancellations w) (notifies w) (allocated w) (registry w) (log_level w) x (host w).
Definition set_host (x : H) (w : McpWorld H) : McpWorld H :=
  mkMcpWorld (cancellations w) (notifies w) (allocated w) (registry w) (log_level w) (w_now w) x.

Definition start_world (now : N) (h : H) : McpWorld H := mkMcpWorld ∅ ∅ 0 ResourceSubscriptions.new None now h.
End setters.

(** ** [Notify] *)

Module Notify.
Definition new : Notify := mkNotify false [] [].

(** Wakes the first waiter, or stores the permit. *)
Definition notify_one (self : Notify) : Notify :=
  match waiting self with
  | c :: waiting => mkNotify (permit self) waiting (c :: woken self)
  | [] => mkNotify true [] (woken self)
  end.

(** The poll of the future [c] of [notified()]: whether it is ready. *)
Definition poll (c : nat) (self : Notify) : bool * Notify :=
  if bool_decide (c ∈ woken self) then (true, mkNotify (permit self) (waiting self) (filter (fun x => x <> c) (woken self)))
  else if bool_decide (c ∈ waiting self) then (false, self)
  else if permit self then (true, mkNotify false (waiting self) (woken self))
  else (false, mkNotify false (waiting self ++ [c]) (woken self)).

(** The future is dropped: a wake-up it did not see goes to the next. *)
Definition drop (c : nat) (self : Notify) : Notify :=
  let rest := mkNotify (permit self) (filter (fun x => x <> c) (waiting self)) (filter (fun x => x <> c) (woken self)) in
  if bool_decide (c ∈ woken self) then notify_one rest else rest.
End Notify.

(** ** Bytes *)

Definition byte_in (lo hi : N) (c : ascii) : bool := let n := N_of_ascii c in ((lo <=? n) && (n <=? hi))%N.
Definition continuation : ascii -> bool := byte_in 128 191.
(** The second byte of a sequence of three or four, by the first. *)
Definition second_of_three (a b : ascii) : bool :=
  if byte_in 224 224 a then byte_in 160 191 b else if byte_in 237 237 a then byte_in 128 159 b else continuation b.
Definition second_of_four (a b : ascii) : bool :=
  if byte_in 240 240 a then byte_in 144 191 b else if byte_in 244 244 a then byte_in 128 143 b else continuation b.
Definition replacement : string := bytes [239; 191; 189].

(** [String::from_utf8_lossy]: each maximal part of an invalid sequence is replaced. *)
Fixpoint from_utf8_lossy (s : string) : string :=
  match s with
  | EmptyString => ""
  | String a s1 =>
      if byte_in 0 127 a then String a (from_utf8_lossy s1)
      else
        match s1 with
        | EmptyString => replacement
        | String b s2 =>
            if byte_in 194 223 a then
              if continuation b then String a (String b (from_utf8_lossy s2)) else replacement +:+ from_utf8_lossy s1
            else if byte_in 224 239 a && second_of_three a b then
              match s2 with
              | EmptyString => replacement
              | String c s3 =>
                  if continuation c then String a (String b (String c (from_utf8_lossy s3)))
                  else replacement +:+ from_utf8_lossy s2
              end
            else if byte_in 240 244 a && second_of_four a b then
              match s2 with
              | EmptyString => replacement
              | String c s3 =>
                  if continuation c then
                    match s3 with
                    | EmptyString => replacement
                    | String d s4 =>
                        if continuation d then String a (String b (String c (String d (from_utf8_lossy s4))))
                        else replacement +:+ from_utf8_lossy s3
                    end
                  else replacement +:+ from_utf8_lossy s2
              end
            else replacement +:+ from_utf8_lossy s1
        end
  end.

(** The place of the first byte [c]. *)
Fixpoint find_byte (c : ascii) (s : string) : option nat :=
  match s with
  | EmptyString => None
  | String d s => if Ascii.eqb c d then Some 0 else S <$> find_byte c s
  end.
Definition linefeed : ascii := "010"%char.
Definition crlf : string := bytes [13; 10].

(** [&s[..n]] and [&s[n..]] *)
Fixpoint str_take (n : nat) (s : string) : string :=
  match n, s with S n, String c s => String c (str_take n s) | _, _ => "" end.
Fixpoint str_drop (n : nat) (s : string) : string :=
  match n, s with S n, String _ s => str_drop n s | _, _ => s end.

(** ** Lines of a stream *)

(** What one read of the stream gives; an empty chunk is its end. *)
Inductive Read : Type :=
| Chunk (s : string)
| ReadError (msg : string).

Definition TOO_LONG (max_bytes : N) : string := "stdio line exceeds " +:+ pretty max_bytes +:+ " bytes".

(** [read_bounded_line] from the buffer and total of the lines above, over the chunks the
    reader still has to give: each is consumed up to the newline, or whole. *)
Fixpoint read_line_from (max_bytes : N) (total : nat) (buf : string) (reads : list Read) : result string (nat * string) * list Read :=
  match reads with
  | [] => (Ok (total, buf), [])
  | ReadError msg :: reads => (Err msg, reads)
  | Chunk available :: reads =>
      if available =ₛ "" then (Ok (total, buf), reads)
      else
        let nl := find_byte linefeed available in
        let consumed := match nl with Some pos => pos + 1 | None => String.length available end in
        let total := total + consumed in
        let left := if consumed =? String.length available then reads else Chunk (str_drop consumed available) :: reads in
        if (max_bytes <? N.of_nat total)%N then (Err (TOO_LONG max_bytes), left)
        else
          let buf := buf +:+ from_utf8_lossy (str_take consumed available) in
          match nl with
          | Some _ => (Ok (total, buf), left)
          | None => read_line_from max_bytes total buf reads
          end
  end.
Definition read_bounded_line (max_bytes : N) (reads : list Read) : result string (nat * string) * list Read :=
  read_line_from max_bytes 0 "" reads.

(** ** The server *)

Definition HTTP_MAX_BODY_BYTES : N := 1024 * 1024.
Definition HTTP_MAX_HEADER_BYTES : N := 64 * 1024.
Definition HTTP_MAX_CONCURRENT_CONNECTIONS : N := 256.
Definition HTTP_READ_TIMEOUT_SECS : N := 30.
Definition TOOL_PAGE_SIZE : N := 100.
Definition MAX_STDIO_LINE_BYTES : N := 8 * 1024 * 1024.

(** The fields that requests only read; [subscriptions] tells whether a registry is
    attached. *)
Record MCPServer (Tool H : Type) := mkMcpServer {
  tools : list Tool;
  server_name : string;
  server_version : string;
  auth_validator : option (string -> H -> bool * H);
  resources : option (ResourceProvider H);
  prompts : option (PromptProvider H);
  completion : option (CompletionProvider H);
  tasks : option (TaskProvider H);
  subscriptions : bool;
  push_sink : option (string -> JsonValue -> H -> H);
  log_sink : option (JsonValue -> H -> H);
  sampling_handler : option (SamplingRequest -> H -> result MCPError SamplingResult * H);
  elicitation_handler : option (ElicitationRequest -> H -> result MCPError ElicitationResponse * H);
  tool_timeout : option N;
}.
Arguments mkMcpServer {Tool H}.
Arguments tools {Tool H}. Arguments server_name {Tool H}. Arguments server_version {Tool H}.
Arguments auth_validator {Tool H}. Arguments resources {Tool H}. Arguments prompts {Tool H}.
Arguments completion {Tool H}. Arguments tasks {Tool H}. Arguments subscriptions {Tool H}. Arguments push_sink {Tool H}.
Arguments log_sink {Tool H}. Arguments sampling_handler {Tool H}. Arguments elicitation_handler {Tool H}.
Arguments tool_timeout {Tool H}.

Module MCPServer.
Section builders.
Context {Tool H : Type}.
Notation S := (MCPServer Tool H).
(** [version] is the version of the crate, from the build. *)
Definition new (version : string) : S :=
  mkMcpServer [] "langchainrust-mcp-server" version None None None None None false None None None None (Some (60 * 1000000000)%N).
Definition with_tool_timeout (timeout : option N) (s : S) : S :=
  mkMcpServer (tools s) (server_name s) (server_version s) (auth_validator s) (resources s) (prompts s) (completion s) (tasks s) (subscriptions s) (push_sink s) (log_sink s) (sampling_handler s) (elicitation_handler s) timeout.
Definition with_token_validator (validator : string -> H -> bool * H) (s : S) : S :=
  mkMcpServer (tools s) (server_name s) (server_version s) (Some validator) (resources s) (prompts s) (completion s) (tasks s) (subscriptions s) (push_sink s) (log_sink s) (sampling_handler s) (elicitation_handler s) (tool_timeout s).
Definition with_tool (tool : Tool) (s : S) : S :=
  mkMcpServer (tools s ++ [tool]) (server_name s) (server_version s) (auth_validator s) (resources s) (prompts s) (completion s) (tasks s) (subscriptions s) (push_sink s) (log_sink s) (sampling_handler s) (elicitation_handler s) (tool_timeout s).
Definition with_server_info (name version : string) (s : S) : S :=
  mkMcpServer (tools s) name version (auth_validator s) (resources s) (prompts s) (completion s) (tasks s) (subscriptions s) (push_sink s) (log_sink s) (sampling_handler s) (elicitation_handler s) (tool_timeout s).
Definition with_resource_provider (provider : ResourceProvider H) (s : S) : S :=
  mkMcpServer (tools s) (server_name s) (server_version s) (auth_validator s) (Some provider) (prompts s) (completion s) (tasks s) (subscriptions s) (push_sink s) (log_sink s) (sampling_handler s) (elicitation_handler s) (tool_timeout s).
Definition with_prompt_provider (provider : PromptProvider H) (s : S) : S :=
  mkMcpServer (tools s) (server_name s) (server_version s) (auth_validator s) (resources s) (Some provider) (completion s) (tasks s) (subscriptions s) (push_sink s) (log_sink s) (sampling_handler s) (elicitation_handler s) (tool_timeout s).
Definition with_task_provider (provider : TaskProvider H) (s : S) : S :=
  mkMcpServer (tools s) (server_name s) (server_version s) (auth_validator s) (resources s) (prompts s) (completion s) (Some provider) (subscriptions s) (push_sink s) (log_sink s) (sampling_handler s) (elicitation_handler s) (tool_timeout s).
Definition with_completion_provider (provider : CompletionProvider H) (s : S) : S :=
  mkMcpServer (tools s) (server_name s) (server_version s) (auth_validator s) (resources s) (prompts s) (Some provider) (tasks s) (subscriptions s) (push_sink s) (log_sink s) (sampling_handler s) (elicitation_handler s) (tool_timeout s).
Definition with_subscription_registry (s : S) : S :=
  mkMcpServer (tools s) (server_name s) (server_version s) (auth_validator s) (resources s) (prompts s) (completion s) (tasks s) true (push_sink s) (log_sink s) (sampling_handler s) (elicitation_handler s) (tool_timeout s).
Definition with_push_sink (sink : string -> JsonValue -> H -> H) (s : S) : S :=
  mkMcpServer (tools s) (server_name s) (server_version s) (auth_validator s) (resources s) (prompts s) (completion s) (tasks s) (subscriptions s) (Some sink) (log_sink s) (sampling_handler s) (elicitation_handler s) (tool_timeout s).
Definition with_log_sink (sink : JsonValue -> H -> H) (s : S) : S :=
  mkMcpServer (tools s) (server_name s) (server_version s) (auth_validator s) (resources s) (prompts s) (completion s) (tasks s) (subscriptions s) (push_sink s) (Some sink) (sampling_handler s) (elicitation_handler s) (tool_timeout s).
Definition with_sampling_handler (handler : SamplingRequest -> H -> result MCPError SamplingResult * H) (s : S) : S :=
  mkMcpServer (tools s) (server_name s) (server_version s) (auth_validator s) (resources s) (prompts s) (completion s) (tasks s) (subscriptions s) (push_sink s) (log_sink s) (Some handler) (elicitation_handler s) (tool_timeout s).
Definition with_elicitation_handler (handler : ElicitationRequest -> H -> result MCPError ElicitationResponse * H) (s : S) : S :=
  mkMcpServer (tools s) (server_name s) (server_version s) (auth_validator s) (resources s) (prompts s) (completion s) (tasks s) (subscriptions s) (push_sink s) (log_sink s) (sampling_handler s) (Some handler) (tool_timeout s).
End builders.
End MCPServer.

(** ** Requests *)

(** A call of a tool in [select!]: the request, the tool and its future, the signal, and
    the timeout with the time it runs out. *)
Record Select {Tool : Type} := mkSelect {
  sel_session : option string;
  sel_id : JsonRpcId;
  sel_tool : Tool;
  sel_name : string;
  sel_input : string;
  sel_future : nat;
  sel_signal : Signal;
  sel_deadline : option (N * N);
}.
Arguments Select : clear implicits.
Arguments mkSelect {Tool}.

Definition sel_key {Tool} (s : Select Tool) : Key := (sel_session s, sel_id s).

Section server.
Context {Tool H : Type} {Hhost : McpHost Tool H} {wire : McpWire} {texts : JsonText}.
Context (order : gset string -> list string) (self : MCPServer Tool H).
Notation W := (McpWorld H).
Notation P := (Proc W).

(** How a handler ends: with an answer, or waiting for a tool. *)
Inductive Outcome : Type :=
| Answered (response : MCPResponse)
| Selects (s : Select Tool)
| Emitted (envelope : option JsonValue)
| Finished.

Definition ok_response (id : JsonRpcId) (result : JsonValue) : MCPResponse := mkMcpResponse "2.0" (Some id) (Some result) None.
Definition error_response (id : JsonRpcId) (error : MCPError) : MCPResponse := mkMcpResponse "2.0" (Some id) None (Some error).
Definition method_not_found_response (id : JsonRpcId) : MCPResponse := error_response id MCPError.method_not_found.
Definition invalid_params_response (id : JsonRpcId) (msg : string) : MCPResponse := error_response id (MCPError.invalid_params msg).

(** The answer to what a provider said. *)
Definition respond {A} (id : JsonRpcId) (to_json : A -> JsonValue) (r : result MCPError A) : MCPResponse :=
  match r with Ok a => ok_response id (to_json a) | Err e => error_response id e end.

(** A call of the host. *)
Definition ask {A} (act : H -> A * H) : P A := call (fun w => let '(a, h) := act (host w) in (a, set_host h w)).

Definition params_of (req : MCPRequest) : JsonValue := default JNull (rq_params req).
Definition param (key : string) (req : MCPRequest) : option string := json_get (params_of req) key ≫= as_str.

Definition tool_definition (tool : Tool) : MCPToolDefinition :=
  mkToolDefinition (tool_name tool) (tool_description tool) (default (object [("type", JString "object")]) (args_schema tool)).

(** *** The handshake *)

Definition capability {A} (key : string) (o : option A) (capabilities : JsonValue) : JsonValue :=
  match o with Some _ => json_insert key (object []) capabilities | None => capabilities end.
Definition capabilities : JsonValue :=
  let c := object [("tools", object [])] in
  let c := capability "resources" (resources self) c in
  let c := capability "prompts" (prompts self) c in
  let c := capability "completion" (completion self) c in
  let c := capability "tasks" (tasks self) c in
  capability "logging" (log_sink self) c.

Definition server_info : JsonValue :=
  object [("name", JString (server_name self)); ("version", JString (server_version self))].

Definition initialize (req : MCPRequest) : MCPResponse :=
  let requested := params ← rq_params req; v ← json_get params "protocolVersion"; as_str v in
  let protocol_version :=
    match requested with
    | Some v => if bool_decide (v ∈ SUPPORTED_PROTOCOL_VERSIONS) then v else MCP_VERSION
    | None => MCP_VERSION
    end in
  ok_response (rq_id req)
    (object [("protocolVersion", JString protocol_version); ("capabilities", capabilities); ("serverInfo", server_info)]).

Definition tool_list : JsonValue := JArray (tool_definition_to_json ∘ tool_definition <$> tools self).

Definition discover (req : MCPRequest) : MCPResponse :=
  ok_response (rq_id req)
    (object [("protocolVersion", JString MCP_VERSION_STATELESS); ("capabilities", capabilities);
             ("serverInfo", server_info); ("tools", tool_list)]).

(** [tools/list]: the offset is clamped before any arithmetic. *)
Definition list_tools (req : MCPRequest) : MCPResponse :=
  let cursor := param "cursor" req in
  let offset := default 0%N (cursor ≫= parse_unsigned 64) in
  let all := tool_definition <$> tools self in
  let len := N.of_nat (length all) in
  let start := N.min offset len in
  let stop := N.min (if start + TOOL_PAGE_SIZE <? 2 ^ 64 then start + TOOL_PAGE_SIZE else 2 ^ 64 - 1)%N len in
  let page := take (N.to_nat (stop - start)) (drop (N.to_nat start) all) in
  let result := object [("tools", JArray (tool_definition_to_json <$> page))] in
  ok_response (rq_id req) (if (stop <? len)%N then json_insert "nextCursor" (JString (pretty stop)) result else result).

(** *** Providers *)

Definition handle_resources_list (req : MCPRequest) : P MCPResponse :=
  match resources self with
  | Some provider =>
      r ← ask (list_resources_page provider (param "cursor" req)); mret (respond (rq_id req) list_resources_to_json r)
  | None => mret (method_not_found_response (rq_id req))
  end.

(** The handlers that need one string parameter. *)
Definition with_param {A} (registered : option A) (key : string) (req : MCPRequest) (go : A -> string -> P MCPResponse) :
    P MCPResponse :=
  match registered with
  | Some provider =>
      match param key req with
      | Some value => go provider value
      | None => mret (invalid_params_response (rq_id req) ("missing " +:+ key +:+ " parameter"))
      end
  | None => mret (method_not_found_response (rq_id req))
  end.

Definition handle_resources_read (req : MCPRequest) : P MCPResponse :=
  with_param (resources self) "uri" req (fun provider uri =>
    r ← ask (read_resource provider uri); mret (respond (rq_id req) read_resource_to_json r)).

Definition handle_prompts_list (req : MCPRequest) : P MCPResponse :=
  match prompts self with
  | Some provider =>
      r ← ask (list_prompts_page provider (param "cursor" req)); mret (respond (rq_id req) list_prompts_to_json r)
  | None => mret (method_not_found_response (rq_id req))
  end.

Definition handle_prompts_get (req : MCPRequest) : P MCPResponse :=
  with_param (prompts self) "name" req (fun provider name =>
    r ← ask (get_prompt provider name (json_get (params_of req) "arguments")); mret (respond (rq_id req) get_prompt_to_json r)).

Definition handle_completion_complete (req : MCPRequest) : P MCPResponse :=
  match completion self with
  | Some provider =>
      match completion_request_of_json (params_of req) with
      | Ok request => r ← ask (provider request); mret (respond (rq_id req) completion_to_json r)
      | Err e => mret (invalid_params_response (rq_id req) ("invalid completion request: " +:+ e))
      end
  | None => mret (method_not_found_response (rq_id req))
  end.

Definition handle_tasks_get (req : MCPRequest) : P MCPResponse :=
  with_param (tasks self) "id" req (fun provider id =>
    r ← ask (get_task provider id); mret (respond (rq_id req) task_to_json r)).

Definition handle_tasks_cancel (req : MCPRequest) : P MCPResponse :=
  with_param (tasks self) "id" req (fun provider id =>
    r ← ask (cancel_task provider id);
    mret (respond (rq_id req) (fun cancelled => object [("cancelled", JBool cancelled)]) r)).

(** *** Subscriptions and logging *)

Definition on_registry {A} (act : ResourceSubscriptions -> A * ResourceSubscriptions) : P A :=
  call (fun w => let '(a, m) := act (registry w) in (a, set_registry m w)).

Definition handle_resource_subscription (session : option string) (req : MCPRequest) (subscribe : bool) : P MCPResponse :=
  with_param (if subscriptions self then Some () else None) "uri" req (fun _ uri =>
    let subscriber := default "default" session in
    r ← on_registry (if subscribe then ResourceSubscriptions.subscribe uri subscriber
                     else ResourceSubscriptions.unsubscribe uri subscriber);
    mret (respond (rq_id req) (fun _ => object []) r)).

Definition handle_logging_set_level (req : MCPRequest) : P MCPResponse :=
  match log_sink self with
  | None => mret (method_not_found_response (rq_id req))
  | Some _ =>
      match json_get (params_of req) "level" with
      | Some v =>
          match parse_level unexpected_level v with
          | Ok level => tell (set_log_level (Some level)) ;; mret (ok_response (rq_id req) (object []))
          | Err e => mret (error_response (rq_id req) e)
          end
      | None => mret (invalid_params_response (rq_id req) "missing level parameter")
      end
  end.

(** [notify_resource_changed] and [notify_resource_updated] *)
Definition deliver_all (sink : string -> JsonValue -> H -> H) (envelope : JsonValue) (subscribers : list string) : P () :=
  tell_all ((fun subscriber w => set_host (sink subscriber envelope (host w)) w) <$> subscribers).

Definition notify_resource (emit : string -> ResourceSubscriptions -> option JsonValue) (uri : string) : P (option JsonValue) :=
  if subscriptions self then
    envelope ← call (fun w => (emit uri (registry w), w));
    match envelope with
    | Some envelope =>
        match push_sink self with
        | Some sink =>
            subscribers ← call (fun w => (ResourceSubscriptions.subscribers_of order uri (registry w), w));
            deliver_all sink envelope subscribers ;;
            mret (Some envelope)
        | None => mret (Some envelope)
        end
    | None => mret None
    end
  else mret None.
Definition notify_resource_changed : string -> P (option JsonValue) := notify_resource ResourceSubscriptions.emit_list_changed.
Definition notify_resource_updated : string -> P (option JsonValue) := notify_resource ResourceSubscriptions.emit_updated.

(** The threshold is locked until the sink has returned. *)
Definition emit_log (level : LogLevel) (logger : option string) (data : JsonValue) : P (option JsonValue) :=
  match log_sink self with
  | None => mret None
  | Some sink =>
      call (fun w =>
        if LogLevel.passes level (log_level w) then
          let envelope := message_envelope level logger data in
          (Some envelope, set_host (sink envelope (host w)) w)
        else (None, w))
  end.

(** *** The host direction *)

Definition create_message (request : SamplingRequest) : P (result MCPError SamplingResult) :=
  match sampling_handler self with
  | Some handler => ask (handler request)
  | None => mret (Err (MCPError.new (-32603)
      "sampling handler not configured: register one via MCPServer::with_sampling_handler() before create_message"))
  end.
Definition create_elicitation (request : ElicitationRequest) : P (result MCPError ElicitationResponse) :=
  match elicitation_handler self with
  | Some handler => ask (handler request)
  | None => mret (Err (MCPError.new (-32603)
      "elicitation handler not configured: register one via MCPServer::with_elicitation_handler() before create_elicitation"))
  end.

(** *** Tool calls *)

(** The entry of the key, made if it is not there, and a future for the call. *)
Definition register (key : Key) : P (Signal * nat * N) :=
  call (fun w =>
    let c := allocated w in
    let w' := set_allocated (S c) w in
    match cancellations w !! key with
    | Some signal => ((signal, c, w_now w), w')
    | None =>
        (((key, c), c, w_now w),
         set_cancellations (<[key := (key, c)]> (cancellations w)) (set_notifies (<[(key, c) := Notify.new]> (notifies w)) w'))
    end).

Definition handle_tools_call (session : option string) (req : MCPRequest) : P Outcome :=
  let arguments := default JNull (json_get (params_of req) "arguments") in
  match param "name" req with
  | None => mret (Answered (invalid_params_response (rq_id req) "missing name parameter"))
  | Some name =>
      match list_find (fun t => tool_name t = name) (tools self) with
      | None => mret (Answered (invalid_params_response (rq_id req) ("unknown tool: " +:+ name)))
      | Some (_, tool) =>
          '(signal, c, now) ← register (session, rq_id req);
          mret (Selects (mkSelect session (rq_id req) tool name (json_to_string arguments) c signal
                           ((fun timeout => (timeout, (now + timeout)%N)) <$> tool_timeout self)))
      end
  end.

Definition tool_output (r : result ToolError string) : MCPToolResult :=
  match r with
  | Ok text => mkToolResult [TextContent text] false
  | Err e => mkToolResult [TextContent (tool_error_to_string e)] true
  end.
Definition cancelled_result : MCPToolResult := mkToolResult [TextContent "cancelled by client"] true.
Definition deadline_result (name : string) (timeout : N) : MCPToolResult :=
  mkToolResult [TextContent ("tool '" +:+ name +:+ "' exceeded its " +:+ debug_duration timeout +:+ " execution deadline")] true.

(** The branches of [select!]. *)
Definition poll_tool (s : Select Tool) (w : W) : option MCPToolResult * W :=
  let '(r, h) := tool_poll (sel_tool s) (sel_input s) (sel_future s) (host w) in (tool_output <$> r, set_host h w).
Definition poll_cancelled (s : Select Tool) (w : W) : option MCPToolResult * W :=
  match notifies w !! sel_signal s with
  | Some notify =>
      let '(ready, notify) := Notify.poll (sel_future s) notify in
      (if ready then Some cancelled_result else None, set_notifies (<[sel_signal s := notify]> (notifies w)) w)
  | None => (None, w)
  end.
Definition poll_deadline (name : string) (timeout at_time : N) (w : W) : option MCPToolResult * W :=
  (if (at_time <=? w_now w)%N then Some (deadline_result name timeout) else None, w).

Definition branches (s : Select Tool) : list (W -> option MCPToolResult * W) :=
  [poll_tool s; poll_cancelled s] ++
  match sel_deadline s with Some (timeout, at_time) => [poll_deadline (sel_name s) timeout at_time] | None => [] end.

Fixpoint first_ready (l : list (W -> option MCPToolResult * W)) (w : W) : option MCPToolResult * W :=
  match l with
  | [] => (None, w)
  | branch :: l => let '(r, w) := branch w in match r with Some r => (Some r, w) | None => first_ready l w end
  end.

(** [select!] polls from a branch chosen at random. *)
Definition poll (start : nat) (s : Select Tool) (w : W) : option MCPToolResult * W :=
  let k := start mod length (branches s) in
  first_ready (drop k (branches s) ++ take k (branches s)) w.

(** The entry is removed, and the future of the signal dropped. *)
Definition unregister (s : Select Tool) (w : W) : W :=
  set_notifies (alter (Notify.drop (sel_future s)) (sel_signal s) (notifies w))
    (set_cancellations (delete (sel_key s) (cancellations w)) w).

Definition call_response (s : Select Tool) (r : MCPToolResult) : MCPResponse :=
  ok_response (sel_id s) (tool_result_to_json r).

(** *** Dispatch *)

Definition answer (p : P MCPResponse) : P Outcome := response ← p; mret (Answered response).

Definition handle_request_scoped (session : option string) (req : MCPRequest) : P Outcome :=
  let m := rq_method req in
  if m =ₛ "initialize" then mret (Answered (initialize req))
  else if m =ₛ "ping" then mret (Answered (ok_response (rq_id req) (object [])))
  else if m =ₛ "tools/list" then mret (Answered (list_tools req))
  else if m =ₛ "tools/call" then handle_tools_call session req
  else if m =ₛ LOGGING_SETLEVEL then answer (handle_logging_set_level req)
  else if m =ₛ "server/discover" then mret (Answered (discover req))
  else if m =ₛ RESOURCES_SUBSCRIBE then answer (handle_resource_subscription session req true)
  else if m =ₛ RESOURCES_UNSUBSCRIBE then answer (handle_resource_subscription session req false)
  else if m =ₛ "resources/list" then answer (handle_resources_list req)
  else if m =ₛ "resources/read" then answer (handle_resources_read req)
  else if m =ₛ "prompts/list" then answer (handle_prompts_list req)
  else if m =ₛ "prompts/get" then answer (handle_prompts_get req)
  else if m =ₛ "completion/complete" then answer (handle_completion_complete req)
  else if m =ₛ "tasks/get" then answer (handle_tasks_get req)
  else if m =ₛ "tasks/cancel" then answer (handle_tasks_cancel req)
  else mret (Answered (method_not_found_response (rq_id req))).
Definition handle_request (req : MCPRequest) : P Outcome := handle_request_scoped None req.

(** The request id of a cancellation. *)
Definition request_id (params : option JsonValue) : option JsonRpcId :=
  params ← params;
  v ← json_get params "requestId";
  match v with JNumber (PosInt n) => Some (IdNumber n) | JString s => Some (IdString s) | _ => None end.

(** The table is unlocked before the signal is fired. *)
Definition handle_notification_scoped (session : option string) (method : string) (params : option JsonValue) : P () :=
  if method =ₛ "notifications/cancelled" then
    match request_id params with
    | Some rid =>
        signal ← call (fun w => (cancellations w !! (session, rid), w));
        match signal with
        | Some signal => tell (fun w => set_notifies (alter Notify.notify_one signal (notifies w)) w)
        | None => mret ()
        end
    | None => mret ()
    end
  else mret ().
Definition handle_notification (method : string) (params : option JsonValue) : P () := handle_notification_scoped None method params.

(** ** Tasks of a server, and their turns *)

(** What a task was started for: the operations of the API. *)
Inductive Origin : Type :=
| Request (session : option string) (req : MCPRequest)
| Notification (session : option string) (method : string) (params : option JsonValue)
| Changed (uri : string)
| Updated (uri : string)
| Logged (level : LogLevel) (logger : option string) (data : JsonValue)
| Retired (subscriber : string).

Inductive Task : Type :=
| Running (p : P Outcome)
| Selecting (s : Select Tool)
| Finishing (s : Select Tool) (r : MCPToolResult)
| Done (o : Outcome).

Definition settle (p : P Outcome) : Task :=
  match p with
  | Return (Selects s) => Selecting s
  | Return o => Done o
  | Await k => Running (Await k)
  end.

Definition begun (o : Origin) : P Outcome :=
  match o with
  | Request session req => handle_request_scoped session req
  | Notification session method params => handle_notification_scoped session method params ;; mret Finished
  | Changed uri => e ← notify_resource_changed uri; mret (Emitted e)
  | Updated uri => e ← notify_resource_updated uri; mret (Emitted e)
  | Logged level logger data => e ← emit_log level logger data; mret (Emitted e)
  | Retired subscriber => tell (fun w => set_registry (ResourceSubscriptions.unsubscribe_all subscriber (registry w)) w) ;; mret Finished
  end.

(** One turn of a task: [None] when it is done. *)
Definition task_turn (start : nat) (t : Task) (w : W) : option (Task * W) :=
  match t with
  | Running (Await k) => let '(p, w) := k w in Some (settle p, w)
  | Running (Return o) => Some (settle (Return o), w)
  | Selecting s => let '(r, w) := poll start s w in Some (match r with Some r => Finishing s r | None => Selecting s end, w)
  | Finishing s r => Some (Done (Answered (call_response s r)), unregister s w)
  | Done _ => None
  end.

Record McpSystem := mkMcpSystem { m_world : W; m_tasks : list (Origin * Task) }.

Inductive McpChoice : Type :=
| Arrive (o : Origin)
| Tick (d : N)
| Turn (i start : nat).

Definition mcp_step (choice : McpChoice) (s : McpSystem) : option McpSystem :=
  match choice with
  | Arrive o => Some (mkMcpSystem (m_world s) (m_tasks s ++ [(o, settle (begun o))]))
  | Tick d => Some (mkMcpSystem (set_now (w_now (m_world s) + d)%N (m_world s)) (m_tasks s))
  | Turn i start =>
      '(o, t) ← m_tasks s !! i;
      '(t, w) ← task_turn start t (m_world s);
      Some (mkMcpSystem w (<[i := (o, t)]> (m_tasks s)))
  end.

Fixpoint mcp_run (schedule : list McpChoice) (s : McpSystem) : option McpSystem :=
  match schedule with
  | [] => Some s
  | choice :: schedule => s ← mcp_step choice s; mcp_run schedule s
  end.

(** ** [serve_stdio]: one line after the other *)

Record Stdio := mkStdio {
  input : list Read;
  current : option Task;
  output : list MCPResponse;
  ended : option (result MCPError ());
}.

Definition end_with (r : result MCPError ()) (c : Stdio) : Stdio := mkStdio (input c) None (output c) (Some r).
Definition stop_reading (c : Stdio) : Stdio := end_with (Ok ()) c.
Definition write (response : MCPResponse) (c : Stdio) : Stdio := mkStdio (input c) None (output c ++ [response]) (ended c).
Definition handle_task (p : P Outcome) (c : Stdio) : Stdio := mkStdio (input c) (Some (settle p)) (output c) (ended c).

Definition stdio_parse_error (e : string) : MCPResponse :=
  mkMcpResponse "2.0" None None (Some (MCPError.invalid_params ("failed to parse request: " +:+ e))).

(** What is done with a message that arrived. *)
Definition message_task (msg : ServerMessage) : P Outcome :=
  match sv_id msg with
  | None => handle_notification (sv_method msg) (sv_params msg) ;; mret Finished
  | Some id => handle_request (MCPRequest.new id (sv_method msg) (sv_params msg))
  end.

(** [failed] is the error of the write that the turn ends with, if it fails; that of a parse
    error is not looked at. *)
Definition stdio_turn (start : nat) (failed : option string) (c : Stdio) (w : W) : option (Stdio * W) :=
  match ended c with
  | Some _ => None
  | None =>
      match current c with
      | None =>
          let '(r, reads) := read_bounded_line MAX_STDIO_LINE_BYTES (input c) in
          let c := mkStdio reads None (output c) None in
          match r with
          | Err e => Some (end_with (Err (MCPError.new (-1) ("failed to read stdin: " +:+ e))) c, w)
          | Ok (0, _) => Some (stop_reading c, w)
          | Ok (_, line) =>
              let trimmed := trim line in
              if trimmed =ₛ "" then Some (c, w)
              else match server_message_of_text trimmed with
                   | Err e => Some (match failed with None => write (stdio_parse_error e) c | Some _ => c end, w)
                   | Ok msg => Some (handle_task (message_task msg) c, w)
                   end
          end
      | Some (Done (Answered response)) =>
          Some (match failed with
                | None => write response c
                | Some e => end_with (Err (MCPError.new (-1) ("failed to write stdout: " +:+ e))) c
                end, w)
      | Some (Done _) => Some (mkStdio (input c) None (output c) None, w)
      | Some t => '(t, w) ← task_turn start t w; Some (mkStdio (input c) (Some t) (output c) None, w)
      end
  end.

(** ** [serve_http]: one connection *)

Record HttpRequest := mkHttpRequest { first_line : string; headers : list (string * string); body : option string }.

(** The place of the blank line that ends the headers. *)
Fixpoint find_end (s : string) : option nat :=
  if starts_with (crlf +:+ crlf) s then Some 0
  else match s with EmptyString => None | String _ s => S <$> find_end s end.

(** [str::lines]: a return is dropped before a newline only. *)
Definition lines (s : string) : list string :=
  let l := split_at linefeed s in
  ((fun line => default line (strip_suffix (String "013"%char "") line)) <$> removelast l) ++
  match last l with Some "" | None => [] | Some line => [line] end.

Definition lower (c : ascii) : ascii := if byte_in 65 90 c then ascii_of_N (N_of_ascii c + 32) else c.
Fixpoint to_lower (s : string) : string := match s with EmptyString => "" | String c s => String (lower c) (to_lower s) end.
Definition header (name : string) (headers : list (string * string)) : option string :=
  snd <$> (snd <$> list_find (fun kv => to_lower kv.1 = name) headers).

Definition header_of_line (line : string) : option (string * string) :=
  '(k, v) ← split_once ":"%char line; Some (trim k, trim v).

(** Bytes until the buffer holds [size]: [None] when the connection ends first. *)
Fixpoint read_until (size : nat) (buf : string) (reads : list string) : option string * list string :=
  if size <=? String.length buf then (Some buf, reads)
  else match reads with
       | [] => (None, [])
       | r :: reads => if r =ₛ "" then (None, reads) else read_until size (buf +:+ r) reads
       end.

(** The request whose headers end at [pos]. *)
Definition request_at (pos : nat) (buf : string) (reads : list string) : HttpRequest * list string :=
  let '(first_line, rest) := match lines (from_utf8_lossy (str_take pos buf)) with [] => ("", []) | l :: ls => (l, ls) end in
  let headers := omap header_of_line rest in
  let content_length := default 0%N (header "content-length" headers ≫= parse_unsigned 64) in
  if (HTTP_MAX_BODY_BYTES <? content_length)%N then (mkHttpRequest first_line headers None, reads)
  else
    let body_start := pos + 4 in
    let size := N.to_nat content_length in
    let '(r, reads) := read_until (body_start + size) buf reads in
    (mkHttpRequest first_line headers ((fun buf => from_utf8_lossy (str_take size (str_drop body_start buf))) <$> r), reads).

(** [read_http_request] over the reads of the socket; an empty or failed read is its end. *)
Fixpoint read_headers (buf : string) (reads : list string) : option HttpRequest * list string :=
  match find_end buf with
  | Some pos => let '(request, reads) := request_at pos buf reads in (Some request, reads)
  | None =>
      if (HTTP_MAX_HEADER_BYTES <? N.of_nat (String.length buf))%N then (None, reads)
      else match reads with
           | [] => (None, [])
           | r :: reads => if r =ₛ "" then (None, reads) else read_headers (buf +:+ r) reads
           end
  end.
Definition read_http_request (reads : list string) : option HttpRequest * list string := read_headers "" reads.

(** What is written back: a status without a body, or an envelope. *)
Inductive HttpReply : Type :=
| Status (status : nat)
| Envelope (response : MCPResponse).

Definition status_line (status : nat) : string :=
  match status with
  | 202 => "202 Accepted"
  | 400 => "400 Bad Request"
  | 401 => "401 Unauthorized"
  | 405 => "405 Method Not Allowed"
  | _ => "408 Request Timeout"
  end.
Definition reply_text (reply : HttpReply) : string :=
  match reply with
  | Status 408 => "HTTP/1.1 408 Request Timeout" +:+ crlf +:+ "Content-Length: 0" +:+ crlf +:+ "Connection: close" +:+ crlf +:+ crlf
  | Status status => "HTTP/1.1 " +:+ status_line status +:+ crlf +:+ "Content-Length: 0" +:+ crlf +:+ crlf
  | Envelope response =>
      let payload := response_to_text response in
      "HTTP/1.1 200 OK" +:+ crlf +:+ "Content-Type: application/json" +:+ crlf +:+
      "Content-Length: " +:+ pretty (String.length payload) +:+ crlf +:+ crlf +:+ payload
  end.

(** Between requests, with a request whose token is to be checked, handling a message, or
    closed. *)
Inductive HttpPhase : Type :=
| Reading
| Checking (token : string) (request : HttpRequest)
| Handling (t : Task)
| Closed.

Record Http := mkHttp { sock : list string; phase : HttpPhase; replies : list HttpReply }.

Definition close_with (reply : HttpReply) (c : Http) : Http := mkHttp (sock c) Closed (replies c ++ [reply]).
Definition close (c : Http) : Http := mkHttp (sock c) Closed (replies c).
Definition go_on (reply : HttpReply) (c : Http) : Http := mkHttp (sock c) Reading (replies c ++ [reply]).
(** A reply whose write is looked at. *)
Definition reply_or_close (written : bool) (reply : HttpReply) (c : Http) : Http := if written then go_on reply c else close c.

Definition bearer (request : HttpRequest) : option string := header "authorization" (headers request) ≫= strip_prefix "Bearer ".

(** The request has passed authentication. *)
Definition admit_request (written : bool) (request : HttpRequest) (c : Http) : Http :=
  match body request with
  | None => close_with (Status 400) c
  | Some body =>
      match server_message_of_text body with
      | Err e => reply_or_close written
                   (Envelope (mkMcpResponse "2.0" None None (Some (MCPError.new (-32700) ("parse error: " +:+ e))))) c
      | Ok msg => mkHttp (sock c) (Handling (settle (message_task msg))) (replies c)
      end
  end.

(** [late] tells whether the read runs into its timeout, [written] whether a write that is
    looked at succeeds. *)
Definition http_turn (start : nat) (late written : bool) (c : Http) (w : W) : option (Http * W) :=
  match phase c with
  | Closed => None
  | Reading =>
      if late then Some (close_with (Status 408) c, w)
      else
        let '(r, reads) := read_http_request (sock c) in
        let c := mkHttp reads Reading (replies c) in
        match r with
        | None => Some (close c, w)
        | Some request =>
            if first_line request =ₛ "" then Some (close c, w)
            else if negb (starts_with "POST " (first_line request)) then Some (go_on (Status 405) c, w)
            else match auth_validator self with
                 | None => Some (admit_request written request c, w)
                 | Some _ =>
                     match bearer request with
                     | None => Some (close_with (Status 401) c, w)
                     | Some token => Some (mkHttp (sock c) (Checking token request) (replies c), w)
                     end
                 end
        end
  | Checking token request =>
      match auth_validator self with
      | Some validate =>
          let '(valid, h) := validate token (host w) in
          Some (match valid with true => admit_request written request c | false => close_with (Status 401) c end, set_host h w)
      | None => None
      end
  | Handling (Done (Answered response)) => Some (reply_or_close written (Envelope response) c, w)
  | Handling (Done _) => Some (reply_or_close written (Status 202) c, w)
  | Handling t => '(t, w) ← task_turn start t w; Some (mkHttp (sock c) (Handling t) (replies c), w)
  end.
End server.
