(* ===== verification/McpFacts.v ===== *)
(** * What the tool server guarantees, however its tasks interleave

    Cancellation stays in its session; every request is answered when the clock moves on;
    the cancellation table drains; a connection over stdio is answered in order; nested
    sampling stays within its limits; subscriptions are a bounded set of pairs. *)

From stdpp Require Import gmap strings list pretty.
From Stdlib Require Import Ascii.
From S2P Require Import Prelude Json Process AgentTypes McpProtocol McpServer.

(** ** Answers *)

(** The one text of a result, and whether it is an error. *)
Definition result_text (v : JsonValue) : option JsonValue * option JsonValue :=
  (match json_get v "content" with Some (JArray [c]) => json_get c "text" | _ => None end, json_get v "isError").

Lemma tool_result_inj a a' b b' :
  tool_result_to_json (mkToolResult [TextContent a] b) = tool_result_to_json (mkToolResult [TextContent a'] b') ->
  a = a' /\ b = b'.
Proof.
  intros E. apply (f_equal result_text) in E.
  change ((Some (JString a), Some (JBool b)) = (Some (JString a'), Some (JBool b'))) in E. by simplify_eq.
Qed.

Create HintDb lc_mcp.

Section tasks.
Context {Tool H : Type} {Hhost : McpHost Tool H} {wire : McpWire} {texts : JsonText}.
Context (order : gset string -> list string) (self : MCPServer Tool H).
Notation W := (McpWorld H).
Notation P := (Proc W).
Notation System := (McpSystem (Tool := Tool) (H := H)).
Notation run := (mcp_run order self).
Notation Out := (Outcome (Tool := Tool)).
Notation T := (Task (Tool := Tool) (H := H)).

(** The answer of a cancelled call. *)
Definition cancelled_answer (r : MCPResponse) : Prop := rs_result r = Some (tool_result_to_json cancelled_result).

Lemma tool_output_not_cancelled (r : result ToolError string) :
  tool_result_to_json (tool_output r) <> tool_result_to_json cancelled_result.
Proof.
  destruct r as [text|e]; unfold tool_output, cancelled_result; intros [E Hb]%tool_result_inj; [done|].
  by destruct e.
Qed.

Lemma deadline_not_cancelled name timeout :
  tool_result_to_json (deadline_result name timeout) <> tool_result_to_json cancelled_result.
Proof. unfold deadline_result, cancelled_result. by intros [E Hb]%tool_result_inj. Qed.

(** *** Invariants of a system from guarantees *)

(** A call keeps the invariant, and only the system moves the clock. *)
Definition keeps (I : W -> Prop) (w w' : W) : Prop := I w' /\ w_now w' = w_now w.

Section invariant.
Context (I : W -> Prop) (Q : Origin -> Out -> Prop) (F : Origin -> Select Tool -> MCPToolResult -> Prop) (allowed : Origin -> Prop).
Notation Γ := (guarantees I (keeps I)).
Context (Hstart : forall o, allowed o -> Γ (Q o) (begun order self o)).
Context (Htick : forall w d, I w -> I (set_now (w_now w + d)%N w)).
Context (Hpoll : forall o sel start w, Q o (Selects sel) -> I w ->
  keeps I w (poll start sel w).2 /\ forall r, (poll start sel w).1 = Some r -> F o sel r).
Context (Hfinish : forall o sel r w, Q o (Selects sel) -> F o sel r -> I w ->
  I (unregister sel w) /\ Q o (Answered (call_response sel r))).

Definition task_ok (ot : Origin * T) : Prop :=
  match ot.2 with
  | Running p => Γ (Q ot.1) p
  | Selecting sel => Q ot.1 (Selects sel)
  | Finishing sel r => Q ot.1 (Selects sel) /\ F ot.1 sel r
  | Done out => Q ot.1 out /\ forall sel, out <> Selects sel
  end.

Definition arrives (choice : McpChoice) : Prop := match choice with Arrive o => allowed o | _ => True end.

Definition mcp_ok (s : System) : Prop := I (m_world s) /\ Forall task_ok (m_tasks s).

Lemma mcp_settle_ok o p : Γ (Q o) p -> task_ok (o, settle p).
Proof. destruct p as [[]|]; done. Qed.

Lemma task_turn_ok o start t w t' w' : I w -> task_ok (o, t) -> task_turn start t w = Some (t', w') ->
  keeps I w w' /\ task_ok (o, t').
Proof.
  intros Hw Ht. destruct t as [[a|k]|sel|sel r|a]; simpl; intros E; simplify_eq.
  - split; [done|]. by apply (mcp_settle_ok o (Return a)).
  - destruct (guarantees_step _ _ _ _ _ Ht Hw) as [Hg Hk]. destruct (k w) as [p w1]. simplify_eq. split; [done|]. by apply mcp_settle_ok.
  - destruct (Hpoll o sel start w Ht Hw) as [Hi Hf]. destruct (poll start sel w) as [[r|] w1]; simplify_eq; split; try done.
    split; [done|]. by apply Hf.
  - destruct Ht as [Hq Hf]. destruct (Hfinish o sel r w Hq Hf Hw). by split_and!.
Qed.

Definition ticked (choice : McpChoice) : N := match choice with Tick d => d | _ => 0 end.

Lemma mcp_step_ok choice s s' : arrives choice -> mcp_ok s -> mcp_step order self choice s = Some s' ->
  mcp_ok s' /\ w_now (m_world s') = (w_now (m_world s) + ticked choice)%N.
Proof.
  intros Ha [Hw Ht] Hs. destruct choice as [o|d|i start]; simplify_eq/=.
  - split; [|lia]. split; [done|]. apply Forall_app. split; [done|]. apply Forall_singleton, mcp_settle_ok, Hstart, Ha.
  - split; [|done]. split; [by apply Htick|done].
  - destruct (m_tasks s !! i) as [[o t]|] eqn:E; [|done]. simpl in Hs.
    destruct (task_turn start t (m_world s)) as [[t' w']|] eqn:Et; simplify_eq/=.
    destruct (task_turn_ok o start t _ t' w' Hw (proj1 (Forall_lookup _ _) Ht i _ E) Et) as [[Hw' Hn] Ht'].
    split; [|by rewrite Hn N.add_0_r]. split; [done|]. by apply Forall_insert.
Qed.

Lemma mcp_run_ok schedule s s' : Forall arrives schedule -> mcp_ok s -> run schedule s = Some s' -> mcp_ok s'.
Proof.
  revert s. induction schedule as [|choice schedule IH]; intros s Ha Hs Hr; simplify_eq/=; [done|].
  apply Forall_cons in Ha as [Hc Ha]. destruct (mcp_step order self choice s) as [s1|] eqn:E; [|done].
  eapply IH; [done| |done]. by eapply (mcp_step_ok choice s s1).
Qed.
End invariant.

(** *** What requests do to the cancellation table *)

(** A call that leaves the table and the clock alone. *)
Definition untabled (w w' : W) : Prop :=
  cancellations w' = cancellations w /\ notifies w' = notifies w /\ allocated w' = allocated w /\ w_now w' = w_now w.

(** What a table is said to be, as an invariant of the world. *)
Definition on_table (J : gmap Key Signal -> gmap Signal Notify -> Prop) (w : W) : Prop := J (cancellations w) (notifies w).

Lemma keeps_untabled J w w' : on_table J w -> untabled w w' -> keeps (on_table J) w w'.
Proof. intros Hw (Hc & Hn & _ & Ht). split; [|done]. unfold on_table. by rewrite Hc Hn. Qed.

Section table.
Context (I : W -> Prop) (G : W -> W -> Prop) (HG : forall w w', I w -> untabled w w' -> G w w').
Notation Γ := (guarantees I G).

Lemma mcp_quiet_call {A} (Q : A -> Prop) (act : W -> A * W) :
  (forall w, untabled w (act w).2) -> (forall w, Q (act w).1) -> Γ Q (call act).
Proof.
  intros Ha HQ. apply guarantees_call. intros w Hw. split; [|done]. by apply HG.
Qed.

Lemma mcp_quiet_tell (act : W -> W) :
  (forall w, untabled w (act w)) -> Γ (fun _ => True) (tell act).
Proof. intros Ha. by apply (mcp_quiet_call _ (fun w => ((), act w))). Qed.

Lemma quiet_ask {A} (act : H -> A * H) : Γ (fun _ => True) (ask act : P A).
Proof. apply mcp_quiet_call; [|done]. intros w. unfold untabled. by destruct (act (host w)). Qed.

Lemma quiet_registry {A} (act : ResourceSubscriptions -> A * ResourceSubscriptions) : Γ (fun _ => True) (on_registry act : P A).
Proof. apply mcp_quiet_call; [|done]. intros w. unfold untabled. by destruct (act (registry w)). Qed.

(** An answer of the request [id]: a result or an error. *)
Definition answers (id : JsonRpcId) (r : MCPResponse) : Prop :=
  rs_jsonrpc r = "2.0" /\ rs_id r = Some id /\ ((is_Some (rs_result r) /\ rs_error r = None) \/ (rs_result r = None /\ is_Some (rs_error r))).

Lemma ok_answers id v : answers id (ok_response id v).
Proof. split_and!; [done..|]. left. by split; [eexists|]. Qed.
Lemma error_answers id e : answers id (error_response id e).
Proof. split_and!; [done..|]. right. by split; [|eexists]. Qed.
Lemma respond_answers {A} id (to_json : A -> JsonValue) r : answers id (respond id to_json r).
Proof. destruct r; [apply ok_answers|apply error_answers]. Qed.
Hint Resolve ok_answers error_answers respond_answers quiet_ask quiet_registry : lc_mcp.

Lemma with_param_answers {A} (registered : option A) key req (go : A -> string -> P MCPResponse) :
  (forall a v, Γ (answers (rq_id req)) (go a v)) -> Γ (answers (rq_id req)) (with_param registered key req go).
Proof.
  intros Hgo. unfold with_param. destruct registered; [destruct (param key req)|]; [apply Hgo|apply error_answers..].
Qed.

Ltac asks := eapply guarantees_then; [auto with lc_mcp|]; intros ?; apply guarantees_ret; auto with lc_mcp.

Lemma resources_list_answers req : Γ (answers (rq_id req)) (handle_resources_list self req).
Proof. unfold handle_resources_list. destruct (resources self); [asks|apply error_answers]. Qed.
Lemma resources_read_answers req : Γ (answers (rq_id req)) (handle_resources_read self req).
Proof. apply with_param_answers. intros. asks. Qed.
Lemma prompts_list_answers req : Γ (answers (rq_id req)) (handle_prompts_list self req).
Proof. unfold handle_prompts_list. destruct (prompts self); [asks|apply error_answers]. Qed.
Lemma prompts_get_answers req : Γ (answers (rq_id req)) (handle_prompts_get self req).
Proof. apply with_param_answers. intros. asks. Qed.
Lemma completion_answers req : Γ (answers (rq_id req)) (handle_completion_complete self req).
Proof.
  unfold handle_completion_complete. destruct (completion self); [|apply error_answers].
  destruct (completion_request_of_json _); [asks|apply error_answers].
Qed.
Lemma tasks_get_answers req : Γ (answers (rq_id req)) (handle_tasks_get self req).
Proof. apply with_param_answers. intros. asks. Qed.
Lemma tasks_cancel_answers req : Γ (answers (rq_id req)) (handle_tasks_cancel self req).
Proof. apply with_param_answers. intros. asks. Qed.
Lemma subscription_answers session req subscribe :
  Γ (answers (rq_id req)) (handle_resource_subscription self session req subscribe).
Proof. apply with_param_answers. intros. asks. Qed.
Lemma set_level_answers req : Γ (answers (rq_id req)) (handle_logging_set_level self req).
Proof.
  unfold handle_logging_set_level. destruct (log_sink self); [|apply error_answers].
  destruct (json_get _ _); [|apply error_answers]. destruct (parse_level _ _); [|apply error_answers].
  eapply guarantees_then; [by apply mcp_quiet_tell|]. intros _. apply ok_answers.
Qed.

Lemma notify_quiet emit uri : Γ (fun _ => True) (notify_resource order self emit uri).
Proof.
  unfold notify_resource. destruct (subscriptions self); [|done].
  eapply guarantees_then; [by apply mcp_quiet_call|]. intros [envelope|]; [|done]. destruct (push_sink self) as [sink|]; [|done].
  eapply guarantees_then; [by apply mcp_quiet_call|]. intros subscribers. eapply guarantees_then; [|done].
  unfold deliver_all. induction subscribers as [|subscriber subscribers IH]; [done|].
  eapply guarantees_then; [by apply mcp_quiet_tell|]. intros _. apply IH.
Qed.

(** The other operations of the API never wait for a tool. *)
Lemma others_quiet o (Q : Out -> Prop) : (forall envelope, Q (Emitted envelope)) -> Q Finished ->
  match o with Request _ _ | Notification _ _ _ => True | _ => Γ Q (begun order self o) end.
Proof.
  intros He Hf. destruct o as [session req|session method params|uri|uri|level logger data|subscriber]; [done..| | | |].
  - by eapply guarantees_then; [apply notify_quiet|].
  - by eapply guarantees_then; [apply notify_quiet|].
  - eapply guarantees_then; [|done]. unfold emit_log. destruct (log_sink self); [|done].
    apply mcp_quiet_call; [|done]. intros w. unfold untabled. by case_match.
  - by eapply guarantees_then; [apply mcp_quiet_tell|].
Qed.

(** How a request ends; [R] is what is known of the signal it waits for. *)
Context (R : Key -> Signal -> Prop).
Definition request_outcome (session : option string) (req : MCPRequest) (o : Out) : Prop :=
  match o with
  | Answered r => answers (rq_id req) r /\ (rq_method req = "tools/call" -> rs_result r <> Some (tool_result_to_json cancelled_result))
  | Selects sel =>
      rq_method req = "tools/call" /\ sel_key sel = (session, rq_id req) /\ R (sel_key sel) (sel_signal sel) /\
      fst <$> sel_deadline sel = tool_timeout self
  | _ => False
  end.

Lemma answer_outcome session req (p : P MCPResponse) : rq_method req <> "tools/call" ->
  Γ (answers (rq_id req)) p -> Γ (request_outcome session req) (answer p).
Proof. intros Hm Hp. eapply guarantees_bind; [done|]. intros r Hr. by split. Qed.

Lemma straight_outcomes session req : rq_method req <> "tools/call" ->
  Γ (request_outcome session req) (handle_request_scoped self session req).
Proof.
  intros Hc. unfold handle_request_scoped.
  repeat (case_bool_decide as Hm; [first [done|apply answer_outcome; [done|]; auto using
    resources_list_answers, resources_read_answers, prompts_list_answers, prompts_get_answers, completion_answers,
    tasks_get_answers, tasks_cancel_answers, subscription_answers, set_level_answers|by split; [apply ok_answers|]]|clear Hm]).
  by split; [apply error_answers|].
Qed.

Context (Hregister : forall key, Γ (fun r => R key r.1.1) (register key : P (Signal * nat * N))).

Lemma tools_call_outcome session req : rq_method req = "tools/call" ->
  Γ (request_outcome session req) (handle_tools_call self session req).
Proof.
  intros Hm. unfold handle_tools_call. destruct (param "name" req) as [name|]; [|by split; [apply error_answers|]].
  destruct (list_find _ _) as [[? tool]|]; [|by split; [apply error_answers|]].
  eapply guarantees_bind; [apply Hregister|]. intros [[signal c] now] Hs. apply guarantees_ret. simpl in *.
  split_and!; [done..|]. by destruct (tool_timeout self).
Qed.

Lemma request_outcomes session req : Γ (request_outcome session req) (handle_request_scoped self session req).
Proof.
  destruct (decide (rq_method req = "tools/call")) as [Hm|Hm]; [|by apply straight_outcomes].
  rewrite /handle_request_scoped Hm. by apply tools_call_outcome.
Qed.
End table.

(** An entry is named for its key. *)
Definition named (table : gmap Key Signal) : Prop := forall key signal, table !! key = Some signal -> signal.1 = key.

Definition named_signal (key : Key) (signal : Signal) : Prop := signal.1 = key.

(** Making an entry keeps what is said of the table. *)
Definition keeps_register (J : gmap Key Signal -> gmap Signal Notify -> Prop) : Prop := forall table ns n key, J table ns ->
  match table !! key with
  | Some _ => True
  | None => J (<[key := (key, n)]> table) (<[(key, n) := Notify.new]> ns)
  end.

Lemma register_named J key : keeps_register J -> (forall table ns, J table ns -> named table) ->
  guarantees (on_table J) (keeps (on_table J)) (fun r => named_signal key r.1.1) (register key : P (Signal * nat * N)).
Proof.
  intros Hregister Hnamed. apply guarantees_call. intros w Hw. specialize (Hregister _ _ (allocated w) key Hw).
  destruct (cancellations w !! key) as [signal|] eqn:E; simpl; (split; [by split|]); [|done]. by eapply Hnamed.
Qed.

(** *** Polls *)

Lemma first_ready_ok (I : W -> Prop) (R : MCPToolResult -> Prop) l w :
  Forall (fun branch : W -> option MCPToolResult * W =>
    forall w, I w -> keeps I w (branch w).2 /\ forall r, (branch w).1 = Some r -> R r) l ->
  I w -> keeps I w (first_ready l w).2 /\ forall r, (first_ready l w).1 = Some r -> R r.
Proof.
  intros Hl. revert w. induction Hl as [|branch l Hb Hl IH]; intros w Hw; [done|]. simpl.
  destruct (Hb w Hw) as [[Hi Hn] Hr]. destruct (branch w) as [[r|] w']; [done|].
  unfold keeps in *. simpl in *. rewrite -Hn. by apply IH.
Qed.

Lemma branch_poll_ok (I : W -> Prop) (R : MCPToolResult -> Prop) start sel w :
  Forall (fun branch : W -> option MCPToolResult * W =>
    forall w, I w -> keeps I w (branch w).2 /\ forall r, (branch w).1 = Some r -> R r) (branches sel) ->
  I w -> keeps I w (poll start sel w).2 /\ forall r, (poll start sel w).1 = Some r -> R r.
Proof. intros Hb. apply first_ready_ok, Forall_app. split; [by apply Forall_drop|by apply Forall_take]. Qed.

(** The notifications that cancel, and what they cancel. *)
Definition cancels (o : Origin) : option Key :=
  match o with
  | Notification session method params =>
      if method =ₛ "notifications/cancelled" then (fun rid => (session, rid)) <$> request_id params else None
  | _ => None
  end.

Definition cancelling (choice : McpChoice) : option Key := match choice with Arrive o => cancels o | _ => None end.

Section cancel.
Context (K : Key).

(** No signal of an entry [K] has fired. *)
Definition unfired (ns : gmap Signal Notify) : Prop :=
  forall n notify, ns !! (K, n) = Some notify -> permit notify = false /\ woken notify = [].
Definition untouched (table : gmap Key Signal) (ns : gmap Signal Notify) : Prop := named table /\ unfired ns.
Notation I := (on_table untouched).
Notation Γ := (guarantees I (keeps I)).

Lemma unfired_other ns signal (f : Notify -> Notify) : signal.1 <> K -> unfired ns -> unfired (alter f signal ns).
Proof. intros Hs Hu n notify. destruct signal as [key j]. rewrite lookup_alter_ne; [|naive_solver]. apply Hu. Qed.

Lemma untouched_register : keeps_register untouched.
Proof.
  intros table ns n key [Hn Hu]. destruct (table !! key) eqn:E; [done|]. split.
  - intros k signal [[<- <-]|[_ Hk]]%lookup_insert_Some; [done|by apply Hn].
  - intros j notify [[_ <-]|[_ Hj]]%lookup_insert_Some; [done|by eapply Hu].
Qed.

Lemma unfired_drop ns c signal : unfired ns -> unfired (alter (Notify.drop c) signal ns).
Proof.
  intros Hu n notify. rewrite lookup_alter. case_decide as Hs; [|apply Hu]. subst.
  destruct (ns !! (K, n)) as [nf|] eqn:E; [|done]. destruct (Hu _ _ E) as [Hp Hw]. simpl. intros [= <-].
  unfold Notify.drop. rewrite Hw. case_bool_decide; [by set_solver|]. done.
Qed.

Lemma unfired_poll ns c signal notify : unfired ns -> ns !! signal = Some notify ->
  unfired (<[signal := (Notify.poll c notify).2]> ns) /\ (signal.1 = K -> (Notify.poll c notify).1 = false).
Proof.
  intros Hu Hs. destruct signal as [key j].
  assert (key = K -> permit (Notify.poll c notify).2 = false /\ woken (Notify.poll c notify).2 = [] /\ (Notify.poll c notify).1 = false)
    as Hk.
  { intros ->. destruct (Hu _ _ Hs) as [Hp Hw]. unfold Notify.poll. rewrite Hp Hw.
    case_bool_decide as Hc; [by apply elem_of_nil in Hc|]. by case_bool_decide. }
  split; [|naive_solver]. intros n nf [[[= -> ->] <-]|[_ Hn]]%lookup_insert_Some; [naive_solver|by eapply Hu].
Qed.

Definition uncancelled (o : Origin) (out : Out) : Prop :=
  match o, out with
  | Request session req, Answered r =>
      answers (rq_id req) r /\ (rq_method req = "tools/call" -> (session, rq_id req) = K -> ~ cancelled_answer r)
  | Request session req, _ => request_outcome named_signal session req out
  | _, Selects _ => False
  | _, _ => True
  end.

Lemma signalled_unfired session method params : cancels (Notification session method params) <> Some K ->
  Γ (fun _ => True) (handle_notification_scoped session method params : P ()).
Proof.
  intros Hc. unfold handle_notification_scoped. simpl in Hc. case_bool_decide as Hm; [|done].
  destruct (request_id params) as [rid|]; [|done]. simpl in Hc.
  eapply (guarantees_bind _ _ (fun found : option Signal => forall signal, found = Some signal -> signal.1 = (session, rid))).
  - apply guarantees_call. intros w [Hn Hu]. split; [by split|]. intros signal Hs. by apply Hn.
  - intros [signal|] Hs; [|done]. specialize (Hs _ eq_refl). apply guarantees_tell; [done|].
    intros w [Hn Hu]. split; [|done]. split; [done|]. apply unfired_other; [|done]. rewrite Hs. intros HK. by rewrite HK in Hc.
Qed.

Lemma begun_uncancelled o : cancels o <> Some K -> Γ (uncancelled o) (begun order self o).
Proof.
  intros Hc. destruct o as [session req|session method params|uri|uri|level logger data|subscriber].
  - eapply guarantees_mono; [apply request_outcomes; [apply keeps_untabled|intros key; apply register_named; [apply untouched_register|by intros table ns []]]|].
    intros [r|sel|?|]; [|done..]. intros [Ha Hr]. split; [done|]. intros Hm _. by apply Hr.
  - eapply guarantees_then; [by apply signalled_unfired|done].
  - by apply (others_quiet _ _ (keeps_untabled _) (Changed uri)).
  - by apply (others_quiet _ _ (keeps_untabled _) (Updated uri)).
  - by apply (others_quiet _ _ (keeps_untabled _) (Logged level logger data)).
  - by apply (others_quiet _ _ (keeps_untabled _) (Retired subscriber)).
Qed.

Definition told (o : Origin) (sel : Select Tool) (r : MCPToolResult) : Prop :=
  sel_key sel = K -> tool_result_to_json r <> tool_result_to_json cancelled_result.

Lemma poll_uncancelled o sel start w : uncancelled o (Selects sel) -> I w ->
  keeps I w (poll start sel w).2 /\ forall r, (poll start sel w).1 = Some r -> told o sel r.
Proof.
  intros Hq. assert ((sel_signal sel).1 = sel_key sel) as Hs by by destruct o; [destruct Hq as (_ & _ & ? & _)|..].
  apply branch_poll_ok. clear w. unfold branches. repeat (apply Forall_cons; split).
  - intros w Hw. unfold poll_tool. destruct (tool_poll _ _ _ _) as [[r|] h]; (split; [done|]); simpl; [|done].
    intros ? [= <-] _. apply tool_output_not_cancelled.
  - intros w [Hn Hu]. unfold poll_cancelled. destruct (notifies w !! sel_signal sel) as [notify|] eqn:E; [|by split].
    destruct (unfired_poll _ (sel_future sel) _ _ Hu E) as [Hu' Hk]. destruct (Notify.poll _ _) as [ready notify']. simpl in *.
    split; [done|]. intros r Hr Hkey. destruct ready; [|done]. rewrite Hs in Hk. by specialize (Hk Hkey).
  - destruct (sel_deadline sel) as [[timeout at_time]|]; [|done]. apply Forall_singleton. intros w Hw. split; [done|].
    unfold poll_deadline. simpl. destruct (_ <=? _)%N; [|done]. intros ? [= <-] _. apply deadline_not_cancelled.
Qed.

Lemma finish_uncancelled o sel r w : uncancelled o (Selects sel) -> told o sel r -> I w ->
  I (unregister sel w) /\ uncancelled o (Answered (call_response sel r)).
Proof.
  intros Hq Hr [Hn Hu]. split.
  - split; [|by apply unfired_drop]. intros key signal Hk. simpl in Hk. apply lookup_delete_Some in Hk as [_ Hk]. by apply Hn.
  - destruct o as [session req| | | | |]; [|done..]. destruct Hq as (Hm & Hk & _). pose proof (f_equal snd Hk) as Hid. simpl in Hid.
    split; [rewrite -Hid; apply ok_answers|]. intros _ HK. change (Some (tool_result_to_json r) <> Some (tool_result_to_json cancelled_result)).
    intros E%(inj Some). by apply Hr; [rewrite Hk|].
Qed.

Lemma uncancelled_run schedule now h s :
  Forall (fun choice => cancelling choice <> Some K) schedule ->
  run schedule (mkMcpSystem (start_world now h) []) = Some s ->
  Forall (fun ot => forall out, ot.2 = Done out -> uncancelled ot.1 out) (m_tasks s).
Proof.
  intros Ha Hr. assert (mcp_ok I uncancelled told s) as [_ Ht].
  { eapply (mcp_run_ok I uncancelled told (fun o => cancels o <> Some K));
      [apply begun_uncancelled|done|apply poll_uncancelled|apply finish_uncancelled| | |done].
    { eapply Forall_impl; [done|]. by intros []. }
    split; [|done]. split; by intros ? ? ?. }
  eapply Forall_impl; [done|]. intros [o t] Hok out Ho. simpl in *. subst t. by destruct Hok.
Qed.
End cancel.

(** C12: A tool call is only ever answered as cancelled when its own session cancelled it: under
    every schedule, some notification that arrived carries the session and the request id of
    the call.  The ids that another session reuses do not matter. *)
Theorem cancel_stays_in_session schedule now h s session req r :
  run schedule (mkMcpSystem (start_world now h) []) = Some s ->
  (Request session req, Done (Answered r)) ∈ m_tasks s -> rq_method req = "tools/call" -> cancelled_answer r ->
  exists o, Arrive o ∈ schedule /\ cancels o = Some (session, rq_id req).
Proof.
  intros Hr Ht Hm Hc.
  destruct (decide (Exists (fun choice => cancelling choice = Some (session, rq_id req)) schedule)) as [Hx|Hx].
  - apply Exists_exists in Hx as ([o|d|i start] & Hin & Ho); [by exists o|done..].
  - apply not_Exists_Forall in Hx; [|apply _].
    pose proof (proj1 (Forall_forall _ _) (uncancelled_run _ _ _ _ _ Hx Hr) _ Ht _ eq_refl) as [_ Hn]. by destruct (Hn Hm eq_refl).
Qed.

(** *** Every request is answered *)

Section live.
Notation I := (on_table (fun table _ => named table)).
Notation Γ := (guarantees I (keeps I)).

Definition served (o : Origin) (out : Out) : Prop :=
  match o, out with
  | Request session req, Answered r => answers (rq_id req) r
  | Request session req, _ => request_outcome named_signal session req out
  | _, Selects _ => False
  | _, _ => True
  end.

Lemma named_register : keeps_register (fun table _ => named table).
Proof.
  intros table ns n key Hn. destruct (table !! key) eqn:E; [done|].
  intros k signal [[<- <-]|[_ Hk]]%lookup_insert_Some; [done|by apply Hn].
Qed.

Lemma begun_served o : Γ (served o) (begun order self o).
Proof.
  destruct o as [session req|session method params|uri|uri|level logger data|subscriber].
  - eapply guarantees_mono; [apply request_outcomes; [apply keeps_untabled|intros key; by apply register_named; [apply named_register|]]|]. by intros [r|sel|?|]; [intros []|..].
  - eapply guarantees_then; [|done]. unfold handle_notification_scoped. case_bool_decide; [|done].
    destruct (request_id params) as [rid|]; [|done]. eapply guarantees_then; [by apply (mcp_quiet_call _ _ (keeps_untabled _))|].
    intros [signal|]; [|done]. by apply guarantees_tell.
  - by apply (others_quiet _ _ (keeps_untabled _) (Changed uri)).
  - by apply (others_quiet _ _ (keeps_untabled _) (Updated uri)).
  - by apply (others_quiet _ _ (keeps_untabled _) (Logged level logger data)).
  - by apply (others_quiet _ _ (keeps_untabled _) (Retired subscriber)).
Qed.

Lemma poll_keeps start sel w : I w -> keeps I w (poll start sel w).2.
Proof.
  intros Hw. apply (branch_poll_ok I (fun _ => True)); [|done]. clear w Hw. unfold branches. repeat (apply Forall_cons; split).
  - intros w Hw. split; [|done]. unfold poll_tool. by destruct (tool_poll _ _ _ _).
  - intros w Hw. split; [|done]. unfold poll_cancelled. destruct (notifies w !! _); [|done]. by destruct (Notify.poll _ _).
  - destruct (sel_deadline sel) as [[timeout at_time]|]; [|done]. by apply Forall_singleton.
Qed.

Lemma poll_served o sel start w : served o (Selects sel) -> I w ->
  keeps I w (poll start sel w).2 /\ forall r, (poll start sel w).1 = Some r -> True.
Proof. intros _ Hw. split; [by apply poll_keeps|done]. Qed.

Lemma finish_served o sel (r : MCPToolResult) w : served o (Selects sel) -> True -> I w ->
  I (unregister sel w) /\ served o (Answered (call_response sel r)).
Proof.
  intros Hq _ Hn. split.
  - intros key signal Hk. simpl in Hk. apply lookup_delete_Some in Hk as [_ Hk]. by apply Hn.
  - destruct o as [session req| | | | |]; [|done..]. destruct Hq as (_ & Hk & _). pose proof (f_equal snd Hk) as Hid. simpl in Hid.
    simpl. rewrite -Hid. apply ok_answers.
Qed.

Notation ok := (mcp_ok I served (fun _ _ _ => True)).

Lemma served_step choice s s' : ok s -> mcp_step order self choice s = Some s' ->
  ok s' /\ w_now (m_world s') = (w_now (m_world s) + ticked choice)%N.
Proof.
  apply (mcp_step_ok I served (fun _ _ _ => True) (fun _ => True));
    [intros ? _; apply begun_served|done|apply poll_served|apply finish_served|by destruct choice].
Qed.

(** A choice that is not enabled is passed over. *)
Definition mcp_do (choice : McpChoice) (s : System) : System := default s (mcp_step order self choice s).

Lemma do_ok choice s : ok s -> ok (mcp_do choice s) /\ (w_now (m_world s) + ticked choice <= w_now (m_world (mcp_do choice s)))%N.
Proof.
  intros Hs. unfold mcp_do. destruct (mcp_step order self choice s) as [s'|] eqn:E; simpl.
  - destruct (served_step _ _ _ Hs E) as [Hs' Hn]. split; [done|lia].
  - split; [done|]. destruct choice; simpl in *; [done..|lia].
Qed.

Lemma do_other choice s i ot : m_tasks s !! i = Some ot -> (forall start, choice <> Turn i start) ->
  m_tasks (mcp_do choice s) !! i = Some ot.
Proof.
  intros Hi Hc. unfold mcp_do. destruct choice as [o|d|j start]; simpl; [by apply lookup_app_l_Some|done|].
  destruct (m_tasks s !! j) as [[o t]|] eqn:E; [|done]. simpl. destruct (task_turn _ _ _) as [[t' w']|]; [|done]. simpl.
  rewrite list_lookup_insert_ne; [done|]. intros ->. by apply (Hc start).
Qed.

Lemma do_turn s i o t start t' w' : m_tasks s !! i = Some (o, t) -> task_turn start t (m_world s) = Some (t', w') ->
  m_tasks (mcp_do (Turn i start) s) !! i = Some (o, t').
Proof.
  intros Hi Ht. unfold mcp_do. simpl. rewrite Hi. simpl. rewrite Ht. simpl. apply list_lookup_insert_eq. by eapply lookup_lt_Some.
Qed.

(** A schedule without end. *)
Context (schedule : nat -> McpChoice) (s0 : System).
Fixpoint at_step (n : nat) : System := match n with 0 => s0 | S n => mcp_do (schedule n) (at_step n) end.
Fixpoint ticks (n : nat) : N := match n with 0 => 0%N | S n => (ticks n + ticked (schedule n))%N end.

Context (Hs0 : ok s0).

Lemma at_ok n : ok (at_step n) /\ (w_now (m_world s0) + ticks n <= w_now (m_world (at_step n)))%N.
Proof.
  induction n as [|n [IH Hn]]; simpl; [split; [done|lia]|]. destruct (do_ok (schedule n) _ IH). split; [done|lia].
Qed.

Context (i : nat) (o : Origin) (Hfair : forall n, exists m start, n <= m /\ schedule m = Turn i start).

(** What a task is at [n] it is when it next has its turn. *)
Lemma next_turn n t : m_tasks (at_step n) !! i = Some (o, t) ->
  exists m start, n <= m /\ schedule m = Turn i start /\ m_tasks (at_step m) !! i = Some (o, t).
Proof.
  destruct (Hfair n) as (m & start & Hm & Hs). assert (exists k, m = n + k) as [k ->] by (exists (m - n); lia). clear Hm.
  revert n Hs. induction k as [|k IH]; intros n Hs Hi; [rewrite Nat.add_0_r in Hs; by exists n, start|].
  assert ((exists start, schedule n = Turn i start) \/ forall start, schedule n <> Turn i start) as [[st Hst]|Hst].
  { destruct (schedule n) as [?|?|j st]; [by right..|]. destruct (decide (j = i)) as [->|Hj]; [left; by exists st|right; naive_solver]. }
  - by exists n, st.
  - destruct (IH (S n)) as (m' & st & Hm & Hs' & Hi'); [by rewrite Nat.add_succ_comm|by apply do_other|].
    exists m', st. split_and!; [lia|done..].
Qed.

(** The task goes on from [t]: at some time it is what its turn there makes of it. *)
Lemma progress n t (X : T -> Prop) : m_tasks (at_step n) !! i = Some (o, t) ->
  (forall start w, exists t' w', task_turn start t w = Some (t', w') /\ X t') ->
  exists m t', n <= m /\ m_tasks (at_step m) !! i = Some (o, t') /\ X t'.
Proof.
  intros Hi Ht. destruct (next_turn n t Hi) as (m & start & Hm & Hs & Hi'). destruct (Ht start (m_world (at_step m))) as (t' & w' & E & HX).
  exists (S m), t'. split_and!; [lia| |done]. simpl. rewrite Hs. by eapply do_turn.
Qed.

Definition ends_at (n : nat) : Prop := exists m out, n <= m /\ m_tasks (at_step m) !! i = Some (o, Done out).

Lemma ends_later n m : n <= m -> ends_at m -> ends_at n.
Proof. intros Hn (m' & out & Hm & Hd). exists m', out. split; [lia|done]. Qed.

Lemma finishing_ends n sel r : m_tasks (at_step n) !! i = Some (o, Finishing sel r) -> ends_at n.
Proof.
  intros Hi. destruct (progress n _ (fun t => exists out, t = Done out) Hi) as (m & t & Hm & Hd & out & ->); [|by exists m, out].
  intros start w. simpl. eexists _, _. split; [done|]. by eexists.
Qed.

(** Once the deadline has passed, the poll is ready. *)
Lemma first_ready_some l branch w : branch ∈ l ->
  Forall (fun b : W -> option MCPToolResult * W => forall w, w_now (b w).2 = w_now w) l ->
  (forall w', w_now w' = w_now w -> is_Some (branch w').1) -> is_Some (first_ready l w).1.
Proof.
  intros Hin Hl. revert w. induction Hl as [|b l Hb Hl IH]; intros w Hr; [by apply elem_of_nil in Hin|]. simpl.
  specialize (Hb w). apply elem_of_cons in Hin as [->|Hin].
  - specialize (Hr w eq_refl). destruct (b w) as [[r|] w']; [by eexists|by destruct Hr].
  - destruct (b w) as [[r|] w']; [by eexists|]. apply IH; [done|]. intros w'' Hw. apply Hr. by rewrite Hw Hb.
Qed.

Lemma poll_deadline_some start sel timeout at_time w :
  sel_deadline sel = Some (timeout, at_time) -> (at_time <= w_now w)%N -> is_Some (poll start sel w).1.
Proof.
  intros Hd Hw. eapply (first_ready_some _ (poll_deadline (sel_name sel) timeout at_time)).
  - assert (poll_deadline (sel_name sel) timeout at_time ∈ branches sel) as Hin by (unfold branches; rewrite Hd; set_solver).
    rewrite -(take_drop (start mod length (branches sel)) (branches sel)) in Hin.
    apply elem_of_app in Hin as [Hin|Hin]; apply elem_of_app; [by right|by left].
  - assert (Forall (fun b : W -> option MCPToolResult * W => forall w, w_now (b w).2 = w_now w) (branches sel)) as Hb.
    { unfold branches. rewrite Hd. repeat (apply Forall_cons; split); [..|done].
      - intros w'. unfold poll_tool. by destruct (tool_poll _ _ _ _).
      - intros w'. unfold poll_cancelled. destruct (notifies w' !! _); [|done]. by destruct (Notify.poll _ _).
      - done. }
    apply Forall_app. split; [by apply Forall_drop|by apply Forall_take].
  - intros w' Hw'. unfold poll_deadline. rewrite Hw'. apply N.leb_le in Hw as ->. by eexists.
Qed.

Context (Hclock : forall t, exists n, (t <= ticks n)%N) (Htimeout : is_Some (tool_timeout self)).

Lemma ticks_mono n k : (ticks n <= ticks (n + k))%N.
Proof. induction k as [|k IH]; [by rewrite Nat.add_0_r|]. rewrite Nat.add_succ_r. simpl. lia. Qed.

(** A task that waits goes on waiting, or finishes. *)
Lemma selecting_stays n sel k : m_tasks (at_step n) !! i = Some (o, Selecting sel) ->
  m_tasks (at_step (n + k)) !! i = Some (o, Selecting sel) \/
  exists m r, n <= m /\ m_tasks (at_step m) !! i = Some (o, Finishing sel r).
Proof.
  intros Hi. induction k as [|k [IH|?]]; [rewrite Nat.add_0_r; by left| |by right]. rewrite Nat.add_succ_r. simpl.
  assert ((exists start, schedule (n + k) = Turn i start) \/ forall start, schedule (n + k) <> Turn i start) as [[st Hst]|Hst].
  { destruct (schedule (n + k)) as [?|?|j st]; [by right..|].
    destruct (decide (j = i)) as [->|Hj]; [left; by exists st|right; naive_solver]. }
  - destruct (poll st sel (m_world (at_step (n + k)))) as [[r|] w'] eqn:E.
    + right. exists (S (n + k)), r. split; [lia|]. simpl. rewrite Hst. eapply do_turn; [done|]. simpl. by rewrite E.
    + left. rewrite Hst. eapply do_turn; [done|]. simpl. by rewrite E.
  - left. by apply do_other.
Qed.

Lemma selecting_ends n sel : served o (Selects sel) -> m_tasks (at_step n) !! i = Some (o, Selecting sel) -> ends_at n.
Proof.
  intros Hq Hi. assert (exists timeout at_time, sel_deadline sel = Some (timeout, at_time)) as (timeout & at_time & Hd).
  { destruct o; [|done..]. destruct Hq as (_ & _ & _ & Hd). destruct Htimeout as [d Ht]. rewrite Ht in Hd.
    destruct (sel_deadline sel) as [[timeout at_time]|]; [by eexists _, _|done]. }
  destruct (Hclock at_time) as [n1 Hn1].
  destruct (selecting_stays n sel n1 Hi) as [Hi1|(m & r & Hm & Hf)]; [|eapply ends_later; [done|by eapply finishing_ends]].
  destruct (next_turn _ _ Hi1) as (m & start & Hm & Hs & Him).
  assert (at_time <= w_now (m_world (at_step m)))%N as Hw.
  { destruct (at_ok m) as [_ Hw]. pose proof (ticks_mono n1 (m - n1)) as Ht. replace (n1 + (m - n1)) with m in Ht by lia. lia. }
  destruct (poll_deadline_some start sel timeout at_time _ Hd Hw) as [r Hr].
  destruct (poll start sel (m_world (at_step m))) as [r' w'] eqn:E. simpl in Hr. subst r'.
  eapply (ends_later n (S m)); [lia|]. eapply (finishing_ends (S m) sel r). simpl. rewrite Hs. eapply do_turn; [done|].
  simpl. by rewrite E.
Qed.

Lemma task_here n t : m_tasks (at_step n) !! i = Some (o, t) -> task_ok I served (fun _ _ _ => True) (o, t).
Proof. intros Hi. destruct (at_ok n) as [[_ Ht] _]. exact (proj1 (Forall_lookup _ _) Ht i _ Hi). Qed.

Lemma settled_ends n p : m_tasks (at_step n) !! i = Some (o, settle p) ->
  (forall k, p = Await k -> forall w m, m_tasks (at_step m) !! i = Some (o, settle (k w).1) -> ends_at m) -> ends_at n.
Proof.
  intros Hi Hk. destruct p as [out|k].
  - destruct out as [r|sel|e|]; [by exists n, (Answered r)| |by exists n, (Emitted e)|by exists n, Finished].
    eapply selecting_ends; [|done]. exact (task_here n _ Hi).
  - destruct (progress n _ (fun t => exists w, t = settle (k w).1) Hi) as (m & t & Hm & Ht & w & ->).
    + intros start w. simpl. destruct (k w) as [p w'] eqn:E. eexists _, _. split; [done|]. exists w. by rewrite E.
    + eapply ends_later; [done|]. by eapply Hk.
Qed.

Lemma running_ends p : forall n, m_tasks (at_step n) !! i = Some (o, settle p) -> ends_at n.
Proof.
  induction p as [out|k IH] using proc_induction; intros n Hi; eapply settled_ends; try done.
  intros k' [= <-] w m Hm. by eapply IH.
Qed.

Lemma task_ends n t : m_tasks (at_step n) !! i = Some (o, t) -> ends_at n.
Proof.
  intros Hi. destruct t as [p|sel|sel r|out].
  - destruct p as [out|k]; [|by apply (running_ends (Await k))].
    destruct (progress n _ (fun t => t = settle (Return out)) Hi) as (m & t & Hm & Ht & ->); [by intros start w; eexists _, _|].
    eapply ends_later; [done|]. by apply (running_ends (Return out)).
  - eapply selecting_ends; [|done]. exact (task_here n _ Hi).
  - by eapply finishing_ends.
  - by exists n, out.
Qed.
End live.

(** C13: Every request is answered, with its own id, as long as the server has a deadline for
    tools: whatever the tools do, even if they never answer, and whatever else arrives, a
    schedule that keeps polling the task of the request and lets time go on answers it. *)
Theorem requests_answered (schedule : nat -> McpChoice) now h n i session req t :
  is_Some (tool_timeout self) ->
  (forall n, exists m start, n <= m /\ schedule m = Turn i start) ->
  (forall t, exists n, (t <= ticks schedule n)%N) ->
  m_tasks (at_step schedule (mkMcpSystem (start_world now h) []) n) !! i = Some (Request session req, t) ->
  exists m r, n <= m /\ answers (rq_id req) r /\
    m_tasks (at_step schedule (mkMcpSystem (start_world now h) []) m) !! i = Some (Request session req, Done (Answered r)).
Proof.
  intros Ht Hfair Hclock Hi.
  assert (mcp_ok (on_table (fun table _ => named table)) served (fun _ _ _ => True) (mkMcpSystem (start_world now h) [])) as Hs0
    by by split; [intros ? ?|].
  destruct (task_ends schedule _ Hs0 i _ Hfair Hclock Ht n t Hi) as (m & out & Hm & Hd).
  destruct (task_here schedule _ Hs0 i (Request session req) m _ Hd) as [Hok Hn]. simpl in Hok.
  destruct out as [r|sel|e|]; [by exists m, r|by destruct (Hn sel)|by destruct Hok..].
Qed.

(** *** The table drains *)

Section drains.

Definition same_table (w w' : W) : Prop := cancellations w' = cancellations w.

Definition held_by (out : Out) : option Key := match out with Selects sel => Some (sel_key sel) | _ => None end.

(** A process leaves the table alone, but for the entry with which it goes on to wait. *)
Fixpoint enters (p : P Out) : Prop :=
  match p with
  | Return out => held_by out = None
  | Await k => forall w, match k w with (p, w') =>
      (same_table w w' /\ enters p) \/
      (exists sel, p = Return (Selects sel) /\
       forall key, is_Some (cancellations w' !! key) -> is_Some (cancellations w !! key) \/ key = sel_key sel) end
  end.

Lemma same_enters (Q : Out -> Prop) (p : P Out) : (forall out, Q out -> held_by out = None) ->
  guarantees (fun _ => True) same_table Q p -> enters p.
Proof.
  intros HQ Hp. induction p as [out|k IH] using proc_induction; [by apply HQ|].
  intros w. destruct (guarantees_step _ _ _ _ w Hp Logic.I) as [Hs Hk]. specialize (IH w Hk).
  destruct (k w) as [p w']. by left.
Qed.

Lemma begun_enters o : enters (begun order self o).
Proof.
  assert (forall w w' : W, True -> untabled w w' -> same_table w w') as HG by by intros w w' _ [].
  destruct o as [session req|session method params|uri|uri|level logger data|subscriber].
  - destruct (decide (rq_method req = "tools/call")) as [Hm|Hm].
    + simpl. rewrite /handle_request_scoped Hm. simpl. unfold handle_tools_call.
      destruct (param "name" req); [|done]. destruct (list_find _ _) as [[? tool]|]; [|done].
      intros w. destruct (cancellations w !! (session, rq_id req)) as [signal|] eqn:E; cbn; rewrite E; cbn; right; eexists;
        (split; [done|]); intros k Hk; [by left|].
      apply lookup_insert_is_Some in Hk as [<-|[_ Hk]]; [by right|by left].
    + apply (same_enters (request_outcome named_signal session req)); [|by apply straight_outcomes].
      intros [r|sel|e|]; [done| |done..]. by intros (Hx & _).
  - apply (same_enters (fun out => out = Finished)); [by intros out ->|].
    eapply guarantees_then; [|done]. unfold handle_notification_scoped. case_bool_decide; [|done].
    destruct (request_id params) as [rid|]; [|done]. eapply guarantees_then; [by apply (mcp_quiet_call _ _ HG)|].
    intros [signal|]; [|done]. by apply guarantees_tell.
  - apply (same_enters (fun out => held_by out = None)); [done|]. by apply (others_quiet _ _ HG (Changed uri)).
  - apply (same_enters (fun out => held_by out = None)); [done|]. by apply (others_quiet _ _ HG (Updated uri)).
  - apply (same_enters (fun out => held_by out = None)); [done|]. by apply (others_quiet _ _ HG (Logged level logger data)).
  - apply (same_enters (fun out => held_by out = None)); [done|]. by apply (others_quiet _ _ HG (Retired subscriber)).
Qed.

(** What a task holds. *)
Definition holds (ot : Origin * T) (held : option Key) : Prop :=
  match ot.2 with
  | Running p => held = None /\ enters p
  | Selecting sel | Finishing sel _ => held = Some (sel_key sel)
  | Done out => held = None
  end.

(** Every entry is held by some task. *)
Definition accounted (s : System) : Prop := exists held,
  Forall2 holds (m_tasks s) held /\ forall k, is_Some (cancellations (m_world s) !! k) -> Some k ∈ held.

Lemma settle_holds o (p : P Out) : enters p -> holds (o, settle p) None.
Proof. by destruct p as [[]|]. Qed.

Lemma poll_same_table start sel (w : W) : same_table w (poll start sel w).2.
Proof.
  unfold same_table. assert (on_table (fun table _ => table = cancellations w) (poll start sel w).2) as H0; [|exact H0].
  destruct (branch_poll_ok (on_table (fun table _ => table = cancellations w)) (fun _ => True) start sel w) as [[Hk _] _]; [|done..].
  unfold branches. repeat (apply Forall_cons; split).
  - intros w' Hw. split; [|done]. unfold poll_tool. by destruct (tool_poll _ _ _ _).
  - intros w' Hw. split; [|done]. unfold poll_cancelled. destruct (notifies w' !! _); [|done]. by destruct (Notify.poll _ _).
  - destruct (sel_deadline sel) as [[timeout at_time]|]; [|done]. by apply Forall_singleton.
Qed.

Lemma task_turn_holds o start t w t' w' held : holds (o, t) held -> task_turn start t w = Some (t', w') ->
  exists held', holds (o, t') held' /\
    ((held' = held /\ same_table w w') \/
     (exists key, held' = Some key /\ held = None /\
        forall k, is_Some (cancellations w' !! k) -> is_Some (cancellations w !! k) \/ k = key) \/
     (exists key, held = Some key /\ cancellations w' = delete key (cancellations w))).
Proof.
  intros Ht Et. destruct t as [[a|k]|sel|sel r|a]; simpl in *; simplify_eq.
  - destruct Ht as [-> Ha]. exists None. split; [by apply (settle_holds o (Return a))|by left].
  - destruct Ht as [-> Hk]. specialize (Hk w). destruct (k w) as [p w1]. simplify_eq. destruct Hk as [[Hs Hp]|(sel & -> & Hkeys)].
    + exists None. split; [by apply settle_holds|by left].
    + exists (Some (sel_key sel)). split; [done|]. right. left. by exists (sel_key sel).
  - pose proof (poll_same_table start sel w) as Hp. destruct (poll start sel w) as [[r|] w1]; simplify_eq;
      (eexists; split; [done|by left]).
  - exists None. split; [done|]. right. right. exists (sel_key sel). by split.
Qed.

Lemma held_step choice s s' : accounted s -> mcp_step order self choice s = Some s' -> accounted s'.
Proof.
  intros (held & Hh & Hk) Hs. destruct choice as [o|d|i start]; simplify_eq/=.
  - exists (held ++ [None]). split; [|by intros k Hkk; apply elem_of_app; left; apply Hk].
    apply Forall2_app; [done|]. constructor; [|done]. apply settle_holds, begun_enters.
  - by exists held.
  - destruct (m_tasks s !! i) as [[o t]|] eqn:E; [|done]. simpl in Hs.
    destruct (task_turn start t (m_world s)) as [[t' w']|] eqn:Et; simplify_eq/=.
    destruct (Forall2_lookup_l _ _ _ _ _ Hh E) as (h & Hi & Hth).
    destruct (task_turn_holds _ _ _ _ _ _ _ Hth Et) as (h' & Hh' & Hw). exists (<[i := h']> held).
    split; [by apply Forall2_insert|]. simpl. intros k Hkk.
    pose proof (lookup_lt_Some _ _ _ Hi) as Hlt.
    assert (forall x, x ∈ held -> x = h \/ x ∈ <[i := h']> held) as Hkeep.
    { intros x (j & Hj)%list_elem_of_lookup. destruct (decide (i = j)) as [->|Hij]; [left; congruence|].
      right. apply list_elem_of_lookup. exists j. by rewrite list_lookup_insert_ne. }
    assert (h' ∈ <[i := h']> held) as Hnew by (apply list_elem_of_lookup; exists i; by rewrite list_lookup_insert_eq).
    destruct Hw as [[-> Hsame]|[(key & -> & -> & Hkeys)|(key & -> & Hdel)]].
    + rewrite Hsame in Hkk. rewrite list_insert_id //. by apply Hk.
    + apply Hkeys in Hkk as [Hkk| ->]; [|done]. by destruct (Hkeep _ (Hk _ Hkk)).
    + rewrite Hdel in Hkk. apply lookup_delete_is_Some in Hkk as [Hne Hkk]. destruct (Hkeep _ (Hk _ Hkk)) as [[= ->]|]; done.
Qed.

Definition task_done (ot : Origin * T) : bool := match ot.2 with Done _ => true | _ => false end.
End drains.

(** C23: The cancellation table never outgrows the calls in flight: under every schedule an entry
    belongs to a tool call of its session and id that still waits or is about to answer, so the
    table is empty whenever everything has been answered. *)
Theorem table_drains schedule now h s :
  run schedule (mkMcpSystem (start_world now h) []) = Some s ->
  (forall key, is_Some (cancellations (m_world s) !! key) -> exists o sel, sel_key sel = key /\
     ((o, Selecting sel) ∈ m_tasks s \/ exists r, (o, Finishing sel r) ∈ m_tasks s)) /\
  (Forall (fun ot => task_done ot = true) (m_tasks s) -> cancellations (m_world s) = ∅).
Proof.
  intros Hr. assert (accounted s) as (held & Hh & Hk).
  { assert (accounted (mkMcpSystem (start_world now h) [])) as Ha by (exists []; split; [done|]; by intros k [? ?]).
    revert Hr Ha. generalize (mkMcpSystem (Tool := Tool) (start_world now h) []). induction schedule as [|choice schedule IH]; intros s0 Hr Ha.
    - by simplify_eq/=.
    - simpl in Hr. destruct (mcp_step order self choice s0) as [s1|] eqn:E; [|done]. eapply IH; [done|]. by eapply held_step. }
  assert (forall key, is_Some (cancellations (m_world s) !! key) -> exists o sel, sel_key sel = key /\
     ((o, Selecting sel) ∈ m_tasks s \/ exists r, (o, Finishing sel r) ∈ m_tasks s)) as Hall.
  { intros key Hkey. apply Hk, list_elem_of_lookup in Hkey as [i Hi].
    destruct (Forall2_lookup_r _ _ _ _ _ Hh Hi) as ([o t] & Ht & Hold). apply list_elem_of_lookup_2 in Ht.
    destruct t as [p|sel|sel r|out]; [by destruct Hold|..|done].
    - exists o, sel. injection Hold as ->. split; [done|]. by left.
    - exists o, sel. injection Hold as ->. split; [done|]. right. by exists r. }
  split; [done|]. intros Hd. apply map_empty. intros key. destruct (cancellations (m_world s) !! key) eqn:E; [|done].
  rewrite Forall_forall in Hd. destruct (Hall key) as (o & sel & _ & [Hin|[r Hin]]); [by eexists|by specialize (Hd _ Hin)..].
Qed.

(** ** Connections over stdio *)

Section stdio.

(** One turn of the connection, whatever others have done to the server in between. *)
Definition stdio_step (c c' : Stdio (Tool := Tool) (H := H)) : Prop :=
  exists start w w', stdio_turn self start None c w = Some (c', w').

(** The answers a line calls for: none to a notification or a blank line, one without an id to a
    line that does not parse. *)
Definition line_answers (line : string) : list (option JsonRpcId) :=
  if trim line =ₛ "" then []
  else match server_message_of_text (trim line) with
       | Err _ => [None]
       | Ok msg => match sv_id msg with Some id => [Some id] | None => [] end
       end.

(** The lines of a stream up to [rest], and the answers they call for. *)
Inductive reads_to : list Read -> list (option JsonRpcId) -> list Read -> Prop :=
| reads_nil reads : reads_to reads [] reads
| reads_line reads ids middle n line rest :
    reads_to reads ids middle -> read_bounded_line MAX_STDIO_LINE_BYTES middle = (Ok (S n, line), rest) ->
    reads_to reads (ids ++ line_answers line) rest.

(** How the task of a message ends, by the id of the message. *)
Definition fits (pending : option JsonRpcId) (out : Out) : Prop :=
  match out with
  | Answered r => is_Some pending /\ rs_id r = pending
  | Selects sel => pending = Some (sel_id sel)
  | Emitted _ => False
  | Finished => pending = None
  end.
Notation Γ := (guarantees (fun _ : W => True) (fun _ _ => True)).

Definition fits_task (pending : option JsonRpcId) (t : T) : Prop :=
  match t with
  | Running p => Γ (fits pending) p
  | Selecting sel | Finishing sel _ => pending = Some (sel_id sel)
  | Done out => fits pending out /\ forall sel, out <> Selects sel
  end.

Lemma settle_fits pending (p : P Out) : Γ (fits pending) p -> fits_task pending (settle p).
Proof. by destruct p as [[]|]. Qed.

Lemma message_fits msg : Γ (fits (sv_id msg)) (message_task self msg : P Out).
Proof.
  unfold message_task. destruct (sv_id msg) as [id|].
  - eapply guarantees_mono; [apply (request_outcomes (fun _ => True) (fun _ _ => True) (fun _ _ _ _ => Logic.I) (fun _ _ => True))|].
    + intros key. by apply guarantees_call.
    + intros [r|sel|e|]; [|intros (_ & Hk%(f_equal snd) & _); simpl in Hk; by rewrite /= Hk|done..]. intros [(_ & Hr & _) _]. by split.
  - eapply guarantees_then; [|done]. unfold handle_notification, handle_notification_scoped. case_bool_decide; [|done].
    destruct (request_id _); [|done]. eapply guarantees_then; [by apply guarantees_call|]. intros [signal|]; [|done].
    by apply guarantees_tell.
Qed.

Lemma turn_fits pending start t w t' w' : fits_task pending t -> task_turn start t w = Some (t', w') -> fits_task pending t'.
Proof.
  intros Ht Et. destruct t as [[a|k]|sel|sel r|a]; simpl in *; simplify_eq.
  - by apply (settle_fits pending (Return a)).
  - destruct (guarantees_step _ _ _ _ w Ht Logic.I) as [_ Hk]. destruct (k w) as [p w1]. simplify_eq. by apply settle_fits.
  - destruct (poll start sel w) as [[r|] w1]; by simplify_eq.
  - done.
Qed.

Definition pending_answer (pending : option JsonRpcId) : list (option JsonRpcId) :=
  match pending with Some id => [Some id] | None => [] end.

Definition in_step (reads : list Read) (c : Stdio (Tool := Tool) (H := H)) : Prop :=
  match ended c with
  | None => exists pending, reads_to reads ((rs_id <$> output c) ++ pending_answer pending) (input c) /\
      match current c with Some t => fits_task pending t | None => pending = None end
  | Some r => exists rest, reads_to reads (rs_id <$> output c) rest /\
      match (read_bounded_line MAX_STDIO_LINE_BYTES rest).1, r with
      | Ok (0, _), Ok _ | Err _, Err _ => True
      | _, _ => False
      end
  end.

Lemma in_step_turn reads c c' : in_step reads c -> stdio_step c c' -> in_step reads c'.
Proof.
  intros Hc (start & w & w' & Ht). destruct c as [i cur out e]. unfold in_step in Hc. unfold stdio_turn in Ht.
  cbn [input current output ended] in Hc, Ht. destruct e; [done|]. destruct Hc as (pending & Hr & Hp). destruct cur as [t|].
  - assert (forall m, (m = task_turn start t w) -> ('(t', w1) ← m; Some (mkStdio i (Some t') out None, w1)) = Some (c', w') -> in_step reads c') as Hturn.
    { intros [[t' w1]|] Em E; simplify_eq/=. exists pending. split; [done|]. by eapply turn_fits. }
    destruct t as [p|sel|sel r|[r|sel|e|]]; [by eapply Hturn..| | | |].
    + simplify_eq. destruct Hp as [[[id ->] Hid] _]. exists None. split; [|done]. simpl. by rewrite fmap_app /= app_nil_r Hid.
    + by destruct Hp as [_ Hn]; destruct (Hn sel).
    + by destruct Hp.
    + simplify_eq. destruct Hp as [Hp _]. simpl in Hp. subst. by exists None.
  - subst pending. rewrite app_nil_r in Hr.
    destruct (read_bounded_line MAX_STDIO_LINE_BYTES i) as [[[[|n] line]|e] rest] eqn:E; simplify_eq/=.
    + exists i. rewrite E. by split.
    + pose proof (reads_line _ _ _ _ _ _ Hr E) as Hline. unfold line_answers in Hline.
      destruct (bool_decide (trim line = "")); simplify_eq/=; [exists None; by split|].
      destruct (server_message_of_text (trim line)) as [msg|e]; simplify_eq/=.
      * exists (sv_id msg). split; [by destruct (sv_id msg)|]. apply settle_fits, message_fits.
      * exists None. split; [|done]. simpl. by rewrite fmap_app /= app_nil_r.
    + exists i. rewrite E. by split.
Qed.

(** *** Cancelling over stdio *)

Definition none_fired (w : W) : Prop := forall K, unfired K (notifies w).

(** A process that runs alone from an empty table: no signal fires, and only the entry of the
    call it ends up waiting for is made. *)
Fixpoint lone (p : P Out) : Prop :=
  match p with
  | Return out => held_by out = None
  | Await k => forall w, cancellations w = ∅ -> none_fired w -> match k w with (p, w') =>
      none_fired w' /\
      ((cancellations w' = ∅ /\ lone p) \/
       (exists sel, p = Return (Selects sel) /\ (sel_signal sel).1 = sel_key sel /\
        forall key, is_Some (cancellations w' !! key) -> key = sel_key sel)) end
  end.

Lemma straight_lone (Q : Out -> Prop) (p : P Out) : (forall out, Q out -> held_by out = None) ->
  guarantees (fun _ => True) untabled Q p -> lone p.
Proof.
  intros HQ Hp. induction p as [out|k IH] using proc_induction; [by apply HQ|].
  intros w Hw Hn. destruct (guarantees_step _ _ _ _ w Hp Logic.I) as [(Hc & Hs & _) Hk]. specialize (IH w Hk).
  destruct (k w) as [p w']. split; [intros K; simpl in Hs; by rewrite Hs|]. left. simpl in Hc. by rewrite Hc.
Qed.

Lemma register_fired ns n key : (forall K, unfired K ns) -> forall K, unfired K (<[(key, n) := Notify.new]> ns).
Proof. intros Hn K j notify [[_ <-]|[_ Hj]]%lookup_insert_Some; [done|by eapply Hn]. Qed.

Lemma message_lone msg : lone (message_task self msg : P Out).
Proof.
  unfold message_task. destruct (sv_id msg) as [id|].
  - set (req := MCPRequest.new id (sv_method msg) (sv_params msg)). unfold handle_request.
    destruct (decide (rq_method req = "tools/call")) as [Hm|Hm].
    + rewrite /handle_request_scoped Hm. simpl. unfold handle_tools_call.
      destruct (param "name" req); [|done]. destruct (list_find _ _) as [[? tool]|]; [|done].
      intros w Hw Hn. cbn. rewrite Hw lookup_empty. cbn. split; [intros K; by apply register_fired|].
      right. eexists. split_and!; [done|done|]. intros k Hk.
      by apply lookup_insert_is_Some in Hk as [<-|[_ [? Hk]]].
    + apply (straight_lone (request_outcome (fun _ _ => True) None req)); [|by apply straight_outcomes].
      intros [r|sel|e|]; [done| |done..]. by intros (Hx & _).
  - unfold handle_notification, handle_notification_scoped. case_bool_decide; [|done].
    destruct (request_id _); [|done]. intros w Hw Hn. cbn. rewrite Hw lookup_empty. cbn. split; [done|]. by left.
Qed.

Definition alone (c : Stdio (Tool := Tool) (H := H)) (w : W) : Prop :=
  none_fired w /\
  match current c with
  | None | Some (Done _) => cancellations w = ∅
  | Some (Running p) => cancellations w = ∅ /\ lone p
  | Some (Selecting sel) => (sel_signal sel).1 = sel_key sel /\ forall key, is_Some (cancellations w !! key) -> key = sel_key sel
  | Some (Finishing sel r) =>
      tool_result_to_json r <> tool_result_to_json cancelled_result /\
      forall key, is_Some (cancellations w !! key) -> key = sel_key sel
  end.

Lemma settle_alone (p : P Out) w i out e : none_fired w ->
  ((cancellations w = ∅ /\ lone p) \/
   (exists sel, p = Return (Selects sel) /\ (sel_signal sel).1 = sel_key sel /\
    forall key, is_Some (cancellations w !! key) -> key = sel_key sel)) ->
  alone (mkStdio i (Some (settle p)) out e) w.
Proof. intros Hn [[Hw Hp]|(sel & -> & Hs & Hk)]; (split; [done|]); [by destruct p as [[]|]|done]. Qed.

Lemma turn_alone i out t start w t' w' : alone (mkStdio i (Some t) out None) w -> task_turn start t w = Some (t', w') ->
  alone (mkStdio i (Some t') out None) w'.
Proof.
  intros [Hn Ht] Et. destruct t as [[a|k]|sel|sel r|a]; simpl in Ht, Et; simplify_eq.
  - apply (settle_alone (Return a)); [done|by left].
  - destruct Ht as [Hw Hk]. specialize (Hk w Hw Hn). destruct (k w) as [p w1]. simplify_eq. destruct Hk. by apply settle_alone.
  - destruct Ht as [Hs Hk]. pose proof (poll_same_table start sel w) as Hp.
    destruct (branch_poll_ok none_fired (fun r => tool_result_to_json r <> tool_result_to_json cancelled_result) start sel w) as [[Hf _] Hr];
      [|done|].
    { clear -Hs. unfold branches. repeat (apply Forall_cons; split).
      - intros w Hn. unfold poll_tool. destruct (tool_poll _ _ _ _) as [[r|] h]; (split; [done|]); simpl; [|done].
        intros ? [= <-]. apply tool_output_not_cancelled.
      - intros w Hn. unfold poll_cancelled. destruct (notifies w !! sel_signal sel) as [notify|] eqn:E; [|by split].
        pose proof (fun K => unfired_poll K _ (sel_future sel) _ _ (Hn K) E) as Hu. destruct (Notify.poll _ _) as [ready notify'].
        split; [split; [intros K; by destruct (Hu K)|done]|]. simpl. intros r Hr. destruct (Hu (sel_signal sel).1) as [_ Hready].
        simpl in Hready. by rewrite Hready in Hr.
      - destruct (sel_deadline sel) as [[timeout at_time]|]; [|done]. apply Forall_singleton. intros w Hw. split; [done|].
        unfold poll_deadline. simpl. destruct (_ <=? _)%N; [|done]. intros ? [= <-]. apply deadline_not_cancelled. }
    unfold same_table in Hp. destruct (poll start sel w) as [[r|] w1]; simplify_eq/=; (split; [done|]); simpl; rewrite Hp; [|done].
    split; [by apply Hr|done].
  - destruct Ht as [_ Hk]. split; [intros K; by apply unfired_drop|]. simpl. apply map_empty. intros key.
    destruct (decide (key = sel_key sel)) as [->|Hne]; [by rewrite lookup_delete_eq|]. rewrite lookup_delete_ne //.
    destruct (cancellations w !! key) eqn:E; [|done]. destruct Hne. apply Hk. by eexists.
Qed.

(** The server is used over this connection only: turns of the connection, and time. *)
Inductive alone_step : Stdio (Tool := Tool) (H := H) * W -> Stdio (Tool := Tool) (H := H) * W -> Prop :=
| alone_turn start failed c w c' w' : stdio_turn self start failed c w = Some (c', w') -> alone_step (c, w) (c', w')
| alone_tick c w d : alone_step (c, w) (c, set_now (w_now w + d)%N w).

Lemma alone_steps x y : alone_step x y -> alone x.1 x.2 -> alone y.1 y.2.
Proof.
  intros Hs Ha. destruct Hs as [start failed c w c' w' Ht|c w d]; [|done]. simpl in *. destruct c as [i cur out e].
  unfold stdio_turn in Ht. cbn [input current output ended] in Ht. destruct e; [done|]. destruct cur as [t|].
  - assert (forall m, (m = task_turn start t w) -> ('(t', w1) ← m; Some (mkStdio i (Some t') out None, w1)) = Some (c', w') -> alone c' w') as Hturn.
    { intros [[t' w1]|] Em E; simplify_eq/=. by eapply turn_alone. }
    destruct t as [p|sel|sel r|[r|sel|e|]]; [by eapply Hturn..| | | |]; simplify_eq; [by destruct failed|done..].
  - destruct Ha as [Hn Hw]. simpl in Hw.
    destruct (read_bounded_line MAX_STDIO_LINE_BYTES i) as [[[[|n] line]|e] rest] eqn:E; simplify_eq/=; [done| |done].
    destruct (bool_decide (trim line = "")); simplify_eq/=; [done|].
    destruct (server_message_of_text (trim line)) as [msg|e]; simplify_eq/=; [|by destruct failed].
    apply settle_alone; [done|]. left. split; [done|]. apply message_lone.
Qed.
End stdio.

(** C24: Over stdio every request line gets exactly one answer, in the order of the lines and
    with its id, a line that does not parse gets one without an id, and notifications and
    blank lines get none, whatever other users of the server do meanwhile; at most the answer
    to the last line is outstanding. *)
Theorem stdio_answers_in_order reads c :
  rtc stdio_step (mkStdio reads None [] None) c ->
  match ended c with
  | None => exists pending, reads_to reads ((rs_id <$> output c) ++ pending) (input c) /\ length pending <= 1
  | Some _ => exists rest, reads_to reads (rs_id <$> output c) rest /\
      forall n line, (read_bounded_line MAX_STDIO_LINE_BYTES rest).1 <> Ok (S n, line)
  end.
Proof.
  intros Hc. assert (in_step reads c) as Hi.
  { remember (mkStdio reads None [] None) as c0 eqn:E. assert (in_step reads c0) as H0 by (subst; exists None; split; [constructor|done]).
    clear E. induction Hc as [c|c c1 c' Hs Hc IH]; [done|]. apply IH. by eapply in_step_turn. }
  unfold in_step in Hi. destruct (ended c) as [r|].
  - destruct Hi as (rest & Hr & Hm). exists rest. split; [done|]. intros n line E. by rewrite E in Hm.
  - destruct Hi as (pending & Hr & _). exists (pending_answer pending). split; [done|]. destruct pending; simpl; lia.
Qed.

(** Over stdio nothing is ever cancelled: a notification is read only after the call that it
    would cancel has been answered. *)
Theorem stdio_never_cancels reads now h c w sel r :
  rtc alone_step (mkStdio reads None [] None, start_world now h) (c, w) -> current c = Some (Finishing sel r) ->
  tool_result_to_json r <> tool_result_to_json cancelled_result.
Proof.
  intros Hr Hc. assert (alone c w) as [_ Ha]; [|rewrite Hc in Ha; by destruct Ha].
  remember (mkStdio reads None [] None, start_world now h) as x eqn:Ex. change c with (c, w).1. change w with (c, w).2 at 2.
  assert (alone x.1 x.2) as H0 by (subst; split; [intros K j nf Hj; done|done]). clear Ex Hc.
  revert Hr H0. generalize (c, w) as y. intros y Hr. induction Hr as [x|x y z Hs _ IH]; [done|]. intros Hx. by eapply IH, alone_steps.
Qed.
End tasks.

(** ** Lines of a stream *)

Lemma find_byte_split c s : match find_byte c s with
  | Some pos => exists pre post, s = pre +:+ String c post /\ String.length pre = pos /\ find_byte c pre = None
  | None => True end.
Proof.
  induction s as [|d s IH]; [done|]. simpl. destruct (Ascii.eqb_spec c d) as [->|Hc]; [by exists "", s|].
  destruct (find_byte c s) as [pos|]; [|done]. destruct IH as (pre & post & -> & <- & Hn). exists (String d pre), post.
  split_and!; [done|done|]. simpl. destruct (Ascii.eqb_spec c d); [done|]. by rewrite Hn.
Qed.

Lemma first_byte_unique c pre post line rest : find_byte c pre = None -> find_byte c line = None ->
  pre +:+ String c post = line +:+ String c rest -> pre = line /\ post = rest.
Proof.
  revert line. induction pre as [|d pre IH]; intros [|e line] Hp Hl E; simpl in *.
  - by simplify_eq.
  - injection E as -> _. by rewrite Ascii.eqb_refl in Hl.
  - injection E as -> _. by rewrite Ascii.eqb_refl in Hp.
  - injection E as -> E. destruct (Ascii.eqb c e); [done|].
    destruct (IH line) as [-> ->]; [by destruct (find_byte c pre)|by destruct (find_byte c line)|done..].
Qed.

Lemma find_byte_prefix c a b line rest : find_byte c a = None -> find_byte c line = None ->
  a +:+ b = line +:+ String c rest -> exists line', line = a +:+ line' /\ find_byte c line' = None /\ b = line' +:+ String c rest.
Proof.
  revert line. induction a as [|d a IH]; intros line Ha Hl E; [by exists line|]. destruct line as [|e line]; simpl in *.
  - injection E as -> _. by rewrite Ascii.eqb_refl in Ha.
  - injection E as -> E. destruct (Ascii.eqb c e); [done|].
    destruct (IH line) as (line' & -> & Hl' & ->); [by destruct (find_byte c a)|by destruct (find_byte c line)|done|]. by exists line'.
Qed.

Lemma str_take_app a b : str_take (String.length a) (a +:+ b) = a.
Proof. induction a as [|c a IH]; [by destruct b|]. simpl. by f_equal. Qed.
Lemma str_take_all a : str_take (String.length a) a = a.
Proof. induction a as [|c a IH]; [done|]. simpl. by f_equal. Qed.
Lemma str_drop_app a b : str_drop (String.length a) (a +:+ b) = b.
Proof. induction a as [|c a IH]; [by destruct b|]. exact IH. Qed.

(** What is ASCII stays as it is. *)
Lemma lossy_ascii s : str_forall (byte_in 0 127) s = true -> from_utf8_lossy s = s.
Proof.
  induction s as [|a s IH]; [done|]. simpl. intros [Ha Hs]%andb_prop. rewrite Ha. by rewrite IH.
Qed.

(** A line that is not too long is read whole, whatever the chunks it comes in, and what follows
    it is left for the next read. *)
Theorem line_framed max_bytes chunks total buf line rest :
  Forall (fun chunk => chunk <> "") chunks -> str_join "" chunks = line +:+ String linefeed rest ->
  find_byte linefeed line = None -> str_forall (byte_in 0 127) line = true ->
  (N.of_nat (total + String.length line + 1) <= max_bytes)%N ->
  exists chunks', read_line_from max_bytes total buf (Chunk <$> chunks) =
      (Ok (total + String.length line + 1, buf +:+ line +:+ String linefeed ""), Chunk <$> chunks') /\
    Forall (fun chunk => chunk <> "") chunks' /\ str_join "" chunks' = rest.
Proof.
  intros Hc. revert total buf line. induction Hc as [|chunk chunks Hne Hc IH]; intros total buf line E Hl Ha Hmax.
  { by destruct line. }
  assert (str_join "" (chunk :: chunks) = chunk +:+ str_join "" chunks) as Ej by (destruct chunks; [by rewrite string_app_nil_r|done]).
  rewrite Ej in E. clear Ej. simpl. case_bool_decide; [done|]. pose proof (find_byte_split linefeed chunk) as Hf.
  destruct (find_byte linefeed chunk) as [pos|] eqn:Ef.
  - destruct Hf as (pre & post & -> & <- & Hn). rewrite string_app_assoc /= in E.
    destruct (first_byte_unique linefeed pre (post +:+ str_join "" chunks) line rest) as [-> <-]; [done..|].
    destruct (N.ltb_spec max_bytes (N.of_nat (total + (String.length line + 1)))); [lia|].
    rewrite Nat.add_assoc.
    assert (forall s, String.length line + 1 = String.length (line +:+ String s "")) as Hlen
      by (intros s; by rewrite length_string_app).
    assert (line +:+ String linefeed post = (line +:+ String linefeed "") +:+ post) as Es by by rewrite string_app_assoc.
    rewrite {1}(Hlen linefeed) Es str_take_app lossy_ascii; [|by rewrite str_forall_app Ha].
    destruct (Nat.eqb_spec (String.length line + 1) (String.length ((line +:+ String linefeed "") +:+ post))) as [El|El].
    + exists chunks. rewrite length_string_app -(Hlen linefeed) in El. destruct post; [done|simpl in El; lia].
    + exists (post :: chunks). split_and!.
      * by rewrite (Hlen linefeed) str_drop_app.
      * constructor; [|done]. intros ->. by rewrite string_app_nil_r -(Hlen linefeed) in El.
      * destruct chunks; [by rewrite string_app_nil_r|done].
  - destruct (find_byte_prefix _ _ _ _ _ Ef Hl E) as (line' & -> & Hl' & E'). rewrite length_string_app in Hmax.
    rewrite str_forall_app in Ha. apply andb_prop in Ha as [Ha Ha'].
    destruct (N.ltb_spec max_bytes (N.of_nat (total + String.length chunk))); [lia|].
    rewrite str_take_all lossy_ascii //.
    destruct (IH (total + String.length chunk) (buf +:+ chunk) line') as (chunks' & Hread & Hc' & Hr); [done..|lia|].
    exists chunks'. split_and!; [|done..]. etrans; [exact Hread|]. rewrite length_string_app !string_app_assoc. do 3 f_equal. lia.
Qed.

(** A character that two chunks share is lost, though the line is valid. *)
Lemma split_character_lost :
  read_bounded_line 100 [Chunk (bytes [195; 169; 10])] = (Ok (3, bytes [195; 169; 10]), []) /\
  read_bounded_line 100 [Chunk (bytes [195]); Chunk (bytes [169; 10])] = (Ok (3, replacement +:+ replacement +:+ newline), []).
Proof. by vm_compute. Qed.

(** After a line that is too long, its rest is read as a line of its own. *)
Lemma overlong_rest_read :
  let '(r, reads) := read_bounded_line 4 [Chunk "abcdef"; Chunk ("gh" +:+ newline +:+ "xy" +:+ newline)] in
  r = Err (TOO_LONG 4) /\ (read_bounded_line 4 reads).1 = Ok (3, "gh" +:+ newline).
Proof. vm_compute. by split. Qed.

(** ** Pages of tools *)

Lemma digit_char (d : N) : (d < 10)%N -> digit_value (pretty_N_char d) = Some d.
Proof.
  intros Hd. assert (d ∈ [0; 1; 2; 3; 4; 5; 6; 7; 8; 9]%N) as Hin by (rewrite !elem_of_cons; lia).
  repeat (apply elem_of_cons in Hin as [->|Hin]; [done|]). by apply elem_of_nil in Hin.
Qed.

Lemma parse_pretty_go x s : (0 < x)%N -> (x < 2 ^ 64)%N ->
  parse_digits 64 0 (pretty_N_go x s) = parse_digits 64 x s /\ exists c t, pretty_N_go x s = String c t /\ c <> "+"%char.
Proof.
  revert s. induction (N.lt_wf_0 x) as [x _ IH]. intros s Hx Hmax. rewrite pretty_N_go_step //.
  pose proof (N.Div0.div_mod x 10) as Hdm. pose proof (N.mod_lt x 10 ltac:(done)) as Hmod.
  assert (forall acc, (acc * 10 + x mod 10 = x)%N -> parse_digits 64 acc (String (pretty_N_char (x mod 10)) s) = parse_digits 64 x s) as Hstep.
  { intros acc Hacc. cbn [parse_digits]. rewrite digit_char //. cbn. rewrite Hacc. destruct (N.ltb_spec x (2 ^ 64)); [done|lia]. }
  assert (pretty_N_char (x mod 10) <> "+"%char) as Hplus.
  { intros E. pose proof (digit_char (x mod 10) Hmod) as Hd. by rewrite E in Hd. }
  destruct (decide (x / 10 = 0)%N) as [E|E].
  - rewrite E pretty_N_go_0. split; [apply Hstep; lia|]. by eexists _, _.
  - assert (x / 10 < x)%N as Hlt by (apply N.div_lt; lia).
    destruct (IH (x / 10)%N Hlt (String (pretty_N_char (x mod 10)) s)) as [Hp Hc]; [lia|lia|].
    split; [|exact Hc]. rewrite Hp. apply Hstep. lia.
Qed.

Lemma parse_pretty x : (x < 2 ^ 64)%N -> parse_unsigned 64 (pretty x) = Some x.
Proof.
  intros Hx. destruct (decide (x = 0)%N) as [->|Hne]; [done|]. unfold pretty, pretty_N. rewrite decide_False //.
  destruct (parse_pretty_go x "" ltac:(lia) Hx) as [Hp (c & t & E & Hc)]. unfold parse_unsigned.
  rewrite E in Hp |- *. cbn [strip_prefix]. rewrite (bool_decide_false ("+"%char = c)); [|by intros <-].
  cbn [default].  by rewrite bool_decide_false // Hp.
Qed.

Section pages.
Context {Tool H : Type} {Hhost : McpHost Tool H}.
Context (self : MCPServer Tool H).

(** The request of a client for the page at a cursor. *)
Definition page_request (cursor : option string) : MCPRequest :=
  MCPRequest.new (IdNumber 1) "tools/list" ((fun c => object [("cursor", JString c)]) <$> cursor).

(** A client that follows the cursors for at most [fuel] pages: [None] when there are more. *)
Fixpoint all_pages (fuel : nat) (cursor : option string) : option (list JsonValue) :=
  match fuel with
  | 0 => None
  | S fuel =>
      result ← rs_result (list_tools self (page_request cursor));
      page ← json_get result "tools" ≫= as_array;
      match json_get result "nextCursor" ≫= as_str with
      | Some next => rest ← all_pages fuel (Some next); Some (page ++ rest)
      | None => Some page
      end
  end.

Notation all := (tool_definition_to_json ∘ tool_definition <$> tools self).

Lemma page_at (n : nat) cursor : (N.of_nat (length (tools self)) + 100 < 2 ^ 64)%N -> n <= length (tools self) ->
  (cursor = None /\ n = 0) \/ cursor = Some (pretty (N.of_nat n)) ->
  let stop := Nat.min (n + 100) (length (tools self)) in
  exists result, rs_result (list_tools self (page_request cursor)) = Some result /\
    json_get result "tools" = Some (JArray (take (stop - n) (drop n all))) /\
    json_get result "nextCursor" = if stop <? length (tools self) then Some (JString (pretty (N.of_nat stop))) else None.
Proof.
  intros Hlen Hn Hc. unfold list_tools.
  assert (default 0%N (param "cursor" (page_request cursor) ≫= parse_unsigned 64) = N.of_nat n) as ->.
  { destruct Hc as [[-> ->]| ->]; [done|]. change (param "cursor" (page_request (Some (pretty (N.of_nat n))))) with (Some (pretty (N.of_nat n))).
    cbn. rewrite parse_pretty; [done|lia]. }
  cbv zeta. rewrite length_fmap. replace (N.of_nat n `min` N.of_nat (length (tools self)))%N with (N.of_nat n) by lia.
  unfold TOOL_PAGE_SIZE. destruct (N.ltb_spec (N.of_nat n + 100) (2 ^ 64)); [|lia].
  replace ((N.of_nat n + 100) `min` N.of_nat (length (tools self)))%N with (N.of_nat (Nat.min (n + 100) (length (tools self)))) by lia.
  rewrite -Nat2N.inj_sub !Nat2N.id fmap_take fmap_drop -list_fmap_compose.
  eexists. split; [reflexivity|].
  destruct (N.ltb_spec (N.of_nat (Nat.min (n + 100) (length (tools self)))) (N.of_nat (length (tools self))));
    destruct (Nat.ltb_spec (Nat.min (n + 100) (length (tools self))) (length (tools self))); try lia; by split.
Qed.

Lemma all_pages_S fuel cursor : all_pages (S fuel) cursor =
  (result ← rs_result (list_tools self (page_request cursor));
   page ← json_get result "tools" ≫= as_array;
   match json_get result "nextCursor" ≫= as_str with
   | Some next => rest ← all_pages fuel (Some next); Some (page ++ rest)
   | None => Some page
   end).
Proof. done. Qed.

(** Following the cursors gives every tool once, in the order of registration. *)
Theorem tools_enumerate : (N.of_nat (length (tools self)) + 100 < 2 ^ 64)%N ->
  all_pages (length (tools self) / 100 + 1) None = Some all.
Proof.
  intros Hlen. assert (forall k n cursor, (cursor = None /\ n = 0) \/ cursor = Some (pretty (N.of_nat n)) ->
    n <= length (tools self) -> length (tools self) - n < (k + 1) * 100 -> all_pages (k + 1) cursor = Some (drop n all)) as Hall.
  { induction k as [|k IH]; intros n cursor Hc Hn Hk; rewrite Nat.add_1_r all_pages_S;
      destruct (page_at n cursor Hlen Hn Hc) as (result & -> & Ht & Hnext);
      cbn [mbind option_bind]; rewrite Ht Hnext; cbn [mbind option_bind as_array].
    - destruct (Nat.ltb_spec (Nat.min (n + 100) (length (tools self))) (length (tools self))); [lia|].
      cbn [mbind option_bind]. f_equal. apply firstn_all2. rewrite length_drop length_fmap. lia.
    - destruct (Nat.ltb_spec (Nat.min (n + 100) (length (tools self))) (length (tools self))) as [Hlt|Hge]; cbn [mbind option_bind as_str].
      + rewrite -(Nat.add_1_r k) (IH (n + 100) (Some (pretty (N.of_nat (Nat.min (n + 100) (length (tools self))))))); [| |lia|lia].
        * cbn [mbind option_bind]. rewrite Nat.min_l; [|lia]. replace (n + 100 - n) with 100 by lia. by rewrite -drop_drop take_drop.
        * right. by rewrite Nat.min_l; [|lia].
      + f_equal. apply firstn_all2. rewrite length_drop length_fmap. lia. }
  rewrite (Hall _ 0 None); [done|by left|lia|]. pose proof (Nat.div_mod_eq (length (tools self)) 100).
  pose proof (Nat.mod_upper_bound (length (tools self)) 100). lia.
Qed.
End pages.

(** ** What a server declares *)

Section declared.
Context {Tool H : Type} {Hhost : McpHost Tool H} {wire : McpWire} {texts : JsonText}.
Context (self : MCPServer Tool H).

Definition served_by (key : string) : list string :=
  if key =ₛ "resources" then ["resources/list"; "resources/read"]
  else if key =ₛ "prompts" then ["prompts/list"; "prompts/get"]
  else if key =ₛ "completion" then ["completion/complete"]
  else if key =ₛ "tasks" then ["tasks/get"; "tasks/cancel"]
  else if key =ₛ "logging" then [LOGGING_SETLEVEL]
  else [].

(** What is not declared is not there: its methods are not found, and nothing is touched. *)
Theorem undeclared_not_found key session req : rq_method req ∈ served_by key -> json_get (capabilities self) key = None ->
  handle_request_scoped self session req = mret (Answered (method_not_found_response (rq_id req))).
Proof.
  intros Hm Hk. unfold served_by in Hm. unfold capabilities in Hk.
  repeat (case_bool_decide; [subst key|]); try (by apply elem_of_nil in Hm).
  - destruct (resources self) eqn:E; [by destruct (prompts self), (completion self), (tasks self), (log_sink self)|].
    rewrite !elem_of_cons elem_of_nil in Hm. unfold handle_request_scoped, handle_resources_list, handle_resources_read, with_param.
    by destruct Hm as [->|[->|[]]]; cbn; rewrite E.
  - destruct (prompts self) eqn:E; [by destruct (resources self), (completion self), (tasks self), (log_sink self)|].
    rewrite !elem_of_cons elem_of_nil in Hm. unfold handle_request_scoped, handle_prompts_list, handle_prompts_get, with_param.
    by destruct Hm as [->|[->|[]]]; cbn; rewrite E.
  - destruct (completion self) eqn:E; [by destruct (resources self), (prompts self), (tasks self), (log_sink self)|].
    rewrite !elem_of_cons elem_of_nil in Hm. unfold handle_request_scoped, handle_completion_complete.
    by destruct Hm as [->|[]]; cbn; rewrite E.
  - destruct (tasks self) eqn:E; [by destruct (resources self), (prompts self), (completion self), (log_sink self)|].
    rewrite !elem_of_cons elem_of_nil in Hm. unfold handle_request_scoped, handle_tasks_get, handle_tasks_cancel, with_param.
    by destruct Hm as [->|[->|[]]]; cbn; rewrite E.
  - destruct (log_sink self) eqn:E; [by destruct (resources self), (prompts self), (completion self), (tasks self)|].
    rewrite !elem_of_cons elem_of_nil in Hm. unfold handle_request_scoped, handle_logging_set_level.
    by destruct Hm as [->|[]]; cbn; rewrite E.
Qed.
End declared.

(** ** Connections over HTTP *)

Section http.
Context {Tool H : Type} {Hhost : McpHost Tool H} {wire : McpWire} {texts : JsonText}.
Context (self : MCPServer Tool H).
Notation C := (Http (Tool := Tool) (H := H)).
Notation W := (McpWorld H).

Definition http_step (x y : C * W) : Prop :=
  exists start late written, http_turn self start late written x.1 x.2 = Some y.

Definition is_handling (c : C) : bool := match phase c with Handling _ => true | _ => false end.

(** A token that is being checked is the bearer token of the request. *)
Definition checked (c : C) : Prop :=
  match phase c with
  | Checking token request => bearer request = Some token /\ starts_with "POST " (first_line request) = true
  | _ => True
  end.

Lemma admit_checked written request (c : C) : checked (admit_request self written request c).
Proof.
  unfold admit_request. destruct (body request); [|done]. destruct (server_message_of_text _); [done|]. by destruct written.
Qed.

Lemma step_checked x y : http_step x y -> checked x.1 -> checked y.1.
Proof.
  destruct x as [c w], y as [c' w']. intros (start & late & written & Ht) Hc. unfold http_turn in Ht. simpl in *.
  destruct (phase c) as [|token request|t|]; [| | |done].
  - destruct late; [by simplify_eq|]. destruct (read_http_request (sock c)) as [[request|] reads]; [|by simplify_eq].
    case_bool_decide; [by simplify_eq|]. destruct (starts_with "POST " (first_line request)) eqn:Hp; simpl in Ht; [|by simplify_eq].
    destruct (auth_validator self); [|simplify_eq; apply admit_checked].
    destruct (bearer request) as [token|] eqn:Hb; by simplify_eq.
  - destruct (auth_validator self) as [validate|]; [|done]. destruct (validate token (host w)) as [[] h]; simplify_eq;
      [apply admit_checked|done].
  - destruct t as [p|sel|sel r|[]]; try (by simplify_eq; destruct written);
      match type of Ht with (?m ≫= _) = _ => destruct m as [[t' w1]|]; by simplify_eq/= end.
Qed.

(** A server that requires a token handles no message of a connection unless the request that
    carries it is a POST whose own bearer token the validator has accepted just before. *)
Theorem http_needs_token validate reads w0 c w c' w' :
  auth_validator self = Some validate ->
  rtc http_step (mkHttp reads Reading [], w0) (c, w) -> http_step (c, w) (c', w') ->
  is_handling c = false -> is_handling c' = true ->
  exists token request, phase c = Checking token request /\ bearer request = Some token /\
    starts_with "POST " (first_line request) = true /\ (validate token (host w)).1 = true.
Proof.
  intros Hv Hr Hs Hc Hc'. assert (checked c) as Hok.
  { change c with (c, w).1. remember (mkHttp reads Reading [], w0) as x eqn:Ex. assert (checked x.1) as Hx by by subst. clear Ex Hc Hs.
    revert Hr Hx. generalize (c, w) as y. intros y Hr. induction Hr as [x|x y z Hxy _ IH]; [done|]. intros Hx. by eapply IH, step_checked. }
  destruct Hs as (start & late & written & Ht). unfold http_turn in Ht. unfold checked, is_handling in *. simpl in Ht.
  destruct (phase c) as [|token request|t|]; [| |done|done].
  - destruct late; [by simplify_eq|]. destruct (read_http_request (sock c)) as [[request|] rest]; [|by simplify_eq].
    case_bool_decide; [by simplify_eq|]. destruct (starts_with "POST " (first_line request)); simpl in Ht; [|by simplify_eq].
    rewrite Hv in Ht. destruct (bearer request); by simplify_eq.
  - exists token, request. destruct Hok as [Hb Hp]. split_and!; [done..|]. rewrite Hv in Ht.
    destruct (validate token (host w)) as [[] h]; [done|]. by simplify_eq.
Qed.
End http.

(** ** The theorems at concrete inputs *)

Inductive SampleTool : Type := Echo | Hang.
Definition sample_poll (tool : SampleTool) (input : string) (future : nat) (h : ()) : option (result ToolError string) * () :=
  (match tool with Echo => Some (Ok input) | Hang => None end, h).
#[local] Instance sample_host : McpHost SampleTool () := {
  tool_name := fun tool => match tool with Echo => "echo" | Hang => "hang" end;
  tool_description := fun _ => "a sample";
  args_schema := fun _ => None;
  tool_poll := sample_poll;
}.

Definition call_params (name : string) : JsonValue := object [("name", JString name)].
Definition cancel_params (n : N) : JsonValue := object [("requestId", json_nat n)].

(** A line is one of four words. *)
Definition sample_message (text : string) : result string ServerMessage :=
  if text =ₛ "ping" then Ok (mkServerMessage (Some (IdNumber 1)) "ping" None)
  else if text =ₛ "hang" then Ok (mkServerMessage (Some (IdNumber 7)) "tools/call" (Some (call_params "hang")))
  else if text =ₛ "note" then Ok (mkServerMessage None "notifications/initialized" None)
  else if text =ₛ "cancel" then Ok (mkServerMessage None "notifications/cancelled" (Some (cancel_params 7)))
  else Err "expected value".
#[local] Instance sample_wire : McpWire := {
  server_message_of_text := sample_message;
  completion_request_of_json := fun _ => Err "missing field";
  unexpected_level := fun _ => "invalid type";
  response_to_text := fun _ => "{}";
}.
#[local] Instance sample_texts : JsonText := {
  from_str := fun _ => None;
  json_to_string := fun _ => "null";
  debug_duration := fun n => pretty n +:+ "ns";
  debug_float := fun _ => "0.0";
}.

Definition sample_server : MCPServer SampleTool () :=
  MCPServer.with_tool Hang (MCPServer.with_tool Echo (MCPServer.new "0.27.0")).
Definition hang_request : MCPRequest := MCPRequest.new (IdNumber 7) "tools/call" (Some (call_params "hang")).

(** Two sessions call under the same id; one of them cancels. *)
Definition two_sessions : list McpChoice :=
  [Arrive (Request (Some "a") hang_request); Arrive (Request (Some "b") hang_request); Turn 0 0; Turn 1 0; Turn 0 0; Turn 1 0;
   Arrive (Notification (Some "a") "notifications/cancelled" (Some (cancel_params 7))); Turn 2 0; Turn 2 0;
   Turn 0 1; Turn 0 0; Turn 1 1; Tick (60 * 1000000000)%N; Turn 1 2; Turn 1 0].
Definition sample_start : McpSystem (Tool := SampleTool) (H := ()) := mkMcpSystem (start_world 0 ()) [].
Definition sample_order : gset string -> list string := elements.
Definition two_sessions_end : McpSystem (Tool := SampleTool) (H := ()) := default sample_start (mcp_run sample_order sample_server two_sessions sample_start).

Example two_sessions_answers :
  snd <$> m_tasks two_sessions_end =
  [Done (Answered (ok_response (IdNumber 7) (tool_result_to_json cancelled_result)));
   Done (Answered (ok_response (IdNumber 7) (tool_result_to_json (deadline_result "hang" (60 * 1000000000)%N))));
   Done Finished].
Proof. vm_compute. reflexivity. Qed.

Lemma cancel_stays_in_session_witness :
  exists o, Arrive o ∈ two_sessions /\ cancels o = Some (Some "a", IdNumber 7).
Proof.
  apply (cancel_stays_in_session sample_order sample_server two_sessions 0 () two_sessions_end (Some "a") hang_request
           (ok_response (IdNumber 7) (tool_result_to_json cancelled_result))); [vm_compute; reflexivity| |reflexivity|reflexivity].
  vm_compute. constructor.
Defined.

Lemma table_drains_witness : cancellations (m_world two_sessions_end) = ∅.
Proof.
  apply (table_drains sample_order sample_server two_sessions 0 () two_sessions_end); [vm_compute; reflexivity|].
  vm_compute. repeat constructor.
Defined.

(** One request of a tool that never answers; then turns and seconds for ever. *)
Definition patient (n : nat) : McpChoice :=
  match n with
  | 0 => Arrive (Request None hang_request)
  | S n => if Nat.even n then Turn 0 0 else Tick 1000000000
  end.

Lemma patient_even k : patient (S (2 * k)) = Turn 0 0.
Proof. unfold patient. by rewrite Nat.even_mul. Qed.
Lemma patient_odd k : patient (S (S (2 * k))) = Tick 1000000000.
Proof. unfold patient. by rewrite Nat.even_succ Nat.odd_mul. Qed.

Lemma patient_ticks k : ticks patient (S (2 * k)) = (N.of_nat k * 1000000000)%N.
Proof.
  induction k as [|k IH]; [done|]. replace (S (2 * S k)) with (S (S (S (2 * k)))) by lia.
  change (ticks patient (S (S (S (2 * k))))) with
    (ticks patient (S (2 * k)) + ticked (patient (S (2 * k))) + ticked (patient (S (S (2 * k)))))%N.
  rewrite IH patient_even patient_odd. simpl. lia.
Qed.

Lemma requests_answered_witness :
  exists m r, 1 <= m /\ answers (IdNumber 7) r /\
    m_tasks (at_step sample_order sample_server patient sample_start m) !! 0 = Some (Request None hang_request, Done (Answered r)).
Proof.
  refine (requests_answered sample_order sample_server patient 0 () 1 0 None hang_request _ _ _ _ _).
  - by eexists.
  - intros n. exists (S (2 * n)), 0. split; [lia|apply patient_even].
  - intros t. exists (S (2 * N.to_nat t)). rewrite patient_ticks. lia.
  - reflexivity.
Defined.

(** A connection over stdio, turn by turn. *)
Definition SampleStdio : Type := Stdio (Tool := SampleTool) (H := ()).
Fixpoint stdio_loop (n : nat) (c : SampleStdio) (w : McpWorld ()) : SampleStdio * McpWorld () :=
  match n with
  | 0 => (c, w)
  | S n => match stdio_turn sample_server 0 None c w with Some (c, w) => stdio_loop n c w | None => (c, w) end
  end.

Lemma stdio_loop_steps n c w : rtc (stdio_step sample_server) c (stdio_loop n c w).1.
Proof.
  revert c w. induction n as [|n IH]; intros c w; simpl; [done|].
  destruct (stdio_turn sample_server 0 None c w) as [[c1 w1]|] eqn:E; simpl; [|done].
  eapply rtc_l; [by exists 0, w, w1|apply IH].
Qed.

(** Lines cut anywhere. *)
Definition sample_lines : list Read :=
  [Chunk ("pi"); Chunk ("ng" +:+ newline +:+ "no"); Chunk ("te" +:+ newline +:+ newline +:+ "junk" +:+ newline +:+ "ping" +:+ newline)].
Definition sample_connection : SampleStdio := (stdio_loop 20 (mkStdio sample_lines None [] None) (start_world 0 ())).1.

Example sample_connection_output :
  rs_id <$> output sample_connection = [Some (IdNumber 1); None; Some (IdNumber 1)] /\ ended sample_connection = Some (Ok ()).
Proof. vm_compute. by split. Qed.

Lemma stdio_answers_in_order_witness :
  exists rest, reads_to sample_lines [Some (IdNumber 1); None; Some (IdNumber 1)] rest.
Proof.
  destruct (stdio_answers_in_order sample_server sample_lines sample_connection (stdio_loop_steps _ _ _)) as (rest & Hr & _).
  exists rest. exact Hr.
Defined.
